(* ===== verification/_CoqProject ===== *)
-Q . S2P
Prelude.v
Util.v
Glob.v
Dict.v
DictProps.v
DictScan.v
Adlist.v
AdlistProps.v
Endian.v
Intset.v
IntsetProps.v
Ziplist.v
ZiplistProps.v
ZiplistOps.v
ZiplistSeq.v
Crc64.v
Lzf.v
LzfProps.v
Object.v
Double.v
Skiplist.v
SkiplistProps.v
ZsetProps.v
ZsetMap.v
SdsArgs.v
Protocol.v
ProtocolProps.v
Backlog.v
BacklogProps.v
Rio.v
Rdb.v
RdbProps.v
Coll.v
SetType.v
HashType.v
Db.v
Server.v
TString.v
StringProps.v
Command.v
StringCmds.v
KeyCmds.v
Lcs.v
LcsProps.v
Bitops.v
BitopsProps.v
BitCmds.v
BitCmdsProps.v
RdbFile.v
RdbFileProps.v
Dump.v
DumpProps.v
Backend.v
BackendWorker.v
BackendInv.v
BackendExec.v
BackendSystem.v
BackendRuns.v
BackendProps.v
BackendFunc.v
BackendPark.v
