(* ===== verification/Prelude.v ===== *)
(** * A verification library for Redisoo

    Redisoo is a Redis server with a cache-through backend: a GET of a key that
    is not in memory, a SET or a DEL can be sent to a database (through SOCI or
    gRPC) by one of three working threads, while the client that asked for it is
    parked and the server goes on with the others.  The library models that
    backend, the server code it runs in, and the data structures and formats of
    the server around it, as executable functions in a state-and-fault monad, and
    proves what makes them correct.

    ** The program and its model

    - src/src/util.c, integer conversion: Util.v; the matcher of glob patterns:
      Glob.v.
    - src/src/object.c, string objects and their encodings: Object.v.
    - src/src/dict.c, the hash table with incremental rehashing: Dict.v, and its
      refinement to finite maps in DictProps.v; [dictScan], with its cursor of
      reversed bits, in DictScan.v.
    - src/src/adlist.c, doubly linked lists in a heap of nodes: Adlist.v, and their
      refinement to sequences in AdlistProps.v.
    - src/src/endianconv.c and endianconv.h, byte order: Endian.v, for a host of
      either order.
    - src/src/intset.c, sets of integers as sorted arrays, at the level of bytes:
      Intset.v, and their refinement to finite sets in IntsetProps.v.
    - src/src/ziplist.c, lists of strings and integers in one block, at the level of
      bytes: Ziplist.v; the bytes of entries in ZiplistProps.v, the operations in
      ZiplistOps.v and their refinement to sequences in ZiplistSeq.v.
    - src/src/t_zset.c, the skip lists of the sorted sets in a heap of nodes, and the
      sorted set operations in that encoding: Skiplist.v over the doubles of Double.v;
      the links and spans in SkiplistProps.v, the order in ZsetProps.v, the refinement
      to finite maps in ZsetMap.v.
    - src/src/sds.c, splitting a line into quoted arguments and quoting them:
      SdsArgs.v.
    - src/src/networking.c, the query buffer and the parser of requests, and the
      printer of requests of src/src/aof.c: Protocol.v and ProtocolProps.v.  The
      model of the backend starts from parsed requests.
    - src/src/replication.c, the circular backlog, the replication identifiers and
      the decision of a partial resynchronization: Backlog.v and BacklogProps.v.
    - src/src/lzf_c.c and lzf_d.c, compression: Lzf.v and LzfProps.v.
    - src/src/crc64.c and crcspeed.c, the 64-bit checksum: Crc64.v.
    - src/src/rio.h and rio.c, streams over a buffer: Rio.v.
    - src/src/rdb.c, lengths, integers and strings of the RDB format: Rdb.v and
      RdbProps.v; whole files ([rdbSaveRio] and [rdbLoadRio]): RdbFile.v and
      RdbFileProps.v.
    - src/src/t_set.c and t_hash.c, the set and hash objects on integer sets, ziplists
      and hash tables: SetType.v and HashType.v, with what they share in Coll.v.
    - src/src/cluster.c, DUMP and RESTORE: Dump.v and DumpProps.v.
    - src/src/db.c, keyspace and expiry: Db.v.  The keyspaces are [gmap]s here:
      Dict.v shows that the table implements one.
    - src/src/server.h, server.c, networking.c, the state of the server and of the
      clients, the command table: Server.v.  [server] has the fields of [struct
      redisServer] the backend reads or writes, [client] those of [struct client].
    - src/src/t_string.c, multi.c and parts of db.c, the commands a client can be
      parked on, transactions, SELECT, and [call]: TString.v, with their runs and
      their specification on the observable keys in StringProps.v.
    - The commands that do not involve the backend run behind an interface of the
      command table: Command.v has the state of such a command, the helpers of object.c
      and db.c it calls, and the abstract store with its rules; StringCmds.v the other
      commands of t_string.c; Lcs.v and LcsProps.v STRALGO LCS; KeyCmds.v the commands
      on keys and expire times of db.c and expire.c; BitCmds.v and BitCmdsProps.v the bit
      commands, with the bit functions they call in Bitops.v and BitopsProps.v (bitops.c).
    - src/src/backend.c, main-thread part, and its hooks in [processCommand],
      [processInputBuffer] and [freeClient]: Backend.v.
    - src/src/backend.c, working threads, src/src/redisoo.cc and the settings of the
      database in config.c: BackendWorker.v.  A thread loads the settings, without the
      lock, before its call ([Calling]) and uses them in it.
    - The whole as a concurrent system, one step relation for the main thread, the
      threads, the pipes, the clients and the environment, with CLIENT KILL and CONFIG SET
      between any two requests: BackendSystem.v.

    A function of the source is a definition of the same name.  It returns a value
    and a new state, or a [fault]: a failed assertion, an access through a pointer
    that is not of the expected kind, the use of a freed client, an allocation that no
    machine can satisfy.  Integers are [Z]
    with their wrap-around written out ([i32], [i64], [u64]); strings are lists of bytes;
    heap strings whose identity matters (the keys of the jobs) have an address.

    ** What is proved

    - BackendInv.v, BackendExec.v and BackendSystem.v: an invariant of the parked
      clients, the pending keys, the job slots and the threads, kept by every step.
    - BackendProps.v: in all reachable states the cache-through code has only five kinds
      of crash (each is reached by a run in BackendRuns.v): two assertions, an integer used
      as a pointer, the resumption of a client that CLIENT KILL freed, and the use of a
      string that CONFIG SET freed; parked clients wait in exactly
      one list; pending keys have a job; the pipe protocol; a job is answered in at
      most five thread steps; the main thread returns to the event loop.
    - BackendPark.v: what a GET request does, and that a SET with another value than the
      pending one skips the database.
    - BackendFunc.v: what the start of a completion stores, the answer of each client when
      it is resumed, in any state and for any command it waits with, and whole handlers
      when the waiting clients have pipelined nothing, for hits,
      misses, successful SETs and failed writes.
    - BackendRuns.v: executions of the model that show defects of the code.
    - StringProps.v, Db.v: the SET family, GET and DEL and the keyspace functions
      implement a store of the keys that are not expired.
    - StringCmds.v, KeyCmds.v: every command, as [call] runs it, has the replies, the
      effect on the store and the number of changes of its specification, errors
      and integer edges included; RANDOMKEY ends.
    - LcsProps.v: STRALGO, with any arguments, replies an error, or a longest common
      subsequence of two strings or of two keys, its length or its matching ranges when the
      size of the table fits in 32 bits; it leaves its table otherwise.
    - BitopsProps.v, BitCmdsProps.v: the functions that count, search and combine bits a
      word at a time agree with the lists of bits, at any address and byte order; a
      BITFIELD integer is read back as it was set; the bit commands have the replies and
      effects of their specification on lists of bits, overflow modes included.
    - DictProps.v: the hash table implements a finite map in every state of the
      rehashing; the rehashing ends; an iterator visits each entry once.
    - DictScan.v: a scan returns every key that is present all the time, however the
      table is resized or rehashed between two calls.
    - LzfProps.v: compression and decompression are inverse and stay inside their
      arrays, except that the compressor reads behind an input of one byte.  Crc64.v: the table-driven checksum is the bitwise one on little endian
      machines (and 0 on big endian ones).
    - RdbProps.v, RdbFileProps.v: strings and whole files are loaded as they were
      saved, also on a machine of the other byte order, and never from a proper
      prefix.  DumpProps.v: RESTORE gives back what DUMP replied, and refuses a
      payload with a changed byte.
    - AdlistProps.v: the linked lists implement sequences; the loop that drops a
      freed client from a waiting list while iterating over it is a filter.
    - ZiplistSeq.v: ziplists implement sequences of strings below 4 GB: insertion,
      deletion, merging with the cascade of the stored lengths, and all the reads.
    - ZsetMap.v: a sorted set implements a map from elements to scores with ranks,
      whatever heights its nodes get; searches and deletions by rank, score and
      element find and remove exactly the nodes of the range.
    - IntsetProps.v: integer sets implement finite sets, their bytes are the same
      on hosts of both orders, and the 32-bit size of the array bounds them.
    - SetType.v, HashType.v: set objects implement sets of strings and hash objects maps
      of strings, whatever their encoding and across the conversions; these theorems are
      proved from those of the integer sets, ziplists and hash tables.
    - ProtocolProps.v: requests are read back from their printed form however the
      bytes arrive, and no input makes the parser leave its buffer or fault.
    - BacklogProps.v: after any writes, resizes, changes of the identifiers and droppings
      of final PINGs a partial resynchronization is accepted exactly for the offsets that
      the history allows, and sends exactly the bytes that the replica misses.
    - Glob.v: the pattern matcher accepts the strings that a grammar of patterns
      describes.
    - Util.v, Object.v: printing and parsing integers are inverse; operations on
      string objects do not depend on the encoding.

    ** Parameters

    The rest of the command table ([OtherCommands]; StringCmds.v, LcsProps.v, KeyCmds.v and
    BitCmdsProps.v each put their commands in front of any such rest, so the theorems on
    the backend hold with them), the database behind SOCI and gRPC ([Database]), the order
    in which a dictionary gives its entries ([CandidateOrder], [DictOrder]), the hash
    function ([HashFunction]) and the byte order of the machine ([Host]) are type classes
    with the laws the code relies on.
    BackendRuns.v, StringProps.v, KeyCmds.v and DictProps.v have instances.  The contents of
    newly allocated memory, the address of a buffer (the checksum and the bit functions
    treat the unaligned head of it apart), the results of [random], the uninitialised hash
    table of the compressor, the value of a shift by 64 (which C leaves undefined; [wide] in
    Bitops.v), the configured limits of the request parser and the functions that save and
    load the objects that are not strings are arguments.  The limits of the encodings of
    sets and hashes are arguments too; the theorem on hashes needs them small enough for the
    32-bit sizes of ziplists, as the default configuration is.

    ** Bounds and fuel

    Loops are structural where the code walks a list or a table.  The loop of
    [processInputBuffer] has one round for each request in the buffer and one more;
    [dictNext] has two rounds for each bucket; [_dictNextPower] doubles at most 61
    times; the digit loops have one round for each digit of a 64-bit number.
    [intsetSearch] halves a range of 32-bit positions; the loops of the request
    parser have one round for each byte in the buffer; the loop that reads the
    backlog has at most two rounds.  The loops of the compressor, of the streams, of the
    pattern matcher and of [rdbLoadRio] have one round for each byte of their input.
    A walk over one level of a skip list has one round for each node and one more; the
    loops over a ziplist have one round for each of its bytes.  The walk back of STRALGO
    LCS has one round for each byte of the two strings; the word loops of the bit functions
    have at most one round for each byte of the string; [randomkey_ends] says how many
    rounds of the loop of RANDOMKEY are enough.
    [main_thread_returns] and [job_is_answered] say how many steps are enough.

    ** Not modelled

    Memory management other than the identity of freed clients,
    list nodes and settings, the events that are handled while a file is loaded or a script
    is slow ([processEventsWhileBlocked]), output buffers, the connections and the full synchronization of
    replication, the files, sockets and child processes of the persistence, the objects
    other than strings in it, cluster, scripting, Pub/Sub, modules, keyspace
    events, statistics, the list encoding of small sorted sets, INCRBYFLOAT (long double
    arithmetic), lists and streams, and the commands of the data types other than
    strings. *)

From stdpp Require Import base tactics option list gmap strings relations.

Set Default Proof Using "Type".

(** ** Scope for the program notations *)

Declare Scope prog_scope.
Delimit Scope prog_scope with prog.

(** ** Failing computations

    C code stops on a failed [serverAssert]/[assert], on an access through a
    pointer that is not an object of the expected kind, on the use of a freed
    object, and on an allocation no machine can satisfy.  Each is a value of [fault], so that "this function cannot
    crash the server" is a statement about results. *)

Inductive fault :=
  | AssertFailed (site : string)
  | BadPointer (site : string)
  | UseAfterFree (site : string)
  | OutOfMemory (site : string).

Inductive res (A : Type) :=
  | Ok (a : A)
  | Fault (f : fault).
Arguments Ok {A} _.
Arguments Fault {A} _.

#[global] Instance fault_eq_dec : EqDecision fault.
Proof. solve_decision. Defined.

(** ** The state-and-fault monad *)

Definition M (S A : Type) : Type := S → res (A * S).

#[global] Instance M_ret (S : Type) : MRet (M S) := λ A a s, Ok (a, s).
#[global] Instance M_bind (S : Type) : MBind (M S) := λ A B k m s,
  match m s with
  | Ok (a, s') => k a s'
  | Fault f => Fault f
  end.

(** Code without state that can fault. *)
#[global] Instance res_ret : MRet res := λ A a, Ok a.
#[global] Instance res_bind : MBind res := λ A B k m,
  match m with Ok a => k a | Fault f => Fault f end.

Section Operations.
Context {S : Type}.

Definition get : M S S := λ s, Ok (s, s).
Definition gets {A} (f : S → A) : M S A := λ s, Ok (f s, s).
Definition put (s' : S) : M S unit := λ _, Ok (tt, s').
Definition modify (f : S → S) : M S unit := λ s, Ok (tt, f s).
Definition fail {A} (f : fault) : M S A := λ _, Fault f.

(** [serverAssert(b)] at the named function. *)
Definition serverAssert (b : bool) (site : string) : M S unit :=
  if b then mret tt else fail (AssertFailed site).

(** Reading through a pointer that must not be NULL. *)
Definition deref {A} (o : option A) (site : string) : M S A :=
  match o with Some a => mret a | None => fail (BadPointer site) end.

Fixpoint forM_ {A} (l : list A) (f : A → M S unit) : M S unit :=
  match l with
  | [] => mret tt
  | a :: l => f a ;; forM_ l f
  end.

End Operations.

(** ** Weakest preconditions

    [wp E m Q s]: running [m] from [s] ends in a value and a state that satisfy
    [Q], or in a fault allowed by [E]. *)

Definition wp {S A : Type} (E : fault → Prop) (m : M S A) (Q : A → S → Prop) (s : S) : Prop :=
  match m s with
  | Ok (a, s') => Q a s'
  | Fault f => E f
  end.

(** No fault is allowed. *)
Definition noFault : fault → Prop := λ _, False.

Create HintDb wp discriminated.

Section WpRules.
Context {S : Type} (E : fault → Prop).
Implicit Types s : S.

Lemma wp_ret {A} (a : A) (Q : A → S → Prop) s :
  Q a s → wp E (mret a) Q s.
Proof. done. Qed.

Lemma wp_bind {A B} (m : M S A) (k : A → M S B) (Q : B → S → Prop) s :
  wp E m (λ a, wp E (k a) Q) s → wp E (m ≫= k) Q s.
Proof. unfold wp, mbind, M_bind. by destruct (m s) as [[a s']|f]. Qed.

Lemma wp_bind_inv {A B} (m : M S A) (k : A → M S B) (Q : B → S → Prop) s :
  wp E (m ≫= k) Q s → wp E m (λ a, wp E (k a) Q) s.
Proof. unfold wp, mbind, M_bind. by destruct (m s) as [[a s']|f]. Qed.

Lemma wp_get (Q : S → S → Prop) s : Q s s → wp E get Q s.
Proof. done. Qed.

Lemma wp_gets {A} (f : S → A) (Q : A → S → Prop) s : Q (f s) s → wp E (gets f) Q s.
Proof. done. Qed.

Lemma wp_put s' (Q : unit → S → Prop) s : Q tt s' → wp E (put s') Q s.
Proof. done. Qed.

Lemma wp_modify (f : S → S) (Q : unit → S → Prop) s : Q tt (f s) → wp E (modify f) Q s.
Proof. done. Qed.

Lemma wp_fail {A} (f : fault) (Q : A → S → Prop) s : E f → wp E (fail f) Q s.
Proof. done. Qed.

Lemma wp_serverAssert (b : bool) site (Q : unit → S → Prop) s :
  b = true → Q tt s → wp E (serverAssert b site) Q s.
Proof. by intros ->. Qed.

Lemma wp_deref {A} (o : option A) a site (Q : A → S → Prop) s :
  o = Some a → Q a s → wp E (deref o site) Q s.
Proof. by intros ->. Qed.

Lemma wp_run_ok {A} (m : M S A) (Q : A → S → Prop) s a s' :
  m s = Ok (a, s') → Q a s' → wp E m Q s.
Proof. unfold wp. by intros ->. Qed.

Lemma wp_mono {A} (m : M S A) (Q Q' : A → S → Prop) s :
  (∀ a s', Q a s' → Q' a s') → wp E m Q s → wp E m Q' s.
Proof. unfold wp. destruct (m s) as [[a s']|f]; eauto. Qed.

Lemma wp_and {A} (m : M S A) (Q Q' : A → S → Prop) s :
  wp E m Q s → wp E m Q' s → wp E m (λ a s', Q a s' ∧ Q' a s') s.
Proof. unfold wp. destruct (m s) as [[a s']|f]; eauto. Qed.

(** A loop over a list with an invariant. *)
Lemma wp_forM_inv {A} (I : S → Prop) (l : list A) (f : A → M S unit) s :
  I s →
  (∀ a s', a ∈ l → I s' → wp E (f a) (λ _, I) s') →
  wp E (forM_ l f) (λ _, I) s.
Proof.
  revert s. induction l as [|a l IH]; intros s Hs Hf; [done|].
  apply wp_bind. eapply wp_mono; [|apply Hf; [set_solver|done]].
  intros [] s' Hs'. apply IH; [done|]. intros b s'' ??. apply Hf; [set_solver|done].
Qed.

(** A loop that counts, with an invariant for each value of the counter. *)
Lemma wp_forM_seq (I : nat → S → Prop) a n (f : nat → M S unit) s :
  I a s →
  (∀ k s', (a ≤ k < a + n)%nat → I k s' → wp E (f k) (λ _, I (1 + k)%nat) s') →
  wp E (forM_ (seq a n) f) (λ _, I (a + n)%nat) s.
Proof.
  revert a s. induction n as [|n IH]; intros a s Hs Hf; [by rewrite Nat.add_0_r|].
  apply wp_bind. eapply wp_mono; [|apply Hf; [lia|done]]. intros [] s' Hs'.
  rewrite <-Nat.add_succ_comm. apply IH; [done|]. intros k s'' Hk. apply Hf. lia.
Qed.

End WpRules.

(** Weakening the allowed faults. *)
Lemma wp_fault_mono {S A : Type} (E E' : fault → Prop) (m : M S A) Q (s : S) :
  (∀ f, E f → E' f) → wp E m Q s → wp E' m Q s.
Proof. unfold wp. destruct (m s) as [[a s']|f]; eauto. Qed.

(** With no fault allowed a weakest precondition is a run. *)
Lemma wp_run {S A : Type} (m : M S A) Q (s : S) :
  wp noFault m Q s ↔ ∃ a s', m s = Ok (a, s') ∧ Q a s'.
Proof.
  unfold wp, noFault. destruct (m s) as [[a s']|f]; split; try done.
  - eauto.
  - by intros (?&?&[= <- <-]&?).
  - by intros (?&?&?&?).
Qed.

(** ** Runs: rewriting a program with the result of its first part *)

Section Runs.
Context {S A B : Type}.

Lemma bind_run (m : M S A) (k : A → M S B) s a s' :
  m s = Ok (a, s') → (m ≫= k) s = k a s'.
Proof. unfold mbind, M_bind. by intros ->. Qed.

Lemma bind_run_assoc {C} (m : M S A) (k : A → M S B) (r : B → M S C) s b s' :
  (m ≫= k) s = Ok (b, s') → (m ≫= λ a, k a ≫= r) s = r b s'.
Proof.
  unfold mbind, M_bind. destruct (m s) as [[a s1]|f]; [|done]. intros Hk. by rewrite Hk.
Qed.

Lemma bind_get (k : S → M S B) s : (get ≫= k) s = k s s.
Proof. done. Qed.

Lemma bind_gets (f : S → A) (k : A → M S B) s : (gets f ≫= k) s = k (f s) s.
Proof. done. Qed.

Lemma bind_modify (f : S → S) (k : unit → M S B) s : (modify f ≫= k) s = k tt (f s).
Proof. done. Qed.

Lemma bind_ret (a : A) (k : A → M S B) s : (mret a ≫= k) s = k a s.
Proof. done. Qed.

Lemma bind_deref (a : A) site (k : A → M S B) s : (deref (Some a) site ≫= k) s = k a s.
Proof. done. Qed.

Lemma bind_fault (m : M S A) (k : A → M S B) s f :
  m s = Fault f → (m ≫= k) s = Fault f.
Proof. unfold mbind, M_bind. by intros ->. Qed.

Lemma serverAssert_run b site (s : S) : b = true → serverAssert b site s = Ok (tt, s).
Proof. by intros ->. Qed.

End Runs.

#[export] Hint Resolve wp_ret wp_get wp_gets wp_put wp_modify : wp.

(** One symbolic step through a program: binds, reads, writes, returns. *)
Ltac wp_step :=
  lazymatch goal with
  | |- wp _ (_ ≫= _) _ _ => apply wp_bind
  | |- wp _ (mret _) _ _ => apply wp_ret
  | |- wp _ get _ _ => apply wp_get
  | |- wp _ (gets _) _ _ => apply wp_gets
  | |- wp _ (put _) _ _ => apply wp_put
  | |- wp _ (modify _) _ _ => apply wp_modify
  end; cbn beta.

Ltac wp_steps := repeat wp_step.

(** Evaluates the decisions of the goal that [done] settles. *)
Ltac simpl_decide :=
  repeat match goal with
  | |- context [bool_decide ?P] =>
      first [ rewrite (bool_decide_eq_true_2 P) by done
            | rewrite (bool_decide_eq_false_2 P) by done ]
  end.

(** ** Machine integers *)

Section MachineIntegers.
Local Open Scope Z_scope.

Definition LLONG_MAX : Z := 9223372036854775807.
Definition LLONG_MIN : Z := -9223372036854775808.
Definition ULLONG_MAX : Z := 18446744073709551615.

(** Two's-complement wrap-around to 32 and 64 bits. *)
Definition u32 (z : Z) : Z := z mod 2 ^ 32.
Definition u64 (z : Z) : Z := z mod 2 ^ 64.
Definition i32 (z : Z) : Z := (z + 2 ^ 31) mod 2 ^ 32 - 2 ^ 31.
Definition i64 (z : Z) : Z := (z + 2 ^ 63) mod 2 ^ 64 - 2 ^ 63.

Lemma i64_id z : LLONG_MIN ≤ z ≤ LLONG_MAX → i64 z = z.
Proof. unfold i64, LLONG_MIN, LLONG_MAX. intros. rewrite Z.mod_small; lia. Qed.

Lemma u32_id z : 0 ≤ z < 2 ^ 32 → u32 z = z.
Proof. apply Z.mod_small. Qed.

Lemma u64_id z : 0 ≤ z ≤ ULLONG_MAX → u64 z = z.
Proof. unfold u64, ULLONG_MAX. intros. rewrite Z.mod_small; lia. Qed.

Lemma i64_range z : LLONG_MIN ≤ i64 z ≤ LLONG_MAX.
Proof.
  unfold i64, LLONG_MIN, LLONG_MAX.
  pose proof (Z.mod_pos_bound (z + 2 ^ 63) (2 ^ 64)). lia.
Qed.

Lemma u64_range z : 0 ≤ u64 z ≤ ULLONG_MAX.
Proof. unfold u64, ULLONG_MAX. pose proof (Z.mod_pos_bound z (2 ^ 64)). lia. Qed.

End MachineIntegers.

(** ** Lists *)

(** Induction on the length of a list. *)
Lemma length_ind {A} (P : list A → Prop) :
  (∀ l, (∀ l', (length l' < length l)%nat → P l') → P l) → ∀ l, P l.
Proof.
  intros Hstep l. remember (length l) as n eqn:Hn. revert l Hn.
  induction (lt_wf n) as [n _ IH]. intros l ->. apply Hstep. intros l' Hl'. by apply (IH (length l')).
Qed.
