(* ===== verification/Util.v ===== *)
(** * Util: the integer/string conversions of src/src/util.c

    [digits10], [sdigits10], [ll2string], [string2ll] and [string2l], on byte
    strings ([list ascii]) and on Z with the 64-bit bounds of the source.  The
    theorems show that [ll2string] prints the canonical decimal form and that
    [string2ll] accepts exactly the canonical decimal forms of the 64-bit signed
    integers, so an integer-encoded object keeps the bytes it was made from. *)

From Stdlib Require Import Ascii String.
From stdpp Require Import base tactics option list strings numbers.
From S2P Require Import Prelude.

Local Open Scope Z_scope.

(** ** Bytes *)

Abbreviation bytes := (list ascii).

Definition code (c : ascii) : Z := Z.of_nat (nat_of_ascii c).
Definition digit_char (d : Z) : ascii := ascii_of_nat (Z.to_nat (48 + d)).
Definition is_digit (c : ascii) : bool := (48 <=? code c) && (code c <=? 57).

Definition NUL : ascii := ascii_of_nat 0.
Definition MINUS : ascii := "-"%char.

(** ** digits10 and sdigits10 *)

(** The recursive call of [digits10] divides by 10^12: two levels of fuel cover
    every 64-bit value ([digits10_fuel]). *)
Fixpoint digits10_aux (fuel : nat) (v : Z) : Z :=
  if v <? 10 then 1 else
  if v <? 100 then 2 else
  if v <? 1000 then 3 else
  if v <? 1000000000000 then
    if v <? 100000000 then
      if v <? 1000000 then
        if v <? 10000 then 4 else 5 + Z.b2z (100000 <=? v)
      else 7 + Z.b2z (10000000 <=? v)
    else if v <? 10000000000 then 9 + Z.b2z (1000000000 <=? v)
    else 11 + Z.b2z (100000000000 <=? v)
  else match fuel with
       | O => 0
       | S fuel => 12 + digits10_aux fuel (v / 1000000000000)
       end.

Definition digits10 (v : Z) : Z := digits10_aux 2 v.
Arguments digits10 : simpl never.

Definition sdigits10 (v : Z) : Z :=
  if v <? 0 then
    let uv := if negb (v =? LLONG_MIN) then u64 (- v) else LLONG_MAX + 1 in
    digits10 uv + 1
  else digits10 v.

(** ** ll2string *)

Definition digits_table : bytes :=
  list_ascii_of_string
    ("0001020304050607080910111213141516171819" ++
     "2021222324252627282930313233343536373839" ++
     "4041424344454647484950515253545556575859" ++
     "6061626364656667686970717273747576777879" ++
     "8081828384858687888990919293949596979899").

Definition table_at (i : Z) : ascii := default NUL (digits_table !! Z.to_nat i).

Definition set_at (dst : bytes) (i : Z) (c : ascii) : bytes := <[Z.to_nat i := c]> dst.

(** The main loop: two digits per iteration, written from the end.  The fuel 10
    exceeds the number of iterations for a 64-bit value. *)
Fixpoint ll2string_loop (fuel : nat) (dst : bytes) (value next : Z) : bytes * Z * Z :=
  match fuel with
  | O => (dst, value, next)
  | S fuel =>
      if 100 <=? value then
        let i := (value mod 100) * 2 in
        let dst := set_at dst next (table_at (i + 1)) in
        let dst := set_at dst (next - 1) (table_at i) in
        ll2string_loop fuel dst (value / 100) (next - 2)
      else (dst, value, next)
  end.

Definition ll2string (dst : bytes) (dstlen svalue : Z) : Z * bytes :=
  let '(value, negative) :=
    if svalue <? 0 then
      if negb (svalue =? LLONG_MIN) then (- svalue, 1) else (LLONG_MAX + 1, 1)
    else (svalue, 0) in
  let length := digits10 value + negative in
  if dstlen <=? length then (0, dst) else
  let dst := set_at dst length NUL in
  let '(dst, value, next) := ll2string_loop 10 dst value (length - 1) in
  let dst :=
    if value <? 10 then set_at dst next (digit_char value)
    else set_at (set_at dst next (table_at (value * 2 + 1))) (next - 1) (table_at (value * 2)) in
  let dst := if negative =? 1 then set_at dst 0 MINUS else dst in
  (length, dst).

(** ** string2ll and string2l *)

Fixpoint string2ll_loop (p : bytes) (v : Z) : option (Z * bytes) :=
  match p with
  | [] => Some (v, [])
  | c :: p' =>
      if is_digit c then
        if ULLONG_MAX / 10 <? v then None else
        let v := v * 10 in
        if ULLONG_MAX - (code c - 48) <? v then None else
        string2ll_loop p' (v + (code c - 48))
      else Some (v, p)
  end.

Definition string2ll (s : bytes) : option Z :=
  match s with
  | [] => None
  | c0 :: _ =>
      if (Z.of_nat (length s) =? 1) && bool_decide (c0 = digit_char 0) then Some 0 else
      let '(negative, p) := if bool_decide (c0 = MINUS) then (true, drop 1 s) else (false, s) in
      match p with
      | [] => None
      | d :: p' =>
          if (49 <=? code d) && (code d <=? 57) then
            match string2ll_loop p' (code d - 48) with
            | None => None
            | Some (v, rest) =>
                match rest with
                | _ :: _ => None
                | [] =>
                    if negative then
                      if - (LLONG_MIN + 1) + 1 <? v then None else Some (i64 (u64 (- v)))
                    else
                      if LLONG_MAX <? v then None else Some v
                end
            end
          else None
      end
  end.

(** [LONG_MIN]/[LONG_MAX] are those of an LP64 platform. *)
Definition string2l (s : bytes) : option Z :=
  match string2ll s with
  | None => None
  | Some llval => if (llval <? LLONG_MIN) || (LLONG_MAX <? llval) then None else Some llval
  end.

Example string2ll_examples :
  map (λ s, string2ll (list_ascii_of_string s))
    ["0"; "-0"; "07"; "42"; "-42"; EmptyString; "-"; "4x"; "9223372036854775807";
     "9223372036854775808"; "-9223372036854775808"; "-9223372036854775809";
     "99999999999999999999"]%string
  = [Some 0; None; None; Some 42; Some (-42); None; None; None; Some LLONG_MAX;
     None; Some LLONG_MIN; None; None].
Proof. vm_compute. reflexivity. Qed.

Example ll2string_examples :
  map (λ v, let '(n, dst) := ll2string (replicate 21 NUL) 21 v in
            string_of_list_ascii (take (Z.to_nat n) dst))
    [0; 7; 10; 99; 100; 12345; -1; LLONG_MAX; LLONG_MIN]
  = ["0"; "7"; "10"; "99"; "100"; "12345"; "-1"; "9223372036854775807";
     "-9223372036854775808"]%string.
Proof. vm_compute. reflexivity. Qed.

(** ** The canonical decimal form

    [dec k n] is the k-digit decimal form of n, most significant digit first. *)

Fixpoint dec (k : nat) (n : Z) : bytes :=
  match k with
  | O => []
  | S k => dec k (n / 10) ++ [digit_char (n mod 10)]
  end.

Definition dval (v : Z) (p : bytes) : Z := fold_left (λ v c, v * 10 + (code c - 48)) p v.

(** [ndigits k n]: n is written with exactly k digits, no leading zero. *)
Definition ndigits (k : nat) (n : Z) : Prop :=
  (0 < k)%nat ∧ 0 ≤ n < 10 ^ Z.of_nat k ∧ (k = 1%nat ∨ 10 ^ (Z.of_nat k - 1) ≤ n).

Lemma code_digit_char d : 0 ≤ d < 10 → code (digit_char d) = 48 + d.
Proof.
  intros. unfold code, digit_char. rewrite nat_ascii_embedding; lia.
Qed.

Lemma code_inj c c' : code c = code c' → c = c'.
Proof.
  unfold code. intros H. rewrite <-(ascii_nat_embedding c), <-(ascii_nat_embedding c').
  f_equal. lia.
Qed.

Lemma is_digit_spec c : is_digit c = true ↔ 48 ≤ code c ≤ 57.
Proof. unfold is_digit. rewrite andb_true_iff, !Z.leb_le. done. Qed.

Lemma digit_char_code c : is_digit c = true → digit_char (code c - 48) = c.
Proof. intros H%is_digit_spec. apply code_inj. rewrite code_digit_char; lia. Qed.

Lemma is_digit_digit_char d : 0 ≤ d < 10 → is_digit (digit_char d) = true.
Proof. intros. apply is_digit_spec. rewrite code_digit_char; lia. Qed.

Lemma length_dec k n : length (dec k n) = k.
Proof.
  revert n. induction k as [|k IH]; intros n; cbn; [done|]. rewrite length_app, IH. cbn. lia.
Qed.

Lemma dec_digits k n : Forall (λ c, is_digit c = true) (dec k n).
Proof.
  revert n. induction k as [|k IH]; intros n; cbn; [done|].
  apply Forall_app_2; [apply IH|]. apply Forall_singleton, is_digit_digit_char.
  apply Z.mod_pos_bound. lia.
Qed.

Lemma dval_app v p q : dval v (p ++ q) = dval (dval v p) q.
Proof. unfold dval. apply fold_left_app. Qed.

Lemma dval_cons v c p : dval v (c :: p) = dval (v * 10 + (code c - 48)) p.
Proof. done. Qed.

Lemma pow10_S k : 10 ^ Z.of_nat (S k) = 10 * 10 ^ Z.of_nat k.
Proof. rewrite Nat2Z.inj_succ, Z.pow_succ_r; lia. Qed.

Lemma dval_dec k n v : 0 ≤ n < 10 ^ Z.of_nat k → dval v (dec k n) = v * 10 ^ Z.of_nat k + n.
Proof.
  revert n. induction k as [|k IH]; intros n; [cbn; lia|].
  rewrite pow10_S. intros Hn. cbn [dec]. rewrite dval_app, IH.
  - cbn. pose proof (Z.mod_pos_bound n 10).
    rewrite code_digit_char by lia. pose proof (Z.div_mod n 10). lia.
  - split; [apply Z.div_pos; lia|]. apply Z.div_lt_upper_bound; lia.
Qed.

Lemma dec_dval v p : Forall (λ c, is_digit c = true) p → dec (length p) (dval v p) = p.
Proof.
  induction p as [|c p IH] using rev_ind; [done|].
  intros [Hp Hc%Forall_inv]%Forall_app. pose proof (proj1 (is_digit_spec c) Hc).
  rewrite length_app, Nat.add_comm, dval_app. cbn.
  replace (dval v p * 10 + (code c - 48)) with ((code c - 48) + dval v p * 10) by lia.
  rewrite Z.div_add, Z.mod_add, Z.div_small, Z.mod_small, Z.add_0_l, IH by (done || lia).
  by rewrite digit_char_code.
Qed.

Lemma dval_mono v p : Forall (λ c, is_digit c = true) p → 0 ≤ v → v ≤ dval v p.
Proof.
  intros Hp. revert v. induction Hp as [|c p Hc Hp IH]; intros v Hv; [done|].
  apply is_digit_spec in Hc. cbn. etrans; [|apply IH]; lia.
Qed.

(** Case analysis on the integer comparisons of the goal. *)
Ltac case_cmp :=
  repeat match goal with
  | |- context [?x <? ?y] => destruct (Z.ltb_spec x y)
  | |- context [?x <=? ?y] => destruct (Z.leb_spec x y)
  end.

(** ** string2ll_loop computes [dval], with the overflow checks *)

Lemma string2ll_loop_sound p v w :
  string2ll_loop p v = Some (w, []) → Forall (λ c, is_digit c = true) p ∧ w = dval v p.
Proof.
  revert v. induction p as [|c p IH]; intros v; cbn; [by intros [= <-]|].
  destruct (is_digit c) eqn:Hc; [|done]. repeat case_match; try done.
  intros [? ->]%IH. split; [by constructor|done].
Qed.

Lemma string2ll_loop_complete p v :
  Forall (λ c, is_digit c = true) p → 0 ≤ v → dval v p ≤ ULLONG_MAX →
  string2ll_loop p v = Some (dval v p, []).
Proof.
  intros Hp. revert v. induction Hp as [|c p Hc Hp IH]; intros v Hv Hle; [done|].
  rewrite dval_cons in *. cbn [string2ll_loop]. rewrite Hc. apply is_digit_spec in Hc.
  pose proof (dval_mono (v * 10 + (code c - 48)) p Hp ltac:(lia)).
  unfold ULLONG_MAX in *. case_cmp; [exfalso; Z.div_mod_to_equations; lia..|]. apply IH; lia.
Qed.

Lemma ndigits_cons d p :
  1 ≤ d ≤ 9 → Forall (λ c, is_digit c = true) p → ndigits (S (length p)) (dval d p).
Proof.
  intros Hd Hp. unfold ndigits. rewrite Nat2Z.inj_succ.
  replace (Z.succ _ - 1) with (Z.of_nat (length p)) by lia. rewrite Z.pow_succ_r by lia.
  induction p as [|c p IH] using rev_ind; cbn [length] in *.
  - cbn. lia.
  - apply Forall_app in Hp as [Hp Hc%Forall_inv%is_digit_spec].
    destruct (IH Hp) as (_&?&Hlow). rewrite dval_app, length_app. cbn.
    replace (Z.of_nat (length p + 1)) with (Z.succ (Z.of_nat (length p))) by lia.
    rewrite Z.pow_succ_r by lia.
    assert (10 ^ Z.of_nat (length p) ≤ dval d p).
    { destruct Hlow as [[= Hl]|]; [|lia]. apply nil_length_inv in Hl as ->. cbn. lia. }
    split; [lia|]. split; [lia|]. right. lia.
Qed.

(** ** digits10 counts the digits *)

(** Evaluates the closed powers of ten of the goal. *)
Ltac pow_eval :=
  repeat match goal with
  | |- context [10 ^ ?e] => let r := eval vm_compute in (10 ^ e) in change (10 ^ e) with r
  end.

Lemma ndigits_intro (k : nat) n :
  (0 < k)%nat → 0 ≤ n → n < 10 ^ Z.of_nat k → k = 1%nat ∨ 10 ^ (Z.of_nat k - 1) ≤ n → ndigits k n.
Proof. unfold ndigits. auto. Qed.

Lemma digits10_small fuel v : 0 ≤ v < 1000000000000 → ndigits (Z.to_nat (digits10_aux fuel v)) v.
Proof.
  intros Hv. destruct fuel; unfold digits10_aux; case_cmp; cbn [Z.b2z]; try lia;
    apply ndigits_intro; pow_eval; lia.
Qed.

Lemma ndigits_shift (k j : nat) q n :
  ndigits k q → 0 < q → 10 ^ Z.of_nat j * q ≤ n < 10 ^ Z.of_nat j * (q + 1) →
  ndigits (j + k) n.
Proof.
  intros (Hk & Hq & Hlow) Hq0 Hn.
  assert (10 ^ (Z.of_nat k - 1) ≤ q) as Hlow'.
  { destruct Hlow as [->|]; [cbn; lia|done]. }
  assert (0 < 10 ^ Z.of_nat j) by (apply Z.pow_pos_nonneg; lia).
  apply ndigits_intro; [lia|nia|..].
  - rewrite Nat2Z.inj_add, Z.pow_add_r by lia. nia.
  - right. replace (Z.of_nat (j + k) - 1) with (Z.of_nat j + (Z.of_nat k - 1)) by lia.
    rewrite Z.pow_add_r by lia. nia.
Qed.

Lemma digits10_aux_big fuel v : 1000000000000 ≤ v →
  digits10_aux (S fuel) v = 12 + digits10_aux fuel (v / 1000000000000).
Proof. intros. cbn [digits10_aux]. case_cmp; lia. Qed.

Lemma digits10_ndigits v : 0 ≤ v ≤ ULLONG_MAX → ndigits (Z.to_nat (digits10 v)) v.
Proof.
  intros Hv. unfold digits10.
  destruct (Z.lt_ge_cases v 1000000000000); [apply digits10_small; lia|].
  rewrite digits10_aux_big by done. unfold ULLONG_MAX in Hv.
  set (q := v / 1000000000000). assert (1 ≤ q < 1000000000000) as Hq.
  { subst q. Z.div_mod_to_equations. lia. }
  pose proof (digits10_small 1 q ltac:(lia)) as Hd.
  assert (0 < digits10_aux 1 q) by (destruct Hd; lia).
  rewrite Z2Nat.inj_add by lia. eapply (ndigits_shift _ _ q); [done|lia|].
  subst q. pow_eval. Z.div_mod_to_equations. lia.
Qed.

(** ** ll2string writes the canonical form *)

Lemma table_at_spec n : 0 ≤ n < 100 →
  table_at (n * 2) = digit_char (n / 10) ∧ table_at (n * 2 + 1) = digit_char (n mod 10).
Proof.
  intros Hn.
  assert (Forall (λ n, table_at (n * 2) = digit_char (n / 10) ∧
                       table_at (n * 2 + 1) = digit_char (n mod 10)) (seqZ 0 100)) as Hall.
  { apply (bool_decide_unpack _). vm_compute. exact I. }
  rewrite Forall_forall in Hall. apply Hall, list_elem_of_In, elem_of_seqZ. lia.
Qed.

Lemma set_at_mid (p q : bytes) c c' i :
  i = Z.of_nat (length p) → set_at (p ++ c :: q) i c' = p ++ c' :: q.
Proof.
  intros ->. unfold set_at. rewrite Nat2Z.id, insert_app_r_alt, Nat.sub_diag; done.
Qed.

Definition ll2string_finish (r : bytes * Z * Z) : bytes :=
  let '(dst, value, next) := r in
  if value <? 10 then set_at dst next (digit_char value)
  else set_at (set_at dst next (table_at (value * 2 + 1))) (next - 1) (table_at (value * 2)).

Lemma length_last2 {A} (l : list A) : (2 ≤ length l)%nat → ∃ l' a b, l = l' ++ [a; b].
Proof.
  destruct l as [|b l _] using rev_ind; cbn; [lia|].
  destruct l as [|a l _] using rev_ind; rewrite length_app; cbn; [lia|].
  intros _. exists l, a, b. by rewrite <-app_assoc.
Qed.

Lemma ndigits_100 k n : ndigits k n → 100 ≤ n → (3 ≤ k)%nat ∧ ndigits (k - 2) (n / 100).
Proof.
  intros (Hk & Hn & Hlow) H100.
  assert (3 ≤ k)%nat as Hk3.
  { destruct k as [|[|[|k]]]; [lia| | |lia]; exfalso; revert Hn; pow_eval; lia. }
  split; [done|]. destruct Hlow as [->|Hlow]; [lia|].
  replace (Z.of_nat k) with (2 + Z.of_nat (k - 2)) in Hn by lia.
  replace (Z.of_nat k - 1) with (2 + (Z.of_nat (k - 2) - 1)) in Hlow by lia.
  rewrite Z.pow_add_r in Hn, Hlow by lia. change (10 ^ 2) with 100 in *.
  apply ndigits_intro; [lia|apply Z.div_pos; lia|apply Z.div_lt_upper_bound; lia|].
  right. apply Z.div_le_lower_bound; lia.
Qed.

Lemma dec_100 k n : 0 ≤ n →
  dec (S (S k)) n = dec k (n / 100) ++ [digit_char (n mod 100 / 10); digit_char (n mod 100 mod 10)].
Proof.
  intros. cbn [dec]. rewrite <-app_assoc. cbn. rewrite Z.div_div by lia. change (10 * 10) with 100.
  replace (n / 10 mod 10) with (n mod 100 / 10) by (Z.div_mod_to_equations; lia).
  replace (n mod 10) with (n mod 100 mod 10) by (Z.div_mod_to_equations; lia). done.
Qed.

Lemma set_at_last2 (pre hole suf : bytes) a b x y n :
  n = Z.of_nat (length pre + length (hole ++ [a; b])) - 1 →
  set_at (set_at (pre ++ (hole ++ [a; b]) ++ suf) n y) (n - 1) x = pre ++ hole ++ [x; y] ++ suf.
Proof.
  intros ->. rewrite length_app. cbn [length].
  replace (pre ++ (hole ++ [a; b]) ++ suf) with (((pre ++ hole) ++ [a]) ++ b :: suf)
    by by rewrite <-!app_assoc.
  rewrite set_at_mid by (rewrite !length_app; cbn; lia).
  rewrite <-(app_assoc _ [a]). cbn.
  rewrite set_at_mid by (rewrite !length_app; cbn; lia).
  by rewrite <-!app_assoc.
Qed.

Lemma ll2string_finish_spec (pre hole suf : bytes) value :
  ndigits (length hole) value → value < 100 →
  ll2string_finish (pre ++ hole ++ suf, value, Z.of_nat (length pre + length hole) - 1) =
  pre ++ dec (length hole) value ++ suf.
Proof.
  intros (Hk & Hn & Hlow) H100. unfold ll2string_finish. case_cmp.
  - assert (length hole = 1)%nat as Hone.
    { destruct Hlow as [|Hlow]; [done|]. destruct (length hole) as [|[|k]]; [lia|done|].
      exfalso. assert (10 ^ 1 ≤ 10 ^ (Z.of_nat (S (S k)) - 1)) by (apply Z.pow_le_mono_r; lia). lia. }
    rewrite Hone. destruct hole as [|c [|]]; try done. cbn.
    rewrite set_at_mid by lia. rewrite Z.mod_small by lia. done.
  - assert (length hole = 2)%nat as Htwo.
    { destruct (length hole) as [|[|[|k]]]; [lia|exfalso; revert Hn; pow_eval; lia|done|].
      destruct Hlow as [|Hlow]; [lia|]. exfalso.
      assert (10 ^ 2 ≤ 10 ^ (Z.of_nat (S (S (S k))) - 1)) by (apply Z.pow_le_mono_r; lia). lia. }
    destruct (length_last2 hole) as (l & a & b & ->); [lia|].
    rewrite set_at_last2 by done. rewrite length_app in *. cbn in *.
    assert (length l = 0%nat) as ->%nil_length_inv by lia.
    rewrite (dec_100 0) by lia. cbn. rewrite (Z.mod_small value 100) by lia.
    by destruct (table_at_spec value) as [-> ->]; [lia|].
Qed.

Lemma ll2string_loop_spec fuel (pre hole suf : bytes) value :
  ndigits (length hole) value → (length hole ≤ 2 * fuel + 2)%nat →
  ll2string_finish
    (ll2string_loop fuel (pre ++ hole ++ suf) value (Z.of_nat (length pre + length hole) - 1)) =
  pre ++ dec (length hole) value ++ suf.
Proof.
  revert hole suf value. induction fuel as [|fuel IH]; intros hole suf value Hd Hlen;
    cbn [ll2string_loop].
  - apply ll2string_finish_spec; [done|].
    destruct (Z.lt_ge_cases value 100) as [|H100]; [done|].
    apply ndigits_100 in Hd as [? _]; lia.
  - case_cmp; [|by apply ll2string_finish_spec].
    pose proof (ndigits_100 _ _ Hd ltac:(done)) as [Hk Hd'].
    destruct (length_last2 hole) as (l & a & b & ->); [lia|].
    destruct (table_at_spec (value mod 100)) as [-> ->]; [by apply Z.mod_pos_bound|].
    rewrite set_at_last2 by done. rewrite length_app in *. cbn [length] in *.
    replace (length l + 2 - 2)%nat with (length l) in Hd' by lia.
    replace (Z.of_nat (length pre + (length l + 2)) - 1 - 2)
      with (Z.of_nat (length pre + length l) - 1) by lia.
    rewrite IH by (done || lia). replace (length l + 2)%nat with (S (S (length l))) by lia.
    rewrite dec_100 by (destruct Hd; lia).
    by rewrite <-app_assoc.
Qed.

Lemma ndigits_unique k k' n : ndigits k n → ndigits k' n → k = k'.
Proof.
  assert (∀ k k' n, ndigits k n → ndigits k' n → (k ≤ k')%nat) as Hle.
  { clear. intros k k' n (Hk & Hn & Hlow) (Hk' & Hn' & _).
    destruct (Nat.le_gt_cases k k') as [|Hlt]; [done|]. exfalso.
    destruct Hlow as [->|Hlow]; [lia|].
    assert (10 ^ Z.of_nat k' ≤ 10 ^ (Z.of_nat k - 1)) by (apply Z.pow_le_mono_r; lia). lia. }
  intros. apply Nat.le_antisymm; eauto.
Qed.

(** The text of a 64-bit integer: magnitude in canonical decimal, with its sign. *)
Definition decimal (v : Z) : bytes :=
  let text n := dec (Z.to_nat (digits10 n)) n in
  if v <? 0 then MINUS :: text (- v) else text v.

Lemma digits10_bound v : 0 ≤ v ≤ ULLONG_MAX → 1 ≤ digits10 v ≤ 20.
Proof.
  intros Hv. destruct (digits10_ndigits v Hv) as (Hk & Hn & Hlow). split; [lia|].
  destruct (Z.le_gt_cases (digits10 v) 20) as [|Hgt]; [done|]. exfalso.
  destruct Hlow as [|Hlow]; [lia|].
  assert (10 ^ 20 ≤ 10 ^ (Z.of_nat (Z.to_nat (digits10 v)) - 1)) by (apply Z.pow_le_mono_r; lia).
  unfold ULLONG_MAX in Hv. change (10 ^ 20) with 100000000000000000000 in *. lia.
Qed.

Lemma digits10_le (k : nat) v :
  (0 < k)%nat → 0 ≤ v < 10 ^ Z.of_nat k → v ≤ ULLONG_MAX → digits10 v ≤ Z.of_nat k.
Proof.
  intros Hk Hv Hmax. destruct (digits10_ndigits v) as (Hd & _ & Hlow); [lia|].
  destruct (Z.le_gt_cases (digits10 v) (Z.of_nat k)) as [|Hgt]; [done|]. exfalso.
  destruct Hlow as [|Hlow]; [lia|].
  assert (10 ^ Z.of_nat k ≤ 10 ^ (Z.of_nat (Z.to_nat (digits10 v)) - 1))
    by (apply Z.pow_le_mono_r; lia). lia.
Qed.

Lemma ll2string_magnitude svalue : LLONG_MIN ≤ svalue ≤ LLONG_MAX →
  (if svalue <? 0 then
     if negb (svalue =? LLONG_MIN) then (- svalue, 1) else (LLONG_MAX + 1, 1)
   else (svalue, 0)) = (Z.abs svalue, Z.b2z (svalue <? 0)).
Proof.
  intros H. unfold LLONG_MIN, LLONG_MAX in *. case_cmp; cbn.
  - case (Z.eqb_spec svalue (-9223372036854775808)); cbn; intros; f_equal; lia.
  - f_equal; lia.
Qed.

Lemma list_split3 {A} (l : list A) (n : nat) (x : A) : (n < length l)%nat →
  ∃ mid suf, <[n := x]> l = mid ++ x :: suf ∧ length mid = n ∧ suf = drop (S n) l.
Proof.
  intros Hn. exists (take n l), (drop (S n) l). split; [|split; [|done]].
  - by rewrite insert_take_drop.
  - rewrite length_take. lia.
Qed.

(** What [ll2string] returns: the length and the buffer, which holds the text of
    the integer, a NUL and then its old bytes; 0 and the old buffer when the text
    and its NUL do not fit. *)
Lemma ll2string_spec (dst : bytes) svalue :
  LLONG_MIN ≤ svalue ≤ LLONG_MAX →
  let n := length (decimal svalue) in
  ll2string dst (Z.of_nat (length dst)) svalue =
  if decide (n < length dst)%nat
  then (Z.of_nat n, decimal svalue ++ NUL :: drop (S n) dst)
  else (0, dst).
Proof.
  intros Hs n. unfold ll2string. rewrite ll2string_magnitude by done.
  assert (0 ≤ Z.abs svalue ≤ ULLONG_MAX) as Habs
    by (unfold LLONG_MIN, LLONG_MAX, ULLONG_MAX in *; lia).
  pose proof (digits10_bound _ Habs) as Hb. pose proof (digits10_ndigits _ Habs) as Hd.
  assert (Z.of_nat n = digits10 (Z.abs svalue) + Z.b2z (svalue <? 0)) as Hn.
  { subst n. unfold decimal. case_cmp; cbn [Z.b2z length]; rewrite length_dec.
    - rewrite Z.abs_neq in * by lia. lia.
    - rewrite Z.abs_eq in * by lia. lia. }
  rewrite <-Hn.
  destruct (Z.leb_spec (Z.of_nat (length dst)) (Z.of_nat n)); case_decide; try lia; [done|].
  unfold set_at at 1. rewrite Nat2Z.id.
  destruct (list_split3 dst n NUL) as (mid & suf & -> & Hmid & ->); [lia|].
  (* The digits go after the sign position. *)
  set (neg := Z.to_nat (Z.b2z (svalue <? 0))).
  assert (∃ pre hole, mid = pre ++ hole ∧ length pre = neg) as (pre & hole & -> & Hpre).
  { exists (take neg mid), (drop neg mid). rewrite take_drop, length_take.
    split; [done|]. subst neg. destruct (svalue <? 0); cbn in *; lia. }
  assert (length hole = Z.to_nat (digits10 (Z.abs svalue))) as Hhole.
  { rewrite length_app in Hmid. subst neg. destruct (svalue <? 0); cbn in *; lia. }
  pose proof (ll2string_loop_spec 10 pre hole (NUL :: drop (S n) dst) (Z.abs svalue)) as Hloop.
  rewrite Hhole in Hloop. specialize (Hloop Hd ltac:(lia)).
  replace (Z.of_nat (length pre + Z.to_nat (digits10 (Z.abs svalue))) - 1)
    with (Z.of_nat n - 1) in Hloop by (subst neg; destruct (svalue <? 0); cbn in *; lia).
  rewrite <-app_assoc. destruct (ll2string_loop _ _ _ _) as [[dst' v'] next'].
  unfold ll2string_finish in Hloop. rewrite Hloop. f_equal.
  unfold decimal. subst neg. destruct (Z.ltb_spec svalue 0); cbn in *.
  - destruct pre as [|c [|]]; try done. rewrite Z.abs_neq by lia. by apply (set_at_mid []).
  - apply nil_length_inv in Hpre as ->. by rewrite Z.abs_eq by lia.
Qed.

(** ** string2ll accepts exactly the canonical forms *)

Lemma dec_cons k n : dec (S k) n = digit_char (n / 10 ^ Z.of_nat k mod 10) :: dec k n.
Proof.
  revert n. induction k as [|k IH]; intros n.
  - cbn. by rewrite Z.div_1_r.
  - change (dec (S (S k)) n) with (dec (S k) (n / 10) ++ [digit_char (n mod 10)]).
    rewrite IH. cbn [app dec]. f_equal. rewrite pow10_S, Z.div_div; [done|lia|].
    apply Z.pow_pos_nonneg; lia.
Qed.

(** The unsigned magnitude: a digit 1 to 9, then digits, up to [ULLONG_MAX]. *)
Definition parse_magnitude (p : bytes) : option Z :=
  match p with
  | [] => None
  | d :: p' =>
      if (49 <=? code d) && (code d <=? 57) then
        match string2ll_loop p' (code d - 48) with
        | Some (v, []) => Some v
        | _ => None
        end
      else None
  end.

Lemma string2ll_loop_bound p v w rest :
  string2ll_loop p v = Some (w, rest) → 0 ≤ v ≤ ULLONG_MAX → w ≤ ULLONG_MAX.
Proof.
  revert v. induction p as [|c p IH]; intros v; cbn; [intros [= <- <-]; lia|].
  destruct (is_digit c) eqn:Hc; [|intros [= <- <-]; lia]. apply is_digit_spec in Hc.
  case_cmp; try done. intros ? Hv. eapply IH; [done|lia].
Qed.

Lemma parse_magnitude_spec p n :
  parse_magnitude p = Some n ↔ 0 < n ≤ ULLONG_MAX ∧ p = dec (Z.to_nat (digits10 n)) n.
Proof.
  split.
  - destruct p as [|d p]; [done|]. cbn. case_cmp; cbn; try done.
    destruct (string2ll_loop p (code d - 48)) as [[w [|]]|] eqn:Hl; try done. intros [= <-].
    assert (w ≤ ULLONG_MAX) by (eapply string2ll_loop_bound; [done|unfold ULLONG_MAX; lia]).
    apply string2ll_loop_sound in Hl as [Hp ->].
    pose proof (dval_mono (code d - 48) p Hp ltac:(lia)). split; [lia|].
    pose proof (ndigits_cons (code d - 48) p ltac:(lia) Hp) as Hd.
    rewrite <-(ndigits_unique _ _ _ Hd (digits10_ndigits (dval (code d - 48) p) ltac:(lia))).
    assert (is_digit d = true) by (apply is_digit_spec; lia).
    symmetry. apply (dec_dval 0 (d :: p)). by constructor.
  - intros [Hn ->]. pose proof (digits10_ndigits n ltac:(lia)) as Hd.
    destruct (Z.to_nat (digits10 n)) as [|k]; [destruct Hd; lia|].
    pose proof (dval_dec (S k) n 0 ltac:(apply Hd)) as Hval. rewrite dec_cons in *.
    assert (1 ≤ n / 10 ^ Z.of_nat k < 10) as Hlead.
    { destruct Hd as (_ & Hn' & Hlow). rewrite pow10_S in Hn'.
      assert (0 < 10 ^ Z.of_nat k) by (apply Z.pow_pos_nonneg; lia).
      split; [|apply Z.div_lt_upper_bound; lia]. apply Z.div_le_lower_bound; [lia|].
      destruct Hlow as [[= ->]|Hlow]; [cbn; lia|].
      replace (Z.of_nat (S k) - 1) with (Z.of_nat k) in Hlow by lia. lia. }
    rewrite (Z.mod_small _ 10) in * by lia. cbn [parse_magnitude].
    rewrite dval_cons, code_digit_char in Hval by lia. rewrite !code_digit_char by lia.
    case_cmp; cbn; try lia. replace (0 * 10 + _) with (48 + n / 10 ^ Z.of_nat k - 48) in Hval by lia.
    rewrite string2ll_loop_complete; [f_equal; lia|apply dec_digits|lia|lia].
Qed.

Lemma string2ll_parse s :
  string2ll s =
  if bool_decide (s = [digit_char 0]) then Some 0 else
  match s with
  | c :: p =>
      if bool_decide (c = MINUS) then
        v ← parse_magnitude p; if - (LLONG_MIN + 1) + 1 <? v then None else Some (- v)
      else v ← parse_magnitude s; if LLONG_MAX <? v then None else Some v
  | [] => None
  end.
Proof.
  destruct s as [|c p]; [done|]. unfold string2ll.
  replace ((Z.of_nat (length (c :: p)) =? 1) && bool_decide (c = digit_char 0))
    with (bool_decide (c :: p = [digit_char 0])).
  2:{ destruct p as [|c' p]; cbn [length].
      - cbn. apply bool_decide_ext. split; [by intros [= ->]|by intros ->].
      - rewrite (proj2 (Z.eqb_neq _ _)) by lia. cbn. by apply bool_decide_eq_false. }
  case_bool_decide; [done|]. unfold parse_magnitude.
  case_bool_decide; [change (drop 1 (c :: p)) with p|].
  - destruct p as [|d p]; [done|]. destruct ((49 <=? code d) && (code d <=? 57)) eqn:Hd; [|done].
    destruct (string2ll_loop p (code d - 48)) as [[w [|]]|] eqn:Hl; try done. cbn.
    case_cmp; [done|]. f_equal.
    apply string2ll_loop_sound in Hl as [Hp ->]. apply andb_true_iff in Hd as [?%Z.leb_le ?].
    pose proof (dval_mono (code d - 48) p Hp ltac:(lia)).
    unfold i64, u64, LLONG_MIN in *. Z.div_mod_to_equations. lia.
  - destruct ((49 <=? code c) && (code c <=? 57)); [|done].
    by destruct (string2ll_loop p (code c - 48)) as [[w [|]]|].
Qed.

Lemma decimal_neg_cases v : v < 0 → decimal v = MINUS :: dec (Z.to_nat (digits10 (- v))) (- v).
Proof. intros. unfold decimal. by rewrite (proj2 (Z.ltb_lt _ _)). Qed.

Lemma decimal_nonneg v : 0 ≤ v → decimal v = dec (Z.to_nat (digits10 v)) v.
Proof. intros. unfold decimal. by rewrite (proj2 (Z.ltb_ge _ _)). Qed.

Lemma string2ll_decimal s v :
  string2ll s = Some v ↔ LLONG_MIN ≤ v ≤ LLONG_MAX ∧ s = decimal v.
Proof.
  split.
  - rewrite string2ll_parse. unfold LLONG_MIN, LLONG_MAX.
    case_bool_decide as H0; [by intros [= <-]; subst|].
    destruct s as [|c p]; [done|]. case_bool_decide as Hm.
    + destruct (parse_magnitude p) as [n|] eqn:Hp; [|done]. cbn. case_cmp; [done|]. intros [= <-].
      apply parse_magnitude_spec in Hp as [? ->]. split; [lia|].
      rewrite decimal_neg_cases, Z.opp_involutive by lia. by subst.
    + destruct (parse_magnitude (c :: p)) as [n|] eqn:Hp; [|done]. cbn [mbind option_bind].
      case_cmp; [done|]. intros [= <-]. apply parse_magnitude_spec in Hp as [? ->].
      split; [lia|]. by rewrite decimal_nonneg by lia.
  - intros [Hv ->]. rewrite string2ll_parse. unfold LLONG_MIN, LLONG_MAX in *.
    destruct (Z.lt_trichotomy v 0) as [?|[->|?]]; [|done|].
    + rewrite decimal_neg_cases, bool_decide_eq_false_2, bool_decide_eq_true_2 by done.
      rewrite (proj2 (parse_magnitude_spec _ (- v))) by (unfold ULLONG_MAX; split; [lia|done]).
      cbn. case_cmp; [lia|]. f_equal. lia.
    + rewrite decimal_nonneg by lia.
      assert (parse_magnitude (dec (Z.to_nat (digits10 v)) v) = Some v) as Hp
        by (apply parse_magnitude_spec; unfold ULLONG_MAX; split; [lia|done]).
      destruct (dec (Z.to_nat (digits10 v)) v) as [|c p]; [done|].
      rewrite !bool_decide_eq_false_2, Hp; [cbn; case_cmp; [lia|done]| |].
      * by intros ->.
      * by intros [= -> ->].
Qed.

Lemma length_decimal v : LLONG_MIN ≤ v ≤ LLONG_MAX → (1 ≤ length (decimal v) ≤ 20)%nat.
Proof.
  unfold LLONG_MIN, LLONG_MAX, decimal. intros Hv.
  case_cmp; cbn [length]; rewrite length_dec;
    [pose proof (digits10_le 19 (- v)) as Hle; pose proof (digits10_bound (- v)) as Hb
    |pose proof (digits10_le 19 v) as Hle; pose proof (digits10_bound v) as Hb];
    unfold ULLONG_MAX in *; change (10 ^ Z.of_nat 19) with 10000000000000000000 in *; lia.
Qed.

(** ** Claims *)

(** Parsing and printing 64-bit integers are inverse: string2ll accepts a string
    with value v exactly when v is in the range of long long and ll2string prints v
    as that string, so no overflow, leading zero, sign or trailing byte is misread. *)
Theorem string2ll_ll2string_inverse (s : bytes) (v : Z) :
  string2ll s = Some v ↔
  LLONG_MIN ≤ v ≤ LLONG_MAX ∧
  ll2string (replicate 21 NUL) 21 v = (Z.of_nat (length s), s ++ replicate (21 - length s) NUL).
Proof.
  rewrite string2ll_decimal. split; intros [Hv Hs]; (split; [done|]);
    pose proof (length_decimal v Hv) as Hlen;
    pose proof (ll2string_spec (replicate 21 NUL) v Hv) as Hl; cbn zeta in Hl;
    rewrite length_replicate, decide_True, drop_replicate in Hl by lia.
  - subst s. change 21 with (Z.of_nat 21). rewrite Hl. f_equal. f_equal.
    replace (21 - length (decimal v))%nat with (S (21 - S (length (decimal v)))) by lia. done.
  - change (Z.of_nat 21) with 21 in Hl. rewrite Hs in Hl. injection Hl as Hlen' Happ.
    apply (f_equal (take (length s))) in Happ. rewrite take_app_length in Happ.
    replace (length s) with (length (decimal v)) in Happ by lia.
    by rewrite take_app_length in Happ.
Qed.
