(* ===== verification/Glob.v ===== *)
(** * Glob: glob-style pattern matching (stringmatchlen of src/src/util.c)

    The matcher of KEYS, SCAN, PSUBSCRIBE and CONFIG GET, as a function on the
    bytes of the pattern and of the string, and a specification: a pattern is a
    sequence of items, and a string matches it when it splits into parts that
    match the items.  The theorem says for which patterns and strings the two
    agree, and that the matcher reads no byte of the pattern after the null byte
    that ends it. *)

From Stdlib Require Import Ascii String ZifyBool.
From stdpp Require Import base tactics option strings numbers list.
From S2P Require Import Prelude Util.

Local Open Scope Z_scope.
Local Notation "a =c b" := (bool_decide (a = b :> ascii)) (at level 70).

Definition NUL : ascii := "000"%char.

(** A [char] and [tolower] as an [int], in the C locale. *)
Definition intOf (c : ascii) : Z := let n := Z.of_N (N_of_ascii c) in if n <? 128 then n else n - 256.
Definition tolower (c : Z) : Z := if (65 <=? c) && (c <=? 90) then c + 32 else c.

(** ** The matcher *)

(** [pattern[i]]: the pattern is followed by its null terminator. *)
Definition patAt (p : bytes) (i : nat) : res ascii :=
  match (p ++ [NUL]) !! i with
  | Some c => Ok c
  | None => Fault (BadPointer "stringmatchlen")
  end.

Definition patternLen (p : bytes) : Z := Z.of_nat (length p).

(** Whether two characters are equal under [nocase]. *)
Definition sameChar (nocase : bool) (a b : ascii) : bool :=
  if nocase then tolower (intOf a) =? tolower (intOf b) else a =c b.

(** Whether [s0] is in the range of [a] and [b]. *)
Definition inRange (nocase : bool) (a b s0 : ascii) : bool :=
  let start := intOf a in
  let stop := intOf b in
  let c := intOf s0 in
  let '(start, stop) := if stop <? start then (stop, start) else (start, stop) in
  let '(start, stop, c) := if nocase then (tolower start, tolower stop, tolower c) else (start, stop, c) in
  (start <=? c) && (c <=? stop).

(** The loop over a class: the pattern after the class, and [match]. *)
Fixpoint classLoop (fuel : nat) (nocase : bool) (p : bytes) (s0 : ascii) (m : bool) : res (bytes * bool) :=
  match fuel with
  | O => Fault (AssertFailed "stringmatchlen: fuel")
  | S fuel =>
      c ← patAt p 0;
      if (c =c "\"%char) && (2 <=? patternLen p) then
        let p := drop 1 p in
        c ← patAt p 0;
        classLoop fuel nocase (drop 1 p) s0 (m || (c =c s0))
      else if c =c "]"%char then mret (drop 1 p, m)
      else if patternLen p =? 0 then mret ([], m)
      else
        range ← (if 3 <=? patternLen p then d ← patAt p 1; mret (d =c "-"%char) else mret false);
        if (range : bool) then
          stop ← patAt p 2;
          classLoop fuel nocase (drop 3 p) s0 (m || inRange nocase c stop s0)
        else classLoop fuel nocase (drop 1 p) s0 (m || sameChar nocase c s0)
  end.

(** [while (patternLen && pattern[1] == '*')] *)
Fixpoint skipStars (p : bytes) : res bytes :=
  match p with
  | [] => mret []
  | _ :: p' => c ← patAt p 1; if c =c "*"%char then skipStars p' else mret p
  end.

(** The loop at the end of the string. *)
Fixpoint dropStars (p : bytes) : bytes :=
  match p with
  | c :: p' => if c =c "*"%char then dropStars p' else p
  | [] => []
  end.

(** The loop [while(stringLen)] of a star: [rest] is the call on the rest of the
    pattern. *)
Fixpoint starLoop (rest : bytes → res bool) (s : bytes) : res bool :=
  match s with
  | [] => mret false
  | _ :: s' => b ← rest s; if (b : bool) then mret true else starLoop rest s'
  end.

(** The outer loop: every round and every recursive call has a shorter pattern. *)
Fixpoint matchLoop (fuel : nat) (nocase : bool) (p s : bytes) : res bool :=
  match fuel with
  | O => Fault (AssertFailed "stringmatchlen: fuel")
  | S fuel =>
      let next p s :=
        match s with
        | [] => mret (patternLen (dropStars p) =? 0)
        | _ => matchLoop fuel nocase p s
        end in
      match p, s with
      | [], _ | _, [] => mret ((patternLen p =? 0) && (patternLen s =? 0))
      | c :: p', s0 :: s' =>
          if c =c "*"%char then
            p ← skipStars p;
            if patternLen p =? 1 then mret true
            else starLoop (matchLoop fuel nocase (drop 1 p)) s
          else if c =c "?"%char then next p' s'
          else if c =c "["%char then
            c ← patAt p' 0;
            let negated := c =c "^"%char in
            let p := if negated then drop 1 p' else p' in
            '(p, m) ← classLoop (S (length p)) nocase p s0 false;
            if xorb negated m then next p s' else mret false
          else
            let p := if (c =c "\"%char) && (2 <=? patternLen p) then drop 1 p else p in
            c ← patAt p 0;
            if sameChar nocase c s0 then next (drop 1 p) s' else mret false
      end
  end.

Definition stringmatchlen (p s : bytes) (nocase : bool) : res bool :=
  matchLoop (S (length p)) nocase p s.

(** ** The specification *)

(** The members of a class: an escaped character, a character, a range. *)
Inductive classItem :=
  | Exactly (c : ascii)
  | Char (c : ascii)
  | Between (a b : ascii).

Inductive item :=
  | Star
  | Any
  | Class (negated : bool) (l : list classItem)
  | Lit (c : ascii).

Definition memberOf (nocase : bool) (s0 : ascii) (i : classItem) : bool :=
  match i with
  | Exactly c => c =c s0
  | Char c => sameChar nocase c s0
  | Between a b => inRange nocase a b s0
  end.

(** The characters that match an item other than a star. *)
Definition accepts (nocase : bool) (i : item) (s0 : ascii) : bool :=
  match i with
  | Star => false
  | Any => true
  | Class negated l => xorb negated (existsb (memberOf nocase s0) l)
  | Lit c => sameChar nocase c s0
  end.

Fixpoint matches (nocase : bool) (l : list item) (s : bytes) : Prop :=
  match l with
  | [] => s = []
  | Star :: l => ∃ s1 s2, s = s1 ++ s2 ∧ matches nocase l s2
  | i :: l => ∃ s0 s', s = s0 :: s' ∧ accepts nocase i s0 = true ∧ matches nocase l s'
  end.

(** The syntax: a class ends at the first "]" that is not escaped nor the end of a
    range, or with the pattern. *)
Fixpoint parseClass (p : bytes) : list classItem * bytes :=
  match p with
  | [] => ([], [])
  | c :: p1 =>
      match p1 with
      | [] => if c =c "]"%char then ([], []) else ([Char c], [])
      | e :: p2 =>
          if c =c "\"%char then let '(l, rest) := parseClass p2 in (Exactly e :: l, rest)
          else if c =c "]"%char then ([], p1)
          else match p2 with
               | stop :: p3 =>
                   if e =c "-"%char then let '(l, rest) := parseClass p3 in (Between c stop :: l, rest)
                   else let '(l, rest) := parseClass p1 in (Char c :: l, rest)
               | [] => let '(l, rest) := parseClass p1 in (Char c :: l, rest)
               end
      end
  end.

Fixpoint parseItems (fuel : nat) (p : bytes) : list item :=
  match fuel, p with
  | O, _ | _, [] => []
  | S fuel, c :: p' =>
      if c =c "*"%char then Star :: parseItems fuel p'
      else if c =c "?"%char then Any :: parseItems fuel p'
      else if c =c "["%char then
        match p' with
        | d :: p'' =>
            if d =c "^"%char then let '(l, rest) := parseClass p'' in Class true l :: parseItems fuel rest
            else let '(l, rest) := parseClass p' in Class false l :: parseItems fuel rest
        | [] => [Class false []]
        end
      else match p' with
           | d :: p'' => if c =c "\"%char then Lit d :: parseItems fuel p'' else Lit c :: parseItems fuel p'
           | [] => [Lit c]
           end
  end.

Definition parsePattern (p : bytes) : list item := parseItems (length p) p.

(** A call that returns, and returns whether [P] holds. *)
Definition decides (r : res bool) (P : Prop) : Prop := ∃ b, r = Ok b ∧ (b = true ↔ P).

#[global] Instance decides_proper : Proper (eq ==> iff ==> iff) decides.
Proof. intros r ? <- P Q HPQ. unfold decides. by setoid_rewrite HPQ. Qed.

Lemma decides_ret (b : bool) (P : Prop) : (b = true ↔ P) → decides (Ok b) P.
Proof. intros Hb. by exists b. Qed.

(** ** The matcher follows the syntax *)

(** The syntax of classes as rules. *)
Inductive classSyntax : bytes → list classItem → bytes → Prop :=
  | class_end : classSyntax [] [] []
  | class_close p : classSyntax ("]" :: p)%char [] p
  | class_escape c p l rest :
      classSyntax p l rest → classSyntax ("\" :: c :: p)%char (Exactly c :: l) rest
  | class_range a b p l rest : a ≠ "\"%char → a ≠ "]"%char →
      classSyntax p l rest → classSyntax (a :: "-" :: b :: p)%char (Between a b :: l) rest
  | class_char c p l rest : (c = "\"%char → p = []) → c ≠ "]"%char → (∀ p', p = "-"%char :: p' → p' = []) →
      classSyntax p l rest → classSyntax (c :: p) (Char c :: l) rest.

Lemma parseClass_syntax p : classSyntax p (fst (parseClass p)) (snd (parseClass p)).
Proof.
  induction p as [p IH] using length_ind. destruct p as [|c p1]; [constructor|].
  assert (∀ q, (length q < S (length p1))%nat → ∃ l rest, parseClass q = (l, rest) ∧ classSyntax q l rest) as Hrec.
  { intros q Hq. specialize (IH q Hq). destruct (parseClass q) as [l rest]. by exists l, rest. }
  clear IH. change (parseClass (c :: p1)) with
    (match p1 with
     | [] => if c =c "]"%char then ([], []) else ([Char c], [])
     | e :: p2 =>
         if c =c "\"%char then let '(l, rest) := parseClass p2 in (Exactly e :: l, rest)
         else if c =c "]"%char then ([], p1)
         else match p2 with
              | stop :: p3 =>
                  if e =c "-"%char then let '(l, rest) := parseClass p3 in (Between c stop :: l, rest)
                  else let '(l, rest) := parseClass p1 in (Char c :: l, rest)
              | [] => let '(l, rest) := parseClass p1 in (Char c :: l, rest)
              end
     end).
  destruct p1 as [|e p2].
  { case_bool_decide; [subst; constructor|]. constructor; [done|done|done|constructor]. }
  case_bool_decide; [subst c; destruct (Hrec p2) as (l & rest & -> & Hl); [cbn; lia|]; by constructor|].
  case_bool_decide; [subst c; constructor|].
  destruct p2 as [|stop p3].
  { destruct (Hrec [e]) as (l & rest & -> & Hl); [cbn; lia|]. constructor; [done|done|by intros p' [= -> <-]|done]. }
  case_bool_decide.
  - subst e. destruct (Hrec p3) as (l & rest & -> & Hl); [cbn; lia|]. by constructor.
  - destruct (Hrec (e :: stop :: p3)) as (l & rest & -> & Hl); [cbn; lia|]. constructor; [done|done|by intros p' [= -> <-]|done].
Qed.

Lemma parseClass_length p : (length (snd (parseClass p)) ≤ length p)%nat.
Proof. induction (parseClass_syntax p); cbn; lia. Qed.

Lemma classLoop_spec nocase s0 p l rest : classSyntax p l rest → ∀ fuel m, (length p < fuel)%nat →
  classLoop fuel nocase p s0 m = Ok (rest, m || existsb (memberOf nocase s0) l).
Proof.
  induction 1 as [|p|c p l rest _ IH|a b p l rest Ha Hb _ IH|c p l rest Hesc Hc Hr _ IH];
    intros [|fuel] m Hf; try (cbn in Hf; lia).
  - cbn. by rewrite orb_false_r.
  - cbn. by rewrite orb_false_r.
  - cbn -[Z.of_nat patternLen]. replace (2 <=? patternLen _) with true by (unfold patternLen; cbn; lia).
    cbn. rewrite drop_0, IH by (cbn in *; lia). by rewrite orb_assoc.
  - cbn -[Z.of_nat patternLen]. rewrite (bool_decide_eq_false_2 (a = _)) by done. cbn -[patternLen].
    rewrite (bool_decide_eq_false_2 (a = _)) by done.
    replace (patternLen _ =? 0) with false by (unfold patternLen; cbn; lia).
    replace (3 <=? patternLen _) with true by (unfold patternLen; cbn; lia). cbn.
    rewrite drop_0, IH by (cbn in *; lia). by rewrite orb_assoc.
  - cbn -[Z.of_nat patternLen]. rewrite (bool_decide_eq_false_2 (c = "]"%char)) by done.
    replace (_ && (2 <=? patternLen _)) with false.
    2: { case_bool_decide as Hc'; [|done]. by rewrite (Hesc Hc'). }
    replace (patternLen _ =? 0) with false by (unfold patternLen; cbn; lia).
    replace (if 3 <=? patternLen (c :: p) then _ else _) with (Ok false).
    2: { destruct p as [|d [|e p]]; [done|done|]. replace (3 <=? patternLen _) with true by (unfold patternLen; cbn; lia).
      cbn. rewrite bool_decide_eq_false_2; [done|]. intros ->. by specialize (Hr (e :: p) eq_refl). }
    cbn. rewrite drop_0, IH by (cbn in *; lia). by rewrite orb_assoc.
Qed.

Lemma parseItems_fuel p : ∀ n m, (length p ≤ n)%nat → (length p ≤ m)%nat → parseItems n p = parseItems m p.
Proof.
  induction p as [p IH] using length_ind. intros n m Hn Hm. destruct p as [|c p']; [by destruct n, m|].
  destruct n as [|n], m as [|m]; try (cbn in *; lia). cbn [length] in *. cbn [parseItems].
  assert (∀ q, (length q ≤ length p')%nat → parseItems n q = parseItems m q) as Hrec by (intros q Hq; apply IH; lia).
  repeat case_match; try done; f_equal; apply Hrec; cbn [length] in *; try lia;
    match goal with Heq : parseClass ?q = _ |- _ =>
      pose proof (parseClass_length q) as Hl; rewrite Heq in Hl; cbn [snd length] in Hl; lia end.
Qed.

(** The first item of a pattern. *)
Lemma parsePattern_cons c p : parsePattern (c :: p) =
  if c =c "*"%char then Star :: parsePattern p
  else if c =c "?"%char then Any :: parsePattern p
  else if c =c "["%char then
    let negated := match p with d :: _ => d =c "^"%char | [] => false end in
    let body := if (negated : bool) then drop 1 p else p in
    Class negated (fst (parseClass body)) :: parsePattern (snd (parseClass body))
  else match p with
       | d :: p' => if c =c "\"%char then Lit d :: parsePattern p' else Lit c :: parsePattern p
       | [] => [Lit c]
       end.
Proof.
  assert (∀ q, (length q ≤ length p)%nat → parseItems (length p) q = parsePattern q) as Hrec
    by (intros q Hq; by apply parseItems_fuel).
  unfold parsePattern at 1. cbn [length parseItems]. case_bool_decide; [by rewrite Hrec|].
  case_bool_decide; [by rewrite Hrec|]. case_bool_decide.
  - destruct p as [|d p']; [done|]. destruct (d =c "^"%char); cbn zeta match; cbn [drop].
    + pose proof (parseClass_length p'). rewrite drop_0. destruct (parseClass p'); cbn in *. rewrite Hrec by lia. done.
    + pose proof (parseClass_length (d :: p')). destruct (parseClass (d :: p')). cbn [fst snd] in *. by rewrite Hrec.
  - destruct p as [|d p']; [done|]. destruct (c =c "\"%char); rewrite Hrec; cbn; (done || lia).
Qed.

Lemma matches_item nocase i l s0 s : i ≠ Star →
  matches nocase (i :: l) (s0 :: s) ↔ accepts nocase i s0 = true ∧ matches nocase l s.
Proof.
  intros Hi. destruct i; [done|..]; cbn; (split; [intros (? & ? & [= <- <-] & ?); done|intros [? ?]; by exists s0, s]).
Qed.

Lemma matches_item_nil nocase i l : i ≠ Star → ¬ matches nocase (i :: l) [].
Proof. intros Hi. destruct i; [done|..]; by intros (? & ? & ? & _). Qed.

(** An item that is not a star takes one character. *)
Lemma parsePattern_item c p : c ≠ "*"%char → ∃ i l, parsePattern (c :: p) = i :: l ∧ i ≠ Star.
Proof.
  intros Hc. rewrite parsePattern_cons, bool_decide_eq_false_2 by done.
  repeat case_match; by eexists _, _.
Qed.

Lemma matches_nil nocase p : matches nocase (parsePattern p) [] ↔ dropStars p = [].
Proof.
  induction p as [|c p IH]; [done|]. cbn [dropStars]. case_bool_decide as Hc.
  - subst c. rewrite <-IH. change (parsePattern ("*"%char :: p)) with (parsePattern ("*"%char :: p)).
    rewrite parsePattern_cons. cbn. split.
    + by intros (s1 & s2 & [-> ->]%eq_sym%app_nil & ?).
    + intros ?. by exists [], [].
  - destruct (parsePattern_item c p Hc) as (i & l & -> & Hi). split; [|done]. by intros ?%matches_item_nil.
Qed.

Lemma matches_star nocase p s : matches nocase (parsePattern ("*"%char :: p)) s ↔
  ∃ s1 s2, s = s1 ++ s2 ∧ matches nocase (parsePattern p) s2.
Proof. by rewrite parsePattern_cons. Qed.

(** Consecutive stars are one star. *)
Lemma skipStars_spec nocase p : ∃ q, skipStars ("*"%char :: p) = Ok ("*"%char :: q) ∧ (length q ≤ length p)%nat ∧
  (∀ c q', q = c :: q' → c ≠ "*"%char) ∧
  ∀ s, matches nocase (parsePattern ("*"%char :: p)) s ↔ matches nocase (parsePattern ("*"%char :: q)) s.
Proof.
  induction p as [|c p (q & Hrun & Hlen & Hq & Hm)]; [by exists []|].
  destruct (decide (c = "*"%char)) as [->|Hc].
  - exists q. split_and!; [done|cbn; lia|done|]. intros s. rewrite <-Hm, !matches_star.
    setoid_rewrite matches_star. split.
    + intros (s1 & ? & -> & s2 & s3 & -> & ?). exists (s1 ++ s2), s3. by rewrite app_assoc.
    + intros (s1 & s2 & -> & ?). exists [], (s1 ++ s2). split; [done|]. by exists s1, s2.
  - exists (c :: p). split_and!; [|done|by intros ? ? [= <- <-]|done]. cbn. by rewrite bool_decide_eq_false_2.
Qed.

Lemma starLoop_spec (rest : bytes → res bool) (P : bytes → Prop) s :
  (∀ s, s ≠ [] → decides (rest s) (P s)) →
  decides (starLoop rest s) (∃ s1 s2, s = s1 ++ s2 ∧ s2 ≠ [] ∧ P s2).
Proof.
  intros Hrest. induction s as [|c s IH].
  { apply decides_ret. split; [done|]. by intros (s1 & s2 & [-> ->]%eq_sym%app_nil & ? & _). }
  destruct (Hrest (c :: s)) as (b & Hb & HP); [done|]. cbn [starLoop]. rewrite Hb. cbn. destruct b.
  { apply decides_ret. split; [|done]. intros _. exists [], (c :: s). split_and!; [done|done|by apply HP]. }
  destruct IH as (b & -> & Hb'). apply decides_ret. rewrite Hb'. split.
  - intros (s1 & s2 & -> & ?). by exists (c :: s1), s2.
  - intros (s1 & s2 & Hs & Hne & H2). destruct s1 as [|? s1]; [cbn in Hs; subst s2; by apply HP in H2|].
    injection Hs as <- ->. by exists s1, s2.
Qed.

(** The loop on the string and the rest of the pattern, and the same after an item. *)
Definition loopDecides nocase (loop : bytes → bytes → res bool) p : Prop :=
  ∀ s, decides (loop p s) (matches nocase (parsePattern p) s ∧ (s = [] → p = [])).

Lemma next_spec nocase loop p s : loopDecides nocase loop p →
  decides (match s with [] => mret (patternLen (dropStars p) =? 0) | _ => loop p s end)
    (matches nocase (parsePattern p) s).
Proof.
  intros Hloop. destruct s as [|s0 s].
  - apply decides_ret. rewrite matches_nil. unfold patternLen. destruct (dropStars p); cbn; [done|]. split; [lia|done].
  - destruct (Hloop (s0 :: s)) as (b & -> & HP). apply decides_ret. rewrite HP. split; [tauto|]. by split.
Qed.

Lemma item_spec nocase loop p s0 s i q (ok : bool) : loopDecides nocase loop q → i ≠ Star → accepts nocase i s0 = ok →
  parsePattern p = i :: parsePattern q →
  decides (if ok then match s with [] => mret (patternLen (dropStars q) =? 0) | _ => loop q s end else mret false)
    (matches nocase (parsePattern p) (s0 :: s)).
Proof.
  intros Hloop Hi Hok ->. rewrite matches_item, Hok by done. destruct ok.
  - destruct (next_spec nocase loop q s Hloop) as (b & -> & HP). apply decides_ret. rewrite HP. tauto.
  - apply decides_ret. naive_solver.
Qed.

Lemma star_spec nocase loop p s : s ≠ [] → (∀ c p', p = c :: p' → c ≠ "*"%char) → loopDecides nocase loop p →
  decides (if patternLen ("*"%char :: p) =? 1 then mret true else starLoop (loop p) s)
    (matches nocase (parsePattern ("*"%char :: p)) s).
Proof.
  intros Hs Hp Hloop. rewrite matches_star. destruct p as [|c p].
  - apply decides_ret. split; [|done]. intros _. exists s, []. by rewrite app_nil_r.
  - replace (_ =? 1) with false by (unfold patternLen; cbn; lia).
    destruct (starLoop_spec (loop (c :: p)) (λ s, matches nocase (parsePattern (c :: p)) s) s) as (b & -> & HP).
    { intros s' Hs'. destruct (Hloop s') as (b & -> & HP). apply decides_ret. rewrite HP. tauto. }
    apply decides_ret. rewrite HP. split; [intros (s1 & s2 & -> & _ & ?); by exists s1, s2|].
    intros (s1 & s2 & -> & Hm). exists s1, s2. split_and!; [done| |done]. intros ->.
    destruct (parsePattern_item c p) as (i & l & Heq & Hi); [by apply (Hp c p)|]. rewrite Heq in Hm. by apply matches_item_nil in Hm.
Qed.

Lemma matchLoop_spec nocase fuel : ∀ p, (length p < fuel)%nat → loopDecides nocase (matchLoop fuel nocase) p.
Proof.
  induction fuel as [|fuel IH]; intros p Hf s; [lia|]. destruct p as [|c p']; [|destruct s as [|s0 s']].
  - apply decides_ret. destruct s; cbn; split; done || lia || naive_solver.
  - apply decides_ret. naive_solver.
  - cbn [length] in Hf. assert (∀ q, (length q ≤ length p')%nat → loopDecides nocase (matchLoop fuel nocase) q) as Hrec
      by (intros q Hq; apply IH; lia).
    assert (∀ P : Prop, P ∧ (s0 :: s' = [] → c :: p' = []) ↔ P) as -> by (intros P; split; [tauto|by split]).
    cbn [matchLoop]. pose proof (parsePattern_cons c p') as Hp. revert Hp. case_bool_decide as Hstar; [intros _|].
    { subst c. destruct (skipStars_spec nocase p') as (q & -> & Hlen & Hq & Hm). rewrite Hm. apply star_spec; auto. }
    case_bool_decide; [intros Hp; apply (item_spec nocase _ _ s0 s' Any p' true); by auto|]. case_bool_decide.
    + assert (∃ d, patAt p' 0 = Ok d ∧ (d =c "^"%char) = match p' with d :: _ => d =c "^"%char | [] => false end)
        as (d & -> & <-) by (destruct p'; by eexists).
      cbn [mbind res_bind]. set (body := if d =c "^"%char then drop 1 p' else p'). intros Hp.
      assert (length body ≤ length p')%nat by (subst body; destruct (d =c "^"%char); rewrite ?length_drop; lia).
      rewrite (classLoop_spec _ _ _ _ _ (parseClass_syntax body)) by lia. cbn [mbind res_bind orb].
      pose proof (parseClass_length body). eapply item_spec; [apply Hrec; lia| | |exact Hp]; done.
    + intros Hp. destruct p' as [|d p''].
      { destruct (c =c "\"%char); apply (item_spec nocase _ _ s0 s' (Lit c) []); auto. }
      replace (2 <=? patternLen _) with true by (unfold patternLen; cbn; lia). rewrite andb_true_r.
      destruct (c =c "\"%char); cbn [drop]; [rewrite drop_0; apply (item_spec nocase _ _ s0 s' (Lit d) p'')|
        apply (item_spec nocase _ _ s0 s' (Lit c) (d :: p''))]; auto.
      apply Hrec. cbn. lia.
Qed.

(** C39. The pattern matcher never reads after the terminator of the pattern, ends, and
    accepts exactly the strings that match the pattern as a sequence of literals,
    wildcards and classes, except that the empty string only matches the empty
    pattern. *)
Theorem stringmatchlen_matches_globs p s nocase :
  decides (stringmatchlen p s nocase) (matches nocase (parsePattern p) s ∧ (s = [] → p = [])).
Proof. apply matchLoop_spec. lia. Qed.
