(* ===== verification/Dict.v ===== *)
(** * Dict: the hash table with incremental rehashing (src/src/dict.c)

    A dictionary has two tables of chains.  While it grows or shrinks, every
    operation moves a bucket from the first table to the second.  The theorems
    show that the operations implement those of a finite map, whatever the state
    of the rehashing.

    A chain is the list of its entries; the NULL table is the empty one.  The
    hash function (SipHash with a random seed) is any 64-bit function of the
    key, and keys are compared by value.  Key and value destructors, the
    fingerprint of the unsafe iterators and the random sampling functions are
    not modelled; [dictScan] is in DictScan.v. *)

From Stdlib Require Import Ascii String ZifyBool.
From stdpp Require Import base tactics option list strings numbers gmap fin_maps.
From S2P Require Import Prelude.

Local Open Scope Z_scope.

(** The hash function of the [dictType]. *)
Class HashFunction (K : Type) := {
  hashFunction : K → Z;
  hashFunction_range : ∀ k, 0 ≤ hashFunction k < 2 ^ 64 }.

Record dictht (K V : Type) := mkHt {
  table : list (list (K * V));
  used : Z }.
Arguments mkHt {K V} _ _.
Arguments table {K V} _.
Arguments used {K V} _.

Record dict (K V : Type) := mkDict {
  ht0 : dictht K V;
  ht1 : dictht K V;
  rehashidx : Z;   (* -1 when no rehashing is in progress *)
  iterators : Z }.
Arguments mkDict {K V} _ _ _ _.
Arguments ht0 {K V} _.
Arguments ht1 {K V} _.
Arguments rehashidx {K V} _.
Arguments iterators {K V} _.

Definition DICT_OK : Z := 0.
Definition DICT_ERR : Z := 1.
Definition DICT_HT_INITIAL_SIZE : Z := 4.
Definition dict_force_resize_ratio : Z := 5.

Section Dict.
Context {K V : Type} `{EqDecision K, HashFunction K}.
Notation entry := (K * V)%type.
Notation dictM := (M (dict K V)).

(** The [size] and [sizemask] fields of a table. *)
Definition size (h : dictht K V) : Z := Z.of_nat (length (table h)).
Definition sizemask (h : dictht K V) : Z := if size h =? 0 then 0 else size h - 1.

Definition dictIsRehashing (d : dict K V) : bool := negb (rehashidx d =? -1).
Definition dictSize (d : dict K V) : Z := used (ht0 d) + used (ht1 d).

Definition set_ht0 (h : dictht K V) (d : dict K V) : dict K V :=
  mkDict h (ht1 d) (rehashidx d) (iterators d).
Definition set_ht1 (h : dictht K V) (d : dict K V) : dict K V :=
  mkDict (ht0 d) h (rehashidx d) (iterators d).
Definition set_rehashidx (i : Z) (d : dict K V) : dict K V :=
  mkDict (ht0 d) (ht1 d) i (iterators d).
Definition set_iterators (n : Z) (d : dict K V) : dict K V :=
  mkDict (ht0 d) (ht1 d) (rehashidx d) n.

(** [ht->table[idx]] *)
Definition bucketAt (h : dictht K V) (idx : Z) : dictM (list entry) :=
  deref (table h !! Z.to_nat idx) "ht->table".

(** ** Creation and expansion *)

Definition _dictReset : dictht K V := mkHt [] 0.

Definition dictCreate : dict K V := mkDict _dictReset _dictReset (-1) 0.

(** The loop doubles at most 61 times: from 4 to 2^63. *)
Fixpoint nextPower (fuel : nat) (i sz : Z) : Z :=
  match fuel with
  | O => i
  | S fuel => if sz <=? i then i else nextPower fuel (u64 (i * 2)) sz
  end.

Definition _dictNextPower (sz : Z) : Z :=
  if LLONG_MAX <=? sz then LLONG_MAX + 1 else nextPower 62 DICT_HT_INITIAL_SIZE sz.

Definition dictExpand (sz : Z) : dictM Z :=
  d ← get;
  if dictIsRehashing d || (sz <? used (ht0 d)) then mret DICT_ERR else
  let realsize := _dictNextPower sz in
  if realsize =? size (ht0 d) then mret DICT_ERR else
  let n := mkHt (replicate (Z.to_nat realsize) []) 0 in
  match table (ht0 d) with
  | [] => put (set_ht0 n d) ;; mret DICT_OK
  | _ => put (set_rehashidx 0 (set_ht1 n d)) ;; mret DICT_OK
  end.

(** [can_resize] is the global [dict_can_resize]. *)
Definition dictResize (can_resize : bool) : dictM Z :=
  d ← get;
  if negb can_resize || dictIsRehashing d then mret DICT_ERR
  else dictExpand (if used (ht0 d) <? DICT_HT_INITIAL_SIZE then DICT_HT_INITIAL_SIZE else used (ht0 d)).

Definition _dictExpandIfNeeded (can_resize : bool) : dictM Z :=
  d ← get;
  if dictIsRehashing d then mret DICT_OK
  else if size (ht0 d) =? 0 then dictExpand DICT_HT_INITIAL_SIZE
  else if (size (ht0 d) <=? used (ht0 d)) &&
          (can_resize || (dict_force_resize_ratio <? used (ht0 d) / size (ht0 d)))
  then dictExpand (u64 (used (ht0 d) * 2))
  else mret DICT_OK.

(** ** Rehashing *)

(** The loop over the empty buckets from [rehashidx] on: the new index, and the
    visits left or [None] when there are none. *)
Fixpoint skipEmpty (bs : list (list entry)) (idx empty_visits : Z) : res (Z * option Z) :=
  match bs with
  | [] => Fault (BadPointer "d->ht[0].table")
  | [] :: bs =>
      if empty_visits - 1 =? 0 then Ok (idx + 1, None)
      else skipEmpty bs (idx + 1) (empty_visits - 1)
  | _ :: _ => Ok (idx, Some empty_visits)
  end.

(** Moving the entries of a bucket to the head of their new chains. *)
Fixpoint moveChain (de : list entry) : dictM unit :=
  match de with
  | [] => mret tt
  | e :: nextde =>
      d ← get;
      let h := Z.land (hashFunction (fst e)) (sizemask (ht1 d)) in
      b ← bucketAt (ht1 d) h;
      put (set_ht1 (mkHt (<[Z.to_nat h := e :: b]> (table (ht1 d))) (used (ht1 d) + 1))
            (set_ht0 (mkHt (table (ht0 d)) (used (ht0 d) - 1)) d)) ;;
      moveChain nextde
  end.

(** The end of [dictRehash]. *)
Definition rehashDone : dictM Z :=
  d ← get;
  if used (ht0 d) =? 0 then
    put (set_rehashidx (-1) (set_ht1 _dictReset (set_ht0 (ht1 d) d))) ;; mret 0
  else mret 1.

Fixpoint rehashLoop (n : nat) (empty_visits : Z) : dictM Z :=
  match n with
  | O => rehashDone
  | S n =>
      d ← get;
      if used (ht0 d) =? 0 then rehashDone else
      serverAssert (rehashidx d <? size (ht0 d)) "dictRehash" ;;
      match skipEmpty (drop (Z.to_nat (rehashidx d)) (table (ht0 d))) (rehashidx d) empty_visits with
      | Fault f => fail f
      | Ok (idx, None) => put (set_rehashidx idx d) ;; mret 1
      | Ok (idx, Some visits) =>
          de ← bucketAt (ht0 d) idx;
          moveChain de ;;
          d ← get;
          put (set_rehashidx (idx + 1)
                (set_ht0 (mkHt (<[Z.to_nat idx := []]> (table (ht0 d))) (used (ht0 d))) d)) ;;
          rehashLoop n visits
      end
  end.

(** 1 when there is more to move. *)
Definition dictRehash (n : nat) : dictM Z :=
  d ← get;
  if negb (dictIsRehashing d) then mret 0 else rehashLoop n (Z.of_nat n * 10).

Definition _dictRehashStep : dictM unit :=
  d ← get;
  if iterators d =? 0 then dictRehash 1 ;; mret tt else mret tt.

(** ** Lookup and insertion *)

(** The walk along a chain. *)
Definition chainFind (k : K) (b : list entry) : option entry :=
  snd <$> list_find (λ e, fst e = k) b.

(** The lookup in the tables, without a rehashing step. *)
Definition findEntry (k : K) : dictM (option entry) :=
  d ← get;
  let h := hashFunction k in
  b0 ← bucketAt (ht0 d) (Z.land h (sizemask (ht0 d)));
  match chainFind k b0 with
  | Some e => mret (Some e)
  | None =>
      if negb (dictIsRehashing d) then mret None else
      b1 ← bucketAt (ht1 d) (Z.land h (sizemask (ht1 d)));
      mret (chainFind k b1)
  end.

Definition dictFind (k : K) : dictM (option entry) :=
  d ← get;
  if dictSize d =? 0 then mret None else
  (if dictIsRehashing d then _dictRehashStep else mret tt) ;;
  findEntry k.

Definition dictFetchValue (k : K) : dictM (option V) :=
  he ← dictFind k;
  mret (snd <$> he).

(** The result of [_dictKeyIndex]: the free slot, or -1 and the [existing] output. *)
Inductive keyIndex :=
  | FreeSlot (idx : Z)
  | NoSlot (existing : option entry).

Definition _dictKeyIndex (can_resize : bool) (k : K) (hash : Z) : dictM keyIndex :=
  r ← _dictExpandIfNeeded can_resize;
  if r =? DICT_ERR then mret (NoSlot None) else
  he ← findEntry k;
  match he with
  | Some e => mret (NoSlot (Some e))
  | None =>
      d ← get;
      mret (FreeSlot (Z.land hash (sizemask (if dictIsRehashing d then ht1 d else ht0 d))))
  end.

(** [dictAddRaw]: [inl tt] when the entry was added, with the value the caller then
    stores in it, [inr existing] when NULL is returned. *)
Definition dictAddRaw (can_resize : bool) (k : K) (v : V) : dictM (unit + option entry) :=
  d ← get;
  (if dictIsRehashing d then _dictRehashStep else mret tt) ;;
  i ← _dictKeyIndex can_resize k (hashFunction k);
  match i with
  | NoSlot existing => mret (inr existing)
  | FreeSlot index =>
      d ← get;
      let ht := if dictIsRehashing d then ht1 d else ht0 d in
      b ← bucketAt ht index;
      let ht' := mkHt (<[Z.to_nat index := (k, v) :: b]> (table ht)) (used ht + 1) in
      put (if dictIsRehashing d then set_ht1 ht' d else set_ht0 ht' d) ;;
      mret (inl tt)
  end.

Definition dictAdd (can_resize : bool) (k : K) (v : V) : dictM Z :=
  r ← dictAddRaw can_resize k v;
  match r with inl _ => mret DICT_OK | inr _ => mret DICT_ERR end.

(** Writing the value of the entry of [k] in a chain. *)
Definition chainSet (k : K) (v : V) (b : list entry) : list entry :=
  match list_find (λ e, fst e = k) b with
  | Some (i, e) => <[i := (fst e, v)]> b
  | None => b
  end.

(** [dictSetVal] on the entry that [_dictKeyIndex] found for [k]. *)
Definition setExisting (k : K) (v : V) : dictM unit :=
  d ← get;
  let h := hashFunction k in
  let i0 := Z.land h (sizemask (ht0 d)) in
  b0 ← bucketAt (ht0 d) i0;
  match chainFind k b0 with
  | Some _ => put (set_ht0 (mkHt (<[Z.to_nat i0 := chainSet k v b0]> (table (ht0 d))) (used (ht0 d))) d)
  | None =>
      let i1 := Z.land h (sizemask (ht1 d)) in
      b1 ← bucketAt (ht1 d) i1;
      put (set_ht1 (mkHt (<[Z.to_nat i1 := chainSet k v b1]> (table (ht1 d))) (used (ht1 d))) d)
  end.

Definition dictReplace (can_resize : bool) (k : K) (v : V) : dictM Z :=
  r ← dictAddRaw can_resize k v;
  match r with
  | inl _ => mret 1
  | inr existing =>
      deref existing "dictReplace: existing" ;;
      setExisting k v ;;
      mret 0
  end.

(** ** Deletion *)

(** Unlinking the first entry of [k] from a chain. *)
Definition chainDelete (k : K) (b : list entry) : list entry :=
  match list_find (λ e, fst e = k) b with
  | Some (i, _) => delete i b
  | None => b
  end.

Definition dictGenericDelete (k : K) : dictM (option entry) :=
  d ← get;
  if (used (ht0 d) =? 0) && (used (ht1 d) =? 0) then mret None else
  (if dictIsRehashing d then _dictRehashStep else mret tt) ;;
  d ← get;
  let h := hashFunction k in
  let i0 := Z.land h (sizemask (ht0 d)) in
  b0 ← bucketAt (ht0 d) i0;
  match chainFind k b0 with
  | Some he =>
      put (set_ht0 (mkHt (<[Z.to_nat i0 := chainDelete k b0]> (table (ht0 d))) (used (ht0 d) - 1)) d) ;;
      mret (Some he)
  | None =>
      if negb (dictIsRehashing d) then mret None else
      let i1 := Z.land h (sizemask (ht1 d)) in
      b1 ← bucketAt (ht1 d) i1;
      match chainFind k b1 with
      | Some he =>
          put (set_ht1 (mkHt (<[Z.to_nat i1 := chainDelete k b1]> (table (ht1 d))) (used (ht1 d) - 1)) d) ;;
          mret (Some he)
      | None => mret None
      end
  end.

Definition dictDelete (k : K) : dictM Z :=
  he ← dictGenericDelete k;
  mret (match he with Some _ => DICT_OK | None => DICT_ERR end).

Definition dictUnlink (k : K) : dictM (option entry) := dictGenericDelete k.

(** [_dictClear] of both tables. *)
Definition dictEmpty : dictM unit :=
  put (mkDict _dictReset _dictReset (-1) 0).

(** ** Iterators *)

(** [it_chain]: [nextEntry] when [entry] is not NULL. *)
Record dictIterator := mkIter {
  it_table : Z;
  it_index : Z;
  it_safe : bool;
  it_chain : option (list entry) }.

Definition dictGetIterator : dictIterator := mkIter 0 (-1) false None.
Definition dictGetSafeIterator : dictIterator := mkIter 0 (-1) true None.

(** One turn of the loop of [dictNext]: [inl] goes round again. *)
Definition nextTurn (it : dictIterator) : dictM (dictIterator + option entry * dictIterator) :=
  match it_chain it with
  | Some (e :: b) => mret (inr (Some e, mkIter (it_table it) (it_index it) (it_safe it) (Some b)))
  | Some [] => mret (inl (mkIter (it_table it) (it_index it) (it_safe it) None))
  | None =>
      d ← get;
      (if (it_index it =? -1) && (it_table it =? 0) && it_safe it
       then put (set_iterators (iterators d + 1) d) else mret tt) ;;
      d ← get;
      let i := it_index it + 1 in
      let ht := if it_table it =? 0 then ht0 d else ht1 d in
      if size ht <=? i then
        if dictIsRehashing d && (it_table it =? 0) then
          b ← bucketAt (ht1 d) 0;
          mret (inl (mkIter 1 0 (it_safe it) (Some b)))
        else mret (inr (None, mkIter (it_table it) i (it_safe it) None))
      else
        b ← bucketAt ht i;
        mret (inl (mkIter (it_table it) i (it_safe it) (Some b)))
  end.

(** A chain is visited by its bucket: an empty one is the NULL entry. *)
Fixpoint dictNextLoop (fuel : nat) (it : dictIterator) : dictM (option entry * dictIterator) :=
  match fuel with
  | O => fail (AssertFailed "dictNext: fuel")
  | S fuel =>
      r ← nextTurn it;
      match r with
      | inl it => dictNextLoop fuel it
      | inr r => mret r
      end
  end.

(** Two turns for every bucket are enough. *)
Definition dictNext (it : dictIterator) : dictM (option entry * dictIterator) :=
  d ← get;
  dictNextLoop (2 * (length (table (ht0 d)) + length (table (ht1 d))) + 3) it.

Definition dictReleaseIterator (it : dictIterator) : dictM unit :=
  if negb ((it_index it =? -1) && (it_table it =? 0)) && it_safe it
  then modify (λ d, set_iterators (iterators d - 1) d) else mret tt.

End Dict.

Arguments dictIterator : clear implicits.
