(* ===== verification/DictProps.v ===== *)
(** * DictProps: the hash table implements a finite map

    The invariant of the two tables, its preservation by every operation, and
    the refinement of the operations to those of [gmap]. *)

From Stdlib Require Import Ascii String ZifyBool.
From stdpp Require Import base tactics option list strings numbers gmap fin_maps.
From S2P Require Import Prelude Dict.

Local Open Scope Z_scope.

(** Replacing a bucket of a table of chains. *)
Lemma concat_bucket {A} (t : list (list A)) i b :
  t !! i = Some b →
  ∃ R, concat t ≡ₚ b ++ R ∧ ∀ b', concat (<[i := b']> t) ≡ₚ b' ++ R.
Proof.
  intros Hi. exists (concat (take i t) ++ concat (drop (S i) t)). split.
  - rewrite <-(take_drop_middle t i b) at 1 by done. rewrite concat_app. cbn.
    by rewrite !(assoc_L (++)), (Permutation_app_comm (concat _) b).
  - intros b'. rewrite insert_take_drop by by eapply lookup_lt_Some. rewrite concat_app. cbn.
    by rewrite !(assoc_L (++)), (Permutation_app_comm (concat _) b').
Qed.

Lemma elem_of_concat {A} (t : list (list A)) x : x ∈ concat t ↔ ∃ i b, t !! i = Some b ∧ x ∈ b.
Proof.
  rewrite list_elem_of_In, in_concat. split.
  - intros (b & Hb & Hx). apply list_elem_of_In, list_elem_of_lookup in Hb as [i Hi].
    exists i, b. by rewrite list_elem_of_In.
  - intros (i & b & Hi & Hx). exists b. rewrite <-!list_elem_of_In. split; [|done].
    by eapply list_elem_of_lookup_2.
Qed.

Lemma concat_nil {A} (t : list (list A)) : (∀ i b, t !! i = Some b → b = []) → concat t = [].
Proof.
  intros Ht. destruct (concat t) as [|x l] eqn:Hc; [done|].
  assert (x ∈ concat t) as Hx by (rewrite Hc; by left).
  apply elem_of_concat in Hx as (i & b & Hi & Hb). rewrite (Ht i b Hi) in Hb. by apply not_elem_of_nil in Hb.
Qed.

(** ** The size of the new table *)

Lemma nextPower_spec fuel m sz :
  (0 ≤ m ≤ 63)%Z → sz ≤ 2 ^ 63 → 63 - m ≤ Z.of_nat fuel →
  ∃ n, m ≤ n ≤ 63 ∧ nextPower fuel (2 ^ m) sz = 2 ^ n ∧ sz ≤ 2 ^ n.
Proof.
  revert m. induction fuel as [|fuel IH]; intros m Hm Hsz Hf; cbn [nextPower].
  { exists m. assert (m = 63) as -> by lia. by split_and!. }
  destruct (Z.leb_spec sz (2 ^ m)) as [Hle|Hgt]; [exists m; split_and!; lia|].
  assert (m < 63) as Hlt.
  { destruct (Z.eq_dec m 63) as [->|]; [lia|lia]. }
  replace (2 ^ m * 2) with (2 ^ (m + 1)) by (rewrite Z.pow_add_r by lia; lia).
  assert (2 ^ (m + 1) ≤ 2 ^ 63) by (apply Z.pow_le_mono_r; lia).
  assert (0 < 2 ^ (m + 1)) by (apply Z.pow_pos_nonneg; lia).
  rewrite u64_id by (unfold ULLONG_MAX; lia).
  destruct (IH (m + 1)) as (n & Hn & Hr & Hle); [lia..|]. exists n. split_and!; [lia..|done|done].
Qed.

Lemma dictNextPower_spec sz :
  sz < LLONG_MAX → ∃ n, 2 ≤ n ≤ 63 ∧ _dictNextPower sz = 2 ^ n ∧ sz ≤ 2 ^ n.
Proof.
  intros Hsz. unfold _dictNextPower. rewrite (proj2 (Z.leb_gt _ _)) by lia.
  change DICT_HT_INITIAL_SIZE with (2 ^ 2). unfold LLONG_MAX in Hsz. apply nextPower_spec; lia.
Qed.

(** The fields of an updated dictionary. *)
Ltac dict_fields :=
  cbn [ht0 ht1 rehashidx iterators set_ht0 set_ht1 set_rehashidx set_iterators].

Section Props.
Context {K V : Type} `{Countable K, HashFunction K}.
Implicit Types (k : K) (v : V) (h : dictht K V) (d : dict K V) (b : list (K * V)).

(** ** One table *)

Definition bucketIndex h k : Z := Z.land (hashFunction k) (sizemask h).

Record ht_wf h : Prop := {
  hw_size : size h = 0 ∨ ∃ n, 0 ≤ n ≤ 63 ∧ size h = 2 ^ n;
  hw_placed : ∀ i b e, table h !! i = Some b → e ∈ b → Z.of_nat i = bucketIndex h (fst e);
  hw_used : used h = Z.of_nat (length (concat (table h))) }.

Lemma bucketIndex_range h k : ht_wf h → table h ≠ [] → 0 ≤ bucketIndex h k < size h.
Proof.
  intros [Hs _ _] Hne. unfold bucketIndex, sizemask. destruct Hs as [Hs|(n & Hn & Hs)].
  { unfold size in Hs. destruct (table h); [done|]. cbn in Hs. lia. }
  assert (0 < 2 ^ n) by (apply Z.pow_pos_nonneg; lia).
  rewrite Hs, (proj2 (Z.eqb_neq _ _)) by lia.
  replace (2 ^ n - 1) with (Z.ones n) by (rewrite Z.ones_equiv; lia).
  rewrite Z.land_ones by lia. apply Z.mod_pos_bound. lia.
Qed.

Lemma bucket_lookup h k : ht_wf h → table h ≠ [] →
  ∃ b, table h !! Z.to_nat (bucketIndex h k) = Some b.
Proof.
  intros Hwf Hne. apply lookup_lt_is_Some_2. pose proof (bucketIndex_range h k Hwf Hne).
  unfold size in *. lia.
Qed.

Lemma bucket_elem h k v b : ht_wf h →
  table h !! Z.to_nat (bucketIndex h k) = Some b → (k, v) ∈ b ↔ (k, v) ∈ concat (table h).
Proof.
  intros Hwf Hb. rewrite elem_of_concat. split; [by eauto|]. intros (i & b' & Hi & He).
  pose proof (hw_placed h Hwf i b' (k, v) Hi He) as Hp. cbn in Hp.
  assert (i = Z.to_nat (bucketIndex h k)) as -> by lia. congruence.
Qed.

(** The walk along a chain without duplicates. *)
Lemma chainFind_Some k b e : NoDup b.*1 → chainFind k b = Some e ↔ e ∈ b ∧ fst e = k.
Proof.
  intros Hnd. unfold chainFind. rewrite fmap_Some. split.
  - intros ([i e'] & (Hi & <- & _)%list_find_Some & ->). cbn. split; [|done].
    by eapply list_elem_of_lookup_2.
  - intros [(i & Hi)%list_elem_of_lookup Hk]. exists (i, e). split; [|done].
    apply list_find_Some. split_and!; [done|done|]. intros j e' Hj Hlt Hk'.
    assert (b.*1 !! i = Some k) as H1 by (rewrite list_lookup_fmap, Hi; cbn; congruence).
    assert (b.*1 !! j = Some k) as H2 by (rewrite list_lookup_fmap, Hj; cbn; congruence).
    pose proof (NoDup_lookup _ _ _ _ Hnd H1 H2). lia.
Qed.

Lemma chainFind_map h k b : ht_wf h → NoDup (concat (table h)).*1 →
  table h !! Z.to_nat (bucketIndex h k) = Some b →
  chainFind k b = (k,.) <$> (list_to_map (concat (table h)) : gmap K V) !! k.
Proof.
  intros Hwf Hnd Hb. destruct (concat_bucket _ _ _ Hb) as (R & HR & _).
  assert (NoDup b.*1) as Hndb.
  { rewrite HR, fmap_app in Hnd. by apply NoDup_app in Hnd as [? _]. }
  apply option_eq. intros e. rewrite chainFind_Some, fmap_Some by done. split.
  - intros [He <-]. destruct e as [k v]. exists v. split; [|done].
    apply elem_of_list_to_map; [done|]. by apply (bucket_elem h k v b).
  - intros (v & Hv & ->). apply elem_of_list_to_map in Hv; [|done].
    split; [|done]. by apply (bucket_elem h k v b).
Qed.

(** Replacing the bucket of an index. *)
Lemma ht_update h i b b' n :
  ht_wf h → table h !! i = Some b → n = used h + Z.of_nat (length b') - Z.of_nat (length b) →
  (∀ e, e ∈ b' → Z.of_nat i = bucketIndex h (fst e)) →
  let h' := mkHt (<[i := b']> (table h)) n in
  ht_wf h' ∧ size h' = size h ∧
  ∃ R, concat (table h) ≡ₚ b ++ R ∧ concat (table h') ≡ₚ b' ++ R.
Proof.
  intros Hwf Hi -> Hb' h'. destruct (concat_bucket _ _ _ Hi) as (R & HR & HR').
  specialize (HR' b'). assert (size h' = size h) as Hsz by (unfold size; cbn; by rewrite length_insert).
  split_and!; [|done|by exists R]. split.
  - rewrite Hsz. apply Hwf.
  - intros j bj e Hj He. unfold bucketIndex, sizemask. rewrite Hsz. cbn in Hj.
    apply list_lookup_insert_Some in Hj as [(<- & <- & _)|[_ Hj]]; [by apply Hb'|by eapply hw_placed].
  - cbn. rewrite (hw_used h Hwf), HR', HR, !length_app. lia.
Qed.

(** ** The invariant *)

Definition entries d : list (K * V) := concat (table (ht0 d)) ++ concat (table (ht1 d)).

(** The map a dictionary stands for. *)
Definition dictMap d : gmap K V := list_to_map (entries d).

Record dict_wf d : Prop := {
  dw_ht0 : ht_wf (ht0 d);
  dw_ht1 : ht_wf (ht1 d);
  dw_nodup : NoDup (entries d).*1;
  dw_idle : rehashidx d = -1 → ht1 d = _dictReset;
  dw_rehash : rehashidx d ≠ -1 →
    0 ≤ rehashidx d ≤ size (ht0 d) ∧ table (ht0 d) ≠ [] ∧ table (ht1 d) ≠ [] ∧
    ∀ i b, table (ht0 d) !! i = Some b → Z.of_nat i < rehashidx d → b = [] }.

Lemma reset_wf : ht_wf (@_dictReset K V).
Proof. split; cbn; [by left|by intros i b e; rewrite lookup_nil|done]. Qed.

Lemma rehashing_true d : dictIsRehashing d = true ↔ rehashidx d ≠ -1.
Proof. unfold dictIsRehashing. lia. Qed.

Lemma rehashing_false d : dictIsRehashing d = false ↔ rehashidx d = -1.
Proof. unfold dictIsRehashing. lia. Qed.

(** Two dictionaries with the same entries stand for the same map. *)
Lemma dictMap_perm d d' : NoDup (entries d).*1 → entries d' ≡ₚ entries d → dictMap d' = dictMap d.
Proof. intros Hnd Hp. unfold dictMap. symmetry. by apply list_to_map_proper. Qed.

Lemma dictSize_entries d : dict_wf d → dictSize d = Z.of_nat (length (entries d)).
Proof.
  intros [Hw0 Hw1 _ _ _]. unfold dictSize, entries. rewrite (hw_used _ Hw0), (hw_used _ Hw1), length_app. lia.
Qed.

Lemma dictMap_empty d : dict_wf d → dictSize d = 0 → dictMap d = ∅.
Proof.
  intros Hwf Hz. rewrite dictSize_entries in Hz by done. unfold dictMap.
  by destruct (entries d); [|cbn in Hz; lia].
Qed.

Lemma nodup_tables d : dict_wf d →
  NoDup (concat (table (ht0 d))).*1 ∧ NoDup (concat (table (ht1 d))).*1.
Proof.
  intros Hwf. pose proof (dw_nodup d Hwf) as Hnd. unfold entries in Hnd. rewrite fmap_app in Hnd.
  by apply NoDup_app in Hnd as (? & _ & ?).
Qed.

Lemma dictMap_lookup d k :
  dictMap d !! k =
  match (list_to_map (concat (table (ht0 d))) : gmap K V) !! k with
  | Some v => Some v
  | None => (list_to_map (concat (table (ht1 d))) : gmap K V) !! k
  end.
Proof.
  unfold dictMap, entries. rewrite list_to_map_app, lookup_union.
  by destruct (list_to_map _ !! k), (list_to_map _ !! k).
Qed.

Lemma bucketAt_run h k b (s : dict K V) :
  table h !! Z.to_nat (bucketIndex h k) = Some b → bucketAt h (bucketIndex h k) s = Ok (b, s).
Proof. unfold bucketAt. by intros ->. Qed.

(** The lookup in both tables. *)
Lemma findEntry_run k d : dict_wf d → table (ht0 d) ≠ [] →
  findEntry k d = Ok ((k,.) <$> dictMap d !! k, d).
Proof.
  intros Hwf Hne. pose proof Hwf as [Hw0 Hw1 _ Hidle Hre]. unfold findEntry.
  rewrite (bind_run get _ d d d) by done. fold (bucketIndex (ht0 d) k) (bucketIndex (ht1 d) k).
  destruct (bucket_lookup (ht0 d) k) as [b0 Hb0]; [done..|].
  erewrite bind_run by by apply bucketAt_run. rewrite dictMap_lookup.
  rewrite (chainFind_map (ht0 d) k b0) by (done || by apply nodup_tables).
  destruct (list_to_map _ !! k) as [v|]; [done|]. cbn [fmap option_fmap option_map].
  destruct (dictIsRehashing d) eqn:Hr; cbn [negb].
  - apply rehashing_true, Hre in Hr as (_ & _ & Hne1 & _).
    destruct (bucket_lookup (ht1 d) k) as [b1 Hb1]; [done..|].
    erewrite bind_run by by apply bucketAt_run. by rewrite (chainFind_map (ht1 d) k b1) by (done || by apply nodup_tables).
  - apply rehashing_false, Hidle in Hr. rewrite Hr. cbn. by rewrite lookup_empty.
Qed.

(** ** Rehashing *)

(** An operation that keeps the map and the invariant. *)
Definition sameMap d d' : Prop := dict_wf d' ∧ entries d' ≡ₚ entries d ∧ iterators d' = iterators d.

Lemma sameMap_refl d : dict_wf d → sameMap d d.
Proof. by intros. Qed.

Lemma sameMap_trans d1 d2 d3 : sameMap d1 d2 → sameMap d2 d3 → sameMap d1 d3.
Proof. intros (? & Hp1 & ?) (? & Hp2 & ?). split_and!; [done|by rewrite Hp2|congruence]. Qed.

Lemma sameMap_map d d' : dict_wf d → sameMap d d' → dictMap d' = dictMap d.
Proof. intros Hwf (_ & Hp & _). apply dictMap_perm; [apply Hwf|done]. Qed.

Lemma moveChain_run de d :
  ht_wf (ht1 d) → table (ht1 d) ≠ [] →
  ∃ h1, moveChain de d =
      Ok (tt, mkDict (mkHt (table (ht0 d)) (used (ht0 d) - Z.of_nat (length de))) h1 (rehashidx d) (iterators d)) ∧
    ht_wf h1 ∧ size h1 = size (ht1 d) ∧ concat (table h1) ≡ₚ de ++ concat (table (ht1 d)).
Proof.
  revert d. induction de as [|e de IH]; intros d Hwf Hne.
  { exists (ht1 d). cbn [moveChain length]. rewrite Z.sub_0_r. by destruct d as [[? ?] ? ? ?]. }
  destruct (bucket_lookup (ht1 d) (fst e)) as [b Hb]; [done..|].
  destruct (ht_update (ht1 d) _ b (e :: b) (used (ht1 d) + 1) Hwf Hb) as (Hw & Hs & R & HR & HR').
  { cbn [length]. lia. }
  { intros e' [->|He']%elem_of_cons; [|by eapply hw_placed].
    pose proof (bucketIndex_range (ht1 d) (fst e) Hwf Hne). lia. }
  set (h' := mkHt _ _) in Hw, Hs, HR'.
  destruct (IH (set_ht1 h' (set_ht0 (mkHt (table (ht0 d)) (used (ht0 d) - 1)) d)))
    as (h1 & Hrun & Hw1 & Hs1 & Hp); [done| |].
  { intros Hn%(f_equal length). cbn in Hn. rewrite length_insert in Hn. by destruct (table (ht1 d)). }
  exists h1. split_and!; [|done|by rewrite Hs1|].
  - cbn [moveChain]. rewrite (bind_run get _ d d d) by done.
    fold (bucketIndex (ht1 d) (fst e)). erewrite bind_run by by apply bucketAt_run.
    erewrite (bind_run (put _)) by done. fold h'. rewrite Hrun. cbn. do 4 f_equal. lia.
  - rewrite Hp. cbn [ht1 set_ht1]. rewrite HR', HR. cbn. by rewrite <-Permutation_middle.
Qed.

Lemma skipEmpty_spec (bs : list (list (K * V))) idx visits :
  (∃ i b, bs !! i = Some b ∧ b ≠ []) →
  ∃ (j : nat) r, skipEmpty bs idx visits = Ok (idx + Z.of_nat j, r) ∧ (j ≤ length bs)%nat ∧
    (∀ i, (i < j)%nat → bs !! i = Some []) ∧
    match r with Some _ => ∃ e b, bs !! j = Some (e :: b) | None => (0 < j)%nat end.
Proof.
  revert idx visits. induction bs as [|[|e b] bs IH]; intros idx visits (i & b' & Hi & Hb').
  - by rewrite lookup_nil in Hi.
  - cbn [skipEmpty]. destruct (visits - 1 =? 0).
    { exists 1%nat, None. split_and!; [done|cbn; lia| |lia]. intros [|i'] ?; [done|lia]. }
    destruct (IH (idx + 1) (visits - 1)) as (j & r & Hrun & Hj & Hempty & Hr).
    { destruct i; [by injection Hi as <-|]. by exists i, b'. }
    exists (S j), r. split_and!; [|cbn; lia| |].
    + rewrite Hrun. by replace (idx + 1 + Z.of_nat j) with (idx + Z.of_nat (S j)) by lia.
    + intros [|i'] ?; [done|]. apply Hempty. lia.
    + destruct r; [done|lia].
  - exists 0%nat, (Some visits). cbn [skipEmpty]. split_and!; [by rewrite Z.add_0_r|lia|lia|by exists e, b].
Qed.

Lemma rehashDone_run d : dict_wf d → rehashidx d ≠ -1 →
  ∃ r d', rehashDone d = Ok (r, d') ∧ sameMap d d' ∧
    (r = 0 ∧ rehashidx d' = -1 ∨ r = 1 ∧ d' = d).
Proof.
  intros Hwf Hr. pose proof Hwf as [Hw0 Hw1 Hnd _ Hre]. unfold rehashDone.
  rewrite (bind_run get _ d d d) by done. destruct (used (ht0 d) =? 0) eqn:Hu; [|exists 1, d; by split_and!; [|apply sameMap_refl|right]].
  eexists 0, _. split; [done|]. split; [|by left].
  assert (concat (table (ht0 d)) = []) as Hnil.
  { pose proof (hw_used _ Hw0). destruct (concat (table (ht0 d))); [done|cbn in *; lia]. }
  assert (entries d = concat (table (ht1 d))) as Hent by (unfold entries; by rewrite Hnil).
  split_and!; [|unfold entries at 1; cbn; by rewrite app_nil_r, Hent|done].
  split; cbn; [done|apply reset_wf| |done|done]. unfold entries. cbn. by rewrite app_nil_r, <-Hent.
Qed.

(** Moving the first bucket that is not empty. *)
Lemma moveBucket_wf d (idx : nat) de h1 :
  dict_wf d → rehashidx d ≠ -1 → table (ht0 d) !! idx = Some de →
  (∀ i b, table (ht0 d) !! i = Some b → (i < idx)%nat → b = []) →
  ht_wf h1 → size h1 = size (ht1 d) → concat (table h1) ≡ₚ de ++ concat (table (ht1 d)) →
  sameMap d (mkDict (mkHt (<[idx := []]> (table (ht0 d))) (used (ht0 d) - Z.of_nat (length de))) h1
               (Z.of_nat idx + 1) (iterators d)).
Proof.
  intros [Hw0 Hw1 Hnd _ Hre] Hr Hde Hempty Hwh1 Hsz Hp. destruct (Hre Hr) as (_ & Hne0 & Hne1 & _).
  destruct (ht_update (ht0 d) idx de [] (used (ht0 d) - Z.of_nat (length de)) Hw0 Hde)
    as (Hw & Hs & R & HR & HR'); [cbn; lia|by intros e ?%not_elem_of_nil|].
  set (h0 := mkHt _ _) in *. set (d' := mkDict _ _ _ _).
  assert (entries d' ≡ₚ entries d) as Hent.
  { unfold entries, d'. cbn [ht0 ht1]. rewrite HR', Hp, HR. cbn. rewrite !(assoc_L (++)).
    by rewrite (Permutation_app_comm R de). }
  split_and!; [|done|done]. split; cbn [ht0 ht1 rehashidx d']; [done|done| |lia|].
  - by rewrite Hent.
  - intros _. pose proof (lookup_lt_Some _ _ _ Hde). split_and!.
    + lia.
    + rewrite Hs. unfold size. lia.
    + intros Hn%(f_equal length). cbn in Hn. rewrite length_insert in Hn. lia.
    + unfold size in Hsz. intros Hn. rewrite Hn in Hsz. by destruct (table (ht1 d)).
    + intros i b Hi Hlt. cbn in Hi. apply list_lookup_insert_Some in Hi as [(<- & <- & _)|[Hne Hi]]; [done|].
      apply (Hempty i); [done|lia].
Qed.

Lemma nonempty_bucket d : dict_wf d → rehashidx d ≠ -1 → used (ht0 d) ≠ 0 →
  ∃ i b, table (ht0 d) !! i = Some b ∧ b ≠ [] ∧ rehashidx d ≤ Z.of_nat i.
Proof.
  intros Hwf Hr Hu. pose proof (dw_rehash d Hwf Hr) as (_ & _ & _ & Hempty).
  rewrite (hw_used _ (dw_ht0 d Hwf)) in Hu. destruct (concat (table (ht0 d))) as [|x l] eqn:Hc; [done|].
  assert (x ∈ concat (table (ht0 d))) as Hx by (rewrite Hc; by left).
  apply elem_of_concat in Hx as (i & b & Hi & Hb). exists i, b. split_and!; [done|by intros ->; apply not_elem_of_nil in Hb|].
  destruct (Z.le_gt_cases (rehashidx d) (Z.of_nat i)) as [|Hlt]; [done|].
  rewrite (Hempty i b Hi Hlt) in Hb. by apply not_elem_of_nil in Hb.
Qed.

(** The buckets skipped by a step of the rehashing. *)
Lemma skip_run visits d : dict_wf d → rehashidx d ≠ -1 → used (ht0 d) ≠ 0 →
  ∃ (idx : nat) r,
    skipEmpty (drop (Z.to_nat (rehashidx d)) (table (ht0 d))) (rehashidx d) visits = Ok (Z.of_nat idx, r) ∧
    rehashidx d ≤ Z.of_nat idx ≤ size (ht0 d) ∧
    (∀ i b, table (ht0 d) !! i = Some b → (i < idx)%nat → b = []) ∧
    match r with
    | Some _ => ∃ e b, table (ht0 d) !! idx = Some (e :: b)
    | None => rehashidx d < Z.of_nat idx
    end.
Proof.
  intros Hwf Hr Hu. pose proof (dw_rehash d Hwf Hr) as (Hidx & _ & _ & Hempty).
  destruct (nonempty_bucket d) as (i0 & b0 & Hi0 & Hb0 & Hge); [done..|].
  pose proof (lookup_lt_Some _ _ _ Hi0) as Hlt0. set (n0 := Z.to_nat (rehashidx d)).
  destruct (skipEmpty_spec (drop n0 (table (ht0 d))) (rehashidx d) visits) as (j & r & Hskip & Hj & Hz & Hcase).
  { exists (i0 - n0)%nat, b0. split; [|done]. rewrite lookup_drop.
    by replace (n0 + (i0 - n0))%nat with i0 by lia. }
  rewrite length_drop in Hj. exists (n0 + j)%nat, r. split_and!.
  - rewrite Hskip. do 3 f_equal. lia.
  - lia.
  - unfold size. lia.
  - intros i b Hi Hlt. destruct (decide (i < n0)%nat) as [|Hnot]; [apply (Hempty i); [done|lia]|].
    specialize (Hz (i - n0)%nat). rewrite lookup_drop in Hz.
    replace (n0 + (i - n0))%nat with i in Hz by lia. rewrite Hi in Hz. by injection Hz; [|lia].
  - destruct r; [|lia]. destruct Hcase as (e & b & Hb). exists e, b. by rewrite lookup_drop in Hb.
Qed.

(** One turn of the rehashing loop moves forward. *)
Lemma rehashTurn n visits d : dict_wf d → rehashidx d ≠ -1 → used (ht0 d) ≠ 0 →
  ∃ d', sameMap d d' ∧ rehashidx d' ≠ -1 ∧ rehashidx d < rehashidx d' ∧ size (ht0 d') = size (ht0 d) ∧
    (rehashLoop (S n) visits d = Ok (1, d') ∨ ∃ visits', rehashLoop (S n) visits d = rehashLoop n visits' d').
Proof.
  intros Hwf Hr Hu. pose proof (dw_rehash d Hwf Hr) as (Hidx & Hne0 & Hne1 & Hempty).
  destruct (skip_run visits d) as (idx & r & Hskip & Hrange & Hlow & Hcase); [done..|].
  destruct (nonempty_bucket d) as (i0 & b0 & Hi0 & _ & Hge); [done..|].
  assert (rehashLoop (S n) visits d =
    match r with
    | None => Ok (1, set_rehashidx (Z.of_nat idx) d)
    | Some v => (de ← bucketAt (ht0 d) (Z.of_nat idx); moveChain de ;; d ← get;
          put (set_rehashidx (Z.of_nat idx + 1)
                (set_ht0 (mkHt (<[Z.to_nat (Z.of_nat idx) := []]> (table (ht0 d))) (used (ht0 d))) d)) ;;
          rehashLoop n v) d
    end) as Hloop.
  { cbn [rehashLoop]. rewrite (bind_run get _ d d d) by done. rewrite (proj2 (Z.eqb_neq _ _)) by done.
    pose proof (lookup_lt_Some _ _ _ Hi0). erewrite bind_run by (apply serverAssert_run; unfold size; lia).
    rewrite Hskip. by destruct r. }
  rewrite Hloop. clear Hloop. destruct r as [v|].
  - destruct Hcase as (e & b & Hb).
    destruct (moveChain_run (e :: b) d) as (h1 & Hmove & Hw1 & Hs1 & Hp); [apply Hwf|done|].
    eexists. split; [by apply (moveBucket_wf d idx (e :: b) h1)|]. cbn [rehashidx ht0]. split_and!; [lia|lia| |].
    { unfold size. cbn. by rewrite length_insert. }
    right. exists v. unfold bucketAt. rewrite Nat2Z.id, Hb.
    erewrite bind_run by done. erewrite bind_run by exact Hmove. by erewrite bind_run by done.
  - exists (set_rehashidx (Z.of_nat idx) d). split_and!; [|cbn; lia|cbn; lia|done|by left].
    split_and!; [|done|done]. destruct Hwf as [? ? ? _ _]. split; cbn; [done|done|done|lia|].
    intros _. split_and!; [lia|lia|done|done|]. intros i b' Hi Hlt. apply (Hlow i); [done|lia].
Qed.

Lemma rehashLoop_run n : ∀ visits d, dict_wf d → rehashidx d ≠ -1 →
  ∃ r d', rehashLoop n visits d = Ok (r, d') ∧ sameMap d d' ∧
    (r = 0 ∧ rehashidx d' = -1 ∨
     r = 1 ∧ rehashidx d' ≠ -1 ∧ size (ht0 d') = size (ht0 d) ∧
       (rehashidx d < rehashidx d' ∨ n = O ∧ d' = d)).
Proof.
  induction n as [|n IH]; intros visits d Hwf Hr.
  { destruct (rehashDone_run d Hwf Hr) as (r & d' & Hrun & Hsame & Hcase). exists r, d'.
    split_and!; [done|done|]. destruct Hcase as [?|[-> ->]]; [by left|right]. by split_and!; [..|right]. }
  destruct (used (ht0 d) =? 0) eqn:Hu.
  { destruct (rehashDone_run d Hwf Hr) as (r & d' & Hrun & Hsame & Hcase). exists r, d'.
    cbn [rehashLoop]. rewrite (bind_run get _ d d d), Hu by done. split_and!; [done|done|].
    destruct Hcase as [?|[-> ->]]; [by left|]. unfold rehashDone in Hrun.
    by rewrite (bind_run get _ d d d), Hu in Hrun. }
  destruct (rehashTurn n visits d) as (d1 & Hsame1 & Hr1 & Hlt & Hsz & [Hrun|[v Hrun]]); [done|done|lia| |].
  - exists 1, d1. split_and!; [done|done|]. right. by split_and!; [..|left].
  - destruct (IH v d1) as (r & d' & Hrun' & Hsame' & Hcase); [apply Hsame1|done|].
    exists r, d'. rewrite Hrun. split_and!; [done|by eapply sameMap_trans|].
    destruct Hcase as [?|(-> & ? & ? & Hcase)]; [by left|right]. split_and!; [done|done|congruence|left].
    destruct Hcase as [?|[_ ->]]; lia.
Qed.

Lemma dictRehash_run n d : dict_wf d →
  ∃ r d', dictRehash n d = Ok (r, d') ∧ sameMap d d' ∧
    (r = 0 ∧ rehashidx d' = -1 ∨
     r = 1 ∧ rehashidx d' ≠ -1 ∧ size (ht0 d') = size (ht0 d) ∧
       (rehashidx d < rehashidx d' ∨ n = O ∧ d' = d)).
Proof.
  intros Hwf. unfold dictRehash. rewrite (bind_run get _ d d d) by done.
  destruct (dictIsRehashing d) eqn:Hr; cbn [negb].
  - apply rehashing_true in Hr. by apply rehashLoop_run.
  - exists 0, d. split_and!; [done|by apply sameMap_refl|left]. by apply rehashing_false in Hr.
Qed.

(** The rehashing step that the operations do first. *)
Lemma rehashStep_run d : dict_wf d →
  ∃ d', (if dictIsRehashing d then _dictRehashStep else mret tt) d = Ok (tt, d') ∧ sameMap d d'.
Proof.
  intros Hwf. destruct (dictIsRehashing d) eqn:Hr; [|by exists d].
  unfold _dictRehashStep. rewrite (bind_run get _ d d d) by done.
  destruct (iterators d =? 0); [|by exists d].
  destruct (dictRehash_run 1 d Hwf) as (r & d' & Hrun & Hsame & _). exists d'. split; [|done].
  by erewrite bind_run by exact Hrun.
Qed.

(** A dictionary with an entry has a first table. *)
Lemma nonempty_table d : dict_wf d → dictSize d ≠ 0 → table (ht0 d) ≠ [].
Proof.
  intros Hwf Hsz Hnil. destruct (decide (rehashidx d = -1)) as [Hr|Hr].
  - apply (dw_idle d Hwf) in Hr. unfold dictSize in Hsz. rewrite Hr in Hsz.
    rewrite (hw_used _ (dw_ht0 d Hwf)), Hnil in Hsz. done.
  - by apply (dw_rehash d Hwf) in Hr as (_ & ? & _).
Qed.

Lemma sameMap_size d d' : dict_wf d → sameMap d d' → dictSize d' = dictSize d.
Proof. intros Hwf (Hwf' & Hp & _). rewrite !dictSize_entries by done. by rewrite Hp. Qed.

Lemma dictFind_run k d : dict_wf d →
  ∃ d', dictFind k d = Ok ((k,.) <$> dictMap d !! k, d') ∧ sameMap d d'.
Proof.
  intros Hwf. unfold dictFind. rewrite (bind_run get _ d d d) by done.
  destruct (dictSize d =? 0) eqn:Hsz.
  { exists d. split; [|done]. by rewrite dictMap_empty, lookup_empty by (done || lia). }
  destruct (rehashStep_run d Hwf) as (d' & Hrun & Hsame). exists d'. split; [|done].
  erewrite bind_run by exact Hrun. pose proof Hsame as (Hwf' & _ & _).
  rewrite findEntry_run; [by rewrite (sameMap_map d d')|done|].
  apply nonempty_table; [done|]. rewrite (sameMap_size d) by done. lia.
Qed.

(** ** Expansion *)

Lemma newTable_wf (n : Z) : 0 ≤ n ≤ 63 → ht_wf (mkHt (replicate (Z.to_nat (2 ^ n)) []) 0 : dictht K V).
Proof.
  intros Hn. assert (0 < 2 ^ n) by (apply Z.pow_pos_nonneg; lia).
  assert (∀ i b, replicate (Z.to_nat (2 ^ n)) [] !! i = Some b → b = [] :> list (K * V)) as Hnil.
  { by intros i b [-> _]%lookup_replicate. }
  split.
  - right. exists n. split; [done|]. unfold size. cbn. rewrite length_replicate. lia.
  - intros i b e Hi He. cbn in Hi. rewrite (Hnil i b Hi) in He. by apply not_elem_of_nil in He.
  - cbn. by rewrite concat_nil.
Qed.

(** Another size, larger or smaller. *)
Lemma dictExpand_resizes sz d : dict_wf d → rehashidx d = -1 → used (ht0 d) ≤ sz < LLONG_MAX →
  _dictNextPower sz ≠ size (ht0 d) →
  ∃ d', dictExpand sz d = Ok (DICT_OK, d') ∧ sameMap d d' ∧ table (ht0 d') ≠ [].
Proof.
  intros Hwf Hr Hsz Hne. pose proof Hwf as [Hw0 Hw1 Hnd Hidle _]. unfold dictExpand.
  rewrite (bind_run get _ d d d) by done.
  rewrite (proj2 (rehashing_false d)), (proj2 (Z.ltb_ge sz _)) by (done || lia). cbn [orb].
  rewrite (proj2 (Z.eqb_neq _ _)) by done. destruct (dictNextPower_spec sz) as (n & Hn & -> & Hle); [lia|].
  set (h := mkHt _ 0).
  assert (0 < 2 ^ n) by (apply Z.pow_pos_nonneg; lia).
  assert (ht_wf h) as Hwh by (apply newTable_wf; lia).
  assert (concat (table h) = []) as Hc by (apply concat_nil; by intros i b [-> _]%lookup_replicate).
  assert (table h ≠ []) as Hneh.
  { intros Hnil%(f_equal length). cbn in Hnil. rewrite length_replicate in Hnil. lia. }
  specialize (Hidle Hr). destruct (table (ht0 d)) as [|b0 t0] eqn:Ht.
  - eexists. split; [done|]. split; [|done]. split_and!; [|unfold entries; dict_fields; by rewrite Ht, Hc, Hidle|done].
    split; [done|dict_fields; by rewrite Hidle; apply reset_wf| |done|done].
    unfold entries. dict_fields. by rewrite Hc, Hidle; apply NoDup_nil_2.
  - eexists. split; [done|]. split; [|dict_fields; by rewrite Ht].
    split_and!; [|unfold entries; dict_fields; by rewrite Hc, Hidle|done].
    split; [done|done| |done|].
    + unfold entries in *. dict_fields. rewrite Hc. by rewrite Hidle in Hnd.
    + intros _. dict_fields. rewrite Ht. split_and!; [lia|unfold size; lia|done|done|]. intros i b Hi ?. lia.
Qed.

Lemma dictExpand_run sz d : dict_wf d → rehashidx d = -1 → used (ht0 d) ≤ sz → size (ht0 d) < sz < LLONG_MAX →
  ∃ d', dictExpand sz d = Ok (DICT_OK, d') ∧ sameMap d d' ∧ table (ht0 d') ≠ [].
Proof.
  intros Hwf Hr Hu Hsz. apply dictExpand_resizes; [done|done|lia|].
  destruct (dictNextPower_spec sz) as (n & Hn & -> & Hle); lia.
Qed.

Lemma dictExpand_any sz d : dict_wf d → sz < LLONG_MAX → ∃ r d', dictExpand sz d = Ok (r, d') ∧ sameMap d d'.
Proof.
  intros Hwf Hsz. destruct (dictIsRehashing d || (sz <? used (ht0 d))) eqn:Hskip.
  { exists DICT_ERR, d. split; [|by apply sameMap_refl]. unfold dictExpand.
    by rewrite (bind_run get _ d d d), Hskip by done. }
  apply orb_false_iff in Hskip as [Hr%rehashing_false Hu%Z.ltb_ge].
  destruct (Z.eq_dec (_dictNextPower sz) (size (ht0 d))) as [He|Hne].
  - exists DICT_ERR, d. split; [|by apply sameMap_refl]. unfold dictExpand.
    rewrite (bind_run get _ d d d), (proj2 (rehashing_false d)), (proj2 (Z.ltb_ge sz _)) by done. cbn [orb].
    by rewrite (proj2 (Z.eqb_eq _ _)).
  - destruct (dictExpand_resizes sz d) as (d' & Hrun & Hs & _); [done|done|lia|done|]. by exists DICT_OK, d'.
Qed.

Lemma dictResize_run can_resize d : dict_wf d → dictSize d < 2 ^ 61 →
  ∃ r d', dictResize can_resize d = Ok (r, d') ∧ sameMap d d'.
Proof.
  intros Hwf Hsz. unfold dictResize. rewrite (bind_run get _ d d d) by done.
  destruct (negb can_resize || dictIsRehashing d); [exists DICT_ERR, d; by split; [|apply sameMap_refl]|].
  apply dictExpand_any; [done|]. pose proof (hw_used _ (dw_ht1 _ Hwf)). unfold dictSize in Hsz.
  unfold DICT_HT_INITIAL_SIZE, LLONG_MAX. case_match; lia.
Qed.

Lemma expandIfNeeded_run can_resize d : dict_wf d → dictSize d < 2 ^ 61 →
  ∃ d', _dictExpandIfNeeded can_resize d = Ok (DICT_OK, d') ∧ sameMap d d' ∧ table (ht0 d') ≠ [].
Proof.
  intros Hwf Hsz. unfold _dictExpandIfNeeded. rewrite (bind_run get _ d d d) by done.
  destruct (dictIsRehashing d) eqn:Hr.
  { exists d. split_and!; [done|by apply sameMap_refl|]. apply rehashing_true in Hr.
    by apply (dw_rehash d Hwf) in Hr as (_ & ? & _). }
  apply rehashing_false in Hr. unfold dictSize in Hsz. rewrite (dw_idle d Hwf Hr) in Hsz. cbn in Hsz.
  pose proof (hw_used _ (dw_ht0 d Hwf)) as Hu.
  destruct (size (ht0 d) =? 0) eqn:Hz.
  { apply dictExpand_run; [done|done| |unfold DICT_HT_INITIAL_SIZE, LLONG_MAX; lia].
    unfold size in Hz. rewrite Hu. destruct (table (ht0 d)); [done|cbn in Hz; lia]. }
  case_match eqn:Hgrow.
  - rewrite u64_id by (unfold ULLONG_MAX; lia). apply dictExpand_run; [done|done|lia|].
    unfold size, LLONG_MAX in *. lia.
  - exists d. split_and!; [done|by apply sameMap_refl|]. intros Hnil. unfold size in Hz. by rewrite Hnil in Hz.
Qed.

(** ** Insertion *)

(** Adding an entry of a new key to the table that takes the new entries. *)
Lemma push_wf d k v b :
  dict_wf d → table (ht0 d) ≠ [] → dictMap d !! k = None →
  let ht := if dictIsRehashing d then ht1 d else ht0 d in
  table ht !! Z.to_nat (bucketIndex ht k) = Some b →
  let ht' := mkHt (<[Z.to_nat (bucketIndex ht k) := (k, v) :: b]> (table ht)) (used ht + 1) in
  let d' := if dictIsRehashing d then set_ht1 ht' d else set_ht0 ht' d in
  dict_wf d' ∧ entries d' ≡ₚ (k, v) :: entries d.
Proof.
  intros Hwf Hne Hk ht Hb ht' d'. pose proof Hwf as [Hw0 Hw1 Hnd Hidle Hre].
  assert (ht_wf ht) as Hwh by (unfold ht; by case_match).
  assert (table ht ≠ []) as Hneh.
  { unfold ht. destruct (dictIsRehashing d) eqn:Hr; [|done]. apply rehashing_true in Hr. by apply Hre in Hr as (_ & _ & ? & _). }
  destruct (ht_update ht _ b ((k, v) :: b) (used ht + 1) Hwh Hb) as (Hw' & Hs' & R & HR & HR').
  { cbn [length]. lia. }
  { intros e [->|He]%elem_of_cons; [|by eapply hw_placed].
    pose proof (bucketIndex_range ht k Hwh Hneh). cbn. lia. }
  fold ht' in Hw', Hs', HR'.
  assert (concat (table ht') ≡ₚ (k, v) :: concat (table ht)) as Hc by by rewrite HR', HR.
  assert (entries d' ≡ₚ (k, v) :: entries d) as Hent.
  { unfold d', ht in *. unfold entries. destruct (dictIsRehashing d); dict_fields; rewrite Hc; [|done].
    by rewrite <-Permutation_middle. }
  assert (table ht' ≠ []) as Hne' by (unfold size in Hs'; by destruct (table ht'), (table ht)).
  split; [|done]. assert (NoDup (entries d').*1) as Hnd'.
  { rewrite Hent. cbn. apply NoDup_cons. split; [|done]. intros Hin. apply not_elem_of_list_to_map in Hk. done. }
  unfold d', ht in *. destruct (dictIsRehashing d) eqn:Hr; split; dict_fields; auto.
  - apply rehashing_true in Hr. done.
  - intros Hr'. by destruct (Hre Hr') as (? & ? & ? & ?).
  - apply rehashing_false in Hr. done.
Qed.

Lemma dictAddRaw_run can_resize k v d : dict_wf d → dictSize d < 2 ^ 61 →
  ∃ d', dict_wf d' ∧ iterators d' = iterators d ∧
    match dictMap d !! k with
    | None => dictAddRaw can_resize k v d = Ok (inl tt, d') ∧ dictMap d' = <[k := v]> (dictMap d)
    | Some u => dictAddRaw can_resize k v d = Ok (inr (Some (k, u)), d') ∧
                entries d' ≡ₚ entries d ∧ table (ht0 d') ≠ []
    end.
Proof.
  intros Hwf Hsz. destruct (rehashStep_run d Hwf) as (d1 & Hstep & Hs1).
  pose proof Hs1 as (Hwf1 & _ & _).
  destruct (expandIfNeeded_run can_resize d1) as (d2 & Hexp & Hs2 & Hne2);
    [done|by rewrite (sameMap_size d)|].
  assert (sameMap d d2) as Hs by by eapply sameMap_trans. pose proof Hs as (Hwf2 & Hp2 & Hit2).
  pose proof (sameMap_map d d2 Hwf Hs) as Hmap.
  assert (∀ hash, _dictKeyIndex can_resize k hash d1 =
    Ok (match dictMap d !! k with
        | Some u => NoSlot (Some (k, u))
        | None => FreeSlot (Z.land hash (sizemask (if dictIsRehashing d2 then ht1 d2 else ht0 d2)))
        end, d2)) as Hidx.
  { intros hash. unfold _dictKeyIndex. erewrite bind_run by exact Hexp. cbn [Z.eqb DICT_OK DICT_ERR].
    erewrite bind_run by by apply findEntry_run. rewrite Hmap. by destruct (dictMap d !! k). }
  unfold dictAddRaw. rewrite (bind_run get _ d d d) by done. erewrite bind_run by exact Hstep.
  erewrite bind_run by apply Hidx. destruct (dictMap d !! k) as [u|] eqn:Hk; [by exists d2|].
  rewrite (bind_run get _ d2 d2 d2) by done.
  set (ht := if dictIsRehashing d2 then ht1 d2 else ht0 d2). fold (bucketIndex ht k).
  assert (ht_wf ht ∧ table ht ≠ []) as [Hwh Hneh].
  { unfold ht. destruct (dictIsRehashing d2) eqn:Hr; [|by split; [apply Hwf2|]].
    apply rehashing_true, (dw_rehash d2 Hwf2) in Hr as (_ & _ & ? & _). by split; [apply Hwf2|]. }
  destruct (bucket_lookup ht k Hwh Hneh) as [b Hb].
  destruct (push_wf d2 k v b Hwf2 Hne2) as [Hwf' Hent]; [by rewrite Hmap|done|].
  eexists. split; [exact Hwf'|]. split; [by case_match; dict_fields|]. split.
  - erewrite bind_run by by apply bucketAt_run. done.
  - unfold dictMap at 1. rewrite <-Hmap. change (<[k := v]> (dictMap d2)) with (list_to_map ((k, v) :: entries d2) : gmap K V).
    symmetry. apply list_to_map_proper; [|done]. rewrite <-Hent. apply Hwf'.
Qed.

(** ** Overwriting and deletion *)

Lemma insert_Permutation {A} (l : list A) i x y : l !! i = Some x → <[i := y]> l ≡ₚ y :: delete i l.
Proof.
  intros Hi. rewrite insert_take_drop, delete_take_drop by by eapply lookup_lt_Some.
  by rewrite Permutation_middle.
Qed.

Lemma chain_split k v b e : chainFind k b = Some e →
  ∃ b', b ≡ₚ e :: b' ∧ chainDelete k b = b' ∧ chainSet k v b ≡ₚ (fst e, v) :: b'.
Proof.
  unfold chainFind, chainDelete, chainSet. intros ([i e'] & Hf & ->)%fmap_Some. rewrite Hf. cbn.
  apply list_find_Some in Hf as (Hi & _ & _). exists (delete i b).
  split_and!; [by apply delete_Permutation|done|by eapply insert_Permutation].
Qed.

Definition htOf (side : bool) d : dictht K V := if side then ht1 d else ht0 d.
Definition set_ht (side : bool) (h : dictht K V) d : dict K V :=
  if side then set_ht1 h d else set_ht0 h d.

(** Replacing a chain of either table by one with some of its keys. *)
Lemma replace_wf side d i b b' n :
  dict_wf d → table (htOf side d) !! i = Some b →
  n = used (htOf side d) + Z.of_nat (length b') - Z.of_nat (length b) →
  NoDup b'.*1 → b'.*1 ⊆ b.*1 →
  let d' := set_ht side (mkHt (<[i := b']> (table (htOf side d))) n) d in
  dict_wf d' ∧ ∃ R, entries d ≡ₚ b ++ R ∧ entries d' ≡ₚ b' ++ R.
Proof.
  intros Hwf Hi Hn Hnd' Hsub d'. pose proof Hwf as [Hw0 Hw1 Hnd Hidle Hre]. set (h := htOf side d) in *.
  assert (ht_wf h) as Hwh by by destruct side.
  destruct (ht_update h i b b' n Hwh Hi Hn) as (Hw' & Hs' & R & HR & HR').
  { intros e He. assert (fst e ∈ b.*1) as (e' & Hk & He')%list_elem_of_fmap by by apply Hsub, list_elem_of_fmap_2.
    rewrite Hk. by eapply hw_placed. }
  set (h' := mkHt _ n) in *.
  assert (∃ R', entries d ≡ₚ b ++ R' ∧ entries d' ≡ₚ b' ++ R') as (R' & HE & HE').
  { unfold d', h, entries in *. destruct side; cbn [set_ht htOf] in *; dict_fields.
    - exists (concat (table (ht0 d)) ++ R). rewrite HR, HR', !(assoc_L (++)).
      by rewrite (Permutation_app_comm (concat _) b), (Permutation_app_comm (concat _) b').
    - exists (R ++ concat (table (ht1 d))). by rewrite HR, HR', !(assoc_L (++)). }
  split; [|by exists R'].
  assert (NoDup (entries d').*1) as HndE.
  { rewrite HE, fmap_app in Hnd. apply NoDup_app in Hnd as (_ & Hdisj & HndR).
    rewrite HE', fmap_app. apply NoDup_app. split_and!; [done|by eauto|done]. }
  assert (table h ≠ [] → table h' ≠ []) as Hne'.
  { unfold size in Hs'. by destruct (table h'), (table h). }
  unfold d', h in *. destruct side; cbn [set_ht htOf] in *; split; dict_fields; auto.
  - intros Hr. rewrite (Hidle Hr) in Hi. cbn in Hi. by rewrite lookup_nil in Hi.
  - intros Hr. destruct (Hre Hr) as (? & ? & ? & ?). split_and!; [lia|lia|done|by apply Hne'|done].
  - intros Hr. destruct (Hre Hr) as (? & ? & ? & Hlow). rewrite Hs'. split_and!; [lia|lia|by apply Hne'|done|].
    intros j bj Hj Hlt. cbn in Hj. apply list_lookup_insert_Some in Hj as [(<- & <- & _)|[_ Hj]]; [|by eapply Hlow].
    rewrite (Hlow i b Hi Hlt) in Hsub. by destruct b'; [|set_solver].
Qed.

(** The chain that holds a key. *)
Lemma locate k u d : dict_wf d → table (ht0 d) ≠ [] → dictMap d !! k = Some u →
  ∃ b0, table (ht0 d) !! Z.to_nat (bucketIndex (ht0 d) k) = Some b0 ∧
  ((∃ e, chainFind k b0 = Some e ∧ e = (k, u)) ∨
   chainFind k b0 = None ∧ dictIsRehashing d = true ∧
   ∃ b1, table (ht1 d) !! Z.to_nat (bucketIndex (ht1 d) k) = Some b1 ∧ chainFind k b1 = Some (k, u)).
Proof.
  intros Hwf Hne Hk. pose proof Hwf as [Hw0 Hw1 _ Hidle Hre].
  destruct (bucket_lookup (ht0 d) k) as [b0 Hb0]; [done..|]. exists b0. split; [done|].
  rewrite dictMap_lookup in Hk. destruct (nodup_tables d Hwf) as [Hn0 Hn1].
  rewrite (chainFind_map (ht0 d) k b0) by done. destruct (list_to_map _ !! k) as [v|] eqn:Hv.
  { injection Hk as ->. left. by exists (k, u). }
  right. split; [done|]. destruct (dictIsRehashing d) eqn:Hr.
  - apply rehashing_true, Hre in Hr as (_ & _ & Hne1 & _). split; [done|].
    destruct (bucket_lookup (ht1 d) k) as [b1 Hb1]; [done..|]. exists b1. split; [done|].
    rewrite (chainFind_map (ht1 d) k b1) by done. by rewrite Hk.
  - apply rehashing_false, Hidle in Hr. rewrite Hr in Hk. cbn in Hk. by rewrite lookup_empty in Hk.
Qed.

Lemma nodup_chain side d i b : dict_wf d → table (htOf side d) !! i = Some b → NoDup b.*1.
Proof.
  intros Hwf Hi. destruct (concat_bucket _ _ _ Hi) as (R & HR & _).
  assert (NoDup (concat (table (htOf side d))).*1) as Hnd by (destruct side; by apply nodup_tables).
  rewrite HR, fmap_app in Hnd. by apply NoDup_app in Hnd as [? _].
Qed.

(** Writing or unlinking the entry of a key in its chain. *)
Lemma setChain_wf side d i k v u b : dict_wf d → table (htOf side d) !! i = Some b → chainFind k b = Some (k, u) →
  let d' := set_ht side (mkHt (<[i := chainSet k v b]> (table (htOf side d))) (used (htOf side d))) d in
  dict_wf d' ∧ dictMap d' = <[k := v]> (dictMap d).
Proof.
  intros Hwf Hi Hf d'. destruct (chain_split k v b _ Hf) as (b' & Hb & _ & Hset).
  pose proof (nodup_chain side d i b Hwf Hi) as Hndb.
  destruct (replace_wf side d i b (chainSet k v b) (used (htOf side d)) Hwf Hi) as (Hwf' & R & HR & HR').
  - rewrite Hset, Hb. cbn. lia.
  - rewrite Hset. rewrite Hb in Hndb. done.
  - by rewrite Hset, Hb.
  - split; [done|]. fold d' in HR', Hwf'. rewrite Hb in HR. rewrite Hset in HR'. cbn in HR, HR'.
    unfold dictMap. rewrite (list_to_map_proper (entries d') ((k, v) :: b' ++ R)) by (apply Hwf' || done).
    rewrite (list_to_map_proper (entries d) ((k, u) :: b' ++ R)) by (apply Hwf || done).
    cbn. by rewrite insert_insert_eq.
Qed.

Lemma delChain_wf side d i k u b : dict_wf d → table (htOf side d) !! i = Some b → chainFind k b = Some (k, u) →
  let d' := set_ht side (mkHt (<[i := chainDelete k b]> (table (htOf side d))) (used (htOf side d) - 1)) d in
  dict_wf d' ∧ dictMap d' = delete k (dictMap d).
Proof.
  intros Hwf Hi Hf d'. destruct (chain_split k u b _ Hf) as (b' & Hb & Hdel & _).
  pose proof (nodup_chain side d i b Hwf Hi) as Hndb. rewrite Hb in Hndb. cbn in Hndb.
  destruct (replace_wf side d i b (chainDelete k b) (used (htOf side d) - 1) Hwf Hi) as (Hwf' & R & HR & HR').
  - rewrite Hdel, Hb. cbn. lia.
  - rewrite Hdel. by apply NoDup_cons in Hndb as [_ ?].
  - rewrite Hdel, Hb. cbn. set_solver.
  - split; [done|]. fold d' in HR', Hwf'. rewrite Hb in HR. rewrite Hdel in HR'. cbn in HR, HR'.
    assert (NoDup ((k, u) :: b' ++ R).*1) as Hnd by (rewrite <-HR; apply Hwf).
    unfold dictMap. rewrite (list_to_map_proper (entries d') (b' ++ R)) by (apply Hwf' || done).
    rewrite (list_to_map_proper (entries d) ((k, u) :: b' ++ R)) by (apply Hwf || done).
    cbn. rewrite delete_insert_id; [done|]. apply not_elem_of_list_to_map. by apply NoDup_cons in Hnd as [? _].
Qed.

Lemma setExisting_run k v u d : dict_wf d → table (ht0 d) ≠ [] → dictMap d !! k = Some u →
  ∃ d', setExisting k v d = Ok (tt, d') ∧ dict_wf d' ∧ dictMap d' = <[k := v]> (dictMap d) ∧
    iterators d' = iterators d.
Proof.
  intros Hwf Hne Hk. destruct (locate k u d Hwf Hne Hk) as (b0 & Hb0 & Hcase). unfold setExisting.
  rewrite (bind_run get _ d d d) by done. fold (bucketIndex (ht0 d) k) (bucketIndex (ht1 d) k).
  erewrite bind_run by by apply bucketAt_run. destruct Hcase as [(e & Hf & ->)|(Hf & _ & b1 & Hb1 & Hf1)].
  - rewrite Hf. destruct (setChain_wf false d _ k v u b0 Hwf Hb0 Hf) as [? ?]. by eexists.
  - rewrite Hf. erewrite bind_run by by apply bucketAt_run.
    destruct (setChain_wf true d _ k v u b1 Hwf Hb1 Hf1) as [? ?]. by eexists.
Qed.

Lemma dictGenericDelete_run k d : dict_wf d →
  ∃ d', dictGenericDelete k d = Ok ((k,.) <$> dictMap d !! k, d') ∧ dict_wf d' ∧
    dictMap d' = delete k (dictMap d) ∧ iterators d' = iterators d.
Proof.
  intros Hwf. unfold dictGenericDelete. rewrite (bind_run get _ d d d) by done.
  destruct ((used (ht0 d) =? 0) && (used (ht1 d) =? 0)) eqn:Hz.
  { assert (dictMap d = ∅) as -> by (apply dictMap_empty; [done|unfold dictSize; lia]).
    exists d. split_and!; [by rewrite lookup_empty|done| |done]. rewrite delete_empty.
    apply dictMap_empty; [done|unfold dictSize; lia]. }
  destruct (rehashStep_run d Hwf) as (d1 & Hrun & Hs). erewrite bind_run by exact Hrun.
  pose proof Hs as (Hwf1 & _ & Hit). pose proof (sameMap_map d d1 Hwf Hs) as Hmap. rewrite <-Hmap, <-Hit.
  assert (table (ht0 d1) ≠ []) as Hne.
  { apply nonempty_table; [done|]. rewrite (sameMap_size d d1), dictSize_entries by done.
    destruct Hwf as [Hw0 Hw1 _ _ _]. pose proof (hw_used _ Hw0). pose proof (hw_used _ Hw1).
    unfold entries. rewrite length_app. lia. }
  rewrite (bind_run get _ d1 d1 d1) by done. fold (bucketIndex (ht0 d1) k) (bucketIndex (ht1 d1) k).
  destruct (dictMap d1 !! k) as [u|] eqn:Hk.
  - destruct (locate k u d1 Hwf1 Hne Hk) as (b0 & Hb0 & Hcase).
    erewrite bind_run by by apply bucketAt_run. destruct Hcase as [(e & Hf & ->)|(Hf & Hr & b1 & Hb1 & Hf1)].
    + rewrite Hf. destruct (delChain_wf false d1 _ k u b0 Hwf1 Hb0 Hf) as [? ?]. by eexists.
    + rewrite Hf, Hr. cbn [negb]. erewrite bind_run by by apply bucketAt_run. rewrite Hf1.
      destruct (delChain_wf true d1 _ k u b1 Hwf1 Hb1 Hf1) as [? ?]. by eexists.
  - rewrite delete_id by done. exists d1. split; [|done].
    pose proof (findEntry_run k d1 Hwf1 Hne) as Hfind. unfold findEntry in Hfind.
    rewrite (bind_run get _ d1 d1 d1) in Hfind by done. fold (bucketIndex (ht0 d1) k) (bucketIndex (ht1 d1) k) in Hfind.
    destruct (bucket_lookup (ht0 d1) k) as [b0 Hb0]; [apply Hwf1|done|].
    erewrite bind_run in Hfind |- * by by apply bucketAt_run. rewrite Hk in Hfind.
    destruct (chainFind k b0); [done|]. destruct (dictIsRehashing d1) eqn:Hr; [|done]. cbn [negb] in *.
    apply rehashing_true, (dw_rehash d1 Hwf1) in Hr as (_ & _ & Hne1 & _).
    destruct (bucket_lookup (ht1 d1) k) as [b1 Hb1]; [apply Hwf1|done|].
    erewrite bind_run in Hfind |- * by by apply bucketAt_run. by destruct (chainFind k b1).
Qed.

Lemma dictSize_map d : dict_wf d → dictSize d = Z.of_nat (base.size (dictMap d)).
Proof.
  intros Hwf. rewrite dictSize_entries by done. unfold dictMap. by rewrite map_size_list_to_map by apply Hwf.
Qed.

Lemma dictCreate_wf : dict_wf (@dictCreate K V).
Proof. split; cbn; [apply reset_wf|apply reset_wf|apply NoDup_nil_2|done|done]. Qed.

(** A dictionary built by insertions. *)
Fixpoint addAll (l : list (K * V)) : M (dict K V) unit :=
  match l with
  | [] => mret tt
  | (k, v) :: l => dictAdd true k v ;; addAll l
  end.

Lemma addAll_run l : ∀ d, dict_wf d → dictSize d + Z.of_nat (length l) < 2 ^ 61 →
  ∃ d', addAll l d = Ok (tt, d') ∧ dict_wf d'.
Proof.
  induction l as [|[k v] l IH]; intros d Hwf Hsz; [by exists d|]. cbn [length] in Hsz.
  destruct (dictAddRaw_run true k v d) as (d1 & Hwf1 & _ & Hadd); [done|lia|].
  assert (∃ r, dictAdd true k v d = Ok (r, d1) ∧ dictSize d1 ≤ dictSize d + 1) as (r & Hrun & Hsz1).
  { rewrite !dictSize_map by done. unfold dictAdd. destruct (dictMap d !! k) as [u|] eqn:Hk.
    - destruct Hadd as (Hrun & Hp & _). exists DICT_ERR. split; [by erewrite bind_run by exact Hrun|].
      rewrite (dictMap_perm d d1) by (apply Hwf || done). lia.
    - destruct Hadd as (Hrun & ->). exists DICT_OK. split; [by erewrite bind_run by exact Hrun|].
      rewrite map_size_insert_None by done. lia. }
  destruct (IH d1) as (d' & Hrun' & Hwf'); [done|lia|]. exists d'. split; [|done].
  cbn [addAll]. by erewrite bind_run by exact Hrun.
Qed.

(** C12. The hash table is a finite map: in every well-formed state, in the middle of a
    rehashing or not and whatever the hash function, lookup, add, replace and delete
    return what the map operation returns, leave a well-formed table that stands for
    the updated map, and never access a bucket out of range; the size is the number
    of keys. *)
Theorem dict_refines_map (can_resize : bool) (k : K) (v : V) (d : dict K V) :
  dict_wf d → dictSize d < 2 ^ 61 →
  (∃ d', dictFetchValue k d = Ok (dictMap d !! k, d') ∧ dict_wf d' ∧ dictMap d' = dictMap d) ∧
  (∃ d', dictAdd can_resize k v d =
           Ok (if decide (is_Some (dictMap d !! k)) then DICT_ERR else DICT_OK, d') ∧ dict_wf d' ∧
         dictMap d' = if decide (is_Some (dictMap d !! k)) then dictMap d else <[k := v]> (dictMap d)) ∧
  (∃ d', dictReplace can_resize k v d =
           Ok (if decide (is_Some (dictMap d !! k)) then 0 else 1, d') ∧ dict_wf d' ∧
         dictMap d' = <[k := v]> (dictMap d)) ∧
  (∃ d', dictDelete k d =
           Ok (if decide (is_Some (dictMap d !! k)) then DICT_OK else DICT_ERR, d') ∧ dict_wf d' ∧
         dictMap d' = delete k (dictMap d)) ∧
  dictSize d = Z.of_nat (base.size (dictMap d)).
Proof.
  intros Hwf Hsz. destruct (dictAddRaw_run can_resize k v d Hwf Hsz) as (d1 & Hwf1 & _ & Hadd).
  split_and!.
  - destruct (dictFind_run k d Hwf) as (d' & Hrun & Hs). exists d'. split_and!; [|apply Hs|by apply sameMap_map].
    unfold dictFetchValue. erewrite bind_run by exact Hrun. by destruct (dictMap d !! k).
  - exists d1. unfold dictAdd. destruct (dictMap d !! k) as [u|] eqn:Hk.
    + destruct Hadd as (Hrun & Hp & _). rewrite !decide_True by by eexists.
      erewrite bind_run by exact Hrun. split_and!; [done|done|]. apply dictMap_perm; [apply Hwf|done].
    + destruct Hadd as (Hrun & Hm). rewrite !decide_False by by intros [].
      by erewrite bind_run by exact Hrun.
  - unfold dictReplace. destruct (dictMap d !! k) as [u|] eqn:Hk.
    + destruct Hadd as (Hrun & Hp & Hne). rewrite decide_True by by eexists.
      assert (dictMap d1 = dictMap d) as Hm by (apply dictMap_perm; [apply Hwf|done]).
      destruct (setExisting_run k v u d1) as (d' & Hset & Hwf' & Hm' & _); [done|done|congruence|].
      exists d'. rewrite <-Hm. split_and!; [|done|done]. erewrite bind_run by exact Hrun. cbn beta iota.
      erewrite bind_run by done. by erewrite bind_run by exact Hset.
    + destruct Hadd as (Hrun & Hm). rewrite decide_False by by intros []. exists d1.
      by erewrite bind_run by exact Hrun.
  - destruct (dictGenericDelete_run k d Hwf) as (d' & Hrun & Hwf' & Hm & _). exists d'.
    split_and!; [|done|done]. unfold dictDelete. erewrite bind_run by exact Hrun.
    destruct (dictMap d !! k); [by rewrite decide_True by by eexists|by rewrite decide_False by by intros []].
  - by apply dictSize_map.
Qed.

(** ** The rehashing ends *)

(** [n] calls of [dictRehash(d, 1)]; the result of the last one. *)
Fixpoint rehashes (n : nat) : M (dict K V) Z :=
  match n with
  | O => mret 1
  | S n => r ← dictRehash 1; if r =? 0 then mret 0 else rehashes n
  end.

(** C13. An incremental rehashing ends: as many single steps as the old table has
    buckets, plus one, leave one table that stands for the same map. *)
Theorem rehashing_ends (d : dict K V) :
  dict_wf d →
  ∃ d', rehashes (S (length (table (ht0 d)))) d = Ok (0, d') ∧ dict_wf d' ∧ rehashidx d' = -1 ∧
    dictMap d' = dictMap d.
Proof.
  intros Hwf.
  assert (∀ n d, dict_wf d → (size (ht0 d) - rehashidx d < Z.of_nat n) →
    ∃ d', rehashes n d = Ok (0, d') ∧ sameMap d d' ∧ rehashidx d' = -1) as Hn.
  { clear d Hwf. induction n as [|n IH]; intros d Hwf Hlt.
    { destruct (decide (rehashidx d = -1)) as [Hr|Hr]; [unfold size in Hlt; lia|].
      pose proof (dw_rehash d Hwf Hr). lia. }
    destruct (dictRehash_run 1 d Hwf) as (r & d1 & Hrun & Hs & Hcase). cbn [rehashes].
    erewrite bind_run by exact Hrun. destruct Hcase as [[-> Hr]|(-> & Hr & Hsz & Hlt1)].
    { by exists d1. }
    destruct (IH d1) as (d' & Hrun' & Hs' & Hr'); [apply Hs|destruct Hlt1 as [?|[? _]]; lia|].
    exists d'. split_and!; [done|by eapply sameMap_trans|done]. }
  destruct (decide (rehashidx d = -1)) as [Hr|Hr].
  - exists d. split_and!; [|done|done|done]. cbn [rehashes]. rewrite (bind_run _ _ d 0 d); [done|].
    unfold dictRehash. rewrite (bind_run get _ d d d) by done. by rewrite (proj2 (rehashing_false d)).
  - destruct (Hn (S (length (table (ht0 d)))) d Hwf) as (d' & Hrun & Hs & Hr').
    { pose proof (dw_rehash d Hwf Hr). unfold size. lia. }
    exists d'. split_and!; [done|apply Hs|done|by apply sameMap_map].
Qed.

(** ** Iteration *)

(** The buckets an iterator still has to visit, and the entries. *)
Definition bucketsLeft (it : dictIterator K V) d : list (list (K * V)) :=
  if it_table it =? 0
  then drop (Z.to_nat (it_index it + 1)) (table (ht0 d)) ++
       (if dictIsRehashing d then table (ht1 d) else [])
  else drop (Z.to_nat (it_index it + 1)) (table (ht1 d)).

Definition entriesLeft (it : dictIterator K V) d : list (K * V) :=
  default [] (it_chain it) ++ concat (bucketsLeft it d).

Definition iter_ok (it : dictIterator K V) d : Prop :=
  it_safe it = false ∧ -1 ≤ it_index it ∧
  (it_table it = 0 ∨ it_table it = 1 ∧ dictIsRehashing d = true ∧ 0 ≤ it_index it).

Definition turnsLeft (it : dictIterator K V) d : nat :=
  (2 * length (bucketsLeft it d) + match it_chain it with Some [] => 2 | _ => 1 end)%nat.

(** The next bucket. *)
Lemma nextTurn_bucket it d : dict_wf d → iter_ok it d → it_chain it = None →
  match bucketsLeft it d with
  | [] => ∃ it', nextTurn it d = Ok (inr (None, it'), d) ∧ it_safe it' = false
  | b :: bs => ∃ it', nextTurn it d = Ok (inl it', d) ∧ iter_ok it' d ∧
                 it_chain it' = Some b ∧ bucketsLeft it' d = bs
  end.
Proof.
  intros Hwf (Hsafe & Hi & Htab) Hch. unfold nextTurn. rewrite Hch.
  rewrite (bind_run get _ d d d) by done. rewrite Hsafe, andb_false_r.
  erewrite bind_run by done. rewrite (bind_run get _ d d d) by done.
  set (ht := if it_table it =? 0 then ht0 d else ht1 d). set (i := Z.to_nat (it_index it + 1)).
  assert (bucketsLeft it d = drop i (table ht) ++
    (if (it_table it =? 0) && dictIsRehashing d then table (ht1 d) else [])) as Hleft.
  { unfold bucketsLeft, ht. destruct (it_table it =? 0); cbn [andb]; [done|by rewrite app_nil_r]. }
  destruct (Z.leb_spec (size ht) (it_index it + 1)) as [Hend|Hin].
  - rewrite Hleft, drop_ge by (unfold size in Hend; lia). cbn [app]. rewrite andb_comm.
    destruct (dictIsRehashing d && (it_table it =? 0)) eqn:Hre; [|by eexists].
    apply andb_true_iff in Hre as [Hre Ht]. pose proof Hre as Hne.
    apply rehashing_true, (dw_rehash d Hwf) in Hne as (_ & _ & Hne & _).
    destruct (table (ht1 d)) as [|b bs] eqn:Htbl; [done|].
    erewrite bind_run by (unfold bucketAt; by rewrite Htbl). eexists. split; [done|].
    unfold iter_ok. split_and!; [done|cbn; lia|by right|done|]. unfold bucketsLeft. cbn. by rewrite Htbl.
  - destruct (lookup_lt_is_Some_2 (table ht) i) as [b Hb]; [unfold size in Hin; lia|].
    rewrite Hleft, (drop_S _ b i) by done. cbn [app].
    erewrite bind_run by (unfold bucketAt; by fold i; rewrite Hb). eexists. split; [done|].
    unfold iter_ok. split_and!; [done|cbn; lia| |done|].
    { cbn. destruct Htab as [?|(? & ? & ?)]; [by left|right]. split_and!; [done|done|lia]. }
    unfold bucketsLeft, ht. cbn [it_table it_index].
    replace (Z.to_nat (it_index it + 1 + 1)) with (S i) by lia.
    destruct (it_table it =? 0); cbn [andb]; [done|by rewrite app_nil_r].
Qed.

Lemma dictNextLoop_run fuel : ∀ it d, dict_wf d → iter_ok it d → (turnsLeft it d ≤ fuel)%nat →
  match entriesLeft it d with
  | [] => ∃ it', dictNextLoop fuel it d = Ok ((None, it'), d) ∧ it_safe it' = false
  | e :: es => ∃ it', dictNextLoop fuel it d = Ok ((Some e, it'), d) ∧ iter_ok it' d ∧ entriesLeft it' d = es
  end.
Proof.
  induction fuel as [|fuel IH]; intros it d Hwf Hit Hfuel; [unfold turnsLeft in Hfuel; repeat case_match; lia|].
  cbn [dictNextLoop]. destruct (it_chain it) as [[|e b]|] eqn:Hch.
  - set (it1 := mkIter (it_table it) (it_index it) (it_safe it) None : dictIterator K V).
    erewrite (bind_run (nextTurn it) _ d (inl it1) d) by (unfold nextTurn; by rewrite Hch).
    assert (entriesLeft it d = entriesLeft it1 d) as -> by (unfold entriesLeft; by rewrite Hch).
    apply IH; [done|done|]. unfold turnsLeft in *. rewrite Hch in Hfuel. cbn. change (bucketsLeft it1 d) with (bucketsLeft it d). lia.
  - unfold entriesLeft at 1. rewrite Hch. cbn. eexists.
    erewrite (bind_run (nextTurn it)) by (unfold nextTurn; by rewrite Hch). done.
  - pose proof (nextTurn_bucket it d Hwf Hit Hch) as Hturn. unfold entriesLeft at 1. rewrite Hch. cbn [default app].
    destruct (bucketsLeft it d) as [|b bs] eqn:Hbs.
    { destruct Hturn as (it' & Hrun & Hs). exists it'. by erewrite bind_run by exact Hrun. }
    destruct Hturn as (it' & Hrun & Hit' & Hch' & Hbs'). erewrite bind_run by exact Hrun.
    assert (concat (b :: bs) = entriesLeft it' d) as -> by (unfold entriesLeft; by rewrite Hch', Hbs').
    apply IH; [done|done|]. unfold turnsLeft in *. rewrite Hch, Hbs in Hfuel. rewrite Hch', Hbs'.
    cbn in Hfuel. destruct b; lia.
Qed.

(** Calling [dictNext] until it returns NULL. *)
Fixpoint iterate (fuel : nat) (it : dictIterator K V) : M (dict K V) (list (K * V)) :=
  match fuel with
  | O => fail (AssertFailed "iterate: fuel")
  | S fuel =>
      r ← dictNext it;
      match r with
      | (None, _) => mret []
      | (Some e, it') => es ← iterate fuel it'; mret (e :: es)
      end
  end.

Lemma dictNext_run it d : dict_wf d → iter_ok it d →
  match entriesLeft it d with
  | [] => ∃ it', dictNext it d = Ok ((None, it'), d) ∧ it_safe it' = false
  | e :: es => ∃ it', dictNext it d = Ok ((Some e, it'), d) ∧ iter_ok it' d ∧ entriesLeft it' d = es
  end.
Proof.
  intros Hwf Hit. unfold dictNext. rewrite (bind_run get _ d d d) by done. apply dictNextLoop_run; [done|done|].
  unfold turnsLeft, bucketsLeft. repeat case_match; rewrite ?length_app, ?length_drop; cbn; lia.
Qed.

Lemma dictGetIterator_start d : dict_wf d → iter_ok dictGetIterator d ∧ entriesLeft dictGetIterator d = entries d.
Proof.
  intros Hwf. split; [split_and!; [done|cbn; lia|by left]|].
  unfold entriesLeft, bucketsLeft, entries. cbn. rewrite drop_0, concat_app.
  destruct (dictIsRehashing d) eqn:Hr; [done|]. by rewrite (dw_idle d Hwf) by by apply rehashing_false.
Qed.

(** C14. Calling dictNext until it returns NULL visits every entry of the dictionary
    exactly once, also while the table is being rehashed, and then stops. *)
Theorem iteration_visits_each_entry_once (d : dict K V) :
  dict_wf d →
  ∃ es, iterate (S (length (entries d))) dictGetIterator d = Ok (es, d) ∧ NoDup es.*1 ∧
    ∀ k v, (k, v) ∈ es ↔ dictMap d !! k = Some v.
Proof.
  intros Hwf.
  assert (∀ es it, iter_ok it d → entriesLeft it d = es → iterate (S (length es)) it d = Ok (es, d)) as Hiter.
  { intros es. induction es as [|e es IH]; intros it Hit Hes;
      pose proof (dictNext_run it d Hwf Hit) as Hnext; rewrite Hes in Hnext; cbn [length]; cbn [iterate].
    - destruct Hnext as (it' & Hrun & _). by erewrite bind_run by exact Hrun.
    - destruct Hnext as (it' & Hrun & Hit' & Hes'). erewrite bind_run by exact Hrun. cbv beta iota.
      by erewrite bind_run by (by apply IH). }
  destruct (dictGetIterator_start d Hwf) as [Hok Hent]. exists (entries d). split_and!; [|apply Hwf|].
  - by apply Hiter.
  - intros k v. unfold dictMap. apply elem_of_list_to_map, Hwf.
Qed.

End Props.

(** ** Witnesses *)

Lemma natHash_range (k : nat) : 0 ≤ Z.of_nat k mod 2 ^ 64 < 2 ^ 64.
Proof. apply Z.mod_pos_bound. done. Qed.

(** The hash of a number is the number. *)
Definition natHash : HashFunction nat :=
  {| hashFunction k := Z.of_nat k mod 2 ^ 64; hashFunction_range := natHash_range |}.

(** Five insertions: the table grows from 4 to 8 buckets. *)
Definition growingDict : dict nat nat :=
  match @addAll nat nat _ natHash [(0, 10); (1, 11); (5, 15); (9, 19); (2, 12)]%nat dictCreate with
  | Ok (_, d) => d
  | Fault _ => dictCreate
  end.

Lemma growingDict_wf : @dict_wf nat nat natHash growingDict.
Proof.
  destruct (@addAll_run nat nat _ _ natHash [(0, 10); (1, 11); (5, 15); (9, 19); (2, 12)]%nat dictCreate)
    as (d & Hrun & Hwf); [apply dictCreate_wf|done|]. unfold growingDict. by rewrite Hrun.
Qed.

Lemma growingDict_rehashing : dictIsRehashing growingDict = true.
Proof. vm_compute. reflexivity. Qed.

Lemma dict_refines_map_witness :
  dictIsRehashing growingDict = true ∧
  ∃ d', @dictFetchValue nat nat _ natHash 9%nat growingDict = Ok (Some 19%nat, d').
Proof.
  split; [exact growingDict_rehashing|].
  destruct (@dict_refines_map nat nat _ _ natHash true 9%nat 0%nat growingDict) as ((d' & Hrun & _) & _).
  - exact growingDict_wf.
  - vm_compute. reflexivity.
  - exists d'. exact Hrun.
Defined.

Lemma rehashing_ends_witness :
  ∃ d', @rehashes nat nat natHash 5 growingDict = Ok (0, d') ∧ rehashidx d' = -1.
Proof.
  destruct (@rehashing_ends nat nat _ _ natHash growingDict) as (d' & Hrun & _ & Hr & _).
  - exact growingDict_wf.
  - exists d'. split; [exact Hrun|exact Hr].
Defined.

Lemma iteration_visits_each_entry_once_witness :
  ∃ es, iterate 6 dictGetIterator growingDict = Ok (es, growingDict) ∧ (9, 19)%nat ∈ es.
Proof.
  destruct (@iteration_visits_each_entry_once nat nat _ _ natHash growingDict) as (es & Hrun & _ & Hin).
  - exact growingDict_wf.
  - exists es. split; [exact Hrun|]. apply Hin. vm_compute. reflexivity.
Defined.
