(* ===== verification/DictScan.v ===== *)
(** * DictScan: the stateless iterator of the hash table (dictScan of src/src/dict.c)

    A call of [dictScan] emits the entries of one bucket of the cursor and returns
    the next cursor.  The cursor counts in reversed binary order, so that the
    buckets visited before a resize of the table are those visited after it.  The
    theorems show that a scan that returns to the cursor 0 has emitted every key
    that was in the table all along, whatever happened to the table between the
    calls, and that it ends.

    The callback is the list of the entries it is called with; [bucketfn] is NULL,
    as in every use but the active defragmentation. *)

From Stdlib Require Import Ascii String ZifyBool.
From stdpp Require Import base tactics option strings numbers gmap fin_maps list.
From S2P Require Import Prelude Dict DictProps.

Local Open Scope Z_scope.

(** ** Reversing the bits of a cursor *)

(** [s] halves from 64 to 1: six rounds, and the test that ends the loop. *)
Fixpoint revLoop (fuel : nat) (s mask v : Z) : Z :=
  match fuel with
  | O => v
  | S fuel =>
      let s := Z.shiftr s 1 in
      if s =? 0 then v else
      let mask := Z.lxor mask (u64 (Z.shiftl mask s)) in
      let v := Z.lor (Z.land (Z.shiftr v s) mask)
                     (Z.land (u64 (Z.shiftl v s)) (u64 (Z.lnot mask))) in
      revLoop fuel s mask v
  end.

Definition rev (v : Z) : Z := revLoop 7 64 (u64 (Z.lnot 0)) v.

(** ** The scan *)

Section Scan.
Context {K V : Type}.
Notation entry := (K * V)%type.
Notation dictM := (M (dict K V)).

(** The entries of the bucket of the cursor. *)
Definition emitBucket (t : dictht K V) (v : Z) : dictM (list entry) :=
  bucketAt t (Z.land v (sizemask t)).

(** Incrementing the reversed cursor. *)
Definition nextCursor (m v : Z) : Z :=
  let v := Z.lor v (u64 (Z.lnot m)) in
  let v := rev v in
  let v := u64 (v + 1) in
  rev v.

(** The loop over the buckets of the larger table that expand the bucket of the
    smaller one: no more rounds than the larger table has buckets. *)
Fixpoint scanExpansions (fuel : nat) (t1 : dictht K V) (m0 v : Z) : dictM (list entry * Z) :=
  match fuel with
  | O => fail (AssertFailed "dictScan: fuel")
  | S fuel =>
      es ← emitBucket t1 v;
      let v := nextCursor (sizemask t1) v in
      if Z.land v (Z.lxor m0 (sizemask t1)) =? 0 then mret (es, v)
      else r ← scanExpansions fuel t1 m0 v; mret (es ++ fst r, snd r)
  end.

(** The emitted entries and the next cursor. *)
Definition dictScan (v : Z) : dictM (list entry * Z) :=
  d ← get;
  if dictSize d =? 0 then mret ([], 0) else
  put (set_iterators (iterators d + 1) d) ;;
  r ← (if negb (dictIsRehashing d) then
         es ← emitBucket (ht0 d) v;
         mret (es, nextCursor (sizemask (ht0 d)) v)
       else
         let '(t0, t1) := if size (ht1 d) <? size (ht0 d) then (ht1 d, ht0 d) else (ht0 d, ht1 d) in
         es ← emitBucket t0 v;
         r ← scanExpansions (Z.to_nat (size t1)) t1 (sizemask t0) v;
         mret (es ++ fst r, snd r));
  modify (λ d, set_iterators (iterators d - 1) d) ;;
  mret r.

End Scan.

(** ** Bits of 64-bit cursors *)

Definition cursor (v : Z) : Prop := 0 ≤ v < 2 ^ 64.

Lemma cursor_bits v : 0 ≤ v → cursor v ↔ ∀ i, 64 ≤ i → Z.testbit v i = false.
Proof.
  intros Hv. split.
  - intros [_ Hlt] i Hi. destruct (decide (v = 0)) as [->|]; [apply Z.bits_0|].
    apply Z.bits_above_log2; [done|]. apply Z.lt_le_trans with 64; [|done]. apply Z.log2_lt_pow2; lia.
  - intros Hb. split; [done|]. destruct (decide (v = 0)) as [->|]; [done|].
    apply Z.log2_lt_pow2; [lia|]. destruct (Z.lt_ge_cases (Z.log2 v) 64); [done|].
    specialize (Hb (Z.log2 v) ltac:(lia)). by rewrite Z.bit_log2 in Hb by lia.
Qed.

Lemma cursor_eq a b : cursor a → cursor b → (∀ i, 0 ≤ i < 64 → Z.testbit a i = Z.testbit b i) → a = b.
Proof.
  intros Ha Hb Hbits. apply Z.bits_inj'. intros i Hi. destruct (Z.lt_ge_cases i 64); [by apply Hbits; lia|].
  rewrite (proj1 (cursor_bits a ltac:(apply Ha)) Ha), (proj1 (cursor_bits b ltac:(apply Hb)) Hb) by lia. done.
Qed.

Lemma u64_bit v i : 0 ≤ i → Z.testbit (u64 v) i = (i <? 64) && Z.testbit v i.
Proof.
  intros Hi. unfold u64. destruct (Z.ltb_spec i 64); cbn.
  - apply Z.mod_pow2_bits_low. lia.
  - apply Z.mod_pow2_bits_high. lia.
Qed.

(** A round of [revLoop] swaps neighbouring groups of [s] bits. *)
Definition revRound (s mask v : Z) : Z :=
  Z.lor (Z.land (Z.shiftr v s) mask) (Z.land (u64 (Z.shiftl v s)) (u64 (Z.lnot mask))).

Definition swapped (s i : Z) : Z := if Z.even (i / s) then i + s else i - s.

(** The bits of [mask] that are set are those of the even groups. *)
Definition evenGroups (s mask : Z) : bool :=
  forallb (λ i, Bool.eqb (Z.testbit mask i) (Z.even (i / s)) && (0 <=? swapped s i) && (swapped s i <? 64)) (seqZ 0 64).

Lemma revRound_bit s mask v i : evenGroups s mask = true → cursor mask → 0 < s → cursor v → 0 ≤ i < 64 →
  Z.testbit (revRound s mask v) i = Z.testbit v (swapped s i) ∧ 0 ≤ swapped s i < 64.
Proof.
  intros Hg Hm Hs Hv Hi. unfold evenGroups in Hg. rewrite forallb_forall in Hg.
  specialize (Hg i ltac:(apply list_elem_of_In, elem_of_seqZ; lia)).
  apply andb_prop in Hg as [[Hg%Bool.eqb_prop Hlo]%andb_prop Hhi]. split; [|lia].
  unfold revRound, swapped in *.
  rewrite Z.lor_spec, !Z.land_spec, !u64_bit, Z.shiftr_spec, Z.lnot_spec, Z.shiftl_spec, Hg by lia.
  replace (i <? 64) with true by lia. destruct (Z.even (i / s)); cbn; rewrite ?andb_true_r, ?andb_false_r, ?orb_false_r; done.
Qed.

Lemma revRound_cursor s mask v : cursor mask → 0 < s → cursor v → cursor (revRound s mask v).
Proof.
  intros Hm Hs Hv. apply cursor_bits.
  - unfold revRound. apply Z.lor_nonneg. split; apply Z.land_nonneg; [|]; right; [apply Hm|].
    pose proof (u64_range (Z.lnot mask)). lia.
  - intros i Hi. unfold revRound. rewrite Z.lor_spec, !Z.land_spec, !u64_bit by lia.
    rewrite (proj1 (cursor_bits mask ltac:(apply Hm)) Hm) by lia.
    replace (i <? 64) with false by lia. cbn. by rewrite andb_false_r.
Qed.

(** The masks of the six rounds. *)
Definition revMasks : list (Z * Z) :=
  [(32, 0x00000000ffffffff); (16, 0x0000ffff0000ffff); (8, 0x00ff00ff00ff00ff);
   (4, 0x0f0f0f0f0f0f0f0f); (2, 0x3333333333333333); (1, 0x5555555555555555)].

Lemma revLoop_round fuel s mask v s' mask' : Z.shiftr s 1 = s' → (s' =? 0) = false →
  Z.lxor mask (u64 (Z.shiftl mask s')) = mask' →
  revLoop (S fuel) s mask v = revLoop fuel s' mask' (revRound s' mask' v).
Proof. intros <- Hs <-. cbn [revLoop]. by rewrite Hs. Qed.

Lemma rev_rounds v : rev v = foldl (λ v sm, revRound (fst sm) (snd sm) v) v revMasks.
Proof.
  unfold rev, revMasks. cbn [foldl fst snd]. do 6 (erewrite revLoop_round by (vm_compute; reflexivity)).
  generalize (revRound 1 0x5555555555555555). intros f. reflexivity.
Qed.
#[global] Opaque rev.

Lemma rounds_bit sms v i : Forall (λ sm, evenGroups (fst sm) (snd sm) = true ∧ cursor (snd sm) ∧ 0 < fst sm) sms →
  cursor v → 0 ≤ i < 64 →
  0 ≤ foldr (λ sm, swapped (fst sm)) i sms < 64 ∧
  cursor (foldl (λ v sm, revRound (fst sm) (snd sm) v) v sms) ∧
  Z.testbit (foldl (λ v sm, revRound (fst sm) (snd sm) v) v sms) i =
  Z.testbit v (foldr (λ sm, swapped (fst sm)) i sms).
Proof.
  intros Hok Hv Hi. revert v Hv. induction Hok as [|[s mask] sms (Hg & Hm & Hs) _ IH]; intros v Hv; cbn in *; [done|].
  destruct (IH (revRound s mask v)) as (Hr & Hc & Hb); [by apply revRound_cursor|].
  destruct (revRound_bit s mask v _ Hg Hm Hs Hv Hr) as [Hbit Hr']. split_and!; [lia|lia|done|].
  by rewrite Hb, Hbit.
Qed.

Lemma revMasks_ok : Forall (λ sm, evenGroups (fst sm) (snd sm) = true ∧ cursor (snd sm) ∧ 0 < fst sm) revMasks.
Proof. unfold revMasks, cursor. repeat (constructor; [cbn; split_and!; [vm_compute; reflexivity|lia..]|]). constructor. Qed.

Lemma revMasks_mirror i : 0 ≤ i < 64 → foldr (λ sm, swapped (fst sm)) i revMasks = 63 - i.
Proof.
  intros Hi. apply Z.eqb_eq.
  assert (forallb (λ i, foldr (λ sm, swapped (fst sm)) i revMasks =? 63 - i) (seqZ 0 64) = true) as Hall
    by (vm_compute; reflexivity).
  rewrite forallb_forall in Hall. apply Hall, list_elem_of_In, elem_of_seqZ. lia.
Qed.

Lemma rev_bit v i : cursor v → 0 ≤ i < 64 → Z.testbit (rev v) i = Z.testbit v (63 - i).
Proof.
  intros Hv Hi. rewrite rev_rounds. destruct (rounds_bit revMasks v i revMasks_ok Hv Hi) as (_ & _ & ->).
  by rewrite revMasks_mirror.
Qed.

Lemma rev_cursor v : cursor v → cursor (rev v).
Proof. intros Hv. rewrite rev_rounds. by destruct (rounds_bit revMasks v 0 revMasks_ok Hv) as (_ & ? & _). Qed.

Lemma rev_rev v : cursor v → rev (rev v) = v.
Proof.
  intros Hv. apply cursor_eq; [by apply rev_cursor, rev_cursor|done|]. intros i Hi.
  rewrite !rev_bit by (try apply rev_cursor; done || lia). f_equal. lia.
Qed.

(** ** Blocks of reversed cursors

    The buckets of a table of [2^k] are the blocks of [2^(64-k)] consecutive
    reversed cursors. *)

Definition blockOf (k x : Z) : Z := x / 2 ^ (64 - k).

Lemma same_bucket k v h : 0 ≤ k ≤ 64 → cursor v → cursor h →
  Z.land v (2 ^ k - 1) = Z.land h (2 ^ k - 1) ↔ blockOf k (rev v) = blockOf k (rev h).
Proof.
  intros Hk Hv Hh. unfold blockOf. rewrite <-!Z.shiftr_div_pow2 by lia.
  replace (2 ^ k - 1) with (Z.ones k) by (rewrite Z.ones_equiv; lia). split; intros Heq; apply Z.bits_inj'; intros i Hi.
  - rewrite !Z.shiftr_spec by done. destruct (Z.lt_ge_cases (i + (64 - k)) 64).
    + rewrite !rev_bit by (done || lia). assert (0 ≤ 63 - (i + (64 - k)) < k) by lia.
      apply (f_equal (λ z, Z.testbit z (63 - (i + (64 - k))))) in Heq.
      rewrite !Z.land_spec, Z.ones_spec_low, !andb_true_r in Heq by lia. done.
    + assert (∀ x, cursor x → Z.testbit (rev x) (i + (64 - k)) = false) as Hhi; [|by rewrite !Hhi].
      intros x Hx. apply rev_cursor in Hx. apply cursor_bits; [apply Hx|done|lia].
  - rewrite !Z.land_spec. destruct (Z.lt_ge_cases i k).
    + rewrite Z.ones_spec_low, !andb_true_r by lia.
      apply (f_equal (λ z, Z.testbit z (k - 1 - i))) in Heq. rewrite !Z.shiftr_spec, !rev_bit in Heq by (done || lia).
      by replace (63 - (k - 1 - i + (64 - k))) with i in Heq by lia.
    + by rewrite Z.ones_spec_high, !andb_false_r by lia.
Qed.

(** The end of the block of the cursor. *)
Definition blockEnd (k x : Z) : Z := blockOf k x * 2 ^ (64 - k) + 2 ^ (64 - k).

Lemma fill_low k x : 0 ≤ k ≤ 64 → Z.lor x (Z.ones (64 - k)) = blockEnd k x - 1.
Proof.
  intros Hk. unfold blockEnd, blockOf. set (n := 64 - k). assert (0 ≤ n) by lia.
  rewrite <-Z.shiftr_div_pow2, <-Z.shiftl_mul_pow2 by done.
  replace (_ + 2 ^ n - 1) with (Z.shiftl (Z.shiftr x n) n + Z.ones n) by (rewrite Z.ones_equiv; lia).
  rewrite Z.add_nocarry_lxor, Z.lxor_lor by
    (rewrite Z.land_ones, Z.shiftl_mul_pow2 by done; apply Z.mod_mul, Z.pow_nonzero; lia).
  apply Z.bits_inj'. intros i Hi. rewrite !Z.lor_spec. destruct (Z.lt_ge_cases i n).
  - by rewrite Z.ones_spec_low, !orb_true_r by lia.
  - rewrite Z.shiftl_spec, Z.shiftr_spec by lia. by replace (i - n + n) with i by lia.
Qed.

Lemma rev_fill k v : 0 ≤ k ≤ 64 → cursor v →
  cursor (Z.lor v (u64 (Z.lnot (2 ^ k - 1)))) ∧
  rev (Z.lor v (u64 (Z.lnot (2 ^ k - 1)))) = Z.lor (rev v) (Z.ones (64 - k)).
Proof.
  intros Hk Hv. assert (cursor (Z.lor v (u64 (Z.lnot (2 ^ k - 1))))) as Hc.
  { pose proof (u64_range (Z.lnot (2 ^ k - 1))). destruct Hv. apply cursor_bits; [apply Z.lor_nonneg; lia|].
    intros i Hi. rewrite Z.lor_spec, u64_bit by lia. replace (i <? 64) with false by lia.
    rewrite (proj1 (cursor_bits v ltac:(lia))) by (done || lia). done. }
  pose proof (rev_cursor _ Hv) as Hr. split; [done|]. apply cursor_eq; [by apply rev_cursor|..].
  - apply cursor_bits.
    + apply Z.lor_nonneg. split; [apply Hr|]. rewrite Z.ones_equiv. pose proof (Z.pow_pos_nonneg 2 (64 - k)). lia.
    + intros i Hi. rewrite Z.lor_spec, Z.ones_spec_high, orb_false_r by lia.
      apply cursor_bits; [apply Hr|done|lia].
  - intros i Hi. rewrite rev_bit, !Z.lor_spec, rev_bit, u64_bit, Z.lnot_spec by (done || lia). f_equal.
    replace (2 ^ k - 1) with (Z.ones k) by (rewrite Z.ones_equiv; lia). replace (63 - i <? 64) with true by lia. cbn.
    destruct (Z.lt_ge_cases i (64 - k)).
    + by rewrite Z.ones_spec_high, Z.ones_spec_low by lia.
    + by rewrite Z.ones_spec_low, Z.ones_spec_high by lia.
Qed.

Lemma nextCursor_rev k v : 0 ≤ k ≤ 64 → cursor v →
  cursor (nextCursor (2 ^ k - 1) v) ∧ rev (nextCursor (2 ^ k - 1) v) = u64 (blockEnd k (rev v)).
Proof.
  intros Hk Hv. unfold nextCursor. destruct (rev_fill k v Hk Hv) as [_ ->]. rewrite fill_low by done.
  replace (_ - 1 + 1) with (blockEnd k (rev v)) by lia.
  assert (cursor (u64 (blockEnd k (rev v)))) by (pose proof (u64_range (blockEnd k (rev v))); unfold cursor, ULLONG_MAX in *; lia).
  split; [by apply rev_cursor|by apply rev_rev].
Qed.

(** The cursor has no bits between the masks when it is at the start of a block of
    the smaller table. *)
Lemma expansion_done k0 k1 v : 0 ≤ k0 ≤ k1 → k1 ≤ 64 → cursor v → rev v mod 2 ^ (64 - k1) = 0 →
  Z.land v (Z.lxor (2 ^ k0 - 1) (2 ^ k1 - 1)) = 0 ↔ rev v mod 2 ^ (64 - k0) = 0.
Proof.
  intros Hk Hk1 Hv Hal. replace (2 ^ k0 - 1) with (Z.ones k0) by (rewrite Z.ones_equiv; lia).
  replace (2 ^ k1 - 1) with (Z.ones k1) by (rewrite Z.ones_equiv; lia).
  rewrite <-Z.land_ones in * by lia. split; intros Heq; apply Z.bits_inj'; intros i Hi; rewrite Z.bits_0.
  - rewrite Z.land_spec. destruct (Z.lt_ge_cases i (64 - k0)); [|by rewrite Z.ones_spec_high, andb_false_r by lia].
    destruct (Z.lt_ge_cases i (64 - k1)).
    + apply (f_equal (λ z, Z.testbit z i)) in Hal. rewrite Z.land_spec, Z.bits_0, Z.ones_spec_low in Hal by lia.
      by rewrite Z.ones_spec_low by lia.
    + apply (f_equal (λ z, Z.testbit z (63 - i))) in Heq.
      rewrite Z.land_spec, Z.lxor_spec, Z.bits_0, Z.ones_spec_high, Z.ones_spec_low in Heq by lia.
      rewrite rev_bit by (done || lia). by destruct (Z.testbit v (63 - i)).
  - rewrite Z.land_spec, Z.lxor_spec. destruct (Z.lt_ge_cases i k1).
    + destruct (Z.lt_ge_cases i k0); [by rewrite !Z.ones_spec_low, andb_false_r by lia|].
      apply (f_equal (λ z, Z.testbit z (63 - i))) in Heq.
      rewrite Z.land_spec, Z.bits_0, Z.ones_spec_low, rev_bit, andb_true_r in Heq by (done || lia).
      by replace (63 - (63 - i)) with i in Heq by lia; rewrite Heq.
    + by rewrite !Z.ones_spec_high, andb_false_r by lia.
Qed.

(** Incrementing by blocks of the larger table inside a block of the smaller one. *)
Section Blocks.
Context (k0 k1 : Z) (Hk0 : 0 ≤ k0 ≤ k1) (Hk1 : k1 ≤ 64).

Notation c := (2 ^ (k1 - k0)).
Notation b := (2 ^ (64 - k1)).

Lemma blocks_pos : 0 < c ∧ 0 < b ∧ 2 ^ (64 - k0) = b * c ∧ 2 ^ 64 = 2 ^ k0 * c * b.
Proof.
  split_and!; try (apply Z.pow_pos_nonneg; lia); rewrite <-!Z.pow_add_r by lia; f_equal; lia.
Qed.

Lemma blockOf_coarse x : blockOf k0 x = blockOf k1 x / c.
Proof. destruct blocks_pos as (? & ? & Hb & _). unfold blockOf. rewrite Hb, Z.div_div; lia. Qed.

(** The blocks of the larger table that are left in the block of the smaller one. *)
Definition blocksLeft (x : Z) : Z := c - 1 - blockOf k1 x mod c.

Lemma blocksLeft_range x : 0 ≤ blocksLeft x < c.
Proof.
  destruct blocks_pos as (? & _). unfold blocksLeft. pose proof (Z.mod_pos_bound (blockOf k1 x) c). lia.
Qed.

Lemma blockEnd_left x : blockEnd k0 x = blockEnd k1 x + blocksLeft x * b.
Proof.
  destruct blocks_pos as (? & ? & Hb & _). unfold blockEnd, blocksLeft. rewrite blockOf_coarse, Hb.
  pose proof (Z.div_mod (blockOf k1 x) c). nia.
Qed.

Lemma blockEnd_le x : cursor x → x < blockEnd k0 x ≤ 2 ^ 64.
Proof.
  intros Hx. destruct blocks_pos as (? & ? & Hb & Hall). unfold blockEnd, blockOf.
  assert (0 < 2 ^ (64 - k0)) by (apply Z.pow_pos_nonneg; lia). assert (0 < 2 ^ k0) by (apply Z.pow_pos_nonneg; lia).
  pose proof (Z.div_mod x (2 ^ (64 - k0))). pose proof (Z.mod_pos_bound x (2 ^ (64 - k0))). split; [nia|].
  assert (2 ^ 64 = 2 ^ k0 * 2 ^ (64 - k0)) as Hpow by (rewrite <-Z.pow_add_r by lia; f_equal; lia).
  assert (x / 2 ^ (64 - k0) < 2 ^ k0) by (apply Z.div_lt_upper_bound; [done|]; destruct Hx; lia). nia.
Qed.

Lemma next_aligned x : u64 (blockEnd k1 x) mod b = 0 ∧ (u64 (blockEnd k1 x) mod 2 ^ (64 - k0) = 0 ↔ blocksLeft x = 0).
Proof.
  destruct blocks_pos as (? & ? & Hb & Hall). unfold u64.
  assert ((b | 2 ^ 64)) as Hd1 by (exists (2 ^ k0 * c); lia).
  assert ((2 ^ (64 - k0) | 2 ^ 64)) as Hd2 by (exists (2 ^ k0); lia).
  rewrite <-!Znumtheory.Zmod_div_mod by (try apply Z.pow_pos_nonneg; done || lia).
  unfold blockEnd. replace (_ * b + b) with ((blockOf k1 x + 1) * b) by lia. split; [by apply Z.mod_mul; lia|].
  rewrite Hb, (Z.mul_comm _ b), Z.mul_mod_distr_l by lia. unfold blocksLeft. rewrite Z.add_mod by lia.
  pose proof (Z.mod_pos_bound (blockOf k1 x) c). destruct (decide (c = 1)) as [Hc|Hc].
  { rewrite Hc, !Z.mod_1_r. lia. }
  rewrite (Z.mod_small 1) by lia. split; intros Heq; [|replace (_ + 1) with c by lia; rewrite Z.mod_same; lia].
  destruct (decide (blockOf k1 x mod c + 1 = c)); [lia|]. rewrite Z.mod_small in Heq by lia. nia.
Qed.

Lemma next_inside x : cursor x → blocksLeft x ≠ 0 → let x' := u64 (blockEnd k1 x) in
  x' = blockEnd k1 x ∧ blocksLeft x' = blocksLeft x - 1 ∧ blockOf k1 x' * b = x' ∧ blockEnd k0 x' = blockEnd k0 x.
Proof.
  intros Hx Hn x'. destruct blocks_pos as (? & ? & Hb & Hall). pose proof (blocksLeft_range x).
  pose proof (blockEnd_left x) as Hend. pose proof (blockEnd_le x Hx).
  assert (0 ≤ blockOf k1 x) as Hq by (unfold blockOf; destruct Hx; apply Z.div_pos; lia).
  assert (x' = blockEnd k1 x) as Hx'.
  { subst x'. apply u64_id. unfold ULLONG_MAX. unfold blockEnd in *. nia. }
  assert (blockOf k1 x' = blockOf k1 x + 1) as Hq'.
  { rewrite Hx'. unfold blockOf at 1. unfold blockEnd.
    replace (_ * b + b) with ((blockOf k1 x + 1) * b) by lia. apply Z.div_mul. lia. }
  assert (blocksLeft x' = blocksLeft x - 1) as Hl.
  { unfold blocksLeft in *. rewrite Hq', Z.add_mod by lia. rewrite (Z.mod_small 1), (Z.mod_small (_ + 1)) by lia. lia. }
  split_and!; [done|done|rewrite Hq', Hx'; unfold blockEnd; lia|].
  rewrite (blockEnd_left x'), Hl, Hend. unfold blockEnd. rewrite Hq'. lia.
Qed.

End Blocks.

(** ** The entries of a call *)

Section ScanProps.
Context {K V : Type} `{Countable K, HashFunction K}.
Implicit Types (k : K) (h t : dictht K V) (d : dict K V) (e : K * V) (es : list (K * V)).

(** The reversed hash of a key, and the entries with a reversed hash in a range. *)
Definition hrev e : Z := rev (hashFunction (fst e)).

Definition within (lo hi : Z) es : list (K * V) := filter (λ e, lo ≤ hrev e < hi) es.

Lemma within_split lo mid hi es : lo ≤ mid ≤ hi → within lo mid es ++ within mid hi es ≡ₚ within lo hi es.
Proof.
  intros Hm. induction es as [|e es IH]; [done|]. unfold within in *. rewrite !filter_cons.
  repeat case_decide; try lia.
  - cbn. by rewrite IH.
  - rewrite <-IH. symmetry. by apply Permutation_middle.
  - done.
Qed.

Lemma within_elem lo hi es e : e ∈ within lo hi es ↔ lo ≤ hrev e < hi ∧ e ∈ es.
Proof. unfold within. by rewrite list_elem_of_filter. Qed.

Lemma hash_cursor k : cursor (hashFunction k).
Proof. apply hashFunction_range. Qed.

Lemma filter_all {A} (P : A → Prop) `{∀ x, Decision (P x)} (l : list A) : (∀ x, x ∈ l → P x) → filter P l = l.
Proof.
  induction l as [|x l IH]; intros Hl; [done|]. rewrite filter_cons_True by (apply Hl; left).
  f_equal. apply IH. intros y Hy. apply Hl. by right.
Qed.

Lemma filter_none {A} (P : A → Prop) `{∀ x, Decision (P x)} (l : list A) : (∀ x, x ∈ l → ¬ P x) → filter P l = [].
Proof.
  induction l as [|x l IH]; intros Hl; [done|]. rewrite filter_cons_False by (apply Hl; left).
  apply IH. intros y Hy. apply Hl. by right.
Qed.

(** A bucket holds the entries of its index. *)
Lemma bucket_filter (P : K * V → Prop) `{∀ e, Decision (P e)} (bs : list (list (K * V))) i b :
  bs !! i = Some b → (∀ j b' e, bs !! j = Some b' → e ∈ b' → P e ↔ j = i) → filter P (concat bs) = b.
Proof.
  revert i. induction bs as [|b' bs IH]; intros i Hi HP; [done|]. cbn. rewrite filter_app.
  destruct i as [|i]; cbn in Hi.
  - injection Hi as ->. rewrite (filter_none P (concat bs)), app_nil_r.
    + apply filter_all. intros e He. by apply (HP 0%nat b).
    + intros e (j & b' & Hj & He)%elem_of_concat Hp. by apply (HP (S j) b') in Hp.
  - rewrite (filter_none P b') by (intros e He Hp; by apply (HP 0%nat b') in Hp). cbn. apply (IH i Hi).
    intros j b0 e Hj He. rewrite (HP (S j) b0 e Hj He). lia.
Qed.

(** A table with [2^n] buckets. *)
Record sized (n : Z) h : Prop := {
  sz_wf : ht_wf h;
  sz_exp : 0 ≤ n ≤ 63;
  sz_size : size h = 2 ^ n }.

Lemma sized_mask n h : sized n h → sizemask h = 2 ^ n - 1.
Proof.
  intros [_ Hn Hs]. unfold sizemask. rewrite Hs. assert (0 < 2 ^ n) by (apply Z.pow_pos_nonneg; lia).
  by replace (_ =? 0) with false by lia.
Qed.

Lemma emitBucket_run n h v d : sized n h → cursor v →
  emitBucket h v d = Ok (within (blockOf n (rev v) * 2 ^ (64 - n)) (blockEnd n (rev v)) (concat (table h)), d).
Proof.
  intros Hs Hv. unfold emitBucket, bucketAt. rewrite (sized_mask n) by done.
  pose proof Hs as [Hwf Hn Hsize]. assert (0 < 2 ^ n) by (apply Z.pow_pos_nonneg; lia).
  assert (0 < 2 ^ (64 - n)) by (apply Z.pow_pos_nonneg; lia).
  assert (0 ≤ Z.land v (2 ^ n - 1) < 2 ^ n) as Hr.
  { replace (2 ^ n - 1) with (Z.ones n) by (rewrite Z.ones_equiv; lia). rewrite Z.land_ones by lia.
    apply Z.mod_pos_bound. lia. }
  destruct (lookup_lt_is_Some_2 (table h) (Z.to_nat (Z.land v (2 ^ n - 1)))) as [b Hb]; [unfold size in Hsize; lia|].
  rewrite Hb. cbn. unfold mret, M_ret. do 2 f_equal. symmetry. unfold within. eapply bucket_filter; [done|].
  intros j b' e Hj He. pose proof (hw_placed h Hwf j b' e Hj He) as Hp. unfold bucketIndex in Hp.
  rewrite (sized_mask n) in Hp by done.
  pose proof (same_bucket n v (hashFunction e.1) ltac:(lia) Hv (hash_cursor _)) as Hsame. unfold hrev, blockEnd.
  transitivity (Z.land v (2 ^ n - 1) = Z.land (hashFunction e.1) (2 ^ n - 1)); [|lia].
  rewrite Hsame. unfold blockOf. set (x := rev (hashFunction e.1)).
  pose proof (Z.div_mod x (2 ^ (64 - n))). pose proof (Z.mod_pos_bound x (2 ^ (64 - n))). split; intros; nia.
Qed.

(** The loop over the expansions emits the larger table from the block of the cursor
    to the end of the block of the smaller table. *)
Lemma scanExpansions_run n0 n1 h v d fuel : 0 ≤ n0 ≤ n1 → sized n1 h → cursor v →
  blocksLeft n0 n1 (rev v) < Z.of_nat fuel →
  ∃ es v', scanExpansions fuel h (2 ^ n0 - 1) v d = Ok ((es, v'), d) ∧ cursor v' ∧
    rev v' = u64 (blockEnd n0 (rev v)) ∧
    es ≡ₚ within (blockOf n1 (rev v) * 2 ^ (64 - n1)) (blockEnd n0 (rev v)) (concat (table h)).
Proof.
  intros Hn Hs. revert v. induction fuel as [|fuel IH]; intros v Hv Hfuel.
  { pose proof (blocksLeft_range n0 n1 Hn ltac:(destruct Hs; lia) (rev v)). lia. }
  pose proof (sz_exp n1 h Hs) as Hn1. cbn [scanExpansions].
  rewrite (bind_run _ _ _ _ _ (emitBucket_run n1 h v d Hs Hv)), (sized_mask n1) by done.
  destruct (nextCursor_rev n1 v ltac:(lia) Hv) as [Hc Hrev].
  destruct (next_aligned n0 n1 Hn ltac:(lia) (rev v)) as [Hal Hend]. rewrite <-Hrev in Hal, Hend.
  pose proof (expansion_done n0 n1 _ Hn ltac:(lia) Hc Hal) as Hdone. rewrite Hend in Hdone.
  pose proof (blockEnd_left n0 n1 Hn ltac:(lia) (rev v)) as Hleft.
  destruct (Z.eqb_spec (Z.land (nextCursor (2 ^ n1 - 1) v) (Z.lxor (2 ^ n0 - 1) (2 ^ n1 - 1))) 0) as [Hz|Hz].
  - apply Hdone in Hz. rewrite Hz, Z.mul_0_l, Z.add_0_r in Hleft. eexists _, _. split; [done|].
    rewrite Hrev, Hleft. done.
  - assert (blocksLeft n0 n1 (rev v) ≠ 0) as Hl by tauto.
    pose proof (next_inside n0 n1 Hn ltac:(lia) (rev v) (rev_cursor v Hv) Hl) as Hin. cbn in Hin.
    rewrite <-Hrev in Hin. destruct Hin as (Hx & Hl' & Hlo & Hhi).
    destruct (IH (nextCursor (2 ^ n1 - 1) v) Hc) as (es & v' & Hrun & Hv' & Hrev' & Hes); [lia|].
    rewrite (bind_run _ _ _ _ _ Hrun). eexists _, _. split; [done|]. cbn [fst snd]. split_and!; [done|by rewrite Hrev', Hhi|].
    rewrite Hes, Hlo, Hhi, Hx. apply within_split.
    pose proof (blocksLeft_range n0 n1 Hn ltac:(lia) (rev v)).
    assert (0 < 2 ^ (64 - n1)) by (apply Z.pow_pos_nonneg; lia). unfold blockEnd in *. nia.
Qed.

(** The size of the table whose buckets the cursor counts. *)
Definition scanSize d : Z :=
  if dictIsRehashing d then Z.min (size (ht0 d)) (size (ht1 d)) else size (ht0 d).

Lemma wf_sized h : ht_wf h → table h ≠ [] → ∃ n, sized n h.
Proof.
  intros Hwf Hne. destruct (hw_size h Hwf) as [Hs|(n & Hn & Hs)]; [|by exists n].
  unfold size in Hs. by destruct (table h).
Qed.

Lemma sized_le n0 n1 h0 h1 : sized n0 h0 → sized n1 h1 → size h0 ≤ size h1 → n0 ≤ n1.
Proof. intros [_ ? ->] [_ ? ->] Hle. apply (Z.pow_le_mono_r_iff 2); lia. Qed.

Lemma set_iterators_back d d' : d' = set_iterators (iterators d + 1) d → set_iterators (iterators d' - 1) d' = d.
Proof. intros ->. destruct d. unfold set_iterators. cbn. f_equal. lia. Qed.

(** What a call emits, from a smaller table [t0] and a larger one [t1]. *)
Definition emitted (v n0 n1 : Z) t0 t1 es : Prop :=
  es ≡ₚ within (blockOf n0 (rev v) * 2 ^ (64 - n0)) (blockEnd n0 (rev v)) (concat (table t0)) ++
        within (blockOf n1 (rev v) * 2 ^ (64 - n1)) (blockEnd n0 (rev v)) (concat (table t1)).

Lemma scanTables_run n0 n1 t0 t1 v d : sized n0 t0 → sized n1 t1 → n0 ≤ n1 → cursor v →
  ∃ es v', (es ← emitBucket t0 v;
            r ← scanExpansions (Z.to_nat (size t1)) t1 (sizemask t0) v;
            mret (es ++ fst r, snd r)) d = Ok ((es, v'), d) ∧
    cursor v' ∧ rev v' = u64 (blockEnd n0 (rev v)) ∧ emitted v n0 n1 t0 t1 es.
Proof.
  intros Hs0 Hs1 Hle Hv. pose proof (sz_exp _ _ Hs0). pose proof (sz_exp _ _ Hs1).
  rewrite (bind_run _ _ _ _ _ (emitBucket_run n0 t0 v d Hs0 Hv)), (sized_mask n0) by done.
  destruct (scanExpansions_run n0 n1 t1 v d (Z.to_nat (size t1))) as (es & v' & Hrun & Hc & Hr & Hes); [lia|done|done|..].
  { pose proof (blocksLeft_range n0 n1 ltac:(lia) ltac:(lia) (rev v)). rewrite (sz_size _ _ Hs1).
    pose proof (Z.pow_le_mono_r 2 (n1 - n0) n1). lia. }
  rewrite (bind_run _ _ _ _ _ Hrun). eexists _, _. split; [done|]. split_and!; [done..|].
  unfold emitted. cbn [fst]. by rewrite Hes.
Qed.

Lemma dictScan_run v d : dict_wf d → cursor v → dictSize d ≠ 0 →
  ∃ n0 n1 t0 t1 es v', dictScan v d = Ok ((es, v'), d) ∧ 0 ≤ n0 ≤ n1 ∧ n1 ≤ 63 ∧ scanSize d = 2 ^ n0 ∧
    entries d ≡ₚ concat (table t0) ++ concat (table t1) ∧
    cursor v' ∧ rev v' = u64 (blockEnd n0 (rev v)) ∧ emitted v n0 n1 t0 t1 es.
Proof.
  intros Hwf Hv Hne. unfold dictScan, scanSize. rewrite bind_get. replace (dictSize d =? 0) with false by lia.
  erewrite bind_run by done. set (d' := set_iterators (iterators d + 1) d).
  assert (∀ r : list (K * V) * Z, (modify (λ d, set_iterators (iterators d - 1) d) ;; mret r) d' = Ok (r, d)) as Hback.
  { intros r. rewrite bind_modify. unfold mret, M_ret. by rewrite (set_iterators_back d). }
  destruct (wf_sized (ht0 d)) as [n0 Hs0]; [apply Hwf|by apply nonempty_table|].
  destruct (dictIsRehashing d) eqn:Hr; cbn [negb].
  - apply rehashing_true in Hr. destruct (dw_rehash d Hwf Hr) as (_ & _ & Hne1 & _).
    destruct (wf_sized (ht1 d)) as [n1 Hs1]; [apply Hwf|done|].
    destruct (Z.ltb_spec (size (ht1 d)) (size (ht0 d))).
    + destruct (scanTables_run n1 n0 (ht1 d) (ht0 d) v d' Hs1 Hs0) as (es & v' & Hrun & Hrest); [apply (sized_le _ _ _ _ Hs1 Hs0); lia|done|].
      exists n1, n0, (ht1 d), (ht0 d), es, v'. rewrite (bind_run _ _ _ _ _ Hrun), Hback.
      pose proof (sized_le _ _ _ _ Hs1 Hs0). destruct Hs0, Hs1. split_and!; [done|lia|lia|lia|lia| |apply Hrest..].
      unfold entries. apply Permutation_app_comm.
    + destruct (scanTables_run n0 n1 (ht0 d) (ht1 d) v d' Hs0 Hs1) as (es & v' & Hrun & Hrest); [by eapply sized_le|done|].
      exists n0, n1, (ht0 d), (ht1 d), es, v'. rewrite (bind_run _ _ _ _ _ Hrun), Hback.
      pose proof (sized_le _ _ _ _ Hs0 Hs1). destruct Hs0, Hs1. by split_and!; [done|lia|lia|lia|lia| |apply Hrest..].
  - apply rehashing_false in Hr. pose proof (dw_idle d Hwf Hr) as Hidle. pose proof (sz_exp _ _ Hs0).
    destruct (nextCursor_rev n0 v ltac:(lia) Hv) as [Hc Hrev].
    eexists n0, n0, (ht0 d), (ht1 d), _, _.
    rewrite (bind_run _ _ _ _ d') by (by rewrite (bind_run _ _ _ _ _ (emitBucket_run n0 (ht0 d) v d' Hs0 Hv))).
    rewrite Hback, (sized_mask n0) by done. split; [done|]. split_and!; [lia|lia|lia|apply Hs0|done|done|done|].
    unfold emitted. by rewrite Hidle, app_nil_r.
Qed.

(** The entries from the cursor on are emitted, and no others when the cursor is at
    the start of a block. *)
Lemma emitted_covers v n0 n1 t0 t1 es e : 0 ≤ n0 ≤ n1 → n1 ≤ 63 → emitted v n0 n1 t0 t1 es →
  e ∈ concat (table t0) ++ concat (table t1) → rev v ≤ hrev e < blockEnd n0 (rev v) → e ∈ es.
Proof.
  intros Hn Hn1 Hes He Hr. unfold emitted in Hes. rewrite Hes. rewrite elem_of_app, !within_elem in *.
  assert (∀ n, n ≤ 63 → blockOf n (rev v) * 2 ^ (64 - n) ≤ rev v) as Hlo.
  { intros n Hle. unfold blockOf. assert (0 < 2 ^ (64 - n)) by (apply Z.pow_pos_nonneg; lia).
    rewrite Z.mul_comm. by apply Z.mul_div_le. }
  pose proof (Hlo n0 ltac:(lia)). pose proof (Hlo n1 ltac:(lia)). destruct He; [left|right]; (split; [lia|done]).
Qed.

Lemma within_app lo hi es1 es2 : within lo hi (es1 ++ es2) = within lo hi es1 ++ within lo hi es2.
Proof. apply filter_app. Qed.

Lemma emitted_exact v n0 n1 t0 t1 es : 0 ≤ n0 ≤ n1 → n1 ≤ 63 → emitted v n0 n1 t0 t1 es →
  rev v mod 2 ^ (64 - n0) = 0 → es ≡ₚ within (rev v) (blockEnd n0 (rev v)) (concat (table t0) ++ concat (table t1)).
Proof.
  intros Hn Hn1 Hes Hal. unfold emitted in Hes. rewrite Hes, within_app. destruct (blocks_pos n0 n1 Hn ltac:(lia)) as (? & ? & Hb & _).
  assert (rev v mod 2 ^ (64 - n1) = 0) as Hal1.
  { rewrite Hb in Hal. apply Z.div_exact in Hal; [|nia]. rewrite Hal.
    rewrite <-Z.mul_assoc, Z.mul_comm. apply Z.mod_mul. lia. }
  unfold blockOf. apply Z.div_exact in Hal, Hal1; [|lia|nia]. by rewrite !(Z.mul_comm (rev v / _)), <-Hal, <-Hal1.
Qed.

Lemma rev_zero : rev 0 = 0.
Proof. vm_compute. reflexivity. Qed.

Lemma cursor_end v' hi : cursor v' → 0 < hi ≤ 2 ^ 64 → rev v' = u64 hi → v' = 0 ∧ hi = 2 ^ 64 ∨ v' ≠ 0 ∧ rev v' = hi.
Proof.
  intros Hv Hhi Hr. destruct (decide (hi = 2 ^ 64)) as [->|].
  - left. split; [|done]. rewrite <-(rev_rev v'), Hr by done. apply rev_zero.
  - right. rewrite u64_id in Hr by (unfold ULLONG_MAX; lia). split; [|done]. intros ->. rewrite rev_zero in Hr. lia.
Qed.

(** One call, in the order of the reversed cursors: it moves from [rev v] to [hi]. *)
Record scanned v d es v' (hi : Z) : Prop := {
  sc_cursor : cursor v';
  sc_range : rev v < hi ≤ 2 ^ 64;
  sc_next : v' = 0 ∧ hi = 2 ^ 64 ∨ v' ≠ 0 ∧ rev v' = hi;
  sc_sound : ∀ e, e ∈ es → e ∈ entries d;
  sc_covers : ∀ e, e ∈ entries d → rev v ≤ hrev e < hi → e ∈ es;
  sc_aligned : ∀ n, 0 ≤ n ≤ 63 → scanSize d ≤ 2 ^ n → hi mod 2 ^ (64 - n) = 0;
  sc_exact : ∀ n, 0 ≤ n ≤ 63 → scanSize d = 2 ^ n → rev v mod 2 ^ (64 - n) = 0 →
    es ≡ₚ within (rev v) hi (entries d) }.

Lemma end_aligned n : 0 ≤ n ≤ 63 → 2 ^ 64 mod 2 ^ (64 - n) = 0.
Proof.
  intros Hn. replace (2 ^ 64) with (2 ^ n * 2 ^ (64 - n)) by (rewrite <-Z.pow_add_r by lia; f_equal; lia).
  apply Z.mod_mul, Z.pow_nonzero; lia.
Qed.

Lemma dictScan_call v d : dict_wf d → cursor v → ∃ es v' hi, dictScan v d = Ok ((es, v'), d) ∧ scanned v d es v' hi.
Proof.
  intros Hwf Hv. pose proof (rev_cursor v Hv) as Hrv. destruct (decide (dictSize d = 0)) as [Hz|Hz].
  - assert (entries d = []) as He.
    { rewrite dictSize_entries in Hz by done. destruct (entries d); [done|cbn in Hz; lia]. }
    exists [], 0, (2 ^ 64). split.
    { unfold dictScan. rewrite bind_get. by replace (dictSize d =? 0) with true by lia. }
    split; [done|split; [apply Hrv|done]|by left|by intros e ?%not_elem_of_nil| |by intros; apply end_aligned|by rewrite He].
    rewrite He. by intros e ?%not_elem_of_nil.
  - destruct (dictScan_run v d Hwf Hv Hz) as (n0 & n1 & t0 & t1 & es & v' & Hrun & Hn & Hn1 & Hsz & Hent & Hc & Hr & Hes).
    exists es, v', (blockEnd n0 (rev v)). split; [done|].
    pose proof (blockEnd_le n0 n1 Hn ltac:(lia) (rev v) Hrv) as Hend. destruct Hrv.
    split; [done|done|by apply cursor_end; [|lia|]|..].
    + intros e He. rewrite Hent. unfold emitted in Hes. rewrite Hes, elem_of_app, !within_elem in He. rewrite elem_of_app. tauto.
    + intros e He. rewrite Hent in He. by eapply emitted_covers.
    + intros n Hn' Hle. rewrite Hsz in Hle. apply (Z.pow_le_mono_r_iff 2) in Hle; [|lia..].
      destruct (blocks_pos n0 n ltac:(lia) ltac:(lia)) as (? & ? & Hb & _). unfold blockEnd. rewrite Hb.
      replace (_ + _) with ((blockOf n0 (rev v) * 2 ^ (n - n0) + 2 ^ (n - n0)) * 2 ^ (64 - n)) by lia.
      apply Z.mod_mul. lia.
    + intros n Hn' Heq Hal. rewrite Hsz in Heq. apply (Z.pow_inj_r 2) in Heq as ->; [|lia..].
      rewrite (emitted_exact v n n1 t0 t1 es Hn Hn1 Hes Hal). unfold within. by rewrite Hent.
Qed.

(** ** A whole scan *)

(** The calls of a scan, on the dictionaries that the table is at each call; the scan
    is over when the cursor is 0 again. *)
Fixpoint scan (ds : list (dict K V)) (v : Z) : res (list (K * V) * bool) :=
  match ds with
  | [] => Ok ([], false)
  | d :: ds =>
      match dictScan v d with
      | Fault f => Fault f
      | Ok ((es, v'), _) =>
          if v' =? 0 then Ok (es, true)
          else match scan ds v' with
               | Fault f => Fault f
               | Ok (es', fin) => Ok (es ++ es', fin)
               end
      end
  end.

Lemma scan_cons d ds v : dict_wf d → cursor v → ∃ es v' hi, scanned v d es v' hi ∧
  scan (d :: ds) v = if v' =? 0 then Ok (es, true) else
    match scan ds v' with Fault f => Fault f | Ok (es', fin) => Ok (es ++ es', fin) end.
Proof.
  intros Hwf Hv. destruct (dictScan_call v d Hwf Hv) as (es & v' & hi & Hrun & Hsc). exists es, v', hi.
  split; [done|]. cbn [scan]. by rewrite Hrun.
Qed.

Lemma scan_total ds : ∀ v, Forall dict_wf ds → cursor v → ∃ es fin, scan ds v = Ok (es, fin) ∧
  ∀ e, e ∈ es → ∃ d, d ∈ ds ∧ e ∈ entries d.
Proof.
  induction ds as [|d ds IH]; intros v Hwf Hv.
  { exists [], false. split; [done|]. by intros e ?%not_elem_of_nil. }
  apply Forall_cons in Hwf as [Hd Hds].
  destruct (scan_cons d ds v Hd Hv) as (es & v' & hi & Hsc & ->). pose proof (sc_sound _ _ _ _ _ Hsc) as Hs.
  destruct (v' =? 0).
  - exists es, true. split; [done|]. intros e He. exists d. split; [left|by apply Hs].
  - destruct (IH v' Hds (sc_cursor _ _ _ _ _ Hsc)) as (es' & fin & -> & Hes'). exists (es ++ es'), fin. split; [done|].
    intros e [He|He]%elem_of_app; [exists d; split; [left|by apply Hs]|].
    destruct (Hes' e He) as (d' & ? & ?). exists d'. split; [by right|done].
Qed.

(** Every key that is in all the dictionaries, and whose turn has not passed. *)
Lemma scan_covers k ds : ∀ v es, Forall dict_wf ds → cursor v → scan ds v = Ok (es, true) →
  Forall (λ d, k ∈ (entries d).*1) ds → rev v ≤ rev (hashFunction k) → k ∈ es.*1.
Proof.
  induction ds as [|d ds IH]; intros v es Hwf Hv Hrun Hk Hle; [done|].
  apply Forall_cons in Hwf as [Hd Hds]. apply Forall_cons in Hk as [Hkd Hkds].
  destruct (scan_cons d ds v Hd Hv) as (es1 & v' & hi & [Hc Hr Hn Hs Hcov _ _] & Heq). rewrite Heq in Hrun. clear Heq.
  apply list_elem_of_fmap in Hkd as ([k' u] & -> & He). cbn [fst] in *.
  destruct (rev_cursor _ (hash_cursor k')) as [_ Hlt]. specialize (Hcov (k', u) He). unfold hrev in Hcov. cbn [fst] in Hcov.
  destruct (Z.eqb_spec v' 0) as [Hz|Hz].
  - injection Hrun as <-. apply list_elem_of_fmap. exists (k', u). split; [done|]. apply Hcov. lia.
  - destruct Hn as [[? _]|[_ Hn]]; [done|]. destruct (scan ds v') as [[es' fin]|] eqn:Hrun'; [|done].
    injection Hrun as <- ->. rewrite fmap_app, elem_of_app. destruct (Z.lt_ge_cases (rev (hashFunction k')) hi).
    + left. apply list_elem_of_fmap. exists (k', u). split; [done|]. apply Hcov. lia.
    + right. eapply IH; [done..|]. lia.
Qed.

(** The scan ends: every call moves the reversed cursor to a later block. *)
Lemma scan_ends n ds : 0 ≤ n ≤ 63 → ∀ v es fin, Forall dict_wf ds → Forall (λ d, scanSize d ≤ 2 ^ n) ds →
  cursor v → 2 ^ n - blockOf n (rev v) ≤ Z.of_nat (length ds) → scan ds v = Ok (es, fin) → fin = true.
Proof.
  intros Hn. assert (0 < 2 ^ (64 - n)) by (apply Z.pow_pos_nonneg; lia).
  assert (2 ^ 64 = 2 ^ n * 2 ^ (64 - n)) as Hpow by (rewrite <-Z.pow_add_r by lia; f_equal; lia).
  induction ds as [|d ds IH]; intros v es fin Hwf Hsz Hv Hlen Hrun; pose proof (rev_cursor v Hv) as Hrv.
  - destruct Hrv as [_ Hrv]. assert (blockOf n (rev v) < 2 ^ n) by (apply Z.div_lt_upper_bound; lia). cbn in Hlen. lia.
  - apply Forall_cons in Hwf as [Hd Hds]. apply Forall_cons in Hsz as [Hsd Hsds].
    destruct (scan_cons d ds v Hd Hv) as (es1 & v' & hi & [Hc Hr Hnx _ _ Hal _] & Heq). rewrite Heq in Hrun. clear Heq.
    destruct (Z.eqb_spec v' 0) as [Hz|Hz]; [by injection Hrun|].
    destruct Hnx as [[? _]|[_ Hnx]]; [done|]. destruct (scan ds v') as [[es' fin']|] eqn:Hrun'; [|done].
    injection Hrun as _ <-. apply (IH v' es' fin' Hds Hsds Hc); [|done].
    specialize (Hal n Hn Hsd). apply Z.div_exact in Hal; [|lia].
    assert (blockOf n (rev v) < blockOf n (rev v')); [|cbn [length] in Hlen; lia].
    rewrite Hnx. unfold blockOf. apply Z.div_lt_upper_bound; lia.
Qed.

(** On a dictionary that does not change every entry is emitted once. *)
Lemma scan_exact n d ds : dict_wf d → 0 ≤ n ≤ 63 → scanSize d = 2 ^ n → ∀ v es, Forall (λ d', d' = d) ds → cursor v →
  rev v mod 2 ^ (64 - n) = 0 → scan ds v = Ok (es, true) → es ≡ₚ within (rev v) (2 ^ 64) (entries d).
Proof.
  intros Hd Hn Hsz. induction ds as [|d' ds IH]; intros v es Hall Hv Hal Hrun; [done|].
  apply Forall_cons in Hall as [-> Hall].
  destruct (scan_cons d ds v Hd Hv) as (es1 & v' & hi & [Hc Hr Hnx _ _ Hal' Hex] & Heq). rewrite Heq in Hrun. clear Heq.
  specialize (Hex n Hn Hsz Hal). specialize (Hal' n Hn ltac:(lia)).
  destruct (Z.eqb_spec v' 0) as [Hz|Hz].
  - injection Hrun as <-. destruct Hnx as [[_ ->]|[? _]]; [exact Hex|contradiction].
  - destruct Hnx as [[? _]|[_ <-]]; [contradiction|].
    destruct (scan ds v') as [[es' fin']|] eqn:Hrun'; [|discriminate Hrun].
    injection Hrun as <- ->. rewrite Hex, (IH v' es' Hall Hc Hal' Hrun'). apply within_split. lia.
Qed.

Lemma within_all es : within 0 (2 ^ 64) es = es.
Proof. apply filter_all. intros e _. apply rev_cursor, hash_cursor. Qed.

Lemma scan_constant d ds es : dict_wf d → Forall (λ d', d' = d) ds → scan ds 0 = Ok (es, true) → es ≡ₚ entries d.
Proof.
  intros Hd Hall Hrun. destruct (decide (dictSize d = 0)) as [Hz|Hz].
  - assert (entries d = []) as He.
    { rewrite dictSize_entries in Hz by done. destruct (entries d); [done|cbn in Hz; lia]. }
    destruct (scan_total ds 0) as (es' & fin & Hrun' & Hs);
      [eapply Forall_impl; [exact Hall|by intros d' ->]|done|].
    rewrite Hrun in Hrun'. injection Hrun' as <- _. destruct es as [|e es]; [by rewrite He|].
    destruct (Hs e) as (d' & Hd' & Hin); [left|]. rewrite Forall_forall in Hall. rewrite (Hall d' Hd'), He in Hin.
    by apply not_elem_of_nil in Hin.
  - destruct (dictScan_run 0 d Hd) as (n0 & n1 & _ & _ & _ & _ & _ & Hn & Hn1 & Hsz & _); [done|done|].
    rewrite <-(within_all (entries d)), <-rev_zero. eapply (scan_exact n0 d ds Hd ltac:(lia) Hsz 0); [done|done| |done].
    by rewrite rev_zero, Z.mod_0_l by (apply Z.pow_nonzero; lia).
Qed.

(** C34. The guarantee of SCAN: a sequence of calls of dictScan, each on the dictionary
    as it is at that time, however it was resized or rehashed in between, that ends
    with cursor 0 has returned every key that was present all the time, and nothing
    that was never there; it ends within as many calls as the largest table has
    buckets, and returns every entry exactly once when the dictionary does not
    change. *)
Theorem scan_guarantee (ds : list (dict K V)) : Forall dict_wf ds →
  ∃ es fin, scan ds 0 = Ok (es, fin) ∧
    (∀ e, e ∈ es → ∃ d, d ∈ ds ∧ e ∈ entries d) ∧
    (fin = true → ∀ k, Forall (λ d, is_Some (dictMap d !! k)) ds → k ∈ es.*1) ∧
    (∀ n, 0 ≤ n ≤ 63 → Forall (λ d, scanSize d ≤ 2 ^ n) ds → 2 ^ n ≤ Z.of_nat (length ds) → fin = true) ∧
    (∀ d, fin = true → Forall (λ d', d' = d) ds → es ≡ₚ entries d).
Proof.
  intros Hwf. destruct (scan_total ds 0 Hwf) as (es & fin & Hrun & Hsound); [done|].
  exists es, fin. split; [done|]. split; [done|]. split_and!.
  - intros -> k Hk. eapply scan_covers; [done|done|done| |rewrite rev_zero; apply rev_cursor, hash_cursor].
    eapply Forall_impl; [exact Hk|]. intros d [u Hu]. apply list_elem_of_fmap. exists (k, u). split; [done|].
    by apply elem_of_list_to_map_2 in Hu.
  - intros n Hn Hsz Hlen. eapply (scan_ends n); [done|done|done|done| |done]. rewrite rev_zero. unfold blockOf.
    rewrite Z.div_0_l by (apply Z.pow_nonzero; lia). lia.
  - intros d -> Hall. assert (dict_wf d) as Hd.
    { destruct ds as [|d' ds]; [done|]. apply Forall_cons in Hall as [-> _]. by apply Forall_cons in Hwf as [? _]. }
    by apply (scan_constant d ds).
Qed.

End ScanProps.

(** ** Witness: a scan during which the table grows from 4 to 8 buckets *)

Definition grownDict : dict nat nat :=
  match dictRehash (H := natHash) 5 growingDict with Ok (_, d) => d | Fault _ => growingDict end.

Lemma grownDict_wf : @dict_wf nat nat natHash grownDict.
Proof.
  destruct (dictRehash_run (H0 := natHash) 5 growingDict growingDict_wf) as (r & d & Hrun & [Hwf _] & _).
  unfold grownDict. by rewrite Hrun.
Qed.

Definition growingScan : list (dict nat nat) := growingDict :: replicate 7 grownDict.

Lemma scan_guarantee_witness :
  scanSize growingDict = 4 ∧ scanSize grownDict = 8 ∧
  ∃ es, scan growingScan 0 = Ok (es, true) ∧ 9%nat ∈ es.*1.
Proof.
  split; [vm_compute; reflexivity|]. split; [vm_compute; reflexivity|].
  destruct (@scan_guarantee nat nat _ _ natHash growingScan) as (es & fin & Hrun & _ & Hkey & Hends & _).
  - constructor; [exact growingDict_wf|]. apply Forall_replicate. exact grownDict_wf.
  - assert (fin = true) as ->.
    { apply (Hends 3); [lia| |vm_compute; discriminate].
      constructor; [vm_compute; discriminate|]. apply Forall_replicate. vm_compute. discriminate. }
    exists es. split; [exact Hrun|]. apply Hkey; [reflexivity|].
    constructor; [exists 19%nat; vm_compute; reflexivity|]. apply Forall_replicate. exists 19%nat. vm_compute. reflexivity.
Defined.
