(* ===== verification/Adlist.v ===== *)
(** * Adlist: the doubly linked lists of src/src/adlist.c

    Nodes live in a heap and point to each other; a list has its first and last
    node and its length.  Reading or writing a node that was freed is a fault.
    The [dup] and [match] methods are arguments of the operations that call them;
    [free] is NULL, as for the waiting lists of the backend, whose values are
    clients that live on.  Allocation does not fail. *)

From Stdlib Require Import Ascii String ZifyBool.
From stdpp Require Import base tactics option list strings numbers gmap fin_maps.
From S2P Require Import Prelude.

Local Open Scope Z_scope.

Abbreviation loc := nat.

Record listNode (V : Type) := mkNode {
  prev : option loc;
  next : option loc;
  value : V }.
Arguments mkNode {V} _ _ _.
Arguments prev {V} _.
Arguments next {V} _.
Arguments value {V} _.

Record adlist := mkList {
  l_head : option loc;
  l_tail : option loc;
  l_len : Z }.

(** The nodes that are allocated, and the next address. *)
Record heap (V : Type) := mkHeap {
  nodes : gmap loc (listNode V);
  brk : loc }.
Arguments mkHeap {V} _ _.
Arguments nodes {V} _.
Arguments brk {V} _.

(** [AL_START_HEAD] and [AL_START_TAIL]. *)
Inductive direction := AL_START_HEAD | AL_START_TAIL.

Record listIter := mkLIter {
  it_next : option loc;
  it_direction : direction }.

Section Adlist.
Context {V : Type}.
Notation heapM := (M (heap V)).

Definition set_prev (p : option loc) (n : listNode V) : listNode V := mkNode p (next n) (value n).
Definition set_next (p : option loc) (n : listNode V) : listNode V := mkNode (prev n) p (value n).

(** ** The heap *)

(** [zmalloc] of a node and its initialisation. *)
Definition newNode (n : listNode V) : heapM loc :=
  h ← get;
  put (mkHeap (<[brk h := n]> (nodes h)) (S (brk h))) ;;
  mret (brk h).

Definition readNode (l : loc) : heapM (listNode V) :=
  h ← get;
  match nodes h !! l with
  | Some n => mret n
  | None => fail (UseAfterFree "listNode")
  end.

Definition updNode (l : loc) (f : listNode V → listNode V) : heapM unit :=
  n ← readNode l;
  modify (λ h, mkHeap (<[l := f n]> (nodes h)) (brk h)).

Definition zfree (l : loc) : heapM unit :=
  readNode l ;;
  modify (λ h, mkHeap (delete l (nodes h)) (brk h)).

(** ** Lists *)

Definition listCreate : adlist := mkList None None 0.

(** [len] nodes from [current] on. *)
Fixpoint freeNodes (len : nat) (current : option loc) : heapM unit :=
  match len with
  | O => mret tt
  | S len =>
      l ← deref current "listEmpty";
      n ← readNode l;
      zfree l ;;
      freeNodes len (next n)
  end.

Definition listEmpty (L : adlist) : heapM adlist :=
  freeNodes (Z.to_nat (l_len L)) (l_head L) ;;
  mret (mkList None None 0).

Definition listRelease (L : adlist) : heapM unit := listEmpty L ;; mret tt.

Definition listAddNodeHead (L : adlist) (v : V) : heapM adlist :=
  if l_len L =? 0 then
    node ← newNode (mkNode None None v);
    mret (mkList (Some node) (Some node) (l_len L + 1))
  else
    node ← newNode (mkNode None (l_head L) v);
    head ← deref (l_head L) "listAddNodeHead";
    updNode head (set_prev (Some node)) ;;
    mret (mkList (Some node) (l_tail L) (l_len L + 1)).

Definition listAddNodeTail (L : adlist) (v : V) : heapM adlist :=
  if l_len L =? 0 then
    node ← newNode (mkNode None None v);
    mret (mkList (Some node) (Some node) (l_len L + 1))
  else
    node ← newNode (mkNode (l_tail L) None v);
    tail ← deref (l_tail L) "listAddNodeTail";
    updNode tail (set_next (Some node)) ;;
    mret (mkList (l_head L) (Some node) (l_len L + 1)).

(** A write through a pointer that may be NULL. *)
Definition updIf (p : option loc) (f : listNode V → listNode V) : heapM unit :=
  match p with Some l => updNode l f | None => mret tt end.

Definition listInsertNode (L : adlist) (old_node : loc) (v : V) (after : bool) : heapM adlist :=
  old ← readNode old_node;
  let np := if after then Some old_node else prev old in
  let nn := if after then next old else Some old_node in
  node ← newNode (mkNode np nn v);
  updIf np (set_next (Some node)) ;;
  updIf nn (set_prev (Some node)) ;;
  mret (mkList
    (if negb after && bool_decide (l_head L = Some old_node) then Some node else l_head L)
    (if after && bool_decide (l_tail L = Some old_node) then Some node else l_tail L)
    (l_len L + 1)).

Definition listDelNode (L : adlist) (node : loc) : heapM adlist :=
  n ← readNode node;
  updIf (prev n) (set_next (next n)) ;;
  n ← readNode node;
  updIf (next n) (set_prev (prev n)) ;;
  zfree node ;;
  mret (mkList
    (match prev n with Some _ => l_head L | None => next n end)
    (match next n with Some _ => l_tail L | None => prev n end)
    (l_len L - 1)).

(** ** Iterators *)

Definition listGetIterator (L : adlist) (d : direction) : listIter :=
  mkLIter (match d with AL_START_HEAD => l_head L | AL_START_TAIL => l_tail L end) d.

Definition listRewind (L : adlist) : listIter := mkLIter (l_head L) AL_START_HEAD.
Definition listRewindTail (L : adlist) : listIter := mkLIter (l_tail L) AL_START_TAIL.

Definition listNext (li : listIter) : heapM (option loc * listIter) :=
  match it_next li with
  | None => mret (None, li)
  | Some current =>
      n ← readNode current;
      mret (Some current,
            mkLIter (match it_direction li with AL_START_HEAD => next n | AL_START_TAIL => prev n end)
              (it_direction li))
  end.

(** The loop [while ((node = listNext(&iter)) != NULL)] with a state; the body
    stops the loop with [inr].  One round for each node is enough. *)
Fixpoint listLoop {A R} (fuel : nat) (body : loc → A → heapM (A + R)) (li : listIter) (a : A) :
    heapM (A + R) :=
  match fuel with
  | O => fail (AssertFailed "listNext: fuel")
  | S fuel =>
      r ← listNext li;
      match r with
      | (None, _) => mret (inl a)
      | (Some node, li') =>
          x ← body node a;
          match x with
          | inl a' => listLoop fuel body li' a'
          | inr r => mret (inr r)
          end
      end
  end.

Definition rounds (L : adlist) : nat := S (Z.to_nat (l_len L)).

Definition dupValue (dup : option (V → option V)) (v : V) : option V :=
  match dup with Some dup => dup v | None => Some v end.

Definition dupBody (dup : option (V → option V)) (node : loc) (copy : adlist) : heapM (adlist + adlist) :=
  n ← readNode node;
  match dupValue dup (value n) with
  | None => mret (inr copy)
  | Some v => copy' ← listAddNodeTail copy v; mret (inl copy')
  end.

(** The copy, or [None] when the [dup] method fails on a value. *)
Definition listDup (dup : option (V → option V)) (orig : adlist) : heapM (option adlist) :=
  r ← listLoop (rounds orig) (dupBody dup) (listRewind orig) listCreate;
  match r with
  | inl copy => mret (Some copy)
  | inr copy => listRelease copy ;; mret None
  end.

Definition matchValue `{EqDecision V} (match_ : option (V → V → bool)) (key v : V) : bool :=
  match match_ with Some match_ => match_ v key | None => bool_decide (key = v) end.

Definition searchBody `{EqDecision V} (match_ : option (V → V → bool)) (key : V) (node : loc) (_ : unit) :
    heapM (unit + loc) :=
  n ← readNode node;
  mret (if matchValue match_ key (value n) then inr node else inl tt).

Definition listSearchKey `{EqDecision V} (match_ : option (V → V → bool)) (L : adlist) (key : V) :
    heapM (option loc) :=
  r ← listLoop (rounds L) (searchBody match_ key) (listRewind L) tt;
  match r with inl _ => mret None | inr node => mret (Some node) end.

(** The loops of [listIndex]. *)
Fixpoint walk (index : nat) (d : direction) (n : option loc) : heapM (option loc) :=
  match index, n with
  | O, _ => mret n
  | S _, None => mret None
  | S index, Some l =>
      nd ← readNode l;
      walk index d (match d with AL_START_HEAD => next nd | AL_START_TAIL => prev nd end)
  end.

Definition listIndex (L : adlist) (index : Z) : heapM (option loc) :=
  if index <? 0 then walk (Z.to_nat (- index - 1)) AL_START_TAIL (l_tail L)
  else walk (Z.to_nat index) AL_START_HEAD (l_head L).

(** ** Rotation and concatenation *)

Definition listRotateTailToHead (L : adlist) : heapM adlist :=
  if l_len L <=? 1 then mret L else
  tail ← deref (l_tail L) "listRotateTailToHead";
  t ← readNode tail;
  tail' ← deref (prev t) "listRotateTailToHead";
  updNode tail' (set_next None) ;;
  head ← deref (l_head L) "listRotateTailToHead";
  updNode head (set_prev (Some tail)) ;;
  updNode tail (set_prev None) ;;
  updNode tail (set_next (Some head)) ;;
  mret (mkList (Some tail) (Some tail') (l_len L)).

Definition listRotateHeadToTail (L : adlist) : heapM adlist :=
  if l_len L <=? 1 then mret L else
  head ← deref (l_head L) "listRotateHeadToTail";
  h ← readNode head;
  head' ← deref (next h) "listRotateHeadToTail";
  updNode head' (set_prev None) ;;
  tail ← deref (l_tail L) "listRotateHeadToTail";
  updNode tail (set_next (Some head)) ;;
  updNode head (set_next None) ;;
  updNode head (set_prev (Some tail)) ;;
  mret (mkList (Some head') (Some head) (l_len L)).

(** The two lists after the call: [l] with all the elements, [o] empty. *)
Definition listJoin (l o : adlist) : heapM (adlist * adlist) :=
  updIf (l_head o) (set_prev (l_tail l)) ;;
  updIf (l_tail l) (set_next (l_head o)) ;;
  mret (mkList (match l_tail l with Some _ => l_head l | None => l_head o end)
          (match l_tail o with Some _ => l_tail o | None => l_tail l end)
          (l_len l + l_len o),
        mkList None None 0).

(** ** The loop of [releaseWhenFreeClient]

    [while ((ln = listNext(&lit))) if (listNodeValue(ln) == c) listDelNode(clients, ln);] *)
Definition releaseBody `{EqDecision V} (c : V) (ln : loc) (clients : adlist) : heapM (adlist + unit) :=
  n ← readNode ln;
  if bool_decide (value n = c) then clients' ← listDelNode clients ln; mret (inl clients')
  else mret (inl clients).

Definition releaseLoop `{EqDecision V} (c : V) (clients : adlist) : heapM adlist :=
  r ← listLoop (rounds clients) (releaseBody c) (listRewind clients) clients;
  match r with inl L => mret L | inr _ => mret clients end.

End Adlist.
