(* ===== verification/AdlistProps.v ===== *)
(** * AdlistProps: the linked lists implement sequences

    [rep h L ls]: in heap [h] the list [L] has the nodes and values [ls], in
    order.  Every operation is run to its end and related to the operation on
    sequences; nodes of other lists are not touched. *)

From Stdlib Require Import Ascii String ZifyBool.
From stdpp Require Import base tactics option list strings numbers gmap fin_maps.
From S2P Require Import Prelude Adlist.

Local Open Scope Z_scope.

Section Segments.
Context {V : Type}.
Implicit Types (m : gmap loc (listNode V)) (ls : list (loc * V)) (p n : option loc).

(** The first node of a segment, or what follows it; the last one, or what
    precedes it. *)
Definition firstOf ls n : option loc := match ls with [] => n | (l, _) :: _ => Some l end.

Fixpoint lastOf ls p : option loc := match ls with [] => p | (l, _) :: ls => lastOf ls (Some l) end.

(** A doubly linked segment between the pointers [p] and [n]. *)
Fixpoint dls m p ls n : Prop :=
  match ls with
  | [] => True
  | (l, v) :: ls => m !! l = Some (mkNode p (firstOf ls n) v) ∧ dls m (Some l) ls n
  end.

Lemma firstOf_app ls1 ls2 n : firstOf (ls1 ++ ls2) n = firstOf ls1 (firstOf ls2 n).
Proof. by destruct ls1 as [|[]]. Qed.

Lemma lastOf_app ls1 ls2 p : lastOf (ls1 ++ ls2) p = lastOf ls2 (lastOf ls1 p).
Proof. revert p. induction ls1 as [|[l v] ls1 IH]; intros p; [done|]. apply IH. Qed.

Lemma dls_app m p ls1 ls2 n :
  dls m p (ls1 ++ ls2) n ↔ dls m p ls1 (firstOf ls2 n) ∧ dls m (lastOf ls1 p) ls2 n.
Proof.
  revert p. induction ls1 as [|[l v] ls1 IH]; intros p; cbn; [naive_solver|].
  rewrite IH, firstOf_app. naive_solver.
Qed.

Lemma dls_frame m m' p ls n :
  (∀ l, l ∈ ls.*1 → m' !! l = m !! l) → dls m p ls n → dls m' p ls n.
Proof.
  revert p. induction ls as [|[l v] ls IH]; intros p Hm; cbn; [done|]. intros [Hl Hls]. split.
  - rewrite Hm; [done|]. by left.
  - apply IH; [|done]. intros l' Hl'. apply Hm. by right.
Qed.

Lemma dls_is_Some m p ls n l : dls m p ls n → l ∈ ls.*1 → is_Some (m !! l).
Proof.
  revert p. induction ls as [|[l' v] ls IH]; intros p; cbn; [by intros _ ?%not_elem_of_nil|].
  intros [Hl Hls] [->|Hin]%elem_of_cons; [by eexists|by eapply IH].
Qed.

(** An update through a pointer that may be NULL. *)
Definition alterIf p (f : listNode V → listNode V) m : gmap loc (listNode V) :=
  match p with Some l => alter f l m | None => m end.

Lemma alterIf_ne p f m l : p ≠ Some l → alterIf p f m !! l = m !! l.
Proof. destruct p as [l'|]; [|done]. intros Hne. apply lookup_alter_ne. congruence. Qed.

(** Relinking the ends of a segment. *)
Lemma dls_set_prev m p p' ls n : dls m p ls n → NoDup ls.*1 →
  dls (alterIf (firstOf ls None) (set_prev p') m) p' ls n.
Proof.
  destruct ls as [|[l v] ls]; cbn; [done|]. intros [Hl Hls] [Hni _]%NoDup_cons. split.
  - by rewrite lookup_alter_eq, Hl.
  - eapply dls_frame; [|done]. intros l' Hl'. apply lookup_alter_ne. by intros ->.
Qed.

Lemma dls_set_next m p ls n n' : dls m p ls n → NoDup ls.*1 →
  dls (alterIf (lastOf ls None) (set_next n') m) p ls n'.
Proof.
  destruct ls as [|[l v] ls _] using rev_ind; [done|]. rewrite lastOf_app. cbn [lastOf alterIf].
  rewrite fmap_app. intros [H1 [H2 _]]%dls_app (_ & Hd & _)%NoDup_app. apply dls_app. cbn in *. split.
  - eapply dls_frame; [|done]. intros l' Hl'. apply lookup_alter_ne. intros ->. apply (Hd l'); [done|by left].
  - by rewrite lookup_alter_eq, H2.
Qed.

Lemma firstOf_elem ls n l : firstOf ls n = Some l → n ≠ Some l → l ∈ ls.*1.
Proof. destruct ls as [|[l' v] ls]; cbn; [done|]. intros [= ->] _. by left. Qed.

Lemma lastOf_elem ls p l : lastOf ls p = Some l → p ≠ Some l → l ∈ ls.*1.
Proof.
  destruct ls as [|[l' v] ls _] using rev_ind; [done|]. rewrite lastOf_app. cbn. intros [= ->] _.
  rewrite fmap_app. cbn. set_solver.
Qed.

Lemma lastOf_ne ls p : ls ≠ [] → lastOf ls p = lastOf ls None.
Proof. by destruct ls as [|[]]. Qed.

(** Linking a new node between two segments. *)
Lemma dls_insert m A B b v :
  dls m None (A ++ B) None → NoDup (A ++ B).*1 → b ∉ (A ++ B).*1 →
  dls (alterIf (firstOf B None) (set_prev (Some b)) (alterIf (lastOf A None) (set_next (Some b))
         (<[b := mkNode (lastOf A None) (firstOf B None) v]> m))) None (A ++ (b, v) :: B) None.
Proof.
  intros [HA HB]%dls_app. rewrite fmap_app. intros (HndA & Hdisj & HndB)%NoDup_app [HbA HbB]%not_elem_of_app.
  set (m1 := <[b := _]> m). assert (∀ l, l ≠ b → m1 !! l = m !! l) as Hm1 by (intros; by apply lookup_insert_ne).
  assert (∀ l, l ∈ B.*1 → lastOf A None ≠ Some l) as HlA.
  { intros l Hl Ha. apply lastOf_elem in Ha; [|done]. by apply (Hdisj l). }
  assert (∀ l, l ∈ A.*1 → firstOf B None ≠ Some l) as HfB.
  { intros l Hl Hb. apply firstOf_elem in Hb; [|done]. by apply (Hdisj l). }
  apply dls_app. cbn [firstOf dls]. split_and!.
  - eapply dls_frame; [|apply (dls_set_next m1 None A (firstOf B None)); [|done]].
    + intros l Hl. apply alterIf_ne. by apply HfB.
    + eapply dls_frame; [|done]. intros l Hl. apply Hm1. by intros ->.
  - rewrite !alterIf_ne; [apply lookup_insert_eq|..].
    + intros Ha. apply lastOf_elem in Ha; done.
    + intros Hb. apply firstOf_elem in Hb; done.
  - apply (dls_set_prev _ (lastOf A None)); [|done]. eapply dls_frame; [|done]. intros l Hl.
    rewrite alterIf_ne by by apply HlA. apply Hm1. by intros ->.
Qed.

(** Unlinking a node between two segments. *)
Lemma dls_delete m A B l v :
  dls m None (A ++ (l, v) :: B) None → NoDup (A ++ (l, v) :: B).*1 →
  dls (delete l (alterIf (firstOf B None) (set_prev (lastOf A None))
                   (alterIf (lastOf A None) (set_next (firstOf B None)) m))) None (A ++ B) None.
Proof.
  intros [HA [Hl HB]]%dls_app. rewrite fmap_app. cbn. intros (HndA & Hdisj & [HlB HndB]%NoDup_cons)%NoDup_app.
  assert (∀ l', l' ∈ B.*1 → lastOf A None ≠ Some l') as HlA.
  { intros l' Hl' Ha. apply lastOf_elem in Ha; [|done]. apply (Hdisj l'); [done|by right]. }
  assert (∀ l', l' ∈ A.*1 → firstOf B None ≠ Some l') as HfB.
  { intros l' Hl' Hb. apply firstOf_elem in Hb; [|done]. apply (Hdisj l'); [done|by right]. }
  apply dls_app. split.
  - eapply dls_frame; [|apply (dls_set_next m None A (Some l)); [done|done]].
    intros l' Hl'. rewrite lookup_delete_ne by (intros ->; apply (Hdisj l'); [done|by left]).
    apply alterIf_ne. by apply HfB.
  - eapply dls_frame; [|apply (dls_set_prev (alterIf (lastOf A None) (set_next (firstOf B None)) m) (Some l)); [|done]].
    + intros l' Hl'. by rewrite lookup_delete_ne by (by intros ->).
    + eapply dls_frame; [|done]. intros l' Hl'. apply alterIf_ne. by apply HlA.
Qed.

End Segments.

(** ** Lists in the heap *)

Section Reps.
Context {V : Type}.
Implicit Types (h : heap V) (L : adlist) (ls A B : list (loc * V)).

Record rep h L ls : Prop := {
  rep_head : l_head L = firstOf ls None;
  rep_tail : l_tail L = lastOf ls None;
  rep_len : l_len L = Z.of_nat (length ls);
  rep_nodup : NoDup ls.*1;
  rep_dls : dls (nodes h) None ls None;
  rep_brk : ∀ l, is_Some (nodes h !! l) → (l < brk h)%nat }.

(** What an operation on the nodes [ls] leaves alone. *)
Definition others ls h h' : Prop :=
  (brk h ≤ brk h')%nat ∧ ∀ l, l ∉ ls.*1 → (l < brk h)%nat → nodes h' !! l = nodes h !! l.

(** Another list in the same heap. *)
Lemma rep_others h h' L ls ls' :
  rep h L ls → others ls' h h' → (∀ l, is_Some (nodes h' !! l) → (l < brk h')%nat) → ls.*1 ## ls'.*1 → rep h' L ls.
Proof.
  intros [? ? ? ? Hd Hb] [Hle Ho] Hb' Hdisj. split; [done..| |done]. eapply dls_frame; [|done].
  intros l Hl. apply Ho; [set_solver|]. apply Hb. by eapply dls_is_Some.
Qed.

Lemma readNode_run l n h : nodes h !! l = Some n → readNode l h = Ok (n, h).
Proof. intros Hl. unfold readNode. rewrite (bind_run get _ h h h) by done. by rewrite Hl. Qed.

Lemma updNode_run l f h : is_Some (nodes h !! l) →
  updNode l f h = Ok (tt, mkHeap (alter f l (nodes h)) (brk h)).
Proof.
  intros [n Hn]. unfold updNode. erewrite bind_run by by apply readNode_run. unfold modify. do 3 f_equal.
  apply map_eq. intros l'. destruct (decide (l' = l)) as [->|Hne].
  - by rewrite lookup_insert_eq, lookup_alter_eq, Hn.
  - by rewrite lookup_insert_ne, lookup_alter_ne.
Qed.

Lemma updIf_run p f h : (∀ l, p = Some l → is_Some (nodes h !! l)) →
  updIf p f h = Ok (tt, mkHeap (alterIf p f (nodes h)) (brk h)).
Proof. intros Hp. destruct p as [l|]; cbn; [by apply updNode_run, Hp|by destruct h]. Qed.

Lemma zfree_run l h : is_Some (nodes h !! l) → zfree l h = Ok (tt, mkHeap (delete l (nodes h)) (brk h)).
Proof. intros [n Hn]. unfold zfree. by erewrite bind_run by by apply readNode_run. Qed.

Lemma alterIf_is_Some p f (m : gmap loc (listNode V)) l : is_Some (alterIf p f m !! l) ↔ is_Some (m !! l).
Proof. destruct p; cbn; [|done]. by rewrite lookup_alter_is_Some. Qed.

Lemma listCreate_rep h : (∀ l, is_Some (nodes h !! l) → (l < brk h)%nat) → rep h listCreate [].
Proof. intros Hb. split; cbn; [done..|apply NoDup_nil_2|done|done]. Qed.

Lemma rep_nil h L ls : rep h L ls → l_len L = 0 ↔ ls = [].
Proof. intros Hr. rewrite (rep_len _ _ _ Hr). destruct ls; cbn; naive_solver lia. Qed.

(** ** Insertion *)

(** The heap and the list with a new node between two segments. *)
Definition insertedHeap h A B (v : V) : heap V :=
  mkHeap (alterIf (firstOf B None) (set_prev (Some (brk h))) (alterIf (lastOf A None) (set_next (Some (brk h)))
            (<[brk h := mkNode (lastOf A None) (firstOf B None) v]> (nodes h)))) (S (brk h)).

Definition insertedList h A B : adlist :=
  mkList (firstOf A (Some (brk h))) (lastOf B (Some (brk h))) (Z.of_nat (length (A ++ B)) + 1).

Lemma brk_fresh h L ls : rep h L ls → brk h ∉ ls.*1.
Proof. intros Hr Hin. pose proof (rep_brk _ _ _ Hr _ (dls_is_Some _ _ _ _ _ (rep_dls _ _ _ Hr) Hin)). lia. Qed.

Lemma inserted_rep h L A B v : rep h L (A ++ B) →
  rep (insertedHeap h A B v) (insertedList h A B) (A ++ (brk h, v) :: B) ∧
  others (A ++ B) h (insertedHeap h A B v).
Proof.
  intros Hr. pose proof (brk_fresh _ _ _ Hr) as Hb. pose proof Hr as [_ _ _ Hnd Hd Hbrk]. split.
  - split; cbn [insertedList l_head l_tail l_len nodes brk insertedHeap].
    + by rewrite firstOf_app.
    + by rewrite lastOf_app.
    + rewrite !length_app. cbn. lia.
    + rewrite fmap_app in *. cbn. rewrite <-Permutation_middle. apply NoDup_cons. done.
    + by apply dls_insert.
    + intros l. rewrite !alterIf_is_Some. intros [Hl|[_ Hl]]%lookup_insert_is_Some; [lia|].
      apply Hbrk in Hl. lia.
  - split; cbn; [lia|]. rewrite fmap_app in *. intros l [HlA HlB]%not_elem_of_app Hlt.
    rewrite !alterIf_ne; [apply lookup_insert_ne; lia|..].
    + intros Ha. apply lastOf_elem in Ha; done.
    + intros Ha. apply firstOf_elem in Ha; done.
Qed.

Lemma newNode_run n h : newNode n h = Ok (brk h, mkHeap (<[brk h := n]> (nodes h)) (S (brk h))).
Proof. done. Qed.

Lemma firstOf_Some h L A B l n : rep h L (A ++ B) → firstOf B None = Some l → is_Some (<[brk h := n]> (nodes h) !! l).
Proof.
  intros Hr Hl. apply lookup_insert_is_Some'. right. eapply dls_is_Some; [apply Hr|].
  apply firstOf_elem in Hl; [|done]. rewrite fmap_app. set_solver.
Qed.

Lemma lastOf_Some h L A B l n : rep h L (A ++ B) → lastOf A None = Some l → is_Some (<[brk h := n]> (nodes h) !! l).
Proof.
  intros Hr Hl. apply lookup_insert_is_Some'. right. eapply dls_is_Some; [apply Hr|].
  apply lastOf_elem in Hl; [|done]. rewrite fmap_app. set_solver.
Qed.

Lemma listAddNodeTail_run h L ls v : rep h L ls →
  listAddNodeTail L v h = Ok (insertedList h ls [], insertedHeap h ls [] v).
Proof.
  intros Hr. pose proof Hr as [Hh Ht Hlen _ _ _]. unfold listAddNodeTail, insertedList, insertedHeap.
  rewrite app_nil_r, <-Hlen. destruct (l_len L =? 0) eqn:Hz.
  { apply Z.eqb_eq, (rep_nil _ _ _ Hr) in Hz as ->. cbn. by rewrite Hlen. }
  assert (ls ≠ []) as Hne by (intros ->; cbn in Hlen; lia).
  erewrite bind_run by apply newNode_run. rewrite Ht.
  destruct (lastOf ls None) as [t|] eqn:Hlast; [|by destruct ls as [|[l u] ls _] using rev_ind; [|rewrite lastOf_app in Hlast]].
  erewrite bind_run by done.
  erewrite bind_run by (apply updNode_run; by eapply (lastOf_Some h L ls []); [rewrite app_nil_r|]).
  cbn. rewrite Hh. by destruct ls as [|[]].
Qed.

Lemma listAddNodeHead_run h L ls v : rep h L ls →
  listAddNodeHead L v h = Ok (insertedList h [] ls, insertedHeap h [] ls v).
Proof.
  intros Hr. pose proof Hr as [Hh Ht Hlen _ _ _]. unfold listAddNodeHead, insertedList, insertedHeap.
  cbn [app]. rewrite <-Hlen. destruct (l_len L =? 0) eqn:Hz.
  { apply Z.eqb_eq, (rep_nil _ _ _ Hr) in Hz as ->. cbn. by rewrite Hlen. }
  assert (ls ≠ []) as Hne by (intros ->; cbn in Hlen; lia).
  erewrite bind_run by apply newNode_run. rewrite Hh.
  destruct (firstOf ls None) as [t|] eqn:Hfirst; [|by destruct ls as [|[]]]. erewrite bind_run by done.
  erewrite bind_run by (apply updNode_run; by eapply (firstOf_Some h L [] ls)).
  cbn. by rewrite Ht, (lastOf_ne ls (Some _)).
Qed.

(** The node of a list at a place. *)
Lemma rep_node h L A l v B : rep h L (A ++ (l, v) :: B) →
  nodes h !! l = Some (mkNode (lastOf A None) (firstOf B None) v).
Proof. intros Hr. pose proof (rep_dls _ _ _ Hr) as [_ [Hl _]]%dls_app. done. Qed.

Lemma lastOf_snoc A (l : loc) (v : V) p : lastOf (A ++ [(l, v)]) p = Some l.
Proof. by rewrite lastOf_app. Qed.

(** The ends of the list after the insertion next to node [l]. *)
Lemma insertedList_ends h A l (u : V) B (after : bool) : NoDup (A ++ (l, u) :: B).*1 →
  let A' := if after then A ++ [(l, u)] else A in
  let B' := if after then B else (l, u) :: B in
  let ls := A ++ (l, u) :: B in
  (if negb after && bool_decide (firstOf ls None = Some l) then Some (brk h) else firstOf ls None) =
    firstOf A' (Some (brk h)) ∧
  (if after && bool_decide (lastOf ls None = Some l) then Some (brk h) else lastOf ls None) =
    lastOf B' (Some (brk h)).
Proof.
  intros Hnd A' B' ls. unfold A', B', ls. rewrite fmap_app in Hnd. cbn in Hnd.
  apply NoDup_app in Hnd as (_ & Hdisj & [Hl _]%NoDup_cons). rewrite lastOf_app. destruct after; cbn [negb andb].
  - split; [by destruct A as [|[]]|]. cbn. destruct B as [|[l' v'] B]; cbn; [by rewrite bool_decide_eq_true_2|].
    rewrite bool_decide_eq_false_2; [done|]. intros Hlast.
    assert (l ∈ ((l', v') :: B).*1) as Hin; [|done]. apply (lastOf_elem _ None); [by rewrite <-Hlast|done].
  - split; [|done]. destruct A as [|[a w] A]; cbn; [by rewrite bool_decide_eq_true_2|].
    rewrite bool_decide_eq_false_2; [done|]. intros [= ->]. apply (Hdisj l); by left.
Qed.

Lemma listInsertNode_run h L A l u B v (after : bool) : rep h L (A ++ (l, u) :: B) →
  let A' := if after then A ++ [(l, u)] else A in
  let B' := if after then B else (l, u) :: B in
  listInsertNode L l v after h = Ok (insertedList h A' B', insertedHeap h A' B' v).
Proof.
  intros Hr A' B'. assert (A' ++ B' = A ++ (l, u) :: B) as Heq.
  { unfold A', B'. destruct after; [|done]. by rewrite <-(assoc_L (++)). }
  pose proof Hr as [Hh Ht Hlen Hnd _ _]. unfold listInsertNode.
  erewrite bind_run by by apply readNode_run, (rep_node h L A l u B).
  cbn [prev next].
  assert ((if after then Some l else lastOf A None) = lastOf A' None) as ->.
  { unfold A'. destruct after; [by rewrite lastOf_snoc|done]. }
  assert ((if after then firstOf B None else Some l) = firstOf B' None) as -> by by destruct after.
  erewrite bind_run by apply newNode_run. rewrite <-Heq in Hr.
  erewrite bind_run by (apply updIf_run; intros; by eapply (lastOf_Some h L A' B')).
  erewrite bind_run; [|apply updIf_run; intros l' Hl'; apply alterIf_is_Some; by eapply (firstOf_Some h L A' B')].
  destruct (insertedList_ends h A l u B after Hnd) as [He1 He2].
  unfold insertedList, insertedHeap, mret, M_ret. rewrite Hh, Ht, Hlen, Heq. cbn [nodes brk].
  by rewrite He1, He2.
Qed.

(** ** Deletion *)

Definition deletedHeap h A l B : heap V :=
  mkHeap (delete l (alterIf (firstOf B None) (set_prev (lastOf A None))
            (alterIf (lastOf A None) (set_next (firstOf B None)) (nodes h)))) (brk h).

Definition deletedList A B : adlist :=
  mkList (firstOf A (firstOf B None)) (lastOf B (lastOf A None)) (Z.of_nat (length (A ++ B))).

Lemma deleted_rep h L A l v B : rep h L (A ++ (l, v) :: B) →
  rep (deletedHeap h A l B) (deletedList A B) (A ++ B) ∧ others (A ++ (l, v) :: B) h (deletedHeap h A l B) ∧
  nodes (deletedHeap h A l B) !! l = None.
Proof.
  intros [_ _ _ Hnd Hd Hbrk]. split_and!.
  - split; cbn [deletedList l_head l_tail l_len nodes brk deletedHeap].
    + by rewrite firstOf_app.
    + by rewrite lastOf_app.
    + done.
    + rewrite fmap_app in *. cbn in Hnd. rewrite <-Permutation_middle in Hnd. by apply NoDup_cons in Hnd as [_ ?].
    + by eapply dls_delete.
    + intros l' [_ Hl']%lookup_delete_is_Some. rewrite !alterIf_is_Some in Hl'. by apply Hbrk.
  - split; cbn; [done|]. rewrite fmap_app. cbn. intros l' [HA [Hne HB]%not_elem_of_cons]%not_elem_of_app _.
    rewrite lookup_delete_ne, !alterIf_ne; [done|..|done].
    + intros Ha. apply lastOf_elem in Ha; done.
    + intros Ha. apply firstOf_elem in Ha; done.
  - cbn. apply lookup_delete_eq.
Qed.

Lemma listDelNode_run h L A l v B : rep h L (A ++ (l, v) :: B) →
  listDelNode L l h = Ok (deletedList A B, deletedHeap h A l B).
Proof.
  intros Hr. pose proof Hr as [Hh Ht Hlen Hnd Hd _]. pose proof (rep_node h L A l v B Hr) as Hl.
  rewrite fmap_app in Hnd. cbn in Hnd. apply NoDup_app in Hnd as (_ & Hdisj & [HlB _]%NoDup_cons).
  assert (lastOf A None ≠ Some l) as HneA.
  { intros Ha. apply lastOf_elem in Ha; [|done]. apply (Hdisj l); [done|by left]. }
  assert (firstOf B None ≠ Some l) as HneB by (intros Hb; by apply firstOf_elem in Hb).
  assert (∀ l', l' ∈ (A ++ (l, v) :: B).*1 → is_Some (nodes h !! l')) as Hin by (intros; by eapply dls_is_Some).
  rewrite fmap_app in Hin. unfold listDelNode. erewrite bind_run by by apply readNode_run. cbn [prev next].
  erewrite bind_run.
  2:{ apply updIf_run. intros l' Hl'. apply Hin. apply lastOf_elem in Hl'; [set_solver|done]. }
  erewrite bind_run by (apply readNode_run; cbn [nodes]; by rewrite alterIf_ne). cbn [prev next].
  erewrite bind_run.
  2:{ apply updIf_run. intros l' Hl'. cbn [nodes]. rewrite alterIf_is_Some. apply Hin.
      apply firstOf_elem in Hl'; [set_solver|done]. }
  erewrite bind_run.
  2:{ apply zfree_run. cbn [nodes]. rewrite !alterIf_is_Some. by eexists. }
  unfold mret, M_ret, deletedList, deletedHeap. cbn [nodes brk]. rewrite Hh, Ht, Hlen, firstOf_app, lastOf_app.
  cbn [firstOf lastOf]. do 3 f_equal.
  - destruct A as [|[a w] A _] using rev_ind; [done|]. rewrite lastOf_snoc. by destruct A as [|[]].
  - destruct B as [|[b w] B]; [done|]. cbn [firstOf]. by rewrite (lastOf_ne _ (Some l)), (lastOf_ne _ (lastOf A None)).
  - rewrite !length_app. cbn. lia.
Qed.

(** ** Emptying a list *)

Definition without (ls : list (loc * V)) (m : gmap loc (listNode V)) : gmap loc (listNode V) :=
  foldl (λ m l, delete l m) m ls.*1.

Lemma without_elem ls m l : l ∈ ls.*1 → without ls m !! l = None.
Proof.
  unfold without. induction ls as [|x ls IH] using rev_ind; cbn; [by intros ?%not_elem_of_nil|].
  rewrite fmap_app, foldl_app. cbn [foldl fmap list_fmap]. intros [Hin|Hin]%elem_of_app.
  - rewrite lookup_delete_None. right. by apply IH.
  - cbn in Hin. apply list_elem_of_singleton in Hin as ->. apply lookup_delete_eq.
Qed.

Lemma without_not_elem ls m l : l ∉ ls.*1 → without ls m !! l = m !! l.
Proof.
  unfold without. induction ls as [|x ls IH] using rev_ind; cbn; [done|].
  rewrite fmap_app, foldl_app. cbn [foldl fmap list_fmap]. intros [Hin Hne]%not_elem_of_app. cbn in Hne.
  rewrite lookup_delete_ne by (intros <-; apply Hne; by left). by apply IH.
Qed.

Lemma freeNodes_run h p ls : dls (nodes h) p ls None → NoDup ls.*1 →
  freeNodes (length ls) (firstOf ls None) h = Ok (tt, mkHeap (without ls (nodes h)) (brk h)).
Proof.
  revert h p. induction ls as [|[l v] ls IH]; intros h p; cbn [freeNodes length firstOf]; [by destruct h|].
  intros [Hl Hls] [Hni Hnd]%NoDup_cons. erewrite bind_run by done.
  erewrite bind_run by by apply readNode_run. erewrite bind_run by by apply zfree_run; eexists. cbn [next].
  erewrite IH; [done| |done]. eapply dls_frame; [|done]. intros l' Hl'. cbn. rewrite lookup_delete_ne; [done|].
  by intros ->.
Qed.

Lemma listEmpty_run h L ls : rep h L ls →
  listEmpty L h = Ok (listCreate, mkHeap (without ls (nodes h)) (brk h)).
Proof.
  intros [Hh _ Hlen Hnd Hd _]. unfold listEmpty. rewrite Hlen, Hh, Nat2Z.id.
  by erewrite bind_run by by eapply freeNodes_run.
Qed.

Lemma emptied_rep h L ls : rep h L ls →
  rep (mkHeap (without ls (nodes h)) (brk h)) listCreate [] ∧ others ls h (mkHeap (without ls (nodes h)) (brk h)).
Proof.
  intros Hr. split.
  - apply listCreate_rep. cbn. intros l Hl. destruct (decide (l ∈ ls.*1)) as [Hin|Hni].
    + rewrite without_elem in Hl by done. by destruct Hl.
    + rewrite without_not_elem in Hl by done. by eapply rep_brk.
  - split; cbn; [done|]. intros l Hl _. by apply without_not_elem.
Qed.

(** ** Rotation and concatenation *)

Lemma rotated_tail_dls m A l v : A ≠ [] → dls m None (A ++ [(l, v)]) None → NoDup (A ++ [(l, v)]).*1 →
  dls (alter (set_next (firstOf A None)) l (alter (set_prev None) l
        (alterIf (firstOf A None) (set_prev (Some l)) (alterIf (lastOf A None) (set_next None) m))))
    None ((l, v) :: A) None.
Proof.
  intros Hne [HA [Hl _]]%dls_app. rewrite fmap_app. intros (HndA & Hdisj & _)%NoDup_app.
  assert (l ∉ A.*1) as HlA by (intros Hin; apply (Hdisj l Hin); cbn; by left).
  cbn [dls]. split.
  - rewrite !lookup_alter_eq, !alterIf_ne, Hl; [done|..].
    + intros Ha. by apply lastOf_elem in Ha.
    + intros Ha. by apply firstOf_elem in Ha.
  - eapply dls_frame; [|eapply dls_set_prev; [by eapply dls_set_next|done]].
    intros l' Hl'. by rewrite !lookup_alter_ne by by intros ->.
Qed.

Lemma rotated_head_dls m B l v : B ≠ [] → dls m None ((l, v) :: B) None → NoDup ((l, v) :: B).*1 →
  dls (alter (set_prev (lastOf B None)) l (alter (set_next None) l
        (alterIf (lastOf B None) (set_next (Some l)) (alterIf (firstOf B None) (set_prev None) m))))
    None (B ++ [(l, v)]) None.
Proof.
  intros Hne [Hl HB] [HlB HndB]%NoDup_cons. apply dls_app. cbn [dls firstOf]. split_and!; [..|done].
  - eapply dls_frame; [|eapply dls_set_next; [by eapply dls_set_prev|done]].
    intros l' Hl'. by rewrite !lookup_alter_ne by by intros ->.
  - rewrite !lookup_alter_eq, !alterIf_ne, Hl; [done|..].
    + intros Ha. by apply firstOf_elem in Ha.
    + intros Ha. by apply lastOf_elem in Ha.
Qed.

Lemma joined_dls m A B : dls m None A None → dls m None B None → NoDup (A ++ B).*1 →
  dls (alterIf (lastOf A None) (set_next (firstOf B None)) (alterIf (firstOf B None) (set_prev (lastOf A None)) m))
    None (A ++ B) None.
Proof.
  intros HA HB. rewrite fmap_app. intros (HndA & Hdisj & HndB)%NoDup_app. apply dls_app. split.
  - apply (dls_set_next _ _ _ None); [|done]. eapply dls_frame; [|done]. intros l Hl. apply alterIf_ne.
    intros Hb. apply firstOf_elem in Hb; [|done]. by apply (Hdisj l).
  - eapply dls_frame; [|by eapply dls_set_prev]. intros l Hl. apply alterIf_ne.
    intros Ha. apply lastOf_elem in Ha; [|done]. by apply (Hdisj l).
Qed.

(** Moving the nodes of a list keeps its length and the allocated nodes. *)
Lemma moved_rep h L ls ls' m : rep h L ls → ls' ≡ₚ ls → dls m None ls' None →
  (∀ l, is_Some (m !! l) ↔ is_Some (nodes h !! l)) →
  rep (mkHeap m (brk h)) (mkList (firstOf ls' None) (lastOf ls' None) (l_len L)) ls'.
Proof.
  intros [_ _ Hlen Hnd _ Hbrk] Hp Hd Hm. split; cbn; [done..| | |done|].
  - by rewrite Hp.
  - by rewrite Hp.
  - intros l Hl. by apply Hbrk, Hm.
Qed.

Lemma others_alterIf ls h p f m : others ls h (mkHeap m (brk h)) → (∀ l, p = Some l → l ∈ ls.*1) →
  others ls h (mkHeap (alterIf p f m) (brk h)).
Proof.
  intros [Hle Ho] Hp. split; [done|]. cbn in *. intros l Hl Hlt. rewrite alterIf_ne; [by apply Ho|].
  intros Hpl. by apply Hl, Hp.
Qed.

Lemma others_refl ls h : others ls h h.
Proof. split; [done|]. done. Qed.

Lemma others_heap ls h : others ls h (mkHeap (nodes h) (brk h)).
Proof. split; cbn; done. Qed.

Lemma listRotateTailToHead_run h L A l v : rep h L (A ++ [(l, v)]) →
  ∃ L' h', listRotateTailToHead L h = Ok (L', h') ∧ rep h' L' ((l, v) :: A) ∧ others (A ++ [(l, v)]) h h'.
Proof.
  intros Hr. pose proof Hr as [Hh Ht Hlen Hnd Hd _]. unfold listRotateTailToHead. rewrite length_app in Hlen. cbn in Hlen.
  destruct (l_len L <=? 1) eqn:Hle.
  { assert (A = []) as -> by (destruct A; cbn in *; [done|lia]). exists L, h. split_and!; [done..|apply others_refl]. }
  assert (A ≠ []) as Hne by (intros ->; cbn in *; lia).
  assert (∀ l', l' ∈ (A ++ [(l, v)]).*1 → is_Some (nodes h !! l')) as Hin by (intros; by eapply dls_is_Some).
  rewrite Ht, lastOf_snoc, Hh, firstOf_app. erewrite bind_run by done.
  erewrite bind_run by by apply readNode_run, (rep_node h L A l v []). cbn [prev].
  destruct (lastOf A None) as [t|] eqn:Hla; [|by destruct A as [|[a w] A _] using rev_ind; [|rewrite lastOf_snoc in Hla]].
  destruct (firstOf A _) as [f|] eqn:Hfa; [|by destruct A as [|[]]].
  assert (firstOf A None = Some f) as Hfa' by by destruct A as [|[]].
  assert (t ∈ A.*1) as Htin by by apply (lastOf_elem A None).
  assert (f ∈ A.*1) as Hfin by by apply (firstOf_elem A None).
  rewrite fmap_app in Hin. erewrite bind_run by done.
  erewrite bind_run by (apply updNode_run, Hin; set_solver). erewrite bind_run by done.
  erewrite bind_run by (apply updNode_run; cbn; rewrite lookup_alter_is_Some; apply Hin; set_solver).
  erewrite bind_run by (apply updNode_run; cbn; rewrite !lookup_alter_is_Some; apply Hin; set_solver).
  erewrite bind_run by (apply updNode_run; cbn; rewrite !lookup_alter_is_Some; apply Hin; set_solver).
  cbn [nodes brk]. eexists _, _. split_and!; [done|..].
  - pose proof (rotated_tail_dls (nodes h) A l v Hne Hd Hnd) as Hd'. rewrite Hla, Hfa' in Hd'.
    assert ((l, v) :: A ≡ₚ A ++ [(l, v)]) as Hp by by rewrite Permutation_app_comm.
    pose proof (moved_rep h L _ _ _ Hr Hp Hd') as Hm. cbn in Hm. rewrite (lastOf_ne A), Hla in Hm by done.
    apply Hm. intros l'. by rewrite !lookup_alter_is_Some.
  - repeat apply (others_alterIf _ _ (Some _)); [apply others_heap|..]; intros ? [= <-]; rewrite fmap_app; set_solver.
Qed.

Lemma listRotateHeadToTail_run h L l v B : rep h L ((l, v) :: B) →
  ∃ L' h', listRotateHeadToTail L h = Ok (L', h') ∧ rep h' L' (B ++ [(l, v)]) ∧ others ((l, v) :: B) h h'.
Proof.
  intros Hr. pose proof Hr as [Hh Ht Hlen Hnd Hd _]. unfold listRotateHeadToTail. cbn in Hlen.
  destruct (l_len L <=? 1) eqn:Hle.
  { assert (B = []) as -> by (destruct B; cbn in *; [done|lia]). exists L, h. split_and!; [done..|apply others_refl]. }
  assert (B ≠ []) as Hne by (intros ->; cbn in *; lia).
  assert (∀ l', l' ∈ ((l, v) :: B).*1 → is_Some (nodes h !! l')) as Hin by (intros; by eapply dls_is_Some).
  rewrite Hh, Ht. cbn [firstOf lastOf]. rewrite lastOf_ne by done. erewrite bind_run by done.
  erewrite bind_run by by apply readNode_run, (rep_node h L [] l v B). cbn [next].
  destruct (lastOf B None) as [t|] eqn:Hlb; [|by destruct B as [|[b w] B _] using rev_ind; [|rewrite lastOf_snoc in Hlb]].
  destruct (firstOf B None) as [f|] eqn:Hfb; [|by destruct B as [|[]]].
  assert (t ∈ B.*1) as Htin by by apply (lastOf_elem B None).
  assert (f ∈ B.*1) as Hfin by by apply (firstOf_elem B None).
  cbn in Hin. erewrite bind_run by done.
  erewrite bind_run by (apply updNode_run, Hin; set_solver). erewrite bind_run by done.
  erewrite bind_run by (apply updNode_run; cbn; rewrite lookup_alter_is_Some; apply Hin; set_solver).
  erewrite bind_run by (apply updNode_run; cbn; rewrite !lookup_alter_is_Some; apply Hin; set_solver).
  erewrite bind_run by (apply updNode_run; cbn; rewrite !lookup_alter_is_Some; apply Hin; set_solver).
  cbn [nodes brk]. eexists _, _. split_and!; [done|..].
  - pose proof (rotated_head_dls (nodes h) B l v Hne Hd Hnd) as Hd'. rewrite Hlb, Hfb in Hd'.
    assert (B ++ [(l, v)] ≡ₚ (l, v) :: B) as Hp by by rewrite Permutation_app_comm.
    pose proof (moved_rep h L _ _ _ Hr Hp Hd') as Hm.
    assert (firstOf (B ++ [(l, v)]) None = Some f) as Hf by by destruct B as [|[]].
    rewrite Hf, lastOf_snoc in Hm. apply Hm. intros l'. cbn [alterIf]. by rewrite !lookup_alter_is_Some.
  - repeat apply (others_alterIf _ _ (Some _)); [apply others_heap|..]; intros ? [= <-]; cbn; set_solver.
Qed.

Lemma listJoin_run h L O A B : rep h L A → rep h O B → A.*1 ## B.*1 →
  ∃ L' h', listJoin L O h = Ok ((L', listCreate), h') ∧ rep h' L' (A ++ B) ∧ others (A ++ B) h h'.
Proof.
  intros [Hh Ht Hlen Hnd Hd Hbrk] [Hh' Ht' Hlen' Hnd' Hd' _] Hdisj. unfold listJoin. rewrite Hh', Ht.
  erewrite bind_run.
  2:{ apply updIf_run. intros l Hl. eapply dls_is_Some; [done|]. by apply (firstOf_elem B None). }
  erewrite bind_run.
  2:{ apply updIf_run. cbn [nodes]. intros l Hl. rewrite alterIf_is_Some. eapply dls_is_Some; [exact Hd|].
      by apply (lastOf_elem A None). }
  cbn [nodes brk]. eexists _, _. split_and!; [done|..].
  - split; cbn [l_head l_tail l_len nodes brk].
    + rewrite Hh, firstOf_app. destruct A as [|[a w] A]; [done|]. cbn.
      by destruct (lastOf A (Some a)) eqn:E; [|destruct A as [|[] ? _] using rev_ind; [|rewrite lastOf_snoc in E]].
    + rewrite Ht', lastOf_app. destruct B as [|[b w] B _] using rev_ind; [done|]. by rewrite !lastOf_snoc.
    + rewrite Hlen, Hlen', length_app. lia.
    + rewrite fmap_app. apply NoDup_app. split_and!; [done| |done]. set_solver.
    + apply joined_dls; [done..|]. rewrite fmap_app. apply NoDup_app. split_and!; [done| |done]. set_solver.
    + intros l. rewrite !alterIf_is_Some. apply Hbrk.
  - apply others_alterIf; [apply others_alterIf; [apply others_heap|]|]; intros l Hl; rewrite fmap_app.
    + apply firstOf_elem in Hl; [set_solver|done].
    + apply lastOf_elem in Hl; [set_solver|done].
Qed.

(** ** Operations on sequences

    The list as a client sees it is the sequence of its nodes and their values;
    [seqOp h ls op ls']: on the sequence [ls], operation [op] gives [ls'].  A new
    node is at the address the allocator returns. *)

Inductive listOp :=
  | OpAddHead (v : V)
  | OpAddTail (v : V)
  | OpInsert (old_node : loc) (v : V) (after : bool)
  | OpDel (node : loc)
  | OpRotateTailToHead
  | OpRotateHeadToTail
  | OpJoin (o : adlist)
  | OpEmpty.

Definition runOp (op : listOp) (L : adlist) : M (heap V) adlist :=
  match op with
  | OpAddHead v => listAddNodeHead L v
  | OpAddTail v => listAddNodeTail L v
  | OpInsert l v after => listInsertNode L l v after
  | OpDel l => listDelNode L l
  | OpRotateTailToHead => listRotateTailToHead L
  | OpRotateHeadToTail => listRotateHeadToTail L
  | OpJoin o => r ← listJoin L o; mret r.1
  | OpEmpty => listEmpty L
  end.

Inductive seqOp h : list (loc * V) → listOp → list (loc * V) → Prop :=
  | seq_add_head ls v : seqOp h ls (OpAddHead v) ((brk h, v) :: ls)
  | seq_add_tail ls v : seqOp h ls (OpAddTail v) (ls ++ [(brk h, v)])
  | seq_insert_after A l u B v : seqOp h (A ++ (l, u) :: B) (OpInsert l v true) (A ++ (l, u) :: (brk h, v) :: B)
  | seq_insert_before A l u B v : seqOp h (A ++ (l, u) :: B) (OpInsert l v false) (A ++ (brk h, v) :: (l, u) :: B)
  | seq_del A l v B : seqOp h (A ++ (l, v) :: B) (OpDel l) (A ++ B)
  | seq_rotate_tail A l v : seqOp h (A ++ [(l, v)]) OpRotateTailToHead ((l, v) :: A)
  | seq_rotate_tail_nil : seqOp h [] OpRotateTailToHead []
  | seq_rotate_head l v B : seqOp h ((l, v) :: B) OpRotateHeadToTail (B ++ [(l, v)])
  | seq_rotate_head_nil : seqOp h [] OpRotateHeadToTail []
  | seq_join ls o os : rep h o os → ls.*1 ## os.*1 → seqOp h ls (OpJoin o) (ls ++ os)
  | seq_empty ls : seqOp h ls OpEmpty [].

Lemma others_mono ls ls' h h' : others ls h h' → ls.*1 ⊆ ls'.*1 → others ls' h h'.
Proof. intros [Hle Ho] Hsub. split; [done|]. intros l Hl. apply Ho. set_solver. Qed.

Lemma others_trans ls h1 h2 h3 : others ls h1 h2 → others ls h2 h3 → others ls h1 h3.
Proof.
  intros [Hle1 Ho1] [Hle2 Ho2]. split; [lia|]. intros l Hl Hlt. rewrite Ho2, Ho1; [done..|lia].
Qed.

(** C36. The linked lists implement sequences: adding at either end, inserting next to a
    node, deleting a node, rotating, joining another list and emptying run without
    touching freed memory, leave a well-linked list whose nodes and values are those
    of the operation on sequences, and do not change nodes of other lists. *)
Theorem adlist_refines_sequence h L ls op ls' : rep h L ls → seqOp h ls op ls' →
  ∃ L' h', runOp op L h = Ok (L', h') ∧ rep h' L' ls' ∧ others (ls ++ ls') h h'.
Proof.
  intros Hr Hop.
  enough (∃ L' h', runOp op L h = Ok (L', h') ∧ rep h' L' ls' ∧
            others (match op with OpJoin _ => ls' | _ => ls end) h h') as (L' & h' & Hrun & Hr' & Ho).
  { exists L', h'. split_and!; [done..|]. eapply others_mono; [done|]. rewrite fmap_app. destruct op; set_solver. }
  destruct Hop; cbn [runOp].
  - rewrite (listAddNodeHead_run _ _ ls) by done. eexists _, _. split; [done|]. by apply (inserted_rep h L []).
  - rewrite (listAddNodeTail_run _ _ ls) by done. eexists _, _. split; [done|].
    pose proof (inserted_rep h L ls [] v) as Hi. rewrite app_nil_r in Hi. by apply Hi.
  - rewrite (listInsertNode_run h L A l u B) by done. eexists _, _. split; [done|]. cbn.
    pose proof (inserted_rep h L (A ++ [(l, u)]) B v) as Hi. rewrite <-!(assoc_L (++)) in Hi. by apply Hi.
  - rewrite (listInsertNode_run h L A l u B) by done. eexists _, _. split; [done|]. by apply inserted_rep with L.
  - rewrite (listDelNode_run h L A l v B) by done. eexists _, _. split; [done|].
    by destruct (deleted_rep h L A l v B Hr) as (? & ? & _).
  - by apply listRotateTailToHead_run.
  - unfold listRotateTailToHead. rewrite (rep_len _ _ _ Hr). cbn. exists L, h. split_and!; [done..|apply others_refl].
  - by apply listRotateHeadToTail_run.
  - unfold listRotateHeadToTail. rewrite (rep_len _ _ _ Hr). cbn. exists L, h. split_and!; [done..|apply others_refl].
  - destruct (listJoin_run h L o ls os) as (L' & h' & Hrun & Hj); [done..|]. exists L', h'. split; [|done].
    by erewrite bind_run by done.
  - erewrite listEmpty_run by done. eexists _, _. split; [done|]. by apply emptied_rep with L.
Qed.

(** ** Iteration *)

(** A loop from the head with an invariant on the nodes visited and to visit:
    the body finds the node as the list has it. *)
Lemma listLoop_run {X R} (body : loc → X → M (heap V) (X + R))
    (I : list (loc * V) → list (loc * V) → X → heap V → Prop)
    (Q : R → heap V → Prop) fuel ahead todo a h :
  (∀ ahead l v todo a h, I ahead ((l, v) :: todo) a h →
     (∃ p, nodes h !! l = Some (mkNode p (firstOf todo None) v)) ∧
     ∃ x h', body l a h = Ok (x, h') ∧ match x with inl a' => I (ahead ++ [(l, v)]) todo a' h' | inr r => Q r h' end) →
  I ahead todo a h → (length todo < fuel)%nat →
  ∃ x h', listLoop fuel body (mkLIter (firstOf todo None) AL_START_HEAD) a h = Ok (x, h') ∧
    match x with inl a' => I (ahead ++ todo) [] a' h' | inr r => Q r h' end.
Proof.
  intros Hbody. revert ahead todo a h. induction fuel as [|fuel IH]; intros ahead todo a h HI Hlt; [lia|].
  destruct todo as [|[l v] todo]; cbn [listLoop firstOf].
  { exists (inl a), h. rewrite app_nil_r. done. }
  destruct (Hbody _ _ _ _ _ _ HI) as ([p Hl] & x & h' & Hrun & HI').
  rewrite (bind_run _ _ h (Some l, mkLIter (firstOf todo None) AL_START_HEAD) h).
  2:{ unfold listNext. cbn [it_next]. by erewrite bind_run by by apply readNode_run. }
  cbn beta iota. rewrite (bind_run _ _ h x h') by done. destruct x as [a'|r]; cbn beta iota.
  - destruct (IH _ _ _ _ HI') as (y & h'' & Hrun' & HI''); [cbn in Hlt; lia|].
    exists y, h''. split; [done|]. by rewrite <-(assoc_L (++)) in HI''.
  - by exists (inr r), h'.
Qed.

Lemma rounds_enough h L ls : rep h L ls → (length ls < rounds L)%nat.
Proof. intros Hr. unfold rounds. rewrite (rep_len _ _ _ Hr). lia. Qed.

Lemma listRewind_first h L ls : rep h L ls → listRewind L = mkLIter (firstOf ls None) AL_START_HEAD.
Proof. intros Hr. unfold listRewind. by rewrite (rep_head _ _ _ Hr). Qed.

(** *** The waiting lists when a client is freed *)

Definition ReleaseInv `{EqDecision V} c h0 ls ahead todo L h : Prop :=
  ls = ahead ++ todo ∧
  rep h L (filter (λ x, x.2 ≠ c) ahead ++ todo) ∧ others ls h0 h ∧
  (∀ x, x ∈ ls → (x.1 < brk h)%nat) ∧
  (∀ x, x ∈ ahead → x.2 = c → nodes h !! x.1 = None).

Lemma releaseBody_step `{EqDecision V} c h0 ls ahead l v todo L h :
  ReleaseInv c h0 ls ahead ((l, v) :: todo) L h →
  ∃ x h', releaseBody c l L h = Ok (x, h') ∧
    match x with inl L' => ReleaseInv c h0 ls (ahead ++ [(l, v)]) todo L' h' | inr _ => False end.
Proof.
  intros (Hls & Hr & Ho & Hlt & Hfree). unfold releaseBody, ReleaseInv.
  erewrite bind_run by by eapply readNode_run, rep_node. cbn [value]. rewrite filter_app, <-!(assoc_L (++)).
  destruct (decide (v = c)) as [->|Hne].
  - rewrite bool_decide_eq_true_2, filter_cons_False by naive_solver.
    erewrite bind_run by by eapply listDelNode_run. destruct (deleted_rep _ _ _ _ _ _ Hr) as (Hr' & Ho' & Hdel).
    eexists (inl _), _. split_and!; [done|done|by rewrite filter_nil|..].
    + eapply others_trans; [done|]. eapply others_mono; [done|]. rewrite Hls, !fmap_app.
      intros x [(y & -> & [_ Hy]%list_elem_of_filter)%list_elem_of_fmap|Hx]%elem_of_app; apply elem_of_app; [left|by right].
      by apply list_elem_of_fmap_2.
    + done.
    + intros x [Hx|Hx]%elem_of_app Hc; [|by apply list_elem_of_singleton in Hx as ->].
      destruct Ho' as [_ Ho']. rewrite Ho'; [by apply Hfree| |apply Hlt; rewrite Hls; by apply elem_of_app; left].
      intros Hin. eapply dls_is_Some in Hin as [n Hn]; [|apply Hr]. by rewrite Hfree in Hn.
  - rewrite bool_decide_eq_false_2, filter_cons_True by done. eexists (inl _), _. split_and!; [done..|].
    intros x [Hx|Hx]%elem_of_app; [by apply Hfree|]. by apply list_elem_of_singleton in Hx as ->.
Qed.

(** The loop of releaseWhenFreeClient, which deletes nodes of a waiting list while
    an iterator walks it, ends without touching freed memory, and leaves exactly the
    nodes of the other clients, in order; the nodes of the freed client are released
    and no other list is changed. *)
Theorem release_loop_filters `{EqDecision V} c h L ls : rep h L ls →
  ∃ L' h', releaseLoop c L h = Ok (L', h') ∧ rep h' L' (filter (λ x, x.2 ≠ c) ls) ∧ others ls h h' ∧
    ∀ x, x ∈ ls → x.2 = c → nodes h' !! x.1 = None.
Proof.
  intros Hr. unfold releaseLoop. rewrite (listRewind_first _ _ _ Hr).
  destruct (listLoop_run (releaseBody c) (ReleaseInv c h ls) (λ _ _, False) (rounds L) [] ls L h)
    as (x & h' & Hrun & Hx).
  - intros ahead l v todo a h1 HI. split; [|by eapply releaseBody_step].
    eexists. by eapply rep_node, HI.
  - split_and!; [done..|apply others_refl| |by intros ? ?%not_elem_of_nil].
    intros x Hx. eapply rep_brk; [done|]. eapply dls_is_Some; [by apply Hr|]. by apply list_elem_of_fmap_2.
  - by eapply rounds_enough.
  - rewrite (bind_run _ _ h x h') by done. destruct x as [L'|[]]; [|done]. cbn in Hx.
    destruct Hx as (_ & Hr' & Ho & _ & Hfree). rewrite app_nil_r in Hr'. by exists L', h'.
Qed.

(** *** Copies *)

Lemma mapM_middle (f : V → option V) vs v todo ws : mapM f vs = Some ws →
  mapM f (vs ++ v :: todo) = w ← f v; us ← mapM f todo; Some (ws ++ w :: us).
Proof.
  revert ws. induction vs as [|v' vs IH]; intros ws; cbn.
  - intros [= <-]. by destruct (f v); [destruct (mapM f todo)|].
  - destruct (f v') as [w'|]; [|done]. destruct (mapM f vs) as [ws'|]; [|done]. intros [= <-].
    rewrite (IH ws') by done. cbn. by destruct (f v); [cbn; destruct (mapM f todo)|].
Qed.

Definition DupInv dup h0 L ls ahead todo C h : Prop :=
  ∃ cs, ls = ahead ++ todo ∧ rep h L ls ∧ rep h C cs ∧ mapM (dupValue dup) ahead.*2 = Some cs.*2 ∧
    (∀ l, l ∈ cs.*1 → (brk h0 ≤ l)%nat) ∧ others [] h0 h ∧
    (∀ l, is_Some (nodes h !! l) → (l < brk h0)%nat ∨ l ∈ cs.*1).

(** The nodes of the copy made so far are the only new ones. *)
Definition DupFailed dup h0 ls C h : Prop :=
  ∃ cs, mapM (dupValue dup) ls.*2 = None ∧ rep h C cs ∧
    (∀ l, l ∈ cs.*1 → (brk h0 ≤ l)%nat) ∧ others [] h0 h ∧
    (∀ l, is_Some (nodes h !! l) → (l < brk h0)%nat ∨ l ∈ cs.*1).

Lemma dupBody_step dup h0 L ls ahead l v todo C h :
  rep h0 L ls → DupInv dup h0 L ls ahead ((l, v) :: todo) C h →
  ∃ x h', dupBody dup l C h = Ok (x, h') ∧
    match x with
    | inl C' => DupInv dup h0 L ls (ahead ++ [(l, v)]) todo C' h'
    | inr C' => DupFailed dup h0 ls C' h'
    end.
Proof.
  intros Hr0 (cs & Hls & Hr & Hc & Hmap & Hnew & Ho & Hdom). unfold dupBody. rewrite Hls in Hr.
  erewrite bind_run by by eapply readNode_run, rep_node. rewrite <-Hls in Hr. cbn [value].
  destruct (dupValue dup v) as [v'|] eqn:Hv.
  - erewrite bind_run by by apply listAddNodeTail_run. rewrite <-(app_nil_r cs) in Hc.
    destruct (inserted_rep h C cs [] v' Hc) as [Hc' Ho']. rewrite app_nil_r in Hc, Ho'.
    eexists (inl _), _. split; [done|]. exists (cs ++ [(brk h, v')]).
    assert (others [] h0 (insertedHeap h cs [] v')) as Ho2.
    { destruct Ho as [Hle Ho], Ho' as [Hle' Ho']. split; [lia|]. intros l' Hni Hlt. rewrite Ho'; [by apply Ho|..|lia].
      intros Hin%Hnew. lia. }
    split_and!; [by rewrite <-(assoc_L (++))| |done|..].
    + eapply rep_others; [done|done|apply Hc'|]. intros l' Hl' Hin%Hnew.
      assert (l' < brk h0)%nat; [|lia]. eapply rep_brk; [done|]. eapply dls_is_Some; [apply Hr0|done].
    + rewrite !fmap_app. cbn. by rewrite (mapM_middle _ _ _ _ _ Hmap), Hv.
    + rewrite fmap_app. intros l' [Hin|Hin]%elem_of_app; [by apply Hnew|].
      cbn in Hin. apply list_elem_of_singleton in Hin as ->. apply Ho.
    + done.
    + intros l'. cbn [insertedHeap nodes]. rewrite !alterIf_is_Some, fmap_app, elem_of_app.
      intros [<-|[_ Hl']]%lookup_insert_is_Some; [right; right; cbn; by left|].
      destruct (Hdom l' Hl'); [by left|by right; left].
  - eexists (inr _), _. split; [done|]. exists cs. split_and!; [|done..].
    rewrite Hls, fmap_app. cbn. by rewrite (mapM_middle _ _ _ _ _ Hmap), Hv.
Qed.

(** ListDup gives a list of new nodes with the duplicated values and leaves the
    original alone; when the dup method fails on a value it returns NULL and every
    node it had allocated is released. *)
Theorem list_dup_copies dup h L ls : rep h L ls →
  match mapM (dupValue dup) ls.*2 with
  | Some vs => ∃ C h' cs, listDup dup L h = Ok (Some C, h') ∧ rep h' C cs ∧ cs.*2 = vs ∧ rep h' L ls ∧
      cs.*1 ## ls.*1 ∧ others [] h h'
  | None => ∃ h', listDup dup L h = Ok (None, h') ∧ nodes h' = nodes h
  end.
Proof.
  intros Hr. unfold listDup. rewrite (listRewind_first _ _ _ Hr).
  destruct (listLoop_run (dupBody dup) (DupInv dup h L ls) (DupFailed dup h ls) (rounds L) [] ls listCreate h)
    as (x & h' & Hrun & Hx).
  - intros ahead l v todo C h1 HI. split; [|by eapply dupBody_step].
    destruct HI as (cs & -> & Hr1 & _). eexists. by eapply rep_node.
  - exists []. pose proof (rep_brk _ _ _ Hr) as Hbrk. split_and!; [done..|by apply listCreate_rep|done| |apply others_refl|].
    + by intros ? ?%not_elem_of_nil.
    + intros l Hl. left. by apply Hbrk.
  - by eapply rounds_enough.
  - rewrite (bind_run _ _ h x h') by done. destruct x as [C|C]; cbn in Hx.
    + destruct Hx as (cs & _ & Hr' & Hc & -> & Hnew & Ho & _). exists C, h', cs. split_and!; [done..| |done].
      intros l Hin%Hnew Hl. assert (l < brk h)%nat; [|lia].
      eapply rep_brk; [done|]. eapply dls_is_Some; [apply Hr|done].
    + destruct Hx as (cs & -> & Hc & Hnew & [_ Ho] & Hdom). unfold listRelease.
      eexists. split; [erewrite bind_run; [done|]; by erewrite bind_run by by eapply listEmpty_run|]. cbn.
      apply map_eq. intros l. destruct (decide (l ∈ cs.*1)) as [Hin|Hni].
      * rewrite without_elem by done. symmetry. apply eq_None_not_Some. intros Hs%(rep_brk _ _ _ Hr).
        apply Hnew in Hin. lia.
      * rewrite without_not_elem by done. destruct (decide (l < brk h)%nat) as [Hlt|Hge].
        { apply Ho; [|done]. apply not_elem_of_nil. }
        transitivity (@None (listNode V)); [|symmetry]; apply eq_None_not_Some; intros Hs.
        { by destruct (Hdom l Hs). }
        by apply (rep_brk _ _ _ Hr) in Hs.
Qed.

(** *** Search and access by index *)

Lemma searchBody_run `{EqDecision V} match_ key h L A l v B : rep h L (A ++ (l, v) :: B) →
  searchBody match_ key l tt h = Ok (if matchValue match_ key v then inr l else inl tt, h).
Proof. intros Hr. unfold searchBody. by erewrite bind_run by by eapply readNode_run, rep_node. Qed.

Lemma listSearchKey_run `{EqDecision V} match_ key h L ls : rep h L ls →
  listSearchKey match_ L key h = Ok (fst <$> head (filter (λ x, matchValue match_ key x.2) ls), h).
Proof.
  intros Hr. unfold listSearchKey. rewrite (listRewind_first _ _ _ Hr).
  destruct (listLoop_run (searchBody match_ key)
      (λ ahead todo _ h', h' = h ∧ ls = ahead ++ todo ∧ filter (λ x, matchValue match_ key x.2) ahead = [])
      (λ l h', h' = h ∧ fst <$> head (filter (λ x, matchValue match_ key x.2) ls) = Some l)
      (rounds L) [] ls tt h) as (x & h' & Hrun & Hx).
  - intros ahead l v todo [] h1 (-> & -> & Hf). split; [eexists; by eapply rep_node|].
    eexists _, _. split; [by eapply searchBody_run|]. destruct (matchValue match_ key v) eqn:Hm.
    + split; [done|]. rewrite filter_app, Hf, filter_cons_True; [done|]. cbn. by rewrite Hm.
    + split_and!; [done|by rewrite <-(assoc_L (++))|]. rewrite filter_app, Hf, filter_cons_False; [done|].
      cbn. rewrite Hm. by intros [].
  - done.
  - by eapply rounds_enough.
  - rewrite (bind_run _ _ h x h') by done. destruct x as [[]|l]; destruct Hx as (-> & Hx); [|by rewrite Hx].
    destruct Hx as [_ Hf]. cbn in Hf. by rewrite Hf.
Qed.

Lemma walk_head h p ls i : dls (nodes h) p ls None →
  walk i AL_START_HEAD (firstOf ls None) h = Ok (fst <$> ls !! i, h).
Proof.
  revert p i. induction ls as [|[l v] ls IH]; intros p i Hd; [by destruct i|]. destruct i as [|i]; [done|].
  destruct Hd as [Hl Hd]. cbn. erewrite bind_run by by apply readNode_run. by eapply IH.
Qed.

Lemma walk_tail h ls n i : dls (nodes h) None ls n →
  walk i AL_START_TAIL (lastOf ls None) h = Ok (fst <$> reverse ls !! i, h).
Proof.
  revert n i. induction ls as [|[l v] ls IH] using rev_ind; intros n i; [by destruct i|].
  rewrite lastOf_snoc, reverse_app. intros [Hd [Hl _]]%dls_app. destruct i as [|i]; [done|]. cbn.
  erewrite bind_run by by apply readNode_run. by eapply IH.
Qed.

Lemma listIndex_run h L ls index : rep h L ls →
  listIndex L index h =
    Ok (fst <$> (if index <? 0 then reverse ls !! Z.to_nat (- index - 1) else ls !! Z.to_nat index), h).
Proof.
  intros [Hh Ht _ _ Hd _]. unfold listIndex. rewrite Hh, Ht. destruct (index <? 0).
  - by eapply walk_tail.
  - by eapply walk_head.
Qed.

(** ListSearchKey gives the first node whose value matches, by the match method or
    by pointer equality; listIndex gives the node at an index from the head, or from
    the tail for a negative index, and NULL out of range; neither changes the list. *)
Theorem list_search_and_index `{EqDecision V} match_ key index h L ls : rep h L ls →
  listSearchKey match_ L key h = Ok (fst <$> head (filter (λ x, matchValue match_ key x.2) ls), h) ∧
  listIndex L index h =
    Ok (fst <$> (if index <? 0 then reverse ls !! Z.to_nat (- index - 1) else ls !! Z.to_nat index), h).
Proof. intros Hr. split; [by apply listSearchKey_run|by apply listIndex_run]. Qed.

End Reps.

(** ** A list of three nodes *)

Definition sampleHeap : heap string :=
  mkHeap (list_to_map [(0%nat, mkNode None (Some 1%nat) "a"%string);
                       (1%nat, mkNode (Some 0%nat) (Some 2%nat) "b"%string);
                       (2%nat, mkNode (Some 1%nat) None "a"%string)]) 3.
Definition sampleList : adlist := mkList (Some 0%nat) (Some 2%nat) 3.
Definition sampleNodes : list (loc * string) := [(0%nat, "a"%string); (1%nat, "b"%string); (2%nat, "a"%string)].

Lemma sample_rep : rep sampleHeap sampleList sampleNodes.
Proof.
  split; [done..| |done|].
  - apply (bool_decide_unpack _). by vm_compute.
  - intros l [n Hl%elem_of_list_to_map_2]. cbn in Hl. rewrite !elem_of_cons, elem_of_nil in Hl. cbn. naive_solver lia.
Qed.

Lemma adlist_refines_sequence_witness :
  ∃ L' h', listInsertNode sampleList 2 "c" true sampleHeap = Ok (L', h') ∧
    rep h' L' (sampleNodes ++ [(3%nat, "c"%string)]) ∧ l_tail L' = Some 3%nat.
Proof.
  destruct (adlist_refines_sequence sampleHeap sampleList sampleNodes (OpInsert 2 "c" true)
              (sampleNodes ++ [(3%nat, "c"%string)])) as (L' & h' & Hrun & Hr & _).
  - exact sample_rep.
  - exact (seq_insert_after sampleHeap [(0%nat, "a"%string); (1%nat, "b"%string)] 2%nat "a" [] "c").
  - exists L', h'. split; [exact Hrun|]. split; [exact Hr|]. by rewrite (rep_tail _ _ _ Hr).
Defined.

Lemma release_loop_filters_witness :
  ∃ L' h', releaseLoop "a"%string sampleList sampleHeap = Ok (L', h') ∧ rep h' L' [(1%nat, "b"%string)] ∧
    nodes h' !! 0%nat = None ∧ nodes h' !! 2%nat = None.
Proof.
  destruct (release_loop_filters "a"%string sampleHeap sampleList sampleNodes sample_rep)
    as (L' & h' & Hrun & Hr & _ & Hfree).
  exists L', h'. split; [exact Hrun|]. split; [exact Hr|].
  split; [apply (Hfree (0%nat, "a"%string))|apply (Hfree (2%nat, "a"%string))]; [set_solver|done|set_solver|done].
Defined.

Lemma list_dup_copies_witness :
  (∃ C h' cs, listDup None sampleList sampleHeap = Ok (Some C, h') ∧ rep h' C cs ∧
     cs.*2 = ["a"; "b"; "a"]%string ∧ rep h' sampleList sampleNodes) ∧
  ∃ h', listDup (Some (λ v, if bool_decide (v = "b"%string) then None else Some v)) sampleList sampleHeap = Ok (None, h') ∧
    nodes h' = nodes sampleHeap.
Proof.
  split.
  - destruct (list_dup_copies None sampleHeap sampleList sampleNodes sample_rep)
      as (C & h' & cs & Hrun & Hc & Hv & Hr & _). by exists C, h', cs.
  - exact (list_dup_copies (Some (λ v, if bool_decide (v = "b"%string) then None else Some v))
             sampleHeap sampleList sampleNodes sample_rep).
Defined.

Lemma list_search_and_index_witness :
  listSearchKey None sampleList "b"%string sampleHeap = Ok (Some 1%nat, sampleHeap) ∧
  listIndex sampleList (-1) sampleHeap = Ok (Some 2%nat, sampleHeap).
Proof. exact (list_search_and_index None "b"%string (-1) sampleHeap sampleList sampleNodes sample_rep). Defined.
