(* ===== verification/Endian.v ===== *)
(** * Endian: byte order, src/src/endianconv.c and endianconv.h

    Integers in memory are lists of bytes in the order of the host.  The
    [memrev*ifbe] and [intrev*ifbe] macros make what is stored independent of that
    order; the host is a parameter, and both orders are instances. *)

From stdpp Require Import base tactics option list list_numbers numbers.
From S2P Require Import Prelude.

Local Open Scope Z_scope.

Inductive endianness := LITTLE_ENDIAN | BIG_ENDIAN.

Class Host := BYTE_ORDER : endianness.

Definition littleHost : Host := LITTLE_ENDIAN.
Definition bigHost : Host := BIG_ENDIAN.

(** The [w] bytes of an integer, from the least significant one. *)
Definition le (w v : Z) : list Z := Z_to_little_endian w 8 v.
Definition unle (x : list Z) : Z := little_endian_to_Z 8 x.

(** [t = x[i]; x[i] = x[j]; x[j] = t] *)
Definition swap (i j : nat) (x : list Z) : list Z := <[j := x !!! i]> (<[i := x !!! j]> x).

Definition memrev16 (x : list Z) : list Z := swap 0 1 x.
Definition memrev32 (x : list Z) : list Z := swap 1 2 (swap 0 3 x).
Definition memrev64 (x : list Z) : list Z := swap 3 4 (swap 2 5 (swap 1 6 (swap 0 7 x))).

Section Host.
Context `{Host}.

(** An unsigned integer of [w] bytes as the host has it in memory, and back. *)
Definition hostBytes (w v : Z) : list Z :=
  match BYTE_ORDER with LITTLE_ENDIAN => le w v | BIG_ENDIAN => reverse (le w v) end.
Definition hostInt (x : list Z) : Z :=
  match BYTE_ORDER with LITTLE_ENDIAN => unle x | BIG_ENDIAN => unle (reverse x) end.

Definition intrev16 (v : Z) : Z := hostInt (memrev16 (hostBytes 2 v)).
Definition intrev32 (v : Z) : Z := hostInt (memrev32 (hostBytes 4 v)).
Definition intrev64 (v : Z) : Z := hostInt (memrev64 (hostBytes 8 v)).

Definition ifbe {A} (f : A → A) (a : A) : A :=
  match BYTE_ORDER with LITTLE_ENDIAN => a | BIG_ENDIAN => f a end.

Definition memrev16ifbe : list Z → list Z := ifbe memrev16.
Definition memrev32ifbe : list Z → list Z := ifbe memrev32.
Definition memrev64ifbe : list Z → list Z := ifbe memrev64.
Definition intrev16ifbe : Z → Z := ifbe intrev16.
Definition intrev32ifbe : Z → Z := ifbe intrev32.
Definition intrev64ifbe : Z → Z := ifbe intrev64.

Definition htonu64 (v : Z) : Z :=
  match BYTE_ORDER with LITTLE_ENDIAN => intrev64 v | BIG_ENDIAN => v end.
Definition ntohu64 (v : Z) : Z :=
  match BYTE_ORDER with LITTLE_ENDIAN => intrev64 v | BIG_ENDIAN => v end.

End Host.

(** ** Lemmas *)

Lemma length_le w v : 0 ≤ w → length (le w v) = Z.to_nat w.
Proof. intros. pose proof (length_Z_to_little_endian w 8 v). unfold le. lia. Qed.

Lemma unle_le w v : 0 ≤ w → unle (le w v) = v mod 2 ^ (8 * w).
Proof. intros. unfold unle, le. rewrite little_endian_to_Z_to_little_endian by lia. f_equal. f_equal. lia. Qed.

Lemma le_unle x w : Z.of_nat (length x) = w → Forall (λ b, 0 ≤ b < 256) x → le w (unle x) = x.
Proof. intros. unfold unle, le. apply Z_to_little_endian_to_Z; [done|lia|done]. Qed.

Lemma le_bytes w v : 0 ≤ w → Forall (λ b, 0 ≤ b < 256) (le w v).
Proof. intros. apply (Z_to_little_endian_bound w 8 v); lia. Qed.

(** ** Bits and bytes *)

Lemma land_255 n : Z.land n 0xFF = n mod 256.
Proof. apply (Z.land_ones n 8). lia. Qed.

(** Disjoint bits. *)
Lemma lor_high a b k : 0 ≤ k → 0 ≤ a < 2 ^ k → Z.lor a (Z.shiftl b k) = a + b * 2 ^ k.
Proof.
  intros Hk Ha. rewrite <-Z.shiftl_mul_pow2 by done.
  assert (Z.land a (Z.shiftl b k) = 0) as H0.
  { apply Z.bits_inj'. intros i Hi. rewrite Z.land_spec, Z.bits_0, Z.shiftl_spec by done. destruct (Z.lt_ge_cases i k).
    - rewrite (Z.testbit_neg_r b) by lia. apply andb_false_r.
    - rewrite <-(Z.mod_small a (2 ^ k)), Z.mod_pow2_bits_high by lia. done. }
  by rewrite Z.add_nocarry_lxor, Z.lxor_lor by done.
Qed.

Lemma div_range a b c : 0 < b → 0 ≤ a < b * c → 0 ≤ a / b < c.
Proof. intros. split; [apply Z.div_pos; lia|apply Z.div_lt_upper_bound; lia]. Qed.

(** Bytes of [v], and what they are together. *)
Lemma shifted_byte v k : 0 ≤ k → Z.land (Z.shiftr v k) 0xFF = v / 2 ^ k mod 256.
Proof. intros. by rewrite land_255, Z.shiftr_div_pow2. Qed.

Lemma two_bytes v : Z.lor (Z.land v 0xFF) (Z.shiftl (Z.land (Z.shiftr v 8) 0xFF) 8) = v mod 2 ^ 16.
Proof.
  rewrite land_255, shifted_byte, lor_high by (try lia; apply Z.mod_pos_bound; lia).
  change (2 ^ 16) with (256 * 256). change (2 ^ 8) with 256. rewrite Z.rem_mul_r by lia. lia.
Qed.

Lemma four_bytes v : Z.lor (Z.lor (Z.lor (Z.land v 0xFF) (Z.shiftl (Z.land (Z.shiftr v 8) 0xFF) 8))
  (Z.shiftl (Z.land (Z.shiftr v 16) 0xFF) 16)) (Z.shiftl (Z.land (Z.shiftr v 24) 0xFF) 24) = v mod 2 ^ 32.
Proof.
  rewrite two_bytes, !shifted_byte by lia. rewrite (lor_high (v mod 2 ^ 16)) by (try lia; apply Z.mod_pos_bound; lia).
  assert (v mod 2 ^ 16 + v / 2 ^ 16 mod 256 * 2 ^ 16 = v mod 2 ^ 24) as ->.
  { change (2 ^ 24) with (2 ^ 16 * 256). rewrite Z.rem_mul_r by lia. lia. }
  rewrite lor_high by (try lia; apply Z.mod_pos_bound; lia).
  change (2 ^ 32) with (2 ^ 24 * 256). rewrite Z.rem_mul_r by lia. lia.
Qed.

(** ** Reversal *)

Ltac explode_list x :=
  repeat (destruct x as [|? x]; try discriminate).

Lemma memrev16_reverse x : length x = 2%nat → memrev16 x = reverse x.
Proof. intros Hx. explode_list x. done. Qed.

Lemma memrev32_reverse x : length x = 4%nat → memrev32 x = reverse x.
Proof. intros Hx. explode_list x. done. Qed.

Lemma memrev64_reverse x : length x = 8%nat → memrev64 x = reverse x.
Proof. intros Hx. explode_list x. done. Qed.

Section HostProps.
Context `{Host}.

(** What [memrev*ifbe] leaves in memory is little endian, and it is its own inverse. *)
Lemma memrev_stored (w : Z) (rev : list Z → list Z) v : 0 ≤ w →
  (∀ x, length x = Z.to_nat w → rev x = reverse x) → ifbe rev (hostBytes w v) = le w v.
Proof.
  intros Hw Hrev. unfold ifbe, hostBytes. destruct BYTE_ORDER; [done|].
  rewrite Hrev; [apply reverse_involutive|]. by rewrite length_reverse, length_le.
Qed.

Lemma memrev_loaded (w : Z) (rev : list Z → list Z) x : length x = Z.to_nat w →
  (∀ x, length x = Z.to_nat w → rev x = reverse x) → hostInt (ifbe rev x) = unle x.
Proof.
  intros Hw Hrev. unfold ifbe, hostInt. destruct BYTE_ORDER; [done|]. by rewrite Hrev, reverse_involutive.
Qed.

Lemma hostInt_hostBytes w v : 0 ≤ w → hostInt (hostBytes w v) = v mod 2 ^ (8 * w).
Proof. intros. unfold hostInt, hostBytes. destruct BYTE_ORDER; rewrite ?reverse_involutive; by apply unle_le. Qed.

Lemma intrev32ifbe_stored v : hostBytes 4 (intrev32ifbe v) = le 4 v.
Proof.
  unfold intrev32ifbe, ifbe, intrev32, hostInt, hostBytes. destruct BYTE_ORDER; [done|].
  rewrite memrev32_reverse, reverse_involutive by by rewrite length_reverse, length_le.
  rewrite le_unle, reverse_involutive; [done|by rewrite length_reverse, length_le|].
  apply Forall_reverse, le_bytes. lia.
Qed.

Lemma intrev32ifbe_involutive v : 0 ≤ v < 2 ^ 32 → intrev32ifbe (intrev32ifbe v) = v.
Proof.
  intros Hv. unfold intrev32ifbe at 1. unfold ifbe, intrev32. rewrite intrev32ifbe_stored.
  unfold intrev32ifbe, ifbe, hostInt. destruct BYTE_ORDER; [done|].
  rewrite memrev32_reverse, reverse_involutive, unle_le by (done || by rewrite length_le). by rewrite Z.mod_small.
Qed.

(** [htonu64] leaves the most significant byte first in memory, on every host. *)
Lemma htonu64_stored v : hostBytes 8 (htonu64 v) = reverse (le 8 v).
Proof.
  unfold htonu64, intrev64, hostBytes, hostInt. destruct BYTE_ORDER; [|done].
  rewrite memrev64_reverse by by rewrite length_le.
  apply le_unle; [by rewrite length_reverse, length_le|]. apply Forall_reverse, le_bytes. lia.
Qed.

End HostProps.
