(* ===== verification/Intset.v ===== *)
(** * Intset: sorted sets of integers, src/src/intset.c

    An intset is one block of memory: a header and the values in increasing order,
    each of 2, 4 or 8 bytes, the smallest size that is enough for all of them.
    The model works on the bytes: a read or a write outside the block is a fault,
    and the bytes that [zrealloc] adds are arbitrary ([garbage]).  [uint32_t] and
    [int] arithmetic wraps.  The header fields are kept as they are in memory, in
    the byte order [intrev32ifbe] gives them. *)

From stdpp Require Import base tactics option list list_numbers numbers strings.
From S2P Require Import Prelude Endian.

Local Open Scope Z_scope.

Definition u8 (z : Z) : Z := z mod 2 ^ 8.

Definition INTSET_ENC_INT16 : Z := 2.
Definition INTSET_ENC_INT32 : Z := 4.
Definition INTSET_ENC_INT64 : Z := 8.

Definition INT16_MIN : Z := - 2 ^ 15.
Definition INT16_MAX : Z := 2 ^ 15 - 1.
Definition INT32_MIN : Z := - 2 ^ 31.
Definition INT32_MAX : Z := 2 ^ 31 - 1.

Record intset := mkIntset {
  is_encoding : Z;
  is_length : Z;
  is_contents : list Z }.

Definition _intsetValueEncoding (v : Z) : Z :=
  if (v <? INT32_MIN) || (INT32_MAX <? v) then INTSET_ENC_INT64
  else if (v <? INT16_MIN) || (INT16_MAX <? v) then INTSET_ENC_INT32
  else INTSET_ENC_INT16.

(** A [w]-byte integer read into a signed variable. *)
Definition toSigned (w v : Z) : Z := if v <? 2 ^ (8 * w - 1) then v else v - 2 ^ (8 * w).

Section Intset.
Context `{Host} (garbage : nat → Z).

(** ** Memory *)

Definition readMem (off n : Z) : M intset (list Z) :=
  c ← gets is_contents;
  if (0 <=? off) && (off + n <=? Z.of_nat (length c)) then mret (take (Z.to_nat n) (drop (Z.to_nat off) c))
  else fail (BadPointer "intset").

Definition writeMem (off : Z) (x : list Z) : M intset unit :=
  s ← get;
  let c := is_contents s in
  if (0 <=? off) && (off + Z.of_nat (length x) <=? Z.of_nat (length c)) then
    put (mkIntset (is_encoding s) (is_length s)
           (take (Z.to_nat off) c ++ x ++ drop (Z.to_nat off + length x) c))
  else fail (BadPointer "intset").

(** [memmove(dst, src, bytes)] *)
Definition memmove (dst src bytes : Z) : M intset unit :=
  x ← readMem src bytes;
  writeMem dst x.

(** [zrealloc] of the block to [size] bytes of contents. *)
Definition zrealloc (size : Z) : M intset unit :=
  modify (λ s, let n := Z.to_nat size in let c := is_contents s in
    mkIntset (is_encoding s) (is_length s) (take n c ++ (garbage <$> seq (length c) (n - length c)))).

(** [intrev32ifbe(is->encoding)] and [intrev32ifbe(is->length)]. *)
Definition getEncoding : M intset Z := gets (λ s, intrev32ifbe (is_encoding s)).
Definition getLength : M intset Z := gets (λ s, intrev32ifbe (is_length s)).
Definition setEncoding (v : Z) : M intset unit :=
  modify (λ s, mkIntset (intrev32ifbe v) (is_length s) (is_contents s)).
Definition setLength (v : Z) : M intset unit :=
  modify (λ s, mkIntset (is_encoding s) (intrev32ifbe v) (is_contents s)).

(** ** Access by position *)

Definition _intsetGetEncoded (pos enc : Z) : M intset Z :=
  if enc =? INTSET_ENC_INT64 then
    v64 ← readMem (pos * 8) 8; mret (toSigned 8 (hostInt (memrev64ifbe v64)))
  else if enc =? INTSET_ENC_INT32 then
    v32 ← readMem (pos * 4) 4; mret (toSigned 4 (hostInt (memrev32ifbe v32)))
  else
    v16 ← readMem (pos * 2) 2; mret (toSigned 2 (hostInt (memrev16ifbe v16))).

Definition _intsetGet (pos : Z) : M intset Z :=
  enc ← getEncoding;
  _intsetGetEncoded pos (u8 enc).

(** The store and the reversal of the stored bytes. *)
Definition _intsetSet (pos value : Z) : M intset unit :=
  encoding ← getEncoding;
  if encoding =? INTSET_ENC_INT64 then writeMem (pos * 8) (memrev64ifbe (hostBytes 8 value))
  else if encoding =? INTSET_ENC_INT32 then writeMem (pos * 4) (memrev32ifbe (hostBytes 4 value))
  else writeMem (pos * 2) (memrev16ifbe (hostBytes 2 value)).

Definition intsetNew : intset := mkIntset (intrev32ifbe INTSET_ENC_INT16) 0 [].

Definition intsetResize (len : Z) : M intset unit :=
  enc ← getEncoding;
  let size := u32 (len * enc) in
  zrealloc size.

(** ** Search *)

(** The loop [while (max >= min)]; the result is [min], [mid] and [cur]. *)
Fixpoint searchLoop (fuel : nat) (value min max mid cur : Z) : M intset (Z * Z * Z) :=
  match fuel with
  | O => fail (AssertFailed "intsetSearch: fuel")
  | S fuel =>
      if min <=? max then
        let mid := i32 (Z.shiftr (u32 (u32 min + u32 max)) 1) in
        cur ← _intsetGet mid;
        if cur <? value then searchLoop fuel value (i32 (mid + 1)) max mid cur
        else if value <? cur then searchLoop fuel value min (i32 (mid - 1)) mid cur
        else mret (min, mid, cur)
      else mret (min, mid, cur)
  end.

(** Whether [value] is there, and [*pos]. *)
Definition intsetSearch (value : Z) : M intset (bool * Z) :=
  len ← getLength;
  let max := i32 (len - 1) in
  if len =? 0 then mret (false, 0) else
  last ← _intsetGet max;
  if last <? value then mret (false, len) else
  first ← _intsetGet 0;
  if value <? first then mret (false, 0) else
  '(min, mid, cur) ← searchLoop (S (Z.to_nat len)) value 0 max (-1) (-1);
  if value =? cur then mret (true, u32 mid) else mret (false, u32 min).

(** ** Insertion and deletion *)

(** The loop [while(length--)]; [length] is not negative. *)
Fixpoint upgradeLoop (length : nat) (prepend curenc : Z) : M intset unit :=
  match length with
  | O => mret tt
  | S length =>
      v ← _intsetGetEncoded (Z.of_nat length) curenc;
      _intsetSet (i32 (Z.of_nat length + prepend)) v ;;
      upgradeLoop length prepend curenc
  end.

Definition intsetUpgradeAndAdd (value : Z) : M intset unit :=
  enc ← getEncoding;
  let curenc := u8 enc in
  let newenc := _intsetValueEncoding value in
  len ← getLength;
  let length := i32 len in
  let prepend := if value <? 0 then 1 else 0 in
  setEncoding newenc ;;
  intsetResize (u32 (len + 1)) ;;
  upgradeLoop (Z.to_nat length) prepend curenc ;;
  (if prepend =? 1 then _intsetSet 0 value else _intsetSet (i32 len) value) ;;
  setLength (u32 (len + 1)).

Definition intsetMoveTail (from to : Z) : M intset unit :=
  len ← getLength;
  let bytes := u32 (len - from) in
  encoding ← getEncoding;
  if encoding =? INTSET_ENC_INT64 then memmove (to * 8) (from * 8) (u32 (bytes * 8))
  else if encoding =? INTSET_ENC_INT32 then memmove (to * 4) (from * 4) (u32 (bytes * 4))
  else memmove (to * 2) (from * 2) (u32 (bytes * 2)).

(** The result is [*success]. *)
Definition intsetAdd (value : Z) : M intset bool :=
  let valenc := _intsetValueEncoding value in
  enc ← getEncoding;
  if enc <? valenc then intsetUpgradeAndAdd value ;; mret true else
  '(found, pos) ← intsetSearch value;
  if (found : bool) then mret false else
  len ← getLength;
  intsetResize (u32 (len + 1)) ;;
  (if pos <? len then intsetMoveTail pos (u32 (pos + 1)) else mret tt) ;;
  _intsetSet (i32 pos) value ;;
  setLength (u32 (len + 1)) ;;
  mret true.

Definition intsetRemove (value : Z) : M intset bool :=
  let valenc := _intsetValueEncoding value in
  enc ← getEncoding;
  if valenc <=? enc then
    '(found, pos) ← intsetSearch value;
    if (found : bool) then
      len ← getLength;
      (if pos <? u32 (len - 1) then intsetMoveTail (u32 (pos + 1)) pos else mret tt) ;;
      intsetResize (u32 (len - 1)) ;;
      setLength (u32 (len - 1)) ;;
      mret true
    else mret false
  else mret false.

Definition intsetFind (value : Z) : M intset bool :=
  let valenc := _intsetValueEncoding value in
  enc ← getEncoding;
  if valenc <=? enc then r ← intsetSearch value; mret r.1 else mret false.

(** [rand] is what [rand()] returns. *)
Definition intsetRandom (rand : Z) : M intset Z :=
  len ← getLength;
  if len =? 0 then fail (AssertFailed "intsetRandom: division by zero") else
  _intsetGet (i32 (u32 rand mod len)).

(** [*value] when the result of the code is 1. *)
Definition intsetGet (pos : Z) : M intset (option Z) :=
  len ← getLength;
  if pos <? len then v ← _intsetGet (i32 pos); mret (Some v) else mret None.

Definition intsetLen : M intset Z := getLength.

Definition intsetBlobLen : M intset Z :=
  len ← getLength;
  enc ← getEncoding;
  mret (8 + u32 (len * enc)).

(** The block as it is saved to a file or sent: [sizeof(intset)] is 8. *)
Definition blob (s : intset) : list Z :=
  hostBytes 4 (is_encoding s) ++ hostBytes 4 (is_length s) ++ is_contents s.

End Intset.
