(* ===== verification/IntsetProps.v ===== *)
(** * IntsetProps: intsets implement finite sets of integers

    [is_rep s xs]: the block [s] holds the strictly increasing values [xs], each
    in the bytes of the encoding.  The operations run without leaving the block
    and relate to the operations on sets, as long as the size of the block fits
    in the 32 bits [intsetResize] computes it in; a last section shows what
    happens at that limit. *)

From Stdlib Require Import ZifyBool.
From stdpp Require Import base tactics option list list_numbers numbers strings sorting gmap.
From S2P Require Import Prelude Endian Intset.

Local Open Scope Z_scope.

(** ** Encodings *)

Definition wide (w : Z) : Prop := w = 2 ∨ w = 4 ∨ w = 8.

Definition fits (w v : Z) : Prop := - 2 ^ (8 * w - 1) ≤ v < 2 ^ (8 * w - 1).

Definition encoded (w : Z) (xs : list Z) : list Z := concat (le w <$> xs).

Lemma toSigned_le w v : wide w → fits w v → toSigned w (unle (le w v)) = v.
Proof.
  intros Hw Hv. rewrite unle_le by (destruct Hw; lia). unfold fits, toSigned in *.
  assert (2 ^ (8 * w) = 2 * 2 ^ (8 * w - 1)) as ->.
  { rewrite <-Z.pow_succ_r; [f_equal; lia|destruct Hw; lia]. }
  set (p := 2 ^ (8 * w - 1)) in *. destruct (Z.ltb_spec v 0).
  - rewrite <-(Z.mod_add v 1), Z.mod_small by lia. case_match; lia.
  - rewrite Z.mod_small by lia. case_match; lia.
Qed.

Lemma valueEncoding_wide v : wide (_intsetValueEncoding v).
Proof. unfold _intsetValueEncoding, wide. repeat case_match; cbn; tauto. Qed.

Lemma valueEncoding_fits v w : fits 8 v → wide w → _intsetValueEncoding v ≤ w ↔ fits w v.
Proof.
  unfold fits, _intsetValueEncoding, INT32_MIN, INT32_MAX, INT16_MIN, INT16_MAX. intros Hv Hw.
  destruct Hw as [-> |[-> | ->]]; cbn in *; unfold INTSET_ENC_INT64, INTSET_ENC_INT32, INTSET_ENC_INT16;
    repeat case_match; lia.
Qed.

Lemma encoded_app w xs ys : encoded w (xs ++ ys) = encoded w xs ++ encoded w ys.
Proof. unfold encoded. by rewrite fmap_app, concat_app. Qed.

Lemma encoded_cons w x xs : encoded w (x :: xs) = le w x ++ encoded w xs.
Proof. done. Qed.

Lemma length_encoded w xs : 0 ≤ w → Z.of_nat (length (encoded w xs)) = Z.of_nat (length xs) * w.
Proof.
  intros. induction xs as [|x xs IH]; [done|]. rewrite encoded_cons, length_app, length_le by done. cbn. lia.
Qed.

(** ** Runs of the operations on a block *)

Section Runs.
Context `{Host}.
Context (garbage : nat → Z).

(** A block with encoding [w], length [n] and contents [C]. *)
Definition block (w n : Z) (C : list Z) : intset := mkIntset (intrev32ifbe w) (intrev32ifbe n) C.

Lemma getEncoding_run w n C : wide w → getEncoding (block w n C) = Ok (w, block w n C).
Proof.
  intros Hw. unfold getEncoding, gets. cbn. rewrite intrev32ifbe_involutive; [done|].
  destruct Hw as [-> |[-> | ->]]; lia.
Qed.

Lemma getLength_run w n C : 0 ≤ n < 2 ^ 32 → getLength (block w n C) = Ok (n, block w n C).
Proof. intros Hn. unfold getLength, gets. cbn. by rewrite intrev32ifbe_involutive. Qed.

Lemma setEncoding_run w w' n C : setEncoding w' (block w n C) = Ok (tt, block w' n C).
Proof. done. Qed.

Lemma setLength_run w n n' C : setLength n' (block w n C) = Ok (tt, block w n' C).
Proof. done. Qed.

Lemma readMem_run w n A B D off k : off = Z.of_nat (length A) → k = Z.of_nat (length B) →
  readMem off k (block w n (A ++ B ++ D)) = Ok (B, block w n (A ++ B ++ D)).
Proof.
  intros -> ->. unfold readMem. rewrite (bind_run _ _ _ (A ++ B ++ D) (block w n (A ++ B ++ D))) by done.
  rewrite !length_app. replace (_ && _) with true by lia.
  rewrite !Nat2Z.id, drop_app_length, take_app_length. done.
Qed.

Lemma writeMem_run w n A B D off x : off = Z.of_nat (length A) → length x = length B →
  writeMem off x (block w n (A ++ B ++ D)) = Ok (tt, block w n (A ++ x ++ D)).
Proof.
  intros -> Hx. unfold writeMem. rewrite (bind_run _ _ _ (block w n (A ++ B ++ D)) (block w n (A ++ B ++ D))) by done.
  cbn [is_contents block]. rewrite !length_app, Hx. replace (_ && _) with true by lia.
  unfold put, block. cbn. rewrite Nat2Z.id, take_app_length, (assoc_L (++) A B D), <-length_app, drop_app_length. done.
Qed.

Lemma getEncoded_run w' n w A v D pos : wide w → fits w v → Z.of_nat (length A) = pos * w →
  _intsetGetEncoded pos w (block w' n (A ++ le w v ++ D)) = Ok (v, block w' n (A ++ le w v ++ D)).
Proof.
  intros Hw Hv HA. pose proof (toSigned_le w v Hw Hv) as Hs. unfold _intsetGetEncoded.
  destruct Hw as [-> |[-> | ->]]; cbn [Z.eqb INTSET_ENC_INT64 INTSET_ENC_INT32 Pos.eqb];
    (erewrite bind_run by (apply readMem_run; [done|by rewrite length_le]));
    unfold memrev16ifbe, memrev32ifbe, memrev64ifbe, mret, M_ret; rewrite ?HA;
    [erewrite (memrev_loaded 2)|erewrite (memrev_loaded 4)|erewrite (memrev_loaded 8)];
    rewrite ?Hs; try (by apply length_le); auto using memrev16_reverse, memrev32_reverse, memrev64_reverse.
Qed.

Lemma intsetGet_run w n A v D pos : wide w → fits w v → Z.of_nat (length A) = pos * w →
  _intsetGet pos (block w n (A ++ le w v ++ D)) = Ok (v, block w n (A ++ le w v ++ D)).
Proof.
  intros Hw Hv HA. unfold _intsetGet. erewrite bind_run by by apply getEncoding_run.
  replace (u8 w) with w by by destruct Hw as [-> |[-> | ->]]. by apply getEncoded_run.
Qed.

Lemma intsetSet_run w n A B D pos v : wide w → Z.of_nat (length A) = pos * w → Z.of_nat (length B) = w →
  _intsetSet pos v (block w n (A ++ B ++ D)) = Ok (tt, block w n (A ++ le w v ++ D)).
Proof.
  intros Hw HA HB. unfold _intsetSet. erewrite bind_run by by apply getEncoding_run.
  assert (length (le w v) = length B) as Hlen by (rewrite length_le; destruct Hw; lia).
  destruct Hw as [-> |[-> | ->]]; cbn [Z.eqb INTSET_ENC_INT64 INTSET_ENC_INT32 Pos.eqb];
    unfold memrev16ifbe, memrev32ifbe, memrev64ifbe;
    [rewrite (memrev_stored 2)|rewrite (memrev_stored 4)|rewrite (memrev_stored 8)];
    auto using memrev16_reverse, memrev32_reverse, memrev64_reverse, writeMem_run with lia.
Qed.

(** Resizing to more or to fewer values. *)
Lemma intsetResize_grow w n C len : wide w → 0 ≤ len * w < 2 ^ 32 → Z.of_nat (length C) ≤ len * w →
  ∃ G, intsetResize garbage len (block w n C) = Ok (tt, block w n (C ++ G)) ∧
    Z.of_nat (length G) = len * w - Z.of_nat (length C).
Proof.
  intros Hw Hsz Hlen. unfold intsetResize. erewrite bind_run by by apply getEncoding_run.
  unfold u32. rewrite Z.mod_small by done. unfold zrealloc, modify. cbn [is_contents block].
  rewrite take_ge by lia. eexists. split; [done|]. rewrite length_fmap, length_seq. lia.
Qed.

Lemma intsetResize_shrink w n C D len : wide w → 0 ≤ len * w < 2 ^ 32 → Z.of_nat (length C) = len * w →
  intsetResize garbage len (block w n (C ++ D)) = Ok (tt, block w n C).
Proof.
  intros Hw Hsz Hlen. unfold intsetResize. erewrite bind_run by by apply getEncoding_run.
  unfold u32. rewrite Z.mod_small by done. unfold zrealloc, modify. cbn [is_contents block is_encoding is_length].
  rewrite take_app_length' by lia. rewrite length_app. replace (_ - _)%nat with 0%nat by lia. cbn. by rewrite app_nil_r.
Qed.

(** ** The sets *)

Record is_rep (w : Z) (xs : list Z) (s : intset) : Prop := {
  rep_block : s = block w (Z.of_nat (length xs)) (encoded w xs);
  rep_wide : wide w;
  rep_sorted : StronglySorted Z.lt xs;
  rep_fits : Forall (fits w) xs;
  rep_small : Z.of_nat (length xs) * 8 < 2 ^ 32 }.

Lemma rep_getLength w xs s : is_rep w xs s → getLength s = Ok (Z.of_nat (length xs), s).
Proof. intros [-> _ _ _ ?]. apply getLength_run. lia. Qed.

Lemma rep_getEncoding w xs s : is_rep w xs s → getEncoding s = Ok (w, s).
Proof. intros [-> ? _ _ _]. by apply getEncoding_run. Qed.

Lemma rep_get w xs s i x : is_rep w xs s → xs !! i = Some x → _intsetGet (Z.of_nat i) s = Ok (x, s).
Proof.
  intros [-> Hw _ Hf _] Hi. pose proof (Forall_lookup_1 _ _ _ _ Hf Hi) as Hx.
  rewrite <-(take_drop_middle xs i x Hi) at 2 4. rewrite encoded_app, encoded_cons.
  apply intsetGet_run; [done..|]. rewrite length_encoded by (destruct Hw; lia).
  rewrite length_take_le; [done|]. apply lookup_lt_Some in Hi. lia.
Qed.

(** *** Search *)

(** [value] is between the values before position [i] and those from [i] on. *)
Definition separates (xs : list Z) (value i : Z) : Prop :=
  0 ≤ i ≤ Z.of_nat (length xs) ∧
  ∀ j x, xs !! j = Some x → (Z.of_nat j < i → x < value) ∧ (i ≤ Z.of_nat j → value < x).

Lemma sorted_lookup xs i j x y : StronglySorted Z.lt xs → xs !! i = Some x → xs !! j = Some y → (i < j)%nat → x < y.
Proof.
  intros Hs. revert i j. induction Hs as [|z xs Hs IH Hz]; intros i j Hi Hj Hij; [done|].
  destruct j as [|j]; [lia|]. destruct i as [|i].
  - simplify_eq/=. rewrite Forall_lookup in Hz. eauto.
  - apply (IH i j); [done..|lia].
Qed.

Lemma mid_between min max : 0 ≤ min ≤ max → max < 2 ^ 30 →
  i32 (Z.shiftr (u32 (u32 min + u32 max)) 1) = (min + max) / 2 ∧ min ≤ (min + max) / 2 ≤ max.
Proof.
  intros Hmin Hmax. unfold u32, i32. rewrite (Z.mod_small min), (Z.mod_small max) by lia.
  rewrite (Z.mod_small (min + max)), Z.shiftr_div_pow2 by lia. change (2 ^ 1) with 2.
  assert (min ≤ (min + max) / 2 ≤ max) by (Z.div_mod_to_equations; lia).
  split; [|done]. rewrite Z.mod_small; lia.
Qed.

Lemma searchLoop_run w xs s value fuel min max mid cur : is_rep w xs s →
  0 ≤ min → max < Z.of_nat (length xs) → min ≤ max + 1 → (min ≤ max ∨ cur ≠ value) →
  (∀ j x, xs !! j = Some x → (Z.of_nat j < min → x < value) ∧ (max < Z.of_nat j → value < x)) →
  max - min + 1 < Z.of_nat fuel →
  ∃ min' mid' cur', searchLoop fuel value min max mid cur s = Ok ((min', mid', cur'), s) ∧
    ((cur' = value ∧ ∃ i, mid' = Z.of_nat i ∧ xs !! i = Some value) ∨
     (cur' ≠ value ∧ separates xs value min')).
Proof.
  intros Hr. pose proof (rep_small _ _ _ Hr) as Hsm.
  revert min max mid cur. induction fuel as [|fuel IH]; intros min max mid cur Hmin Hmax Hle Hcur Hsep Hfuel; [lia|].
  cbn [searchLoop]. destruct (Z.leb_spec min max) as [Hmm|Hmm].
  - destruct (mid_between min max) as [-> Hmid]; [lia..|]. set (m := (min + max) / 2) in *.
    destruct (lookup_lt_is_Some_2 xs (Z.to_nat m)) as [x Hx]; [lia|].
    erewrite bind_run by (rewrite <-(Z2Nat.id m) by lia; by eapply rep_get). cbn beta iota.
    assert (∀ z, 0 ≤ z + 1 ≤ 2 ^ 30 → i32 z = z) as Hi32 by (intros; unfold i32; rewrite Z.mod_small; lia).
    destruct (Z.ltb_spec x value) as [Hlt|Hge]; [|destruct (Z.ltb_spec value x) as [Hgt|]].
    + rewrite Hi32 by lia. apply IH; [lia..| |lia]. intros j y Hy. split; [|by apply Hsep].
      intros Hj. destruct (decide (j = Z.to_nat m)) as [->|Hne]; [by simplify_eq|].
      enough (y < x) by lia. eapply sorted_lookup; [by eapply rep_sorted|done..|lia].
    + rewrite Hi32 by lia. apply IH; [lia..| |lia]. intros j y Hy. split; [by apply Hsep|].
      intros Hj. destruct (decide (j = Z.to_nat m)) as [->|Hne]; [by simplify_eq|].
      enough (x < y) by lia. eapply sorted_lookup; [by eapply rep_sorted|done..|lia].
    + assert (x = value) as -> by lia. exists min, m, value. split; [done|]. left. split; [done|].
      exists (Z.to_nat m). split; [lia|done].
  - exists min, mid, cur. split; [done|]. right. split; [lia|]. split; [lia|].
    intros j x Hj. split; [by apply Hsep|]. intros. apply (Hsep j x Hj). lia.
Qed.

(** What a search says: where the value is, or where it belongs. *)
Definition located (xs : list Z) (value : Z) (r : bool * Z) : Prop :=
  ∃ A B, r.2 = Z.of_nat (length A) ∧
    if r.1 then xs = A ++ value :: B else xs = A ++ B ∧ Forall (λ x, x < value) A ∧ Forall (λ x, value < x) B.

Lemma separates_located xs value i : separates xs value i → located xs value (false, i).
Proof.
  intros [Hi Hsep]. exists (take (Z.to_nat i) xs), (drop (Z.to_nat i) xs). cbn. split_and!.
  - rewrite length_take_le by lia. lia.
  - by rewrite take_drop.
  - apply Forall_lookup. intros j x [Hj Hlt]%lookup_take_Some. apply (Hsep j x Hj). lia.
  - apply Forall_lookup. intros j x Hj. rewrite lookup_drop in Hj. apply (Hsep _ x Hj). lia.
Qed.

Lemma found_located xs value i : xs !! i = Some value → located xs value (true, Z.of_nat i).
Proof.
  intros Hi. exists (take i xs), (drop (S i) xs). cbn. split; [|by rewrite take_drop_middle].
  rewrite length_take_le; [done|]. apply lookup_lt_Some in Hi. lia.
Qed.

Lemma i32_id z : - 2 ^ 31 ≤ z < 2 ^ 31 → i32 z = z.
Proof. intros. unfold i32. rewrite Z.mod_small; lia. Qed.

Lemma intsetSearch_run w xs s value : is_rep w xs s →
  ∃ r, intsetSearch value s = Ok (r, s) ∧ located xs value r.
Proof.
  intros Hr. pose proof (rep_small _ _ _ Hr) as Hsm. pose proof (rep_sorted _ _ _ Hr) as Hso.
  unfold intsetSearch. erewrite bind_run by by eapply rep_getLength.
  rewrite i32_id by lia. destruct (Z.eqb_spec (Z.of_nat (length xs)) 0) as [Hz|Hz].
  { eexists. split; [done|]. apply separates_located. split; [lia|]. intros j x Hj%lookup_lt_Some. lia. }
  destruct (lookup_lt_is_Some_2 xs (length xs - 1)) as [last Hlast]; [lia|].
  destruct (lookup_lt_is_Some_2 xs 0) as [first Hfirst]; [lia|].
  erewrite bind_run by (replace (_ - 1) with (Z.of_nat (length xs - 1)) by lia; by eapply rep_get).
  destruct (Z.ltb_spec last value) as [Hl|Hl].
  { eexists. split; [done|]. apply separates_located. split; [lia|]. intros j x Hj.
    pose proof (lookup_lt_Some _ _ _ Hj). split; [|lia]. intros _.
    destruct (decide (j = length xs - 1)%nat) as [->|]; [by simplify_eq|].
    enough (x < last) by lia. eapply sorted_lookup; [done..|lia]. }
  erewrite bind_run by (apply (rep_get w xs s 0 first); done).
  destruct (Z.ltb_spec value first) as [Hf|Hf].
  { eexists. split; [done|]. apply separates_located. split; [lia|]. intros j x Hj.
    split; [lia|]. intros _. destruct j as [|j]; [by simplify_eq|].
    enough (first < x) by lia. eapply sorted_lookup; [done..|lia]. }
  destruct (searchLoop_run w xs s value (S (Z.to_nat (Z.of_nat (length xs)))) 0 (Z.of_nat (length xs) - 1) (-1) (-1))
    as (min' & mid' & cur' & Hrun & Hres); [done|lia..| |lia|].
  { intros j x Hj%lookup_lt_Some. lia. }
  rewrite (bind_run _ _ _ _ _ Hrun). cbn beta iota.
  destruct Hres as [[-> (i & -> & Hi)]|[Hne Hsep]].
  - rewrite Z.eqb_refl. eexists. split; [done|]. pose proof (lookup_lt_Some _ _ _ Hi).
    rewrite u32_id by lia. by apply found_located.
  - replace (value =? cur') with false by lia. eexists. split; [done|]. destruct (Hsep) as [Hb _].
    rewrite u32_id by lia. by apply separates_located.
Qed.

(** *** Moving the tail *)

Lemma memmove_run w n P T Q P' X Q' src dst k : P ++ T ++ Q = P' ++ X ++ Q' →
  src = Z.of_nat (length P) → dst = Z.of_nat (length P') → k = Z.of_nat (length T) → length X = length T →
  memmove dst src k (block w n (P ++ T ++ Q)) = Ok (tt, block w n (P' ++ T ++ Q')).
Proof.
  intros Heq -> -> -> HX. unfold memmove. erewrite bind_run by by apply readMem_run.
  rewrite Heq. by apply writeMem_run.
Qed.

Lemma intsetMoveTail_run w n P T Q P' X Q' from to : wide w → 0 ≤ from ≤ n → n * w < 2 ^ 32 →
  P ++ T ++ Q = P' ++ X ++ Q' →
  Z.of_nat (length P) = from * w → Z.of_nat (length P') = to * w →
  Z.of_nat (length T) = (n - from) * w → length X = length T →
  intsetMoveTail from to (block w n (P ++ T ++ Q)) = Ok (tt, block w n (P' ++ T ++ Q')).
Proof.
  intros Hw Hfrom Hn Heq HP HP' HT HX. assert (0 ≤ n < 2 ^ 32) by (destruct Hw as [-> |[-> | ->]]; lia).
  unfold intsetMoveTail. erewrite bind_run by by apply getLength_run.
  erewrite bind_run by by apply getEncoding_run.
  rewrite (u32_id (n - from)) by lia.
  destruct Hw as [-> |[-> | ->]]; cbn [Z.eqb INTSET_ENC_INT64 INTSET_ENC_INT32 Pos.eqb]; rewrite u32_id by lia;
    apply (memmove_run _ _ _ _ _ _ X); done.
Qed.

(** *** Adding a value of the encoding *)

Lemma sorted_insert A v B : StronglySorted Z.lt (A ++ B) → Forall (λ x, x < v) A → Forall (λ x, v < x) B →
  StronglySorted Z.lt (A ++ v :: B).
Proof.
  rewrite !StronglySorted_app, StronglySorted_cons, !Forall_forall. intros (HAB & HA & HB) Hlt Hgt.
  split_and!; [|done..]. intros x y Hx [->|Hy]%elem_of_cons; [by apply Hlt|by apply HAB].
Qed.

(** Splitting bytes at a length. *)
Lemma split_at (C : list Z) k : (k ≤ length C)%nat → ∃ X Y, C = X ++ Y ∧ length X = k.
Proof. intros. exists (take k C), (drop k C). rewrite take_drop, length_take_le; done. Qed.

Lemma wide_bounds w : wide w → 2 ≤ w ≤ 8.
Proof. unfold wide. lia. Qed.

(** The bytes of the values at two places of a list. *)
Lemma length_encoded_nat w xs : wide w → length (encoded w xs) = (length xs * Z.to_nat w)%nat.
Proof. intros Hw%wide_bounds. pose proof (length_encoded w xs). lia. Qed.

(** The tail after [A] is moved by one place to the right, and the value stored. *)
Lemma insert_run w A v B G : wide w → Z.of_nat (length (A ++ B) + 1) * 8 < 2 ^ 32 → Z.of_nat (length G) = w →
  let n := Z.of_nat (length (A ++ B)) in let pos := Z.of_nat (length A) in
  ((if pos <? n then intsetMoveTail pos (u32 (pos + 1)) else mret tt) ;; _intsetSet (i32 pos) v)
    (block w n (encoded w (A ++ B) ++ G)) = Ok (tt, block w n (encoded w (A ++ v :: B))).
Proof.
  intros Hw Hsm HG n pos. pose proof (wide_bounds w Hw). rewrite length_app in Hsm.
  assert (n = pos + Z.of_nat (length B)) as Hn by (unfold n, pos; rewrite length_app; lia).
  assert (pos = Z.of_nat (length A)) as Hpos by done. clearbody n pos.
  rewrite i32_id, u32_id by lia. rewrite !encoded_app, encoded_cons, <-(assoc_L (++)).
  destruct (split_at (encoded w B ++ G) (Z.to_nat w)) as (X & Y & HXY & HX).
  { rewrite length_app. lia. }
  assert (length Y = length (encoded w B)) as HY.
  { apply (f_equal length) in HXY. rewrite !length_app in HXY. lia. }
  rewrite HXY. rewrite (bind_run _ _ _ tt (block w n (encoded w A ++ X ++ encoded w B))).
  - apply intsetSet_run; [done|rewrite length_encoded by lia; nia|lia].
  - destruct (Z.ltb_spec pos n).
    + rewrite <-HXY. pose proof (intsetMoveTail_run w n (encoded w A) (encoded w B) G (encoded w A ++ X) Y []
        pos (pos + 1)) as Hm. rewrite <-!(assoc_L (++)), !app_nil_r in Hm.
      pose proof (length_encoded w A). pose proof (length_encoded w B).
      apply Hm; rewrite ?length_app; [done|lia|nia|by rewrite HXY|nia..|lia].
    + assert (B = []) as -> by (destruct B; [done|cbn in *; lia]). cbn in *.
      destruct Y; [|done]. done.
Qed.

Lemma insert_rep w A v B s : is_rep w (A ++ B) s → fits w v → Forall (λ x, x < v) A → Forall (λ x, v < x) B →
  Z.of_nat (length (A ++ B) + 1) * 8 < 2 ^ 32 →
  is_rep w (A ++ v :: B) (block w (Z.of_nat (length (A ++ B)) + 1) (encoded w (A ++ v :: B))).
Proof.
  intros [_ Hw Hso Hf _] Hv HA HB Hsm. rewrite length_app in Hsm. split; [|done|by apply sorted_insert|..].
  - f_equal. rewrite !length_app. cbn. lia.
  - rewrite Forall_app, Forall_cons in *. naive_solver.
  - rewrite length_app. cbn. lia.
Qed.

Lemma intsetAdd_same_run w xs s v : is_rep w xs s → fits 8 v → fits w v → Z.of_nat (length xs + 1) * 8 < 2 ^ 32 →
  ∃ b s', intsetAdd garbage v s = Ok (b, s') ∧
    if b then ∃ A B, xs = A ++ B ∧ Forall (λ x, x < v) A ∧ Forall (λ x, v < x) B ∧ is_rep w (A ++ v :: B) s'
    else v ∈ xs ∧ s' = s.
Proof.
  intros Hr Hv8 Hv Hsm. pose proof (rep_wide _ _ _ Hr) as Hw. pose proof (wide_bounds w Hw).
  pose proof (proj2 (valueEncoding_fits v w Hv8 Hw) Hv) as Henc. unfold intsetAdd.
  erewrite bind_run by by eapply rep_getEncoding. replace (w <? _) with false by lia.
  destruct (intsetSearch_run w xs s v Hr) as ([b pos] & Hrun & A & B & Hpos & Hloc). cbn in Hpos, Hloc.
  rewrite (bind_run _ _ _ _ _ Hrun). cbn beta iota. destruct b.
  { exists false, s. split_and!; [done| |done]. rewrite Hloc. set_solver. }
  destruct Hloc as (-> & HA & HB). erewrite bind_run by by eapply rep_getLength.
  pose proof Hr as [-> _ Hso Hf _]. rewrite u32_id by lia.
  destruct (intsetResize_grow w (Z.of_nat (length (A ++ B))) (encoded w (A ++ B)) (Z.of_nat (length (A ++ B)) + 1))
    as (G & HG & HGl); [done|nia|rewrite length_encoded; lia|].
  rewrite (bind_run _ _ _ _ _ HG), Hpos. rewrite length_encoded in HGl by lia.
  eexists true, _. split.
  { etrans; [eapply bind_run_assoc, insert_run; [done..|lia]|]. by erewrite bind_run by apply setLength_run. }
  exists A, B. split_and!; [done..|]. by eapply insert_rep.
Qed.

(** *** Upgrading the encoding *)

(** The loop copies the values from the last one on: what it has not read yet is
    before what it has written. *)
Lemma upgradeLoop_run cur new n prepend ys Mid B : wide cur → wide new → cur ≤ new → 0 ≤ prepend ≤ 1 →
  Forall (fits cur) ys → Z.of_nat (length ys) < 2 ^ 29 →
  Z.of_nat (length (encoded cur ys ++ Mid)) = (Z.of_nat (length ys) + prepend) * new →
  ∃ P, Z.of_nat (length P) = prepend * new ∧
    upgradeLoop (length ys) prepend cur (block new n (encoded cur ys ++ Mid ++ B)) =
      Ok (tt, block new n (P ++ encoded new ys ++ B)).
Proof.
  intros Hcur Hnew Hle Hpre. pose proof (wide_bounds cur Hcur). revert Mid B.
  induction ys as [|y ys IH] using rev_ind; intros Mid B Hf Hsm Hlen.
  { exists Mid. split; [done|]. done. }
  rewrite length_app in *. cbn [length] in *. rewrite Forall_app, Forall_singleton in Hf. destruct Hf as [Hf Hy].
  replace (length ys + 1)%nat with (S (length ys)) by lia. cbn [upgradeLoop].
  pose proof (length_encoded cur ys ltac:(lia)) as Hys. rewrite encoded_app, encoded_cons in *. cbn [encoded fmap list_fmap concat] in *.
  rewrite app_nil_r in *. rewrite !length_app, length_le in Hlen by lia.
  assert (Z.of_nat (length ys) * cur ≤ (Z.of_nat (length ys) + prepend) * new) as Hroom by nia.
  assert (Z.of_nat (length (encoded cur ys)) + cur + Z.of_nat (length Mid) =
    (Z.of_nat (length ys) + prepend) * new + new) as Hlen' by (cbn in Hlen; lia).
  rewrite <-!(assoc_L (++)). erewrite bind_run by (apply getEncoded_run; [done..|lia]).
  destruct (split_at (le cur y ++ Mid) (Z.to_nat ((Z.of_nat (length ys) + prepend) * new) - length (encoded cur ys)))
    as (Mid' & Y & HMY & HMid').
  { rewrite length_app, length_le by lia. lia. }
  assert (length (Mid' ++ Y) = Z.to_nat cur + length Mid)%nat as HY.
  { rewrite <-HMY, length_app, length_le by lia. done. }
  rewrite length_app in HY.
  rewrite (bind_run _ _ _ tt (block new n (encoded cur ys ++ Mid' ++ le new y ++ B))).
  2:{ rewrite (assoc_L (++) (le cur y)), HMY, <-!(assoc_L (++)), i32_id, !(assoc_L (++) (encoded cur ys)) by lia.
      apply intsetSet_run; [done|rewrite length_app; lia|lia]. }
  destruct (IH Mid' (le new y ++ B)) as (P & HP & Hrun); [done|lia|rewrite length_app; lia|].
  exists P. split; [done|]. rewrite Hrun, encoded_app, encoded_cons. cbn [encoded fmap list_fmap concat].
  by rewrite app_nil_r, <-(assoc_L (++)).
Qed.

(** A value out of the range of the encoding is beyond one end of the set. *)
Lemma upgrade_end w xs v : wide w → Forall (fits w) xs → ¬ fits w v →
  if v <? 0 then Forall (λ x, v < x) xs else Forall (λ x, x < v) xs.
Proof.
  intros Hw Hf Hv. assert (0 < 2 ^ (8 * w - 1)) by (apply Z.pow_pos_nonneg; destruct Hw; lia). unfold fits in *.
  destruct (Z.ltb_spec v 0); (eapply Forall_impl; [done|]); cbn; intros x Hx; lia.
Qed.

Lemma fits_mono w w' v : wide w → wide w' → w ≤ w' → fits w v → fits w' v.
Proof.
  intros Hw Hw' Hle. pose proof (Z.pow_le_mono_r 2 (8 * w - 1) (8 * w' - 1)). unfold fits. destruct Hw; lia.
Qed.

Lemma upgraded_rep cur new A v B s : is_rep cur (A ++ B) s → wide new → cur ≤ new → fits new v →
  Forall (λ x, x < v) A → Forall (λ x, v < x) B → Z.of_nat (length (A ++ B) + 1) * 8 < 2 ^ 32 →
  is_rep new (A ++ v :: B) (block new (Z.of_nat (length (A ++ B)) + 1) (encoded new (A ++ v :: B))).
Proof.
  intros [_ Hw Hso Hf Hsm] Hnew Hle Hv HA HB Hsm'.
  apply (insert_rep new A v B (block new (Z.of_nat (length (A ++ B))) (encoded new (A ++ B)))); [|done..].
  split; [done..| |done]. eapply Forall_impl; [done|]. intros x. by apply fits_mono.
Qed.

Lemma intsetUpgradeAndAdd_run cur xs s v : is_rep cur xs s → fits 8 v → ¬ fits cur v →
  Z.of_nat (length xs + 1) * 8 < 2 ^ 32 →
  ∃ s', intsetUpgradeAndAdd garbage v s = Ok (tt, s') ∧
    is_rep (_intsetValueEncoding v) (if v <? 0 then v :: xs else xs ++ [v]) s'.
Proof.
  intros Hr Hv8 Hv Hsm. pose proof (rep_wide _ _ _ Hr) as Hcur. pose proof (valueEncoding_wide v) as Hnew.
  pose proof (valueEncoding_fits v cur Hv8 Hcur) as Hle. pose proof (upgrade_end cur xs v Hcur (rep_fits _ _ _ Hr) Hv) as Hend.
  pose proof (proj1 (valueEncoding_fits v _ Hv8 Hnew) ltac:(done)) as Hvnew.
  set (new := _intsetValueEncoding v) in *. 
  assert (cur ≤ new) as Hcn by (destruct (Z.le_gt_cases new cur) as [Hc|]; [by apply Hle in Hc|lia]).
  pose proof (wide_bounds cur Hcur). pose proof (wide_bounds new Hnew).
  pose proof (length_encoded cur xs ltac:(lia)) as Hlen. pose proof (length_encoded new xs ltac:(lia)) as Hlen'.
  set (n := Z.of_nat (length xs)) in *. unfold intsetUpgradeAndAdd.
  erewrite bind_run by by eapply rep_getEncoding. erewrite bind_run by by eapply rep_getLength.
  replace (u8 cur) with cur by by destruct Hcur as [-> |[-> | ->]]. fold n new.
  pose proof Hr as [-> _ Hso Hf _]. erewrite bind_run by apply setEncoding_run.
  destruct (intsetResize_grow new n (encoded cur xs) (n + 1)) as (G & HG & HGl); [done|nia..|].
  rewrite u32_id, i32_id by lia. rewrite (bind_run _ _ _ _ _ HG). replace (Z.to_nat n) with (length xs) by (unfold n; lia).
  destruct (v <? 0) eqn:Hneg; cbn [Z.eqb Pos.eqb].
  - destruct (upgradeLoop_run cur new n 1 xs G []) as (P & HP & Hup); [done..|lia|done|lia|rewrite length_app; lia|].
    rewrite !app_nil_r in Hup. erewrite bind_run by done.
    erewrite bind_run by (apply (intsetSet_run new n [] P); [done|done|lia]).
    eexists. split; [apply setLength_run|]. by eapply (upgraded_rep cur new []).
  - destruct (split_at G (length G - Z.to_nat new)) as (Mid & B & -> & HMid); [lia|]. rewrite length_app in *.
    destruct (upgradeLoop_run cur new n 0 xs Mid B) as (P & HP & Hup); [done..|lia|done|lia|rewrite length_app; nia|].
    destruct P as [|]; [|cbn in HP; lia]. erewrite bind_run by done. cbn [app].
    rewrite <-(app_nil_r B). erewrite bind_run by (apply intsetSet_run; [done|lia|nia]).
    eexists. split; [apply setLength_run|]. rewrite app_nil_r in *.
    pose proof (upgraded_rep cur new xs v [] _ ltac:(by rewrite app_nil_r) Hnew Hcn Hvnew Hend) as Hu.
    rewrite encoded_app, encoded_cons, !app_nil_r in Hu. by apply Hu.
Qed.

Lemma intsetAdd_run w xs s v : is_rep w xs s → fits 8 v → Z.of_nat (length xs + 1) * 8 < 2 ^ 32 →
  ∃ b s', intsetAdd garbage v s = Ok (b, s') ∧
    if b then ∃ A B, xs = A ++ B ∧ Forall (λ x, x < v) A ∧ Forall (λ x, v < x) B ∧
      is_rep (Z.max w (_intsetValueEncoding v)) (A ++ v :: B) s'
    else v ∈ xs ∧ s' = s ∧ Z.max w (_intsetValueEncoding v) = w.
Proof.
  intros Hr Hv8 Hsm. pose proof (rep_wide _ _ _ Hr) as Hw. pose proof (valueEncoding_fits v w Hv8 Hw) as Hfit.
  destruct (Z.le_gt_cases (_intsetValueEncoding v) w) as [Henc|Henc].
  - rewrite Z.max_l by lia. destruct (intsetAdd_same_run w xs s v) as (b & s' & Hrun & Hb); [done..|by apply Hfit|done|].
    exists b, s'. split; [done|]. destruct b; naive_solver.
  - rewrite Z.max_r by lia. assert (¬ fits w v) as Hv by (intros ?%Hfit; lia).
    destruct (intsetUpgradeAndAdd_run w xs s v) as (s' & Hrun & Hr'); [done..|].
    pose proof (upgrade_end w xs v Hw (rep_fits _ _ _ Hr) Hv) as Hend. exists true, s'. split.
    { unfold intsetAdd. erewrite bind_run by by eapply rep_getEncoding. replace (w <? _) with true by lia.
      by rewrite (bind_run _ _ _ _ _ Hrun). }
    destruct (v <? 0); [exists [], xs|exists xs, []]; rewrite ?app_nil_r; done.
Qed.

(** *** Removing a value *)

Lemma remove_run w A v B : wide w → Z.of_nat (length (A ++ v :: B)) * 8 < 2 ^ 32 →
  let n := Z.of_nat (length (A ++ v :: B)) in let pos := Z.of_nat (length A) in
  ((if pos <? u32 (n - 1) then intsetMoveTail (u32 (pos + 1)) pos else mret tt) ;; intsetResize garbage (u32 (n - 1)))
    (block w n (encoded w (A ++ v :: B))) = Ok (tt, block w n (encoded w (A ++ B))).
Proof.
  intros Hw Hsm n pos. pose proof (wide_bounds w Hw). pose proof (length_encoded w A ltac:(lia)) as HA.
  pose proof (length_encoded w B ltac:(lia)) as HB. pose proof (length_le w v ltac:(lia)) as Hv.
  assert (n = pos + 1 + Z.of_nat (length B)) as Hn by (unfold n, pos; rewrite length_app; cbn; lia).
  assert (pos = Z.of_nat (length A)) as Hpos by done. clearbody n pos. rewrite length_app in Hsm. cbn in Hsm.
  rewrite !u32_id by lia. rewrite !encoded_app, encoded_cons.
  destruct (split_at (le w v ++ encoded w B) (length (encoded w B))) as (X & Y & HXY & HX).
  { rewrite length_app. lia. }
  rewrite (bind_run _ _ _ tt (block w n ((encoded w A ++ encoded w B) ++ if pos <? n - 1 then Y else le w v))).
  - apply intsetResize_shrink; [done|nia|]. rewrite length_app. nia.
  - destruct (Z.ltb_spec pos (n - 1)).
    + pose proof (intsetMoveTail_run w n (encoded w A ++ le w v) (encoded w B) [] (encoded w A) X Y (pos + 1) pos) as Hm.
      rewrite <-!(assoc_L (++)), !app_nil_r in Hm. rewrite <-(assoc_L (++)).
      apply Hm; rewrite ?length_app; [done|lia|nia|by rewrite HXY|nia..].
    + assert (B = []) as -> by (destruct B; [done|cbn in *; lia]). unfold mret, M_ret. cbn. by rewrite !app_nil_r.
Qed.

Lemma intsetRemove_run w xs s v : is_rep w xs s → fits 8 v →
  ∃ b s', intsetRemove garbage v s = Ok (b, s') ∧
    if b then ∃ A B, xs = A ++ v :: B ∧ is_rep w (A ++ B) s' else v ∉ xs ∧ s' = s.
Proof.
  intros Hr Hv8. pose proof (rep_wide _ _ _ Hr) as Hw. unfold intsetRemove.
  erewrite bind_run by by eapply rep_getEncoding. pose proof (valueEncoding_fits v w Hv8 Hw) as Hfit.
  destruct (Z.leb_spec (_intsetValueEncoding v) w) as [Henc|Henc].
  2:{ exists false, s. split_and!; [done| |done]. intros Hin. pose proof (rep_fits _ _ _ Hr) as Hf.
      rewrite Forall_forall in Hf. apply Hf, Hfit in Hin. lia. }
  destruct (intsetSearch_run w xs s v Hr) as ([b pos] & Hrun & A & B & Hpos & Hloc). cbn in Hpos, Hloc.
  rewrite (bind_run _ _ _ _ _ Hrun). cbn beta iota. destruct b.
  - subst xs pos. pose proof Hr as [-> _ Hso Hf Hsm]. erewrite bind_run by by eapply rep_getLength.
    eexists true, _. split.
    { etrans; [by eapply bind_run_assoc, remove_run|]. by erewrite bind_run by apply setLength_run. }
    exists A, B. split; [done|]. rewrite length_app in Hsm. cbn in Hsm. split; [|done|..].
    + f_equal. rewrite u32_id; rewrite !length_app; cbn; lia.
    + rewrite StronglySorted_app, StronglySorted_cons in *. set_solver.
    + rewrite Forall_app, Forall_cons in *. naive_solver.
    + rewrite length_app. lia.
  - destruct Hloc as (-> & HA & HB). exists false, s. split_and!; [done| |done].
    rewrite Forall_forall in HA, HB. intros [Hin|Hin]%elem_of_app; [apply HA in Hin|apply HB in Hin]; lia.
Qed.

Lemma located_found xs v r : located xs v r → r.1 = bool_decide (v ∈ xs).
Proof.
  intros (A & B & _ & Hloc). destruct (r.1).
  - symmetry. apply bool_decide_eq_true_2. rewrite Hloc. set_solver.
  - destruct Hloc as (-> & HA & HB). symmetry. apply bool_decide_eq_false_2. rewrite Forall_forall in HA, HB.
    intros [Hin|Hin]%elem_of_app; [apply HA in Hin|apply HB in Hin]; lia.
Qed.

Lemma intsetFind_run w xs s v : is_rep w xs s → fits 8 v → intsetFind v s = Ok (bool_decide (v ∈ xs), s).
Proof.
  intros Hr Hv8. pose proof (rep_wide _ _ _ Hr) as Hw. unfold intsetFind.
  erewrite bind_run by by eapply rep_getEncoding. pose proof (valueEncoding_fits v w Hv8 Hw) as Hfit.
  destruct (Z.leb_spec (_intsetValueEncoding v) w) as [Henc|Henc].
  - destruct (intsetSearch_run w xs s v Hr) as (r & Hrun & Hloc). rewrite (bind_run _ _ _ _ _ Hrun).
    by rewrite (located_found _ _ _ Hloc).
  - rewrite bool_decide_eq_false_2; [done|]. intros Hin. pose proof (rep_fits _ _ _ Hr) as Hf.
    rewrite Forall_forall in Hf. apply Hf, Hfit in Hin. lia.
Qed.

Lemma intsetGet_at_run w xs s pos : is_rep w xs s → 0 ≤ pos < 2 ^ 32 →
  intsetGet pos s = Ok (xs !! Z.to_nat pos, s).
Proof.
  intros Hr Hpos. pose proof (rep_small _ _ _ Hr) as Hsm. unfold intsetGet.
  erewrite bind_run by by eapply rep_getLength. destruct (Z.ltb_spec pos (Z.of_nat (length xs))) as [Hlt|Hge].
  - destruct (lookup_lt_is_Some_2 xs (Z.to_nat pos)) as [x Hx]; [lia|]. rewrite i32_id, Hx by lia.
    erewrite bind_run by (rewrite <-(Z2Nat.id pos) by lia; by eapply rep_get). done.
  - rewrite lookup_ge_None_2 by lia. done.
Qed.

Lemma intsetRandom_run w xs s rand : is_rep w xs s → xs ≠ [] →
  ∃ x, intsetRandom rand s = Ok (x, s) ∧ x ∈ xs.
Proof.
  intros Hr Hne. pose proof (rep_small _ _ _ Hr) as Hsm. unfold intsetRandom.
  erewrite bind_run by by eapply rep_getLength. assert (length xs ≠ 0)%nat by by destruct xs.
  replace (_ =? 0) with false by lia. pose proof (Z.mod_pos_bound (u32 rand) (Z.of_nat (length xs)) ltac:(lia)).
  destruct (lookup_lt_is_Some_2 xs (Z.to_nat (u32 rand mod Z.of_nat (length xs)))) as [x Hx]; [lia|].
  exists x. split; [|by eapply list_elem_of_lookup_2]. rewrite i32_id by lia.
  rewrite <-(Z2Nat.id (_ mod _)) by lia. by eapply rep_get.
Qed.

(** ** Sets of integers

    The specification: a finite set, and the width its values are stored in,
    which never shrinks. *)

Inductive isOp :=
  | IsAdd (v : Z)
  | IsRemove (v : Z)
  | IsFind (v : Z)
  | IsGet (pos : Z)
  | IsLen.

Inductive isReply :=
  | ReplyBool (b : bool)
  | ReplyValue (o : option Z)
  | ReplyLen (n : Z).

Definition runIsOp (op : isOp) : M intset isReply :=
  match op with
  | IsAdd v => b ← intsetAdd garbage v; mret (ReplyBool b)
  | IsRemove v => b ← intsetRemove garbage v; mret (ReplyBool b)
  | IsFind v => b ← intsetFind v; mret (ReplyBool b)
  | IsGet pos => o ← intsetGet pos; mret (ReplyValue o)
  | IsLen => n ← intsetLen; mret (ReplyLen n)
  end.

Fixpoint runIsOps (ops : list isOp) : M intset (list isReply) :=
  match ops with
  | [] => mret []
  | op :: ops => r ← runIsOp op; rs ← runIsOps ops; mret (r :: rs)
  end.

End Runs.

(** The members in increasing order. *)
Definition sortedElems (X : gset Z) : list Z := merge_sort Z.le (elements X).

Definition specIsOp (op : isOp) (w : Z) (X : gset Z) : isReply * Z * gset Z :=
  match op with
  | IsAdd v => (ReplyBool (bool_decide (v ∉ X)), Z.max w (_intsetValueEncoding v), {[v]} ∪ X)
  | IsRemove v => (ReplyBool (bool_decide (v ∈ X)), w, X ∖ {[v]})
  | IsFind v => (ReplyBool (bool_decide (v ∈ X)), w, X)
  | IsGet pos => (ReplyValue (sortedElems X !! Z.to_nat pos), w, X)
  | IsLen => (ReplyLen (Z.of_nat (size X)), w, X)
  end.

Fixpoint specIsOps (ops : list isOp) (w : Z) (X : gset Z) : list isReply * Z * gset Z :=
  match ops with
  | [] => ([], w, X)
  | op :: ops =>
      let '(r, w, X) := specIsOp op w X in
      let '(rs, w, X) := specIsOps ops w X in (r :: rs, w, X)
  end.

(** The arguments have the type the code gives them. *)
Definition validIsOp (op : isOp) : Prop :=
  match op with
  | IsAdd v | IsRemove v | IsFind v => fits 8 v
  | IsGet pos => 0 ≤ pos < 2 ^ 32
  | IsLen => True
  end.

Section SetProps.
Context `{Host} (garbage : nat → Z).

Lemma sorted_le_lt xs : StronglySorted Z.lt xs → StronglySorted Z.le xs.
Proof.
  induction 1 as [|x xs Hs IH Hx]; constructor; [done|]. eapply Forall_impl; [done|]. cbn. lia.
Qed.

Lemma sorted_NoDup xs : StronglySorted Z.lt xs → NoDup xs.
Proof.
  induction 1 as [|x xs Hs IH Hx]; constructor; [|done]. intros Hin. rewrite Forall_forall in Hx.
  apply Hx in Hin. lia.
Qed.

Lemma rep_sortedElems w xs s : is_rep w xs s → sortedElems (list_to_set xs) = xs.
Proof.
  intros Hr. pose proof (rep_sorted _ _ _ Hr) as Hs. unfold sortedElems. apply (StronglySorted_unique Z.le).
  - apply StronglySorted_merge_sort; apply _.
  - by apply sorted_le_lt.
  - rewrite merge_sort_Permutation. by apply elements_list_to_set, sorted_NoDup.
Qed.

Lemma rep_size w xs s : is_rep w xs s → size (list_to_set xs : gset Z) = length xs.
Proof. intros Hr. apply size_list_to_set, sorted_NoDup. by apply (rep_sorted _ _ _ Hr). Qed.

Lemma runIsOp_refines op w xs s : is_rep w xs s → validIsOp op → Z.of_nat (length xs + 1) * 8 < 2 ^ 32 →
  ∃ s' xs', let '(r, w', X') := specIsOp op w (list_to_set xs) in
    runIsOp garbage op s = Ok (r, s') ∧ is_rep w' xs' s' ∧ X' = list_to_set xs' ∧ (length xs' ≤ length xs + 1)%nat.
Proof.
  intros Hr Hv Hsm. pose proof (rep_wide _ _ _ Hr) as Hw. destruct op as [v|v|v|pos|]; cbn [specIsOp runIsOp validIsOp] in *.
  - destruct (intsetAdd_run garbage w xs s v) as (b & s' & Hrun & Hb); [done..|].
    rewrite (bind_run _ _ _ _ _ Hrun). destruct b.
    + destruct Hb as (A & B & -> & HA & HB & Hr'). exists s', (A ++ v :: B). split_and!; [|done|set_solver|].
      * unfold mret, M_ret. do 3 f_equal. symmetry. apply bool_decide_eq_true_2. rewrite Forall_forall in HA, HB.
        rewrite elem_of_list_to_set. intros [Hin|Hin]%elem_of_app; [apply HA in Hin|apply HB in Hin]; lia.
      * rewrite !length_app. cbn. lia.
    + destruct Hb as (Hin & -> & ->). exists s, xs. rewrite bool_decide_eq_false_2 by set_solver.
      split_and!; [done..|set_solver|lia].
  - destruct (intsetRemove_run garbage w xs s v) as (b & s' & Hrun & Hb); [done..|].
    rewrite (bind_run _ _ _ _ _ Hrun). destruct b.
    + destruct Hb as (A & B & -> & Hr'). exists s', (A ++ B). rewrite bool_decide_eq_true_2 by set_solver.
      pose proof (sorted_NoDup _ (rep_sorted _ _ _ Hr)) as Hnd. rewrite <-Permutation_middle in Hnd.
      apply NoDup_cons in Hnd as [Hni _]. split_and!; [done..|set_solver|]. rewrite !length_app. cbn. lia.
    + destruct Hb as [Hni ->]. exists s, xs. rewrite bool_decide_eq_false_2 by set_solver.
      split_and!; [done..|set_solver|lia].
  - rewrite (bind_run _ _ _ _ _ (intsetFind_run w xs s v Hr Hv)). exists s, xs. split_and!; [|done..|lia].
    unfold mret, M_ret. do 3 f_equal. apply bool_decide_ext. set_solver.
  - rewrite (bind_run _ _ _ _ _ (intsetGet_at_run w xs s pos Hr Hv)). exists s, xs.
    rewrite (rep_sortedElems w xs s) by done. split_and!; [done..|lia].
  - exists s, xs. rewrite (rep_size w xs s) by done. split_and!; [|done..|lia].
    unfold intsetLen. by erewrite bind_run by by eapply rep_getLength.
Qed.

Lemma runIsOps_refines ops w xs s : is_rep w xs s → Forall validIsOp ops →
  Z.of_nat (length xs + length ops) * 8 < 2 ^ 32 →
  ∃ s' xs', let '(rs, w', X') := specIsOps ops w (list_to_set xs) in
    runIsOps garbage ops s = Ok (rs, s') ∧ is_rep w' xs' s' ∧ X' = list_to_set xs'.
Proof.
  revert w xs s. induction ops as [|op ops IH]; intros w xs s Hr Hv Hsm; [by exists s, xs|].
  apply Forall_cons in Hv as [Hop Hv]. cbn [specIsOps runIsOps length] in *.
  destruct (runIsOp_refines op w xs s) as (s1 & xs1 & Hone); [done..|lia|].
  destruct (specIsOp op w (list_to_set xs)) as [[r w1] X1]. destruct Hone as (Hrun & Hr1 & -> & Hlen).
  destruct (IH w1 xs1 s1) as (s2 & xs2 & Hrest); [done..|lia|]. exists s2, xs2.
  destruct (specIsOps ops w1 (list_to_set xs1)) as [[rs w2] X2]. destruct Hrest as (Hrun' & Hr2 & ->).
  split_and!; [|done..]. rewrite (bind_run _ _ _ _ _ Hrun). by rewrite (bind_run _ _ _ _ _ Hrun').
Qed.

Lemma intsetNew_rep : is_rep 2 [] intsetNew.
Proof.
  split; [|by left|constructor|constructor|done]. unfold intsetNew, block. f_equal.
  unfold intrev32ifbe, ifbe, intrev32, hostInt, hostBytes. destruct BYTE_ORDER; [done|by vm_compute].
Qed.

Lemma blob_block w n C : blob (block w n C) = le 4 w ++ le 4 n ++ C.
Proof. unfold blob, block. cbn. by rewrite !intrev32ifbe_stored. Qed.

(** C35. The integer set, a sorted array of 16, 32 or 64-bit numbers in the byte order
    of little-endian hosts, implements a finite set of integers on hosts of both
    byte orders: in any sequence of fewer than 2^29 operations with 64-bit
    arguments, adding (with and without a change of encoding), removing and
    searching return what the set operations return, and leave exactly the bytes of
    the encoding, the number of elements and the sorted elements, each at the width
    of the widest number ever added, with the length that intsetBlobLen gives. *)
Theorem intset_refines_set ops : Forall validIsOp ops → Z.of_nat (length ops) * 8 < 2 ^ 32 →
  let '(rs, w, X) := specIsOps ops 2 ∅ in
  ∃ s', runIsOps garbage ops intsetNew = Ok (rs, s') ∧
    StronglySorted Z.lt (sortedElems X) ∧ Forall (fits w) (sortedElems X) ∧
    blob s' = le 4 w ++ le 4 (Z.of_nat (size X)) ++ encoded w (sortedElems X) ∧
    intsetBlobLen s' = Ok (Z.of_nat (length (blob s')), s').
Proof.
  intros Hv Hsm. destruct (runIsOps_refines ops 2 [] intsetNew) as (s' & xs' & Hrun); [apply intsetNew_rep|done|done|].
  change (list_to_set []) with (∅ : gset Z) in Hrun.
  destruct (specIsOps ops 2 ∅) as [[rs w] X]. destruct Hrun as (Hrun & Hr & ->). exists s'.
  rewrite (rep_sortedElems w xs' s'), (rep_size w xs' s') by done.
  pose proof (wide_bounds w (rep_wide _ _ _ Hr)). pose proof (rep_small _ _ _ Hr).
  assert (blob s' = le 4 w ++ le 4 (Z.of_nat (length xs')) ++ encoded w xs') as Hblob.
  { rewrite (rep_block _ _ _ Hr) at 1. apply blob_block. }
  split_and!; [done|apply Hr|apply Hr|done|]. unfold intsetBlobLen. erewrite bind_run by by eapply rep_getLength.
  erewrite bind_run by by eapply rep_getEncoding. rewrite Hblob, !length_app, !length_le by lia.
  rewrite !Nat2Z.inj_add, length_encoded, u32_id by nia. unfold mret, M_ret. do 2 f_equal. lia.
Qed.

(** ** The limit of the size

    The size of the block is computed in 32 bits: with [2^29 - 1] values of 8 bytes
    the next one asks [zrealloc] for no contents at all. *)

Lemma resize_to_nothing n C : intsetResize garbage (2 ^ 29) (block 8 n C) = Ok (tt, block 8 n []).
Proof.
  unfold intsetResize. erewrite bind_run by (apply getEncoding_run; by right; right).
  unfold zrealloc, modify. change (u32 (2 ^ 29 * 8)) with 0. by cbn.
Qed.

Lemma writeMem_nothing w n off x : 0 < Z.of_nat (length x) →
  writeMem off x (block w n []) = Fault (BadPointer "intset").
Proof.
  intros Hx. unfold writeMem. rewrite (bind_run _ _ _ (block w n []) (block w n [])) by done. cbn [is_contents block].
  replace (_ && _) with false by (cbn; lia). done.
Qed.

Lemma memmove_nothing w n dst src k : 0 < k → memmove dst src k (block w n []) = Fault (BadPointer "intset").
Proof.
  intros Hk. unfold memmove. apply bind_fault. unfold readMem.
  rewrite (bind_run _ _ _ [] (block w n [])) by done. by replace (_ && _) with false by (cbn; lia).
Qed.

(** The bound under which the array can grow: the size of the new allocation is
    computed in 32 bits, so adding a number to a set that has 2^29-1 numbers of 8
    bytes writes outside the allocation. *)
Theorem intset_resize_overflows xs s v : is_rep 8 xs s → Z.of_nat (length xs) = 2 ^ 29 - 1 → fits 8 v → v ∉ xs →
  intsetAdd garbage v s = Fault (BadPointer "intset").
Proof.
  intros Hr Hlen Hv Hni. assert (wide 8) as Hw by by right; right.
  pose proof (proj2 (valueEncoding_fits v 8 Hv Hw) Hv) as Henc. unfold intsetAdd.
  erewrite bind_run by by eapply rep_getEncoding. replace (8 <? _) with false by lia.
  destruct (intsetSearch_run 8 xs s v Hr) as ([b pos] & Hrun & Hloc). rewrite (bind_run _ _ _ _ _ Hrun).
  pose proof (located_found _ _ _ Hloc) as Hb. rewrite bool_decide_eq_false_2 in Hb by done. cbn in Hb. subst b.
  destruct Hloc as (A & B & Hpos & Hxs & _). cbn in Hpos. subst pos.
  erewrite bind_run by by eapply rep_getLength. rewrite (rep_block _ _ _ Hr), Hlen.
  change (u32 (2 ^ 29 - 1 + 1)) with (2 ^ 29). rewrite (bind_run _ _ _ _ _ (resize_to_nothing _ _)).
  rewrite Hxs, length_app in Hlen. destruct (Z.ltb_spec (Z.of_nat (length A)) (2 ^ 29 - 1)).
  - apply bind_fault. unfold intsetMoveTail. erewrite bind_run by by apply getLength_run.
    erewrite bind_run by by apply getEncoding_run. cbn [Z.eqb INTSET_ENC_INT64 Pos.eqb]. apply memmove_nothing.
    rewrite (u32_id (_ - _)), u32_id; lia.
  - erewrite bind_run by done. apply bind_fault. unfold _intsetSet. erewrite bind_run by by apply getEncoding_run.
    cbn [Z.eqb INTSET_ENC_INT64 Pos.eqb]. apply writeMem_nothing. unfold memrev64ifbe.
    rewrite (memrev_stored 8), length_le by auto using memrev64_reverse with lia. lia.
Qed.

Lemma seqZ_sorted m n : 0 ≤ n → StronglySorted Z.lt (seqZ m n).
Proof.
  intros Hn. revert m. pattern n. apply natlike_ind; [..|done]; clear n Hn.
  - intros m. constructor.
  - intros n Hn IH m. rewrite seqZ_cons by lia. rewrite Z.pred_succ. constructor; [done|].
    apply Forall_forall. intros x Hx%elem_of_seqZ. lia.
Qed.

(** The set of the first [n] natural numbers, stored in 8 bytes each. *)
Lemma full_rep n : 0 ≤ n → n * 8 < 2 ^ 32 → is_rep 8 (seqZ 0 n) (block 8 n (encoded 8 (seqZ 0 n))).
Proof.
  intros Hn Hsm. assert (Z.of_nat (length (seqZ 0 n)) = n) as Hlen by (rewrite length_seqZ; lia).
  split; [by rewrite Hlen|by right; right|by apply seqZ_sorted| |by rewrite Hlen].
  apply Forall_forall. intros x Hx%elem_of_seqZ. unfold fits. lia.
Qed.

End SetProps.

Definition sampleOps : list isOp :=
  [IsAdd 5; IsAdd (-3); IsAdd 70000; IsAdd 5; IsFind 5; IsRemove (-3); IsRemove 6; IsLen; IsGet 0; IsGet 3].

Lemma sampleOps_valid : Forall validIsOp sampleOps.
Proof. repeat constructor; cbn; unfold fits; lia. Qed.

(** The third number needs the encoding of 4 bytes. *)
Lemma intset_refines_set_witness :
  ∃ s', runIsOps (λ _, 170) sampleOps (H:=bigHost) (intsetNew (H:=bigHost)) =
    Ok ([ReplyBool true; ReplyBool true; ReplyBool true; ReplyBool false; ReplyBool true;
         ReplyBool true; ReplyBool false; ReplyLen 2; ReplyValue (Some 5); ReplyValue None], s') ∧
    blob s' (H:=bigHost) = [4; 0; 0; 0; 2; 0; 0; 0; 5; 0; 0; 0; 0x70; 0x11; 1; 0] ∧
    intsetBlobLen s' (H:=bigHost) = Ok (16, s').
Proof.
  destruct (intset_refines_set (H:=bigHost) (λ _, 170) sampleOps sampleOps_valid ltac:(done))
    as (s' & Hrun & _ & _ & Hblob & Hlen).
  exists s'. rewrite Hblob in Hlen |- *. split; [exact Hrun|]. split; [by vm_compute|exact Hlen].
Defined.

Lemma intset_resize_overflows_witness :
  ∃ s, is_rep (H:=littleHost) 8 (seqZ 0 (2 ^ 29 - 1)) s ∧
    intsetAdd (H:=littleHost) (λ _, 170) (-1) s = Fault (BadPointer "intset").
Proof.
  pose proof (full_rep (H:=littleHost) (2 ^ 29 - 1) ltac:(lia) ltac:(lia)) as Hr.
  eexists. split; [exact Hr|].
  apply (intset_resize_overflows (H:=littleHost) (λ _, 170) _ _ (-1) Hr).
  - rewrite length_seqZ. lia.
  - unfold fits. lia.
  - rewrite elem_of_seqZ. lia.
Defined.
