(* ===== verification/Ziplist.v ===== *)
(** * Ziplist: lists of strings and integers in one block, src/src/ziplist.c

    A ziplist is one block of memory: a header (the number of bytes, the offset of the
    last entry, the number of entries), the entries and an end byte.  An entry is the
    length of the previous one (1 or 5 bytes), an encoding and the data.  The model
    works on the bytes; pointers are offsets from the start of the block, a read or a
    write outside the block is a fault, and the bytes that [zmalloc] and [zrealloc]
    add are arbitrary ([garbage]).  The sizes are [unsigned int] where the code has
    them so. *)

From Stdlib Require Import Ascii String ZifyBool.
From stdpp Require Import base tactics option strings numbers list.
From S2P Require Import Prelude Util Endian Intset.

Local Open Scope Z_scope.

Definition ZIP_END : Z := 255.
Definition ZIP_BIG_PREVLEN : Z := 254.

Definition ZIP_STR_MASK : Z := 0xc0.
Definition ZIP_STR_06B : Z := Z.shiftl 0 6.
Definition ZIP_STR_14B : Z := Z.shiftl 1 6.
Definition ZIP_STR_32B : Z := Z.shiftl 2 6.
Definition ZIP_INT_16B : Z := Z.lor 0xc0 (Z.shiftl 0 4).
Definition ZIP_INT_32B : Z := Z.lor 0xc0 (Z.shiftl 1 4).
Definition ZIP_INT_64B : Z := Z.lor 0xc0 (Z.shiftl 2 4).
Definition ZIP_INT_24B : Z := Z.lor 0xc0 (Z.shiftl 3 4).
Definition ZIP_INT_8B : Z := 0xfe.

Definition ZIP_INT_IMM_MASK : Z := 0x0f.
Definition ZIP_INT_IMM_MIN : Z := 0xf1.
Definition ZIP_INT_IMM_MAX : Z := 0xfd.

Definition INT8_MIN : Z := -128.
Definition INT8_MAX : Z := 127.
Definition INT24_MAX : Z := 0x7fffff.
Definition INT24_MIN : Z := - INT24_MAX - 1.

Definition UINT16_MAX : Z := 65535.
Definition UCHAR_MAX : Z := 255.

Definition ZIP_IS_STR (enc : Z) : bool := Z.land enc ZIP_STR_MASK <? ZIP_STR_MASK.

Definition ZIPLIST_HEADER_SIZE : Z := 4 * 2 + 2.
Definition ZIPLIST_END_SIZE : Z := 1.
Definition ZIPLIST_ENTRY_HEAD : Z := ZIPLIST_HEADER_SIZE.

Record zlentry := mkZlentry {
  prevrawlensize : Z;
  prevrawlen : Z;
  lensize : Z;
  len : Z;
  headersize : Z;
  encoding : Z;
  zl_p : Z }.

(** What an entry holds, as [ziplistGet] returns it. *)
Inductive zlvalue := ZlStr (s : list Z) | ZlInt (v : Z).

(** The bytes of a string. *)
Definition chars (s : bytes) : list Z := code <$> s.

Abbreviation zlM := (M (list Z)).

(** ** Memory *)

Section Ziplist.
Context `{Host} (garbage : nat → Z).

Definition readMem (off n : Z) : zlM (list Z) :=
  c ← get;
  if (0 <=? off) && (0 <=? n) && (off + n <=? Z.of_nat (length c)) then
    mret (take (Z.to_nat n) (drop (Z.to_nat off) c))
  else fail (BadPointer "ziplist").

Definition writeMem (off : Z) (x : list Z) : zlM unit :=
  c ← get;
  if (0 <=? off) && (off + Z.of_nat (length x) <=? Z.of_nat (length c)) then
    put (take (Z.to_nat off) c ++ x ++ drop (Z.to_nat off + length x) c)
  else fail (BadPointer "ziplist").

Definition readByte (p : Z) : zlM Z :=
  x ← readMem p 1;
  mret (hd 0 x).

Definition memmove (dst src n : Z) : zlM unit :=
  x ← readMem src n;
  writeMem dst x.

Definition zmalloc (n : Z) : zlM unit := put (garbage <$> seq 0 (Z.to_nat n)).

Definition zrealloc (n : Z) : zlM unit :=
  modify (λ c, take (Z.to_nat n) c ++ (garbage <$> seq (length c) (Z.to_nat n - length c))).

(** ** The header *)

(** [intrev32ifbe(ZIPLIST_BYTES(zl))], [intrev32ifbe(ZIPLIST_TAIL_OFFSET(zl))],
    [intrev16ifbe(ZIPLIST_LENGTH(zl))], and the assignments. *)
Definition getBytes : zlM Z := x ← readMem 0 4; mret (intrev32ifbe (hostInt x)).
Definition setBytes (v : Z) : zlM unit := writeMem 0 (hostBytes 4 (intrev32ifbe v)).
Definition getTail : zlM Z := x ← readMem 4 4; mret (intrev32ifbe (hostInt x)).
Definition setTail (v : Z) : zlM unit := writeMem 4 (hostBytes 4 (intrev32ifbe v)).
Definition getLen : zlM Z := x ← readMem 8 2; mret (intrev16ifbe (hostInt x)).
Definition setLen (v : Z) : zlM unit := writeMem 8 (hostBytes 2 (intrev16ifbe v)).

(** The test is on the field as it is in memory. *)
Definition ZIPLIST_INCR_LENGTH (incr : Z) : zlM unit :=
  x ← readMem 8 2;
  if hostInt x <? UINT16_MAX then
    n ← getLen;
    setLen (n + incr)
  else mret tt.

(** ** Entries *)

Definition ZIP_ENTRY_ENCODING (b : Z) : Z := if b <? ZIP_STR_MASK then Z.land b ZIP_STR_MASK else b.

Definition zipIntSize (enc : Z) : zlM Z :=
  if enc =? ZIP_INT_8B then mret 1
  else if enc =? ZIP_INT_16B then mret 2
  else if enc =? ZIP_INT_24B then mret 3
  else if enc =? ZIP_INT_32B then mret 4
  else if enc =? ZIP_INT_64B then mret 8
  else if (ZIP_INT_IMM_MIN <=? enc) && (enc <=? ZIP_INT_IMM_MAX) then mret 0
  else fail (AssertFailed "zipIntSize").

(** The buffer of [zipStoreEntryEncoding]. *)
Definition entryEncoding (enc rawlen : Z) : list Z :=
  if ZIP_IS_STR enc then
    if rawlen <=? 0x3f then [u8 (Z.lor ZIP_STR_06B rawlen)]
    else if rawlen <=? 0x3fff then
      [u8 (Z.lor ZIP_STR_14B (Z.land (Z.shiftr rawlen 8) 0x3f)); Z.land rawlen 0xff]
    else
      [ZIP_STR_32B; Z.land (Z.shiftr rawlen 24) 0xff; Z.land (Z.shiftr rawlen 16) 0xff;
       Z.land (Z.shiftr rawlen 8) 0xff; Z.land rawlen 0xff]
  else [enc].

(** Nothing is stored when [p] is NULL. *)
Definition zipStoreEntryEncoding (p : option Z) (enc rawlen : Z) : zlM Z :=
  let buf := entryEncoding enc rawlen in
  match p with
  | None => mret (Z.of_nat (length buf))
  | Some p => writeMem p buf ;; mret (Z.of_nat (length buf))
  end.

(** The encoding, [lensize] and [len]. *)
Definition ZIP_DECODE_LENGTH (p : Z) : zlM (Z * Z * Z) :=
  b ← readByte p;
  let enc := ZIP_ENTRY_ENCODING b in
  if enc <? ZIP_STR_MASK then
    if enc =? ZIP_STR_06B then mret (enc, 1, Z.land b 0x3f)
    else if enc =? ZIP_STR_14B then
      b1 ← readByte (p + 1);
      mret (enc, 2, Z.lor (Z.shiftl (Z.land b 0x3f) 8) b1)
    else if enc =? ZIP_STR_32B then
      b1 ← readByte (p + 1); b2 ← readByte (p + 2); b3 ← readByte (p + 3); b4 ← readByte (p + 4);
      mret (enc, 5, u32 (Z.lor (Z.lor (Z.lor (Z.shiftl b1 24) (Z.shiftl b2 16)) (Z.shiftl b3 8)) b4))
    else fail (AssertFailed "ZIP_DECODE_LENGTH")
  else
    n ← zipIntSize enc;
    mret (enc, 1, n).

Definition zipStorePrevEntryLengthLarge (p len : Z) : zlM Z :=
  writeMem p [ZIP_BIG_PREVLEN] ;;
  writeMem (p + 1) (hostBytes 4 len) ;;
  x ← readMem (p + 1) 4;
  writeMem (p + 1) (memrev32ifbe x) ;;
  mret 5.

Definition zipStorePrevEntryLength (p : option Z) (len : Z) : zlM Z :=
  match p with
  | None => mret (if len <? ZIP_BIG_PREVLEN then 1 else 5)
  | Some p =>
      if len <? ZIP_BIG_PREVLEN then writeMem p [u8 len] ;; mret 1
      else zipStorePrevEntryLengthLarge p len
  end.

Definition ZIP_DECODE_PREVLENSIZE (p : Z) : zlM Z :=
  b ← readByte p;
  mret (if b <? ZIP_BIG_PREVLEN then 1 else 5).

(** [prevlensize] and [prevlen]. *)
Definition ZIP_DECODE_PREVLEN (p : Z) : zlM (Z * Z) :=
  prevlensize ← ZIP_DECODE_PREVLENSIZE p;
  if prevlensize =? 1 then
    b ← readByte p;
    mret (prevlensize, b)
  else
    x ← readMem (p + 1) 4;
    mret (prevlensize, hostInt (memrev32ifbe x)).

Definition zipPrevLenByteDiff (p len : Z) : zlM Z :=
  prevlensize ← ZIP_DECODE_PREVLENSIZE p;
  n ← zipStorePrevEntryLength None len;
  mret (n - prevlensize).

Definition zipRawEntryLength (p : Z) : zlM Z :=
  prevlensize ← ZIP_DECODE_PREVLENSIZE p;
  '(_, lensize, len) ← ZIP_DECODE_LENGTH (p + prevlensize);
  mret (u32 (prevlensize + lensize + len)).

(** The integer and its encoding. *)
Definition zipTryEncoding (entry : bytes) : option (Z * Z) :=
  let entrylen := Z.of_nat (length entry) in
  if (32 <=? entrylen) || (entrylen =? 0) then None
  else
    match string2ll entry with
    | None => None
    | Some value =>
        Some (value,
          if (0 <=? value) && (value <=? 12) then ZIP_INT_IMM_MIN + value
          else if (INT8_MIN <=? value) && (value <=? INT8_MAX) then ZIP_INT_8B
          else if (INT16_MIN <=? value) && (value <=? INT16_MAX) then ZIP_INT_16B
          else if (INT24_MIN <=? value) && (value <=? INT24_MAX) then ZIP_INT_24B
          else if (INT32_MIN <=? value) && (value <=? INT32_MAX) then ZIP_INT_32B
          else ZIP_INT_64B)
    end.

(** [i32 = value<<8] has its lowest byte dropped. *)
Definition zipSaveInteger (p value enc : Z) : zlM unit :=
  if enc =? ZIP_INT_8B then writeMem p [u8 value]
  else if enc =? ZIP_INT_16B then writeMem p (memrev16ifbe (hostBytes 2 value))
  else if enc =? ZIP_INT_24B then writeMem p (drop 1 (memrev32ifbe (hostBytes 4 (Z.shiftl value 8))))
  else if enc =? ZIP_INT_32B then writeMem p (memrev32ifbe (hostBytes 4 value))
  else if enc =? ZIP_INT_64B then writeMem p (memrev64ifbe (hostBytes 8 value))
  else if (ZIP_INT_IMM_MIN <=? enc) && (enc <=? ZIP_INT_IMM_MAX) then mret tt
  else fail (AssertFailed "zipSaveInteger").

Definition zipLoadInteger (p enc : Z) : zlM Z :=
  if enc =? ZIP_INT_8B then x ← readByte p; mret (toSigned 1 x)
  else if enc =? ZIP_INT_16B then x ← readMem p 2; mret (toSigned 2 (hostInt (memrev16ifbe x)))
  else if enc =? ZIP_INT_32B then x ← readMem p 4; mret (toSigned 4 (hostInt (memrev32ifbe x)))
  else if enc =? ZIP_INT_24B then
    x ← readMem p 3;
    mret (Z.shiftr (toSigned 4 (hostInt (memrev32ifbe (take 1 (hostBytes 4 0) ++ x)))) 8)
  else if enc =? ZIP_INT_64B then x ← readMem p 8; mret (toSigned 8 (hostInt (memrev64ifbe x)))
  else if (ZIP_INT_IMM_MIN <=? enc) && (enc <=? ZIP_INT_IMM_MAX) then mret (Z.land enc ZIP_INT_IMM_MASK - 1)
  else fail (AssertFailed "zipLoadInteger").

Definition zipEntry (p : Z) : zlM zlentry :=
  '(prevsize, prev) ← ZIP_DECODE_PREVLEN p;
  '(enc, lsize, n) ← ZIP_DECODE_LENGTH (p + prevsize);
  mret (mkZlentry prevsize prev lsize n (prevsize + lsize) enc p).

(** ** The block *)

Definition ziplistNew : zlM unit :=
  let bytes := ZIPLIST_HEADER_SIZE + ZIPLIST_END_SIZE in
  zmalloc bytes ;;
  setBytes bytes ;;
  setTail ZIPLIST_HEADER_SIZE ;;
  writeMem 8 (hostBytes 2 0) ;;
  writeMem (bytes - 1) [ZIP_END].

(** [len] is an [unsigned int]. *)
Definition ziplistResize (len : Z) : zlM unit :=
  let len := u32 len in
  zrealloc len ;;
  setBytes len ;;
  writeMem (u32 (len - 1)) [ZIP_END].

(** ** Updating the lengths of the previous entries *)

(** [p[rawlen]] gets more bytes for the length. *)
Definition growNext (curlen p rawlen rawlensize : Z) (next : zlentry) : zlM unit :=
  let extra := rawlensize - prevrawlensize next in
  ziplistResize (curlen + extra) ;;
  let np := p + rawlen in
  tail ← getTail;
  (if tail =? np then mret tt else setTail (tail + extra)) ;;
  memmove (np + rawlensize) (np + prevrawlensize next) (u64 (curlen - np - prevrawlensize next - 1)) ;;
  zipStorePrevEntryLength (Some np) rawlen ;;
  mret tt.

Fixpoint cascadeLoop (fuel : nat) (curlen p : Z) : zlM unit :=
  match fuel with
  | O => fail (AssertFailed "__ziplistCascadeUpdate: fuel")
  | S fuel =>
      b ← readByte p;
      if b =? ZIP_END then mret tt else
      cur ← zipEntry p;
      let rawlen := u32 (headersize cur + len cur) in
      rawlensize ← zipStorePrevEntryLength None rawlen;
      b ← readByte (p + rawlen);
      if b =? ZIP_END then mret tt else
      next ← zipEntry (p + rawlen);
      if prevrawlen next =? rawlen then mret tt else
      if prevrawlensize next <? rawlensize then
        growNext curlen p rawlen rawlensize next ;;
        cascadeLoop fuel (curlen + (rawlensize - prevrawlensize next)) (p + rawlen)
      else
        (if rawlensize <? prevrawlensize next then zipStorePrevEntryLengthLarge (p + rawlen) rawlen
         else zipStorePrevEntryLength (Some (p + rawlen)) rawlen) ;;
        mret tt
  end.

(** At most one round for each byte. *)
Definition __ziplistCascadeUpdate (p : Z) : zlM unit :=
  curlen ← getBytes;
  n ← gets length;
  cascadeLoop n curlen p.

(** ** Deletion *)

(** The loop [for (i = 0; p[0] != ZIP_END && i < num; i++)]; [deleted] is [i]. *)
Fixpoint skipEntries (fuel : nat) (p i num : Z) : zlM (Z * Z) :=
  match fuel with
  | O => fail (AssertFailed "__ziplistDelete: fuel")
  | S fuel =>
      b ← readByte p;
      if negb (b =? ZIP_END) && (i <? num) then
        n ← zipRawEntryLength p;
        skipEntries fuel (p + n) (i + 1) num
      else mret (p, i)
  end.

(** The entries from [p] on are moved to [first.p]; [nextdiff]. *)
Definition cutEntries (first : zlentry) (p totlen : Z) : zlM Z :=
  b ← readByte p;
  if negb (b =? ZIP_END) then
    nextdiff ← zipPrevLenByteDiff p (prevrawlen first);
    let p := p - nextdiff in
    zipStorePrevEntryLength (Some p) (prevrawlen first) ;;
    t ← getTail;
    setTail (t - totlen) ;;
    tail ← zipEntry p;
    b ← readByte (p + u32 (headersize tail + len tail));
    (if negb (b =? ZIP_END) then
       t ← getTail;
       setTail (t + nextdiff)
     else mret tt) ;;
    bytes ← getBytes;
    memmove (zl_p first) p (u64 (bytes - p - 1)) ;;
    mret nextdiff
  else
    setTail (zl_p first - prevrawlen first) ;;
    mret 0.

Definition __ziplistDelete (p num : Z) : zlM unit :=
  first ← zipEntry p;
  n ← gets length;
  '(p, deleted) ← skipEntries n p 0 num;
  let totlen := u32 (p - zl_p first) in
  if 0 <? totlen then
    nextdiff ← cutEntries first p totlen;
    bytes ← getBytes;
    ziplistResize (bytes - totlen + nextdiff) ;;
    ZIPLIST_INCR_LENGTH (- deleted) ;;
    if negb (nextdiff =? 0) then __ziplistCascadeUpdate (zl_p first) else mret tt
  else mret tt.

(** ** Insertion *)

(** The length of the entry before the new one. *)
Definition prevlenAt (p : Z) : zlM Z :=
  b ← readByte p;
  if negb (b =? ZIP_END) then
    r ← ZIP_DECODE_PREVLEN p;
    mret (snd r)
  else
    ptail ← getTail;
    b ← readByte ptail;
    if negb (b =? ZIP_END) then zipRawEntryLength ptail else mret 0.

(** [nextdiff] and [forcelarge]. *)
Definition nextDiff (p reqlen : Z) : zlM (Z * bool) :=
  b ← readByte p;
  nextdiff ← (if negb (b =? ZIP_END) then zipPrevLenByteDiff p (u32 reqlen) else mret 0);
  mret (if (nextdiff =? -4) && (reqlen <? 4) then (0, true) else (nextdiff, false)).

(** [reqlen] bytes are made free at [p], and the entry after them gets their length. *)
Definition makeRoom (curlen p reqlen nextdiff : Z) (forcelarge : bool) : zlM unit :=
  ziplistResize (curlen + reqlen + nextdiff) ;;
  b ← readByte p;
  if negb (b =? ZIP_END) then
    memmove (p + reqlen) (p - nextdiff) (u64 (curlen - p - 1 + nextdiff)) ;;
    (if forcelarge then zipStorePrevEntryLengthLarge (p + reqlen) (u32 reqlen)
     else zipStorePrevEntryLength (Some (p + reqlen)) (u32 reqlen)) ;;
    t ← getTail;
    setTail (t + reqlen) ;;
    tail ← zipEntry (p + reqlen);
    b ← readByte (p + u64 (reqlen + headersize tail + len tail));
    if negb (b =? ZIP_END) then
      t ← getTail;
      setTail (t + nextdiff)
    else mret tt
  else setTail p.

Definition writeEntry (p prevlen enc value : Z) (s : bytes) : zlM unit :=
  n ← zipStorePrevEntryLength (Some p) prevlen;
  let p := p + n in
  n ← zipStoreEntryEncoding (Some p) enc (Z.of_nat (length s));
  let p := p + n in
  if ZIP_IS_STR enc then writeMem p (chars s) else zipSaveInteger p value enc.

Definition __ziplistInsert (p : Z) (s : bytes) : zlM unit :=
  let slen := Z.of_nat (length s) in
  curlen ← getBytes;
  prevlen ← prevlenAt p;
  let '(value, enc) := default (123456789, 0) (zipTryEncoding s) in
  reqlen ← match zipTryEncoding s with Some _ => zipIntSize enc | None => mret slen end;
  a ← zipStorePrevEntryLength None prevlen;
  b ← zipStoreEntryEncoding None enc slen;
  let reqlen := reqlen + a + b in
  '(nextdiff, forcelarge) ← nextDiff p reqlen;
  makeRoom curlen p reqlen nextdiff forcelarge ;;
  (if negb (nextdiff =? 0) then __ziplistCascadeUpdate (p + reqlen) else mret tt) ;;
  writeEntry p prevlen enc value s ;;
  ZIPLIST_INCR_LENGTH 1.

Definition ziplistInsert (p : Z) (s : bytes) : zlM unit := __ziplistInsert p s.

(** ** The interface *)

Inductive where_ := ZIPLIST_HEAD | ZIPLIST_TAIL.

Definition ziplistPush (s : bytes) (pos : where_) : zlM unit :=
  match pos with
  | ZIPLIST_HEAD => __ziplistInsert ZIPLIST_ENTRY_HEAD s
  | ZIPLIST_TAIL => bytes ← getBytes; __ziplistInsert (bytes - 1) s
  end.

(** [while (prevlen > 0 && index--)] and [while (p[0] != ZIP_END && index--)]; the
    pointer and the index. *)
Fixpoint backLoop (fuel : nat) (p prevlen index : Z) : zlM (Z * Z) :=
  match fuel with
  | O => fail (AssertFailed "ziplistIndex: fuel")
  | S fuel =>
      if 0 <? prevlen then
        if index =? 0 then mret (p, -1)
        else
          let p := p - prevlen in
          r ← ZIP_DECODE_PREVLEN p;
          backLoop fuel p (snd r) (index - 1)
      else mret (p, index)
  end.

Fixpoint forwardLoop (fuel : nat) (p index : Z) : zlM (Z * Z) :=
  match fuel with
  | O => fail (AssertFailed "ziplistIndex: fuel")
  | S fuel =>
      b ← readByte p;
      if negb (b =? ZIP_END) then
        if index =? 0 then mret (p, -1)
        else
          n ← zipRawEntryLength p;
          forwardLoop fuel (p + n) (index - 1)
      else mret (p, index)
  end.

Definition ziplistIndex (index : Z) : zlM (option Z) :=
  n ← gets length;
  '(p, index) ← (if index <? 0 then
      let index := i32 (i32 (- index) - 1) in
      p ← getTail;
      b ← readByte p;
      if negb (b =? ZIP_END) then
        r ← ZIP_DECODE_PREVLEN p;
        backLoop n p (snd r) index
      else mret (p, index)
    else forwardLoop n ZIPLIST_ENTRY_HEAD index);
  b ← readByte p;
  mret (if (b =? ZIP_END) || (0 <? index) then None else Some p).

Definition ziplistNext (p : Z) : zlM (option Z) :=
  b ← readByte p;
  if b =? ZIP_END then mret None
  else
    n ← zipRawEntryLength p;
    let p := p + n in
    b ← readByte p;
    mret (if b =? ZIP_END then None else Some p).

Definition ziplistPrev (p : Z) : zlM (option Z) :=
  b ← readByte p;
  if b =? ZIP_END then
    p ← getTail;
    b ← readByte p;
    mret (if b =? ZIP_END then None else Some p)
  else if p =? ZIPLIST_ENTRY_HEAD then mret None
  else
    r ← ZIP_DECODE_PREVLEN p;
    serverAssert (0 <? snd r) "ziplistPrev" ;;
    mret (Some (p - snd r)).

(** [sstr] and [sval] are not NULL; [None] for the result 0. *)
Definition ziplistGet (p : option Z) : zlM (option zlvalue) :=
  match p with
  | None => mret None
  | Some p =>
      b ← readByte p;
      if b =? ZIP_END then mret None
      else
        entry ← zipEntry p;
        if ZIP_IS_STR (encoding entry) then
          x ← readMem (p + headersize entry) (len entry);
          mret (Some (ZlStr x))
        else
          v ← zipLoadInteger (p + headersize entry) (encoding entry);
          mret (Some (ZlInt v))
  end.

(** The new [*p] is the same offset. *)
Definition ziplistDelete (p : Z) : zlM Z :=
  let offset := p in
  __ziplistDelete p 1 ;;
  mret offset.

Definition ziplistDeleteRange (index num : Z) : zlM unit :=
  p ← ziplistIndex index;
  match p with
  | None => mret tt
  | Some p => __ziplistDelete p num
  end.

Definition ziplistCompare (p : Z) (sstr : bytes) : zlM bool :=
  let slen := Z.of_nat (length sstr) in
  b ← readByte p;
  if b =? ZIP_END then mret false
  else
    entry ← zipEntry p;
    if ZIP_IS_STR (encoding entry) then
      if len entry =? slen then
        x ← readMem (p + headersize entry) slen;
        mret (bool_decide (x = chars sstr))
      else mret false
    else
      match zipTryEncoding sstr with
      | Some (sval, _) =>
          zval ← zipLoadInteger (p + headersize entry) (encoding entry);
          mret (zval =? sval)
      | None => mret false
      end.

(** The comparison of an entry: whether it is equal, [vencoding] and [vll]. *)
Definition findCompare (vstr : bytes) (q enc n vencoding vll : Z) : zlM (bool * Z * Z) :=
  let vlen := Z.of_nat (length vstr) in
  if ZIP_IS_STR enc then
    if n =? vlen then
      x ← readMem q vlen;
      mret (bool_decide (x = chars vstr), vencoding, vll)
    else mret (false, vencoding, vll)
  else
    let '(vencoding, vll) :=
      if vencoding =? 0 then
        match zipTryEncoding vstr with Some (v, e) => (e, v) | None => (UCHAR_MAX, vll) end
      else (vencoding, vll) in
    serverAssert (negb (vencoding =? 0)) "ziplistFind" ;;
    if negb (vencoding =? UCHAR_MAX) then
      ll ← zipLoadInteger q enc;
      mret (ll =? vll, vencoding, vll)
    else mret (false, vencoding, vll).

Fixpoint findLoop (fuel : nat) (p : Z) (vstr : bytes) (skip skipcnt vencoding vll : Z) : zlM (option Z) :=
  match fuel with
  | O => fail (AssertFailed "ziplistFind: fuel")
  | S fuel =>
      b ← readByte p;
      if b =? ZIP_END then mret None
      else
        prevlensize ← ZIP_DECODE_PREVLENSIZE p;
        '(enc, lensize, n) ← ZIP_DECODE_LENGTH (p + prevlensize);
        let q := p + prevlensize + lensize in
        if skipcnt =? 0 then
          '(eq, vencoding, vll) ← findCompare vstr q enc n vencoding vll;
          if (eq : bool) then mret (Some p)
          else findLoop fuel (q + n) vstr skip skip vencoding vll
        else findLoop fuel (q + n) vstr skip (skipcnt - 1) vencoding vll
  end.

Definition ziplistFind (p : Z) (vstr : bytes) (skip : Z) : zlM (option Z) :=
  n ← gets length;
  findLoop n p vstr skip 0 0 0.

Fixpoint countLoop (fuel : nat) (p n : Z) : zlM Z :=
  match fuel with
  | O => fail (AssertFailed "ziplistLen: fuel")
  | S fuel =>
      b ← readByte p;
      if negb (b =? ZIP_END) then
        r ← zipRawEntryLength p;
        countLoop fuel (p + r) (n + 1)
      else mret n
  end.

Definition ziplistLen : zlM Z :=
  n ← getLen;
  if n <? UINT16_MAX then mret n
  else
    fuel ← gets length;
    n ← countLoop fuel ZIPLIST_HEADER_SIZE 0;
    (if n <? UINT16_MAX then setLen n else mret tt) ;;
    mret n.

Definition ziplistBlobLen : zlM Z := getBytes.

(** ** Merging *)

(** A computation on a block that is given, and its result or the new block. *)
Definition peek {A} (m : zlM A) (zl : list Z) : res A := match m zl with Ok (a, _) => Ok a | Fault f => Fault f end.
Definition exec (m : zlM unit) (zl : list Z) : res (list Z) := match m zl with Ok (_, zl') => Ok zl' | Fault f => Fault f end.

Definition mergeInto (append : bool) (source : list Z) (target_bytes source_bytes zlbytes : Z) : zlM unit :=
  zrealloc zlbytes ;;
  if append then writeMem (target_bytes - ZIPLIST_END_SIZE) source
  else
    memmove (source_bytes - ZIPLIST_END_SIZE) ZIPLIST_HEADER_SIZE (u64 (target_bytes - ZIPLIST_HEADER_SIZE)) ;;
    writeMem 0 source.

(** [*first] and [*second] are two blocks; the block that is kept is the first one when
    [append] is true, and the other is freed. *)
Definition ziplistMerge (first second : list Z) : res (bool * list Z) :=
  first_bytes ← peek getBytes first;
  first_len ← peek getLen first;
  second_bytes ← peek getBytes second;
  second_len ← peek getLen second;
  let append := second_len <=? first_len in
  let zlbytes := first_bytes + second_bytes - ZIPLIST_HEADER_SIZE - ZIPLIST_END_SIZE in
  let zllength := first_len + second_len in
  let zllength := if zllength <? UINT16_MAX then zllength else UINT16_MAX in
  first_offset ← peek getTail first;
  second_offset ← peek getTail second;
  source ← (if append then peek (readMem ZIPLIST_HEADER_SIZE (u64 (second_bytes - ZIPLIST_HEADER_SIZE))) second
            else peek (readMem 0 (u64 (first_bytes - ZIPLIST_END_SIZE))) first);
  zl ← exec (
    (if append then mergeInto true source first_bytes second_bytes zlbytes
     else mergeInto false source second_bytes first_bytes zlbytes) ;;
    setBytes zlbytes ;;
    setLen zllength ;;
    setTail ((first_bytes - ZIPLIST_END_SIZE) + (second_offset - ZIPLIST_HEADER_SIZE)) ;;
    __ziplistCascadeUpdate first_offset) (if append then first else second);
  mret (append, zl).

End Ziplist.
