(* ===== verification/ZiplistProps.v ===== *)
(** * ZiplistProps: ziplists implement sequences of strings

    [layout es] is the bytes of the entries [es]; an entry has a string, the length it
    stores for the entry before it, and whether that length has the large form.  In a
    well-formed list ([chain]) the stored lengths are the real ones.  The runs of the
    operations on such blocks come first, then the sequences they implement. *)

From Stdlib Require Import Ascii String ZifyBool.
From stdpp Require Import base tactics option strings numbers list list_numbers.
From S2P Require Import Prelude Util Endian Intset Ziplist.

Local Open Scope Z_scope.

Abbreviation size x := (Z.of_nat (length x)).

(** ** Bytes of integers *)

Lemma le_0 v : le 0 v = [].
Proof. done. Qed.

Lemma le_1 v : le 1 v = [u8 v].
Proof. unfold le. change 1 with (Z.succ 0). rewrite Z_to_little_endian_succ, Z.land_ones by lia. done. Qed.

Lemma le_4_shifted v : le 4 (Z.shiftl v 8) = 0 :: le 3 v.
Proof.
  unfold le. change 4 with (Z.succ 3). rewrite Z_to_little_endian_succ by lia. f_equal.
  - rewrite Z.land_ones, Z.shiftl_mul_pow2 by lia. apply Z.mod_mul. lia.
  - f_equal. rewrite Z.shiftr_shiftl_l by lia. apply Z.shiftl_0_r.
Qed.

Lemma unle_byte b x : 0 ≤ b < 256 → unle (b :: x) = b + unle x * 256.
Proof. intros Hb. apply (lor_high b (unle x) 8); lia. Qed.

Lemma toSigned_mod w v : 0 < w → - 2 ^ (8 * w - 1) ≤ v < 2 ^ (8 * w - 1) → toSigned w (v mod 2 ^ (8 * w)) = v.
Proof.
  intros Hw Hv. unfold toSigned. assert (2 ^ (8 * w) = 2 * 2 ^ (8 * w - 1)) as Hp by (rewrite <-Z.pow_succ_r by lia; f_equal; lia).
  destruct (Z.lt_ge_cases v 0).
  - rewrite <-(Z.mod_add v 1), Z.mod_small by lia. destruct (Z.ltb_spec (v + 1 * 2 ^ (8 * w)) (2 ^ (8 * w - 1))); lia.
  - rewrite Z.mod_small by lia. destruct (Z.ltb_spec v (2 ^ (8 * w - 1))); lia.
Qed.

Section Header.
Context `{Host}.

Lemma intrev16ifbe_stored v : hostBytes 2 (intrev16ifbe v) = le 2 v.
Proof.
  unfold intrev16ifbe, ifbe, intrev16, hostInt, hostBytes. destruct BYTE_ORDER; [done|].
  rewrite memrev16_reverse, reverse_involutive by by rewrite length_reverse, length_le.
  rewrite le_unle, reverse_involutive; [done|by rewrite length_reverse, length_le|].
  apply Forall_reverse, le_bytes. lia.
Qed.

Lemma intrev16ifbe_loaded v : 0 ≤ v < 2 ^ 16 → intrev16ifbe (hostInt (le 2 v)) = v.
Proof.
  intros Hv. unfold intrev16ifbe, ifbe, intrev16, hostInt, hostBytes. destruct BYTE_ORDER.
  - rewrite unle_le by lia. by apply Z.mod_small.
  - rewrite memrev16_reverse by by rewrite length_reverse, length_le. rewrite reverse_involutive.
    rewrite le_unle, reverse_involutive, unle_le; [by apply Z.mod_small|lia|by rewrite length_reverse, length_le|].
    apply Forall_reverse, le_bytes. lia.
Qed.

Lemma intrev32ifbe_loaded v : 0 ≤ v < 2 ^ 32 → intrev32ifbe (hostInt (le 4 v)) = v.
Proof.
  intros Hv. unfold intrev32ifbe, ifbe, intrev32, hostInt, hostBytes. destruct BYTE_ORDER.
  - rewrite unle_le by lia. by apply Z.mod_small.
  - rewrite memrev32_reverse by by rewrite length_reverse, length_le. rewrite reverse_involutive.
    rewrite le_unle, reverse_involutive, unle_le; [by apply Z.mod_small|lia|by rewrite length_reverse, length_le|].
    apply Forall_reverse, le_bytes. lia.
Qed.

(** ** Memory *)

Lemma readAt_run A X C off n : off = size A → n = size X → readMem off n (A ++ X ++ C) = Ok (X, A ++ X ++ C).
Proof.
  intros -> ->. unfold readMem. rewrite bind_get, !length_app. replace (_ && _) with true by lia.
  by rewrite !Nat2Z.id, drop_app_length, take_app_length.
Qed.

Lemma readAt_eq zl A X C off n : zl = A ++ X ++ C → off = size A → n = size X → readMem off n zl = Ok (X, zl).
Proof. intros ->. apply readAt_run. Qed.

Lemma writeAt_run A X C off Y : off = size A → length Y = length X → writeMem off Y (A ++ X ++ C) = Ok (tt, A ++ Y ++ C).
Proof.
  intros -> HY. unfold writeMem. rewrite bind_get, !length_app, HY. replace (_ && _) with true by lia. unfold put.
  by rewrite Nat2Z.id, take_app_length, (assoc_L (++) A X C), <-length_app, drop_app_length.
Qed.

Lemma readByte_run A b C p : p = size A → readByte p (A ++ b :: C) = Ok (b, A ++ b :: C).
Proof. intros ->. unfold readByte. by rewrite (bind_run _ _ _ _ _ (readAt_run A [b] C _ 1 eq_refl eq_refl)). Qed.

Lemma readByte_eq zl A b C p : zl = A ++ b :: C → p = size A → readByte p zl = Ok (b, zl).
Proof. intros ->. apply readByte_run. Qed.

Lemma writeAt_eq zl A X C off Y : zl = A ++ X ++ C → off = size A → length Y = length X → writeMem off Y zl = Ok (tt, A ++ Y ++ C).
Proof. intros ->. apply writeAt_run. Qed.

Lemma moveMem_run zl A X C A' Y C' dst src n : zl = A ++ X ++ C → zl = A' ++ Y ++ C' → length X = length Y →
  src = size A → dst = size A' → n = size X → memmove dst src n zl = Ok (tt, A' ++ X ++ C').
Proof.
  intros Hsrc Hdst HXY Hs Hd Hn. unfold memmove. rewrite Hsrc at 1.
  rewrite (bind_run _ _ _ _ _ (readAt_run A X C _ _ Hs Hn)), <-Hsrc, Hdst. by apply writeAt_run.
Qed.

(** ** The header *)

Definition hdr (n t f : Z) : list Z := le 4 n ++ le 4 t ++ le 2 f.

Lemma length_hdr n t f : length (hdr n t f) = 10%nat.
Proof. unfold hdr. by rewrite !length_app, !length_le by lia. Qed.

Lemma getBytes_run n t f C : 0 ≤ n < 2 ^ 32 → getBytes (hdr n t f ++ C) = Ok (n, hdr n t f ++ C).
Proof.
  intros Hn. unfold getBytes, hdr. rewrite <-!(assoc_L (++)).
  erewrite bind_run by by apply (readAt_run [] (le 4 n)). by rewrite intrev32ifbe_loaded.
Qed.

Lemma setBytes_run n t f C v : setBytes v (hdr n t f ++ C) = Ok (tt, hdr v t f ++ C).
Proof.
  unfold setBytes, hdr. rewrite <-!(assoc_L (++)), intrev32ifbe_stored.
  apply (writeAt_run [] (le 4 n)); [done|by rewrite !length_le].
Qed.

Lemma getTail_run n t f C : 0 ≤ t < 2 ^ 32 → getTail (hdr n t f ++ C) = Ok (t, hdr n t f ++ C).
Proof.
  intros Hn. unfold getTail, hdr. rewrite <-!(assoc_L (++)).
  rewrite (bind_run _ _ _ _ _ (readAt_run (le 4 n) (le 4 t) _ 4 4 eq_refl eq_refl)). by rewrite intrev32ifbe_loaded.
Qed.

Lemma setTail_run n t f C v : setTail v (hdr n t f ++ C) = Ok (tt, hdr n v f ++ C).
Proof.
  unfold setTail, hdr. rewrite <-!(assoc_L (++)), intrev32ifbe_stored.
  by rewrite (writeAt_run (le 4 n) (le 4 t) _ 4 (le 4 v)) by (by rewrite ?length_le).
Qed.

Lemma getLen_run n t f C : 0 ≤ f < 2 ^ 16 → getLen (hdr n t f ++ C) = Ok (f, hdr n t f ++ C).
Proof.
  intros Hn. unfold getLen, hdr. rewrite <-!(assoc_L (++)), (assoc_L (++) (le 4 n)).
  rewrite (bind_run _ _ _ _ _ (readAt_run (le 4 n ++ le 4 t) (le 2 f) _ 8 2 eq_refl eq_refl)). by rewrite intrev16ifbe_loaded.
Qed.

Lemma setLen_run n t f C v : setLen v (hdr n t f ++ C) = Ok (tt, hdr n t v ++ C).
Proof.
  unfold setLen, hdr. rewrite <-!(assoc_L (++)), intrev16ifbe_stored, !(assoc_L (++) (le 4 n)).
  by rewrite (writeAt_run (le 4 n ++ le 4 t) (le 2 f) _ 8 (le 2 v)) by (by rewrite ?length_app, ?length_le).
Qed.

(** The number of entries as it is in memory. *)
Lemma stored_len_max f : 0 ≤ f < 2 ^ 16 → (hostInt (le 2 f) <? UINT16_MAX) = (f <? UINT16_MAX).
Proof.
  intros Hf. unfold hostInt. destruct BYTE_ORDER; [by rewrite unle_le, Z.mod_small by lia|].
  pose proof (unle_le 2 f ltac:(lia)) as Hu. rewrite Z.mod_small in Hu by lia. pose proof (le_bytes 2 f ltac:(lia)) as Hb.
  destruct (le 2 f) as [|x [|y [|]]] eqn:E; try (apply (f_equal length) in E; rewrite length_le in E by lia; discriminate).
  rewrite !Forall_cons in Hb. destruct Hb as (Hx & Hy & _). change (reverse [x; y]) with [y; x].
  rewrite !unle_byte in Hu |- * by done. cbn in *. unfold UINT16_MAX. lia.
Qed.

Lemma incrLength_run n t f C d : 0 ≤ f < 2 ^ 16 →
  ZIPLIST_INCR_LENGTH d (hdr n t f ++ C) = Ok (tt, hdr n t (if f <? UINT16_MAX then f + d else f) ++ C).
Proof.
  intros Hf. unfold ZIPLIST_INCR_LENGTH.
  assert (readMem 8 2 (hdr n t f ++ C) = Ok (le 2 f, hdr n t f ++ C)) as Hr.
  { unfold hdr. rewrite <-!(assoc_L (++)), (assoc_L (++) (le 4 n)). by apply readAt_run. }
  rewrite (bind_run _ _ _ _ _ Hr), stored_len_max by done. destruct (f <? UINT16_MAX); [|done].
  rewrite (bind_run _ _ _ _ _ (getLen_run _ _ _ _ Hf)). apply setLen_run.
Qed.

End Header.

(** ** Encodings *)

Definition intWidth (enc : Z) : Z :=
  if enc =? ZIP_INT_8B then 1
  else if enc =? ZIP_INT_16B then 2
  else if enc =? ZIP_INT_24B then 3
  else if enc =? ZIP_INT_32B then 4
  else if enc =? ZIP_INT_64B then 8
  else 0.

(** The encoding, the bytes of the encoding and the bytes of the data of a string. *)
Definition encOf (s : bytes) : Z :=
  match zipTryEncoding s with
  | Some (_, enc) => enc
  | None => if size s <=? 0x3f then ZIP_STR_06B else if size s <=? 0x3fff then ZIP_STR_14B else ZIP_STR_32B
  end.

Definition headOf (s : bytes) : list Z :=
  match zipTryEncoding s with
  | Some (_, enc) => [enc]
  | None => entryEncoding 0 (size s)
  end.

Definition dataOf (s : bytes) : list Z :=
  match zipTryEncoding s with
  | Some (v, enc) => le (intWidth enc) v
  | None => chars s
  end.

(** What [ziplistGet] returns. *)
Definition valOf (s : bytes) : zlvalue :=
  match zipTryEncoding s with
  | Some (v, _) => ZlInt v
  | None => ZlStr (chars s)
  end.

(** The integers of each encoding. *)
Definition intEnc (v enc : Z) : Prop :=
  (0 ≤ v ≤ 12 ∧ enc = ZIP_INT_IMM_MIN + v) ∨
  (- 2 ^ 7 ≤ v < 2 ^ 7 ∧ enc = ZIP_INT_8B) ∨
  (- 2 ^ 15 ≤ v < 2 ^ 15 ∧ enc = ZIP_INT_16B) ∨
  (- 2 ^ 23 ≤ v < 2 ^ 23 ∧ enc = ZIP_INT_24B) ∨
  (- 2 ^ 31 ≤ v < 2 ^ 31 ∧ enc = ZIP_INT_32B) ∨
  (- 2 ^ 63 ≤ v < 2 ^ 63 ∧ enc = ZIP_INT_64B).

Lemma zipTryEncoding_spec s v enc : zipTryEncoding s = Some (v, enc) → string2ll s = Some v ∧ intEnc v enc.
Proof.
  unfold zipTryEncoding. case_match; [done|]. destruct (string2ll s) as [w|] eqn:Hs; [|done]. intros [= <- Henc].
  split; [done|]. apply string2ll_decimal in Hs as [Hw _]. unfold LLONG_MIN, LLONG_MAX in Hw.
  unfold INT8_MIN, INT8_MAX, INT16_MIN, INT16_MAX, INT24_MIN, INT24_MAX, INT32_MIN, INT32_MAX in Henc.
  repeat case_match; subst enc; unfold intEnc; [left|right; left|do 2 right; left|do 3 right; left|do 4 right; left|do 5 right]; lia.
Qed.

(** The two forms together decide the string. *)
Lemma valOf_inj s s' : valOf s = valOf s' → s = s'.
Proof.
  unfold valOf. destruct (zipTryEncoding s) as [[v enc]|] eqn:E; destruct (zipTryEncoding s') as [[v' enc']|] eqn:E'; try done.
  - intros [= ->]. apply zipTryEncoding_spec in E as [[_ ->]%string2ll_decimal _], E' as [[_ ->]%string2ll_decimal _]. done.
  - intros [= Hs]. apply (list_fmap_eq_inj code); [|done]. intros a b. apply code_inj.
Qed.

Lemma chars_inj s s' : chars s = chars s' → s = s'.
Proof. intros Hs. apply (list_fmap_eq_inj code); [|done]. intros a b. apply code_inj. Qed.

(** A property of all bytes that is decided by trying them. *)
Lemma all_bytes (P : Z → bool) : forallb P (seqZ 0 256) = true → ∀ b, 0 ≤ b < 256 → P b = true.
Proof. intros Hall b Hb. rewrite forallb_forall in Hall. apply Hall. apply list_elem_of_In, elem_of_seqZ. lia. Qed.

Lemma land_192 b : 0 ≤ b < 256 → Z.land b 192 = 64 * (b / 64).
Proof. intros Hb. apply Z.eqb_eq. revert b Hb. apply all_bytes. by vm_compute. Qed.

Lemma land_63 n : Z.land n 0x3f = n mod 64.
Proof. apply (Z.land_ones n 6). lia. Qed.

Lemma u8_id n : 0 ≤ n < 256 → u8 n = n.
Proof. apply Z.mod_small. Qed.

Lemma u32_small n : 0 ≤ n < 2 ^ 32 → u32 n = n.
Proof. apply Z.mod_small. Qed.

(** The bytes of the length of a string. *)
Lemma strHead n : 0 ≤ n < 2 ^ 32 → entryEncoding 0 n =
  if n <=? 0x3f then [n]
  else if n <=? 0x3fff then [64 + n / 256; n mod 256]
  else [128; n / 2 ^ 24 mod 256; n / 2 ^ 16 mod 256; n / 2 ^ 8 mod 256; n mod 256].
Proof.
  intros Hn. unfold entryEncoding. change (ZIP_IS_STR 0) with true. cbv iota.
  destruct (Z.leb_spec n 0x3f); [by rewrite Z.lor_0_l, u8_id by lia|]. destruct (Z.leb_spec n 0x3fff).
  - pose proof (div_range n 256 64 ltac:(lia) ltac:(lia)). rewrite land_255, land_63, Z.shiftr_div_pow2 by lia. change (2 ^ 8) with 256. rewrite (Z.mod_small (n / 256)) by lia.
    rewrite Z.lor_comm. change ZIP_STR_14B with (Z.shiftl 1 6). rewrite lor_high, u8_id by lia. f_equal. lia.
  - by rewrite !shifted_byte, land_255 by lia.
Qed.

(** Evaluates the comparisons of constants. *)
Ltac eval_tests :=
  repeat match goal with
  | |- context [?a =? ?b] =>
      let v := eval vm_compute in (a =? b) in
      lazymatch v with true => idtac | false => idtac end;
      change (a =? b) with v; cbv iota
  | |- context [?a <? ?b] =>
      let v := eval vm_compute in (a <? b) in
      lazymatch v with true => idtac | false => idtac end;
      change (a <? b) with v; cbv iota
  end.

Section Entries.
Context `{Host}.

Lemma zipIntSize_run (zl : list Z) v enc : intEnc v enc → zipIntSize enc zl = Ok (intWidth enc, zl).
Proof.
  intros [[Hv ->]|[[Hv ->]|[[Hv ->]|[[Hv ->]|[[Hv ->]|[Hv ->]]]]]]; try done.
  unfold zipIntSize, intWidth, ZIP_INT_IMM_MIN, ZIP_INT_IMM_MAX, ZIP_INT_8B.
  change ZIP_INT_16B with 192. change ZIP_INT_24B with 240. change ZIP_INT_32B with 208. change ZIP_INT_64B with 224.
  repeat (case_match; [lia|]). case_match; [done|lia].
Qed.

Lemma intEnc_range v enc : intEnc v enc → 192 ≤ enc < 255.
Proof.
  intros [[Hv ->]|[[Hv ->]|[[Hv ->]|[[Hv ->]|[[Hv ->]|[Hv ->]]]]]]; try done. unfold ZIP_INT_IMM_MIN. lia.
Qed.

Lemma intEnc_not_str v enc : intEnc v enc → ZIP_IS_STR enc = false.
Proof.
  intros He%intEnc_range. unfold ZIP_IS_STR, ZIP_STR_MASK. rewrite land_192 by lia.
  rewrite <-(Z.div_unique enc 64 3 (enc - 192)) by lia. done.
Qed.

Lemma encOf_is_str s : ZIP_IS_STR (encOf s) = match zipTryEncoding s with Some _ => false | None => true end.
Proof.
  unfold encOf. destruct (zipTryEncoding s) as [[v enc]|] eqn:E.
  - apply zipTryEncoding_spec in E as [_ E]. by apply intEnc_not_str in E.
  - by repeat case_match.
Qed.

Lemma intWidth_imm v : 0 ≤ v ≤ 12 → intWidth (ZIP_INT_IMM_MIN + v) = 0.
Proof.
  intros Hv. unfold intWidth, ZIP_INT_IMM_MIN, ZIP_INT_8B.
  change ZIP_INT_16B with 192. change ZIP_INT_24B with 240. change ZIP_INT_32B with 208. change ZIP_INT_64B with 224.
  by repeat (case_match; [lia|]).
Qed.

Lemma intWidth_nonneg enc : 0 ≤ intWidth enc.
Proof. unfold intWidth. repeat case_match; lia. Qed.

Lemma size_dataOf s : size (dataOf s) = match zipTryEncoding s with Some (_, enc) => intWidth enc | None => size s end.
Proof.
  unfold dataOf. destruct (zipTryEncoding s) as [[v enc]|]; [|by unfold chars; rewrite length_fmap].
  pose proof (intWidth_nonneg enc). rewrite length_le by done. lia.
Qed.

Lemma strLength_run A n C p : p = size A → 0 ≤ n < 2 ^ 32 →
  let h := if n <=? 0x3f then [n]
    else if n <=? 0x3fff then [64 + n / 256; n mod 256]
    else [128; n / 2 ^ 24 mod 256; n / 2 ^ 16 mod 256; n / 2 ^ 8 mod 256; n mod 256] in
  ZIP_DECODE_LENGTH p (A ++ h ++ C) =
  Ok ((if n <=? 0x3f then ZIP_STR_06B else if n <=? 0x3fff then ZIP_STR_14B else ZIP_STR_32B, size h, n), A ++ h ++ C).
Proof.
  intros Hp Hn. cbv zeta. unfold ZIP_DECODE_LENGTH, ZIP_ENTRY_ENCODING, ZIP_STR_MASK.
  destruct (Z.leb_spec n 0x3f); [|destruct (Z.leb_spec n 0x3fff)]; cbn [app]; rewrite (bind_run _ _ _ _ _ (readByte_run _ _ _ _ Hp)).
  - replace (n <? 0xc0) with true by lia. rewrite land_192, Z.div_small by lia. cbn -[Z.land]. by rewrite land_63, Z.mod_small by lia.
  - pose proof (div_range n 256 64 ltac:(lia) ltac:(lia)). replace (64 + n / 256 <? 0xc0) with true by lia.
    rewrite land_192 by lia. replace ((64 + n / 256) / 64) with 1 by (apply (Z.div_unique _ _ _ (n / 256)); lia).
    change (64 * 1) with 64. cbv zeta. change (64 <? 192) with true. change (64 =? ZIP_STR_06B) with false. change (64 =? ZIP_STR_14B) with true. cbv iota.
    erewrite bind_run by (apply (readByte_eq _ (A ++ [64 + n / 256]) (n mod 256) C); [by rewrite <-(assoc_L (++))|rewrite length_app; cbn; lia]).
    rewrite land_63. replace ((64 + n / 256) mod 64) with (n / 256) by (apply (Z.mod_unique _ _ 1); lia).
    rewrite Z.lor_comm, lor_high by (try lia; apply Z.mod_pos_bound; lia).
    replace (n mod 256 + n / 256 * 2 ^ 8) with n by (pose proof (Z.div_mod n 256); lia). done.
  - change (128 <? 192) with true. change (Z.land 128 192) with 128. cbv iota zeta.
    change (128 <? 192) with true. change (128 =? ZIP_STR_06B) with false. change (128 =? ZIP_STR_14B) with false. change (128 =? ZIP_STR_32B) with true. cbv iota.
    set (zl := A ++ _).
    assert (∀ k X b Y, zl = A ++ 128 :: X ++ b :: Y → k = 1 + size X → readByte (p + k) zl = Ok (b, zl)) as Hbyte.
    { intros k X b Y HX ->. apply (readByte_eq _ (A ++ 128 :: X) b Y); [by rewrite <-(assoc_L (++))|rewrite length_app; cbn; lia]. }
    rewrite (bind_run _ _ _ _ _ (Hbyte 1 [] _ _ eq_refl eq_refl)), (bind_run _ _ _ _ _ (Hbyte 2 [_] _ _ eq_refl eq_refl)),
      (bind_run _ _ _ _ _ (Hbyte 3 [_; _] _ _ eq_refl eq_refl)), (bind_run _ _ _ _ _ (Hbyte 4 [_; _; _] _ _ eq_refl eq_refl)).
    rewrite <-!shifted_byte, <-land_255 by lia.
    rewrite Z.lor_comm, (Z.lor_comm (Z.lor _ _) (Z.shiftl _ 8)), (Z.lor_comm (Z.shiftl _ 24)), !Z.lor_assoc, four_bytes.
    by rewrite Z.mod_small, u32_small by lia.
Qed.

Lemma ZIP_DECODE_LENGTH_run A s C p : p = size A → size s < 2 ^ 32 →
  ZIP_DECODE_LENGTH p (A ++ headOf s ++ C) = Ok ((encOf s, size (headOf s), size (dataOf s)), A ++ headOf s ++ C).
Proof.
  intros Hp Hs. rewrite size_dataOf. unfold headOf, encOf. destruct (zipTryEncoding s) as [[v enc]|] eqn:E.
  - apply zipTryEncoding_spec in E as [_ E]. unfold ZIP_DECODE_LENGTH. cbn [app]. rewrite (bind_run _ _ _ _ _ (readByte_run _ _ _ _ Hp)).
    pose proof (intEnc_range _ _ E). unfold ZIP_ENTRY_ENCODING, ZIP_STR_MASK. replace (enc <? 0xc0) with false by lia. cbv zeta.
    replace (enc <? 0xc0) with false by lia. by rewrite (bind_run _ _ _ _ _ (zipIntSize_run _ _ _ E)).
  - rewrite strHead by lia. apply strLength_run; [done|lia].
Qed.

Lemma zipLoadInteger_run A v enc C p : p = size A → intEnc v enc →
  zipLoadInteger p enc (A ++ le (intWidth enc) v ++ C) = Ok (v, A ++ le (intWidth enc) v ++ C).
Proof.
  intros -> [[Hv ->]|[[Hv ->]|[[Hv ->]|[[Hv ->]|[[Hv ->]|[Hv ->]]]]]]; unfold zipLoadInteger.
  - unfold ZIP_INT_IMM_MIN, ZIP_INT_IMM_MAX, ZIP_INT_8B.
    change ZIP_INT_16B with 192. change ZIP_INT_24B with 240. change ZIP_INT_32B with 208. change ZIP_INT_64B with 224.
    repeat (case_match; [lia|]). case_match; [|lia]. unfold ZIP_INT_IMM_MASK.
    rewrite (Z.land_ones _ 4) by lia. change (2 ^ 4) with 16. rewrite <-(Z.mod_unique (241 + v) 16 15 (v + 1)) by lia.
    unfold mret, M_ret. do 2 f_equal. lia.
  - change (ZIP_INT_8B =? ZIP_INT_8B) with true. change (intWidth ZIP_INT_8B) with 1. rewrite le_1. cbv iota. cbn [app].
    rewrite (bind_run _ _ _ _ _ (readByte_run _ _ _ _ eq_refl)). change (u8 v) with (v mod 2 ^ (8 * 1)). by rewrite toSigned_mod by lia.
  - change (intWidth ZIP_INT_16B) with 2. eval_tests. erewrite bind_run by by apply (readAt_run A (le 2 v)). unfold memrev16ifbe.
    by rewrite (memrev_loaded 2), unle_le, toSigned_mod by (by apply memrev16_reverse || by rewrite ?length_le || lia).
  - change (intWidth ZIP_INT_24B) with 3. eval_tests.
    erewrite bind_run by by apply (readAt_run A (le 3 v)). unfold memrev32ifbe.
    assert (take 1 (hostBytes 4 0) = [0]) as -> by (unfold hostBytes; by destruct BYTE_ORDER).
    change ([0] ++ le 3 v) with (0 :: le 3 v). rewrite <-le_4_shifted.
    rewrite (memrev_loaded 4), unle_le, toSigned_mod by (by apply memrev32_reverse || by rewrite ?length_le || rewrite ?Z.shiftl_mul_pow2; lia).
    by rewrite Z.shiftr_shiftl_l, Z.shiftl_0_r by lia.
  - change (intWidth ZIP_INT_32B) with 4. eval_tests. erewrite bind_run by by apply (readAt_run A (le 4 v)). unfold memrev32ifbe.
    by rewrite (memrev_loaded 4), unle_le, toSigned_mod by (by apply memrev32_reverse || by rewrite ?length_le || lia).
  - change (intWidth ZIP_INT_64B) with 8. eval_tests. erewrite bind_run by by apply (readAt_run A (le 8 v)). unfold memrev64ifbe.
    by rewrite (memrev_loaded 8), unle_le, toSigned_mod by (by apply memrev64_reverse || by rewrite ?length_le || lia).
Qed.

Lemma zipSaveInteger_run A v enc X C p : p = size A → intEnc v enc → size X = intWidth enc →
  zipSaveInteger p v enc (A ++ X ++ C) = Ok (tt, A ++ le (intWidth enc) v ++ C).
Proof.
  intros Hp He HX. assert (length (le (intWidth enc) v) = length X) as HX'.
  { pose proof (intWidth_nonneg enc). rewrite length_le by done. lia. }
  rewrite <-(writeAt_run A X C p _ Hp HX'). unfold zipSaveInteger.
  destruct He as [[Hv ->]|[[Hv ->]|[[Hv ->]|[[Hv ->]|[[Hv ->]|[Hv ->]]]]]].
  - rewrite intWidth_imm in HX |- * by done. rewrite le_0. assert (X = []) as -> by (apply nil_length_inv; lia).
    rewrite (writeAt_run A [] C p [] Hp eq_refl). unfold ZIP_INT_IMM_MIN, ZIP_INT_IMM_MAX, ZIP_INT_8B.
    change ZIP_INT_16B with 192. change ZIP_INT_24B with 240. change ZIP_INT_32B with 208. change ZIP_INT_64B with 224.
    repeat (case_match; [lia|]). case_match; [done|lia].
  - eval_tests. change (intWidth ZIP_INT_8B) with 1. by rewrite le_1.
  - eval_tests. change (intWidth ZIP_INT_16B) with 2. unfold memrev16ifbe. rewrite memrev_stored by (lia || apply memrev16_reverse). done.
  - eval_tests. change (intWidth ZIP_INT_24B) with 3. unfold memrev32ifbe. rewrite memrev_stored by (lia || apply memrev32_reverse).
    by rewrite le_4_shifted.
  - eval_tests. change (intWidth ZIP_INT_32B) with 4. unfold memrev32ifbe. rewrite memrev_stored by (lia || apply memrev32_reverse). done.
  - eval_tests. change (intWidth ZIP_INT_64B) with 8. unfold memrev64ifbe. rewrite memrev_stored by (lia || apply memrev64_reverse). done.
Qed.

(** ** The length of the previous entry *)

Definition prevBytes (big : bool) (n : Z) : list Z := if big then ZIP_BIG_PREVLEN :: le 4 n else [n].
Definition prevSize (big : bool) : Z := if big then 5 else 1.
Definition prevOk (big : bool) (n : Z) : Prop := 0 ≤ n < if big then 2 ^ 32 else ZIP_BIG_PREVLEN.

(** Whether the length needs the large form. *)
Definition large (n : Z) : bool := ZIP_BIG_PREVLEN <=? n.

Lemma size_prevBytes big n : size (prevBytes big n) = prevSize big.
Proof. unfold prevBytes. destruct big; [|done]. cbn [length]. by rewrite length_le by lia. Qed.

Lemma prevOk_large n : 0 ≤ n < 2 ^ 32 → prevOk (large n) n.
Proof. unfold prevOk, large, ZIP_BIG_PREVLEN. intros Hn. destruct (Z.leb_spec 254 n); lia. Qed.

Lemma prevOk_range big n : prevOk big n → 0 ≤ n < 2 ^ 32.
Proof. unfold prevOk, ZIP_BIG_PREVLEN. destruct big; lia. Qed.

Lemma prevBytes_head big n : prevOk big n → ∃ b x, prevBytes big n = b :: x ∧ b ≠ ZIP_END ∧ (b <? ZIP_BIG_PREVLEN) = negb big.
Proof.
  unfold prevOk, prevBytes, ZIP_BIG_PREVLEN, ZIP_END. intros Hn. destruct big; eexists _, _; (split; [done|]); split; lia.
Qed.

Lemma ZIP_DECODE_PREVLENSIZE_run A big n C p : p = size A → prevOk big n →
  ZIP_DECODE_PREVLENSIZE p (A ++ prevBytes big n ++ C) = Ok (prevSize big, A ++ prevBytes big n ++ C).
Proof.
  intros Hp Hn. destruct (prevBytes_head big n Hn) as (b & x & -> & _ & Hb). unfold ZIP_DECODE_PREVLENSIZE. cbn [app].
  rewrite (bind_run _ _ _ _ _ (readByte_run _ _ _ _ Hp)), Hb. by destruct big.
Qed.

Lemma ZIP_DECODE_PREVLEN_run A big n C p : p = size A → prevOk big n →
  ZIP_DECODE_PREVLEN p (A ++ prevBytes big n ++ C) = Ok ((prevSize big, n), A ++ prevBytes big n ++ C).
Proof.
  intros Hp Hn. unfold ZIP_DECODE_PREVLEN. rewrite (bind_run _ _ _ _ _ (ZIP_DECODE_PREVLENSIZE_run _ _ _ _ _ Hp Hn)).
  destruct big; cbn [prevBytes prevSize app].
  - eval_tests. rewrite (cons_middle ZIP_BIG_PREVLEN A (le 4 n ++ C)), (assoc_L (++) A).
    erewrite bind_run by (apply (readAt_run (A ++ [ZIP_BIG_PREVLEN]) (le 4 n)); [rewrite length_app; cbn; lia|done]).
    unfold memrev32ifbe. rewrite (memrev_loaded 4), unle_le by (by apply memrev32_reverse || by rewrite ?length_le || lia).
    unfold prevOk in Hn. by rewrite Z.mod_small by lia.
  - eval_tests. by rewrite (bind_run _ _ _ _ _ (readByte_run _ _ _ _ Hp)).
Qed.

Lemma zipPrevLenByteDiff_run A big n C p k : p = size A → prevOk big n →
  zipPrevLenByteDiff p k (A ++ prevBytes big n ++ C) = Ok (prevSize (large k) - prevSize big, A ++ prevBytes big n ++ C).
Proof.
  intros Hp Hn. unfold zipPrevLenByteDiff. rewrite (bind_run _ _ _ _ _ (ZIP_DECODE_PREVLENSIZE_run _ _ _ _ _ Hp Hn)).
  unfold zipStorePrevEntryLength. rewrite bind_ret. unfold large, prevSize.
  replace (k <? ZIP_BIG_PREVLEN) with (negb (ZIP_BIG_PREVLEN <=? k)) by lia. by destruct (ZIP_BIG_PREVLEN <=? k).
Qed.

Lemma prevEntryLength_null k zl : zipStorePrevEntryLength None k zl = Ok (prevSize (large k), zl).
Proof.
  unfold zipStorePrevEntryLength, large, prevSize.
  replace (k <? ZIP_BIG_PREVLEN) with (negb (ZIP_BIG_PREVLEN <=? k)) by lia. by destruct (ZIP_BIG_PREVLEN <=? k).
Qed.

Lemma prevEntryLengthLarge_run A X C p k : p = size A → length X = 5%nat →
  zipStorePrevEntryLengthLarge p k (A ++ X ++ C) = Ok (5, A ++ prevBytes true k ++ C).
Proof.
  intros Hp HX. destruct X as [|b X]; [done|]. cbn in HX. unfold zipStorePrevEntryLengthLarge. cbn [app prevBytes].
  erewrite bind_run by by apply (writeAt_run A [b]). cbn [app]. rewrite (cons_middle ZIP_BIG_PREVLEN A), (assoc_L (++) A).
  assert (p + 1 = size (A ++ [ZIP_BIG_PREVLEN])) as Hp1 by (rewrite length_app; cbn; lia).
  assert (length (hostBytes 4 k) = 4%nat) as Hk by (unfold hostBytes; destruct BYTE_ORDER; by rewrite ?length_reverse, length_le).
  erewrite bind_run by (apply (writeAt_run _ X); [done|lia]).
  erewrite bind_run by (apply (readAt_run _ (hostBytes 4 k)); [done|by rewrite Hk]).
  unfold memrev32ifbe. rewrite memrev_stored by (lia || apply memrev32_reverse).
  erewrite bind_run by (apply (writeAt_run _ (hostBytes 4 k)); [done|by rewrite Hk, length_le by lia]).
  by rewrite <-(assoc_L (++)).
Qed.

Lemma prevEntryLength_run A X C p k : p = size A → size X = prevSize (large k) → 0 ≤ k →
  zipStorePrevEntryLength (Some p) k (A ++ X ++ C) = Ok (prevSize (large k), A ++ prevBytes (large k) k ++ C).
Proof.
  unfold zipStorePrevEntryLength, large. intros Hp HX Hk. destruct (Z.leb_spec ZIP_BIG_PREVLEN k).
  - replace (k <? ZIP_BIG_PREVLEN) with false by lia. apply prevEntryLengthLarge_run; [done|]. cbn in HX. lia.
  - replace (k <? ZIP_BIG_PREVLEN) with true by lia. erewrite bind_run by (apply (writeAt_run A X); [done|]; cbn in *; lia).
    unfold ZIP_BIG_PREVLEN in *. by rewrite u8_id by lia.
Qed.

Lemma prevEntryLength_eq zl A X C p k : zl = A ++ X ++ C → p = size A → size X = prevSize (large k) → 0 ≤ k →
  zipStorePrevEntryLength (Some p) k zl = Ok (prevSize (large k), A ++ prevBytes (large k) k ++ C).
Proof. intros ->. apply prevEntryLength_run. Qed.

End Entries.

(** ** Lists of entries *)

Record zent := mkZent { zbig : bool; zprev : Z; zstr : bytes }.

Definition restBytes (s : bytes) : list Z := headOf s ++ dataOf s.
Definition entBytes (e : zent) : list Z := prevBytes (zbig e) (zprev e) ++ restBytes (zstr e).
Definition rawlen (e : zent) : Z := size (entBytes e).
Definition entOk (e : zent) : Prop := prevOk (zbig e) (zprev e) ∧ rawlen e < 2 ^ 32.
Definition layout (es : list zent) : list Z := concat (entBytes <$> es).

(** [zipEntry] of the entry at [p]. *)
Definition entryOf (e : zent) (p : Z) : zlentry :=
  mkZlentry (prevSize (zbig e)) (zprev e) (size (headOf (zstr e))) (size (dataOf (zstr e)))
    (prevSize (zbig e) + size (headOf (zstr e))) (encOf (zstr e)) p.

Lemma layout_app es es' : layout (es ++ es') = layout es ++ layout es'.
Proof. unfold layout. by rewrite fmap_app, concat_app. Qed.

Lemma layout_cons e es : layout (e :: es) = entBytes e ++ layout es.
Proof. done. Qed.

Lemma rawlen_eq e : rawlen e = prevSize (zbig e) + size (restBytes (zstr e)).
Proof. unfold rawlen, entBytes. rewrite length_app, Nat2Z.inj_add. by rewrite size_prevBytes. Qed.

Lemma size_restBytes s : size (restBytes s) = size (headOf s) + size (dataOf s).
Proof. unfold restBytes. rewrite length_app. lia. Qed.

Lemma size_headOf s : 1 ≤ size (headOf s).
Proof.
  unfold headOf. destruct (zipTryEncoding s) as [[v enc]|]; [done|].
  unfold entryEncoding. repeat case_match; cbn; lia.
Qed.

Lemma rawlen_min e : 2 ≤ rawlen e.
Proof. rewrite rawlen_eq, size_restBytes. pose proof (size_headOf (zstr e)). unfold prevSize. destruct (zbig e); lia. Qed.

Lemma entOk_str e : entOk e → size (zstr e) < 2 ^ 32.
Proof.
  intros [_ He]. rewrite rawlen_eq, size_restBytes, size_dataOf in He. pose proof (size_headOf (zstr e)).
  assert (0 ≤ prevSize (zbig e)) by (unfold prevSize; destruct (zbig e); lia).
  unfold zipTryEncoding in He. destruct ((32 <=? size (zstr e)) || (size (zstr e) =? 0)) eqn:E; [lia|].
  destruct (string2ll (zstr e)) as [v|]; lia.
Qed.

Section Layout.
Context `{Host} (garbage : nat → Z).

Lemma zipEntry_run zl A e C p : zl = A ++ entBytes e ++ C → p = size A → entOk e → zipEntry p zl = Ok (entryOf e p, zl).
Proof.
  intros -> Hp He. pose proof (entOk_str e He) as Hs. destruct He as [He _]. unfold zipEntry, entBytes, restBytes. rewrite <-!(assoc_L (++)).
  rewrite (bind_run _ _ _ _ _ (ZIP_DECODE_PREVLEN_run _ _ _ _ _ Hp He)). rewrite (assoc_L (++) A).
  erewrite bind_run by (apply ZIP_DECODE_LENGTH_run; [rewrite length_app, Nat2Z.inj_add, size_prevBytes; lia|done]). done.
Qed.

Lemma zipRawEntryLength_run zl A e C p : zl = A ++ entBytes e ++ C → p = size A → entOk e → zipRawEntryLength p zl = Ok (rawlen e, zl).
Proof.
  intros -> Hp He. pose proof (entOk_str e He) as Hs. rewrite rawlen_eq, size_restBytes. destruct He as [He Hr].
  rewrite rawlen_eq, size_restBytes in Hr. unfold zipRawEntryLength, entBytes, restBytes. rewrite <-!(assoc_L (++)).
  rewrite (bind_run _ _ _ _ _ (ZIP_DECODE_PREVLENSIZE_run _ _ _ _ _ Hp He)). rewrite (assoc_L (++) A).
  erewrite bind_run by (apply ZIP_DECODE_LENGTH_run; [rewrite length_app, Nat2Z.inj_add, size_prevBytes; lia|done]).
  cbv beta iota. rewrite u32_small by (unfold prevSize in *; destruct (zbig e); lia). by rewrite Z.add_assoc.
Qed.

(** The first byte of an entry is not the end. *)
Lemma entByte_run zl A e C p : zl = A ++ entBytes e ++ C → p = size A → entOk e →
  ∃ b, readByte p zl = Ok (b, zl) ∧ (b =? ZIP_END) = false.
Proof.
  intros -> Hp [He _]. destruct (prevBytes_head _ _ He) as (b & x & Hx & Hb & _). unfold entBytes. rewrite Hx.
  exists b. split; [by apply readByte_run|]. by apply Z.eqb_neq.
Qed.

Lemma endByte_run zl A C p : zl = A ++ ZIP_END :: C → p = size A → readByte p zl = Ok (ZIP_END, zl).
Proof. intros -> Hp. by apply readByte_run. Qed.

(** ** Resizing *)

Lemma zrealloc_grow zl n : size zl ≤ n → ∃ G, zrealloc garbage n zl = Ok (tt, zl ++ G) ∧ size G = n - size zl.
Proof.
  intros Hn. eexists. unfold zrealloc, modify. rewrite take_ge by lia. split; [done|]. rewrite length_fmap, length_seq. lia.
Qed.

Lemma zrealloc_shrink A C n : n = size A → zrealloc garbage n (A ++ C) = Ok (tt, A).
Proof.
  intros ->. unfold zrealloc, modify. rewrite Nat2Z.id, take_app_length, length_app.
  replace (length A - _)%nat with 0%nat by lia. by rewrite app_nil_r.
Qed.

(** The end byte moves to the new end, and the byte where it was stays when there are
    more. *)
Lemma ziplistResize_grow n t f X L : 11 + size X ≤ L < 2 ^ 32 →
  ∃ J, ziplistResize garbage L (hdr n t f ++ X ++ [ZIP_END]) = Ok (tt, hdr L t f ++ X ++ J ++ [ZIP_END]) ∧
    size J = L - (11 + size X) ∧ head (J ++ [ZIP_END]) = Some ZIP_END.
Proof.
  intros HL. unfold ziplistResize. cbv zeta. rewrite (u32_small L), (u32_small (L - 1)) by lia.
  destruct (zrealloc_grow (hdr n t f ++ X ++ [ZIP_END]) L) as (G & HG & Hsize);
    [rewrite !length_app, length_hdr; cbn [length]; lia|].
  rewrite !length_app, length_hdr in Hsize. cbn [length] in Hsize.
  rewrite (bind_run _ _ _ _ _ HG), <-!(assoc_L (++)), (bind_run _ _ _ _ _ (setBytes_run _ _ _ _ _)).
  destruct (exists_last (l := ZIP_END :: G)) as (J & y & HJ); [done|]. change ([ZIP_END] ++ G) with (ZIP_END :: G). rewrite HJ.
  pose proof (f_equal length HJ) as HJl. rewrite length_app in HJl. cbn [length] in HJl. exists J. split; [|split; [lia|]].
  - rewrite (writeAt_eq _ (hdr L t f ++ X ++ J) [y] [] (L - 1) [ZIP_END]); [by rewrite <-!(assoc_L (++)), app_nil_r| | |done].
    + by rewrite <-!(assoc_L (++)), app_nil_r.
    + rewrite !length_app, length_hdr. lia.
  - destruct J as [|b J]; [done|]. by injection HJ as <- _.
Qed.

Lemma ziplistResize_shrink n t f X Y L : L = 11 + size X → L < 2 ^ 32 → Y ≠ [] →
  ziplistResize garbage L (hdr n t f ++ X ++ Y) = Ok (tt, hdr L t f ++ X ++ [ZIP_END]).
Proof.
  intros HL Hmax HY. unfold ziplistResize. cbv zeta. rewrite (u32_small L), (u32_small (L - 1)) by lia. destruct Y as [|y Y]; [done|].
  erewrite bind_run by (eapply (eq_trans _ (zrealloc_shrink (hdr n t f ++ X ++ [y]) Y L _))).
  rewrite (bind_run _ _ _ _ _ (setBytes_run _ _ _ _ _)).
  rewrite (writeAt_eq _ (hdr L t f ++ X) [y] [] (L - 1) [ZIP_END]); [by rewrite <-!(assoc_L (++)), app_nil_r| | |done].
  + by rewrite <-!(assoc_L (++)), app_nil_r.
  + rewrite !length_app, length_hdr. lia.
  Unshelve. { by rewrite <-!(assoc_L (++)). } rewrite !length_app, length_hdr. cbn [length]. lia.
Qed.

(** ** Blocks *)

(** Where the last entry is, in the bytes of the entries. *)
Definition lastOff (es : list zent) : Z := size (layout (removelast es)).

(** A block with the bytes [A] before the entries [es]; [f] is the field of the number
    of entries. *)
Definition block (f : Z) (A : list Z) (es : list zent) : list Z :=
  hdr (11 + size A + size (layout es)) (10 + size A + lastOff es) f ++ A ++ layout es ++ [ZIP_END].

Lemma size_layout_cons e es : size (layout (e :: es)) = rawlen e + size (layout es).
Proof. rewrite layout_cons, length_app, Nat2Z.inj_add. done. Qed.

Lemma lastOff_cons e es : es ≠ [] → lastOff (e :: es) = rawlen e + lastOff es.
Proof. intros Hes. unfold lastOff. destruct es as [|e' es]; [done|]. apply (size_layout_cons e (removelast (e' :: es))). Qed.

Lemma lastOff_nonneg es : 0 ≤ lastOff es.
Proof. unfold lastOff. lia. Qed.

Lemma lastOff_le es : lastOff es ≤ size (layout es).
Proof.
  destruct es as [|e es]; [done|]. rewrite (app_removelast_last e (l := e :: es)) at 2 by done.
  unfold lastOff. rewrite layout_app, length_app. lia.
Qed.

Lemma block_shift f A e es : es ≠ [] → block f A (e :: es) = block f (A ++ entBytes e) es.
Proof.
  intros Hes. unfold block. rewrite lastOff_cons, layout_cons, !length_app, !Nat2Z.inj_add, <-!(assoc_L (++)) by done.
  f_equal. unfold rawlen. f_equal; lia.
Qed.

(** Everything before the entry at hand. *)
Lemma block_split f A es : block f A es = (hdr (11 + size A + size (layout es)) (10 + size A + lastOff es) f ++ A) ++ layout es ++ [ZIP_END].
Proof. unfold block. by rewrite <-!(assoc_L (++)). Qed.

Lemma size_hdr_app n t f A : size (hdr n t f ++ A) = 10 + size A.
Proof. rewrite length_app, length_hdr. lia. Qed.

(** The next entry gets four more bytes for the length [k]. *)
Lemma growNext_run f A r rest p q k L : zbig r = false → p + k = 10 + size A → ZIP_BIG_PREVLEN ≤ k < 2 ^ 32 →
  L = 11 + size A + size (layout (r :: rest)) → L + 4 < 2 ^ 32 →
  growNext garbage L p k 5 (entryOf r q) (block f A (r :: rest)) = Ok (tt, block f A (mkZent true k (zstr r) :: rest)).
Proof.
  intros Hbig Hp Hk HL Hmax. unfold growNext, entryOf. rewrite Hbig. cbn [prevrawlensize prevSize]. change (5 - 1) with 4.
  set (Y := restBytes (zstr r) ++ layout rest).
  assert (layout (r :: rest) = [zprev r] ++ Y) as Hlay.
  { rewrite layout_cons. unfold entBytes, Y. by rewrite Hbig, <-!(assoc_L (++)). }
  assert (L = 12 + size A + size Y) as HLY by (rewrite HL, Hlay, length_app; cbn [length]; lia).
  unfold block at 1. rewrite (assoc_L (++) A).
  destruct (ziplistResize_grow (11 + size A + size (layout (r :: rest))) (10 + size A + lastOff (r :: rest)) f
    (A ++ layout (r :: rest)) (L + 4)) as (J & HJ & HJsize & _); [rewrite length_app; lia|]. rewrite length_app in HJsize.
  rewrite (bind_run _ _ _ _ _ HJ). clear HJ. pose proof (lastOff_le (r :: rest)). pose proof (lastOff_nonneg (r :: rest)).
  rewrite (bind_run _ _ _ _ _ (getTail_run (L + 4) (10 + size A + lastOff (r :: rest)) f _ ltac:(lia))).
  set (r' := mkZent true k (zstr r)).
  assert (∀ n C, (if 10 + size A + lastOff (r :: rest) =? p + k then mret tt
    else setTail (10 + size A + lastOff (r :: rest) + 4)) (hdr n (10 + size A + lastOff (r :: rest)) f ++ C) =
    Ok (tt, hdr n (10 + size A + lastOff (r' :: rest)) f ++ C)) as Htail.
  { intros n C. rewrite Hp. destruct rest as [|e rest].
    - change (lastOff [r]) with 0. change (lastOff [r']) with 0. by rewrite (proj2 (Z.eqb_eq (10 + size A + 0) _)) by lia.
    - rewrite !(lastOff_cons _ (e :: rest)) by done. pose proof (rawlen_min r). pose proof (lastOff_nonneg (e :: rest)).
      rewrite (proj2 (Z.eqb_neq _ _)) by lia. rewrite setTail_run. do 4 f_equal. rewrite !rawlen_eq, Hbig. cbn. lia. }
  rewrite (bind_run _ _ _ _ _ (Htail _ _)). clear Htail. set (t' := 10 + size A + lastOff (r' :: rest)).
  rewrite Hp, u64_id by (unfold ULLONG_MAX; lia). set (W := [zprev r] ++ Y ++ J).
  assert (size W = 5 + size Y) as HW by (unfold W; rewrite !length_app; cbn [length]; lia).
  erewrite bind_run; [|apply (moveMem_run _ (hdr (L + 4) t' f ++ A ++ [zprev r]) Y (J ++ [ZIP_END])
    (hdr (L + 4) t' f ++ A ++ take 5 W) (drop 5 W) [ZIP_END])].
  - assert (large k = true) as Hlarge by (unfold large; lia).
    erewrite bind_run; [|apply (prevEntryLength_eq _ (hdr (L + 4) t' f ++ A) (take 5 W) (Y ++ [ZIP_END]))].
    + unfold block. rewrite Hlarge. change (layout (r' :: rest)) with ((prevBytes true k ++ restBytes (zstr r)) ++ layout rest).
      rewrite <-!(assoc_L (++)). unfold mret, M_ret, Y. rewrite <-!(assoc_L (++)). do 3 f_equal.
      f_equal. rewrite length_app, Nat2Z.inj_add, size_prevBytes. unfold Y in HLY. rewrite length_app in *. cbn. lia.
    + by rewrite <-!(assoc_L (++)).
    + by rewrite size_hdr_app.
    + rewrite length_take, Hlarge. cbn [prevSize]. lia.
    + unfold ZIP_BIG_PREVLEN in *. lia.
  - unfold W. rewrite Hlay. by rewrite <-!(assoc_L (++)).
  - rewrite Hlay, <-!(assoc_L (++)). do 2 f_equal. rewrite (assoc_L (++) (take 5 W)), take_drop. unfold W. by rewrite <-!(assoc_L (++)).
  - rewrite length_drop. lia.
  - rewrite (assoc_L (++)), length_app, Nat2Z.inj_add, size_hdr_app. cbn [length]. lia.
  - rewrite (assoc_L (++)), length_app, Nat2Z.inj_add, size_hdr_app, length_take. lia.
  - lia.
Qed.

(** The length [k] in the bytes that are there. *)
Lemma storePrev_run f A r rest p k : p = 10 + size A → 0 ≤ k < 2 ^ 32 → (zbig r = false → large k = false) →
  (if prevSize (large k) <? prevSize (zbig r) then zipStorePrevEntryLengthLarge p k else zipStorePrevEntryLength (Some p) k)
    (block f A (r :: rest)) = Ok (prevSize (zbig r), block f A (mkZent (zbig r) k (zstr r) :: rest)).
Proof.
  intros Hp Hk Hfit. set (r' := mkZent _ _ _).
  assert (rawlen r' = rawlen r) as Hraw by by rewrite !rawlen_eq.
  assert (∀ n t, hdr n t f ++ A ++ layout (r :: rest) ++ [ZIP_END] =
    (hdr n t f ++ A) ++ prevBytes (zbig r) (zprev r) ++ restBytes (zstr r) ++ layout rest ++ [ZIP_END]) as Hsplit.
  { intros n t. rewrite layout_cons. unfold entBytes. by rewrite <-!(assoc_L (++)). }
  assert (block f A (r' :: rest) = (hdr (11 + size A + size (layout (r :: rest))) (10 + size A + lastOff (r :: rest)) f ++ A) ++
    prevBytes (zbig r) k ++ restBytes (zstr r) ++ layout rest ++ [ZIP_END]) as ->.
  { unfold block. rewrite !size_layout_cons, Hraw. replace (lastOff (r' :: rest)) with (lastOff (r :: rest)).
    - rewrite layout_cons. unfold entBytes. by rewrite <-!(assoc_L (++)).
    - destruct rest as [|e rest]; [done|]. by rewrite !(lastOff_cons _ (e :: rest)), Hraw by done. }
  unfold block. rewrite Hsplit. destruct (large k) eqn:Hl, (zbig r) eqn:Hb; cbn [prevSize]; eval_tests.
  - erewrite prevEntryLength_eq; [|done|by rewrite size_hdr_app|by rewrite Hl, size_prevBytes|lia]. by rewrite Hl.
  - by specialize (Hfit eq_refl).
  - apply prevEntryLengthLarge_run; [by rewrite size_hdr_app|done].
  - erewrite prevEntryLength_eq; [|done|by rewrite size_hdr_app|by rewrite Hl|lia]. by rewrite Hl.
Qed.

(** ** The cascade *)

(** The stored lengths are those of the entries before, from [prev] on. *)
Fixpoint chain (prev : Z) (es : list zent) : Prop :=
  match es with
  | [] => True
  | e :: es => zprev e = prev ∧ entOk e ∧ chain (rawlen e) es
  end.

(** All but the first. *)
Definition chainTail (es : list zent) : Prop :=
  match es with
  | [] => True
  | e :: es => entOk e ∧ chain (rawlen e) es
  end.

(** Reading the first entry of a block. *)
Lemma block_entry f A e es : ∃ D, size D = 10 + size A ∧ block f A (e :: es) = D ++ entBytes e ++ layout es ++ [ZIP_END].
Proof. eexists. split; [|rewrite block_split, layout_cons, <-(assoc_L (++) (entBytes e)); done]. by rewrite size_hdr_app. Qed.

Lemma blockEntry_run f A e es p : p = 10 + size A → entOk e → zipEntry p (block f A (e :: es)) = Ok (entryOf e p, block f A (e :: es)).
Proof.
  intros Hp He. destruct (block_entry f A e es) as (D & HD & ->). eapply zipEntry_run; [done|lia|done].
Qed.

Lemma blockRaw_run f A e es p : p = 10 + size A → entOk e → zipRawEntryLength p (block f A (e :: es)) = Ok (rawlen e, block f A (e :: es)).
Proof.
  intros Hp He. destruct (block_entry f A e es) as (D & HD & ->). eapply zipRawEntryLength_run; [done|lia|done].
Qed.

Lemma blockByte_run f A e es p : p = 10 + size A → entOk e →
  ∃ b, readByte p (block f A (e :: es)) = Ok (b, block f A (e :: es)) ∧ (b =? ZIP_END) = false.
Proof.
  intros Hp He. destruct (block_entry f A e es) as (D & HD & ->). eapply entByte_run; [done|lia|done].
Qed.

(** The byte after the last entry. *)
Lemma blockEnd_run f A es p : p = 10 + size A + size (layout es) → readByte p (block f A es) = Ok (ZIP_END, block f A es).
Proof.
  intros Hp. rewrite block_split, (assoc_L (++) (_ ++ A)). apply readByte_run. rewrite length_app, Nat2Z.inj_add, size_hdr_app. lia.
Qed.

Lemma entry_rawlen e p : entOk e → u32 (headersize (entryOf e p) + len (entryOf e p)) = rawlen e.
Proof.
  intros [_ He]. pose proof (rawlen_min e). pose proof (rawlen_eq e) as Heq. rewrite size_restBytes in Heq. cbn [headersize len entryOf].
  rewrite u32_small; lia.
Qed.

Lemma cascadeLoop_run f fuel rest cur A L : (length rest < fuel)%nat → entOk cur → chainTail rest →
  L = 11 + size A + size (layout (cur :: rest)) → L + 4 * size rest < 2 ^ 32 →
  ∃ rest', cascadeLoop garbage fuel L (10 + size A) (block f A (cur :: rest)) = Ok (tt, block f A (cur :: rest')) ∧
    chain (rawlen cur) rest' ∧ zstr <$> rest' = zstr <$> rest.
Proof.
  revert rest cur A L. induction fuel as [|fuel IH]; intros rest cur A L Hfuel Hcur Hchain HL Hmax; [lia|].
  cbn [cascadeLoop]. destruct (blockByte_run f A cur rest _ eq_refl Hcur) as (b & Hb & Hnb).
  rewrite (bind_run _ _ _ _ _ Hb), Hnb, (bind_run _ _ _ _ _ (blockEntry_run _ _ _ _ _ eq_refl Hcur)), entry_rawlen by done.
  rewrite (bind_run _ _ _ _ _ (prevEntryLength_null _ _)). pose proof (rawlen_min cur). pose proof Hcur as [_ Hcmax].
  destruct rest as [|r rest].
  { rewrite (bind_run _ _ _ _ _ (blockEnd_run f A [cur] (10 + size A + rawlen cur) ltac:(rewrite size_layout_cons; cbn; lia))). by exists []. }
  destruct Hchain as [Hr Hchain]. set (A' := A ++ entBytes cur).
  assert (10 + size A + rawlen cur = 10 + size A') as Hp by (unfold A', rawlen; rewrite length_app; lia).
  rewrite block_shift, Hp by done. fold A'. clear b Hb Hnb.
  destruct (blockByte_run f A' r rest _ eq_refl Hr) as (b & Hb & Hnb).
  rewrite (bind_run _ _ _ _ _ Hb), Hnb, (bind_run _ _ _ _ _ (blockEntry_run _ _ _ _ _ eq_refl Hr)). cbn [prevrawlen prevrawlensize entryOf].
  destruct (Z.eqb_spec (zprev r) (rawlen cur)) as [Heq|Hneq].
  { exists (r :: rest). by rewrite (block_shift f A cur) by done. }
  destruct (prevSize (zbig r) <? prevSize (large (rawlen cur))) eqn:Hgrow.
  - assert (zbig r = false ∧ large (rawlen cur) = true) as [Hsmall Hlarge] by (destruct (zbig r), (large (rawlen cur)); done).
    rewrite Hsmall, Hlarge. cbn [prevSize].
    assert (L = 11 + size A' + size (layout (r :: rest))) as HL' by (rewrite HL, size_layout_cons; lia).
    erewrite bind_run; [|apply growNext_run; [done|lia|unfold large in Hlarge; lia|done|cbn [length] in Hmax; lia]].
    set (r' := mkZent true (rawlen cur) (zstr r)). cbn [length] in Hfuel, Hmax.
    assert (rawlen r' = rawlen r + 4) as Hraw by (rewrite !rawlen_eq, Hsmall; cbn; lia).
    assert (entOk r') as Hr'.
    { split; [change (prevOk true (rawlen cur)); unfold prevOk; lia|]. rewrite Hraw. rewrite HL', size_layout_cons in Hmax. lia. }
    destruct (IH rest r' A' (L + (5 - 1))) as (rest' & Hrun & Hch & Hstr); [lia|done|by destruct rest as [|e rest]; [|destruct Hchain as (_ & ? & ?)]| |lia|].
    { rewrite HL', !size_layout_cons. lia. }
    exists (r' :: rest'). rewrite Hrun, (block_shift f A cur) by done. split; [done|]. split; [done|by f_equal/=].
  - exists (mkZent (zbig r) (rawlen cur) (zstr r) :: rest).
    erewrite bind_run; [|apply storePrev_run; [done|lia|]].
    + rewrite (block_shift f A cur) by done. split; [done|]. split; [|done].
      assert (rawlen (mkZent (zbig r) (rawlen cur) (zstr r)) = rawlen r) as Hraw by by rewrite !rawlen_eq.
      cbn [chain]. rewrite Hraw. split; [done|]. split; [|done]. split; [|by rewrite Hraw; apply Hr].
      unfold prevOk. cbn [zbig zprev]. unfold large in Hgrow. destruct (zbig r); [lia|]. destruct (ZIP_BIG_PREVLEN <=? rawlen cur) eqn:E; [done|lia].
    + intros Hb'. rewrite Hb' in Hgrow. by destruct (large (rawlen cur)).
Qed.

Lemma entries_length es : size es ≤ size (layout es).
Proof.
  induction es as [|e es IH]; [done|]. rewrite size_layout_cons. pose proof (rawlen_min e). cbn [length]. lia.
Qed.

Lemma length_block f A es : size (block f A es) = 11 + size A + size (layout es).
Proof. unfold block. rewrite !length_app, length_hdr. cbn [length]. lia. Qed.

Lemma blockBytes_run f A es : 11 + size A + size (layout es) < 2 ^ 32 →
  getBytes (block f A es) = Ok (11 + size A + size (layout es), block f A es).
Proof. intros Hmax. unfold block. apply getBytes_run. lia. Qed.

Lemma blockTail_run f A es : 11 + size A + size (layout es) < 2 ^ 32 →
  getTail (block f A es) = Ok (10 + size A + lastOff es, block f A es).
Proof.
  intros Hmax. unfold block. apply getTail_run. pose proof (lastOff_le es). pose proof (lastOff_nonneg es). lia.
Qed.

Lemma cascade_run f A cur rest p : p = 10 + size A → entOk cur → chainTail rest →
  11 + size A + size (layout (cur :: rest)) + 4 * size rest < 2 ^ 32 →
  ∃ rest', __ziplistCascadeUpdate garbage p (block f A (cur :: rest)) = Ok (tt, block f A (cur :: rest')) ∧
    chain (rawlen cur) rest' ∧ zstr <$> rest' = zstr <$> rest.
Proof.
  intros -> Hcur Hrest Hmax. unfold __ziplistCascadeUpdate. rewrite (bind_run _ _ _ _ _ (blockBytes_run f A (cur :: rest) ltac:(lia))), bind_gets.
  apply cascadeLoop_run; [|done..|lia]. pose proof (length_block f A (cur :: rest)). pose proof (entries_length (cur :: rest)).
  cbn [length] in *. lia.
Qed.

Lemma cascade_end f A p : p = 10 + size A → 11 + size A < 2 ^ 32 → __ziplistCascadeUpdate garbage p (block f A []) = Ok (tt, block f A []).
Proof.
  intros -> Hmax. unfold __ziplistCascadeUpdate. rewrite (bind_run _ _ _ _ _ (blockBytes_run f A [] ltac:(cbn; lia))), bind_gets.
  pose proof (length_block f A []) as Hlen. destruct (length (block f A [])) as [|n]; [lia|]. cbn [cascadeLoop].
  by rewrite (bind_run _ _ _ _ _ (blockEnd_run f A [] (10 + size A) ltac:(cbn; lia))).
Qed.

(** ** Positions *)

Lemma block_shift_app f A P es : es ≠ [] → block f A (P ++ es) = block f (A ++ layout P) es.
Proof.
  intros Hes. revert A. induction P as [|e P IH]; intros A; [cbn; by rewrite app_nil_r|].
  rewrite <-app_comm_cons, block_shift by (by destruct P). rewrite IH, layout_cons. by rewrite <-(assoc_L (++)).
Qed.

(** The length of the last entry. *)
Definition lastLen (prev : Z) (es : list zent) : Z := from_option rawlen prev (last es).

Lemma lastLen_cons prev e es : lastLen prev (e :: es) = lastLen (rawlen e) es.
Proof. unfold lastLen. destruct es as [|e' es]; [done|]. rewrite last_cons. by destruct (last (e' :: es)) eqn:E; [|apply last_None in E]. Qed.

Lemma chain_app prev P es : chain prev (P ++ es) ↔ chain prev P ∧ chain (lastLen prev P) es.
Proof.
  revert prev. induction P as [|e P IH]; intros prev; [cbn; tauto|].
  rewrite lastLen_cons. cbn [app chain]. rewrite IH. tauto.
Qed.

Lemma chain_ok prev es e : chain prev es → e ∈ es → entOk e.
Proof.
  revert prev. induction es as [|e' es IH]; intros prev; [by intros _ ?%not_elem_of_nil|].
  intros (_ & He' & Hch) [->|He]%elem_of_cons; [done|]. by eapply IH.
Qed.

(** The chain depends on the lengths only. *)
Lemma chain_tail e es : chain (rawlen e) es → entOk e → chainTail (e :: es).
Proof. done. Qed.

Lemma chain_chainTail prev es : chain prev es → chainTail es.
Proof. destruct es as [|e es]; [done|]. by intros (_ & ? & ?). Qed.

Lemma lastOff_lastLen es : es ≠ [] → lastOff es = size (layout es) - lastLen 0 es.
Proof.
  intros Hes. unfold lastOff, lastLen. destruct (exists_last Hes) as (P & e & ->).
  rewrite removelast_last, last_snoc, layout_app, length_app. cbn [from_option]. unfold rawlen, layout. cbn. rewrite app_nil_r. lia.
Qed.

(** ** Deletion *)

(** The loop over the entries [D] to delete. *)
Lemma skipEntries_run f D T A fuel p i num prev : chain prev (D ++ T) → p = 10 + size A → (length D < fuel)%nat →
  i + size D ≤ num → (T = [] ∨ i + size D = num) →
  skipEntries fuel p i num (block f A (D ++ T)) = Ok ((p + size (layout D), i + size D), block f A (D ++ T)).
Proof.
  revert A fuel p i prev. induction D as [|e D IH]; intros A fuel p i prev Hch Hp Hfuel Hnum Hstop; (destruct fuel as [|fuel]; [cbn in *; lia|]).
  - cbn [skipEntries app layout length]. destruct T as [|t T].
    + rewrite (bind_run _ _ _ _ _ (blockEnd_run f A [] p ltac:(cbn; lia))). cbn. by rewrite !Z.add_0_r.
    + destruct Hstop as [?|Hstop]; [done|]. destruct Hch as (_ & Ht & _).
      destruct (blockByte_run f A t T p Hp Ht) as (b & Hb & Hnb). rewrite (bind_run _ _ _ _ _ Hb), Hnb. cbn [negb andb].
      cbn [length] in Hstop. replace (i <? num) with false by lia. cbn. by rewrite !Z.add_0_r.
  - cbn [skipEntries]. destruct Hch as (_ & He & Hch). rewrite <-app_comm_cons. cbn [length] in *.
    destruct (blockByte_run f A e (D ++ T) p Hp He) as (b & Hb & Hnb). rewrite (bind_run _ _ _ _ _ Hb), Hnb. cbn [negb andb].
    replace (i <? num) with true by lia. rewrite (bind_run _ _ _ _ _ (blockRaw_run _ _ _ _ _ Hp He)).
    destruct (decide (D ++ T = [])) as [Hnil|Hne].
    + apply app_nil in Hnil as [-> ->]. rewrite app_nil_r.
      destruct fuel as [|fuel]; [lia|]. cbn [skipEntries].
      rewrite (bind_run _ _ _ _ _ (blockEnd_run f A [e] (p + rawlen e) ltac:(rewrite size_layout_cons; cbn; lia))).
      rewrite size_layout_cons. change (size (layout [])) with 0. by rewrite Z.add_0_r.
    + rewrite block_shift by done. erewrite IH; [|done| |lia|lia|destruct Hstop as [?|Hstop]; [by left|right; lia]].
      * rewrite size_layout_cons. do 2 f_equal. f_equal; lia.
      * rewrite length_app, Nat2Z.inj_add. unfold rawlen in *. lia.
Qed.

End Layout.
