(* ===== verification/ZiplistOps.v ===== *)
(** * ZiplistOps: the operations on ziplists

    Deletion, insertion, merging, searching and counting on well-formed blocks
    ([zlOk]), and the theorems: a ziplist implements a sequence of strings. *)

From Stdlib Require Import Ascii String ZifyBool.
From stdpp Require Import base tactics option strings numbers list list_numbers.
From S2P Require Import Prelude Util Endian Intset Ziplist ZiplistProps.

Local Open Scope Z_scope.

Section Ops.
Context `{Host} (garbage : nat → Z).

(** Reading the length of the previous entry. *)
Lemma block_prev f A e es : ∃ D C, size D = 10 + size A ∧ block f A (e :: es) = D ++ prevBytes (zbig e) (zprev e) ++ C.
Proof.
  destruct (block_entry f A e es) as (D & HD & ->). exists D. eexists. split; [done|]. unfold entBytes. by rewrite <-!(assoc_L (++)).
Qed.

Lemma blockDiff_run f A e es p k : p = 10 + size A → entOk e →
  zipPrevLenByteDiff p k (block f A (e :: es)) = Ok (prevSize (large k) - prevSize (zbig e), block f A (e :: es)).
Proof.
  intros Hp [He _]. destruct (block_prev f A e es) as (D & C & HD & ->). apply zipPrevLenByteDiff_run; [lia|done].
Qed.

Lemma blockPrev_run f A e es p : p = 10 + size A → entOk e →
  ZIP_DECODE_PREVLEN p (block f A (e :: es)) = Ok ((prevSize (zbig e), zprev e), block f A (e :: es)).
Proof.
  intros Hp [He _]. destruct (block_prev f A e es) as (D & C & HD & ->). apply ZIP_DECODE_PREVLEN_run; [lia|done].
Qed.

(** ** Deletion *)

(** All entries from [d] on are deleted. *)
Lemma cutEntries_end f A d D p totlen : p = 10 + size A + size (layout (d :: D)) → p < 2 ^ 32 →
  cutEntries (entryOf d (10 + size A)) p totlen (block f A (d :: D)) =
  Ok (0, hdr (11 + size A + size (layout (d :: D))) (10 + size A - zprev d) f ++ A ++ layout (d :: D) ++ [ZIP_END]).
Proof.
  intros Hp Hmax. unfold cutEntries. rewrite (bind_run _ _ _ _ _ (blockEnd_run _ _ _ _ Hp)). eval_tests. cbn [negb].
  unfold block. by rewrite (bind_run _ _ _ _ _ (setTail_run _ _ _ _ _)).
Qed.

(** The bytes [D] are deleted, and the entry [t] after them gets the length [k]. *)
Lemma storeBack_run (Dr A D : list Z) k t T : let k5 := prevSize (large k) in let d := k5 - prevSize (zbig t) in
  d ≤ size D → 0 ≤ k → size Dr = 10 →
  ∃ D', zipStorePrevEntryLength (Some (10 + size A + size D - d)) k (Dr ++ A ++ D ++ layout (t :: T) ++ [ZIP_END]) =
      Ok (k5, Dr ++ A ++ D' ++ layout (mkZent (large k) k (zstr t) :: T) ++ [ZIP_END]) ∧
    size D' = size D - d.
Proof.
  intros k5 d Hd Hk HDr. set (W := D ++ prevBytes (zbig t) (zprev t)). set (n := Z.to_nat (size D - d)).
  assert (0 ≤ prevSize (zbig t) ∧ 0 ≤ k5) as [Ht Hk5] by (unfold k5, prevSize; repeat case_match; lia).
  assert (size W = size D + prevSize (zbig t)) as HW by (unfold W; rewrite length_app, Nat2Z.inj_add, size_prevBytes; lia).
  exists (take n W). split; [|rewrite length_take; lia].
  rewrite (prevEntryLength_eq _ (Dr ++ A ++ take n W) (drop n W) (restBytes (zstr t) ++ layout T ++ [ZIP_END])).
  - rewrite layout_cons. unfold entBytes. cbn [zbig zprev zstr]. by rewrite <-!(assoc_L (++)).
  - rewrite <-!(assoc_L (++)), (assoc_L (++) (take n W)), take_drop. unfold W. rewrite layout_cons. unfold entBytes. by rewrite <-!(assoc_L (++)).
  - rewrite !length_app, length_take. lia.
  - rewrite length_drop. fold k5. lia.
  - done.
Qed.

(** The byte after an entry is the end exactly when no entry follows. *)
Lemma followByte_run zl D e T p : zl = D ++ layout (e :: T) ++ [ZIP_END] → p = size D + rawlen e → chainTail T →
  ∃ b, readByte p zl = Ok (b, zl) ∧ (b =? ZIP_END) = bool_decide (T = []).
Proof.
  rewrite layout_cons. intros -> -> HT. assert (size D + rawlen e = size (D ++ entBytes e)) as Hp by (unfold rawlen; rewrite length_app; lia).
  destruct T as [|e' T].
  - eexists. split; [apply (endByte_run _ (D ++ entBytes e) []); [by rewrite <-!(assoc_L (++))|done]|done].
  - destruct HT as [He' _].
    destruct (entByte_run (D ++ (entBytes e ++ layout (e' :: T)) ++ [ZIP_END]) (D ++ entBytes e) e' (layout T ++ [ZIP_END]) (size D + rawlen e))
      as (b & Hb & Hnb); [by rewrite layout_cons, <-!(assoc_L (++))|done|done|].
    exists b. by rewrite Hnb.
Qed.

Lemma moveTail_run n t f C b (T : list zent) d : (b =? ZIP_END) = bool_decide (T = []) → 0 ≤ t < 2 ^ 32 →
  (if negb (b =? ZIP_END) then t1 ← getTail; setTail (t1 + d) else mret tt) (hdr n t f ++ C) =
  Ok (tt, hdr n (t + if decide (T = []) then 0 else d) f ++ C).
Proof.
  intros -> Ht. case_bool_decide; [rewrite decide_True by done|rewrite decide_False by done]; cbn [negb]; [by rewrite Z.add_0_r|].
  rewrite (bind_run _ _ _ _ _ (getTail_run _ _ _ _ Ht)). apply setTail_run.
Qed.

(** The bytes [X] are moved over the bytes [D] before them. *)
Lemma moveBack_run (Dr A D X : list Z) dst src n : dst = size (Dr ++ A) → src = dst + size D → n = size X →
  ∃ C, memmove dst src n (Dr ++ A ++ D ++ X ++ [ZIP_END]) = Ok (tt, Dr ++ A ++ X ++ C) ∧ C ≠ [].
Proof.
  intros -> Hsrc Hn. set (W := D ++ X ++ [ZIP_END]). exists (drop (length X) W).
  assert (length W = length D + length X + 1)%nat as HW by (unfold W; rewrite !length_app; cbn; lia). split.
  - rewrite (moveMem_run _ (Dr ++ A ++ D) X [ZIP_END] (Dr ++ A) (take (length X) W) (drop (length X) W));
      rewrite <-?(assoc_L (++)), ?take_drop, ?length_take; try done; rewrite ?length_app in *; lia.
  - intros Hnil. apply (f_equal length) in Hnil. rewrite length_drop, HW in Hnil. cbn in Hnil. lia.
Qed.

Lemma lastOff_change t t' T : lastOff (t' :: T) = lastOff (t :: T) + if decide (T = []) then 0 else rawlen t' - rawlen t.
Proof. destruct T as [|e T]; [done|]. rewrite !(lastOff_cons _ (e :: T)) by done. rewrite decide_False by done. lia. Qed.

Lemma cutEntries_middle f A d D t T p k : k = zprev d → prevOk (zbig d) k → entOk t → chainTail T →
  p = 10 + size A + size (layout (d :: D)) → 11 + size A + size (layout ((d :: D) ++ t :: T)) < 2 ^ 32 →
  let d5 := prevSize (large k) - prevSize (zbig t) in let t' := mkZent (large k) k (zstr t) in
  ∃ C, cutEntries (entryOf d (10 + size A)) p (size (layout (d :: D))) (block f A ((d :: D) ++ t :: T)) =
    Ok (d5, hdr (11 + size A + size (layout ((d :: D) ++ t :: T))) (10 + size A + lastOff (t' :: T)) f ++ A ++ layout (t' :: T) ++ C) ∧ C ≠ [].
Proof.
  intros Hk Hd Ht HT Hp Hmax d5 t'. unfold cutEntries. pose proof (rawlen_min d). pose proof (rawlen_min t).
  assert (d5 ≤ size (layout (d :: D))) as Hroom.
  { unfold d5, prevSize. rewrite size_layout_cons, rawlen_eq. unfold prevSize. unfold prevOk, large in *. repeat case_match; lia. }
  rewrite block_shift_app by done. set (A' := A ++ layout (d :: D)).
  assert (p = 10 + size A') as Hp' by (unfold A'; rewrite length_app; lia).
  destruct (blockByte_run f A' t T p Hp' Ht) as (b & Hb & Hnb). rewrite (bind_run _ _ _ _ _ Hb), Hnb. cbn [negb entryOf prevrawlen zl_p].
  rewrite <-Hk, (bind_run _ _ _ _ _ (blockDiff_run _ _ _ _ _ _ Hp' Ht)). cbv zeta. fold d5.
  assert (rawlen t' = rawlen t + d5) as Hraw by (rewrite !rawlen_eq; unfold d5; cbn [t' zbig zstr]; lia).
  rewrite layout_app, length_app, Nat2Z.inj_add, (size_layout_cons t) in Hmax.
  assert (entOk t') as Ht'.
  { split; [by apply prevOk_large, (prevOk_range (zbig d))|lia]. }
  set (n := 11 + size A + size (layout ((d :: D) ++ t :: T))). 
  assert (n = 11 + size A + size (layout (d :: D)) + rawlen t + size (layout T)) as Hn.
  { unfold n. rewrite layout_app, length_app, Nat2Z.inj_add, (size_layout_cons t). lia. }
  assert (block f A' (t :: T) = hdr n (10 + size A' + lastOff (t :: T)) f ++ A ++ layout (d :: D) ++ layout (t :: T) ++ [ZIP_END]) as ->.
  { unfold block, A'. rewrite <-!(assoc_L (++)). do 2 f_equal. rewrite Hn, length_app, (size_layout_cons t). lia. }
  destruct (storeBack_run (hdr n (10 + size A' + lastOff (t :: T)) f) A (layout (d :: D)) k t T Hroom) as (D' & HD' & HsD);
    [apply prevOk_range in Hd; lia|by rewrite length_hdr|]. fold d5 t' in HD', HsD.
  replace (p - d5) with (10 + size A + size (layout (d :: D)) - d5) by lia.
  rewrite (bind_run _ _ _ _ _ HD'). clear HD'. pose proof (lastOff_le (t :: T)) as Hle. pose proof (lastOff_nonneg (t :: T)).
  rewrite size_layout_cons in Hle. assert (size A' = size A + size (layout (d :: D))) as HA' by (unfold A'; rewrite length_app; lia).
  rewrite (bind_run _ _ _ _ _ (getTail_run n (10 + size A' + lastOff (t :: T)) f _ ltac:(lia))), (bind_run _ _ _ _ _ (setTail_run _ _ _ _ _)).
  set (q := 10 + size A + size (layout (d :: D)) - d5).
  assert (∀ t0, q = size (hdr n t0 f ++ A ++ D')) as Hq by (intros t0; rewrite !length_app, length_hdr; unfold q; lia).
  erewrite bind_run by (apply (zipEntry_run _ (hdr n (10 + size A' + lastOff (t :: T) - size (layout (d :: D))) f ++ A ++ D') t' (layout T ++ [ZIP_END]));
    [by rewrite (layout_cons t'), <-!(assoc_L (++))|done|done]).
  rewrite entry_rawlen by done.
  replace (10 + size A' + lastOff (t :: T) - size (layout (d :: D))) with (10 + size A + lastOff (t :: T)) by lia.
  destruct (followByte_run (hdr n (10 + size A + lastOff (t :: T)) f ++ A ++ D' ++ layout (t' :: T) ++ [ZIP_END])
    (hdr n (10 + size A + lastOff (t :: T)) f ++ A ++ D') t' T (q + rawlen t')) as (b' & Hb' & Hnb');
    [by rewrite <-!(assoc_L (++))|by rewrite <-Hq|done|].
  rewrite (bind_run _ _ _ _ _ Hb'), (bind_run _ _ _ _ _ (moveTail_run n (10 + size A + lastOff (t :: T)) f _ _ _ d5 Hnb' ltac:(lia))).
  replace (10 + size A + lastOff (t :: T) + (if decide (T = []) then 0 else d5)) with (10 + size A + lastOff (t' :: T))
    by (rewrite (lastOff_change t t'), Hraw; case_decide; lia).
  pose proof (rawlen_min t'). rewrite (bind_run _ _ _ _ _ (getBytes_run n _ f _ ltac:(lia))), u64_id by (unfold ULLONG_MAX; lia).
  destruct (moveBack_run (hdr n (10 + size A + lastOff (t' :: T)) f) A D' (layout (t' :: T)) (10 + size A) q (n - q - 1)) as (C & HC & HCn);
    [by rewrite size_hdr_app|lia|rewrite size_layout_cons; lia|].
  rewrite (bind_run _ _ _ _ _ HC). by exists C.
Qed.

Lemma block_at f P es : es ≠ [] → block f [] (P ++ es) = block f (layout P) es.
Proof. intros Hes. by rewrite block_shift_app. Qed.

(** The field of the number of entries. *)
Definition bump (f d : Z) : Z := if f <? UINT16_MAX then f + d else f.

(** The last bytes of a deletion that goes to the end. *)
Lemma block_cut f A P : A = layout P → hdr (11 + size A) (10 + lastOff P) f ++ A ++ [ZIP_END] = block f [] P.
Proof. intros ->. unfold block. cbn [length app]. done. Qed.

Lemma deleteEntries_run P d D T f p num : chain 0 (P ++ (d :: D) ++ T) → p = 10 + size (layout P) →
  size (d :: D) ≤ num → (T = [] ∨ size (d :: D) = num) → 0 ≤ f < 2 ^ 16 →
  11 + size (layout (P ++ (d :: D) ++ T)) + 4 * size T < 2 ^ 32 →
  ∃ T', __ziplistDelete garbage p num (block f [] (P ++ (d :: D) ++ T)) = Ok (tt, block (bump f (- size (d :: D))) [] (P ++ T')) ∧
    chain 0 (P ++ T') ∧ zstr <$> T' = zstr <$> T.
Proof.
  intros Hch Hp Hnum Hstop Hf Hmax. pose proof Hch as Hch0. apply chain_app in Hch as [HP Hch]. pose proof Hch as (Hprev & Hd & Hrest).
  rewrite block_at by done. set (A := layout P) in *. rewrite <-app_comm_cons. unfold __ziplistDelete.
  rewrite (bind_run _ _ _ _ _ (blockEntry_run f A d (D ++ T) p Hp Hd)), bind_gets.
  rewrite app_comm_cons. assert (length (d :: D) < length (block f A ((d :: D) ++ T)))%nat as Hfuel.
  { pose proof (length_block f A ((d :: D) ++ T)). pose proof (entries_length ((d :: D) ++ T)) as He. rewrite (length_app (d :: D)) in He. lia. }
  rewrite (bind_run _ _ _ _ _ (skipEntries_run f (d :: D) T A _ p 0 num _ Hch Hp Hfuel Hnum Hstop)).
  cbn [entryOf zl_p]. rewrite layout_app, (layout_app (d :: D)), !length_app in Hmax. fold A in Hmax.
  assert (size (layout (d :: D)) = rawlen d + size (layout D)) as HD by apply size_layout_cons. pose proof (rawlen_min d).
  replace (p + size (layout (d :: D)) - p) with (size (layout (d :: D))) by lia. rewrite u32_small by lia.
  replace (0 <? size (layout (d :: D))) with true by lia. rewrite Hp. destruct T as [|t T].
  - rewrite app_nil_r, (bind_run _ _ _ _ _ (cutEntries_end f A d D _ _ eq_refl ltac:(lia))).
    rewrite (bind_run _ _ _ _ _ (getBytes_run (11 + size A + size (layout (d :: D))) _ f _ ltac:(lia))).
    erewrite bind_run by (apply (ziplistResize_shrink garbage _ _ f A (layout (d :: D) ++ [ZIP_END])); [lia|lia|by destruct (layout (d :: D))]).
    rewrite (bind_run _ _ _ _ _ (incrLength_run _ _ _ _ _ Hf)). eval_tests. cbn [negb]. exists []. rewrite app_nil_r.
    split; [|done]. rewrite <-(block_cut _ A P eq_refl). unfold mret, M_ret. do 4 f_equal; [lia|].
    rewrite Hprev. destruct (decide (P = [])) as [->|HP0]; [done|]. rewrite lastOff_lastLen by done. fold A. lia.
  - apply (chain_app _ D (t :: T)) in Hrest as [_ (Htp & Ht & HT)].
    destruct (cutEntries_middle f A d D t T (10 + size A + size (layout (d :: D))) (zprev d) eq_refl (proj1 Hd) Ht (chain_chainTail _ _ HT) eq_refl)
      as (C & HC & HCn); [rewrite (layout_app (d :: D)), length_app; lia|].
    rewrite (bind_run _ _ _ _ _ HC). clear HC. set (t' := mkZent _ _ _). set (d5 := prevSize _ - _).
    assert (rawlen t' = rawlen t + d5) as Hraw by (rewrite !rawlen_eq; unfold d5; cbn [t' zbig zstr]; lia).
    assert (size (layout ((d :: D) ++ t :: T)) = size (layout (d :: D)) + rawlen t + size (layout T)) as Hlay.
    { rewrite (layout_app (d :: D)), length_app, Nat2Z.inj_add, (size_layout_cons t). lia. }
    rewrite !Nat2Z.inj_add, (size_layout_cons t) in Hmax. change (size (t :: T)) with (Z.of_nat (S (length T))) in Hmax.
    rewrite (bind_run _ _ _ _ _ (getBytes_run (11 + size A + size (layout ((d :: D) ++ t :: T))) _ f _ ltac:(lia))).
    rewrite (assoc_L (++) A). set (L := 11 + size A + size (layout (t' :: T))).
    assert (L = 11 + size A + size (layout ((d :: D) ++ t :: T)) - size (layout (d :: D)) + d5) as HL.
    { unfold L. rewrite Hlay, size_layout_cons. lia. }
    assert (d5 ≤ 4) as Hd5 by (unfold d5, prevSize; repeat case_match; lia).
    rewrite <-HL. erewrite bind_run by (apply (ziplistResize_shrink garbage _ _ f (A ++ layout (t' :: T)) C); [rewrite length_app|lia|done]; lia).
    rewrite (bind_run _ _ _ _ _ (incrLength_run _ _ _ _ _ Hf)). fold (bump f (- size (d :: D))). rewrite <-(assoc_L (++)). fold (block (bump f (- size (d :: D))) A (t' :: T)).
    assert (entOk t') as Ht'.
    { split; [by apply prevOk_large, (prevOk_range (zbig d)), Hd|]. rewrite Hraw. unfold L in HL. rewrite size_layout_cons in HL. lia. }
    destruct (Z.eqb_spec d5 0) as [Hz|Hnz]; cbn [negb].
    + exists (t' :: T). rewrite block_at by done. fold A. split; [done|]. split; [|done]. apply chain_app. split; [done|].
      split; [done|]. split; [done|]. by replace (rawlen t') with (rawlen t) by lia.
    + destruct (cascade_run garbage (bump f (- size (d :: D))) A t' T (10 + size A) eq_refl Ht' (chain_chainTail _ _ HT)) as (T' & Hrun & Hch' & Hstr);
        [fold L; lia|].
      exists (t' :: T'). rewrite block_at by done. fold A. split; [done|]. split; [|by f_equal/=]. apply chain_app. by split.
Qed.

(** ** Insertion *)

(** The move that makes room for [r] bytes before the entries [W], and changes the first
    [a] bytes of them to [a + d]. *)
Lemma moveRoom_run (D W J : list Z) dst src n r d a : size J = r + d → 0 ≤ r → 0 ≤ a ≤ size W → 0 ≤ a + d → 0 ≤ size D - d →
  dst = size D + r → src = size D - d → n = size W + d →
  ∃ G X, memmove dst src n (D ++ W ++ J ++ [ZIP_END]) = Ok (tt, D ++ G ++ X ++ drop (Z.to_nat a) W ++ [ZIP_END]) ∧ size G = r ∧ size X = a + d.
Proof.
  intros HJ Hr Ha Had HD -> -> ->. set (S := drop (Z.to_nat (size D - d)) (D ++ W)).
  assert (size S = size W + d) as HS by (unfold S; rewrite length_drop, length_app; lia).
  exists (take (Z.to_nat r) (W ++ J)), (take (Z.to_nat (a + d)) S).
  assert (drop (Z.to_nat a) W = drop (Z.to_nat (a + d)) S) as ->.
  { unfold S. rewrite drop_drop. rewrite <-(drop_app_length D W) at 1. rewrite drop_drop. f_equal. lia. }
  split; [|rewrite !length_take, length_app; lia]. rewrite (assoc_L (++) (take (Z.to_nat (a + d)) S)), take_drop.
  rewrite (moveMem_run _ (take (Z.to_nat (size D - d)) (D ++ W)) S (J ++ [ZIP_END]) (D ++ take (Z.to_nat r) (W ++ J))
    (drop (Z.to_nat r) (W ++ J)) [ZIP_END]).
  - by rewrite <-!(assoc_L (++)).
  - unfold S. rewrite (assoc_L (++) (take _ _)), take_drop. by rewrite <-!(assoc_L (++)).
  - rewrite <-(assoc_L (++) D), (assoc_L (++) (take (Z.to_nat r) (W ++ J))), take_drop. by rewrite <-!(assoc_L (++)).
  - rewrite length_drop, length_app. lia.
  - rewrite length_take, length_app. lia.
  - rewrite length_app, length_take, length_app. lia.
  - lia.
Qed.

Lemma split3 (G : list Z) a b c : 0 ≤ a → 0 ≤ b → 0 ≤ c → size G = a + b + c →
  ∃ G1 G2 G3, G = G1 ++ G2 ++ G3 ∧ size G1 = a ∧ size G2 = b ∧ size G3 = c.
Proof.
  intros Ha Hb Hc HG. exists (take (Z.to_nat a) G), (take (Z.to_nat b) (drop (Z.to_nat a) G)), (drop (Z.to_nat b) (drop (Z.to_nat a) G)).
  rewrite !take_drop. split; [done|]. rewrite !length_take, !length_drop. lia.
Qed.

(** The value and the encoding of the new entry. *)
Definition encPair (s : bytes) : Z * Z := default (123456789, 0) (zipTryEncoding s).

Lemma entryEncoding_head s : entryEncoding (snd (encPair s)) (size s) = headOf s.
Proof.
  unfold encPair, headOf. destruct (zipTryEncoding s) as [[v enc]|] eqn:E; [|done]. cbn.
  apply zipTryEncoding_spec in E as [_ E]. unfold entryEncoding. by rewrite (intEnc_not_str v).
Qed.

Lemma writeEntry_run (D G C : list Z) p k s : p = size D → 0 ≤ k → size G = rawlen (mkZent (large k) k s) →
  writeEntry p k (snd (encPair s)) (fst (encPair s)) s (D ++ G ++ C) = Ok (tt, D ++ entBytes (mkZent (large k) k s) ++ C).
Proof.
  intros Hp Hk HG. rewrite rawlen_eq, size_restBytes in HG. cbn [zbig zstr] in HG. set (a := prevSize (large k)) in *.
  assert (0 ≤ a) by (unfold a, prevSize; case_match; lia).
  destruct (split3 G a (size (headOf s)) (size (dataOf s))) as (G1 & G2 & G3 & -> & HG1 & HG2 & HG3); [lia..|].
  unfold writeEntry. rewrite <-!(assoc_L (++)). erewrite bind_run by (apply (prevEntryLength_run D G1); done). fold a.
  unfold zipStoreEntryEncoding. rewrite entryEncoding_head.
  erewrite bind_run by (erewrite bind_run by (apply (writeAt_eq _ (D ++ prevBytes (large k) k) G2 (G3 ++ C));
    [by rewrite <-!(assoc_L (++))|rewrite length_app, Nat2Z.inj_add, size_prevBytes; lia|lia]); done).
  cbv zeta beta. set (D' := D ++ prevBytes (large k) k). set (q := p + a + size (headOf s)).
  assert (q = size (D' ++ headOf s)) as Hq by (unfold q, D'; rewrite !length_app, !Nat2Z.inj_add, size_prevBytes; lia).
  assert (D ++ entBytes (mkZent (large k) k s) ++ C = (D' ++ headOf s) ++ dataOf s ++ C) as ->.
  { unfold D', entBytes, restBytes. cbn [zbig zprev zstr]. by rewrite <-!(assoc_L (++)). }
  rewrite (assoc_L (++) D'). rewrite size_dataOf in HG3. unfold encPair, dataOf.
  destruct (zipTryEncoding s) as [[v enc]|] eqn:E; cbn [default fst snd].
  - apply zipTryEncoding_spec in E as [_ E]. rewrite (intEnc_not_str v) by done. by apply zipSaveInteger_run.
  - change (ZIP_IS_STR 0) with true. cbv iota. apply writeAt_run; [done|]. unfold chars. rewrite length_fmap. lia.
Qed.

Lemma blockIncr_run f A es d : 0 ≤ f < 2 ^ 16 → ZIPLIST_INCR_LENGTH d (block f A es) = Ok (tt, block (bump f d) A es).
Proof. intros Hf. unfold block. by rewrite incrLength_run. Qed.

Lemma writeBlock_run f A G t T p k s : p = 10 + size A → 0 ≤ k → size G = rawlen (mkZent (large k) k s) →
  writeEntry p k (snd (encPair s)) (fst (encPair s)) s (block f (A ++ G) (t :: T)) = Ok (tt, block f A (mkZent (large k) k s :: t :: T)).
Proof.
  intros Hp Hk HG. rewrite (block_shift f A) by done. unfold block.
  replace (size (A ++ entBytes (mkZent (large k) k s))) with (size (A ++ G)) by (rewrite !length_app, !Nat2Z.inj_add, HG; done).
  rewrite <-!(assoc_L (++)), (assoc_L (++) (hdr _ _ _) A). rewrite writeEntry_run by (done || by rewrite size_hdr_app).
  by rewrite <-!(assoc_L (++)).
Qed.

(** The length of the entry before the position. *)
Lemma prevlenAt_run f P T p : chain 0 (P ++ T) → p = 10 + size (layout P) → 11 + size (layout (P ++ T)) < 2 ^ 32 →
  prevlenAt p (block f [] (P ++ T)) = Ok (lastLen 0 P, block f [] (P ++ T)).
Proof.
  intros Hch Hp Hmax. unfold prevlenAt. destruct T as [|t T].
  - rewrite app_nil_r in *. rewrite (bind_run _ _ _ _ _ (blockEnd_run f [] P p ltac:(cbn; lia))). eval_tests. cbn [negb].
    rewrite (bind_run _ _ _ _ _ (blockTail_run f [] P ltac:(cbn; lia))). destruct (decide (P = [])) as [->|HP].
    + by rewrite (bind_run _ _ _ _ _ (blockEnd_run f [] [] (10 + size [] + lastOff []) ltac:(done))).
    + destruct (exists_last HP) as (P' & e & ->). assert (entOk e) as He by (eapply chain_ok; [done|]; apply elem_of_app; right; constructor).
      assert (10 + size ([] : list Z) + lastOff (P' ++ [e]) = 10 + size (layout P')) as Hoff.
      { unfold lastOff. rewrite removelast_last. cbn. lia. }
      rewrite block_at, Hoff by done. destruct (blockByte_run f (layout P') e [] _ eq_refl He) as (b & Hb & Hnb).
      rewrite (bind_run _ _ _ _ _ Hb), Hnb. cbn [negb]. rewrite (blockRaw_run f (layout P') e [] _ eq_refl He).
      unfold lastLen. by rewrite last_snoc.
  - apply chain_app in Hch as [_ (Hprev & Ht & _)]. rewrite block_at by done.
    destruct (blockByte_run f (layout P) t T p Hp Ht) as (b & Hb & Hnb). rewrite (bind_run _ _ _ _ _ Hb), Hnb. cbn [negb].
    by rewrite (bind_run _ _ _ _ _ (blockPrev_run f (layout P) t T p Hp Ht)), <-Hprev.
Qed.

(** At the end, the new entry becomes the last one. *)
Lemma makeRoom_end n t f A p r : p = 10 + size A → n = 11 + size A → 0 ≤ r → n + r < 2 ^ 32 →
  ∃ G, makeRoom garbage n p r 0 false (hdr n t f ++ A ++ [ZIP_END]) = Ok (tt, hdr (n + r) p f ++ A ++ G ++ [ZIP_END]) ∧ size G = r.
Proof.
  intros Hp Hn Hr Hmax. unfold makeRoom. replace (n + r + 0) with (n + r) by lia.
  destruct (ziplistResize_grow garbage n t f A (n + r)) as (J & HJ & HJs & HJh); [lia|]. rewrite (bind_run _ _ _ _ _ HJ). exists J.
  assert (readByte p (hdr (n + r) t f ++ A ++ J ++ [ZIP_END]) = Ok (ZIP_END, hdr (n + r) t f ++ A ++ J ++ [ZIP_END])) as Hb.
  { destruct (J ++ [ZIP_END]) as [|b C] eqn:E; [done|]. injection HJh as ->. rewrite (assoc_L (++)). apply readByte_run. by rewrite size_hdr_app. }
  rewrite (bind_run _ _ _ _ _ Hb). eval_tests. cbn [negb]. rewrite setTail_run. split; [done|lia].
Qed.

Lemma storeNew_run (D X C : list Z) p r forcelarge : let big := forcelarge || large r in
  p = size D → size X = prevSize big → 0 ≤ r →
  (if forcelarge then zipStorePrevEntryLengthLarge p r else zipStorePrevEntryLength (Some p) r) (D ++ X ++ C) =
  Ok (prevSize big, D ++ prevBytes big r ++ C).
Proof.
  intros big Hp HX Hr. destruct forcelarge; cbn in big; subst big.
  - apply prevEntryLengthLarge_run; [done|]. cbn in HX. lia.
  - by apply prevEntryLength_run.
Qed.

Lemma entry_size e p : headersize (entryOf e p) + len (entryOf e p) = rawlen e.
Proof. rewrite rawlen_eq, size_restBytes. cbn. lia. Qed.

(** Before the entry [t]; [big] is the form of the length it gets. *)
Lemma makeRoom_middle f A t T n p r d forcelarge : let big := forcelarge || large r in let t' := mkZent big r (zstr t) in
  entOk t → chainTail T → p = 10 + size A → n = 11 + size A + size (layout (t :: T)) → 2 ≤ r → n + r + 4 < 2 ^ 32 →
  d = prevSize big - prevSize (zbig t) → 0 ≤ r + d → (forcelarge = true → zbig t = true) →
  ∃ G, makeRoom garbage n p r d forcelarge (block f A (t :: T)) = Ok (tt, block f (A ++ G) (t' :: T)) ∧ size G = r.
Proof.
  intros big t' Ht HT Hp Hn Hr Hmax Hd Hrd Hforce. unfold makeRoom.
  assert (-4 ≤ d ≤ 4) as Hd4 by (rewrite Hd; unfold prevSize; repeat case_match; lia).
  pose proof (lastOff_le (t :: T)). pose proof (lastOff_nonneg (t :: T)). unfold block at 1. rewrite <-Hn, (assoc_L (++) A).
  destruct (ziplistResize_grow garbage n (10 + size A + lastOff (t :: T)) f (A ++ layout (t :: T)) (n + r + d)) as (J & HJ & HJs & _);
    [rewrite length_app; lia|]. rewrite (bind_run _ _ _ _ _ HJ), <-(assoc_L (++)). clear HJ. rewrite length_app in HJs.
  set (L := n + r + d). set (t0 := 10 + size A + lastOff (t :: T)).
  destruct (entByte_run (hdr L t0 f ++ A ++ layout (t :: T) ++ J ++ [ZIP_END]) (hdr L t0 f ++ A) t (layout T ++ J ++ [ZIP_END]) p)
    as (b & Hb & Hnb); [by rewrite layout_cons, <-!(assoc_L (++))|by rewrite size_hdr_app|done|].
  rewrite (bind_run _ _ _ _ _ Hb), Hnb. cbn [negb]. clear b Hb Hnb.
  assert (size (layout (t :: T)) = prevSize (zbig t) + size (restBytes (zstr t) ++ layout T)) as Hlt.
  { rewrite size_layout_cons, rawlen_eq, length_app. lia. }
  assert (1 ≤ prevSize big) as Hbig by (unfold prevSize; case_match; lia).
  rewrite u64_id by (unfold ULLONG_MAX; lia). rewrite (assoc_L (++) (hdr L t0 f)).
  destruct (moveRoom_run (hdr L t0 f ++ A) (layout (t :: T)) J (p + r) (p - d) (n - p - 1 + d) r d (prevSize (zbig t)))
    as (G & X & Hmove & HG & HX); rewrite ?size_hdr_app; [lia|lia|unfold prevSize in *; case_match; lia|rewrite Hd; unfold prevSize; case_match; lia|lia..|].
  rewrite (bind_run _ _ _ _ _ Hmove). clear Hmove. exists G. split; [|done].
  assert (drop (Z.to_nat (prevSize (zbig t))) (layout (t :: T)) = restBytes (zstr t) ++ layout T) as ->.
  { rewrite layout_cons. unfold entBytes. rewrite <-(assoc_L (++)), <-(size_prevBytes _ (zprev t)), Nat2Z.id. apply drop_app_length. }
  rewrite u32_small by lia. rewrite (assoc_L (++) (hdr L t0 f ++ A)).
  erewrite bind_run by (apply storeNew_run; [rewrite length_app, Nat2Z.inj_add, size_hdr_app; lia|fold big; lia|lia]). fold big.
  assert (((hdr L t0 f ++ A) ++ G) ++ prevBytes big r ++ (restBytes (zstr t) ++ layout T) ++ [ZIP_END] =
    hdr L t0 f ++ (A ++ G) ++ layout (t' :: T) ++ [ZIP_END]) as ->.
  { rewrite layout_cons. unfold entBytes. cbn [t' zbig zprev zstr]. by rewrite <-!(assoc_L (++)). }
  rewrite (bind_run _ _ _ _ _ (getTail_run L t0 f _ ltac:(lia))), (bind_run _ _ _ _ _ (setTail_run _ _ _ _ _)).
  assert (rawlen t' = rawlen t + d) as Hraw by (rewrite !rawlen_eq; cbn [t' zbig zstr]; lia).
  pose proof (size_layout_cons t T). pose proof (rawlen_min t). pose proof (rawlen_min t').
  assert (entOk t') as Ht'. { split; [|lia]. unfold prevOk. cbn [t' zbig zprev]. unfold big, large, ZIP_BIG_PREVLEN. destruct forcelarge; cbn [orb]; [|case_match]; lia. }
  assert (p + r = size (hdr L (t0 + r) f ++ A ++ G)) as Hpr by (rewrite !length_app, length_hdr; lia).
  erewrite bind_run by (apply (zipEntry_run _ (hdr L (t0 + r) f ++ A ++ G) t' (layout T ++ [ZIP_END]));
    [by rewrite (layout_cons t'), <-!(assoc_L (++))|done|done]).
  replace (r + headersize (entryOf t' (p + r)) + len (entryOf t' (p + r))) with (r + rawlen t') by (rewrite <-(entry_size t' (p + r)); lia).
  rewrite (u64_id (r + rawlen t')) by (unfold ULLONG_MAX; lia).
  destruct (followByte_run (hdr L (t0 + r) f ++ (A ++ G) ++ layout (t' :: T) ++ [ZIP_END]) (hdr L (t0 + r) f ++ A ++ G) t' T (p + (r + rawlen t')))
    as (b' & Hb' & Hnb'); [by rewrite <-!(assoc_L (++))|lia|done|].
  rewrite (bind_run _ _ _ _ _ Hb'), (moveTail_run L (t0 + r) f _ _ _ d Hnb' ltac:(lia)). unfold block. do 3 f_equal. f_equal.
  - rewrite length_app, size_layout_cons. unfold L. lia.
  - rewrite length_app, (lastOff_change t t'), Hraw. unfold t0. case_decide; lia.
Qed.

Lemma dataSize_run s (zl : list Z) :
  match zipTryEncoding s with Some _ => zipIntSize (snd (encPair s)) | None => mret (size s) end zl = Ok (size (dataOf s), zl).
Proof.
  rewrite size_dataOf. unfold encPair. destruct (zipTryEncoding s) as [[v enc]|] eqn:E; [|done].
  apply zipTryEncoding_spec in E as [_ E]. by apply (zipIntSize_run zl v).
Qed.

Lemma nextDiff_last f P p r : p = 10 + size (layout P) → nextDiff p r (block f [] P) = Ok ((0, false), block f [] P).
Proof. intros Hp. unfold nextDiff. by rewrite (bind_run _ _ _ _ _ (blockEnd_run f [] P p Hp)). Qed.

Lemma nextDiff_middle f A t T p r : p = 10 + size A → entOk t → 2 ≤ r < 2 ^ 32 →
  ∃ d forcelarge, nextDiff p r (block f A (t :: T)) = Ok ((d, forcelarge), block f A (t :: T)) ∧
    d = prevSize (forcelarge || large r) - prevSize (zbig t) ∧ 0 ≤ r + d ∧ (forcelarge = true → zbig t = true).
Proof.
  intros Hp Ht Hr. unfold nextDiff. destruct (blockByte_run f A t T p Hp Ht) as (b & Hb & Hnb). rewrite (bind_run _ _ _ _ _ Hb), Hnb. cbn [negb].
  rewrite u32_small, (bind_run _ _ _ _ _ (blockDiff_run f A t T p r Hp Ht)) by lia.
  rewrite bind_ret || idtac. assert (large r = true → 254 <= r) as Hl by (unfold large, ZIP_BIG_PREVLEN; lia).
  destruct (zbig t), (large r); cbn [prevSize]; (destruct (r <? 4) eqn:E; eexists _, _; (split; [done|])); cbn [prevSize orb]; repeat split; try done; lia.
Qed.

Lemma lastLen_range P : chain 0 P → 0 ≤ lastLen 0 P < 2 ^ 32.
Proof.
  intros HP. unfold lastLen. destruct (last P) as [e|] eqn:E; [|done]. cbn. pose proof (rawlen_min e). split; [lia|].
  apply (chain_ok 0 P e HP). by apply last_Some_elem_of.
Qed.

Lemma insertEntry_run P T f p s : chain 0 (P ++ T) → p = 10 + size (layout P) → 0 ≤ f < 2 ^ 16 →
  let x := mkZent (large (lastLen 0 P)) (lastLen 0 P) s in
  11 + size (layout (P ++ T)) + rawlen x + 4 * (size T + 1) < 2 ^ 32 →
  ∃ T', __ziplistInsert garbage p s (block f [] (P ++ T)) = Ok (tt, block (bump f 1) [] (P ++ x :: T')) ∧
    chain 0 (P ++ x :: T') ∧ zstr <$> T' = zstr <$> T.
Proof.
  intros Hch Hp Hf x Hmax. pose proof Hch as [HP HT]%chain_app. set (A := layout P) in *.
  assert (size (layout (P ++ T)) = size A + size (layout T)) as Hlay by (rewrite layout_app, length_app; unfold A; lia).
  pose proof (lastLen_range P HP) as Hk. set (k := lastLen 0 P) in *.
  pose proof (rawlen_min x). assert (entOk x) as Hx by (split; [by apply prevOk_large|lia]).
  unfold __ziplistInsert. rewrite (bind_run _ _ _ _ _ (blockBytes_run f [] (P ++ T) ltac:(change (size []) with 0; lia))).
  rewrite (bind_run _ _ _ _ _ (prevlenAt_run f P T p Hch Hp ltac:(lia))). fold (encPair s).
  rewrite (surjective_pairing (encPair s)). cbv iota beta zeta. rewrite (bind_run _ _ _ _ _ (dataSize_run s _)). fold k.
  rewrite (bind_run _ _ _ _ _ (prevEntryLength_null _ _)). unfold zipStoreEntryEncoding at 1. rewrite bind_ret, entryEncoding_head.
  replace (size (dataOf s) + prevSize (large k) + size (headOf s)) with (rawlen x) by (rewrite rawlen_eq, size_restBytes; cbn [x zbig zstr]; lia).
  set (r := rawlen x) in *.
  replace (11 + size [] + size (layout (P ++ T))) with (11 + size A + size (layout T)) by (change (size []) with 0; lia).
  destruct T as [|t T].
  - rewrite app_nil_r. rewrite (bind_run _ _ _ _ _ (nextDiff_last f P p r Hp)). cbv iota beta.
    destruct (makeRoom_end (11 + size A) (10 + lastOff P) f A p r Hp eq_refl ltac:(lia) ltac:(cbn in Hlay; lia)) as (G & HG & HGs).
    rewrite <-(block_cut f A P eq_refl). change (size (layout [])) with 0. rewrite Z.add_0_r, (bind_run _ _ _ _ _ HG). eval_tests. cbn [negb]. rewrite bind_ret.
    rewrite (assoc_L (++) (hdr _ _ _)).
    erewrite bind_run by (apply writeEntry_run; [by rewrite size_hdr_app|lia|done]). fold x. rewrite <-(assoc_L (++)).
    rewrite (incrLength_run _ _ _ _ _ Hf). exists []. rewrite block_at by done. fold A (bump f 1).
    split; [|split; [apply chain_app; by split|done]]. unfold block. cbn [layout fmap list_fmap concat]. rewrite app_nil_r.
    change (lastOff [x]) with 0. fold (rawlen x). fold r. do 4 f_equal; lia.
  - rewrite block_at by done. fold A. pose proof HT as (Hprev & Ht & HT').
    destruct (nextDiff_middle f A t T p r Hp Ht) as (d & force & Hnd & Hd & Hrd & Hforce); [lia|]. rewrite (bind_run _ _ _ _ _ Hnd). cbv iota beta.
    set (big := force || large r) in *. set (t' := mkZent big r (zstr t)). change (size (t :: T)) with (Z.of_nat (S (length T))) in Hmax.
    destruct (makeRoom_middle f A t T _ p r d force Ht (chain_chainTail _ _ HT') Hp eq_refl ltac:(lia) ltac:(lia) Hd Hrd Hforce) as (G & HG & HGs).
    rewrite (bind_run _ _ _ _ _ HG). fold big t'.
    assert (rawlen t' = rawlen t + d) as Hraw by (rewrite !rawlen_eq; cbn [t' zbig zstr]; lia).
    assert (d ≤ 4) as Hd4 by (rewrite Hd; unfold prevSize; repeat case_match; lia).
    rewrite size_layout_cons in Hlay.
    assert (entOk t') as Ht'.
    { split; [|lia]. unfold prevOk. cbn [t' zbig zprev]. unfold big, large, ZIP_BIG_PREVLEN. destruct force; cbn [orb]; [|case_match]; lia. }
    assert (∃ T', (if negb (d =? 0) then __ziplistCascadeUpdate garbage (p + r) else mret tt) (block f (A ++ G) (t' :: T)) =
      Ok (tt, block f (A ++ G) (t' :: T')) ∧ chain (rawlen t') T' ∧ zstr <$> T' = zstr <$> T) as (T' & Hcas & Hch' & Hstr).
    { destruct (Z.eqb_spec d 0) as [Hz|Hnz]; cbn [negb].
      - exists T. split; [done|]. split; [|done]. by replace (rawlen t') with (rawlen t) by lia.
      - apply cascade_run; [rewrite length_app; lia|done|by eapply chain_chainTail|]. rewrite length_app, size_layout_cons. lia. }
    rewrite (bind_run _ _ _ _ _ Hcas). exists (t' :: T').
    rewrite (bind_run _ _ _ _ _ (writeBlock_run f A G t' T' p k s Hp ltac:(lia) HGs)), (blockIncr_run _ _ _ _ Hf), block_at by done.
    split; [done|]. split; [|by f_equal/=]. apply chain_app. do 5 (split; [done|]). done.
Qed.

(** ** Walking *)

(** The offset of the entry [k], and of the end for the number of entries. *)
Definition offOf (es : list zent) (k : nat) : Z := 10 + size (layout (take k es)).

Lemma offOf_app P T : offOf (P ++ T) (length P) = 10 + size (layout P).
Proof. unfold offOf. by rewrite take_app_length. Qed.

Lemma offOf_next P e T : offOf (P ++ e :: T) (S (length P)) = 10 + size (layout P) + rawlen e.
Proof.
  unfold offOf. rewrite cons_middle, (assoc_L (++)). replace (S (length P)) with (length (P ++ [e])) by (rewrite length_app; cbn; lia).
  rewrite take_app_length, layout_app, length_app. unfold rawlen, layout at 2. cbn. rewrite app_nil_r. lia.
Qed.

Lemma forwardLoop_run f T P fuel index : chain 0 (P ++ T) → (length T < fuel)%nat →
  let es := P ++ T in
  forwardLoop fuel (10 + size (layout P)) (Z.of_nat index) (block f [] es) =
  Ok (if decide (index < length T)%nat then (offOf es (length P + index), -1)
      else (offOf es (length es), Z.of_nat (index - length T)), block f [] es).
Proof.
  revert P fuel index. induction T as [|t T IH]; intros P fuel index Hch Hfuel es; (destruct fuel as [|fuel]; [cbn in *; lia|]); cbn [forwardLoop].
  - rewrite decide_False by (cbn; lia). unfold es. rewrite app_nil_r in *.
    rewrite (bind_run _ _ _ _ _ (blockEnd_run f [] P (10 + size (layout P)) ltac:(cbn; lia))). eval_tests. cbn [negb length].
    unfold offOf. by rewrite firstn_all, Nat.sub_0_r.
  - unfold es. rewrite block_at by done. pose proof Hch as [_ (_ & Ht & _)]%chain_app.
    destruct (blockByte_run f (layout P) t T _ eq_refl Ht) as (b & Hb & Hnb). rewrite (bind_run _ _ _ _ _ Hb), Hnb. cbn [negb].
    destruct index as [|index].
    { rewrite decide_True by (cbn; lia). cbn. by rewrite Nat.add_0_r, offOf_app. }
    replace (Z.of_nat (S index) =? 0) with false by lia. rewrite (bind_run _ _ _ _ _ (blockRaw_run f (layout P) t T _ eq_refl Ht)).
    rewrite <-(block_at f P (t :: T)), <-(offOf_next P t T) by done.
    rewrite cons_middle, (assoc_L (++)) in Hch |- *. specialize (IH (P ++ [t]) fuel index Hch ltac:(cbn in Hfuel; lia)). cbv zeta in IH.
    replace (Z.of_nat (S index) - 1) with (Z.of_nat index) by lia.
    replace (offOf ((P ++ [t]) ++ T) (S (length P))) with (10 + size (layout (P ++ [t]))).
    + rewrite IH. cbn [length]. rewrite (length_app P). cbn [length]. do 2 f_equal.
      destruct (decide (index < length T)%nat); [rewrite decide_True by lia|rewrite decide_False by lia]; [|done]. do 2 f_equal. lia.
    + rewrite <-(offOf_app (P ++ [t]) T). f_equal. rewrite length_app. cbn. lia.
Qed.

(** Backwards from the first entry of [T]. *)
Lemma backLoop_run f P T t fuel index : chain 0 (P ++ t :: T) → (length P < fuel)%nat →
  let es := P ++ t :: T in
  ∃ i', backLoop fuel (10 + size (layout P)) (lastLen 0 P) (Z.of_nat index) (block f [] es) =
    Ok ((offOf es (length P - index), i'), block f [] es) ∧ (0 < i' ↔ (length P < index)%nat).
Proof.
  revert T t fuel index. induction P as [|e P IH] using rev_ind; intros T t fuel index Hch Hfuel es; (destruct fuel as [|fuel]; [lia|]); cbn [backLoop].
  - exists (Z.of_nat index). cbn. split; [done|lia].
  - assert (lastLen 0 (P ++ [e]) = rawlen e) as -> by (unfold lastLen; by rewrite last_snoc). pose proof (rawlen_min e).
    replace (0 <? rawlen e) with true by lia. destruct index as [|index].
    { exists (-1). cbn [Z.of_nat Z.eqb]. rewrite Nat.sub_0_r. unfold es. rewrite offOf_app. split; [done|lia]. }
    replace (Z.of_nat (S index) =? 0) with false by lia.
    assert (10 + size (layout (P ++ [e])) - rawlen e = 10 + size (layout P)) as ->.
    { rewrite layout_app, length_app. unfold rawlen, layout at 2. cbn. rewrite app_nil_r. lia. }
    unfold es in *. rewrite <-(assoc_L (++)) in Hch |- *. change ([e] ++ t :: T) with (e :: t :: T) in *.
    pose proof Hch as [_ (Hprev & He & _)]%chain_app. rewrite block_at by done.
    rewrite (bind_run _ _ _ _ _ (blockPrev_run f (layout P) e (t :: T) _ eq_refl He)). cbn [snd]. rewrite Hprev.
    rewrite <-block_at by done. rewrite length_app in *. cbn [length] in *.
    destruct (IH (t :: T) e fuel index Hch ltac:(lia)) as (i' & Hrun & Hi'). exists i'.
    replace (Z.of_nat (S index) - 1) with (Z.of_nat index) by lia. rewrite Hrun. split; [|lia]. do 4 f_equal. lia.
Qed.

End Ops.
