(* ===== verification/ZiplistSeq.v ===== *)
(** * ZiplistSeq: ziplists implement sequences of strings

    The interface functions on the entry [k] of a well-formed list, and the theorems. *)

From Stdlib Require Import Ascii String ZifyBool.
From stdpp Require Import base tactics option strings numbers list list_numbers.
From S2P Require Import Prelude Util Endian Intset Ziplist ZiplistProps ZiplistOps.

Local Open Scope Z_scope.

Section Seq.
Context `{Host} (garbage : nat → Z).

(** ** Positions *)

Lemma at_pos es k e : es !! k = Some e → ∃ P T, es = P ++ e :: T ∧ length P = k ∧ offOf es k = 10 + size (layout P).
Proof.
  intros Hk. pose proof (list_elem_of_split_length _ _ _ Hk) as (P & T & -> & ->). exists P, T. split; [done|]. split; [done|]. apply offOf_app.
Qed.

Lemma byteAt_run f es k : chain 0 es → (k ≤ length es)%nat →
  ∃ b, readByte (offOf es k) (block f [] es) = Ok (b, block f [] es) ∧ (b =? ZIP_END) = bool_decide (k = length es).
Proof.
  intros Hch Hk. destruct (es !! k) as [e|] eqn:E.
  - pose proof (lookup_lt_Some _ _ _ E). destruct (at_pos _ _ _ E) as (P & T & -> & <- & ->). rewrite block_at by done.
    pose proof Hch as [_ (_ & He & _)]%chain_app. destruct (blockByte_run f (layout P) e T _ eq_refl He) as (b & Hb & Hnb).
    exists b. split; [done|]. rewrite bool_decide_false; [done|lia].
  - apply lookup_ge_None in E. replace k with (length es) by lia. exists ZIP_END. rewrite bool_decide_true by done. split; [|done].
    apply blockEnd_run. unfold offOf. rewrite firstn_all. cbn. lia.
Qed.

(** ** Index *)

(** Negative indices count from the end. *)
Definition indexOf (n : nat) (i : Z) : option nat :=
  let k := if i <? 0 then Z.of_nat n + i else i in
  if (0 <=? k) && (k <? Z.of_nat n) then Some (Z.to_nat k) else None.

Lemma fuel_block f es : (length es < length (block f [] es))%nat.
Proof. pose proof (length_block f [] es). pose proof (entries_length es). lia. Qed.

Lemma ziplistIndex_run f es i : chain 0 es → 11 + size (layout es) < 2 ^ 32 → - 2 ^ 31 < i < 2 ^ 31 →
  ziplistIndex i (block f [] es) = Ok (offOf es <$> indexOf (length es) i, block f [] es).
Proof.
  intros Hch Hmax Hi. unfold ziplistIndex. rewrite bind_gets. pose proof (fuel_block f es) as Hfuel. unfold indexOf.
  destruct (Z.ltb_spec i 0) as [Hneg|Hpos].
  - assert (∃ j, i = - Z.of_nat (S j) ∧ i32 (i32 (- i) - 1) = Z.of_nat j) as (j & -> & ->).
    { exists (Z.to_nat (- i - 1)). split; [lia|]. unfold i32. rewrite (Z.mod_small (- i + 2 ^ 31)), Z.mod_small; lia. }
    destruct (decide (es = [])) as [->|Hes].
    + replace ((0 <=? Z.of_nat (length []) + - Z.of_nat (S j)) && _) with false by (cbn [length]; lia).
      erewrite bind_run; [|rewrite (bind_run _ _ _ _ _ (blockTail_run f [] [] ltac:(cbn; lia)));
        rewrite (bind_run _ _ _ _ _ (blockEnd_run f [] [] (10 + size [] + lastOff []) ltac:(done))); done].
      cbv iota beta. by rewrite (bind_run _ _ _ _ _ (blockEnd_run f [] [] (10 + size [] + lastOff []) ltac:(done))).
    + destruct (exists_last Hes) as (P & e & ->). pose proof Hch as [_ (Hprev & He & _)]%chain_app.
      assert (10 + size ([] : list Z) + lastOff (P ++ [e]) = 10 + size (layout P)) as Hoff.
      { unfold lastOff. rewrite removelast_last. cbn. lia. }
      destruct (backLoop_run f P [] e (length (block f [] (P ++ [e]))) j Hch) as (i' & Hrun & Hi'); [rewrite length_app in Hfuel; lia|].
      destruct (byteAt_run f (P ++ [e]) (length P) Hch) as (b & Hb & Hnb); [rewrite length_app; lia|].
      rewrite offOf_app in Hb. rewrite bool_decide_false in Hnb by (rewrite length_app; cbn; lia).
      erewrite bind_run; [|rewrite (bind_run _ _ _ _ _ (blockTail_run f [] (P ++ [e]) ltac:(cbn; lia))), Hoff;
        rewrite (bind_run _ _ _ _ _ Hb), Hnb; cbn [negb]; rewrite block_at at 1 by done;
        rewrite (bind_run _ _ _ _ _ (blockPrev_run f (layout P) e [] _ eq_refl He)); cbn [snd]; rewrite Hprev, <-block_at by done; apply Hrun].
      cbv iota beta. destruct (byteAt_run f (P ++ [e]) (length P - j) Hch) as (b' & Hb' & Hnb'); [rewrite length_app; lia|].
      rewrite (bind_run _ _ _ _ _ Hb'), Hnb', bool_decide_false by (rewrite length_app; cbn; lia). rewrite length_app. cbn [length orb].
      destruct (decide (length P < j)%nat) as [Hlt|Hge].
      * replace (0 <? i') with true by (symmetry; apply Z.ltb_lt, Hi'; done).
        replace ((0 <=? _) && _) with false by lia. done.
      * replace (0 <? i') with false by (symmetry; apply Z.ltb_ge; lia).
        replace ((0 <=? _) && _) with true by lia. unfold mret, M_ret. cbn. do 4 f_equal. lia.
  - assert (∃ j, i = Z.of_nat j) as (j & ->) by (exists (Z.to_nat i); lia).
    pose proof (forwardLoop_run f es [] (length (block f [] es)) j Hch Hfuel) as Hrun. cbv zeta in Hrun.
    rewrite app_nil_l in Hrun. rewrite (bind_run _ _ _ _ _ Hrun). cbn [length Nat.add]. destruct (decide (j < length es)%nat) as [Hlt|Hge].
    + destruct (byteAt_run f es j Hch) as (b & Hb & Hnb); [lia|]. rewrite (bind_run _ _ _ _ _ Hb), Hnb, bool_decide_false by lia.
      replace ((0 <=? Z.of_nat j) && (Z.of_nat j <? Z.of_nat (length es))) with true by lia. cbn. by rewrite Nat2Z.id.
    + destruct (byteAt_run f es (length es) Hch) as (b & Hb & Hnb); [lia|]. rewrite (bind_run _ _ _ _ _ Hb), Hnb, bool_decide_true by lia.
      by replace ((0 <=? Z.of_nat j) && (Z.of_nat j <? Z.of_nat (length es))) with false by lia.
Qed.

(** ** Next and previous *)

Lemma ziplistNext_run f es k : chain 0 es → (k ≤ length es)%nat →
  ziplistNext (offOf es k) (block f [] es) = Ok (if decide (S k < length es)%nat then Some (offOf es (S k)) else None, block f [] es).
Proof.
  intros Hch Hk. unfold ziplistNext. destruct (byteAt_run f es k Hch Hk) as (b & Hb & Hnb). rewrite (bind_run _ _ _ _ _ Hb), Hnb.
  case_bool_decide as Hend; [by rewrite decide_False by lia|].
  destruct (lookup_lt_is_Some_2 es k) as [e He]; [lia|]. destruct (at_pos _ _ _ He) as (P & T & -> & <- & Hoff).
  pose proof Hch as [_ (_ & Hok & _)]%chain_app. rewrite Hoff. rewrite block_at at 1 by done.
  rewrite (bind_run _ _ _ _ _ (blockRaw_run f (layout P) e T _ eq_refl Hok)), <-(offOf_next P e T), <-block_at by done.
  destruct (byteAt_run f (P ++ e :: T) (S (length P)) Hch) as (b' & Hb' & Hnb'); [rewrite length_app; cbn; lia|].
  rewrite (bind_run _ _ _ _ _ Hb'), Hnb'. case_bool_decide; [rewrite decide_False by lia|rewrite decide_True by lia]; done.
Qed.

Lemma ziplistPrev_run f es k : chain 0 es → 11 + size (layout es) < 2 ^ 32 → (k ≤ length es)%nat →
  ziplistPrev (offOf es k) (block f [] es) = Ok (offOf es <$> match k with O => None | S k => Some k end, block f [] es).
Proof.
  intros Hch Hmax Hk. unfold ziplistPrev. destruct (byteAt_run f es k Hch Hk) as (b & Hb & Hnb). rewrite (bind_run _ _ _ _ _ Hb), Hnb.
  case_bool_decide as Hend.
  - subst k. rewrite (bind_run _ _ _ _ _ (blockTail_run f [] es ltac:(cbn; lia))).
    destruct es as [|e es _] using rev_ind; [by rewrite (bind_run _ _ _ _ _ (blockEnd_run f [] [] (10 + size [] + lastOff []) ltac:(done)))|].
    assert (10 + size ([] : list Z) + lastOff (es ++ [e]) = offOf (es ++ [e]) (length es)) as ->.
    { rewrite offOf_app. unfold lastOff. rewrite removelast_last. cbn. lia. }
    destruct (byteAt_run f (es ++ [e]) (length es) Hch) as (b' & Hb' & Hnb'); [rewrite length_app; lia|].
    rewrite (bind_run _ _ _ _ _ Hb'), Hnb', bool_decide_false by (rewrite length_app; cbn; lia).
    replace (length (es ++ [e])) with (S (length es)) by (rewrite length_app; cbn; lia). done.
  - destruct (lookup_lt_is_Some_2 es k) as [e He]; [lia|]. destruct (at_pos _ _ _ He) as (P & T & -> & <- & Hoff).
    pose proof Hch as [_ (Hprev & Hok & _)]%chain_app. rewrite Hoff. destruct P as [|e' P _] using rev_ind; [done|].
    assert (size (layout (P ++ [e'])) = size (layout P) + rawlen e') as Hlay.
    { rewrite layout_app, length_app. unfold rawlen, layout at 2. cbn. rewrite app_nil_r. lia. }
    pose proof (rawlen_min e'). replace (10 + size (layout (P ++ [e'])) =? ZIPLIST_ENTRY_HEAD) with false by (unfold ZIPLIST_ENTRY_HEAD, ZIPLIST_HEADER_SIZE; lia).
    rewrite block_at at 1 by done. rewrite (bind_run _ _ _ _ _ (blockPrev_run f _ e T _ eq_refl Hok)), <-block_at by done. cbn [snd]. rewrite Hprev.
    assert (lastLen 0 (P ++ [e']) = rawlen e') as -> by (unfold lastLen; by rewrite last_snoc).
    rewrite (bind_run _ _ _ _ _ (serverAssert_run (0 <? rawlen e') _ _ ltac:(lia))).
    replace (length (P ++ [e'])) with (S (length P)) by (rewrite length_app; cbn; lia). cbn [fmap option_fmap option_map].
    rewrite <-(assoc_L (++)). cbn [app]. rewrite offOf_app. unfold mret, M_ret. do 3 f_equal. lia.
Qed.

(** ** Reading and comparing *)

Lemma value_run D s C p : p = size D → size s < 2 ^ 32 →
  (if ZIP_IS_STR (encOf s) then x ← readMem p (size (dataOf s)); mret (Some (ZlStr x))
   else v ← zipLoadInteger p (encOf s); mret (Some (ZlInt v))) (D ++ dataOf s ++ C) = Ok (Some (valOf s), D ++ dataOf s ++ C).
Proof.
  intros Hp Hs. rewrite encOf_is_str. unfold encOf, dataOf, valOf. destruct (zipTryEncoding s) as [[v enc]|] eqn:E.
  - apply zipTryEncoding_spec in E as [_ E]. by rewrite (bind_run _ _ _ _ _ (zipLoadInteger_run D v enc C p Hp E)).
  - by rewrite (bind_run _ _ _ _ _ (readAt_run D (chars s) C p _ Hp eq_refl)).
Qed.

Lemma block_data f P e T : ∃ D C, block f [] (P ++ e :: T) = D ++ dataOf (zstr e) ++ C ∧
  size D = offOf (P ++ e :: T) (length P) + (prevSize (zbig e) + size (headOf (zstr e))).
Proof.
  rewrite block_at by done. destruct (block_entry f (layout P) e T) as (D & HD & ->). unfold entBytes, restBytes.
  exists (D ++ prevBytes (zbig e) (zprev e) ++ headOf (zstr e)). eexists. rewrite <-!(assoc_L (++)). split; [done|].
  rewrite !length_app, !Nat2Z.inj_add, size_prevBytes, offOf_app. lia.
Qed.

Lemma block_head f P e T : ∃ D C, block f [] (P ++ e :: T) = D ++ headOf (zstr e) ++ C ∧
  size D = 10 + size (layout P) + prevSize (zbig e).
Proof.
  rewrite block_at by done. destruct (block_entry f (layout P) e T) as (D & HD & ->). unfold entBytes, restBytes.
  exists (D ++ prevBytes (zbig e) (zprev e)). eexists. rewrite <-!(assoc_L (++)). split; [done|].
  rewrite !length_app, !Nat2Z.inj_add, size_prevBytes. lia.
Qed.

Lemma ziplistGet_run f es k e : chain 0 es → es !! k = Some e →
  ziplistGet (Some (offOf es k)) (block f [] es) = Ok (Some (valOf (zstr e)), block f [] es).
Proof.
  intros Hch He. pose proof (lookup_lt_Some _ _ _ He). unfold ziplistGet.
  destruct (byteAt_run f es k Hch) as (b & Hb & Hnb); [lia|]. rewrite (bind_run _ _ _ _ _ Hb), Hnb, bool_decide_false by lia.
  destruct (at_pos _ _ _ He) as (P & T & -> & <- & Hoff). pose proof Hch as [_ (_ & Hok & _)]%chain_app. rewrite Hoff.
  rewrite block_at at 1 by done. rewrite (bind_run _ _ _ _ _ (blockEntry_run f (layout P) e T _ eq_refl Hok)), <-block_at by done.
  cbn [entryOf encoding headersize len]. destruct (block_data f P e T) as (D & C & -> & HD). apply value_run; [lia|by apply entOk_str].
Qed.

(** The data of a string against another string. *)
Lemma str_compare_run D s s' C q : zipTryEncoding s = None → q = size D →
  (if size s =? size s' then x ← readMem q (size s'); mret (bool_decide (x = chars s')) else mret false)
    (D ++ dataOf s ++ C) = Ok (bool_decide (s = s'), D ++ dataOf s ++ C).
Proof.
  intros E Hq. unfold dataOf. rewrite E. destruct (Z.eqb_spec (size s) (size s')) as [Hsize|Hsize].
  - erewrite bind_run by (apply readAt_run; [done|unfold chars; rewrite length_fmap; done]). unfold mret, M_ret. do 2 f_equal.
    apply bool_decide_ext. split; [apply chars_inj|by intros ->].
  - rewrite bool_decide_false; [done|]. by intros ->.
Qed.

Lemma int_compare s s' v enc : zipTryEncoding s = Some (v, enc) →
  match zipTryEncoding s' with Some (v', _) => v =? v' | None => false end = bool_decide (s = s').
Proof.
  intros E. destruct (zipTryEncoding s') as [[v' enc']|] eqn:E'.
  - destruct (Z.eqb_spec v v') as [->|Hv]; [rewrite bool_decide_true; [done|]|rewrite bool_decide_false; [done|intros ->; congruence]].
    apply zipTryEncoding_spec in E as [[_ ->]%string2ll_decimal _], E' as [[_ ->]%string2ll_decimal _]. done.
  - rewrite bool_decide_false; [done|]. intros ->. congruence.
Qed.

Lemma ziplistCompare_run f es k e s : chain 0 es → es !! k = Some e →
  ziplistCompare (offOf es k) s (block f [] es) = Ok (bool_decide (zstr e = s), block f [] es).
Proof.
  intros Hch He. pose proof (lookup_lt_Some _ _ _ He). unfold ziplistCompare.
  destruct (byteAt_run f es k Hch) as (b & Hb & Hnb); [lia|]. rewrite (bind_run _ _ _ _ _ Hb), Hnb, bool_decide_false by lia.
  destruct (at_pos _ _ _ He) as (P & T & -> & <- & Hoff). pose proof Hch as [_ (_ & Hok & _)]%chain_app. rewrite Hoff.
  rewrite block_at at 1 by done. rewrite (bind_run _ _ _ _ _ (blockEntry_run f (layout P) e T _ eq_refl Hok)), <-block_at by done.
  cbn [entryOf encoding headersize len]. destruct (block_data f P e T) as (D & C & -> & HD). rewrite encOf_is_str, size_dataOf.
  destruct (zipTryEncoding (zstr e)) as [[v enc]|] eqn:E; [|by apply str_compare_run; [|lia]].
  rewrite <-(int_compare _ s _ _ E). destruct (zipTryEncoding s) as [[v' enc']|]; [|done].
  pose proof E as [_ Henc]%zipTryEncoding_spec. unfold encOf, dataOf. rewrite E.
  by erewrite bind_run by (apply zipLoadInteger_run; [lia|done]).
Qed.

(** ** Finding *)

(** What [vencoding] and [vll] are after the first integer. *)
Definition tried (v : bytes) (vencoding vll : Z) : Prop :=
  vencoding = 0 ∨ match zipTryEncoding v with Some (w, enc) => vencoding = enc ∧ vll = w | None => vencoding = UCHAR_MAX end.

Lemma findCompare_run D s v C q vencoding vll : q = size D → tried v vencoding vll →
  ∃ vencoding' vll', findCompare v q (encOf s) (size (dataOf s)) vencoding vll (D ++ dataOf s ++ C) =
    Ok ((bool_decide (s = v), vencoding', vll'), D ++ dataOf s ++ C) ∧ tried v vencoding' vll'.
Proof.
  intros Hq Htried. unfold findCompare. rewrite encOf_is_str, size_dataOf. destruct (zipTryEncoding s) as [[w enc]|] eqn:E.
  - pose proof (int_compare s v w enc E) as Hcmp. pose proof E as [_ Henc]%zipTryEncoding_spec.
    assert (∃ venc' vll', (if vencoding =? 0 then match zipTryEncoding v with Some (v, e) => (e, v) | None => (UCHAR_MAX, vll) end
      else (vencoding, vll)) = (venc', vll') ∧ match zipTryEncoding v with Some (w, enc) => venc' = enc ∧ vll' = w | None => venc' = UCHAR_MAX end)
      as (venc' & vll' & Heq & Hnew).
    { destruct (Z.eqb_spec vencoding 0) as [->|Hnz].
      - destruct (zipTryEncoding v) as [[v' enc']|]; eexists _, _; (split; [done|]); done.
      - exists vencoding, vll. split; [done|]. by destruct Htried. }
    rewrite Heq. exists venc', vll'. split; [|by right]. destruct (zipTryEncoding v) as [[v' enc']|] eqn:E'.
    + destruct Hnew as [-> ->]. pose proof E' as [_ Henc'%intEnc_range]%zipTryEncoding_spec.
      rewrite (bind_run _ _ _ _ _ (serverAssert_run (negb (enc' =? 0)) _ _ ltac:(lia))). unfold UCHAR_MAX. replace (enc' =? 255) with false by lia. cbn [negb].
      unfold encOf, dataOf. rewrite E. erewrite bind_run by by apply zipLoadInteger_run. by rewrite Hcmp.
    + subst venc'. rewrite (bind_run _ _ _ _ _ (serverAssert_run (negb (UCHAR_MAX =? 0)) _ _ eq_refl)). eval_tests. cbn [negb]. by rewrite <-Hcmp.
  - exists vencoding, vll. split; [|done]. unfold dataOf. rewrite E. destruct (Z.eqb_spec (size s) (size v)) as [Hsize|Hsize].
    + erewrite bind_run by (apply readAt_run; [done|unfold chars; rewrite length_fmap; done]). unfold mret, M_ret. do 4 f_equal.
      apply bool_decide_ext. split; [apply chars_inj|by intros ->].
    + rewrite bool_decide_false; [done|]. by intros ->.
Qed.

(** The position of the first string equal to [v], of every [skip + 1]-th one after the
    first [cnt]. *)
Fixpoint findFrom (l : list bytes) (v : bytes) (skip cnt : nat) : option nat :=
  match l with
  | [] => None
  | s :: l =>
      match cnt with
      | O => if bool_decide (s = v) then Some 0%nat else S <$> findFrom l v skip skip
      | S cnt => S <$> findFrom l v skip cnt
      end
  end.

Lemma findLoop_run f T P v fuel skip cnt vencoding vll : chain 0 (P ++ T) → (length T < fuel)%nat → tried v vencoding vll →
  let es := P ++ T in
  findLoop fuel (10 + size (layout P)) v (Z.of_nat skip) (Z.of_nat cnt) vencoding vll (block f [] es) =
  Ok ((λ j, offOf es (length P + j)) <$> findFrom (zstr <$> T) v skip cnt, block f [] es).
Proof.
  revert P fuel cnt vencoding vll. induction T as [|t T IH]; intros P fuel cnt vencoding vll Hch Hfuel Htried es;
    (destruct fuel as [|fuel]; [cbn in *; lia|]); cbn [findLoop].
  - unfold es. rewrite app_nil_r. by rewrite (bind_run _ _ _ _ _ (blockEnd_run f [] P (10 + size (layout P)) ltac:(cbn; lia))).
  - pose proof Hch as [_ (_ & Ht & _)]%chain_app. destruct (byteAt_run f es (length P) Hch) as (b & Hb & Hnb); [unfold es; rewrite length_app; lia|].
    unfold es in *. rewrite offOf_app in Hb. rewrite bool_decide_false in Hnb by (rewrite length_app; cbn; lia). rewrite (bind_run _ _ _ _ _ Hb), Hnb.
    destruct (block_prev f (layout P) t T) as (D & C & HD & HDC). rewrite <-block_at in HDC by done.
    erewrite bind_run; [|rewrite HDC; apply ZIP_DECODE_PREVLENSIZE_run; [lia|apply Ht]]. rewrite <-HDC. clear D C HD HDC.
    destruct (block_head f P t T) as (D & C & HDC & HD).
    erewrite bind_run; [|rewrite HDC; apply ZIP_DECODE_LENGTH_run; [lia|by apply entOk_str]]. rewrite <-HDC. cbv iota beta zeta. clear D C HD HDC.
    set (q := 10 + size (layout P) + prevSize (zbig t) + size (headOf (zstr t))).
    assert (q + size (dataOf (zstr t)) = 10 + size (layout (P ++ [t]))) as Hq.
    { rewrite layout_app, length_app, Nat2Z.inj_add. change (layout [t]) with (entBytes t ++ []). rewrite app_nil_r. fold (rawlen t).
      rewrite rawlen_eq, size_restBytes. unfold q. lia. }
    assert (∀ cnt' venc' vll', tried v venc' vll' →
      findLoop fuel (q + size (dataOf (zstr t))) v (Z.of_nat skip) (Z.of_nat cnt') venc' vll' (block f [] (P ++ t :: T)) =
      Ok ((λ j, offOf (P ++ t :: T) (length P + j)) <$> (S <$> findFrom (zstr <$> T) v skip cnt'), block f [] (P ++ t :: T))) as Hnext.
    { intros cnt' venc' vll' Htr. rewrite Hq. rewrite (cons_middle t P T), (assoc_L (++) P [t] T) in Hch |- *.
      pose proof (IH (P ++ [t]) fuel cnt' venc' vll' Hch ltac:(cbn in Hfuel; lia) Htr) as IH'. cbv zeta in IH'. rewrite IH', length_app.
      destruct (findFrom _ _ _ _); [|done]. cbn. do 4 f_equal. lia. }
    destruct cnt as [|cnt].
    + change (Z.of_nat 0 =? 0) with true. cbv iota. destruct (block_data f P t T) as (D & C & HDC & HD). rewrite offOf_app in HD.
      destruct (findCompare_run D (zstr t) v C q vencoding vll) as (venc' & vll' & Hcmp & Htr'); [unfold q; lia|done|]. rewrite <-HDC in Hcmp.
      rewrite (bind_run _ _ _ _ _ Hcmp). cbn [fmap list_fmap findFrom]. case_bool_decide.
      * cbn. by rewrite Nat.add_0_r, offOf_app.
      * by apply Hnext.
    + replace (Z.of_nat (S cnt) =? 0) with false by lia. replace (Z.of_nat (S cnt) - 1) with (Z.of_nat cnt) by lia. by apply Hnext.
Qed.

(** The position that is found. *)
Lemma findFrom_spec l v skip cnt :
  match findFrom l v skip cnt with
  | Some j => l !! j = Some v ∧ (∃ q, j = cnt + q * S skip)%nat ∧ ∀ q, (cnt + q * S skip < j)%nat → l !! (cnt + q * S skip)%nat ≠ Some v
  | None => ∀ q, l !! (cnt + q * S skip)%nat ≠ Some v
  end.
Proof.
  revert cnt. induction l as [|s l IH]; intros cnt; [done|]. cbn [findFrom]. destruct cnt as [|cnt].
  - case_bool_decide as Hs.
    + subst. split; [done|]. split; [by exists 0%nat|lia].
    + specialize (IH skip). destruct (findFrom l v skip skip) as [j|]; cbn [fmap option_fmap option_map].
      * destruct IH as (Hj & (q & ->) & Hmin). split; [done|]. split; [exists (S q); lia|]. intros [|q'] Hlt; [by intros [= ?]|].
        replace (0 + S q' * S skip)%nat with (S (skip + q' * S skip)) in * by lia. apply Hmin. lia.
      * intros [|q']; [by intros [= ?]|]. replace (0 + S q' * S skip)%nat with (S (skip + q' * S skip)) by lia. apply IH.
  - specialize (IH cnt). destruct (findFrom l v skip cnt) as [j|]; cbn [fmap option_fmap option_map].
    + destruct IH as (Hj & (q & ->) & Hmin). split; [done|]. split; [exists q; lia|]. intros q' Hlt. apply (Hmin q'). lia.
    + intros q'. apply IH.
Qed.

(** ** Counting *)

Lemma countLoop_run f T P fuel n : chain 0 (P ++ T) → (length T < fuel)%nat →
  countLoop fuel (10 + size (layout P)) n (block f [] (P ++ T)) = Ok (n + size T, block f [] (P ++ T)).
Proof.
  revert P fuel n. induction T as [|t T IH]; intros P fuel n Hch Hfuel; (destruct fuel as [|fuel]; [cbn in *; lia|]); cbn [countLoop].
  - rewrite app_nil_r. rewrite (bind_run _ _ _ _ _ (blockEnd_run f [] P (10 + size (layout P)) ltac:(cbn; lia))). cbn. by rewrite Z.add_0_r.
  - rewrite block_at by done. pose proof Hch as [_ (_ & Ht & _)]%chain_app.
    destruct (blockByte_run f (layout P) t T _ eq_refl Ht) as (b & Hb & Hnb). rewrite (bind_run _ _ _ _ _ Hb), Hnb. cbn [negb].
    rewrite (bind_run _ _ _ _ _ (blockRaw_run f (layout P) t T _ eq_refl Ht)), <-(block_at f P (t :: T)), <-(offOf_next P t T) by done.
    rewrite cons_middle, (assoc_L (++)) in Hch |- *. replace (offOf ((P ++ [t]) ++ T) (S (length P))) with (10 + size (layout (P ++ [t]))).
    + rewrite (IH (P ++ [t]) fuel (n + 1) Hch ltac:(cbn in Hfuel; lia)). cbn [length]. do 2 f_equal. lia.
    + rewrite <-(offOf_app (P ++ [t]) T). f_equal. rewrite length_app. cbn. lia.
Qed.

(** The field is the number of entries, unless it is at its maximum. *)
Definition fieldOk (f n : Z) : Prop := 0 ≤ f ≤ UINT16_MAX ∧ (f < UINT16_MAX → f = n).

Lemma ziplistLen_run f es : chain 0 es → fieldOk f (size es) →
  ∃ f', ziplistLen (block f [] es) = Ok (size es, block f' [] es) ∧ fieldOk f' (size es).
Proof.
  intros Hch [Hf Heq]. unfold UINT16_MAX in *. unfold ziplistLen. assert (getLen (block f [] es) = Ok (f, block f [] es)) as Hlen.
  { unfold block. apply getLen_run. lia. }
  rewrite (bind_run _ _ _ _ _ Hlen). unfold UINT16_MAX. destruct (Z.ltb_spec f 65535).
  - specialize (Heq H0). exists f. split; [by rewrite <-Heq|]. split; unfold UINT16_MAX; lia.
  - rewrite bind_gets. pose proof (countLoop_run f es [] (length (block f [] es)) 0 Hch (fuel_block f es)) as Hrun. cbn [app] in Hrun.
    rewrite (bind_run _ _ _ _ _ Hrun). rewrite Z.add_0_l. destruct (Z.ltb_spec (size es) 65535).
    + exists (size es). unfold block at 1. erewrite bind_run by apply setLen_run. split; [done|]. split; [unfold UINT16_MAX; lia|done].
    + exists f. split; [done|]. split; [unfold UINT16_MAX; lia|]. unfold UINT16_MAX. lia.
Qed.

(** ** Merging *)

Lemma peek_run {A} (m : zlM A) zl a zl' : m zl = Ok (a, zl') → peek m zl = Ok a.
Proof. unfold peek. by intros ->. Qed.

Lemma bind_res {A B} (m : res A) (k : A → res B) a : m = Ok a → m ≫= k = k a.
Proof. by intros ->. Qed.

(** The bytes of both lists, in either direction. *)
Lemma mergeInto_run f1 f2 es1 es2 (append : bool) : let n1 := 11 + size (layout es1) in let n2 := 11 + size (layout es2) in
  n1 + n2 < 2 ^ 63 →
  ∃ n t f, (if append then mergeInto garbage true (layout es2 ++ [ZIP_END]) n1 n2 (n1 + n2 - 10 - 1)
     else mergeInto garbage false (hdr n1 (10 + lastOff es1) f1 ++ layout es1) n2 n1 (n1 + n2 - 10 - 1))
    (if append then block f1 [] es1 else block f2 [] es2) =
  Ok (tt, hdr n t f ++ layout (es1 ++ es2) ++ [ZIP_END]).
Proof.
  intros n1 n2 Hmax. rewrite layout_app. destruct append; unfold mergeInto.
  - destruct (zrealloc_grow garbage (block f1 [] es1) (n1 + n2 - 10 - 1)) as (G & HG & HGs); [rewrite length_block; cbn; lia|].
    rewrite (bind_run _ _ _ _ _ HG). rewrite length_block in HGs. change (size (@nil Z)) with 0 in HGs. unfold block at 1. rewrite app_nil_l.
    rewrite (writeAt_eq _ (hdr (11 + size (@nil Z) + size (layout es1)) (10 + size (@nil Z) + lastOff es1) f1 ++ layout es1) (ZIP_END :: G) []).
    + eexists _, _, _. by rewrite app_nil_r, <-!(assoc_L (++)).
    + by rewrite app_nil_r, <-!(assoc_L (++)).
    + rewrite size_hdr_app. unfold ZIPLIST_END_SIZE. lia.
    + rewrite length_app. cbn [length]. lia.
  - destruct (zrealloc_grow garbage (block f2 [] es2) (n1 + n2 - 10 - 1)) as (G & HG & HGs); [rewrite length_block; cbn; lia|].
    rewrite (bind_run _ _ _ _ _ HG). rewrite length_block in HGs. change (size (@nil Z)) with 0 in HGs. unfold block at 1. rewrite app_nil_l.
    set (h := hdr _ _ f2). set (X := layout es2 ++ [ZIP_END]). assert (size X = n2 - 10) as HX by (unfold X; rewrite length_app; cbn [length]; lia).
    assert (length h = 10%nat) as Hh by apply length_hdr. rewrite u64_id by (unfold ULLONG_MAX, ZIPLIST_HEADER_SIZE; lia).
    set (zl := (h ++ X) ++ G). assert (size zl = n1 + n2 - 11) as Hzl by (unfold zl; rewrite !length_app; lia).
    rewrite (bind_run _ _ _ _ _ (moveMem_run zl h X G (take (Z.to_nat (n1 - 1)) zl) (drop (Z.to_nat (n1 - 1)) zl) []
      (n1 - ZIPLIST_END_SIZE) ZIPLIST_HEADER_SIZE (n2 - ZIPLIST_HEADER_SIZE) ltac:(unfold zl; by rewrite <-(assoc_L (++)))
      ltac:(by rewrite app_nil_r, take_drop) ltac:(rewrite length_drop; lia) ltac:(rewrite Hh; done)
      ltac:(rewrite length_take; unfold ZIPLIST_END_SIZE; lia) ltac:(unfold ZIPLIST_HEADER_SIZE; lia))).
    rewrite app_nil_r, (writeAt_eq _ [] (take (Z.to_nat (n1 - 1)) zl) X); [|done|done|rewrite length_app, length_hdr, length_take; lia].
    eexists _, _, _. rewrite app_nil_l. unfold X. by rewrite <-!(assoc_L (++)).
Qed.

Lemma lastOff_app es1 es2 : es2 ≠ [] → lastOff (es1 ++ es2) = size (layout es1) + lastOff es2.
Proof. intros Hne. unfold lastOff. rewrite removelast_app, layout_app, length_app by done. lia. Qed.

(** The lengths at the seam. *)
Lemma seam_run f es1 es2 : chain 0 es1 → chain 0 es2 → es2 ≠ [] →
  11 + size (layout es1) + size (layout es2) + 4 * (size es1 + size es2) < 2 ^ 32 →
  ∃ es, __ziplistCascadeUpdate garbage (10 + lastOff es1) (block f [] (es1 ++ es2)) = Ok (tt, block f [] es) ∧
    chain 0 es ∧ zstr <$> es = (zstr <$> es1) ++ (zstr <$> es2).
Proof.
  intros Hch1 Hch2 Hne Hmax. destruct es1 as [|e P _] using rev_ind.
  - destruct es2 as [|e es2]; [done|]. destruct Hch2 as (Hp & He & Hch2). change (layout []) with (@nil Z) in Hmax. cbn [length] in Hmax.
    destruct (cascade_run garbage f [] e es2 10 eq_refl He (chain_chainTail _ _ Hch2)) as (rest & Hrun & Hch & Hstr).
    { cbn [length]. lia. }
    exists (e :: rest). change (10 + lastOff []) with 10. rewrite app_nil_l, Hrun. split; [done|]. split; [done|by f_equal/=].
  - apply chain_app in Hch1 as [HchP (Hp & He & _)]. rewrite layout_app, !length_app in Hmax. cbn [length] in Hmax.
    change (layout [e]) with (entBytes e ++ []) in Hmax. rewrite app_nil_r in Hmax. fold (rawlen e) in Hmax.
    assert (lastOff (P ++ [e]) = size (layout P)) as -> by (unfold lastOff; by rewrite removelast_last).
    rewrite <-(assoc_L (++)), block_at by (by destruct es2). cbn [app].
    destruct (cascade_run garbage f (layout P) e es2 _ eq_refl He (chain_chainTail _ _ Hch2)) as (rest & Hrun & Hch & Hstr).
    { rewrite size_layout_cons. unfold rawlen. lia. }
    exists (P ++ e :: rest). rewrite Hrun, block_at by done. split; [done|]. split; [apply chain_app; by do 3 (split; [done|])|].
    rewrite !fmap_app, fmap_cons, Hstr, <-(assoc_L (++)). done.
Qed.

(** A list with entries in it is appended. *)
Lemma ziplistMerge_run f1 f2 es1 es2 : chain 0 es1 → chain 0 es2 → es2 ≠ [] → fieldOk f1 (size es1) → fieldOk f2 (size es2) →
  11 + size (layout es1) + size (layout es2) + 4 * (size es1 + size es2) < 2 ^ 32 →
  ∃ append f es, ziplistMerge garbage (block f1 [] es1) (block f2 [] es2) = Ok (append, block f [] es) ∧
    chain 0 es ∧ zstr <$> es = (zstr <$> es1) ++ (zstr <$> es2) ∧ fieldOk f (size es).
Proof.
  intros Hch1 Hch2 Hne [Hf1 Hf1'] [Hf2 Hf2'] Hmax. unfold ziplistMerge.
  assert (∀ f es, 11 + size (layout es) < 2 ^ 32 → peek getBytes (block f [] es) = Ok (11 + size (layout es))) as Hbytes.
  { intros f es Hs. eapply peek_run, blockBytes_run. cbn. lia. }
  assert (∀ f es, 11 + size (layout es) < 2 ^ 32 → peek getTail (block f [] es) = Ok (10 + lastOff es)) as Htail.
  { intros f es Hs. eapply peek_run, blockTail_run. cbn. lia. }
  assert (∀ f es, 0 ≤ f ≤ UINT16_MAX → peek getLen (block f [] es) = Ok f) as Hlen.
  { intros f es Hs. unfold UINT16_MAX in Hs. eapply peek_run, getLen_run. lia. }
  rewrite (bind_res _ _ _ (Hbytes f1 es1 ltac:(lia))), (bind_res _ _ _ (Hlen f1 es1 Hf1)), (bind_res _ _ _ (Hbytes f2 es2 ltac:(lia))),
    (bind_res _ _ _ (Hlen f2 es2 Hf2)). cbv zeta. rewrite (bind_res _ _ _ (Htail f1 es1 ltac:(lia))), (bind_res _ _ _ (Htail f2 es2 ltac:(lia))).
  set (append := f2 <=? f1). set (n1 := 11 + size (layout es1)). set (n2 := 11 + size (layout es2)).
  assert ((if append then peek (readMem ZIPLIST_HEADER_SIZE (u64 (n2 - ZIPLIST_HEADER_SIZE))) (block f2 [] es2)
    else peek (readMem 0 (u64 (n1 - ZIPLIST_END_SIZE))) (block f1 [] es1)) =
    Ok (if append then layout es2 ++ [ZIP_END] else hdr n1 (10 + lastOff es1) f1 ++ layout es1)) as Hsrc.
  { unfold ZIPLIST_HEADER_SIZE, ZIPLIST_END_SIZE, n1, n2. rewrite !u64_id by (unfold ULLONG_MAX; lia). destruct append; unfold block; rewrite app_nil_l.
    - eapply peek_run, (readAt_eq _ (hdr _ _ _) _ []); [by rewrite app_nil_r|by rewrite length_hdr|]. rewrite length_app. cbn [length]. lia.
    - eapply peek_run, (readAt_eq _ [] _ [ZIP_END]); [by rewrite <-(assoc_L (++))|done|]. rewrite size_hdr_app. lia. }
  rewrite (bind_res _ _ _ Hsrc). clear Hsrc. unfold exec.
  destruct (mergeInto_run f1 f2 es1 es2 append) as (n & t & f & Hmerge); [lia|]. fold n1 n2 in Hmerge.
  set (F := if f1 + f2 <? UINT16_MAX then f1 + f2 else UINT16_MAX).
  destruct (seam_run F es1 es2 Hch1 Hch2 Hne Hmax) as (es & Hseam & Hch & Hstr). exists append, F, es.
  change (n1 + n2 - ZIPLIST_HEADER_SIZE - ZIPLIST_END_SIZE) with (n1 + n2 - 10 - 1).
  erewrite (bind_run (if append then mergeInto _ _ _ _ _ _ else _)); [|clearbody append; destruct append; exact Hmerge].
  rewrite (bind_run _ _ _ _ _ (setBytes_run _ _ _ _ _)). fold F. rewrite (bind_run _ _ _ _ _ (setLen_run _ _ _ _ _)), (bind_run _ _ _ _ _ (setTail_run _ _ _ _ _)).
  assert (hdr (n1 + n2 - 10 - 1) (n1 - ZIPLIST_END_SIZE + (10 + lastOff es2 - ZIPLIST_HEADER_SIZE)) F ++ layout (es1 ++ es2) ++ [ZIP_END] =
    block F [] (es1 ++ es2)) as ->.
  { unfold block. rewrite app_nil_l. f_equal. rewrite lastOff_app by done. unfold ZIPLIST_END_SIZE, ZIPLIST_HEADER_SIZE.
    rewrite layout_app, length_app. change (size (@nil Z)) with 0. f_equal; lia. }
  rewrite Hseam. split; [done|]. split; [done|]. split; [done|]. assert (size es = size es1 + size es2) as ->.
  { apply (f_equal length) in Hstr. rewrite length_app, !length_fmap in Hstr. lia. }
  unfold F, fieldOk, UINT16_MAX in *. destruct (Z.ltb_spec (f1 + f2) 65535); [|lia]. specialize (Hf1' ltac:(lia)). specialize (Hf2' ltac:(lia)). lia.
Qed.

(** ** Well-formed lists *)

(** The block [zl] has the entries [es]. *)
Definition zlOk (es : list zent) (zl : list Z) : Prop :=
  chain 0 es ∧ ∃ f, fieldOk f (size es) ∧ zl = block f [] es.

(** Room for the length of every entry to grow. *)
Definition roomy (es : list zent) (zl : list Z) (extra : Z) : Prop := size zl + 4 * size es + extra < 2 ^ 32.

Lemma fieldOk_bump f n d : fieldOk f n → 0 ≤ n + d → d ≤ 1 → fieldOk (bump f d) (n + d).
Proof. unfold fieldOk, bump, UINT16_MAX. intros [Hf Heq] Hn Hd. destruct (Z.ltb_spec f 65535); lia. Qed.

Lemma rawlen_bound big k s : rawlen (mkZent big k s) ≤ size s + 18.
Proof.
  rewrite rawlen_eq, size_restBytes, size_dataOf. cbn [zbig zstr].
  assert (prevSize big ≤ 5) by (unfold prevSize; case_match; lia).
  assert (size (headOf s) ≤ 5) by (unfold headOf, entryEncoding; repeat case_match; cbn; lia).
  destruct (zipTryEncoding s) as [[v enc]|]; [|lia]. unfold intWidth. repeat case_match; lia.
Qed.

Lemma ziplistNew_run zl : ∃ zl', ziplistNew garbage zl = Ok (tt, zl') ∧ zlOk [] zl'.
Proof.
  exists (block 0 [] []). split; [|by split; [|exists 0]]. unfold ziplistNew, zmalloc. cbv zeta.
  erewrite bind_run by (unfold put; reflexivity).
  set (g := garbage). change (garbage <$> _) with [g 0; g 1; g 2; g 3; g 4; g 5; g 6; g 7; g 8; g 9; g 10]%nat. clearbody g.
  unfold setBytes, setTail. rewrite !intrev32ifbe_stored. assert (hostBytes 2 0 = le 2 0) as -> by (unfold hostBytes; by destruct BYTE_ORDER).
  erewrite bind_run by by apply (writeAt_eq _ [] [g 0; g 1; g 2; g 3]%nat).
  erewrite bind_run by by apply (writeAt_eq _ (le 4 11) [g 4; g 5; g 6; g 7]%nat [g 8; g 9; g 10]%nat).
  erewrite bind_run by by apply (writeAt_eq _ (le 4 11 ++ le 4 10) [g 8; g 9]%nat [g 10]%nat).
  by erewrite (writeAt_eq _ (le 4 11 ++ le 4 10 ++ le 2 0) [g 10]%nat []).
Qed.

Lemma insert_ok es zl k s : zlOk es zl → (k ≤ length es)%nat → roomy es zl (size s + 32) →
  ∃ es' zl', ziplistInsert garbage (offOf es k) s zl = Ok (tt, zl') ∧ zlOk es' zl' ∧ take k es' = take k es ∧
    zstr <$> es' = take k (zstr <$> es) ++ s :: drop k (zstr <$> es).
Proof.
  intros (Hch & f & Hf & ->) Hk Hroom. unfold roomy in Hroom. rewrite length_block in Hroom. change (size (@nil Z)) with 0 in Hroom.
  rewrite <-(take_drop k es) in Hch. pose proof (length_take_le es k Hk) as Hlen.
  pose proof (rawlen_bound (large (lastLen 0 (take k es))) (lastLen 0 (take k es)) s) as Hraw. pose proof Hf as [Hf16 _]. unfold UINT16_MAX in Hf16.
  destruct (insertEntry_run garbage (take k es) (drop k es) f (offOf es k) s Hch eq_refl) as (T' & Hrun & Hch' & Hstr); [lia|rewrite take_drop, length_drop; lia|].
  rewrite take_drop in Hrun. eexists _, _. split; [exact Hrun|]. split; [split; [done|]|split].
  - eexists. split; [|done]. apply (f_equal length) in Hstr. rewrite !length_fmap, length_drop in Hstr.
    replace (size (_ ++ _)) with (size es + 1) by (rewrite length_app; cbn [length]; lia). apply fieldOk_bump; [done|lia..].
  - rewrite take_app_le, take_take by lia. f_equal. lia.
  - rewrite fmap_app, fmap_cons, Hstr, fmap_take, fmap_drop. done.
Qed.

Lemma delete_none f es k : chain 0 es → (k < length es)%nat → __ziplistDelete garbage (offOf es k) 0 (block f [] es) = Ok (tt, block f [] es).
Proof.
  intros Hch Hk. destruct (lookup_lt_is_Some_2 es k Hk) as [e He]. destruct (at_pos _ _ _ He) as (P & T & -> & <- & Hoff).
  pose proof Hch as [HP HT]%chain_app. pose proof HT as (_ & Hok & _). rewrite Hoff, block_at by done. unfold __ziplistDelete.
  rewrite (bind_run _ _ _ _ _ (blockEntry_run f (layout P) e T _ eq_refl Hok)), bind_gets.
  pose proof (length_block f (layout P) (e :: T)).
  rewrite (bind_run _ _ _ _ _ (skipEntries_run f [] (e :: T) (layout P) (length (block f (layout P) (e :: T))) _ 0 0 _ HT eq_refl ltac:(cbn [length]; lia) ltac:(done) ltac:(by right))).
  cbn [entryOf zl_p layout fmap list_fmap concat length]. rewrite Z.add_0_r, Z.sub_diag. done.
Qed.

Lemma delete_ok es zl k num : zlOk es zl → (k < length es)%nat → roomy es zl 0 →
  ∃ es' zl', __ziplistDelete garbage (offOf es k) (Z.of_nat num) zl = Ok (tt, zl') ∧ zlOk es' zl' ∧ take k es' = take k es ∧
    zstr <$> es' = take k (zstr <$> es) ++ drop (k + num) (zstr <$> es).
Proof.
  intros (Hch & f & Hf & ->) Hk Hroom. unfold roomy in Hroom. rewrite length_block in Hroom. change (size (@nil Z)) with 0 in Hroom.
  destruct (lookup_lt_is_Some_2 es k Hk) as [e He].
  destruct num as [|num].
  { exists es, (block f [] es). rewrite delete_none by done. split; [done|]. split; [split; [done|by exists f]|].
    split; [done|]. by rewrite Nat.add_0_r, take_drop. }
  destruct (at_pos _ _ _ He) as (P & T & -> & <- & Hoff). rewrite Hoff. pose proof Hf as [Hf16 _]. unfold UINT16_MAX in Hf16.
  destruct (deleteEntries_run garbage P e (take num T) (drop num T) f (10 + size (layout P)) (Z.of_nat (S num))) as (T' & Hrun & Hch' & Hstr);
    rewrite <-?app_comm_cons, ?take_drop; [done|done| | |lia| |].
  { cbn [length]. rewrite length_take. lia. }
  { cbn [length]. rewrite length_take. destruct (decide (num ≤ length T)%nat); [right; lia|left; apply drop_ge; lia]. }
  { rewrite length_drop. rewrite length_app in Hroom. cbn [length] in Hroom. lia. }
  rewrite <-app_comm_cons, take_drop in Hrun. eexists _, _. split; [exact Hrun|]. split; [split; [done|]|split].
  - eexists. split; [|done]. apply (f_equal length) in Hstr. rewrite !length_fmap, length_drop in Hstr. rewrite length_app in *.
    cbn [length] in *. rewrite length_take.
    replace (Z.of_nat (length P + length T')) with (Z.of_nat (length P + S (length T)) + - Z.of_nat (S (num `min` length T))) by lia.
    apply fieldOk_bump; [done|lia..].
  - by rewrite !take_app_length.
  - rewrite !fmap_app, Hstr, fmap_cons, fmap_drop. rewrite <-(length_fmap zstr P), take_app_length, drop_app_add. done.
Qed.

(** ** The functions on a well-formed block *)

Lemma index_ok es zl i : zlOk es zl → size zl < 2 ^ 32 → - 2 ^ 31 < i < 2 ^ 31 →
  ziplistIndex i zl = Ok (offOf es <$> indexOf (length es) i, zl).
Proof.
  intros (Hch & f & Hf & ->) Hmax Hi. rewrite length_block in Hmax. change (size (@nil Z)) with 0 in Hmax.
  apply ziplistIndex_run; [done|lia|done].
Qed.

Lemma next_ok es zl k : zlOk es zl → (k ≤ length es)%nat →
  ziplistNext (offOf es k) zl = Ok (if decide (S k < length es)%nat then Some (offOf es (S k)) else None, zl).
Proof. intros (Hch & f & Hf & ->) Hk. by apply ziplistNext_run. Qed.

Lemma get_ok es zl k e : zlOk es zl → es !! k = Some e → ziplistGet (Some (offOf es k)) zl = Ok (Some (valOf (zstr e)), zl).
Proof. intros (Hch & f & Hf & ->) He. by apply ziplistGet_run. Qed.

Lemma find_ok es zl k v skip : zlOk es zl → (k ≤ length es)%nat →
  ziplistFind (offOf es k) v (Z.of_nat skip) zl =
  Ok ((λ j, offOf es (k + j)) <$> findFrom (drop k (zstr <$> es)) v skip 0, zl).
Proof.
  intros (Hch & f & Hf & ->) Hk. unfold ziplistFind. rewrite bind_gets.
  pose proof (findLoop_run f (drop k es) (take k es) v (length (block f [] es)) skip 0 0 0) as Hrun. cbv zeta in Hrun.
  rewrite take_drop, length_take_le, fmap_drop in Hrun by done.
  change (Z.of_nat 0) with 0 in Hrun. change (10 + size (layout (take k es))) with (offOf es k) in Hrun.
  apply Hrun; [done|pose proof (fuel_block f es); rewrite length_drop; lia|by left].
Qed.

Lemma len_ok es zl : zlOk es zl → ∃ zl', ziplistLen zl = Ok (size es, zl') ∧ zlOk es zl' ∧ size zl' = size zl.
Proof.
  intros (Hch & f & Hf & ->). destruct (ziplistLen_run f es Hch Hf) as (f' & Hrun & Hf'). exists (block f' [] es).
  split; [done|]. split; [split; [done|by exists f']|]. by rewrite !length_block.
Qed.

Lemma pushTail_ok es zl s : zlOk es zl → roomy es zl (size s + 32) →
  ∃ es' zl', ziplistPush garbage s ZIPLIST_TAIL zl = Ok (tt, zl') ∧ zlOk es' zl' ∧ zstr <$> es' = (zstr <$> es) ++ [s].
Proof.
  intros Hok Hroom. pose proof Hok as (Hch & f & Hf & Hzl). pose proof Hroom as Hroom'. unfold roomy in Hroom'.
  assert (size zl = 11 + size (layout es)) as Hsize by (rewrite Hzl, length_block; cbn; lia). unfold ziplistPush.
  assert (getBytes zl = Ok (offOf es (length es) + 1, zl)) as Hbytes.
  { rewrite Hzl, blockBytes_run by (cbn; lia). unfold offOf. rewrite firstn_all. cbn. do 2 f_equal. lia. }
  rewrite (bind_run _ _ _ _ _ Hbytes). replace (offOf es (length es) + 1 - 1) with (offOf es (length es)) by lia.
  destruct (insert_ok es zl (length es) s Hok) as (es' & zl' & Hrun & Hok' & _ & Hstr); [lia|done|]. exists es', zl'.
  rewrite <-(length_fmap zstr es), firstn_all, drop_all in Hstr. done.
Qed.

Lemma deleteOne_ok es zl k : zlOk es zl → (k < length es)%nat → roomy es zl 0 →
  ∃ es' zl', ziplistDelete garbage (offOf es k) zl = Ok (offOf es' k, zl') ∧ zlOk es' zl' ∧ zstr <$> es' = delete k (zstr <$> es).
Proof.
  intros Hok Hk Hroom. destruct (delete_ok es zl k 1 Hok Hk Hroom) as (es' & zl' & Hrun & Hok' & Htake & Hstr).
  exists es', zl'. unfold ziplistDelete. rewrite (bind_run _ _ _ _ _ Hrun). split; [|split; [done|]].
  - unfold offOf. by rewrite Htake.
  - rewrite Hstr, delete_take_drop. do 2 f_equal. lia.
Qed.

End Seq.

(** ** The theorems *)

(** C18. On the block of a sequence of strings the index (from either end), the next and
    the previous entry, the value (an integer when the string is one), the
    comparison, the search with a skip, the number of entries and the size are those
    of the sequence, and nothing but the cached number of entries changes. *)
Theorem ziplist_reads `{Host} (es : list zent) (zl : list Z) : zlOk es zl → size zl < 2 ^ 32 →
  (∀ i, - 2 ^ 31 < i < 2 ^ 31 → ziplistIndex i zl = Ok (offOf es <$> indexOf (length es) i, zl)) ∧
  (∀ k, (k ≤ length es)%nat →
     ziplistNext (offOf es k) zl = Ok (if decide (S k < length es)%nat then Some (offOf es (S k)) else None, zl) ∧
     ziplistPrev (offOf es k) zl = Ok (offOf es <$> match k with O => None | S k => Some k end, zl)) ∧
  (∀ k e, es !! k = Some e →
     ziplistGet (Some (offOf es k)) zl = Ok (Some (valOf (zstr e)), zl) ∧
     (∀ s, ziplistCompare (offOf es k) s zl = Ok (bool_decide (zstr e = s), zl))) ∧
  (∀ k v skip, (k ≤ length es)%nat → ∃ r, ziplistFind (offOf es k) v (Z.of_nat skip) zl = Ok (offOf es <$> r, zl) ∧
     match r with
     | Some j => (zstr <$> es) !! j = Some v ∧ (∃ q, j = k + q * S skip)%nat ∧
         ∀ q, (k + q * S skip < j)%nat → (zstr <$> es) !! (k + q * S skip)%nat ≠ Some v
     | None => ∀ q, (zstr <$> es) !! (k + q * S skip)%nat ≠ Some v
     end) ∧
  (∃ zl', ziplistLen zl = Ok (size es, zl') ∧ zlOk es zl') ∧
  ziplistBlobLen zl = Ok (size zl, zl).
Proof.
  intros (Hch & f & Hf & ->) Hmax. rewrite length_block in Hmax |- *. change (size (@nil Z)) with 0 in Hmax |- *. split_and!.
  - intros i Hi. apply ziplistIndex_run; [done|lia|done].
  - intros k Hk. split; [by apply ziplistNext_run|apply ziplistPrev_run; [done|lia|done]].
  - intros k e He. split; [by apply ziplistGet_run|intros s; by apply ziplistCompare_run].
  - intros k v skip Hk. exists (Nat.add k <$> findFrom (drop k (zstr <$> es)) v skip 0).
    rewrite (find_ok es (block f [] es) k v skip) by (done || (split; [done|by exists f])). split.
    + by destruct (findFrom _ _ _ _).
    + pose proof (findFrom_spec (drop k (zstr <$> es)) v skip 0) as Hspec. destruct (findFrom _ _ _ _) as [j|]; cbn.
      * destruct Hspec as (Hj & (q & ->) & Hmin). rewrite lookup_drop in Hj. split; [done|]. split; [by exists q|].
        intros q' Hq'. specialize (Hmin q' ltac:(lia)). by rewrite lookup_drop in Hmin.
      * intros q. specialize (Hspec q). by rewrite lookup_drop in Hspec.
  - destruct (ziplistLen_run f es Hch Hf) as (f' & Hrun & Hf'). exists (block f' [] es). split; [done|]. split; [done|]. by exists f'.
  - unfold ziplistBlobLen. rewrite blockBytes_run; [done|cbn; lia].
Qed.

Definition listTwo : list zent := [mkZent false 0 ["7"%char]; mkZent false 2 ["a"%char; "b"%char]].

Lemma listTwo_ok : zlOk listTwo (block 2 [] listTwo).
Proof.
  split; [|exists 2; split; [by split|done]].
  repeat split; vm_compute; (reflexivity || discriminate).
Qed.

(** A list of an integer and a string. *)
Lemma ziplist_reads_witness : @ziplistIndex littleHost (-1) (block 2 [] listTwo) = Ok (Some 12, block 2 [] listTwo) ∧
  @ziplistGet littleHost (Some 10) (block 2 [] listTwo) = Ok (Some (ZlInt 7), block 2 [] listTwo) ∧
  @ziplistFind littleHost 10 ["a"%char; "b"%char] 0 (block 2 [] listTwo) = Ok (Some 12, block 2 [] listTwo).
Proof.
  destruct (@ziplist_reads littleHost listTwo (block 2 [] listTwo)) as (Hindex & _ & Hget & Hfind & _); [|by vm_compute|].
  - exact listTwo_ok.
  - split; [exact (Hindex (-1) ltac:(lia))|]. split; [exact (proj1 (Hget 0%nat _ eq_refl))|].
    destruct (Hfind 0%nat ["a"%char; "b"%char] 0%nat ltac:(cbn; lia)) as (r & Hr & Hj). change (offOf listTwo 0) with 10 in Hr. change (Z.of_nat 0) with 0 in Hr.
    rewrite Hr. destruct r as [j|]; [|by destruct (Hj 1%nat)]. destruct Hj as (Hj & _). destruct j as [|[|j]]; [done|done|done].
Defined.

(** C17. A ziplist, a block of bytes on a host of either byte order, is a sequence of
    strings: inserting at any position, pushing, deleting one entry or a range from
    an int index, and merging with a second list that is not empty, never leave the
    block, give the block of the changed sequence, with every length, the offset of
    the last entry and the count right however far the change of the lengths
    cascades, and keep the entries before the position of an insertion. There has to
    be room below 4 GB: the size of the block plus four bytes for each entry is
    below 2^32, for an insertion together with the length of the string plus 32, for
    a merge together with the size of the second block plus four bytes for each of
    its entries. *)
Theorem ziplist_refines_sequence `{Host} (garbage : nat → Z) (es : list zent) (zl : list Z) : zlOk es zl →
  (∀ zl0, ∃ zl', ziplistNew garbage zl0 = Ok (tt, zl') ∧ zlOk [] zl') ∧
  (∀ k s, (k ≤ length es)%nat → roomy es zl (size s + 32) →
     ∃ es' zl', ziplistInsert garbage (offOf es k) s zl = Ok (tt, zl') ∧ zlOk es' zl' ∧ take k es' = take k es ∧
       zstr <$> es' = take k (zstr <$> es) ++ s :: drop k (zstr <$> es)) ∧
  (∀ s pos, roomy es zl (size s + 32) →
     ∃ es' zl', ziplistPush garbage s pos zl = Ok (tt, zl') ∧ zlOk es' zl' ∧
       zstr <$> es' = match pos with ZIPLIST_HEAD => s :: (zstr <$> es) | ZIPLIST_TAIL => (zstr <$> es) ++ [s] end) ∧
  (∀ k, (k < length es)%nat → roomy es zl 0 →
     ∃ es' zl', ziplistDelete garbage (offOf es k) zl = Ok (offOf es' k, zl') ∧ zlOk es' zl' ∧ zstr <$> es' = delete k (zstr <$> es)) ∧
  (∀ i num, - 2 ^ 31 < i < 2 ^ 31 → roomy es zl 0 →
     ∃ es' zl', ziplistDeleteRange garbage i (Z.of_nat num) zl = Ok (tt, zl') ∧ zlOk es' zl' ∧
       zstr <$> es' = match indexOf (length es) i with
                      | Some k => take k (zstr <$> es) ++ drop (k + num) (zstr <$> es)
                      | None => zstr <$> es
                      end) ∧
  (∀ es2 zl2, zlOk es2 zl2 → es2 ≠ [] → roomy es zl (size zl2 + 4 * size es2) →
     ∃ append es' zl', ziplistMerge garbage zl zl2 = Ok (append, zl') ∧ zlOk es' zl' ∧ zstr <$> es' = (zstr <$> es) ++ (zstr <$> es2)).
Proof.
  intros Hok. pose proof Hok as (Hch & f & Hf & Hzl). assert (size zl = 11 + size (layout es)) as Hsize.
  { rewrite Hzl, length_block. cbn. lia. }
  split_and!.
  - apply ziplistNew_run.
  - intros k s Hk Hroom. by apply insert_ok.
  - intros s pos Hroom. pose proof Hroom as Hroom'. unfold roomy in Hroom'. destruct pos; unfold ziplistPush.
    + destruct (insert_ok garbage es zl 0 s Hok) as (es' & zl' & Hrun & Hok' & _ & Hstr); [lia|done|]. by exists es', zl'.
    + by apply pushTail_ok.
  - intros k Hk Hroom. by apply deleteOne_ok.
  - intros i num Hi Hroom. unfold roomy in Hroom. unfold ziplistDeleteRange.
    assert (ziplistIndex i zl = Ok (offOf es <$> indexOf (length es) i, zl)) as Hindex.
    { rewrite Hzl. apply ziplistIndex_run; [done|lia|done]. }
    rewrite (bind_run _ _ _ _ _ Hindex). destruct (indexOf (length es) i) as [k|] eqn:E; cbn [fmap option_fmap option_map]; [|by exists es, zl].
    destruct (delete_ok garbage es zl k num Hok) as (es' & zl' & Hrun & Hok' & _ & Hstr); [|unfold roomy; lia|by exists es', zl'].
    unfold indexOf in E. case_match; simplify_eq. lia.
  - intros es2 zl2 (Hch2 & f2 & Hf2 & ->) Hne Hroom. unfold roomy in Hroom. rewrite length_block in Hroom. change (size (@nil Z)) with 0 in Hroom.
    destruct (ziplistMerge_run garbage f f2 es es2 Hch Hch2 Hne Hf Hf2) as (append & f' & es' & Hrun & Hch' & Hstr & Hf'); [lia|].
    exists append, es', (block f' [] es'). rewrite Hzl. split; [done|]. split; [|done]. split; [done|]. by exists f'.
Qed.

(** A push, a deletion and a merge of two lists. *)
Lemma ziplist_refines_sequence_witness (g := λ _, 0) :
  ∃ es zl, @ziplistPush littleHost g ["x"%char] ZIPLIST_TAIL (block 2 [] listTwo) = Ok (tt, zl) ∧ zlOk es zl ∧
    zstr <$> es = [["7"%char]; ["a"%char; "b"%char]; ["x"%char]].
Proof.
  destruct (@ziplist_refines_sequence littleHost g listTwo (block 2 [] listTwo)) as (_ & _ & Hpush & _).
  - exact listTwo_ok.
  - exact (Hpush ["x"%char] ZIPLIST_TAIL ltac:(by vm_compute)).
Defined.

(** A list that is empty must not be appended: the offset of the last entry becomes that
    of the end, and the last entry is not found any more. *)
Example merge_with_empty_loses_tail (g := λ _, 0) :
  match @ziplistMerge littleHost g (block 2 [] listTwo) (block 0 [] []) with
  | Ok (_, zl) => (@peek (option Z) (@ziplistIndex littleHost (-1)) zl, @peek Z (@ziplistLen littleHost) zl)
  | Fault f => (Fault f, Fault f)
  end = (Ok None, Ok 2).
Proof. by vm_compute. Qed.
