(* ===== verification/Crc64.v ===== *)
(** * Crc64: the checksum of dumps, src/src/crc64.c and crcspeed.c

    [_crc64] computes the checksum bit by bit; [crc64] uses eight tables of 256
    words and takes eight bytes at a time.  The theorems say that on a
    little-endian host the two agree, that a change of one byte is always
    detected, and that on a big-endian host the tables are all zero.

    Words are integers below [2^64]; a buffer is a list of bytes and the address
    it starts at. *)

From Stdlib Require Import ZifyBool.
From stdpp Require Import base tactics option strings numbers list.
From S2P Require Import Prelude Endian.

Local Open Scope Z_scope.

Definition POLY : Z := 0xad93d23594c935a9.

(** ** Bit by bit *)

(** The rounds of the loop: [data] and [ret]. *)
Fixpoint reflectLoop (n : nat) (data ret : Z) : Z :=
  match n with
  | O => ret
  | S n =>
      let data := Z.shiftr data 1 in
      reflectLoop n data (Z.lor (u64 (Z.shiftl ret 1)) (Z.land data 1))
  end.

Definition crc_reflect (data : Z) (data_len : nat) : Z := reflectLoop (data_len - 1) data (Z.land data 1).

(** A round of the inner loop, for the bit [i] of [c]. *)
Definition crcBit (crc c i : Z) : Z :=
  let bit := negb (Z.land crc 0x8000000000000000 =? 0) in
  let bit := if Z.land c i =? 0 then bit else negb bit in
  let crc := u64 (Z.shiftl crc 1) in
  if (bit : bool) then Z.lxor crc POLY else crc.

(** [for (i = 0x01; i & 0xff; i <<= 1)] *)
Definition crcByte (crc c : Z) : Z :=
  let crc := foldl (λ crc i, crcBit crc c i) crc [0x01; 0x02; 0x04; 0x08; 0x10; 0x20; 0x40; 0x80] in
  Z.land crc 0xffffffffffffffff.

Definition _crc64 (crc : Z) (in_data : list Z) : Z :=
  let crc := foldl crcByte crc in_data in
  let crc := Z.land crc 0xffffffffffffffff in
  Z.lxor (crc_reflect crc 64) 0.

(** ** Tables *)

Definition tableAt (t : list (list Z)) (k n : Z) : Z := (t !!! Z.to_nat k) !!! Z.to_nat n.

(** The words [table[1][n]] to [table[7][n]]. *)
Fixpoint nestedLoop (k : nat) (table0 : list Z) (crc : Z) : list Z :=
  match k with
  | O => []
  | S k =>
      let crc := Z.lxor (table0 !!! Z.to_nat (Z.land crc 0xff)) (Z.shiftr crc 8) in
      crc :: nestedLoop k table0 crc
  end.

Section Speed.
Context `{Host}.

(** The byte at [&n], for an [int n]. *)
Definition firstByte (n : Z) : list Z := take 1 (hostBytes 4 n).

Definition crcspeed64little_init (crcfn : Z → list Z → Z) : list (list Z) :=
  let table0 := map (λ n, crcfn 0 (firstByte n)) (seqZ 0 256) in
  let nested := map (λ n, nestedLoop 7 table0 (table0 !!! Z.to_nat n)) (seqZ 0 256) in
  table0 :: map (λ k, map (λ l : list Z, l !!! k) nested) (seq 0 7).

Definition rev8 (a : Z) : Z := unle (reverse (le 8 a)).

Definition crcspeed64big_init (fn : Z → list Z → Z) : list (list Z) :=
  map (map rev8) (crcspeed64little_init fn).

(** One byte at a time, and eight bytes at a time. *)
Definition littleByte (t : list (list Z)) (crc b : Z) : Z :=
  Z.lxor (tableAt t 0 (Z.land (Z.lxor crc b) 0xff)) (Z.shiftr crc 8).

Definition littleWord (t : list (list Z)) (crc : Z) (w : list Z) : Z :=
  let crc := Z.lxor crc (hostInt w) in
  Z.lxor (tableAt t 7 (Z.land crc 0xff))
    (Z.lxor (tableAt t 6 (Z.land (Z.shiftr crc 8) 0xff))
      (Z.lxor (tableAt t 5 (Z.land (Z.shiftr crc 16) 0xff))
        (Z.lxor (tableAt t 4 (Z.land (Z.shiftr crc 24) 0xff))
          (Z.lxor (tableAt t 3 (Z.land (Z.shiftr crc 32) 0xff))
            (Z.lxor (tableAt t 2 (Z.land (Z.shiftr crc 40) 0xff))
              (Z.lxor (tableAt t 1 (Z.land (Z.shiftr crc 48) 0xff))
                (tableAt t 0 (Z.shiftr crc 56)))))))).

Definition bigByte (t : list (list Z)) (crc b : Z) : Z :=
  Z.lxor (tableAt t 0 (Z.lxor (Z.shiftr crc 56) b)) (u64 (Z.shiftl crc 8)).

Definition bigWord (t : list (list Z)) (crc : Z) (w : list Z) : Z :=
  let crc := Z.lxor crc (hostInt w) in
  Z.lxor (tableAt t 0 (Z.land crc 0xff))
    (Z.lxor (tableAt t 1 (Z.land (Z.shiftr crc 8) 0xff))
      (Z.lxor (tableAt t 2 (Z.land (Z.shiftr crc 16) 0xff))
        (Z.lxor (tableAt t 3 (Z.land (Z.shiftr crc 24) 0xff))
          (Z.lxor (tableAt t 4 (Z.land (Z.shiftr crc 32) 0xff))
            (Z.lxor (tableAt t 5 (Z.land (Z.shiftr crc 40) 0xff))
              (Z.lxor (tableAt t 6 (Z.land (Z.shiftr crc 48) 0xff))
                (tableAt t 7 (Z.shiftr crc 56)))))))).

Section Loops.
Context (byteStep : Z → Z → Z) (wordStep : Z → list Z → Z).

(** Bytes up to an address that is a multiple of 8: the rest of the buffer. *)
Fixpoint headLoop (crc addr : Z) (buf : list Z) : Z * list Z :=
  match buf with
  | b :: buf' =>
      if Z.land addr 7 =? 0 then (crc, buf) else headLoop (byteStep crc b) (addr + 1) buf'
  | [] => (crc, [])
  end.

(** [while (len >= 8)], with a round for every eight bytes. *)
Fixpoint middleLoop (fuel : nat) (crc : Z) (buf : list Z) : Z * list Z :=
  match fuel with
  | O => (crc, buf)
  | S fuel =>
      if 8 <=? Z.of_nat (length buf) then middleLoop fuel (wordStep crc (take 8 buf)) (drop 8 buf)
      else (crc, buf)
  end.

Definition crcLoops (crc addr : Z) (buf : list Z) : Z :=
  let '(crc, buf) := headLoop crc addr buf in
  let '(crc, buf) := middleLoop (length buf) crc buf in
  foldl byteStep crc buf.

End Loops.

Definition crcspeed64little (t : list (list Z)) (crc addr : Z) (buf : list Z) : Z :=
  crcLoops (littleByte t) (littleWord t) crc addr buf.

Definition crcspeed64big (t : list (list Z)) (crc addr : Z) (buf : list Z) : Z :=
  rev8 (crcLoops (bigByte t) (bigWord t) (rev8 crc) addr buf).

(** [*(char * )&n] for [n = 1] tells the byte order. *)
Definition crcspeed64native_init (fn : Z → list Z → Z) : list (list Z) :=
  match BYTE_ORDER with
  | LITTLE_ENDIAN => crcspeed64little_init fn
  | BIG_ENDIAN => crcspeed64big_init fn
  end.

Definition crcspeed64native (t : list (list Z)) (crc addr : Z) (buf : list Z) : Z :=
  match BYTE_ORDER with
  | LITTLE_ENDIAN => crcspeed64little t crc addr buf
  | BIG_ENDIAN => crcspeed64big t crc addr buf
  end.

(** The table after [crc64_init]. *)
Definition crc64_table : list (list Z) := crcspeed64native_init _crc64.

Definition crc64 (crc addr : Z) (s : list Z) : Z := crcspeed64native crc64_table crc addr s.

End Speed.

(** ** The reflected checksum

    Reading the words from the other end, a bit of the message is one step of a
    linear feedback shift register. *)

Definition word (x : Z) : Prop := 0 ≤ x < 2 ^ 64.
Definition byte (x : Z) : Prop := 0 ≤ x < 2 ^ 8.

Abbreviation reflect x := (crc_reflect x 64).
Definition RPOLY : Z := 0x95ac9329ac4bc9b5.

Definition rstep (x : Z) : Z := Z.lxor (Z.shiftr x 1) (if Z.odd x then RPOLY else 0).
Definition rsteps (n : nat) (x : Z) : Z := Nat.iter n rstep x.

Lemma word_bits x : 0 ≤ x → word x ↔ ∀ i, 64 ≤ i → Z.testbit x i = false.
Proof.
  intros Hx. split.
  - intros [_ Hlt] i Hi. destruct (decide (x = 0)) as [->|]; [apply Z.bits_0|].
    apply Z.bits_above_log2; [done|]. apply Z.lt_le_trans with 64; [|done]. apply Z.log2_lt_pow2; lia.
  - intros Hb. split; [done|]. destruct (decide (x = 0)) as [->|]; [done|].
    apply Z.log2_lt_pow2; [lia|]. destruct (Z.lt_ge_cases (Z.log2 x) 64); [done|].
    specialize (Hb (Z.log2 x) ltac:(lia)). by rewrite Z.bit_log2 in Hb by lia.
Qed.

Lemma word_high x i : word x → 64 ≤ i → Z.testbit x i = false.
Proof. intros Hx. apply word_bits; [apply Hx|done]. Qed.

Lemma word_eq a b : word a → word b → (∀ i, 0 ≤ i < 64 → Z.testbit a i = Z.testbit b i) → a = b.
Proof.
  intros Ha Hb Hbits. apply Z.bits_inj'. intros i Hi. destruct (Z.lt_ge_cases i 64); [by apply Hbits|].
  by rewrite !word_high.
Qed.

Lemma word_lxor a b : word a → word b → word (Z.lxor a b).
Proof.
  intros Ha Hb. apply word_bits; [apply Z.lxor_nonneg; destruct Ha, Hb; tauto|].
  intros i Hi. by rewrite Z.lxor_spec, !word_high.
Qed.

Lemma word_shiftr a n : 0 ≤ n → word a → word (Z.shiftr a n).
Proof.
  intros Hn Ha. apply word_bits; [apply Z.shiftr_nonneg, Ha|]. intros i Hi.
  rewrite Z.shiftr_spec by lia. apply word_high; [done|lia].
Qed.

Lemma byte_word b : byte b → word b.
Proof. unfold byte, word. lia. Qed.

Lemma u64_word x : word (u64 x).
Proof. pose proof (u64_range x). unfold word, ULLONG_MAX in *. lia. Qed.

Lemma u64_bits x i : 0 ≤ i → Z.testbit (u64 x) i = (i <? 64) && Z.testbit x i.
Proof.
  intros Hi. unfold u64. destruct (Z.ltb_spec i 64); [apply Z.mod_pow2_bits_low; lia|apply Z.mod_pow2_bits_high; lia].
Qed.

(** *** [crc_reflect] reverses the bits *)

Lemma land_1_bit x i : 0 ≤ i → Z.testbit (Z.land x 1) i = (i =? 0) && Z.testbit x 0.
Proof.
  intros Hi. rewrite Z.land_spec. destruct (Z.eqb_spec i 0) as [->|]; [by rewrite andb_true_r|].
  change 1 with (Z.ones 1). rewrite Z.ones_spec_high by lia. by rewrite andb_false_r.
Qed.

Lemma reflectLoop_bit n : ∀ data ret m i, 0 ≤ m → 0 ≤ ret < 2 ^ m → m + Z.of_nat n ≤ 64 → 0 ≤ i →
  Z.testbit (reflectLoop n data ret) i = if i <? Z.of_nat n then Z.testbit data (Z.of_nat n - i) else Z.testbit ret (i - Z.of_nat n).
Proof.
  induction n as [|n IH]; intros data ret m i Hm Hret Hn Hi; cbn [reflectLoop].
  { replace (i <? Z.of_nat 0) with false by lia. f_equal. lia. }
  assert (∀ j, 0 ≤ j → Z.testbit (Z.lor (u64 (Z.shiftl ret 1)) (Z.land (Z.shiftr data 1) 1)) j =
    if j =? 0 then Z.testbit data 1 else Z.testbit ret (j - 1)) as Hlow.
  { intros j Hj. rewrite Z.lor_spec, u64_bits, land_1_bit, Z.shiftl_spec, Z.shiftr_spec by lia.
    destruct (Z.eqb_spec j 0) as [->|]; [by rewrite Z.testbit_neg_r, andb_false_r by lia|].
    rewrite orb_false_r. destruct (Z.ltb_spec j 64); [done|]. symmetry.
    destruct (decide (ret = 0)) as [->|]; [apply Z.bits_0|]. apply Z.bits_above_log2; [lia|].
    assert (Z.log2 ret < m) by (apply Z.log2_lt_pow2; lia). lia. }
  rewrite (IH _ _ (m + 1)); [|lia| |lia|done].
  - destruct (Z.ltb_spec i (Z.of_nat n)).
    + replace (i <? _) with true by lia. rewrite Z.shiftr_spec by lia. f_equal. lia.
    + rewrite Hlow by lia. destruct (Z.eqb_spec (i - Z.of_nat n) 0).
      * replace (i <? _) with true by lia. f_equal. lia.
      * replace (i <? _) with false by lia. f_equal. lia.
  - assert (0 ≤ Z.lor (u64 (Z.shiftl ret 1)) (Z.land (Z.shiftr data 1) 1)).
    { apply Z.lor_nonneg. split; [apply u64_range|]. apply Z.land_nonneg. lia. }
    split; [done|]. set (r := Z.lor _ _) in *. destruct (decide (r = 0)) as [->|]; [apply Z.pow_pos_nonneg; lia|].
    apply Z.log2_lt_pow2; [lia|]. destruct (Z.lt_ge_cases (Z.log2 r) (m + 1)) as [|Hge]; [done|].
    pose proof (Z.bit_log2 r ltac:(lia)) as Hbit. rewrite Hlow in Hbit by lia. replace (_ =? 0) with false in Hbit by lia.
    destruct (decide (ret = 0)) as [->|]; [by rewrite Z.bits_0 in Hbit|].
    assert (Z.log2 ret < m) by (apply Z.log2_lt_pow2; lia). rewrite Z.bits_above_log2 in Hbit by lia. done.
Qed.

Lemma land_1_range x : 0 ≤ Z.land x 1 < 2 ^ 1.
Proof. change (Z.land x 1) with (Z.land x (Z.ones 1)). rewrite Z.land_ones by lia. by apply Z.mod_pos_bound. Qed.

Lemma reflect_bit x i : 0 ≤ i → Z.testbit (reflect x) i = (i <? 64) && Z.testbit x (63 - i).
Proof.
  intros Hi. unfold crc_reflect. rewrite (reflectLoop_bit _ _ _ 1); [|lia|apply land_1_range|done|done].
  change (Z.of_nat (64 - 1)) with 63. destruct (Z.ltb_spec i 63); [by replace (i <? 64) with true by lia|].
  rewrite land_1_bit by lia. destruct (Z.eqb_spec (i - 63) 0).
  - replace (i <? 64) with true by lia. cbn [andb]. f_equal. lia.
  - by replace (i <? 64) with false by lia.
Qed.

Lemma reflect_word x : word (reflect x).
Proof.
  apply word_bits.
  - apply Z.bits_iff_nonneg_ex. exists 64. intros i Hi. rewrite reflect_bit by lia. by replace (i <? 64) with false by lia.
  - intros i Hi. rewrite reflect_bit by lia. by replace (i <? 64) with false by lia.
Qed.

Lemma reflect_lxor a b : reflect (Z.lxor a b) = Z.lxor (reflect a) (reflect b).
Proof.
  apply word_eq; [apply reflect_word|apply word_lxor; apply reflect_word|]. intros i Hi.
  rewrite Z.lxor_spec, !reflect_bit, Z.lxor_spec by lia. by replace (i <? 64) with true by lia.
Qed.

Lemma reflect_reflect x : word x → reflect (reflect x) = x.
Proof.
  intros Hx. apply word_eq; [apply reflect_word|done|]. intros i Hi. rewrite !reflect_bit by lia.
  replace (i <? 64) with true by lia. replace (63 - i <? 64) with true by lia. cbn [andb]. f_equal. lia.
Qed.

(** *** Linearity *)

Lemma rstep_lxor a b : rstep (Z.lxor a b) = Z.lxor (rstep a) (rstep b).
Proof.
  apply Z.bits_inj'. intros i Hi. unfold rstep. rewrite !Z.lxor_spec, !Z.shiftr_spec, Z.lxor_spec by done.
  rewrite <-!Z.bit0_odd, Z.lxor_spec.
  destruct (Z.testbit a 0), (Z.testbit b 0); cbn [xorb]; rewrite ?Z.bits_0;
    by destruct (Z.testbit a (i + 1)), (Z.testbit b (i + 1)), (Z.testbit RPOLY i).
Qed.

Lemma rstep_word x : word x → word (rstep x).
Proof. intros Hx. apply word_lxor; [by apply word_shiftr|]. case_match; unfold word, RPOLY; lia. Qed.

Lemma rsteps_S n x : rsteps (S n) x = rsteps n (rstep x).
Proof. unfold rsteps. induction n as [|n IH]; [done|]. cbn in *. by rewrite IH. Qed.

Lemma rsteps_add n m x : rsteps (n + m) x = rsteps m (rsteps n x).
Proof. revert x. induction n as [|n IH]; intros x; [done|]. cbn [Nat.add]. by rewrite !rsteps_S, IH. Qed.

Lemma rsteps_lxor n a b : rsteps n (Z.lxor a b) = Z.lxor (rsteps n a) (rsteps n b).
Proof. revert a b. induction n as [|n IH]; intros a b; [done|]. by rewrite !rsteps_S, rstep_lxor, IH. Qed.

Lemma rsteps_word n x : word x → word (rsteps n x).
Proof. revert x. induction n as [|n IH]; intros x Hx; [done|]. rewrite rsteps_S. by apply IH, rstep_word. Qed.

Lemma rsteps_shiftl n x : rsteps n (Z.shiftl x (Z.of_nat n)) = x.
Proof.
  revert x. induction n as [|n IH]; intros x; [apply Z.shiftl_0_r|]. rewrite rsteps_S.
  replace (rstep (Z.shiftl x (Z.of_nat (S n)))) with (Z.shiftl x (Z.of_nat n)); [apply IH|].
  unfold rstep. rewrite <-Z.bit0_odd, Z.shiftl_spec_low, Z.lxor_0_r by lia.
  rewrite Z.shiftr_shiftl_l by lia. f_equal. lia.
Qed.

Lemma rsteps_shiftl8 x : rsteps 8 (Z.shiftl x 8) = x.
Proof. apply (rsteps_shiftl 8). Qed.

(** The low byte and the rest. *)
Lemma split_byte x : x = Z.lxor (Z.land x 255) (Z.shiftl (Z.shiftr x 8) 8).
Proof.
  apply Z.bits_inj'. intros i Hi. rewrite Z.lxor_spec, Z.land_spec. change 255 with (Z.ones 8).
  destruct (Z.lt_ge_cases i 8).
  - by rewrite Z.ones_spec_low, Z.shiftl_spec_low, andb_true_r, xorb_false_r by lia.
  - rewrite Z.ones_spec_high, Z.shiftl_spec, Z.shiftr_spec, andb_false_r by lia. cbn. f_equal. lia.
Qed.

Lemma rsteps_split n x : rsteps (8 + n) x = Z.lxor (rsteps (8 + n) (Z.land x 255)) (rsteps n (Z.shiftr x 8)).
Proof.
  rewrite (split_byte x) at 1. rewrite rsteps_lxor. f_equal.
  rewrite (rsteps_add 8). f_equal. apply (rsteps_shiftl 8).
Qed.

Lemma rsteps8_split x : rsteps 8 x = Z.lxor (rsteps 8 (Z.land x 255)) (Z.shiftr x 8).
Proof. apply (rsteps_split 0). Qed.

Lemma rsteps_split_eq n m x : m = (8 + n)%nat →
  rsteps m x = Z.lxor (rsteps m (Z.land x 255)) (rsteps n (Z.shiftr x 8)).
Proof. intros ->. apply rsteps_split. Qed.

(** A message of bytes. *)
Definition rbyte (r c : Z) : Z := rsteps 8 (Z.lxor r c).

Lemma rbyte_word r c : word r → byte c → word (rbyte r c).
Proof. intros Hr Hc. by apply rsteps_word, word_lxor, byte_word. Qed.

Lemma unle_cons b bs : byte b → unle (b :: bs) = Z.lxor b (Z.shiftl (unle bs) 8).
Proof.
  intros Hb. unfold unle. cbn [little_endian_to_Z]. rewrite <-Z.lxor_lor; [done|].
  apply Z.bits_inj'. intros i Hi. rewrite Z.land_spec, Z.bits_0. destruct (Z.lt_ge_cases i 8).
  - by rewrite Z.shiftl_spec_low, andb_false_r by lia.
  - replace (Z.testbit b i) with false; [done|]. symmetry. destruct (decide (b = 0)) as [->|]; [apply Z.bits_0|].
    destruct Hb. apply Z.bits_above_log2; [done|]. assert (Z.log2 b < 8) by (apply Z.log2_lt_pow2; lia). lia.
Qed.

Lemma rbytes_word r bs : Forall byte bs → foldl rbyte r bs = rsteps (8 * length bs) (Z.lxor r (unle bs)).
Proof.
  intros Hbs. revert r. induction Hbs as [|b bs Hb Hbs IH]; intros r; [by cbn; rewrite Z.lxor_0_r|].
  cbn [foldl length]. rewrite IH, unle_cons, <-Z.lxor_assoc by done.
  replace (8 * S (length bs))%nat with (8 + 8 * length bs)%nat by lia. rewrite rsteps_add.
  by rewrite (rsteps_lxor 8 (Z.lxor r b)), rsteps_shiftl8.
Qed.

(** *** The bit by bit checksum *)

Lemma land_pow2 x i : 0 ≤ i → (Z.land x (2 ^ i) =? 0) = negb (Z.testbit x i).
Proof.
  intros Hi. destruct (Z.testbit x i) eqn:Hb; cbn.
  - apply Z.eqb_neq. intros Hz. apply (f_equal (λ z, Z.testbit z i)) in Hz.
    by rewrite Z.land_spec, Hb, Z.pow2_bits_true, Z.bits_0 in Hz.
  - apply Z.eqb_eq, Z.bits_inj'. intros j Hj. rewrite Z.land_spec, Z.bits_0.
    destruct (decide (j = i)) as [->|]; [by rewrite Hb|]. by rewrite Z.pow2_bits_false, andb_false_r by lia.
Qed.

Lemma reflect_shiftl x : word x → reflect (u64 (Z.shiftl x 1)) = Z.shiftr (reflect x) 1.
Proof.
  intros Hx. apply word_eq; [apply reflect_word|apply word_shiftr; [done|apply reflect_word]|]. intros i Hi.
  rewrite Z.shiftr_spec, !reflect_bit, u64_bits by lia. replace (i <? 64) with true by lia. replace (63 - i <? 64) with true by lia.
  rewrite Z.shiftl_spec by lia. destruct (Z.ltb_spec (i + 1) 64); cbn; [f_equal; lia|].
  by rewrite Z.testbit_neg_r by lia.
Qed.

Lemma reflect_POLY : reflect POLY = RPOLY.
Proof. vm_compute. reflexivity. Qed.

Lemma reflect_0 : reflect 0 = 0.
Proof. vm_compute. reflexivity. Qed.
#[local] Opaque crc_reflect RPOLY POLY.

Lemma crcBit_word crc c i : word (crcBit crc c i).
Proof.
  unfold crcBit. set (b := if Z.land c i =? 0 then _ else _). destruct b; [|apply u64_word].
  apply word_lxor; [apply u64_word|]. done.
Qed.

Lemma reflect_crcBit crc c i : word crc → 0 ≤ i →
  reflect (crcBit crc c (2 ^ i)) = rstep (Z.lxor (reflect crc) (Z.b2z (Z.testbit c i))).
Proof.
  intros Hw Hi. unfold crcBit. change 0x8000000000000000 with (2 ^ 63). rewrite !land_pow2 by lia. rewrite negb_involutive.
  unfold rstep. rewrite Z.shiftr_lxor, <-Z.bit0_odd, Z.lxor_spec, reflect_bit by lia. cbn [Z.ltb Z.compare andb].
  replace (63 - 0) with 63 by lia. rewrite <-(reflect_shiftl crc Hw), <-reflect_POLY.
  assert (Z.shiftr (Z.b2z (Z.testbit c i)) 1 = 0 ∧ Z.testbit (Z.b2z (Z.testbit c i)) 0 = Z.testbit c i) as [-> ->]
    by by destruct (Z.testbit c i).
  rewrite Z.lxor_0_r. destruct (Z.testbit c i), (Z.testbit crc 63); cbn [negb xorb]; by rewrite ?reflect_lxor, ?Z.lxor_0_r.
Qed.

Lemma b2z_bit b j : 0 < j → Z.testbit (Z.b2z b) j = false.
Proof. intros Hj. destruct b; [apply (Z.bits_above_log2 1 j); cbn; lia|apply Z.bits_0]. Qed.

(** The bits of a byte one after the other are the byte at once. *)
Fixpoint bitLoop (n : nat) (i : Z) (r c : Z) : Z :=
  match n with
  | O => r
  | S n => bitLoop n (i + 1) (rstep (Z.lxor r (Z.b2z (Z.testbit c i)))) c
  end.

Lemma bitLoop_rsteps n : ∀ i r c, 0 ≤ i → 0 ≤ c < 2 ^ (i + Z.of_nat n) → bitLoop n i r c = rsteps n (Z.lxor r (Z.shiftr c i)).
Proof.
  induction n as [|n IH]; intros i r c Hi Hc; cbn [bitLoop].
  - rewrite Z.add_0_r in Hc. rewrite Z.shiftr_div_pow2, Z.div_small, Z.lxor_0_r by lia. done.
  - replace (i + Z.of_nat (S n)) with (i + 1 + Z.of_nat n) in Hc by lia. rewrite IH by lia. rewrite rsteps_S. f_equal.
    assert (Z.shiftr c i = Z.lxor (Z.b2z (Z.testbit c i)) (Z.shiftl (Z.shiftr c (i + 1)) 1)) as ->.
    { apply Z.bits_inj'. intros j Hj. rewrite Z.lxor_spec, Z.shiftr_spec by done. destruct (decide (j = 0)) as [->|].
      - rewrite Z.shiftl_spec_low by lia. rewrite xorb_false_r, Z.add_0_l. by destruct (Z.testbit c i).
      - rewrite Z.shiftl_spec, Z.shiftr_spec by lia. rewrite b2z_bit by lia. cbn [xorb]. f_equal. lia. }
    rewrite <-Z.lxor_assoc, (rstep_lxor (Z.lxor r _) (Z.shiftl _ _)). f_equal. symmetry. apply (rsteps_shiftl 1).
Qed.

Lemma bitLoop_0 i r c : bitLoop 0 i r c = r.
Proof. done. Qed.

Lemma bitLoop_S n i r c : bitLoop (S n) i r c = bitLoop n (i + 1) (rstep (Z.lxor r (Z.b2z (Z.testbit c i)))) c.
Proof. done. Qed.

Lemma reflect_bits c (n : nat) : ∀ i crc crc', word crc → 0 ≤ i →
  crc' = foldl (λ crc i, crcBit crc c i) crc ((λ j, 2 ^ j) <$> seqZ i (Z.of_nat n)) →
  word crc' ∧ reflect crc' = bitLoop n i (reflect crc) c.
Proof.
  induction n as [|n IH]; intros i crc crc' Hw Hi Heq; [rewrite bitLoop_0; cbn in Heq; subst crc'; split; [exact Hw|reflexivity]|]. rewrite seqZ_cons in Heq by lia.
  replace (Z.pred (Z.of_nat (S n))) with (Z.of_nat n) in Heq by lia. cbn [fmap list_fmap foldl] in Heq.
  apply IH in Heq as [Hw' Hr]; [|apply crcBit_word|lia]. rewrite reflect_crcBit in Hr by done.
  rewrite bitLoop_S, Z.add_1_r. exact (conj Hw' Hr).
Qed.

Lemma reflect_crcByte crc c : word crc → byte c → word (crcByte crc c) ∧ reflect (crcByte crc c) = rbyte (reflect crc) c.
Proof.
  intros Hw Hc. unfold crcByte. set (crc8 := foldl _ _ _).
  destruct (reflect_bits c 8 0 crc crc8 Hw) as [Hw8 Hr]; [done|done|]. clearbody crc8. rewrite bitLoop_rsteps, Z.shiftr_0_r in Hr by (unfold byte in Hc; lia).
  change 0xffffffffffffffff with (Z.ones 64). rewrite Z.land_ones, Z.mod_small by (done || lia). done.
Qed.

Lemma crc64_bitwise crc bs : word crc → Forall byte bs → _crc64 crc bs = foldl rbyte (reflect crc) bs.
Proof.
  intros Hw Hbs. unfold _crc64. rewrite Z.lxor_0_r.
  assert (word (foldl crcByte crc bs) ∧ reflect (foldl crcByte crc bs) = foldl rbyte (reflect crc) bs) as [Hw' <-].
  { revert crc Hw. induction Hbs as [|b bs Hb Hbs IH]; intros crc Hw; [done|]. cbn [foldl].
    destruct (reflect_crcByte crc b Hw Hb) as [Hw' <-]. by apply IH. }
  change 0xffffffffffffffff with (Z.ones 64). rewrite Z.land_ones, Z.mod_small by (done || lia). reflexivity.
Qed.

(** ** The three loops are one loop over the bytes *)

Section OneLoop.
Context (P : Z → Prop) (f : Z → Z → Z) (bs : Z → Z → Z) (ws : Z → list Z → Z).
Context (f_P : ∀ crc b, P crc → byte b → P (f crc b)).
Context (bs_f : ∀ crc b, P crc → byte b → bs crc b = f crc b).
Context (ws_f : ∀ crc w, P crc → length w = 8%nat → Forall byte w → ws crc w = foldl f crc w).

Lemma fold_P buf : Forall byte buf → ∀ crc, P crc → P (foldl f crc buf).
Proof using f_P. induction 1 as [|b buf Hb _ IH]; intros crc Hc; [done|]. by apply IH, f_P. Qed.

Lemma headLoop_bytes buf : Forall byte buf → ∀ crc addr, P crc →
  ∃ crc1 buf1, headLoop bs crc addr buf = (crc1, buf1) ∧ P crc1 ∧ Forall byte buf1 ∧ foldl f crc1 buf1 = foldl f crc buf.
Proof using f_P bs_f.
  induction 1 as [|b buf Hb Hbuf IH]; intros crc addr Hc; cbn [headLoop]; [by eexists _, _|].
  case_match; [exists crc, (b :: buf); split_and!; [done|done|by constructor|done]|].
  rewrite bs_f by done. destruct (IH (f crc b) (addr + 1)) as (crc1 & buf1 & -> & ? & ? & Heq); [by apply f_P|].
  by exists crc1, buf1.
Qed.

Lemma middleLoop_bytes fuel : ∀ crc buf, P crc → Forall byte buf →
  ∃ crc2 buf2, middleLoop ws fuel crc buf = (crc2, buf2) ∧ P crc2 ∧ Forall byte buf2 ∧ foldl f crc2 buf2 = foldl f crc buf.
Proof using f_P ws_f.
  induction fuel as [|fuel IH]; intros crc buf Hc Hb; cbn [middleLoop]; [by eexists _, _|].
  destruct (Z.leb_spec 8 (Z.of_nat (length buf))); [|by eexists _, _].
  assert (Forall byte (take 8 buf) ∧ Forall byte (drop 8 buf)) as [Ht Hd] by by split; [apply Forall_take|apply Forall_drop].
  rewrite ws_f by (done || rewrite length_take; lia).
  destruct (IH (foldl f crc (take 8 buf)) (drop 8 buf)) as (crc2 & buf2 & -> & ? & ? & Heq); [by apply fold_P|done|].
  exists crc2, buf2. split_and!; [done..|]. by rewrite Heq, <-foldl_app, take_drop.
Qed.

Lemma crcLoops_bytes addr buf : Forall byte buf → ∀ crc, P crc → crcLoops bs ws crc addr buf = foldl f crc buf.
Proof using All.
  intros Hbuf crc Hc. unfold crcLoops.
  destruct (headLoop_bytes buf Hbuf crc addr Hc) as (crc1 & buf1 & -> & Hc1 & Hb1 & <-).
  destruct (middleLoop_bytes (length buf1) crc1 buf1 Hc1 Hb1) as (crc2 & buf2 & -> & Hc2 & Hb2 & <-). clear Hb1 Hc1.
  revert crc2 Hc2. induction Hb2 as [|b buf2 Hb _ IH]; intros crc2 Hc2; [done|]. cbn [foldl]. rewrite bs_f by done.
  by apply IH, f_P.
Qed.

End OneLoop.

(** ** The tables on a little-endian host *)

Lemma land_255_byte x : byte (Z.land x 255).
Proof. change 255 with (Z.ones 8). rewrite Z.land_ones by lia. unfold byte. by apply Z.mod_pos_bound. Qed.

Lemma land_255_id x : byte x → Z.land x 255 = x.
Proof. intros Hx. change 255 with (Z.ones 8). rewrite Z.land_ones by lia. by apply Z.mod_small. Qed.

Lemma map_seqZ_lookup {A} `{Inhabited A} (f : Z → A) n : 0 ≤ n < 256 → map f (seqZ 0 256) !!! Z.to_nat n = f n.
Proof.
  intros Hn. apply list_lookup_total_correct. rewrite list_lookup_fmap, lookup_seqZ_lt by lia. cbn. do 2 f_equal. lia.
Qed.

Section Little.
#[local] Existing Instance littleHost.

Definition stepTable (t0 : list Z) : Prop := ∀ n, byte n → t0 !!! Z.to_nat n = rsteps 8 n.

Lemma firstByte_little n : byte n → firstByte n = [n].
Proof.
  intros Hn. change (firstByte n) with [Z.land n 255]. by rewrite land_255_id.
Qed.

Lemma table0_little : stepTable (map (λ n, _crc64 0 (firstByte n)) (seqZ 0 256)).
Proof.
  intros n Hn. rewrite map_seqZ_lookup by (unfold byte in Hn; lia). rewrite firstByte_little, crc64_bitwise by (done || by apply Forall_singleton).
  rewrite reflect_0. cbn [foldl]. unfold rbyte. by rewrite Z.lxor_0_l.
Qed.

Lemma table_step t0 x : stepTable t0 → Z.lxor (t0 !!! Z.to_nat (Z.land x 255)) (Z.shiftr x 8) = rsteps 8 x.
Proof.
  intros Ht. rewrite Ht by apply land_255_byte. by rewrite <-rsteps8_split.
Qed.

Lemma nestedLoop_lookup t0 k : stepTable t0 → ∀ crc j, (j < k)%nat → nestedLoop k t0 crc !!! j = rsteps (8 * S j) crc.
Proof.
  intros Ht. induction k as [|k IH]; intros crc j Hj; [lia|]. cbn [nestedLoop]. rewrite (table_step t0 crc Ht).
  destruct j as [|j]; [done|]. cbn [lookup_total list_lookup_total]. rewrite IH by lia.
  rewrite <-rsteps_add. f_equal. lia.
Qed.

Lemma table_little k n : 0 ≤ k < 8 → byte n →
  tableAt (crcspeed64little_init _crc64) k n = rsteps (8 * S (Z.to_nat k)) n.
Proof.
  intros Hk Hn. unfold tableAt, crcspeed64little_init. pose proof table0_little as Ht0.
  set (t0 := map (λ n, _crc64 0 (firstByte n)) (seqZ 0 256)) in *. clearbody t0.
  destruct (Z.to_nat k) as [|j] eqn:Hj; [by rewrite <-Ht0|].
  rewrite (list_lookup_total_correct (t0 :: _) (S j) (map (λ l : list Z, l !!! j)
    (map (λ n, nestedLoop 7 t0 (t0 !!! Z.to_nat n)) (seqZ 0 256)))).
  2: { rewrite lookup_cons, list_lookup_fmap, lookup_seq_lt by lia. done. }
  rewrite map_map, map_seqZ_lookup by (unfold byte in Hn; lia). rewrite nestedLoop_lookup, Ht0 by (done || lia).
  rewrite <-rsteps_add. f_equal. lia.
Qed.

Lemma littleByte_step crc b : byte b → littleByte (crcspeed64little_init _crc64) crc b = rbyte crc b.
Proof.
  intros Hb. unfold littleByte, rbyte. rewrite table_little by (done || apply land_255_byte).
  rewrite (rsteps8_split (Z.lxor crc b)), Z.shiftr_lxor. f_equal.
  assert (Z.shiftr b 8 = 0) as ->; [|by rewrite Z.lxor_0_r].
  rewrite Z.shiftr_div_pow2 by lia. by apply Z.div_small.
Qed.

Lemma littleWord_step crc w : word crc → length w = 8%nat → Forall byte w →
  littleWord (crcspeed64little_init _crc64) crc w = foldl rbyte crc w.
Proof.
  intros Hw Hl Hb. rewrite rbytes_word, Hl by done. unfold littleWord. change (hostInt w) with (unle w).
  assert (word (Z.lxor crc (unle w))) as Hx.
  { apply word_lxor; [done|]. pose proof (little_endian_to_Z_bound 8 w ltac:(lia)) as Hbd. rewrite Hl in Hbd. unfold word, unle. apply Hbd.
    eapply Forall_impl; [done|]. done. }
  set (x := Z.lxor crc (unle w)) in *. clearbody x.
  assert (byte (Z.shiftr x 56)) as H56.
  { unfold byte, word in *. rewrite Z.shiftr_div_pow2 by lia. split; [apply Z.div_pos; lia|apply Z.div_lt_upper_bound; lia]. }
  rewrite !table_little by (done || apply land_255_byte).
  rewrite (rsteps_split_eq 56 (8 * 8) x) by done. f_equal. rewrite (rsteps_split_eq 48 56 (Z.shiftr x 8)) by done. f_equal.
  rewrite Z.shiftr_shiftr by lia. change (8 + 8) with 16. rewrite (rsteps_split_eq 40 48 (Z.shiftr x 16)) by (done || lia). f_equal.
  rewrite Z.shiftr_shiftr by lia. change (16 + 8) with 24. rewrite (rsteps_split_eq 32 40 (Z.shiftr x 24)) by (done || lia). f_equal.
  rewrite Z.shiftr_shiftr by lia. change (24 + 8) with 32. rewrite (rsteps_split_eq 24 32 (Z.shiftr x 32)) by (done || lia). f_equal.
  rewrite Z.shiftr_shiftr by lia. change (32 + 8) with 40. rewrite (rsteps_split_eq 16 24 (Z.shiftr x 40)) by (done || lia). f_equal.
  rewrite Z.shiftr_shiftr by lia. change (40 + 8) with 48. rewrite (rsteps_split_eq 8 16 (Z.shiftr x 48)) by (done || lia). f_equal.
Qed.

Lemma crc64_little crc addr buf : word crc → Forall byte buf → crc64 crc addr buf = foldl rbyte crc buf.
Proof.
  intros Hw Hb. unfold crc64, crcspeed64native, crc64_table, crcspeed64native_init. cbn [BYTE_ORDER littleHost].
  unfold crcspeed64little. apply (crcLoops_bytes word); [..|done|done].
  - apply rbyte_word.
  - intros. by apply littleByte_step.
  - apply littleWord_step.
Qed.

End Little.

(** ** The tables on a big-endian host

    [crcfn(0, &n, 1)] reads the first byte of an [int], which is not the low one. *)

Section Big.
#[local] Existing Instance bigHost.

Lemma crc64_table_big : crc64_table = replicate 8 (replicate 256 0).
Proof. vm_compute. reflexivity. Qed.

Lemma tableAt_zero k n : 0 ≤ k < 8 → byte n → tableAt (replicate 8 (replicate 256 0)) k n = 0.
Proof. unfold byte, tableAt. intros Hk Hn. by rewrite !lookup_total_replicate_2 by lia. Qed.

Lemma bigWord_zero w : length w = 8%nat → Forall byte w → bigWord (replicate 8 (replicate 256 0)) 0 w = 0.
Proof.
  intros Hl Hb. unfold bigWord. rewrite Z.lxor_0_l. change (hostInt w) with (unle (reverse w)).
  assert (byte (Z.shiftr (unle (reverse w)) 56)).
  { pose proof (little_endian_to_Z_bound 8 (reverse w) ltac:(lia)) as Hbd. rewrite length_reverse, Hl in Hbd.
    destruct Hbd as [Hlo Hhi]; [by apply Forall_reverse|]. unfold byte, unle. rewrite Z.shiftr_div_pow2 by lia.
    split; [apply Z.div_pos; lia|by apply Z.div_lt_upper_bound]. }
  by rewrite !tableAt_zero by (done || apply land_255_byte).
Qed.

Lemma crc64_big_zero addr buf : Forall byte buf → crc64 0 addr buf = 0.
Proof.
  intros Hb. unfold crc64. rewrite crc64_table_big. unfold crcspeed64native. cbn [BYTE_ORDER bigHost]. unfold crcspeed64big.
  change (rev8 0) with 0. rewrite (crcLoops_bytes (λ c, c = 0) (λ _ _, 0)); [|done|..|done|done].
  - by induction Hb.
  - intros crc b -> Hbb. unfold bigByte. by rewrite tableAt_zero by (rewrite ?Z.lxor_0_l; done || lia).
  - intros crc w -> Hl Hw. rewrite bigWord_zero by done. clear. by induction w.
Qed.

End Big.

(** ** Errors are detected *)

Lemma rstep_inj a b : word a → word b → rstep a = rstep b → a = b.
Proof.
  intros Ha Hb Heq.
  assert (∀ x, word x → Z.testbit (rstep x) 63 = Z.odd x) as Htop.
  { intros x Hx. unfold rstep. rewrite Z.lxor_spec, Z.shiftr_spec by lia. rewrite (word_high x) by (done || lia).
    destruct (Z.odd x); [done|]. by rewrite Z.bits_0. }
  assert (Z.odd a = Z.odd b) as Hodd by by rewrite <-!Htop, Heq.
  apply word_eq; [done|done|]. intros i Hi. destruct (decide (i = 0)) as [->|]; [by rewrite !Z.bit0_odd|].
  apply (f_equal (λ z, Z.testbit z (i - 1))) in Heq. unfold rstep in Heq.
  rewrite !Z.lxor_spec, !Z.shiftr_spec, Hodd in Heq by lia. replace (i - 1 + 1) with i in Heq by lia.
  by destruct (Z.testbit a i), (Z.testbit b i), (Z.testbit (if Z.odd b then RPOLY else 0) (i - 1)).
Qed.

#[local] Opaque rsteps rstep.
Lemma rsteps_inj n a b : word a → word b → rsteps n a = rsteps n b → a = b.
Proof.
  revert a b. induction n as [|n IH]; intros a b Ha Hb Heq; [exact Heq|]. rewrite !rsteps_S in Heq.
  apply rstep_inj; [done|done|]. apply IH; [by apply rstep_word..|done].
Qed.

Lemma lxor_cancel_r a b c : Z.lxor a c = Z.lxor b c → a = b.
Proof.
  intros Heq. apply (f_equal (λ z, Z.lxor z c)) in Heq.
  by rewrite !Z.lxor_assoc, Z.lxor_nilpotent, !Z.lxor_0_r in Heq.
Qed.

Lemma rbytes_inj bs : Forall byte bs → ∀ a b, word a → word b → foldl rbyte a bs = foldl rbyte b bs → a = b.
Proof.
  induction 1 as [|c bs Hc _ IH]; intros a b Ha Hb Heq; [done|]. cbn [foldl] in Heq.
  apply IH in Heq; [|by apply rbyte_word..]. unfold rbyte in Heq. apply rsteps_inj in Heq; [|by apply word_lxor, byte_word..].
  by apply lxor_cancel_r in Heq.
Qed.

Lemma rbytes_keep bs r : Forall byte bs → word r → word (foldl rbyte r bs).
Proof. intros Hbs. revert r. induction Hbs as [|b l Hb _ IH]; intros r Hr; [done|]. by apply IH, rbyte_word. Qed.

(** One changed byte changes the checksum. *)
Lemma rbytes_changed r a b x y : word r → Forall byte a → Forall byte b → byte x → byte y → x ≠ y →
  foldl rbyte r (a ++ x :: b) ≠ foldl rbyte r (a ++ y :: b).
Proof.
  intros Hr Ha Hb Hx Hy Hne Heq. pose proof (rbytes_keep a r Ha Hr) as Hk. rewrite !foldl_app in Heq. cbn [foldl] in Heq.
  apply (rbytes_inj b Hb) in Heq; [|by apply rbyte_word..]. unfold rbyte in Heq.
  apply rsteps_inj in Heq; [|by apply word_lxor, byte_word..]. rewrite !(Z.lxor_comm (foldl _ _ _)) in Heq.
  by apply lxor_cancel_r in Heq.
Qed.

(** C38. On a little endian machine the table-driven checksum that takes eight bytes at
    a time is the bit-by-bit checksum, wherever the data is in memory; it can be
    computed in pieces, and changing one byte changes it. On a big endian machine it
    is always 0. *)
Theorem crc64_is_bitwise_crc (crc addr : Z) (a b : list Z) : word crc → Forall byte a → Forall byte b →
  crc64 (H := littleHost) crc addr a = _crc64 (crc_reflect crc 64) a ∧
  crc64 (H := littleHost) (crc64 (H := littleHost) crc addr a) addr b = crc64 (H := littleHost) crc addr (a ++ b) ∧
  (∀ x y, byte x → byte y → x ≠ y →
     crc64 (H := littleHost) crc addr (a ++ x :: b) ≠ crc64 (H := littleHost) crc addr (a ++ y :: b)) ∧
  crc64 (H := bigHost) 0 addr a = 0.
Proof.
  intros Hw Ha Hb. pose proof (rbytes_keep a crc Ha Hw) as Hk.
  assert (∀ x, byte x → Forall byte (a ++ x :: b)) as Hab by (intros x Hx; by apply Forall_app; split; [|constructor]).
  split_and!.
  - rewrite crc64_little, crc64_bitwise, reflect_reflect by (done || apply reflect_word). done.
  - rewrite (crc64_little crc addr a), (crc64_little _ addr b), (crc64_little crc addr (a ++ b)) by (done || by apply Forall_app).
    by rewrite foldl_app.
  - intros x y Hx Hy Hne. rewrite !crc64_little by (done || by apply Hab). by apply rbytes_changed.
  - by apply crc64_big_zero.
Qed.

(** The check value of crc64.c: the checksum of 123456789. *)
Lemma crc64_is_bitwise_crc_witness :
  crc64 (H := littleHost) 0 3 [49; 50; 51; 52; 53; 54; 55; 56; 57] = 0xe9c6d914c4b8d9ca ∧
  crc64 (H := bigHost) 0 3 [49; 50; 51; 52; 53; 54; 55; 56; 57] = 0.
Proof.
  destruct (crc64_is_bitwise_crc 0 3 [49; 50; 51; 52; 53; 54; 55; 56; 57] []) as (Hl & _ & _ & Hb).
  - split; [reflexivity|reflexivity].
  - unfold byte. repeat (constructor; [lia|]). constructor.
  - constructor.
  - split; [rewrite Hl; vm_compute; reflexivity|exact Hb].
Defined.
