(* ===== verification/Lzf.v ===== *)
(** * Lzf: the compression of strings, src/src/lzf_c.c and lzf_d.c

    The compressor and the decompressor on byte arrays, with every access checked:
    a read outside the input or a write outside the output is a fault.  Pointers
    are offsets from the start of their array.  The configuration is that of
    src/src/lzfP.h on 64-bit hosts: [HLOG] is 16, [VERY_FAST], hash slots are 32-bit
    offsets, and the hash table is not initialised, so its first contents are an
    argument. *)

From stdpp Require Import base tactics option strings numbers list.
From S2P Require Import Prelude.

Local Open Scope Z_scope.

Definition u8 (z : Z) : Z := z mod 2 ^ 8.

Definition HLOG : Z := 16.
Definition HSIZE : Z := Z.shiftl 1 HLOG.
Definition MAX_LIT : Z := Z.shiftl 1 5.
Definition MAX_OFF : Z := Z.shiftl 1 13.
Definition MAX_REF : Z := Z.shiftl 1 8 + Z.shiftl 1 3.

(** ** The compressor *)

Record lzf := mkLzf {
  htab : Z → Z;
  ip : Z;
  op : Z;
  lit : Z;
  hval : Z;
  out : list Z }.

Definition set_ip (v : Z) (s : lzf) : lzf := mkLzf (htab s) v (op s) (lit s) (hval s) (out s).
Definition set_op (v : Z) (s : lzf) : lzf := mkLzf (htab s) (ip s) v (lit s) (hval s) (out s).
Definition set_lit (v : Z) (s : lzf) : lzf := mkLzf (htab s) (ip s) (op s) v (hval s) (out s).
Definition set_out (v : list Z) (s : lzf) : lzf := mkLzf (htab s) (ip s) (op s) (lit s) (hval s) v.
Definition set_hval (v : Z) (s : lzf) : lzf := mkLzf (htab s) (ip s) (op s) (lit s) v (out s).
(** [hval = h; htab[i] = v] *)
Definition set_slot (h i v : Z) (s : lzf) : lzf :=
  mkLzf (λ j, if j =? i then v else htab s j) (ip s) (op s) (lit s) h (out s).

(** What a turn of the main loop does next. *)
Inductive turn := NextTurn | LeaveLoop | ReturnZero.

Section Compress.
Context (in_data : list Z).
Notation lzfM := (M lzf).

Definition in_end : Z := Z.of_nat (length in_data).
Definition out_end (s : lzf) : Z := Z.of_nat (length (out s)).

Definition inAt (i : Z) : lzfM Z :=
  deref (if i <? 0 then None else in_data !! Z.to_nat i) "lzf_compress: in_data".

Definition outPut (i c : Z) : lzfM unit :=
  s ← get;
  if (0 <=? i) && (i <? out_end s) then put (set_out (<[Z.to_nat i := u8 c]> (out s)) s)
  else fail (BadPointer "lzf_compress: out_data").

(** [*op++ = c] *)
Definition putByte (c : Z) : lzfM unit :=
  s ← get;
  outPut (op s) c ;;
  modify (set_op (op s + 1)).

Definition FRST (p : Z) : lzfM Z :=
  a ← inAt p;
  b ← inAt (p + 1);
  mret (Z.lor (Z.shiftl a 8) b).

Definition NEXT (v p : Z) : lzfM Z :=
  c ← inAt (p + 2);
  mret (Z.lor (u32 (Z.shiftl v 8)) c).

Definition IDX (h : Z) : Z := Z.land (u32 (Z.shiftr h (3 * 8 - HLOG) - h * 5)) (HSIZE - 1).

(** [op [- lit - 1] = lit - 1], [lit = 0; op++] and [op -= !lit] *)
Definition stopRun : lzfM unit := s ← get; outPut (op s - lit s - 1) (lit s - 1).
Definition startRun : lzfM unit := modify (λ s, set_lit 0 (set_op (op s + 1) s)).
Definition undoRun : lzfM unit := modify (λ s, set_op (op s - (if lit s =? 0 then 1 else 0)) s).

(** One more literal byte. *)
Definition copyLiteral : lzfM unit :=
  s ← get;
  c ← inAt (ip s);
  put (set_lit (lit s + 1) s) ;;
  putByte c ;;
  modify (set_ip (ip s + 1)) ;;
  s ← get;
  if lit s =? MAX_LIT then stopRun ;; startRun else mret tt.

(** The sixteen unrolled comparisons: the length, and whether there was a
    difference. *)
Fixpoint unrolled (n : nat) (ref p len : Z) : lzfM (Z * bool) :=
  match n with
  | O => mret (len, false)
  | S n =>
      let len := len + 1 in
      a ← inAt (ref + len);
      b ← inAt (p + len);
      if a =? b then unrolled n ref p len else mret (len, true)
  end.

(** [do len++; while (len < maxlen && ref[len] == ip[len])]: at most [MAX_REF] rounds. *)
Fixpoint compareLoop (fuel : nat) (ref p maxlen len : Z) : lzfM Z :=
  match fuel with
  | O => fail (AssertFailed "lzf_compress: fuel")
  | S fuel =>
      let len := len + 1 in
      if len <? maxlen then
        a ← inAt (ref + len);
        b ← inAt (p + len);
        if a =? b then compareLoop fuel ref p maxlen len else mret len
      else mret len
  end.

Definition matchLength (ref p maxlen : Z) : lzfM Z :=
  r ← (if 16 <? maxlen then unrolled 16 ref p 2 else mret (2, false));
  let '(len, differ) := r in
  if (differ : bool) then mret len else compareLoop (Z.to_nat MAX_REF) ref p maxlen len.

(** The comparison of [ref[2]] and [ip[2]], and of the first two bytes as a [u16]. *)
Definition sameThree (ref p : Z) : lzfM bool :=
  a2 ← inAt (ref + 2);
  b2 ← inAt (p + 2);
  if negb (a2 =? b2) then mret false else
  a0 ← inAt ref;
  a1 ← inAt (ref + 1);
  b0 ← inAt p;
  b1 ← inAt (p + 1);
  mret ((a0 =? b0) && (a1 =? b1)).

(** [hval = NEXT (hval, ip); htab[IDX (hval)] = ip - LZF_HSLOT_BIAS]; the old slot. *)
Definition nextSlot : lzfM Z :=
  s ← get;
  h ← NEXT (hval s) (ip s);
  put (set_slot h (IDX h) (u32 (ip s)) s) ;;
  mret (htab s (IDX h)).

(** The two or three bytes of a back reference. *)
Definition putRef (off len : Z) : lzfM unit :=
  (if len <? 7 then putByte (Z.shiftr off 8 + Z.shiftl len 5)
   else putByte (Z.shiftr off 8 + Z.shiftl 7 5) ;; putByte (len - 7)) ;;
  putByte off.

(** The last two positions of a match are put in the hash table. *)
Definition insertTwo (p : Z) : lzfM unit :=
  modify (set_ip (p - 2)) ;;
  h ← FRST (p - 2);
  modify (set_hval h) ;;
  nextSlot ;;
  modify (set_ip (p - 1)) ;;
  nextSlot ;;
  modify (set_ip p).

(** A match at [ref] of the bytes at [ip]. *)
Definition emitMatch (ref off : Z) : lzfM turn :=
  s ← get;
  let p := ip s in
  let maxlen := u32 (in_end - p - 2) in
  let maxlen := if MAX_REF <? maxlen then MAX_REF else maxlen in
  if (out_end s <=? op s + 3 + 1) &&
     (out_end s <=? op s - (if lit s =? 0 then 1 else 0) + 3 + 1) then mret ReturnZero else
  stopRun ;;
  undoRun ;;
  len ← matchLength ref p maxlen;
  let len := len - 2 in
  putRef off len ;;
  startRun ;;
  let p := p + 1 + (len + 1) in
  modify (set_ip p) ;;
  if in_end - 2 <=? p then mret LeaveLoop else
  insertTwo p ;;
  mret NextTurn.

(** A turn of the main loop. *)
Definition compressTurn : lzfM turn :=
  s ← get;
  ref ← nextSlot;
  let off := u64 (ip s - ref - 1) in
  found ← (if (off <? MAX_OFF) && (0 <? ref) then sameThree ref (ip s) else mret false);
  if (found : bool) then emitMatch ref off
  else if out_end s <=? op s then mret ReturnZero
  else copyLiteral ;; mret NextTurn.

(** [while (ip < in_end)]: at most two bytes are left. *)
Fixpoint copyRest (fuel : nat) : lzfM unit :=
  s ← get;
  if ip s <? in_end then
    match fuel with
    | O => fail (AssertFailed "lzf_compress: fuel")
    | S fuel => copyLiteral ;; copyRest fuel
    end
  else mret tt.

Definition finish : lzfM Z :=
  s ← get;
  if out_end s <? op s + 3 then mret 0 else
  copyRest 2 ;;
  stopRun ;;
  undoRun ;;
  gets op.

(** Every turn takes at least one byte of the input. *)
Fixpoint compressLoop (fuel : nat) : lzfM Z :=
  s ← get;
  if ip s <? in_end - 2 then
    match fuel with
    | O => fail (AssertFailed "lzf_compress: fuel")
    | S fuel =>
        t ← compressTurn;
        match t with
        | NextTurn => compressLoop fuel
        | LeaveLoop => finish
        | ReturnZero => mret 0
        end
    end
  else finish.

(** The returned length, 0 when the output does not fit, and the output array. *)
Definition lzf_compress (htab : Z → Z) (out_data : list Z) : res (Z * list Z) :=
  if (in_end =? 0) || (Z.of_nat (length out_data) =? 0) then Ok (0, out_data) else
  r ← (h ← FRST 0;
       modify (λ s, mkLzf (Lzf.htab s) 0 1 0 h (out s)) ;;
       compressLoop (length in_data)) (mkLzf htab 0 0 0 0 out_data);
  mret (fst r, out (snd r)).

End Compress.

(** ** The decompressor *)

Inductive errno := E2BIG | EINVAL.

Record unlzf := mkUnlzf {
  d_ip : Z;
  d_op : Z;
  d_out : list Z }.

Section Decompress.
Context (in_data : list Z).
Notation unlzfM := (M unlzf).

Definition d_end (s : unlzf) : Z := Z.of_nat (length (d_out s)).

(** [*ip++] *)
Definition nextByte : unlzfM Z :=
  s ← get;
  c ← deref (if d_ip s <? 0 then None else in_data !! Z.to_nat (d_ip s)) "lzf_decompress: in_data";
  put (mkUnlzf (d_ip s + 1) (d_op s) (d_out s)) ;;
  mret c.

(** [*op++ = c] *)
Definition appendByte (c : Z) : unlzfM unit :=
  s ← get;
  if (0 <=? d_op s) && (d_op s <? d_end s) then
    put (mkUnlzf (d_ip s) (d_op s + 1) (<[Z.to_nat (d_op s) := u8 c]> (d_out s)))
  else fail (BadPointer "lzf_decompress: out_data").

Definition outAt (i : Z) : unlzfM Z :=
  s ← get;
  deref (if i <? 0 then None else d_out s !! Z.to_nat i) "lzf_decompress: out_data".

(** The literal run: [n] times [*op++ = *ip++]. *)
Fixpoint copyRun (n : nat) : unlzfM unit :=
  match n with
  | O => mret tt
  | S n => c ← nextByte; appendByte c ;; copyRun n
  end.

(** [n] times [*op++ = *ref++]. *)
Fixpoint copyRef (n : nat) (ref : Z) : unlzfM unit :=
  match n with
  | O => mret tt
  | S n => c ← outAt ref; appendByte c ;; copyRef n (ref + 1)
  end.

(** [memcpy (op, ref, len); op += len] *)
Definition memcpy (ref len : Z) : unlzfM unit :=
  s ← get;
  if (0 <=? ref) && (ref + len <=? d_end s) && (0 <=? d_op s) && (d_op s + len <=? d_end s) then
    put (mkUnlzf (d_ip s) (d_op s + len)
           (take (Z.to_nat (d_op s)) (d_out s) ++ take (Z.to_nat len) (drop (Z.to_nat ref) (d_out s)) ++
            drop (Z.to_nat (d_op s + len)) (d_out s)))
  else fail (BadPointer "lzf_decompress: memcpy").

(** The end of a back reference of [len + 2] bytes. *)
Definition expandRef (ref len : Z) : unlzfM (option errno) :=
  s ← get;
  if d_end s <? d_op s + len + 2 then mret (Some E2BIG)
  else if ref <? 0 then mret (Some EINVAL)
  else
    (if len <=? 9 then copyRef (Z.to_nat (len + 2)) ref
     else
       let len := len + 2 in
       if ref + len <=? d_op s then memcpy ref len else copyRef (Z.to_nat len) ref) ;;
    mret None.

(** A turn: the error when there is one. *)
Definition decompressTurn : unlzfM (option errno) :=
  ctrl ← nextByte;
  s ← get;
  if ctrl <? Z.shiftl 1 5 then
    let ctrl := ctrl + 1 in
    if d_end s <? d_op s + ctrl then mret (Some E2BIG)
    else if Z.of_nat (length in_data) <? d_ip s + ctrl then mret (Some EINVAL)
    else copyRun (Z.to_nat ctrl) ;; mret None
  else
    let len := Z.shiftr ctrl 5 in
    let ref := d_op s - Z.shiftl (Z.land ctrl 31) 8 - 1 in
    if Z.of_nat (length in_data) <=? d_ip s then mret (Some EINVAL) else
    if len =? 7 then
      c ← nextByte;
      s ← get;
      if Z.of_nat (length in_data) <=? d_ip s then mret (Some EINVAL) else
      d ← nextByte;
      expandRef (ref - d) (len + c)
    else
      d ← nextByte;
      expandRef (ref - d) len.

(** [do ... while (ip < in_end)]: every turn takes a byte of the input. *)
Fixpoint decompressLoop (fuel : nat) : unlzfM (errno + Z) :=
  match fuel with
  | O => fail (AssertFailed "lzf_decompress: fuel")
  | S fuel =>
      e ← decompressTurn;
      match e with
      | Some e => mret (inl e)
      | None =>
          s ← get;
          if d_ip s <? Z.of_nat (length in_data) then decompressLoop fuel else mret (inr (d_op s))
      end
  end.

(** The error or the returned length, and the output array. *)
Definition lzf_decompress (out_data : list Z) : res ((errno + Z) * list Z) :=
  r ← decompressLoop (S (length in_data)) (mkUnlzf 0 0 out_data);
  mret (fst r, d_out (snd r)).

End Decompress.
