(* ===== verification/LzfProps.v ===== *)
(** * LzfProps: decompressing a compressed string gives the string back

    The compressed format as a list of tokens, what the tokens stand for, and the
    proofs that the compressor writes an encoding of tokens that stand for its
    input, that the decompressor expands every such encoding, and that it never
    leaves its arrays, whatever it is given.  The compressor stays inside its arrays for
    every input but one of a single byte. *)

From Stdlib Require Import ZifyBool.
From stdpp Require Import base tactics option strings numbers list.
From S2P Require Import Prelude Lzf.

Local Open Scope Z_scope.

Definition byte (z : Z) : Prop := 0 ≤ z < 256.

Lemma u8_byte z : byte z → u8 z = z.
Proof. unfold byte, u8. intros. by rewrite Z.mod_small by (change (2 ^ 8) with 256; lia). Qed.

Lemma byte_u8 z : byte (u8 z).
Proof. unfold byte, u8. change (2 ^ 8) with 256. apply Z.mod_pos_bound. lia. Qed.

(** ** The format *)

Inductive token :=
  | Run (bs : list Z)
  | Ref (off len : nat).

(** Copying [n] bytes from [off + 1] bytes back, one after the other. *)
Fixpoint copyBack (n off : nat) (acc : list Z) : option (list Z) :=
  match n with
  | O => Some acc
  | S n =>
      if decide (off < length acc)%nat
      then c ← acc !! (length acc - off - 1)%nat; copyBack n off (acc ++ [c])
      else None
  end.

Definition expand (acc : list Z) (t : token) : option (list Z) :=
  match t with
  | Run bs => Some (acc ++ bs)
  | Ref off len => copyBack len off acc
  end.

Definition expandAll (ts : list token) : option (list Z) := foldl (λ acc t, a ← acc; expand a t) (Some []) ts.

Definition encode (t : token) : list Z :=
  match t with
  | Run bs => (Z.of_nat (length bs) - 1) :: bs
  | Ref off len =>
      let o := Z.of_nat off in
      let l := Z.of_nat len - 2 in
      if l <? 7 then [o / 256 + 32 * l; o mod 256] else [o / 256 + 32 * 7; l - 7; o mod 256]
  end.

Definition tokenOk (t : token) : Prop :=
  match t with
  | Run bs => (1 ≤ length bs ≤ 32)%nat ∧ Forall byte bs
  | Ref off len => Z.of_nat off < MAX_OFF ∧ 3 ≤ Z.of_nat len ≤ MAX_REF
  end.

Definition encodeAll (ts : list token) : list Z := concat (encode <$> ts).

Lemma encodeAll_app ts us : encodeAll (ts ++ us) = encodeAll ts ++ encodeAll us.
Proof. unfold encodeAll. by rewrite fmap_app, concat_app. Qed.

Lemma encodeAll_one t : encodeAll [t] = encode t.
Proof. unfold encodeAll. cbn. apply app_nil_r. Qed.

Lemma expandAll_app ts acc t : expandAll ts = Some acc → expandAll (ts ++ [t]) = expand acc t.
Proof. intros Hts. unfold expandAll in *. by rewrite foldl_app, Hts. Qed.

Lemma expand_cons acc t ts x : foldl (λ acc t, a ← acc; expand a t) (Some acc) (t :: ts) = Some x →
  ∃ acc', expand acc t = Some acc' ∧ foldl (λ acc t, a ← acc; expand a t) (Some acc') ts = Some x.
Proof.
  cbn. destruct (expand acc t) as [acc'|]; cbn; [by exists acc'|].
  assert (∀ us, foldl (λ acc t, a ← acc; expand a t) None us = None) as -> by by induction us. done.
Qed.

(** ** Copying back *)

Lemma copyBack_step n off acc : (off < length acc)%nat → ∃ c, acc !! (length acc - off - 1)%nat = Some c ∧
  copyBack (S n) off acc = copyBack n off (acc ++ [c]).
Proof.
  intros Hoff. destruct (lookup_lt_is_Some_2 acc (length acc - off - 1)) as [c Hc]; [lia|].
  exists c. split; [done|]. cbn. rewrite decide_True by done. by rewrite Hc.
Qed.

Lemma copyBack_length n off acc : (off < length acc)%nat →
  ∃ acc', copyBack n off acc = Some acc' ∧ length acc' = (length acc + n)%nat ∧ take (length acc) acc' = acc ∧
    (Forall byte acc → Forall byte acc').
Proof.
  revert acc. induction n as [|n IH]; intros acc Hoff.
  { exists acc. split_and!; [done|lia|by rewrite take_ge|done]. }
  destruct (copyBack_step n off acc Hoff) as (c & Hc & ->).
  destruct (IH (acc ++ [c])) as (acc' & -> & Hlen & Htake & Hb); [rewrite length_app; cbn; lia|].
  exists acc'. rewrite length_app in *. cbn in Hlen, Htake. split_and!; [done|lia| |].
  - apply (f_equal (take (length acc))) in Htake. rewrite take_take, take_app_length in Htake.
    by rewrite Nat.min_l in Htake by lia.
  - intros Hacc. apply Hb. apply Forall_app. split; [done|]. apply Forall_singleton. by eapply Forall_lookup_1.
Qed.

(** Copying back from an input that repeats itself goes on with the input. *)
Lemma copyBack_repeats n off p (x : list Z) : (off < p)%nat → (p + n ≤ length x)%nat →
  (∀ i, (i < n)%nat → x !! (p - off - 1 + i)%nat = x !! (p + i)%nat) →
  copyBack n off (take p x) = Some (take (p + n) x).
Proof.
  revert p. induction n as [|n IH]; intros p Hoff Hlen Heq; [by rewrite Nat.add_0_r|].
  destruct (copyBack_step n off (take p x)) as (c & Hc & ->); [rewrite length_take; lia|].
  rewrite length_take, Nat.min_l, lookup_take_lt in Hc by lia.
  specialize (Heq 0%nat ltac:(lia)) as Heq0. rewrite !Nat.add_0_r, Hc in Heq0.
  assert (take p x ++ [c] = take (S p) x) as -> by (symmetry; by apply take_S_r).
  rewrite IH; [do 2 f_equal; lia|lia|lia|]. intros i Hi. specialize (Heq (S i) ltac:(lia)).
  replace (S p - off - 1 + i)%nat with (p - off - 1 + S i)%nat by lia. rewrite Heq. f_equal. lia.
Qed.

(** A reference to bytes that end before the output is a copy of them. *)
Lemma copyBack_disjoint n off acc : (off < length acc)%nat → (n ≤ off + 1)%nat →
  copyBack n off acc = Some (acc ++ take n (drop (length acc - off - 1) acc)).
Proof.
  intros Hoff Hn. set (r := (length acc - off - 1)%nat).
  assert (∀ k, (k ≤ n)%nat → copyBack k off (acc ++ take (n - k) (drop r acc)) = Some (acc ++ take n (drop r acc))) as Hk.
  { induction k as [|k IH]; intros Hk; [by rewrite Nat.sub_0_r|].
    assert (length (take (n - S k) (drop r acc)) = (n - S k)%nat) as Hl by (rewrite length_take, length_drop; lia).
    destruct (copyBack_step k off (acc ++ take (n - S k) (drop r acc))) as (c & Hc & ->); [rewrite length_app; lia|].
    rewrite <-IH by lia. f_equal. rewrite <-app_assoc. f_equal.
    replace (n - k)%nat with (S (n - S k)) by lia. symmetry. apply take_S_r.
    rewrite length_app, Hl, lookup_app_l in Hc by lia. rewrite lookup_drop, <-Hc. f_equal. lia. }
  specialize (Hk n ltac:(lia)). by rewrite Nat.sub_diag, take_0, app_nil_r in Hk.
Qed.

(** ** The decompressor *)

Section Decompress.
Context (in_data : list Z).

(** The bytes [pre] of the input have been read and [acc] has been written. *)
Definition expanded (pre acc tail : list Z) : unlzf :=
  mkUnlzf (Z.of_nat (length pre)) (Z.of_nat (length acc)) (acc ++ tail).

Lemma nextByte_run pre c post acc tail : in_data = pre ++ c :: post →
  nextByte in_data (expanded pre acc tail) = Ok (c, expanded (pre ++ [c]) acc tail).
Proof.
  intros ->. unfold nextByte. rewrite bind_get. cbn [expanded d_ip d_op d_out].
  replace (Z.of_nat (length pre) <? 0) with false by lia.
  rewrite Nat2Z.id, list_lookup_middle by done. cbn [deref].
  unfold expanded. by rewrite length_app, Nat2Z.inj_add.
Qed.

Lemma appendByte_run pre acc t tail c : byte c →
  appendByte c (expanded pre acc (t :: tail)) = Ok (tt, expanded pre (acc ++ [c]) tail).
Proof.
  intros Hc. unfold appendByte. rewrite bind_get. unfold d_end. cbn [expanded d_ip d_op d_out].
  rewrite length_app. cbn [length]. replace (_ && _) with true by lia. unfold put, expanded. do 2 f_equal.
  f_equal; [rewrite length_app; cbn; lia|].
  by rewrite Nat2Z.id, insert_app_r_alt, Nat.sub_diag, u8_byte, <-app_assoc by (done || lia).
Qed.

Lemma copyRun_run bs : ∀ pre post acc tail, in_data = pre ++ bs ++ post → Forall byte bs →
  (length bs ≤ length tail)%nat →
  copyRun in_data (length bs) (expanded pre acc tail) = Ok (tt, expanded (pre ++ bs) (acc ++ bs) (drop (length bs) tail)).
Proof.
  induction bs as [|c bs IH]; intros pre post acc tail Hin Hb Hlen; [by rewrite !app_nil_r, drop_0|].
  apply Forall_cons in Hb as [Hc Hb]. destruct tail as [|t tail]; [cbn in Hlen; lia|]. cbn [length copyRun].
  rewrite (bind_run _ _ _ _ _ (nextByte_run pre c (bs ++ post) acc (t :: tail) Hin)).
  rewrite (bind_run _ _ _ _ _ (appendByte_run _ acc t tail c Hc)).
  rewrite (IH _ post) by (rewrite <-?app_assoc; cbn in *; done || lia). by rewrite <-!app_assoc.
Qed.

Lemma copyRef_run n : ∀ off pre acc tail acc', Forall byte acc → (off < length acc)%nat → (n ≤ length tail)%nat →
  copyBack n off acc = Some acc' →
  copyRef n (Z.of_nat (length acc - off - 1)) (expanded pre acc tail) = Ok (tt, expanded pre acc' (drop n tail)).
Proof.
  induction n as [|n IH]; intros off pre acc tail acc' Hb Hoff Hlen Hcopy; [by injection Hcopy as <-; rewrite drop_0|].
  destruct (copyBack_step n off acc Hoff) as (c & Hc & Heq). rewrite Heq in Hcopy.
  destruct tail as [|t tail]; [cbn in Hlen; lia|]. cbn [copyRef].
  assert (byte c) as Hbc by by eapply Forall_lookup_1.
  assert (outAt (Z.of_nat (length acc - off - 1)) (expanded pre acc (t :: tail)) = Ok (c, expanded pre acc (t :: tail))) as Hout.
  { unfold outAt. rewrite bind_get. cbn [expanded d_out]. replace (_ <? 0) with false by lia.
    by rewrite Nat2Z.id, lookup_app_l, Hc by lia. }
  rewrite (bind_run _ _ _ _ _ Hout), (bind_run _ _ _ _ _ (appendByte_run _ acc t tail c Hbc)).
  replace (Z.of_nat (length acc - off - 1) + 1) with (Z.of_nat (length (acc ++ [c]) - off - 1)) by (rewrite length_app; cbn; lia).
  apply IH; [|rewrite length_app; cbn; lia|cbn in Hlen; lia|done]. by apply Forall_app; split; [|apply Forall_singleton].
Qed.

Lemma memcpy_run off len pre acc tail : (off < length acc)%nat → (len ≤ off + 1)%nat → (len ≤ length tail)%nat →
  memcpy (Z.of_nat (length acc - off - 1)) (Z.of_nat len) (expanded pre acc tail) =
  Ok (tt, expanded pre (acc ++ take len (drop (length acc - off - 1) acc)) (drop len tail)).
Proof.
  intros Hoff Hl Hlen. unfold memcpy. rewrite bind_get. unfold d_end. cbn [expanded d_ip d_op d_out].
  rewrite length_app. replace (_ && _ && _ && _) with true by lia. unfold put, expanded. do 2 f_equal.
  f_equal; [rewrite length_app, length_take, length_drop; lia|].
  rewrite !Nat2Z.id, take_app_length, <-app_assoc. f_equal. f_equal.
  - rewrite drop_app_le, take_app_le by (rewrite ?length_drop; lia). done.
  - replace (Z.to_nat _) with (length acc + len)%nat by lia. by rewrite <-drop_drop, drop_app_length.
Qed.

(** A back reference of [len + 2] bytes. *)
Lemma expandRef_run off len pre acc tail acc' : Forall byte acc → (2 ≤ len)%nat →
  copyBack len off acc = Some acc' → (length acc' ≤ length acc + length tail)%nat → (off < length acc)%nat →
  expandRef (Z.of_nat (length acc) - Z.of_nat off - 1) (Z.of_nat len - 2) (expanded pre acc tail) =
  Ok (None, expanded pre acc' (drop len tail)).
Proof.
  intros Hb H2 Hcopy Hfit Hoff. destruct (copyBack_length len off acc Hoff) as (acc2 & Heq & Hlen & _).
  rewrite Hcopy in Heq. injection Heq as <-. unfold expandRef. rewrite bind_get. unfold d_end at 1. cbn [expanded d_op d_out].
  rewrite length_app. replace (Z.of_nat (length acc + length tail) <? _) with false by lia.
  replace (_ <? 0) with false by lia.
  replace (Z.of_nat (length acc) - Z.of_nat off - 1) with (Z.of_nat (length acc - off - 1)) by lia.
  replace (Z.of_nat len - 2 + 2) with (Z.of_nat len) by lia. rewrite Nat2Z.id.
  assert (copyRef len (Z.of_nat (length acc - off - 1)) (expanded pre acc tail) = Ok (tt, expanded pre acc' (drop len tail)))
    as Hbytes by (apply (copyRef_run len off); done || lia).
  destruct (Z.leb_spec (Z.of_nat len - 2) 9); [by rewrite (bind_run _ _ _ _ _ Hbytes)|].
  destruct (Z.leb_spec (Z.of_nat (length acc - off - 1) + Z.of_nat len) (Z.of_nat (length acc)));
    [|by rewrite (bind_run _ _ _ _ _ Hbytes)].
  rewrite copyBack_disjoint in Hcopy by lia. injection Hcopy as <-.
  by rewrite (bind_run _ _ _ _ _ (memcpy_run off len pre acc tail ltac:(lia) ltac:(lia) ltac:(lia))).
Qed.

(** The first byte of a back reference. *)
Lemma ctrl_bits o l : 0 ≤ o < MAX_OFF → 0 ≤ l < 8 →
  Z.shiftr (o / 256 + 32 * l) 5 = l ∧ Z.land (o / 256 + 32 * l) 31 = o / 256.
Proof.
  unfold MAX_OFF. change (Z.shiftl 1 13) with 8192. intros Ho Hl.
  assert (0 ≤ o / 256 < 32) by (split; [apply Z.div_pos; lia|apply Z.div_lt_upper_bound; lia]).
  rewrite Z.shiftr_div_pow2 by lia. change 31 with (Z.ones 5). rewrite Z.land_ones by lia. change (2 ^ 5) with 32.
  rewrite (Z.mul_comm 32), Z.div_add, Z.mod_add, Z.div_small, Z.mod_small by lia. lia.
Qed.

Definition byteFits (acc tail acc' : list Z) : Prop := (length acc' ≤ length acc + length tail)%nat.

Lemma expanded_end pre acc tail : d_end (expanded pre acc tail) = Z.of_nat (length acc + length tail).
Proof. unfold d_end. cbn. by rewrite length_app. Qed.

Lemma expanded_ip pre acc tail : d_ip (expanded pre acc tail) = Z.of_nat (length pre).
Proof. done. Qed.

Lemma expanded_op pre acc tail : d_op (expanded pre acc tail) = Z.of_nat (length acc).
Proof. done. Qed.

Lemma decompressRun bs pre post acc tail :
  in_data = pre ++ encode (Run bs) ++ post → tokenOk (Run bs) → byteFits acc tail (acc ++ bs) →
  decompressTurn in_data (expanded pre acc tail) =
  Ok (None, expanded (pre ++ encode (Run bs)) (acc ++ bs) (drop (length bs) tail)).
Proof.
  intros Hin [Hlen Hbs] Hfit. unfold byteFits in Hfit. cbn [encode] in *. rewrite length_app in Hfit.
  pose proof (f_equal length Hin) as Hl. cbn in Hl. rewrite !length_app in Hl. cbn in Hl. rewrite length_app in Hl.
  unfold decompressTurn. rewrite (bind_run _ _ _ _ _ (nextByte_run pre _ _ acc tail Hin)), bind_get.
  rewrite expanded_end, expanded_ip, expanded_op, length_app. cbn [length]. change (Z.shiftl 1 5) with 32.
  replace (_ <? 32) with true by lia. replace (Z.of_nat (length acc + length tail) <? _) with false by lia.
  replace (Z.of_nat (length in_data) <? _) with false by lia. replace (Z.to_nat _) with (length bs) by lia.
  rewrite (bind_run _ _ _ _ _ (copyRun_run bs (pre ++ [Z.of_nat (length bs) - 1]) post acc tail ltac:(by rewrite <-app_assoc) Hbs ltac:(lia))).
  by rewrite <-app_assoc.
Qed.

Lemma decompressRef off len pre post acc tail acc' :
  in_data = pre ++ encode (Ref off len) ++ post → tokenOk (Ref off len) → Forall byte acc → (off < length acc)%nat →
  copyBack len off acc = Some acc' → byteFits acc tail acc' →
  decompressTurn in_data (expanded pre acc tail) = Ok (None, expanded (pre ++ encode (Ref off len)) acc' (drop len tail)).
Proof.
  intros Hin [Hoff Hlen] Hb Hacc Hcopy Hfit. unfold byteFits in Hfit. cbn [encode] in *.
  set (o := Z.of_nat off) in *. set (l := Z.of_nat len - 2) in *. change MAX_REF with 264 in Hlen.
  assert (o = 256 * (o / 256) + o mod 256) as Ho by (apply Z.div_mod; lia).
  pose proof (f_equal length Hin) as Hl. rewrite !length_app in Hl.
  assert (∀ x, Z.of_nat (length acc) - Z.shiftl x 8 - 1 = Z.of_nat (length acc) - 256 * x - 1) as Hsh.
  { intros x. rewrite Z.shiftl_mul_pow2 by lia. change (2 ^ 8) with 256. lia. }
  unfold decompressTurn. destruct (Z.ltb_spec l 7) as [Hl7|Hl7]; cbn in Hin, Hl.
  - destruct (ctrl_bits o l) as [Hs Hm]; [lia|lia|].
    rewrite (bind_run _ _ _ _ _ (nextByte_run pre _ _ acc tail Hin)), bind_get.
    rewrite expanded_ip, expanded_op, length_app, Hs, Hm, Hsh. cbn [length]. change (Z.shiftl 1 5) with 32.
    assert (0 ≤ o / 256) by (apply Z.div_pos; lia). replace (_ <? 32) with false by lia.
    replace (Z.of_nat (length in_data) <=? _) with false by lia. replace (l =? 7) with false by lia.
    rewrite (bind_run _ _ _ _ _ (nextByte_run (pre ++ [o / 256 + 32 * l]) (o mod 256) post acc tail ltac:(by rewrite <-app_assoc))).
    replace (_ - 1 - o mod 256) with (Z.of_nat (length acc) - o - 1) by lia.
    subst o l. rewrite (expandRef_run off len _ acc tail acc') by (done || lia). by rewrite <-!app_assoc.
  - destruct (ctrl_bits o 7) as [Hs Hm]; [lia|lia|].
    rewrite (bind_run _ _ _ _ _ (nextByte_run pre _ _ acc tail Hin)), bind_get.
    rewrite expanded_ip, expanded_op, length_app, Hs, Hm, Hsh. cbn [length]. change (Z.shiftl 1 5) with 32.
    assert (0 ≤ o / 256) by (apply Z.div_pos; lia). replace (_ <? 32) with false by lia.
    replace (Z.of_nat (length in_data) <=? _) with false by lia. cbn [Z.eqb Pos.eqb].
    rewrite (bind_run _ _ _ _ _ (nextByte_run (pre ++ [o / 256 + 32 * 7]) (l - 7) (o mod 256 :: post) acc tail ltac:(by rewrite <-app_assoc))), bind_get.
    rewrite expanded_ip, !length_app. cbn [length]. replace (Z.of_nat (length in_data) <=? _) with false by lia.
    rewrite (bind_run _ _ _ _ _ (nextByte_run ((pre ++ [o / 256 + 32 * 7]) ++ [l - 7]) (o mod 256) post acc tail ltac:(by rewrite <-!app_assoc))).
    replace (_ - 1 - o mod 256) with (Z.of_nat (length acc) - o - 1) by lia. replace (7 + (l - 7)) with l by lia.
    subst o l. rewrite (expandRef_run off len _ acc tail acc') by (done || lia). by rewrite <-!app_assoc.
Qed.

(** Reading the bytes of a token expands it. *)
Lemma decompressTurn_run t pre post acc tail acc' : in_data = pre ++ encode t ++ post → tokenOk t → Forall byte acc →
  expand acc t = Some acc' → byteFits acc tail acc' →
  decompressTurn in_data (expanded pre acc tail) =
    Ok (None, expanded (pre ++ encode t) acc' (drop (length acc' - length acc) tail)) ∧
  Forall byte acc' ∧ (length acc ≤ length acc')%nat.
Proof.
  intros Hin Hok Hb Hexp Hfit. destruct t as [bs|off len]; cbn [expand] in Hexp.
  - injection Hexp as <-. rewrite length_app. replace (_ + _ - _)%nat with (length bs) by lia. split_and!; [|..|lia].
    + by apply (decompressRun bs pre post).
    + apply Forall_app. split; [done|apply Hok].
  - assert (off < length acc)%nat as Hoff.
    { destruct Hok as [_ Hlen]. destruct len; [lia|]. cbn in Hexp. by case_decide. }
    destruct (copyBack_length len off acc Hoff) as (acc2 & Heq & Hlen & _ & Hb2). rewrite Hexp in Heq. injection Heq as <-.
    replace (_ - _)%nat with len by lia. split_and!; [by eapply decompressRef|by apply Hb2|lia].
Qed.

Lemma expandAll_mono ts : ∀ acc x, foldl (λ acc t, a ← acc; expand a t) (Some acc) ts = Some x →
  Forall tokenOk ts → (length acc ≤ length x)%nat.
Proof.
  induction ts as [|t ts IH]; intros acc x Hx Hok; [by injection Hx as ->|]. apply Forall_cons in Hok as [Ht Hts].
  apply expand_cons in Hx as (acc' & Hexp & Hx). specialize (IH acc' x Hx Hts). enough (length acc ≤ length acc')%nat by lia. destruct t as [bs|off len]; cbn in Hexp.
  - injection Hexp as <-. rewrite length_app. lia.
  - destruct len as [|len]; [by injection Hexp as <-|]. cbn [copyBack] in Hexp. case_decide as Hoff; [|done].
    destruct (copyBack_length (S len) off acc Hoff) as (acc2 & Heq & Hlen & _). cbn in Heq. rewrite decide_True in Heq by done.
    rewrite Hexp in Heq. injection Heq as <-. lia.
Qed.

Lemma decompressLoop_run ts : ∀ pre acc tail x fuel, in_data = pre ++ encodeAll ts → ts ≠ [] → Forall tokenOk ts →
  Forall byte acc → foldl (λ acc t, a ← acc; expand a t) (Some acc) ts = Some x → byteFits acc tail x →
  (length ts ≤ fuel)%nat →
  decompressLoop in_data fuel (expanded pre acc tail) =
    Ok (inr (Z.of_nat (length x)), expanded in_data x (drop (length x - length acc) tail)).
Proof.
  induction ts as [|t ts IH]; intros pre acc tail x fuel Hin Hne Hok Hb Hexp Hfit Hfuel; [done|].
  apply Forall_cons in Hok as [Ht Hts]. destruct fuel as [|fuel]; [cbn in Hfuel; lia|].
  apply expand_cons in Hexp as (acc' & He & Hexp).
  pose proof (expandAll_mono ts acc' x Hexp Hts) as Hmono. unfold byteFits in Hfit.
  change (encodeAll (t :: ts)) with (encode t ++ encodeAll ts) in Hin.
  destruct (decompressTurn_run t pre (encodeAll ts) acc tail acc') as (Hrun & Hb' & Hge); [done..|unfold byteFits; lia|].
  cbn [decompressLoop]. rewrite (bind_run _ _ _ _ _ Hrun), bind_get, expanded_ip, expanded_op.
  destruct ts as [|u ts].
  - injection Hexp as <-. cbn in Hin. rewrite app_nil_r in Hin. rewrite <-Hin. by replace (_ <? _) with false by lia.
  - pose proof (f_equal length Hin) as Hl. rewrite app_assoc, (length_app (pre ++ _)) in Hl.
    assert (0 < length (encodeAll (u :: ts)))%nat.
    { change (encodeAll (u :: ts)) with (encode u ++ encodeAll ts). rewrite length_app.
      destruct u as [bs|off len]; cbn; [lia|]. case_match; cbn; lia. }
    replace (_ <? _) with true by lia.
    rewrite (IH _ acc' _ x fuel); [|by rewrite Hin, app_assoc|done|done|done|done|unfold byteFits; rewrite length_drop; lia|cbn in *; lia].
    rewrite drop_drop. by replace (length acc' - length acc + (length x - length acc'))%nat with (length x - length acc)%nat by lia.
Qed.

(** *** Arbitrary input *)

Context (in_bytes : Forall byte in_data).

(** The decompressor is inside its arrays: [n] bytes of output. *)
Record inside (n : Z) (s : unlzf) : Prop := {
  in_ip : 0 ≤ d_ip s ≤ Z.of_nat (length in_data);
  in_op : 0 ≤ d_op s ≤ n;
  in_len : d_end s = n }.

Lemma nextByte_safe n s (Q : Z → unlzf → Prop) : inside n s → d_ip s < Z.of_nat (length in_data) →
  (∀ c s', byte c → inside n s' → d_ip s' = d_ip s + 1 → d_op s' = d_op s → Q c s') → wp noFault (nextByte in_data) Q s.
Proof.
  intros [Hip Hop Hl] Hlt HQ. destruct (lookup_lt_is_Some_2 in_data (Z.to_nat (d_ip s))) as [c Hc]; [lia|].
  unfold nextByte. wp_steps. replace (d_ip s <? 0) with false by lia.
  apply (wp_deref _ _ c); [done|]. wp_steps. apply HQ; [by eapply Forall_lookup_1|split; cbn; done || lia|done|done].
Qed.

Lemma appendByte_safe n s c (Q : unit → unlzf → Prop) : inside n s → d_op s < n →
  (∀ s', inside n s' → d_ip s' = d_ip s → d_op s' = d_op s + 1 → Q tt s') → wp noFault (appendByte c) Q s.
Proof.
  intros [Hip Hop Hl] Hlt HQ. unfold appendByte. wp_steps. replace (_ && _) with true by lia.
  wp_steps. apply HQ; [|done|done]. split; cbn; [done|lia|]. unfold d_end in *. cbn. by rewrite length_insert.
Qed.

Lemma copyRun_safe k : ∀ n s (Q : unit → unlzf → Prop), inside n s → d_op s + Z.of_nat k ≤ n →
  d_ip s + Z.of_nat k ≤ Z.of_nat (length in_data) →
  (∀ s', inside n s' → d_ip s ≤ d_ip s' → Q tt s') → wp noFault (copyRun in_data k) Q s.
Proof.
  induction k as [|k IH]; intros n s Q Hs Ho Hi HQ; cbn [copyRun]; [apply wp_ret, HQ; [done|lia]|].
  apply wp_bind, (nextByte_safe n); [done|lia|]. intros c s1 _ Hs1 Hi1 Ho1.
  apply wp_bind, (appendByte_safe n); [done|lia|]. intros s2 Hs2 Hi2 Ho2. apply (IH n); [done|lia|lia|].
  intros s' Hs' Hle. apply HQ; [done|lia].
Qed.

Lemma copyRef_safe k : ∀ n ref s (Q : unit → unlzf → Prop), inside n s → 0 ≤ ref < d_op s → d_op s + Z.of_nat k ≤ n →
  (∀ s', inside n s' → d_ip s' = d_ip s → Q tt s') → wp noFault (copyRef k ref) Q s.
Proof.
  induction k as [|k IH]; intros n ref s Q Hs Hr Ho HQ; cbn [copyRef]; [by apply wp_ret, HQ|].
  pose proof Hs as [Hip Hop Hl]. unfold d_end in Hl.
  destruct (lookup_lt_is_Some_2 (d_out s) (Z.to_nat ref)) as [c Hc]; [lia|].
  apply wp_bind. unfold outAt. wp_steps. replace (ref <? 0) with false by lia. apply (wp_deref _ _ c); [done|].
  apply wp_bind, (appendByte_safe n); [done|lia|]. intros s2 Hs2 Hi2 Ho2. apply (IH n); [done|lia|lia|].
  intros s' Hs' Heq. apply HQ; [done|congruence].
Qed.

Lemma memcpy_safe n ref len s (Q : unit → unlzf → Prop) : inside n s → 0 ≤ ref → 0 ≤ len → ref + len ≤ d_op s →
  d_op s + len ≤ n → (∀ s', inside n s' → d_ip s' = d_ip s → Q tt s') → wp noFault (memcpy ref len) Q s.
Proof.
  intros [Hip Hop Hl] Hr Hlen Hd Ho HQ. unfold memcpy. wp_steps. replace (_ && _ && _ && _) with true by lia.
  wp_steps. apply HQ; [|done]. unfold d_end in *. split; cbn; [done|lia|].
  unfold d_end. cbn. rewrite !length_app, !length_take, !length_drop. lia.
Qed.

Lemma expandRef_safe n ref len s (Q : option errno → unlzf → Prop) : inside n s → ref < d_op s → 0 ≤ len →
  (∀ e s', inside n s' → d_ip s' = d_ip s → Q e s') → wp noFault (expandRef ref len) Q s.
Proof.
  intros Hs Hr Hlen HQ. pose proof Hs as [Hip Hop Hl]. unfold expandRef. wp_steps. rewrite Hl.
  destruct (Z.ltb_spec n (d_op s + len + 2)); [by apply wp_ret, HQ|].
  destruct (Z.ltb_spec ref 0); [by apply wp_ret, HQ|]. apply wp_bind.
  repeat case_match; [apply (copyRef_safe _ n)|apply (memcpy_safe n)|apply (copyRef_safe _ n)]; try lia; try done;
    intros s' Hs' Hi; by apply wp_ret, HQ.
Qed.

Lemma decompressTurn_safe n s (Q : option errno → unlzf → Prop) : inside n s → d_ip s < Z.of_nat (length in_data) →
  (∀ e s', inside n s' → d_ip s < d_ip s' → Q e s') → wp noFault (decompressTurn in_data) Q s.
Proof.
  intros Hs Hlt HQ. unfold decompressTurn. apply wp_bind, (nextByte_safe n); [done|done|].
  intros ctrl s1 Hc Hs1 Hi1 Ho1. pose proof Hs1 as [Hip Hop Hl]. wp_steps. rewrite Hl.
  assert (0 ≤ Z.shiftl (Z.land ctrl 31) 8) by (apply Z.shiftl_nonneg, Z.land_nonneg; lia).
  assert (0 ≤ Z.shiftr ctrl 5) by (apply Z.shiftr_nonneg; apply Hc).
  destruct (ctrl <? _).
  - destruct (Z.ltb_spec n (d_op s1 + (ctrl + 1))); [apply wp_ret, HQ; [done|lia]|].
    destruct (Z.ltb_spec (Z.of_nat (length in_data)) (d_ip s1 + (ctrl + 1))); [apply wp_ret, HQ; [done|lia]|].
    destruct Hc. apply wp_bind, (copyRun_safe _ n); [done|lia|lia|]. intros s' Hs' Hle. apply wp_ret, HQ; [done|lia].
  - destruct (Z.leb_spec (Z.of_nat (length in_data)) (d_ip s1)); [apply wp_ret, HQ; [done|lia]|].
    destruct (_ =? 7).
    + apply wp_bind, (nextByte_safe n); [done|done|]. intros c s2 Hc2 Hs2 Hi2 Ho2. wp_steps.
      destruct (Z.leb_spec (Z.of_nat (length in_data)) (d_ip s2)); [apply wp_ret, HQ; [done|lia]|].
      apply wp_bind, (nextByte_safe n); [done|done|]. intros d s3 Hd Hs3 Hi3 Ho3. destruct Hc2, Hd.
      apply (expandRef_safe n); [done|lia|lia|]. intros e s' Hs' Hi'. apply HQ; [done|lia].
    + apply wp_bind, (nextByte_safe n); [done|done|]. intros d s3 Hd Hs3 Hi3 Ho3. destruct Hd.
      apply (expandRef_safe n); [done|lia|lia|]. intros e s' Hs' Hi'. apply HQ; [done|lia].
Qed.

Lemma decompressLoop_safe n fuel : ∀ s, inside n s → d_ip s < Z.of_nat (length in_data) →
  (Z.of_nat (length in_data) - d_ip s < Z.of_nat fuel) →
  wp noFault (decompressLoop in_data fuel) (λ r s', inside n s' ∧ ∀ k, r = inr k → 0 ≤ k ≤ n) s.
Proof.
  induction fuel as [|fuel IH]; intros s Hs Hlt Hf; [lia|]. cbn [decompressLoop].
  apply wp_bind, (decompressTurn_safe n); [done|done|]. intros [e|] s' Hs' Hi; [by apply wp_ret|].
  pose proof Hs' as [Hip Hop Hl]. wp_steps. destruct (Z.ltb_spec (d_ip s') (Z.of_nat (length in_data))); [apply IH; done || lia|].
  apply wp_ret. split; [done|]. by intros k [= <-].
Qed.

End Decompress.

(** ** The compressor *)

Section Compress.
Context (in_data : list Z) (in_bytes : Forall byte in_data) (in_len : Z.of_nat (length in_data) < 2 ^ 32).
Implicit Types s : lzf.

Abbreviation N := (Z.of_nat (length in_data)).
Notation "'inp' i" := (in_data !!! Z.to_nat i) (at level 9).

Lemma inAt_run i s : 0 ≤ i < N → inAt in_data i s = Ok (inp i, s).
Proof.
  intros Hi. unfold inAt. replace (i <? 0) with false by lia.
  destruct (lookup_lt_is_Some_2 in_data (Z.to_nat i)) as [c Hc]; [lia|]. rewrite Hc. cbn.
  by rewrite (list_lookup_total_correct _ _ _ Hc).
Qed.

Lemma inp_byte i : 0 ≤ i < N → byte (inp i).
Proof.
  intros Hi. destruct (lookup_lt_is_Some_2 in_data (Z.to_nat i)) as [c Hc]; [lia|].
  rewrite (list_lookup_total_correct _ _ _ Hc). by eapply Forall_lookup_1.
Qed.

(** *** The length of a match *)

Definition agree (ref p n : Z) : Prop := ∀ i, 0 ≤ i < n → inp (ref + i) = inp (p + i).

Lemma agree_S ref p n : 0 ≤ n → agree ref p n → inp (ref + n) = inp (p + n) → agree ref p (n + 1).
Proof. intros Hn Ha Heq i Hi. destruct (decide (i = n)) as [->|]; [done|]. apply Ha. lia. Qed.

Lemma unrolled_run ref p s n : ∀ len, 0 ≤ ref < p → 0 ≤ len → p + len + Z.of_nat n < N → agree ref p (len + 1) →
  ∃ len' differ, unrolled in_data n ref p len s = Ok ((len', differ), s) ∧
    if (differ : bool) then len < len' ≤ len + Z.of_nat n ∧ agree ref p len'
    else len' = len + Z.of_nat n ∧ agree ref p (len' + 1).
Proof.
  induction n as [|n IH]; intros len Hr Hl Hn Ha; cbn [unrolled].
  { exists len, false. rewrite Z.add_0_r. done. }
  rewrite (bind_run _ _ _ _ _ (inAt_run (ref + (len + 1)) s ltac:(lia))).
  rewrite (bind_run _ _ _ _ _ (inAt_run (p + (len + 1)) s ltac:(lia))).
  destruct (Z.eqb_spec (inp (ref + (len + 1))) (inp (p + (len + 1)))) as [Heq|Heq].
  - destruct (IH (len + 1)) as (len' & differ & -> & Hd); [lia|lia|lia|by apply agree_S; [lia|..]|].
    exists len', differ. split; [done|]. destruct differ; [split; [lia|apply Hd]|]. destruct Hd as [-> Hd]. split; [lia|done].
  - exists (len + 1), true. split; [done|]. split; [lia|done].
Qed.

Lemma compareLoop_run ref p maxlen s fuel : ∀ len, 0 ≤ ref < p → 0 ≤ len → p + len + 1 ≤ N → p + maxlen ≤ N →
  agree ref p (len + 1) → maxlen - len ≤ Z.of_nat fuel → (0 < fuel)%nat →
  ∃ len', compareLoop in_data fuel ref p maxlen len s = Ok (len', s) ∧
    len < len' ∧ (len' ≤ len + 1 ∨ len' ≤ maxlen) ∧ agree ref p len'.
Proof.
  induction fuel as [|fuel IH]; intros len Hr Hl Hn Hm Ha Hf Hf0; [lia|]. cbn [compareLoop].
  destruct (Z.ltb_spec (len + 1) maxlen); [|exists (len + 1); split_and!; [done|lia|lia|done]].
  rewrite (bind_run _ _ _ _ _ (inAt_run (ref + (len + 1)) s ltac:(lia))).
  rewrite (bind_run _ _ _ _ _ (inAt_run (p + (len + 1)) s ltac:(lia))).
  destruct (Z.eqb_spec (inp (ref + (len + 1))) (inp (p + (len + 1)))) as [Heq|Heq].
  - destruct (IH (len + 1)) as (len' & -> & ? & ? & ?); [lia|lia|lia|lia|by apply agree_S; [lia|..]|lia|lia|].
    exists len'. split_and!; [done|lia|lia|done].
  - exists (len + 1). split_and!; [done|lia|lia|done].
Qed.

Lemma matchLength_run ref p maxlen s : 0 ≤ ref < p → p + 2 < N → maxlen = Z.min MAX_REF (N - p - 2) → agree ref p 3 →
  ∃ len, matchLength in_data ref p maxlen s = Ok (len, s) ∧ 3 ≤ len ≤ MAX_REF ∧ p + len ≤ N ∧ agree ref p len.
Proof.
  change MAX_REF with 264. intros Hr Hp -> Ha. set (maxlen := Z.min 264 (N - p - 2)). assert (maxlen = Z.min 264 (N - p - 2)) as Hm by done.
  clearbody maxlen. unfold matchLength.
  destruct (Z.ltb_spec 16 maxlen).
  - destruct (unrolled_run ref p s 16 2) as (len & differ & Hrun & Hd); [lia|lia|lia|done|].
    rewrite (bind_run _ _ _ _ _ Hrun). destruct differ.
    + destruct Hd. exists len. split_and!; [done|lia|lia|lia|done].
    + destruct Hd as [-> Hd]. destruct (compareLoop_run ref p maxlen s (Z.to_nat MAX_REF) (2 + Z.of_nat 16)) as (len & Hc & ? & ? & ?);
        [lia|lia|lia|lia|done|change MAX_REF with 264; lia|change MAX_REF with 264; lia|].
      exists len. split_and!; [done|lia|lia|lia|done].
  - rewrite (bind_run _ _ _ (2, false) s) by done. cbn beta iota zeta.
    destruct (compareLoop_run ref p maxlen s (Z.to_nat MAX_REF) 2) as (len & Hc & ? & ? & ?);
      [lia|lia|lia|lia|done|change MAX_REF with 264; lia|change MAX_REF with 264; lia|].
    exists len. split_and!; [done|lia|lia|lia|done].
Qed.

Lemma sameThree_run ref p s : 0 ≤ ref < p → p + 2 < N →
  ∃ b : bool, sameThree in_data ref p s = Ok (b, s) ∧ (b = true → agree ref p 3).
Proof.
  intros Hr Hp. unfold sameThree.
  rewrite (bind_run _ _ _ _ _ (inAt_run (ref + 2) s ltac:(lia))), (bind_run _ _ _ _ _ (inAt_run (p + 2) s ltac:(lia))).
  destruct (Z.eqb_spec (inp (ref + 2)) (inp (p + 2))) as [H2|]; cbn [negb]; [|by exists false].
  rewrite (bind_run _ _ _ _ _ (inAt_run ref s ltac:(lia))), (bind_run _ _ _ _ _ (inAt_run (ref + 1) s ltac:(lia))),
    (bind_run _ _ _ _ _ (inAt_run p s ltac:(lia))), (bind_run _ _ _ _ _ (inAt_run (p + 1) s ltac:(lia))).
  eexists. split; [done|]. intros [H0%Z.eqb_eq H1%Z.eqb_eq]%andb_prop i Hi.
  assert (i = 0 ∨ i = 1 ∨ i = 2) as [->|[->| ->]] by lia; [by rewrite !Z.add_0_r|done|done].
Qed.

(** *** The output *)

Lemma take_insert_middle (l : list Z) n k x : (n < length l)%nat →
  take (n + S k) (<[n := x]> l) = take n l ++ x :: take k (drop (S n) l).
Proof. intros Hn. rewrite insert_take_drop, take_app_add' by (done || rewrite length_take; lia). done. Qed.

(** [E] has been written, and no run is open. *)
Record wrote (E : list Z) (i : nat) s : Prop := {
  w_ip : ip s = Z.of_nat i;
  w_op : op s = Z.of_nat (length E);
  w_out : take (length E) (out s) = E;
  w_htab : ∀ j, 0 ≤ htab s j < 2 ^ 32 }.

Lemma wrote_fits E i s : wrote E i s → (length E ≤ length (out s))%nat.
Proof. intros [_ _ Hout _]. apply (f_equal length) in Hout. rewrite length_take in Hout. lia. Qed.

Lemma outPut_run i c s : 0 ≤ i < out_end s → outPut i c s = Ok (tt, set_out (<[Z.to_nat i := u8 c]> (out s)) s).
Proof. intros Hi. unfold outPut. rewrite bind_get. by replace (_ && _) with true by lia. Qed.

Lemma putByte_run E i s c : wrote E i s → (length E < length (out s))%nat →
  ∃ s', putByte c s = Ok (tt, s') ∧ wrote (E ++ [u8 c]) i s' ∧ length (out s') = length (out s).
Proof.
  intros [Hip Hop Hout Hh] Hlt. unfold putByte. rewrite bind_get.
  rewrite (bind_run _ _ _ _ _ (outPut_run (op s) c s ltac:(unfold out_end; lia))). eexists. split; [done|].
  rewrite Hop, Nat2Z.id. cbn [set_op set_out out]. split; [|apply length_insert]. split; cbn [set_op set_out ip op out htab]; try done.
  - rewrite length_app. cbn. lia.
  - rewrite length_app. cbn [length]. rewrite Nat.add_1_r, (take_S_r _ _ (u8 c)) by (apply list_lookup_insert_eq; lia).
    by rewrite take_insert_ge, Hout by lia.
Qed.

(** A run of [k] literals before position [i] of the input is open. *)
Record inv (ts : list token) (i k : nat) s : Prop := {
  v_ip : ip s = Z.of_nat i;
  v_lit : lit s = Z.of_nat k;
  v_k : (k ≤ i ≤ length in_data)%nat ∧ (k ≤ 32)%nat;
  v_op : op s = Z.of_nat (length (encodeAll ts) + 1 + k);
  v_fit : (0 < k)%nat → (length (encodeAll ts) + 1 + k ≤ length (out s))%nat;
  v_enc : take (length (encodeAll ts)) (out s) = encodeAll ts;
  v_run : take k (drop (S (length (encodeAll ts))) (out s)) = take k (drop (i - k) in_data);
  v_ok : Forall tokenOk ts;
  v_exp : expandAll ts = Some (take (i - k) in_data);
  v_htab : ∀ j, 0 ≤ htab s j < 2 ^ 32 }.

(** The output stands for the first [i] bytes of the input. *)
Record closed (ts : list token) (i : nat) s : Prop := {
  c_wrote : wrote (encodeAll ts) i s;
  c_i : (i ≤ length in_data)%nat;
  c_ok : Forall tokenOk ts;
  c_exp : expandAll ts = Some (take i in_data) }.

Lemma startRun_run ts i s : closed ts i s → ∃ s', startRun s = Ok (tt, s') ∧ inv ts i 0 s' ∧ out s' = out s ∧ op s' = op s + 1.
Proof.
  intros [[Hip Hop Hout Hh] Hi Hok Hexp]. eexists. split; [done|]. split; [|done].
  split; cbn [set_lit set_op ip op lit out htab]; rewrite ?Nat.sub_0_r; try done; try lia.
Qed.

Lemma run_token i k : (k ≤ i ≤ length in_data)%nat → (1 ≤ k ≤ 32)%nat →
  tokenOk (Run (take k (drop (i - k) in_data))) ∧ length (take k (drop (i - k) in_data)) = k ∧
  take (i - k) in_data ++ take k (drop (i - k) in_data) = take i in_data.
Proof.
  intros Hi Hk. assert (length (take k (drop (i - k) in_data)) = k) as Hl by (rewrite length_take, length_drop; lia).
  split_and!; [|done|].
  - split; [lia|]. by apply Forall_take, Forall_drop.
  - rewrite take_take_drop. f_equal. lia.
Qed.

Lemma stopRun_run ts i k s : inv ts i k s → (0 < k)%nat →
  ∃ ts' s', stopRun s = Ok (tt, s') ∧ closed ts' i s' ∧ lit s' = lit s ∧ op s' = op s ∧ length (out s') = length (out s).
Proof.
  intros [Hip Hlit [Hi Hk] Hop Hfit Henc Hrun Hok Hexp Hh] Hpos. specialize (Hfit Hpos). set (E := encodeAll ts) in *.
  destruct (run_token i k Hi ltac:(lia)) as (Htok & Hlen & Htake). set (L := take k (drop (i - k) in_data)) in *.
  unfold stopRun. rewrite bind_get, outPut_run by (unfold out_end; lia). exists (ts ++ [Run L]). eexists. split; [done|].
  cbn [set_out lit op out]. rewrite length_insert. split; [|done].
  assert (encodeAll (ts ++ [Run L]) = E ++ (Z.of_nat k - 1) :: L) as HE
    by (rewrite encodeAll_app, encodeAll_one; cbn [encode]; by rewrite Hlen).
  split; [split; cbn [set_out ip op out htab]; [done| | |done]|lia|by apply Forall_app; split; [|apply Forall_singleton]|].
  - rewrite HE, length_app. cbn [length]. lia.
  - replace (Z.to_nat (op s - lit s - 1)) with (length E) by lia. rewrite Hlit, u8_byte by (unfold byte; lia).
    rewrite HE, length_app. cbn [length]. by rewrite Hlen, take_insert_middle, Henc, Hrun by lia.
  - rewrite (expandAll_app ts _ _ Hexp). cbn [expand]. by rewrite Htake.
Qed.

(** [op [- lit - 1] = lit - 1; op -= !lit] *)
Lemma closeRun_run ts i k s : inv ts i k s → (length (encodeAll ts) < length (out s))%nat →
  ∃ ts' s', stopRun s = Ok (tt, s') ∧
    ∃ s'', undoRun s' = Ok (tt, s'') ∧ closed ts' i s'' ∧ length (out s'') = length (out s) ∧
      op s'' = op s - (if lit s =? 0 then 1 else 0).
Proof.
  intros Hinv Hlt. pose proof (v_lit _ _ _ _ Hinv) as Hlit. destruct (decide (k = 0%nat)) as [->|Hk].
  - destruct Hinv as [Hip _ [Hi _] Hop _ Henc _ Hok Hexp Hh]. rewrite Nat.sub_0_r in Hexp.
    unfold stopRun. rewrite bind_get. exists ts. eexists. split; [by apply outPut_run; unfold out_end; lia|].
    eexists. split; [done|]. cbn [set_op set_out lit op out]. rewrite length_insert. split_and!; [|done|done].
    split; [split; cbn [set_op set_out ip op lit out htab]; [done| | |done]|lia|done|done].
    + replace (lit s =? 0) with true by lia. lia.
    + rewrite take_insert_ge by lia. done.
  - destruct (stopRun_run ts i k s Hinv ltac:(lia)) as (ts' & s' & Hrun & [[] ? ? ?] & Hl & Ho & Hn).
    exists ts', s'. split; [done|]. eexists. split; [done|]. cbn [set_op lit op out].
    replace (lit s' =? 0) with false by lia. replace (lit s =? 0) with false by lia. split_and!; [|done|lia].
    split; [split; cbn; try done; lia|done|done|done].
Qed.

(** *** Literals *)

Lemma putByte_eq c s : 0 ≤ op s < out_end s →
  putByte c s = Ok (tt, set_op (op s + 1) (set_out (<[Z.to_nat (op s) := u8 c]> (out s)) s)).
Proof. intros Ho. unfold putByte. by rewrite bind_get, (bind_run _ _ _ _ _ (outPut_run (op s) c s Ho)). Qed.

(** The state after [lit++; *op++ = *ip++]. *)
Definition pushed s : lzf :=
  mkLzf (htab s) (ip s + 1) (op s + 1) (lit s + 1) (hval s) (<[Z.to_nat (op s) := inp (ip s)]> (out s)).

Lemma pushed_inv ts i k s : inv ts i k s → (k < 32)%nat → (i < length in_data)%nat → op s < out_end s →
  inv ts (S i) (S k) (pushed s).
Proof.
  intros [Hip Hlit [Hi Hk] Hop Hfit Henc Hrun Hok Hexp Hh] Hk32 Hlt Ho. unfold out_end in Ho.
  assert (in_data !! i = Some (inp (ip s))) as Hc by (rewrite Hip, Nat2Z.id; by apply list_lookup_lookup_total_lt).
  split; cbn [pushed ip op lit out htab]; try done; try lia.
  - rewrite length_insert. lia.
  - by rewrite take_insert_ge by lia.
  - replace (Z.to_nat (op s)) with (S (length (encodeAll ts)) + k)%nat by lia. replace (S i - S k)%nat with (i - k)%nat by lia.
    rewrite (take_S_r _ _ (inp (ip s))) by (rewrite lookup_drop, list_lookup_insert_eq by lia; done).
    rewrite (take_S_r (drop (i - k) in_data) k (inp (ip s))) by (rewrite lookup_drop, <-Hc; f_equal; lia).
    rewrite drop_insert_ge, take_insert_ge, Hrun by lia. done.
Qed.

Lemma copyLiteral_run ts i k s : inv ts i k s → (k < 32)%nat → (i < length in_data)%nat → op s < out_end s →
  ∃ ts' k' s', copyLiteral in_data s = Ok (tt, s') ∧ inv ts' (S i) k' s' ∧ (k' < 32)%nat ∧
    length (out s') = length (out s) ∧ (op s' = op s + 1 ∧ k' = S k ∨ op s' = op s + 2 ∧ k' = 0%nat ∧ k = 31%nat).
Proof.
  intros Hinv Hk32 Hlt Ho. pose proof (pushed_inv ts i k s Hinv Hk32 Hlt Ho) as Hp.
  pose proof Hinv as [Hip Hlit [Hi Hk] Hop _ _ _ _ _ _]. unfold copyLiteral.
  rewrite bind_get, (bind_run _ _ _ _ _ (inAt_run (ip s) s ltac:(lia))).
  rewrite (bind_run _ _ _ tt (set_lit (lit s + 1) s)) by done.
  rewrite (bind_run _ _ _ _ _ (putByte_eq (inp (ip s)) (set_lit (lit s + 1) s) ltac:(cbn; unfold out_end in *; cbn; lia))).
  rewrite bind_modify, bind_get. rewrite u8_byte by (apply inp_byte; lia). change (set_ip (ip s + 1) _) with (pushed s).
  cbn [pushed lit]. change MAX_LIT with 32. assert (length (out (pushed s)) = length (out s)) as Hl by apply length_insert.
  destruct (Z.eqb_spec (lit s + 1) 32).
  - destruct (stopRun_run ts (S i) (S k) (pushed s) Hp ltac:(lia)) as (ts' & s1 & Hstop & Hcl & _ & Ho1 & Hl1).
    destruct (startRun_run ts' (S i) s1 Hcl) as (s2 & Hstart & Hinv2 & Hout2 & Ho2).
    exists ts', 0%nat, s2. rewrite (bind_run _ _ _ _ _ Hstop), Hstart, Hout2, Hl1, Ho2, Ho1.
    split_and!; [done|done|lia|done|]. right. cbn. lia.
  - exists ts, (S k), (pushed s). split_and!; [done|done|lia|done|]. left. split; [done|lia].
Qed.

(** *** The end of the input *)

Lemma copyRest_run n : ∀ ts i k s, inv ts i k s → (k < 32)%nat → (length in_data - i ≤ n)%nat → (n ≤ 2)%nat →
  op s + Z.of_nat (length in_data - i) + (if decide (32 ≤ k + (length in_data - i))%nat then 1 else 0) ≤ out_end s →
  ∃ ts' k' s', copyRest in_data n s = Ok (tt, s') ∧ inv ts' (length in_data) k' s' ∧ op s' ≤ out_end s' ∧
    length (out s') = length (out s).
Proof.
  induction n as [|n IH]; intros ts i k s Hinv Hk Hn Hn2 Ho; pose proof (v_ip _ _ _ _ Hinv) as Hip;
    pose proof (v_k _ _ _ _ Hinv) as [Hi _]; cbn [copyRest]; rewrite bind_get; unfold in_end.
  - replace (ip s <? _) with false by lia. exists ts, k, s. assert (i = length in_data) as <- by lia. split_and!; try done.
    case_decide; lia.
  - destruct (Z.ltb_spec (ip s) N).
    + destruct (copyLiteral_run ts i k s Hinv Hk) as (ts1 & k1 & s1 & Hrun & Hinv1 & Hk1 & Hl1 & Hop1); [lia|case_decide; lia|].
      rewrite (bind_run _ _ _ _ _ Hrun). destruct (IH ts1 (S i) k1 s1 Hinv1 Hk1) as (ts' & k' & s' & Hrun' & Hinv' & Ho' & Hl');
        [lia|lia|unfold out_end in *; rewrite Hl1; do 2 case_decide; lia|].
      exists ts', k', s'. rewrite Hl', Hl1. done.
    + exists ts, k, s. assert (i = length in_data) as <- by lia. split_and!; try done. case_decide; lia.
Qed.

(** What the compressor returns. *)
Definition compressed (r : Z) (o : list Z) : Prop :=
  r = 0 ∨ ∃ ts, r = Z.of_nat (length (encodeAll ts)) ∧ take (Z.to_nat r) o = encodeAll ts ∧
    Forall tokenOk ts ∧ expandAll ts = Some in_data.

Lemma finish_run ts i k s : inv ts i k s → (k < 32)%nat → (length in_data - i ≤ 2)%nat →
  ∃ r s', finish in_data s = Ok (r, s') ∧ length (out s') = length (out s) ∧ compressed r (out s').
Proof.
  intros Hinv Hk Hi. unfold finish. rewrite bind_get. destruct (Z.ltb_spec (out_end s) (op s + 3)).
  { exists 0, s. split_and!; [done|done|by left]. }
  destruct (copyRest_run 2 ts i k s Hinv Hk Hi) as (ts1 & k1 & s1 & Hrun & Hinv1 & Ho1 & Hl1); [lia|case_decide; lia|].
  rewrite (bind_run _ _ _ _ _ Hrun). pose proof (v_op _ _ _ _ Hinv1) as Hop1. unfold out_end in Ho1.
  destruct (closeRun_run ts1 _ k1 s1 Hinv1) as (ts2 & s2 & Hstop & s3 & Hundo & [[] ? ? ?] & Hl3 & _); [lia|].
  rewrite (bind_run _ _ _ _ _ Hstop), (bind_run _ _ _ _ _ Hundo). eexists _, _. split; [done|].
  split; [lia|]. right. exists ts2. rewrite firstn_all in *. split_and!; try done. by rewrite w_op0, Nat2Z.id.
Qed.

(** *** Matches *)

Lemma inv_same ts i k s s' : inv ts i k s → ip s' = ip s → op s' = op s → lit s' = lit s → out s' = out s →
  (∀ j, 0 ≤ htab s' j < 2 ^ 32) → inv ts i k s'.
Proof. intros [] Hip Hop Hlit Hout Hh. split; rewrite ?Hip, ?Hop, ?Hlit, ?Hout; done. Qed.

Lemma nextSlot_run s : 0 ≤ ip s → ip s + 2 < N → (∀ j, 0 ≤ htab s j < 2 ^ 32) →
  ∃ h, nextSlot in_data s = Ok (htab s (IDX h), set_slot h (IDX h) (u32 (ip s)) s) ∧
    ∀ j, 0 ≤ htab (set_slot h (IDX h) (u32 (ip s)) s) j < 2 ^ 32.
Proof.
  intros Hi Hn Hh. unfold nextSlot, NEXT. rewrite bind_get.
  set (h := Z.lor (u32 (Z.shiftl (hval s) 8)) (inp (ip s + 2))). exists h.
  rewrite (bind_run _ _ _ h s) by by rewrite (bind_run _ _ _ _ _ (inAt_run (ip s + 2) s ltac:(lia))).
  split; [done|]. intros j. cbn [set_slot htab]. case_match; [|done]. unfold u32. by apply Z.mod_pos_bound.
Qed.

Lemma FRST_run p s : 0 ≤ p → p + 1 < N → ∃ h, FRST in_data p s = Ok (h, s).
Proof.
  intros Hp Hn. unfold FRST.
  rewrite (bind_run _ _ _ _ _ (inAt_run p s ltac:(lia))), (bind_run _ _ _ _ _ (inAt_run (p + 1) s ltac:(lia))). by eexists.
Qed.

(** The bytes of a back reference. *)
Lemma putRef_run ts i s off len : closed ts i s → Z.of_nat off < MAX_OFF → 3 ≤ Z.of_nat len ≤ MAX_REF →
  (length (encodeAll ts) + 3 ≤ length (out s))%nat →
  ∃ s', putRef (Z.of_nat off) (Z.of_nat len - 2) s = Ok (tt, s') ∧ wrote (encodeAll (ts ++ [Ref off len])) i s' ∧
    length (out s') = length (out s).
Proof.
  intros [Hw _ _ _] Hoff Hlen Hfit. rewrite encodeAll_app, encodeAll_one. unfold putRef, encode.
  set (o := Z.of_nat off) in *. set (l := Z.of_nat len - 2). change MAX_OFF with 8192 in Hoff. change MAX_REF with 264 in Hlen.
  assert (0 ≤ o / 256 < 32) by (split; [apply Z.div_pos; lia|apply Z.div_lt_upper_bound; lia]).
  assert (∀ x, 0 ≤ x < 8 → u8 (Z.shiftr o 8 + Z.shiftl x 5) = o / 256 + 32 * x) as Hctrl.
  { intros x Hx. rewrite Z.shiftr_div_pow2, Z.shiftl_mul_pow2 by lia. change (2 ^ 8) with 256. change (2 ^ 5) with 32.
    rewrite u8_byte; [lia|]. unfold byte. lia. }
  assert (u8 o = o mod 256) as Ho by done. destruct (Z.ltb_spec l 7).
  - destruct (putByte_run _ i s (Z.shiftr o 8 + Z.shiftl l 5) Hw) as (s1 & Hrun1 & Hw1 & Hl1); [lia|].
    destruct (putByte_run _ i s1 o Hw1) as (s2 & Hrun2 & Hw2 & Hl2); [rewrite length_app; cbn; lia|].
    exists s2. rewrite (bind_run _ _ _ _ _ Hrun1), Hrun2. split; [done|]. rewrite Hctrl, Ho, <-app_assoc in Hw2 by lia.
    split; [done|lia].
  - destruct (putByte_run _ i s (Z.shiftr o 8 + Z.shiftl 7 5) Hw) as (s1 & Hrun1 & Hw1 & Hl1); [lia|].
    destruct (putByte_run _ i s1 (l - 7) Hw1) as (s2 & Hrun2 & Hw2 & Hl2); [rewrite length_app; cbn; lia|].
    destruct (putByte_run _ i s2 o Hw2) as (s3 & Hrun3 & Hw3 & Hl3); [rewrite !length_app; cbn; lia|].
    exists s3. rewrite (bind_run _ _ _ tt s2) by by rewrite (bind_run _ _ _ _ _ Hrun1). rewrite Hrun3. split; [done|].
    rewrite Hctrl, Ho, (u8_byte (l - 7)), <-!app_assoc in Hw3 by (unfold byte; lia). split; [done|lia].
Qed.

(** A reference to bytes that agree stands for the next bytes of the input. *)
Lemma ref_closed ts i s ref len s' : closed ts i s → 0 ≤ ref < Z.of_nat i → Z.of_nat i - ref - 1 < MAX_OFF →
  3 ≤ Z.of_nat len ≤ MAX_REF → (i + len ≤ length in_data)%nat → agree ref (Z.of_nat i) (Z.of_nat len) →
  wrote (encodeAll (ts ++ [Ref (Z.to_nat (Z.of_nat i - ref - 1)) len])) (i + len) s' →
  closed (ts ++ [Ref (Z.to_nat (Z.of_nat i - ref - 1)) len]) (i + len) s'.
Proof.
  intros [_ Hi Hok Hexp] Hr Hoff Hlen Hfit Ha Hw. split; [done|done|..].
  - apply Forall_app. split; [done|]. apply Forall_singleton. split; [lia|done].
  - rewrite (expandAll_app ts _ _ Hexp). cbn [expand]. apply copyBack_repeats; [lia|lia|]. intros j Hj.
    specialize (Ha (Z.of_nat j) ltac:(lia)).
    rewrite !list_lookup_lookup_total_lt by lia. f_equal.
    replace (Z.to_nat (ref + Z.of_nat j)) with (i - Z.to_nat (Z.of_nat i - ref - 1) - 1 + j)%nat in Ha by lia.
    by replace (Z.to_nat (Z.of_nat i + Z.of_nat j)) with (i + j)%nat in Ha by lia.
Qed.
Lemma insertTwo_run ts i k s : inv ts i k s → (2 ≤ i)%nat → Z.of_nat i + 1 < N →
  ∃ s', insertTwo in_data (Z.of_nat i) s = Ok (tt, s') ∧ inv ts i k s' ∧ out s' = out s.
Proof.
  intros Hinv Hi Hn. pose proof (v_htab _ _ _ _ Hinv) as Hh. pose proof (v_ip _ _ _ _ Hinv) as Hip. unfold insertTwo. rewrite bind_modify.
  destruct (FRST_run (Z.of_nat i - 2) (set_ip (Z.of_nat i - 2) s)) as [h0 Hf]; [lia|lia|].
  rewrite (bind_run _ _ _ _ _ Hf), bind_modify.
  set (s1 := set_hval h0 (set_ip (Z.of_nat i - 2) s)).
  destruct (nextSlot_run s1) as (h1 & Hr1 & Hh1); [cbn; lia|cbn; lia|done|]. rewrite (bind_run _ _ _ _ _ Hr1), bind_modify.
  set (s2 := set_ip (Z.of_nat i - 1) (set_slot h1 (IDX h1) (u32 (ip s1)) s1)) in *.
  destruct (nextSlot_run s2) as (h2 & Hr2 & Hh2); [cbn; lia|cbn; lia|done|]. rewrite (bind_run _ _ _ _ _ Hr2).
  eexists. split; [done|]. split; [|done]. by apply (inv_same ts i k s).
Qed.

(** What a turn does: it gives up, or goes on with more input read. *)
Definition turned (i : nat) (n : nat) (t : turn) s' : Prop :=
  length (out s') = n ∧
  match t with
  | ReturnZero => True
  | NextTurn => ∃ ts' i' k', inv ts' i' k' s' ∧ (k' < 32)%nat ∧ (i < i')%nat
  | LeaveLoop => ∃ ts' i' k', inv ts' i' k' s' ∧ (k' < 32)%nat ∧ (length in_data - i' ≤ 2)%nat
  end.

Lemma emitMatch_run ts i k s ref : inv ts i k s → (k < 32)%nat → Z.of_nat i + 2 < N → 0 ≤ ref < Z.of_nat i →
  Z.of_nat i - ref - 1 < MAX_OFF → agree ref (Z.of_nat i) 3 →
  ∃ t s', emitMatch in_data ref (Z.of_nat i - ref - 1) s = Ok (t, s') ∧ turned i (length (out s)) t s'.
Proof.
  intros Hinv Hk Hn Hr Hoff Ha. pose proof Hinv as [Hip Hlit [Hi _] Hop _ _ _ _ _ _]. unfold emitMatch. rewrite bind_get, Hip.
  destruct ((_ <=? _) && (_ <=? _)) eqn:Hfull; [by exists ReturnZero, s|].
  destruct (closeRun_run ts i k s Hinv) as (ts1 & s1 & Hstop & s2 & Hundo & Hcl & Hl2 & Ho2).
  { unfold out_end in Hfull. destruct (Z.eqb_spec (lit s) 0); lia. }
  rewrite (bind_run _ _ _ _ _ Hstop), (bind_run _ _ _ _ _ Hundo). unfold in_end.
  destruct (matchLength_run ref (Z.of_nat i) (Z.min MAX_REF (N - Z.of_nat i - 2)) s2) as (len & Hm & Hlen & Hfit & Hagree); [lia|lia|done|done|].
  replace (if MAX_REF <? _ then _ else _) with (Z.min MAX_REF (N - Z.of_nat i - 2)).
  2: { unfold u32. rewrite Z.mod_small by lia. destruct (Z.ltb_spec MAX_REF (N - Z.of_nat i - 2)); lia. }
  rewrite (bind_run _ _ _ _ _ Hm). assert (len = Z.of_nat (Z.to_nat len)) as Hnat by lia. set (n := Z.to_nat len) in *. clearbody n. subst len.
  assert (Z.of_nat (length (encodeAll ts1)) + 4 < Z.of_nat (length (out s2))) as Hroom.
  { rewrite Hl2, <-(w_op _ _ _ (c_wrote _ _ _ Hcl)), Ho2. unfold out_end in Hfull. destruct (Z.eqb_spec (lit s) 0); lia. }
  destruct (putRef_run ts1 i s2 (Z.to_nat (Z.of_nat i - ref - 1)) n Hcl) as (s3 & Hput & Hw & Hl3); [lia|done|lia|].
  rewrite Z2Nat.id in Hput by lia. rewrite (bind_run _ _ _ _ _ Hput).
  (* [startRun] and the move of [ip] commute *)
  assert (closed (ts1 ++ [Ref (Z.to_nat (Z.of_nat i - ref - 1)) n]) (i + n) (set_ip (Z.of_nat (i + n)) s3)) as Hcl3.
  { eapply (ref_closed ts1 i s2); [done|lia|lia|done|lia|done|]. by destruct Hw. }
  destruct (startRun_run _ _ _ Hcl3) as (s4 & Hstart & Hinv4 & Hout4 & _). injection Hstart as Hs4.
  rewrite (bind_run _ _ _ tt (set_lit 0 (set_op (op s3 + 1) s3))), bind_modify by done.
  replace (Z.of_nat i + 1 + (Z.of_nat n - 2 + 1)) with (Z.of_nat (i + n)) by lia.
  change (set_ip (Z.of_nat (i + n)) _) with (set_lit 0 (set_op (op s3 + 1) (set_ip (Z.of_nat (i + n)) s3))). rewrite Hs4.
  assert (length (out s4) = length (out s)) as Hl4 by (rewrite Hout4; cbn; lia).
  destruct (Z.leb_spec (N - 2) (Z.of_nat (i + n))).
  - exists LeaveLoop, s4. split; [done|]. split; [done|]. eexists _, _, _. split; [done|]. lia.
  - destruct (insertTwo_run _ _ _ _ Hinv4) as (s5 & Hins & Hinv5 & Hout5); [lia|lia|]. rewrite (bind_run _ _ _ _ _ Hins).
    exists NextTurn, s5. split; [done|]. split; [by rewrite Hout5|]. eexists _, _, _. split; [done|]. lia.
Qed.

Lemma compressTurn_run ts i k s : inv ts i k s → (k < 32)%nat → Z.of_nat i + 2 < N →
  ∃ t s', compressTurn in_data s = Ok (t, s') ∧ turned i (length (out s)) t s'.
Proof.
  intros Hinv Hk Hn. pose proof Hinv as [Hip Hlit [Hi _] Hop _ _ _ _ _ Hh]. unfold compressTurn. rewrite bind_get.
  destruct (nextSlot_run s) as (h & Hslot & Hh1); [lia|lia|done|]. rewrite (bind_run _ _ _ _ _ Hslot). cbv zeta.
  specialize (Hh (IDX h)). set (ref := htab s (IDX h)) in *. set (s1 := set_slot h (IDX h) (u32 (ip s)) s) in *.
  assert (inv ts i k s1) as Hinv1 by by apply (inv_same ts i k s). rewrite Hip.
  assert (∃ b : bool, (if (u64 (Z.of_nat i - ref - 1) <? MAX_OFF) && (0 <? ref) then sameThree in_data ref (Z.of_nat i) else mret false) s1
    = Ok (b, s1) ∧ (b = true → 0 ≤ ref < Z.of_nat i ∧ u64 (Z.of_nat i - ref - 1) = Z.of_nat i - ref - 1 ∧
        Z.of_nat i - ref - 1 < MAX_OFF ∧ agree ref (Z.of_nat i) 3)) as (b & Hfound & Hb).
  { change MAX_OFF with 8192. destruct (_ && _) eqn:Hc; [|by exists false].
    assert (ref < Z.of_nat i) as Hlt.
    { destruct (Z.lt_ge_cases ref (Z.of_nat i)); [done|]. unfold u64 in Hc.
      rewrite <-(Z.mod_add _ 1), Z.mod_small in Hc by lia. lia. }
    rewrite u64_id in * by (unfold ULLONG_MAX; lia).
    destruct (sameThree_run ref (Z.of_nat i) s1) as (b & -> & Hb); [lia|lia|]. exists b. split; [done|]. intros ->.
    split_and!; [lia|lia|done|lia|by apply Hb]. }
  rewrite (bind_run _ _ _ _ _ Hfound). destruct b.
  - destruct Hb as (Hr & -> & Hoff & Ha); [done|]. by apply (emitMatch_run ts i k s1).
  - destruct (Z.leb_spec (out_end s) (op s)); [by exists ReturnZero, s1|].
    destruct (copyLiteral_run ts i k s1 Hinv1 Hk) as (ts' & k' & s' & Hrun & Hinv' & Hk' & Hl & _); [lia|done|].
    rewrite (bind_run _ _ _ _ _ Hrun). exists NextTurn, s'. split; [done|]. split; [done|]. exists ts', (S i), k'.
    split_and!; [done|done|lia].
Qed.

Lemma compressLoop_run fuel : ∀ ts i k s, inv ts i k s → (k < 32)%nat → (length in_data - i ≤ fuel)%nat →
  ∃ r s', compressLoop in_data fuel s = Ok (r, s') ∧ length (out s') = length (out s) ∧ compressed r (out s').
Proof.
  induction fuel as [|fuel IH]; intros ts i k s Hinv Hk Hf; pose proof (v_ip _ _ _ _ Hinv) as Hip; cbn [compressLoop];
    rewrite bind_get; unfold in_end.
  { replace (_ <? _) with false by lia. apply (finish_run ts i k); done || lia. }
  destruct (Z.ltb_spec (ip s) (N - 2)); [|apply (finish_run ts i k); done || lia].
  destruct (compressTurn_run ts i k s Hinv Hk ltac:(lia)) as (t & s1 & Hrun & Hl1 & Ht). rewrite (bind_run _ _ _ _ _ Hrun).
  destruct t.
  - destruct Ht as (ts1 & i1 & k1 & Hinv1 & Hk1 & Hlt).
    destruct (IH ts1 i1 k1 s1 Hinv1 Hk1 ltac:(lia)) as (r & s' & -> & Hl & Hc). exists r, s'. split_and!; [done|lia|done].
  - destruct Ht as (ts1 & i1 & k1 & Hinv1 & Hk1 & Hle).
    destruct (finish_run ts1 i1 k1 s1 Hinv1 Hk1 Hle) as (r & s' & -> & Hl & Hc). exists r, s'. split_and!; [done|lia|done].
  - exists 0, s1. split_and!; [done|done|by left].
Qed.

Lemma lzf_compress_run (htab : Z → Z) (out_data : list Z) : (∀ j, 0 ≤ htab j < 2 ^ 32) → 2 ≤ N →
  ∃ r o, lzf_compress in_data htab out_data = Ok (r, o) ∧ length o = length out_data ∧ compressed r o.
Proof.
  intros Hh Hn. unfold lzf_compress, in_end. destruct (_ || _) eqn:Hz; [by exists 0, out_data; split_and!; [..|left]|].
  destruct (FRST_run 0 (mkLzf htab 0 0 0 0 out_data)) as [h Hf]; [lia|lia|].
  rewrite (bind_run _ _ _ _ _ Hf), bind_modify. cbn [Lzf.htab out].
  destruct (compressLoop_run (length in_data) [] 0 0 (mkLzf htab 0 1 0 h out_data)) as (r & s' & -> & Hl & Hc); [|lia|lia|].
  { split; cbn; try done; lia. }
  by exists r, (out s').
Qed.

End Compress.

(** ** Correctness *)

Lemma encodeAll_count ts : (length ts ≤ length (encodeAll ts))%nat.
Proof.
  induction ts as [|t ts IH]; [done|]. change (encodeAll (t :: ts)) with (encode t ++ encodeAll ts). rewrite length_app.
  assert (1 ≤ length (encode t))%nat by (destruct t; cbn; [lia|case_match; cbn; lia]). cbn. lia.
Qed.

Lemma encode_bytes t : tokenOk t → Forall byte (encode t).
Proof.
  destruct t as [bs|off len]; cbn [tokenOk encode]; unfold byte, MAX_OFF, MAX_REF; intros [Ho Hl].
  - constructor; [lia|done].
  - pose proof (Z.mod_pos_bound (Z.of_nat off) 256). pose proof (Z.div_pos (Z.of_nat off) 256).
    pose proof (Z.div_lt_upper_bound (Z.of_nat off) 256 32).
    change (Z.shiftl 1 13) with 8192 in *. change (Z.shiftl 1 8 + Z.shiftl 1 3) with 264 in *. case_match; repeat constructor; lia.
Qed.

Lemma encodeAll_bytes ts : Forall tokenOk ts → Forall byte (encodeAll ts).
Proof.
  unfold encodeAll. induction 1 as [|t ts Ht _ IH]; [constructor|]. apply Forall_app. split; [by apply encode_bytes|done].
Qed.

(** What is compressed are bytes, and they expand to the input. *)
Lemma lzf_inverse (in_data out_data : list Z) (htab : Z → Z) :
  Forall byte in_data → 2 ≤ Z.of_nat (length in_data) < 2 ^ 32 → (∀ j, 0 ≤ htab j < 2 ^ 32) →
  ∃ n out', lzf_compress in_data htab out_data = Ok (n, out') ∧ length out' = length out_data ∧
    0 ≤ n ≤ Z.of_nat (length out_data) ∧
    (n ≠ 0 → Forall byte (take (Z.to_nat n) out') ∧ ∀ buf, (length in_data ≤ length buf)%nat →
       lzf_decompress (take (Z.to_nat n) out') buf = Ok (inr (Z.of_nat (length in_data)), in_data ++ drop (length in_data) buf)).
Proof.
  intros Hb Hn Hh. destruct (lzf_compress_run in_data Hb ltac:(lia) htab out_data Hh ltac:(lia)) as (n & o & Hrun & Hl & Hc).
  exists n, o. split; [done|]. split; [done|]. destruct Hc as [->|(ts & -> & Htake & Hok & Hexp)]; [split; [lia|done]|].
  pose proof (f_equal length Htake) as Hlen. rewrite length_take, Nat2Z.id in Hlen. split; [lia|]. intros _.
  rewrite Htake. split; [by apply encodeAll_bytes|]. intros buf Hbuf. unfold lzf_decompress. pose proof (encodeAll_count ts).
  change (mkUnlzf 0 0 buf) with (expanded [] [] buf).
  rewrite (decompressLoop_run (encodeAll ts) ts [] [] buf in_data); [|done| |done|done|done|unfold byteFits; cbn; lia|lia].
  2: { intros ->. injection Hexp as <-. cbn in Hn. lia. }
  cbn [fst snd expanded d_out]. by rewrite Nat.sub_0_r.
Qed.

(** [hval = FRST (ip)] reads two bytes whatever the length. *)
Lemma compress_one_byte (in_data out_data : list Z) (htab : Z → Z) : length in_data = 1%nat → out_data ≠ [] →
  lzf_compress in_data htab out_data = Fault (BadPointer "lzf_compress: in_data").
Proof. intros Hl Ho. destruct in_data as [|x [|]]; [done| |done]. by destruct out_data. Qed.

Lemma compress_nothing (in_data out_data : list Z) (htab : Z → Z) : in_data = [] ∨ out_data = [] →
  lzf_compress in_data htab out_data = Ok (0, out_data).
Proof. intros [->| ->]; [done|]. unfold lzf_compress. by rewrite orb_true_r. Qed.

(** C37. For every input below 2^32 bytes except one of a single byte, and an output
    array of any size, the compressor never reads or writes out of its arrays,
    whatever the 32-bit slots of the uninitialised hash table hold, and when it
    returns a length that is not 0, these bytes are decompressed to the original
    ones in any buffer that is not shorter. For an input of one byte (and an output
    array that is not empty) it reads one byte after the input. *)
Theorem lzf_round_trip (in_data out_data buf : list Z) (htab : Z → Z) :
  Forall byte in_data → Z.of_nat (length in_data) < 2 ^ 32 → (∀ j, 0 ≤ htab j < 2 ^ 32) →
  (length in_data ≤ length buf)%nat →
  if decide (length in_data = 1%nat ∧ out_data ≠ [])
  then lzf_compress in_data htab out_data = Fault (BadPointer "lzf_compress: in_data")
  else ∃ n out', lzf_compress in_data htab out_data = Ok (n, out') ∧ length out' = length out_data ∧
    0 ≤ n ≤ Z.of_nat (length out_data) ∧
    (n ≠ 0 → ∃ buf', lzf_decompress (take (Z.to_nat n) out') buf = Ok (inr (Z.of_nat (length in_data)), buf') ∧
       take (length in_data) buf' = in_data ∧ length buf' = length buf).
Proof.
  intros Hb Hn Hh Hbuf. case_decide as Hone.
  { destruct Hone as [Hl Ho]. by apply compress_one_byte. }
  destruct (decide (2 ≤ Z.of_nat (length in_data))) as [H2|H2].
  - destruct (lzf_inverse in_data out_data htab Hb ltac:(lia) Hh) as (n & o & Hrun & Hl & Hle & Hc).
    exists n, o. split_and!; [done|done|lia|lia|]. intros Hne. destruct (Hc Hne) as [_ Hd]. rewrite (Hd buf Hbuf).
    eexists. split; [done|]. rewrite take_app_length, length_app, length_drop. split; [done|lia].
  - exists 0, out_data. rewrite compress_nothing; [by split_and!; [|lia..|]|].
    destruct in_data as [|x [|y l]]; [by left| |cbn in H2; lia]. right. apply dec_stable. naive_solver.
Qed.

(** The decompressor ends on every non-empty input, without reading or writing out
    of its arrays, and returns an error or a length that fits. *)
Theorem lzf_decompress_stays_inside (in_data out_data : list Z) : Forall byte in_data → in_data ≠ [] →
  ∃ r out', lzf_decompress in_data out_data = Ok (r, out') ∧ length out' = length out_data ∧
    ∀ n, r = inr n → 0 ≤ n ≤ Z.of_nat (length out_data).
Proof.
  intros Hb Hne. unfold lzf_decompress.
  assert (wp noFault (decompressLoop in_data (S (length in_data)))
    (λ r s', inside in_data (Z.of_nat (length out_data)) s' ∧ ∀ k, r = inr k → 0 ≤ k ≤ Z.of_nat (length out_data))
    (mkUnlzf 0 0 out_data)) as Hwp.
  { assert (0 < length in_data)%nat by (by destruct in_data; [|cbn; lia]).
    apply decompressLoop_safe; [done|split; unfold d_end; cbn; lia|cbn; lia|cbn; lia]. }
  apply wp_run in Hwp as (r & s' & -> & [_ _ Hl] & Hk). eexists _, _. split; [done|]. unfold d_end in Hl. cbn [fst snd]. split; [lia|done].
Qed.

(** ** Witnesses *)

Definition sampleText : list Z := replicate 20 97 ++ [98; 99; 97; 98; 99; 97; 98; 99; 100; 101].

Lemma lzf_round_trip_witness :
  (∃ n out' buf', lzf_compress sampleText (λ _, 7) (replicate 40 0) = Ok (n, out') ∧ n = 14 ∧
    lzf_decompress (take 14 out') (replicate 30 0) = Ok (inr 30, buf') ∧ take 30 buf' = sampleText) ∧
  lzf_compress [97] (λ _, 7) (replicate 4 0) = Fault (BadPointer "lzf_compress: in_data").
Proof.
  split.
  - destruct (lzf_round_trip sampleText (replicate 40 0) (replicate 30 0) (λ _, 7)) as (n & out' & Hrun & _ & _ & Hd).
    + unfold sampleText, byte. apply Forall_app. split; [apply Forall_replicate; lia|]. repeat (constructor; [lia|]). constructor.
    + reflexivity.
    + lia.
    + vm_compute. lia.
    + assert (n = 14) as -> by (vm_compute in Hrun; congruence).
      destruct Hd as (buf' & Hdec & Htake & _); [discriminate|]. exists 14, out', buf'. split_and!; [exact Hrun|reflexivity|exact Hdec|exact Htake].
  - apply (lzf_round_trip [97] (replicate 4 0) [0] (λ _, 7)); [repeat constructor; unfold byte; lia|reflexivity|lia|cbn; lia].
Defined.

(** A reference before the start of the output is refused. *)
Lemma lzf_decompress_stays_inside_witness :
  ∃ r out', lzf_decompress [0; 65; 32; 200] (replicate 8 0) = Ok (r, out') ∧ r = inl EINVAL ∧ length out' = 8%nat.
Proof.
  destruct (lzf_decompress_stays_inside [0; 65; 32; 200] (replicate 8 0)) as (r & out' & Hrun & Hl & _).
  - unfold byte. repeat (constructor; [lia|]). constructor.
  - discriminate.
  - exists r, out'. split; [exact Hrun|]. split; [vm_compute in Hrun; congruence|exact Hl].
Defined.
