(* ===== verification/Object.v ===== *)
(** * Object: string objects of src/src/object.c

    The [robj] record of server.h with its type, encoding and pointer, the
    constructors of string objects, [tryObjectEncoding], the accessors used by
    the string commands and by the backend, and the comparison of string
    objects.  [obj_bytes] is the byte string an object stands for; the theorems
    show that no operation here changes or confuses it, whatever the encoding. *)

From Stdlib Require Import Ascii String.
From stdpp Require Import base tactics option list strings numbers.
From S2P Require Import Prelude Util.

Local Open Scope Z_scope.

(** ** Data *)

Inductive objType :=
  OBJ_STRING | OBJ_LIST | OBJ_SET | OBJ_ZSET | OBJ_HASH | OBJ_MODULE | OBJ_STREAM.

(** [OBJ_ENCODING_OTHER] stands for the encodings of the non-string types. *)
Inductive objEncoding :=
  OBJ_ENCODING_RAW | OBJ_ENCODING_INT | OBJ_ENCODING_EMBSTR | OBJ_ENCODING_OTHER.

(** The [void *ptr] field: an sds string, a [long] cast to a pointer, or a
    pointer to a structure of another type. *)
Inductive objPtr :=
  | PtrSds (s : bytes)
  | PtrLong (n : Z)
  | PtrData (p : nat).

Record robj := mkObj { o_type : objType; o_encoding : objEncoding; o_ptr : objPtr }.

#[global] Instance objType_eq_dec : EqDecision objType.
Proof. solve_decision. Defined.
#[global] Instance objEncoding_eq_dec : EqDecision objEncoding.
Proof. solve_decision. Defined.
#[global] Instance objPtr_eq_dec : EqDecision objPtr.
Proof. solve_decision. Defined.
#[global] Instance robj_eq_dec : EqDecision robj.
Proof. solve_decision. Defined.

Definition OBJ_ENCODING_EMBSTR_SIZE_LIMIT : Z := 44.

(** ** Constructors *)

Definition createRawStringObject (s : bytes) : robj :=
  mkObj OBJ_STRING OBJ_ENCODING_RAW (PtrSds s).

Definition createEmbeddedStringObject (s : bytes) : robj :=
  mkObj OBJ_STRING OBJ_ENCODING_EMBSTR (PtrSds s).

Definition createStringObject (s : bytes) : robj :=
  if Z.of_nat (length s) <=? OBJ_ENCODING_EMBSTR_SIZE_LIMIT
  then createEmbeddedStringObject s
  else createRawStringObject s.

(** The integer objects: the shared ones and those made by
    [createStringObjectFromLongLongForValue] differ in reference counts only. *)
Definition createIntObject (n : Z) : robj := mkObj OBJ_STRING OBJ_ENCODING_INT (PtrLong n).

(** ** Accessors *)

Definition sdsEncodedObject (o : robj) : bool :=
  bool_decide (o_encoding o = OBJ_ENCODING_RAW) || bool_decide (o_encoding o = OBJ_ENCODING_EMBSTR).

Section Accessors.
Context {S : Type}.

(** Reading [o->ptr] as an sds string: an integer or another structure is not
    one, and the read is a wild access. *)
Definition ptrSds (o : robj) (site : string) : M S bytes :=
  match o_ptr o with
  | PtrSds s => mret s
  | _ => fail (BadPointer site)
  end.

(** [(long)o->ptr]. *)
Definition ptrLong (o : robj) (site : string) : M S Z :=
  match o_ptr o with
  | PtrLong n => mret n
  | _ => fail (BadPointer site)
  end.

Definition tryObjectEncoding (o : robj) : M S robj :=
  serverAssert (bool_decide (o_type o = OBJ_STRING)) "tryObjectEncoding" ;;
  if negb (sdsEncodedObject o) then mret o else
  s ← ptrSds o "tryObjectEncoding";
  let len := Z.of_nat (length s) in
  match (if len <=? 20 then string2l s else None) with
  | Some value => mret (createIntObject value)
  | None =>
      if len <=? OBJ_ENCODING_EMBSTR_SIZE_LIMIT then
        if bool_decide (o_encoding o = OBJ_ENCODING_EMBSTR) then mret o
        else mret (createEmbeddedStringObject s)
      else mret o
  end.

(** [None] for the result is [C_ERR]. *)
Definition getLongLongFromObject (o : option robj) : M S (option Z) :=
  match o with
  | None => mret (Some 0)
  | Some o =>
      serverAssert (bool_decide (o_type o = OBJ_STRING)) "getLongLongFromObject" ;;
      if sdsEncodedObject o then
        s ← ptrSds o "getLongLongFromObject"; mret (string2ll s)
      else if bool_decide (o_encoding o = OBJ_ENCODING_INT) then
        n ← ptrLong o "getLongLongFromObject"; mret (Some n)
      else fail (AssertFailed "getLongLongFromObject: unknown string encoding")
  end.

Definition stringObjectLen (o : robj) : M S Z :=
  serverAssert (bool_decide (o_type o = OBJ_STRING)) "stringObjectLen" ;;
  if sdsEncodedObject o then s ← ptrSds o "stringObjectLen"; mret (Z.of_nat (length s))
  else n ← ptrLong o "stringObjectLen"; mret (sdigits10 n).

(** The [ll2string] calls on a stack buffer of [sz] bytes. *)
Definition ll2buf (sz : nat) (n : Z) : bytes :=
  let '(len, buf) := ll2string (replicate sz NUL) (Z.of_nat sz) n in take (Z.to_nat len) buf.

(** memcmp, on the unsigned byte values: negative, zero or positive. *)
Fixpoint memcmp (a b : bytes) : Z :=
  match a, b with
  | x :: a, y :: b => if code x =? code y then memcmp a b else code x - code y
  | _, _ => 0
  end.

Definition compareStringObjects (a b : robj) : M S Z :=
  serverAssert (bool_decide (o_type a = OBJ_STRING) && bool_decide (o_type b = OBJ_STRING))
    "compareStringObjectsWithFlags" ;;
  astr ← (if sdsEncodedObject a then ptrSds a "compareStringObjectsWithFlags"
          else n ← ptrLong a "compareStringObjectsWithFlags"; mret (ll2buf 128 n));
  bstr ← (if sdsEncodedObject b then ptrSds b "compareStringObjectsWithFlags"
          else n ← ptrLong b "compareStringObjectsWithFlags"; mret (ll2buf 128 n));
  let minlen := Nat.min (length astr) (length bstr) in
  let cmp := memcmp (take minlen astr) (take minlen bstr) in
  mret (if cmp =? 0 then Z.of_nat (length astr) - Z.of_nat (length bstr) else cmp).

Definition equalStringObjects (a b : robj) : M S bool :=
  if bool_decide (o_encoding a = OBJ_ENCODING_INT) && bool_decide (o_encoding b = OBJ_ENCODING_INT)
  then mret (bool_decide (o_ptr a = o_ptr b))
  else cmp ← compareStringObjects a b; mret (cmp =? 0).

(** The bytes [addReplyBulk] sends for an object ([addReply] of networking.c). *)
Definition replyBytes (o : robj) : M S bytes :=
  if sdsEncodedObject o then ptrSds o "addReply"
  else if bool_decide (o_encoding o = OBJ_ENCODING_INT) then
    n ← ptrLong o "addReply"; mret (ll2buf 32 n)
  else fail (AssertFailed "addReply").

End Accessors.

(** ** Well-formed string objects and the bytes they stand for *)

Inductive string_obj : robj → bytes → Prop :=
  | string_obj_raw s : string_obj (createRawStringObject s) s
  | string_obj_embstr s : string_obj (createEmbeddedStringObject s) s
  | string_obj_int n : LLONG_MIN ≤ n ≤ LLONG_MAX → string_obj (createIntObject n) (decimal n).

#[export] Hint Constructors string_obj : core.

Lemma createStringObject_string s : string_obj (createStringObject s) s.
Proof. unfold createStringObject. case_match; constructor. Qed.

Lemma string_obj_type o s : string_obj o s → o_type o = OBJ_STRING.
Proof. by destruct 1. Qed.

Lemma string_obj_fun o s s' : string_obj o s → string_obj o s' → s = s'.
Proof. destruct 1; inversion 1; congruence. Qed.

Lemma string2l_string2ll s : string2l s = string2ll s.
Proof.
  unfold string2l. destruct (string2ll s) as [v|] eqn:Hs; [|done].
  apply string2ll_decimal in Hs as [Hv _]. unfold LLONG_MIN, LLONG_MAX in *.
  rewrite (proj2 (Z.ltb_ge _ _)), (proj2 (Z.ltb_ge _ _)) by lia. done.
Qed.

Lemma ll2buf_decimal sz n :
  (20 < sz)%nat → LLONG_MIN ≤ n ≤ LLONG_MAX → ll2buf sz n = decimal n.
Proof.
  intros Hsz Hn. unfold ll2buf.
  pose proof (ll2string_spec (replicate sz NUL) n Hn) as Hl. cbn zeta in Hl.
  pose proof (length_decimal n Hn).
  rewrite length_replicate, decide_True in Hl by lia. rewrite Hl, Nat2Z.id.
  by rewrite take_app_length.
Qed.

Lemma decimal_inj n n' :
  LLONG_MIN ≤ n ≤ LLONG_MAX → LLONG_MIN ≤ n' ≤ LLONG_MAX → decimal n = decimal n' → n = n'.
Proof.
  intros Hn Hn' Heq.
  assert (string2ll (decimal n) = Some n) as H1 by by apply string2ll_decimal.
  assert (string2ll (decimal n) = Some n') as H2 by by apply string2ll_decimal.
  congruence.
Qed.

Lemma length_decimal_sdigits10 n :
  LLONG_MIN ≤ n ≤ LLONG_MAX → Z.of_nat (length (decimal n)) = sdigits10 n.
Proof.
  intros Hn. unfold sdigits10, decimal, LLONG_MIN, LLONG_MAX in *.
  destruct (Z.ltb_spec n 0) as [Hneg|Hpos]; cbn [length]; rewrite length_dec.
  - assert ((if negb (n =? -9223372036854775808) then u64 (- n) else 9223372036854775807 + 1)
            = - n) as ->.
    { destruct (Z.eqb_spec n (-9223372036854775808)) as [->|]; [done|]. cbn.
      apply u64_id. unfold ULLONG_MAX. lia. }
    pose proof (digits10_bound (- n)). unfold ULLONG_MAX in *. lia.
  - pose proof (digits10_bound n). unfold ULLONG_MAX in *. lia.
Qed.

Lemma memcmp_eq a b : length a = length b → memcmp a b = 0 → a = b.
Proof.
  revert b. induction a as [|x a IH]; intros [|y b]; cbn; try done.
  intros [= Hlen]. destruct (Z.eqb_spec (code x) (code y)) as [Hxy|]; [|lia].
  intros Hab. f_equal; [by apply code_inj|by apply IH].
Qed.

Lemma memcmp_refl a : memcmp a a = 0.
Proof. induction a as [|x a IH]; cbn; [done|]. by rewrite Z.eqb_refl. Qed.

(** ** Runs of the accessors on well-formed string objects *)

Section Runs.
Context {S : Type}.
Implicit Types σ : S.

(** The result does not depend on the state. *)
Lemma tryObjectEncoding_uniform o s :
  string_obj o s → ∃ o', string_obj o' s ∧ ∀ σ, tryObjectEncoding o σ = Ok (o', σ).
Proof.
  destruct 1 as [s|s|n Hn]; [..|by eexists; eauto];
    cbv [tryObjectEncoding mbind M_bind serverAssert mret M_ret ptrSds sdsEncodedObject];
    cbn [o_type o_encoding o_ptr createRawStringObject createEmbeddedStringObject];
    simpl_decide; cbn; rewrite string2l_string2ll;
    (destruct (if Z.of_nat (length s) <=? 20 then string2ll s else None) as [v|] eqn:Hs;
     [case_match; [|done]; apply string2ll_decimal in Hs as [Hv ->]; by eexists; eauto|]);
    repeat case_match; eexists; (split; [|intros σ; reflexivity]); constructor.
Qed.

Lemma tryObjectEncoding_run o s σ :
  string_obj o s → ∃ o', tryObjectEncoding o σ = Ok (o', σ) ∧ string_obj o' s.
Proof. intros Ho. destruct (tryObjectEncoding_uniform o s Ho) as (o' & Ho' & Hrun). by exists o'. Qed.

Lemma getLongLongFromObject_run o s σ :
  string_obj o s → getLongLongFromObject (Some o) σ = Ok (string2ll s, σ).
Proof.
  destruct 1 as [s|s|n Hn]; [done..|].
  by rewrite (proj2 (string2ll_decimal (decimal n) n)) by done.
Qed.

Lemma stringObjectLen_run o s σ :
  string_obj o s → stringObjectLen o σ = Ok (Z.of_nat (length s), σ).
Proof. destruct 1 as [s|s|n Hn]; [done..|]. by rewrite length_decimal_sdigits10. Qed.

Lemma replyBytes_run o s σ : string_obj o s → replyBytes o σ = Ok (s, σ).
Proof. destruct 1 as [s|s|n Hn]; [done..|]. by rewrite <-(ll2buf_decimal 32) by (done || lia). Qed.

Lemma compareStringObjects_run a b s t σ :
  string_obj a s → string_obj b t →
  ∃ cmp, compareStringObjects a b σ = Ok (cmp, σ) ∧ (cmp = 0 ↔ s = t).
Proof.
  intros Ha Hb.
  set (cmp := let minlen := Nat.min (length s) (length t) in
              let cmp := memcmp (take minlen s) (take minlen t) in
              if cmp =? 0 then Z.of_nat (length s) - Z.of_nat (length t) else cmp).
  assert (compareStringObjects a b σ = Ok (cmp, σ)) as Hrun.
  { subst cmp. destruct Ha, Hb; rewrite <-?(ll2buf_decimal 128) by (done || lia); reflexivity. }
  exists cmp. split; [done|]. subst cmp. cbn zeta. split.
  - case_match eqn:H0; [|by apply Z.eqb_neq in H0]. apply Z.eqb_eq in H0. intros Hlen.
    rewrite !take_ge in H0 by lia. apply memcmp_eq; [lia|done].
  - intros ->. rewrite memcmp_refl. cbn. lia.
Qed.

Lemma equalStringObjects_run a b s t σ :
  string_obj a s → string_obj b t →
  equalStringObjects a b σ = Ok (bool_decide (s = t), σ).
Proof.
  intros Ha Hb. unfold equalStringObjects.
  destruct (bool_decide (o_encoding a = _) && _) eqn:Henc.
  - apply andb_true_iff in Henc as [Hea%bool_decide_eq_true Heb%bool_decide_eq_true].
    destruct Ha as [| |n Hn], Hb as [| |n' Hn']; try done. cbv [mret M_ret]. cbn.
    do 2 f_equal. apply bool_decide_ext. split; [by intros [= ->]|].
    intros ->%decimal_inj; done.
  - destruct (compareStringObjects_run a b s t σ Ha Hb) as (cmp & Hrun & Hcmp).
    cbv [mbind M_bind]. rewrite Hrun. cbv [mret M_ret]. do 2 f_equal.
    destruct (Z.eqb_spec cmp 0); symmetry;
      [by apply bool_decide_eq_true, Hcmp|apply bool_decide_eq_false; tauto].
Qed.

End Runs.

(** The operations on string objects depend only on the bytes the object stands
    for, not on its encoding (raw, embedded or integer): re-encoding keeps the
    bytes, and length, equality, integer value and reply are those of the bytes. *)
Theorem string_object_operations_respect_bytes (S : Type) (σ : S) (a b : robj) (s t : bytes) :
  string_obj a s → string_obj b t →
  (∃ a', tryObjectEncoding a σ = Ok (a', σ) ∧ string_obj a' s) ∧
  stringObjectLen a σ = Ok (Z.of_nat (length s), σ) ∧
  equalStringObjects a b σ = Ok (bool_decide (s = t), σ) ∧
  getLongLongFromObject (Some a) σ = Ok (string2ll s, σ) ∧
  replyBytes a σ = Ok (s, σ).
Proof.
  intros Ha Hb.
  split_and!; eauto using tryObjectEncoding_run, stringObjectLen_run, equalStringObjects_run,
    getLongLongFromObject_run, replyBytes_run.
Qed.

Lemma string_object_operations_respect_bytes_witness :
  equalStringObjects (createIntObject 42) (createRawStringObject (decimal 42)) tt = Ok (true, tt).
Proof.
  destruct (string_object_operations_respect_bytes unit tt (createIntObject 42)
    (createRawStringObject (decimal 42)) (decimal 42) (decimal 42)) as (_ & _ & H & _).
  - apply string_obj_int. vm_compute. split; discriminate.
  - apply string_obj_raw.
  - exact H.
Defined.
