(* ===== verification/Double.v ===== *)
(** * Double: the type double of C

    IEEE 754 numbers of 64 bits, as the Standard Library specifies them: the
    comparisons and the addition that the sorted sets use.  The numbers other than NaN
    are totally preordered; the two zeros compare equal. *)

From Stdlib Require Import SpecFloat ZifyBool.
From stdpp Require Import base tactics numbers.
From S2P Require Import Prelude.

Local Open Scope Z_scope.

Abbreviation double := spec_float.

Definition dzero : double := S754_zero false.

(** [a < b], [a <= b], [a == b]; the operators [>], [>=] and [!=] are these with their
    arguments exchanged or negated. *)
Definition dlt (a b : double) : bool := SFltb a b.
Definition dle (a b : double) : bool := SFleb a b.
Definition deq (a b : double) : bool := SFeqb a b.

Definition dadd (a b : double) : double := SFadd 53 1024 a b.

Definition isnan (a : double) : bool := match a with S754_nan => true | _ => false end.

#[global] Instance double_eq_dec : EqDecision double.
Proof. solve_decision. Defined.

(** ** The order *)

(** The place of a number: sign and class, exponent, mantissa. *)
Definition place (a : double) : Z * Z * Z :=
  match a with
  | S754_infinity s => (if s then -2 else 2, 0, 0)
  | S754_finite s m e => if s then (-1, - e, - Zpos m) else (1, e, Zpos m)
  | S754_zero _ | S754_nan => (0, 0, 0)
  end.

Definition before3 (x y : Z * Z * Z) : Prop :=
  let '(a, b, c) := x in let '(a', b', c') := y in a < a' ∨ (a = a' ∧ (b < b' ∨ (b = b' ∧ c < c'))).

Lemma compare_place a b : isnan a = false → isnan b = false →
  match SFcompare a b with
  | Some Lt => before3 (place a) (place b)
  | Some Eq => place a = place b
  | Some Gt => before3 (place b) (place a)
  | None => False
  end.
Proof.
  intros Ha Hb. destruct a as [sa|sa| |sa ma ea], b as [sb|sb| |sb mb eb]; try done;
    destruct sa, sb; cbn; try lia; try done;
    destruct (Z.compare_spec ea eb) as [->|He|He]; cbn; try lia;
    change (Pos.compare_cont Eq ma mb) with (Pos.compare ma mb);
    destruct (Pos.compare_spec ma mb) as [->|Hm|Hm]; cbn; lia || done.
Qed.

Lemma place_cases x y : before3 x y ∨ x = y ∨ before3 y x.
Proof.
  destruct x as [[a b] c], y as [[a' b'] c']. cbn.
  destruct (Z.lt_trichotomy a a') as [?|[?|?]], (Z.lt_trichotomy b b') as [?|[?|?]], (Z.lt_trichotomy c c') as [?|[?|?]];
    subst; auto 10.
Qed.

Lemma before3_irrefl x : ¬ before3 x x.
Proof. destruct x as [[a b] c]. cbn. lia. Qed.
Lemma before3_trans x y z : before3 x y → before3 y z → before3 x z.
Proof. destruct x as [[a b] c], y as [[a' b'] c'], z as [[a'' b''] c'']. cbn. lia. Qed.

Section Order.
Implicit Types a b c : double.
#[local] Abbreviation num a := (isnan a = false).

Lemma dlt_place a b : num a → num b → dlt a b = true ↔ before3 (place a) (place b).
Proof.
  intros Ha Hb. pose proof (compare_place a b Ha Hb) as Hc. unfold dlt, SFltb.
  destruct (SFcompare a b) as [[]|]; [| |..]; split; try done; intros Hl; exfalso.
  - rewrite Hc in Hl. by apply before3_irrefl in Hl.
  - by apply (before3_irrefl (place a)), (before3_trans _ (place b)).
Qed.

Lemma deq_place a b : num a → num b → deq a b = true ↔ place a = place b.
Proof.
  intros Ha Hb. pose proof (compare_place a b Ha Hb) as Hc. unfold deq, SFeqb.
  destruct (SFcompare a b) as [[]|]; split; try done; intros Hl; exfalso; rewrite Hl in Hc; by apply before3_irrefl in Hc.
Qed.

Lemma dle_spec a b : num a → num b → dle a b = negb (dlt b a).
Proof.
  intros Ha Hb. pose proof (compare_place a b Ha Hb) as Hc. pose proof (dlt_place b a Hb Ha) as Hl. unfold dle, SFleb.
  destruct (SFcompare a b) as [[]|]; [..|done].
  - destruct (dlt b a); [|done]. apply proj1 in Hl. specialize (Hl eq_refl). rewrite Hc in Hl. by apply before3_irrefl in Hl.
  - destruct (dlt b a); [|done]. apply proj1 in Hl. specialize (Hl eq_refl). exfalso.
    by apply (before3_irrefl (place a)), (before3_trans _ (place b)).
  - by rewrite (proj2 Hl).
Qed.

Lemma dlt_irrefl a : dlt a a = false.
Proof.
  destruct (isnan a) eqn:Ha; [by destruct a|]. destruct (dlt a a) eqn:Hl; [|done].
  apply dlt_place in Hl; [|done..]. by apply before3_irrefl in Hl.
Qed.

Lemma dlt_trans a b c : num a → num b → num c → dlt a b = true → dlt b c = true → dlt a c = true.
Proof. intros ???. rewrite !dlt_place by done. apply before3_trans. Qed.

Lemma dlt_asym a b : num a → num b → dlt a b = true → dlt b a = false.
Proof.
  intros Ha Hb Hl. destruct (dlt b a) eqn:Hl'; [|done].
  pose proof (dlt_trans a b a Ha Hb Ha Hl Hl') as H. by rewrite dlt_irrefl in H.
Qed.

Lemma deq_spec a b : num a → num b → deq a b = negb (dlt a b) && negb (dlt b a).
Proof.
  intros Ha Hb. pose proof (deq_place a b Ha Hb) as He. pose proof (dlt_place a b Ha Hb) as H1.
  pose proof (dlt_place b a Hb Ha) as H2. pose proof (before3_irrefl (place a)) as Hi.
  pose proof (place_cases (place a) (place b)) as Hc. pose proof (before3_trans (place a) (place b) (place a)) as Ht.
  destruct (deq a b), (dlt a b), (dlt b a); cbn; naive_solver congruence.
Qed.

(** Numbers that compare equal compare equal with all others. *)
Lemma deq_dlt_l a b c : num a → num b → num c → deq a b = true → dlt a c = dlt b c.
Proof.
  intros Ha Hb Hc Hab. apply deq_place in Hab; [|done..]. apply Bool.eq_iff_eq_true. rewrite !dlt_place by done. by rewrite Hab.
Qed.
End Order.
