(* ===== verification/Skiplist.v ===== *)
(** * Skiplist: the skip lists of the sorted sets, src/src/t_zset.c

    A node has, for each of its levels, a pointer to the next node of at least that
    level and the number of places up to it (its span); the header has all levels.
    Nodes live in a heap: reading or writing a freed node is a fault.  What [zmalloc]
    leaves in the levels of a new node is a parameter ([junk]), and so are the numbers
    [random] will give ([zrandom]).  The strings of the elements are values. *)

From Stdlib Require Import Ascii String ZifyBool.
From stdpp Require Import base tactics option strings numbers gmap fin_maps list.
From S2P Require Import Prelude Util Object Double.

Local Open Scope Z_scope.

Abbreviation loc := nat.

Definition ZSKIPLIST_MAXLEVEL : nat := 32.

Record zskiplistLevel := mkLevel {
  forward : option loc;
  span : Z }.

Record zskiplistNode := mkZNode {
  ele : option bytes;
  score : double;
  backward : option loc;
  level : list zskiplistLevel }.

Record zskiplist := mkZsl {
  header : loc;
  tail : option loc;
  zsl_length : Z;
  zsl_level : nat }.

Record zheap := mkZheap {
  znodes : gmap loc zskiplistNode;
  zbrk : loc;
  zrandom : list Z }.

Definition zu32 (z : Z) : Z := z mod 2 ^ 32.

Definition sdscmp (s1 s2 : bytes) : Z :=
  let l1 := length s1 in
  let l2 := length s2 in
  let minlen := Nat.min l1 l2 in
  let cmp := memcmp (take minlen s1) (take minlen s2) in
  if cmp =? 0 then (if (l2 <? l1)%nat then 1 else if (l1 <? l2)%nat then -1 else 0) else cmp.

(** ** The heap *)

Section Heap.
Abbreviation zM := (M zheap).

Definition readNode (x : loc) : zM zskiplistNode :=
  h ← get;
  match znodes h !! x with
  | Some n => mret n
  | None => fail (UseAfterFree "zskiplistNode")
  end.

Definition writeNode (x : loc) (n : zskiplistNode) : zM unit :=
  readNode x ;;
  modify (λ h, mkZheap (<[x := n]> (znodes h)) (zbrk h) (zrandom h)).

(** [x->level[i]], which must be one of the levels of the node. *)
Definition readLevel (x : loc) (i : nat) : zM zskiplistLevel :=
  n ← readNode x;
  deref (level n !! i) "zskiplistNode level".

Definition updLevel (x : loc) (i : nat) (f : zskiplistLevel → zskiplistLevel) : zM unit :=
  n ← readNode x;
  v ← deref (level n !! i) "zskiplistNode level";
  writeNode x (mkZNode (ele n) (score n) (backward n) (<[i := f v]> (level n))).

Definition setBackward (b : option loc) (n : zskiplistNode) : zskiplistNode := mkZNode (ele n) (score n) b (level n).
Definition setScore (s : double) (n : zskiplistNode) : zskiplistNode := mkZNode (ele n) s (backward n) (level n).

Definition updNode (x : loc) (f : zskiplistNode → zskiplistNode) : zM unit :=
  n ← readNode x;
  writeNode x (f n).

Definition zslFreeNode (x : loc) : zM unit :=
  readNode x ;;
  modify (λ h, mkZheap (delete x (znodes h)) (zbrk h) (zrandom h)).
End Heap.

Abbreviation zM := (M zheap).

(** ** Creation *)

Section Skiplist.
Context (junk : zskiplistLevel).

Definition zslCreateNode (lvl : nat) (s : double) (e : option bytes) : zM loc :=
  h ← get;
  put (mkZheap (<[zbrk h := mkZNode e s (forward junk) (replicate lvl junk)]> (znodes h)) (S (zbrk h)) (zrandom h)) ;;
  mret (zbrk h).

Definition zslCreate : zM zskiplist :=
  x ← zslCreateNode ZSKIPLIST_MAXLEVEL dzero None;
  forM_ (seq 0 ZSKIPLIST_MAXLEVEL) (λ j, updLevel x j (λ _, mkLevel None 0)) ;;
  updNode x (setBackward None) ;;
  mret (mkZsl x None 0 1).

(** [zsl->length] nodes and the final NULL. *)
Fixpoint freeLoop (fuel : nat) (node : option loc) : zM unit :=
  match node, fuel with
  | None, _ => mret tt
  | Some _, O => fail (AssertFailed "zslFree: fuel")
  | Some x, S fuel =>
      v ← readLevel x 0;
      zslFreeNode x ;;
      freeLoop fuel (forward v)
  end.

Definition zslFree (z : zskiplist) : zM unit :=
  v ← readLevel (header z) 0;
  zslFreeNode (header z) ;;
  freeLoop (Z.to_nat (zsl_length z)) (forward v).

(** [(random()&0xFFFF) < (ZSKIPLIST_P * 0xFFFF)], where the right side is 16383.75. *)
Definition goesUp (r : Z) : bool := Z.land r 0xFFFF <? 16384.

Fixpoint randomLoop (rs : list Z) (lvl : nat) : option (nat * list Z) :=
  match rs with
  | [] => None
  | r :: rs => if goesUp r then randomLoop rs (S lvl) else Some (lvl, rs)
  end.

Definition zslRandomLevel : zM nat :=
  h ← get;
  r ← deref (randomLoop (zrandom h) 1) "zslRandomLevel";
  put (mkZheap (znodes h) (zbrk h) (snd r)) ;;
  mret (if (fst r <? ZSKIPLIST_MAXLEVEL)%nat then fst r else ZSKIPLIST_MAXLEVEL).

(** ** Searching *)

(** [while (x->level[i].forward && go ...) { r += x->level[i].span; x = ... }]: the
    condition sees the next node and the count with its span, computed in the width
    [w] of the counter. *)
Fixpoint advance (w : Z → Z) (go : zskiplistNode → Z → bool) (fuel i : nat) (x : loc) (r : Z) : zM (loc * Z) :=
  match fuel with
  | O => fail (AssertFailed "skiplist: fuel")
  | S fuel =>
      v ← readLevel x i;
      match forward v with
      | None => mret (x, r)
      | Some y =>
          n ← readNode y;
          if go n (w (r + span v)) then advance w go fuel i y (w (r + span v)) else mret (x, r)
      end
  end.

(** [for (i = level-1; i >= 0; i--)]: the arrays [update] and [rank], from 0 on. *)
Fixpoint descend (w : Z → Z) (go : zskiplistNode → Z → bool) (fuel i : nat) (x : loc) (r : Z) : zM (list (loc * Z)) :=
  match i with
  | O => mret []
  | S i =>
      p ← advance w go fuel i x r;
      rest ← descend w go fuel i (fst p) (snd p);
      mret (rest ++ [p])
  end.

Definition walkFuel (z : zskiplist) : nat := S (Z.to_nat (zsl_length z)).

(** The whole loop from the header, and its last [x]. *)
Definition seek (w : Z → Z) (go : zskiplistNode → Z → bool) (z : zskiplist) : zM (list (loc * Z)) :=
  descend w go (walkFuel z) (zsl_level z) (header z) 0.

Definition lastOf (z : zskiplist) (u : list (loc * Z)) : loc :=
  match u with p :: _ => fst p | [] => header z end.

(** [score < s || (score == s && sdscmp(ele, e) < 0)]; the nodes after the header have
    an element. *)
Definition eleOf (n : zskiplistNode) : bytes := default [] (ele n).

Definition nodeBefore (s : double) (e : bytes) (n : zskiplistNode) : bool :=
  dlt (score n) s || (deq (score n) s && (sdscmp (eleOf n) e <? 0)).

Definition nodeUpTo (s : double) (e : bytes) (n : zskiplistNode) : bool :=
  dlt (score n) s || (deq (score n) s && (sdscmp (eleOf n) e <=? 0)).

(** ** Insertion *)

(** [update[i]->level[i]] before [x]. *)
Definition linkLevel (x : loc) (u : list (loc * Z)) (i : nat) : zM unit :=
  p ← deref (u !! i) "zslInsert: update";
  p0 ← deref (u !! 0%nat) "zslInsert: rank";
  v ← readLevel (fst p) i;
  updLevel x i (λ _, mkLevel (forward v) (u64 (span v - zu32 (snd p0 - snd p)))) ;;
  updLevel (fst p) i (λ _, mkLevel (Some x) (zu32 (zu32 (snd p0 - snd p) + 1))).

Definition spanUp (u : list (loc * Z)) (i : nat) : zM unit :=
  p ← deref (u !! i) "zslInsert: update";
  updLevel (fst p) i (λ v, mkLevel (forward v) (u64 (span v + 1))).

(** The new levels of the header. *)
Definition raiseLevel (z : zskiplist) (i : nat) : zM unit :=
  updLevel (header z) i (λ v, mkLevel (forward v) (zsl_length z)).

Definition linkBack (z : zskiplist) (x : loc) (u0 : loc) : zM (option loc) :=
  updNode x (setBackward (if bool_decide (u0 = header z) then None else Some u0)) ;;
  v ← readLevel x 0;
  match forward v with
  | Some y => updNode y (setBackward (Some x)) ;; mret (tail z)
  | None => mret (Some x)
  end.

(** The new node between its neighbours: the new tail and the node. *)
Definition linkNode (z : zskiplist) (u : list (loc * Z)) (lvl top : nat) (s : double) (e : bytes) : zM (option loc * loc) :=
  x ← zslCreateNode lvl s (Some e);
  forM_ (seq 0 lvl) (linkLevel x u) ;;
  forM_ (seq lvl (top - lvl)) (spanUp u) ;;
  t ← linkBack z x (lastOf z u);
  mret (t, x).

Definition zslInsert (z : zskiplist) (s : double) (e : bytes) : zM (zskiplist * loc) :=
  serverAssert (negb (isnan s)) "zslInsert" ;;
  u ← seek zu32 (λ n _, nodeBefore s e n) z;
  lvl ← zslRandomLevel;
  let new := (lvl - zsl_level z)%nat in
  let u := u ++ replicate new (header z, 0) in
  forM_ (seq (zsl_level z) new) (raiseLevel z) ;;
  let top := Nat.max lvl (zsl_level z) in
  r ← linkNode z u lvl top s e;
  mret (mkZsl (header z) (fst r) (u64 (zsl_length z + 1)) top, snd r).

(** ** Deletion *)

Definition unlinkLevel (x : loc) (u : list (loc * Z)) (i : nat) : zM unit :=
  p ← deref (u !! i) "zslDeleteNode: update";
  v ← readLevel (fst p) i;
  if bool_decide (forward v = Some x) then
    w ← readLevel x i;
    updLevel (fst p) i (λ _, mkLevel (forward w) (u64 (span v + (u64 (span w - 1)))))
  else updLevel (fst p) i (λ _, mkLevel (forward v) (u64 (span v - 1))).

Fixpoint lowerLevel (z : zskiplist) (lvl : nat) : zM nat :=
  match lvl with
  | S ((S _) as l) =>
      v ← readLevel (header z) l;
      match forward v with
      | None => lowerLevel z l
      | Some _ => mret lvl
      end
  | _ => mret lvl
  end.

(** The back pointer after [x], and the new tail. *)
Definition unlinkBack (z : zskiplist) (x : loc) : zM (option loc) :=
  n ← readNode x;
  v ← readLevel x 0;
  match forward v with
  | Some y => updNode y (setBackward (backward n)) ;; mret (tail z)
  | None => mret (backward n)
  end.

Definition zslDeleteNode (z : zskiplist) (x : loc) (u : list (loc * Z)) : zM zskiplist :=
  forM_ (seq 0 (zsl_level z)) (unlinkLevel x u) ;;
  t ← unlinkBack z x;
  lvl ← lowerLevel z (zsl_level z);
  mret (mkZsl (header z) t (u64 (zsl_length z - 1)) lvl).

(** [node] is NULL, so that the node is freed; 1 when it was found. *)
Definition zslDelete (z : zskiplist) (s : double) (e : bytes) : zM (zskiplist * bool) :=
  u ← seek id (λ n _, nodeBefore s e n) z;
  v ← readLevel (lastOf z u) 0;
  match forward v with
  | None => mret (z, false)
  | Some x =>
      n ← readNode x;
      if deq s (score n) && (sdscmp (eleOf n) e =? 0) then
        z ← zslDeleteNode z x u;
        zslFreeNode x ;;
        mret (z, true)
      else mret (z, false)
  end.

(** [p == NULL || cond p->score], evaluated for both neighbours. *)
Definition nullOr (p : option loc) (cond : double → bool) : zM bool :=
  match p with
  | None => mret true
  | Some y => n ← readNode y; mret (cond (score n))
  end.

(** The node at another place. *)
Definition reinsert (z : zskiplist) (x : loc) (u : list (loc * Z)) (new : double) : zM (zskiplist * loc) :=
  z ← zslDeleteNode z x u;
  n ← readNode x;
  r ← zslInsert z new (eleOf n);
  zslFreeNode x ;;
  mret r.

Definition zslUpdateScore (z : zskiplist) (cur : double) (e : bytes) (new : double) : zM (zskiplist * loc) :=
  u ← seek id (λ n _, nodeBefore cur e n) z;
  v ← readLevel (lastOf z u) 0;
  x ← deref (forward v) "zslUpdateScore";
  n ← readNode x;
  serverAssert (deq cur (score n) && (sdscmp (eleOf n) e =? 0)) "zslUpdateScore" ;;
  v ← readLevel x 0;
  low ← nullOr (backward n) (λ s, dlt s new);
  high ← nullOr (forward v) (λ s, dlt new s);
  if (low : bool) && (high : bool) then
    updNode x (setScore new) ;;
    mret (z, x)
  else
    reinsert z x u new.

(** ** Ranges of scores *)

Record zrangespec := mkRange { rmin : double; rmax : double; minex : bool; maxex : bool }.

Definition zslValueGteMin (v : double) (r : zrangespec) : bool := if minex r then dlt (rmin r) v else dle (rmin r) v.
Definition zslValueLteMax (v : double) (r : zrangespec) : bool := if maxex r then dlt v (rmax r) else dle v (rmax r).

(** The functions on ranges of scores and on ranges of elements have the same bodies:
    [gte] and [lte] are the tests of a node against the two bounds.  First, the tests
    of the two ends, [x == NULL || !cond(x)]. *)
Definition endIn (x : option loc) (cond : zskiplistNode → bool) : zM bool :=
  match x with
  | None => mret false
  | Some x => n ← readNode x; mret (cond n)
  end.

Definition isInBy (empty : bool) (gte lte : zskiplistNode → bool) (z : zskiplist) : zM bool :=
  if empty then mret false
  else
    a ← endIn (tail z) gte;
    if negb a then mret false
    else
      v ← readLevel (header z) 0;
      endIn (forward v) lte.

Definition firstBy (isIn : zM bool) (gte lte : zskiplistNode → bool) (z : zskiplist) : zM (option loc) :=
  b ← isIn;
  if negb b then mret None
  else
    u ← seek id (λ n _, negb (gte n)) z;
    v ← readLevel (lastOf z u) 0;
    match forward v with
    | None => fail (AssertFailed "zslFirstInRange")
    | Some x => n ← readNode x; mret (if lte n then Some x else None)
    end.

Definition lastBy (isIn : zM bool) (gte lte : zskiplistNode → bool) (z : zskiplist) : zM (option loc) :=
  b ← isIn;
  if negb b then mret None
  else
    u ← seek id (λ n _, lte n) z;
    n ← readNode (lastOf z u);
    mret (if gte n then Some (lastOf z u) else None).

Definition scoreGte (r : zrangespec) (n : zskiplistNode) : bool := zslValueGteMin (score n) r.
Definition scoreLte (r : zrangespec) (n : zskiplistNode) : bool := zslValueLteMax (score n) r.

Definition zslIsInRange (z : zskiplist) (r : zrangespec) : zM bool :=
  isInBy (dlt (rmax r) (rmin r) || (deq (rmin r) (rmax r) && (minex r || maxex r))) (scoreGte r) (scoreLte r) z.

Definition zslFirstInRange (z : zskiplist) (r : zrangespec) : zM (option loc) :=
  firstBy (zslIsInRange z r) (scoreGte r) (scoreLte r) z.

Definition zslLastInRange (z : zskiplist) (r : zrangespec) : zM (option loc) :=
  lastBy (zslIsInRange z r) (scoreGte r) (scoreLte r) z.

(** ** Ranges of elements *)

(** A bound: [shared.minstring], [shared.maxstring] or a string. *)
Inductive lexbound := Minstring | Maxstring | Lex (s : bytes).

Record zlexrangespec := mkLexRange { lmin : lexbound; lmax : lexbound; lminex : bool; lmaxex : bool }.

Definition sdscmplex (a b : lexbound) : Z :=
  match a, b with
  | Minstring, Minstring | Maxstring, Maxstring => 0
  | Minstring, _ | _, Maxstring => -1
  | Maxstring, _ | _, Minstring => 1
  | Lex a, Lex b => sdscmp a b
  end.

(** [zslParseLexRangeItem] on the string of the argument: the bound and [ex]. *)
Definition zslParseLexRangeItem (c : bytes) : option (lexbound * bool) :=
  match c with
  | "+"%char :: rest => if bool_decide (hd NUL rest = NUL) then Some (Maxstring, true) else None
  | "-"%char :: rest => if bool_decide (hd NUL rest = NUL) then Some (Minstring, true) else None
  | "("%char :: rest => Some (Lex rest, true)
  | "["%char :: rest => Some (Lex rest, false)
  | _ => None
  end.

(** The arguments are objects: NULL for an integer. *)
Definition zslParseLexRange (min max : robj) : option zlexrangespec :=
  match o_ptr min, o_ptr max with
  | PtrSds a, PtrSds b =>
      match zslParseLexRangeItem a, zslParseLexRangeItem b with
      | Some (a, aex), Some (b, bex) => Some (mkLexRange a b aex bex)
      | _, _ => None
      end
  | _, _ => None
  end.

Definition zslLexValueGteMin (v : bytes) (r : zlexrangespec) : bool :=
  if lminex r then 0 <? sdscmplex (Lex v) (lmin r) else 0 <=? sdscmplex (Lex v) (lmin r).
Definition zslLexValueLteMax (v : bytes) (r : zlexrangespec) : bool :=
  if lmaxex r then sdscmplex (Lex v) (lmax r) <? 0 else sdscmplex (Lex v) (lmax r) <=? 0.

Definition lexGte (r : zlexrangespec) (n : zskiplistNode) : bool := zslLexValueGteMin (eleOf n) r.
Definition lexLte (r : zlexrangespec) (n : zskiplistNode) : bool := zslLexValueLteMax (eleOf n) r.

Definition zslIsInLexRange (z : zskiplist) (r : zlexrangespec) : zM bool :=
  let cmp := sdscmplex (lmin r) (lmax r) in
  isInBy ((0 <? cmp) || ((cmp =? 0) && (lminex r || lmaxex r))) (lexGte r) (lexLte r) z.

Definition zslFirstInLexRange (z : zskiplist) (r : zlexrangespec) : zM (option loc) :=
  firstBy (zslIsInLexRange z r) (lexGte r) (lexLte r) z.

Definition zslLastInLexRange (z : zskiplist) (r : zlexrangespec) : zM (option loc) :=
  lastBy (zslIsInLexRange z r) (lexGte r) (lexLte r) z.

(** ** Deleting ranges *)

(** The dictionary of the sorted set: from elements to the nodes that hold the score. *)
Abbreviation zdict := (gmap bytes loc).

(** The loop over the nodes from [x] on while [go], which sees the node and the count
    of nodes before it; what was removed and the dictionary. *)
Fixpoint deleteLoop (fuel : nat) (go : zskiplistNode → Z → bool) (u : list (loc * Z)) (x : option loc)
    (z : zskiplist) (d : zdict) (removed : Z) : zM (zskiplist * zdict * Z) :=
  match x with
  | None => mret (z, d, removed)
  | Some x =>
      n ← readNode x;
      if negb (go n removed) then mret (z, d, removed)
      else
        match fuel with
        | O => fail (AssertFailed "zslDeleteRange: fuel")
        | S fuel =>
            v ← readLevel x 0;
            z ← zslDeleteNode z x u;
            let d := delete (eleOf n) d in
            zslFreeNode x ;;
            deleteLoop fuel go u (forward v) z d (removed + 1)
        end
  end.

Definition deleteFrom (go : zskiplistNode → Z → bool) (u : list (loc * Z)) (z : zskiplist) (d : zdict)
    : zM (zskiplist * zdict * Z) :=
  v ← readLevel (lastOf z u) 0;
  deleteLoop (Z.to_nat (zsl_length z)) go u (forward v) z d 0.

Definition zslDeleteRangeByScore (z : zskiplist) (r : zrangespec) (d : zdict) : zM (zskiplist * zdict * Z) :=
  u ← seek id (λ n _, if minex r then dle (score n) (rmin r) else dlt (score n) (rmin r)) z;
  deleteFrom (λ n _, if maxex r then dlt (score n) (rmax r) else dle (score n) (rmax r)) u z d.

Definition zslDeleteRangeByLex (z : zskiplist) (r : zlexrangespec) (d : zdict) : zM (zskiplist * zdict * Z) :=
  u ← seek id (λ n _, negb (lexGte r n)) z;
  deleteFrom (λ n _, lexLte r n) u z d.

(** [traversed] starts at the rank of the last node before the range plus one. *)
Definition zslDeleteRangeByRank (z : zskiplist) (start last : Z) (d : zdict) : zM (zskiplist * zdict * Z) :=
  u ← seek u64 (λ _ t, t <? start) z;
  let traversed := match u with p :: _ => u64 (snd p + 1) | [] => 1 end in
  deleteFrom (λ _ removed, u64 (traversed + removed) <=? last) u z d.

(** ** Ranks *)

Fixpoint rankLoop (fuel i : nat) (s : double) (e : bytes) (x : loc) (r : Z) : zM Z :=
  match i with
  | O => mret 0
  | S i =>
      p ← advance u64 (λ n _, nodeUpTo s e n) fuel i x r;
      n ← readNode (fst p);
      match ele n with
      | Some e' => if sdscmp e' e =? 0 then mret (snd p) else rankLoop fuel i s e (fst p) (snd p)
      | None => rankLoop fuel i s e (fst p) (snd p)
      end
  end.

Definition zslGetRank (z : zskiplist) (s : double) (e : bytes) : zM Z :=
  rankLoop (walkFuel z) (zsl_level z) s e (header z) 0.

Fixpoint elementLoop (fuel i : nat) (rank : Z) (x : loc) (t : Z) : zM (option loc) :=
  match i with
  | O => mret None
  | S i =>
      p ← advance u64 (λ _ t, t <=? rank) fuel i x t;
      if snd p =? rank then mret (Some (fst p)) else elementLoop fuel i rank (fst p) (snd p)
  end.

Definition zslGetElementByRank (z : zskiplist) (rank : Z) : zM (option loc) :=
  elementLoop (walkFuel z) (zsl_level z) rank (header z) 0.

(** ** Sorted sets in the skip list encoding *)

Record zset := mkZset { zs_dict : zdict; zs_zsl : zskiplist }.

Definition zsetLength (zs : zset) : Z := zsl_length (zs_zsl zs).

Definition zsetScore (zs : zset) (member : bytes) : zM (option double) :=
  match zs_dict zs !! member with
  | None => mret None
  | Some x => n ← readNode x; mret (Some (score n))
  end.

Inductive zaddResult := ZADD_NAN | ZADD_NOP | ZADD_ADDED | ZADD_UPDATED | ZADD_SAME.

(** The result: the flags that are set ([ZADD_SAME] for none), and [*newscore] where it
    is set. *)
Definition zsetAdd (zs : zset) (s : double) (e : bytes) (incr nx xx : bool) : zM (zset * zaddResult * option double) :=
  if isnan s then mret (zs, ZADD_NAN, None)
  else
    match zs_dict zs !! e with
    | Some de =>
        if nx then mret (zs, ZADD_NOP, None)
        else
          n ← readNode de;
          let cur := score n in
          let s' := if incr then dadd s cur else s in
          if incr && isnan s' then mret (zs, ZADD_NAN, None)
          else
            let newscore := if incr then Some s' else None in
            if negb (deq s' cur) then
              r ← zslUpdateScore (zs_zsl zs) cur e s';
              mret (mkZset (<[e := snd r]> (zs_dict zs)) (fst r), ZADD_UPDATED, newscore)
            else mret (zs, ZADD_SAME, newscore)
    | None =>
        if xx then mret (zs, ZADD_NOP, None)
        else
          r ← zslInsert (zs_zsl zs) s e;
          serverAssert (bool_decide (zs_dict zs !! e = None)) "zsetAdd" ;;
          mret (mkZset (<[e := snd r]> (zs_dict zs)) (fst r), ZADD_ADDED, Some s)
    end.

(** The dictionary is resized, which does not change the map. *)
Definition zsetDel (zs : zset) (e : bytes) : zM (zset * bool) :=
  match zs_dict zs !! e with
  | None => mret (zs, false)
  | Some de =>
      n ← readNode de;
      let d := delete e (zs_dict zs) in
      r ← zslDelete (zs_zsl zs) (score n) e;
      serverAssert (snd r) "zsetDel" ;;
      mret (mkZset d (fst r), true)
  end.

Definition zsetRank (zs : zset) (e : bytes) (rev : bool) : zM Z :=
  match zs_dict zs !! e with
  | None => mret (-1)
  | Some de =>
      n ← readNode de;
      rank ← zslGetRank (zs_zsl zs) (score n) e;
      serverAssert (negb (rank =? 0)) "zsetRank" ;;
      mret (if rev then i64 (u64 (zsetLength zs - rank)) else rank - 1)
  end.

End Skiplist.
