(* ===== verification/SkiplistProps.v ===== *)
(** * SkiplistProps: skip lists implement sorted sequences

    The contents of a skip list are a sequence of nodes with their heights.  [links]
    says that the levels of the nodes in the heap hold the pointers and spans of that
    sequence; every operation keeps it, and returns what the operation on the sequence
    returns. *)

From Stdlib Require Import Ascii String ZifyBool.
From stdpp Require Import base tactics option strings numbers gmap fin_maps sorting list.
From S2P Require Import Prelude Util Object Double Skiplist.

Local Open Scope Z_scope.

#[local] Arguments Nat.ltb : simpl never.

(** ** Sequences of nodes *)

Record zn := mkZn { zl : loc; zs : double; ze : bytes; zh : nat }.

(** The next node of a level after a place, and the span up to it. *)
Fixpoint fwd (i : nat) (l : list zn) : option loc :=
  match l with
  | [] => None
  | n :: l => if (i <? zh n)%nat then Some (zl n) else fwd i l
  end.

Fixpoint dist (i : nat) (l : list zn) : Z :=
  match l with
  | [] => 0
  | n :: l => if (i <? zh n)%nat then 1 else 1 + dist i l
  end.

(** The last place of a level in a sequence; 0 is the header. *)
Fixpoint lastAt (i : nat) (l : list zn) : nat :=
  match l with
  | [] => 0
  | n :: l => match lastAt i l with O => if (i <? zh n)%nat then 1 else 0 | S p => S (S p) end
  end.

(** No node has the level. *)
Definition low (i : nat) (l : list zn) : Prop := Forall (λ n, (zh n ≤ i)%nat) l.

Lemma fwd_low i l : low i l ↔ fwd i l = None.
Proof.
  induction l as [|n l IH]; cbn; [by split; [|constructor]|]. unfold low in *. rewrite Forall_cons.
  destruct (Nat.ltb_spec i (zh n)); (split; [intros [? ?]|intros ?]).
  - lia.
  - done.
  - by apply IH.
  - split; [lia|by apply IH].
Qed.

Lemma fwd_app_low i s t : low i s → fwd i (s ++ t) = fwd i t.
Proof. induction 1 as [|n s Hn _ IH]; cbn; [done|]. destruct (Nat.ltb_spec i (zh n)); [lia|done]. Qed.

Lemma dist_app_low i s t : low i s → dist i (s ++ t) = Z.of_nat (length s) + dist i t.
Proof. induction 1 as [|n s Hn _ IH]; cbn [app dist length]; [lia|]. destruct (Nat.ltb_spec i (zh n)); lia. Qed.

Lemma dist_low i l : low i l → dist i l = Z.of_nat (length l).
Proof. intros Hl. rewrite <-(app_nil_r l) at 1. rewrite dist_app_low by done. cbn. lia. Qed.

Lemma dist_range i l : 0 ≤ dist i l ≤ Z.of_nat (length l).
Proof. induction l as [|n l IH]; cbn [dist length]; [lia|]. destruct (i <? zh n)%nat; lia. Qed.

Lemma fwd_app_high i s t : ¬ low i s → fwd i (s ++ t) = fwd i s ∧ dist i (s ++ t) = dist i s.
Proof.
  induction s as [|n s IH]; intros Hl; [by destruct Hl; constructor|]. cbn.
  destruct (Nat.ltb_spec i (zh n)); [done|]. destruct IH as [-> ->]; [|done].
  intros Hs. apply Hl. by constructor.
Qed.

(** The next node is the first one that has the level. *)
Lemma fwd_first i l y : fwd i l = Some y →
  ∃ k n, l !! k = Some n ∧ zl n = y ∧ (i < zh n)%nat ∧ dist i l = Z.of_nat (S k) ∧ low i (take k l).
Proof.
  induction l as [|n l IH]; cbn; [done|]. destruct (Nat.ltb_spec i (zh n)) as [Hn|Hn].
  - intros [= <-]. exists 0%nat, n. split_and!; [done..|constructor].
  - intros Hy. destruct (IH Hy) as (k & m & Hk & Hm & Hi & Hd & Hl). exists (S k), m.
    split_and!; [done..|lia|]. constructor; [lia|done].
Qed.

Lemma lastAt_low i l : lastAt i l = 0%nat ↔ low i l.
Proof.
  induction l as [|n l IH]; cbn; [by split; [constructor|]|]. unfold low in *. rewrite Forall_cons, <-IH.
  destruct (lastAt i l); [|split; [done|by intros [_ ?]]]. destruct (Nat.ltb_spec i (zh n)); split; lia.
Qed.

Lemma lastAt_le i l : (lastAt i l ≤ length l)%nat.
Proof. induction l as [|n l IH]; cbn; [lia|]. destruct (lastAt i l); [case_match|]; lia. Qed.

Lemma lastAt_drop i l : low i (drop (lastAt i l) l).
Proof.
  induction l as [|n l IH]; cbn; [constructor|]. destruct (lastAt i l) as [|p] eqn:Hp; [|exact IH].
  apply lastAt_low in Hp. destruct (Nat.ltb_spec i (zh n)); cbn; [by rewrite drop_0|]. constructor; [lia|done].
Qed.

Lemma lastAt_high i l p : lastAt i l = S p → ∃ n, l !! p = Some n ∧ (i < zh n)%nat.
Proof.
  revert p. induction l as [|n l IH]; cbn; intros p Hp; [done|]. destruct (lastAt i l) as [|q] eqn:Hq.
  - destruct (Nat.ltb_spec i (zh n)); [|done]. injection Hp as <-. by exists n.
  - injection Hp as <-. by apply IH.
Qed.

(** The height of the node at a place. *)
Definition heightAt (l : list zn) (p : nat) : nat :=
  match p with O => ZSKIPLIST_MAXLEVEL | S k => default 0%nat (zh <$> l !! k) end.

(** [lastAt] is the place whose rest does not have the level. *)
Lemma lastAt_unique i l p : (p ≤ length l)%nat → (p = 0%nat ∨ (i < heightAt l p)%nat) → low i (drop p l) → lastAt i l = p.
Proof.
  revert p. induction l as [|n l IH]; intros p Hp Hh Hl; cbn in *; [lia|]. destruct p as [|p].
  - rewrite drop_0 in Hl. inversion Hl as [|? ? Hn Hl']; subst. apply lastAt_low in Hl'. rewrite Hl'.
    destruct (Nat.ltb_spec i (zh n)); lia.
  - cbn in Hl. destruct Hh as [?|Hh]; [done|]. cbn in Hh. destruct p as [|p].
    + rewrite drop_0 in Hl. apply lastAt_low in Hl. rewrite Hl. cbn in Hh. destruct (Nat.ltb_spec i (zh n)); lia.
    + rewrite (IH (S p)); [done|lia| |done]. right. exact Hh.
Qed.

Lemma lastAt_mono i j l : (i ≤ j)%nat → (lastAt j l ≤ lastAt i l)%nat.
Proof.
  intros Hij. induction l as [|n l IH]; cbn; [lia|].
  destruct (lastAt j l), (lastAt i l); repeat case_match; lia.
Qed.

Lemma lastAt_height i l : (i < ZSKIPLIST_MAXLEVEL)%nat → (i < heightAt l (lastAt i l))%nat.
Proof.
  intros Hi. destruct (lastAt i l) as [|p] eqn:Hp; [done|]. destruct (lastAt_high i l p Hp) as (n & Hn & Hh). cbn. by rewrite Hn.
Qed.

Lemma lastAt_0 l : Forall (λ n, (0 < zh n)%nat) l → lastAt 0 l = length l.
Proof.
  intros Hl. apply lastAt_unique; [done| |by rewrite drop_all; constructor].
  destruct (length l) as [|k] eqn:Hk; [by left|right]. cbn. destruct (lookup_lt_is_Some_2 l k) as [n Hn]; [lia|].
  rewrite Hn. cbn. by apply (Forall_lookup_1 _ _ _ _ Hl Hn).
Qed.

(** ** Reading and writing the heap *)

Definition lev (σ : zheap) (a : loc) (i : nat) : option zskiplistLevel := znodes σ !! a ≫= λ n, level n !! i.
Definition fields (σ : zheap) (a : loc) : option (option bytes * double * nat) :=
  (λ n, (ele n, score n, length (level n))) <$> znodes σ !! a.
Definition bwd (σ : zheap) (a : loc) : option (option loc) := backward <$> znodes σ !! a.

Definition onNode (a : loc) (f : zskiplistNode → zskiplistNode) (σ : zheap) : zheap :=
  mkZheap (alter f a (znodes σ)) (zbrk σ) (zrandom σ).
Definition setLevel (i : nat) (v : zskiplistLevel) (n : zskiplistNode) : zskiplistNode :=
  mkZNode (ele n) (score n) (backward n) (<[i := v]> (level n)).

Lemma fields_node σ a f : fields σ a = Some f → ∃ n, znodes σ !! a = Some n ∧ f = (ele n, score n, length (level n)).
Proof. unfold fields. destruct (znodes σ !! a) as [n|]; [|done]. cbn. intros [= <-]. by exists n. Qed.

Lemma lev_node σ a i v : lev σ a i = Some v → ∃ n, znodes σ !! a = Some n ∧ level n !! i = Some v.
Proof. unfold lev. destruct (znodes σ !! a) as [n|]; [|done]. cbn. by exists n. Qed.

Lemma fields_lev σ a e s k i : fields σ a = Some (e, s, k) → (i < k)%nat → is_Some (lev σ a i).
Proof. intros (n & Hn & [= -> -> ->])%fields_node Hi. unfold lev. rewrite Hn. by apply lookup_lt_is_Some_2. Qed.

Section HeapRuns.
Implicit Types σ : zheap.

Lemma zreadNode_run σ a n : znodes σ !! a = Some n → readNode a σ = Ok (n, σ).
Proof. intros Hn. unfold readNode. rewrite bind_get, Hn. done. Qed.

Lemma readLevel_run σ a i v : lev σ a i = Some v → readLevel a i σ = Ok (v, σ).
Proof.
  intros (n & Hn & Hv)%lev_node. unfold readLevel. rewrite (bind_run _ _ _ _ _ (zreadNode_run _ _ _ Hn)), Hv. done.
Qed.

Lemma writeNode_run σ a n n' : znodes σ !! a = Some n → writeNode a n' σ = Ok (tt, onNode a (λ _, n') σ).
Proof.
  intros Hn. unfold writeNode. rewrite (bind_run _ _ _ _ _ (zreadNode_run _ _ _ Hn)). unfold modify, onNode.
  do 3 f_equal. apply map_eq. intros b. destruct (decide (b = a)) as [->|Hb].
  - by rewrite lookup_insert_eq, lookup_alter_eq, Hn.
  - by rewrite lookup_insert_ne, lookup_alter_ne by done.
Qed.

Lemma onNode_ext σ a n f g : znodes σ !! a = Some n → f n = g n → onNode a f σ = onNode a g σ.
Proof.
  intros Hn Hfg. unfold onNode. f_equal. apply map_eq. intros b. destruct (decide (b = a)) as [->|Hb].
  - rewrite !lookup_alter_eq, Hn. cbn. by rewrite Hfg.
  - by rewrite !lookup_alter_ne by done.
Qed.

Lemma updLevel_run σ a i f v : lev σ a i = Some v → updLevel a i f σ = Ok (tt, onNode a (setLevel i (f v)) σ).
Proof.
  intros (n & Hn & Hv)%lev_node. unfold updLevel. rewrite (bind_run _ _ _ _ _ (zreadNode_run _ _ _ Hn)), Hv, bind_deref.
  rewrite (writeNode_run _ _ _ _ Hn). do 2 f_equal. by eapply onNode_ext.
Qed.

Lemma zupdNode_run σ a f : is_Some (znodes σ !! a) → updNode a f σ = Ok (tt, onNode a f σ).
Proof.
  intros [n Hn]. unfold updNode. rewrite (bind_run _ _ _ _ _ (zreadNode_run _ _ _ Hn)).
  rewrite (writeNode_run _ _ _ _ Hn). do 2 f_equal. by eapply onNode_ext.
Qed.

Definition freed (a : loc) σ : zheap := mkZheap (delete a (znodes σ)) (zbrk σ) (zrandom σ).

Lemma zslFreeNode_run σ a : is_Some (znodes σ !! a) → zslFreeNode a σ = Ok (tt, freed a σ).
Proof. intros [n Hn]. unfold zslFreeNode. by rewrite (bind_run _ _ _ _ _ (zreadNode_run _ _ _ Hn)). Qed.

(** What the writes change. *)
Lemma lev_setLevel σ a i v b j : is_Some (lev σ a i) →
  lev (onNode a (setLevel i v) σ) b j = if decide (b = a ∧ j = i) then Some v else lev σ b j.
Proof.
  intros [v0 (n & Hn & Hv)%lev_node]. unfold lev, onNode. cbn. destruct (decide (b = a)) as [->|Hb].
  - rewrite lookup_alter_eq, Hn. cbn. destruct (decide (j = i)) as [->|Hj].
    + rewrite list_lookup_insert_eq by (by apply lookup_lt_Some in Hv). by rewrite decide_True.
    + rewrite list_lookup_insert_ne by done. rewrite decide_False by tauto. done.
  - rewrite lookup_alter_ne by done. by rewrite decide_False by tauto.
Qed.

Lemma fields_setLevel σ a i v b : fields (onNode a (setLevel i v) σ) b = fields σ b.
Proof.
  unfold fields, onNode. cbn. destruct (decide (b = a)) as [->|Hb]; [|by rewrite lookup_alter_ne].
  rewrite lookup_alter_eq. destruct (znodes σ !! a); cbn; [|done]. by rewrite length_insert.
Qed.

Lemma bwd_setLevel σ a i v b : bwd (onNode a (setLevel i v) σ) b = bwd σ b.
Proof.
  unfold bwd, onNode. cbn. destruct (decide (b = a)) as [->|Hb]; [|by rewrite lookup_alter_ne].
  rewrite lookup_alter_eq. by destruct (znodes σ !! a).
Qed.

Lemma lev_setBackward σ a p b j : lev (onNode a (setBackward p) σ) b j = lev σ b j.
Proof.
  unfold lev, onNode. cbn. destruct (decide (b = a)) as [->|Hb]; [|by rewrite lookup_alter_ne].
  rewrite lookup_alter_eq. by destruct (znodes σ !! a).
Qed.

Lemma fields_setBackward σ a p b : fields (onNode a (setBackward p) σ) b = fields σ b.
Proof.
  unfold fields, onNode. cbn. destruct (decide (b = a)) as [->|Hb]; [|by rewrite lookup_alter_ne].
  rewrite lookup_alter_eq. by destruct (znodes σ !! a).
Qed.

Lemma bwd_setBackward σ a p b : is_Some (znodes σ !! a) →
  bwd (onNode a (setBackward p) σ) b = if decide (b = a) then Some p else bwd σ b.
Proof.
  intros [n Hn]. unfold bwd, onNode. cbn. destruct (decide (b = a)) as [->|Hb]; [|by rewrite lookup_alter_ne].
  by rewrite lookup_alter_eq, Hn.
Qed.

Lemma onNode_other σ a f b : b ≠ a → znodes (onNode a f σ) !! b = znodes σ !! b.
Proof. intros ?. by apply lookup_alter_ne. Qed.
End HeapRuns.

(** A node that is not touched keeps all its fields. *)
Lemma fields_same σ σ' a : znodes σ' !! a = znodes σ !! a → fields σ' a = fields σ a.
Proof. unfold fields. by intros ->. Qed.
Lemma lev_same σ σ' a i : znodes σ' !! a = znodes σ !! a → lev σ' a i = lev σ a i.
Proof. unfold lev. by intros ->. Qed.
Lemma bwd_same σ σ' a : znodes σ' !! a = znodes σ !! a → bwd σ' a = bwd σ a.
Proof. unfold bwd. by intros ->. Qed.

(** ** The representation *)

Definition places (hd : loc) (ns : list zn) : list loc := hd :: (zl <$> ns).

Lemma places_S hd ns k : places hd ns !! S k = zl <$> ns !! k.
Proof. exact (list_lookup_fmap zl ns k). Qed.

Definition cell (ns : list zn) (p i : nat) : zskiplistLevel := mkLevel (fwd i (drop p ns)) (dist i (drop p ns)).

(** The node before a place. *)
Definition before (ns : list zn) (k : nat) : option loc := match k with O => None | S j => zl <$> ns !! j end.

Record links (σ : zheap) (hd : loc) (ns : list zn) (lvl : nat) : Prop := {
  lk_level : (1 ≤ lvl ≤ ZSKIPLIST_MAXLEVEL)%nat;
  lk_nodup : NoDup (places hd ns);
  lk_heights : Forall (λ n, (1 ≤ zh n ≤ lvl)%nat) ns;
  lk_header : fields σ hd = Some (None, dzero, ZSKIPLIST_MAXLEVEL);
  lk_fields k n : ns !! k = Some n → fields σ (zl n) = Some (Some (ze n), zs n, zh n);
  lk_cells p a i : places hd ns !! p = Some a → (i < lvl)%nat → (i < heightAt ns p)%nat → lev σ a i = Some (cell ns p i);
  lk_top i : (lvl ≤ i < ZSKIPLIST_MAXLEVEL)%nat → ∃ s, lev σ hd i = Some (mkLevel None s);
  lk_back k n : ns !! k = Some n → bwd σ (zl n) = Some (before ns k) }.

(** Other nodes stay as they are. *)
Definition frame (ls : list loc) (σ σ' : zheap) : Prop := ∀ a, a ∉ ls → znodes σ' !! a = znodes σ !! a.

Section Search.
Context (σ : zheap) (hd : loc) (A B : list zn) (lvl : nat) (Hlk : links σ hd (A ++ B) lvl).
Context (w : Z → Z) (Hw : ∀ z, 0 ≤ z ≤ Z.of_nat (length (A ++ B)) → w z = z).
Context (go : zskiplistNode → Z → bool).
Context (Hgo : ∀ k n nd, (A ++ B) !! k = Some n → ele nd = Some (ze n) → score nd = zs n →
           go nd (Z.of_nat (S k)) = bool_decide (k < length A)%nat).

(** The place of [lastAt] in the first part. *)
Definition update (i : nat) : loc * Z := (places hd (A ++ B) !!! lastAt i A, Z.of_nat (lastAt i A)).

Lemma places_lookup p : (p ≤ length (A ++ B))%nat → places hd (A ++ B) !! p = Some (places hd (A ++ B) !!! p).
Proof.
  intros Hp. apply list_lookup_lookup_total_lt. unfold places. cbn. rewrite length_fmap. lia.
Qed.

Lemma heightAt_app p : (p ≤ length A)%nat → heightAt (A ++ B) p = heightAt A p.
Proof. intros Hp. destruct p as [|k]; [done|]. cbn. by rewrite lookup_app_l by lia. Qed.

Lemma advance_run fuel i p : (i < lvl)%nat → (p ≤ length A)%nat → (i < heightAt A p)%nat → (length A - p < fuel)%nat →
  advance w go fuel i (places hd (A ++ B) !!! p) (Z.of_nat p) σ = Ok (update i, σ).
Proof.
  intros Hi. revert p. induction fuel as [|fuel IH]; intros p Hp Hh Hf; [lia|]. cbn [advance].
  pose proof (lk_level _ _ _ _ Hlk) as Hmax.
  assert (p ≤ length (A ++ B))%nat as Hpn by (rewrite length_app; lia).
  pose proof (lk_cells _ _ _ _ Hlk p _ i (places_lookup p Hpn) Hi ltac:(by rewrite heightAt_app)) as Hcell.
  rewrite (bind_run _ _ _ _ _ (readLevel_run _ _ _ _ Hcell)). cbn [forward span cell].
  assert (low i (drop p A) → lastAt i A = p) as Hlast.
  { intros Hlow. apply lastAt_unique; [done|by right|done]. }
  destruct (fwd i (drop p (A ++ B))) as [y|] eqn:Hy.
  2:{ apply fwd_low in Hy. rewrite drop_app_le in Hy by lia. apply Forall_app in Hy as [Hy _]. unfold update. by rewrite (Hlast Hy). }
  destruct (fwd_first _ _ _ Hy) as (k & n & Hk & <- & Hn & Hd & Htake). rewrite lookup_drop in Hk.
  pose proof (lk_fields _ _ _ _ Hlk _ _ Hk) as Hfn. apply fields_node in Hfn as (nd & Hnd & [= He Hs Hl]).
  rewrite (bind_run _ _ _ _ _ (zreadNode_run _ _ _ Hnd)). rewrite Hd.
  assert (p + k < length (A ++ B))%nat as Hlt by (by apply lookup_lt_Some in Hk).
  rewrite (Hw (Z.of_nat p + Z.of_nat (S k))) by lia.
  replace (Z.of_nat p + Z.of_nat (S k)) with (Z.of_nat (S (p + k))) by lia.
  rewrite (Hgo _ _ _ Hk) by done. destruct (decide (p + k < length A)%nat) as [Hin|Hout].
  - rewrite bool_decide_eq_true_2 by done.
    replace (zl n) with (places hd (A ++ B) !!! S (p + k)).
    2:{ apply list_lookup_total_correct. by rewrite places_S, Hk. }
    apply IH; [lia| |lia]. cbn. rewrite lookup_app_l in Hk by lia. by rewrite Hk.
  - rewrite bool_decide_eq_false_2 by done. unfold update. rewrite Hlast; [done|].
    rewrite drop_app_le in Htake by lia. rewrite take_app_ge in Htake by (rewrite length_drop; lia).
    by apply Forall_app in Htake as [? _].
Qed.

(** The arrays [update] and [rank]. *)
Lemma descend_run fuel i p : (i ≤ lvl)%nat → (p ≤ length A)%nat → (i ≤ heightAt A p)%nat → (length A < fuel)%nat →
  descend w go fuel i (places hd (A ++ B) !!! p) (Z.of_nat p) σ = Ok (update <$> seq 0 i, σ).
Proof.
  revert p. induction i as [|i IH]; intros p Hi Hp Hh Hf; [done|]. cbn [descend].
  rewrite (bind_run _ _ _ _ _ (advance_run fuel i p ltac:(lia) Hp ltac:(lia) ltac:(lia))). unfold update at 1 2. cbn [fst snd].
  pose proof (lk_level _ _ _ _ Hlk) as Hmax.
  rewrite (bind_run _ _ _ _ _ (IH (lastAt i A) ltac:(lia) (lastAt_le _ _) (Nat.lt_le_incl _ _ (lastAt_height i A ltac:(lia))) Hf)).
  rewrite seq_S, fmap_app. done.
Qed.

Lemma seek_run z : header z = hd → zsl_level z = lvl → zsl_length z = Z.of_nat (length (A ++ B)) →
  seek w go z σ = Ok (update <$> seq 0 lvl, σ).
Proof.
  intros Hz Hl Hn. pose proof (lk_level _ _ _ _ Hlk) as Hmax. unfold seek, walkFuel. rewrite Hz, Hl, Hn, Nat2Z.id.
  apply (descend_run _ lvl 0); [lia|lia|cbn; lia|]. rewrite length_app. lia.
Qed.

(** The last node of the loop is the one before the second part. *)
Lemma lastAt_0_all : lastAt 0 A = length A.
Proof.
  apply lastAt_0. pose proof (lk_heights _ _ _ _ Hlk) as Hh. apply Forall_app in Hh as [Hh _].
  eapply Forall_impl; [exact Hh|]. cbn. lia.
Qed.

Lemma lastOf_run z : lastOf z (update <$> seq 0 lvl) = places hd (A ++ B) !!! length A.
Proof.
  pose proof (lk_level _ _ _ _ Hlk) as Hmax. replace lvl with (S (lvl - 1)) by lia. cbn. by rewrite lastAt_0_all.
Qed.

Lemma lastOf_forward z : readLevel (lastOf z (update <$> seq 0 lvl)) 0 σ = Ok (mkLevel (fwd 0 B) (dist 0 B), σ).
Proof.
  rewrite lastOf_run. pose proof (lk_level _ _ _ _ Hlk) as Hmax.
  assert (length A ≤ length (A ++ B))%nat as Hle by (rewrite length_app; lia).
  apply readLevel_run. rewrite (lk_cells _ _ _ _ Hlk _ _ 0%nat (places_lookup _ Hle)); [|lia|].
  - unfold cell. by rewrite drop_app_length.
  - rewrite heightAt_app by done. rewrite <-lastAt_0_all. apply lastAt_height. lia.
Qed.
End Search.

(** ** Places of a sequence in two parts *)

Lemma low_lastAt i A p : (p ≤ length A)%nat → (i < heightAt A p)%nat → low i (drop p A) ↔ lastAt i A = p.
Proof.
  intros Hp Hh. split; [intros Hl; apply lastAt_unique; [done|by right|done]|]. intros <-. apply lastAt_drop.
Qed.

Lemma cell_left A C p i : (p ≤ length A)%nat → (i < heightAt A p)%nat →
  cell (A ++ C) p i = if decide (lastAt i A = p) then mkLevel (fwd i C) (Z.of_nat (length A - p) + dist i C) else cell A p i.
Proof.
  intros Hp Hh. unfold cell. rewrite drop_app_le by done. case_decide as Hl; apply low_lastAt in Hh as Hiff; [|done|..|done].
  - apply Hiff in Hl. rewrite fwd_app_low, dist_app_low, length_drop by done. done.
  - destruct (fwd_app_high i (drop p A) C) as [-> ->]; [|done]. by rewrite Hiff.
Qed.

Lemma cell_right A C p i : cell (A ++ C) (length A + p) i = cell C p i.
Proof. unfold cell. by rewrite drop_app_add'. Qed.

Lemma places_left hd A C p : (p ≤ length A)%nat → places hd (A ++ C) !! p = places hd A !! p.
Proof.
  intros Hp. destruct p as [|k]; [done|]. by rewrite !places_S, lookup_app_l by lia.
Qed.

Lemma places_right hd A C k : places hd (A ++ C) !! S (length A + k) = zl <$> C !! k.
Proof.
  rewrite places_S, lookup_app_r by lia.
  by rewrite Nat.add_comm, Nat.add_sub.
Qed.

Lemma heightAt_right A C k : heightAt (A ++ C) (S (length A + k)) = default 0%nat (zh <$> C !! k).
Proof. cbn. rewrite lookup_app_r by lia. by rewrite Nat.add_comm, Nat.add_sub. Qed.

Lemma places_insert hd A x B : places hd (A ++ x :: B) ≡ₚ zl x :: places hd (A ++ B).
Proof. unfold places. rewrite !fmap_app. cbn. by rewrite <-Permutation_middle, Permutation_swap. Qed.

(** ** Loops over the levels *)

(** Only levels of the nodes [ls] change. *)
Record quiet (ls : list loc) (σ σ' : zheap) : Prop := {
  q_fields b : fields σ' b = fields σ b;
  q_bwd b : bwd σ' b = bwd σ b;
  q_frame : frame ls σ σ';
  q_brk : zbrk σ' = zbrk σ;
  q_random : zrandom σ' = zrandom σ }.

#[global] Instance quiet_refl ls : Reflexive (quiet ls).
Proof. by intros σ. Qed.
#[global] Instance quiet_trans ls : Transitive (quiet ls).
Proof.
  intros σ1 σ2 σ3 [F1 B1 R1 K1 D1] [F2 B2 R2 K2 D2]. split; try congruence; try (intros; congruence).
  intros a Ha. by rewrite R2, R1.
Qed.
Lemma quiet_setLevel ls σ a i v : a ∈ ls → quiet ls σ (onNode a (setLevel i v) σ).
Proof.
  intros Ha. split; [intros; apply fields_setLevel|intros; apply bwd_setLevel| |done|done].
  intros b Hb. apply onNode_other. by intros ->.
Qed.

Section Loops.
Context (hd x : loc) (A B : list zn) (top : nat).
Context (Hsize : Z.of_nat (length (A ++ B)) < 2 ^ 32 - 1).
#[local] Abbreviation up := (update hd A B).
#[local] Abbreviation N := (length A).

Context (σ0 : zheap) (Hlk : links σ0 hd (A ++ B) top) (Hx : x ∉ places hd (A ++ B)).

Lemma up_place i : places hd (A ++ B) !! lastAt i A = Some (fst (up i)).
Proof. unfold update. cbn [fst]. apply places_lookup. rewrite length_app. pose proof (lastAt_le i A). lia. Qed.

Lemma up_in i : fst (up i) ∈ places hd (A ++ B).
Proof. eapply list_elem_of_lookup_2, up_place. Qed.

Lemma up_not_x i : fst (up i) ≠ x.
Proof. intros <-. apply Hx, up_in. Qed.

Lemma up_list i : (i < top)%nat → (up <$> seq 0 top) !! i = Some (up i).
Proof. intros Hi. by rewrite list_lookup_fmap, lookup_seq_lt. Qed.

(** The level of the last node before the second part. *)
Lemma up_cell i : (i < top)%nat →
  lev σ0 (fst (up i)) i = Some (mkLevel (fwd i B) (Z.of_nat (N - lastAt i A) + dist i B)).
Proof.
  intros Hi. pose proof (lk_level _ _ _ _ Hlk) as Hm. pose proof (lastAt_height i A ltac:(lia)) as Hh.
  rewrite (lk_cells _ _ _ _ Hlk _ _ i (up_place i) Hi); [|by rewrite heightAt_app by apply lastAt_le].
  rewrite cell_left, decide_True by (done || apply lastAt_le). done.
Qed.

(** A place has its level changed exactly when it is the last one of the level. *)
Lemma up_eq p a i : places hd (A ++ B) !! p = Some a → a = fst (up i) ↔ p = lastAt i A.
Proof.
  intros Ha. split; [intros ->|intros ->].
  - eapply NoDup_lookup; [exact (lk_nodup _ _ _ _ Hlk)|exact Ha|apply up_place].
  - rewrite up_place in Ha. congruence.
Qed.

(** What the first loop of [zslInsert] over the levels of [x] leaves. *)
Definition linked (k : nat) (b : loc) (j : nat) : option zskiplistLevel :=
  if decide (j < k)%nat then
    if decide (b = x) then Some (cell B 0 j)
    else if decide (b = fst (up j)) then Some (mkLevel (Some x) (Z.of_nat (N - lastAt j A) + 1))
    else lev σ0 b j
  else lev σ0 b j.

Lemma linkLevel_step σ k hx : (k < hx ≤ top)%nat → (∀ j, (j < hx)%nat → is_Some (lev σ0 x j)) →
  quiet (x :: places hd (A ++ B)) σ0 σ → (∀ b j, lev σ b j = linked k b j) →
  wp noFault (linkLevel x (up <$> seq 0 top) k)
    (λ _ σ', quiet (x :: places hd (A ++ B)) σ0 σ' ∧ ∀ b j, lev σ' b j = linked (S k) b j) σ.
Proof.
  intros Hk Hx0 Hq Hlev. pose proof (lastAt_le k A) as Hle. rewrite length_app in Hsize.
  pose proof (dist_range k B) as Hdist.
  apply wp_run. unfold linkLevel. rewrite !up_list by lia. rewrite !bind_deref. 
  change (snd (up 0)) with (Z.of_nat (lastAt 0 A)). change (snd (up k)) with (Z.of_nat (lastAt k A)).
  rewrite (lastAt_0_all σ0 hd A B top Hlk).
  assert (lev σ (fst (up k)) k = Some (mkLevel (fwd k B) (Z.of_nat (N - lastAt k A) + dist k B))) as Hv.
  { rewrite Hlev. unfold linked. rewrite decide_False by lia. apply up_cell. lia. }
  rewrite (bind_run _ _ _ _ _ (readLevel_run _ _ _ _ Hv)). cbn [forward span].
  assert (zu32 (Z.of_nat N - Z.of_nat (lastAt k A)) = Z.of_nat (N - lastAt k A)) as ->
    by (unfold zu32; rewrite Z.mod_small; lia).
  assert (zu32 (Z.of_nat (N - lastAt k A) + 1) = Z.of_nat (N - lastAt k A) + 1) as ->
    by (unfold zu32; rewrite Z.mod_small; lia).
  rewrite u64_id by (unfold ULLONG_MAX; lia).
  replace (Z.of_nat (N - lastAt k A) + dist k B - Z.of_nat (N - lastAt k A)) with (dist k B) by lia.
  assert (is_Some (lev σ x k)) as Hxk.
  { rewrite Hlev. unfold linked. rewrite decide_False by lia. apply Hx0. lia. }
  destruct Hxk as [vx Hvx]. rewrite (bind_run _ _ _ _ _ (updLevel_run _ _ _ _ _ Hvx)).
  set (σ1 := onNode x _ σ).
  assert (∀ b j, lev σ1 b j = if decide (b = x ∧ j = k) then Some (mkLevel (fwd k B) (dist k B)) else lev σ b j) as Hlev1
    by (intros b j; apply lev_setLevel; eauto).
  assert (lev σ1 (fst (up k)) k = Some (mkLevel (fwd k B) (Z.of_nat (N - lastAt k A) + dist k B))) as Hv1.
  { rewrite Hlev1, decide_False; [done|]. intros [He _]. by apply (up_not_x k). }
  rewrite (updLevel_run _ _ _ _ _ Hv1). eexists _, _. split; [done|]. split.
  - etrans; [exact Hq|]. etrans; [apply quiet_setLevel|apply quiet_setLevel]; [set_solver|right; apply up_in].
  - intros b j. rewrite lev_setLevel by eauto. pose proof (up_not_x k) as Hne. unfold linked.
    destruct (decide (b = fst (up k) ∧ j = k)) as [[-> ->]|Hb].
    + by rewrite decide_True, decide_False, decide_True by (done || lia).
    + rewrite Hlev1. destruct (decide (b = x ∧ j = k)) as [[-> ->]|Hb'].
      { rewrite decide_True, decide_True by (done || lia). unfold cell. by rewrite drop_0. }
      rewrite Hlev. unfold linked. destruct (decide (j = k)) as [->|Hj].
      * rewrite decide_False, decide_True, decide_False, decide_False by (lia || tauto). done.
      * destruct (decide (j < k)%nat), (decide (j < S k)%nat); done || lia.
Qed.

Lemma linkLevels_run hx : (hx ≤ top)%nat → (∀ j, (j < hx)%nat → is_Some (lev σ0 x j)) →
  wp noFault (forM_ (seq 0 hx) (linkLevel x (up <$> seq 0 top)))
    (λ _ σ', quiet (x :: places hd (A ++ B)) σ0 σ' ∧ ∀ b j, lev σ' b j = linked hx b j) σ0.
Proof.
  intros Hhx Hx0.
  apply (wp_forM_seq noFault (λ k σ', quiet (x :: places hd (A ++ B)) σ0 σ' ∧ ∀ b j, lev σ' b j = linked k b j) 0 hx).
  - split; [done|]. intros b j. unfold linked. by rewrite decide_False by lia.
  - intros k σ Hk [Hq Hlev]. apply (linkLevel_step σ k hx); [lia|done..].
Qed.

(** The second loop, over the levels above. *)
Definition bumped (hx k : nat) (b : loc) (j : nat) : option zskiplistLevel :=
  if decide ((hx ≤ j < k)%nat ∧ b = fst (up j)) then Some (mkLevel (fwd j B) (Z.of_nat (N - lastAt j A) + dist j B + 1))
  else linked hx b j.

Lemma spanUps_run hx σ : (hx ≤ top)%nat → quiet (x :: places hd (A ++ B)) σ0 σ → (∀ b j, lev σ b j = linked hx b j) →
  wp noFault (forM_ (seq hx (top - hx)) (spanUp (up <$> seq 0 top)))
    (λ _ σ', quiet (x :: places hd (A ++ B)) σ0 σ' ∧ ∀ b j, lev σ' b j = bumped hx top b j) σ.
Proof.
  intros Hhx Hq Hlev. 
  pose proof (wp_forM_seq noFault (λ k σ', quiet (x :: places hd (A ++ B)) σ0 σ' ∧ ∀ b j, lev σ' b j = bumped hx k b j)
    hx (top - hx) (spanUp (up <$> seq 0 top)) σ) as Hwp.
  replace (hx + (top - hx))%nat with top in Hwp by lia. apply Hwp; clear Hwp.
  { split; [done|]. intros b j. unfold bumped. by rewrite decide_False by lia. }
  intros k σ' Hk [Hq' Hlev']. apply wp_run. unfold spanUp. rewrite up_list by lia. rewrite bind_deref.
  assert (lev σ' (fst (up k)) k = Some (mkLevel (fwd k B) (Z.of_nat (N - lastAt k A) + dist k B))) as Hv.
  { rewrite Hlev'. unfold bumped, linked. rewrite decide_False, decide_False by lia. apply up_cell. lia. }
  rewrite (updLevel_run _ _ _ _ _ Hv). cbn [forward span]. pose proof (dist_range k B) as Hdist. rewrite length_app in Hsize.
  rewrite u64_id by (unfold ULLONG_MAX; lia). eexists _, _. split; [done|]. split.
  - etrans; [exact Hq'|]. apply quiet_setLevel. right. apply up_in.
  - intros b j. rewrite lev_setLevel by eauto. unfold bumped. destruct (decide (b = fst (up k) ∧ j = k)) as [[-> ->]|Hb].
    + by rewrite decide_True by (split; [lia|done]).
    + rewrite Hlev'. unfold bumped. destruct (decide (j = k)) as [->|Hj].
      * rewrite !decide_False by (lia || tauto). done.
      * destruct (decide ((hx ≤ j < k)%nat ∧ b = fst (up j))), (decide ((hx ≤ j < 1 + k)%nat ∧ b = fst (up j))); done || lia.
Qed.

(** The levels after both loops are those of the sequence with the new node. *)
Lemma bumped_cells s e hx p a i : (1 ≤ hx ≤ top)%nat →
  let ns := A ++ mkZn x s e hx :: B in
  places hd ns !! p = Some a → (i < top)%nat → (i < heightAt ns p)%nat → bumped hx top a i = Some (cell ns p i).
Proof.
  intros Hhx ns Ha Hi Hh. unfold ns in *. destruct (decide (p ≤ N)%nat) as [Hp|Hp].
  - rewrite heightAt_app in Hh by done. rewrite places_left in Ha by done.
    assert (places hd (A ++ B) !! p = Some a) as Ha' by (by rewrite places_left).
    pose proof (up_eq p a i Ha') as Heq. rewrite cell_left by done. unfold bumped, linked.
    assert (a ≠ x) as Hax by (intros ->; apply Hx; by eapply list_elem_of_lookup_2).
    destruct (decide (lastAt i A = p)) as [Hlast|Hlast].
    + assert (a = fst (up i)) as -> by (apply Heq; done). cbn [fwd dist zh zl]. destruct (Nat.ltb_spec i hx).
      * rewrite decide_False, decide_True, decide_False, decide_True by (done || lia). by rewrite Hlast.
      * rewrite decide_True by (split; [lia|done]). rewrite Hlast. do 2 f_equal. lia.
    + assert (a ≠ fst (up i)) as Hne by (intros ?; apply Hlast; symmetry; by apply Heq).
      rewrite decide_False by tauto. rewrite (decide_False (P := a = x)) by done. rewrite (decide_False (P := a = fst (up i))) by done.
      assert (lev σ0 a i = Some (cell A p i)) as ->.
      { rewrite (lk_cells _ _ _ _ Hlk _ _ i Ha' Hi) by (by rewrite heightAt_app by done).
        rewrite cell_left, decide_False by done. done. }
      by destruct (decide (i < hx)%nat).
  - replace p with (S (N + (p - N - 1))) in Ha, Hh |- * by lia. set (k := (p - N - 1)%nat) in *.
    rewrite places_right in Ha. rewrite heightAt_right in Hh. rewrite <-Nat.add_succ_r, cell_right.
    unfold bumped, linked. destruct k as [|k].
    + cbn in Ha, Hh. injection Ha as <-. rewrite decide_False by (pose proof (up_not_x i); naive_solver).
      rewrite decide_True, decide_True by done. done.
    + change (zl <$> B !! k = Some a) in Ha. change (i < default 0 (zh <$> B !! k))%nat in Hh.
      destruct (B !! k) as [n|] eqn:Hn; [|done]. cbn in Ha, Hh. injection Ha as <-.
      assert (places hd (A ++ B) !! S (N + k) = Some (zl n)) as Hk by (by rewrite places_right, Hn).
      assert (zl n ≠ fst (up i)) as Hne.
      { intros Heq. apply (up_eq _ _ i Hk) in Heq. pose proof (lastAt_le i A). lia. }
      assert (zl n ≠ x) as Hnx by (intros Heq; apply Hx; rewrite <-Heq; by eapply list_elem_of_lookup_2).
      rewrite decide_False by tauto. rewrite (decide_False (P := zl n = x)) by done. rewrite (decide_False (P := zl n = fst (up i))) by done.
      rewrite (lk_cells _ _ _ _ Hlk _ _ i Hk Hi) by (rewrite heightAt_right; rewrite Hn; done).
      rewrite <-Nat.add_succ_r, cell_right. by destruct (decide (i < hx)%nat).
Qed.
End Loops.

(** ** Insertion *)

(** [links] depends on the fields of the nodes only. *)
Lemma links_heap σ σ' hd ns lvl : links σ hd ns lvl → (∀ a, a ∈ places hd ns → znodes σ' !! a = znodes σ !! a) → links σ' hd ns lvl.
Proof.
  intros [Hl Hnd Hh Hhd Hf Hc Ht Hb] Hsame.
  assert (hd ∈ places hd ns) as Hhdin by (by apply list_elem_of_here).
  assert (∀ k n, ns !! k = Some n → zl n ∈ places hd ns) as Hin.
  { intros k n Hn. right. apply list_elem_of_fmap_2. by eapply list_elem_of_lookup_2. }
  split; try done.
  - by rewrite (fields_same σ) by auto.
  - intros k n Hn. rewrite (fields_same σ) by eauto. eauto.
  - intros p a i Ha Hi Hhp. rewrite (lev_same σ) by (apply Hsame; by eapply list_elem_of_lookup_2). eauto.
  - intros i Hi. rewrite (lev_same σ) by auto. eauto.
  - intros k n Hn. rewrite (bwd_same σ) by eauto. eauto.
Qed.

Lemma links_node σ hd ns lvl a : links σ hd ns lvl → a ∈ places hd ns → is_Some (znodes σ !! a).
Proof.
  intros Hlk [->|(n & -> & [k Hk]%list_elem_of_lookup)%list_elem_of_fmap]%elem_of_cons.
  - destruct (fields_node _ _ _ (lk_header _ _ _ _ Hlk)) as (n & ? & _). eauto.
  - destruct (fields_node _ _ _ (lk_fields _ _ _ _ Hlk _ _ Hk)) as (m & ? & _). eauto.
Qed.

(** The header gets more levels, which no node has. *)
Lemma raiseLevels_run σ z ns new : links σ (header z) ns (zsl_level z) → zsl_length z = Z.of_nat (length ns) →
  (zsl_level z + new ≤ ZSKIPLIST_MAXLEVEL)%nat →
  wp noFault (forM_ (seq (zsl_level z) new) (raiseLevel z))
    (λ _ σ', links σ' (header z) ns (zsl_level z + new) ∧ quiet [header z] σ σ') σ.
Proof.
  intros Hlk Hlen Hnew.
  apply (wp_forM_seq noFault (λ k σ', links σ' (header z) ns k ∧ quiet [header z] σ σ')); [done|].
  intros k σ' Hk [Hlk' Hq]. apply wp_run. destruct (lk_top _ _ _ _ Hlk' k) as [sp Hsp]; [lia|].
  unfold raiseLevel. rewrite (updLevel_run _ _ _ _ _ Hsp). eexists _, _. split; [done|].
  assert (low k ns) as Hlow.
  { eapply Forall_impl; [exact (lk_heights _ _ _ _ Hlk')|]. cbn. lia. }
  split; [|etrans; [exact Hq|]; apply quiet_setLevel; set_solver].
  destruct Hlk' as [Hl Hnd Hh Hhd Hf Hc Ht Hb]. split.
  - lia.
  - done.
  - eapply Forall_impl; [exact Hh|]. cbn. lia.
  - by rewrite fields_setLevel.
  - intros j n Hn. rewrite fields_setLevel. eauto.
  - intros p a i Ha Hi Hp. rewrite lev_setLevel by eauto. case_decide as Hd.
    + destruct Hd as [-> ->]. assert (p = 0%nat) as ->.
      { eapply NoDup_lookup; [exact Hnd|exact Ha|done]. }
      cbn [forward]. unfold cell. rewrite drop_0, (proj1 (fwd_low k ns)), dist_low, Hlen by done. done.
    + apply Hc; [done| |done]. destruct (decide (i = k)) as [->|]; [|lia]. exfalso.
      destruct p as [|p]; [cbn in Ha; naive_solver|]. cbn in Hp. destruct (ns !! p) as [n|] eqn:Hn; [|cbn in Hp; lia].
      cbn in Hp. pose proof (Forall_lookup_1 _ _ _ _ Hlow Hn). cbn in *. lia.
  - intros i Hi. destruct (Ht i) as [s' Hs']; [lia|]. exists s'. rewrite lev_setLevel by eauto. by rewrite decide_False by lia.
  - intros j n Hn. rewrite bwd_setLevel. eauto.
Qed.

Lemma randomLoop_ge rs lvl r rs' : randomLoop rs lvl = Some (r, rs') → (lvl ≤ r)%nat.
Proof.
  revert lvl. induction rs as [|a rs IH]; cbn; intros lvl; [done|]. destruct (goesUp a); [intros H%IH; lia|by intros [= -> _]].
Qed.

Lemma zslRandomLevel_run σ r rs : randomLoop (zrandom σ) 1 = Some (r, rs) →
  ∃ lvl, zslRandomLevel σ = Ok (lvl, mkZheap (znodes σ) (zbrk σ) rs) ∧ (1 ≤ lvl ≤ ZSKIPLIST_MAXLEVEL)%nat.
Proof.
  intros Hr. unfold zslRandomLevel. rewrite bind_get, Hr, bind_deref. eexists. split; [done|]. cbn.
  pose proof (randomLoop_ge _ _ _ _ Hr). destruct (Nat.ltb_spec r ZSKIPLIST_MAXLEVEL); unfold ZSKIPLIST_MAXLEVEL in *; lia.
Qed.

(** A skip list with its first and last node and its length. *)
Record zslOk (σ : zheap) (z : zskiplist) (ns : list zn) : Prop := {
  ok_links : links σ (header z) ns (zsl_level z);
  ok_tail : tail z = zl <$> last ns;
  ok_length : zsl_length z = Z.of_nat (length ns);
  ok_fresh a : (zbrk σ ≤ a)%nat → znodes σ !! a = None }.

(** The node before each place, with a node more or less. *)
Lemma before_length A C : before (A ++ C) (length A) = zl <$> last A.
Proof.
  induction A as [|n A _] using rev_ind; [done|]. rewrite last_snoc, length_app, Nat.add_comm. cbn.
  rewrite lookup_app_l by (rewrite length_app; cbn; lia). by rewrite lookup_app_r, Nat.sub_diag by lia.
Qed.

Lemma before_left A C D k : (k ≤ length A)%nat → before (A ++ C) k = before (A ++ D) k.
Proof. intros Hk. destruct k as [|j]; [done|]. cbn. by rewrite !lookup_app_l by lia. Qed.

Lemma before_right A C k : before (A ++ C) (S (length A + k)) = zl <$> C !! k.
Proof. cbn. rewrite lookup_app_r by lia. by rewrite Nat.add_comm, Nat.add_sub. Qed.

(** A place of a sequence with a node in the middle. *)
Lemma insert_cases A (x : zn) B k n : (A ++ x :: B) !! k = Some n →
  (A !! k = Some n ∧ (k < length A)%nat) ∨ (k = length A ∧ n = x) ∨ ∃ j, k = S (length A + j) ∧ B !! j = Some n.
Proof.
  intros [Hn|[Hk Hn]]%lookup_app_Some; [left; split; [done|by eapply lookup_lt_Some]|right].
  destruct (k - length A)%nat as [|j] eqn:Hj; [left; split; [lia|by injection Hn]|right]. exists j. split; [lia|done].
Qed.

Lemma links_nodup_place σ hd A B lvl : links σ hd (A ++ B) lvl →
  (if bool_decide (places hd (A ++ B) !!! length A = hd) then None else Some (places hd (A ++ B) !!! length A)) = zl <$> last A.
Proof.
  intros Hlk. rewrite <-(before_length A B).
  assert (places hd (A ++ B) !! length A = Some (places hd (A ++ B) !!! length A)) as Hp
    by (apply places_lookup; rewrite length_app; lia).
  destruct (length A) as [|k]; [by rewrite bool_decide_eq_true_2|]. rewrite bool_decide_eq_false_2.
  - cbn [before]. rewrite <-Hp. by rewrite places_S.
  - intros Heq. rewrite Heq in Hp.
    assert (S k = 0%nat) by (eapply NoDup_lookup; [exact (lk_nodup _ _ _ _ Hlk)|exact Hp|done]). done.
Qed.

Lemma fwd_0 l : Forall (λ n, (1 ≤ zh n)%nat) l → fwd 0 l = zl <$> head l.
Proof. destruct 1 as [|n l Hn _]; [done|]. cbn. by destruct (Nat.ltb_spec 0 (zh n)); [|lia]. Qed.

Section Insert.
Context (σ0 : zheap) (hd x : loc) (A B : list zn) (s : double) (e : bytes) (hx top : nat).
Context (Hlk : links σ0 hd (A ++ B) top) (Hx : x ∉ places hd (A ++ B)) (Hhx : (1 ≤ hx ≤ top)%nat).
#[local] Abbreviation X := (mkZn x s e hx).

Lemma links_insert σ' :
  (∀ b j, lev σ' b j = bumped hd x A B σ0 hx top b j) →
  (∀ b, fields σ' b = if decide (b = x) then Some (Some e, s, hx) else fields σ0 b) →
  (∀ b, bwd σ' b = if decide (b = x) then Some (zl <$> last A) else
                   if decide (Some b = zl <$> head B) then Some (Some x) else bwd σ0 b) →
  links σ' hd (A ++ X :: B) top.
Proof.
  intros Hlev Hfields Hbwd.
  assert (NoDup (places hd (A ++ X :: B))) as Hnd.
  { rewrite places_insert. apply NoDup_cons. split; [done|]. by apply (lk_nodup _ _ _ _ Hlk). }
  assert (∀ k n, (A ++ B) !! k = Some n → zl n ≠ x) as Hnx.
  { intros k n Hn <-. apply Hx. right. apply list_elem_of_fmap_2. by eapply list_elem_of_lookup_2. }
  pose proof Hlk as [Hl Hnd0 Hh Hhd Hf Hc Ht Hb]. split; [done|done|..].
  - apply Forall_app in Hh as [HA HB]. apply Forall_app. split; [done|]. by constructor.
  - rewrite Hfields, decide_False; [done|]. intros ->. apply Hx. by apply list_elem_of_here.
  - intros k n [[Hn Hk]|[[-> ->]|(j & -> & Hn)]]%insert_cases; rewrite Hfields; cbn.
    + assert ((A ++ B) !! k = Some n) as Hn' by (by rewrite lookup_app_l). rewrite decide_False by eauto. eauto.
    + by rewrite decide_True.
    + assert ((A ++ B) !! (length A + j)%nat = Some n) as Hn' by (by rewrite lookup_app_r, Nat.add_comm, Nat.add_sub by lia).
      rewrite decide_False by eauto. eauto.
  - intros p a i Ha Hi Hp. rewrite Hlev. by apply bumped_cells.
  - intros i Hi. destruct (Ht i Hi) as [sp Hsp]. exists sp. rewrite Hlev. unfold bumped, linked.
    rewrite decide_False by lia. by rewrite decide_False by lia.
  - assert (∀ k n, (A ++ B) !! k = Some n → k ≠ length A → Some (zl n) ≠ zl <$> head B) as Hhead.
    { intros k n Hn Hk Heq. destruct B as [|m B']; [done|]. cbn in Heq. injection Heq as Heq.
      assert ((A ++ m :: B') !! length A = Some m) as Hm by (by rewrite lookup_app_r, Nat.sub_diag by lia).
      apply Hk. assert (S k = S (length A)); [|lia]. eapply NoDup_lookup; [exact Hnd0| |].
      - rewrite places_S, Hn. cbn. by rewrite Heq.
      - by rewrite places_S, Hm. }
    intros k n [[Hn Hk]|[[-> ->]|(j & -> & Hn)]]%insert_cases; rewrite Hbwd; cbn [zl].
    + assert ((A ++ B) !! k = Some n) as Hn' by (by rewrite lookup_app_l). rewrite decide_False by eauto.
      rewrite decide_False by (apply (Hhead k); [done|lia]). rewrite (Hb k) by done. f_equal. apply before_left. lia.
    + rewrite decide_True by done. by rewrite before_length.
    + assert ((A ++ B) !! (length A + j)%nat = Some n) as Hn' by (by rewrite lookup_app_r, Nat.add_comm, Nat.add_sub by lia).
      rewrite decide_False by eauto. rewrite before_right. destruct j as [|j].
      * rewrite decide_True by (destruct B; cbn in *; congruence). done.
      * rewrite decide_False by (apply (Hhead (length A + S j)%nat); [done|lia]). rewrite (Hb _ _ Hn').
        rewrite <-Nat.add_succ_comm at 1. change (S (length A) + j)%nat with (S (length A + j)). by rewrite before_right.
Qed.
End Insert.

Lemma update_top hd A B lvl new : Forall (λ n, (1 ≤ zh n ≤ lvl)%nat) (A ++ B) →
  (update hd A B <$> seq 0 lvl) ++ replicate new (hd, 0) = update hd A B <$> seq 0 (lvl + new).
Proof.
  intros Hh. rewrite seq_app, fmap_app. f_equal. apply replicate_as_Forall. split; [by rewrite length_fmap, length_seq|].
  apply Forall_fmap, Forall_seq. intros j Hj. unfold compose, update.
  assert (lastAt j A = 0%nat) as ->; [|done]. apply lastAt_low. apply Forall_app in Hh as [HA _].
  eapply Forall_impl; [exact HA|]. cbn. lia.
Qed.

Lemma zslCreateNode_run junk lvl s e σ :
  zslCreateNode junk lvl s e σ =
  Ok (zbrk σ, mkZheap (<[zbrk σ := mkZNode e s (forward junk) (replicate lvl junk)]> (znodes σ)) (S (zbrk σ)) (zrandom σ)).
Proof. done. Qed.

(** The back pointers, after the levels were linked. *)
Lemma linkBack_run σ z A B x s e hx lvl : links σ (header z) (A ++ B) lvl → x ∉ places (header z) (A ++ B) →
  tail z = zl <$> last (A ++ B) → Forall (λ n, (1 ≤ zh n)%nat) B →
  ∀ σ', lev σ' x 0 = Some (cell B 0 0) → (∀ a, a ∈ places (header z) (A ++ B) → is_Some (znodes σ' !! a)) →
  ∃ σ'', linkBack z x (places (header z) (A ++ B) !!! length A) σ' = Ok (zl <$> last (A ++ mkZn x s e hx :: B), σ'') ∧
    (∀ b j, lev σ'' b j = lev σ' b j) ∧ (∀ b, fields σ'' b = fields σ' b) ∧
    (∀ b, bwd σ'' b = if decide (b = x) then Some (zl <$> last A) else
                      if decide (Some b = zl <$> head B) then Some (Some x) else bwd σ' b) ∧
    frame (x :: places (header z) (A ++ B)) σ' σ'' ∧ zbrk σ'' = zbrk σ' ∧ zrandom σ'' = zrandom σ'.
Proof.
  intros Hlk Hx Htail HB σ' Hlev Halloc. pose proof (lev_node _ _ _ _ Hlev) as (nx & Hnx & _).
  unfold linkBack. rewrite (links_nodup_place _ _ _ _ _ Hlk).
  rewrite (bind_run _ _ _ _ _ (zupdNode_run _ _ _ (ex_intro _ _ Hnx))). set (σ1 := onNode x _ σ').
  assert (lev σ1 x 0 = Some (cell B 0 0)) as Hlev1 by (unfold σ1; by rewrite lev_setBackward).
  rewrite (bind_run _ _ _ _ _ (readLevel_run _ _ _ _ Hlev1)). cbn [cell forward]. rewrite drop_0, (fwd_0 B HB).
  destruct B as [|n B]; cbn [head fmap option_fmap option_map].
  - eexists. split; [by rewrite last_snoc|]. unfold σ1. split_and!; [intros; apply lev_setBackward|intros; apply fields_setBackward| | |done|done].
    + intros b. rewrite bwd_setBackward by eauto. case_decide; [done|]. by rewrite decide_False by done.
    + intros b Hb. apply onNode_other. set_solver.
  - assert (zl n ∈ places (header z) (A ++ n :: B)) as Hin.
    { right. rewrite fmap_app. apply elem_of_app. right. by apply list_elem_of_here. }
    assert (zl n ≠ x) as Hne by (intros Heq; apply Hx; by rewrite <-Heq).
    assert (is_Some (znodes σ1 !! zl n)) as Hn1 by (unfold σ1; rewrite onNode_other by done; auto).
    rewrite (bind_run _ _ _ _ _ (zupdNode_run _ _ _ Hn1)). eexists. split.
    { unfold mret, M_ret. rewrite Htail. rewrite !last_app. cbn [last]. by destruct (last (n :: B)) eqn:Hl; [|apply last_None in Hl]. }
    unfold σ1. split_and!; [| | | |done|done].
    + intros b j. by rewrite !lev_setBackward.
    + intros b. by rewrite !fields_setBackward.
    + intros b. rewrite bwd_setBackward by done. rewrite bwd_setBackward by eauto.
      destruct (decide (b = zl n)) as [->|Hb]; [by rewrite decide_False, decide_True by done|].
      case_decide; [done|]. rewrite decide_False; [done|]. intros [= ?]; done.
    + intros b Hb. rewrite !onNode_other by set_solver. done.
Qed.

Lemma linkNode_run junk σ z A B s e hx top : links σ (header z) (A ++ B) top → (1 ≤ hx ≤ top)%nat →
  Z.of_nat (length (A ++ B)) < 2 ^ 32 - 1 → tail z = zl <$> last (A ++ B) → (∀ a, (zbrk σ ≤ a)%nat → znodes σ !! a = None) →
  ∃ σ', linkNode junk z (update (header z) A B <$> seq 0 top) hx top s e σ = Ok ((zl <$> last (A ++ mkZn (zbrk σ) s e hx :: B), zbrk σ), σ') ∧
    links σ' (header z) (A ++ mkZn (zbrk σ) s e hx :: B) top ∧
    frame (zbrk σ :: places (header z) (A ++ B)) σ σ' ∧ zrandom σ' = zrandom σ ∧ zbrk σ' = S (zbrk σ).
Proof.
  intros Hlk Hhx Hsize Htail Hfresh. unfold linkNode. set (x := zbrk σ) in *.
  assert (x ∉ places (header z) (A ++ B)) as Hx.
  { intros Hin. destruct (links_node _ _ _ _ _ Hlk Hin) as [n Hn]. rewrite Hfresh in Hn by (unfold x; lia). done. }
  rewrite (bind_run _ _ _ _ _ (zslCreateNode_run _ _ _ _ _)). fold x. set (σ3 := mkZheap (<[x := _]> _) _ _).
  assert (∀ a, a ≠ x → znodes σ3 !! a = znodes σ !! a) as Hother by (intros a Ha; by apply lookup_insert_ne).
  assert (links σ3 (header z) (A ++ B) top) as Hlk3.
  { apply (links_heap σ); [done|]. intros a Ha. apply Hother. by intros ->. }
  assert (znodes σ3 !! x = Some (mkZNode (Some e) s (forward junk) (replicate hx junk))) as Hx3 by apply lookup_insert_eq.
  assert (∀ j, (j < hx)%nat → is_Some (lev σ3 x j)) as Hlx.
  { intros j Hj. unfold lev. rewrite Hx3. cbn. rewrite lookup_replicate_2 by done. eauto. }
  destruct (proj1 (wp_run _ _ _) (linkLevels_run (header z) x A B top Hsize σ3 Hlk3 Hx hx ltac:(lia) Hlx))
    as ([] & σ4 & Hrun4 & Hq4 & Hlev4).
  destruct (proj1 (wp_run _ _ _) (spanUps_run (header z) x A B top Hsize σ3 Hlk3 hx σ4 ltac:(lia) Hq4 Hlev4))
    as ([] & σ5 & Hrun5 & Hq5 & Hlev5).
  rewrite (bind_run _ _ _ _ _ Hrun4), (bind_run _ _ _ _ _ Hrun5), (lastOf_run _ _ _ _ _ Hlk3).
  assert (Forall (λ n, (1 ≤ zh n)%nat) B) as HB.
  { pose proof (lk_heights _ _ _ _ Hlk) as Hh. apply Forall_app in Hh as [_ Hh]. eapply Forall_impl; [exact Hh|]. cbn. lia. }
  destruct (linkBack_run _ _ A B x s e hx _ Hlk3 Hx Htail HB σ5) as (σ6 & Hrun6 & Hlev6 & Hf6 & Hb6 & Hfr6 & Hk6 & Hr6).
  { rewrite Hlev5. unfold bumped, linked. rewrite decide_False by lia. by rewrite decide_True, decide_True by lia. }
  { intros a Ha. pose proof (links_node _ _ _ _ _ Hlk3 Ha) as [n Hn]. pose proof (q_fields _ _ _ Hq5 a) as Hfa.
    unfold fields in Hfa. rewrite Hn in Hfa. destruct (znodes σ5 !! a); [eauto|done]. }
  rewrite (bind_run _ _ _ _ _ Hrun6). exists σ6. split; [done|]. split_and!.
  - eapply (links_insert σ3); [done..| | |].
    + intros b j. by rewrite Hlev6, Hlev5.
    + intros b. rewrite Hf6, (q_fields _ _ _ Hq5). case_decide as Hb; [|done]. subst b. unfold fields. rewrite Hx3. cbn.
      by rewrite length_replicate.
    + intros b. by rewrite Hb6, (q_bwd _ _ _ Hq5).
  - intros a Ha. rewrite Hfr6, (q_frame _ _ _ Hq5), Hother by set_solver. done.
  - rewrite Hr6, (q_random _ _ _ Hq5). done.
  - rewrite Hk6, (q_brk _ _ _ Hq5). done.
Qed.

(** The nodes that the search passes are those of the first part. *)
Definition splits (go : zskiplistNode → bool) (A B : list zn) : Prop :=
  Forall (λ n, ∀ nd, ele nd = Some (ze n) → score nd = zs n → go nd = true) A ∧
  Forall (λ n, ∀ nd, ele nd = Some (ze n) → score nd = zs n → go nd = false) B.

Lemma seek_splits σ z A B w go : zslOk σ z (A ++ B) → splits go A B →
  (∀ v, 0 ≤ v ≤ Z.of_nat (length (A ++ B)) → w v = v) →
  seek w (λ n _, go n) z σ = Ok (update (header z) A B <$> seq 0 (zsl_level z), σ).
Proof.
  intros Hok [HA HB] Hw. apply seek_run; [exact (ok_links _ _ _ Hok)|done| |done..|exact (ok_length _ _ _ Hok)].
  intros k n nd Hn He Hs. destruct (decide (k < length A)%nat) as [Hk|Hk].
  - rewrite lookup_app_l in Hn by done. rewrite bool_decide_eq_true_2 by done. by apply (Forall_lookup_1 _ _ _ _ HA Hn).
  - rewrite lookup_app_r in Hn by lia. rewrite bool_decide_eq_false_2 by done. by apply (Forall_lookup_1 _ _ _ _ HB Hn).
Qed.

Lemma zslInsert_run junk σ z A B s e r rs : zslOk σ z (A ++ B) → isnan s = false → splits (nodeBefore s e) A B →
  Z.of_nat (length (A ++ B)) < 2 ^ 32 - 1 → randomLoop (zrandom σ) 1 = Some (r, rs) →
  ∃ σ' z' hx, zslInsert junk z s e σ = Ok ((z', zbrk σ), σ') ∧ zslOk σ' z' (A ++ mkZn (zbrk σ) s e hx :: B) ∧
    header z' = header z ∧ frame (zbrk σ :: places (header z) (A ++ B)) σ σ' ∧ zrandom σ' = rs ∧ zbrk σ' = S (zbrk σ).
Proof.
  intros Hok Hs Hsp Hsize Hr. pose proof Hok as [Hlk Htail Hlen Hfresh]. unfold zslInsert.
  rewrite (bind_run _ _ _ _ _ (serverAssert_run _ _ _ (f_equal negb Hs))).
  rewrite (bind_run _ _ _ _ _ (seek_splits _ _ _ _ zu32 _ Hok Hsp ltac:(intros; unfold zu32; rewrite Z.mod_small; lia))).
  destruct (zslRandomLevel_run σ r rs Hr) as (hx & Hrun & Hhx). rewrite (bind_run _ _ _ _ _ Hrun). cbn zeta.
  rewrite (update_top _ _ _ _ _ (lk_heights _ _ _ _ Hlk)). set (new := (hx - zsl_level z)%nat).
  pose proof (lk_level _ _ _ _ Hlk) as Hlvl. set (σ1 := mkZheap _ _ rs).
  assert (links σ1 (header z) (A ++ B) (zsl_level z)) as Hlk1 by (by apply (links_heap σ)).
  destruct (proj1 (wp_run _ _ _) (raiseLevels_run σ1 z (A ++ B) new Hlk1 Hlen ltac:(unfold new; lia))) as ([] & σ2 & Hrun2 & Hlk2 & Hq2).
  rewrite (bind_run _ _ _ _ _ Hrun2). replace (Nat.max hx (zsl_level z)) with (zsl_level z + new)%nat by lia.
  assert (∀ a, a ∉ zbrk σ :: places (header z) (A ++ B) → znodes σ2 !! a = znodes σ !! a) as Hfr2.
  { intros a Ha. apply (q_frame _ _ _ Hq2). unfold places in Ha. set_solver. }
  assert (∀ a, (zbrk σ ≤ a)%nat → znodes σ2 !! a = None) as Hfresh2.
  { intros a Ha. rewrite (q_frame _ _ _ Hq2); [by apply Hfresh|]. intros ->%list_elem_of_singleton.
    destruct (links_node _ _ _ _ (header z) Hlk) as [n Hn]; [by apply list_elem_of_here|]. rewrite Hfresh in Hn by done. done. }
  pose proof (q_brk _ _ _ Hq2) as Hb2. change (zbrk σ1) with (zbrk σ) in Hb2.
  destruct (linkNode_run junk σ2 z A B s e hx (zsl_level z + new) Hlk2 ltac:(unfold new; lia) Hsize Htail)
    as (σ3 & Hrun3 & Hlk3 & Hfr3 & Hr3 & Hk3); [by rewrite Hb2|]. rewrite Hb2 in *.
  rewrite (bind_run _ _ _ _ _ Hrun3). eexists σ3, _, hx. split; [done|]. split_and!.
  - split; cbn [header tail zsl_length zsl_level fst]; [done|done| |].
    + rewrite Hlen, u64_id by (unfold ULLONG_MAX; lia). rewrite !length_app. cbn. lia.
    + intros a Ha. rewrite Hk3 in Ha. rewrite Hfr3; [apply Hfresh2; lia|].
      intros [->|Hin]%elem_of_cons; [lia|]. destruct (links_node _ _ _ _ _ Hlk Hin) as [n Hn]. rewrite Hfresh in Hn by lia. done.
  - done.
  - intros a Ha. by rewrite Hfr3, Hfr2.
  - rewrite Hr3, (q_random _ _ _ Hq2). done.
  - done.
Qed.

(** ** Deletion *)

Section Delete.
Context (hd : loc) (A B : list zn) (X : zn) (lvl : nat) (σ0 : zheap).
Context (Hlk : links σ0 hd (A ++ X :: B) lvl) (Hsize : Z.of_nat (length (A ++ X :: B)) < 2 ^ 63).
#[local] Abbreviation up := (update hd A (X :: B)).
#[local] Abbreviation N := (length A).

Lemma place_X : places hd (A ++ X :: B) !! S N = Some (zl X).
Proof. rewrite <-(Nat.add_0_r N), places_right. done. Qed.

Lemma up_not_X i : fst (up i) ≠ zl X.
Proof.
  intros Heq. symmetry in Heq. apply (up_eq hd A (X :: B) lvl σ0 Hlk _ _ i place_X) in Heq. pose proof (lastAt_le i A). lia.
Qed.

Lemma not_in_B i : fwd i B ≠ Some (zl X).
Proof.
  intros Heq. destruct (fwd_first _ _ _ Heq) as (k & n & Hn & Hz & _). pose proof (lk_nodup _ _ _ _ Hlk) as Hnd.
  assert (S N = S (N + S k)); [|lia]. eapply NoDup_lookup; [exact Hnd|exact place_X|]. rewrite places_right. cbn.
  change (zl <$> B !! k = Some (zl X)). rewrite Hn. cbn. by rewrite Hz.
Qed.

(** The levels after the loop of [zslDeleteNode]. *)
Definition unlinked (k : nat) (b : loc) (j : nat) : option zskiplistLevel :=
  if decide ((j < k)%nat ∧ b = fst (up j)) then Some (mkLevel (fwd j B) (Z.of_nat (N - lastAt j A) + dist j B)) else lev σ0 b j.

Section Unlink.
Context (u : list (loc * Z)) (Hu : ∀ i, (i < lvl)%nat → u !! i = Some (up i)).

Lemma unlinkLevel_step σ k : (k < lvl)%nat → quiet (places hd (A ++ X :: B)) σ0 σ → (∀ b j, lev σ b j = unlinked k b j) →
  wp noFault (unlinkLevel (zl X) u k)
    (λ _ σ', quiet (places hd (A ++ X :: B)) σ0 σ' ∧ ∀ b j, lev σ' b j = unlinked (S k) b j) σ.
Proof.
  intros Hk Hq Hlev. apply wp_run. unfold unlinkLevel. rewrite Hu by lia. rewrite bind_deref.
  pose proof (dist_range k B) as Hdist. rewrite length_app in Hsize. cbn [length] in Hsize.
  assert (lev σ (fst (up k)) k = Some (mkLevel (fwd k (X :: B)) (Z.of_nat (N - lastAt k A) + dist k (X :: B)))) as Hv.
  { rewrite Hlev. unfold unlinked. rewrite decide_False by lia. by apply (up_cell hd A (X :: B) lvl). }
  rewrite (bind_run _ _ _ _ _ (readLevel_run _ _ _ _ Hv)). cbn [forward span].
  set (new := mkLevel (fwd k B) (Z.of_nat (N - lastAt k A) + dist k B)).
  match goal with |- ∃ a s, ?m σ = _ ∧ _ => assert (m σ = updLevel (fst (up k)) k (λ _, new) σ) as -> end.
  { cbn [fwd dist]. destruct (Nat.ltb_spec k (zh X)) as [Hx|Hx].
    - rewrite bool_decide_eq_true_2 by done.
      assert (lev σ (zl X) k = Some (mkLevel (fwd k B) (dist k B))) as Hvx.
      { rewrite Hlev. unfold unlinked. rewrite decide_False by lia. rewrite (lk_cells _ _ _ _ Hlk _ _ k place_X); [|done|].
        - replace (S N) with (N + 1)%nat by lia. by rewrite cell_right.
        - rewrite <-(Nat.add_0_r N), heightAt_right. done. }
      rewrite (bind_run _ _ _ _ _ (readLevel_run _ _ _ _ Hvx)). cbn [forward span]. unfold new, u64.
      rewrite Z.add_mod_idemp_r, Z.mod_small by lia. 
      by replace (Z.of_nat (N - lastAt k A) + 1 + (dist k B - 1)) with (Z.of_nat (N - lastAt k A) + dist k B) by lia.
    - rewrite bool_decide_eq_false_2 by apply not_in_B. unfold new, u64.
      rewrite Z.mod_small by lia.
      by replace (Z.of_nat (N - lastAt k A) + (1 + dist k B) - 1) with (Z.of_nat (N - lastAt k A) + dist k B) by lia. }
  rewrite (updLevel_run _ _ _ _ _ Hv). eexists _, _. split; [done|]. split.
  - etrans; [exact Hq|]. apply quiet_setLevel, up_in.
  - intros b j. rewrite lev_setLevel by eauto. unfold unlinked. destruct (decide (b = fst (up k) ∧ j = k)) as [[-> ->]|Hb].
    + by rewrite decide_True by (split; [lia|done]).
    + rewrite Hlev. unfold unlinked. destruct (decide (j = k)) as [->|Hj]; [by rewrite !decide_False by (lia || tauto)|].
      destruct (decide ((j < k)%nat ∧ b = fst (up j))), (decide ((j < S k)%nat ∧ b = fst (up j))); done || lia.
Qed.

Lemma unlinkLevels_run :
  wp noFault (forM_ (seq 0 lvl) (unlinkLevel (zl X) u))
    (λ _ σ', quiet (places hd (A ++ X :: B)) σ0 σ' ∧ ∀ b j, lev σ' b j = unlinked lvl b j) σ0.
Proof.
  apply (wp_forM_seq noFault (λ k σ', quiet (places hd (A ++ X :: B)) σ0 σ' ∧ ∀ b j, lev σ' b j = unlinked k b j) 0 lvl).
  - split; [done|]. intros b j. unfold unlinked. by rewrite decide_False by lia.
  - intros k σ Hk [Hq Hlev]. apply unlinkLevel_step; [lia|done..].
Qed.
End Unlink.

(** They are those of the sequence without the node. *)
Lemma unlinked_cells p a i : places hd (A ++ B) !! p = Some a → (i < lvl)%nat → (i < heightAt (A ++ B) p)%nat →
  unlinked lvl a i = Some (cell (A ++ B) p i).
Proof.
  intros Ha Hi Hh. unfold unlinked. destruct (decide (p ≤ N)%nat) as [Hp|Hp].
  - rewrite heightAt_app in Hh by done. rewrite places_left in Ha by done.
    assert (places hd (A ++ X :: B) !! p = Some a) as Ha' by (by rewrite places_left).
    pose proof (up_eq hd A (X :: B) lvl σ0 Hlk p a i Ha') as Heq. rewrite cell_left by done.
    destruct (decide (lastAt i A = p)) as [Hlast|Hlast].
    + rewrite decide_True by (split; [done|by apply Heq]). by rewrite Hlast.
    + rewrite decide_False by (intros [_ H%Heq]; congruence).
      rewrite (lk_cells _ _ _ _ Hlk _ _ i Ha' Hi) by (by rewrite heightAt_app by done). rewrite cell_left, decide_False by done. done.
  - replace p with (S (N + (p - N - 1))) in Ha, Hh |- * by lia. set (k := (p - N - 1)%nat) in *.
    rewrite places_right in Ha. rewrite heightAt_right in Hh. rewrite <-Nat.add_succ_r, cell_right.
    assert (places hd (A ++ X :: B) !! S (N + S k) = Some a) as Ha' by (rewrite places_right; exact Ha).
    rewrite decide_False.
    2:{ intros [_ H%(up_eq hd A (X :: B) lvl σ0 Hlk _ _ i Ha')]. pose proof (lastAt_le i A). lia. }
    rewrite (lk_cells _ _ _ _ Hlk _ _ i Ha' Hi) by (rewrite heightAt_right; exact Hh).
    rewrite <-Nat.add_succ_r, cell_right. done.
Qed.

Lemma links_delete σ' :
  (∀ b j, lev σ' b j = unlinked lvl b j) → (∀ b, fields σ' b = fields σ0 b) →
  (∀ b, bwd σ' b = if decide (Some b = zl <$> head B) then Some (zl <$> last A) else bwd σ0 b) →
  links σ' hd (A ++ B) lvl.
Proof.
  intros Hlev Hfields Hbwd. pose proof Hlk as [Hl Hnd Hh Hhd Hf Hc Ht Hb].
  assert (∀ k n, A !! k = Some n → (A ++ X :: B) !! k = Some n) as HA.
  { intros k n Hn. by apply lookup_app_l_Some. }
  assert (∀ k n, B !! k = Some n → (A ++ X :: B) !! S (N + k) = Some n) as HB.
  { intros k n Hn. rewrite lookup_app_r by lia. by replace (S (N + k) - N)%nat with (S k) by lia. }
  assert (∀ k n, A !! k = Some n → Some (zl n) ≠ zl <$> head B) as Hhead.
  { intros k n Hn Heq. destruct B as [|m B'] eqn:HB'; [done|]. cbn in Heq. injection Heq as Heq.
    pose proof (lookup_lt_Some _ _ _ Hn) as Hk. assert (S k = S (S (N + 0))); [|lia]. eapply NoDup_lookup; [exact Hnd| |].
    - rewrite places_S, (HA _ _ Hn). cbn. by rewrite Heq.
    - rewrite places_S, (HB 0%nat m) by done. done. }
  split; [done|..].
  - rewrite places_insert in Hnd. by apply NoDup_cons in Hnd as [_ ?].
  - apply Forall_app in Hh as [Hh1 Hh2]. apply Forall_app. split; [done|]. by inversion Hh2.
  - by rewrite Hfields.
  - intros k n [Hn|[Hk Hn]]%lookup_app_Some; rewrite Hfields; eauto.
  - intros p a i Ha Hi Hp. rewrite Hlev. by apply unlinked_cells.
  - intros i Hi. destruct (Ht i Hi) as [sp Hsp]. exists sp. rewrite Hlev. unfold unlinked. by rewrite decide_False by lia.
  - intros k n [Hn|[Hk Hn]]%lookup_app_Some; rewrite Hbwd.
    + rewrite decide_False by eauto. rewrite (Hb _ _ (HA _ _ Hn)). f_equal. apply before_left. apply lookup_lt_Some in Hn. lia.
    + set (j := (k - N)%nat) in *. replace k with (N + j)%nat by lia. destruct j as [|j].
      * rewrite decide_True by (destruct B; cbn in *; congruence). by rewrite Nat.add_0_r, before_length.
      * rewrite decide_False.
        -- rewrite (Hb _ _ (HB _ _ Hn)). rewrite before_right. rewrite <-Nat.add_succ_comm.
           change (S N + j)%nat with (S (N + j)). by rewrite before_right.
        -- destruct B as [|m B']; [done|]. cbn. intros [= Heq].
           assert (S (S (N + S j)) = S (S (N + 0))); [|lia]. eapply NoDup_lookup; [exact Hnd| |].
           ++ rewrite places_S, (HB _ _ Hn). cbn. by rewrite Heq.
           ++ rewrite places_S, (HB 0%nat m) by done. done.
Qed.
End Delete.

(** The levels that no node has any more are dropped. *)
Lemma links_lower σ hd ns lvl l : links σ hd ns lvl → (1 ≤ l ≤ lvl)%nat → low l ns → links σ hd ns l.
Proof.
  intros [Hl Hnd Hh Hhd Hf Hc Ht Hb] Hll Hlow. split; try done.
  - lia.
  - apply Forall_forall. intros n Hn. unfold low in Hlow. rewrite Forall_forall in Hh, Hlow.
    specialize (Hh n Hn). specialize (Hlow n Hn). cbn in *. lia.
  - intros p a i Ha Hi Hp. apply Hc; [done|lia|done].
  - intros i Hi. destruct (decide (lvl ≤ i)%nat) as [Hge|Hlt]; [apply Ht; lia|].
    rewrite (Hc 0%nat hd i); [|done|lia|cbn; lia]. exists (dist i ns). unfold cell. rewrite drop_0. f_equal.
    f_equal. apply fwd_low. eapply Forall_impl; [exact Hlow|]. cbn. lia.
Qed.

Lemma lowerLevel_run σ z ns lvl : links σ (header z) ns lvl →
  ∃ l, lowerLevel z lvl σ = Ok (l, σ) ∧ links σ (header z) ns l ∧ (l ≤ lvl)%nat.
Proof.
  induction lvl as [|l IH]; intros Hlk; [by pose proof (lk_level _ _ _ _ Hlk); lia|].
  destruct l as [|l]; [exists 1%nat; split_and!; [done|done|lia]|]. cbn [lowerLevel].
  pose proof (lk_level _ _ _ _ Hlk) as Hl.
  assert (lev σ (header z) (S l) = Some (cell ns 0 (S l))) as Hv by (apply (lk_cells _ _ _ _ Hlk); [done|lia|cbn; lia]).
  rewrite (bind_run _ _ _ _ _ (readLevel_run _ _ _ _ Hv)). unfold cell. rewrite drop_0. cbn [forward].
  destruct (fwd (S l) ns) eqn:Hf; [by eexists|].
  destruct IH as (l' & Hrun & Hlk' & Hle); [apply (links_lower _ _ _ _ _ Hlk); [lia|by apply fwd_low]|].
  exists l'. split_and!; [done|done|lia].
Qed.

Lemma update_indep hd A C D i : update hd A C i = update hd A D i.
Proof.
  unfold update. f_equal. rewrite !list_lookup_total_alt. by rewrite !places_left by apply lastAt_le.
Qed.

Lemma last_middle (A : list zn) X B : (zl <$> last (A ++ B)) = match B with [] => zl <$> last A | _ => zl <$> last (A ++ X :: B) end.
Proof.
  destruct B as [|n B]; [by rewrite app_nil_r|]. rewrite !last_app. cbn [last].
  by destruct (last (n :: B)) eqn:Hl; [|apply last_None in Hl].
Qed.

Lemma unlinkBack_run σ z A X B : fields σ (zl X) = Some (Some (ze X), zs X, zh X) → bwd σ (zl X) = Some (zl <$> last A) →
  lev σ (zl X) 0 = Some (cell B 0 0) → Forall (λ n, (1 ≤ zh n)%nat) B → zl X ∉ zl <$> B →
  (∀ n, n ∈ B → is_Some (znodes σ !! zl n)) → tail z = zl <$> last (A ++ X :: B) →
  ∃ σ', unlinkBack z (zl X) σ = Ok (zl <$> last (A ++ B), σ') ∧
    (∀ b j, lev σ' b j = lev σ b j) ∧ (∀ b, fields σ' b = fields σ b) ∧
    (∀ b, bwd σ' b = if decide (Some b = zl <$> head B) then Some (zl <$> last A) else bwd σ b) ∧
    frame (zl <$> B) σ σ' ∧ zbrk σ' = zbrk σ ∧ zrandom σ' = zrandom σ.
Proof.
  intros (n & Hn & _)%fields_node Hbwd Hlev HB Hnot Halloc Htail. unfold unlinkBack.
  rewrite (bind_run _ _ _ _ _ (zreadNode_run _ _ _ Hn)), (bind_run _ _ _ _ _ (readLevel_run _ _ _ _ Hlev)).
  assert (backward n = zl <$> last A) as -> by (unfold bwd in Hbwd; rewrite Hn in Hbwd; by injection Hbwd).
  unfold cell. rewrite drop_0. cbn [forward]. rewrite (fwd_0 B HB), (last_middle A X B). destruct B as [|m B].
  - cbn. exists σ. split; [done|]. split_and!; done.
  - cbn [head fmap option_fmap option_map]. assert (is_Some (znodes σ !! zl m)) as Hm by (apply Halloc; by apply list_elem_of_here).
    rewrite (bind_run _ _ _ _ _ (zupdNode_run _ _ _ Hm)). eexists. split; [unfold mret, M_ret; by rewrite Htail|].
    split_and!; [intros; apply lev_setBackward|intros; apply fields_setBackward| | |done|done].
    + intros b. rewrite bwd_setBackward by done. destruct (decide (b = zl m)) as [->|Hb]; [by rewrite decide_True|].
      rewrite decide_False; [done|]. by intros [= ?].
    + intros b Hb. apply onNode_other. cbn in Hb. set_solver.
Qed.

Lemma zslDeleteNode_run σ z A X B u : zslOk σ z (A ++ X :: B) → Z.of_nat (length (A ++ X :: B)) < 2 ^ 63 →
  (∀ i, (i < zsl_level z)%nat → u !! i = Some (update (header z) A (X :: B) i)) →
  ∃ σ' z', zslDeleteNode z (zl X) u σ = Ok (z', σ') ∧ zslOk σ' z' (A ++ B) ∧ header z' = header z ∧ (zsl_level z' ≤ zsl_level z)%nat ∧
    frame (places (header z) (A ++ X :: B)) σ σ' ∧ fields σ' (zl X) = fields σ (zl X) ∧
    zbrk σ' = zbrk σ ∧ zrandom σ' = zrandom σ.
Proof.
  intros [Hlk Htail Hlen Hfresh] Hsize Hu. unfold zslDeleteNode.
  destruct (proj1 (wp_run _ _ _) (unlinkLevels_run _ _ _ _ _ _ Hlk Hsize u Hu)) as ([] & σ1 & Hrun1 & Hq1 & Hlev1).
  rewrite (bind_run _ _ _ _ _ Hrun1). pose proof (lk_level _ _ _ _ Hlk) as Hl.
  assert ((A ++ X :: B) !! length A = Some X) as HX by (by rewrite lookup_app_r, Nat.sub_diag by lia).
  pose proof (lk_heights _ _ _ _ Hlk) as Hh. apply Forall_app in Hh as [_ Hh]. inversion Hh as [|? ? HhX HhB]; subst.
  assert (∀ n, n ∈ B → zl n ∈ places (header z) (A ++ X :: B)) as HinB.
  { intros n Hn. right. rewrite fmap_app. apply elem_of_app. right. right. by apply list_elem_of_fmap_2. }
  destruct (unlinkBack_run σ1 z A X B) as (σ2 & Hrun2 & Hlev2 & Hf2 & Hb2 & Hfr2 & Hk2 & Hr2).
  - rewrite (q_fields _ _ _ Hq1). by apply (lk_fields _ _ _ _ Hlk _ _ HX).
  - rewrite (q_bwd _ _ _ Hq1), (lk_back _ _ _ _ Hlk _ _ HX). by rewrite before_length.
  - rewrite Hlev1. unfold unlinked. rewrite decide_False.
    2:{ intros [_ Heq]. by apply (up_not_X (header z) A B X _ σ Hlk 0). }
    rewrite (lk_cells _ _ _ _ Hlk _ _ 0%nat (place_X (header z) A B X)); [|lia|].
    + replace (S (length A)) with (length A + 1)%nat by lia. by rewrite cell_right.
    + rewrite <-(Nat.add_0_r (length A)), heightAt_right. cbn. lia.
  - eapply Forall_impl; [exact HhB|]. cbn. lia.
  - pose proof (lk_nodup _ _ _ _ Hlk) as Hnd. unfold places in Hnd. rewrite fmap_app in Hnd. cbn in Hnd.
    apply NoDup_cons in Hnd as [_ Hnd]. apply NoDup_app in Hnd as (_ & _ & Hnd). by apply NoDup_cons in Hnd as [? _].
  - intros n Hn. destruct (links_node _ _ _ _ _ Hlk (HinB n Hn)) as [m Hm]. pose proof (q_fields _ _ _ Hq1 (zl n)) as Hfn.
    unfold fields in Hfn. rewrite Hm in Hfn. destruct (znodes σ1 !! zl n); [eauto|done].
  - done.
  - rewrite (bind_run _ _ _ _ _ Hrun2).
    assert (links σ2 (header z) (A ++ B) (zsl_level z)) as Hlk2.
    { apply (links_delete (header z) A B X _ σ Hlk Hsize); [intros b j; by rewrite Hlev2, Hlev1|intros b; by rewrite Hf2, (q_fields _ _ _ Hq1)|].
      intros b. by rewrite Hb2, (q_bwd _ _ _ Hq1). }
    destruct (lowerLevel_run _ _ _ _ Hlk2) as (l & Hrun3 & Hlk3 & Hle3). rewrite (bind_run _ _ _ _ _ Hrun3).
    assert (frame (places (header z) (A ++ X :: B)) σ σ2) as Hfr.
    { intros a Ha. rewrite Hfr2, (q_frame _ _ _ Hq1); [done|done|]. intros (n & -> & Hn)%list_elem_of_fmap. by apply Ha, HinB. }
    eexists σ2, _. split; [done|]. split_and!; [|done|done|done| | |].
    + split; cbn; [done|done| |].
      * rewrite Hlen. rewrite length_app in Hsize |- *. rewrite length_app. cbn [length] in Hsize |- *.
        rewrite u64_id by (unfold ULLONG_MAX; lia). lia.
      * rewrite Hk2, (q_brk _ _ _ Hq1). intros a Ha. rewrite Hfr; [by apply Hfresh|]. intros Hin.
        destruct (links_node _ _ _ _ _ Hlk Hin) as [m Hm]. by rewrite Hfresh in Hm.
    + by rewrite Hf2, (q_fields _ _ _ Hq1).
    + by rewrite Hk2, (q_brk _ _ _ Hq1).
    + by rewrite Hr2, (q_random _ _ _ Hq1).
Qed.
