(* ===== verification/ZsetProps.v ===== *)
(** * ZsetProps: ordered skip lists

    The nodes of a skip list are kept in the order of their scores, and of their
    elements where the scores are equal: insertion, deletion and the change of a score
    keep the order, and ranks and ranges are those of the ordered sequence. *)

From Stdlib Require Import Ascii String ZifyBool.
From stdpp Require Import base tactics option strings numbers gmap fin_maps sorting list.
From S2P Require Import Prelude Util Object Double Skiplist SkiplistProps.

Local Open Scope Z_scope.

(** ** The order of strings *)

Lemma sdscmp_cons x a y b : sdscmp (x :: a) (y :: b) = if code x =? code y then sdscmp a b else code x - code y.
Proof.
  unfold sdscmp. cbn [length Nat.min take memcmp]. destruct (Z.eqb_spec (code x) (code y)) as [Hc|Hc]; [done|].
  by destruct (Z.eqb_spec (code x - code y) 0); [lia|].
Qed.

Lemma sdscmp_eq a b : sdscmp a b = 0 ↔ a = b.
Proof.
  revert b. induction a as [|x a IH]; intros [|y b]; [done..|]. rewrite sdscmp_cons.
  destruct (Z.eqb_spec (code x) (code y)) as [Hc|Hc].
  - apply code_inj in Hc as ->. rewrite IH. split; [by intros ->|by intros [= ->]].
  - split; [lia|]. intros [= -> _]. done.
Qed.

Lemma sdscmp_sign a b : (sdscmp a b < 0 ↔ 0 < sdscmp b a).
Proof.
  revert b. induction a as [|x a IH]; intros [|y b]; [done..|]. rewrite !sdscmp_cons.
  destruct (Z.eqb_spec (code x) (code y)), (Z.eqb_spec (code y) (code x)); try lia. apply IH.
Qed.

Lemma sdscmp_trans a b c : sdscmp a b < 0 → sdscmp b c < 0 → sdscmp a c < 0.
Proof.
  revert b c. induction a as [|x a IH]; intros [|y b] [|z c]; try done. rewrite !sdscmp_cons.
  destruct (Z.eqb_spec (code x) (code y)), (Z.eqb_spec (code y) (code z)), (Z.eqb_spec (code x) (code z)); try lia. apply IH.
Qed.

(** ** The order of nodes *)

Definition keyBefore (s : double) (e : bytes) (s' : double) (e' : bytes) : bool :=
  dlt s s' || (deq s s' && (sdscmp e e' <? 0)).

#[local] Abbreviation num s := (isnan s = false).

Section Keys.
Implicit Types s : double.
Implicit Types e : bytes.

Lemma keyBefore_place s e s' e' : num s → num s' →
  keyBefore s e s' e' = true ↔ before3 (place s) (place s') ∨ (place s = place s' ∧ sdscmp e e' < 0).
Proof. intros Hs Hs'. unfold keyBefore. rewrite orb_true_iff, andb_true_iff, dlt_place, deq_place, Z.ltb_lt by done. done. Qed.

Lemma keyBefore_trans s e s' e' s'' e'' : num s → num s' → num s'' →
  keyBefore s e s' e' = true → keyBefore s' e' s'' e'' = true → keyBefore s e s'' e'' = true.
Proof.
  intros Hs Hs' Hs''. rewrite !keyBefore_place by done. intros [H1|[H1 H1']] [H2|[H2 H2']].
  - left. by apply (before3_trans _ (place s')).
  - left. by rewrite <-H2.
  - left. by rewrite H1.
  - right. split; [congruence|]. by apply (sdscmp_trans _ e').
Qed.

Lemma keyBefore_irrefl s e : keyBefore s e s e = false.
Proof. unfold keyBefore. rewrite dlt_irrefl. assert (sdscmp e e = 0) as -> by (by apply sdscmp_eq). by rewrite andb_false_r. Qed.

Lemma keyBefore_total s e s' e' : num s → num s' →
  keyBefore s e s' e' = true ∨ keyBefore s' e' s e = true ∨ (deq s s' = true ∧ e = e').
Proof.
  intros Hs Hs'. rewrite !keyBefore_place, deq_place by done.
  destruct (place_cases (place s) (place s')) as [H|[H|H]]; [auto| |auto].
  pose proof (sdscmp_sign e e'). pose proof (sdscmp_sign e' e). pose proof (sdscmp_eq e e').
  destruct (Z.lt_trichotomy (sdscmp e e') 0) as [Hc|[Hc|Hc]]; [auto| |].
  - right. right. split; [done|by apply sdscmp_eq].
  - right. left. right. split; [done|by apply sdscmp_sign].
Qed.

Lemma keyBefore_asym s e s' e' : num s → num s' → keyBefore s e s' e' = true → keyBefore s' e' s e = false.
Proof.
  intros Hs Hs' H. destruct (keyBefore s' e' s e) eqn:H'; [|done].
  pose proof (keyBefore_trans s e s' e' s e Hs Hs' Hs H H') as Hi. by rewrite keyBefore_irrefl in Hi.
Qed.

(** Equal scores cannot be told apart by the order. *)
Lemma keyBefore_deq_l s s' e t e' : num s → num s' → num t → deq s s' = true → keyBefore s e t e' = keyBefore s' e t e'.
Proof.
  intros Hs Hs' Ht Heq. unfold keyBefore. rewrite !deq_spec by done. rewrite (deq_dlt_l s s' t) by done.
  assert (dlt t s = dlt t s') as ->; [|done]. apply deq_place in Heq; [|done..]. apply Bool.eq_iff_eq_true.
  rewrite !dlt_place by done. by rewrite Heq.
Qed.
End Keys.

Definition nodeLt (a b : zn) : Prop := keyBefore (zs a) (ze a) (zs b) (ze b) = true.

#[global] Instance nodeLt_dec a b : Decision (nodeLt a b).
Proof. unfold nodeLt. apply _. Defined.

(** The order of the nodes of a skip list. *)
Definition ordered (ns : list zn) : Prop := StronglySorted nodeLt ns ∧ Forall (λ n, num (zs n)) ns.

Lemma nodeBefore_key s e n nd : ele nd = Some (ze n) → score nd = zs n → nodeBefore s e nd = keyBefore (zs n) (ze n) s e.
Proof. intros He Hs. unfold nodeBefore, eleOf, keyBefore. by rewrite He, Hs. Qed.

Lemma eleOf_some nd e : ele nd = Some e → eleOf nd = e.
Proof. unfold eleOf. by intros ->. Qed.

(** A property that holds up to some place cuts a sequence in two. *)
Lemma sorted_split {T} (R : T → T → Prop) (P : T → bool) l : StronglySorted R l →
  (∀ a b, a ∈ l → b ∈ l → R a b → P b = true → P a = true) →
  ∃ A B, l = A ++ B ∧ Forall (λ n, P n = true) A ∧ Forall (λ n, P n = false) B.
Proof.
  induction 1 as [|n l Hl IH Hn]; intros HP; [by exists [], []|]. destruct (P n) eqn:Hp.
  - destruct IH as (A & B & -> & HA & HB); [intros a b Ha Hb; apply HP; by right|]. exists (n :: A), B. by repeat constructor.
  - exists [], (n :: l). split; [done|]. split; [constructor|]. constructor; [done|]. apply Forall_forall. intros m Hm.
    destruct (P m) eqn:Hpm; [|done]. rewrite Forall_forall in Hn.
    rewrite (HP n m) in Hp; [done|by left|by right|by apply Hn|done].
Qed.

Lemma splits_of (go : zskiplistNode → bool) (P : zn → bool) A B :
  (∀ n nd, ele nd = Some (ze n) → score nd = zs n → go nd = P n) →
  Forall (λ n, P n = true) A → Forall (λ n, P n = false) B → splits go A B.
Proof.
  intros Hgo HA HB. split; (eapply Forall_impl; [eassumption|]); cbn; intros n Hn nd He Hs; by rewrite (Hgo n nd He Hs).
Qed.

(** The place of a key. *)
Lemma key_split ns s e : ordered ns → num s → ∃ A B, ns = A ++ B ∧ splits (nodeBefore s e) A B ∧
  Forall (λ n, keyBefore (zs n) (ze n) s e = true) A ∧ Forall (λ n, keyBefore (zs n) (ze n) s e = false) B.
Proof.
  intros [Hso Hnum] Hs. rewrite Forall_forall in Hnum.
  destruct (sorted_split nodeLt (λ n, keyBefore (zs n) (ze n) s e) ns Hso) as (A & B & -> & HA & HB).
  - intros a b Ha Hb Hab Hbs. by apply (keyBefore_trans _ _ (zs b) (ze b)); auto.
  - exists A, B. split; [done|]. split; [|done]. apply (splits_of _ (λ n, keyBefore (zs n) (ze n) s e)); [|done..]. intros n nd. apply nodeBefore_key.
Qed.

Lemma ordered_app A B : ordered (A ++ B) ↔ ordered A ∧ ordered B ∧ ∀ a b, a ∈ A → b ∈ B → nodeLt a b.
Proof.
  unfold ordered. rewrite StronglySorted_app, Forall_app. naive_solver.
Qed.

Lemma ordered_cons n B : ordered (n :: B) ↔ num (zs n) ∧ ordered B ∧ ∀ b, b ∈ B → nodeLt n b.
Proof.
  unfold ordered. rewrite Forall_cons. split.
  - intros [Hso [Hn HB]]. apply StronglySorted_inv in Hso as [Hso Hall]. rewrite Forall_forall in Hall. done.
  - intros (Hn & [Hso HB] & Hall). split; [constructor; [done|by apply Forall_forall]|done].
Qed.

Lemma ordered_num ns n : ordered ns → n ∈ ns → num (zs n).
Proof. intros [_ Hn] Hin. rewrite Forall_forall in Hn. by apply Hn. Qed.

(** Without a node, and with a new one. *)
Lemma ordered_delete A X B : ordered (A ++ X :: B) → ordered (A ++ B).
Proof.
  rewrite !ordered_app, ordered_cons. intros (HA & (_ & HB & _) & HAB). split_and!; [done|done|].
  intros a b Ha Hb. apply HAB; [done|by right].
Qed.

Lemma ordered_insert A B X : ordered (A ++ B) → num (zs X) →
  Forall (λ n, nodeLt n X) A → Forall (λ n, nodeLt X n) B → ordered (A ++ X :: B).
Proof.
  rewrite !ordered_app, ordered_cons, !Forall_forall. intros (HA & HB & HAB) HX HAX HXB. split_and!; [done|done|done|done|].
  intros a b Ha [->|Hb]%elem_of_cons; auto.
Qed.

(** ** Single nodes *)

(** A heap that is larger or smaller by nodes that are not of the list. *)
Lemma zslOk_heap σ σ' z ns : zslOk σ z ns → (∀ a, a ∈ places (header z) ns → znodes σ' !! a = znodes σ !! a) →
  (∀ a, (zbrk σ' ≤ a)%nat → znodes σ' !! a = None) → zslOk σ' z ns.
Proof. intros [Hlk Ht Hl Hf] Hsame Hfresh. split; [by apply (links_heap σ)|done..]. Qed.

Lemma freed_other σ a b : b ≠ a → znodes (freed a σ) !! b = znodes σ !! b.
Proof. intros ?. by apply lookup_delete_ne. Qed.

Lemma zslOk_freed σ z ns x : zslOk σ z ns → x ∉ places (header z) ns → zslOk (freed x σ) z ns.
Proof.
  intros Hok Hx. apply (zslOk_heap σ); [done| |].
  - intros a Ha. apply freed_other. by intros ->.
  - intros a Ha. destruct (decide (a = x)) as [->|Hne]; [apply lookup_delete_eq|]. rewrite freed_other by done.
    by apply (ok_fresh _ _ _ Hok).
Qed.

Lemma zslOk_node σ z ns k n : zslOk σ z ns → ns !! k = Some n →
  ∃ nd, znodes σ !! zl n = Some nd ∧ ele nd = Some (ze n) ∧ score nd = zs n.
Proof.
  intros Hok Hn. destruct (fields_node _ _ _ (lk_fields _ _ _ _ (ok_links _ _ _ Hok) _ _ Hn)) as (nd & Hnd & [= He Hs _]). eauto.
Qed.

Lemma zslOk_heights σ z A B : zslOk σ z (A ++ B) → Forall (λ n, (1 ≤ zh n)%nat) B.
Proof.
  intros Hok. pose proof (lk_heights _ _ _ _ (ok_links _ _ _ Hok)) as Hh. apply Forall_app in Hh as [_ Hh].
  eapply Forall_impl; [exact Hh|]. cbn. lia.
Qed.

Lemma zslOk_notin σ z A X B : zslOk σ z (A ++ X :: B) → zl X ∉ places (header z) (A ++ B).
Proof.
  intros Hok. pose proof (lk_nodup _ _ _ _ (ok_links _ _ _ Hok)) as Hnd. rewrite places_insert in Hnd. by apply NoDup_cons in Hnd as [? _].
Qed.

(** The node after the search. *)
Lemma next_run σ z A B : zslOk σ z (A ++ B) →
  readLevel (lastOf z (update (header z) A B <$> seq 0 (zsl_level z))) 0 σ = Ok (mkLevel (zl <$> head B) (dist 0 B), σ).
Proof.
  intros Hok. rewrite (lastOf_forward _ _ _ _ _ (ok_links _ _ _ Hok)). by rewrite (fwd_0 B (zslOk_heights _ _ _ _ Hok)).
Qed.

(** The fields of a node of the list. *)
Lemma middle_node σ z A X B : zslOk σ z (A ++ X :: B) → ∃ nd, znodes σ !! zl X = Some nd ∧ ele nd = Some (ze X) ∧ score nd = zs X ∧
  backward nd = zl <$> last A ∧ lev σ (zl X) 0 = Some (mkLevel (zl <$> head B) (dist 0 B)).
Proof.
  intros Hok. pose proof (ok_links _ _ _ Hok) as Hlk.
  assert ((A ++ X :: B) !! length A = Some X) as HXA by (by rewrite lookup_app_r, Nat.sub_diag by lia).
  destruct (zslOk_node _ _ _ _ _ Hok HXA) as (nd & Hn & Hel & Hsc). exists nd. split_and!; [done..| |].
  - pose proof (lk_back _ _ _ _ Hlk _ _ HXA) as Hb. unfold bwd in Hb. rewrite Hn, before_length in Hb. by injection Hb.
  - pose proof (lk_level _ _ _ _ Hlk) as Hl. pose proof (zslOk_heights _ _ _ _ Hok) as HhB. inversion HhB as [|? ? HhX HhB']; subst.
    rewrite (lk_cells _ _ _ _ Hlk _ _ 0%nat (place_X (header z) A B X)); [|lia|].
    + replace (S (length A)) with (length A + 1)%nat by lia. rewrite cell_right. unfold cell. cbn [drop]. by rewrite drop_0, fwd_0.
    + rewrite <-(Nat.add_0_r (length A)), heightAt_right. cbn. lia.
Qed.

Lemma zslInsert_ordered junk σ z ns s e : zslOk σ z ns → ordered ns → num s → e ∉ ze <$> ns →
  Z.of_nat (length ns) < 2 ^ 32 - 1 → is_Some (randomLoop (zrandom σ) 1) →
  ∃ σ' z' A B hx, ns = A ++ B ∧ zslInsert junk z s e σ = Ok ((z', zbrk σ), σ') ∧
    zslOk σ' z' (A ++ mkZn (zbrk σ) s e hx :: B) ∧ ordered (A ++ mkZn (zbrk σ) s e hx :: B) ∧
    header z' = header z ∧ frame (zbrk σ :: places (header z) ns) σ σ'.
Proof.
  intros Hok Hord Hs He Hsize [[r rs] Hr]. destruct (key_split ns s e Hord Hs) as (A & B & -> & Hsp & HA & HB).
  destruct (zslInsert_run junk σ z A B s e r rs Hok Hs Hsp Hsize Hr) as (σ' & z' & hx & Hrun & Hok' & Hh & Hfr & _ & _).
  exists σ', z', A, B, hx. split_and!; [done..| |done|done]. apply ordered_insert; [done|done|exact HA|].
  apply Forall_forall. intros n Hn. rewrite Forall_forall in HB. unfold nodeLt. cbn. pose proof Hord as [_ Hnum].
  rewrite Forall_forall in Hnum. destruct (keyBefore_total s e (zs n) (ze n)) as [H|[H|[_ H]]]; [done|apply Hnum; set_solver|done| |].
  - by rewrite HB in H.
  - destruct He. rewrite H. apply list_elem_of_fmap_2. set_solver.
Qed.

(** The place of a node that is there. *)
Lemma key_split_present ns s X : ordered ns → num s → X ∈ ns → deq s (zs X) = true →
  ∃ A B, ns = A ++ X :: B ∧ splits (nodeBefore s (ze X)) A (X :: B).
Proof.
  intros Hord Hs HX Hdeq. destruct (key_split ns s (ze X) Hord Hs) as (A & B & -> & Hsp & HA & HB).
  pose proof Hord as [_ Hnum]. rewrite Forall_forall in HA, HB, Hnum. pose proof (Hnum _ HX) as HnX.
  assert (∀ n, num (zs n) → keyBefore (zs n) (ze n) s (ze X) = true ↔ nodeLt n X) as Hkey.
  { intros n Hn. unfold nodeLt. rewrite !keyBefore_place by done. apply deq_place in Hdeq as ->; done. }
  apply elem_of_app in HX as [HX|HX].
  { apply HA in HX. apply Hkey in HX; [|done]. unfold nodeLt in HX. by rewrite keyBefore_irrefl in HX. }
  destruct B as [|n B]; [by apply elem_of_nil in HX|]. exists A, B. apply elem_of_cons in HX as [<-|HX]; [done|].
  exfalso. apply ordered_app in Hord as (_ & (Hn & _ & Hlt)%ordered_cons & _). pose proof (Hlt _ HX) as Hl. apply Hkey in Hl; [|done].
  rewrite HB in Hl by (by left). done.
Qed.

(** [zslDelete] of a node that is there. *)
Lemma zslDelete_run σ z ns s X : zslOk σ z ns → ordered ns → num s → X ∈ ns → deq s (zs X) = true → Z.of_nat (length ns) < 2 ^ 63 →
  ∃ σ' z' A B, ns = A ++ X :: B ∧ zslDelete z s (ze X) σ = Ok ((z', true), σ') ∧ zslOk σ' z' (A ++ B) ∧ ordered (A ++ B) ∧
    header z' = header z ∧ frame (places (header z) ns) σ σ' ∧ zrandom σ' = zrandom σ.
Proof.
  intros Hok Hord Hs HX Hdeq Hsize. destruct (key_split_present ns s X Hord Hs HX Hdeq) as (A & B & -> & Hsp). unfold zslDelete.
  rewrite (bind_run _ _ _ _ _ (seek_splits _ _ _ _ id _ Hok Hsp (λ _ _, eq_refl))), (bind_run _ _ _ _ _ (next_run _ _ _ _ Hok)).
  cbn [forward head fmap option_fmap option_map].
  destruct (zslOk_node _ _ _ (length A) X Hok) as (nd & Hnd & Hel & Hsc); [by rewrite lookup_app_r, Nat.sub_diag by lia|].
  rewrite (bind_run _ _ _ _ _ (zreadNode_run _ _ _ Hnd)). rewrite (eleOf_some _ _ Hel), Hsc, Hdeq.
  rewrite (proj2 (Z.eqb_eq _ _) (proj2 (sdscmp_eq (ze X) (ze X)) eq_refl)). cbn [andb].
  destruct (zslDeleteNode_run σ z A X B (update (header z) A (X :: B) <$> seq 0 (zsl_level z)) Hok Hsize)
    as (σ' & z' & Hrun & Hok' & Hh & _ & Hfr & Hf & Hk & Hrnd).
  { intros i Hi. by rewrite list_lookup_fmap, lookup_seq_lt. }
  rewrite (bind_run _ _ _ _ _ Hrun).
  assert (is_Some (znodes σ' !! zl X)) as HX'.
  { unfold fields in Hf. rewrite Hnd in Hf. destruct (znodes σ' !! zl X); [eauto|done]. }
  rewrite (bind_run _ _ _ _ _ (zslFreeNode_run _ _ HX')). exists (freed (zl X) σ'), z', A, B.
  split_and!; [done|done| |by eapply ordered_delete|done| |done].
  - apply zslOk_freed; [done|]. rewrite Hh. by apply (zslOk_notin σ).
  - intros a Ha. rewrite freed_other; [by apply Hfr|]. intros ->. apply Ha. right. apply list_elem_of_fmap_2. set_solver.
Qed.

(** ** Changing a score *)

(** The links depend on the addresses and heights only. *)
Definition shape (n : zn) : loc * nat := (zl n, zh n).

Lemma fwd_shape i (l l' : list zn) : shape <$> l = shape <$> l' → fwd i l = fwd i l' ∧ dist i l = dist i l'.
Proof.
  revert l'. induction l as [|n l IH]; intros [|n' l']; cbn; intros Heq; try done.
  injection Heq as Hl Hh Heq. rewrite Hl, Hh. destruct (IH l' Heq) as [-> ->]. done.
Qed.

Lemma cell_shape (l l' : list zn) p i : shape <$> l = shape <$> l' → cell l p i = cell l' p i.
Proof.
  intros Heq. unfold cell. destruct (fwd_shape i (drop p l) (drop p l')) as [-> ->]; [|done].
  by rewrite !fmap_drop, Heq.
Qed.

Lemma shape_lookup (l l' : list zn) k n : shape <$> l = shape <$> l' → l !! k = Some n → ∃ n', l' !! k = Some n' ∧ shape n' = shape n.
Proof.
  intros Heq Hn. assert ((shape <$> l') !! k = Some (shape n)) as H by (by rewrite <-Heq, list_lookup_fmap, Hn).
  rewrite list_lookup_fmap in H. destruct (l' !! k) as [n'|]; [|done]. injection H as H1 H2. exists n'. unfold shape. by rewrite H1, H2.
Qed.

Lemma zl_shape (l l' : list zn) : shape <$> l = shape <$> l' → zl <$> l = zl <$> l'.
Proof.
  intros Heq. assert (∀ l0 : list zn, zl <$> l0 = fst <$> (shape <$> l0)) as H by (intros l0; by rewrite <-list_fmap_compose). by rewrite !H, Heq.
Qed.

Lemma links_shape σ σ' hd l l' lvl : links σ hd l lvl → shape <$> l = shape <$> l' →
  (∀ a i, lev σ' a i = lev σ a i) → (∀ a, bwd σ' a = bwd σ a) → fields σ' hd = fields σ hd →
  (∀ k n, l' !! k = Some n → fields σ' (zl n) = Some (Some (ze n), zs n, zh n)) → links σ' hd l' lvl.
Proof.
  intros [Hl Hnd Hh Hhd Hf Hc Ht Hb] Heq Hlev Hbwd Hfhd Hfields. pose proof (zl_shape _ _ Heq) as Hzl.
  assert (places hd l' = places hd l) as Hpl by (unfold places; by rewrite Hzl).
  split; [done|by rewrite Hpl| |by rewrite Hfhd|done| | |].
  - apply Forall_lookup_2. intros k n Hn. destruct (shape_lookup l' l k n) as (n' & Hn' & [= _ <-]); [done|done|].
    by apply (Forall_lookup_1 _ _ _ _ Hh Hn').
  - intros p a i Ha Hi Hp. rewrite Hlev, <-(cell_shape l l' p i Heq). apply Hc; [by rewrite <-Hpl|done|].
    destruct p as [|k]; [done|]. cbn in *. destruct (l' !! k) as [n|] eqn:Hn; [|cbn in Hp; lia].
    destruct (shape_lookup l' l k n) as (n' & -> & [= _ Hhn]); [done|done|]. cbn in *. by rewrite Hhn.
  - intros i Hi. rewrite Hlev. auto.
  - intros k n Hn. destruct (shape_lookup l' l k n) as (n' & Hn' & [= Hzn _]); [done|done|]. rewrite Hbwd, <-Hzn, (Hb _ _ Hn').
    destruct k as [|k]; [done|]. cbn. by rewrite <-!list_lookup_fmap, Hzl.
Qed.

Lemma lev_setScore σ a s b j : lev (onNode a (setScore s) σ) b j = lev σ b j.
Proof.
  unfold lev, onNode. cbn. destruct (decide (b = a)) as [->|Hb]; [|by rewrite lookup_alter_ne].
  rewrite lookup_alter_eq. by destruct (znodes σ !! a).
Qed.

Lemma bwd_setScore σ a s b : bwd (onNode a (setScore s) σ) b = bwd σ b.
Proof.
  unfold bwd, onNode. cbn. destruct (decide (b = a)) as [->|Hb]; [|by rewrite lookup_alter_ne].
  rewrite lookup_alter_eq. by destruct (znodes σ !! a).
Qed.

Lemma zslOk_setScore σ z A X B s : zslOk σ z (A ++ X :: B) →
  zslOk (onNode (zl X) (setScore s) σ) z (A ++ mkZn (zl X) s (ze X) (zh X) :: B).
Proof.
  intros [Hlk Ht Hl Hf]. set (X' := mkZn _ _ _ _). set (σ' := onNode _ _ σ).
  assert (∀ b, b ≠ zl X → fields σ' b = fields σ b) as Hother by (intros b Hb; apply fields_same; by apply onNode_other).
  pose proof (lk_nodup _ _ _ _ Hlk) as Hnd. rewrite places_insert in Hnd. apply NoDup_cons in Hnd as [Hnot _].
  assert (shape <$> A ++ X :: B = shape <$> A ++ X' :: B) as Hsh by (by rewrite !fmap_app).
  split.
  - apply (links_shape σ σ' _ (A ++ X :: B)); [done|done|intros; apply lev_setScore|intros; apply bwd_setScore| |].
    + apply Hother. intros Heq. apply Hnot. rewrite <-Heq. by left.
    + intros k n [[Hn Hk]|[[-> ->]|(j & -> & Hn)]]%insert_cases.
      * rewrite Hother; [by apply (lk_fields _ _ _ _ Hlk k), lookup_app_l_Some|]. intros Heq. apply Hnot. rewrite <-Heq.
        right. apply list_elem_of_fmap_2. apply elem_of_app. left. by eapply list_elem_of_lookup_2.
      * destruct (fields_node _ _ _ (lk_fields _ _ _ _ Hlk (length A) X ltac:(by rewrite lookup_app_r, Nat.sub_diag by lia)))
          as (nd & Hnd & [= He _ Hh]). unfold σ', fields, onNode, X'. cbn. rewrite lookup_alter_eq, Hnd. cbn. by rewrite He, Hh.
      * rewrite Hother; [apply (lk_fields _ _ _ _ Hlk (S (length A + j)))|].
        -- rewrite lookup_app_r by lia. by replace (S (length A + j) - length A)%nat with (S j) by lia.
        -- intros Heq. apply Hnot. rewrite <-Heq. right. apply list_elem_of_fmap_2. apply elem_of_app. right. by eapply list_elem_of_lookup_2.
  - rewrite Ht. assert (∀ l l' : list zn, zl <$> l = zl <$> l' → zl <$> last l = zl <$> last l') as Hlast.
    { intros l l' Heq. by rewrite <-!fmap_last, Heq. }
    by apply Hlast, zl_shape.
  - rewrite Hl, !length_app. done.
  - intros a Ha. unfold σ', onNode. cbn. destruct (decide (a = zl X)) as [->|Hne].
    + rewrite lookup_alter_eq, Hf; done.
    + rewrite lookup_alter_ne by done. by apply Hf.
Qed.

(** A later node does not have a smaller score. *)
Lemma nodeLt_score a b s : num (zs a) → num (zs b) → num s → nodeLt a b → dlt (zs b) s = true → dlt (zs a) s = true.
Proof.
  intros Ha Hb Hs. unfold nodeLt. rewrite keyBefore_place, !dlt_place by done. intros [H|[-> _]]; [|done]. by apply before3_trans.
Qed.
Lemma nodeLt_score' a b s : num (zs a) → num (zs b) → num s → nodeLt a b → dlt s (zs a) = true → dlt s (zs b) = true.
Proof.
  intros Ha Hb Hs. unfold nodeLt. rewrite keyBefore_place, !dlt_place by done. intros [H|[-> _]]; [|done].
  intros H'. by apply (before3_trans _ (place (zs a))).
Qed.

(** Between two nodes with a smaller and a larger score. *)
Lemma ordered_between A B X s : ordered (A ++ X :: B) → num s →
  match last A with Some n => dlt (zs n) s = true | None => True end →
  match head B with Some n => dlt s (zs n) = true | None => True end →
  ordered (A ++ mkZn (zl X) s (ze X) (zh X) :: B).
Proof.
  intros Hord Hs Hlow Hhigh. apply ordered_insert; [by eapply ordered_delete|done|..].
  - apply ordered_app in Hord as (HA & _ & _). apply Forall_forall. intros n Hn. unfold nodeLt, keyBefore. cbn.
    apply orb_true_iff. left. destruct A as [|m A _] using rev_ind; [by apply elem_of_nil in Hn|]. rewrite last_snoc in Hlow.
    apply ordered_app in HA as (HA & [Hm _]%ordered_cons & Hlt). apply elem_of_app in Hn as [Hn| ->%list_elem_of_singleton]; [|done].
    apply (nodeLt_score n m); [by apply (ordered_num A)|done|done|apply Hlt; set_solver|done].
  - apply ordered_app in Hord as (_ & (_ & HB & _)%ordered_cons & _). apply Forall_forall. intros n Hn. unfold nodeLt, keyBefore. cbn.
    apply orb_true_iff. left. destruct B as [|m B]; [by apply elem_of_nil in Hn|]. cbn in Hhigh.
    apply ordered_cons in HB as (Hm & HB & Hlt). apply elem_of_cons in Hn as [->|Hn]; [done|].
    apply (nodeLt_score' m n); [done|by apply (ordered_num B)|done|by apply Hlt|done].
Qed.

Lemma nullOr_run σ z ns (o : option zn) cond : zslOk σ z ns → (∀ n, o = Some n → n ∈ ns) →
  nullOr (zl <$> o) cond σ = Ok (match o with Some n => cond (zs n) | None => true end, σ).
Proof.
  intros Hok Hin. destruct o as [n|]; [|done]. cbn. destruct (proj1 (list_elem_of_lookup _ _) (Hin n eq_refl)) as [k Hk].
  destruct (zslOk_node _ _ _ _ _ Hok Hk) as (nd & Hnd & _ & Hs). rewrite (bind_run _ _ _ _ _ (zreadNode_run _ _ _ Hnd)), Hs. done.
Qed.

(** Deleting a node and inserting its element with another score. *)
Lemma reinsert_run junk σ z A X B s : zslOk σ z (A ++ X :: B) → ordered (A ++ X :: B) → NoDup (ze <$> A ++ X :: B) → num s →
  Z.of_nat (length (A ++ X :: B)) < 2 ^ 32 - 1 → is_Some (randomLoop (zrandom σ) 1) →
  ∃ σ' z' A' B' y h, A ++ B = A' ++ B' ∧
    reinsert junk z (zl X) (update (header z) A (X :: B) <$> seq 0 (zsl_level z)) s σ = Ok ((z', y), σ') ∧
    zslOk σ' z' (A' ++ mkZn y s (ze X) h :: B') ∧ ordered (A' ++ mkZn y s (ze X) h :: B') ∧
    header z' = header z ∧ frame (zbrk σ :: places (header z) (A ++ X :: B)) σ σ'.
Proof.
  intros Hok Hord Hnd Hs Hsize Hrand. destruct (middle_node _ _ _ _ _ Hok) as (nd & Hn & Hel & Hsc & Hback & Hlev). unfold reinsert.
  destruct (zslDeleteNode_run σ z A X B (update (header z) A (X :: B) <$> seq 0 (zsl_level z)) Hok ltac:(lia))
    as (σ1 & z1 & Hrun1 & Hok1 & Hh1 & _ & Hfr1 & Hf1 & Hk1 & Hr1).
  { intros i Hi. by rewrite list_lookup_fmap, lookup_seq_lt. }
  rewrite (bind_run _ _ _ _ _ Hrun1).
  assert (∃ nd1, znodes σ1 !! zl X = Some nd1 ∧ ele nd1 = Some (ze X)) as (nd1 & Hn1 & He1).
  { unfold fields in Hf1. rewrite Hn in Hf1. destruct (znodes σ1 !! zl X) as [nd1|]; [|done]. cbn in Hf1. injection Hf1 as He _ _.
    exists nd1. by rewrite He. }
  rewrite (bind_run _ _ _ _ _ (zreadNode_run _ _ _ Hn1)). rewrite (eleOf_some _ _ He1).
  rewrite fmap_app in Hnd. cbn in Hnd. rewrite <-Permutation_middle, <-fmap_app in Hnd. apply NoDup_cons in Hnd as [HXnot _].
  destruct (zslInsert_ordered junk σ1 z1 (A ++ B) s (ze X) Hok1 (ordered_delete _ _ _ Hord) Hs HXnot)
    as (σ2 & z2 & A' & B' & hx & HAB & Hrun2 & Hok2 & Hord2 & Hh2 & Hfr2).
  { rewrite length_app in *. cbn [length] in *. lia. }
  { by rewrite Hr1. }
  rewrite (bind_run _ _ _ _ _ Hrun2).
  assert (zl X ∉ zbrk σ1 :: places (header z1) (A ++ B)) as HX2.
  { rewrite Hh1. intros [Heq|Hin]%elem_of_cons; [|by apply (zslOk_notin _ _ _ _ _ Hok)].
    pose proof (ok_fresh _ _ _ Hok1 (zl X)) as Hnone. rewrite Hn1 in Hnone. rewrite Heq in Hnone. by specialize (Hnone ltac:(lia)). }
  rewrite (bind_run _ _ _ _ _ (zslFreeNode_run σ2 (zl X) ltac:(rewrite (Hfr2 _ HX2); eauto))).
  exists (freed (zl X) σ2), z2, A', B', (zbrk σ1), hx. split_and!; [done|done| |done|by rewrite Hh2|].
  + apply zslOk_freed; [done|]. rewrite Hh2, places_insert. cbn [zl]. by rewrite <-HAB.
  + intros a Ha. rewrite freed_other, Hfr2, Hfr1; [done|set_solver|..].
    * rewrite Hk1, Hh1. intros [->|Hin]%elem_of_cons; [set_solver|]. apply Ha. right. rewrite places_insert. by right.
    * intros ->. apply Ha. right. right. apply list_elem_of_fmap_2. set_solver.
Qed.

(** [zslUpdateScore]: the node keeps its place, or is inserted at another one. *)
Lemma zslUpdateScore_run junk σ z ns X s : zslOk σ z ns → ordered ns → NoDup (ze <$> ns) → X ∈ ns → num s →
  Z.of_nat (length ns) < 2 ^ 32 - 1 → is_Some (randomLoop (zrandom σ) 1) →
  ∃ σ' z' A B A' B' y h, ns = A ++ X :: B ∧ A ++ B = A' ++ B' ∧
    zslUpdateScore junk z (zs X) (ze X) s σ = Ok ((z', y), σ') ∧
    zslOk σ' z' (A' ++ mkZn y s (ze X) h :: B') ∧ ordered (A' ++ mkZn y s (ze X) h :: B') ∧
    header z' = header z ∧ frame (zbrk σ :: places (header z) ns) σ σ'.
Proof.
  intros Hok Hord Hnd HX Hs Hsize Hrand.
  pose proof (ordered_num _ _ Hord HX) as HnX.
  assert (deq (zs X) (zs X) = true) as Hdeq by (by apply deq_place).
  destruct (key_split_present ns (zs X) X Hord HnX HX Hdeq) as (A & B & -> & Hsp). unfold zslUpdateScore.
  rewrite (bind_run _ _ _ _ _ (seek_splits _ _ _ _ id _ Hok Hsp (λ _ _, eq_refl))), (bind_run _ _ _ _ _ (next_run _ _ _ _ Hok)).
  cbn [forward head fmap option_fmap option_map]. rewrite bind_deref.
  destruct (middle_node _ _ _ _ _ Hok) as (nd & Hn & Hel & Hsc & Hback & Hlev). rewrite (bind_run _ _ _ _ _ (zreadNode_run _ _ _ Hn)).
  rewrite (eleOf_some _ _ Hel), Hsc, Hdeq, Hback.
  rewrite (proj2 (Z.eqb_eq _ _) (proj2 (sdscmp_eq (ze X) (ze X)) eq_refl)). rewrite (bind_run _ _ _ _ _ (serverAssert_run _ _ _ eq_refl)).
  rewrite (bind_run _ _ _ _ _ (readLevel_run _ _ _ _ Hlev)). cbn [forward].
  rewrite (bind_run _ _ _ _ _ (nullOr_run σ z _ (last A) _ Hok ltac:(intros n Hl; apply elem_of_app; left; by apply last_Some_elem_of))).
  rewrite (bind_run _ _ _ _ _ (nullOr_run σ z _ (head B) _ Hok ltac:(intros n Hl; destruct B; [done|]; injection Hl as <-; set_solver))).
  match goal with |- context [if ?b && ?c then _ else _] => destruct (b && c) eqn:Hplace end.
  - apply andb_prop in Hplace as [Hlow Hhigh]. rewrite (bind_run _ _ _ _ _ (zupdNode_run _ _ _ (ex_intro _ _ Hn))).
    exists (onNode (zl X) (setScore s) σ), z, A, B, A, B, (zl X), (zh X). split_and!; [done|done|done|by apply zslOk_setScore| |done|].
    + apply ordered_between; [done|done|by destruct (last A)|by destruct (head B)].
    + intros a Ha. apply onNode_other. intros ->. apply Ha. right. right. apply list_elem_of_fmap_2. set_solver.
  - destruct (reinsert_run junk σ z A X B s Hok Hord Hnd Hs Hsize Hrand) as (σ' & z' & A' & B' & y & h & HAB & Hrun & Hrest).
    exists σ', z', A, B, A', B', y, h. split_and!; [done|done|exact Hrun|apply Hrest..].
Qed.

(** ** Ranks *)

(** Splits by place instead of by key. *)
Lemma advance_ok σ z A B w go fuel i p : zslOk σ z (A ++ B) →
  (∀ v, 0 ≤ v ≤ Z.of_nat (length (A ++ B)) → w v = v) →
  (∀ k n nd, (A ++ B) !! k = Some n → ele nd = Some (ze n) → score nd = zs n → go nd (Z.of_nat (S k)) = bool_decide (k < length A)%nat) →
  (i < zsl_level z)%nat → (p ≤ length A)%nat → (i < heightAt A p)%nat → (length A < fuel)%nat →
  advance w go fuel i (places (header z) (A ++ B) !!! p) (Z.of_nat p) σ = Ok (update (header z) A B i, σ).
Proof.
  intros Hok Hw Hgo Hi Hp Hh Hf. apply (advance_run _ _ _ _ _ (ok_links _ _ _ Hok)); [done|done|done|done|done|lia].
Qed.

Lemma u64_small n v : 0 ≤ v ≤ Z.of_nat n → Z.of_nat n < 2 ^ 63 → u64 v = v.
Proof. intros Hv Hn. apply u64_id. unfold ULLONG_MAX. lia. Qed.

Lemma place_node σ z A B p : zslOk σ z (A ++ B) → (p ≤ length A)%nat →
  ∃ nd, znodes σ !! (places (header z) (A ++ B) !!! p) = Some nd ∧ ele nd = match p with O => None | S k => ze <$> A !! k end.
Proof.
  intros Hok Hp. destruct p as [|k].
  - destruct (fields_node _ _ _ (lk_header _ _ _ _ (ok_links _ _ _ Hok))) as (nd & Hnd & [= He _ _]). by exists nd.
  - destruct (lookup_lt_is_Some_2 A k) as [n Hn]; [lia|].
    assert ((A ++ B) !! k = Some n) as Hn' by (by apply lookup_app_l_Some).
    destruct (zslOk_node _ _ _ _ _ Hok Hn') as (nd & Hnd & He & _). exists nd. rewrite Hn.
    rewrite (list_lookup_total_correct _ _ (zl n)) by (by rewrite places_S, Hn'). done.
Qed.

Section Rank.
Context (σ : zheap) (z : zskiplist) (A B : list zn) (X : zn).
Context (Hok : zslOk σ z (A ++ X :: B)) (Hord : ordered (A ++ X :: B)) (Hnd : NoDup (ze <$> A ++ X :: B)).
Context (Hsize : Z.of_nat (length (A ++ X :: B)) < 2 ^ 63).

(** The nodes up to [X] are those that are not after it. *)
Lemma rank_go k n nd : ((A ++ [X]) ++ B) !! k = Some n → ele nd = Some (ze n) → score nd = zs n →
  nodeUpTo (zs X) (ze X) nd = bool_decide (k < length (A ++ [X]))%nat.
Proof.
  rewrite <-(assoc_L (++)). cbn [app]. intros Hn He Hs. unfold nodeUpTo. rewrite (eleOf_some _ _ He), Hs.
  assert (num (zs n)) as Hnn by (apply (ordered_num _ _ Hord); by eapply list_elem_of_lookup_2).
  assert (num (zs X)) as HnX by (apply (ordered_num _ _ Hord); set_solver).
  apply ordered_app in Hord as (_ & (_ & _ & HB)%ordered_cons & HA).
  rewrite length_app. cbn [length]. apply insert_cases in Hn as [[Hn Hk]|[[-> ->]|(j & -> & Hn)]].
  - rewrite bool_decide_eq_true_2 by lia. assert (nodeLt n X) as H by (apply HA; [by eapply list_elem_of_lookup_2|set_solver]).
    apply keyBefore_place in H; [|done..]. rewrite orb_true_iff, andb_true_iff, dlt_place, deq_place by done.
    destruct H as [H|[H H']]; [by left|right]. split; [done|lia].
  - rewrite bool_decide_eq_true_2 by lia. rewrite (proj2 (deq_place _ _ HnX HnX) eq_refl).
    rewrite (proj2 (sdscmp_eq (ze X) (ze X)) eq_refl). by rewrite orb_true_r.
  - rewrite bool_decide_eq_false_2 by lia. assert (nodeLt X n) as H by (apply HB; by eapply list_elem_of_lookup_2).
    apply not_true_iff_false. rewrite orb_true_iff, andb_true_iff, dlt_place, deq_place by done.
    apply keyBefore_place in H; [|done..]. pose proof (before3_irrefl (place (zs X))) as Hi.
    pose proof (before3_trans (place (zs X)) (place (zs n)) (place (zs X))) as Ht. pose proof (sdscmp_sign (ze X) (ze n)) as Hsg.
    intros [Hl|[Hl Hl']]; destruct H as [H|[H H']]; rewrite ?Hl, ?H in *; try tauto; lia.
Qed.

Lemma rankLoop_run fuel i p : (i ≤ zsl_level z)%nat → (1 ≤ i)%nat → (p ≤ length (A ++ [X]))%nat → (i ≤ heightAt (A ++ [X]) p)%nat →
  (length (A ++ [X]) < fuel)%nat →
  rankLoop fuel i (zs X) (ze X) (places (header z) ((A ++ [X]) ++ B) !!! p) (Z.of_nat p) σ = Ok (Z.of_nat (S (length A)), σ).
Proof.
  assert ((A ++ [X]) ++ B = A ++ X :: B) as Happ by (by rewrite <-(assoc_L (++))). rewrite Happ.
  revert p. induction i as [|i IH]; intros p Hi Hi1 Hp Hh Hf; [lia|]. cbn [rankLoop].
  pose proof (lk_level _ _ _ _ (ok_links _ _ _ Hok)) as Hlvl.
  assert (zslOk σ z ((A ++ [X]) ++ B)) as Hok' by (by rewrite Happ).
  pose proof (advance_ok σ z (A ++ [X]) B u64 (λ n _, nodeUpTo (zs X) (ze X) n) fuel i p Hok' ltac:(intros; apply u64_small with (n := length (A ++ X :: B)); [by rewrite <-Happ|done])
    rank_go ltac:(lia) Hp ltac:(lia) Hf) as Hadv. rewrite Happ in Hadv. rewrite (bind_run _ _ _ _ _ Hadv). clear Hadv.
  pose proof (lastAt_le i (A ++ [X])) as Hle. destruct (place_node σ z (A ++ [X]) B (lastAt i (A ++ [X])) Hok' Hle) as (nd & Hnd' & He).
  rewrite Happ in Hnd'. unfold update. rewrite Happ. cbn [fst snd]. rewrite (bind_run _ _ _ _ _ (zreadNode_run _ _ _ Hnd')), He.
  destruct (decide (lastAt i (A ++ [X]) = S (length A))) as [Hlast|Hlast].
  - rewrite Hlast. rewrite lookup_app_r, Nat.sub_diag by lia. cbn. by rewrite (proj2 (sdscmp_eq _ _) eq_refl).
  - assert (1 ≤ i)%nat as Hi'.
    { destruct i; [|lia]. destruct Hlast. rewrite lastAt_0; [by rewrite length_app, Nat.add_comm|].
      pose proof (lk_heights _ _ _ _ (ok_links _ _ _ Hok')) as Hall. apply Forall_app in Hall as [Hall _].
      eapply Forall_impl; [exact Hall|]. cbn. lia. }
    specialize (IH (lastAt i (A ++ [X])) ltac:(lia) Hi' Hle (Nat.lt_le_incl _ _ (lastAt_height i (A ++ [X]) ltac:(lia))) Hf).
    destruct (lastAt i (A ++ [X])) as [|q] eqn:Hq; [done|]. destruct ((A ++ [X]) !! q) as [n|] eqn:Hn; [|done]. cbn [fmap option_fmap option_map].
    destruct (Z.eqb_spec (sdscmp (ze n) (ze X)) 0) as [Heq|Hne]; [|done]. exfalso. apply sdscmp_eq in Heq.
    rewrite length_app in Hle. cbn in Hle. rewrite lookup_app_l in Hn by lia. apply Hlast. f_equal. eapply NoDup_lookup; [exact Hnd| |].
    + rewrite list_lookup_fmap, lookup_app_l, Hn by lia. done.
    + rewrite list_lookup_fmap, lookup_app_r, Nat.sub_diag by lia. cbn. by rewrite Heq.
Qed.

(** The rank of a node that is there counts it and those before it. *)
Lemma zslGetRank_run : zslGetRank z (zs X) (ze X) σ = Ok (Z.of_nat (S (length A)), σ).
Proof.
  unfold zslGetRank, walkFuel. pose proof (lk_level _ _ _ _ (ok_links _ _ _ Hok)) as Hl. rewrite (ok_length _ _ _ Hok), Nat2Z.id.
  apply (rankLoop_run _ _ 0); [lia|lia|lia|cbn; lia|]. rewrite !length_app. cbn. lia.
Qed.
End Rank.

(** The node at a rank, which counts from 1. *)
Section ElementByRank.
Context (σ : zheap) (z : zskiplist) (A B : list zn) (rank : nat).
Context (Hok : zslOk σ z (A ++ B)) (Hrank : (length A = rank ∨ (length A < rank ∧ B = []))%nat).
Context (Hsize : Z.of_nat (length (A ++ B)) < 2 ^ 63).

Lemma elementLoop_run fuel i p : (i ≤ zsl_level z)%nat → (1 ≤ i)%nat → (p ≤ length A)%nat → (i ≤ heightAt A p)%nat → (length A < fuel)%nat →
  elementLoop fuel i (Z.of_nat rank) (places (header z) (A ++ B) !!! p) (Z.of_nat p) σ =
  Ok (if decide (length A = rank) then Some (places (header z) (A ++ B) !!! rank) else None, σ).
Proof.
  revert p. induction i as [|i IH]; intros p Hi Hi1 Hp Hh Hf; [lia|]. cbn [elementLoop].
  pose proof (lk_level _ _ _ _ (ok_links _ _ _ Hok)) as Hlvl.
  rewrite (bind_run _ _ _ _ _ (advance_ok σ z A B u64 (λ _ t, t <=? Z.of_nat rank) fuel i p Hok
    ltac:(intros; by apply u64_small with (n := length (A ++ B)))
    ltac:(intros k n nd Hn _ _; apply lookup_lt_Some in Hn; rewrite length_app in Hn; destruct Hrank as [Hr|[Hr ->]];
          [|cbn in Hn; rewrite bool_decide_eq_true_2 by lia; lia]; case_bool_decide; lia)
    ltac:(lia) Hp ltac:(lia) Hf)).
  unfold update. cbn [fst snd]. pose proof (lastAt_le i A) as Hle. destruct (Z.eqb_spec (Z.of_nat (lastAt i A)) (Z.of_nat rank)) as [Heq|Hne].
  - rewrite decide_True by lia. by replace rank with (lastAt i A) by lia.
  - destruct i as [|i].
    + cbn. rewrite decide_False; [done|]. intros Heq. apply Hne. by rewrite (lastAt_0_all σ _ A B _ (ok_links _ _ _ Hok)), Heq.
    + apply IH; [lia|lia|done| |done]. apply Nat.lt_le_incl, lastAt_height. lia.
Qed.
End ElementByRank.

Lemma zslGetElementByRank_run σ z ns rank : zslOk σ z ns → (1 ≤ rank)%nat → Z.of_nat (length ns) < 2 ^ 63 →
  zslGetElementByRank z (Z.of_nat rank) σ = Ok (zl <$> ns !! (rank - 1)%nat, σ).
Proof.
  intros Hok Hr Hsize. unfold zslGetElementByRank, walkFuel. pose proof (lk_level _ _ _ _ (ok_links _ _ _ Hok)) as Hl.
  rewrite (ok_length _ _ _ Hok), Nat2Z.id.
  pose proof (elementLoop_run σ z (take rank ns) (drop rank ns) rank) as Hrun. rewrite take_drop in Hrun.
  assert ((length (take rank ns) = rank ∨ (length (take rank ns) < rank ∧ drop rank ns = []))%nat) as Hcase.
  { rewrite length_take. destruct (decide (rank ≤ length ns)%nat); [left; lia|right; split; [lia|apply drop_ge; lia]]. }
  etrans; [apply (Hrun Hok Hcase Hsize (S (length ns)) (zsl_level z) 0%nat); [lia|lia|lia|cbn; lia|rewrite length_take; lia]|].
  clear Hrun Hcase. do 2 f_equal. destruct rank as [|k]; [lia|]. replace (S k - 1)%nat with k by lia. rewrite length_take. case_decide as Hk.
  - destruct (lookup_lt_is_Some_2 ns k) as [n Hn]; [lia|]. rewrite Hn. cbn [fmap option_fmap option_map]. f_equal. apply list_lookup_total_correct.
    by rewrite places_S, Hn.
  - by rewrite lookup_ge_None_2 by lia.
Qed.

(** ** Ranges *)

(** A range of an ordered sequence: a lower bound that keeps on holding and an upper
    bound that has held before. *)
Record isRange (ns : list zn) (g l : zn → bool) : Prop := {
  range_low a b : a ∈ ns → b ∈ ns → nodeLt a b → g a = true → g b = true;
  range_high a b : a ∈ ns → b ∈ ns → nodeLt a b → l b = true → l a = true }.

Section Range.
Context (ns : list zn) (g l : zn → bool) (Hord : ordered ns) (HR : isRange ns g l).

Lemma range_split_low : ∃ A B, ns = A ++ B ∧ Forall (λ n, negb (g n) = true) A ∧ Forall (λ n, negb (g n) = false) B.
Proof.
  apply (sorted_split nodeLt (λ n, negb (g n))); [apply Hord|]. intros a b Ha Hb Hab Hgb.
  destruct (g a) eqn:Hga; [|done]. by rewrite (range_low _ _ _ HR a b) in Hgb.
Qed.

Lemma range_split_high : ∃ A B, ns = A ++ B ∧ Forall (λ n, l n = true) A ∧ Forall (λ n, l n = false) B.
Proof. apply (sorted_split nodeLt l); [apply Hord|]. intros a b. apply (range_high _ _ _ HR). Qed.
End Range.

Definition midRange (g l : zn → bool) (ns : list zn) : list zn := filter (λ n, g n && l n) ns.

Lemma inRange_none g l ns : (∀ n, n ∈ ns → g n = true → l n = true → False) → midRange g l ns = [].
Proof.
  intros Hno. unfold midRange. induction ns as [|n ns IH]; [done|]. rewrite filter_cons_False.
  - apply IH. intros m Hm. apply Hno. by right.
  - intros [Hg%Is_true_eq_true Hl%Is_true_eq_true]%andb_prop_elim. by apply (Hno n); [left| |].
Qed.

Lemma inRange_app g l A B : midRange g l (A ++ B) = midRange g l A ++ midRange g l B.
Proof. apply filter_app. Qed.

Lemma inRange_low g l A B : Forall (λ n, negb (g n) = true) A → midRange g l (A ++ B) = midRange g l B.
Proof.
  intros HA. rewrite inRange_app, (inRange_none g l A); [done|].
  intros n Hn Hg. rewrite Forall_forall in HA. specialize (HA n Hn). by rewrite Hg in HA.
Qed.

Lemma inRange_high g l A B : Forall (λ n, l n = false) B → midRange g l (A ++ B) = midRange g l A.
Proof.
  intros HB. rewrite inRange_app, (inRange_none g l B); [by rewrite app_nil_r|].
  intros n Hn _ Hl. rewrite Forall_forall in HB. by rewrite HB in Hl.
Qed.

(** The first and the last node of a range. *)
Lemma inRange_head ns g l A B : ordered ns → isRange ns g l → ns = A ++ B → Forall (λ n, negb (g n) = true) A → Forall (λ n, negb (g n) = false) B →
  head (midRange g l ns) = match head B with Some n => if l n then Some n else None | None => None end.
Proof.
  intros Hord HR -> HA HB. rewrite inRange_low by done. destruct B as [|n B]; [done|]. cbn [head].
  inversion HB as [|? ? Hn HB']; subst. apply negb_false_iff in Hn. destruct (l n) eqn:Hl.
  - unfold midRange. rewrite filter_cons_True by (by rewrite Hn, Hl). done.
  - rewrite (inRange_none g l (n :: B)); [done|]. intros m [->|Hm]%elem_of_cons _ Hlm; [by rewrite Hl in Hlm|]. apply ordered_app in Hord as (_ & (_ & _ & Hlt)%ordered_cons & _).
    rewrite (range_high _ _ _ HR n m) in Hl; [done|set_solver..|by apply Hlt|done].
Qed.

Lemma inRange_last ns g l A B : ordered ns → isRange ns g l → ns = A ++ B → Forall (λ n, l n = true) A → Forall (λ n, l n = false) B →
  last (midRange g l ns) = match last A with Some n => if g n then Some n else None | None => None end.
Proof.
  intros Hord HR -> HA HB. rewrite inRange_high by done. destruct A as [|n A _] using rev_ind; [done|]. rewrite last_snoc.
  apply Forall_app in HA as [HA Hn]. apply Forall_cons in Hn as [Hn _]. rewrite inRange_app. destruct (g n) eqn:Hg.
  - assert (midRange g l [n] = [n]) as -> by (unfold midRange; cbn; by rewrite Hg, Hn). apply last_snoc.
  - assert (midRange g l [n] = []) as -> by (unfold midRange; cbn; by rewrite Hg). rewrite app_nil_r.
    rewrite (inRange_none g l A); [done|]. intros m Hm Hgm _.
    rewrite <-(assoc_L (++)) in Hord. apply ordered_app in Hord as (_ & _ & Hlt).
    rewrite (range_low _ _ _ HR m n) in Hg; [done|set_solver|set_solver|apply Hlt; set_solver|done].
Qed.

Section RangeRuns.
Context (σ : zheap) (z : zskiplist) (ns : list zn) (Hok : zslOk σ z ns) (Hord : ordered ns).
Context (gte lte : zskiplistNode → bool) (g l : zn → bool) (HR : isRange ns g l).
Context (Hg : ∀ n nd, ele nd = Some (ze n) → score nd = zs n → gte nd = g n).
Context (Hl : ∀ n nd, ele nd = Some (ze n) → score nd = zs n → lte nd = l n).

Lemma endIn_run (o : option zn) cond c : (∀ n, o = Some n → n ∈ ns) →
  (∀ n nd, ele nd = Some (ze n) → score nd = zs n → cond nd = c n) →
  endIn (zl <$> o) cond σ = Ok (match o with Some n => c n | None => false end, σ).
Proof.
  intros Hin Hc. destruct o as [n|]; [|done]. cbn. destruct (proj1 (list_elem_of_lookup _ _) (Hin n eq_refl)) as [k Hk].
  destruct (zslOk_node _ _ _ _ _ Hok Hk) as (nd & Hnd & He & Hs). rewrite (bind_run _ _ _ _ _ (zreadNode_run _ _ _ Hnd)), (Hc n nd He Hs). done.
Qed.

Lemma header_forward : ∃ d, readLevel (header z) 0 σ = Ok (mkLevel (zl <$> head ns) d, σ).
Proof.
  pose proof (lk_level _ _ _ _ (ok_links _ _ _ Hok)) as Hlvl. exists (dist 0 ns). apply readLevel_run.
  rewrite (lk_cells _ _ _ _ (ok_links _ _ _ Hok) 0%nat _ 0%nat); [|done|lia|cbn; lia]. unfold cell. rewrite drop_0.
  by rewrite (fwd_0 ns (zslOk_heights σ z [] ns Hok)).
Qed.

Lemma isInBy_run empty : (empty = true → midRange g l ns = []) →
  ∃ b, isInBy empty gte lte z σ = Ok (b, σ) ∧
    if b then (∃ n, last ns = Some n ∧ g n = true) ∧ (∃ n, head ns = Some n ∧ l n = true) else midRange g l ns = [].
Proof.
  intros Hempty. unfold isInBy. destruct empty; [exists false; split; [done|by apply Hempty]|]. rewrite (ok_tail _ _ _ Hok).
  rewrite (bind_run _ _ _ _ _ (endIn_run (last ns) gte g ltac:(intros n Hn; by apply last_Some_elem_of) Hg)).
  destruct (last ns) as [n|] eqn:Hlast.
  2:{ exists false. split; [done|]. by apply last_None in Hlast as ->. }
  destruct (g n) eqn:Hgn; cbn [negb].
  - destruct header_forward as [d Hd]. rewrite (bind_run _ _ _ _ _ Hd). cbn [forward].
    rewrite (endIn_run (head ns) lte l ltac:(intros m Hm; destruct ns; [done|]; injection Hm as <-; set_solver) Hl).
    eexists. split; [done|]. destruct ns as [|m ns']; [done|]. cbn [head]. destruct (l m) eqn:Hlm; [by split; eauto|].
    apply inRange_none. intros x [->|Hx]%elem_of_cons Hgx Hlx; [by rewrite Hlm in Hlx|].
    apply ordered_cons in Hord as (_ & _ & Hlt). rewrite (range_high _ _ _ HR m x) in Hlm; [done|set_solver..|by apply Hlt|done].
  - exists false. split; [done|]. apply last_Some in Hlast as [ns' ->]. apply inRange_none.
    intros x [Hx| ->%list_elem_of_singleton]%elem_of_app Hgx Hlx; [|by rewrite Hgn in Hgx]. apply ordered_app in Hord as (_ & _ & Hlt).
    rewrite (range_low _ _ _ HR x n) in Hgn; [done|set_solver..|apply Hlt; set_solver|done].
Qed.

Lemma firstBy_run empty : (empty = true → midRange g l ns = []) →
  firstBy (isInBy empty gte lte z) gte lte z σ = Ok (zl <$> head (midRange g l ns), σ).
Proof.
  intros Hempty. unfold firstBy. destruct (isInBy_run empty Hempty) as (b & Hb & Hcase). rewrite (bind_run _ _ _ _ _ Hb).
  destruct b; cbn [negb]; [|by rewrite Hcase]. destruct Hcase as [(n & Hlast & Hgn) _].
  destruct (range_split_low ns g l Hord HR) as (A & B & -> & HA & HB). rewrite (inRange_head _ g l A B Hord HR eq_refl HA HB).
  assert (splits (λ n, negb (gte n)) A B) as Hsp.
  { apply (splits_of _ (λ n, negb (g n))); [|done..]. intros m nd He Hs. by rewrite (Hg m nd He Hs). }
  rewrite (bind_run _ _ _ _ _ (seek_splits _ _ _ _ id _ Hok Hsp (λ _ _, eq_refl))), (bind_run _ _ _ _ _ (next_run _ _ _ _ Hok)).
  cbn [forward]. destruct B as [|m B]; cbn [head fmap option_fmap option_map].
  { exfalso. rewrite app_nil_r in Hlast. apply last_Some_elem_of in Hlast. rewrite Forall_forall in HA. specialize (HA n Hlast).
    by rewrite Hgn in HA. }
  destruct (middle_node _ _ _ _ _ Hok) as (nd & Hnd & He & Hs & _). rewrite (bind_run _ _ _ _ _ (zreadNode_run _ _ _ Hnd)).
  rewrite (Hl m nd He Hs). by destruct (l m).
Qed.

Lemma lastBy_run empty : (empty = true → midRange g l ns = []) →
  lastBy (isInBy empty gte lte z) gte lte z σ = Ok (zl <$> last (midRange g l ns), σ).
Proof.
  intros Hempty. unfold lastBy. destruct (isInBy_run empty Hempty) as (b & Hb & Hcase). rewrite (bind_run _ _ _ _ _ Hb).
  destruct b; cbn [negb]; [|by rewrite Hcase]. destruct Hcase as [_ (n & Hhead & Hln)].
  destruct (range_split_high ns g l Hord HR) as (A & B & -> & HA & HB). rewrite (inRange_last _ g l A B Hord HR eq_refl HA HB).
  rewrite (bind_run _ _ _ _ _ (seek_splits _ _ _ _ id _ Hok (splits_of _ _ _ _ Hl HA HB) (λ _ _, eq_refl))).
  rewrite (lastOf_run _ _ _ _ _ (ok_links _ _ _ Hok)). destruct A as [|m A _] using rev_ind.
  { exfalso. destruct B as [|b B]; [done|]. cbn in Hhead. injection Hhead as ->. inversion HB as [|? ? Hf]; subst. by rewrite Hln in Hf. }
  rewrite last_snoc. rewrite <-(assoc_L (++)) in Hok |- *. cbn [app] in Hok |- *.
  assert (places (header z) (A ++ m :: B) !!! length (A ++ [m]) = zl m) as ->.
  { apply list_lookup_total_correct. rewrite length_app, Nat.add_comm. cbn [length Nat.add]. apply place_X. }
  destruct (middle_node _ _ _ _ _ Hok) as (nd & Hnd & He & Hs & _). rewrite (bind_run _ _ _ _ _ (zreadNode_run _ _ _ Hnd)).
  rewrite (Hg m nd He Hs). by destruct (g m).
Qed.
End RangeRuns.

(** Ranges of scores. *)
Definition scoreRange (r : zrangespec) (ns : list zn) : list zn :=
  midRange (λ n, zslValueGteMin (zs n) r) (λ n, zslValueLteMax (zs n) r) ns.

Definition numRange (r : zrangespec) : Prop := num (rmin r) ∧ num (rmax r).

Lemma gte_place v r : num v → numRange r →
  zslValueGteMin v r = true ↔ before3 (place (rmin r)) (place v) ∨ (minex r = false ∧ place (rmin r) = place v).
Proof.
  intros Hv [Hmin _]. unfold zslValueGteMin. pose proof (place_cases (place (rmin r)) (place v)) as Hc.
  pose proof (before3_irrefl (place v)) as Hi. pose proof (before3_trans (place v) (place (rmin r)) (place v)) as Ht.
  destruct (minex r); [rewrite dlt_place by done; naive_solver|]. rewrite dle_spec, negb_true_iff, <-not_true_iff_false, dlt_place by done.
  naive_solver congruence.
Qed.

Lemma lte_place v r : num v → numRange r →
  zslValueLteMax v r = true ↔ before3 (place v) (place (rmax r)) ∨ (maxex r = false ∧ place v = place (rmax r)).
Proof.
  intros Hv [_ Hmax]. unfold zslValueLteMax. pose proof (place_cases (place v) (place (rmax r))) as Hc.
  pose proof (before3_irrefl (place v)) as Hi. pose proof (before3_trans (place v) (place (rmax r)) (place v)) as Ht.
  destruct (maxex r); [rewrite dlt_place by done; naive_solver|]. rewrite dle_spec, negb_true_iff, <-not_true_iff_false, dlt_place by done.
  naive_solver congruence.
Qed.

Lemma nodeLt_place a b : num (zs a) → num (zs b) → nodeLt a b → before3 (place (zs a)) (place (zs b)) ∨ place (zs a) = place (zs b).
Proof. intros Ha Hb. unfold nodeLt. rewrite keyBefore_place by done. naive_solver. Qed.

Lemma scoreRange_isRange ns r : ordered ns → numRange r →
  isRange ns (λ n, zslValueGteMin (zs n) r) (λ n, zslValueLteMax (zs n) r).
Proof.
  intros Hord Hr. split; intros a b Ha Hb Hab; pose proof (ordered_num _ _ Hord Ha) as Hna; pose proof (ordered_num _ _ Hord Hb) as Hnb;
    apply nodeLt_place in Hab; try done.
  - rewrite !gte_place by done. destruct Hab as [Hab| ->]; [|done]. intros [H|[_ ->]]; left; [by eapply before3_trans|done].
  - rewrite !lte_place by done. destruct Hab as [Hab| ->]; [|done]. intros [H|[_ <-]]; left; [by eapply before3_trans|done].
Qed.

Lemma scoreRange_empty ns r : ordered ns → numRange r →
  dlt (rmax r) (rmin r) || (deq (rmin r) (rmax r) && (minex r || maxex r)) = true → scoreRange r ns = [].
Proof.
  intros Hord Hr. pose proof Hr as [Hmin Hmax]. rewrite orb_true_iff, andb_true_iff, orb_true_iff, dlt_place, deq_place by done. intros Hemp.
  apply inRange_none. intros n Hn. pose proof (ordered_num _ _ Hord Hn) as Hnn. rewrite gte_place, lte_place by done.
  intros Hg Hl. assert (before3 (place (rmin r)) (place (rmax r)) ∨
    (place (rmin r) = place (rmax r) ∧ minex r = false ∧ maxex r = false)) as Hle.
  { destruct Hg as [Hg|[Hg ->]], Hl as [Hl|[Hl Hl']]; [left; by eapply before3_trans|left; by rewrite <-Hl'|by left|by right]. }
  destruct Hle as [Hle|(Hle & He & He')], Hemp as [Hemp|[Hemp Hex]].
  - by apply (before3_irrefl (place (rmin r))), (before3_trans _ (place (rmax r))).
  - rewrite Hemp in Hle. by apply before3_irrefl in Hle.
  - rewrite Hle in Hemp. by apply before3_irrefl in Hemp.
  - rewrite He, He' in Hex. by destruct Hex.
Qed.

(** Ranges of elements, when all scores are equal. *)
Definition lexRange (r : zlexrangespec) (ns : list zn) : list zn :=
  midRange (λ n, zslLexValueGteMin (ze n) r) (λ n, zslLexValueLteMax (ze n) r) ns.

Definition sameScores (ns : list zn) : Prop := ∀ a b, a ∈ ns → b ∈ ns → deq (zs a) (zs b) = true.

Lemma nodeLt_lex ns a b : ordered ns → sameScores ns → a ∈ ns → b ∈ ns → nodeLt a b → sdscmp (ze a) (ze b) < 0.
Proof.
  intros Hord Hsame Ha Hb. pose proof (ordered_num _ _ Hord Ha) as Hna. pose proof (ordered_num _ _ Hord Hb) as Hnb.
  pose proof (Hsame a b Ha Hb) as Heq. apply deq_place in Heq; [|done..]. unfold nodeLt. rewrite keyBefore_place, Heq by done.
  intros [H|[_ H]]; [|done]. by apply before3_irrefl in H.
Qed.

Lemma sdscmplex_mono a b m : sdscmp a b < 0 →
  (0 ≤ sdscmplex (Lex a) m → 0 < sdscmplex (Lex b) m) ∧ (sdscmplex (Lex b) m ≤ 0 → sdscmplex (Lex a) m < 0).
Proof.
  intros Hab. destruct m as [| |s]; cbn; [lia..|]. pose proof (sdscmp_sign s a). pose proof (sdscmp_sign s b). pose proof (sdscmp_sign b s).
  pose proof (sdscmp_eq a s). pose proof (sdscmp_eq b s). pose proof (sdscmp_trans s a b). pose proof (sdscmp_trans a b s).
  pose proof (sdscmp_sign a b). destruct (Z.lt_trichotomy (sdscmp a s) 0) as [?|[?|?]], (Z.lt_trichotomy (sdscmp b s) 0) as [?|[?|?]];
    naive_solver lia.
Qed.

Lemma lexRange_isRange ns r : ordered ns → sameScores ns →
  isRange ns (λ n, zslLexValueGteMin (ze n) r) (λ n, zslLexValueLteMax (ze n) r).
Proof.
  intros Hord Hsame. split; intros a b Ha Hb Hab; apply (nodeLt_lex ns) in Hab; try done; cbn.
  - unfold zslLexValueGteMin. destruct (sdscmplex_mono _ _ (lmin r) Hab) as [H _]. destruct (lminex r); lia.
  - unfold zslLexValueLteMax. destruct (sdscmplex_mono _ _ (lmax r) Hab) as [_ H]. destruct (lmaxex r); lia.
Qed.

Lemma lexRange_empty ns r : (0 <? sdscmplex (lmin r) (lmax r)) || ((sdscmplex (lmin r) (lmax r) =? 0) && (lminex r || lmaxex r)) = true →
  lexRange r ns = [].
Proof.
  intros Hemp. apply inRange_none. intros n _. unfold zslLexValueGteMin, zslLexValueLteMax.
  destruct r as [[| |a] [| |b] aex bex]; cbn in *; try (destruct aex, bex; cbn in *; lia).
  pose proof (sdscmp_sign (ze n) a). pose proof (sdscmp_sign a (ze n)). pose proof (sdscmp_eq (ze n) a). pose proof (sdscmp_eq (ze n) b).
  pose proof (sdscmp_trans a (ze n) b) as Htr. pose proof (sdscmp_eq a b). pose proof (sdscmp_sign a b). pose proof (sdscmp_sign b a).
  intros Hg Hl. assert (sdscmp a b ≤ 0 ∧ (sdscmp a b = 0 → aex || bex = false)); [|destruct aex, bex; cbn in *; lia].
  destruct (Z.eq_dec (sdscmp (ze n) a) 0) as [Ha|Ha], (Z.eq_dec (sdscmp (ze n) b) 0) as [Hb|Hb].
  - assert (ze n = a) as Hna by tauto. assert (ze n = b) as Hnb by tauto. subst. destruct aex, bex; cbn; lia.
  - assert (ze n = a) as Hna by tauto. subst a. destruct aex, bex; cbn; lia.
  - assert (ze n = b) as Hnb by tauto. subst b. destruct aex, bex; cbn; lia.
  - assert (sdscmp a b < 0) by (apply Htr; destruct aex, bex; lia). lia.
Qed.
