(* ===== verification/ZsetMap.v ===== *)
(** * ZsetMap: sorted sets implement finite maps

    A sorted set in the skip list encoding has a dictionary from elements to the nodes
    of its skip list.  It implements a finite map from elements to scores, ordered by
    score and element: [zsetAdd], [zsetDel], [zsetScore] and [zsetRank], and finding
    and deleting ranges by score, by element and by rank. *)

From Stdlib Require Import Ascii String ZifyBool.
From stdpp Require Import base tactics option strings numbers gmap fin_maps sorting list.
From S2P Require Import Prelude Util Object Double Skiplist SkiplistProps ZsetProps.

Local Open Scope Z_scope.

#[local] Abbreviation num s := (isnan s = false).

(** ** Deleting ranges *)

(** The condition of a loop of deletions: true on the nodes [C] from the count [r] on,
    and false on the next one. *)
Record deletes (go : zskiplistNode → Z → bool) (r : Z) (C D : list zn) : Prop := {
  del_go j n nd : C !! j = Some n → ele nd = Some (ze n) → score nd = zs n → go nd (r + Z.of_nat j) = true;
  del_stop n nd : head D = Some n → ele nd = Some (ze n) → score nd = zs n → go nd (r + Z.of_nat (length C)) = false }.

Lemma deleteLoop_run go u A C D d σ z r fuel top : zslOk σ z (A ++ C ++ D) → Z.of_nat (length (A ++ C ++ D)) < 2 ^ 63 →
  (∀ i, (i < top)%nat → u !! i = Some (update (header z) A [] i)) → (zsl_level z ≤ top)%nat → deletes go r C D → (length C ≤ fuel)%nat →
  ∃ σ' z', deleteLoop fuel go u (zl <$> head (C ++ D)) z d r σ =
      Ok ((z', foldl (λ d e, delete e d) d (ze <$> C), r + Z.of_nat (length C)), σ') ∧
    zslOk σ' z' (A ++ D) ∧ header z' = header z ∧ frame (places (header z) (A ++ C ++ D)) σ σ' ∧ Forall (λ n, znodes σ' !! zl n = None) C.
Proof.
  revert σ z d r fuel. induction C as [|n C IH]; intros σ z d r fuel Hok Hsize Hu Hlvl Hgo Hfuel.
  - cbn [app fmap list_fmap foldl length]. rewrite Z.add_0_r. exists σ, z. split_and!; [|done|done|done|done].
    destruct D as [|n D]; [by destruct fuel|]. cbn [head fmap option_fmap option_map].
    destruct (middle_node _ _ _ _ _ Hok) as (nd & Hnd & He & Hs & _).
    pose proof (del_stop _ _ _ _ Hgo n nd eq_refl He Hs) as Hstop. cbn in Hstop. rewrite Z.add_0_r in Hstop.
    destruct fuel; cbn [deleteLoop]; rewrite (bind_run _ _ _ _ _ (zreadNode_run _ _ _ Hnd)), Hstop; done.
  - cbn [app] in *. destruct (middle_node _ _ _ _ _ Hok) as (nd & Hnd & He & Hs & _ & Hlev). cbn [head fmap option_fmap option_map].
    destruct fuel as [|fuel]; [cbn in Hfuel; lia|]. cbn [deleteLoop]. rewrite (bind_run _ _ _ _ _ (zreadNode_run _ _ _ Hnd)).
    pose proof (del_go _ _ _ _ Hgo 0%nat n nd eq_refl He Hs) as Hgo0. rewrite Z.add_0_r in Hgo0. rewrite Hgo0. cbn [negb].
    rewrite (bind_run _ _ _ _ _ (readLevel_run _ _ _ _ Hlev)).
    destruct (zslDeleteNode_run σ z A n (C ++ D) u Hok Hsize) as (σ1 & z1 & Hrun1 & Hok1 & Hh1 & Hl1 & Hfr1 & Hf1 & Hk1 & _).
    { intros i Hi. rewrite (update_indep _ _ _ []). apply Hu. lia. }
    rewrite (bind_run _ _ _ _ _ Hrun1), (eleOf_some _ _ He). cbn [forward].
    assert (is_Some (znodes σ1 !! zl n)) as Hn1.
    { unfold fields in Hf1. rewrite Hnd in Hf1. destruct (znodes σ1 !! zl n); [eauto|done]. }
    rewrite (bind_run _ _ _ _ _ (zslFreeNode_run _ _ Hn1)).
    pose proof (zslOk_notin _ _ _ _ _ Hok) as Hnot.
    destruct (IH (freed (zl n) σ1) z1 (delete (ze n) d) (r + 1) fuel) as (σ' & z' & Hrun & Hok' & Hh' & Hfr' & Hgone').
    + apply zslOk_freed; [done|]. by rewrite Hh1.
    + rewrite length_app in Hsize |- *. cbn [length] in Hsize. lia.
    + rewrite Hh1. done.
    + lia.
    + split; [intros j m nd' Hj; replace (r + 1 + Z.of_nat j) with (r + Z.of_nat (S j)) by lia; by apply (del_go _ _ _ _ Hgo)|].
      intros m nd' Hm. replace (r + 1 + Z.of_nat (length C)) with (r + Z.of_nat (length (n :: C))) by (cbn; lia).
      by apply (del_stop _ _ _ _ Hgo).
    + cbn in Hfuel. lia.
    + exists σ', z'. split_and!; [|done|by rewrite Hh', Hh1| |].
      * rewrite Hrun. cbn [fmap list_fmap foldl length]. do 3 f_equal. lia.
      * rewrite Hh1 in Hfr'. intros a Ha. rewrite Hfr', freed_other by (rewrite places_insert in Ha; set_solver). by apply Hfr1.
      * constructor; [|done]. rewrite Hh1 in Hfr'. rewrite Hfr' by done. apply lookup_delete_eq.
Qed.

(** All deletions of a range: what is before it and after it stays. *)
Lemma deleteFrom_run go A C D d σ z : zslOk σ z (A ++ C ++ D) → Z.of_nat (length (A ++ C ++ D)) < 2 ^ 63 → deletes go 0 C D →
  ∃ σ' z', deleteFrom go (update (header z) A (C ++ D) <$> seq 0 (zsl_level z)) z d σ =
      Ok ((z', foldl (λ d e, delete e d) d (ze <$> C), Z.of_nat (length C)), σ') ∧
    zslOk σ' z' (A ++ D) ∧ header z' = header z ∧ frame (places (header z) (A ++ C ++ D)) σ σ' ∧ Forall (λ n, znodes σ' !! zl n = None) C.
Proof.
  intros Hok Hsize Hgo. unfold deleteFrom. rewrite (bind_run _ _ _ _ _ (next_run _ _ _ _ Hok)). cbn [forward].
  destruct (deleteLoop_run go (update (header z) A (C ++ D) <$> seq 0 (zsl_level z)) A C D d σ z 0 (Z.to_nat (zsl_length z)) (zsl_level z))
    as (σ' & z' & Hrun & Hrest); [done|done| |done|done| |].
  - intros i Hi. rewrite list_lookup_fmap, lookup_seq_lt by done. cbn. by rewrite (update_indep _ _ _ []).
  - rewrite (ok_length _ _ _ Hok), Nat2Z.id, !length_app. lia.
  - exists σ', z'. split; [exact Hrun|done].
Qed.

Lemma inRange_all g l C : Forall (λ n, negb (g n) = false) C → Forall (λ n, l n = true) C → midRange g l C = C.
Proof.
  intros Hg Hl. unfold midRange. induction C as [|n C IH]; [done|]. apply Forall_cons in Hg as [Hgn Hg]. apply Forall_cons in Hl as [Hln Hl].
  rewrite filter_cons_True by (apply negb_false_iff in Hgn; by rewrite Hgn, Hln). f_equal. by apply IH.
Qed.

(** The nodes of a range are consecutive. *)
Lemma range_split ns g l : ordered ns → isRange ns g l → ∃ A C D, ns = A ++ C ++ D ∧
  Forall (λ n, negb (g n) = true) A ∧ Forall (λ n, negb (g n) = false) (C ++ D) ∧ Forall (λ n, l n = true) C ∧ Forall (λ n, l n = false) D ∧
  midRange g l ns = C.
Proof.
  intros Hord HR. destruct (range_split_low ns g l Hord HR) as (A & B & -> & HA & HB). pose proof Hord as (_ & HordB & _)%ordered_app.
  assert (isRange B g l) as HRB by (split; intros a b Ha Hb; [apply (range_low _ _ _ HR)|apply (range_high _ _ _ HR)]; set_solver).
  destruct (range_split_high B g l HordB HRB) as (C & D & -> & HC & HD). exists A, C, D. split_and!; [done..|].
  rewrite inRange_low, inRange_high by done. apply inRange_all; [|done]. by apply Forall_app in HB as [? _].
Qed.

(** What the deletion of the nodes [C] returns: the list of the others, and the memory of
    the nodes [C] freed. *)
Definition removes (σ : zheap) (z : zskiplist) (d : gmap bytes loc) (ns : list zn) (m : zM (zskiplist * gmap bytes loc * Z)) (A C D : list zn) : Prop :=
  ∃ σ' z', m σ = Ok ((z', foldl (λ d e, delete e d) d (ze <$> C), Z.of_nat (length C)), σ') ∧
    zslOk σ' z' (A ++ D) ∧ ordered (A ++ D) ∧ header z' = header z ∧ frame (places (header z) ns) σ σ' ∧
    Forall (λ n, znodes σ' !! zl n = None) C.

Lemma ordered_remove A C D : ordered (A ++ C ++ D) → ordered (A ++ D).
Proof. rewrite !ordered_app. intros (HA & (HC & HD & _) & Hlt). split_and!; [done|done|]. intros a b Ha Hb. apply Hlt; set_solver. Qed.

Lemma deleteRangeBy_run σ z ns d (low high : zskiplistNode → bool) g l : zslOk σ z ns → ordered ns → Z.of_nat (length ns) < 2 ^ 63 → isRange ns g l →
  (∀ n nd, ele nd = Some (ze n) → score nd = zs n → num (zs n) → low nd = negb (g n)) →
  (∀ n nd, ele nd = Some (ze n) → score nd = zs n → num (zs n) → high nd = l n) →
  ∃ A D, ns = A ++ midRange g l ns ++ D ∧
    removes σ z d ns (u ← seek id (λ n _, low n) z; deleteFrom (λ n _, high n) u z d) A (midRange g l ns) D.
Proof.
  intros Hok Hord Hsize HR Hlow Hhigh. destruct (range_split ns g l Hord HR) as (A & C & D & Hns & HA & HB & HC & HD & HCr).
  rewrite HCr. exists A, D. split; [done|]. subst ns.
  assert (∀ n, n ∈ A ++ C ++ D → num (zs n)) as Hnum by (intros n; by apply ordered_num).
  assert (splits low A (C ++ D)) as Hsp.
  { split; apply Forall_forall; intros n Hn nd He Hs; (rewrite (Hlow n nd He Hs); [|apply Hnum; set_solver]).
    - rewrite Forall_forall in HA. by apply HA.
    - rewrite Forall_forall in HB. by apply HB. }
  unfold removes. rewrite (bind_run _ _ _ _ _ (seek_splits _ _ _ _ id _ Hok Hsp (λ _ _, eq_refl))).
  destruct (deleteFrom_run (λ n _, high n) A C D d σ z Hok Hsize) as (σ' & z' & Hrun & Hok' & Hh & Hfr & Hgone).
  - split.
    + intros j n nd Hn He Hs. pose proof (list_elem_of_lookup_2 _ _ _ Hn) as Hin. rewrite (Hhigh n nd He Hs) by (apply Hnum; set_solver).
      rewrite Forall_forall in HC. by apply HC.
    + intros n nd Hn He Hs. destruct D as [|m D]; [done|]. injection Hn as ->. rewrite (Hhigh n nd He Hs) by (apply Hnum; set_solver).
      by inversion HD.
  - exists σ', z'. split_and!; [done|done|by eapply ordered_remove|done|done|done].
Qed.

Lemma zslDeleteRangeByScore_run σ z ns d r : zslOk σ z ns → ordered ns → Z.of_nat (length ns) < 2 ^ 63 → numRange r → ∃ A D, ns = A ++ scoreRange r ns ++ D ∧
  removes σ z d ns (zslDeleteRangeByScore z r d) A (scoreRange r ns) D.
Proof.
  intros Hok Hord Hsize Hr. apply deleteRangeBy_run; [done|done|done|by apply scoreRange_isRange|..].
  - intros n nd _ Hs Hn. rewrite Hs. unfold zslValueGteMin. destruct Hr as [Hmin _]. destruct (minex r).
    + by rewrite dle_spec.
    + rewrite dle_spec by done. by rewrite negb_involutive.
  - intros n nd _ Hs Hn. by rewrite Hs.
Qed.

Lemma zslDeleteRangeByLex_run σ z ns d r : zslOk σ z ns → ordered ns → Z.of_nat (length ns) < 2 ^ 63 → sameScores ns → ∃ A D, ns = A ++ lexRange r ns ++ D ∧
  removes σ z d ns (zslDeleteRangeByLex z r d) A (lexRange r ns) D.
Proof.
  intros Hok Hord Hsize Hsame. apply deleteRangeBy_run; [done|done|done|by apply lexRange_isRange|..].
  - intros n nd He _ _. unfold lexGte. by rewrite (eleOf_some _ _ He).
  - intros n nd He _ _. unfold lexLte. by rewrite (eleOf_some _ _ He).
Qed.

(** The ranks from [start] to [last], which count from 1. *)
Lemma zslDeleteRangeByRank_run σ z ns d (start last : nat) : zslOk σ z ns → ordered ns → Z.of_nat (length ns) < 2 ^ 63 → (1 ≤ start)%nat → Z.of_nat last < 2 ^ 32 →
  let A := take (start - 1) ns in let C := take (last + 1 - start) (drop (start - 1) ns) in let D := drop (last + 1 - start) (drop (start - 1) ns) in
  removes σ z d ns (zslDeleteRangeByRank z (Z.of_nat start) (Z.of_nat last) d) A C D.
Proof.
  intros Hok Hord Hsize Hs Hl A C D. assert (ns = A ++ C ++ D) as Hns by (unfold A, C, D; by rewrite !take_drop).
  assert (length A = Nat.min (start - 1) (length ns)) as HlA by apply length_take.
  unfold removes, zslDeleteRangeByRank. rewrite Hns in Hok, Hord, Hsize |- *.
  pose proof (lk_level _ _ _ _ (ok_links _ _ _ Hok)) as Hlvl.
  rewrite (bind_run _ _ _ _ _ (seek_run σ (header z) A (C ++ D) (zsl_level z) (ok_links _ _ _ Hok) u64
    ltac:(intros; by apply u64_small with (n := length (A ++ C ++ D))) (λ _ t, t <? Z.of_nat start)
    ltac:(intros k n nd Hn _ _; apply lookup_lt_Some in Hn; rewrite <-Hns in Hn; case_bool_decide; lia)
    z eq_refl eq_refl (ok_length _ _ _ Hok))).
  assert (match update (header z) A (C ++ D) <$> seq 0 (zsl_level z) with p :: _ => u64 (snd p + 1) | [] => 1 end =
          Z.of_nat (length A) + 1) as ->.
  { replace (zsl_level z) with (S (zsl_level z - 1)) by lia. cbn. rewrite (lastAt_0_all _ _ _ _ _ (ok_links _ _ _ Hok)).
    rewrite length_app in Hsize. apply u64_id. unfold ULLONG_MAX. lia. }
  destruct (deleteFrom_run (λ _ removed, u64 (Z.of_nat (length A) + 1 + removed) <=? Z.of_nat last) A C D d σ z Hok Hsize)
    as (σ' & z' & Hrun & Hok' & Hh & Hfr & Hgone).
  - rewrite !length_app in Hsize. split.
    + intros j n nd Hj _ _. apply lookup_lt_Some in Hj. rewrite u64_id by (unfold ULLONG_MAX; lia).
      unfold C in Hj. rewrite length_take, length_drop in Hj. lia.
    + intros n nd Hn _ _. rewrite u64_id by (unfold ULLONG_MAX; lia). destruct (decide (start - 1 ≤ length ns)%nat) as [Hle|Hgt].
      * assert (length C = last + 1 - start)%nat as ->; [|lia]. unfold C. rewrite length_take. unfold D in Hn.
        destruct (decide (last + 1 - start ≤ length (drop (start - 1) ns))%nat); [lia|]. rewrite (drop_ge (drop _ _)) in Hn by lia. done.
      * unfold D in Hn. rewrite (drop_ge ns), drop_nil in Hn by lia. done.
  - exists σ', z'. split_and!; [done|done|by eapply ordered_remove|done|done|done].
Qed.

(** ** Sorted sets as finite maps *)

Definition assoc {V} (f : zn → V) (ns : list zn) : gmap bytes V := list_to_map ((λ n, (ze n, f n)) <$> ns).

(** The sorted set [zs], at the addresses [ls] of the heap, stands for the map [m]. *)
Definition zset_at (σ : zheap) (zset : zset) (ls : list loc) (m : gmap bytes double) : Prop :=
  ∃ ns, zslOk σ (zs_zsl zset) ns ∧ ordered ns ∧ NoDup (ze <$> ns) ∧
    ls = places (header (zs_zsl zset)) ns ∧ m = assoc zs ns ∧ zs_dict zset = assoc zl ns.

Section Assoc.
Context {V : Type} (f : zn → V).

Lemma assoc_fst (ns : list zn) : ((λ n, (ze n, f n)) <$> ns).*1 = ze <$> ns.
Proof. rewrite <-list_fmap_compose. done. Qed.

Lemma assoc_insert A X B : NoDup (ze <$> A ++ X :: B) → assoc f (A ++ X :: B) = <[ze X := f X]> (assoc f (A ++ B)).
Proof.
  intros Hnd. unfold assoc. rewrite <-list_to_map_cons. apply list_to_map_proper; [by rewrite assoc_fst|].
  rewrite !fmap_app. cbn. by rewrite <-Permutation_middle.
Qed.

Lemma assoc_delete A X B : NoDup (ze <$> A ++ X :: B) → assoc f (A ++ B) = delete (ze X) (assoc f (A ++ X :: B)).
Proof.
  intros Hnd. rewrite assoc_insert, delete_insert_eq by done. symmetry. apply delete_id. apply not_elem_of_list_to_map_1.
  rewrite assoc_fst. rewrite fmap_app in Hnd. cbn in Hnd. rewrite <-Permutation_middle in Hnd. rewrite fmap_app. by apply NoDup_cons in Hnd as [? _].
Qed.

Lemma assoc_lookup ns n : NoDup (ze <$> ns) → n ∈ ns → assoc f ns !! ze n = Some (f n).
Proof.
  intros Hnd Hn. apply elem_of_list_to_map_1; [by rewrite assoc_fst|]. by apply (list_elem_of_fmap_2' _ _ n).
Qed.

Lemma assoc_lookup_inv ns e v : assoc f ns !! e = Some v → ∃ n, n ∈ ns ∧ ze n = e ∧ f n = v.
Proof. intros H%elem_of_list_to_map_2. apply list_elem_of_fmap in H as (n & [= -> ->] & Hn). eauto. Qed.

Lemma assoc_lookup_None ns e : assoc f ns !! e = None ↔ e ∉ ze <$> ns.
Proof. unfold assoc. rewrite <-not_elem_of_list_to_map, assoc_fst. done. Qed.

Lemma assoc_size ns : NoDup (ze <$> ns) → size (assoc f ns) = length ns.
Proof.
  intros Hnd. rewrite <-length_map_to_list. unfold assoc. rewrite map_to_list_to_map by (by rewrite assoc_fst). by rewrite length_fmap.
Qed.
End Assoc.

(** What ZADD does to the map: the new map, the result and the new score. *)
Definition zaddSpec (m : gmap bytes double) (s : double) (e : bytes) (incr nx xx : bool) : gmap bytes double * zaddResult * option double :=
  if isnan s then (m, ZADD_NAN, None) else
  match m !! e with
  | Some cur =>
      if nx then (m, ZADD_NOP, None) else
      let s' := if incr then dadd s cur else s in
      if isnan s' then (m, ZADD_NAN, None) else
      let newscore := if incr then Some s' else None in
      if deq s' cur then (m, ZADD_SAME, newscore) else (<[e := s']> m, ZADD_UPDATED, newscore)
  | None => if xx then (m, ZADD_NOP, None) else (<[e := s]> m, ZADD_ADDED, Some s)
  end.

(** The number of pairs before an element, or after it. *)
Definition countBefore (m : gmap bytes double) (s : double) (e : bytes) : nat :=
  length (filter (λ p : bytes * double, keyBefore (snd p) (fst p) s e = true) (map_to_list m)).

Definition rankSpec (m : gmap bytes double) (e : bytes) (rev : bool) : Z :=
  match m !! e with
  | None => -1
  | Some s => if rev then Z.of_nat (size m) - 1 - Z.of_nat (countBefore m s e) else Z.of_nat (countBefore m s e)
  end.

Lemma countBefore_run A X B : NoDup (ze <$> A ++ X :: B) → ordered (A ++ X :: B) →
  countBefore (assoc zs (A ++ X :: B)) (zs X) (ze X) = length A.
Proof.
  intros Hnd Hord. unfold countBefore, assoc. rewrite map_to_list_to_map by (by rewrite assoc_fst).
  assert (∀ l, length (filter (λ p : bytes * double, keyBefore p.2 p.1 (zs X) (ze X) = true) ((λ n, (ze n, zs n)) <$> l)) =
    length (filter (λ n, nodeLt n X) l)) as Hf.
  { intros l. induction l as [|n l IH]; [done|]. cbn [fmap list_fmap]. rewrite !filter_cons. cbn [fst snd].
    destruct (decide (keyBefore (zs n) (ze n) (zs X) (ze X) = true)) as [Hd|Hd], (decide (nodeLt n X)) as [Hd'|Hd'];
      unfold nodeLt in *; cbn; congruence || done. }
  rewrite Hf, filter_app, length_app. pose proof (ordered_num _ X Hord ltac:(set_solver)) as HX.
  apply ordered_app in Hord as (HA & HB & Hlt). assert (filter (λ n, nodeLt n X) A = A) as ->.
  { assert (∀ n, n ∈ A → nodeLt n X) as HAX by (intros; apply Hlt; set_solver). clear -HAX. induction A as [|n A IH]; [done|].
    rewrite filter_cons_True by (apply HAX; set_solver). f_equal. apply IH. intros; apply HAX; set_solver. }
  assert (filter (λ n, nodeLt n X) (X :: B) = []) as ->; [|cbn; lia].
  apply ordered_cons in HB as (_ & HB & HXB). rewrite filter_cons_False by (unfold nodeLt; by rewrite keyBefore_irrefl).
  assert (∀ n, n ∈ B → ¬ nodeLt n X) as Hno.
  { intros n Hn. unfold nodeLt. rewrite keyBefore_asym; [done|done|by apply (ordered_num B)|by apply HXB]. }
  clear -Hno. induction B as [|n B IH]; [done|]. rewrite filter_cons_False by (apply Hno; set_solver). apply IH. intros; apply Hno; set_solver.
Qed.

Section ZsetRuns.
Context (junk : zskiplistLevel) (σ : zheap) (zset : zset) (ls : list loc) (m : gmap bytes double).
Context (Hat : zset_at σ zset ls m) (Hsize : Z.of_nat (size m) < 2 ^ 32 - 1).

Lemma zset_node e s : m !! e = Some s → ∃ ns n nd, zslOk σ (zs_zsl zset) ns ∧ ordered ns ∧ NoDup (ze <$> ns) ∧
  ls = places (header (zs_zsl zset)) ns ∧ m = assoc zs ns ∧ zs_dict zset = assoc zl ns ∧ Z.of_nat (length ns) < 2 ^ 32 - 1 ∧
  n ∈ ns ∧ ze n = e ∧ zs n = s ∧ zs_dict zset !! e = Some (zl n) ∧ znodes σ !! zl n = Some nd ∧ score nd = s.
Proof.
  destruct Hat as (ns & Hok & Hord & Hnd & Hls & Hm & Hd). intros He. rewrite Hm in He.
  apply assoc_lookup_inv in He as (n & Hn & <- & <-). destruct (proj1 (list_elem_of_lookup _ _) Hn) as [k Hk].
  destruct (zslOk_node _ _ _ _ _ Hok Hk) as (nd & Hnode & _ & Hs). exists ns, n, nd.
  split_and!; [done..|rewrite <-(assoc_size zs ns Hnd), <-Hm; done|done|done|done|rewrite Hd; by apply assoc_lookup|done|done].
Qed.

Lemma zset_absent e : m !! e = None → zs_dict zset !! e = None.
Proof.
  destruct Hat as (ns & _ & _ & _ & _ & -> & ->). by rewrite !assoc_lookup_None.
Qed.

Lemma zsetScore_run e : zsetScore zset e σ = Ok (m !! e, σ).
Proof.
  unfold zsetScore. destruct (m !! e) as [s|] eqn:He; [|by rewrite (zset_absent e He)].
  destruct (zset_node e s He) as (ns & n & nd & _ & _ & _ & _ & _ & _ & _ & _ & _ & _ & -> & Hnd & Hs).
  rewrite (bind_run _ _ _ _ _ (zreadNode_run _ _ _ Hnd)), Hs. done.
Qed.

(** A sorted set with one node replaced or added. *)
Lemma zset_at_insert σ' z' A X B d : zslOk σ' z' (A ++ X :: B) → ordered (A ++ X :: B) → NoDup (ze <$> A ++ X :: B) →
  <[ze X := zl X]> d = assoc zl (A ++ X :: B) →
  zset_at σ' (mkZset (<[ze X := zl X]> d) z') (places (header z') (A ++ X :: B)) (<[ze X := zs X]> (assoc zs (A ++ B))).
Proof. intros Hok Hord Hnd Hd. exists (A ++ X :: B). split_and!; [done..|by rewrite assoc_insert|done]. Qed.

Lemma zsetAdd_update e cur s : m !! e = Some cur → num s → is_Some (randomLoop (zrandom σ) 1) →
  ∃ σ' ls' r, zslUpdateScore junk (zs_zsl zset) cur e s σ = Ok (r, σ') ∧
    zset_at σ' (mkZset (<[e := snd r]> (zs_dict zset)) (fst r)) ls' (<[e := s]> m) ∧ frame (zbrk σ :: ls) σ σ'.
Proof.
  intros He Hs Hrand. destruct (zset_node e cur He) as (ns & X & nd & Hok & Hord & Hnd & Hls & Hm & Hd & Hlen & HX & <- & <- & _).
  destruct (zslUpdateScore_run junk σ (zs_zsl zset) ns X s Hok Hord Hnd HX Hs Hlen Hrand)
    as (σ' & z' & A & B & A' & B' & y & h & -> & HAB & Hrun & Hok' & Hord' & Hh & Hfr).
  exists σ', (places (header z') (A' ++ mkZn y s (ze X) h :: B')), (z', y). split; [done|]. rewrite Hls. split; [|done].
  assert (NoDup (ze <$> A' ++ mkZn y s (ze X) h :: B')) as Hnd'.
  { rewrite fmap_app in Hnd |- *. cbn in Hnd |- *. rewrite <-Permutation_middle in Hnd |- *. by rewrite <-fmap_app, <-HAB, fmap_app. }
  cbn [fst snd]. rewrite Hm, (assoc_insert zs A X B Hnd), insert_insert_eq, HAB.
  apply (zset_at_insert σ' z' A' (mkZn y s (ze X) h) B'); [done..|]. rewrite (assoc_insert zl A' _ B' Hnd'), Hd.
  by rewrite (assoc_insert zl A X B Hnd), insert_insert_eq, HAB.
Qed.

Lemma zsetAdd_new e s : m !! e = None → num s → is_Some (randomLoop (zrandom σ) 1) →
  ∃ σ' ls' r, zslInsert junk (zs_zsl zset) s e σ = Ok (r, σ') ∧
    zset_at σ' (mkZset (<[e := snd r]> (zs_dict zset)) (fst r)) ls' (<[e := s]> m) ∧ frame (zbrk σ :: ls) σ σ'.
Proof.
  intros He Hs Hrand. destruct Hat as (ns & Hok & Hord & Hnd & Hls & Hm & Hd).
  assert (Z.of_nat (length ns) < 2 ^ 32 - 1) as Hlen by (rewrite <-(assoc_size zs ns Hnd), <-Hm; done).
  rewrite Hm in He. apply assoc_lookup_None in He as Hne.
  destruct (zslInsert_ordered junk σ (zs_zsl zset) ns s e Hok Hord Hs Hne Hlen Hrand)
    as (σ' & z' & A & B & h & -> & Hrun & Hok' & Hord' & Hh & Hfr).
  exists σ', (places (header z') (A ++ mkZn (zbrk σ) s e h :: B)), (z', zbrk σ). split; [done|]. rewrite Hls. split; [|done].
  assert (NoDup (ze <$> A ++ mkZn (zbrk σ) s e h :: B)) as Hnd'.
  { rewrite fmap_app. cbn. rewrite <-Permutation_middle, <-fmap_app. by apply NoDup_cons. }
  rewrite Hm, Hd. apply (zset_at_insert σ' z' A (mkZn (zbrk σ) s e h) B); [done..|]. by rewrite (assoc_insert zl A _ B Hnd').
Qed.

Lemma zsetAdd_run s e incr nx xx : is_Some (randomLoop (zrandom σ) 1) →
  let '(m', res, new) := zaddSpec m s e incr nx xx in
  ∃ σ' zset' ls', zsetAdd junk zset s e incr nx xx σ = Ok ((zset', res, new), σ') ∧ zset_at σ' zset' ls' m' ∧ frame (zbrk σ :: ls) σ σ'.
Proof.
  intros Hrand. unfold zaddSpec, zsetAdd. destruct (isnan s) eqn:Hs; [by exists σ, zset, ls|].
  destruct (m !! e) as [cur|] eqn:He.
  - destruct (zset_node e cur He) as (_ & n & nd & _ & _ & _ & _ & _ & _ & _ & _ & _ & _ & -> & Hnode & Hsc).
    destruct nx; [by exists σ, zset, ls|]. rewrite (bind_run _ _ _ _ _ (zreadNode_run _ _ _ Hnode)), Hsc. cbn zeta.
    assert (incr && isnan (if incr then dadd s cur else s) = isnan (if incr then dadd s cur else s)) as -> by (by destruct incr; rewrite ?Hs).
    destruct (isnan (if incr then dadd s cur else s)) eqn:Hs'; [by exists σ, zset, ls|].
    destruct (deq (if incr then dadd s cur else s) cur); cbn [negb]; [by exists σ, zset, ls|].
    destruct (zsetAdd_update e cur _ He Hs' Hrand) as (σ' & ls' & r & Hrun & Hat' & Hfr).
    rewrite (bind_run _ _ _ _ _ Hrun). eexists σ', _, ls'. split; [done|done].
  - rewrite (zset_absent e He). destruct xx; [by exists σ, zset, ls|].
    destruct (zsetAdd_new e s He Hs Hrand) as (σ' & ls' & r & Hrun & Hat' & Hfr).
    rewrite (bind_run _ _ _ _ _ Hrun), bool_decide_eq_true_2, (bind_run _ _ _ _ _ (serverAssert_run _ _ _ eq_refl)) by done.
    eexists σ', _, ls'. split; [done|done].
Qed.

Lemma zsetDel_run e : ∃ σ' zset' ls', zsetDel zset e σ = Ok ((zset', bool_decide (is_Some (m !! e))), σ') ∧
  zset_at σ' zset' ls' (delete e m) ∧ frame ls σ σ'.
Proof.
  unfold zsetDel. destruct (m !! e) as [cur|] eqn:He.
  - destruct (zset_node e cur He) as (ns & X & nd & Hok & Hord & Hnd & Hls & Hm & Hd & Hlen & HX & <- & <- & -> & Hnode & Hsc).
    rewrite (bind_run _ _ _ _ _ (zreadNode_run _ _ _ Hnode)), Hsc. cbn zeta.
    pose proof (ordered_num _ _ Hord HX) as HnX.
    destruct (zslDelete_run σ (zs_zsl zset) ns (zs X) X Hok Hord HnX HX (proj2 (deq_place _ _ HnX HnX) eq_refl) ltac:(lia))
      as (σ' & z' & A & B & -> & Hrun & Hok' & Hord' & Hh & Hfr & _).
    rewrite (bind_run _ _ _ _ _ Hrun), (bind_run _ _ _ _ _ (serverAssert_run _ _ _ eq_refl)).
    eexists σ', _, _. split; [rewrite bool_decide_eq_true_2 by eauto; done|]. rewrite Hls. split; [|done].
    exists (A ++ B). cbn [zs_zsl zs_dict fst]. split_and!; [done|done| |reflexivity| |].
    + rewrite fmap_app in Hnd |- *. cbn in Hnd. rewrite <-Permutation_middle in Hnd. by apply NoDup_cons in Hnd as [_ ?].
    + by rewrite Hm, <-assoc_delete.
    + by rewrite Hd, <-assoc_delete.
  - rewrite (zset_absent e He). exists σ, zset, ls. split_and!; [done|by rewrite delete_id|done].
Qed.

Lemma zsetLength_run : zsetLength zset = Z.of_nat (size m).
Proof.
  destruct Hat as (ns & Hok & _ & Hnd & _ & -> & _). unfold zsetLength. by rewrite (ok_length _ _ _ Hok), assoc_size.
Qed.

Lemma zsetRank_run e rev : zsetRank zset e rev σ = Ok (rankSpec m e rev, σ).
Proof.
  unfold zsetRank, rankSpec. destruct (m !! e) as [s|] eqn:He; [|by rewrite (zset_absent e He)].
  destruct (zset_node e s He) as (ns & X & nd & Hok & Hord & Hnd & _ & Hm & _ & Hlen & HX & <- & <- & -> & Hnode & Hsc).
  rewrite (bind_run _ _ _ _ _ (zreadNode_run _ _ _ Hnode)), Hsc. apply list_elem_of_split in HX as (A & B & ->).
  rewrite (bind_run _ _ _ _ _ (zslGetRank_run σ _ A B X Hok Hord Hnd ltac:(lia))).
  assert (negb (Z.of_nat (S (length A)) =? 0) = true) as Hr by lia.
  rewrite (bind_run _ _ _ _ _ (serverAssert_run _ _ _ Hr)). rewrite zsetLength_run, Hm, countBefore_run by done.
  rewrite Hm, assoc_size, length_app in Hsize by done. cbn in Hsize.
  rewrite assoc_size, length_app by done. cbn [length].
  destruct rev; unfold mret, M_ret; do 2 f_equal; [|lia].
  rewrite u64_id, i64_id by (unfold ULLONG_MAX, LLONG_MIN, LLONG_MAX; lia). lia.
Qed.
End ZsetRuns.

(** ** Creation and release *)

Lemma zslCreate_run junk σ : (∀ a, (zbrk σ ≤ a)%nat → znodes σ !! a = None) →
  ∃ σ' z, zslCreate junk σ = Ok (z, σ') ∧ zslOk σ' z [] ∧ header z = zbrk σ ∧ frame [zbrk σ] σ σ' ∧ zrandom σ' = zrandom σ.
Proof.
  intros Hfresh. unfold zslCreate. rewrite (bind_run _ _ _ _ _ (zslCreateNode_run _ _ _ _ _)). set (x := zbrk σ). set (σ1 := mkZheap _ _ _).
  assert (fields σ1 x = Some (None, dzero, ZSKIPLIST_MAXLEVEL)) as Hf1.
  { unfold fields, σ1. cbn [znodes]. rewrite lookup_insert_eq. done. }
  destruct (proj1 (wp_run _ _ _) (wp_forM_seq noFault
    (λ k σ', quiet [x] σ1 σ' ∧ ∀ j, (j < k)%nat → lev σ' x j = Some (mkLevel None 0)) 0 ZSKIPLIST_MAXLEVEL (λ j, updLevel x j (λ _, mkLevel None 0)) σ1
    (conj (reflexivity σ1) (λ j Hj, False_ind _ (Nat.nlt_0_r j Hj))) ltac:(
      intros k σ' Hk [Hq Hlev]; apply wp_run;
      destruct (fields_lev σ' x None dzero ZSKIPLIST_MAXLEVEL k) as [v Hv]; [by rewrite (q_fields _ _ _ Hq)|cbn in *; lia|];
      rewrite (updLevel_run _ _ _ _ _ Hv); eexists _, _; split; [done|]; split;
      [etrans; [exact Hq|apply quiet_setLevel; set_solver]
      |intros j Hj; rewrite lev_setLevel by eauto; case_decide; [done|apply Hlev; lia]]))) as ([] & σ2 & Hrun & Hq & Hlev).
  rewrite (bind_run _ _ _ _ _ Hrun). pose proof (q_fields _ _ _ Hq x) as Hf2. rewrite Hf1 in Hf2.
  destruct (fields_node _ _ _ Hf2) as (n2 & Hn2 & _). rewrite (bind_run _ _ _ _ _ (zupdNode_run _ _ _ (ex_intro _ _ Hn2))).
  assert (frame [x] σ (onNode x (setBackward None) σ2)) as Hfr.
  { intros a Ha. rewrite onNode_other by set_solver. rewrite (q_frame _ _ _ Hq) by done. unfold σ1. cbn. apply lookup_insert_ne. set_solver. }
  eexists _, _. split; [done|]. split_and!; [|done|done|exact (q_random _ _ _ Hq)]. split; cbn [header tail zsl_length zsl_level].
  - split; try done.
    + unfold ZSKIPLIST_MAXLEVEL. lia.
    + apply NoDup_singleton.
    + by rewrite fields_setBackward.
    + intros p a i Hp Hi _. destruct p; [|done]. injection Hp as <-. rewrite lev_setBackward, Hlev by (unfold ZSKIPLIST_MAXLEVEL; lia). unfold cell. by rewrite drop_nil.
    + intros i Hi. exists 0. rewrite lev_setBackward. apply Hlev. lia.
  - done.
  - done.
  - intros a Ha. cbn [zbrk onNode] in Ha. rewrite (q_brk _ _ _ Hq) in Ha. cbn in Ha. rewrite Hfr; [apply Hfresh; unfold x in *; lia|].
    intros ->%list_elem_of_singleton. lia.
Qed.

Lemma zslCreate_at junk σ : (∀ a, (zbrk σ ≤ a)%nat → znodes σ !! a = None) →
  ∃ σ' z, zslCreate junk σ = Ok (z, σ') ∧ zset_at σ' (mkZset ∅ z) [zbrk σ] ∅ ∧ frame [zbrk σ] σ σ' ∧ zrandom σ' = zrandom σ.
Proof.
  intros Hfresh. destruct (zslCreate_run junk σ Hfresh) as (σ' & z & Hrun & Hok & Hh & Hfr & Hr). exists σ', z. split_and!; [done| |done|done].
  exists []. split_and!; [done|split; [apply SSorted_nil|apply Forall_nil_2]|apply NoDup_nil_2|cbn; by rewrite Hh|done|done].
Qed.

(** Every node is freed once. *)
Lemma freeLoop_run ns prev σ fuel : (∀ n, n ∈ ns → is_Some (znodes σ !! zl n)) → NoDup (zl <$> ns) → (length ns ≤ fuel)%nat →
  (∀ k n, ns !! k = Some n → ∃ s, lev σ (zl n) 0 = Some (mkLevel (zl <$> ns !! S k) s)) → prev = zl <$> head ns →
  ∃ σ', freeLoop fuel prev σ = Ok (tt, σ') ∧ (∀ n, n ∈ ns → znodes σ' !! zl n = None) ∧ frame (zl <$> ns) σ σ' ∧ (∀ a, znodes σ !! a = None → znodes σ' !! a = None).
Proof.
  revert prev σ fuel. induction ns as [|n ns IH]; intros prev σ fuel Halloc Hnd Hfuel Hlev ->.
  { exists σ. split_and!; [by destruct fuel|set_solver|done|done]. }
  cbn [head fmap option_fmap option_map list_fmap length] in *. destruct fuel as [|fuel]; [lia|]. cbn [freeLoop].
  destruct (Hlev 0%nat n eq_refl) as [s Hs]. rewrite (bind_run _ _ _ _ _ (readLevel_run _ _ _ _ Hs)).
  rewrite (bind_run _ _ _ _ _ (zslFreeNode_run σ (zl n) ltac:(apply Halloc; set_solver))). cbn [forward].
  apply NoDup_cons in Hnd as [Hn Hnd].
  assert (∀ m, m ∈ ns → zl m ≠ zl n) as Hne by (intros m Hm Heq; apply Hn; rewrite <-Heq; by apply list_elem_of_fmap_2).
  destruct (IH (zl <$> ns !! 0%nat) (freed (zl n) σ) fuel) as (σ' & Hrun & Hgone & Hfr & Hnone).
  - intros m Hm. rewrite freed_other by auto. apply Halloc. by right.
  - done.
  - lia.
  - intros k m Hm. rewrite (lev_same σ) by (apply freed_other, Hne; by eapply list_elem_of_lookup_2). by apply (Hlev (S k)).
  - by destruct ns.
  - exists σ'. split_and!; [done| | |].
    + intros m [->|Hm]%elem_of_cons; [|auto]. apply Hnone, lookup_delete_eq.
    + intros a Ha. rewrite Hfr by set_solver. apply freed_other. set_solver.
    + intros a Ha. apply Hnone. destruct (decide (a = zl n)) as [->|]; [apply lookup_delete_eq|by rewrite freed_other].
Qed.

Lemma zslFree_run σ z ns : zslOk σ z ns →
  ∃ σ', zslFree z σ = Ok (tt, σ') ∧ (∀ a, a ∈ places (header z) ns → znodes σ' !! a = None) ∧ frame (places (header z) ns) σ σ'.
Proof.
  intros Hok. unfold zslFree. destruct (header_forward σ z ns Hok) as [d Hd]. rewrite (bind_run _ _ _ _ _ Hd). cbn [forward].
  pose proof (lk_nodup _ _ _ _ (ok_links _ _ _ Hok)) as Hnd. apply NoDup_cons in Hnd as [Hhd Hnd].
  assert (∀ a, a ∈ places (header z) ns → is_Some (znodes σ !! a)) as Halloc by (intros a; apply (links_node _ _ _ _ _ (ok_links _ _ _ Hok))).
  rewrite (bind_run _ _ _ _ _ (zslFreeNode_run σ (header z) ltac:(apply Halloc; by left))).
  assert (∀ n, n ∈ ns → zl n ≠ header z) as Hne by (intros n Hn Heq; apply Hhd; rewrite <-Heq; by apply list_elem_of_fmap_2).
  destruct (freeLoop_run ns (zl <$> head ns) (freed (header z) σ) (Z.to_nat (zsl_length z))) as (σ' & Hrun & Hgone & Hfr & Hnone).
  - intros n Hn. rewrite freed_other by auto. apply Halloc. right. by apply list_elem_of_fmap_2.
  - done.
  - rewrite (ok_length _ _ _ Hok). lia.
  - intros k n Hn. rewrite (lev_same σ) by (apply freed_other, Hne; by eapply list_elem_of_lookup_2).
    pose proof (take_drop_middle _ _ _ Hn) as Hsplit. rewrite <-Hsplit in Hok.
    destruct (middle_node _ _ _ _ _ Hok) as (_ & _ & _ & _ & _ & Hlev). rewrite head_lookup, lookup_drop, Nat.add_0_r in Hlev. eauto.
  - done.
  - exists σ'. split_and!; [done| |].
    + intros a [->|(n & -> & Hn)%list_elem_of_fmap]%elem_of_cons; [apply Hnone, lookup_delete_eq|auto].
    + intros a Ha. unfold places in Ha. rewrite Hfr by set_solver. apply freed_other. set_solver.
Qed.

(** ** The theorems *)

(** C15. A sorted set in the skip list encoding is a map from elements to scores. Below
    2^32-1 elements, and whatever heights the random numbers give, zsetScore,
    zsetAdd with every combination of INCR, NX and XX, zsetDel, zsetRank in both
    directions and zsetLength never fault and give the results of that map, where
    the rank of an element is the number of elements with a smaller score, or with
    the same score and a smaller string; the dictionary, the links, spans and back
    pointers stay consistent, and no other memory is written. *)
Theorem zset_refines_map (junk : zskiplistLevel) (σ : zheap) (zset : zset) (ls : list loc) (m : gmap bytes double) :
  zset_at σ zset ls m → Z.of_nat (size m) < 2 ^ 32 - 1 → is_Some (randomLoop (zrandom σ) 1) →
  (∀ e, zsetScore zset e σ = Ok (m !! e, σ)) ∧
  (∀ s e incr nx xx, let '(m', res, new) := zaddSpec m s e incr nx xx in
     ∃ σ' zset' ls', zsetAdd junk zset s e incr nx xx σ = Ok ((zset', res, new), σ') ∧ zset_at σ' zset' ls' m' ∧ frame (zbrk σ :: ls) σ σ') ∧
  (∀ e, ∃ σ' zset' ls', zsetDel zset e σ = Ok ((zset', bool_decide (is_Some (m !! e))), σ') ∧ zset_at σ' zset' ls' (delete e m) ∧ frame ls σ σ') ∧
  (∀ e rev, zsetRank zset e rev σ = Ok (rankSpec m e rev, σ)) ∧
  zsetLength zset = Z.of_nat (size m).
Proof.
  intros Hat Hsize Hrand. split_and!.
  - intros e. by eapply zsetScore_run.
  - intros s e incr nx xx. by eapply zsetAdd_run.
  - intros e. by eapply zsetDel_run.
  - intros e rev. by eapply zsetRank_run.
  - by eapply zsetLength_run.
Qed.

Definition emptyHeap : zheap := mkZheap ∅ 0 [0; 0xFFFF; 1; 0xFFFF].
Definition noLevel : zskiplistLevel := mkLevel None 0.
Definition one : double := SpecFloat.S754_finite false 4503599627370496 (-52).
Definition eleA : bytes := ["a"%char].
Definition eleB : bytes := ["b"%char].
Definition two : double := SpecFloat.S754_finite false 4503599627370496 (-51).

(** The first element of a new sorted set. *)
Lemma zset_refines_map_witness : ∃ σ z, zslCreate noLevel emptyHeap = Ok (z, σ) ∧
  zsetScore (mkZset ∅ z) eleA σ = Ok (None, σ) ∧
  ∃ σ' zset' ls', zsetAdd noLevel (mkZset ∅ z) one eleA true false false σ = Ok ((zset', ZADD_ADDED, Some one), σ') ∧
    zset_at σ' zset' ls' {[eleA := one]}.
Proof.
  destruct (zslCreate_at noLevel emptyHeap) as (σ & z & Hrun & Hat & _ & Hr); [intros a _; apply lookup_empty|].
  destruct (zset_refines_map noLevel σ (mkZset ∅ z) _ ∅ Hat) as (Hscore & Hadd & _).
  - rewrite map_size_empty. lia.
  - rewrite Hr. by eexists.
  - exists σ, z. split; [done|]. split; [rewrite Hscore; by rewrite lookup_empty|].
    specialize (Hadd one eleA true false false). change (zaddSpec ∅ one eleA true false false) with ({[eleA := one]} : gmap bytes double, ZADD_ADDED, Some one) in Hadd.
    cbv beta iota in Hadd. destruct Hadd as (σ' & zset' & ls' & Hrun' & Hat' & _). exists σ', zset', ls'. split; [exact Hrun'|exact Hat'].
Defined.

(** C16. In a skip list of fewer than 2^32 nodes, ordered by scores that are numbers and
    then by elements, the search by a rank from 1 on, the searches by score (with
    bounds that are numbers, inclusive, exclusive or infinite) and, when all scores
    are equal, the searches by element return the first and the last node of exactly
    the nodes in the range. The three range deletions (by rank from 1 up to a last
    rank below 2^32) remove exactly those nodes from the list and their elements
    from the dictionary, free their memory, write to no memory but that of the list,
    leave an ordered list and return the number of removed nodes. *)
Theorem skiplist_ranges (σ : zheap) (z : zskiplist) (ns : list zn) (d : gmap bytes loc) :
  zslOk σ z ns → ordered ns → Z.of_nat (length ns) < 2 ^ 32 →
  (∀ rank, (1 ≤ rank)%nat → zslGetElementByRank z (Z.of_nat rank) σ = Ok (zl <$> ns !! (rank - 1)%nat, σ)) ∧
  (∀ r, numRange r →
     zslFirstInRange z r σ = Ok (zl <$> head (scoreRange r ns), σ) ∧
     zslLastInRange z r σ = Ok (zl <$> last (scoreRange r ns), σ) ∧
     ∃ A D, ns = A ++ scoreRange r ns ++ D ∧ removes σ z d ns (zslDeleteRangeByScore z r d) A (scoreRange r ns) D) ∧
  (∀ r, sameScores ns →
     zslFirstInLexRange z r σ = Ok (zl <$> head (lexRange r ns), σ) ∧
     zslLastInLexRange z r σ = Ok (zl <$> last (lexRange r ns), σ) ∧
     ∃ A D, ns = A ++ lexRange r ns ++ D ∧ removes σ z d ns (zslDeleteRangeByLex z r d) A (lexRange r ns) D) ∧
  (∀ start last, (1 ≤ start)%nat → Z.of_nat last < 2 ^ 32 →
     let k := (last + 1 - start)%nat in let rest := drop (start - 1) ns in
     removes σ z d ns (zslDeleteRangeByRank z (Z.of_nat start) (Z.of_nat last) d) (take (start - 1) ns) (take k rest) (drop k rest)).
Proof.
  intros Hok Hord Hsize. assert (Z.of_nat (length ns) < 2 ^ 63) as Hsize' by lia. split_and!.
  - intros rank Hr. by apply zslGetElementByRank_run.
  - intros r Hr. split_and!; [| |by apply zslDeleteRangeByScore_run].
    + apply firstBy_run; [done|done|by apply scoreRange_isRange| | |by apply scoreRange_empty];
        intros n nd _ Hs; unfold scoreGte, scoreLte; by rewrite Hs.
    + apply lastBy_run; [done|done|by apply scoreRange_isRange| | |by apply scoreRange_empty];
        intros n nd _ Hs; unfold scoreGte, scoreLte; by rewrite Hs.
  - intros r Hsame. split_and!; [| |by apply zslDeleteRangeByLex_run].
    + apply firstBy_run; [done|done|by apply lexRange_isRange| | |apply lexRange_empty];
        intros n nd He _; unfold lexGte, lexLte; by rewrite (eleOf_some _ _ He).
    + apply lastBy_run; [done|done|by apply lexRange_isRange| | |apply lexRange_empty];
        intros n nd He _; unfold lexGte, lexLte; by rewrite (eleOf_some _ _ He).
  - intros start last Hs Hl. by apply zslDeleteRangeByRank_run.
Qed.

(** The only node of a skip list, and what is left without it. *)
Lemma skiplist_ranges_witness : ∃ σ z x, zslGetElementByRank z 1 σ = Ok (Some x, σ) ∧
  zslFirstInRange z (mkRange dzero two false true) σ = Ok (Some x, σ) ∧
  zslLastInLexRange z (mkLexRange (Lex eleB) Maxstring false true) σ = Ok (None, σ) ∧
  ∃ z' σ', zslDeleteRangeByRank z 1 1 {[eleA := x]} σ = Ok ((z', ∅, 1), σ') ∧ zslOk σ' z' [].
Proof.
  destruct (zslCreate_run noLevel emptyHeap) as (σ0 & z0 & _ & Hok0 & _ & _ & Hr); [intros a _; apply lookup_empty|].
  destruct (zslInsert_ordered noLevel σ0 z0 [] one eleA Hok0) as (σ & z & A & B & h & HAB & _ & Hok & Hord & _);
    [split; [apply SSorted_nil|apply Forall_nil_2]|done|apply not_elem_of_nil|done|rewrite Hr; by eexists|].
  symmetry in HAB. apply app_nil in HAB as [-> ->]. set (x := zbrk σ0) in *.
  destruct (skiplist_ranges σ z [mkZn x one eleA h] {[eleA := x]} Hok Hord) as (Hrank & Hscore & Hlex & Hdel); [done|].
  destruct (Hscore (mkRange dzero two false true)) as (Hfirst & _); [done|].
  destruct (Hlex (mkLexRange (Lex eleB) Maxstring false true)) as (_ & Hlast & _).
  { intros a b ->%list_elem_of_singleton ->%list_elem_of_singleton. done. }
  destruct (Hdel 1%nat 1%nat) as (σ' & z' & Hrun & Hok' & _); [lia|lia|].
  exists σ, z, x. split_and!; [exact (Hrank 1%nat ltac:(lia))|exact Hfirst|exact Hlast|]. exists z', σ'. split; [|exact Hok'].
  change (foldl _ _ _) with (delete eleA ({[eleA := x]} : gmap bytes loc)) in Hrun. by rewrite delete_singleton_eq in Hrun.
Defined.
