(* ===== verification/SdsArgs.v ===== *)
(** * SdsArgs: quoting and splitting argument lines, src/src/sds.c

    [sdssplitargs] splits a line into arguments, with quotes and escapes; it reads
    inline requests and the configuration file.  [sdscatrepr] writes a string in
    quotes.  A line is a C string: reading at its end gives a NUL. *)

From Stdlib Require Import Ascii String ZifyBool.
From stdpp Require Import base tactics option strings numbers list.
From S2P Require Import Prelude Util.

Local Open Scope Z_scope.

(** ** Characters *)

(** [isspace] and [isprint] of the C locale. *)
Definition isspace (c : ascii) : bool := (code c =? 32) || ((9 <=? code c) && (code c <=? 13)).
Definition isprint (c : ascii) : bool := (32 <=? code c) && (code c <=? 126).

Definition is_hex_digit (c : ascii) : bool :=
  ((code "0" <=? code c) && (code c <=? code "9")) || ((code "a" <=? code c) && (code c <=? code "f")) ||
  ((code "A" <=? code c) && (code c <=? code "F")).

Definition hex_digit_to_int (c : ascii) : Z :=
  if (code "0" <=? code c) && (code c <=? code "9") then code c - code "0"
  else if (code "a" <=? code c) && (code c <=? code "f") then code c - code "a" + 10
  else if (code "A" <=? code c) && (code c <=? code "F") then code c - code "A" + 10
  else 0.

Definition chr (z : Z) : ascii := ascii_of_nat (Z.to_nat z).

Definition DQUOTE : ascii := chr 34.
Definition SQUOTE : ascii := chr 39.
Definition BACKSLASH : ascii := chr 92.
Definition CR : ascii := chr 13.
Definition LF : ascii := chr 10.
Definition TAB : ascii := chr 9.
Definition BS : ascii := chr 8.
Definition BEL : ascii := chr 7.

Notation "a =c b" := (bool_decide (a = b :> ascii)) (at level 70) : prog_scope.
Local Open Scope prog_scope.

(** The character at [p+i]. *)
Definition peek (p : bytes) (i : nat) : ascii := default NUL (p !! i).

(** The character of an escape. *)
Definition unescape (c : ascii) : ascii :=
  if c =c "n"%char then LF else if c =c "r"%char then CR else if c =c "t"%char then TAB
  else if c =c "b"%char then BS else if c =c "a"%char then BEL else c.

(** ** [sdssplitargs] *)

Inductive quotes := NoQuotes | InDouble | InSingle.

(** The loop [while(!done)]: the argument and the rest of the line, or [None] for
    [goto err]. *)
Fixpoint token (q : quotes) (p current : bytes) : option (bytes * bytes) :=
  match p with
  | [] => match q with NoQuotes => Some (current, []) | _ => None end
  | c :: p1 =>
      match q with
      | InDouble =>
          if (c =c BACKSLASH) && (peek p1 0 =c "x"%char) && is_hex_digit (peek p1 1) && is_hex_digit (peek p1 2) then
            match p1 with
            | _ :: h :: l :: p2 => token q p2 (current ++ [chr (hex_digit_to_int h * 16 + hex_digit_to_int l)])
            | _ => None
            end
          else if (c =c BACKSLASH) && negb (peek p1 0 =c NUL) then
            match p1 with
            | e :: p2 => token q p2 (current ++ [unescape e])
            | [] => None
            end
          else if c =c DQUOTE then
            if negb (peek p1 0 =c NUL) && negb (isspace (peek p1 0)) then None else Some (current, p1)
          else if c =c NUL then None
          else token q p1 (current ++ [c])
      | InSingle =>
          if (c =c BACKSLASH) && (peek p1 0 =c SQUOTE) then
            match p1 with
            | _ :: p2 => token q p2 (current ++ [SQUOTE])
            | [] => None
            end
          else if c =c SQUOTE then
            if negb (peek p1 0 =c NUL) && negb (isspace (peek p1 0)) then None else Some (current, p1)
          else if c =c NUL then None
          else token q p1 (current ++ [c])
      | NoQuotes =>
          if (c =c " "%char) || (c =c LF) || (c =c CR) || (c =c TAB) then Some (current, p1)
          else if c =c NUL then Some (current, p)
          else if c =c DQUOTE then token InDouble p1 current
          else if c =c SQUOTE then token InSingle p1 current
          else token NoQuotes p1 (current ++ [c])
      end
  end.

(** The loop that skips blanks. *)
Fixpoint skipBlanks (p : bytes) : bytes :=
  match p with
  | c :: p1 => if negb (c =c NUL) && isspace c then skipBlanks p1 else p
  | [] => []
  end.

(** The loop [while(1)]; one round for each argument. *)
Fixpoint splitLoop (fuel : nat) (p : bytes) (vector : list bytes) : res (option (list bytes)) :=
  match fuel with
  | O => Fault (AssertFailed "sdssplitargs: fuel")
  | S fuel =>
      let p := skipBlanks p in
      if peek p 0 =c NUL then Ok (Some vector)
      else match token NoQuotes p [] with
           | None => Ok None
           | Some (current, p) => splitLoop fuel p (vector ++ [current])
           end
  end.

Definition sdssplitargs (line : bytes) : res (option (list bytes)) := splitLoop (S (length line)) line [].

(** ** [sdscatrepr] *)

Definition hexDigit (d : Z) : ascii := if d <? 10 then chr (48 + d) else chr (87 + d).

Definition reprChar (c : ascii) : bytes :=
  if (c =c BACKSLASH) || (c =c DQUOTE) then [BACKSLASH; c]
  else if c =c LF then [BACKSLASH; "n"%char]
  else if c =c CR then [BACKSLASH; "r"%char]
  else if c =c TAB then [BACKSLASH; "t"%char]
  else if c =c BEL then [BACKSLASH; "a"%char]
  else if c =c BS then [BACKSLASH; "b"%char]
  else if isprint c then [c]
  else [BACKSLASH; "x"%char; hexDigit (code c / 16); hexDigit (code c mod 16)].

Definition sdscatrepr (s p : bytes) : bytes := s ++ [DQUOTE] ++ (p ≫= reprChar) ++ [DQUOTE].

(** ** Properties *)

(** What is left is shorter than the line. *)
Lemma token_length q p current a rest : token q p current = Some (a, rest) → (length rest ≤ length p)%nat.
Proof.
  revert q current. induction p as [p IH] using length_ind. intros q current.
  destruct p as [|c p1]; cbn [token]; [destruct q; naive_solver|].
  assert (∀ p2 q current, (length p2 ≤ length p1)%nat → token q p2 current = Some (a, rest) →
            (length rest ≤ length (c :: p1))%nat) as Hrec.
  { intros p2 q' cur' Hle Ht. apply IH in Ht; cbn; lia. }
  assert (length p1 ≤ length (c :: p1))%nat by (cbn; lia).
  destruct q; repeat case_match; simplify_eq; try done; intros; simplify_eq; try done;
    (eapply Hrec; [|done]); cbn; lia.
Qed.

(** The token loop reads one quoted character at a time. *)
Lemma token_reprChar c p current : token InDouble (reprChar c ++ p) current = token InDouble p (current ++ [c]).
Proof. destruct c as [[] [] [] [] [] [] [] []]; reflexivity. Qed.

Lemma token_repr s p current : token InDouble ((s ≫= reprChar) ++ p) current = token InDouble p (current ++ s).
Proof.
  revert current. induction s as [|c s IH]; intros current; [by rewrite app_nil_r|].
  rewrite bind_cons, <-(assoc_L (++)), token_reprChar, IH. by rewrite <-(assoc_L (++)).
Qed.

Lemma skipBlanks_length p : (length (skipBlanks p) ≤ length p)%nat.
Proof. induction p as [|c p IH]; cbn; [done|]. case_match; cbn; lia. Qed.

Lemma skipBlanks_head p : peek (skipBlanks p) 0 = NUL ∨ isspace (peek (skipBlanks p) 0) = false.
Proof.
  induction p as [|c p IH]; cbn; [by left|]. destruct (bool_decide_reflect (c = NUL)) as [->|Hne]; cbn; [by left|].
  destruct (isspace c) eqn:Hc; [done|]. right. done.
Qed.

(** An argument takes at least one character. *)
Lemma token_consumes p current a rest : peek p 0 ≠ NUL → isspace (peek p 0) = false →
  token NoQuotes p current = Some (a, rest) → (length rest < length p)%nat.
Proof.
  destruct p as [|c p1]; [done|]. cbn [peek]. change (peek (c :: p1) 0) with c. intros Hn Hs. cbn [token].
  replace ((c =c " "%char) || (c =c LF) || (c =c CR) || (c =c TAB)) with false.
  2:{ destruct c as [[] [] [] [] [] [] [] []]; by vm_compute in Hs. }
  rewrite (bool_decide_eq_false_2 (c = NUL)) by done.
  repeat case_match; intros Ht%token_length; cbn; lia.
Qed.

(** One round for each character is enough. *)
Lemma splitLoop_total fuel p vector : (length p < fuel)%nat → ∃ r, splitLoop fuel p vector = Ok r.
Proof.
  revert p vector. induction fuel as [|fuel IH]; intros p vector Hlt; [lia|]. cbn [splitLoop].
  destruct (bool_decide_reflect (peek (skipBlanks p) 0 = NUL)) as [_|Hne]; [by eexists|].
  destruct (skipBlanks_head p) as [?|Hs]; [done|].
  destruct (token NoQuotes (skipBlanks p) []) as [[a rest]|] eqn:Ht; [|by eexists].
  apply IH. apply token_consumes in Ht; [|done..]. pose proof (skipBlanks_length p). lia.
Qed.

Lemma sdssplitargs_total line : ∃ r, sdssplitargs line = Ok r.
Proof. apply splitLoop_total. lia. Qed.

(** Quoted arguments with a space between them. *)
Fixpoint joinArgs (args : list bytes) : bytes :=
  match args with
  | [] => []
  | [a] => sdscatrepr [] a
  | a :: args => sdscatrepr [] a ++ " "%char :: joinArgs args
  end.

Lemma token_quoted a p current : peek p 0 = NUL ∨ isspace (peek p 0) = true →
  token NoQuotes (sdscatrepr [] a ++ p) current = Some (current ++ a, p).
Proof.
  intros Hp. unfold sdscatrepr. cbn [app token]. cbn -[mbind peek]. rewrite <-(assoc_L (++)), token_repr. cbn -[peek].
  destruct Hp as [-> | ->]; [done|]. by rewrite andb_false_r.
Qed.

Lemma length_joinArgs args : (length args ≤ length (joinArgs args))%nat.
Proof.
  induction args as [|a [|b args] IH]; [done|cbn; lia|].
  change (joinArgs (a :: b :: args)) with (sdscatrepr [] a ++ " "%char :: joinArgs (b :: args)).
  rewrite length_app. cbn [length] in *. lia.
Qed.

Lemma splitLoop_quoted args fuel vector : (length args < fuel)%nat →
  splitLoop fuel (joinArgs args) vector = Ok (Some (vector ++ args)) ∧
  splitLoop fuel (" "%char :: joinArgs args) vector = Ok (Some (vector ++ args)).
Proof.
  revert fuel vector. induction args as [|a args IH]; intros fuel vector Hlt; (destruct fuel as [|fuel]; [cbn in Hlt; lia|]).
  { cbn. by rewrite app_nil_r. }
  enough (splitLoop (S fuel) (joinArgs (a :: args)) vector = Ok (Some (vector ++ a :: args))) as Hs by done.
  cbn [length] in Hlt. cbn [splitLoop].
  assert (skipBlanks (joinArgs (a :: args)) = joinArgs (a :: args)) as -> by by destruct args.
  replace (bool_decide _) with false by by destruct args.
  destruct args as [|b args].
  - cbn [joinArgs]. pose proof (token_quoted a [] [] ltac:(by left)) as Ht. rewrite app_nil_r in Ht. rewrite Ht.
    destruct fuel; [lia|]. done.
  - change (joinArgs (a :: b :: args)) with (sdscatrepr [] a ++ " "%char :: joinArgs (b :: args)).
    rewrite token_quoted by by right. cbn [app]. rewrite (proj2 (IH fuel (vector ++ [a]) ltac:(cbn in *; lia))).
    by rewrite <-(assoc_L (++)).
Qed.

Lemma sdssplitargs_joinArgs args : sdssplitargs (joinArgs args) = Ok (Some args).
Proof. apply (splitLoop_quoted args). pose proof (length_joinArgs args). lia. Qed.

(** The quoted form has only printable characters. *)
Lemma reprChar_print c : forallb isprint (reprChar c) = true.
Proof. destruct c as [[] [] [] [] [] [] [] []]; reflexivity. Qed.

Lemma joinArgs_print args : Forall isprint (joinArgs args).
Proof.
  assert (∀ a, Forall isprint (sdscatrepr [] a)) as Hq.
  { intros a. unfold sdscatrepr. cbn [app]. constructor; [done|]. apply Forall_app. split; [|by repeat constructor].
    apply Forall_bind, Forall_true. intros c. apply forallb_True. by rewrite reprChar_print. }
  induction args as [|a [|b args] IH]; [constructor|apply Hq|].
  change (joinArgs (a :: b :: args)) with (sdscatrepr [] a ++ " "%char :: joinArgs (b :: args)).
  apply Forall_app. split; [apply Hq|]. constructor; [done|]. apply IH.
Qed.
