(* ===== verification/Protocol.v ===== *)
(** * Protocol: reading requests from the query buffer, src/src/networking.c

    The query buffer of a client, what is known of the request in it, and the two
    parsers, [processInlineBuffer] and [processMultibulkBuffer], with the loop of
    [processInputBuffer] that calls them.  The loop here collects the requests
    instead of running them (Backend.v runs them); the Gopher mode is off.  An
    access outside the buffer or outside the [argv] array is a fault.
    [catAppendOnlyGenericCommand] of aof.c writes requests. *)

From Stdlib Require Import Ascii String ZifyBool.
From stdpp Require Import base tactics option strings numbers list.
From S2P Require Import Prelude Util Object SdsArgs.

Local Open Scope Z_scope.
Local Open Scope prog_scope.

Definition PROTO_INLINE_MAX_SIZE : Z := 1024 * 64.
Definition PROTO_MBULK_BIG_ARG : Z := 1024 * 32.

Inductive request_type := REQ_NONE | PROTO_REQ_INLINE | PROTO_REQ_MULTIBULK.

#[global] Instance request_type_eq_dec : EqDecision request_type.
Proof. solve_decision. Defined.

(** The fields of [client] the parsers use.  [argv_size] is the number of elements
    allocated for [argv]; [close] is [CLIENT_CLOSE_AFTER_REPLY]; [errors] are the
    error replies. *)
Record input := mkInput {
  querybuf : bytes;
  qb_pos : Z;
  reqtype : request_type;
  argv : list robj;
  argv_size : Z;
  multibulklen : Z;
  bulklen : Z;
  close : bool;
  errors : list string }.

(** The fields [createClient] sets. *)
Definition newInput : input := mkInput [] 0 REQ_NONE [] 0 0 (-1) false [].

Definition set_buf (b : bytes) (pos : Z) (s : input) : input :=
  mkInput b pos (reqtype s) (argv s) (argv_size s) (multibulklen s) (bulklen s) (close s) (errors s).
Definition set_pos (pos : Z) (s : input) : input := set_buf (querybuf s) pos s.
Definition set_reqtype (r : request_type) (s : input) : input :=
  mkInput (querybuf s) (qb_pos s) r (argv s) (argv_size s) (multibulklen s) (bulklen s) (close s) (errors s).
Definition set_argv (a : list robj) (n : Z) (s : input) : input :=
  mkInput (querybuf s) (qb_pos s) (reqtype s) a n (multibulklen s) (bulklen s) (close s) (errors s).
Definition set_multibulklen (n : Z) (s : input) : input :=
  mkInput (querybuf s) (qb_pos s) (reqtype s) (argv s) (argv_size s) n (bulklen s) (close s) (errors s).
Definition set_bulklen (n : Z) (s : input) : input :=
  mkInput (querybuf s) (qb_pos s) (reqtype s) (argv s) (argv_size s) (multibulklen s) n (close s) (errors s).

(** [addReplyError] and [setProtocolError]. *)
Definition protocolError (msg : string) : M input unit :=
  modify (λ s, mkInput (querybuf s) (qb_pos s) (reqtype s) (argv s) (argv_size s) (multibulklen s) (bulklen s)
                 true (errors s ++ [msg])).

(** ** Strings *)

(** [strchr(p, c)] as an offset: the search ends at a NUL. *)
Fixpoint strchr (p : bytes) (c : ascii) : option Z :=
  match p with
  | [] => None
  | a :: p => if a =c c then Some 0 else if a =c NUL then None else i ← strchr p c; Some (i + 1)
  end.

Definition sdslen (s : bytes) : Z := Z.of_nat (length s).

Definition sdsrange (s : bytes) (start end_ : Z) : bytes :=
  let len := sdslen s in
  if len =? 0 then s else
  let start := if start <? 0 then Z.max (len + start) 0 else start in
  let end_ := if end_ <? 0 then Z.max (len + end_) 0 else end_ in
  let newlen := if end_ <? start then 0 else end_ - start + 1 in
  let '(start, newlen) :=
    if negb (newlen =? 0) then
      if len <=? start then (start, 0)
      else if len <=? end_ then (start, if len - 1 <? start then 0 else len - 1 - start + 1)
      else (start, newlen)
    else (0, newlen) in
  take (Z.to_nat newlen) (drop (Z.to_nat start) s).

Section Parser.
Context (proto_max_bulk_len client_max_querybuf_len : Z).

(** The bytes from [querybuf+qb_pos] on. *)
Definition unread (s : input) : bytes := drop (Z.to_nat (qb_pos s)) (querybuf s).

(** The pointer [querybuf+qb_pos], with the bytes that follow it in the buffer, whose number
    is [sdslen(querybuf)-qb_pos].  A position after the terminator of the buffer is a fault:
    the pointer would be outside and the unsigned difference would wrap around. *)
Definition bufPtr : M input bytes :=
  s ← get;
  if (0 <=? qb_pos s) && (qb_pos s <=? sdslen (querybuf s)) then mret (unread s)
  else fail (BadPointer "querybuf").

(** The [n] bytes at [p+off], which must be inside the buffer. *)
Definition bufRead (p : bytes) (off n : Z) : M input bytes :=
  if (0 <=? off) && (0 <=? n) && (off + n <=? sdslen p) then mret (take (Z.to_nat n) (drop (Z.to_nat off) p))
  else fail (BadPointer "querybuf").

(** [querybuf[qb_pos]], which can be the terminator. *)
Definition charAtPos : M input ascii := p ← bufPtr; mret (peek p 0).

(** [argv[argc++] = o] *)
Definition pushArg (o : robj) : M input unit :=
  s ← get;
  if Z.of_nat (length (argv s)) <? argv_size s then put (set_argv (argv s ++ [o]) (argv_size s) s)
  else fail (BadPointer "argv").

(** ** Inline requests *)

Fixpoint pushArgs (args : list bytes) : M input unit :=
  match args with
  | [] => mret tt
  | a :: args => pushArg (createRawStringObject a) ;; pushArgs args
  end.

Definition processInlineBuffer : M input bool :=
  p ← bufPtr;
  match strchr p LF with
  | None =>
      (if PROTO_INLINE_MAX_SIZE <? sdslen p then
         protocolError "too big inline request" else mret tt) ;;
      mret false
  | Some newline =>
      cr ← (if newline =? 0 then mret false else c ← bufRead p (newline - 1) 1; mret (bool_decide (c = [CR])));
      let querylen := if cr : bool then newline - 1 else newline in
      let linefeed_chars := if cr then 2 else 1 in
      aux ← bufRead p 0 querylen;
      match sdssplitargs aux with
      | Fault f => fail f
      | Ok None => protocolError "unbalanced quotes in request" ;; mret false
      | Ok (Some args) =>
          modify (λ s, set_pos (qb_pos s + querylen + linefeed_chars) s) ;;
          let argc := Z.of_nat (length args) in
          modify (λ s, set_argv [] (if argc =? 0 then argv_size s else argc) s) ;;
          pushArgs args ;;
          mret true
      end
  end.

(** ** Multibulk requests *)

(** How a part of [processMultibulkBuffer] ends: it goes on, leaves the loop, or
    returns [C_OK] or [C_ERR]. *)
Inductive flow := Continue | BreakLoop | ReturnOk | ReturnErr.

(** The search of the line end at the start of both parts: the offset of the CR
    when the buffer has the LF too. *)
Definition findLine (tooBig : string) : M input (flow + Z) :=
  p ← bufPtr;
  match strchr p CR with
  | None =>
      if PROTO_INLINE_MAX_SIZE <? sdslen p then protocolError tooBig ;; mret (inl ReturnErr)
      else mret (inl BreakLoop)
  | Some newline =>
      if sdslen p - 2 <? newline then mret (inl BreakLoop) else mret (inr newline)
  end.

(** The text between the first character and the CR. *)
Definition lineNumber (newline : Z) : M input (option Z) :=
  p ← bufPtr;
  text ← bufRead p 1 (newline - 1);
  mret (string2ll text).

Definition readMultibulkLen : M input flow :=
  s ← get;
  serverAssert (bool_decide (argv s = [])) "processMultibulkBuffer: argc" ;;
  line ← findLine "too big mbulk count string";
  match line with
  | inl _ => mret ReturnErr
  | inr newline =>
      c ← charAtPos;
      serverAssert (c =c "*"%char) "processMultibulkBuffer: star" ;;
      ll ← lineNumber newline;
      match ll with
      | None => protocolError "invalid multibulk length" ;; mret ReturnErr
      | Some ll =>
          if 1024 * 1024 <? ll then protocolError "invalid multibulk length" ;; mret ReturnErr else
          modify (λ s, set_pos (qb_pos s + newline + 2) s) ;;
          if ll <=? 0 then mret ReturnOk else
          modify (set_multibulklen ll) ;;
          modify (λ s, set_argv [] ll s) ;;
          mret Continue
      end
  end.

Definition readBulkLen : M input flow :=
  s ← get;
  if negb (bulklen s =? -1) then mret Continue else
  line ← findLine "too big bulk count string";
  match line with
  | inl f => mret f
  | inr newline =>
      c ← charAtPos;
      if negb (c =c "$"%char) then protocolError "expected '$'" ;; mret ReturnErr else
      ll ← lineNumber newline;
      match ll with
      | None => protocolError "invalid bulk length" ;; mret ReturnErr
      | Some ll =>
          if (ll <? 0) || (proto_max_bulk_len <? ll) then protocolError "invalid bulk length" ;; mret ReturnErr else
          modify (λ s, set_pos (qb_pos s + newline + 2) s) ;;
          p ← bufPtr;
          (if (PROTO_MBULK_BIG_ARG <=? ll) && (sdslen p <=? ll + 2) then
             modify (λ s, set_buf (sdsrange (querybuf s) (qb_pos s) (-1)) 0 s)
           else mret tt) ;;
          modify (set_bulklen ll) ;;
          mret Continue
      end
  end.

Definition readBulk : M input flow :=
  p ← bufPtr;
  s ← get;
  if sdslen p <? bulklen s + 2 then mret BreakLoop else
  (if (qb_pos s =? 0) && (PROTO_MBULK_BIG_ARG <=? bulklen s) && (sdslen (querybuf s) =? bulklen s + 2) then
     arg ← bufRead (querybuf s) 0 (sdslen (querybuf s) - 2);
     pushArg (createRawStringObject arg) ;;
     modify (set_buf [] (qb_pos s))
   else
     arg ← bufRead p 0 (bulklen s);
     pushArg (createStringObject arg) ;;
     modify (λ s, set_pos (qb_pos s + bulklen s + 2) s)) ;;
  modify (set_bulklen (-1)) ;;
  modify (λ s, set_multibulklen (multibulklen s - 1) s) ;;
  mret Continue.

(** The loop [while(c->multibulklen)]; every round that goes on takes one from
    [multibulklen]. *)
Fixpoint bulkLoop (fuel : nat) : M input flow :=
  n ← gets multibulklen;
  if n =? 0 then mret BreakLoop else
  match fuel with
  | O => fail (AssertFailed "processMultibulkBuffer: fuel")
  | S fuel =>
      f ← readBulkLen;
      match f with
      | Continue => f ← readBulk; match f with Continue => bulkLoop fuel | _ => mret f end
      | _ => mret f
      end
  end.

Definition processMultibulkBuffer : M input bool :=
  n ← gets multibulklen;
  f ← (if n =? 0 then readMultibulkLen else mret Continue);
  match f with
  | ReturnOk => mret true
  | Continue =>
      n ← gets multibulklen;
      serverAssert (0 <? n) "processMultibulkBuffer: multibulklen" ;;
      f ← bulkLoop (Z.to_nat n);
      match f with
      | ReturnErr => mret false
      | _ => n ← gets multibulklen; mret (n =? 0)
      end
  | _ => mret false
  end.

(** ** The query buffer *)

Definition resetInput : M input unit :=
  modify (λ s, mkInput (querybuf s) (qb_pos s) REQ_NONE [] (argv_size s) 0 (-1) (close s) (errors s)).

(** One round of the loop of [processInputBuffer]: [None] at a [break]; otherwise the
    request, which is empty for a multibulk length of zero or less. *)
Definition nextRequest : M input (option (list robj)) :=
  s ← get;
  if close s then mret None else
  (if bool_decide (reqtype s = REQ_NONE) then
     c ← charAtPos;
     modify (set_reqtype (if c =c "*"%char then PROTO_REQ_MULTIBULK else PROTO_REQ_INLINE))
   else mret tt) ;;
  r ← gets reqtype;
  ok ← (match r with
        | PROTO_REQ_INLINE => processInlineBuffer
        | PROTO_REQ_MULTIBULK => processMultibulkBuffer
        | REQ_NONE => fail (AssertFailed "Unknown request type")
        end);
  if (ok : bool) then a ← gets argv; resetInput ;; mret (Some a) else mret None.

(** The loop, with one round for each byte at most. *)
Fixpoint requestLoop (fuel : nat) : M input (list (list robj)) :=
  s ← get;
  if negb (qb_pos s <? sdslen (querybuf s)) then mret [] else
  match fuel with
  | O => fail (AssertFailed "processInputBuffer: fuel")
  | S fuel =>
      r ← nextRequest;
      match r with
      | None => mret []
      | Some a => rs ← requestLoop fuel; mret (if bool_decide (a = []) then rs else a :: rs)
      end
  end.

Definition readRequests : M input (list (list robj)) :=
  s ← get;
  rs ← requestLoop (length (querybuf s));
  modify (λ s, if negb (qb_pos s =? 0) then set_buf (sdsrange (querybuf s) (qb_pos s) (-1)) 0 s else s) ;;
  mret rs.

(** [readQueryFromClient] when the socket has the bytes [data]; [None] when the client
    is freed because its buffer is too long. *)
Definition readQueryFromClient (data : bytes) : M input (option (list (list robj))) :=
  modify (λ s, set_buf (querybuf s ++ data) (qb_pos s) s) ;;
  s ← get;
  if client_max_querybuf_len <? sdslen (querybuf s) then mret None else
  rs ← readRequests; mret (Some rs).

End Parser.

(** ** Writing requests *)

Definition CRLF : bytes := [CR; LF].

(** The bytes of an argument: [getDecodedObject]. *)
Definition catBulk (a : bytes) : bytes := ["$"%char] ++ ll2buf 31 (sdslen a) ++ CRLF ++ a ++ CRLF.

Definition catAppendOnlyGenericCommand (dst : bytes) (args : list bytes) : bytes :=
  dst ++ ["*"%char] ++ ll2buf 31 (Z.of_nat (length args)) ++ CRLF ++ (args ≫= catBulk).
