(* ===== verification/ProtocolProps.v ===== *)
(** * ProtocolProps: requests are read back as they were written

    A stream of well-formed requests gives these requests, however the network cuts
    it into pieces; no stream of bytes makes the parser fail an assertion, leave the
    buffer or overrun the argument array. *)

From Stdlib Require Import Ascii String ZifyBool.
From stdpp Require Import base tactics option strings numbers list.
From S2P Require Import Prelude Util Object SdsArgs Protocol.

Local Open Scope Z_scope.
Local Open Scope prog_scope.

(** ** Strings *)

Lemma strchr_app (p q : bytes) c : c ∉ p → NUL ∉ p → strchr (p ++ c :: q) c = Some (Z.of_nat (length p)).
Proof.
  intros Hc Hn. induction p as [|a p IH]; cbn; [by rewrite bool_decide_eq_true_2|].
  apply not_elem_of_cons in Hc as [Hac Hc], Hn as [Hna Hn].
  rewrite !bool_decide_eq_false_2, IH by done. cbn. f_equal. lia.
Qed.

Lemma strchr_None (p : bytes) c : c ∉ p → strchr p c = None.
Proof.
  intros Hc. induction p as [|a p IH]; cbn; [done|]. apply not_elem_of_cons in Hc as [Hac Hc].
  rewrite bool_decide_eq_false_2, IH by done. by case_match.
Qed.

Lemma strchr_Some (p : bytes) c i : strchr p c = Some i → ∃ q r, p = q ++ c :: r ∧ i = Z.of_nat (length q).
Proof.
  revert i. induction p as [|a p IH]; intros i; cbn; [done|].
  destruct (bool_decide_reflect (a = c)) as [->|Hne]; [intros [= <-]; by exists [], p|].
  case_match; [done|]. destruct (strchr p c) as [j|]; [|done]. intros [= <-].
  destruct (IH j) as (q & r & -> & ->); [done|]. exists (a :: q), r. split; [done|]. cbn. lia.
Qed.

Lemma sdsrange_drop s pos : 0 ≤ pos ≤ sdslen s → sdsrange s pos (-1) = drop (Z.to_nat pos) s.
Proof.
  unfold sdsrange. change (-1 <? 0) with true. intros Hpos. destruct (Z.eqb_spec (sdslen s) 0) as [Hz|Hz].
  { unfold sdslen in *. destruct s; [by rewrite drop_nil|cbn in *; lia]. }
  replace (pos <? 0) with false by lia. rewrite Z.max_l by (unfold sdslen in *; lia).
  destruct (Z.ltb_spec (sdslen s + -1) pos) as [Hlt|Hle].
  - rewrite (drop_ge s (Z.to_nat pos)); [done|]. unfold sdslen in *. lia.
  - replace (_ - pos + 1 =? 0) with false by lia. cbn [negb].
    rewrite (proj2 (Z.leb_gt (sdslen s) pos)), (proj2 (Z.leb_gt (sdslen s) (sdslen s + -1))) by lia.
    apply take_ge. rewrite length_drop. unfold sdslen in *. lia.
Qed.

(** ** Lines *)

(** The position is inside the buffer. *)
Definition inside (s : input) : Prop := 0 ≤ qb_pos s ≤ sdslen (querybuf s).

Lemma length_unread s : inside s → Z.of_nat (length (unread s)) = sdslen (querybuf s) - qb_pos s.
Proof. unfold inside, unread, sdslen. intros. rewrite length_drop. lia. Qed.

Lemma bufPtr_run s : inside s → bufPtr s = Ok (unread s, s).
Proof. intros [H1 H2]. unfold bufPtr. rewrite bind_get. by rewrite (proj2 (Z.leb_le _ _) H1), (proj2 (Z.leb_le _ _) H2). Qed.

Lemma bufRead_run p off n s : 0 ≤ off → 0 ≤ n → off + n ≤ sdslen p →
  bufRead p off n s = Ok (take (Z.to_nat n) (drop (Z.to_nat off) p), s).
Proof. intros. unfold bufRead. by replace (_ && _) with true by lia. Qed.

Lemma charAtPos_run s : inside s → charAtPos s = Ok (peek (unread s) 0, s).
Proof. intros Hin. unfold charAtPos. by rewrite (bind_run _ _ _ _ _ (bufPtr_run s Hin)). Qed.

(** Moving the position over the first bytes. *)
Lemma unread_set_pos s (p q : bytes) n : inside s → unread s = p ++ q → n = Z.of_nat (length p) →
  inside (set_pos (qb_pos s + n) s) ∧ unread (set_pos (qb_pos s + n) s) = q.
Proof.
  intros Hin Hu ->. pose proof (length_unread s Hin) as Hl. rewrite Hu, length_app in Hl.
  unfold inside, unread in *. cbn. split; [lia|]. rewrite Z2Nat.inj_add, Nat2Z.id by lia.
  by rewrite <-drop_drop, Hu, drop_app_length.
Qed.

Lemma unread_trim s : inside s → sdsrange (querybuf s) (qb_pos s) (-1) = unread s.
Proof. apply sdsrange_drop. Qed.

(** Two ways to cut the same bytes. *)
Lemma app_cut {A} (b t p q : list A) : b ++ t = p ++ q →
  (∃ r, b = p ++ r ∧ r ++ t = q) ∨ (t ≠ [] ∧ (length b < length p)%nat ∧ b = take (length b) p).
Proof.
  intros Heq. destruct (decide (length p ≤ length b)%nat) as [Hle|Hlt].
  - left. exists (drop (length p) b). apply (f_equal (take (length p))) in Heq as Hp.
    rewrite take_app_le, take_app_length in Hp by done. assert (b = p ++ drop (length p) b) as Hb by (rewrite <-Hp at 1; by rewrite take_drop).
    split; [done|]. apply (app_inv_head p). by rewrite <-Heq, (assoc_L (++)), <-Hb.
  - right. split_and!; [|lia|].
    + intros ->. apply (f_equal length) in Heq. rewrite !length_app in Heq. cbn in Heq. lia.
    + apply (f_equal (take (length b))) in Heq. rewrite take_app_length, take_app_le in Heq by lia. done.
Qed.

(** A line that ends with CR LF is found when it is whole; otherwise there is more
    to come. *)
Lemma findLine_run msg s todo L rest : inside s → unread s ++ todo = L ++ CRLF ++ rest →
  CR ∉ L → NUL ∉ L → (length L ≤ 100)%nat →
  (∃ rest', unread s = L ++ CRLF ++ rest' ∧ rest' ++ todo = rest ∧
            findLine msg s = Ok (inr (Z.of_nat (length L)), s)) ∨
  (todo ≠ [] ∧ findLine msg s = Ok (inl BreakLoop, s)).
Proof.
  intros Hin Heq Hcr Hnul Hlen. unfold findLine.
  rewrite (bind_run _ _ _ _ _ (bufPtr_run s Hin)). unfold sdslen. unfold CRLF in Heq. cbn [app] in Heq.
  change (L ++ CR :: LF :: rest) with (L ++ [CR; LF] ++ rest) in Heq. rewrite (assoc_L (++)) in Heq.
  apply app_cut in Heq as [(r & Hu & Hr)|(Ht & Hlt & Hu)].
  - left. exists r. rewrite Hu, <-(assoc_L (++)). split_and!; [done..|]. cbn [app].
    rewrite strchr_app by done. rewrite (proj2 (Z.ltb_ge _ _)); [done|]. rewrite length_app. cbn. lia.
  - right. split; [done|]. rewrite length_app in Hlt. cbn in Hlt.
    destruct (decide (length (unread s) ≤ length L)%nat) as [Hle|Hgt].
    + rewrite take_app_le in Hu by done. rewrite strchr_None.
      * rewrite (proj2 (Z.ltb_ge _ _)); [done|]. unfold PROTO_INLINE_MAX_SIZE. lia.
      * rewrite Hu. intros (? & ? & ?)%elem_of_take. apply Hcr. by eapply list_elem_of_lookup_2.
    + replace (length (unread s)) with (S (length L)) in Hu by lia.
      replace (S (length L)) with (length L + 1)%nat in Hu by lia. rewrite take_app_add in Hu. cbn in Hu.
      replace (strchr (unread s) CR) with (Some (Z.of_nat (length L))) by (rewrite Hu; by rewrite strchr_app).
      rewrite (proj2 (Z.ltb_lt _ _)); [done|]. lia.
Qed.

(** ** Numbers *)

Lemma decimal_plain n c : 0 ≤ n → is_digit c = false → c ∉ decimal n.
Proof.
  intros Hn Hc Hin. rewrite decimal_nonneg in Hin by done. pose proof (dec_digits (Z.to_nat (digits10 n)) n) as Hd.
  rewrite Forall_forall in Hd. apply Hd in Hin. congruence.
Qed.

Lemma lineNumber_run s c n r : inside s → 0 ≤ n ≤ LLONG_MAX → unread s = c :: decimal n ++ CRLF ++ r →
  lineNumber (Z.of_nat (length (c :: decimal n))) s = Ok (Some n, s).
Proof.
  intros Hin Hn Hu. unfold lineNumber. rewrite (bind_run _ _ _ _ _ (bufPtr_run s Hin)), Hu.
  erewrite bind_run by (apply bufRead_run; [lia|cbn [length]; lia|unfold sdslen; cbn [length]; rewrite length_app; lia]).
  change (drop (Z.to_nat 1) (c :: decimal n ++ CRLF ++ r)) with (decimal n ++ CRLF ++ r). cbn [length]. replace (Z.to_nat (_ - 1)) with (length (decimal n)) by lia. rewrite take_app_length.
  unfold mret, M_ret. do 2 f_equal. apply string2ll_decimal. split; [|done]. unfold LLONG_MIN. lia.
Qed.

Lemma charAtPos_cons s c r : inside s → unread s = c :: r → charAtPos s = Ok (c, s).
Proof. intros Hin Hu. by rewrite charAtPos_run, Hu. Qed.

(** The line of a number after one character. *)
Lemma numberLine_run msg s todo c n rest : inside s → 0 ≤ n ≤ LLONG_MAX → c ≠ CR → c ≠ NUL →
  unread s ++ todo = c :: decimal n ++ CRLF ++ rest →
  (∃ rest', unread s = c :: decimal n ++ CRLF ++ rest' ∧ rest' ++ todo = rest ∧
     findLine msg s = Ok (inr (Z.of_nat (length (c :: decimal n))), s)) ∨
  (todo ≠ [] ∧ findLine msg s = Ok (inl BreakLoop, s)).
Proof.
  intros Hin Hn Hcr Hnul Heq. apply (findLine_run msg s todo (c :: decimal n) rest); [done..| | |].
  - apply not_elem_of_cons. split; [done|]. apply decimal_plain; [lia|done].
  - apply not_elem_of_cons. split; [done|]. apply decimal_plain; [lia|done].
  - pose proof (length_decimal n). unfold LLONG_MIN in *. cbn. lia.
Qed.

(** ** Multibulk requests *)

Section Requests.
Context (proto_max_bulk_len client_max_querybuf_len : Z).
Abbreviation readBulkLen := (readBulkLen proto_max_bulk_len).
Abbreviation bulkLoop := (bulkLoop proto_max_bulk_len).
Abbreviation processMultibulkBuffer := (processMultibulkBuffer proto_max_bulk_len).
Abbreviation nextRequest := (nextRequest proto_max_bulk_len).
Abbreviation requestLoop := (requestLoop proto_max_bulk_len).
Abbreviation readRequests := (readRequests proto_max_bulk_len).

Definition validArg (a : bytes) : Prop := sdslen a ≤ proto_max_bulk_len ∧ sdslen a ≤ LLONG_MAX.

(** [k] arguments are missing after [don]; [bl] is the length of the next one, or -1. *)
Record reading (s : input) (don : list bytes) (k : nat) (bl : Z) : Prop := {
  rd_inside : inside s;
  rd_type : reqtype s = PROTO_REQ_MULTIBULK;
  rd_argv : Forall2 string_obj (argv s) don;
  rd_count : multibulklen s = Z.of_nat k;
  rd_bulk : bulklen s = bl;
  rd_size : argv_size s = Z.of_nat (length don + k);
  rd_open : close s = false }.

(** The bytes that are not read yet, with those still to come, are the rest of the
    request and then [tail]. *)
Definition midRequest (s : input) (todo : bytes) (don rest : list bytes) (tail : bytes) : Prop :=
  (reading s don (length rest) (-1) ∧ unread s ++ todo = (rest ≫= catBulk) ++ tail) ∨
  (∃ a rest', rest = a :: rest' ∧ reading s don (length rest) (sdslen a) ∧
     unread s ++ todo = a ++ CRLF ++ (rest' ≫= catBulk) ++ tail).

Lemma catBulk_decimal a : sdslen a ≤ LLONG_MAX → catBulk a = "$"%char :: decimal (sdslen a) ++ CRLF ++ a ++ CRLF.
Proof.
  intros Ha. unfold catBulk. rewrite ll2buf_decimal; [done|lia|]. unfold LLONG_MIN, sdslen in *. lia.
Qed.

Lemma readBulkLen_run s todo don a rest tail : validArg a →
  reading s don (length (a :: rest)) (-1) → unread s ++ todo = ((a :: rest) ≫= catBulk) ++ tail →
  (∃ s', readBulkLen s = Ok (Continue, s') ∧ reading s' don (length (a :: rest)) (sdslen a) ∧
     unread s' ++ todo = a ++ CRLF ++ (rest ≫= catBulk) ++ tail) ∨
  (todo ≠ [] ∧ readBulkLen s = Ok (BreakLoop, s)).
Proof.
  intros [Ha Hll] [Hin Ht Hargv Hn Hbl Hsz Hop] Heq. rewrite bind_cons, catBulk_decimal in Heq by done.
  cbn [app] in Heq. rewrite <-!(assoc_L (++)) in Heq. unfold Protocol.readBulkLen.
  rewrite bind_get. rewrite Hbl. cbn [Z.eqb negb Pos.eqb].
  destruct (numberLine_run "too big bulk count string" s todo "$"%char (sdslen a) (a ++ CRLF ++ (rest ≫= catBulk) ++ tail))
    as [(r & Hu & Hr & Hrun)|[Htodo Hrun]]; [done|unfold sdslen in *; lia|done..| |].
  2:{ right. split; [done|]. by rewrite (bind_run _ _ _ _ _ Hrun). }
  left. rewrite (bind_run _ _ _ _ _ Hrun). cbn beta iota. rewrite (bind_run _ _ _ _ _ (charAtPos_cons _ _ _ Hin Hu)).
  cbn [bool_decide negb]. rewrite bool_decide_eq_true_2 by done. cbn [negb].
  rewrite (bind_run _ _ _ _ _ (lineNumber_run s "$"%char (sdslen a) r Hin ltac:(unfold sdslen in *; lia) Hu)). cbn beta iota.
  replace (_ || _) with false by (unfold sdslen in *; lia).
  destruct (unread_set_pos s ("$"%char :: decimal (sdslen a) ++ CRLF) r (Z.of_nat (length ("$"%char :: decimal (sdslen a))) + 2))
    as [Hin1 Hu1]; [done|by cbn [app]; rewrite <-(assoc_L (++))|cbn; rewrite length_app; cbn; lia|].
  rewrite Z.add_assoc in Hin1, Hu1. rewrite bind_modify.
  set (s1 := set_pos _ s) in *. rewrite (bind_run _ _ _ _ _ (bufPtr_run s1 Hin1)).
  set (s2 := if (PROTO_MBULK_BIG_ARG <=? sdslen a) && (sdslen (unread s1) <=? sdslen a + 2)
             then set_buf (sdsrange (querybuf s1) (qb_pos s1) (-1)) 0 s1 else s1).
  rewrite (bind_run _ _ _ tt s2) by (unfold s2; by case_match).
  exists (set_bulklen (sdslen a) s2). split; [done|].
  assert (inside s2 ∧ unread s2 = r ∧ reqtype s2 = reqtype s ∧ argv s2 = argv s ∧ multibulklen s2 = multibulklen s ∧
          argv_size s2 = argv_size s ∧ close s2 = close s) as (Hin2 & Hu2 & ? & ? & ? & ? & ?).
  { unfold s2. case_match; [|done]. rewrite sdsrange_drop by apply Hin1. fold (unread s1). rewrite Hu1.
    split_and!; [|done..]. split; cbn; unfold sdslen; lia. }
  clearbody s2. split; [|by change (unread (set_bulklen _ s2)) with (unread s2); rewrite Hu2].
  cbn in Hn, Hsz. split; cbn; try congruence. done.
Qed.

Lemma pushArg_run s o : Z.of_nat (length (argv s)) < argv_size s →
  pushArg o s = Ok (tt, set_argv (argv s ++ [o]) (argv_size s) s).
Proof.
  intros Hlt. unfold pushArg. rewrite bind_get.
  by rewrite (proj2 (Z.ltb_lt _ _)).
Qed.

Lemma readBulk_run s todo don a rest tail :
  reading s don (length (a :: rest)) (sdslen a) → unread s ++ todo = a ++ CRLF ++ (rest ≫= catBulk) ++ tail →
  (∃ s', readBulk s = Ok (Continue, s') ∧ reading s' (don ++ [a]) (length rest) (-1) ∧
     unread s' ++ todo = (rest ≫= catBulk) ++ tail) ∨
  (todo ≠ [] ∧ readBulk s = Ok (BreakLoop, s)).
Proof.
  intros [Hin Ht Hargv Hn Hbl Hsz Hop] Heq. unfold readBulk.
  rewrite (bind_run _ _ _ _ _ (bufPtr_run s Hin)), bind_get, Hbl.
  rewrite (assoc_L (++)) in Heq. apply app_cut in Heq as [(r & Hu & Hr)|(Htodo & Hlt & _)].
  2:{ right. split; [done|]. rewrite length_app in Hlt. cbn in Hlt. unfold sdslen.
      by rewrite (proj2 (Z.ltb_lt _ _)) by lia. }
  left. assert (sdslen (unread s) = sdslen a + 2 + sdslen r) as Hl by (rewrite Hu; unfold sdslen; rewrite !length_app; cbn; lia).
  rewrite (proj2 (Z.ltb_ge _ _)) by (unfold sdslen in *; lia).
  assert (bufRead (unread s) 0 (sdslen a) s = Ok (a, s)) as Htake.
  { rewrite bufRead_run by (unfold sdslen in *; lia). rewrite drop_0, Hu, <-(assoc_L (++)). unfold sdslen.
    by rewrite Nat2Z.id, take_app_length. }
  pose proof (Forall2_length _ _ _ Hargv) as Hlen. cbn [length] in *.
  case_match eqn:Hbig.
  - assert (qb_pos s = 0) as Hpos by lia. assert (unread s = querybuf s) as Hq by (unfold unread; by rewrite Hpos).
    rewrite <-Hq in *. replace (sdslen (unread s) - 2) with (sdslen a) by lia. assert (r = []) as ->.
    { destruct r; [done|]. unfold sdslen in Hbig, Hl. cbn in Hl. lia. }
    rewrite (bind_run _ _ _ tt (set_buf [] (qb_pos s) (set_argv (argv s ++ [createRawStringObject a]) (argv_size s) s))).
    2:{ by rewrite (bind_run _ _ _ _ _ Htake), (bind_run _ _ _ _ _ (pushArg_run s _ ltac:(lia))). }
    eexists. split; [done|]. split; [|by rewrite <-Hr, Hpos]. rewrite Hpos.
    split; cbn; rewrite ?length_app; cbn; [done|done| |lia|done|lia|done]. apply Forall2_app; [done|]. by repeat constructor.
  - destruct (unread_set_pos (set_argv (argv s ++ [createStringObject a]) (argv_size s) s) (a ++ CRLF) r (sdslen a + 2))
      as [Hin1 Hu1]; [done|done|rewrite length_app; cbn; unfold sdslen; lia|]. rewrite Z.add_assoc in Hin1, Hu1.
    rewrite (bind_run _ _ _ tt (set_pos (qb_pos s + sdslen a + 2)
               (set_argv (argv s ++ [createStringObject a]) (argv_size s) s))).
    2:{ rewrite (bind_run _ _ _ _ _ Htake), (bind_run _ _ _ _ _ (pushArg_run s _ ltac:(lia))). unfold modify. cbn. by rewrite Hbl. }
    eexists. split; [done|]. split; [|rewrite <-Hr; f_equal; exact Hu1].
    split; cbn; rewrite ?length_app; cbn; [done|done| |lia|done|lia|done].
    apply Forall2_app; [done|]. repeat constructor. apply createStringObject_string.
Qed.

(** The number of bytes left in the buffer, from what has to come. *)
Lemma unread_shrinks s s' todo (x y : bytes) : unread s ++ todo = x → unread s' ++ todo = y →
  (length y ≤ length x)%nat → (length (unread s') ≤ length (unread s))%nat.
Proof. intros <- <-. rewrite !length_app. lia. Qed.

Lemma bulkLoop_run rest s todo don tail : Forall validArg rest → midRequest s todo don rest tail →
  ∃ f s', bulkLoop (length rest) s = Ok (f, s') ∧ f ≠ ReturnErr ∧ (length (unread s') ≤ length (unread s))%nat ∧
    ((reading s' (don ++ rest) 0 (-1) ∧ unread s' ++ todo = tail) ∨
     (todo ≠ [] ∧ ∃ don' rest', don ++ rest = don' ++ rest' ∧ rest' ≠ [] ∧ midRequest s' todo don' rest' tail)).
Proof.
  revert s don. induction rest as [|a rest IH]; intros s don Hv Hm.
  { destruct Hm as [[Hr Hu]|(? & ? & ? & _)]; [|done]. exists BreakLoop, s. rewrite app_nil_r.
    cbn. unfold gets, mbind, M_bind. rewrite (rd_count _ _ _ _ Hr). cbn. split_and!; [done..|]. by left. }
  apply Forall_cons in Hv as [Ha Hv]. cbn [length Protocol.bulkLoop].
  assert (reading s don (length (a :: rest)) (bulklen s)) as Hrs.
  { destruct Hm as [[Hr _]|(? & ? & [= <- <-] & Hr & _)]; by rewrite (rd_bulk _ _ _ _ Hr). }
  rewrite bind_gets.
  rewrite (rd_count _ _ _ _ Hrs). replace (_ =? 0) with false by (cbn; lia).
  (* The length of the argument. *)
  assert ((∃ s1, readBulkLen s = Ok (Continue, s1) ∧ reading s1 don (length (a :: rest)) (sdslen a) ∧
             unread s1 ++ todo = a ++ CRLF ++ (rest ≫= catBulk) ++ tail ∧ (length (unread s1) ≤ length (unread s))%nat) ∨
          (todo ≠ [] ∧ readBulkLen s = Ok (BreakLoop, s))) as [(s1 & Hrun1 & Hr1 & Hu1 & Hle1)|[Ht Hrun1]].
  { destruct Hm as [[Hr Hu]|(? & ? & [= <- <-] & Hr & Hu)].
    - destruct (readBulkLen_run s todo don a rest tail Ha Hr Hu) as [(s1 & ? & ? & Hu1)|?]; [left|by right].
      exists s1. split_and!; [done..|]. eapply unread_shrinks; [exact Hu|exact Hu1|].
      rewrite bind_cons. unfold catBulk. rewrite !length_app. cbn. lia.
    - left. exists s. split_and!; [|done..]. unfold Protocol.readBulkLen.
      rewrite bind_get. rewrite (rd_bulk _ _ _ _ Hr).
      by replace (_ =? -1) with false by (unfold sdslen; lia). }
  2:{ exists BreakLoop, s. rewrite (bind_run _ _ _ _ _ Hrun1). split_and!; [done..|]. right. split; [done|].
      by exists don, (a :: rest). }
  rewrite (bind_run _ _ _ _ _ Hrun1). cbn beta iota.
  destruct (readBulk_run s1 todo don a rest tail Hr1 Hu1) as [(s2 & Hrun2 & Hr2 & Hu2)|[Ht Hrun2]];
    rewrite (bind_run _ _ _ _ _ Hrun2); cbn beta iota.
  2:{ exists BreakLoop, s1. split_and!; [done..|]. right. split; [done|]. exists don, (a :: rest).
      split_and!; [done..|]. right. by exists a, rest. }
  destruct (IH s2 (don ++ [a])) as (f & s' & Hrun & Hf & Hle & Hres); [done|by left|]. exists f, s'.
  rewrite <-(assoc_L (++)) in Hres. split_and!; [done..| |done]. etrans; [exact Hle|]. etrans; [|exact Hle1].
  eapply unread_shrinks; [exact Hu1|exact Hu2|]. rewrite !length_app. cbn. lia.
Qed.

(** ** Requests on the wire *)

Inductive request :=
  | Multibulk (args : list bytes)
  | Inline (args : list bytes).

Definition reqArgs (r : request) : list bytes := match r with Multibulk args | Inline args => args end.

Definition reqKind (r : request) : request_type :=
  match r with Multibulk _ => PROTO_REQ_MULTIBULK | Inline _ => PROTO_REQ_INLINE end.

Definition wire (r : request) : bytes :=
  match r with
  | Multibulk args => catAppendOnlyGenericCommand [] args
  | Inline args => joinArgs args ++ CRLF
  end.

Definition validRequest (r : request) : Prop :=
  reqArgs r ≠ [] ∧
  match r with
  | Multibulk args => Z.of_nat (length args) ≤ 1024 * 1024 ∧ Forall validArg args
  | Inline args => sdslen (joinArgs args) < PROTO_INLINE_MAX_SIZE
  end.

(** Between two requests, with or without the type of the next one. *)
Record idle (s : input) : Prop := {
  idle_inside : inside s;
  idle_argv : argv s = [];
  idle_count : multibulklen s = 0;
  idle_bulk : bulklen s = -1;
  idle_open : close s = false }.

(** *** Multibulk requests *)

Lemma wire_multibulk args : Z.of_nat (length args) ≤ 1024 * 1024 →
  wire (Multibulk args) = "*"%char :: decimal (Z.of_nat (length args)) ++ CRLF ++ (args ≫= catBulk).
Proof.
  intros. cbn. unfold catAppendOnlyGenericCommand. rewrite ll2buf_decimal; [done|lia|].
  unfold LLONG_MIN, LLONG_MAX. lia.
Qed.

Lemma readMultibulkLen_run s todo args tail : validRequest (Multibulk args) → idle s →
  reqtype s = PROTO_REQ_MULTIBULK → unread s ++ todo = wire (Multibulk args) ++ tail →
  (∃ s', readMultibulkLen s = Ok (Continue, s') ∧ midRequest s' todo [] args tail ∧
     (length (unread s') < length (unread s))%nat) ∨
  (todo ≠ [] ∧ readMultibulkLen s = Ok (ReturnErr, s)).
Proof.
  intros (Hne & Hlen & Hv) [Hin Hargv Hn Hbl Hop] Ht Heq. cbn in Hne. rewrite wire_multibulk in Heq by done.
  cbn [app] in Heq. rewrite <-!(assoc_L (++)) in Heq. unfold readMultibulkLen.
  rewrite bind_get. erewrite bind_run by (apply serverAssert_run; by rewrite Hargv).
  assert (0 ≤ Z.of_nat (length args) ≤ LLONG_MAX) as Hll by (unfold LLONG_MAX; lia).
  destruct (numberLine_run "too big mbulk count string" s todo "*"%char (Z.of_nat (length args)) ((args ≫= catBulk) ++ tail))
    as [(r & Hu & Hr & Hrun)|[Htodo Hrun]]; [done..| |].
  2:{ right. split; [done|]. by rewrite (bind_run _ _ _ _ _ Hrun). }
  left. rewrite (bind_run _ _ _ _ _ Hrun). cbn beta iota. rewrite (bind_run _ _ _ _ _ (charAtPos_cons _ _ _ Hin Hu)).
  erewrite bind_run by by apply serverAssert_run. rewrite (bind_run _ _ _ _ _ (lineNumber_run _ _ _ _ Hin Hll Hu)).
  cbn beta iota. rewrite (proj2 (Z.ltb_ge _ _)) by lia.
  destruct (unread_set_pos s ("*"%char :: decimal (Z.of_nat (length args)) ++ CRLF) r
              (Z.of_nat (length ("*"%char :: decimal (Z.of_nat (length args)))) + 2))
    as [Hin1 Hu1]; [done|by cbn [app]; rewrite <-(assoc_L (++))|cbn; rewrite length_app; cbn; lia|].
  rewrite Z.add_assoc in Hin1, Hu1. rewrite bind_modify.
  rewrite (proj2 (Z.leb_gt _ _)) by (destruct args; [done|cbn; lia]).
  eexists. split; [done|]. split.
  - left. split; [|rewrite <-Hr; f_equal; exact Hu1]. by split.
  - replace (length (unread _)) with (length r) by (f_equal; symmetry; exact Hu1). rewrite Hu. cbn.
    rewrite length_app. cbn [length]. lia.
Qed.

Lemma processMultibulk_mid s todo don rest tail : rest ≠ [] → Forall validArg rest → midRequest s todo don rest tail →
  ∃ ok s', processMultibulkBuffer s = Ok (ok, s') ∧ (length (unread s') ≤ length (unread s))%nat ∧
    if ok then reading s' (don ++ rest) 0 (-1) ∧ unread s' ++ todo = tail
    else todo ≠ [] ∧ ∃ don' rest', don ++ rest = don' ++ rest' ∧ rest' ≠ [] ∧ midRequest s' todo don' rest' tail.
Proof.
  intros Hne Hv Hm. unfold Protocol.processMultibulkBuffer.
  assert (multibulklen s = Z.of_nat (length rest)) as Hn by by destruct Hm as [[[] _]|(? & ? & _ & [] & _)].
  rewrite bind_gets. rewrite Hn.
  assert (0 < Z.of_nat (length rest)) as Hpos by (destruct rest; [done|cbn; lia]).
  replace (_ =? 0) with false by lia. rewrite bind_ret.
  rewrite bind_gets. rewrite Hn.
  erewrite bind_run by (apply serverAssert_run; lia). rewrite Nat2Z.id.
  destruct (bulkLoop_run rest s todo don tail Hv Hm) as (f & s' & Hrun & Hf & Hle & Hres).
  rewrite (bind_run _ _ _ _ _ Hrun).
  exists (multibulklen s' =? 0), s'. split; [by destruct f|]. split; [done|].
  destruct Hres as [[Hr Hu]|(Ht & don' & rest' & Heq & Hne' & Hm')].
  - by rewrite (rd_count _ _ _ _ Hr).
  - assert (multibulklen s' = Z.of_nat (length rest')) as -> by by destruct Hm' as [[[] _]|(? & ? & _ & [] & _)].
    replace (_ =? 0) with false by (destruct rest'; [done|cbn; lia]). split; [done|]. by exists don', rest'.
Qed.

Lemma midRequest_reading s todo don rest tail : midRequest s todo don rest tail → reading s don (length rest) (bulklen s).
Proof. intros [[Hr _]|(? & ? & _ & Hr & _)]; by rewrite (rd_bulk _ _ _ _ Hr). Qed.

Lemma processMultibulk_run s todo args tail : validRequest (Multibulk args) → idle s →
  reqtype s = PROTO_REQ_MULTIBULK → unread s ++ todo = wire (Multibulk args) ++ tail →
  ∃ ok s', processMultibulkBuffer s = Ok (ok, s') ∧
    if ok then reading s' args 0 (-1) ∧ unread s' ++ todo = tail ∧ (length (unread s') < length (unread s))%nat
    else todo ≠ [] ∧ (length (unread s') ≤ length (unread s))%nat ∧
         (s' = s ∨ ∃ don rest, args = don ++ rest ∧ rest ≠ [] ∧ midRequest s' todo don rest tail).
Proof.
  intros Hv Hid Ht Hu. pose proof Hv as (Hne & _ & Hargs). cbn in Hne.
  assert (∀ f s1, readMultibulkLen s = Ok (f, s1) → processMultibulkBuffer s =
            match f with Continue => (if multibulklen s1 =? 0 then processMultibulkBuffer s else processMultibulkBuffer s1)
                       | ReturnOk => Ok (true, s1) | _ => Ok (false, s1) end) as Hpm.
  { intros f s1 Hf. unfold Protocol.processMultibulkBuffer at 1. rewrite bind_gets, (idle_count _ Hid). cbn [Z.eqb].
    rewrite (bind_run _ _ _ _ _ Hf). destruct f; [|done..]. destruct (Z.eqb_spec (multibulklen s1) 0) as [Hz|Hz].
    - unfold Protocol.processMultibulkBuffer. rewrite !bind_gets, (idle_count _ Hid). cbn [Z.eqb].
      by rewrite (bind_run _ _ _ _ _ Hf).
    - unfold Protocol.processMultibulkBuffer. rewrite !bind_gets. by rewrite (proj2 (Z.eqb_neq _ _) Hz). }
  destruct (readMultibulkLen_run s todo args tail Hv Hid Ht Hu) as [(s1 & Hrun & Hm & Hlt)|[Htodo Hrun]];
    rewrite (Hpm _ _ Hrun).
  - rewrite (rd_count _ _ _ _ (midRequest_reading _ _ _ _ _ Hm)).
    replace (_ =? 0) with false by (destruct args; [done|cbn; lia]).
    destruct (processMultibulk_mid s1 todo [] args tail) as (ok & s' & Hrun' & Hle & Hres); [done..|].
    exists ok, s'. split; [done|]. destruct ok.
    + destruct Hres. split_and!; [done..|lia].
    + destruct Hres as (? & don & rest & Heq & Hm'). split_and!; [done|lia|]. right. by exists don, rest.
  - exists false, s. split_and!; [done..|]. by left.
Qed.

(** *** Inline requests *)

Lemma joinArgs_plain args c : isprint c = false → c ∉ joinArgs args.
Proof.
  intros Hc Hin. pose proof (joinArgs_print args) as Hp. rewrite Forall_forall in Hp. apply Hp in Hin.
  by rewrite Hc in Hin.
Qed.

Lemma pushArgs_run args s : Z.of_nat (length (argv s) + length args) ≤ argv_size s →
  pushArgs args s = Ok (tt, set_argv (argv s ++ (createRawStringObject <$> args)) (argv_size s) s).
Proof.
  revert s. induction args as [|a args IH]; intros s Hsz; cbn [length] in *.
  { cbn. rewrite app_nil_r. by destruct s. }
  cbn [pushArgs]. erewrite bind_run by (apply pushArg_run; lia). rewrite IH.
  - cbn. by rewrite <-(assoc_L (++)).
  - cbn. rewrite length_app. cbn. lia.
Qed.

Lemma processInline_run s todo args tail : validRequest (Inline args) → idle s →
  unread s ++ todo = wire (Inline args) ++ tail →
  (∃ s', processInlineBuffer s = Ok (true, s') ∧ Forall2 string_obj (argv s') args ∧ inside s' ∧ close s' = false ∧
     unread s' ++ todo = tail ∧ (length (unread s') < length (unread s))%nat) ∨
  (todo ≠ [] ∧ processInlineBuffer s = Ok (false, s)).
Proof.
  intros (Hne & Hlen) [Hin Hargv Hn Hbl Hop] Heq. cbn in Hne. cbn [wire] in Heq.
  unfold processInlineBuffer. rewrite (bind_run _ _ _ _ _ (bufPtr_run s Hin)). unfold sdslen at 1.
  apply app_cut in Heq as [(r & Hu & Hr)|(Htodo & Hlt & Hu)].
  - left. rewrite Hu. assert (strchr ((joinArgs args ++ CRLF) ++ r) LF = Some (Z.of_nat (length (joinArgs args) + 1))) as ->.
    { rewrite <-(assoc_L (++)). unfold CRLF. change (joinArgs args ++ [CR; LF] ++ r) with (joinArgs args ++ [CR] ++ LF :: r).
      rewrite (assoc_L (++)), strchr_app; [by rewrite length_app|..];
        rewrite not_elem_of_app, list_elem_of_singleton; (split; [by apply joinArgs_plain|done]). }
    replace (_ =? 0) with false by lia.
    assert (Z.of_nat (length (joinArgs args) + 1) - 1 + 2 ≤ sdslen ((joinArgs args ++ CRLF) ++ r)) as Hfit
      by (unfold sdslen; rewrite !length_app; cbn; lia).
    rewrite (bind_run _ _ _ true s).
    2:{ rewrite (bind_run _ _ _ [CR] s); [done|]. rewrite bufRead_run by lia. replace (Z.to_nat (_ - 1)) with (length (joinArgs args)) by lia.
        by rewrite <-(assoc_L (++)), drop_app_length. }
    cbv beta iota. rewrite (bind_run _ _ _ (joinArgs args) s).
    2:{ rewrite bufRead_run by lia. replace (Z.to_nat (_ - 1)) with (length (joinArgs args)) by lia.
        by rewrite drop_0, <-(assoc_L (++)), take_app_length. }
    rewrite sdssplitargs_joinArgs, !bind_modify.
    destruct (unread_set_pos s (joinArgs args ++ CRLF) r (Z.of_nat (length (joinArgs args) + 1) - 1 + 2)) as [Hin1 Hu1];
      [done..|rewrite length_app; cbn; lia|]. rewrite Z.add_assoc in Hin1, Hu1.
    rewrite (proj2 (Z.eqb_neq (Z.of_nat (length args)) 0)) by (destruct args; [done|cbn; lia]).
    erewrite bind_run by (apply pushArgs_run; cbn [argv argv_size set_argv set_pos set_buf length]; lia).
    eexists. split; [done|]. split_and!; cbn; [|exact Hin1|done| |].
    + apply Forall2_fmap_l, Forall_Forall2_diag, Forall_true. intros a. constructor.
    + etrans; [|exact Hr]. f_equal. exact Hu1.
    + replace (length (unread _)) with (length r) by (f_equal; symmetry; exact Hu1).
      rewrite !length_app. destruct args; [done|]. cbn. lia.
  - right. split; [done|]. rewrite length_app in Hlt. cbn in Hlt.
    rewrite strchr_None; [by rewrite (proj2 (Z.ltb_ge _ _)) by (unfold sdslen in *; lia)|].
    rewrite Hu. change CRLF with ([CR] ++ [LF]). rewrite (assoc_L (++)), take_app_le by (rewrite length_app; cbn; lia).
    intros (i & Hi & _)%elem_of_take. apply list_elem_of_lookup_2, elem_of_app in Hi as [Hi|Hi].
    + by apply joinArgs_plain in Hi.
    + by apply list_elem_of_singleton in Hi.
Qed.

(** ** The query buffer *)

(** The requests that the bytes in the buffer and those to come stand for. *)
Inductive expects (s : input) (todo : bytes) : list request → Prop :=
  | exp_fresh reqs : idle s → reqtype s = REQ_NONE → unread s ++ todo = reqs ≫= wire → expects s todo reqs
  | exp_started r reqs : idle s → reqtype s = reqKind r → unread s ++ todo = (r :: reqs) ≫= wire →
      expects s todo (r :: reqs)
  | exp_mid don rest reqs : rest ≠ [] → midRequest s todo don rest (reqs ≫= wire) →
      expects s todo (Multibulk (don ++ rest) :: reqs).

Lemma wire_head r c p : validRequest r → wire r = c :: p →
  (if c =c "*"%char then PROTO_REQ_MULTIBULK else PROTO_REQ_INLINE) = reqKind r.
Proof.
  intros [Hne _]. destruct r as [args|args]; cbn in *.
  - intros [= <- _]. done.
  - destruct args as [|a [|b args]]; [done|cbn; by intros [= <- _]..].
Qed.

Lemma wire_nonempty r : wire r ≠ [].
Proof. destruct r as [args|args]; cbn; [done|]. by destruct (joinArgs args). Qed.

(** The end of a request that was read completely. *)
Lemma request_done s s1 todo (args : list bytes) reqs : inside s1 → close s1 = false → Forall2 string_obj (argv s1) args →
  unread s1 ++ todo = reqs ≫= wire → (length (unread s1) < length (unread s))%nat →
  ∃ a s', (a ← gets argv; resetInput ;; mret (Some a)) s1 = Ok (Some a, s') ∧ Forall2 string_obj a args ∧
    expects s' todo reqs ∧ (length (unread s') < length (unread s))%nat.
Proof.
  intros Hin Hop Ha Hu Hlt. rewrite bind_gets. unfold resetInput. rewrite bind_modify. eexists _, _.
  split_and!; [done..| |done]. apply exp_fresh; [by split|done|done].
Qed.

Lemma request_kind_run s todo r reqs : validRequest r → unread s ≠ [] → idle s →
  reqtype s = REQ_NONE ∨ reqtype s = reqKind r → unread s ++ todo = (r :: reqs) ≫= wire →
  (if bool_decide (reqtype s = REQ_NONE) then
     c ← charAtPos; modify (set_reqtype (if c =c "*"%char then PROTO_REQ_MULTIBULK else PROTO_REQ_INLINE))
   else mret tt) s = Ok (tt, set_reqtype (reqKind r) s).
Proof.
  intros Hv Hne Hid Ht Hu. destruct Ht as [Ht|Ht].
  - rewrite bool_decide_eq_true_2 by done. destruct (unread s) as [|c p] eqn:Hp; [done|].
    rewrite (bind_run _ _ _ _ _ (charAtPos_cons _ _ _ (idle_inside _ Hid) Hp)). rewrite bind_cons in Hu.
    destruct (wire r) as [|c' q] eqn:Hw; [by apply wire_nonempty in Hw|]. injection Hu as <- _.
    by rewrite (wire_head r c q).
  - rewrite bool_decide_eq_false_2 by (rewrite Ht; by destruct r). unfold mret, M_ret. rewrite <-Ht. by destruct s.
Qed.

(** The parser of a request whose type is known. *)
Lemma started_run s todo r reqs : validRequest r → idle s → unread s ++ todo = wire r ++ (reqs ≫= wire) →
  let m := r ← gets reqtype;
           ok ← (match r with
                 | PROTO_REQ_INLINE => processInlineBuffer
                 | PROTO_REQ_MULTIBULK => processMultibulkBuffer
                 | REQ_NONE => fail (AssertFailed "Unknown request type")
                 end);
           if (ok : bool) then a ← gets argv; resetInput ;; mret (Some a) else mret None in
  (∃ a s', m (set_reqtype (reqKind r) s) = Ok (Some a, s') ∧ Forall2 string_obj a (reqArgs r) ∧ expects s' todo reqs ∧
     (length (unread s') < length (unread s))%nat) ∨
  (todo ≠ [] ∧ ∃ s', m (set_reqtype (reqKind r) s) = Ok (None, s') ∧ expects s' todo (r :: reqs) ∧
     (length (unread s') ≤ length (unread s))%nat).
Proof.
  intros Hv Hid Hu m. unfold m. rewrite bind_gets. cbn [reqtype set_reqtype].
  assert (idle (set_reqtype (reqKind r) s)) as Hid' by by destruct Hid.
  assert (expects (set_reqtype (reqKind r) s) todo (r :: reqs)) as Hexp by by apply exp_started.
  destruct r as [args|args]; cbn [reqKind].
  - destruct (processMultibulk_run (set_reqtype PROTO_REQ_MULTIBULK s) todo args (reqs ≫= wire))
      as (ok & s' & Hrun & Hres); [done..|]. rewrite (bind_run _ _ _ _ _ Hrun). destruct ok.
    + left. destruct Hres as (Hr & Hu' & Hlt). by apply (request_done s s'); try apply Hr.
    + right. destruct Hres as (Htodo & Hle & Hres). split; [done|]. exists s'. split; [done|].
      split; [|done]. destruct Hres as [->|(don & rest & -> & Hne & Hm)]; [done|by apply exp_mid].
  - destruct (processInline_run (set_reqtype PROTO_REQ_INLINE s) todo args (reqs ≫= wire))
      as [(s' & Hrun & Ha & Hin & Hop & Hu' & Hlt)|[Htodo Hrun]]; [done..| |]; rewrite (bind_run _ _ _ _ _ Hrun).
    + left. by apply (request_done s s').
    + right. split; [done|]. eexists. by split_and!.
Qed.

(** One round of the loop on a request that is expected. *)
Lemma nextRequest_run s todo r reqs : validRequest r → unread s ≠ [] → expects s todo (r :: reqs) →
  (∃ a s', nextRequest s = Ok (Some a, s') ∧ Forall2 string_obj a (reqArgs r) ∧ expects s' todo reqs ∧
     (length (unread s') < length (unread s))%nat) ∨
  (todo ≠ [] ∧ ∃ s', nextRequest s = Ok (None, s') ∧ expects s' todo (r :: reqs) ∧
     (length (unread s') ≤ length (unread s))%nat).
Proof.
  intros Hv Hne Hexp. unfold Protocol.nextRequest. rewrite bind_get.
  inversion Hexp as [? Hid Ht Hu|? ? Hid Ht Hu|don rest ? Hrest Hm]; subst.
  - rewrite (idle_open _ Hid). erewrite bind_run by (eapply request_kind_run; [done..|by left|done]).
    apply (started_run s todo r reqs); [done..|by rewrite bind_cons in Hu].
  - rewrite (idle_open _ Hid). erewrite bind_run by (eapply request_kind_run; [done..|by right|done]).
    apply (started_run s todo r reqs); [done..|by rewrite bind_cons in Hu].
  - pose proof (midRequest_reading _ _ _ _ _ Hm) as Hr. rewrite (rd_open _ _ _ _ Hr), (rd_type _ _ _ _ Hr).
    rewrite bool_decide_eq_false_2, bind_ret, bind_gets, (rd_type _ _ _ _ Hr) by done. pose proof Hv as (_ & _ & Hargs).
    destruct (processMultibulk_mid s todo don rest (reqs ≫= wire)) as (ok & s' & Hrun & Hle & Hres);
      [done|by apply Forall_app in Hargs as [_ ?]|done|].
    rewrite (bind_run _ _ _ _ _ Hrun). destruct ok.
    + left. destruct Hres as [Hr' Hu']. apply (request_done s s'); [by apply Hr'|by apply Hr'|by apply Hr'|done|].
      destruct Hm as [[_ Hu]|(a & rest' & -> & _ & Hu)].
      * destruct rest as [|a rest]; [done|]. apply (f_equal length) in Hu, Hu'. rewrite bind_cons in Hu.
        unfold catBulk at 1 in Hu. rewrite !length_app in *. cbn in Hu. lia.
      * apply (f_equal length) in Hu, Hu'. rewrite !length_app in *. cbn in Hu. lia.
    + right. destruct Hres as (Htodo & don' & rest' & Heq & Hne' & Hm'). split; [done|]. exists s'. split; [done|].
      rewrite Heq. split; [by apply exp_mid|done].
Qed.

Lemma expects_inside s todo reqs : expects s todo reqs → inside s.
Proof. intros [? []|? ? []|? ? ? ? ?%midRequest_reading]; [done..|by eapply rd_inside]. Qed.

(** Nothing is left when all has been read. *)
Lemma expects_nothing s reqs : unread s = [] → expects s [] reqs → reqs = [].
Proof.
  intros Hu Hexp. destruct Hexp as [reqs _ _ Heq|r reqs _ _ Heq|don rest reqs Hne Hm].
  - rewrite Hu in Heq. destruct reqs as [|r reqs]; [done|]. rewrite bind_cons in Heq. cbn in Heq.
    by apply symmetry, app_nil in Heq as [?%wire_nonempty _].
  - rewrite Hu, bind_cons in Heq. by apply symmetry, app_nil in Heq as [?%wire_nonempty _].
  - destruct Hm as [[_ Heq]|(a & rest' & -> & _ & Heq)]; rewrite Hu in Heq; cbn in Heq.
    + by destruct rest.
    + by destruct a.
Qed.

Lemma requestLoop_run fuel s todo reqs : Forall validRequest reqs → expects s todo reqs →
  (length (unread s) ≤ fuel)%nat →
  ∃ rs s' don reqs', requestLoop fuel s = Ok (rs, s') ∧ reqs = don ++ reqs' ∧
    Forall2 (λ a r, Forall2 string_obj a (reqArgs r)) rs don ∧ expects s' todo reqs' ∧
    (length (unread s') ≤ length (unread s))%nat ∧ (todo = [] → reqs' = []).
Proof.
  revert s reqs. induction fuel as [|fuel IH]; intros s reqs Hv Hexp Hfuel;
    pose proof (length_unread s (expects_inside _ _ _ Hexp)) as Hl; cbn [Protocol.requestLoop]; rewrite bind_get.
  all: destruct (Z.ltb_spec (qb_pos s) (sdslen (querybuf s))) as [Hlt|Hge]; cbn [negb].
  1: lia.
  1, 3: exists [], s, [], reqs; split_and!; [done..|constructor|done|done|]; intros ->;
    apply (expects_nothing s); [apply nil_length_inv; lia|done].
  destruct reqs as [|r reqs].
  { exfalso. inversion Hexp as [? Hid Ht Hu| |]; subst. cbn in Hu. apply (f_equal length) in Hu.
    rewrite length_app in Hu. cbn in Hu. lia. }
  apply Forall_cons in Hv as [Hr Hv].
  destruct (nextRequest_run s todo r reqs) as [(a & s1 & Hrun & Ha & Hexp1 & Hlt1)|(Ht & s1 & Hrun & Hexp1 & Hle1)];
    [done|intros Hnil; rewrite Hnil in Hl; cbn in Hl; lia|done|..]; rewrite (bind_run _ _ _ _ _ Hrun).
  - destruct (IH s1 reqs) as (rs & s' & don & reqs' & Hrun' & -> & Hrs & Hexp' & Hle & Hdone); [done..|lia|].
    exists (a :: rs), s', (r :: don), reqs'. rewrite (bind_run _ _ _ _ _ Hrun').
    split_and!; [|done|by constructor|done|lia|done]. rewrite bool_decide_eq_false_2; [done|].
    intros ->. apply Forall2_nil_inv_l in Ha. by destruct Hr.
  - exists [], s1, [], (r :: reqs). split_and!; [done..|constructor|done|done|done].
Qed.

(** ** The stream of a connection *)

Fixpoint receive (chunks : list bytes) : M input (option (list (list robj))) :=
  match chunks with
  | [] => mret (Some [])
  | data :: chunks =>
      r ← readQueryFromClient proto_max_bulk_len client_max_querybuf_len data;
      match r with
      | None => mret None
      | Some rs => r ← receive chunks; mret (rs' ← r; Some (rs ++ rs'))
      end
  end.

(** Reading a buffer starts at its beginning. *)
Lemma expects_append s data todo reqs : expects s (data ++ todo) reqs → qb_pos s = 0 →
  expects (set_buf (querybuf s ++ data) 0 s) todo reqs ∧ unread (set_buf (querybuf s ++ data) 0 s) = unread s ++ data.
Proof.
  intros Hexp Hpos. assert (unread (set_buf (querybuf s ++ data) 0 s) = unread s ++ data) as Hu.
  { unfold unread. by rewrite Hpos. }
  assert (inside (set_buf (querybuf s ++ data) 0 s)) as Hin by (split; cbn; unfold sdslen; lia).
  split; [|done]. destruct Hexp as [reqs [] Ht Heq|r reqs [] Ht Heq|don rest reqs Hne Hm].
  - apply exp_fresh; [done..|]. by rewrite Hu, <-(assoc_L (++)).
  - apply exp_started; [done..|]. by rewrite Hu, <-(assoc_L (++)).
  - apply exp_mid; [done|]. destruct Hm as [[[] Heq]|(a & rest' & -> & [] & Heq)]; [left|right; exists a, rest'].
    + split; [done|]. by rewrite Hu, <-(assoc_L (++)).
    + split_and!; [done..|]. by rewrite Hu, <-(assoc_L (++)).
Qed.

(** Removing what was read. *)
Lemma expects_trim s todo reqs : expects s todo reqs →
  let s' := if negb (qb_pos s =? 0) then set_buf (sdsrange (querybuf s) (qb_pos s) (-1)) 0 s else s in
  expects s' todo reqs ∧ unread s' = unread s ∧ qb_pos s' = 0.
Proof.
  intros Hexp s'. pose proof (expects_inside _ _ _ Hexp) as Hin. unfold s'.
  destruct (Z.eqb_spec (qb_pos s) 0) as [Hz|Hz]; [done|]. cbn [negb]. rewrite unread_trim by done.
  assert (inside (set_buf (unread s) 0 s)) as Hin' by (split; cbn; unfold sdslen; lia).
  split_and!; [|done..]. destruct Hexp as [reqs [] Ht Heq|r reqs [] Ht Heq|don rest reqs Hne Hm].
  - by apply exp_fresh.
  - by apply exp_started.
  - apply exp_mid; [done|]. destruct Hm as [[[] Heq]|(a & rest' & -> & [] & Heq)]; [by left|right; by exists a, rest'].
Qed.

Lemma receive_run chunks s reqs : Forall validRequest reqs → expects s (concat chunks) reqs → qb_pos s = 0 →
  Z.of_nat (length (unread s) + length (concat chunks)) ≤ client_max_querybuf_len →
  (concat chunks = [] → reqs = []) →
  ∃ rs s', receive chunks s = Ok (Some rs, s') ∧ Forall2 (λ a r, Forall2 string_obj a (reqArgs r)) rs reqs ∧
    expects s' [] [].
Proof.
  revert s reqs. induction chunks as [|data chunks IH]; intros s reqs Hv Hexp Hpos Hsz Hdone.
  { rewrite (Hdone eq_refl) in *. exists [], s. by split_and!. }
  cbn [concat receive] in *. destruct (expects_append s data (concat chunks) reqs Hexp Hpos) as [Hexp1 Hu1].
  unfold readQueryFromClient. rewrite length_app in Hsz.
  assert (sdslen (querybuf s ++ data) = Z.of_nat (length (unread s) + length data)) as Hlen1.
  { unfold unread, sdslen. by rewrite Hpos, length_app. }
  destruct (requestLoop_run (length (querybuf s ++ data)) (set_buf (querybuf s ++ data) 0 s) (concat chunks) reqs)
    as (rs & s2 & don & reqs' & Hrun & -> & Hrs & Hexp2 & Hle & Hrest); [done..| |].
  { rewrite Hu1. unfold sdslen in Hlen1. rewrite length_app. lia. }
  destruct (expects_trim s2 _ _ Hexp2) as (Hexp3 & Hu3 & Hpos3).
  rewrite (bind_run _ _ _ (Some rs) (if negb (qb_pos s2 =? 0) then set_buf (sdsrange (querybuf s2) (qb_pos s2) (-1)) 0 s2 else s2)).
  2:{ rewrite bind_modify, Hpos, bind_get. cbn [querybuf set_buf]. rewrite (proj2 (Z.ltb_ge _ _)) by lia.
      unfold Protocol.readRequests. erewrite bind_run; [done|]. rewrite bind_get. cbn [querybuf set_buf].
      rewrite (bind_run _ _ _ _ _ Hrun). by rewrite bind_modify. }
  cbn beta iota. apply Forall_app in Hv as [_ Hv].
  destruct (IH _ reqs' Hv Hexp3 Hpos3) as (rs' & s' & Hrun' & Hrs' & Hexp'); [|done|].
  { rewrite Hu3. rewrite Hu1, length_app in Hle. lia. }
  exists (rs ++ rs'), s'. rewrite (bind_run _ _ _ _ _ Hrun'). split_and!; [done|by apply Forall2_app|done].
Qed.

End Requests.

(** C29. A stream of valid requests, each printed as the append-only file prints
    commands or as a line of quoted arguments, is read back as exactly these
    requests, in order, however the bytes are cut into reads of the socket,
    including big arguments for which the query buffer is replaced. A valid request
    has at least one argument; as a command of the append-only file at most
    1024*1024 arguments, none longer than proto-max-bulk-len; as a line fewer than
    64 KB. The whole stream is not longer than client-query-buffer-limit. *)
Theorem request_stream_round_trip proto_max_bulk_len client_max_querybuf_len reqs chunks :
  Forall (validRequest proto_max_bulk_len) reqs → concat chunks = reqs ≫= wire →
  sdslen (reqs ≫= wire) ≤ client_max_querybuf_len →
  ∃ rs s', receive proto_max_bulk_len client_max_querybuf_len chunks newInput = Ok (Some rs, s') ∧
    Forall2 (λ a r, Forall2 string_obj a (reqArgs r)) rs reqs ∧ unread s' = [] ∧ argv s' = [] ∧ reqtype s' = REQ_NONE.
Proof.
  intros Hv Hc Hsz.
  destruct (receive_run proto_max_bulk_len client_max_querybuf_len chunks newInput reqs) as (rs & s' & Hrun & Hrs & Hexp);
    [done|by apply exp_fresh|done|cbn; by rewrite Hc| |].
  { rewrite Hc. intros Hnil. destruct reqs as [|r reqs]; [done|]. rewrite bind_cons in Hnil.
    by apply app_nil in Hnil as [?%wire_nonempty _]. }
  exists rs, s'. inversion Hexp as [? Hid Ht Hu| |]; subst. rewrite app_nil_r in Hu. split_and!; [done..|by apply Hid|done].
Qed.

Definition sampleRequests : list request :=
  [Multibulk [["S"; "E"; "T"]%char; ["k"]%char; [NUL; CR; LF]]; Inline [["G"; "E"; "T"]%char; ["k"; NUL]%char]].

Definition samplePieces : list bytes := [take 9 (sampleRequests ≫= wire); []; drop 9 (sampleRequests ≫= wire)].

Lemma sampleRequests_valid : Forall (validRequest 100) sampleRequests.
Proof.
  repeat constructor; try (unfold sdslen, LLONG_MAX; cbn; lia); done.
Qed.

Lemma request_stream_round_trip_witness :
  ∃ rs s', receive 100 1000 samplePieces newInput = Ok (Some rs, s') ∧
    Forall2 (λ a r, Forall2 string_obj a (reqArgs r)) rs sampleRequests ∧ unread s' = [] ∧ argv s' = [] ∧ reqtype s' = REQ_NONE.
Proof.
  apply (request_stream_round_trip 100 1000 sampleRequests samplePieces).
  - exact sampleRequests_valid.
  - vm_compute. reflexivity.
  - vm_compute. discriminate.
Defined.

(** ** Any bytes *)

Section AnyBytes.
Context (proto_max_bulk_len client_max_querybuf_len : Z).
Abbreviation readBulkLen := (readBulkLen proto_max_bulk_len).
Abbreviation bulkLoop := (bulkLoop proto_max_bulk_len).
Abbreviation processMultibulkBuffer := (processMultibulkBuffer proto_max_bulk_len).
Abbreviation nextRequest := (nextRequest proto_max_bulk_len).
Abbreviation requestLoop := (requestLoop proto_max_bulk_len).

(** After a protocol error. *)
Definition refused (s s' : input) : Prop := inside s' ∧ close s' = true ∧ (length (unread s') ≤ length (unread s))%nat.

Lemma protocolError_run msg s : inside s → ∃ s', protocolError msg s = Ok (tt, s') ∧ refused s s'.
Proof. intros Hin. eexists. split; [done|]. by split. Qed.

Lemma findLine_any msg s : inside s →
  findLine msg s = Ok (inl BreakLoop, s) ∨
  (∃ s', findLine msg s = Ok (inl ReturnErr, s') ∧ refused s s') ∨
  (∃ q x r, unread s = q ++ CR :: x :: r ∧ findLine msg s = Ok (inr (Z.of_nat (length q)), s)).
Proof.
  intros Hin. unfold findLine. rewrite (bind_run _ _ _ _ _ (bufPtr_run s Hin)). unfold sdslen.
  destruct (strchr (unread s) CR) as [i|] eqn:Hs.
  - apply strchr_Some in Hs as (q & r & Hu & ->). rewrite Hu. destruct r as [|x r].
    + left. rewrite (proj2 (Z.ltb_lt _ _)); [done|]. rewrite length_app. cbn. lia.
    + right. right. exists q, x, r. rewrite (proj2 (Z.ltb_ge _ _)); [done|]. rewrite length_app. cbn. lia.
  - destruct (_ <? _); [|by left]. right. left. destruct (protocolError_run msg s Hin) as (s' & Hrun & Hr).
    exists s'. by rewrite (bind_run _ _ _ _ _ Hrun).
Qed.

(** The number in a line that starts with another character than CR. *)
Lemma lineNumber_any s q x r : inside s → unread s = q ++ CR :: x :: r → peek (unread s) 0 ≠ CR →
  ∃ ll, lineNumber (Z.of_nat (length q)) s = Ok (ll, s).
Proof.
  intros Hin Hu Hc. unfold lineNumber. rewrite (bind_run _ _ _ _ _ (bufPtr_run s Hin)).
  assert (q ≠ []) as Hq by (intros ->; by rewrite Hu in Hc).
  erewrite bind_run; [by eexists|]. apply bufRead_run; [lia|destruct q; [done|cbn; lia]|].
  rewrite Hu. unfold sdslen. rewrite length_app. cbn. lia.
Qed.

(** The position after a line. *)
Lemma after_line s q x r : inside s → unread s = q ++ CR :: x :: r →
  let s' := set_pos (qb_pos s + Z.of_nat (length q) + 2) s in
  inside s' ∧ unread s' = r ∧ (length (unread s') < length (unread s))%nat.
Proof.
  intros Hin Hu s'. destruct (unread_set_pos s (q ++ [CR; x]) r (Z.of_nat (length q) + 2)) as [Hin' Hu'];
    [done|by rewrite <-(assoc_L (++))|rewrite length_app; cbn; lia|]. rewrite Z.add_assoc in Hin', Hu'.
  unfold s'. split_and!; [done..|]. rewrite Hu', Hu, length_app. cbn. lia.
Qed.

(** In a multibulk request: room is left for the arguments that are missing. *)
Record inRequest (s : input) : Prop := {
  ir_inside : inside s;
  ir_type : reqtype s = PROTO_REQ_MULTIBULK;
  ir_count : 0 ≤ multibulklen s;
  ir_room : Z.of_nat (length (argv s)) + multibulklen s ≤ argv_size s;
  ir_bulk : -1 ≤ bulklen s;
  ir_done : multibulklen s = 0 → bulklen s = -1;
  ir_open : close s = false }.

Lemma readMultibulkLen_any s : idle s → reqtype s = PROTO_REQ_MULTIBULK → peek (unread s) 0 = "*"%char →
  ∃ f s', readMultibulkLen s = Ok (f, s') ∧
    match f with
    | Continue => inRequest s' ∧ 0 < multibulklen s' ∧ (length (unread s') < length (unread s))%nat
    | ReturnOk => idle s' ∧ (length (unread s') < length (unread s))%nat
    | ReturnErr => s' = s ∨ refused s s'
    | BreakLoop => False
    end.
Proof.
  intros [Hin Hargv Hn Hbl Hop] Ht Hstar. unfold readMultibulkLen. rewrite bind_get.
  erewrite bind_run by (apply serverAssert_run; by rewrite Hargv).
  destruct (findLine_any "too big mbulk count string" s Hin) as [Hrun|[(s' & Hrun & Hr)|(q & x & r & Hu & Hrun)]];
    rewrite (bind_run _ _ _ _ _ Hrun); cbn beta iota.
  { exists ReturnErr, s. auto. }
  { exists ReturnErr, s'. auto. }
  rewrite (bind_run _ _ _ _ _ (charAtPos_run s Hin)). erewrite bind_run by (apply serverAssert_run; by rewrite Hstar).
  destruct (lineNumber_any s q x r Hin Hu) as (ll0 & Hline); [by rewrite Hstar|]. rewrite (bind_run _ _ _ _ _ Hline).
  destruct ll0 as [ll|]; cbn beta iota.
  2:{ destruct (protocolError_run "invalid multibulk length" s Hin) as (s' & He & Hr).
      exists ReturnErr, s'. rewrite (bind_run _ _ _ _ _ He). auto. }
  destruct (_ <? ll).
  { destruct (protocolError_run "invalid multibulk length" s Hin) as (s' & He & Hr).
    exists ReturnErr, s'. rewrite (bind_run _ _ _ _ _ He). auto. }
  rewrite bind_modify. destruct (after_line s q x r Hin Hu) as (Hin1 & Hu1 & Hlt1).
  destruct (Z.leb_spec ll 0).
  - eexists ReturnOk, _. split; [done|]. by split.
  - eexists Continue, _. split; [done|]. split_and!; [split; cbn; try done; lia|done|done].
Qed.

Lemma readBulkLen_any s : inRequest s → 0 < multibulklen s →
  ∃ f s', readBulkLen s = Ok (f, s') ∧ (length (unread s') ≤ length (unread s))%nat ∧
    match f with
    | Continue => inRequest s' ∧ 0 ≤ bulklen s' ∧ multibulklen s' = multibulklen s
    | BreakLoop => s' = s
    | ReturnErr => refused s s'
    | ReturnOk => False
    end.
Proof.
  intros [Hin Ht Hn Hroom Hbl Hdone Hop] Hpos. unfold Protocol.readBulkLen. rewrite bind_get.
  destruct (Z.eqb_spec (bulklen s) (-1)) as [Hb|Hb]; cbn [negb].
  2:{ exists Continue, s. split_and!; [done..|lia|done]. }
  destruct (findLine_any "too big bulk count string" s Hin) as [Hrun|[(s' & Hrun & Hr)|(q & x & r & Hu & Hrun)]];
    rewrite (bind_run _ _ _ _ _ Hrun); cbn beta iota.
  { exists BreakLoop, s. auto. }
  { exists ReturnErr, s'. split_and!; [done|by apply Hr|done]. }
  assert (∀ msg, ∃ f s', (protocolError msg ;; mret ReturnErr) s = Ok (f, s') ∧
            (length (unread s') ≤ length (unread s))%nat ∧ f = ReturnErr ∧ refused s s') as Herr.
  { intros msg. destruct (protocolError_run msg s Hin) as (s' & He & Hr).
    exists ReturnErr, s'. rewrite (bind_run _ _ _ _ _ He). split_and!; [done|by apply Hr|done..]. }
  rewrite (bind_run _ _ _ _ _ (charAtPos_run s Hin)). destruct (bool_decide_reflect (peek (unread s) 0 = "$"%char)) as [Hdollar|]; cbn [negb].
  2:  { destruct (Herr "expected '$'"%string) as (f & s' & -> & Hle & -> & Hr). by exists ReturnErr, s'. }
  destruct (lineNumber_any s q x r Hin Hu) as (ll0 & Hline); [by rewrite Hdollar|]. rewrite (bind_run _ _ _ _ _ Hline).
  destruct ll0 as [ll|]; cbn beta iota.
  2:{ destruct (Herr "invalid bulk length"%string) as (f & s' & -> & Hle & -> & Hr). by exists ReturnErr, s'. }
  destruct (_ || _) eqn:Hll.
  { destruct (Herr "invalid bulk length"%string) as (f & s' & -> & Hle & -> & Hr). by exists ReturnErr, s'. }
  rewrite bind_modify. destruct (after_line s q x r Hin Hu) as (Hin1 & Hu1 & Hlt1).
  set (s1 := set_pos _ s) in *. rewrite (bind_run _ _ _ _ _ (bufPtr_run s1 Hin1)). case_match.
  - rewrite (bind_run _ _ _ tt (set_buf (sdsrange (querybuf s1) (qb_pos s1) (-1)) 0 s1)) by done.
    rewrite unread_trim by done. eexists Continue, _. split; [done|].
    change (unread (set_bulklen ll (set_buf (unread s1) 0 s1))) with (unread s1).
    split; [lia|]. split_and!; [|cbn; lia|done]. split; cbn; try done; try lia. split; cbn; unfold sdslen; lia.
  - rewrite bind_ret. eexists Continue, _. split; [done|]. change (unread (set_bulklen ll s1)) with (unread s1).
    split; [lia|]. split_and!; [|cbn; lia|done]. split; cbn; try done; lia.
Qed.

Lemma readBulk_any s : inRequest s → 0 < multibulklen s → 0 ≤ bulklen s →
  ∃ f s', readBulk s = Ok (f, s') ∧
    match f with
    | Continue => inRequest s' ∧ multibulklen s' = multibulklen s - 1 ∧ (length (unread s') < length (unread s))%nat
    | BreakLoop => s' = s
    | _ => False
    end.
Proof.
  intros [Hin Ht Hn Hroom Hbl Hdone Hop] Hpos Hb.
  unfold readBulk. rewrite (bind_run _ _ _ _ _ (bufPtr_run s Hin)), bind_get.
  destruct (Z.ltb_spec (sdslen (unread s)) (bulklen s + 2)) as [Hl|Hl]; unfold sdslen in Hl.
  { by exists BreakLoop, s. }
  case_match eqn:Hbig.
  - rewrite (bind_run _ _ _ tt (set_buf [] (qb_pos s)
      (set_argv (argv s ++ [createRawStringObject (take (Z.to_nat (sdslen (querybuf s) - 2)) (querybuf s))]) (argv_size s) s))).
    2:{ erewrite bind_run by (apply bufRead_run; lia). rewrite drop_0. by rewrite (bind_run _ _ _ _ _ (pushArg_run s _ ltac:(lia))). }
    assert (qb_pos s = 0) as Hz by lia. eexists Continue, _. split; [done|]. split_and!; [|done|].
    + split; cbn; rewrite ?length_app; cbn; try done; try lia. split; cbn; unfold sdslen; cbn; lia.
    + unfold unread at 1. cbn. rewrite drop_nil. cbn. lia.
  - set (s1 := set_argv (argv s ++ [createStringObject (take (Z.to_nat (bulklen s)) (unread s))]) (argv_size s) s).
    destruct (unread_set_pos s1 (take (Z.to_nat (bulklen s + 2)) (unread s)) (drop (Z.to_nat (bulklen s + 2)) (unread s))
                (bulklen s + 2)) as [Hin1 Hu1]; [done|by rewrite take_drop|rewrite length_take; lia|].
    rewrite Z.add_assoc in Hin1, Hu1.
    rewrite (bind_run _ _ _ tt (set_pos (qb_pos s1 + bulklen s + 2) s1)).
    2:{ erewrite bind_run by (apply bufRead_run; unfold sdslen; lia). rewrite drop_0. by rewrite (bind_run _ _ _ _ _ (pushArg_run s _ ltac:(lia))). }
    eexists Continue, _. split; [done|]. split_and!; [|done|].
    + split; cbn; rewrite ?length_app; cbn; try done; lia.
    + change (unread (set_multibulklen _ (set_bulklen _ ?s))) with (unread s) in *.
      replace (unread _) with (drop (Z.to_nat (bulklen s + 2)) (unread s)) by (symmetry; exact Hu1).
      rewrite length_drop. lia.
Qed.

Lemma bulkLoop_any fuel s : inRequest s → Z.to_nat (multibulklen s) = fuel →
  ∃ f s', bulkLoop fuel s = Ok (f, s') ∧ (length (unread s') ≤ length (unread s))%nat ∧
    match f with
    | BreakLoop => inRequest s' ∧ (multibulklen s' < multibulklen s → (length (unread s') < length (unread s))%nat) ∧
                   multibulklen s' ≤ multibulklen s
    | ReturnErr => refused s s'
    | _ => False
    end.
Proof.
  revert s. induction fuel as [|fuel IH]; intros s Hi Hfuel; pose proof (ir_count _ Hi) as Hn;
    cbn [Protocol.bulkLoop]; rewrite bind_gets.
  { replace (_ =? 0) with true by lia. exists BreakLoop, s. split_and!; [done..|lia|lia]. }
  replace (_ =? 0) with false by lia.
  destruct (readBulkLen_any s Hi) as (f & s1 & Hrun1 & Hle1 & H1); [lia|]. rewrite (bind_run _ _ _ _ _ Hrun1).
  destruct f; [|subst s1|done|].
  2:{ exists BreakLoop, s. split_and!; [done..|lia|lia]. }
  2:{ by exists ReturnErr, s1. }
  destruct H1 as (Hi1 & Hb1 & Hn1). destruct (readBulk_any s1 Hi1) as (f & s2 & Hrun2 & H2); [lia|done|].
  rewrite (bind_run _ _ _ _ _ Hrun2). destruct f; [|subst s2|done..].
  2:{ exists BreakLoop, s1. split_and!; [done..|lia|lia]. }
  destruct H2 as (Hi2 & Hn2 & Hlt2). destruct (IH s2 Hi2) as (f & s' & Hrun & Hle & Hres); [lia|].
  exists f, s'. split; [done|]. split; [lia|]. destruct f; [done| |done|].
  - destruct Hres as (? & ? & ?). split_and!; [done|lia|lia].
  - destruct Hres as (? & ? & ?). split_and!; [done..|lia].
Qed.

(** What a parser leaves: a request is complete and bytes were read, or there is
    more to come, or the client was refused. *)
Definition parsed (s : input) (ok : bool) (s' : input) (waiting : input → Prop) : Prop :=
  if ok then inside s' ∧ close s' = false ∧ (length (unread s') < length (unread s))%nat
  else refused s s' ∨ (waiting s' ∧ (length (unread s') ≤ length (unread s))%nat).

(** The header of a multibulk request is in the buffer, or the header was read and
    arguments are missing. *)
Definition multibulkState (s : input) : Prop :=
  reqtype s = PROTO_REQ_MULTIBULK ∧
  ((idle s ∧ peek (unread s) 0 = "*"%char) ∨ (inRequest s ∧ 0 < multibulklen s)).

Lemma bulks_any s : inRequest s → 0 < multibulklen s →
  ∃ ok s', (f ← bulkLoop (Z.to_nat (multibulklen s));
            match f with ReturnErr => mret false | _ => n ← gets multibulklen; mret (n =? 0) end) s = Ok (ok, s') ∧
    parsed s ok s' multibulkState.
Proof.
  intros Hi Hpos. destruct (bulkLoop_any _ s Hi eq_refl) as (f & s' & Hrun & Hle & Hres).
  rewrite (bind_run _ _ _ _ _ Hrun). destruct f; [done| |done|].
  - destruct Hres as (Hi' & Hlt & Hn'). rewrite bind_gets. exists (multibulklen s' =? 0), s'. split; [done|].
    unfold parsed. destruct (Z.eqb_spec (multibulklen s') 0) as [Hz|Hz].
    + split_and!; [by apply Hi'..|]. apply Hlt. lia.
    + right. split; [|done]. split; [by apply Hi'|]. right. split; [done|]. pose proof (ir_count _ Hi'). lia.
  - exists false, s'. split; [done|]. by left.
Qed.

Lemma processMultibulk_any s : multibulkState s →
  ∃ ok s', processMultibulkBuffer s = Ok (ok, s') ∧ parsed s ok s' multibulkState.
Proof.
  intros [Ht Hs]. unfold Protocol.processMultibulkBuffer. rewrite bind_gets.
  destruct Hs as [[Hid Hstar]|[Hi Hpos]].
  - rewrite (idle_count _ Hid). cbn [Z.eqb]. destruct (readMultibulkLen_any s Hid Ht Hstar) as (f & s1 & Hrun & Hres).
    rewrite (bind_run _ _ _ _ _ Hrun). destruct f; [|done|..].
    + destruct Hres as (Hi & Hpos & Hlt). rewrite bind_gets. erewrite bind_run by (apply serverAssert_run; lia).
      destruct (bulks_any s1 Hi Hpos) as (ok & s' & Hrun' & Hp). exists ok, s'. split; [done|].
      unfold parsed, refused in *. destruct ok; [destruct Hp as (? & ? & ?); split_and!; [done..|lia]|].
      destruct Hp as [(? & ? & ?)|[? ?]]; [left; split_and!; [done..|lia]|right; split; [done|lia]].
    + exists true, s1. split; [done|]. destruct Hres as [[] ?]. done.
    + exists false, s1. split; [done|]. destruct Hres as [->|Hr]; [right|by left]. split; [|done]. split; [done|]. by left.
  - replace (_ =? 0) with false by lia. rewrite bind_ret, bind_gets.
    erewrite bind_run by (apply serverAssert_run; lia). by apply bulks_any.
Qed.

Lemma processInline_any s : idle s →
  ∃ ok s', processInlineBuffer s = Ok (ok, s') ∧ parsed s ok s' (λ s', s' = s).
Proof.
  intros [Hin Hargv Hn Hbl Hop]. unfold processInlineBuffer. rewrite (bind_run _ _ _ _ _ (bufPtr_run s Hin)).
  destruct (strchr (unread s) LF) as [i|] eqn:Hs.
  2:{ case_match.
      - destruct (protocolError_run "too big inline request" s Hin) as (s' & Hrun & Hr). exists false, s'.
        rewrite (bind_run _ _ _ _ _ Hrun). split; [done|]. by left.
      - exists false, s. split; [done|]. by right. }
  apply strchr_Some in Hs as (q & r & Hu & ->).
  assert (Z.of_nat (length q) + 1 ≤ sdslen (unread s)) as Hfit by (rewrite Hu; unfold sdslen; rewrite length_app; cbn; lia).
  assert (∃ cr : bool, (if Z.of_nat (length q) =? 0 then mret false
            else c ← bufRead (unread s) (Z.of_nat (length q) - 1) 1; mret (bool_decide (c = [CR]))) s = Ok (cr, s) ∧
          (cr = true → 0 < Z.of_nat (length q))) as (cr & Hcr & Hcrq).
  { destruct (Z.eqb_spec (Z.of_nat (length q)) 0); [by exists false|]. erewrite bind_run by (apply bufRead_run; lia).
    eexists. split; [done|lia]. }
  rewrite (bind_run _ _ _ _ _ Hcr). cbv beta zeta. set (querylen := if cr then _ else _).
  assert (querylen + (if cr then 2 else 1) = Z.of_nat (length (q ++ [LF])) ∧ 0 ≤ querylen ≤ Z.of_nat (length q)) as [Hq Hql].
  { rewrite length_app. unfold querylen. destruct cr; cbn; [specialize (Hcrq eq_refl)|]; lia. }
  erewrite bind_run by (apply bufRead_run; lia). rewrite drop_0.
  destruct (sdssplitargs_total (take (Z.to_nat querylen) (unread s))) as ([args|] & ->).
  2:{ destruct (protocolError_run "unbalanced quotes in request" s Hin) as (s' & Hrun & Hr). exists false, s'.
      rewrite (bind_run _ _ _ _ _ Hrun). split; [done|]. by left. }
  destruct (unread_set_pos s (q ++ [LF]) r (querylen + if cr then 2 else 1)) as [Hin1 Hu1];
    [done|by rewrite <-(assoc_L (++))|done|]. rewrite Z.add_assoc in Hin1, Hu1.
  set (s1 := set_pos _ s) in *. rewrite !bind_modify.
  assert (∃ s', pushArgs args (set_argv [] (if Z.of_nat (length args) =? 0 then argv_size s1 else Z.of_nat (length args)) s1) =
            Ok (tt, s') ∧ inside s' ∧ close s' = false ∧ unread s' = unread s1) as (s' & Hrun & Hin' & Hop' & Hu').
  { destruct args as [|a args]; [by eexists|]. eexists. split; [apply pushArgs_run; cbn [argv argv_size set_argv length]|done].
    replace (_ =? 0) with false by lia. lia. }
  rewrite (bind_run _ _ _ _ _ Hrun). exists true, s'. split; [done|]. split_and!; [done..|].
  rewrite Hu', Hu1, Hu, length_app. cbn. lia.
Qed.

(** The states between two rounds of the loop. *)
Definition okInput (s : input) : Prop :=
  inside s ∧ (close s = true ∨ (reqtype s ≠ PROTO_REQ_MULTIBULK ∧ idle s) ∨ multibulkState s).

(** The type of the request is found, and its parser called. *)
Lemma typed_any s : inside s → close s = false →
  (reqtype s ≠ PROTO_REQ_MULTIBULK ∧ idle s) ∨ multibulkState s →
  let s0 := if bool_decide (reqtype s = REQ_NONE)
            then set_reqtype (if peek (unread s) 0 =c "*"%char then PROTO_REQ_MULTIBULK else PROTO_REQ_INLINE) s else s in
  ∃ ok s', (match reqtype s0 with
            | PROTO_REQ_INLINE => processInlineBuffer
            | PROTO_REQ_MULTIBULK => processMultibulkBuffer
            | REQ_NONE => fail (AssertFailed "Unknown request type") end) s0 = Ok (ok, s') ∧ parsed s ok s' okInput.
Proof.
  intros Hin Hop Hs s0.
  assert (∀ s1, multibulkState s1 → unread s1 = unread s → ∃ ok s', processMultibulkBuffer s1 = Ok (ok, s') ∧
            parsed s ok s' okInput) as Hmulti.
  { intros s1 Hs1 Hu1. destruct (processMultibulk_any s1 Hs1) as (ok & s' & Hrun & Hp). exists ok, s'. split; [done|].
    unfold parsed, refused in *. rewrite Hu1 in Hp. destruct ok; [done|]. destruct Hp as [?|[Hm ?]]; [by left|].
    right. split; [|done]. split; [|by right; right]. by destruct Hm as [_ [[[] _]|[[] _]]]. }
  assert (∀ s1, idle s1 → reqtype s1 = PROTO_REQ_INLINE → unread s1 = unread s →
            ∃ ok s', processInlineBuffer s1 = Ok (ok, s') ∧ parsed s ok s' okInput) as Hinline.
  { intros s1 Hid Ht1 Hu1. destruct (processInline_any s1 Hid) as (ok & s' & Hrun & Hp). exists ok, s'. split; [done|].
    unfold parsed, refused in *. rewrite Hu1 in Hp. destruct ok; [done|]. destruct Hp as [?|[-> ?]]; [by left|].
    right. split; [|done]. split; [by apply Hid|]. right. left. by rewrite Ht1. }
  destruct Hs as [[Ht Hid]|Hm].
  - destruct (reqtype s) eqn:Hr; [|unfold s0; rewrite bool_decide_eq_false_2, Hr by done; by apply Hinline|done].
    unfold s0. rewrite bool_decide_eq_true_2 by done. destruct (bool_decide_reflect (peek (unread s) 0 = "*"%char)).
    + apply Hmulti; [|done]. split; [done|]. left. split; [by destruct Hid|done].
    + apply Hinline; [by destruct Hid|done..].
  - unfold s0. pose proof Hm as [-> _]. rewrite bool_decide_eq_false_2 by done. pose proof Hm as [-> _].
    by apply Hmulti.
Qed.

Lemma nextRequest_any s : okInput s →
  ∃ r s', nextRequest s = Ok (r, s') ∧ okInput s' ∧ (length (unread s') ≤ length (unread s))%nat ∧
    (is_Some r → (length (unread s') < length (unread s))%nat).
Proof.
  intros [Hin Hs]. unfold Protocol.nextRequest. rewrite bind_get. destruct (close s) eqn:Hop.
  { exists None, s. split_and!; [done| |done|by intros []]. split; [done|]. by left. }
  destruct Hs as [?|Hs]; [congruence|].
  set (s0 := if bool_decide (reqtype s = REQ_NONE)
             then set_reqtype (if peek (unread s) 0 =c "*"%char then PROTO_REQ_MULTIBULK else PROTO_REQ_INLINE) s else s).
  rewrite (bind_run _ _ _ tt s0) by (unfold s0; case_match; [by rewrite (bind_run _ _ _ _ _ (charAtPos_run s Hin))|done]).
  rewrite bind_gets.
  assert (∃ ok s', (match reqtype s0 with
                    | PROTO_REQ_INLINE => processInlineBuffer
                    | PROTO_REQ_MULTIBULK => processMultibulkBuffer
                    | REQ_NONE => fail (AssertFailed "Unknown request type") end) s0 = Ok (ok, s') ∧
            parsed s ok s' okInput) as (ok & s' & Hrun & Hp).
  { by apply typed_any. }
  rewrite (bind_run _ _ _ _ _ Hrun). destruct ok.
  - destruct Hp as (Hin' & Hop' & Hlt). rewrite bind_gets. unfold resetInput. rewrite bind_modify.
    eexists _, _. split; [done|]. split_and!; [|exact (Nat.lt_le_incl _ _ Hlt)|done].
    split; [done|]. right. left. by split.
  - eexists _, _. split; [done|]. destruct Hp as [(Hin' & Hop' & Hle)|[Hok Hle]].
    + split_and!; [|done|by intros []]. split; [done|]. by left.
    + split_and!; [done..|by intros []].
Qed.

Lemma requestLoop_any fuel s : okInput s → (length (unread s) ≤ fuel)%nat →
  ∃ rs s', requestLoop fuel s = Ok (rs, s') ∧ okInput s'.
Proof.
  revert s. induction fuel as [|fuel IH]; intros s Hok Hfuel; pose proof (length_unread s (proj1 Hok)) as Hl;
    cbn [Protocol.requestLoop]; rewrite bind_get;
    destruct (Z.ltb_spec (qb_pos s) (sdslen (querybuf s))) as [Hlt|Hge]; cbn [negb].
  1: lia.
  1, 3: by exists [], s.
  destruct (nextRequest_any s Hok) as (r & s1 & Hrun & Hok1 & Hle & Hlt1). rewrite (bind_run _ _ _ _ _ Hrun).
  destruct r as [a|]; [|by exists [], s1].
  destruct (IH s1 Hok1) as (rs & s' & Hrun' & Hok'); [specialize (Hlt1 ltac:(done)); lia|].
  eexists _, s'. by rewrite (bind_run _ _ _ _ _ Hrun').
Qed.

Lemma okInput_buf s b pos : okInput s → inside (set_buf b pos s) → (∃ x, unread (set_buf b pos s) = unread s ++ x) →
  okInput (set_buf b pos s).
Proof.
  intros [Hin Hs] Hin' [x Hx]. split; [done|]. destruct Hs as [?|[[Ht []]|[Ht [[[] Hstar]|[[] ?]]]]].
  - by left.
  - right. left. split; [done|]. by split.
  - right. right. split; [done|]. left. split; [by split|]. rewrite Hx. by destruct (unread s).
  - right. right. split; [done|]. right. split; [by split|done].
Qed.

Lemma receive_any chunks s : okInput s → qb_pos s = 0 →
  ∃ r s', receive proto_max_bulk_len client_max_querybuf_len chunks s = Ok (r, s') ∧ okInput s'.
Proof.
  revert s. induction chunks as [|data chunks IH]; intros s Hok Hpos; [by exists (Some []), s|]. cbn [receive].
  unfold readQueryFromClient. set (s1 := set_buf (querybuf s ++ data) (qb_pos s) s).
  assert (okInput s1) as Hok1.
  { apply okInput_buf; [done| |].
    - split; cbn; rewrite Hpos; unfold sdslen; lia.
    - exists data. unfold unread. cbn. by rewrite Hpos. }
  destruct (client_max_querybuf_len <? sdslen (querybuf s1)) eqn:Hmax.
  { exists None, s1. split; [|done]. rewrite (bind_run _ _ _ None s1); [done|]. rewrite bind_modify, bind_get. fold s1. by rewrite Hmax. }
  destruct (requestLoop_any (length (querybuf s1)) s1 Hok1) as (rs & s2 & Hrun & Hok2).
  { unfold unread. rewrite length_drop. lia. }
  set (s3 := if negb (qb_pos s2 =? 0) then set_buf (sdsrange (querybuf s2) (qb_pos s2) (-1)) 0 s2 else s2).
  assert (okInput s3 ∧ qb_pos s3 = 0) as [Hok3 Hpos3].
  { unfold s3. destruct (Z.eqb_spec (qb_pos s2) 0); [done|]. cbn [negb]. rewrite unread_trim by apply Hok2.
    split; [|done]. apply okInput_buf; [done| |exists []; by rewrite app_nil_r].
    split; cbn; unfold sdslen; lia. }
  destruct (IH s3 Hok3 Hpos3) as (r & s' & Hrun' & Hok'). eexists _, s'. split; [|done].
  rewrite (bind_run _ _ _ (Some rs) s3).
  - cbn beta iota. by rewrite (bind_run _ _ _ _ _ Hrun').
  - rewrite bind_modify, bind_get. fold s1. rewrite Hmax. unfold Protocol.readRequests. erewrite bind_run; [done|].
    rewrite bind_get, (bind_run _ _ _ _ _ Hrun). by rewrite bind_modify.
Qed.

End AnyBytes.

(** C30. Whatever bytes a client sends, in whatever pieces, no assertion of the request
    parser fails, every access to the query buffer (the search for a line, the
    numbers, the first byte of an argument and the copied arguments) is inside of it
    or at its terminator, the position stays in the buffer, the arguments still to
    come have room in the argument vector, and each call ends. *)
Theorem parser_never_faults proto_max_bulk_len client_max_querybuf_len chunks :
  ∃ r s', receive proto_max_bulk_len client_max_querybuf_len chunks newInput = Ok (r, s') ∧
    0 ≤ qb_pos s' ≤ sdslen (querybuf s') ∧
    (close s' = false → Z.of_nat (length (argv s')) + multibulklen s' ≤ Z.max 0 (argv_size s')).
Proof.
  destruct (receive_any proto_max_bulk_len client_max_querybuf_len chunks newInput) as (r & s' & Hrun & Hin & Hs); [|done|].
  { split; [done|]. right. left. split; [done|]. by split. }
  exists r, s'. split; [done|]. split; [done|]. intros Hc. destruct Hs as [?|[[_ [_ -> -> _ _]]|[_ [[[_ -> -> _ _] _]|[[] _]]]]]; [congruence|cbn; lia..].
Qed.
