(* ===== verification/Backlog.v ===== *)
(** * Backlog: the replication backlog, src/src/replication.c

    A master keeps the last bytes of its replication stream in a circular buffer, so
    that a replica that was disconnected can go on from its offset ([PSYNC]).  The
    model has the buffer, its counters, the replication identifiers, and the decision
    of [masterTryPartialResynchronization].  Offsets are [long long] in the code; they
    count bytes sent and do not come near the limit, so they are [Z] here.  What
    [zmalloc] leaves in the buffer is arbitrary ([fresh]).  Replicas are numbers; the write
    to the connection of a replica can be short. *)

From Stdlib Require Import Ascii String ZifyBool.
From stdpp Require Import base tactics option strings numbers list.
From S2P Require Import Prelude Util.

Local Open Scope Z_scope.

Definition CONFIG_REPL_BACKLOG_MIN_SIZE : Z := 1024 * 16.

Record repl := mkRepl {
  repl_backlog : option bytes;
  repl_backlog_size : Z;
  repl_backlog_histlen : Z;
  repl_backlog_idx : Z;
  repl_backlog_off : Z;
  master_repl_offset : Z;
  master_repl_meaningful_offset : Z;
  replid : bytes;
  replid2 : bytes;
  second_replid_offset : Z;
  slaves : list nat }.

Definition set_backlog (b : option bytes) (size histlen idx off : Z) (s : repl) : repl :=
  mkRepl b size histlen idx off (master_repl_offset s) (master_repl_meaningful_offset s)
    (replid s) (replid2 s) (second_replid_offset s) (slaves s).
Definition set_offsets (off meaningful : Z) (s : repl) : repl :=
  mkRepl (repl_backlog s) (repl_backlog_size s) (repl_backlog_histlen s) (repl_backlog_idx s) (repl_backlog_off s)
    off meaningful (replid s) (replid2 s) (second_replid_offset s) (slaves s).
Definition set_ids (id id2 : bytes) (second : Z) (s : repl) : repl :=
  mkRepl (repl_backlog s) (repl_backlog_size s) (repl_backlog_histlen s) (repl_backlog_idx s) (repl_backlog_off s)
    (master_repl_offset s) (master_repl_meaningful_offset s) id id2 second (slaves s).
(** [listAddNodeTail(server.slaves,c)] *)
Definition add_slave (c : nat) (s : repl) : repl :=
  mkRepl (repl_backlog s) (repl_backlog_size s) (repl_backlog_histlen s) (repl_backlog_idx s) (repl_backlog_off s)
    (master_repl_offset s) (master_repl_meaningful_offset s) (replid s) (replid2 s) (second_replid_offset s)
    (slaves s ++ [c]).

Section Backlog.
Context (fresh : nat → ascii).

Definition zmalloc (size : Z) : bytes := fresh <$> seq 0 (Z.to_nat size).

(** ** The buffer *)

Definition createReplicationBacklog : M repl unit :=
  s ← get;
  serverAssert (bool_decide (repl_backlog s = None)) "createReplicationBacklog" ;;
  put (set_backlog (Some (zmalloc (repl_backlog_size s))) (repl_backlog_size s) 0 0 (master_repl_offset s + 1) s).

Definition resizeReplicationBacklog (newsize : Z) : M repl unit :=
  s ← get;
  let newsize := if newsize <? CONFIG_REPL_BACKLOG_MIN_SIZE then CONFIG_REPL_BACKLOG_MIN_SIZE else newsize in
  if repl_backlog_size s =? newsize then mret tt else
  match repl_backlog s with
  | Some _ => put (set_backlog (Some (zmalloc newsize)) newsize 0 0 (master_repl_offset s + 1) s)
  | None => put (set_backlog None newsize (repl_backlog_histlen s) (repl_backlog_idx s) (repl_backlog_off s) s)
  end.

Definition freeReplicationBacklog : M repl unit :=
  s ← get;
  serverAssert (bool_decide (slaves s = [])) "freeReplicationBacklog" ;;
  modify (λ s, set_backlog None (repl_backlog_size s) (repl_backlog_histlen s) (repl_backlog_idx s) (repl_backlog_off s) s).

(** [memcpy(server.repl_backlog+idx, p, ...)] *)
Definition writeBacklog (idx : Z) (p : bytes) : M repl unit :=
  s ← get;
  buf ← deref (repl_backlog s) "feedReplicationBacklog";
  if (0 <=? idx) && (idx + Z.of_nat (length p) <=? Z.of_nat (length buf)) then
    put (set_backlog (Some (take (Z.to_nat idx) buf ++ p ++ drop (Z.to_nat idx + length p) buf))
           (repl_backlog_size s) (repl_backlog_histlen s) (repl_backlog_idx s) (repl_backlog_off s) s)
  else fail (BadPointer "feedReplicationBacklog").

(** The loop [while(len)]: [p] is what is left to write, and every round writes at
    least one byte of it. *)
Fixpoint feedLoop (fuel : nat) (p : bytes) : M repl unit :=
  if bool_decide (p = []) then mret tt else
  match fuel with
  | O => fail (AssertFailed "feedReplicationBacklog: fuel")
  | S fuel =>
      s ← get;
      let room := repl_backlog_size s - repl_backlog_idx s in
      let thislen := if Z.of_nat (length p) <? room then Z.of_nat (length p) else room in
      writeBacklog (repl_backlog_idx s) (take (Z.to_nat thislen) p) ;;
      modify (λ s, let idx := repl_backlog_idx s + thislen in
        set_backlog (repl_backlog s) (repl_backlog_size s) (repl_backlog_histlen s + thislen)
          (if idx =? repl_backlog_size s then 0 else idx) (repl_backlog_off s) s) ;;
      feedLoop fuel (drop (Z.to_nat thislen) p)
  end.

Definition feedReplicationBacklog (p : bytes) : M repl unit :=
  modify (λ s, let off := master_repl_offset s + Z.of_nat (length p) in set_offsets off off s) ;;
  feedLoop (length p) p ;;
  modify (λ s, let histlen := if repl_backlog_size s <? repl_backlog_histlen s then repl_backlog_size s
                              else repl_backlog_histlen s in
    set_backlog (repl_backlog s) (repl_backlog_size s) histlen (repl_backlog_idx s)
      (master_repl_offset s - histlen + 1) s).

(** [sdsnewlen(server.repl_backlog + j, thislen)] *)
Definition readBacklog (j thislen : Z) : M repl bytes :=
  s ← get;
  buf ← deref (repl_backlog s) "addReplyReplicationBacklog";
  if (0 <=? j) && (0 <=? thislen) && (j + thislen <=? Z.of_nat (length buf)) then
    mret (take (Z.to_nat thislen) (drop (Z.to_nat j) buf))
  else fail (BadPointer "addReplyReplicationBacklog").

(** The loop [while(len)]; the bytes are those queued for the replica.  It runs at
    most twice. *)
Fixpoint replyLoop (fuel : nat) (j len : Z) : M repl bytes :=
  if len =? 0 then mret [] else
  match fuel with
  | O => fail (AssertFailed "addReplyReplicationBacklog: fuel")
  | S fuel =>
      s ← get;
      let thislen := if repl_backlog_size s - j <? len then repl_backlog_size s - j else len in
      x ← readBacklog j thislen;
      y ← replyLoop fuel 0 (len - thislen);
      mret (x ++ y)
  end.

Definition addReplyReplicationBacklog (offset : Z) : M repl bytes :=
  s ← get;
  if repl_backlog_histlen s =? 0 then mret [] else
  let skip := offset - repl_backlog_off s in
  let j := Z.rem (repl_backlog_idx s + (repl_backlog_size s - repl_backlog_histlen s)) (repl_backlog_size s) in
  let j := Z.rem (j + skip) (repl_backlog_size s) in
  replyLoop 2 j (repl_backlog_histlen s - skip).

(** ** The final PINGs of the stream *)

(** The PING of [replicationCron]: it does not move the meaningful offset. *)
Definition feedPing (p : bytes) : M repl unit :=
  before_ping ← gets master_repl_meaningful_offset;
  feedReplicationBacklog p ;;
  modify (λ s, set_offsets (master_repl_offset s) before_ping s).

Definition adjustMeaningfulReplOffset : M repl bool :=
  s ← get;
  if master_repl_meaningful_offset s <? master_repl_offset s then
    let delta := master_repl_offset s - master_repl_meaningful_offset s in
    put (set_offsets (master_repl_meaningful_offset s) (master_repl_meaningful_offset s)
      (if repl_backlog_histlen s <=? delta then
         set_backlog (repl_backlog s) (repl_backlog_size s) 0 0 (repl_backlog_off s) s
       else
         set_backlog (repl_backlog s) (repl_backlog_size s) (repl_backlog_histlen s - delta)
           (Z.rem (repl_backlog_idx s + (repl_backlog_size s - delta)) (repl_backlog_size s)) (repl_backlog_off s) s)) ;;
    mret true
  else mret false.

(** ** Replication identifiers *)

(** [getRandomHexChars] gives [id]. *)
Definition changeReplicationId (id : bytes) : M repl unit :=
  modify (λ s, set_ids id (replid2 s) (second_replid_offset s) s).

Definition clearReplicationId2 : M repl unit :=
  modify (λ s, set_ids (replid s) (replicate 40 "0"%char) (-1) s).

Definition shiftReplicationId (id : bytes) : M repl unit :=
  modify (λ s, set_ids (replid s) (replid s) (master_repl_offset s + 1) s) ;;
  changeReplicationId id.

Definition tolower (c : ascii) : ascii :=
  if (65 <=? code c) && (code c <=? 90) then ascii_of_nat (Z.to_nat (code c + 32)) else c.

(** [strcasecmp(a, b) == 0] *)
Definition strcaseeq (a b : bytes) : bool := bool_decide ((tolower <$> a) = (tolower <$> b)).

(** The line that accepts a partial resynchronization. *)
Definition continueLine (psync2 : bool) (id : bytes) : bytes :=
  if psync2 then list_ascii_of_string "+CONTINUE " ++ id ++ ["013"; "010"]%char
  else list_ascii_of_string "+CONTINUE" ++ ["013"; "010"]%char.

(** How [masterTryPartialResynchronization] ends: with [C_ERR], with [C_OK] after
    [freeClientAsync] because the line was not written, or with [C_OK] and the data that
    is queued after the line. *)
Inductive psyncResult := NeedFullResync | FreedAsync | Continued (line data : bytes).

(** [connWrite] is what the function of that name returns for the line; [psync2] is
    [SLAVE_CAPA_PSYNC2]; [psync_offset] is [None] when the argument is not a number, and an
    error is replied. *)
Definition masterTryPartialResynchronization (c : nat) (psync2 : bool) (connWrite : bytes → Z)
    (master_replid : bytes) (psync_offset : option Z) : M repl psyncResult :=
  match psync_offset with
  | None => mret NeedFullResync
  | Some psync_offset =>
      s ← get;
      if negb (strcaseeq master_replid (replid s)) &&
         (negb (strcaseeq master_replid (replid2 s)) || (second_replid_offset s <? psync_offset))
      then mret NeedFullResync
      else if bool_decide (repl_backlog s = None) || (psync_offset <? repl_backlog_off s) ||
              (repl_backlog_off s + repl_backlog_histlen s <? psync_offset)
      then mret NeedFullResync
      else
        modify (add_slave c) ;;
        let buf := continueLine psync2 (replid s) in
        if negb (connWrite buf =? Z.of_nat (length buf)) then mret FreedAsync
        else x ← addReplyReplicationBacklog psync_offset; mret (Continued buf x)
  end.

End Backlog.
