(* ===== verification/BacklogProps.v ===== *)
(** * BacklogProps: the backlog holds the end of the replication stream

    The buffer, read from the oldest byte to the newest, ends with the last
    [histlen] bytes of the stream; a replica that is accepted for a partial
    resynchronization gets exactly the bytes of the stream it does not have.  There is one
    state in which the code does not keep this: when the final PINGs are dropped and there
    were more of them than the backlog held, the offset of its first byte is after the end
    of the stream until the next byte is fed. *)

From Stdlib Require Import Ascii String ZifyBool.
From stdpp Require Import base tactics option strings numbers list.
From S2P Require Import Prelude Util Backlog.

Local Open Scope Z_scope.

(** ** The end of a list *)

Definition lastN {A} (n : nat) (l : list A) : list A := drop (length l - n) l.

Lemma length_lastN {A} n (l : list A) : length (lastN n l) = Nat.min n (length l).
Proof. unfold lastN. rewrite length_drop. lia. Qed.

Lemma lastN_app {A} n (l k : list A) : (n ≤ length k)%nat → lastN n (l ++ k) = lastN n k.
Proof.
  intros. unfold lastN. rewrite length_app, drop_app_ge by lia. f_equal. lia.
Qed.

Lemma lastN_app_ge {A} n (l k : list A) : (length k ≤ n)%nat → lastN n (l ++ k) = lastN (n - length k) l ++ k.
Proof.
  intros. unfold lastN. rewrite length_app. destruct (decide (length l + length k ≤ n)%nat).
  - replace (length l + length k - n)%nat with 0%nat by lia. by replace (length l - _)%nat with 0%nat by lia.
  - rewrite drop_app_le by lia. f_equal. f_equal. lia.
Qed.

Lemma lastN_all {A} n (l : list A) : (length l ≤ n)%nat → lastN n l = l.
Proof. intros. unfold lastN. by replace (length l - n)%nat with 0%nat by lia. Qed.

Lemma lastN_lastN {A} n m (l : list A) : (n ≤ m)%nat → lastN n (lastN m l) = lastN n l.
Proof. intros. unfold lastN. rewrite length_drop, drop_drop. f_equal. lia. Qed.

Lemma lastN_lastN_app {A} n (l k : list A) : lastN n (lastN n l ++ k) = lastN n (l ++ k).
Proof.
  destruct (decide (n ≤ length k)%nat).
  - by rewrite !lastN_app.
  - rewrite !lastN_app_ge by lia. by rewrite lastN_lastN by lia.
Qed.

(** Lists that end in the same way, before and after adding to them. *)
Lemma lastN_common {A} n (l l' k : list A) : (n ≤ length l)%nat → (n ≤ length l')%nat → lastN n l = lastN n l' →
  ∀ m, (m ≤ n + length k)%nat → lastN m (l ++ k) = lastN m (l' ++ k).
Proof.
  intros Hl Hl' Heq m Hm. unfold lastN in Heq.
  assert (∀ x : list A, (n ≤ length x)%nat → lastN m (x ++ k) = lastN m (drop (length x - n) x ++ k)) as Hx.
  { intros x Hn. rewrite <-(take_drop (length x - n) x) at 1. rewrite <-(assoc_L (++)). apply lastN_app.
    rewrite length_app, length_drop. lia. }
  rewrite (Hx l), (Hx l') by done. by rewrite Heq.
Qed.

(** ** The ring *)

(** The buffer from the oldest byte to the newest. *)
Definition ring (idx : Z) (buf : bytes) : bytes := drop (Z.to_nat idx) buf ++ take (Z.to_nat idx) buf.

Lemma length_ring idx buf : length (ring idx buf) = length buf.
Proof. unfold ring. rewrite length_app, length_drop, length_take. lia. Qed.

(** Writing over the oldest bytes. *)
Lemma ring_write idx buf c : 0 ≤ idx → idx + Z.of_nat (length c) ≤ Z.of_nat (length buf) →
  let buf' := take (Z.to_nat idx) buf ++ c ++ drop (Z.to_nat idx + length c) buf in
  let idx' := idx + Z.of_nat (length c) in
  length buf' = length buf ∧
  ring (if idx' =? Z.of_nat (length buf) then 0 else idx') buf' = lastN (length buf) (ring idx buf ++ c).
Proof.
  intros Hidx Hle buf' idx'. assert (length buf' = length buf) as Hlen.
  { unfold buf'. rewrite !length_app, length_take, length_drop. lia. }
  split; [done|]. unfold lastN. rewrite length_app, length_ring.
  replace (length buf + length c - length buf)%nat with (length c) by lia.
  assert (drop (length c) (ring idx buf ++ c) = drop (Z.to_nat idx + length c) buf ++ take (Z.to_nat idx) buf ++ c) as ->.
  { unfold ring. rewrite <-(assoc_L (++)), drop_app_le by (rewrite length_drop; lia). by rewrite drop_drop. }
  destruct (Z.eqb_spec idx' (Z.of_nat (length buf))) as [Hend|Hend].
  - unfold ring, buf'. change (Z.to_nat 0) with 0%nat. rewrite (drop_ge buf) by lia. cbn. by rewrite !app_nil_r.
  - unfold ring, buf'. replace (Z.to_nat idx') with (Z.to_nat idx + length c)%nat by lia.
    rewrite (assoc_L (++)). rewrite drop_app_length', take_app_length' by (rewrite length_app, length_take; lia).
    done.
Qed.

(** Reading from any byte to the newest. *)
Lemma ring_read idx buf len : 0 ≤ idx < Z.of_nat (length buf) → 0 < len ≤ Z.of_nat (length buf) →
  let size := Z.of_nat (length buf) in
  let j := (idx + (size - len)) mod size in
  let thislen := if size - j <? len then size - j else len in
  0 ≤ j ∧ j + thislen ≤ size ∧ 0 < thislen ∧
  take (Z.to_nat thislen) (drop (Z.to_nat j) buf) ++ take (Z.to_nat (len - thislen)) buf = lastN (Z.to_nat len) (ring idx buf) ∧
  len - thislen ≤ size.
Proof.
  intros Hidx Hlen size j thislen.
  assert ((len ≤ idx ∧ j = idx - len) ∨ (idx < len ∧ j = idx + (size - len))) as [[Hc Hj]|[Hc Hj]].
  { unfold j. destruct (Z.le_gt_cases len idx); [left|right]; (split; [done|]).
    - rewrite <-(Z.mod_add _ (-1)), Z.mod_small; lia.
    - rewrite Z.mod_small; lia. }
  - assert (thislen = len) as -> by (unfold thislen; case_match; lia). split_and!; [lia..| |lia].
    rewrite Z.sub_diag, app_nil_r, Hj. unfold ring. rewrite lastN_app by (rewrite length_take; lia).
    unfold lastN. rewrite length_take, take_drop_commute. f_equal; [|f_equal]; lia.
  - assert (thislen = len - idx) as Hth by (unfold thislen; case_match; lia). split_and!; [lia..| |lia].
    rewrite Hj, Hth. unfold ring. rewrite lastN_app_ge by (rewrite length_take; lia). rewrite length_take.
    f_equal; [|f_equal; lia]. unfold lastN. rewrite length_drop, drop_drop, take_ge by (rewrite length_drop; lia).
    f_equal. lia.
Qed.

(** Moving the index back puts the newest bytes first. *)
Lemma ring_back idx buf d : 0 ≤ idx < Z.of_nat (length buf) → 0 ≤ d ≤ Z.of_nat (length buf) →
  let size := Z.of_nat (length buf) in
  ring ((idx + (size - d)) mod size) buf =
  lastN (Z.to_nat d) (ring idx buf) ++ take (length buf - Z.to_nat d) (ring idx buf).
Proof.
  intros Hidx Hd size. unfold ring. destruct (Z.le_gt_cases d idx) as [Hc|Hc].
  - replace ((idx + (size - d)) mod size) with (idx - d) by (rewrite <-(Z.mod_add _ (-1)), Z.mod_small; lia).
    rewrite lastN_app by (rewrite length_take; lia). unfold lastN. rewrite length_take.
    rewrite <-(take_drop (Z.to_nat (idx - d)) (take (Z.to_nat idx) buf)) at 2. rewrite (assoc_L (++)).
    replace (Z.to_nat idx `min` length buf - Z.to_nat d)%nat with (Z.to_nat (idx - d)) by lia.
    rewrite take_app_le by (rewrite length_app, length_drop, !length_take; lia).
    rewrite (take_ge (_ ++ _)) by (rewrite length_app, length_drop, !length_take; lia).
    rewrite (assoc_L (++)), take_take, Nat.min_l by lia. f_equal.
    rewrite <-(take_drop (Z.to_nat idx) buf) at 1. rewrite drop_app_le by (rewrite length_take; lia). done.
  - replace ((idx + (size - d)) mod size) with (idx + (size - d)) by (rewrite Z.mod_small; lia).
    rewrite lastN_app_ge by (rewrite length_take; lia). unfold lastN. rewrite length_take, length_drop, drop_drop.
    rewrite take_app_le by (rewrite length_drop; lia). rewrite <-(assoc_L (++)). f_equal; [f_equal; lia|].
    rewrite <-(take_drop (Z.to_nat idx) buf) at 1. rewrite take_app_ge by (rewrite length_take; lia). rewrite length_take.
    f_equal. f_equal. lia.
Qed.

Lemma lastN_take {A} n d (l : list A) : (d ≤ n ≤ length l)%nat → lastN (n - d) (take (length l - d) l) = take (n - d) (lastN n l).
Proof.
  intros. unfold lastN. rewrite length_take, take_drop_commute. f_equal; [lia|f_equal; lia].
Qed.

(** ** The backlog and the stream *)

Section Stream.
Context (fresh : nat → ascii).

(** The stream that follows offset [base] is [stream]; the buffer holds its end.  The
    offset of the first byte in the buffer is left out. *)
Record content (base : Z) (stream : bytes) (s : repl) : Prop := {
  h_buf : ∃ buf, repl_backlog s = Some buf ∧ Z.of_nat (length buf) = repl_backlog_size s ∧
    lastN (Z.to_nat (repl_backlog_histlen s)) (ring (repl_backlog_idx s) buf) =
    lastN (Z.to_nat (repl_backlog_histlen s)) stream;
  h_idx : 0 ≤ repl_backlog_idx s < repl_backlog_size s;
  h_histlen : 0 ≤ repl_backlog_histlen s ≤ repl_backlog_size s;
  h_stream : repl_backlog_histlen s ≤ Z.of_nat (length stream);
  h_offset : master_repl_offset s = base + Z.of_nat (length stream) }.

Definition firstOffset (s : repl) : Prop := repl_backlog_off s = master_repl_offset s - repl_backlog_histlen s + 1.

Definition sameIds (s s' : repl) : Prop :=
  replid s' = replid s ∧ replid2 s' = replid2 s ∧ second_replid_offset s' = second_replid_offset s.

(** The loop writes all the bytes, over the oldest ones. *)
Lemma feedLoop_run fuel p s buf : (length p ≤ fuel)%nat → repl_backlog s = Some buf →
  Z.of_nat (length buf) = repl_backlog_size s → 0 ≤ repl_backlog_idx s < repl_backlog_size s →
  ∃ buf' idx', feedLoop fuel p s = Ok (tt, set_backlog (Some buf') (repl_backlog_size s)
      (repl_backlog_histlen s + Z.of_nat (length p)) idx' (repl_backlog_off s) s) ∧
    length buf' = length buf ∧ 0 ≤ idx' < repl_backlog_size s ∧
    ring idx' buf' = lastN (length buf) (ring (repl_backlog_idx s) buf ++ p).
Proof.
  revert p s buf. induction fuel as [|fuel IH]; intros p s buf Hfuel Hbuf Hsize Hidx;
    cbn [feedLoop]; destruct (bool_decide_reflect (p = [])) as [->|Hp].
  1, 3: exists buf, (repl_backlog_idx s); rewrite app_nil_r, lastN_all, Z.add_0_r by (rewrite length_ring; lia);
    rewrite <-Hbuf; split_and!; [by destruct s|done|lia|lia|done].
  { destruct p; [done|cbn in Hfuel; lia]. }
  rewrite bind_get. set (room := repl_backlog_size s - repl_backlog_idx s).
  set (thislen := if Z.of_nat (length p) <? room then Z.of_nat (length p) else room).
  assert (0 < thislen ≤ Z.of_nat (length p) ∧ repl_backlog_idx s + thislen ≤ repl_backlog_size s) as [Hth Hroom].
  { assert (0 < Z.of_nat (length p)) by (destruct p; [done|cbn; lia]). unfold thislen, room. case_match; lia. }
  clearbody thislen. set (c := take (Z.to_nat thislen) p).
  assert (Z.of_nat (length c) = thislen) as Hc by (unfold c; rewrite length_take; lia).
  destruct (ring_write (repl_backlog_idx s) buf c) as [Hlen Hring]; [lia..|].
  set (buf1 := take (Z.to_nat (repl_backlog_idx s)) buf ++ c ++ drop (Z.to_nat (repl_backlog_idx s) + length c) buf) in *.
  rewrite (bind_run _ _ _ tt (set_backlog (Some buf1) (repl_backlog_size s) (repl_backlog_histlen s) (repl_backlog_idx s)
             (repl_backlog_off s) s)).
  2:{ unfold writeBacklog. rewrite bind_get, Hbuf, bind_deref. by replace (_ && _) with true by lia. }
  rewrite bind_modify. rewrite Hc, Hsize in Hring.
  set (idx1 := if repl_backlog_idx s + thislen =? repl_backlog_size s then 0 else repl_backlog_idx s + thislen) in *.
  edestruct (IH (drop (Z.to_nat thislen) p) (set_backlog (Some buf1) (repl_backlog_size s) (repl_backlog_histlen s + thislen)
    idx1 (repl_backlog_off s) s) buf1) as (buf' & idx' & Hrun & Hlen' & Hidx' & Hring').
  { rewrite length_drop. lia. }
  { done. }
  { cbn. lia. }
  { cbn. unfold idx1. case_match; lia. }
  exists buf', idx'. split_and!; [|lia|apply Hidx'..|].
  - etrans; [exact Hrun|]. unfold set_backlog. cbn. do 3 f_equal. rewrite length_drop. lia.
  - rewrite Hring'. cbn [repl_backlog_idx set_backlog]. rewrite Hring, Hlen, lastN_lastN_app, <-(assoc_L (++)).
    unfold c. by rewrite take_drop.
Qed.

Lemma feed_content base stream s p : content base stream s →
  ∃ s', feedReplicationBacklog p s = Ok (tt, s') ∧ content base (stream ++ p) s' ∧ firstOffset s' ∧
    repl_backlog_size s' = repl_backlog_size s ∧ master_repl_meaningful_offset s' = master_repl_offset s' ∧
    repl_backlog_histlen s' = Z.min (repl_backlog_size s) (repl_backlog_histlen s + Z.of_nat (length p)) ∧ sameIds s s'.
Proof.
  intros [(buf & Hbuf & Hsize & Hhist) Hidx Hhl Hst Hoff]. unfold feedReplicationBacklog. rewrite bind_modify.
  set (s0 := set_offsets _ _ s).
  destruct (feedLoop_run (length p) p s0 buf) as (buf' & idx' & Hrun & Hlen' & Hidx' & Hring); [done..|].
  rewrite (bind_run _ _ _ _ _ Hrun). eexists. split; [done|].
  assert (length stream ≥ Z.to_nat (repl_backlog_histlen s))%nat by lia.
  assert ((if repl_backlog_size s <? repl_backlog_histlen s + Z.of_nat (length p) then repl_backlog_size s
           else repl_backlog_histlen s + Z.of_nat (length p)) =
          Z.min (repl_backlog_size s) (repl_backlog_histlen s + Z.of_nat (length p))) as Hif by (case_match; lia).
  split; [|done]. split; cbn -[Z.to_nat Z.of_nat length]; rewrite ?Hif, ?length_app; cbn in *; try lia.
  exists buf'. split; [done|]. split; [lia|]. rewrite Hring, lastN_lastN by lia.
  apply (lastN_common (Z.to_nat (repl_backlog_histlen s))); rewrite ?length_ring; [lia..|done|lia].
Qed.

(** What [addReplyReplicationBacklog] sends: the stream from [offset] on. *)
Lemma reply_content base stream s offset : content base stream s → firstOffset s →
  repl_backlog_off s ≤ offset ≤ repl_backlog_off s + repl_backlog_histlen s →
  addReplyReplicationBacklog offset s = Ok (drop (Z.to_nat (offset - 1 - base)) stream, s).
Proof.
  intros [(buf & Hbuf & Hsize & Hhist) Hidx Hhl Hst Hoff] Hroff Hrange. unfold firstOffset in Hroff. unfold addReplyReplicationBacklog.
  rewrite bind_get. destruct (Z.eqb_spec (repl_backlog_histlen s) 0) as [Hz|Hz].
  { rewrite drop_ge by lia. done. }
  set (skip := offset - repl_backlog_off s). set (len := repl_backlog_histlen s - skip).
  assert (drop (Z.to_nat (offset - 1 - base)) stream = lastN (Z.to_nat len) stream) as ->.
  { unfold lastN. f_equal. unfold len, skip. lia. }
  assert (Z.rem (Z.rem (repl_backlog_idx s + (repl_backlog_size s - repl_backlog_histlen s)) (repl_backlog_size s) + skip)
            (repl_backlog_size s) = (repl_backlog_idx s + (repl_backlog_size s - len)) mod repl_backlog_size s) as ->.
  { rewrite !Z.rem_mod_nonneg, Zplus_mod_idemp_l by
      (try lia; rewrite ?Z.rem_mod_nonneg by lia; pose proof (Z.mod_pos_bound (repl_backlog_idx s + (repl_backlog_size s - repl_backlog_histlen s)) (repl_backlog_size s)); unfold skip; lia).
    f_equal. unfold len. lia. }
  destruct (Z.eqb_spec len 0) as [Hl0|Hl0].
  { rewrite Hl0. cbn. unfold lastN. rewrite Nat.sub_0_r, drop_all. done. }
  destruct (ring_read (repl_backlog_idx s) buf len) as (Hj & Hth & Hpos & Hread & Hrest);
    [lia|unfold len, skip; lia|]. rewrite Hsize in Hj, Hth, Hpos, Hread, Hrest.
  set (j := (_ + _) mod _) in *. set (thislen := if _ <? len then _ else _) in *.
  cbn [replyLoop]. replace (len =? 0) with false by lia. rewrite bind_get. fold thislen.
  assert (∀ j' n, 0 ≤ j' → 0 ≤ n → j' + n ≤ repl_backlog_size s →
            readBacklog j' n s = Ok (take (Z.to_nat n) (drop (Z.to_nat j') buf), s)) as Hrd.
  { intros. unfold readBacklog. rewrite bind_get, Hbuf, bind_deref. by replace (_ && _ && _) with true by lia. }
  rewrite (bind_run _ _ _ _ _ (Hrd j thislen ltac:(lia) ltac:(lia) ltac:(lia))).
  rewrite (bind_run _ _ _ (take (Z.to_nat (len - thislen)) buf) s).
  { unfold mret, M_ret. rewrite Hread. do 2 f_equal. apply (f_equal (lastN (Z.to_nat len))) in Hhist.
    by rewrite !lastN_lastN in Hhist by (unfold len, skip; lia). }
  cbn [replyLoop]. destruct (Z.eqb_spec (len - thislen) 0) as [Hz'|Hz']; [by rewrite Hz'|].
  assert (0 ≤ len - thislen) as Hge by (unfold thislen; case_match; lia).
  rewrite bind_get, Z.sub_0_r. replace (if _ <? len - thislen then _ else _) with (len - thislen) by (case_match; lia).
  rewrite (bind_run _ _ _ _ _ (Hrd 0 (len - thislen) ltac:(lia) ltac:(lia) ltac:(lia))).
  rewrite Z.sub_diag. cbn [replyLoop Z.eqb].
  rewrite bind_ret. unfold mret, M_ret. by rewrite app_nil_r.
Qed.

(** Dropping the final PINGs, when the backlog has more than them. *)
Lemma adjust_content base stream pings s : content base (stream ++ pings) s → firstOffset s → pings ≠ [] →
  master_repl_meaningful_offset s = base + Z.of_nat (length stream) → Z.of_nat (length pings) < repl_backlog_histlen s →
  ∃ s', adjustMeaningfulReplOffset s = Ok (true, s') ∧ content base stream s' ∧ firstOffset s' ∧
    repl_backlog_histlen s' = repl_backlog_histlen s - Z.of_nat (length pings) ∧
    master_repl_meaningful_offset s' = master_repl_offset s' ∧ repl_backlog_size s' = repl_backlog_size s ∧ sameIds s s'.
Proof.
  intros [(buf & Hbuf & Hsize & Hhist) Hidx Hhl Hst Hoff] Hroff Hne Hm Hlt. unfold firstOffset in Hroff. rewrite length_app in *.
  unfold adjustMeaningfulReplOffset. rewrite bind_get. rewrite Hm, Hoff.
  assert (0 < Z.of_nat (length pings)) as Hp by (destruct pings; [done|cbn; lia]). rewrite (proj2 (Z.ltb_lt _ _)) by lia.
  set (delta := base + _ - _). assert (delta = Z.of_nat (length pings)) as Hd by (unfold delta; lia). clearbody delta.
  eexists. split; [done|]. replace (_ <=? delta) with false by lia. rewrite Z.rem_mod_nonneg by lia.
  pose proof (Z.mod_pos_bound (repl_backlog_idx s + (repl_backlog_size s - delta)) (repl_backlog_size s) ltac:(lia)) as Hb.
  split; [|unfold firstOffset; cbn -[Z.of_nat length]; split_and!; [lia|lia|done..]].
  split; cbn -[Z.to_nat Z.of_nat length]; [|lia..]. exists buf. split; [done|]. split; [done|].
  rewrite <-Hsize. rewrite ring_back by lia. rewrite lastN_app by (rewrite length_take, length_ring; lia).
  rewrite <-(length_ring (repl_backlog_idx s) buf).
  replace (Z.to_nat (repl_backlog_histlen s - delta)) with (Z.to_nat (repl_backlog_histlen s) - Z.to_nat delta)%nat by lia.
  replace (Z.to_nat delta) with (length pings) by lia.
  rewrite lastN_take, Hhist, lastN_app_ge by (rewrite ?length_ring; lia).
  apply take_app_length'. rewrite length_lastN. lia.
Qed.

Lemma lastN_0 {A} (l k : list A) : lastN (Z.to_nat 0) l = lastN (Z.to_nat 0) k.
Proof. unfold lastN. by rewrite !Nat.sub_0_r, !drop_all. Qed.

(** Dropping them when the backlog has nothing else: it is empty, and the offset of its
    first byte is left as it was. *)
Lemma adjust_empties base stream pings s : content base (stream ++ pings) s → pings ≠ [] →
  master_repl_meaningful_offset s = base + Z.of_nat (length stream) → repl_backlog_histlen s ≤ Z.of_nat (length pings) →
  ∃ s', adjustMeaningfulReplOffset s = Ok (true, s') ∧ content base stream s' ∧ repl_backlog_histlen s' = 0 ∧
    repl_backlog_off s' = repl_backlog_off s ∧ master_repl_meaningful_offset s' = master_repl_offset s' ∧
    repl_backlog_size s' = repl_backlog_size s ∧ sameIds s s'.
Proof.
  intros [(buf & Hbuf & Hsize & Hhist) Hidx Hhl Hst Hoff] Hne Hm Hle. rewrite length_app in *.
  unfold adjustMeaningfulReplOffset. rewrite bind_get. rewrite Hm, Hoff.
  assert (0 < Z.of_nat (length pings)) as Hp by (destruct pings; [done|cbn; lia]). rewrite (proj2 (Z.ltb_lt _ _)) by lia.
  eexists. split; [done|]. replace (_ <=? _) with true by lia. split; [|done].
  split; cbn -[Z.to_nat Z.of_nat length]; [|lia..]. exists buf. split; [done|]. split; [done|]. apply lastN_0.
Qed.

Lemma zmalloc_length n : 0 ≤ n → Z.of_nat (length (zmalloc fresh n)) = n.
Proof. intros. unfold zmalloc. rewrite length_fmap, length_seq. lia. Qed.

(** An empty backlog at the end of any stream. *)
Lemma empty_content base stream s size : 0 < size → master_repl_offset s = base + Z.of_nat (length stream) →
  let s' := set_backlog (Some (zmalloc fresh size)) size 0 0 (master_repl_offset s + 1) s in
  content base stream s' ∧ firstOffset s'.
Proof.
  intros Hs Ho s'. split; [|unfold firstOffset; cbn; lia]. split; cbn -[Z.to_nat]; [|lia..].
  eexists. split; [done|]. split; [apply zmalloc_length; lia|]. apply lastN_0.
Qed.

(** ** What happens to a backlog *)

Inductive backlogOp :=
  | FeedStream (p : bytes)
  | FeedPing (p : bytes)
  | ResizeTo (n : Z)
  | AdjustOffset
  | ShiftId (id : bytes)
  | ChangeId (id : bytes)
  | ClearId2.

Definition runBacklogOp (op : backlogOp) : M repl unit :=
  match op with
  | FeedStream p => feedReplicationBacklog p
  | FeedPing p => feedPing p
  | ResizeTo n => resizeReplicationBacklog fresh n
  | AdjustOffset => adjustMeaningfulReplOffset ;; mret tt
  | ShiftId id => shiftReplicationId id
  | ChangeId id => changeReplicationId id
  | ClearId2 => clearReplicationId2
  end.

Fixpoint runBacklog (ops : list backlogOp) : M repl unit :=
  match ops with [] => mret tt | op :: ops => runBacklogOp op ;; runBacklog ops end.

(** *** The meaning of the operations *)

(** The stream since the backlog was created, how many of its last bytes the backlog of
    [hs_size] bytes has, how many of them are PINGs that do not count, and the replication
    identifiers.  [hs_stale] is the offset after the end of the stream at which an empty
    backlog says it starts, if it does. *)
Record history := mkHistory {
  hs_size : Z;
  hs_stream : bytes;
  hs_window : nat;
  hs_pings : nat;
  hs_stale : option Z;
  hs_id : bytes;
  hs_id2 : bytes;
  hs_second : Z }.

Definition fed (p : bytes) (pings : nat) (h : history) : history :=
  mkHistory (hs_size h) (hs_stream h ++ p) (Nat.min (Z.to_nat (hs_size h)) (hs_window h + length p)) pings None
    (hs_id h) (hs_id2 h) (hs_second h).

Definition historyStep (base : Z) (op : backlogOp) (h : history) : history :=
  let len := length (hs_stream h) in
  match op with
  | FeedStream p => fed p 0 h
  | FeedPing p => fed p (hs_pings h + length p) h
  | ResizeTo n =>
      let n := Z.max CONFIG_REPL_BACKLOG_MIN_SIZE n in
      if decide (hs_size h = n) then h
      else mkHistory n (hs_stream h) 0 (hs_pings h) None (hs_id h) (hs_id2 h) (hs_second h)
  | AdjustOffset =>
      if decide (hs_pings h = 0%nat) then h
      else mkHistory (hs_size h) (take (len - hs_pings h) (hs_stream h)) (hs_window h - hs_pings h) 0
             (if decide (hs_window h < hs_pings h)%nat then Some (base + Z.of_nat len - Z.of_nat (hs_window h) + 1) else None)
             (hs_id h) (hs_id2 h) (hs_second h)
  | ShiftId id => mkHistory (hs_size h) (hs_stream h) (hs_window h) (hs_pings h) (hs_stale h) id (hs_id h) (base + Z.of_nat len + 1)
  | ChangeId id => mkHistory (hs_size h) (hs_stream h) (hs_window h) (hs_pings h) (hs_stale h) id (hs_id2 h) (hs_second h)
  | ClearId2 => mkHistory (hs_size h) (hs_stream h) (hs_window h) (hs_pings h) (hs_stale h) (hs_id h) (replicate 40 "0"%char) (-1)
  end.

Definition historyOf (base : Z) (ops : list backlogOp) (h : history) : history := foldl (flip (historyStep base)) h ops.

(** What a replica that asks for [offset] is sent, [None] when it has to synchronize
    completely. *)
Definition psyncAnswer (base : Z) (h : history) (id : bytes) (offset : option Z) : option bytes :=
  o ← offset;
  let last := base + Z.of_nat (length (hs_stream h)) in
  if strcaseeq id (hs_id h) || (strcaseeq id (hs_id2 h) && (o <=? hs_second h)) then
    match hs_stale h with
    | Some lost => if o =? lost then Some [] else None
    | None => if (last - Z.of_nat (hs_window h) <? o) && (o <=? last + 1)
              then Some (drop (Z.to_nat (o - 1 - base)) (hs_stream h)) else None
    end
  else None.

(** The state [s] implements the history [h]. *)
Record keeps (base : Z) (h : history) (s : repl) : Prop := {
  k_content : content base (hs_stream h) s;
  k_size : repl_backlog_size s = hs_size h;
  k_window : repl_backlog_histlen s = Z.of_nat (hs_window h);
  k_pings : (hs_pings h ≤ length (hs_stream h))%nat;
  k_meaningful : master_repl_meaningful_offset s = master_repl_offset s - Z.of_nat (hs_pings h);
  k_off : match hs_stale h with
          | None => firstOffset s
          | Some o => repl_backlog_off s = o ∧ hs_window h = 0%nat ∧ hs_pings h = 0%nat ∧ master_repl_offset s + 1 < o
          end;
  k_ids : replid s = hs_id h ∧ replid2 s = hs_id2 h ∧ second_replid_offset s = hs_second h }.

Lemma feed_keeps base h s p : keeps base h s →
  ∃ s', feedReplicationBacklog p s = Ok (tt, s') ∧ keeps base (fed p 0 h) s'.
Proof.
  intros [Hc Hsz Hw Hp Hm Ho Hi]. destruct (feed_content _ _ s p Hc) as (s' & Hrun & Hc' & Hf' & Hs' & Hm' & Hl' & Hi1 & Hi2 & Hi3).
  exists s'. split; [done|]. pose proof (h_histlen _ _ _ Hc). pose proof (h_idx _ _ _ Hc).
  split; cbn -[Z.to_nat]; [done|congruence|rewrite Hl', Hsz, Hw; lia|lia|lia|done|by rewrite Hi1, Hi2, Hi3].
Qed.

Lemma ping_keeps base h s p : keeps base h s →
  ∃ s', feedPing p s = Ok (tt, s') ∧ keeps base (fed p (hs_pings h + length p) h) s'.
Proof.
  intros Hk. destruct (feed_keeps base h s p Hk) as (s' & Hrun & [[] ? ? ? Hm ? ?]).
  unfold feedPing. rewrite bind_gets, (bind_run _ _ _ _ _ Hrun). eexists. split; [done|]. pose proof Hk as [[] _ _ Hp Hm0 _ _].
  split; cbn -[Z.to_nat] in *; try done; [rewrite length_app; lia|]. rewrite length_app in *. lia.
Qed.

Lemma resize_keeps base h s n : keeps base h s →
  ∃ s', resizeReplicationBacklog fresh n s = Ok (tt, s') ∧ keeps base (historyStep base (ResizeTo n) h) s'.
Proof.
  intros Hk. pose proof Hk as [Hc Hsz Hw Hp Hm Ho Hi]. unfold resizeReplicationBacklog. rewrite bind_get. cbn [historyStep].
  replace (if n <? CONFIG_REPL_BACKLOG_MIN_SIZE then CONFIG_REPL_BACKLOG_MIN_SIZE else n) with (Z.max CONFIG_REPL_BACKLOG_MIN_SIZE n)
    by (destruct (Z.ltb_spec n CONFIG_REPL_BACKLOG_MIN_SIZE); lia).
  set (n' := Z.max _ _). assert (0 < n') by (unfold n', CONFIG_REPL_BACKLOG_MIN_SIZE; lia). rewrite Hsz.
  destruct (Z.eqb_spec (hs_size h) n'), (decide (hs_size h = n')); [by exists s|done..|].
  pose proof (h_buf _ _ _ Hc) as (buf & -> & _). eexists. split; [done|].
  destruct (empty_content base (hs_stream h) s n') as [Hc' Hf']; [done|apply Hc|]. by split.
Qed.

Lemma adjust_keeps base h s : keeps base h s →
  ∃ s', (adjustMeaningfulReplOffset ;; mret tt) s = Ok (tt, s') ∧ keeps base (historyStep base AdjustOffset h) s'.
Proof.
  intros Hk. pose proof Hk as [Hc Hsz Hw Hp Hm Ho (Hi1 & Hi2 & Hi3)]. cbn [historyStep]. set (len := length (hs_stream h)) in *.
  case_decide as Hz.
  { exists s. split; [|done]. erewrite bind_run; [done|]. unfold adjustMeaningfulReplOffset. rewrite bind_get.
    by rewrite (proj2 (Z.ltb_ge _ _)) by lia. }
  assert (hs_stale h = None) as Hstale by (destruct (hs_stale h); [by destruct Ho as (_ & _ & ? & _)|done]). rewrite Hstale in Ho.
  rewrite <-(take_drop (len - hs_pings h) (hs_stream h)) in Hc. set (stream := take _ _) in *. set (pings := drop _ _) in *.
  assert (length pings = hs_pings h) as Hlp by (unfold pings; rewrite length_drop; lia).
  assert (length stream = len - hs_pings h)%nat as Hls by (unfold stream; rewrite length_take; lia).
  assert (pings ≠ []) as Hne by (intros ->; cbn in Hlp; lia).
  assert (master_repl_meaningful_offset s = base + Z.of_nat (length stream)) as Hm'.
  { rewrite Hm, (h_offset _ _ _ Hc), length_app. lia. }
  destruct (decide (repl_backlog_histlen s ≤ Z.of_nat (length pings))) as [Hle|Hgt].
  - destruct (adjust_empties base stream pings s) as (s' & Hrun & Hc' & Hl' & Ho' & Hm'' & Hs' & Hj1 & Hj2 & Hj3); [done..|].
    exists s'. rewrite (bind_run _ _ _ _ _ Hrun). split; [done|]. pose proof (h_offset _ _ _ Hc'). pose proof (h_offset _ _ _ Hc) as Hof.
    rewrite length_app in Hof. unfold firstOffset in Ho.
    split; cbn; [done|congruence|lia|lia|lia|case_decide; unfold firstOffset; lia|by rewrite Hj1, Hj2, Hj3].
  - destruct (adjust_content base stream pings s) as (s' & Hrun & Hc' & Hf' & Hl' & Hm'' & Hs' & Hj1 & Hj2 & Hj3); [done..|lia|].
    exists s'. rewrite (bind_run _ _ _ _ _ Hrun). split; [done|].
    split; cbn; [done|congruence|lia|lia|lia|rewrite decide_False by lia; done|by rewrite Hj1, Hj2, Hj3].
Qed.

Lemma runBacklogOp_keeps op base h s : keeps base h s →
  ∃ s', runBacklogOp op s = Ok (tt, s') ∧ keeps base (historyStep base op h) s'.
Proof.
  intros Hk. destruct op as [p|p|n| |id|id|]; cbn [runBacklogOp]; [by apply feed_keeps|by apply ping_keeps|by apply resize_keeps|
    by apply adjust_keeps|..]; (eexists; split; [done|]); destruct Hk as [[] ? ? ? ? ? (? & ? & ?)]; split; try done; cbn.
  split_and!; [done..|]. lia.
Qed.

Lemma runBacklog_keeps ops base h s : keeps base h s →
  ∃ s', runBacklog ops s = Ok (tt, s') ∧ keeps base (historyOf base ops h) s'.
Proof.
  revert h s. induction ops as [|op ops IH]; intros h s Hk; [by exists s|].
  destruct (runBacklogOp_keeps op base h s Hk) as (s1 & Hrun & Hk1). destruct (IH _ s1 Hk1) as (s' & Hrun' & Hk').
  exists s'. cbn [runBacklog]. by rewrite (bind_run _ _ _ _ _ Hrun).
Qed.

Lemma content_slave base stream c s : content base stream s → content base stream (add_slave c s).
Proof. by intros []. Qed.

(** *** A request of a replica *)

Definition psyncResultOf (psync2 : bool) (connWrite : bytes → Z) (c : nat) (r : option bytes) (s : repl) : psyncResult * repl :=
  match r with
  | None => (NeedFullResync, s)
  | Some data =>
      let line := continueLine psync2 (replid s) in
      (if connWrite line =? Z.of_nat (length line) then Continued line data else FreedAsync, add_slave c s)
  end.

Lemma psync_keeps base h s c psync2 connWrite id offset : keeps base h s →
  masterTryPartialResynchronization c psync2 connWrite id offset s =
  Ok (psyncResultOf psync2 connWrite c (psyncAnswer base h id offset) s).
Proof.
  intros [Hc Hsz Hw Hp Hm Ho (Hi1 & Hi2 & Hi3)]. unfold masterTryPartialResynchronization, psyncAnswer. destruct offset as [o|]; [|done].
  cbn [mbind option_bind]. rewrite bind_get, Hi1, Hi2, Hi3.
  replace (negb (strcaseeq id (hs_id h)) && (negb (strcaseeq id (hs_id2 h)) || (hs_second h <? o)))
    with (negb (strcaseeq id (hs_id h) || (strcaseeq id (hs_id2 h) && (o <=? hs_second h))))
    by (destruct (strcaseeq id (hs_id h)), (strcaseeq id (hs_id2 h)); cbn; lia).
  destruct (_ || _); cbn [negb]; [|done]. pose proof (h_buf _ _ _ Hc) as (buf & Hbuf & _). rewrite Hbuf, bool_decide_eq_false_2 by done.
  cbn [orb]. rewrite Hw. pose proof (h_offset _ _ _ Hc) as Hof.
  assert (∀ x, repl_backlog_off s ≤ o ≤ repl_backlog_off s + repl_backlog_histlen s →
    addReplyReplicationBacklog o (add_slave c s) = Ok (x, add_slave c s) →
    (modify (add_slave c) ;;
     let buf := continueLine psync2 (hs_id h) in
     if negb (connWrite buf =? Z.of_nat (length buf)) then mret FreedAsync
     else x ← addReplyReplicationBacklog o; mret (Continued buf x)) s = Ok (psyncResultOf psync2 connWrite c (Some x) s)) as Hsend.
  { intros x _ Hx. rewrite bind_modify. cbv zeta. unfold psyncResultOf. rewrite Hi1. destruct (_ =? _); cbn [negb]; [|done].
    by rewrite (bind_run _ _ _ _ _ Hx). }
  destruct (hs_stale h) as [lost|].
  - destruct Ho as (Ho & Hw0 & _ & Hlost). rewrite Ho, Hw0. destruct (Z.eqb_spec o lost) as [->|Hne].
    + replace (_ || _) with false by lia. apply Hsend; [lia|]. unfold addReplyReplicationBacklog. rewrite bind_get.
      cbn [repl_backlog_histlen add_slave]. by rewrite Hw, Hw0.
    + by replace (_ || _) with true by lia.
  - unfold firstOffset in Ho. destruct (_ && _) eqn:Hrange.
    + replace (_ || _) with false by lia. apply Hsend; [lia|]. apply reply_content; [by apply content_slave|done|cbn; lia].
    + by replace (_ || _) with true by lia.
Qed.

(** C31. After any sequence of writes to the replication stream, resizes of the backlog,
    PINGs, trimmings of the final PINGs and changes of the replication identifiers,
    beginning with the creation of a backlog of positive size when the meaningful
    offset is the offset, a PSYNC is answered exactly as the history says. For the
    current identifier, or the second one up to its offset, an offset that is in the
    backlog or at its end is answered with +CONTINUE and exactly the bytes of the
    stream from that offset on; every other one needs a full resynchronization. When
    a trimming dropped more bytes of PINGs than the backlog held and nothing has
    been written since, only the first offset the backlog had before is accepted,
    with no bytes, although the stream ends before it. The replica is added to the
    list of replicas also when the line cannot be sent. *)
Theorem partial_resync_sends_missing_bytes s0 ops : repl_backlog s0 = None → 0 < repl_backlog_size s0 →
  master_repl_meaningful_offset s0 = master_repl_offset s0 →
  let base := master_repl_offset s0 in
  let h := historyOf base ops
             (mkHistory (repl_backlog_size s0) [] 0 0 None (replid s0) (replid2 s0) (second_replid_offset s0)) in
  ∃ s, (createReplicationBacklog fresh ;; runBacklog ops) s0 = Ok (tt, s) ∧
    master_repl_offset s = base + Z.of_nat (length (hs_stream h)) ∧
    ∀ c psync2 connWrite id offset,
      masterTryPartialResynchronization c psync2 connWrite id offset s =
      Ok (psyncResultOf psync2 connWrite c (psyncAnswer base h id offset) s).
Proof.
  intros Hb Hs Hm base h. destruct (empty_content base [] s0 (repl_backlog_size s0)) as [Hc Hf]; [done|cbn; lia|].
  edestruct (runBacklog_keeps ops base
    (mkHistory (repl_backlog_size s0) [] 0 0 None (replid s0) (replid2 s0) (second_replid_offset s0))) as (s & Hrun & Hk).
  { split; [exact Hc|done|done|done|cbn; lia|exact Hf|done]. }
  exists s. split.
  { unfold createReplicationBacklog. erewrite bind_run; [exact Hrun|]. rewrite bind_get.
    by erewrite bind_run by (apply serverAssert_run; by rewrite Hb). }
  split; [apply Hk|]. intros. by apply psync_keeps.
Qed.

End Stream.

(** ** Sample backlogs *)

Definition sampleId : bytes := ["a"; "1"]%char.

(** No backlog yet; the offset is 100 and a backlog would have 8 bytes. *)
Definition sampleRepl : repl := mkRepl None 8 0 0 0 100 100 sampleId [] (-1) [].

Definition sampleStream : list backlogOp :=
  [FeedStream ["s"; "e"; "t"; "x"]%char; FeedPing ["p"; "i"; "n"; "g"]%char; FeedStream ["d"; "e"; "l"]%char;
   FeedPing ["p"; "i"]%char; AdjustOffset].

Lemma partial_resync_sends_missing_bytes_witness :
  ∃ s, (createReplicationBacklog (λ _, "?"%char) ;; runBacklog (λ _, "?"%char) sampleStream) sampleRepl = Ok (tt, s) ∧
    masterTryPartialResynchronization 3 false (λ b, Z.of_nat (length b)) ["A"; "1"]%char (Some 108) s =
    Ok (Continued (continueLine false sampleId) ["g"; "d"; "e"; "l"]%char, add_slave 3 s).
Proof.
  destruct (partial_resync_sends_missing_bytes (λ _, "?"%char) sampleRepl sampleStream) as (s & Hrun & Hoff & Hps);
    [reflexivity|reflexivity|reflexivity|]. exists s. split; [exact Hrun|]. rewrite Hps. unfold psyncResultOf.
  rewrite Z.eqb_refl. reflexivity.
Defined.

(** Room for 2 bytes, and a PING of 4: after it is dropped the offset 107 is accepted,
    although the stream ends at 104, and the offset 105 is refused. *)
Example lost_offset_accepted (connWrite : bytes → Z := λ b, Z.of_nat (length b)) :
  ∃ s, (createReplicationBacklog (λ _, "?"%char) ;;
        runBacklog (λ _, "?"%char) [FeedStream ["s"; "e"; "t"; "x"]%char; FeedPing ["p"; "i"; "n"; "g"]%char; AdjustOffset])
         (mkRepl None 2 0 0 0 100 100 sampleId [] (-1) []) = Ok (tt, s) ∧ master_repl_offset s = 104 ∧
    masterTryPartialResynchronization 1 false connWrite sampleId (Some 107) s =
      Ok (Continued (continueLine false sampleId) [], add_slave 1 s) ∧
    masterTryPartialResynchronization 1 false connWrite sampleId (Some 105) s = Ok (NeedFullResync, s).
Proof. eexists. split; [vm_compute; reflexivity|]. by vm_compute. Qed.
