(* ===== verification/Rio.v ===== *)
(** * Rio: streams over a buffer, src/src/rio.h and rio.c

    [rioWrite] and [rioRead] work in chunks, keep the checksum and remember errors;
    the stream is a buffer ([rioInitWithBuffer]).  Bytes are integers.  The address
    of the memory given to [crc64] (which treats the unaligned head of it apart) is a
    parameter: [bufAddr] at every value of [processed_bytes].

    The lemmas at the end describe what a sequence of writes leaves in the buffer
    ([Saves]), what a sequence of reads takes from it ([Loads]), and what it does when
    the buffer ends too early ([Truncated]). *)

From Stdlib Require Import Ascii String ZifyBool.
From stdpp Require Import base tactics option strings numbers list.
From S2P Require Import Prelude Util Endian Crc64.

Local Open Scope Z_scope.

Record rio := mkRio {
  ptr : list Z;
  pos : Z;
  update_cksum : bool;            (* update_cksum is set *)
  cksum : Z;
  max_processing_chunk : Z;
  processed_bytes : Z;
  write_error : bool;             (* RIO_FLAG_WRITE_ERROR *)
  read_error : bool }.            (* RIO_FLAG_READ_ERROR *)

Definition rioInitWithBuffer (s : list Z) : rio := mkRio s 0 false 0 0 0 false false.

Definition set_update_cksum (v : bool) (r : rio) : rio :=
  mkRio (ptr r) (pos r) v (cksum r) (max_processing_chunk r) (processed_bytes r) (write_error r) (read_error r).
Definition set_cksum (v : Z) (r : rio) : rio :=
  mkRio (ptr r) (pos r) (update_cksum r) v (max_processing_chunk r) (processed_bytes r) (write_error r) (read_error r).
Definition set_chunk (v : Z) (r : rio) : rio :=
  mkRio (ptr r) (pos r) (update_cksum r) (cksum r) v (processed_bytes r) (write_error r) (read_error r).
Definition set_buffer (p : list Z) (q : Z) (r : rio) : rio :=
  mkRio p q (update_cksum r) (cksum r) (max_processing_chunk r) (processed_bytes r) (write_error r) (read_error r).
Definition set_errors (w e : bool) (r : rio) : rio :=
  mkRio (ptr r) (pos r) (update_cksum r) (cksum r) (max_processing_chunk r) (processed_bytes r) w e.
Definition add_processed (n : Z) (r : rio) : rio :=
  mkRio (ptr r) (pos r) (update_cksum r) (cksum r) (max_processing_chunk r) (processed_bytes r + n) (write_error r) (read_error r).

Definition rioBufferWrite (buf : list Z) : M rio bool :=
  modify (λ r, set_buffer (ptr r ++ buf) (pos r + Z.of_nat (length buf)) r) ;; mret true.

Definition rioBufferRead (len : Z) : M rio (option (list Z)) :=
  r ← get;
  if Z.of_nat (length (ptr r)) - pos r <? len then mret None else
  put (set_buffer (ptr r) (pos r + len) r) ;;
  mret (Some (take (Z.to_nat len) (drop (Z.to_nat (pos r)) (ptr r)))).

Definition rioGetReadError : M rio bool := gets read_error.

Section Stream.
Context `{Host} (bufAddr : Z → Z).

Definition rioGenericUpdateChecksum (buf : list Z) : M rio unit :=
  modify (λ r, set_cksum (crc64 (cksum r) (bufAddr (processed_bytes r)) buf) r).

Definition updateChecksum (buf : list Z) : M rio unit :=
  r ← get; if update_cksum r then rioGenericUpdateChecksum buf else mret tt.

(** The number of bytes of the next chunk. *)
Definition chunkOf (r : rio) (len : Z) : Z :=
  if negb (max_processing_chunk r =? 0) && (max_processing_chunk r <? len) then max_processing_chunk r else len.

Fixpoint writeLoop (fuel : nat) (buf : list Z) : M rio bool :=
  match fuel, buf with
  | S fuel, _ :: _ =>
      r ← get;
      let n := chunkOf r (Z.of_nat (length buf)) in
      updateChecksum (take (Z.to_nat n) buf) ;;
      ok ← rioBufferWrite (take (Z.to_nat n) buf);
      if (ok : bool) then modify (add_processed n) ;; writeLoop fuel (drop (Z.to_nat n) buf)
      else modify (λ r, set_errors true (read_error r) r) ;; mret false
  | _, _ => mret true
  end.

Definition rioWrite (buf : list Z) : M rio bool :=
  r ← get;
  if write_error r then mret false else writeLoop (length buf) buf.

Fixpoint readLoop (fuel : nat) (len : Z) (acc : list Z) : M rio (option (list Z)) :=
  match fuel with
  | S fuel =>
      if len =? 0 then mret (Some acc) else
      r ← get;
      let n := chunkOf r len in
      x ← rioBufferRead n;
      match x with
      | None => modify (λ r, set_errors (write_error r) true r) ;; mret None
      | Some x => updateChecksum x ;; modify (add_processed n) ;; readLoop fuel (len - n) (acc ++ x)
      end
  | O => mret (Some acc)
  end.

(** The bytes that are read, or [None] for an error.  Every turn but the last takes
    a byte or more of the buffer. *)
Definition rioRead (len : Z) : M rio (option (list Z)) :=
  r ← get;
  if read_error r then mret None else readLoop (S (S (length (ptr r)))) len [].

(** ** What streams do *)

(** The checksum of more bytes: on a big endian machine it stays 0. *)
Definition crcUpd (c : Z) (x : list Z) : Z :=
  match BYTE_ORDER with LITTLE_ENDIAN => foldl rbyte c x | BIG_ENDIAN => c end.

Definition crcOk (c : Z) : Prop := word c ∧ (BYTE_ORDER = BIG_ENDIAN → c = 0).

Lemma crcOk_0 : crcOk 0.
Proof. split; [unfold word; lia|done]. Qed.

Lemma crcUpd_run c a x : crcOk c → Forall byte x → crc64 c a x = crcUpd c x.
Proof.
  intros [Hc Hz] Hx. unfold crcUpd, crcOk, BYTE_ORDER in *. destruct H.
  - by apply crc64_little.
  - rewrite Hz by done. by apply crc64_big_zero.
Qed.

Lemma crcUpd_ok c x : crcOk c → Forall byte x → crcOk (crcUpd c x).
Proof.
  intros [Hc Hz] Hx. unfold crcUpd, crcOk, BYTE_ORDER in *. destruct H; [|done].
  split; [by apply rbytes_keep|done].
Qed.

Lemma crcUpd_app c x y : crcUpd (crcUpd c x) y = crcUpd c (x ++ y).
Proof. unfold crcUpd. case_match; [by rewrite foldl_app|done]. Qed.

Lemma crcUpd_nil c : crcUpd c [] = c.
Proof. unfold crcUpd. by case_match. Qed.

#[local] Opaque crcUpd.

(** After [x] has been written or read. *)
Definition seen (x : list Z) (r : rio) : rio :=
  mkRio (ptr r) (pos r) (update_cksum r) (if update_cksum r then crcUpd (cksum r) x else cksum r) (max_processing_chunk r)
    (processed_bytes r + Z.of_nat (length x)) (write_error r) (read_error r).
Definition wrote (x : list Z) (r : rio) : rio := set_buffer (ptr r ++ x) (pos r + Z.of_nat (length x)) (seen x r).
Definition took (x : list Z) (r : rio) : rio := set_buffer (ptr r) (pos r + Z.of_nat (length x)) (seen x r).

#[local] Ltac streams :=
  match goal with r : rio |- _ => destruct r as [p q [] c m n w e] end; unfold wrote, took, set_buffer, seen;
  cbn [ptr pos update_cksum cksum max_processing_chunk processed_bytes write_error read_error];
  rewrite ?crcUpd_nil, ?crcUpd_app, ?app_nil_r, <-?app_assoc, ?length_app, ?Nat2Z.inj_add, ?Z.add_assoc; cbn [length Z.of_nat]; rewrite ?Z.add_0_r; reflexivity.

Lemma seen_buffer x p q r : seen x (set_buffer p q r) = set_buffer p q (seen x r).
Proof. by destruct r as [? ? [] ? ? ? ? ?]. Qed.

Lemma wrote_nil r : wrote [] r = r.
Proof. streams. Qed.

Lemma took_nil r : took [] r = r.
Proof. streams. Qed.

Lemma wrote_app x y r : wrote y (wrote x r) = wrote (x ++ y) r.
Proof. streams. Qed.

Lemma took_app x y r : took y (took x r) = took (x ++ y) r.
Proof. streams. Qed.

(** A stream that can be written, and one from which [x] can be read. *)
Record output (r : rio) : Prop := {
  o_noerror : write_error r = false;
  o_chunk : 0 ≤ max_processing_chunk r;
  o_crc : crcOk (cksum r) }.

Record input (r : rio) (x : list Z) : Prop := {
  i_noerror : read_error r = false;
  i_chunk : 0 ≤ max_processing_chunk r;
  i_crc : crcOk (cksum r);
  i_pos : 0 ≤ pos r ≤ Z.of_nat (length (ptr r));
  i_rest : drop (Z.to_nat (pos r)) (ptr r) = x;
  i_bytes : Forall byte x }.

Lemma output_wrote r x : output r → Forall byte x → output (wrote x r).
Proof. intros [He Hc Hk] Hx. split; destruct r as [p q [] c m n w e]; cbn; try done. by apply crcUpd_ok. Qed.

Lemma input_took r x y : input r (x ++ y) → input (took x r) y.
Proof.
  intros [He Hc Hk Hp Hr Hb]. apply Forall_app in Hb as [Hx Hy].
  assert (length x + length y = length (ptr r) - Z.to_nat (pos r))%nat as Hl by (rewrite <-length_drop, Hr; by rewrite length_app).
  split; unfold took, seen; destruct (update_cksum r); cbn; try done; try lia; try by apply crcUpd_ok.
  all: by rewrite Z2Nat.inj_add, Nat2Z.id, <-drop_drop, Hr, drop_app_length by lia.
Qed.

Lemma input_length r x : input r x → Z.of_nat (length x) = Z.of_nat (length (ptr r)) - pos r.
Proof. intros [_ _ _ Hp <- _]. rewrite length_drop. lia. Qed.

Lemma chunkOf_range r len : 0 ≤ max_processing_chunk r → 0 < len → 0 < chunkOf r len ≤ len.
Proof. unfold chunkOf. case_match; lia. Qed.

(** One turn of the loops. *)
Lemma write_chunk x r : output r → Forall byte x →
  (updateChecksum x ;; ok ← rioBufferWrite x; if (ok : bool) then modify (add_processed (Z.of_nat (length x)))
   else modify (λ r, set_errors true (read_error r) r)) r = Ok (tt, wrote x r).
Proof.
  intros [He Hc Hk] Hx. unfold updateChecksum, rioGenericUpdateChecksum, rioBufferWrite, wrote, seen.
  destruct r as [p q [] c m n w e]; cbv [mbind M_bind get modify mret M_ret]; cbn; [|done].
  by rewrite crcUpd_run.
Qed.

Lemma writeLoop_run fuel : ∀ x r, output r → Forall byte x → (length x ≤ fuel)%nat → writeLoop fuel x r = Ok (true, wrote x r).
Proof.
  induction fuel as [|fuel IH]; intros [|b x] r Ho Hx Hf; cbn [writeLoop]; try (by rewrite wrote_nil); [cbn in Hf; lia|].
  rewrite bind_get. set (y := b :: x) in *. set (n := Z.to_nat (chunkOf r (Z.of_nat (length y)))).
  pose proof (chunkOf_range r (Z.of_nat (length y)) (o_chunk _ Ho) ltac:(subst y; cbn; lia)) as Hn.
  pose proof (Forall_take _ n _ Hx) as Htake. pose proof (Forall_drop _ n _ Hx) as Hdrop.
  pose proof (write_chunk (take n y) r Ho Htake) as Hrun. rewrite length_take, Nat.min_l in Hrun by lia.
  replace (Z.of_nat n) with (chunkOf r (Z.of_nat (length y))) in Hrun by lia.
  assert (∀ (k : M rio bool) r', (updateChecksum (take n y) ;; ok ← rioBufferWrite (take n y);
     if (ok : bool) then modify (add_processed (chunkOf r (Z.of_nat (length y)))) else modify (λ r, set_errors true (read_error r) r)) r = Ok (tt, r') →
    (updateChecksum (take n y) ;; ok ← rioBufferWrite (take n y);
     if (ok : bool) then modify (add_processed (chunkOf r (Z.of_nat (length y)))) ;; k
     else modify (λ r, set_errors true (read_error r) r) ;; mret false) r = k r') as Hseq.
  { intros k r'. cbv [mbind M_bind rioBufferWrite modify mret M_ret]. destruct (updateChecksum _ r) as [[? r1]|]; [|done]. by intros [= <-]. }
  erewrite Hseq by done. rewrite IH; [|by apply output_wrote|done|rewrite length_drop; subst y; cbn in *; lia].
  by rewrite wrote_app, take_drop.
Qed.

Lemma rioWrite_run x r : output r → Forall byte x → rioWrite x r = Ok (true, wrote x r).
Proof. intros Ho Hx. unfold rioWrite. rewrite bind_get, (o_noerror _ Ho). by apply writeLoop_run. Qed.

Lemma rioBufferRead_run x y r : input r (x ++ y) →
  rioBufferRead (Z.of_nat (length x)) r = Ok (Some x, set_buffer (ptr r) (pos r + Z.of_nat (length x)) r).
Proof.
  intros Hi. pose proof (input_length _ _ Hi) as Hl. rewrite length_app in Hl. destruct Hi as [_ _ _ _ Hr _].
  unfold rioBufferRead. rewrite bind_get. destruct (Z.ltb_spec (Z.of_nat (length (ptr r)) - pos r) (Z.of_nat (length x))); [lia|].
  rewrite Hr, Nat2Z.id, take_app_length. done.
Qed.

Lemma seen_run x r : crcOk (cksum r) → Forall byte x → ∀ (k : M rio (option (list Z))),
  (updateChecksum x ;; modify (add_processed (Z.of_nat (length x))) ;; k) r = k (seen x r).
Proof.
  intros Hc Hx k. unfold updateChecksum, rioGenericUpdateChecksum, seen.
  destruct r as [p q [] c m n w e]; cbv [mbind M_bind get modify mret M_ret]; cbn; [|done]. by rewrite crcUpd_run.
Qed.

Lemma readLoop_run fuel : ∀ x y acc r, input r (x ++ y) → (length x < fuel)%nat →
  readLoop fuel (Z.of_nat (length x)) acc r = Ok (Some (acc ++ x), took x r).
Proof.
  induction fuel as [|fuel IH]; intros x y acc r Hi Hf; [lia|]. cbn [readLoop].
  destruct (Z.eqb_spec (Z.of_nat (length x)) 0) as [H0|Hne].
  { destruct x; [|cbn in H0; lia]. by rewrite app_nil_r, took_nil. }
  rewrite bind_get. pose proof (chunkOf_range r (Z.of_nat (length x)) (i_chunk _ _ Hi) ltac:(lia)) as Hn.
  set (n := Z.to_nat (chunkOf r (Z.of_nat (length x)))). cbv zeta.
  replace (chunkOf r (Z.of_nat (length x))) with (Z.of_nat (length (take n x))) by (rewrite length_take; lia).
  rewrite <-(take_drop n x), <-app_assoc in Hi. pose proof (i_bytes _ _ Hi) as [Hb _]%Forall_app.
  rewrite (bind_run _ _ _ _ _ (rioBufferRead_run _ _ _ Hi)), seen_run by (exact Hb || exact (i_crc _ _ Hi)).
  replace (Z.of_nat (length x) - _) with (Z.of_nat (length (drop n x))) by (rewrite length_take, length_drop; lia).
  rewrite seen_buffer. change (set_buffer _ _ (seen _ _)) with (took (take n x) r).
  rewrite (IH (drop n x) y); [|by apply input_took|rewrite length_drop; lia].
  by rewrite <-app_assoc, took_app, take_drop.
Qed.

Lemma rioRead_run x y r : input r (x ++ y) → rioRead (Z.of_nat (length x)) r = Ok (Some x, took x r).
Proof.
  intros Hi. unfold rioRead. rewrite bind_get, (i_noerror _ _ Hi). pose proof (input_length _ _ Hi) as Hl. rewrite length_app in Hl.
  pose proof (i_pos _ _ Hi). rewrite (readLoop_run _ x y) by (done || lia). done.
Qed.

Lemma rioBufferRead_short n x r : input r x → Z.of_nat (length x) < n → rioBufferRead n r = Ok (None, r).
Proof.
  intros Hi Hn. apply input_length in Hi. unfold rioBufferRead. rewrite bind_get.
  destruct (Z.ltb_spec (Z.of_nat (length (ptr r)) - pos r) n); [done|lia].
Qed.

Lemma readLoop_short fuel : ∀ len x acc r, input r x → Z.of_nat (length x) < len → (length x < fuel)%nat →
  ∃ r', readLoop fuel len acc r = Ok (None, r') ∧ read_error r' = true.
Proof.
  induction fuel as [|fuel IH]; intros len x acc r Hi Hl Hf; [lia|]. cbn [readLoop].
  destruct (Z.eqb_spec len 0) as [|Hne]; [lia|]. rewrite bind_get. pose proof (chunkOf_range r len (i_chunk _ _ Hi) ltac:(lia)) as Hn.
  cbv zeta. destruct (Z.lt_ge_cases (Z.of_nat (length x)) (chunkOf r len)) as [H0|Hge].
  { rewrite (bind_run _ _ _ _ _ (rioBufferRead_short _ _ _ Hi H0)). by eexists. }
  set (n := Z.to_nat (chunkOf r len)). replace (chunkOf r len) with (Z.of_nat (length (take n x))) by (rewrite length_take; lia).
  rewrite <-(take_drop n x) in Hi. pose proof (i_bytes _ _ Hi) as [Hb _]%Forall_app.
  rewrite (bind_run _ _ _ _ _ (rioBufferRead_run _ _ _ Hi)), seen_run by (exact Hb || exact (i_crc _ _ Hi)).
  rewrite seen_buffer. apply input_took in Hi. apply (IH _ (drop n x)); [done|rewrite length_take, length_drop; lia|rewrite length_drop; lia].
Qed.

Lemma rioRead_short n x r : input r x → Z.of_nat (length x) < n → ∃ r', rioRead n r = Ok (None, r') ∧ read_error r' = true.
Proof.
  intros Hi Hn. unfold rioRead. rewrite bind_get, (i_noerror _ _ Hi). pose proof (input_length _ _ Hi) as Hl.
  pose proof (i_pos _ _ Hi). apply (readLoop_short _ _ x); [done|done|lia].
Qed.

Lemma rioRead_error n r : read_error r = true → rioRead n r = Ok (None, r).
Proof. intros He. unfold rioRead. by rewrite bind_get, He. Qed.

(** ** Sequences of writes and of reads *)

Section Sequences.
Context {A B : Type}.
Implicit Types (m : M rio A) (k : A → M rio B).

(** [m] returns [a] and appends [x]. *)
Definition Saves m (x : list Z) (a : A) : Prop := Forall byte x ∧ ∀ r, output r → m r = Ok (a, wrote x r).
(** [m] returns [a] and consumes [x]. *)
Definition Loads m (x : list Z) (a : A) : Prop := ∀ r y, input r (x ++ y) → m r = Ok (a, took x r).
(** On a proper prefix of [x] [m] returns [e] and the read error is set. *)
Definition Truncated m (x : list Z) (e : A) : Prop := ∀ r p, input r p → p `prefix_of` x → p ≠ x →
  ∃ r', m r = Ok (e, r') ∧ read_error r' = true.
(** After a read error [m] returns [e]. *)
Definition Stops m (e : A) : Prop := ∀ r, read_error r = true → ∃ r', m r = Ok (e, r') ∧ read_error r' = true.
End Sequences.

Lemma Saves_ret {A} (a : A) : Saves (mret a) [] a.
Proof. split; [done|]. intros r _. by rewrite wrote_nil. Qed.

Lemma Saves_bind {A B} (m : M rio A) (k : A → M rio B) x y a b : Saves m x a → Saves (k a) y b → Saves (m ≫= k) (x ++ y) b.
Proof.
  intros [Hx Hm] [Hy Hk]. split; [by apply Forall_app|]. intros r Ho.
  rewrite (bind_run _ _ _ _ _ (Hm r Ho)), Hk by by apply output_wrote. by rewrite wrote_app.
Qed.

Lemma Saves_write x : Forall byte x → Saves (rioWrite x) x true.
Proof. split; [done|]. intros r Ho. by apply rioWrite_run. Qed.

Lemma Loads_ret {A} (a : A) : Loads (mret a) [] a.
Proof. intros r y _. by rewrite took_nil. Qed.

Lemma Loads_bind {A B} (m : M rio A) (k : A → M rio B) x y a b : Loads m x a → Loads (k a) y b → Loads (m ≫= k) (x ++ y) b.
Proof.
  intros Hm Hk r z Hi. rewrite <-app_assoc in Hi. rewrite (bind_run _ _ _ _ _ (Hm r _ Hi)), (Hk _ z) by by apply input_took.
  by rewrite took_app.
Qed.

Lemma Loads_read x n : n = Z.of_nat (length x) → Loads (rioRead n) x (Some x).
Proof. intros -> r y. apply rioRead_run. Qed.

Lemma Stops_ret {A} (a : A) : Stops (mret a) a.
Proof. intros r He. by exists r. Qed.

Lemma Stops_read n : Stops (rioRead n) None.
Proof. intros r He. exists r. by rewrite rioRead_error. Qed.

Lemma Stops_bind {A B} (m : M rio A) (k : A → M rio B) e e' : Stops m e → Stops (k e) e' → Stops (m ≫= k) e'.
Proof. intros Hm Hk r He. destruct (Hm r He) as (r' & Hr & He'). rewrite (bind_run _ _ _ _ _ Hr). by apply Hk. Qed.

Lemma Truncated_read x n : n = Z.of_nat (length x) → Truncated (rioRead n) x None.
Proof.
  intros -> r p Hi [z ->] Hne. apply (rioRead_short _ p); [done|].
  destruct z; [by rewrite app_nil_r in Hne|]. rewrite length_app. cbn. lia.
Qed.

Lemma Truncated_nil {A} (m : M rio A) e : Truncated m [] e.
Proof. intros r p _ Hp%prefix_nil_inv Hne. done. Qed.

Lemma prefix_app_split {A} (x y p : list A) : p `prefix_of` x ++ y →
  p `prefix_of` x ∧ p ≠ x ∨ ∃ v, p = x ++ v ∧ v `prefix_of` y.
Proof.
  revert p. induction x as [|a x IH]; intros p Hp; [right; by exists p|]. destruct p as [|b p].
  { left. split; [by apply prefix_nil|done]. }
  pose proof (prefix_cons_inv_1 _ _ _ _ Hp) as ->. apply prefix_cons_inv_2 in Hp.
  destruct (IH p Hp) as [[Hx Hne]|(v & -> & Hv)]; [left|right; by exists v]. split; [by apply prefix_cons|congruence].
Qed.

(** The input ends in the first part, or in the second. *)
Lemma Truncated_bind {A B} (m : M rio A) (k : A → M rio B) x y a e e' :
  Loads m x a → Truncated m x e → Stops (k e) e' → Truncated (k a) y e' → Truncated (m ≫= k) (x ++ y) e'.
Proof.
  intros Hm Ht Hs Hk r p Hi Hp Hne. apply prefix_app_split in Hp as [[Hp Hx]|(v & -> & Hv)].
  - destruct (Ht r p Hi Hp Hx) as (r1 & Hr & He). rewrite (bind_run _ _ _ _ _ Hr). by apply Hs.
  - rewrite (bind_run _ _ _ _ _ (Hm _ _ Hi)). apply (Hk _ v); [by apply input_took|done|congruence].
Qed.

(** A value that follows without any byte. *)
Lemma Saves_last {A B} (m : M rio A) (k : A → M rio B) x a b : Saves m x a → k a = mret b → Saves (m ≫= k) x b.
Proof. intros Hm Hk. rewrite <-(app_nil_r x). apply (Saves_bind _ _ _ _ _ _ Hm). rewrite Hk. apply Saves_ret. Qed.

(** [m] reads [x]: it returns [a] when all of it is there, and [e] when it is cut. *)
Definition Reads {A} (m : M rio A) (x : list Z) (a e : A) : Prop := Loads m x a ∧ Truncated m x e.

Lemma Reads_ret {A} (a e : A) : Reads (mret a) [] a e.
Proof. split; [apply Loads_ret|apply Truncated_nil]. Qed.

Lemma Reads_read x n : n = Z.of_nat (length x) → Reads (rioRead n) x (Some x) None.
Proof. intros Hn. split; [by apply Loads_read|by apply Truncated_read]. Qed.

Lemma Reads_bind {A B} (m : M rio A) (k : A → M rio B) x y a b e e' :
  Reads m x a e → Reads (k a) y b e' → Stops (k e) e' → Reads (m ≫= k) (x ++ y) b e'.
Proof. intros [Hm Ht] [Hk Hu] Hs. split; [by eapply Loads_bind|by eapply Truncated_bind]. Qed.

Lemma Reads_last {A B} (m : M rio A) (k : A → M rio B) x a b e e' :
  Reads m x a e → k a = mret b → k e = mret e' → Reads (m ≫= k) x b e'.
Proof.
  intros Hm Hk He. rewrite <-(app_nil_r x). eapply Reads_bind; [done|rewrite Hk; apply Reads_ret|rewrite He; apply Stops_ret].
Qed.

End Stream.
