(* ===== verification/Rdb.v ===== *)
(** * Rdb: the dump format of strings, src/src/rdb.c

    Types, times, lengths, integers, compressed and plain strings as they are written
    to and read from a stream.  The bytes of a stream are integers; a string object
    has characters.  Objects that are not strings are saved and loaded by parameters.

    The contents of newly allocated memory ([fresh]) and of the hash table of the
    compressor ([htab]) are arguments.  Allocation does not fail, and the process
    ends ([rdbExitReportCorruptRDB]) with a fault. *)

From Stdlib Require Import Ascii String.
From stdpp Require Import base tactics option strings numbers list.
From S2P Require Import Prelude Util Endian Object SdsArgs Lzf Crc64 Rio.

Local Open Scope Z_scope.

(** ** Characters and bytes *)

Definition chr (z : Z) : ascii := ascii_of_nat (Z.to_nat z).
Definition raw (s : bytes) : list Z := code <$> s.
Definition unraw (x : list Z) : bytes := chr <$> x.

(** ** Constants *)

Definition RDB_VERSION : Z := 9.
Definition RDB_6BITLEN : Z := 0.
Definition RDB_14BITLEN : Z := 1.
Definition RDB_32BITLEN : Z := 0x80.
Definition RDB_64BITLEN : Z := 0x81.
Definition RDB_ENCVAL : Z := 3.
Definition RDB_LENERR : Z := 2 ^ 64 - 1.
Definition RDB_ENC_INT8 : Z := 0.
Definition RDB_ENC_INT16 : Z := 1.
Definition RDB_ENC_INT32 : Z := 2.
Definition RDB_ENC_LZF : Z := 3.
Definition RDB_TYPE_STRING : Z := 0.
Definition UINT32_MAX : Z := 2 ^ 32 - 1.
Definition LONG_STR_SIZE : nat := 21.

(** What a loaded string is: a plain or sds string, or an object. *)
Inductive loadFlag := LOAD_NONE | LOAD_ENC | LOAD_PLAIN | LOAD_SDS.

Inductive loaded :=
  | PlainString (s : bytes)
  | SdsString (s : bytes)
  | Object (o : robj).

Definition rdbExitReportCorruptRDB {A} (what : string) : M rio A := fail (AssertFailed what).

(** The longest run of digits, and what follows. *)
Fixpoint spanDigits (p : bytes) : bytes * bytes :=
  match p with
  | c :: p' => if is_digit c then let '(ds, rest) := spanDigits p' in (c :: ds, rest) else ([], p)
  | [] => ([], [])
  end.

(** [strtoll(s, &endptr, 10)]: the value and [endptr]. *)
Definition strtoll (s : bytes) : Z * bytes :=
  let p := skipBlanks s in
  let '(neg, p) :=
    match p with
    | c :: q => if bool_decide (c = MINUS) then (true, q) else if bool_decide (c = "+"%char) then (false, q) else (false, p)
    | [] => (false, [])
    end in
  match p with
  | c :: _ =>
      if is_digit c then
        let '(ds, rest) := spanDigits p in
        let n := dval 0 ds in
        ((if (neg : bool) then Z.max LLONG_MIN (- n) else Z.min LLONG_MAX n), rest)
      else (0, s)
  | [] => (0, s)
  end.

(** ** [sdsll2str] of sds.c *)

(** The digits from the last one: [do ... while(v)], at most twenty rounds. *)
Fixpoint digitLoop (fuel : nat) (v : Z) : bytes :=
  match fuel with
  | O => []
  | S fuel => digit_char (v mod 10) :: (if v / 10 =? 0 then [] else digitLoop fuel (v / 10))
  end.

(** [while(s < p)] exchanges the ends. *)
Fixpoint swapLoop (fuel : nat) (i j : nat) (x : bytes) : bytes :=
  match fuel with
  | O => x
  | S fuel =>
      if decide (i < j)%nat then
        match x !! i, x !! j with
        | Some a, Some b => swapLoop fuel (i + 1) (j - 1) (<[j := a]> (<[i := b]> x))
        | _, _ => x
        end
      else x
  end.

Definition sdsll2str (value : Z) : bytes :=
  let v := u64 (if value <? 0 then - value else value) in
  let s := digitLoop 20 v ++ (if value <? 0 then [MINUS] else []) in
  swapLoop (length s) 0 (length s - 1) s.

Abbreviation rioM := (M rio).

(** A value kept in an [int]. *)
Definition int32 (z : Z) : Z := (z + 2 ^ 31) mod 2 ^ 32 - 2 ^ 31.

Section Rdb.
Context `{Host} (bufAddr : Z → Z) (htab : Z → Z) (fresh : nat → Z) (rdb_compression : bool).
#[local] Abbreviation rioWrite := (rioWrite bufAddr).
#[local] Abbreviation rioRead := (rioRead bufAddr).

(** Newly allocated memory. *)
Definition newBytes (n : Z) : list Z := fresh <$> seq 0 (Z.to_nat n).

(** [htonl] and [ntohl] *)
Definition htonl (v : Z) : Z := match BYTE_ORDER with LITTLE_ENDIAN => intrev32 v | BIG_ENDIAN => v end.
Definition ntohl (v : Z) : Z := match BYTE_ORDER with LITTLE_ENDIAN => intrev32 v | BIG_ENDIAN => v end.

(** ** Writing *)

(** The number of bytes as an [int], or -1. *)
Definition rdbWriteRaw (p : list Z) : rioM Z :=
  ok ← rioWrite p;
  mret (if (ok : bool) then int32 (Z.of_nat (length p)) else -1).

Definition rdbSaveType (type : Z) : rioM Z := rdbWriteRaw [Lzf.u8 type].

Definition rdbSaveMillisecondTime (t : Z) : rioM Z := rdbWriteRaw (memrev64ifbe (hostBytes 8 t)).

(** Two writes in a row: -1 when one of them fails. *)
Definition saveLen2 (buf x : list Z) : rioM Z :=
  n ← rdbWriteRaw buf;
  if n =? -1 then mret (-1) else
  n ← rdbWriteRaw x;
  if n =? -1 then mret (-1) else mret (Z.of_nat (length buf) + Z.of_nat (length x)).

Definition rdbSaveLen (len : Z) : rioM Z :=
  if len <? Z.shiftl 1 6 then
    n ← rdbWriteRaw [Z.lor (Z.land len 0xFF) (Z.shiftl RDB_6BITLEN 6)];
    mret (if n =? -1 then -1 else 1)
  else if len <? Z.shiftl 1 14 then
    n ← rdbWriteRaw [Z.lor (Z.land (Z.shiftr len 8) 0xFF) (Z.shiftl RDB_14BITLEN 6); Z.land len 0xFF];
    mret (if n =? -1 then -1 else 2)
  else if len <=? UINT32_MAX then saveLen2 [RDB_32BITLEN] (hostBytes 4 (htonl len))
  else saveLen2 [RDB_64BITLEN] (hostBytes 8 (htonu64 len)).

(** The bytes of [enc], none when 0 is returned. *)
Definition rdbEncodeInteger (value : Z) : list Z :=
  if (- Z.shiftl 1 7 <=? value) && (value <=? Z.shiftl 1 7 - 1) then
    [Z.lor (Z.shiftl RDB_ENCVAL 6) RDB_ENC_INT8; Z.land value 0xFF]
  else if (- Z.shiftl 1 15 <=? value) && (value <=? Z.shiftl 1 15 - 1) then
    [Z.lor (Z.shiftl RDB_ENCVAL 6) RDB_ENC_INT16; Z.land value 0xFF; Z.land (Z.shiftr value 8) 0xFF]
  else if (- Z.shiftl 1 31 <=? value) && (value <=? Z.shiftl 1 31 - 1) then
    [Z.lor (Z.shiftl RDB_ENCVAL 6) RDB_ENC_INT32; Z.land value 0xFF; Z.land (Z.shiftr value 8) 0xFF;
     Z.land (Z.shiftr value 16) 0xFF; Z.land (Z.shiftr value 24) 0xFF]
  else [].

Definition rdbTryIntegerEncoding (s : bytes) : list Z :=
  let '(value, endptr) := strtoll s in
  if negb (bool_decide (hd NUL endptr = NUL)) then [] else
  let buf := ll2buf 32 value in
  if negb (Z.of_nat (length buf) =? Z.of_nat (length s)) || negb (bool_decide (buf = s)) then [] else
  rdbEncodeInteger value.

Definition rdbSaveLzfBlob (data : list Z) (original_len : Z) : rioM Z :=
  n1 ← rdbWriteRaw [Z.lor (Z.shiftl RDB_ENCVAL 6) RDB_ENC_LZF];
  if n1 =? -1 then mret (-1) else
  n2 ← rdbSaveLen (Z.of_nat (length data));
  if n2 =? -1 then mret (-1) else
  n3 ← rdbSaveLen original_len;
  if n3 =? -1 then mret (-1) else
  n4 ← rdbWriteRaw data;
  if n4 =? -1 then mret (-1) else
  mret (n1 + n2 + n3 + n4).

(** The lengths are [unsigned int] in [lzf_compress]. *)
Definition rdbSaveLzfStringObject (s : list Z) : rioM Z :=
  let len := Z.of_nat (length s) in
  if len <=? 4 then mret 0 else
  let outlen := len - 4 in
  let out := newBytes (outlen + 1) in
  match lzf_compress (take (Z.to_nat (u32 len)) s) htab (take (Z.to_nat (u32 outlen)) out) with
  | Fault f => fail f
  | Ok (comprlen, out) =>
      if comprlen =? 0 then mret 0
      else rdbSaveLzfBlob (take (Z.to_nat comprlen) out) len
  end.

(** The string as it is: [len] and its bytes. *)
Definition saveVerbatim (s : list Z) : rioM Z :=
  let len := Z.of_nat (length s) in
  n ← rdbSaveLen len;
  if n =? -1 then mret (-1) else
  if 0 <? len then
    m ← rdbWriteRaw s;
    mret (if m =? -1 then -1 else n + len)
  else mret n.

Definition rdbSaveRawString (s : bytes) : rioM Z :=
  let len := Z.of_nat (length s) in
  let enc := if len <=? 11 then rdbTryIntegerEncoding s else [] in
  match enc with
  | _ :: _ => n ← rdbWriteRaw enc; mret (if n =? -1 then -1 else Z.of_nat (length enc))
  | [] =>
      n ← (if rdb_compression && (20 <? len) then rdbSaveLzfStringObject (raw s) else mret 0);
      if n =? -1 then mret (-1) else
      if 0 <? n then mret n else
      saveVerbatim (raw s)
  end.

Definition rdbSaveLongLongAsStringObject (value : Z) : rioM Z :=
  match rdbEncodeInteger value with
  | (_ :: _) as enc => rdbWriteRaw enc
  | [] =>
      let buf := ll2buf 32 value in
      serverAssert (Z.of_nat (length buf) <? 32) "rdbSaveLongLongAsStringObject" ;;
      n ← rdbSaveLen (Z.of_nat (length buf));
      if n =? -1 then mret (-1) else
      m ← rdbWriteRaw (raw buf);
      mret (if m =? -1 then -1 else n + m)
  end.

Definition rdbSaveStringObject (o : robj) : rioM Z :=
  if bool_decide (o_encoding o = OBJ_ENCODING_INT) then
    n ← ptrLong o "rdbSaveStringObject"; rdbSaveLongLongAsStringObject n
  else
    serverAssert (sdsEncodedObject o) "rdbSaveStringObject" ;;
    s ← ptrSds o "rdbSaveStringObject"; rdbSaveRawString s.

(** ** Reading *)

(** -1 for an error. *)
Definition rdbLoadType : rioM Z :=
  x ← rioRead 1;
  mret (match x with Some [type] => type | _ => -1 end).

Definition rdbLoadTime : rioM Z :=
  x ← rioRead 4;
  mret (match x with Some t32 => int32 (hostInt t32) | None => -1 end).

(** [memrev64ifbe] since version 9 only. *)
Definition rdbLoadMillisecondTime (rdbver : Z) : rioM Z :=
  x ← rioRead 8;
  match x with
  | None => mret LLONG_MAX
  | Some t => mret (i64 (hostInt (if 9 <=? rdbver then memrev64ifbe t else t)))
  end.

(** [isencoded] and the length; [None] for -1. *)
Definition rdbLoadLenByRef : rioM (option (bool * Z)) :=
  x ← rioRead 1;
  match x with
  | None => mret None
  | Some x =>
      let buf0 := x !!! 0%nat in
      let type := Z.shiftr (Z.land buf0 0xC0) 6 in
      if type =? RDB_ENCVAL then mret (Some (true, Z.land buf0 0x3F))
      else if type =? RDB_6BITLEN then mret (Some (false, Z.land buf0 0x3F))
      else if type =? RDB_14BITLEN then
        y ← rioRead 1;
        match y with
        | None => mret None
        | Some y => mret (Some (false, Z.lor (Z.shiftl (Z.land buf0 0x3F) 8) (y !!! 0%nat)))
        end
      else if buf0 =? RDB_32BITLEN then
        y ← rioRead 4;
        match y with
        | None => mret None
        | Some y => mret (Some (false, ntohl (hostInt y)))
        end
      else if buf0 =? RDB_64BITLEN then
        y ← rioRead 8;
        match y with
        | None => mret None
        | Some y => mret (Some (false, ntohu64 (hostInt y)))
        end
      else rdbExitReportCorruptRDB "Unknown length encoding in rdbLoadLen()"
  end.

(** [isencoded] is 0 on an error. *)
Definition rdbLoadLen : rioM (bool * Z) :=
  r ← rdbLoadLenByRef;
  mret (match r with Some r => r | None => (false, RDB_LENERR) end).

(** A [w]-byte integer read into a signed variable. *)
Definition signed (w v : Z) : Z := if v <? 2 ^ (8 * w - 1) then v else v - 2 ^ (8 * w).

Definition integerObject (flags : loadFlag) (val : Z) : loaded :=
  match flags with
  | LOAD_PLAIN => PlainString (ll2buf LONG_STR_SIZE val)
  | LOAD_SDS => SdsString (ll2buf LONG_STR_SIZE val)
  | LOAD_ENC => Object (createIntObject val)
  | LOAD_NONE => Object (createRawStringObject (sdsll2str val))
  end.

Definition rdbLoadIntegerObject (enctype : Z) (flags : loadFlag) : rioM (option loaded) :=
  if enctype =? RDB_ENC_INT8 then
    x ← rioRead 1;
    match x with
    | None => mret None
    | Some enc => mret (Some (integerObject flags (signed 1 (enc !!! 0%nat))))
    end
  else if enctype =? RDB_ENC_INT16 then
    x ← rioRead 2;
    match x with
    | None => mret None
    | Some enc => mret (Some (integerObject flags (signed 2 (Z.lor (enc !!! 0%nat) (Z.shiftl (enc !!! 1%nat) 8)))))
    end
  else if enctype =? RDB_ENC_INT32 then
    x ← rioRead 4;
    match x with
    | None => mret None
    | Some enc =>
        mret (Some (integerObject flags (signed 4
          (Z.lor (Z.lor (Z.lor (enc !!! 0%nat) (Z.shiftl (enc !!! 1%nat) 8)) (Z.shiftl (enc !!! 2%nat) 16))
             (Z.shiftl (enc !!! 3%nat) 24)))))
    end
  else rdbExitReportCorruptRDB "Unknown RDB integer encoding type".

Definition stringOf (flags : loadFlag) (s : bytes) : loaded :=
  match flags with
  | LOAD_PLAIN => PlainString s
  | LOAD_SDS => SdsString s
  | LOAD_NONE => Object (createRawStringObject s)
  | LOAD_ENC => Object (createStringObject s)
  end.

Definition rdbLoadLzfStringObject (flags : loadFlag) : rioM (option loaded) :=
  clen ← rdbLoadLen;
  if snd clen =? RDB_LENERR then mret None else
  len ← rdbLoadLen;
  if snd len =? RDB_LENERR then mret None else
  c ← rioRead (snd clen);
  match c with
  | None => mret None
  | Some c =>
      let val := newBytes (snd len) in
      match lzf_decompress (take (Z.to_nat (u32 (snd clen))) c) (take (Z.to_nat (u32 (snd len))) val) with
      | Fault f => fail f
      | Ok (inr n, out) =>
          if n =? 0 then rdbExitReportCorruptRDB "Invalid LZF compressed string" else
          let s := unraw (out ++ drop (length out) val) in
          mret (Some (match flags with
                      | LOAD_PLAIN => PlainString s
                      | LOAD_SDS => SdsString s
                      | _ => Object (createRawStringObject s)
                      end))
      | Ok (inl _, _) => rdbExitReportCorruptRDB "Invalid LZF compressed string"
      end
  end.

Definition rdbGenericLoadStringObject (flags : loadFlag) : rioM (option loaded) :=
  r ← rdbLoadLen;
  let '(isencoded, len) := r in
  if (isencoded : bool) then
    if (len =? RDB_ENC_INT8) || (len =? RDB_ENC_INT16) || (len =? RDB_ENC_INT32) then rdbLoadIntegerObject len flags
    else if len =? RDB_ENC_LZF then rdbLoadLzfStringObject flags
    else rdbExitReportCorruptRDB "Unknown RDB string encoding type"
  else if len =? RDB_LENERR then mret None else
  x ← (if len =? 0 then mret (Some []) else rioRead len);
  match x with
  | None => mret None
  | Some x => mret (Some (stringOf flags (unraw x)))
  end.

Definition rdbLoadStringObject : rioM (option loaded) := rdbGenericLoadStringObject LOAD_NONE.
Definition rdbLoadEncodedStringObject : rioM (option loaded) := rdbGenericLoadStringObject LOAD_ENC.

(** ** Objects *)

Context (saveOther : robj → rioM Z) (typeOther : robj → Z) (loadOther : Z → rioM (option robj)).

Definition rdbSaveObjectType (o : robj) : rioM Z :=
  match o_type o with
  | OBJ_STRING => rdbSaveType RDB_TYPE_STRING
  | _ => rdbSaveType (typeOther o)
  end.

Definition rdbSaveObject (o : robj) : rioM Z :=
  match o_type o with
  | OBJ_STRING =>
      n ← rdbSaveStringObject o;
      mret (if n =? -1 then -1 else n)
  | _ => saveOther o
  end.

Definition rdbIsObjectType (t : Z) : bool := ((0 <=? t) && (t <=? 7)) || ((9 <=? t) && (t <=? 15)).

Definition rdbLoadObjectType : rioM Z :=
  type ← rdbLoadType;
  if type =? -1 then mret (-1) else
  if negb (rdbIsObjectType type) then mret (-1) else mret type.

Definition rdbLoadObject (rdbtype : Z) : rioM (option robj) :=
  if rdbtype =? RDB_TYPE_STRING then
    x ← rdbLoadEncodedStringObject;
    match x with
    | Some (Object o) => o ← tryObjectEncoding o; mret (Some o)
    | _ => mret None
    end
  else loadOther rdbtype.

End Rdb.
