(* ===== verification/RdbProps.v ===== *)
(** * RdbProps: what is saved is what is loaded

    [stored s x]: the bytes [x] are one of the forms in which a string [s] is saved.
    They do not depend on the byte order of the machine. *)

From Stdlib Require Import Ascii String ZifyBool.
From stdpp Require Import base tactics option strings numbers list.
From S2P Require Import Prelude Util Endian Object SdsArgs Lzf LzfProps Crc64 Rio Rdb.

Local Open Scope Z_scope.

Abbreviation byte := Crc64.byte.
Abbreviation size x := (Z.of_nat (length x)).

(** ** Bytes *)

Lemma le_byte w v : 0 ≤ w → Forall byte (le w v).
Proof. intros Hw. eapply Forall_impl; [by apply le_bytes|]. intros b. unfold byte. cbn. lia. Qed.

Lemma code_byte c : byte (code c).
Proof. unfold byte, code. pose proof (nat_ascii_bounded c). lia. Qed.

Lemma raw_bytes s : Forall byte (raw s).
Proof. apply Forall_fmap, Forall_true. intros c. apply code_byte. Qed.

Lemma unraw_raw s : unraw (raw s) = s.
Proof.
  unfold unraw, raw. rewrite <-list_fmap_compose. rewrite <-(list_fmap_id s) at 2. apply list_fmap_ext. intros i c _.
  unfold compose, chr, code. by rewrite Nat2Z.id, ascii_nat_embedding.
Qed.

Lemma length_raw s : length (raw s) = length s.
Proof. apply length_fmap. Qed.

Lemma byte_land n : byte (Z.land n 0xFF).
Proof. rewrite land_255. unfold byte. pose proof (Z.mod_pos_bound n 256). lia. Qed.

Lemma int32_id z : - 2 ^ 31 ≤ z < 2 ^ 31 → int32 z = z.
Proof. intros. unfold int32. rewrite Z.mod_small; lia. Qed.

(** ** Lengths *)

(** A saved length. *)
Definition lenBytes (n : Z) : list Z :=
  if n <? 64 then [n]
  else if n <? 16384 then [64 + n / 256; n mod 256]
  else if n <=? UINT32_MAX then RDB_32BITLEN :: reverse (le 4 n)
  else RDB_64BITLEN :: reverse (le 8 n).

Lemma lenBytes_bytes n : 0 ≤ n → Forall byte (lenBytes n).
Proof.
  intros Hn. unfold lenBytes. destruct (Z.ltb_spec n 64); [|destruct (Z.ltb_spec n 16384)].
  - repeat constructor; lia.
  - pose proof (Z.mod_pos_bound n 256). pose proof (Z.div_pos n 256). pose proof (Z.div_lt_upper_bound n 256 64).
    repeat constructor; lia.
  - case_match; (constructor; [by split|]); apply Forall_reverse, le_byte; lia.
Qed.

Lemma length_lenBytes n : (1 ≤ length (lenBytes n) ≤ 9)%nat.
Proof. unfold lenBytes. repeat case_match; cbn [length]; rewrite ?length_reverse, ?length_le; lia. Qed.

Lemma htonl_stored `{Host} v : hostBytes 4 (htonl v) = reverse (le 4 v).
Proof.
  unfold htonl, intrev32, hostBytes, hostInt. destruct BYTE_ORDER; [|done].
  rewrite memrev32_reverse by by rewrite length_le.
  apply le_unle; [by rewrite length_reverse, length_le|]. apply Forall_reverse, le_bytes. lia.
Qed.

Lemma ntohl_loaded `{Host} v : 0 ≤ v < 2 ^ 32 → ntohl (hostInt (reverse (le 4 v))) = v.
Proof.
  intros Hv. unfold ntohl, intrev32, hostBytes, hostInt. destruct BYTE_ORDER.
  - rewrite le_unle, memrev32_reverse, reverse_involutive, unle_le;
      rewrite ?length_reverse, ?length_le; try done; [by rewrite Z.mod_small|]. apply Forall_reverse, le_bytes. lia.
  - rewrite reverse_involutive, unle_le by done. by rewrite Z.mod_small.
Qed.

Lemma ntohu64_loaded `{Host} v : 0 ≤ v < 2 ^ 64 → ntohu64 (hostInt (reverse (le 8 v))) = v.
Proof.
  intros Hv. unfold ntohu64, intrev64, hostBytes, hostInt. destruct BYTE_ORDER.
  - rewrite le_unle, memrev64_reverse, reverse_involutive, unle_le;
      rewrite ?length_reverse, ?length_le; try done; [by rewrite Z.mod_small|]. apply Forall_reverse, le_bytes. lia.
  - rewrite reverse_involutive, unle_le by done. by rewrite Z.mod_small.
Qed.

Section Lengths.
Context `{Host} (bufAddr : Z → Z).

Lemma rdbWriteRaw_saves x : Forall byte x → size x < 2 ^ 31 → Saves (rdbWriteRaw bufAddr x) x (size x).
Proof.
  intros Hx Hl. unfold rdbWriteRaw. eapply Saves_last; [by apply Saves_write|]. cbn. by rewrite int32_id by lia.
Qed.

Lemma size_neq {A} (x : list A) : (size x =? -1) = false.
Proof. lia. Qed.

Lemma saveLen2_saves x y : Forall byte x → Forall byte y → size x < 2 ^ 31 → size y < 2 ^ 31 →
  Saves (saveLen2 bufAddr x y) (x ++ y) (size (x ++ y)).
Proof.
  intros Hx Hy Hlx Hly. unfold saveLen2. eapply Saves_bind; [by apply rdbWriteRaw_saves|]. cbn beta. rewrite size_neq.
  eapply Saves_last; [by apply rdbWriteRaw_saves|]. cbn beta. rewrite size_neq. f_equal. rewrite length_app. lia.
Qed.

Lemma rdbSaveLen_saves n : 0 ≤ n < 2 ^ 64 → Saves (rdbSaveLen bufAddr n) (lenBytes n) (size (lenBytes n)).
Proof.
  intros Hn. pose proof (lenBytes_bytes n ltac:(lia)) as Hb. unfold rdbSaveLen, lenBytes in *. change (Z.shiftl 1 6) with 64.
  change (Z.shiftl 1 14) with 16384. destruct (Z.ltb_spec n 64); [|destruct (Z.ltb_spec n 16384); [|destruct (Z.leb_spec n UINT32_MAX)]].
  - rewrite land_255, Z.mod_small, Z.lor_0_r by lia. eapply Saves_last; [apply rdbWriteRaw_saves; cbn; done || lia|done].
  - rewrite Z.shiftr_div_pow2, !land_255 by lia. change (2 ^ 8) with 256. pose proof (div_range n 256 64).
    rewrite (Z.mod_small (n / _)), lor_high by lia. change (RDB_14BITLEN * 2 ^ 6) with 64. rewrite (Z.add_comm (n / 256)).
    eapply Saves_last; [apply rdbWriteRaw_saves; cbn; done || lia|done].
  - rewrite htonl_stored. inversion_clear Hb. apply (saveLen2_saves [_]); [by repeat constructor|done|cbn; lia|].
    rewrite length_reverse, length_le by lia. lia.
  - rewrite htonu64_stored. inversion_clear Hb. apply (saveLen2_saves [_]); [by repeat constructor|done|cbn; lia|].
    rewrite length_reverse, length_le by lia. lia.
Qed.

(** The parts of the first byte. *)
Lemma header_type b : byte b → Z.shiftr (Z.land b 0xC0) 6 = b / 64.
Proof.
  intros Hb. rewrite Z.shiftr_land, Z.shiftr_div_pow2 by lia. change (Z.shiftr 0xC0 6) with (Z.ones 2). change (2 ^ 6) with 64.
  rewrite Z.land_ones by lia. apply Z.mod_small. apply div_range; unfold byte in *; lia.
Qed.

Lemma header_low b : Z.land b 0x3F = b mod 64.
Proof. apply (Z.land_ones b 6). lia. Qed.

Lemma rdbLoadLenByRef_reads n : 0 ≤ n < 2 ^ 64 → Reads (rdbLoadLenByRef bufAddr) (lenBytes n) (Some (false, n)) None.
Proof.
  intros Hn. pose proof (lenBytes_bytes n ltac:(lia)) as Hb. unfold rdbLoadLenByRef.
  assert (∃ b y, lenBytes n = [b] ++ y ∧ byte b) as (b & y & Hby & Hbb).
  { destruct (lenBytes n) as [|b y] eqn:E; [pose proof (length_lenBytes n) as Hl; rewrite E in Hl; cbn in Hl; lia|].
    exists b, y. split; [done|by inversion Hb]. }
  rewrite Hby. eapply Reads_bind; [by apply Reads_read| |apply Stops_ret]. cbn [lookup_total list_lookup_total].
  rewrite header_type, header_low by done. unfold lenBytes in Hby.
  destruct (Z.ltb_spec n 64); [|destruct (Z.ltb_spec n 16384); [|destruct (Z.leb_spec n UINT32_MAX)]];
    injection Hby as <- <-.
  - rewrite Z.div_small, Z.mod_small by lia. apply Reads_ret.
  - replace ((64 + n / 256) / 64) with 1.
    2: { pose proof (div_range n 256 64). apply (Z.div_unique _ _ _ (n / 256)); lia. }
    replace ((64 + n / 256) mod 64) with (n / 256).
    2: { pose proof (div_range n 256 64). apply (Z.mod_unique _ _ 1 (n / 256)); lia. }
    eapply Reads_last; [by apply Reads_read| |done]. cbn. do 3 f_equal. rewrite Z.lor_comm, lor_high.
    + pose proof (Z.div_mod n 256). lia.
    + lia.
    + apply Z.mod_pos_bound. lia.
  - eapply Reads_last; [apply Reads_read; by rewrite length_reverse, length_le| |done]. cbn. by rewrite ntohl_loaded by (unfold UINT32_MAX in *; lia).
  - eapply Reads_last; [apply Reads_read; by rewrite length_reverse, length_le| |done]. cbn. by rewrite ntohu64_loaded by lia.
Qed.

Lemma rdbLoadLen_reads n : 0 ≤ n < 2 ^ 64 → Reads (rdbLoadLen bufAddr) (lenBytes n) (false, n) (false, RDB_LENERR).
Proof. intros Hn. unfold rdbLoadLen. eapply Reads_last; [by apply rdbLoadLenByRef_reads|done|done]. Qed.

(** An encoded string begins with [0xC0 + k]. *)
Lemma rdbLoadLen_encoded k : 0 ≤ k < 64 → Reads (rdbLoadLen bufAddr) [192 + k] (true, k) (false, RDB_LENERR).
Proof.
  intros Hk. unfold rdbLoadLen. apply (Reads_last _ _ _ (Some (true, k)) _ None); [|done|done]. unfold rdbLoadLenByRef.
  eapply Reads_last; [by apply Reads_read| |done]. cbn [lookup_total list_lookup_total].
  rewrite header_type, header_low by (unfold byte; lia).
  replace ((192 + k) / 64) with 3 by (apply (Z.div_unique _ _ _ k); lia).
  replace ((192 + k) mod 64) with k by (apply (Z.mod_unique _ _ 3 k); lia). done.
Qed.

Lemma rdbLoadLen_stops : Stops (rdbLoadLen bufAddr) (false, RDB_LENERR).
Proof. unfold rdbLoadLen, rdbLoadLenByRef. eapply Stops_bind; [eapply Stops_bind; [apply Stops_read|apply Stops_ret]|apply Stops_ret]. Qed.

End Lengths.

(** ** The decimal text of an integer *)

Lemma digitLoop_dec fuel : ∀ k n, ndigits k n → (k ≤ fuel)%nat → digitLoop fuel n = reverse (dec k n).
Proof.
  induction fuel as [|fuel IH]; intros [|k] n (Hk & Hn & Hlow) Hf; [lia..|]. cbn [digitLoop dec]. rewrite reverse_snoc.
  rewrite pow10_S in Hn. f_equal. pose proof (div_range n 10 (10 ^ Z.of_nat k) ltac:(lia) Hn) as Hd.
  replace (Z.of_nat (S k) - 1) with (Z.of_nat k) in Hlow by lia. destruct k as [|k].
  { change (10 ^ Z.of_nat 0) with 1 in Hd. by replace (n / 10) with 0 by lia. }
  destruct Hlow as [|Hlow]; [lia|]. rewrite pow10_S in Hlow.
  assert (10 ^ Z.of_nat k ≤ n / 10) by (apply Z.div_le_lower_bound; lia).
  pose proof (Z.pow_pos_nonneg 10 (Z.of_nat k)). destruct (Z.eqb_spec (n / 10) 0); [lia|].
  apply IH; [|lia]. split_and!; [lia|lia|lia|]. right. by replace (Z.of_nat (S k) - 1) with (Z.of_nat k) by lia.
Qed.


Lemma swapLoop_reverse (n : nat) : ∀ fuel (pre m post : bytes), length m = n → (n ≤ fuel)%nat →
  swapLoop fuel (length pre) (length pre + n - 1) (pre ++ m ++ post) = pre ++ reverse m ++ post.
Proof.
  induction n as [n IH] using lt_wf_ind. intros fuel pre m post Hm Hf.
  destruct fuel as [|fuel]. { destruct m; [done|cbn in *; lia]. }
  cbn [swapLoop]. destruct (decide _) as [Hlt|Hge].
  2: { destruct m as [|a [|b m]]; [done|done|cbn in *; lia]. }
  destruct m as [|a m]; [cbn in *; lia|]. destruct m as [|b d _] using rev_ind; [cbn in *; lia|].
  replace (pre ++ (a :: d ++ [b]) ++ post) with (pre ++ a :: d ++ b :: post) by (cbn; by rewrite <-app_assoc).
  rewrite list_lookup_middle by done.
  replace (pre ++ a :: d ++ b :: post) with ((pre ++ a :: d) ++ b :: post) by (by rewrite <-app_assoc).
  cbn [length] in Hm. rewrite length_app in Hm. cbn in Hm.
  rewrite (list_lookup_middle (pre ++ a :: d)) by (rewrite length_app; cbn; lia).
  replace ((pre ++ a :: d) ++ b :: post) with (pre ++ a :: d ++ b :: post) by (by rewrite <-app_assoc).
  rewrite insert_app_r_alt, Nat.sub_diag by lia. cbn [insert list_insert].
  replace (pre ++ b :: d ++ b :: post) with ((pre ++ b :: d) ++ b :: post) by (by rewrite <-app_assoc).
  rewrite insert_app_r_alt by (rewrite length_app; cbn; lia).
  replace (length pre + n - 1 - length (pre ++ b :: d))%nat with 0%nat by (rewrite length_app; cbn; lia). cbn [insert list_insert].
  replace ((pre ++ b :: d) ++ a :: post) with ((pre ++ [b]) ++ d ++ a :: post) by (by rewrite <-!app_assoc).
  replace (length pre + 1)%nat with (length (pre ++ [b])) by (by rewrite length_app).
  replace (length pre + n - 1 - 1)%nat with (length (pre ++ [b]) + length d - 1)%nat by (rewrite length_app; cbn; lia).
  rewrite (IH (length d)) by lia. rewrite reverse_cons, reverse_snoc, <-!app_assoc. done.
Qed.

Lemma sdsll2str_decimal v : LLONG_MIN ≤ v ≤ LLONG_MAX → sdsll2str v = decimal v.
Proof.
  intros Hv. unfold sdsll2str, LLONG_MIN, LLONG_MAX in *.
  assert (0 ≤ (if v <? 0 then - v else v) ≤ ULLONG_MAX) as Hw by (unfold ULLONG_MAX; case_match; lia).
  rewrite u64_id by done. rewrite (digitLoop_dec 20 (Z.to_nat (digits10 (if v <? 0 then - v else v)))).
  2: by apply digits10_ndigits.
  2: { pose proof (digits10_bound _ Hw). lia. }
  set (s := reverse _ ++ _). pose proof (swapLoop_reverse (length s) (length s) [] s [] eq_refl (le_n _)) as Hr.
  cbn [length app] in Hr. rewrite !app_nil_r, Nat.add_0_l in Hr. rewrite Hr. subst s. unfold decimal. case_match.
  - by rewrite reverse_snoc, reverse_involutive.
  - by rewrite app_nil_r, reverse_involutive.
Qed.

(** ** Integers *)

(** Integers that are saved in one, two or four bytes. *)
Definition smallInt (v : Z) : Prop := - 2 ^ 31 ≤ v < 2 ^ 31.

Lemma smallInt_range v : smallInt v → LLONG_MIN ≤ v ≤ LLONG_MAX.
Proof. unfold smallInt, LLONG_MIN, LLONG_MAX. lia. Qed.

Lemma signed_mod w v : 0 < w → - 2 ^ (8 * w - 1) ≤ v < 2 ^ (8 * w - 1) → signed w (v mod 2 ^ (8 * w)) = v.
Proof.
  intros Hw Hv. unfold signed. assert (2 ^ (8 * w) = 2 * 2 ^ (8 * w - 1)) as Hp by (rewrite <-Z.pow_succ_r by lia; f_equal; lia).
  destruct (Z.lt_ge_cases v 0).
  - rewrite <-(Z.mod_add v 1), Z.mod_small by lia. destruct (Z.ltb_spec (v + 1 * 2 ^ (8 * w)) (2 ^ (8 * w - 1))); lia.
  - rewrite Z.mod_small by lia. destruct (Z.ltb_spec v (2 ^ (8 * w - 1))); lia.
Qed.

Section Integers.
Context `{Host} (bufAddr : Z → Z).

(** The encoded form is a header and the bytes of the integer. *)
Lemma rdbEncodeInteger_reads v : smallInt v → ∃ k y,
  rdbEncodeInteger v = [192 + k] ++ y ∧ 0 ≤ k ≤ 2 ∧ Forall byte y ∧ (length y ≤ 4)%nat ∧
  ∀ flags, Reads (rdbLoadIntegerObject bufAddr k flags) y (Some (integerObject flags v)) None.
Proof.
  intros Hv. unfold smallInt, rdbEncodeInteger in *.
  change (- Z.shiftl 1 7) with (-128). change (Z.shiftl 1 7 - 1) with 127.
  change (- Z.shiftl 1 15) with (-32768). change (Z.shiftl 1 15 - 1) with 32767.
  change (- Z.shiftl 1 31) with (-2147483648). change (Z.shiftl 1 31 - 1) with 2147483647.
  destruct ((-128 <=? v) && _) eqn:H8; [|destruct ((-32768 <=? v) && _) eqn:H16; [|destruct ((-2147483648 <=? v) && _) eqn:H32; [|lia]]].
  - exists RDB_ENC_INT8. eexists. split_and!; [done|done|done|repeat constructor; apply byte_land|cbn; lia|]. intros flags.
    eapply Reads_last; [by apply Reads_read| |done]. cbn [lookup_total list_lookup_total].
    rewrite land_255. change 256 with (2 ^ (8 * 1)). by rewrite signed_mod by lia.
  - exists RDB_ENC_INT16. eexists. split_and!; [done|done|done|repeat constructor; apply byte_land|cbn; lia|]. intros flags.
    eapply Reads_last; [by apply Reads_read| |done]. cbn [lookup_total list_lookup_total].
    rewrite two_bytes. change (2 ^ 16) with (2 ^ (8 * 2)). by rewrite signed_mod by lia.
  - exists RDB_ENC_INT32. eexists. split_and!; [done|done|done|repeat constructor; apply byte_land|cbn; lia|]. intros flags.
    eapply Reads_last; [by apply Reads_read| |done]. cbn [lookup_total list_lookup_total].
    rewrite four_bytes. change (2 ^ 32) with (2 ^ (8 * 4)). by rewrite signed_mod by lia.
Qed.

End Integers.

Lemma rdbEncodeInteger_nil v : rdbEncodeInteger v = [] ↔ ¬ smallInt v.
Proof.
  unfold rdbEncodeInteger, smallInt. change (- Z.shiftl 1 31) with (-2147483648). change (Z.shiftl 1 31 - 1) with 2147483647.
  change (- Z.shiftl 1 7) with (-128). change (Z.shiftl 1 7 - 1) with 127.
  change (- Z.shiftl 1 15) with (-32768). change (Z.shiftl 1 15 - 1) with 32767.
  repeat case_match; split; (discriminate || lia || done).
Qed.

(** A string that is saved as an integer is the text of that integer. *)
Lemma strtoll_range s : LLONG_MIN ≤ fst (strtoll s) ≤ LLONG_MAX.
Proof.
  assert (∀ ds v, 0 ≤ v → Forall (λ c, is_digit c = true) ds → 0 ≤ dval v ds) as Hd.
  { intros ds v Hv Hds. pose proof (dval_mono v ds Hds Hv). lia. }
  assert (∀ p, Forall (λ c, is_digit c = true) (fst (spanDigits p))) as Hs.
  { intros p. induction p as [|c p IH]; cbn; [constructor|]. destruct (is_digit c) eqn:E; [|constructor].
    destruct (spanDigits p). cbn in *. by constructor. }
  unfold strtoll, LLONG_MIN, LLONG_MAX. destruct (match skipBlanks s with [] => _ | _ => _ end) as [neg p].
  destruct p as [|c p]; [cbn; lia|]. destruct (is_digit c); [|cbn; lia]. specialize (Hs (c :: p)).
  destruct (spanDigits (c :: p)) as [ds rest]. specialize (Hd ds 0 ltac:(lia) Hs). cbn. destruct neg; lia.
Qed.

Lemma rdbTryIntegerEncoding_int s : rdbTryIntegerEncoding s ≠ [] →
  ∃ v, smallInt v ∧ s = decimal v ∧ rdbTryIntegerEncoding s = rdbEncodeInteger v.
Proof.
  unfold rdbTryIntegerEncoding. pose proof (strtoll_range s) as Hr. destruct (strtoll s) as [v rest]. cbn [fst] in Hr.
  destruct (negb _); [done|]. rewrite ll2buf_decimal by (done || lia). destruct (_ || _) eqn:E; [done|]. intros Hne.
  apply orb_false_iff in E as [_ E]. apply negb_false_iff, bool_decide_eq_true in E. exists v. split_and!; [|done|done].
  destruct (decide (smallInt v)) as [|Hn]; [done|]. by apply rdbEncodeInteger_nil in Hn.
Qed.

(** ** Strings *)

(** The forms of a saved string: an integer, compressed, or as it is. *)
Inductive stored (s : bytes) : list Z → Prop :=
  | stored_int v : smallInt v → s = decimal v → stored s (rdbEncodeInteger v)
  | stored_lzf c : 0 < size s < 2 ^ 31 → size c < 2 ^ 31 → Forall byte c →
      (∀ buf, length buf = length s → lzf_decompress c buf = Ok (inr (size s), raw s)) →
      stored s ([192 + RDB_ENC_LZF] ++ lenBytes (size c) ++ lenBytes (size s) ++ c)
  | stored_plain : size s < 2 ^ 31 → stored s (lenBytes (size s) ++ raw s).

Lemma stored_pos s x : stored s x → 0 < size x.
Proof.
  destruct 1 as [v Hv _|c|]; rewrite ?length_app; [|cbn; lia|pose proof (length_lenBytes (size s)); lia].
  destruct (rdbEncodeInteger_reads (H := littleHost) id v Hv) as (k & y & -> & _). cbn. lia.
Qed.

Section Save.
Context `{Host} (bufAddr htab : Z → Z) (fresh : nat → Z) (rdb_compression : bool).
Context (htab_u32 : ∀ j, 0 ≤ htab j < 2 ^ 32).

Lemma rdbEncodeInteger_saves v : smallInt v → Saves (rdbWriteRaw bufAddr (rdbEncodeInteger v)) (rdbEncodeInteger v) (size (rdbEncodeInteger v)).
Proof.
  intros Hv. destruct (rdbEncodeInteger_reads bufAddr v Hv) as (k & y & -> & Hk & Hy & Hl & _).
  apply rdbWriteRaw_saves; [|rewrite length_app; cbn; lia]. constructor; [unfold byte; lia|done].
Qed.

Lemma saveVerbatim_saves s : size s < 2 ^ 31 →
  Saves (saveVerbatim bufAddr (raw s)) (lenBytes (size s) ++ raw s) (size (lenBytes (size s) ++ raw s)).
Proof.
  intros Hs. unfold saveVerbatim. rewrite length_raw. eapply Saves_bind; [apply rdbSaveLen_saves; lia|]. cbn beta. rewrite size_neq.
  destruct (Z.ltb_spec 0 (size s)).
  - eapply Saves_last; [apply rdbWriteRaw_saves; [apply raw_bytes|by rewrite length_raw]|]. cbn beta. rewrite size_neq, length_app, length_raw.
    f_equal. lia.
  - destruct s; [|cbn in *; lia]. cbn [raw fmap list_fmap]. rewrite app_nil_r. apply Saves_ret.
Qed.

Lemma rdbSaveLzfBlob_saves c n : Forall byte c → size c < 2 ^ 31 → 0 ≤ n < 2 ^ 64 →
  let x := [192 + RDB_ENC_LZF] ++ lenBytes (size c) ++ lenBytes n ++ c in Saves (rdbSaveLzfBlob bufAddr c n) x (size x).
Proof.
  intros Hc Hl Hn. unfold rdbSaveLzfBlob. eapply Saves_bind; [apply (rdbWriteRaw_saves _ [195]); [by repeat constructor|cbn; lia]|].
  cbn beta. rewrite size_neq. eapply Saves_bind; [apply rdbSaveLen_saves; lia|]. cbn beta. rewrite size_neq.
  eapply Saves_bind; [by apply rdbSaveLen_saves|]. cbn beta. rewrite size_neq.
  eapply Saves_last; [by apply rdbWriteRaw_saves|]. cbn beta. rewrite size_neq. f_equal. rewrite !length_app. cbn [length]. lia.
Qed.

Lemma small_u32 z : 0 ≤ z < 2 ^ 31 → u32 z = z.
Proof. intros. unfold u32. apply Z.mod_small. lia. Qed.

(** Either nothing is written, or the compressed form. *)
Lemma rdbSaveLzfStringObject_saves s : 4 < size s < 2 ^ 31 →
  rdbSaveLzfStringObject bufAddr htab fresh (raw s) = mret 0 ∨
  ∃ x, stored s x ∧ Saves (rdbSaveLzfStringObject bufAddr htab fresh (raw s)) x (size x).
Proof.
  intros Hs. unfold rdbSaveLzfStringObject. rewrite length_raw. destruct (Z.leb_spec (size s) 4); [lia|].
  rewrite !small_u32, take_ge by (rewrite ?length_raw; lia). set (out := take _ (newBytes _ _)).
  assert (size out = size s - 4) as Hout.
  { subst out. rewrite length_take. unfold newBytes. rewrite length_fmap, length_seq. lia. }
  destruct (lzf_inverse (raw s) out htab) as (n & o & -> & Hl & Hn & Hd); [apply raw_bytes|rewrite length_raw; lia|done|].
  destruct (Z.eqb_spec n 0) as [|Hne]; [by left|right]. destruct (Hd Hne) as [Hb Hdec]. set (c := take (Z.to_nat n) o) in *.
  assert (size c < 2 ^ 31) by (subst c; rewrite length_take; lia).
  eexists. split; [|apply rdbSaveLzfBlob_saves; [done|done|lia]]. apply stored_lzf; [lia|done|done|].
  intros buf Hbuf. rewrite Hdec by (rewrite length_raw; lia). rewrite drop_ge by (rewrite length_raw; lia).
  by rewrite app_nil_r, length_raw.
Qed.

Lemma rdbSaveRawString_saves s : size s < 2 ^ 31 →
  ∃ x, stored s x ∧ Saves (rdbSaveRawString bufAddr htab fresh rdb_compression s) x (size x).
Proof.
  intros Hs. unfold rdbSaveRawString. set (enc := if size s <=? 11 then _ else _).
  assert (enc = [] ∨ ∃ v, smallInt v ∧ s = decimal v ∧ enc = rdbEncodeInteger v) as [->|(v & Hv & -> & Henc)].
  { subst enc. case_match; [|by left]. destruct (rdbTryIntegerEncoding s) eqn:E; [by left|right]. rewrite <-E.
    apply rdbTryIntegerEncoding_int. by rewrite E. }
  2: { destruct enc as [|b enc']. { symmetry in Henc. by apply rdbEncodeInteger_nil in Henc. }
       exists (b :: enc'). split; [rewrite Henc; by apply stored_int|].
       eapply Saves_last; [rewrite Henc; by apply rdbEncodeInteger_saves|]. cbn beta. by rewrite size_neq, Henc. }
  assert (∀ n, n = 0 → ∃ x, stored s x ∧ Saves (if n =? -1 then mret (-1) else if 0 <? n then mret n else saveVerbatim bufAddr (raw s)) x (size x)) as Hplain.
  { intros n ->. cbn. eexists. split; [by apply stored_plain|by apply saveVerbatim_saves]. }
  destruct (rdb_compression && _) eqn:Hc.
  2: { destruct (Hplain 0 eq_refl) as (x & Hx & Hsave). exists x. split; [done|]. apply (Saves_bind _ _ [] x _ _ (Saves_ret 0)). done. }
  destruct (rdbSaveLzfStringObject_saves s) as [->|(x & Hx & Hsave)]; [lia|..].
  { destruct (Hplain 0 eq_refl) as (x & Hx & Hsave). exists x. split; [done|]. apply (Saves_bind _ _ [] x _ _ (Saves_ret 0)). done. }
  exists x. split; [done|]. eapply Saves_last; [done|]. cbn beta. rewrite size_neq. pose proof (stored_pos _ _ Hx).
  destruct (Z.ltb_spec 0 (size x)); [done|lia].
Qed.

Lemma rdbSaveLongLongAsStringObject_saves v : LLONG_MIN ≤ v ≤ LLONG_MAX →
  ∃ x, stored (decimal v) x ∧ Saves (rdbSaveLongLongAsStringObject bufAddr v) x (size x).
Proof.
  intros Hv. unfold rdbSaveLongLongAsStringObject. destruct (rdbEncodeInteger v) as [|b enc] eqn:E.
  - rewrite ll2buf_decimal by (done || lia). pose proof (length_decimal v Hv). eexists. split; [apply stored_plain; lia|].
    unfold serverAssert. destruct (Z.ltb_spec (size (decimal v)) 32); [|lia].
    apply (Saves_bind _ _ [] _ _ _ (Saves_ret tt)). eapply Saves_bind; [apply rdbSaveLen_saves; lia|]. cbn beta. rewrite size_neq.
    eapply Saves_last; [apply rdbWriteRaw_saves; [apply raw_bytes|rewrite length_raw; lia]|]. cbn beta. rewrite size_neq.
    f_equal. rewrite length_app. lia.
  - assert (smallInt v) as Hsm by (destruct (decide (smallInt v)) as [|Hn]; [done|]; apply rdbEncodeInteger_nil in Hn; by rewrite E in Hn).
    pose proof (rdbEncodeInteger_saves v Hsm) as Hw. rewrite E in Hw. exists (b :: enc). split; [rewrite <-E; by apply stored_int|exact Hw].
Qed.

Lemma rdbSaveStringObject_saves o s : string_obj o s → size s < 2 ^ 31 →
  ∃ x, stored s x ∧ Saves (rdbSaveStringObject bufAddr htab fresh rdb_compression o) x (size x).
Proof.
  destruct 1 as [s|s|v Hv]; intros Hs.
  - by apply rdbSaveRawString_saves.
  - by apply rdbSaveRawString_saves.
  - by apply rdbSaveLongLongAsStringObject_saves.
Qed.

End Save.

(** ** Loading *)

(** The string objects that loading makes. *)
Definition madeFor (o : robj) (s : bytes) : Prop :=
  o = createRawStringObject s ∨ o = createStringObject s ∨ ∃ v, LLONG_MIN ≤ v ≤ LLONG_MAX ∧ o = createIntObject v ∧ s = decimal v.

Lemma madeFor_string o s : madeFor o s → string_obj o s.
Proof. intros [->|[->|(v & Hv & -> & ->)]]; eauto using createStringObject_string. Qed.

(** The object [tryObjectEncoding] chooses for [s]. *)
Definition canon (s : bytes) : robj :=
  match (if size s <=? 20 then string2l s else None) with
  | Some v => createIntObject v
  | None => if size s <=? OBJ_ENCODING_EMBSTR_SIZE_LIMIT then createEmbeddedStringObject s else createRawStringObject s
  end.

Lemma canon_string s : string_obj (canon s) s.
Proof.
  unfold canon. rewrite string2l_string2ll. destruct (if size s <=? 20 then _ else _) as [v|] eqn:E.
  2: { destruct (_ <=? OBJ_ENCODING_EMBSTR_SIZE_LIMIT); constructor. }
  destruct (size s <=? 20); [|done]. apply string2ll_decimal in E as [Hv ->]. by constructor.
Qed.

Lemma tryObjectEncoding_canon {S} o s (σ : S) : madeFor o s → tryObjectEncoding o σ = Ok (canon s, σ).
Proof.
  unfold canon. intros [->|[->|(v & Hv & -> & ->)]].
  - cbv [tryObjectEncoding mbind M_bind serverAssert mret M_ret ptrSds sdsEncodedObject].
    cbn [o_type o_encoding o_ptr createRawStringObject]. simpl_decide. cbn. repeat case_match; done.
  - unfold createStringObject. destruct (size s <=? OBJ_ENCODING_EMBSTR_SIZE_LIMIT) eqn:E;
      cbv [tryObjectEncoding mbind M_bind serverAssert mret M_ret ptrSds sdsEncodedObject];
      cbn [o_type o_encoding o_ptr createRawStringObject createEmbeddedStringObject]; simpl_decide; cbn; rewrite E; repeat case_match; done.
  - pose proof (length_decimal v Hv). destruct (Z.leb_spec (size (decimal v)) 20); [|lia].
    by rewrite string2l_string2ll, (proj2 (string2ll_decimal (decimal v) v)).
Qed.

(** The result of loading [s]. *)
Definition loadedAs (flags : loadFlag) (s : bytes) (v : loaded) : Prop :=
  match flags with
  | LOAD_PLAIN => v = PlainString s
  | LOAD_SDS => v = SdsString s
  | LOAD_NONE => v = Object (createRawStringObject s)
  | LOAD_ENC => ∃ o, v = Object o ∧ madeFor o s
  end.

Lemma integerObject_loaded flags v : LLONG_MIN ≤ v ≤ LLONG_MAX → loadedAs flags (decimal v) (integerObject flags v).
Proof.
  intros Hv. destruct flags; cbn [loadedAs integerObject].
  - by rewrite sdsll2str_decimal.
  - eexists. split; [done|]. right. right. eauto.
  - by rewrite ll2buf_decimal by (done || unfold LONG_STR_SIZE; lia).
  - by rewrite ll2buf_decimal by (done || unfold LONG_STR_SIZE; lia).
Qed.

Lemma stringOf_loaded flags s : loadedAs flags s (stringOf flags s).
Proof. destruct flags; cbn; unfold madeFor; eauto. Qed.

Section Load.
Context `{Host} (bufAddr : Z → Z) (fresh : nat → Z).

Lemma rdbLoadLzfStringObject_reads flags s c : 0 < size s < 2 ^ 31 → size c < 2 ^ 31 →
  (∀ buf, length buf = length s → lzf_decompress c buf = Ok (inr (size s), raw s)) →
  ∃ v, loadedAs flags s v ∧
    Reads (rdbLoadLzfStringObject bufAddr fresh flags) (lenBytes (size c) ++ lenBytes (size s) ++ c) (Some v) None.
Proof.
  intros Hs Hc Hd. eexists. split; [|unfold rdbLoadLzfStringObject; eapply Reads_bind; [apply rdbLoadLen_reads; lia| |apply Stops_ret]].
  2: { cbn [snd]. destruct (Z.eqb_spec (size c) RDB_LENERR); [unfold RDB_LENERR in *; lia|].
    eapply Reads_bind; [apply rdbLoadLen_reads; lia| |apply Stops_ret].
    cbn [snd]. destruct (Z.eqb_spec (size s) RDB_LENERR); [unfold RDB_LENERR in *; lia|].
    eapply Reads_last; [by apply Reads_read| |done]. cbn beta iota.
    rewrite !small_u32 by lia. rewrite (take_ge c) by lia.
    assert (length (newBytes fresh (size s)) = length s) as Hl by (unfold newBytes; rewrite length_fmap, length_seq; lia).
    rewrite take_ge, Hd by lia. destruct (Z.eqb_spec (size s) 0); [lia|].
    rewrite length_raw, drop_ge, app_nil_r, unraw_raw by lia. reflexivity. }
  destruct flags; cbn; unfold madeFor; eauto.
Qed.

Lemma rdbGenericLoadStringObject_reads flags s x : stored s x →
  ∃ v, loadedAs flags s v ∧ Reads (rdbGenericLoadStringObject bufAddr fresh flags) x (Some v) None.
Proof.
  destruct 1 as [v Hv ->|c Hs Hc Hb Hd|Hs]; unfold rdbGenericLoadStringObject.
  - destruct (rdbEncodeInteger_reads bufAddr v Hv) as (k & y & -> & Hk & _ & _ & Hr).
    exists (integerObject flags v). split; [by apply integerObject_loaded, smallInt_range|].
    eapply Reads_bind; [apply rdbLoadLen_encoded; lia| |apply Stops_ret].
    unfold RDB_ENC_INT8, RDB_ENC_INT16, RDB_ENC_INT32. destruct (_ || _) eqn:E; [done|lia].
  - destruct (rdbLoadLzfStringObject_reads flags s c) as (v & Hv & Hr); [done..|]. exists v. split; [done|].
    eapply Reads_bind; [by apply rdbLoadLen_encoded|done|apply Stops_ret].
  - exists (stringOf flags s). split; [apply stringOf_loaded|].
    eapply Reads_bind; [apply rdbLoadLen_reads; lia| |apply Stops_ret]. cbn beta iota.
    destruct (Z.eqb_spec (size s) RDB_LENERR); [unfold RDB_LENERR in *; lia|].
    destruct (Z.eqb_spec (size s) 0) as [Hz|].
    + destruct s; [|cbn in Hz; lia]. apply (Reads_last _ _ [] (Some []) _ None); [apply Reads_ret|done|done].
    + eapply Reads_last; [apply Reads_read; by rewrite length_raw| |done]. cbn beta iota. by rewrite unraw_raw.
Qed.

Lemma rdbGenericLoadStringObject_stops flags : Stops (rdbGenericLoadStringObject bufAddr fresh flags) None.
Proof. eapply Stops_bind; [apply rdbLoadLen_stops|apply Stops_ret]. Qed.

(** ** Types, times and objects *)

Lemma rdbLoadType_reads t : byte t → Reads (rdbLoadType bufAddr) [t] t (-1).
Proof. intros Ht. eapply Reads_last; [by apply (Reads_read _ [t])|done|done]. Qed.

Lemma rdbLoadMillisecondTime_reads t : LLONG_MIN ≤ t ≤ LLONG_MAX → Reads (rdbLoadMillisecondTime bufAddr 9) (le 8 t) t LLONG_MAX.
Proof.
  intros Ht. eapply Reads_last; [apply Reads_read; by rewrite length_le| |done]. cbn [Z.leb Z.compare Pos.compare Pos.compare_cont].
  unfold memrev64ifbe. rewrite (memrev_loaded 8), unle_le by (rewrite ?length_le; done || apply memrev64_reverse).
  f_equal. unfold i64. change (2 ^ (8 * 8)) with (2 ^ 64). rewrite Zplus_mod_idemp_l. by apply i64_id.
Qed.

Context (loadOther : Z → rioM (option robj)).

Lemma rdbLoadObject_reads s x : stored s x → Reads (rdbLoadObject bufAddr fresh loadOther RDB_TYPE_STRING) x (Some (canon s)) None.
Proof.
  intros Hx. unfold rdbLoadObject. cbn [Z.eqb RDB_TYPE_STRING].
  destruct (rdbGenericLoadStringObject_reads LOAD_ENC s x Hx) as (v & (o & -> & Ho) & Hr).
  rewrite <-(app_nil_r x). eapply Reads_bind; [done| |apply Stops_ret]. cbn beta iota.
  split; [|apply Truncated_nil]. intros r y Hi. rewrite took_nil.
  by rewrite (bind_run _ _ _ _ _ (tryObjectEncoding_canon o s r Ho)).
Qed.

End Load.

Section SaveObjects.
Context `{Host} (bufAddr htab : Z → Z) (fresh : nat → Z) (rdb_compression : bool).
Context (htab_u32 : ∀ j, 0 ≤ htab j < 2 ^ 32) (saveOther : robj → rioM Z) (typeOther : robj → Z).

Lemma rdbSaveType_saves t : byte t → Saves (rdbSaveType bufAddr t) [t] 1.
Proof.
  intros Ht. unfold rdbSaveType, Lzf.u8. rewrite Z.mod_small by done. apply (rdbWriteRaw_saves _ [t]); [by apply Forall_singleton|cbn; lia].
Qed.

Lemma rdbSaveMillisecondTime_saves t : Saves (rdbSaveMillisecondTime bufAddr t) (le 8 t) 8.
Proof.
  unfold rdbSaveMillisecondTime, memrev64ifbe. rewrite (memrev_stored 8) by (done || apply memrev64_reverse).
  pose proof (rdbWriteRaw_saves bufAddr (le 8 t)) as Hw. rewrite length_le in Hw by lia. apply Hw; [by apply le_byte|lia].
Qed.

Lemma rdbSaveObject_saves o s : string_obj o s → size s < 2 ^ 31 →
  ∃ x, stored s x ∧ Saves (rdbSaveObject bufAddr htab fresh rdb_compression saveOther o) x (size x).
Proof.
  intros Ho Hs. destruct (rdbSaveStringObject_saves bufAddr htab fresh rdb_compression htab_u32 o s Ho Hs) as (x & Hx & Hsave).
  exists x. split; [done|]. unfold rdbSaveObject. rewrite (string_obj_type _ _ Ho). eapply Saves_last; [done|]. cbn beta. by rewrite size_neq.
Qed.

Lemma rdbSaveObjectType_saves o s : string_obj o s → Saves (rdbSaveObjectType bufAddr typeOther o) [RDB_TYPE_STRING] 1.
Proof. intros Ho. unfold rdbSaveObjectType. rewrite (string_obj_type _ _ Ho). by apply rdbSaveType_saves. Qed.

End SaveObjects.

(** ** Claims *)

(** A string object of any encoding, saved as an integer, compressed or verbatim on
    a machine of one byte order, is loaded as the same bytes on a machine of any
    byte order, in the form the flags ask for; it takes exactly the bytes that were
    written, and loading from less of them gives NULL. *)
Theorem rdb_string_round_trip (hostA hostB : Host) (addrA addrB htab : Z → Z) (freshA freshB : nat → Z) (compression : bool)
    (o : robj) (s : bytes) :
  string_obj o s → size s < 2 ^ 31 → (∀ j, 0 ≤ htab j < 2 ^ 32) →
  ∃ x, Forall byte x ∧
    (∀ r, output (H := hostA) r →
       rdbSaveStringObject (H := hostA) addrA htab freshA compression o r = Ok (size x, wrote (H := hostA) x r)) ∧
    (∀ flags r y, input (H := hostB) r (x ++ y) → ∃ v, loadedAs flags s v ∧
       rdbGenericLoadStringObject (H := hostB) addrB freshB flags r = Ok (Some v, took (H := hostB) x r)) ∧
    (∀ flags r p, input (H := hostB) r p → p `prefix_of` x → p ≠ x → ∃ r', read_error r' = true ∧
       rdbGenericLoadStringObject (H := hostB) addrB freshB flags r = Ok (None, r')).
Proof.
  intros Ho Hs Hh. destruct (rdbSaveStringObject_saves (H := hostA) addrA htab freshA compression Hh o s Ho Hs) as (x & Hx & Hb & Hsave).
  exists x. split_and!; [done|done| |].
  - intros flags r y Hi. destruct (rdbGenericLoadStringObject_reads (H := hostB) addrB freshB flags s x Hx) as (v & Hv & Hr & _).
    exists v. split; [done|by apply (Hr r y)].
  - intros flags r p Hi Hp Hne. destruct (rdbGenericLoadStringObject_reads (H := hostB) addrB freshB flags s x Hx) as (v & Hv & _ & Ht).
    destruct (Ht r p Hi Hp Hne) as (r' & Hrun & He). eauto.
Qed.

(** ** Witnesses *)

Definition sampleString : bytes := replicate 40 "a"%char.

Lemma input_start `{Host} x : Forall byte x → input (rioInitWithBuffer x) x.
Proof. intros Hx. split; cbn; try done; lia. Qed.

Lemma output_start `{Host} : output (rioInitWithBuffer []).
Proof. split; cbn; done. Qed.

(** Saved on a little endian machine, loaded on a big endian one. *)
Lemma rdb_string_round_trip_witness : ∃ r v r',
  rdbSaveStringObject (H := littleHost) id (λ _, 3) (λ _, 9) true (createRawStringObject sampleString) (rioInitWithBuffer []) = Ok (12, r) ∧
  ptr r = [195; 9; 40; 1; 97; 97; 224; 27; 0; 1; 97; 97] ∧
  rdbGenericLoadStringObject (H := bigHost) id (λ _, 9) LOAD_SDS (rioInitWithBuffer (ptr r)) = Ok (Some v, r') ∧ v = SdsString sampleString.
Proof.
  destruct (rdb_string_round_trip littleHost bigHost id id (λ _, 3) (λ _, 9) (λ _, 9) true (createRawStringObject sampleString) sampleString)
    as (x & Hb & Hsave & Hload & _).
  - apply string_obj_raw.
  - vm_compute. reflexivity.
  - lia.
  - pose proof (Hsave (rioInitWithBuffer []) output_start) as Hrun.
    destruct (Hload LOAD_SDS (rioInitWithBuffer x) []) as (v & Hv & Hrun').
    { rewrite app_nil_r. apply input_start. exact Hb. }
    exists (wrote (H := littleHost) x (rioInitWithBuffer [])), v, (took (H := bigHost) x (rioInitWithBuffer x)).
    assert (x = [195; 9; 40; 1; 97; 97; 224; 27; 0; 1; 97; 97]) as Hx by (vm_compute in Hrun; congruence).
    split_and!; [rewrite Hrun, Hx; reflexivity|rewrite Hx; reflexivity|exact Hrun'|exact Hv].
Defined.

(** A compressed string that expands to less than its announced length: the rest is
    what was in the allocated memory. *)
Lemma short_lzf_string_keeps_garbage `{Host} (fresh : nat → Z) : ∃ r,
  rdbGenericLoadStringObject id fresh LOAD_SDS (rioInitWithBuffer [195; 2; 4; 0; 65]) =
  Ok (Some (SdsString ("A"%char :: unraw [fresh 1%nat; fresh 2%nat; fresh 3%nat])), r).
Proof. destruct H; eexists; vm_compute; reflexivity. Qed.
