(* ===== verification/Coll.v ===== *)
(** * Coll: what set and hash objects share

    A collection object has an encoding and a pointer to an integer set, to a ziplist or to
    a hash table (src/src/server.h).  The operations of the set type (SetType.v) and of the
    hash type (HashType.v) run those of the structure on the object. *)

From Stdlib Require Import Ascii String ZifyBool.
From stdpp Require Import base tactics option list strings numbers gmap fin_maps.
From S2P Require Import Prelude Util Dict DictProps Intset Object Rdb.

Local Open Scope Z_scope.

(** The encodings of collections that the two types use. *)
Inductive collEncoding := OBJ_ENCODING_HT | OBJ_ENCODING_INTSET | OBJ_ENCODING_ZIPLIST.

#[global] Instance collEncoding_eq_dec : EqDecision collEncoding.
Proof. solve_decision. Defined.

(** What [ptr] points to; [V] are the values of the table. *)
Inductive collPtr (V : Type) :=
  | PtrIntset (s : intset)
  | PtrZiplist (zl : list Z)
  | PtrDict (d : dict bytes V).
Arguments PtrIntset {V} _.
Arguments PtrZiplist {V} _.
Arguments PtrDict {V} _.

Record collObj (V : Type) := mkColl {
  co_type : objType; co_encoding : collEncoding; co_ptr : collPtr V }.
Arguments mkColl {V} _ _ _.
Arguments co_type {V} _.
Arguments co_encoding {V} _.
Arguments co_ptr {V} _.

Section Lift.
Context {V A : Type}.

(** An operation on the structure of the object. *)
Definition onIntset (m : M intset A) : M (collObj V) A := λ o,
  match co_ptr o with
  | PtrIntset s => match m s with
                   | Ok (a, s) => Ok (a, mkColl (co_type o) (co_encoding o) (PtrIntset s))
                   | Fault f => Fault f
                   end
  | _ => Fault (BadPointer "intset")
  end.

Definition onZiplist (m : M (list Z) A) : M (collObj V) A := λ o,
  match co_ptr o with
  | PtrZiplist zl => match m zl with
                     | Ok (a, zl) => Ok (a, mkColl (co_type o) (co_encoding o) (PtrZiplist zl))
                     | Fault f => Fault f
                     end
  | _ => Fault (BadPointer "ziplist")
  end.

Definition onDict (m : M (dict bytes V) A) : M (collObj V) A := λ o,
  match co_ptr o with
  | PtrDict d => match m d with
                 | Ok (a, d) => Ok (a, mkColl (co_type o) (co_encoding o) (PtrDict d))
                 | Fault f => Fault f
                 end
  | _ => Fault (BadPointer "dict")
  end.

End Lift.

Definition HASHTABLE_MIN_FILL : Z := 10.

Definition htNeedsResize {V} (d : dict bytes V) : bool :=
  let size := Dict.size (ht0 d) + Dict.size (ht1 d) in
  let used := dictSize d in
  (DICT_HT_INITIAL_SIZE <? size) && (Z.quot (i64 (used * 100)) size <? HASHTABLE_MIN_FILL).

Definition isSdsRepresentableAsLongLong (s : bytes) : option Z := string2ll s.

Definition sdsfromlonglong (value : Z) : bytes := sdsll2str value.

(** Deleting a key from the table, and shrinking it when it has become sparse. *)
Definition dictDeleteAndResize {V} `{HashFunction bytes} (can_resize : bool) (key : bytes) : M (dict bytes V) bool :=
  r ← dictDelete key;
  if r =? DICT_OK then
    needs ← gets htNeedsResize;
    (if needs : bool then dictResize can_resize ;; mret tt else mret tt) ;;
    mret true
  else mret false.

(** ** Runs *)

Section Runs.
Context {V A : Type}.

Lemma onIntset_run (m : M intset A) t e s a s' :
  m s = Ok (a, s') → onIntset m (mkColl t e (PtrIntset s) : collObj V) = Ok (a, mkColl t e (PtrIntset s')).
Proof. intros Hm. unfold onIntset. cbn. by rewrite Hm. Qed.

Lemma onZiplist_run (m : M (list Z) A) t e zl a zl' :
  m zl = Ok (a, zl') → onZiplist m (mkColl t e (PtrZiplist zl) : collObj V) = Ok (a, mkColl t e (PtrZiplist zl')).
Proof. intros Hm. unfold onZiplist. cbn. by rewrite Hm. Qed.

Lemma onDict_run (m : M (dict bytes V) A) t e d a d' :
  m d = Ok (a, d') → onDict m (mkColl t e (PtrDict d)) = Ok (a, mkColl t e (PtrDict d')).
Proof. intros Hm. unfold onDict. cbn. by rewrite Hm. Qed.

End Runs.

Section Tables.
Context {V : Type} `{!HashFunction bytes} (can_resize : bool).
Implicit Types d : dict bytes V.

(** Adding a key that the table does not have. *)
Lemma dictAdd_new k v d : dict_wf d → dictSize d < 2 ^ 61 → dictMap d !! k = None →
  ∃ d', dictAdd can_resize k v d = Ok (DICT_OK, d') ∧ dict_wf d' ∧ dictMap d' = <[k := v]> (dictMap d).
Proof.
  intros Hwf Hsz Hk. destruct (dictAddRaw_run can_resize k v d Hwf Hsz) as (d' & Hwf' & _ & Hadd).
  rewrite Hk in Hadd. destruct Hadd as [Hrun Hm]. exists d'. unfold dictAdd.
  by erewrite bind_run by exact Hrun.
Qed.

Lemma dictDeleteAndResize_run k d : dict_wf d → dictSize d < 2 ^ 61 →
  ∃ d', dictDeleteAndResize can_resize k d = Ok (bool_decide (is_Some (dictMap d !! k)), d') ∧
    dict_wf d' ∧ dictMap d' = delete k (dictMap d).
Proof.
  intros Hwf Hsz. destruct (dictGenericDelete_run k d Hwf) as (d1 & Hrun & Hwf1 & Hm1 & _).
  assert (Hdel : dictDelete k d = Ok (if bool_decide (is_Some (dictMap d !! k)) then DICT_OK else DICT_ERR, d1)).
  { unfold dictDelete. erewrite bind_run by exact Hrun. destruct (dictMap d !! k).
    - by rewrite bool_decide_true by by eexists.
    - by rewrite bool_decide_false by by intros []. }
  unfold dictDeleteAndResize. erewrite bind_run by exact Hdel.
  destruct (bool_decide (is_Some (dictMap d !! k))); [|by exists d1].
  change (DICT_OK =? DICT_OK) with true. cbv iota. rewrite bind_gets. destruct (htNeedsResize d1).
  2:{ erewrite bind_run by done. by exists d1. }
  destruct (dictResize_run can_resize d1) as (r & d2 & Hres & Hs2); [done|..].
  { rewrite dictSize_map in * by done. rewrite Hm1.
    assert (base.size (delete k (dictMap d)) ≤ base.size (dictMap d))%nat; [|lia].
    rewrite <-!size_dom. apply subseteq_size. rewrite dom_delete. set_solver. }
  erewrite bind_run by (erewrite bind_run by (exact Hres); done). exists d2.
  split; [done|]. split; [apply Hs2|]. by rewrite (sameMap_map d1 d2) by done.
Qed.

End Tables.
