(* ===== verification/SetType.v ===== *)
(** * SetType: set objects (src/src/t_set.c)

    A set object is an integer set while its elements are few integers, and a hash table
    with the elements as keys otherwise.  The functions of the set type hide the encoding:
    the theorems show that they implement a finite set of strings, across the conversion
    from one encoding to the other, on top of the integer sets of Intset.v and of the hash
    tables of Dict.v.

    [set_max_intset_entries] is the configured limit of an integer set.  The random
    elements and the commands are not modelled. *)

From Stdlib Require Import Ascii String ZifyBool.
From stdpp Require Import base tactics option list strings numbers gmap fin_maps fin_sets.
From S2P Require Import Prelude Util Dict DictProps Endian Intset IntsetProps Object Rdb RdbProps Coll.

Local Open Scope Z_scope.

(** The table of a set has no values. *)
Notation setObj := (collObj unit).

(** ** Iterators *)

Record setTypeIterator := mkSetIter {
  si_encoding : collEncoding;
  si_di : dictIterator bytes unit;
  si_ii : Z }.

Section SetType.
Context `{Host, !HashFunction bytes} (garbage : nat → Z) (can_resize : bool) (set_max_intset_entries : Z).

Definition createSetObject : setObj := mkColl OBJ_SET OBJ_ENCODING_HT (PtrDict dictCreate).
Definition createIntsetObject : setObj := mkColl OBJ_SET OBJ_ENCODING_INTSET (PtrIntset intsetNew).

Definition setTypeCreate (value : bytes) : setObj :=
  match isSdsRepresentableAsLongLong value with
  | Some _ => createIntsetObject
  | None => createSetObject
  end.

Definition setTypeInitIterator : M setObj setTypeIterator :=
  encoding ← gets co_encoding;
  match encoding with
  | OBJ_ENCODING_HT => mret (mkSetIter encoding dictGetIterator 0)
  | OBJ_ENCODING_INTSET => mret (mkSetIter encoding dictGetIterator 0)
  | OBJ_ENCODING_ZIPLIST => fail (AssertFailed "Unknown set encoding")
  end.

Definition setTypeReleaseIterator (si : setTypeIterator) : M setObj unit :=
  match si_encoding si with
  | OBJ_ENCODING_HT => onDict (dictReleaseIterator (si_di si))
  | _ => mret tt
  end.

(** [None] is -1; an element is a string or an integer, as the encoding says. *)
Definition setTypeNext (si : setTypeIterator) : M setObj (option (bytes + Z) * setTypeIterator) :=
  match si_encoding si with
  | OBJ_ENCODING_HT =>
      '(de, di) ← onDict (dictNext (si_di si));
      mret (inl ∘ fst <$> de, mkSetIter (si_encoding si) di (si_ii si))
  | OBJ_ENCODING_INTSET =>
      v ← onIntset (intsetGet (u32 (si_ii si)));
      mret (inr <$> v, mkSetIter (si_encoding si) (si_di si) (i32 (si_ii si + 1)))
  | OBJ_ENCODING_ZIPLIST => fail (AssertFailed "Wrong set encoding in setTypeNext")
  end.

Definition setTypeNextObject (si : setTypeIterator) : M setObj (option bytes * setTypeIterator) :=
  '(e, si) ← setTypeNext si;
  mret (match e with
        | Some (inr intele) => Some (sdsfromlonglong intele)
        | Some (inl sdsele) => Some sdsele
        | None => None
        end, si).

Definition setTypeSize : M setObj Z :=
  encoding ← gets co_encoding;
  match encoding with
  | OBJ_ENCODING_HT => onDict (gets dictSize)
  | OBJ_ENCODING_INTSET => onIntset intsetLen
  | OBJ_ENCODING_ZIPLIST => fail (AssertFailed "Unknown set encoding")
  end.

(** ** Conversion *)

(** The loop that adds the integers to the new table [d]. *)
Fixpoint convertIntegers (fuel : nat) (si : setTypeIterator) (d : dict bytes unit) :
    M setObj (dict bytes unit * setTypeIterator) :=
  match fuel with
  | O => fail (AssertFailed "setTypeConvert: fuel")
  | S fuel =>
      '(e, si) ← setTypeNext si;
      match e with
      | None => mret (d, si)
      | Some e =>
          let intele := match e with inr intele => intele | inl _ => -123456789 end in
          match dictAdd can_resize (sdsfromlonglong intele) tt d with
          | Ok (r, d) => serverAssert (r =? DICT_OK) "setTypeConvert" ;; convertIntegers fuel si d
          | Fault f => fail f
          end
      end
  end.

Definition setTypeConvert (enc : collEncoding) : M setObj unit :=
  o ← get;
  serverAssert (bool_decide (co_type o = OBJ_SET) && bool_decide (co_encoding o = OBJ_ENCODING_INTSET))
    "setTypeConvert" ;;
  match enc with
  | OBJ_ENCODING_HT =>
      len ← onIntset intsetLen;
      match dictExpand len dictCreate with
      | Ok (_, d) =>
          si ← setTypeInitIterator;
          '(d, si) ← convertIntegers (S (Z.to_nat len)) si d;
          setTypeReleaseIterator si ;;
          modify (λ o, mkColl (co_type o) OBJ_ENCODING_HT (PtrDict d))
      | Fault f => fail f
      end
  | _ => fail (AssertFailed "Unsupported set conversion")
  end.

(** ** Elements *)

Definition setTypeAdd (value : bytes) : M setObj bool :=
  encoding ← gets co_encoding;
  match encoding with
  | OBJ_ENCODING_HT =>
      de ← onDict (dictAddRaw can_resize value tt);
      mret (match de with inl _ => true | inr _ => false end)
  | OBJ_ENCODING_INTSET =>
      match isSdsRepresentableAsLongLong value with
      | Some llval =>
          success ← onIntset (intsetAdd garbage llval);
          if success : bool then
            len ← onIntset intsetLen;
            (if set_max_intset_entries <? len then setTypeConvert OBJ_ENCODING_HT else mret tt) ;;
            mret true
          else mret false
      | None =>
          setTypeConvert OBJ_ENCODING_HT ;;
          r ← onDict (dictAdd can_resize value tt);
          serverAssert (r =? DICT_OK) "setTypeAdd" ;;
          mret true
      end
  | OBJ_ENCODING_ZIPLIST => fail (AssertFailed "Unknown set encoding")
  end.

Definition setTypeRemove (value : bytes) : M setObj bool :=
  encoding ← gets co_encoding;
  match encoding with
  | OBJ_ENCODING_HT =>
      onDict (dictDeleteAndResize can_resize value)
  | OBJ_ENCODING_INTSET =>
      match isSdsRepresentableAsLongLong value with
      | Some llval => onIntset (intsetRemove garbage llval)
      | None => mret false
      end
  | OBJ_ENCODING_ZIPLIST => fail (AssertFailed "Unknown set encoding")
  end.

Definition setTypeIsMember (value : bytes) : M setObj bool :=
  encoding ← gets co_encoding;
  match encoding with
  | OBJ_ENCODING_HT =>
      de ← onDict (dictFind value);
      mret (bool_decide (is_Some de))
  | OBJ_ENCODING_INTSET =>
      match isSdsRepresentableAsLongLong value with
      | Some llval => onIntset (intsetFind llval)
      | None => mret false
      end
  | OBJ_ENCODING_ZIPLIST => fail (AssertFailed "Unknown set encoding")
  end.

(** The loop over the elements of a set, as in SUNION. *)
Fixpoint setTypeElements (fuel : nat) (si : setTypeIterator) : M setObj (list bytes) :=
  match fuel with
  | O => fail (AssertFailed "setTypeElements: fuel")
  | S fuel =>
      '(e, si) ← setTypeNextObject si;
      match e with
      | None => setTypeReleaseIterator si ;; mret []
      | Some e => l ← setTypeElements fuel si; mret (e :: l)
      end
  end.

End SetType.

(** ** The set of strings of an object *)

(** The strings of a list of integers. *)
Definition setOf (xs : list Z) : gset bytes := list_to_set (decimal <$> xs).

Lemma elem_of_setOf xs b : b ∈ setOf xs ↔ ∃ v, v ∈ xs ∧ b = decimal v.
Proof. unfold setOf. rewrite elem_of_list_to_set, list_elem_of_fmap. naive_solver. Qed.

Lemma fits8_range v : fits 8 v ↔ LLONG_MIN ≤ v ≤ LLONG_MAX.
Proof. unfold fits, LLONG_MIN, LLONG_MAX. change (8 * 8 - 1) with 63. lia. Qed.

Lemma decimal_fits_inj v v' : fits 8 v → fits 8 v' → decimal v = decimal v' → v = v'.
Proof.
  rewrite !fits8_range. intros Hv Hv' He.
  assert (string2ll (decimal v) = Some v) as H1 by by apply string2ll_decimal.
  assert (string2ll (decimal v') = Some v') as H2 by by apply string2ll_decimal. congruence.
Qed.

Lemma decimal_in_setOf xs v : Forall (fits 8) xs → fits 8 v → decimal v ∈ setOf xs ↔ v ∈ xs.
Proof.
  intros Hxs Hv. rewrite elem_of_setOf. split; [|by eauto]. intros (v' & Hin & He).
  rewrite Forall_forall in Hxs. apply decimal_fits_inj in He as ->; auto.
Qed.

Lemma not_in_setOf xs b : Forall (fits 8) xs → string2ll b = None → b ∉ setOf xs.
Proof.
  intros Hxs Hb (v & Hin & ->)%elem_of_setOf. rewrite Forall_forall in Hxs. specialize (Hxs _ Hin).
  rewrite fits8_range in Hxs. assert (string2ll (decimal v) = Some v) by by apply string2ll_decimal. congruence.
Qed.

Lemma size_setOf xs : Forall (fits 8) xs → NoDup xs → base.size (setOf xs) = length xs.
Proof.
  intros Hxs Hnd. unfold setOf. rewrite size_list_to_set, length_fmap; [done|].
  apply NoDup_fmap_2_strong; [|done]. intros x y Hx Hy. rewrite Forall_forall in Hxs. apply decimal_fits_inj; auto.
Qed.

Lemma setOf_insert A v B : setOf (A ++ v :: B) = {[decimal v]} ∪ setOf (A ++ B).
Proof. unfold setOf. rewrite !fmap_app, fmap_cons, !list_to_set_app_L, list_to_set_cons. set_solver. Qed.

Section SetProps.
Context `{Host, !HashFunction bytes} (garbage : nat → Z) (can_resize : bool) (set_max_intset_entries : Z).

Notation add := (setTypeAdd garbage can_resize set_max_intset_entries).
Notation rem := (setTypeRemove garbage can_resize).

Lemma rep_fits8 w xs s : is_rep w xs s → Forall (fits 8) xs.
Proof.
  intros Hr. eapply Forall_impl; [apply (rep_fits _ _ _ Hr)|]. pose proof (rep_wide _ _ _ Hr) as Hw.
  intros v. apply fits_mono; [done|by right; right|]. destruct Hw as [-> |[-> | ->]]; lia.
Qed.

Lemma rep_set_size w xs s : is_rep w xs s → base.size (setOf xs) = length xs.
Proof. intros Hr. apply size_setOf; [by eapply rep_fits8|]. by apply sorted_NoDup, (rep_sorted _ _ _ Hr). Qed.

(** The object [o] stands for the set [X].  The configured limit plays no role here: it can
    be lowered below the size of an integer set. *)
Inductive set_rep : gset bytes → setObj → Prop :=
  | set_rep_intset w xs s : is_rep w xs s →
      set_rep (setOf xs) (mkColl OBJ_SET OBJ_ENCODING_INTSET (PtrIntset s))
  | set_rep_ht d : dict_wf d →
      set_rep (dom (dictMap d)) (mkColl OBJ_SET OBJ_ENCODING_HT (PtrDict d)).

Lemma dictSize_dom (d : dict bytes unit) : dict_wf d → dictSize d = Z.of_nat (base.size (dom (dictMap d))).
Proof. intros Hwf. by rewrite dictSize_map, size_dom by done. Qed.

(** ** The conversion *)

Definition intsetObj (s : intset) : setObj := mkColl OBJ_SET OBJ_ENCODING_INTSET (PtrIntset s).

Lemma setTypeNext_intset w xs s i di : is_rep w xs s → (i ≤ length xs)%nat →
  setTypeNext (mkSetIter OBJ_ENCODING_INTSET di (Z.of_nat i)) (intsetObj s) =
  Ok ((inr <$> xs !! i, mkSetIter OBJ_ENCODING_INTSET di (Z.of_nat (S i))), intsetObj s).
Proof.
  intros Hr Hi. pose proof (rep_small _ _ _ Hr) as Hsm. unfold setTypeNext. cbn [si_encoding si_ii si_di].
  rewrite u32_id by lia.
  erewrite bind_run by (apply onIntset_run; eapply intsetGet_at_run; [done|lia]). rewrite Nat2Z.id.
  assert (i32 (Z.of_nat i + 1) = Z.of_nat (S i)) as ->; [|done].
  unfold i32. rewrite Z.mod_small by lia. lia.
Qed.

Lemma convertIntegers_run w xs s di fuel : is_rep w xs s → ∀ i d, (i + fuel = S (length xs))%nat → (i ≤ length xs)%nat →
  dict_wf d → dom (dictMap d) = setOf (take i xs) →
  ∃ d' si', convertIntegers can_resize fuel (mkSetIter OBJ_ENCODING_INTSET di (Z.of_nat i)) d (intsetObj s) =
      Ok ((d', si'), intsetObj s) ∧ si_encoding si' = OBJ_ENCODING_INTSET ∧
    dict_wf d' ∧ dom (dictMap d') = setOf xs.
Proof.
  intros Hr. induction fuel as [|fuel IH]; intros i d Hf Hi Hwf Hdom; [lia|]. cbn [convertIntegers].
  pose proof (rep_fits8 _ _ _ Hr) as Hfit. pose proof (rep_small _ _ _ Hr) as Hsm.
  pose proof (sorted_NoDup _ (rep_sorted _ _ _ Hr)) as Hnd.
  erewrite bind_run by by eapply setTypeNext_intset. cbv beta iota.
  destruct (xs !! i) as [v|] eqn:Hv; cbn [fmap option_fmap option_map].
  2:{ apply lookup_ge_None in Hv. rewrite take_ge in Hdom by lia. by eexists _, _. }
  assert (fits 8 v) as Hv8 by (rewrite Forall_forall in Hfit; by apply Hfit, list_elem_of_lookup_2 with i).
  unfold sdsfromlonglong. rewrite sdsll2str_decimal by by apply fits8_range.
  destruct (dictAdd_new can_resize (decimal v) tt d) as (d1 & Hrun & Hwf1 & Hm1); [done|..].
  { rewrite dictSize_dom, Hdom by done. rewrite size_setOf, length_take; [lia|by apply Forall_take|].
    by eapply sublist_NoDup, sublist_take. }
  { apply not_elem_of_dom. rewrite Hdom, decimal_in_setOf; [|by apply Forall_take|done].
    intros (j & Hj & Hlt)%elem_of_take. pose proof (NoDup_lookup _ _ _ _ Hnd Hv Hj). lia. }
  rewrite Hrun. erewrite bind_run by by apply serverAssert_run. apply IH; [lia| |done|].
  - apply lookup_lt_Some in Hv. lia.
  - rewrite Hm1, dom_insert_L, Hdom, (take_S_r _ _ _ Hv), setOf_insert, app_nil_r. done.
Qed.

Lemma setTypeConvert_run w xs s : is_rep w xs s →
  ∃ d, setTypeConvert can_resize OBJ_ENCODING_HT (intsetObj s) = Ok (tt, mkColl OBJ_SET OBJ_ENCODING_HT (PtrDict d)) ∧
    dict_wf d ∧ dom (dictMap d) = setOf xs.
Proof.
  intros Hr. pose proof (rep_small _ _ _ Hr) as Hsm. unfold setTypeConvert. rewrite bind_get.
  erewrite bind_run by by apply serverAssert_run.
  erewrite bind_run by (apply onIntset_run; by eapply rep_getLength).
  destruct (dictExpand_any (Z.of_nat (length xs)) (@dictCreate bytes unit)) as (r & d0 & Hexp & Hs0);
    [apply dictCreate_wf|unfold LLONG_MAX; lia|].
  rewrite Hexp. pose proof Hs0 as (Hwf0 & _ & _).
  erewrite bind_run by done. rewrite Nat2Z.id.
  destruct (convertIntegers_run w xs s dictGetIterator (S (length xs)) Hr 0 d0) as (d' & si' & Hrun & Hsi & Hwf' & Hdom);
    [lia|lia|done| |].
  { rewrite (sameMap_map _ _ dictCreate_wf Hs0). by rewrite take_0. }
  cbn in Hrun. erewrite bind_run by exact Hrun. cbv beta iota. unfold setTypeReleaseIterator. rewrite Hsi.
  exists d'. done.
Qed.

(** ** The operations *)

(** The number of elements below which an insertion is safe: an integer set of 2^29 - 1
    elements of 8 bytes cannot grow any more, the size of its block wraps around. *)
Definition sizeLimit (enc : collEncoding) : Z :=
  match enc with OBJ_ENCODING_INTSET => 2 ^ 29 - 1 | _ => 2 ^ 61 end.

(** The encoding after an insertion. *)
Definition encodingAfter (enc : collEncoding) (value : bytes) (X : gset bytes) : collEncoding :=
  if bool_decide (enc = OBJ_ENCODING_INTSET ∧ is_Some (string2ll value) ∧
                  (value ∈ X ∨ Z.of_nat (base.size X) + 1 ≤ set_max_intset_entries))
  then OBJ_ENCODING_INTSET else OBJ_ENCODING_HT.

Definition added (value : bytes) (X : gset bytes) (o : setObj) : Prop :=
  ∃ o', add value o = Ok (bool_decide (value ∉ X), o') ∧ set_rep ({[value]} ∪ X) o' ∧
        co_encoding o' = encodingAfter (co_encoding o) value X.

Lemma add_ht value d : dict_wf d → Z.of_nat (base.size (dom (dictMap d))) < 2 ^ 61 →
  added value (dom (dictMap d)) (mkColl OBJ_SET OBJ_ENCODING_HT (PtrDict d)).
Proof.
  intros Hwf Hsz. rewrite <-dictSize_dom in Hsz by done.
  destruct (dictAddRaw_run can_resize value tt d Hwf Hsz) as (d' & Hwf' & _ & Hadd).
  exists (mkColl OBJ_SET OBJ_ENCODING_HT (PtrDict d')). unfold encodingAfter. cbn [co_encoding].
  rewrite (bool_decide_false (OBJ_ENCODING_HT = _ ∧ _)) by naive_solver. unfold setTypeAdd. rewrite bind_gets. cbn [co_encoding].
  destruct (dictMap d !! value) as [u|] eqn:Hk.
  - destruct Hadd as (Hrun & Hp & _). erewrite bind_run by by apply onDict_run.
    assert (value ∈ dom (dictMap d)) by (apply elem_of_dom; by eexists).
    rewrite bool_decide_false by naive_solver. split_and!; [done| |done].
    replace ({[value]} ∪ dom (dictMap d)) with (dom (dictMap d')); [by constructor|].
    rewrite (dictMap_perm d d') by (done || apply Hwf). set_solver.
  - destruct Hadd as (Hrun & Hm). erewrite bind_run by by apply onDict_run.
    rewrite bool_decide_true by by apply not_elem_of_dom. split_and!; [done| |done].
    rewrite <-dom_insert_L with (x := tt), <-Hm. by constructor.
Qed.

Lemma add_integer value w xs s v : is_rep w xs s → Z.of_nat (length xs) < 2 ^ 29 - 1 →
  string2ll value = Some v → added value (setOf xs) (intsetObj s).
Proof.
  intros Hr Hlen Hv. pose proof (rep_fits8 _ _ _ Hr) as Hfit. pose proof (rep_set_size _ _ _ Hr) as Hsize.
  unfold added, setTypeAdd, isSdsRepresentableAsLongLong, encodingAfter. rewrite Hv, bind_gets. cbn [co_encoding intsetObj].
  apply string2ll_decimal in Hv as [Hv8%fits8_range ->].
  destruct (intsetAdd_run garbage w xs s v Hr Hv8) as (b & s' & Hrun & Hb); [lia|].
  erewrite bind_run by by apply onIntset_run. destruct b.
  - destruct Hb as (A & B & -> & HA & HB & Hr'). rewrite <-setOf_insert.
    assert (Hlen' : Z.of_nat (length (A ++ v :: B)) = Z.of_nat (length (A ++ B)) + 1) by (rewrite !length_app; cbn; lia).
    erewrite bind_run by (apply onIntset_run; by eapply rep_getLength).
    assert (Hni : decimal v ∉ setOf (A ++ B)).
    { rewrite decimal_in_setOf by done. rewrite elem_of_app. rewrite !Forall_forall in HA, HB. intros [Hx%HA|Hx%HB]; lia. }
    rewrite bool_decide_true by done.
    destruct (Z.ltb_spec set_max_intset_entries (Z.of_nat (length (A ++ v :: B)))).
    + destruct (setTypeConvert_run _ _ _ Hr') as (d & Hc & Hwf & Hdom). erewrite bind_run by exact Hc.
      eexists. split; [done|]. rewrite bool_decide_false by naive_solver lia. split; [|done]. rewrite <-Hdom. by constructor.
    + erewrite bind_run by done. eexists. split; [done|]. rewrite bool_decide_true.
      * split; [by econstructor|done].
      * split_and!; [done|by eexists|right; lia].
  - destruct Hb as (Hin & -> & _). apply (decimal_in_setOf xs v Hfit Hv8) in Hin.
    replace ({[decimal v]} ∪ setOf xs) with (setOf xs) by set_solver. rewrite bool_decide_false by naive_solver.
    eexists. split; [done|]. split; [by econstructor|]. rewrite bool_decide_true; [done|].
    split_and!; [done|by eexists|by left].
Qed.

Lemma add_string value w xs s : is_rep w xs s → string2ll value = None → added value (setOf xs) (intsetObj s).
Proof.
  intros Hr Hv. unfold added, setTypeAdd, isSdsRepresentableAsLongLong, encodingAfter. rewrite Hv, bind_gets. cbn [co_encoding intsetObj].
  pose proof (not_in_setOf xs value (rep_fits8 _ _ _ Hr) Hv) as Hni. rewrite bool_decide_true by done.
  rewrite bool_decide_false by (intros (_ & [? ?] & _); congruence).
  destruct (setTypeConvert_run _ _ _ Hr) as (d & Hc & Hwf & Hdom). erewrite bind_run by exact Hc.
  destruct (dictAdd_new can_resize value tt d) as (d' & Hrun & Hwf' & Hm); [done|..].
  { rewrite dictSize_dom, Hdom, (rep_set_size _ _ _ Hr) by done. pose proof (rep_small _ _ _ Hr). lia. }
  { apply not_elem_of_dom. by rewrite Hdom. }
  erewrite bind_run by by apply onDict_run. erewrite bind_run by by apply serverAssert_run.
  eexists. split; [done|]. split; [|done]. rewrite <-Hdom, <-dom_insert_L with (x := tt), <-Hm. by constructor.
Qed.

Lemma setTypeAdd_run value X o : set_rep X o → Z.of_nat (base.size X) < sizeLimit (co_encoding o) → added value X o.
Proof.
  intros [w xs s Hr|d Hwf] Hsz; [|by apply add_ht]. cbn in Hsz. rewrite (rep_set_size _ _ _ Hr) in Hsz.
  destruct (string2ll value) as [v|] eqn:Hv; [by eapply add_integer|by eapply add_string].
Qed.

Definition removed (value : bytes) (X : gset bytes) (o : setObj) : Prop :=
  ∃ o', rem value o = Ok (bool_decide (value ∈ X), o') ∧ set_rep (X ∖ {[value]}) o' ∧ co_encoding o' = co_encoding o.

Lemma remove_ht value d : dict_wf d → Z.of_nat (base.size (dom (dictMap d))) < 2 ^ 61 →
  removed value (dom (dictMap d)) (mkColl OBJ_SET OBJ_ENCODING_HT (PtrDict d)).
Proof.
  intros Hwf Hsz. rewrite <-dictSize_dom in Hsz by done.
  destruct (dictDeleteAndResize_run can_resize value d Hwf Hsz) as (d' & Hrun & Hwf' & Hm).
  unfold removed, setTypeRemove. rewrite bind_gets. cbn [co_encoding]. eexists.
  rewrite (onDict_run _ _ _ _ _ _ Hrun). rewrite <-dom_delete_L, <-Hm.
  split; [|split; [by constructor|done]]. do 2 f_equal. apply bool_decide_ext. by rewrite elem_of_dom.
Qed.

Lemma remove_intset value w xs s : is_rep w xs s → removed value (setOf xs) (intsetObj s).
Proof.
  intros Hr. unfold removed, setTypeRemove, intsetObj. rewrite bind_gets. cbn [co_encoding intsetObj].
  unfold isSdsRepresentableAsLongLong. pose proof (rep_fits8 _ _ _ Hr) as Hfit.
  destruct (string2ll value) as [v|] eqn:Hv.
  - apply string2ll_decimal in Hv as [Hv8%fits8_range ->].
    destruct (intsetRemove_run garbage w xs s v Hr Hv8) as (b & s' & Hrun & Hb).
    eexists. rewrite (onIntset_run _ _ _ _ _ _ Hrun). destruct b.
    + destruct Hb as (A & B & -> & Hr'). rewrite bool_decide_true by (rewrite decimal_in_setOf by done; set_solver).
      assert (decimal v ∉ setOf (A ++ B)) as Hni.
      { rewrite decimal_in_setOf; [|by eapply rep_fits8|done].
        pose proof (sorted_NoDup _ (rep_sorted _ _ _ Hr)) as Hnd. rewrite <-Permutation_middle in Hnd. by apply NoDup_cons in Hnd as [? _]. }
      split; [done|]. split; [|done]. rewrite setOf_insert. replace (_ ∖ _) with (setOf (A ++ B)) by set_solver.
      by econstructor.
    + destruct Hb as (Hni & ->). rewrite <-(decimal_in_setOf xs v Hfit Hv8) in Hni.
      rewrite bool_decide_false by done. split; [done|]. split; [|done].
      replace (_ ∖ _) with (setOf xs) by set_solver. by econstructor.
  - pose proof (not_in_setOf xs value Hfit Hv). rewrite bool_decide_false by done. eexists. split; [done|]. split; [|done].
    replace (_ ∖ _) with (setOf xs) by set_solver. by econstructor.
Qed.

Lemma setTypeRemove_run value X o : set_rep X o → Z.of_nat (base.size X) < sizeLimit (co_encoding o) → removed value X o.
Proof. intros [w xs s Hr|d Hwf] Hsz; [by eapply remove_intset|by apply remove_ht]. Qed.

Lemma setTypeIsMember_run value X o : set_rep X o →
  ∃ o', setTypeIsMember value o = Ok (bool_decide (value ∈ X), o') ∧ set_rep X o'.
Proof.
  intros [w xs s Hr|d Hwf]; unfold setTypeIsMember; rewrite bind_gets; cbn [co_encoding].
  - unfold isSdsRepresentableAsLongLong. pose proof (rep_fits8 _ _ _ Hr) as Hfit.
    destruct (string2ll value) as [v|] eqn:Hv.
    + apply string2ll_decimal in Hv as [Hv8%fits8_range ->]. eexists.
      rewrite (onIntset_run _ _ _ _ _ _ (intsetFind_run _ _ _ v Hr Hv8)). split; [|by econstructor].
      do 2 f_equal. apply bool_decide_ext. by rewrite decimal_in_setOf.
    + pose proof (not_in_setOf xs value Hfit Hv). rewrite bool_decide_false by done. eexists. split; [done|by econstructor].
  - destruct (dictFind_run value d Hwf) as (d' & Hrun & Hs). erewrite bind_run by by apply onDict_run.
    assert (bool_decide (is_Some (pair value <$> dictMap d !! value)) = bool_decide (value ∈ dom (dictMap d))) as ->
      by (apply bool_decide_ext; by rewrite elem_of_dom, fmap_is_Some).
    eexists. split; [done|]. rewrite <-(sameMap_map d d') by done. constructor. apply Hs.
Qed.

Lemma setTypeSize_run X o : set_rep X o → setTypeSize o = Ok (Z.of_nat (base.size X), o).
Proof.
  intros [w xs s Hr|d Hwf]; unfold setTypeSize; rewrite bind_gets; cbn [co_encoding].
  - rewrite (rep_set_size _ _ _ Hr). apply onIntset_run. by eapply rep_getLength.
  - rewrite <-dictSize_dom by done. by apply onDict_run.
Qed.

Lemma setTypeCreate_rep value : set_rep ∅ (setTypeCreate value).
Proof.
  unfold setTypeCreate. case_match.
  - apply (set_rep_intset 2 []), intsetNew_rep.
  - apply (set_rep_ht dictCreate), dictCreate_wf.
Qed.

(** ** Iteration *)

Lemma elements_intset w xs s di fuel : is_rep w xs s → ∀ i, (i + fuel = S (length xs))%nat → (i ≤ length xs)%nat →
  setTypeElements fuel (mkSetIter OBJ_ENCODING_INTSET di (Z.of_nat i)) (intsetObj s) =
  Ok (decimal <$> drop i xs, intsetObj s).
Proof.
  intros Hr. induction fuel as [|fuel IH]; intros i Hf Hi; [lia|]. cbn [setTypeElements]. unfold setTypeNextObject.
  pose proof (rep_fits8 _ _ _ Hr) as Hfit. destruct (xs !! i) as [v|] eqn:Hv.
  - assert (fits 8 v) as Hv8 by (rewrite Forall_forall in Hfit; by apply Hfit, list_elem_of_lookup_2 with i).
    apply lookup_lt_Some in Hv as Hlt.
    erewrite bind_run by (erewrite bind_run by (by eapply setTypeNext_intset); rewrite Hv; reflexivity).
    cbv beta iota. cbn [fmap option_fmap option_map]. unfold sdsfromlonglong.
    rewrite sdsll2str_decimal by by apply fits8_range. erewrite bind_run by (apply IH; lia).
    by rewrite (drop_S _ _ _ Hv).
  - erewrite bind_run by (erewrite bind_run by (by eapply setTypeNext_intset); rewrite Hv; reflexivity).
    cbv beta iota. apply lookup_ge_None in Hv. by rewrite drop_ge by lia.
Qed.

Lemma setTypeNextObject_ht di ii d : dict_wf d → iter_ok di d →
  let o := mkColl OBJ_SET OBJ_ENCODING_HT (PtrDict d) in
  let next := setTypeNextObject (mkSetIter OBJ_ENCODING_HT di ii) o in
  match entriesLeft di d with
  | [] => ∃ di', next = Ok ((None, mkSetIter OBJ_ENCODING_HT di' ii), o) ∧ it_safe di' = false
  | e :: es => ∃ di', next = Ok ((Some (fst e), mkSetIter OBJ_ENCODING_HT di' ii), o) ∧
                      iter_ok di' d ∧ entriesLeft di' d = es
  end.
Proof.
  intros Hwf Hit o next. pose proof (dictNext_run di d Hwf Hit) as Hnext.
  assert (Hrun : ∀ e di', dictNext di d = Ok ((e, di'), d) → next = Ok ((fst <$> e, mkSetIter OBJ_ENCODING_HT di' ii), o)).
  { intros e di' Hd. unfold next, setTypeNextObject, setTypeNext. cbn [si_encoding si_di si_ii].
    erewrite bind_run by (erewrite bind_run by (by apply onDict_run); reflexivity). by destruct e as [[k []]|]. }
  destruct (entriesLeft di d) as [|e es].
  - destruct Hnext as (di' & Hd & Hs). exists di'. split; [by apply (Hrun None)|done].
  - destruct Hnext as (di' & Hd & Hi & He). exists di'. split; [by apply (Hrun (Some e))|done].
Qed.

Lemma setTypeElements_S fuel si : setTypeElements (S fuel) si =
  ('(e, si) ← setTypeNextObject si;
   match e with
   | None => setTypeReleaseIterator si ;; mret []
   | Some e => l ← setTypeElements fuel si; mret (e :: l)
   end).
Proof. done. Qed.

Lemma elements_ht d es : dict_wf d → ∀ di ii, iter_ok di d → entriesLeft di d = es →
  setTypeElements (S (length es)) (mkSetIter OBJ_ENCODING_HT di ii) (mkColl OBJ_SET OBJ_ENCODING_HT (PtrDict d)) =
  Ok (es.*1, mkColl OBJ_SET OBJ_ENCODING_HT (PtrDict d)).
Proof.
  intros Hwf. induction es as [|e es IH]; intros di ii Hit Hes; rewrite setTypeElements_S;
    pose proof (setTypeNextObject_ht di ii d Hwf Hit) as Hnext; rewrite Hes in Hnext.
  - destruct Hnext as (di' & Hrun & Hsafe). erewrite bind_run by exact Hrun. cbv beta iota.
    erewrite bind_run; [done|]. apply onDict_run. unfold dictReleaseIterator. cbn [si_di].
    by rewrite Hsafe, andb_false_r.
  - destruct Hnext as (di' & Hrun & Hit' & Hes'). erewrite bind_run by exact Hrun. cbv beta iota.
    by erewrite bind_run by (by apply IH).
Qed.

Lemma setTypeElements_run X o : set_rep X o →
  ∃ si l, setTypeInitIterator o = Ok (si, o) ∧ setTypeElements (S (base.size X)) si o = Ok (l, o) ∧
    NoDup l ∧ ∀ b, b ∈ l ↔ b ∈ X.
Proof.
  intros [w xs s Hr|d Hwf]; eexists _, _; (split; [done|]).
  - rewrite (rep_set_size _ _ _ Hr). split; [by apply (elements_intset w xs s _ _ Hr 0); lia|].
    rewrite drop_0. split.
    + apply NoDup_fmap_2_strong; [|by apply sorted_NoDup, (rep_sorted _ _ _ Hr)]. intros x y Hx Hy.
      pose proof (rep_fits8 _ _ _ Hr) as Hfit. rewrite Forall_forall in Hfit. apply decimal_fits_inj; auto.
    + intros b. unfold setOf. by rewrite elem_of_list_to_set.
  - destruct (dictGetIterator_start d Hwf) as [Hok Hent].
    assert (base.size (dom (dictMap d)) = length (entries d)) as ->
      by (pose proof (dictSize_dom d Hwf) as Hs; rewrite dictSize_entries in Hs by done; lia).
    split; [by apply elements_ht|]. split; [apply Hwf|].
    intros b. rewrite elem_of_dom. unfold dictMap. split.
    + intros ([b' u] & -> & Hin)%list_elem_of_fmap. exists u. by apply elem_of_list_to_map; [apply Hwf|].
    + intros [u Hu]. apply elem_of_list_to_map in Hu; [|apply Hwf]. apply list_elem_of_fmap. by exists (b, u).
Qed.

(** C19. A set object stands for a set of strings in both encodings, whatever the
    configured limit of integer sets is now and was before: adding, removing,
    testing and counting elements and iterating over them do what they do to the
    set, without a failed assertion; an insertion keeps an integer set exactly when
    the string is an integer and is in the set already or the new size respects the
    limit, and gives a hash table otherwise. An integer set has to have fewer than
    2^29-1 elements and a hash table fewer than 2^61. *)
Theorem set_objects_refine_sets (value : bytes) (X : gset bytes) (o : setObj) :
  set_rep X o → Z.of_nat (base.size X) < sizeLimit (co_encoding o) →
  (∃ o', add value o = Ok (bool_decide (value ∉ X), o') ∧ set_rep ({[value]} ∪ X) o' ∧
         co_encoding o' = if bool_decide (co_encoding o = OBJ_ENCODING_INTSET ∧ is_Some (string2ll value) ∧
                                          (value ∈ X ∨ Z.of_nat (base.size X) + 1 ≤ set_max_intset_entries))
                          then OBJ_ENCODING_INTSET else OBJ_ENCODING_HT) ∧
  (∃ o', rem value o = Ok (bool_decide (value ∈ X), o') ∧ set_rep (X ∖ {[value]}) o' ∧
         co_encoding o' = co_encoding o) ∧
  (∃ o', setTypeIsMember value o = Ok (bool_decide (value ∈ X), o') ∧ set_rep X o') ∧
  setTypeSize o = Ok (Z.of_nat (base.size X), o) ∧
  (∃ si l, setTypeInitIterator o = Ok (si, o) ∧ setTypeElements (S (base.size X)) si o = Ok (l, o) ∧
           NoDup l ∧ ∀ b, b ∈ l ↔ b ∈ X) ∧
  set_rep ∅ (setTypeCreate value).
Proof.
  intros Hrep Hsz. split_and!; [by apply setTypeAdd_run|by apply setTypeRemove_run|by apply setTypeIsMember_run|
    by apply setTypeSize_run|by apply setTypeElements_run|by apply setTypeCreate_rep].
Qed.

End SetProps.

(** A hash of strings: their length. *)
Lemma lengthHash_range (k : bytes) : 0 ≤ Z.of_nat (length k) mod 2 ^ 64 < 2 ^ 64.
Proof. apply Z.mod_pos_bound. done. Qed.

Definition lengthHash : HashFunction bytes :=
  {| hashFunction k := Z.of_nat (length k) mod 2 ^ 64; hashFunction_range := lengthHash_range |}.

(** The set of two integers, as an integer set. *)
Definition sampleSet : setObj :=
  mkColl OBJ_SET OBJ_ENCODING_INTSET (PtrIntset (mkIntset 2 2 [5; 0; 7; 0])).

Lemma sampleSet_rep : @set_rep littleHost lengthHash (setOf [5; 7]) sampleSet.
Proof.
  apply (@set_rep_intset littleHost lengthHash 2 [5; 7]). split; [done|by left| |repeat constructor; done|done].
  repeat constructor.
Qed.

(** Adding a third integer to an integer set of at most two converts it. *)
Lemma set_objects_refine_sets_witness :
  ∃ o', @setTypeAdd littleHost lengthHash (λ _, 170) true 2 (decimal (-12)) sampleSet = Ok (true, o') ∧
        co_encoding o' = OBJ_ENCODING_HT.
Proof.
  destruct (@set_objects_refine_sets littleHost lengthHash (λ _, 170) true 2 (decimal (-12)) (setOf [5; 7]) sampleSet)
    as ((o' & Hrun & _ & Henc) & _).
  - exact sampleSet_rep.
  - rewrite size_setOf; [done| |]; repeat constructor; try done; set_solver.
  - exists o'. split; [exact Hrun|]. rewrite Henc, bool_decide_false; [done|]. intros (_ & _ & [Hin|Hle]).
    + apply (bool_decide_pack _) in Hin. by vm_compute in Hin.
    + assert (base.size (setOf [5; 7]) = 2%nat) as Hs by reflexivity. rewrite Hs in Hle. lia.
Defined.
