(* ===== verification/HashType.v ===== *)
(** * HashType: hash objects (src/src/t_hash.c)

    A hash object is a ziplist of fields and values in turn while it is small, and a hash
    table otherwise.  The functions of the hash type hide the encoding: the theorems show
    that they implement a finite map from strings to strings, across the conversion from
    one encoding to the other, on top of the ziplists of Ziplist.v and of the hash tables
    of Dict.v, with the limits of the configuration.

    [hash_max_ziplist_entries] and [hash_max_ziplist_value] are these limits.  Lengths go
    through variables of type [unsigned int], which cut a string of 4 GB or more.  The
    ownership flags of [hashTypeSet] and the commands are not modelled. *)

From Stdlib Require Import Ascii String ZifyBool.
From stdpp Require Import base tactics option list strings numbers gmap fin_maps.
From S2P Require Import Prelude Util Dict DictProps Endian Ziplist ZiplistProps ZiplistOps ZiplistSeq Object Rdb RdbProps Coll.

Local Open Scope Z_scope.

Notation hashObj := (collObj bytes).

(** A field or a value as it is read: a string, or the integer of one. *)
Definition fromZiplist (v : zlvalue) : bytes + Z :=
  match v with ZlStr x => inl (unraw x) | ZlInt v => inr v end.

(** The bytes of a string that are left when its length is passed as an [unsigned int]. *)
Definition clip (s : bytes) : bytes := take (Z.to_nat (u32 (Z.of_nat (length s)))) s.

(** [OBJ_HASH_KEY] or [OBJ_HASH_VALUE]. *)
Inductive hashWhat := OBJ_HASH_KEY | OBJ_HASH_VALUE.

Record hashTypeIterator := mkHashIter {
  hi_encoding : collEncoding;
  hi_fptr : option Z;
  hi_vptr : option Z;
  hi_di : dictIterator bytes bytes;
  hi_de : option (bytes * bytes) }.

Section HashType.
Context `{Host, !HashFunction bytes} (garbage : nat → Z) (can_resize : bool).
Context (hash_max_ziplist_entries hash_max_ziplist_value : Z).

Definition createHashObject : res hashObj :=
  match ziplistNew garbage [] with
  | Ok (_, zl) => Ok (mkColl OBJ_HASH OBJ_ENCODING_ZIPLIST (PtrZiplist zl))
  | Fault f => Fault f
  end.

(** ** Reading *)

(** The pointer to the field in the ziplist. *)
Definition findField (field : bytes) : M hashObj (option Z) :=
  fptr ← onZiplist (ziplistIndex 0);
  match fptr with
  | None => mret None
  | Some fptr => onZiplist (ziplistFind fptr (clip field) 1)
  end.

Definition hashTypeGetFromZiplist (field : bytes) : M hashObj (option (bytes + Z)) :=
  encoding ← gets co_encoding;
  serverAssert (bool_decide (encoding = OBJ_ENCODING_ZIPLIST)) "hashTypeGetFromZiplist" ;;
  fptr ← findField field;
  match fptr with
  | None => mret None
  | Some fptr =>
      vptr ← onZiplist (ziplistNext fptr);
      serverAssert (bool_decide (is_Some vptr)) "hashTypeGetFromZiplist" ;;
      ret ← onZiplist (ziplistGet vptr);
      serverAssert (bool_decide (is_Some ret)) "hashTypeGetFromZiplist" ;;
      mret (fromZiplist <$> ret)
  end.

Definition hashTypeGetFromHashTable (field : bytes) : M hashObj (option bytes) :=
  encoding ← gets co_encoding;
  serverAssert (bool_decide (encoding = OBJ_ENCODING_HT)) "hashTypeGetFromHashTable" ;;
  de ← onDict (dictFind field);
  mret (snd <$> de).

Definition hashTypeGetValue (field : bytes) : M hashObj (option (bytes + Z)) :=
  encoding ← gets co_encoding;
  match encoding with
  | OBJ_ENCODING_ZIPLIST => hashTypeGetFromZiplist field
  | OBJ_ENCODING_HT => value ← hashTypeGetFromHashTable field; mret (inl ∘ clip <$> value)
  | OBJ_ENCODING_INTSET => fail (AssertFailed "Unknown hash encoding")
  end.

Definition hashTypeGetValueObject (field : bytes) : M hashObj (option robj) :=
  v ← hashTypeGetValue field;
  mret ((λ v, match v with inl vstr => createStringObject vstr | inr vll => createIntObject vll end) <$> v).

Definition hashTypeGetValueLength (field : bytes) : M hashObj Z :=
  encoding ← gets co_encoding;
  match encoding with
  | OBJ_ENCODING_ZIPLIST =>
      v ← hashTypeGetFromZiplist field;
      mret (match v with
            | Some (inl vstr) => Z.of_nat (length vstr)
            | Some (inr vll) => sdigits10 vll
            | None => 0
            end)
  | OBJ_ENCODING_HT =>
      aux ← hashTypeGetFromHashTable field;
      mret (match aux with Some aux => Z.of_nat (length aux) | None => 0 end)
  | OBJ_ENCODING_INTSET => fail (AssertFailed "Unknown hash encoding")
  end.

Definition hashTypeExists (field : bytes) : M hashObj bool :=
  encoding ← gets co_encoding;
  match encoding with
  | OBJ_ENCODING_ZIPLIST => v ← hashTypeGetFromZiplist field; mret (bool_decide (is_Some v))
  | OBJ_ENCODING_HT => v ← hashTypeGetFromHashTable field; mret (bool_decide (is_Some v))
  | OBJ_ENCODING_INTSET => fail (AssertFailed "Unknown hash encoding")
  end.

Definition hashTypeLength : M hashObj Z :=
  encoding ← gets co_encoding;
  match encoding with
  | OBJ_ENCODING_ZIPLIST => n ← onZiplist ziplistLen; mret (n / 2)
  | OBJ_ENCODING_HT => onDict (gets dictSize)
  | OBJ_ENCODING_INTSET => fail (AssertFailed "Unknown hash encoding")
  end.

(** ** Iterators *)

Definition hashTypeInitIterator : M hashObj hashTypeIterator :=
  encoding ← gets co_encoding;
  match encoding with
  | OBJ_ENCODING_ZIPLIST | OBJ_ENCODING_HT => mret (mkHashIter encoding None None dictGetIterator None)
  | OBJ_ENCODING_INTSET => fail (AssertFailed "Unknown hash encoding")
  end.

Definition hashTypeReleaseIterator (hi : hashTypeIterator) : M hashObj unit :=
  match hi_encoding hi with
  | OBJ_ENCODING_HT => onDict (dictReleaseIterator (hi_di hi))
  | _ => mret tt
  end.

(** Whether there is a next entry, and the iterator. *)
Definition hashTypeNext (hi : hashTypeIterator) : M hashObj (bool * hashTypeIterator) :=
  match hi_encoding hi with
  | OBJ_ENCODING_ZIPLIST =>
      fptr ← match hi_fptr hi with
             | None =>
                 serverAssert (bool_decide (hi_vptr hi = None)) "hashTypeNext" ;;
                 onZiplist (ziplistIndex 0)
             | Some _ =>
                 serverAssert (bool_decide (is_Some (hi_vptr hi))) "hashTypeNext" ;;
                 vptr ← deref (hi_vptr hi) "hashTypeNext";
                 onZiplist (ziplistNext vptr)
             end;
      match fptr with
      | None => mret (false, hi)
      | Some fptr =>
          vptr ← onZiplist (ziplistNext fptr);
          serverAssert (bool_decide (is_Some vptr)) "hashTypeNext" ;;
          mret (true, mkHashIter (hi_encoding hi) (Some fptr) vptr (hi_di hi) (hi_de hi))
      end
  | OBJ_ENCODING_HT =>
      '(de, di) ← onDict (dictNext (hi_di hi));
      mret (bool_decide (is_Some de), mkHashIter (hi_encoding hi) (hi_fptr hi) (hi_vptr hi) di de)
  | OBJ_ENCODING_INTSET => fail (AssertFailed "Unknown hash encoding")
  end.

Definition hashTypeCurrentFromZiplist (hi : hashTypeIterator) (what : hashWhat) : M hashObj (bytes + Z) :=
  serverAssert (bool_decide (hi_encoding hi = OBJ_ENCODING_ZIPLIST)) "hashTypeCurrentFromZiplist" ;;
  ret ← onZiplist (ziplistGet (match what with OBJ_HASH_KEY => hi_fptr hi | OBJ_HASH_VALUE => hi_vptr hi end));
  serverAssert (bool_decide (is_Some ret)) "hashTypeCurrentFromZiplist" ;;
  v ← deref ret "hashTypeCurrentFromZiplist";
  mret (fromZiplist v).

Definition hashTypeCurrentFromHashTable (hi : hashTypeIterator) (what : hashWhat) : M hashObj bytes :=
  serverAssert (bool_decide (hi_encoding hi = OBJ_ENCODING_HT)) "hashTypeCurrentFromHashTable" ;;
  de ← deref (hi_de hi) "hashTypeCurrentFromHashTable";
  mret (match what with OBJ_HASH_KEY => fst de | OBJ_HASH_VALUE => snd de end).

Definition hashTypeCurrentObject (hi : hashTypeIterator) (what : hashWhat) : M hashObj (bytes + Z) :=
  match hi_encoding hi with
  | OBJ_ENCODING_ZIPLIST => hashTypeCurrentFromZiplist hi what
  | OBJ_ENCODING_HT => ele ← hashTypeCurrentFromHashTable hi what; mret (inl (clip ele))
  | OBJ_ENCODING_INTSET => fail (AssertFailed "Unknown hash encoding")
  end.

Definition hashTypeCurrentObjectNewSds (hi : hashTypeIterator) (what : hashWhat) : M hashObj bytes :=
  v ← hashTypeCurrentObject hi what;
  mret (match v with inl vstr => vstr | inr vll => sdsfromlonglong vll end).

(** ** Conversion *)

(** The loop that adds the pairs to the new table. *)
Fixpoint convertPairs (fuel : nat) (hi : hashTypeIterator) (d : dict bytes bytes) :
    M hashObj (dict bytes bytes * hashTypeIterator) :=
  match fuel with
  | O => fail (AssertFailed "hashTypeConvertZiplist: fuel")
  | S fuel =>
      '(more, hi) ← hashTypeNext hi;
      if more : bool then
        key ← hashTypeCurrentObjectNewSds hi OBJ_HASH_KEY;
        value ← hashTypeCurrentObjectNewSds hi OBJ_HASH_VALUE;
        match dictAdd can_resize key value d with
        | Ok (ret, d) => serverAssert (ret =? DICT_OK) "Ziplist corruption detected" ;; convertPairs fuel hi d
        | Fault f => fail f
        end
      else mret (d, hi)
  end.

Definition hashTypeConvertZiplist (enc : collEncoding) : M hashObj unit :=
  o ← get;
  serverAssert (bool_decide (co_encoding o = OBJ_ENCODING_ZIPLIST)) "hashTypeConvertZiplist" ;;
  match enc with
  | OBJ_ENCODING_ZIPLIST => mret tt
  | OBJ_ENCODING_HT =>
      hi ← hashTypeInitIterator;
      n ← onZiplist (gets length);
      '(d, hi) ← convertPairs (S n) hi dictCreate;
      hashTypeReleaseIterator hi ;;
      modify (λ o, mkColl (co_type o) OBJ_ENCODING_HT (PtrDict d))
  | OBJ_ENCODING_INTSET => fail (AssertFailed "Unknown hash encoding")
  end.

Definition hashTypeConvert (enc : collEncoding) : M hashObj unit :=
  encoding ← gets co_encoding;
  match encoding with
  | OBJ_ENCODING_ZIPLIST => hashTypeConvertZiplist enc
  | OBJ_ENCODING_HT => fail (AssertFailed "Not implemented")
  | OBJ_ENCODING_INTSET => fail (AssertFailed "Unknown hash encoding")
  end.

(** The loop over the arguments. *)
Fixpoint tryConversionLoop (argv : list robj) : M hashObj unit :=
  match argv with
  | [] => mret tt
  | a :: argv =>
      len ← (if sdsEncodedObject a then s ← ptrSds a "hashTypeTryConversion"; mret (Z.of_nat (length s)) else mret 0);
      if sdsEncodedObject a && (hash_max_ziplist_value <? len) then hashTypeConvert OBJ_ENCODING_HT
      else tryConversionLoop argv
  end.

Definition hashTypeTryConversion (argv : list robj) : M hashObj unit :=
  encoding ← gets co_encoding;
  match encoding with
  | OBJ_ENCODING_ZIPLIST => tryConversionLoop argv
  | _ => mret tt
  end.

(** ** Writing *)

(** 1 on update. *)
Definition hashTypeSet (field value : bytes) : M hashObj bool :=
  encoding ← gets co_encoding;
  match encoding with
  | OBJ_ENCODING_ZIPLIST =>
      fptr ← findField field;
      update ← match fptr with
               | Some fptr =>
                   vptr ← onZiplist (ziplistNext fptr);
                   serverAssert (bool_decide (is_Some vptr)) "hashTypeSet" ;;
                   vptr ← deref vptr "hashTypeSet";
                   vptr ← onZiplist (ziplistDelete garbage vptr);
                   onZiplist (ziplistInsert garbage vptr (clip value)) ;;
                   mret true
               | None =>
                   onZiplist (ziplistPush garbage (clip field) ZIPLIST_TAIL) ;;
                   onZiplist (ziplistPush garbage (clip value) ZIPLIST_TAIL) ;;
                   mret false
               end;
      len ← hashTypeLength;
      (if hash_max_ziplist_entries <? len then hashTypeConvert OBJ_ENCODING_HT else mret tt) ;;
      mret update
  | OBJ_ENCODING_HT =>
      de ← onDict (dictFind field);
      match de with
      | Some _ => onDict (setExisting field value) ;; mret true
      | None => onDict (dictAdd can_resize field value) ;; mret false
      end
  | OBJ_ENCODING_INTSET => fail (AssertFailed "Unknown hash encoding")
  end.

Definition hashTypeDelete (field : bytes) : M hashObj bool :=
  encoding ← gets co_encoding;
  match encoding with
  | OBJ_ENCODING_ZIPLIST =>
      fptr ← findField field;
      match fptr with
      | Some fptr =>
          fptr ← onZiplist (ziplistDelete garbage fptr);
          onZiplist (ziplistDelete garbage fptr) ;;
          mret true
      | None => mret false
      end
  | OBJ_ENCODING_HT => onDict (dictDeleteAndResize can_resize field)
  | OBJ_ENCODING_INTSET => fail (AssertFailed "Unknown hash encoding")
  end.

(** What HSET does to the object: the number of new fields. *)
Fixpoint hsetLoop (l : list (bytes * bytes)) (created : Z) : M hashObj Z :=
  match l with
  | [] => mret created
  | (field, value) :: l =>
      update ← hashTypeSet field value;
      hsetLoop l (created + if update : bool then 0 else 1)
  end.

Definition hsetPairs (l : list (bytes * bytes)) : M hashObj Z :=
  hashTypeTryConversion (concat ((λ p, [createStringObject (fst p); createStringObject (snd p)]) <$> l)) ;;
  hsetLoop l 0.

(** The pairs of a hash, as HGETALL reads them. *)
Fixpoint hashTypePairs (fuel : nat) (hi : hashTypeIterator) : M hashObj (list (bytes * bytes)) :=
  match fuel with
  | O => fail (AssertFailed "hashTypePairs: fuel")
  | S fuel =>
      '(more, hi) ← hashTypeNext hi;
      if more : bool then
        key ← hashTypeCurrentObjectNewSds hi OBJ_HASH_KEY;
        value ← hashTypeCurrentObjectNewSds hi OBJ_HASH_VALUE;
        l ← hashTypePairs fuel hi;
        mret ((key, value) :: l)
      else hashTypeReleaseIterator hi ;; mret []
  end.

End HashType.

(** ** The pairs of a ziplist *)

Fixpoint flat (l : list (bytes * bytes)) : list bytes :=
  match l with [] => [] | (f, v) :: l => f :: v :: flat l end.

Lemma flat_app A B : flat (A ++ B) = flat A ++ flat B.
Proof. induction A as [|[f v] A IH]; [done|]. cbn. by rewrite IH. Qed.

Lemma length_flat l : length (flat l) = (2 * length l)%nat.
Proof. induction l as [|[f v] l IH]; [done|]. cbn [flat length]. rewrite IH. lia. Qed.

(** The search of a field skips the values. *)
Lemma flat_find l f :
  f ∉ l.*1 ∧ findFrom (flat l) f 1 0 = None ∨
  ∃ A v B, l = A ++ (f, v) :: B ∧ f ∉ A.*1 ∧ findFrom (flat l) f 1 0 = Some (2 * length A)%nat.
Proof.
  induction l as [|[g w] l IH]; [left; split; [apply not_elem_of_nil|done]|]. cbn [flat findFrom fmap list_fmap fst].
  case_bool_decide as Hg.
  - subst g. right. exists [], w, l. split; [done|]. split; [apply not_elem_of_nil|done].
  - destruct IH as [[Hni Hf]|(A & v & B & -> & Hni & Hf)]; rewrite Hf; [left|right].
    + split; [|done]. by apply not_elem_of_cons.
    + exists ((g, w) :: A), v, B. split; [done|]. split; [by apply not_elem_of_cons|]. cbn. f_equal. lia.
Qed.

Lemma flat_lookup A f v B : let k := (2 * length A)%nat in let l := flat (A ++ (f, v) :: B) in
  l !! k = Some f ∧ l !! S k = Some v.
Proof.
  cbv zeta. rewrite flat_app. cbn [flat]. rewrite !lookup_app_r by (rewrite length_flat; lia).
  rewrite length_flat, Nat.sub_diag. replace (S (2 * length A) - 2 * length A)%nat with 1%nat by lia. done.
Qed.

Lemma flat_middle A f v B : delete (S (2 * length A)) (flat (A ++ (f, v) :: B)) = (flat A ++ [f]) ++ flat B ∧
  length (flat A ++ [f]) = S (2 * length A).
Proof.
  assert (length (flat A ++ [f]) = S (2 * length A)) as Hl by (rewrite length_app, length_flat; cbn; lia).
  split; [|done]. rewrite flat_app. cbn [flat]. rewrite (cons_middle f (flat A)), (assoc_L (++)), <-Hl. apply delete_middle.
Qed.

(** The string that is read back. *)
Definition asString (v : bytes + Z) : bytes := match v with inl vstr => vstr | inr vll => sdsfromlonglong vll end.

Lemma asString_valOf s : asString (fromZiplist (valOf s)) = s.
Proof.
  unfold valOf. destruct (zipTryEncoding s) as [[v enc]|] eqn:He; cbn.
  - apply zipTryEncoding_spec in He as [[Hv ->]%string2ll_decimal _]. by apply sdsll2str_decimal.
  - apply unraw_raw.
Qed.

(** ** The map of an object *)

Lemma list_to_map_middle {V} (A : list (bytes * V)) f v B : NoDup (A ++ (f, v) :: B).*1 →
  (list_to_map (A ++ (f, v) :: B) : gmap bytes V) = <[f := v]> (list_to_map (A ++ B)) ∧
  f ∉ (A ++ B).*1 ∧ NoDup (A ++ B).*1.
Proof.
  intros Hnd. assert (A ++ (f, v) :: B ≡ₚ (f, v) :: A ++ B) as Hp by by rewrite Permutation_middle.
  split; [by rewrite (list_to_map_proper _ _ Hnd Hp)|].
  assert (NoDup ((f, v) :: A ++ B).*1) as Hnd' by (by rewrite <-Hp). cbn in Hnd'. by apply NoDup_cons in Hnd'.
Qed.

Section HashProps.
Context `{Host, !HashFunction bytes} (garbage : nat → Z) (can_resize : bool).
Context (hash_max_ziplist_entries hash_max_ziplist_value : Z).
(** [E] and [V] are the largest values that the limits had so far: the limits can be
    lowered, and an object keeps its ziplist until the next write. *)
Context (E V : Z) (HE : 0 ≤ hash_max_ziplist_entries ≤ E) (HV : 0 ≤ hash_max_ziplist_value ≤ V).
Context (Hroom : (2 * E + 4) * (V + 32) + 64 < 2 ^ 32).

Notation maxEntries := hash_max_ziplist_entries.
Notation maxValue := hash_max_ziplist_value.
Notation short := (λ s : bytes, Z.of_nat (length s) ≤ V).

(** A string whose length is an [unsigned int]. *)
Definition uintLen (s : bytes) : Prop := Z.of_nat (length s) < 2 ^ 32.

Lemma clip_id s : uintLen s → clip s = s.
Proof. intros Hs. unfold clip, uintLen in *. rewrite u32_id by lia. apply take_ge. lia. Qed.

Lemma short_uint s : short s → uintLen s.
Proof using HE HV Hroom. unfold uintLen. nia. Qed.

(** The limits keep the ziplist below 4 GB. *)
Lemma layout_bound es : Forall short (zstr <$> es) → Z.of_nat (length (layout es)) ≤ (V + 18) * Z.of_nat (length es).
Proof.
  induction es as [|e es IH]; intros Hs; [cbn; lia|]. rewrite fmap_cons in Hs. apply Forall_cons in Hs as [He Hs].
  rewrite layout_cons, length_app. cbn [length]. specialize (IH Hs). destruct e as [big k s].
  pose proof (rawlen_bound big k s) as Hb. unfold rawlen in Hb. cbn in He. lia.
Qed.

Lemma roomy_limits es zl x : zlOk es zl → Forall short (zstr <$> es) → Z.of_nat (length es) ≤ 2 * E + 3 → x ≤ V + 32 →
  roomy es zl x ∧ Z.of_nat (length zl) < 2 ^ 32.
Proof using HE HV Hroom.
  intros (_ & f & _ & ->) Hs Hn Hx. pose proof (layout_bound es Hs) as Hb. unfold roomy. rewrite length_block. cbn [length].
  assert ((V + 18) * Z.of_nat (length es) ≤ (V + 18) * (2 * E + 3)) by (apply Z.mul_le_mono_nonneg_l; lia). split; lia.
Qed.

(** The block [zl] holds the pairs [l]. *)
Record zl_pairs (l : list (bytes * bytes)) (es : list zent) (zl : list Z) : Prop := {
  zp_ok : zlOk es zl;
  zp_strings : zstr <$> es = flat l;
  zp_nodup : NoDup l.*1;
  zp_short : Forall short (flat l);
  zp_few : Z.of_nat (length l) ≤ E + 1 }.

Definition zlObj (zl : list Z) : hashObj := mkColl OBJ_HASH OBJ_ENCODING_ZIPLIST (PtrZiplist zl).

Lemma onZl_run {A} (m : M (list Z) A) zl a zl' : m zl = Ok (a, zl') → onZiplist m (zlObj zl) = Ok (a, zlObj zl').
Proof. apply onZiplist_run. Qed.

Lemma zp_length l es zl : zl_pairs l es zl → length es = (2 * length l)%nat.
Proof. intros [_ Hs _ _ _]. by rewrite <-(length_fmap zstr es), Hs, length_flat. Qed.

Lemma zp_roomy l es zl x : zl_pairs l es zl → x ≤ V + 32 → roomy es zl x ∧ Z.of_nat (length zl) < 2 ^ 32.
Proof using HE HV Hroom.
  intros Hp Hx. pose proof (zp_length _ _ _ Hp). destruct Hp as [Hok Hs _ Hsh Hf].
  apply roomy_limits; [done|by rewrite Hs|lia|done].
Qed.

Lemma zp_lookup A f v B es zl : zl_pairs (A ++ (f, v) :: B) es zl →
  ∃ e1 e2, es !! (2 * length A)%nat = Some e1 ∧ zstr e1 = f ∧ es !! S (2 * length A) = Some e2 ∧ zstr e2 = v.
Proof.
  intros Hp. destruct (flat_lookup A f v B) as [Hf Hv]. rewrite <-(zp_strings _ _ _ Hp), !list_lookup_fmap in Hf, Hv.
  apply fmap_Some in Hf as (e1 & H1 & ->). apply fmap_Some in Hv as (e2 & H2 & ->). by exists e1, e2.
Qed.

Lemma findField_run l es zl f : zl_pairs l es zl → uintLen f →
  findField f (zlObj zl) = Ok (offOf es <$> findFrom (flat l) f 1 0, zlObj zl).
Proof using HE HV Hroom.
  intros Hp Hf. destruct (zp_roomy l es zl 0 Hp) as [_ Hsm]; [lia|]. pose proof (zp_length _ _ _ Hp) as Hlen. unfold findField.
  rewrite (clip_id f Hf).
  erewrite bind_run by (apply onZiplist_run; eapply index_ok; [apply Hp|done|lia]).
  unfold indexOf. change (0 <? 0) with false. cbv iota. destruct l as [|[g w] l].
  { cbn in Hlen. rewrite Hlen. done. }
  cbn [length] in Hlen. replace ((0 <=? 0) && (0 <? Z.of_nat (length es))) with true by lia. cbn [fmap option_fmap option_map].
  erewrite onZiplist_run; [|apply (find_ok es zl 0 f 1); [apply Hp|lia]]. rewrite drop_0, (zp_strings _ _ _ Hp). done.
Qed.

Lemma hashTypeGetFromZiplist_run l es zl f : zl_pairs l es zl → uintLen f →
  ∃ r, hashTypeGetFromZiplist f (zlObj zl) = Ok (r, zlObj zl) ∧
       asString <$> r = (list_to_map l : gmap bytes bytes) !! f ∧
       (∀ vll, r = Some (inr vll) → LLONG_MIN ≤ vll ≤ LLONG_MAX).
Proof using HE HV Hroom.
  intros Hp Hf. unfold hashTypeGetFromZiplist. rewrite bind_gets. cbn [co_encoding zlObj].
  erewrite bind_run by by apply serverAssert_run. erewrite bind_run by by apply findField_run.
  destruct (flat_find l f) as [[Hni ->]|(A & v & B & -> & Hni & ->)]; cbn [fmap option_fmap option_map].
  { exists None. split; [done|]. split; [|done]. cbn. symmetry. by apply not_elem_of_list_to_map_1. }
  destruct (zp_lookup _ _ _ _ _ _ Hp) as (e1 & e2 & _ & _ & H2 & <-). apply lookup_lt_Some in H2 as Hlt.
  erewrite bind_run by (apply onZiplist_run; apply next_ok; [apply Hp|lia]). rewrite decide_True by done.
  erewrite bind_run by by apply serverAssert_run.
  erewrite bind_run by (apply onZiplist_run; eapply get_ok; [apply Hp|exact H2]).
  erewrite bind_run by by apply serverAssert_run. eexists. split; [done|]. split.
  - cbn. rewrite asString_valOf. symmetry. apply elem_of_list_to_map_1; [apply Hp|].
    apply elem_of_app. right. by left.
  - intros vll [= Hv]. unfold valOf in Hv. destruct (zipTryEncoding (zstr e2)) as [[w enc]|] eqn:He; [|done].
    injection Hv as <-. by apply zipTryEncoding_spec in He as [[? _]%string2ll_decimal _].
Qed.

(** ** Iteration *)

(** The iterator [hi] on [o] gives the pairs [l] and stops. *)
Fixpoint yields (o : hashObj) (hi : hashTypeIterator) (l : list (bytes * bytes)) : Prop :=
  match l with
  | [] => ∃ hi', hashTypeNext hi o = Ok ((false, hi'), o) ∧ hashTypeReleaseIterator hi' o = Ok (tt, o)
  | (f, v) :: l => ∃ hi', hashTypeNext hi o = Ok ((true, hi'), o) ∧
      hashTypeCurrentObjectNewSds hi' OBJ_HASH_KEY o = Ok (f, o) ∧
      hashTypeCurrentObjectNewSds hi' OBJ_HASH_VALUE o = Ok (v, o) ∧ yields o hi' l
  end.

Lemma hashTypePairs_run o l : ∀ hi, yields o hi l → hashTypePairs (S (length l)) hi o = Ok (l, o).
Proof.
  induction l as [|[f v] l IH]; intros hi Hy.
  - destruct Hy as (hi' & Hn & Hr). cbn [length hashTypePairs]. erewrite bind_run by exact Hn. cbv beta iota.
    by erewrite bind_run by exact Hr.
  - destruct Hy as (hi' & Hn & Hk & Hv & Hy). specialize (IH hi' Hy). cbn [length].
    remember (S (length l)) as n eqn:Hlen. cbn [hashTypePairs]. erewrite bind_run by exact Hn. cbv beta iota.
    erewrite bind_run by exact Hk. erewrite bind_run by exact Hv. by erewrite bind_run by exact IH.
Qed.

Lemma convertPairs_run o l : ∀ hi d fuel, yields o hi l → (length l < fuel)%nat → dict_wf d →
  Z.of_nat (base.size (dictMap d) + length l) < 2 ^ 61 → NoDup l.*1 → (∀ f, f ∈ l.*1 → dictMap d !! f = None) →
  ∃ d' hi', convertPairs can_resize fuel hi d o = Ok ((d', hi'), o) ∧ hashTypeReleaseIterator hi' o = Ok (tt, o) ∧
    dict_wf d' ∧ dictMap d' = list_to_map l ∪ dictMap d.
Proof.
  induction l as [|[f v] l IH]; intros hi d fuel Hy Hf Hwf Hsz Hnd Hnew; (destruct fuel as [|fuel]; [cbn in Hf; lia|]); cbn [convertPairs].
  - destruct Hy as (hi' & Hn & Hr). erewrite bind_run by exact Hn. exists d, hi'. split_and!; [done..|]. cbn. by rewrite (left_id_L ∅ (∪)).
  - destruct Hy as (hi' & Hn & Hk & Hv & Hy). erewrite bind_run by exact Hn. cbv beta iota.
    erewrite bind_run by exact Hk. erewrite bind_run by exact Hv. cbn in Hnd, Hf, Hsz. apply NoDup_cons in Hnd as [Hni Hnd].
    destruct (dictAdd_new can_resize f v d) as (d1 & Hadd & Hwf1 & Hm1); [done|rewrite dictSize_map by done; lia|apply Hnew; by left|].
    rewrite Hadd. erewrite bind_run by by apply serverAssert_run.
    destruct (IH hi' d1 fuel) as (d' & hi'' & Hrun & Hr & Hwf' & Hm'); [done|lia|done| |done| |].
    + rewrite Hm1. rewrite map_size_insert_None by (apply Hnew; by left). lia.
    + intros g Hg. rewrite Hm1, lookup_insert_ne by (intros ->; done). apply Hnew. by right.
    + exists d', hi''. split_and!; [done..|]. rewrite Hm', Hm1. cbn.
      rewrite <-insert_union_r by by apply not_elem_of_list_to_map_1. by rewrite insert_union_l.
Qed.

(** The iterator has given [n] pairs of the ziplist. *)
Definition iterAt (es : list zent) (n : nat) (hi : hashTypeIterator) : Prop :=
  hi_encoding hi = OBJ_ENCODING_ZIPLIST ∧
  match n with
  | O => hi_fptr hi = None ∧ hi_vptr hi = None
  | S m => is_Some (hi_fptr hi) ∧ hi_vptr hi = Some (offOf es (S (2 * m)))
  end.

Lemma nextField_run l es zl n hi : zl_pairs l es zl → iterAt es n hi → (n ≤ length l)%nat →
  (match hi_fptr hi with
   | None => serverAssert (bool_decide (hi_vptr hi = None)) "hashTypeNext" ;; onZiplist (ziplistIndex 0)
   | Some _ => serverAssert (bool_decide (is_Some (hi_vptr hi))) "hashTypeNext" ;;
               vptr ← deref (hi_vptr hi) "hashTypeNext"; onZiplist (ziplistNext vptr)
   end) (zlObj zl) = Ok (if decide (n < length l)%nat then Some (offOf es (2 * n)) else None, zlObj zl).
Proof using HE HV Hroom.
  intros Hp [_ Hn] Hle. destruct (zp_roomy l es zl 0 Hp) as [_ Hsm]; [lia|]. pose proof (zp_length _ _ _ Hp) as Hlen.
  destruct n as [|m].
  - destruct Hn as [-> ->]. erewrite bind_run by by apply serverAssert_run.
    erewrite onZl_run by (eapply index_ok; [apply Hp|done|lia]). do 2 f_equal.
    unfold indexOf. change (0 <? 0) with false. cbv iota. case_decide.
    + replace ((0 <=? 0) && (0 <? Z.of_nat (length es))) with true by lia. done.
    + replace ((0 <=? 0) && (0 <? Z.of_nat (length es))) with false by lia. done.
  - destruct Hn as [[p ->] ->]. erewrite bind_run by by apply serverAssert_run. erewrite bind_run by done.
    erewrite onZl_run by (apply next_ok; [apply Hp|lia]). do 2 f_equal.
    replace (S (S (2 * m))) with (2 * S m)%nat by lia. destruct (decide (S m < length l)%nat).
    + by rewrite decide_True by lia.
    + by rewrite decide_False by lia.
Qed.

Lemma currentSds_zl es zl k e hi what : zlOk es zl → es !! k = Some e → hi_encoding hi = OBJ_ENCODING_ZIPLIST →
  match what with OBJ_HASH_KEY => hi_fptr hi | OBJ_HASH_VALUE => hi_vptr hi end = Some (offOf es k) →
  hashTypeCurrentObjectNewSds hi what (zlObj zl) = Ok (zstr e, zlObj zl).
Proof.
  intros Hok He Henc Hptr. unfold hashTypeCurrentObjectNewSds, hashTypeCurrentObject, hashTypeCurrentFromZiplist.
  rewrite Henc, Hptr. rewrite (bind_run _ _ _ (fromZiplist (valOf (zstr e))) (zlObj zl)).
  - change (Ok (asString (fromZiplist (valOf (zstr e))), zlObj zl) = Ok (zstr e, zlObj zl)). by rewrite asString_valOf.
  - erewrite bind_run by by apply serverAssert_run. erewrite bind_run by (apply onZl_run; by apply get_ok).
    by erewrite bind_run by by apply serverAssert_run.
Qed.

Lemma yields_zl es zl B : ∀ A hi, zl_pairs (A ++ B) es zl → iterAt es (length A) hi → yields (zlObj zl) hi B.
Proof using HE HV Hroom.
  induction B as [|[f v] B IH]; intros A hi Hp Hit; pose proof (nextField_run _ _ _ _ _ Hp Hit) as Hnext;
    rewrite length_app in Hnext; specialize (Hnext ltac:(lia)); pose proof Hit as [Henc _]; cbn [yields].
  - rewrite decide_False in Hnext by (cbn; lia). exists hi. unfold hashTypeNext, hashTypeReleaseIterator. rewrite Henc.
    split; [|done]. by erewrite bind_run by exact Hnext.
  - rewrite decide_True in Hnext by (cbn; lia).
    destruct (zp_lookup _ _ _ _ _ _ Hp) as (e1 & e2 & H1 & <- & H2 & <-). apply lookup_lt_Some in H2 as Hlt.
    eexists. split.
    { unfold hashTypeNext. rewrite Henc. erewrite bind_run by exact Hnext. cbv beta iota.
      erewrite bind_run by (apply onZl_run, next_ok; [apply Hp|lia]). rewrite decide_True by done.
      by erewrite bind_run by by apply serverAssert_run. }
    split; [by eapply currentSds_zl; [apply Hp|..]|]. split; [by eapply currentSds_zl; [apply Hp|exact H2|..]|].
    apply (IH (A ++ [(zstr e1, zstr e2)])); [by rewrite <-app_assoc|]. rewrite length_app, Nat.add_1_r.
    split; [done|]. cbn. split; [by eexists|done].
Qed.

Definition uintPairs (m : gmap bytes bytes) : Prop := map_Forall (λ f v, uintLen f ∧ uintLen v) m.

Lemma yields_ht d l : dict_wf d → Forall (λ p, uintLen (fst p) ∧ uintLen (snd p)) l → ∀ hi, hi_encoding hi = OBJ_ENCODING_HT → iter_ok (hi_di hi) d → entriesLeft (hi_di hi) d = l →
  yields (mkColl OBJ_HASH OBJ_ENCODING_HT (PtrDict d)) hi l.
Proof.
  intros Hwf. induction 1 as [|[f v] l [Hf Hv] _ IH]; intros hi Henc Hit Hl; pose proof (dictNext_run _ d Hwf Hit) as Hnext;
    rewrite Hl in Hnext; cbn [yields].
  - destruct Hnext as (di' & Hn & Hs). eexists. split.
    + unfold hashTypeNext. rewrite Henc. by erewrite bind_run by (by apply onDict_run).
    + unfold hashTypeReleaseIterator. cbn [hi_encoding hi_di]. apply onDict_run. unfold dictReleaseIterator.
      by rewrite Hs, andb_false_r.
  - destruct Hnext as (di' & Hn & Hit' & Hl'). eexists. split.
    { unfold hashTypeNext. rewrite Henc. by erewrite bind_run by (by apply onDict_run). }
    split; [by rewrite <-(clip_id f Hf) at 2|]. split; [by rewrite <-(clip_id v Hv) at 2|]. by apply IH.
Qed.

(** ** Conversion *)

Definition htObj (d : dict bytes bytes) : hashObj := mkColl OBJ_HASH OBJ_ENCODING_HT (PtrDict d).

Lemma zp_uint l es zl : zl_pairs l es zl → uintPairs (list_to_map l).
Proof using HE HV Hroom.
  intros Hp f v Hfv. apply elem_of_list_to_map in Hfv as (A & B & ->)%list_elem_of_split; [|apply Hp].
  destruct (zp_lookup _ _ _ _ _ _ Hp) as (e1 & e2 & H1 & <- & H2 & <-). pose proof (zp_short _ _ _ Hp) as Hs.
  rewrite <-(zp_strings _ _ _ Hp), Forall_fmap, Forall_forall in Hs.
  split; apply short_uint; by eapply Hs, list_elem_of_lookup_2.
Qed.

Lemma hashTypeConvert_run l es zl : zl_pairs l es zl →
  ∃ d, hashTypeConvert can_resize OBJ_ENCODING_HT (zlObj zl) = Ok (tt, htObj d) ∧ dict_wf d ∧ dictMap d = list_to_map l ∧ uintPairs (dictMap d).
Proof using HE HV Hroom.
  intros Hp. unfold hashTypeConvert, hashTypeConvertZiplist. rewrite bind_gets. cbn [co_encoding zlObj]. rewrite bind_get.
  erewrite bind_run by by apply serverAssert_run. erewrite bind_run by done. erewrite bind_run by (by apply onZl_run).
  pose proof (zp_length _ _ _ Hp) as Hlen. pose proof (zp_roomy _ _ _ 0 Hp ltac:(lia)) as [_ Hsm].
  assert (length es < length zl)%nat as Hzl.
  { destruct (zp_ok _ _ _ Hp) as (_ & f & _ & ->). apply fuel_block. }
  destruct (convertPairs_run (zlObj zl) l (mkHashIter OBJ_ENCODING_ZIPLIST None None dictGetIterator None) dictCreate (S (length zl)))
    as (d & hi' & Hrun & Hrel & Hwf & Hm); [by apply (yields_zl es zl l [])|lia|apply dictCreate_wf|rewrite dictMap_empty, map_size_empty by (done || apply dictCreate_wf); lia|apply Hp|done|].
  erewrite bind_run by exact Hrun. cbv beta iota. erewrite bind_run by exact Hrel.
  assert (dictMap d = list_to_map l) as Hm' by (rewrite Hm; apply (right_id_L ∅ (∪))).
  exists d. rewrite Hm'. split_and!; [done..|]. by eapply zp_uint.
Qed.

(** ** The operations *)

Lemma flat_short A f v B : Forall short (flat (A ++ (f, v) :: B)) ↔
  Forall short (flat A) ∧ short f ∧ short v ∧ Forall short (flat B).
Proof. rewrite flat_app, Forall_app. cbn [flat]. by rewrite !Forall_cons. Qed.

(** The object [o] stands for the map [m]. *)
Inductive hash_rep : gmap bytes bytes → hashObj → Prop :=
  | hash_rep_zl l es zl : zl_pairs l es zl → Z.of_nat (length l) ≤ E → hash_rep (list_to_map l) (zlObj zl)
  | hash_rep_ht d : dict_wf d → uintPairs (dictMap d) → hash_rep (dictMap d) (htObj d).

Lemma hashTypeLength_zl l es zl : zl_pairs l es zl →
  ∃ zl', hashTypeLength (zlObj zl) = Ok (Z.of_nat (length l), zlObj zl') ∧ zl_pairs l es zl'.
Proof.
  intros Hp. pose proof (zp_length _ _ _ Hp) as Hlen. destruct Hp as [Hok Hs Hnd Hsh Hf].
  destruct (len_ok es zl Hok) as (zl' & Hrun & Hok' & _). exists zl'. split; [|done].
  unfold hashTypeLength. rewrite bind_gets. cbn [co_encoding zlObj]. erewrite bind_run by by apply onZl_run.
  unfold mret, M_ret. do 2 f_equal. rewrite Hlen, Nat2Z.inj_mul, Z.mul_comm, Z.div_mul by lia. done.
Qed.

(** The end of [hashTypeSet]. *)
Lemma set_finish l es zl (u : bool) : zl_pairs l es zl →
  ∃ o', (len ← hashTypeLength;
         (if maxEntries <? len then hashTypeConvert can_resize OBJ_ENCODING_HT else mret tt) ;;
         mret u) (zlObj zl) = Ok (u, o') ∧ hash_rep (list_to_map l) o'.
Proof using HE HV Hroom.
  intros Hp. destruct (hashTypeLength_zl l es zl Hp) as (zl' & Hlen & Hp'). erewrite bind_run by exact Hlen.
  destruct (Z.ltb_spec maxEntries (Z.of_nat (length l))).
  - destruct (hashTypeConvert_run l es zl' Hp') as (d & Hc & Hwf & Hm & Hu). erewrite bind_run by exact Hc.
    eexists. split; [done|]. rewrite <-Hm. by constructor.
  - erewrite bind_run by done. eexists. split; [done|]. econstructor; [done|lia].
Qed.

Lemma update_run A f v0 B es zl v : zl_pairs (A ++ (f, v0) :: B) es zl → short v →
  ∃ es' zl', (vptr ← onZiplist (ziplistDelete garbage (offOf es (S (2 * length A))));
              onZiplist (ziplistInsert garbage vptr v) ;; mret true) (zlObj zl) = Ok (true, zlObj zl') ∧
    zl_pairs (A ++ (f, v) :: B) es' zl'.
Proof using HE HV Hroom.
  intros Hp Hv. cbv beta in Hv. pose proof (zp_length _ _ _ Hp) as Hlen. rewrite length_app in Hlen. cbn [length] in Hlen.
  destruct (zp_roomy _ _ _ 0 Hp) as [Hr _]; [lia|]. pose proof Hp as [Hok Hs Hnd Hsh Hfew].
  destruct (deleteOne_ok garbage es zl (S (2 * length A)) Hok) as (es1 & zl1 & Hdel & Hok1 & Hs1); [lia|done|].
  rewrite Hs in Hs1. destruct (flat_middle A f v0 B) as [Hmid Hk]. rewrite Hmid in Hs1.
  assert (length es1 = S (2 * length A) + length (flat B))%nat as Hlen1.
  { rewrite <-(length_fmap zstr es1), Hs1, length_app, Hk. done. }
  rewrite length_app in Hfew. cbn [length] in Hfew. rewrite length_flat in Hlen1.
  apply flat_short in Hsh as (HA & Hf & Hv0 & HB).
  destruct (roomy_limits es1 zl1 (Z.of_nat (length v) + 32)) as [Hr1 _];
    [done|rewrite Hs1; by repeat (apply Forall_app; split); [..|constructor|]|lia|lia|].
  destruct (insert_ok garbage es1 zl1 (S (2 * length A)) v Hok1) as (es2 & zl2 & Hins & Hok2 & _ & Hs2); [lia|done|].
  exists es2, zl2. split.
  { erewrite bind_run by by apply onZl_run. by erewrite bind_run by by apply onZl_run. }
  rewrite Hs1, <-Hk, take_app_length, drop_app_length in Hs2. split; [done| | | |].
  - by rewrite Hs2, flat_app, <-app_assoc.
  - by rewrite fmap_app in *.
  - by apply flat_short.
  - rewrite length_app. cbn [length]. lia.
Qed.

Lemma push_run l es zl f v : zl_pairs l es zl → Z.of_nat (length l) ≤ E → f ∉ l.*1 → short f → short v →
  ∃ es' zl', (onZiplist (ziplistPush garbage f ZIPLIST_TAIL) ;;
              onZiplist (ziplistPush garbage v ZIPLIST_TAIL) ;; mret false) (zlObj zl) = Ok (false, zlObj zl') ∧
    zl_pairs (l ++ [(f, v)]) es' zl'.
Proof using HE HV Hroom.
  intros Hp Hle Hni Hf Hv. cbv beta in Hf, Hv. pose proof (zp_length _ _ _ Hp) as Hlen. pose proof Hp as [Hok Hs Hnd Hsh Hfew].
  destruct (zp_roomy _ _ _ (Z.of_nat (length f) + 32) Hp) as [Hr _]; [lia|].
  destruct (pushTail_ok garbage es zl f Hok Hr) as (es1 & zl1 & Hrun1 & Hok1 & Hs1). rewrite Hs in Hs1.
  assert (length es1 = S (2 * length l))%nat as Hlen1.
  { rewrite <-(length_fmap zstr es1), Hs1, length_app, length_flat. cbn. lia. }
  destruct (roomy_limits es1 zl1 (Z.of_nat (length v) + 32)) as [Hr1 _];
    [done|rewrite Hs1; apply Forall_app; split; [done|by constructor]|lia|lia|].
  destruct (pushTail_ok garbage es1 zl1 v Hok1 Hr1) as (es2 & zl2 & Hrun2 & Hok2 & Hs2). exists es2, zl2. split.
  { erewrite bind_run by by apply onZl_run. by erewrite bind_run by by apply onZl_run. }
  split; [done| | | |].
  - by rewrite Hs2, Hs1, flat_app, <-app_assoc.
  - rewrite fmap_app. apply NoDup_app. split; [done|]. split; [|apply NoDup_singleton].
    intros g Hg. cbn. rewrite list_elem_of_singleton. by intros ->.
  - apply flat_short. split; [done|]. split; [done|]. split; [done|constructor].
  - rewrite length_app. cbn [length]. lia.
Qed.

Lemma set_zl l es zl f v : zl_pairs l es zl → Z.of_nat (length l) ≤ E → short f → short v →
  ∃ o', hashTypeSet garbage can_resize maxEntries f v (zlObj zl) =
      Ok (bool_decide (is_Some ((list_to_map l : gmap bytes bytes) !! f)), o') ∧ hash_rep (<[f := v]> (list_to_map l)) o'.
Proof using HE HV Hroom.
  intros Hp Hle Hf Hv. unfold hashTypeSet. rewrite bind_gets. cbn [co_encoding zlObj].
  rewrite (clip_id f), (clip_id v) by by apply short_uint.
  erewrite bind_run by (apply findField_run; [done|by apply short_uint]).
  destruct (flat_find l f) as [[Hni ->]|(A & v0 & B & -> & Hni & ->)]; cbn [fmap option_fmap option_map].
  - destruct (push_run l es zl f v) as (es' & zl' & Hrun & Hp'); [done..|]. erewrite bind_run by exact Hrun.
    rewrite not_elem_of_list_to_map_1, bool_decide_false by (done || by intros []).
    replace (<[f := v]> (list_to_map l)) with (list_to_map (l ++ [(f, v)]) : gmap bytes bytes); [by eapply set_finish|].
    destruct (list_to_map_middle l f v []) as [-> _]; [apply Hp'|]. by rewrite app_nil_r.
  - destruct (zp_lookup _ _ _ _ _ _ Hp) as (e1 & e2 & _ & _ & H2 & _). apply lookup_lt_Some in H2.
    destruct (update_run A f v0 B es zl v) as (es' & zl' & Hrun & Hp'); [done..|].
    erewrite bind_run.
    2:{ erewrite bind_run by (apply onZl_run, next_ok; [apply Hp|lia]). rewrite decide_True by done.
        erewrite bind_run by by apply serverAssert_run. erewrite bind_run by done. exact Hrun. }
    destruct (list_to_map_middle A f v0 B) as [-> _]; [apply Hp|].
    rewrite lookup_insert_eq, bool_decide_true by by eexists. rewrite insert_insert_eq.
    destruct (list_to_map_middle A f v B) as [<- _]; [apply Hp'|]. by eapply set_finish.
Qed.

Lemma set_ht d f v : dict_wf d → dictSize d < 2 ^ 61 →
  ∃ d', hashTypeSet garbage can_resize maxEntries f v (htObj d) = Ok (bool_decide (is_Some (dictMap d !! f)), htObj d') ∧
        dict_wf d' ∧ dictMap d' = <[f := v]> (dictMap d).
Proof.
  intros Hwf Hsz. unfold hashTypeSet. rewrite bind_gets. cbn [co_encoding htObj].
  destruct (dictFind_run f d Hwf) as (d1 & Hfind & Hs1). erewrite bind_run by by apply onDict_run.
  pose proof (sameMap_map d d1 Hwf Hs1) as Hm1. pose proof Hs1 as (Hwf1 & _ & _).
  rewrite <-(sameMap_size d d1) in Hsz by done. rewrite <-Hm1. destruct (dictMap d1 !! f) as [u|] eqn:Hk; cbn [fmap option_fmap option_map].
  - destruct (setExisting_run f v u d1) as (d2 & Hset & Hwf2 & Hm2 & _); [done| |done|].
    { apply nonempty_table; [done|]. rewrite dictSize_map by done. intros Hz.
      assert (base.size (dictMap d1) = 0%nat) as Hz' by lia. apply map_size_empty_iff in Hz'. by rewrite Hz', lookup_empty in Hk. }
    erewrite bind_run by by apply onDict_run. rewrite bool_decide_true by by eexists.
    by exists d2.
  - destruct (dictAdd_new can_resize f v d1) as (d2 & Hadd & Hwf2 & Hm2); [done..|].
    erewrite bind_run by by apply onDict_run. rewrite bool_decide_false by by intros [].
    by exists d2.
Qed.

Lemma hashTypeSet_run m o f v : hash_rep m o → Z.of_nat (base.size m) < 2 ^ 61 → uintLen f → uintLen v →
  short f ∧ short v ∨ co_encoding o = OBJ_ENCODING_HT →
  ∃ o', hashTypeSet garbage can_resize maxEntries f v o = Ok (bool_decide (is_Some (m !! f)), o') ∧ hash_rep (<[f := v]> m) o' ∧
        (co_encoding o = OBJ_ENCODING_HT → co_encoding o' = OBJ_ENCODING_HT).
Proof using HE HV Hroom.
  intros [l es zl Hp Hle|d Hwf Hu] Hsz Hfu Hvu Hshort.
  - destruct Hshort as [[Hf Hv]|]; [|done]. destruct (set_zl l es zl f v) as (o' & Hrun & Hrep); [done..|]. by exists o'.
  - rewrite <-dictSize_map in Hsz by done. destruct (set_ht d f v Hwf Hsz) as (d' & Hrun & Hwf' & Hm).
    exists (htObj d'). split; [done|]. split; [|done]. rewrite <-Hm. constructor; [done|]. rewrite Hm. by apply map_Forall_insert_2.
Qed.

Lemma delete_zl l es zl f : zl_pairs l es zl → Z.of_nat (length l) ≤ E → uintLen f →
  ∃ o', hashTypeDelete garbage can_resize f (zlObj zl) =
      Ok (bool_decide (is_Some ((list_to_map l : gmap bytes bytes) !! f)), o') ∧ hash_rep (delete f (list_to_map l)) o'.
Proof using HE HV Hroom.
  intros Hp Hle Hfu. unfold hashTypeDelete. rewrite bind_gets. cbn [co_encoding zlObj].
  erewrite bind_run by by apply findField_run.
  destruct (flat_find l f) as [[Hni ->]|(A & v0 & B & -> & Hni & ->)]; cbn [fmap option_fmap option_map].
  { assert ((list_to_map l : gmap bytes bytes) !! f = None) as Hnone by by apply not_elem_of_list_to_map_1.
    rewrite delete_id, Hnone, bool_decide_false by (done || by intros []). eexists. split; [done|]. by econstructor. }
  destruct (list_to_map_middle A f v0 B) as (-> & HniAB & HndAB); [apply Hp|].
  pose proof (zp_length _ _ _ Hp) as Hlen. pose proof (zp_roomy _ _ _ 0 Hp ltac:(lia)) as [Hr _].
  pose proof Hp as [Hok Hs Hnd Hsh Hfew]. apply flat_short in Hsh as (HA & Hf & Hv0 & HB).
  rewrite length_app in Hlen, Hle, Hfew. cbn [length] in Hlen, Hle, Hfew.
  destruct (deleteOne_ok garbage es zl (2 * length A) Hok) as (es1 & zl1 & Hdel1 & Hok1 & Hs1); [lia|done|].
  rewrite Hs, flat_app in Hs1. cbn [flat] in Hs1. rewrite <-length_flat, delete_middle in Hs1.
  assert (length es1 = S (2 * (length A + length B)))%nat as Hlen1.
  { rewrite <-(length_fmap zstr es1), Hs1, length_app. cbn [length]. rewrite !length_flat. lia. }
  destruct (roomy_limits es1 zl1 0) as [Hr1 _]; [done|rewrite Hs1; apply Forall_app; split; [done|by constructor]|lia|lia|].
  destruct (deleteOne_ok garbage es1 zl1 (2 * length A) Hok1) as (es2 & zl2 & Hdel2 & Hok2 & Hs2); [lia|done|].
  rewrite Hs1, <-length_flat, delete_middle, <-flat_app in Hs2.
  erewrite bind_run by by apply onZl_run. erewrite bind_run by by apply onZl_run.
  rewrite lookup_insert_eq, bool_decide_true by by eexists. rewrite delete_insert_id by by apply not_elem_of_list_to_map_1.
  eexists. split; [done|]. apply (hash_rep_zl (A ++ B) es2); [|rewrite length_app; lia]. split; [done..| |].
  - rewrite flat_app. by apply Forall_app.
  - rewrite length_app. lia.
Qed.

Lemma hashTypeDelete_run m o f : hash_rep m o → Z.of_nat (base.size m) < 2 ^ 61 → uintLen f →
  ∃ o', hashTypeDelete garbage can_resize f o = Ok (bool_decide (is_Some (m !! f)), o') ∧ hash_rep (delete f m) o'.
Proof using HE HV Hroom.
  intros [l es zl Hp Hle|d Hwf Hu] Hsz Hfu; [by eapply delete_zl|]. rewrite <-dictSize_map in Hsz by done.
  destruct (dictDeleteAndResize_run can_resize f d Hwf Hsz) as (d' & Hrun & Hwf' & Hm).
  unfold hashTypeDelete. rewrite bind_gets. cbn [co_encoding htObj]. eexists. split; [by apply onDict_run|].
  rewrite <-Hm. constructor; [done|]. rewrite Hm. by apply map_Forall_delete.
Qed.

(** ** Reads *)

Lemma hashTypeGetFromHashTable_run d f : dict_wf d →
  ∃ d', hashTypeGetFromHashTable f (htObj d) = Ok (dictMap d !! f, htObj d') ∧ dict_wf d' ∧ dictMap d' = dictMap d.
Proof.
  intros Hwf. destruct (dictFind_run f d Hwf) as (d' & Hfind & Hs). exists d'. unfold hashTypeGetFromHashTable.
  rewrite bind_gets. cbn [co_encoding htObj]. erewrite bind_run by by apply serverAssert_run.
  erewrite bind_run by by apply onDict_run. split; [by destruct (dictMap d !! f)|]. split; [apply Hs|by apply sameMap_map].
Qed.

Lemma sdigits10_decimal v : LLONG_MIN ≤ v ≤ LLONG_MAX → sdigits10 v = Z.of_nat (length (decimal v)).
Proof.
  intros Hv. unfold sdigits10, decimal. destruct (Z.ltb_spec v 0); cbv zeta.
  - assert ((if negb (v =? LLONG_MIN) then u64 (- v) else LLONG_MAX + 1) = - v) as ->.
    { destruct (Z.eqb_spec v LLONG_MIN) as [->|]; cbn [negb]; [done|].
      apply u64_id. unfold ULLONG_MAX, LLONG_MIN in *. lia. }
    cbn [length]. rewrite length_dec. pose proof (digits10_bound (- v)). unfold ULLONG_MAX, LLONG_MIN in *. lia.
  - rewrite length_dec. pose proof (digits10_bound v). unfold ULLONG_MAX, LLONG_MAX in *. lia.
Qed.

(** A read of the field [f] of an object: what the three functions on top of it give. *)
Lemma hash_reads m o f : hash_rep m o → uintLen f →
  (∃ r o', hashTypeGetValueObject f o = Ok (r, o') ∧ hash_rep m o' ∧
           match r with Some ob => ∃ v, m !! f = Some v ∧ string_obj ob v | None => m !! f = None end) ∧
  (∃ o', hashTypeGetValueLength f o = Ok (match m !! f with Some v => Z.of_nat (length v) | None => 0 end, o') ∧
         hash_rep m o') ∧
  (∃ o', hashTypeExists f o = Ok (bool_decide (is_Some (m !! f)), o') ∧ hash_rep m o').
Proof using HE HV Hroom.
  intros [l es zl Hp Hle|d Hwf Hu] Hfu.
  - destruct (hashTypeGetFromZiplist_run l es zl f Hp Hfu) as (r & Hrun & Hr & Hint).
    assert (hash_rep (list_to_map l) (zlObj zl)) as Hrep by by econstructor.
    unfold hashTypeGetValueObject, hashTypeGetValueLength, hashTypeExists, hashTypeGetValue. rewrite !bind_gets. cbn [co_encoding zlObj].
    rewrite <-Hr. split_and!.
    + eexists _, _. split; [erewrite bind_run; [done|]; rewrite bind_gets; cbn [co_encoding]; exact Hrun|]. split; [done|].
      destruct r as [[v|v]|]; cbn; [exists v|exists (decimal v)|done]; (split; [|try apply createStringObject_string]); [done|..].
      * f_equal. apply sdsll2str_decimal. by apply Hint.
      * constructor. by apply Hint.
    + eexists. split; [erewrite bind_run by exact Hrun|done]. destruct r as [[v|v]|]; [done| |done].
      cbn [fmap option_fmap option_map asString]. unfold sdsfromlonglong, mret, M_ret. by rewrite sdsll2str_decimal, sdigits10_decimal by by apply Hint.
    + eexists. split; [erewrite bind_run by exact Hrun|done]. unfold mret, M_ret. do 2 f_equal.
      apply bool_decide_ext. by rewrite fmap_is_Some.
  - destruct (hashTypeGetFromHashTable_run d f Hwf) as (d' & Hrun & Hwf' & Hm).
    assert (hash_rep (dictMap d) (htObj d')) as Hrep by (rewrite <-Hm; constructor; [done|by rewrite Hm]).
    unfold hashTypeGetValueObject, hashTypeGetValueLength, hashTypeExists, hashTypeGetValue. rewrite !bind_gets. cbn [co_encoding htObj].
    split_and!.
    + eexists _, _. split; [erewrite bind_run; [done|]; rewrite bind_gets; cbn [co_encoding htObj]; by erewrite bind_run by exact Hrun|].
      split; [done|]. destruct (dictMap d !! f) as [v|] eqn:Hv; cbn; [|done]. exists v. split; [done|].
      rewrite clip_id by (by eapply (Hu f)). apply createStringObject_string.
    + eexists. by split; [erewrite bind_run by exact Hrun|].
    + eexists. by split; [erewrite bind_run by exact Hrun|].
Qed.

Lemma hashTypeLength_run m o : hash_rep m o →
  ∃ o', hashTypeLength o = Ok (Z.of_nat (base.size m), o') ∧ hash_rep m o'.
Proof.
  intros [l es zl Hp Hle|d Hwf Hu].
  - destruct (hashTypeLength_zl l es zl Hp) as (zl' & Hrun & Hp'). exists (zlObj zl'). split; [|by econstructor].
    by rewrite map_size_list_to_map by apply Hp.
  - exists (htObj d). split; [|by constructor]. rewrite <-dictSize_map by done. by apply onDict_run.
Qed.

Lemma hashTypePairs_rep m o : hash_rep m o →
  ∃ hi l, hashTypeInitIterator o = Ok (hi, o) ∧ hashTypePairs (S (base.size m)) hi o = Ok (l, o) ∧ l ≡ₚ map_to_list m.
Proof using HE HV Hroom.
  intros [l es zl Hp Hle|d Hwf Hu]; eexists _, _; (split; [done|]).
  - rewrite map_size_list_to_map by apply Hp. split; [by apply hashTypePairs_run, (yields_zl es zl l [])|].
    symmetry. apply map_to_list_to_map, Hp.
  - destruct (dictGetIterator_start d Hwf) as [Hok Hent]. split.
    + replace (base.size (dictMap d)) with (length (DictProps.entries d)); [apply hashTypePairs_run, yields_ht; [done| |done..]|].
      { apply Forall_forall. intros [f v] Hfv. apply (Hu f v), elem_of_list_to_map_1; [apply Hwf|done]. }
      pose proof (dictSize_map d Hwf) as Hs. rewrite dictSize_entries in Hs by done. lia.
    + symmetry. apply map_to_list_to_map, Hwf.
Qed.

(** ** HSET *)

Lemma tryConversion_run ss m o : hash_rep m o →
  ∃ o', hashTypeTryConversion can_resize maxValue (createStringObject <$> ss) o = Ok (tt, o') ∧ hash_rep m o' ∧
    (co_encoding o' = OBJ_ENCODING_ZIPLIST → Forall short ss).
Proof using HE HV Hroom.
  intros [l es zl Hp Hle|d Hwf Hu]; unfold hashTypeTryConversion; rewrite bind_gets; cbn [co_encoding zlObj htObj].
  2:{ exists (htObj d). split; [done|]. split; [by constructor|done]. }
  assert (hash_rep (list_to_map l) (zlObj zl)) as Hrep by by econstructor.
  induction ss as [|s ss IH]; cbn [fmap list_fmap tryConversionLoop]; [by exists (zlObj zl)|].
  assert (sdsEncodedObject (createStringObject s) = true ∧ o_ptr (createStringObject s) = PtrSds s) as [Henc Hptr].
  { unfold createStringObject. by case_match. }
  rewrite Henc. erewrite bind_run by (unfold ptrSds; rewrite Hptr; done). cbn [andb].
  destruct (Z.ltb_spec maxValue (Z.of_nat (length s))).
  - destruct (hashTypeConvert_run l es zl Hp) as (d & Hc & Hwf & Hm & Hu). exists (htObj d). split; [done|].
    split; [rewrite <-Hm; by constructor|done].
  - destruct IH as (o' & Hrun & Hrep' & Hsh). exists o'. split; [done|]. split; [done|]. intros He. constructor; [lia|auto].
Qed.

(** What HSET means: the number of fields that are new, and the map. *)
Fixpoint hsetSpec (l : list (bytes * bytes)) (m : gmap bytes bytes) (created : Z) : Z * gmap bytes bytes :=
  match l with
  | [] => (created, m)
  | (f, v) :: l => hsetSpec l (<[f := v]> m) (created + if bool_decide (is_Some (m !! f)) then 0 else 1)
  end.

Lemma hsetLoop_run l : ∀ m o created, hash_rep m o → Z.of_nat (base.size m + length l) < 2 ^ 61 → Forall uintLen (flat l) →
  Forall short (flat l) ∨ co_encoding o = OBJ_ENCODING_HT →
  ∃ o', hsetLoop garbage can_resize maxEntries l created o = Ok ((hsetSpec l m created).1, o') ∧
        hash_rep (hsetSpec l m created).2 o'.
Proof using HE HV Hroom.
  induction l as [|[f v] l IH]; intros m o created Hrep Hsz Hu Hsh; [by exists o|].
  cbn [hsetLoop hsetSpec]. cbn [length flat] in Hsz, Hsh. rewrite !Forall_cons in Hsh. apply Forall_cons in Hu as [Hfu Hu]. apply Forall_cons in Hu as [Hvu Hu].
  destruct (hashTypeSet_run m o f v Hrep) as (o1 & Hrun & Hrep1 & Henc); [lia|done|done|tauto|].
  erewrite bind_run by exact Hrun. apply IH; [done| |done|tauto].
  assert (base.size (<[f := v]> m) ≤ S (base.size m))%nat; [|lia].
  destruct (m !! f) eqn:Hf; [rewrite map_size_insert_Some by (by eexists)|rewrite map_size_insert_None by done]; lia.
Qed.

Lemma hset_args l : concat ((λ p, [createStringObject (fst p); createStringObject (snd p)]) <$> l) =
  createStringObject <$> flat l.
Proof. induction l as [|[f v] l IH]; [done|]. cbn. by rewrite <-IH. Qed.

Lemma hsetPairs_run l m o : hash_rep m o → Z.of_nat (base.size m + length l) < 2 ^ 61 → Forall uintLen (flat l) →
  ∃ o', hsetPairs garbage can_resize maxEntries maxValue l o = Ok ((hsetSpec l m 0).1, o') ∧ hash_rep (hsetSpec l m 0).2 o'.
Proof using HE HV Hroom.
  intros Hrep Hsz Hu. unfold hsetPairs. rewrite hset_args.
  destruct (tryConversion_run (flat l) m o Hrep) as (o1 & Hrun & Hrep1 & Hsh). erewrite bind_run by exact Hrun.
  apply hsetLoop_run; [done|done|done|]. destruct Hrep1; [left; by apply Hsh|by right].
Qed.

Lemma createHashObject_rep : ∃ o, createHashObject garbage = Ok o ∧ hash_rep ∅ o.
Proof using HE.
  destruct (ziplistNew_run garbage []) as (zl & Hrun & Hok). unfold createHashObject. rewrite Hrun.
  eexists. split; [done|]. apply (hash_rep_zl [] []); [|cbn; lia]. split; [done|done|constructor|constructor|cbn; lia].
Qed.

(** C20. A hash object stands for a map from strings to strings in both encodings:
    setting fields as HSET does, deleting, reading, measuring and counting them and
    iterating over the pairs do what they do to the map, without a failed assertion
    and across the conversion to a hash table; values that are stored as integers
    are read back as the same strings. This is for fields and values below 2^32
    bytes, fewer than 2^61 fields, and configured limits that keep the ziplist below
    4 GB: they are and were at most E entries and V bytes for a value, with
    (2E+4)(V+32)+64 < 2^32. *)
Theorem hash_objects_refine_maps (m : gmap bytes bytes) (o : hashObj) (l : list (bytes * bytes)) (f : bytes) :
  hash_rep m o → Z.of_nat (base.size m + length l) < 2 ^ 61 → Forall uintLen (f :: flat l) →
  (∃ o', hsetPairs garbage can_resize maxEntries maxValue l o = Ok ((hsetSpec l m 0).1, o') ∧ hash_rep (hsetSpec l m 0).2 o') ∧
  (∃ o', hashTypeDelete garbage can_resize f o = Ok (bool_decide (is_Some (m !! f)), o') ∧ hash_rep (delete f m) o') ∧
  (∃ r o', hashTypeGetValueObject f o = Ok (r, o') ∧ hash_rep m o' ∧
           match r with Some ob => ∃ v, m !! f = Some v ∧ string_obj ob v | None => m !! f = None end) ∧
  (∃ o', hashTypeGetValueLength f o = Ok (match m !! f with Some v => Z.of_nat (length v) | None => 0 end, o') ∧
         hash_rep m o') ∧
  (∃ o', hashTypeExists f o = Ok (bool_decide (is_Some (m !! f)), o') ∧ hash_rep m o') ∧
  (∃ o', hashTypeLength o = Ok (Z.of_nat (base.size m), o') ∧ hash_rep m o') ∧
  (∃ hi l, hashTypeInitIterator o = Ok (hi, o) ∧ hashTypePairs (S (base.size m)) hi o = Ok (l, o) ∧ l ≡ₚ map_to_list m) ∧
  (∃ o, createHashObject garbage = Ok o ∧ hash_rep ∅ o).
Proof using HE HV Hroom.
  intros Hrep Hsz [Hf Hu]%Forall_cons. destruct (hash_reads m o f Hrep Hf) as (Hget & Hlen & Hex).
  split_and!; [by apply hsetPairs_run|apply hashTypeDelete_run; [done|lia|done]|done|done|done|by apply hashTypeLength_run|
    by apply hashTypePairs_rep|apply createHashObject_rep].
Qed.

End HashProps.

(** A hash of strings: their length. *)
Lemma fieldHash_range (k : bytes) : 0 ≤ Z.of_nat (length k) mod 2 ^ 64 < 2 ^ 64.
Proof. apply Z.mod_pos_bound. done. Qed.

Definition fieldHash : HashFunction bytes :=
  {| hashFunction k := Z.of_nat (length k) mod 2 ^ 64; hashFunction_range := fieldHash_range |}.

(** The list of the two strings [7] and [ab] is the hash with this field and value; HSET
    of a second field with at most one entry converts it. *)
Lemma hash_objects_refine_maps_witness :
  ∃ o', @hsetPairs littleHost fieldHash (λ _, 0) true 1 64 [(decimal 8, decimal 9); (decimal 7, decimal 1)]
          (zlObj (block 2 [] listTwo)) = Ok (1, o') ∧
        @hash_rep fieldHash 1 64 {[ decimal 7 := decimal 1; decimal 8 := decimal 9 ]} o'.
Proof.
  destruct (@hash_objects_refine_maps littleHost fieldHash (λ _, 0) true 1 64 1 64 ltac:(lia) ltac:(lia) ltac:(lia)
    (list_to_map [(["7"%char], ["a"%char; "b"%char])]) (zlObj (block 2 [] listTwo))
    [(decimal 8, decimal 9); (decimal 7, decimal 1)] (decimal 7)) as ((o' & Hrun & Hrep) & _).
  - apply (@hash_rep_zl fieldHash 1 64 _ listTwo); [|done]. split; [exact listTwo_ok|done|apply NoDup_singleton| |done].
    repeat constructor; done.
  - reflexivity.
  - repeat constructor; done.
  - exists o'. split; [exact Hrun|exact Hrep].
Defined.
