(* ===== verification/Db.v ===== *)
(** * Db: the keyspace of src/src/db.c

    The [redisDb] record of server.h (keyspace, expires and the three
    dictionaries of pending backend keys) and the C-level database API the
    string commands and the backend use: lookups with lazy expiration, adding
    and overwriting keys, expires and deletion.

    Not modelled here: LRU/LFU ageing, statistics, keyspace notifications, WATCH
    signalling, replication of expirations, the cluster slot index and the
    lazy-free threads; none of them changes which keys a database holds.
    Asynchronous deletion removes the same entries as [dbSyncDelete].

    The refinement theorems relate the concrete state to [live], the keys a
    client can observe at the current time: lazy expiration is invisible. *)

From Stdlib Require Import Ascii String.
From stdpp Require Import base tactics option list strings numbers gmap fin_maps.
From S2P Require Import Prelude Util Object.

Local Open Scope Z_scope.

(** ** Data *)

(** A client is identified by its id (the [client *] of the source). *)
Abbreviation clientId := nat.

Record backendSetInfo := mkSetInfo {
  setValue : bytes;
  infoTtl : Z;
  infoClients : list clientId }.

Record redisDb := mkDb {
  dict : gmap bytes robj;
  expires : gmap bytes Z;
  backendGetKeys : gmap bytes (list clientId);
  backendSetKeys : gmap bytes backendSetInfo;
  backendDelKeys : gmap bytes (list clientId) }.

Definition emptyDb : redisDb := mkDb ∅ ∅ ∅ ∅ ∅.

Definition with_keyspace (d : gmap bytes robj) (e : gmap bytes Z) (db : redisDb) : redisDb :=
  mkDb d e (backendGetKeys db) (backendSetKeys db) (backendDelKeys db).

(** The parts of the global [server] the database code reads. *)
Record genv := mkEnv {
  masterhost : bool;      (* server.masterhost != NULL: this instance is a replica *)
  loading : bool;         (* server.loading *)
  mstime : Z }.           (* the time used for expiration, in milliseconds *)

(** ** Expires *)

Section Api.
Context (g : genv).

Definition getExpire (key : bytes) : M redisDb Z :=
  db ← get;
  if bool_decide (size (expires db) = 0%nat) then mret (-1) else
  match expires db !! key with
  | None => mret (-1)
  | Some w =>
      serverAssert (bool_decide (is_Some (dict db !! key))) "getExpire" ;;
      mret w
  end.

(** Lua scripts are not modelled, so [server.lua_caller] is NULL; the cached and
    the fresh time are both [mstime]. *)
Definition keyIsExpired (key : bytes) : M redisDb bool :=
  w ← getExpire key;
  if w <? 0 then mret false
  else if loading g then mret false
  else mret (w <? mstime g).

Definition dbSyncDelete (key : bytes) : M redisDb bool :=
  db ← get;
  (if bool_decide (0 < size (expires db))%nat
   then put (with_keyspace (dict db) (delete key (expires db)) db) else mret tt) ;;
  db ← get;
  match dict db !! key with
  | Some _ => put (with_keyspace (delete key (dict db)) (expires db) db) ;; mret true
  | None => mret false
  end.

Definition expireIfNeeded (key : bytes) : M redisDb bool :=
  expired ← keyIsExpired key;
  if negb expired then mret false
  else if masterhost g then mret true
  else dbSyncDelete key.

(** ** Lookups *)

Definition lookupKey (key : bytes) : M redisDb (option robj) :=
  gets (λ db, dict db !! key).

(** [readonly]: the current client is not the master and runs a read-only
    command; only consulted on a replica. *)
Definition lookupKeyReadWithFlags (readonly : bool) (key : bytes) : M redisDb (option robj) :=
  expired ← expireIfNeeded key;
  if expired && (negb (masterhost g) || readonly) then mret None
  else lookupKey key.

Definition lookupKeyRead (readonly : bool) (key : bytes) : M redisDb (option robj) :=
  lookupKeyReadWithFlags readonly key.

Definition lookupKeyWrite (key : bytes) : M redisDb (option robj) :=
  expireIfNeeded key ;; lookupKey key.

(** ** Updates *)

Definition dbAdd (key : bytes) (val : robj) : M redisDb unit :=
  db ← get;
  serverAssert (bool_decide (dict db !! key = None)) "dbAdd" ;;
  put (with_keyspace (<[key := val]> (dict db)) (expires db) db).

Definition dbOverwrite (key : bytes) (val : robj) : M redisDb unit :=
  db ← get;
  serverAssert (bool_decide (is_Some (dict db !! key))) "dbOverwrite" ;;
  put (with_keyspace (<[key := val]> (dict db)) (expires db) db).

Definition removeExpire (key : bytes) : M redisDb bool :=
  db ← get;
  serverAssert (bool_decide (is_Some (dict db !! key))) "removeExpire" ;;
  put (with_keyspace (dict db) (delete key (expires db)) db) ;;
  mret (bool_decide (is_Some (expires db !! key))).

Definition genericSetKey (key : bytes) (val : robj) (keepttl : bool) : M redisDb unit :=
  o ← lookupKeyWrite key;
  match o with
  | None => dbAdd key val
  | Some _ => dbOverwrite key val
  end ;;
  (if negb keepttl then removeExpire key ;; mret tt else mret tt).

Definition setKey (key : bytes) (val : robj) : M redisDb unit := genericSetKey key val false.

Definition setExpire (key : bytes) (w : Z) : M redisDb unit :=
  db ← get;
  serverAssert (bool_decide (is_Some (dict db !! key))) "setExpire" ;;
  put (with_keyspace (dict db) (<[key := w]> (expires db)) db).

Definition dbExists (key : bytes) : M redisDb bool :=
  gets (λ db, bool_decide (is_Some (dict db !! key))).

End Api.

(** ** Invariant and abstract view *)

(** Every key with an expire is a key of the main dictionary. *)
Definition db_wf (db : redisDb) : Prop :=
  ∀ k, is_Some (expires db !! k) → is_Some (dict db !! k).

(** The pending backend keys are the same. *)
Definition same_backend (db db' : redisDb) : Prop :=
  backendGetKeys db' = backendGetKeys db ∧ backendSetKeys db' = backendSetKeys db ∧
  backendDelKeys db' = backendDelKeys db.

Definition expired_at (g : genv) (db : redisDb) (k : bytes) : bool :=
  match expires db !! k with
  | Some w => negb (w <? 0) && negb (loading g) && (w <? mstime g)
  | None => false
  end.

(** What a client can observe: the value and the time to live of a key that has
    not expired. *)
Definition live (g : genv) (db : redisDb) (k : bytes) : option (robj * option Z) :=
  if expired_at g db k then None
  else o ← dict db !! k; Some (o, expires db !! k).

Lemma same_backend_refl db : same_backend db db.
Proof. done. Qed.
#[export] Hint Resolve same_backend_refl : core.

Lemma same_backend_trans db1 db2 db3 :
  same_backend db1 db2 → same_backend db2 db3 → same_backend db1 db3.
Proof. unfold same_backend. intuition congruence. Qed.

Lemma same_backend_with d e db : same_backend db (with_keyspace d e db).
Proof. done. Qed.
#[export] Hint Resolve same_backend_with : core.

(** Deleting a key and its expire. *)
Definition remove_key (k : bytes) (db : redisDb) : redisDb :=
  with_keyspace (delete k (dict db)) (delete k (expires db)) db.

(** The effect of a lazy expiration. *)
Definition purge (g : genv) (k : bytes) (db : redisDb) : redisDb :=
  if expired_at g db k && negb (masterhost g) then remove_key k db else db.

(** The effect of writing a key. *)
Definition write_key (g : genv) (k : bytes) (v : robj) (keepttl : bool) (db : redisDb) : redisDb :=
  let db := purge g k db in
  with_keyspace (<[k := v]> (dict db)) (if keepttl then expires db else delete k (expires db)) db.

Definition write_expire (k : bytes) (w : Z) (db : redisDb) : redisDb :=
  with_keyspace (dict db) (<[k := w]> (expires db)) db.

Lemma same_backend_purge g k db : same_backend db (purge g k db).
Proof. unfold purge, remove_key. case_match; done. Qed.
#[export] Hint Resolve same_backend_purge : core.

Lemma same_backend_write_key g k v keepttl db : same_backend db (write_key g k v keepttl db).
Proof. eapply same_backend_trans; [apply (same_backend_purge g k)|done]. Qed.

(** *** Well-formedness *)

Lemma db_wf_remove_key k db : db_wf db → db_wf (remove_key k db).
Proof.
  intros Hwf k'. cbn. destruct (decide (k = k')) as [->|Hne].
  - rewrite lookup_delete_eq. by intros [? [=]].
  - rewrite !lookup_delete_ne by done. apply Hwf.
Qed.

Lemma db_wf_purge g k db : db_wf db → db_wf (purge g k db).
Proof. unfold purge. case_match; auto using db_wf_remove_key. Qed.

Lemma db_wf_write_key g k v keepttl db : db_wf db → db_wf (write_key g k v keepttl db).
Proof.
  intros Hwf%(db_wf_purge g k) k'. unfold write_key. cbn. destruct (decide (k = k')) as [->|Hne].
  - rewrite lookup_insert_eq. by eexists.
  - rewrite lookup_insert_ne by done. intros Hs. apply Hwf. destruct keepttl; [done|].
    by rewrite lookup_delete_ne in Hs.
Qed.

Lemma db_wf_write_expire k w db :
  is_Some (dict db !! k) → db_wf db → db_wf (write_expire k w db).
Proof.
  intros Hk Hwf k'. cbn. destruct (decide (k = k')) as [->|Hne]; [done|].
  rewrite lookup_insert_ne by done. apply Hwf.
Qed.
#[export] Hint Resolve db_wf_remove_key db_wf_purge db_wf_write_key db_wf_write_expire : core.

(** *** Runs of the API on a well-formed database *)

Lemma size_zero_lookup {V} (m : gmap bytes V) k : size m = 0%nat → m !! k = None.
Proof. intros ->%map_size_empty_iff. apply lookup_empty. Qed.

Lemma with_keyspace_id db : with_keyspace (dict db) (expires db) db = db.
Proof. by destruct db. Qed.

Section ApiRuns.
Context (g : genv).

Lemma keyIsExpired_run k db : db_wf db → keyIsExpired g k db = Ok (expired_at g db k, db).
Proof.
  intros Hwf. unfold keyIsExpired, getExpire, expired_at.
  cbv [mbind M_bind get]. case_bool_decide as Hsz.
  { by rewrite (size_zero_lookup _ _ Hsz). }
  destruct (expires db !! k) as [w|] eqn:Hw; [|done].
  rewrite serverAssert_run by by (apply bool_decide_eq_true; apply Hwf; rewrite Hw).
  cbv [mret M_ret]. destruct (w <? 0), (loading g); done.
Qed.

Lemma dbSyncDelete_run k db :
  dbSyncDelete k db = Ok (bool_decide (is_Some (dict db !! k)), remove_key k db).
Proof.
  unfold dbSyncDelete, remove_key. rewrite (bind_run get _ db db db) by done.
  rewrite (bind_run _ _ db tt (with_keyspace (dict db) (delete k (expires db)) db)).
  2:{ case_bool_decide as Hsz; [done|].
      rewrite delete_id by (apply size_zero_lookup; lia). by rewrite with_keyspace_id. }
  cbv [mbind M_bind get put mret M_ret]. cbn. destruct (dict db !! k) eqn:Hk.
  - by rewrite bool_decide_eq_true_2 by by eexists.
  - rewrite bool_decide_eq_false_2 by by intros [? [=]]. by rewrite (delete_id (dict db)).
Qed.

Lemma expireIfNeeded_run k db :
  db_wf db → expireIfNeeded g k db = Ok (expired_at g db k, purge g k db).
Proof.
  intros Hwf. unfold expireIfNeeded, purge. erewrite bind_run by by apply keyIsExpired_run.
  destruct (expired_at g db k) eqn:Hexp; [|done]. cbn. destruct (masterhost g); [done|].
  rewrite dbSyncDelete_run. do 2 f_equal. apply bool_decide_eq_true, Hwf.
  unfold expired_at in Hexp. by destruct (expires db !! k).
Qed.

Lemma lookupKeyRead_run ro k db : db_wf db →
  lookupKeyRead g ro k db =
  Ok (if expired_at g db k && (negb (masterhost g) || ro) then None else dict db !! k,
      purge g k db).
Proof.
  intros Hwf. unfold lookupKeyRead, lookupKeyReadWithFlags.
  erewrite bind_run by by apply expireIfNeeded_run. unfold purge.
  by destruct (expired_at g db k), (masterhost g), ro.
Qed.

Lemma lookupKeyWrite_run k db : db_wf db →
  lookupKeyWrite g k db = Ok (dict (purge g k db) !! k, purge g k db).
Proof.
  intros Hwf. unfold lookupKeyWrite. by erewrite bind_run by by apply expireIfNeeded_run.
Qed.

Lemma genericSetKey_run k v keepttl db : db_wf db →
  genericSetKey g k v keepttl db = Ok (tt, write_key g k v keepttl db).
Proof.
  intros Hwf. unfold genericSetKey, write_key. erewrite bind_run by by apply lookupKeyWrite_run.
  set (db' := purge g k db).
  erewrite (bind_run _ _ _ tt (with_keyspace (<[k := v]> (dict db')) (expires db') db')).
  - destruct keepttl; [done|]. cbn. unfold removeExpire. cbv [mbind M_bind get].
    rewrite serverAssert_run; [done|]. cbn. apply bool_decide_eq_true.
    rewrite lookup_insert_eq. by eexists.
  - destruct (dict db' !! k) eqn:Hk; unfold dbAdd, dbOverwrite; cbv [mbind M_bind get];
      (rewrite serverAssert_run; [done|]); apply bool_decide_eq_true; rewrite Hk; by try eexists.
Qed.

Lemma setExpire_run k w db :
  is_Some (dict db !! k) → setExpire k w db = Ok (tt, write_expire k w db).
Proof.
  intros Hk. unfold setExpire, write_expire. cbv [mbind M_bind get].
  by rewrite serverAssert_run by by apply bool_decide_eq_true.
Qed.

End ApiRuns.

(** ** Observational equality and refinement *)

Definition obs_eq (g : genv) (db db' : redisDb) : Prop := ∀ k, live g db k = live g db' k.

#[global] Instance obs_eq_equivalence g : Equivalence (obs_eq g).
Proof.
  split; unfold obs_eq; [done|by intros ?? H k; rewrite H|by intros ??? H1 H2 k; rewrite H1].
Qed.

(** The abstract store: keys to values with their time to live. *)
Definition abs_set (k : bytes) (v : robj) (keepttl : bool)
    (f : bytes → option (robj * option Z)) : bytes → option (robj * option Z) :=
  λ k', if decide (k' = k) then Some (v, if keepttl then f k ≫= snd else None) else f k'.

Definition abs_delete (k : bytes) (f : bytes → option (robj * option Z)) :
    bytes → option (robj * option Z) :=
  λ k', if decide (k' = k) then None else f k'.

Section Refinement.
Context (g : genv) (Hmaster : masterhost g = false).

Lemma live_remove_key k db : ∀ k', live g (remove_key k db) k' = abs_delete k (live g db) k'.
Proof.
  intros k'. unfold abs_delete, live, expired_at, remove_key. cbn. case_decide as Hk; [subst k'|].
  - by rewrite !lookup_delete_eq.
  - by rewrite !lookup_delete_ne.
Qed.

Lemma live_purge k db : obs_eq g (purge g k db) db.
Proof.
  intros k'. unfold purge. rewrite Hmaster. destruct (expired_at g db k) eqn:Hexp; [|done]. cbn.
  rewrite live_remove_key. unfold abs_delete. case_decide; [subst k'|done].
  unfold live. by rewrite Hexp.
Qed.

Lemma purge_not_expired k db : expired_at g (purge g k db) k = false.
Proof.
  unfold purge. rewrite Hmaster. destruct (expired_at g db k) eqn:Hexp; [|done]. cbn.
  unfold expired_at, remove_key. cbn. by rewrite lookup_delete_eq.
Qed.

Lemma purge_dict k db : db_wf db → dict (purge g k db) !! k = fst <$> live g db k.
Proof.
  intros Hwf. rewrite <-(live_purge k db k). unfold live. rewrite purge_not_expired.
  by destruct (dict (purge g k db) !! k).
Qed.

Lemma purge_expires k db : db_wf db → expires (purge g k db) !! k = live g db k ≫= snd.
Proof.
  intros Hwf. rewrite <-(live_purge k db k). unfold live. rewrite purge_not_expired.
  destruct (dict (purge g k db) !! k) eqn:Hd; [done|]. cbn.
  destruct (expires (purge g k db) !! k) eqn:He; [|done].
  destruct (db_wf_purge g k db Hwf k) as [? Hs]; [by rewrite He|congruence].
Qed.

Lemma live_write_key k v keepttl db : db_wf db →
  ∀ k', live g (write_key g k v keepttl db) k' = abs_set k v keepttl (live g db) k'.
Proof.
  intros Hwf k'. unfold abs_set. case_decide as Hk; [subst k'|].
  - unfold live at 1. unfold write_key, expired_at. cbn. rewrite lookup_insert_eq.
    destruct keepttl; [|by rewrite lookup_delete_eq].
    pose proof (purge_not_expired k db) as Hexp. unfold expired_at in Hexp.
    rewrite purge_expires in * by done. by rewrite Hexp.
  - rewrite <-(live_purge k db k'). unfold live, write_key, expired_at. cbn.
    rewrite lookup_insert_ne by done. destruct keepttl; [done|]. by rewrite lookup_delete_ne.
Qed.

(** Writing respects observational equality. *)
Lemma write_key_obs_eq k v keepttl db1 db2 :
  db_wf db1 → db_wf db2 → obs_eq g db1 db2 →
  obs_eq g (write_key g k v keepttl db1) (write_key g k v keepttl db2).
Proof.
  intros H1 H2 Heq k'. rewrite !live_write_key by done. unfold abs_set. by rewrite (Heq k), (Heq k').
Qed.

End Refinement.

(** On a master, the keyspace functions implement the store of the keys that are
    not expired: a lookup returns the observable value and changes nothing
    observable although it may delete an expired key, setting a key updates exactly
    that key, and deleting removes exactly that key. *)
Theorem keyspace_api_refines_live (g : genv) (db : redisDb) (k : bytes) (v : robj) (keepttl ro : bool) :
  masterhost g = false → db_wf db →
  (∃ db', lookupKeyRead g ro k db = Ok (fst <$> live g db k, db') ∧
          db_wf db' ∧ obs_eq g db' db ∧ same_backend db db') ∧
  (∃ db', genericSetKey g k v keepttl db = Ok (tt, db') ∧ db_wf db' ∧ same_backend db db' ∧
          ∀ k', live g db' k' = abs_set k v keepttl (live g db) k') ∧
  (∃ b db', dbSyncDelete k db = Ok (b, db') ∧ db_wf db' ∧ same_backend db db' ∧
          (is_Some (live g db k) → b = true) ∧
          ∀ k', live g db' k' = abs_delete k (live g db) k').
Proof.
  intros Hm Hwf. split_and!.
  - exists (purge g k db). rewrite lookupKeyRead_run, Hm by done. cbn. rewrite andb_true_r.
    split; [|by auto using live_purge].
    unfold live. destruct (expired_at g db k); [done|]. by destruct (dict db !! k).
  - eexists. rewrite genericSetKey_run by done. split; [done|].
    by auto using same_backend_write_key, live_write_key.
  - eexists _, _. rewrite dbSyncDelete_run. split; [done|]. split; [by auto|]. split; [done|].
    split; [|by apply live_remove_key].
    unfold live. destruct (expired_at g db k); [by intros []|].
    destruct (dict db !! k); [|by intros []]. intros _. by apply bool_decide_eq_true.
Qed.

Lemma keyspace_api_refines_live_witness :
  ∃ db', lookupKeyRead (mkEnv false false 200) true [NUL]
    (mkDb {[ [NUL] := createIntObject 7 ]} {[ [NUL] := 100 ]} ∅ ∅ ∅) = Ok (None, db').
Proof.
  destruct (keyspace_api_refines_live (mkEnv false false 200)
    (mkDb {[ [NUL] := createIntObject 7 ]} {[ [NUL] := 100 ]} ∅ ∅ ∅)
    [NUL] (createIntObject 1) false true) as [(db' & H & _) _].
  - reflexivity.
  - intros k. cbn. intros [x [<- _]%lookup_singleton_Some]. by rewrite lookup_singleton_eq.
  - exists db'. exact H.
Defined.
