(* ===== verification/Server.v ===== *)
(** * Server: the server and client state of src/src/server.h

    The fields of [struct redisServer] and [struct client] the cache-through
    code reads and writes, the three job slots, the command table and the
    replies.  The commands the cache-through code does not intercept are behind
    an interface ([OtherCommands]): any operations on the client's database that
    keep it well formed. *)

From Stdlib Require Import Ascii String.
From stdpp Require Import base tactics option list strings numbers gmap fin_maps.
From S2P Require Import Prelude Util Object Db.

Local Open Scope Z_scope.

(** Byte strings from literals. *)
Definition B (s : string) : bytes := list_ascii_of_string s.

(** ** Replies *)

Inductive reply :=
  | RNull (resp : Z)            (* shared.null[resp] *)
  | ROk                         (* shared.ok *)
  | RQueued                     (* shared.queued *)
  | RArrayLen (n : Z)           (* addReplyArrayLen *)
  | RMapLen (n : Z)             (* addReplyMapLen *)
  | RInt (n : Z)                (* shared.cone, shared.czero, addReplyLongLong *)
  | RBulk (s : bytes)           (* addReplyBulk *)
  | RStatus (s : string)        (* addReplyStatus *)
  | RError (msg : string)       (* an error status *)
  | ROther (s : bytes).         (* any other reply *)

(** ** Commands *)

Inductive proc :=
  | getCommandProc | setCommandProc | setnxCommandProc | setexCommandProc | psetexCommandProc
  | delCommandProc | selectCommandProc | multiCommandProc | execCommandProc | discardCommandProc
  | otherProc (name : string).

#[global] Instance proc_eq_dec : EqDecision proc.
Proof. solve_decision. Defined.

(** The flags of [struct redisCommand] that [processCommand] and [execCommand]
    test. *)
Record cmdFlags := mkFlags {
  CMD_WRITE : bool; CMD_READONLY : bool; CMD_ADMIN : bool; CMD_LOADING : bool;
  CMD_STALE : bool; CMD_NO_AUTH : bool; CMD_DENYOOM : bool }.

(** A keyspace every command keeps: expires only on existing keys, and strings in
    one of the three string encodings. *)
Definition ks_wf (d : gmap bytes robj) (e : gmap bytes Z) : Prop :=
  (∀ k, is_Some (e !! k) → is_Some (d !! k)) ∧
  (∀ k o, d !! k = Some o → o_type o = OBJ_STRING → ∃ s, string_obj o s).

(** The arity test of [processCommand], for a command of arity [arity]. *)
Definition arityFits (arity argc : Z) : bool :=
  negb ((0 <? arity) && negb (arity =? argc) || (argc <? - arity)).

(** The rest of the command table: which names it has, their arity and flags, and
    what they do to the client's database: the replies and the number of changes
    for the dirty counter, given the environment, the protocol version of the
    client and the arguments.  With the arguments the table asks for, such a
    command keeps the keyspace well formed and never changes the pending backend
    keys, or stops the server with one of the faults [other_fault] allows. *)
Class OtherCommands := {
  other_lookup : bytes → option string;
  other_arity : string → Z;
  other_flags : string → cmdFlags;
  other_call : string → genv → Z → list bytes → M redisDb (list reply * Z);
  other_fault : fault → Prop;
  other_wf : ∀ name g resp args db,
    arityFits (other_arity name) (Z.of_nat (length args)) = true → ks_wf (dict db) (expires db) →
    match other_call name g resp args db with
    | Ok (_, db') => same_backend db db' ∧ ks_wf (dict db') (expires db')
    | Fault f => other_fault f
    end }.

Section CommandTable.
Context `{OtherCommands}.

Definition cmdName (p : proc) : string :=
  match p with
  | getCommandProc => "get"
  | setCommandProc => "set"
  | setnxCommandProc => "setnx"
  | setexCommandProc => "setex"
  | psetexCommandProc => "psetex"
  | delCommandProc => "del"
  | selectCommandProc => "select"
  | multiCommandProc => "multi"
  | execCommandProc => "exec"
  | discardCommandProc => "discard"
  | otherProc name => name
  end.

Definition cmdArity (p : proc) : Z :=
  match p with
  | getCommandProc => 2
  | setCommandProc => -3
  | setnxCommandProc => 3
  | setexCommandProc => 4
  | psetexCommandProc => 4
  | delCommandProc => -2
  | selectCommandProc => 2
  | multiCommandProc | execCommandProc | discardCommandProc => 1
  | otherProc name => other_arity name
  end.

Definition cmdFlagsOf (p : proc) : cmdFlags :=
  match p with
  | getCommandProc => mkFlags false true false false false false false
  | setCommandProc | setnxCommandProc | setexCommandProc | psetexCommandProc =>
      mkFlags true false false false false false true
  | delCommandProc => mkFlags true false false false false false false
  | selectCommandProc | multiCommandProc | execCommandProc | discardCommandProc =>
      mkFlags false false false true true false false
  | otherProc name => other_flags name
  end.

Definition tolower (c : ascii) : ascii :=
  if (65 <=? code c) && (code c <=? 90) then ascii_of_nat (Z.to_nat (code c + 32)) else c.

(** [lookupCommand]: the command table is a case-insensitive dictionary. *)
Definition lookupCommand (name : bytes) : option proc :=
  let n := tolower <$> name in
  if bool_decide (n = B "get") then Some getCommandProc
  else if bool_decide (n = B "set") then Some setCommandProc
  else if bool_decide (n = B "setnx") then Some setnxCommandProc
  else if bool_decide (n = B "setex") then Some setexCommandProc
  else if bool_decide (n = B "psetex") then Some psetexCommandProc
  else if bool_decide (n = B "del") then Some delCommandProc
  else if bool_decide (n = B "select") then Some selectCommandProc
  else if bool_decide (n = B "multi") then Some multiCommandProc
  else if bool_decide (n = B "exec") then Some execCommandProc
  else if bool_decide (n = B "discard") then Some discardCommandProc
  else otherProc <$> other_lookup n.

(** The arity test of [processCommand]. *)
Definition arityOk (p : proc) (argc : Z) : bool := arityFits (cmdArity p) argc.

End CommandTable.

(** ** Clients *)

Inductive backendState :=
  CLIENT_BACKEND_NORMAL | CLIENT_BACKEND_GET | CLIENT_BACKEND_SET | CLIENT_BACKEND_DEL.

#[global] Instance backendState_eq_dec : EqDecision backendState.
Proof. solve_decision. Defined.

Record client := mkClient {
  c_db : nat;   (* index of c->db *)
  c_resp : Z;   (* RESP version, 2 or 3 *)
  c_authenticated : bool;   (* c->authenticated *)
  c_multi : bool;   (* c->flags & CLIENT_MULTI *)
  c_dirty_exec : bool;   (* c->flags & CLIENT_DIRTY_EXEC *)
  c_close : bool;   (* c->flags & CLIENT_CLOSE_AFTER_REPLY *)
  c_mstate : list (proc * list bytes);   (* the commands queued by MULTI *)
  c_cmd : option proc;   (* c->cmd *)
  c_argv : list bytes;   (* c->argv, the strings *)
  c_querybuf : list (list bytes);   (* the commands still in the query buffer *)
  backend_state : backendState;
  backend_set_sync_reply : bool;
  backend_del_sync_reply : bool;
  c_reply : list reply }.   (* the replies sent, oldest first *)

(** A client as [createClient] makes it, on database 0; [auth]: the default user
    needs no password. *)
Definition createClient (auth : bool) : client :=
  mkClient 0 2 auth false false false [] None [] [] CLIENT_BACKEND_NORMAL false false [].

Definition set_c_db (v : nat) (c : client) : client :=
  mkClient v (c_resp c) (c_authenticated c) (c_multi c) (c_dirty_exec c) (c_close c) (c_mstate c)
    (c_cmd c) (c_argv c) (c_querybuf c) (backend_state c) (backend_set_sync_reply c)
    (backend_del_sync_reply c) (c_reply c).
Definition set_cmd (p : option proc) (v : list bytes) (c : client) : client :=
  mkClient (c_db c) (c_resp c) (c_authenticated c) (c_multi c) (c_dirty_exec c) (c_close c)
    (c_mstate c) p v (c_querybuf c) (backend_state c) (backend_set_sync_reply c)
    (backend_del_sync_reply c) (c_reply c).
Definition set_querybuf (v : list (list bytes)) (c : client) : client :=
  mkClient (c_db c) (c_resp c) (c_authenticated c) (c_multi c) (c_dirty_exec c) (c_close c)
    (c_mstate c) (c_cmd c) (c_argv c) v (backend_state c) (backend_set_sync_reply c)
    (backend_del_sync_reply c) (c_reply c).
Definition set_backend_state (v : backendState) (c : client) : client :=
  mkClient (c_db c) (c_resp c) (c_authenticated c) (c_multi c) (c_dirty_exec c) (c_close c)
    (c_mstate c) (c_cmd c) (c_argv c) (c_querybuf c) v (backend_set_sync_reply c)
    (backend_del_sync_reply c) (c_reply c).
Definition set_set_sync_reply (v : bool) (c : client) : client :=
  mkClient (c_db c) (c_resp c) (c_authenticated c) (c_multi c) (c_dirty_exec c) (c_close c)
    (c_mstate c) (c_cmd c) (c_argv c) (c_querybuf c) (backend_state c) v
    (backend_del_sync_reply c) (c_reply c).
Definition set_del_sync_reply (v : bool) (c : client) : client :=
  mkClient (c_db c) (c_resp c) (c_authenticated c) (c_multi c) (c_dirty_exec c) (c_close c)
    (c_mstate c) (c_cmd c) (c_argv c) (c_querybuf c) (backend_state c) (backend_set_sync_reply c)
    v (c_reply c).
Definition set_close (v : bool) (c : client) : client :=
  mkClient (c_db c) (c_resp c) (c_authenticated c) (c_multi c) (c_dirty_exec c) v (c_mstate c)
    (c_cmd c) (c_argv c) (c_querybuf c) (backend_state c) (backend_set_sync_reply c)
    (backend_del_sync_reply c) (c_reply c).
Definition push_reply (r : reply) (c : client) : client :=
  mkClient (c_db c) (c_resp c) (c_authenticated c) (c_multi c) (c_dirty_exec c) (c_close c)
    (c_mstate c) (c_cmd c) (c_argv c) (c_querybuf c) (backend_state c) (backend_set_sync_reply c)
    (backend_del_sync_reply c) (c_reply c ++ [r]).
Definition set_multi (m d : bool) (q : list (proc * list bytes)) (c : client) : client :=
  mkClient (c_db c) (c_resp c) (c_authenticated c) m d (c_close c) q (c_cmd c) (c_argv c)
    (c_querybuf c) (backend_state c) (backend_set_sync_reply c) (backend_del_sync_reply c)
    (c_reply c).

(** ** Jobs *)

(** An sds string on the heap: its address and its bytes.  The job code compares
    addresses. *)
Record sdsptr := mkPtr { p_loc : nat; p_str : bytes }.

#[global] Instance sdsptr_eq_dec : EqDecision sdsptr.
Proof. solve_decision. Defined.

Record BackendGetJob := mkGetJob {
  getDbid : Z; getKey : option sdsptr; returnGetKey : option sdsptr;
  valFromBackend : option bytes }.

Record BackendSetJob := mkSetJob {
  setDbid : Z; setKey : option sdsptr; returnSetKey : option sdsptr;
  valToBackend : option bytes; setSyncResult : Z; setTtl : Z }.

Record BackendDelJob := mkDelJob {
  delDbid : Z; delKey : option sdsptr; returnDelKey : option sdsptr; delSyncResult : Z }.

(** ** Configuration: the redisoo_* options *)

(** The strings are blocks on the heap, which CONFIG SET frees while a working
    thread may hold their address. *)
Record config := mkConfig {
  redisoo_db_type : Z;
  redisoo_connection : sdsptr;
  redisoo_get : option sdsptr;
  redisoo_set : option sdsptr;
  redisoo_del : option sdsptr;
  redisoo_get_sync : bool;
  redisoo_set_sync : bool;
  redisoo_del_sync : bool;
  redisoo_get_ttl : Z }.

(** ** The server *)

(** What the admission tests of [processCommand] read.  The access control lists
    (acl.c) and the cluster (cluster.c) are any functions of the client and its
    command. *)
Record guards := mkGuards {
  acl_refuses : client → proc → option reply;     (* ACLCheckCommandPerm *)
  cluster_redirect : client → proc → option reply;  (* getNodeByQuery is not this node *)
  out_of_memory : bool;          (* maxmemory is reached and nothing can be evicted *)
  lua_timedout : bool;           (* a script runs for too long *)
  default_user_nopass : bool;    (* the default user is enabled and has no password *)
  deny_write : bool;             (* writeCommandsDeniedByDiskError() *)
  few_good_slaves : bool;        (* min-replicas-to-write is set and not met *)
  repl_slave_ro : bool;
  stale_link : bool }.           (* link with the master down, serve-stale-data no *)

(** A server that refuses nothing: no access control, no cluster, no memory
    limit, the default user without a password. *)
Definition openGuards : guards :=
  mkGuards (λ _ _, None) (λ _ _, None) false false true false false true false.

Record server := mkServer {
  srv_env : genv;
  srv_guards : guards;
  cfg : config;
  dbs : list redisDb;               (* server.db[0 .. dbnum-1] *)
  clients : gmap clientId client;   (* the clients that are not freed *)
  getJob : BackendGetJob;
  setJob : BackendSetJob;
  delJob : BackendDelJob;
  dirty : Z;
  next_loc : nat }.                 (* the next heap address *)

Definition set_env (v : genv) (s : server) : server :=
  mkServer v (srv_guards s) (cfg s) (dbs s) (clients s) (getJob s)
    (setJob s) (delJob s) (dirty s) (next_loc s).
Definition set_guards (v : guards) (s : server) : server :=
  mkServer (srv_env s) v (cfg s) (dbs s) (clients s) (getJob s)
    (setJob s) (delJob s) (dirty s) (next_loc s).
Definition set_cfg (v : config) (s : server) : server :=
  mkServer (srv_env s) (srv_guards s) v (dbs s) (clients s) (getJob s)
    (setJob s) (delJob s) (dirty s) (next_loc s).
Definition set_dbs (v : list redisDb) (s : server) : server :=
  mkServer (srv_env s) (srv_guards s) (cfg s) v (clients s) (getJob s)
    (setJob s) (delJob s) (dirty s) (next_loc s).
Definition set_clients (v : gmap clientId client) (s : server) : server :=
  mkServer (srv_env s) (srv_guards s) (cfg s) (dbs s) v (getJob s)
    (setJob s) (delJob s) (dirty s) (next_loc s).
Definition set_getJob (v : BackendGetJob) (s : server) : server :=
  mkServer (srv_env s) (srv_guards s) (cfg s) (dbs s) (clients s) v
    (setJob s) (delJob s) (dirty s) (next_loc s).
Definition set_setJob (v : BackendSetJob) (s : server) : server :=
  mkServer (srv_env s) (srv_guards s) (cfg s) (dbs s) (clients s) (getJob s)
    v (delJob s) (dirty s) (next_loc s).
Definition set_delJob (v : BackendDelJob) (s : server) : server :=
  mkServer (srv_env s) (srv_guards s) (cfg s) (dbs s) (clients s) (getJob s)
    (setJob s) v (dirty s) (next_loc s).
Definition set_dirty (v : Z) (s : server) : server :=
  mkServer (srv_env s) (srv_guards s) (cfg s) (dbs s) (clients s) (getJob s)
    (setJob s) (delJob s) v (next_loc s).
Definition set_next_loc (v : nat) (s : server) : server :=
  mkServer (srv_env s) (srv_guards s) (cfg s) (dbs s) (clients s) (getJob s)
    (setJob s) (delJob s) (dirty s) v.

(** ** Access helpers *)

(** Following a [client *]: the client must not have been freed. *)
Definition getClient (c : clientId) : M server client :=
  s ← get;
  match clients s !! c with
  | Some cl => mret cl
  | None => fail (UseAfterFree "client")
  end.

Definition updClient (c : clientId) (f : client → client) : M server unit :=
  cl ← getClient c;
  modify (λ s, set_clients (<[c := f cl]> (clients s)) s).

Definition addReply (c : clientId) (r : reply) : M server unit := updClient c (push_reply r).

(** Running database code on [server.db[i]]. *)
Definition withDb {A} (i : nat) (m : M redisDb A) : M server A := λ s,
  match dbs s !! i with
  | None => Fault (BadPointer "server.db")
  | Some db =>
      match m db with
      | Ok (a, db') => Ok (a, set_dbs (<[i := db']> (dbs s)) s)
      | Fault f => Fault f
      end
  end.

(** [sdsdup]: a copy at a fresh address. *)
Definition sdsdup (b : bytes) : M server sdsptr :=
  s ← get;
  put (set_next_loc (S (next_loc s)) s) ;;
  mret (mkPtr (next_loc s) b).

Definition incrDirty : M server unit := modify (λ s, set_dirty (dirty s + 1) s).

(** [c->argv[i]]: an index past [argc] is a wild read. *)
Definition argv (cl : client) (i : nat) : M server bytes := deref (c_argv cl !! i) "c->argv".
