(* ===== verification/TString.v ===== *)
(** * TString: the string, key and transaction commands a client can be parked on

    GET, SET, SETNX, SETEX and PSETEX (src/src/t_string.c), DEL and SELECT
    (src/src/db.c), MULTI, EXEC and DISCARD (src/src/multi.c) and the dispatch
    of [call] (src/src/server.c).

    Not modelled: WATCH, propagation to the replicas and the append-only file,
    keyspace notifications, statistics, the slow log, client-side tracking. *)

From Stdlib Require Import Ascii String ZifyBool.
From stdpp Require Import base tactics option list strings numbers gmap fin_maps.
From S2P Require Import Prelude Util Object Db Server.

Local Open Scope Z_scope.

(** ** C strings *)

(** The C string at the start of an sds: up to the first NUL. *)
Fixpoint cstr (s : bytes) : bytes :=
  match s with
  | [] => []
  | c :: s => if bool_decide (c = NUL) then [] else c :: cstr s
  end.

(** [s[i]] on an sds: the byte after the last one is NUL. *)
Definition at_ (s : bytes) (i : nat) : ascii := default NUL (s !! i).

(** [strcasecmp(a, b) == 0]. *)
Definition strcaseeq (a : bytes) (b : bytes) : bool :=
  bool_decide (tolower <$> cstr a = tolower <$> cstr b).

(** The test [(a[0] == 'n' || a[0] == 'N') && (a[1] == 'x' || a[1] == 'X') && a[2] == 0]
    of the SET options, for the letters [x] and [y]. *)
Definition opt2 (a : bytes) (x X y Y : ascii) : bool :=
  (bool_decide (at_ a 0 = x) || bool_decide (at_ a 0 = X)) &&
  (bool_decide (at_ a 1 = y) || bool_decide (at_ a 1 = Y)) &&
  bool_decide (at_ a 2 = NUL).

(** ** The options of SET *)

Definition UNIT_SECONDS : Z := 0.
Definition UNIT_MILLISECONDS : Z := 1.

Definition OBJ_SET_NO_FLAGS : Z := 0.
Definition OBJ_SET_NX : Z := 1.
Definition OBJ_SET_XX : Z := 2.
Definition OBJ_SET_EX : Z := 4.
Definition OBJ_SET_PX : Z := 8.
Definition OBJ_SET_KEEPTTL : Z := 16.

Definition hasFlag (flags f : Z) : bool := negb (Z.land flags f =? 0).

(** The loop over [argv[3..]], which [setCommand] and [_getTtlForSetCommand] both
    have: [None] is the syntax error branch. *)
Fixpoint setOptions (args : list bytes) (flags unit : Z) (expire : option bytes) :
    option (Z * Z * option bytes) :=
  match args with
  | [] => Some (flags, unit, expire)
  | a :: rest =>
      if opt2 a "n" "N" "x" "X" && negb (hasFlag flags OBJ_SET_XX) then
        setOptions rest (Z.lor flags OBJ_SET_NX) unit expire
      else if opt2 a "x" "X" "x" "X" && negb (hasFlag flags OBJ_SET_NX) then
        setOptions rest (Z.lor flags OBJ_SET_XX) unit expire
      else if strcaseeq a (B "KEEPTTL") && negb (hasFlag flags OBJ_SET_EX) &&
              negb (hasFlag flags OBJ_SET_PX) then
        setOptions rest (Z.lor flags OBJ_SET_KEEPTTL) unit expire
      else
        match rest with
        | next :: rest' =>
            if opt2 a "e" "E" "x" "X" && negb (hasFlag flags OBJ_SET_KEEPTTL) &&
               negb (hasFlag flags OBJ_SET_PX) then
              setOptions rest' (Z.lor flags OBJ_SET_EX) UNIT_SECONDS (Some next)
            else if opt2 a "p" "P" "x" "X" && negb (hasFlag flags OBJ_SET_KEEPTTL) &&
                    negb (hasFlag flags OBJ_SET_EX) then
              setOptions rest' (Z.lor flags OBJ_SET_PX) UNIT_MILLISECONDS (Some next)
            else None
        | [] => None
        end
  end.

(** ** Commands *)

Section Commands.
Context `{OtherCommands}.

(** The read-only test of [lookupKeyReadWithFlags] on the current client. *)
Definition readonlyCmd (cl : client) : bool :=
  match c_cmd cl with Some p => CMD_READONLY (cmdFlagsOf p) | None => false end.

(** The expire argument of SET: [None] when the command has replied an error. *)
Definition parseExpire (c : clientId) (expire : option bytes) (unit : Z) : M server (option Z) :=
  match expire with
  | None => mret (Some 0)
  | Some e =>
      v ← getLongLongFromObject (Some (createStringObject e));
      match v with
      | None => addReply c (RError "value is not an integer or out of range") ;; mret None
      | Some ms =>
          if ms <=? 0 then
            cl ← getClient c;
            addReply c (RError ("invalid expire time in " +:+
                                from_option cmdName EmptyString (c_cmd cl))) ;;
            mret None
          else mret (Some (if unit =? UNIT_SECONDS then i64 (ms * 1000) else ms))
      end
  end.

Definition setGenericCommand (c : clientId) (flags : Z) (key : bytes) (val : robj)
    (expire : option bytes) (unit : Z) (ok_reply abort_reply : option reply) : M server Datatypes.unit :=
  ms ← parseExpire c expire unit;
  match ms with
  | None => mret tt
  | Some milliseconds =>
      cl ← getClient c;
      if backend_set_sync_reply cl then
        addReply c (RNull 2) ;;
        updClient c (set_set_sync_reply false)
      else
        g ← gets srv_env;
        nx ← (if hasFlag flags OBJ_SET_NX then
                o ← withDb (c_db cl) (lookupKeyWrite g key); mret (bool_decide (is_Some o))
              else mret false);
        xx ← (if nx then mret false else
              if hasFlag flags OBJ_SET_XX then
                o ← withDb (c_db cl) (lookupKeyWrite g key); mret (bool_decide (o = None))
              else mret false);
        if nx || xx then addReply c (default (RNull (c_resp cl)) abort_reply)
        else
          withDb (c_db cl) (genericSetKey g key val (hasFlag flags OBJ_SET_KEEPTTL)) ;;
          incrDirty ;;
          (if bool_decide (is_Some expire)
           then withDb (c_db cl) (setExpire key (i64 (mstime g + milliseconds))) else mret tt) ;;
          addReply c (default ROk ok_reply)
  end.

Definition setCommand (c : clientId) : M server unit :=
  cl ← getClient c;
  match setOptions (drop 3 (c_argv cl)) OBJ_SET_NO_FLAGS UNIT_SECONDS None with
  | None => addReply c (RError "syntax error")
  | Some (flags, unit, expire) =>
      key ← argv cl 1; v ← argv cl 2;
      val ← tryObjectEncoding (createStringObject v);
      setGenericCommand c flags key val expire unit None None
  end.

Definition setnxCommand (c : clientId) : M server unit :=
  cl ← getClient c;
  key ← argv cl 1; v ← argv cl 2;
  val ← tryObjectEncoding (createStringObject v);
  setGenericCommand c OBJ_SET_NX key val None 0 (Some (RInt 1)) (Some (RInt 0)).

Definition setexCommand (c : clientId) : M server unit :=
  cl ← getClient c;
  key ← argv cl 1; e ← argv cl 2; v ← argv cl 3;
  val ← tryObjectEncoding (createStringObject v);
  setGenericCommand c OBJ_SET_NO_FLAGS key val (Some e) UNIT_SECONDS None None.

Definition psetexCommand (c : clientId) : M server unit :=
  cl ← getClient c;
  key ← argv cl 1; e ← argv cl 2; v ← argv cl 3;
  val ← tryObjectEncoding (createStringObject v);
  setGenericCommand c OBJ_SET_NO_FLAGS key val (Some e) UNIT_MILLISECONDS None None.

Definition getGenericCommand (c : clientId) : M server unit :=
  cl ← getClient c;
  g ← gets srv_env;
  key ← argv cl 1;
  o ← withDb (c_db cl) (lookupKeyRead g (readonlyCmd cl) key);
  match o with
  | None => addReply c (RNull (c_resp cl))
  | Some o =>
      if negb (bool_decide (o_type o = OBJ_STRING)) then
        addReply c (RError "WRONGTYPE Operation against a key holding the wrong kind of value")
      else b ← replyBytes o; addReply c (RBulk b)
  end.

Definition getCommand (c : clientId) : M server unit := getGenericCommand c.

Fixpoint delKeys (i : nat) (keys : list bytes) (numdel : Z) : M server Z :=
  match keys with
  | [] => mret numdel
  | k :: keys =>
      g ← gets srv_env;
      withDb i (expireIfNeeded g k) ;;
      deleted ← withDb i (dbSyncDelete k);
      if deleted : bool then incrDirty ;; delKeys i keys (numdel + 1)
      else delKeys i keys numdel
  end.

Definition delGenericCommand (c : clientId) : M server unit :=
  cl ← getClient c;
  if backend_del_sync_reply cl then
    addReply c (RInt 0) ;;
    updClient c (set_del_sync_reply false)
  else
    n ← delKeys (c_db cl) (drop 1 (c_argv cl)) 0;
    addReply c (RInt n).

Definition delCommand (c : clientId) : M server unit := delGenericCommand c.

(** [selectDb]: [false] is [C_ERR]. *)
Definition selectDb (c : clientId) (id : Z) : M server bool :=
  n ← gets (λ s, Z.of_nat (length (dbs s)));
  if (id <? 0) || (n <=? id) then mret false
  else updClient c (set_c_db (Z.to_nat id)) ;; mret true.

Definition selectCommand (c : clientId) : M server unit :=
  cl ← getClient c;
  a ← argv cl 1;
  v ← getLongLongFromObject (Some (createStringObject a));
  match v with
  | None => addReply c (RError "invalid DB index")
  | Some id =>
      if negb ((LLONG_MIN <=? id) && (id <=? LLONG_MAX)) then
        addReply c (RError "invalid DB index")
      else
        (* the int argument of selectDb *)
        ok ← selectDb c (let w := id mod 2 ^ 32 in if w <? 2 ^ 31 then w else w - 2 ^ 32);
        if ok : bool then addReply c ROk else addReply c (RError "DB index is out of range")
  end.

(** *** Transactions *)

Definition queueMultiCommand (c : clientId) : M server unit :=
  cl ← getClient c;
  p ← deref (c_cmd cl) "queueMultiCommand";
  updClient c (set_multi (c_multi cl) (c_dirty_exec cl) (c_mstate cl ++ [(p, c_argv cl)])).

Definition discardTransaction (c : clientId) : M server unit :=
  updClient c (set_multi false false []).

Definition flagTransaction (c : clientId) : M server unit :=
  cl ← getClient c;
  if c_multi cl then updClient c (set_multi (c_multi cl) true (c_mstate cl)) else mret tt.

Definition multiCommand (c : clientId) : M server unit :=
  cl ← getClient c;
  if c_multi cl then addReply c (RError "MULTI calls can not be nested")
  else updClient c (set_multi true (c_dirty_exec cl) (c_mstate cl)) ;; addReply c ROk.

Definition discardCommand (c : clientId) : M server unit :=
  cl ← getClient c;
  if negb (c_multi cl) then addReply c (RError "DISCARD without MULTI")
  else discardTransaction c ;; addReply c ROk.

(** EXEC, given the function that runs a queued command. *)
Definition execCommand (run : clientId → M server unit) (c : clientId) : M server unit :=
  cl ← getClient c;
  s ← get;
  if negb (c_multi cl) then addReply c (RError "EXEC without MULTI")
  else if c_dirty_exec cl then
    addReply c (RError "EXECABORT Transaction discarded because of previous errors.") ;;
    discardTransaction c
  else if negb (loading (srv_env s)) && masterhost (srv_env s) && repl_slave_ro (srv_guards s) &&
          existsb (λ q, CMD_WRITE (cmdFlagsOf (fst q))) (c_mstate cl) then
    addReply c (RError "Transaction contains write commands but instance is now a read-only replica. EXEC aborted.") ;;
    discardTransaction c
  else
    addReply c (RArrayLen (Z.of_nat (length (c_mstate cl)))) ;;
    forM_ (c_mstate cl) (λ q,
      updClient c (set_cmd (Some (fst q)) (snd q)) ;;
      run c) ;;
    updClient c (set_cmd (c_cmd cl) (c_argv cl)) ;;
    discardTransaction c ;;
    (if negb (loading (srv_env s)) &&
        existsb (λ q, negb (CMD_READONLY (cmdFlagsOf (fst q)) || CMD_ADMIN (cmdFlagsOf (fst q))))
          (c_mstate cl)
     then incrDirty else mret tt).

Definition otherCommand (name : string) (c : clientId) : M server unit :=
  cl ← getClient c;
  g ← gets srv_env;
  r ← withDb (c_db cl) (other_call name g (c_resp cl) (c_argv cl));
  forM_ (fst r) (addReply c) ;;
  modify (λ s, set_dirty (dirty s + snd r) s).

(** ** [call]: running the command of a client *)

(** A command that is not EXEC. *)
Definition callQueued (c : clientId) : M server unit :=
  cl ← getClient c;
  p ← deref (c_cmd cl) "call";
  match p with
  | getCommandProc => getCommand c
  | setCommandProc => setCommand c
  | setnxCommandProc => setnxCommand c
  | setexCommandProc => setexCommand c
  | psetexCommandProc => psetexCommand c
  | delCommandProc => delCommand c
  | selectCommandProc => selectCommand c
  | multiCommandProc => multiCommand c
  | discardCommandProc => discardCommand c
  | execCommandProc => fail (AssertFailed "EXEC queued in a transaction")
  | otherProc name => otherCommand name c
  end.

Definition call (c : clientId) : M server unit :=
  cl ← getClient c;
  p ← deref (c_cmd cl) "call";
  match p with
  | execCommandProc => execCommand callQueued c
  | _ => callQueued c
  end.

End Commands.

(** ** What a command can change

    A command changes the keyspaces, the dirty counter and its own client; the
    jobs, the pending backend keys and the other clients stay as they are, and
    so do the backend state and the query buffer of the client. *)

Section Frame.
Context `{OtherCommands}.

Definition db_ok (db : redisDb) : Prop := ks_wf (dict db) (expires db).

Definition queued_ok (q : proc * list bytes) : Prop :=
  fst q ≠ execCommandProc ∧ arityOk (fst q) (Z.of_nat (length (snd q))) = true.

Record client_wf (dbnum : nat) (cl : client) : Prop := {
  cwf_db : (c_db cl < dbnum)%nat;
  cwf_mstate : Forall queued_ok (c_mstate cl) }.

Record srv_wf (s : server) : Prop := {
  swf_dbs : Forall db_ok (dbs s);
  swf_clients : map_Forall (λ _, client_wf (length (dbs s))) (clients s) }.

(** The part of a client a command keeps. *)
Definition same_client (cl cl' : client) : Prop :=
  c_resp cl' = c_resp cl ∧ c_authenticated cl' = c_authenticated cl ∧
  c_querybuf cl' = c_querybuf cl ∧ backend_state cl' = backend_state cl.

Record frame (c : clientId) (s s' : server) : Prop := {
  fr_wf : srv_wf s → srv_wf s';
  fr_env : srv_env s' = srv_env s;
  fr_guards : srv_guards s' = srv_guards s;
  fr_cfg : cfg s' = cfg s;
  fr_getJob : getJob s' = getJob s;
  fr_setJob : setJob s' = setJob s;
  fr_delJob : delJob s' = delJob s;
  fr_next : next_loc s' = next_loc s;
  fr_dbs : Forall2 same_backend (dbs s) (dbs s');
  fr_others : ∀ c', c' ≠ c → clients s' !! c' = clients s !! c';
  fr_client : ∀ cl, clients s !! c = Some cl →
    ∃ cl', clients s' !! c = Some cl' ∧ same_client cl cl' }.

#[global] Instance same_backend_preorder : PreOrder same_backend.
Proof. split; [intros db; apply same_backend_refl|intros ???; apply same_backend_trans]. Qed.

Lemma same_backend_Forall2_refl l : Forall2 same_backend l l.
Proof. by apply Forall_Forall2_diag, Forall_true. Qed.

#[global] Instance frame_refl c : Reflexive (frame c).
Proof. intros s. split; auto using same_backend_Forall2_refl. intros cl ->. by exists cl. Qed.

#[global] Instance frame_trans c : Transitive (frame c).
Proof.
  intros s1 s2 s3 H1 H2. destruct H1, H2. split; try congruence; auto.
  - by etrans.
  - intros c' Hc. rewrite fr_others1, fr_others0; auto.
  - intros cl (cl2 & Hcl2 & Hsame2)%fr_client0. apply fr_client1 in Hcl2 as (cl3 & ? & ?).
    exists cl3. split; [done|]. unfold same_client in *. intuition congruence.
Qed.

Lemma frame_length c s s' : frame c s s' → length (dbs s') = length (dbs s).
Proof. intros Hf. symmetry. eapply Forall2_length, fr_dbs, Hf. Qed.

Lemma frame_updClient c s cl f :
  clients s !! c = Some cl → same_client cl (f cl) →
  (client_wf (length (dbs s)) cl → client_wf (length (dbs s)) (f cl)) →
  frame c s (set_clients (<[c := f cl]> (clients s)) s).
Proof.
  intros Hc Hsame Hwf. split; cbn; auto using same_backend_Forall2_refl.
  - intros [Hd Hm]. split; [done|]. cbn. apply map_Forall_insert_2; [|done].
    apply Hwf, (Hm c cl Hc).
  - intros. by rewrite lookup_insert_ne.
  - intros cl' ?. rewrite lookup_insert_eq. simplify_eq. eauto.
Qed.

Lemma frame_withDb c s i db db' :
  dbs s !! i = Some db → same_backend db db' → (db_ok db → db_ok db') →
  frame c s (set_dbs (<[i := db']> (dbs s)) s).
Proof.
  intros Hi Hb Hok. split; cbn; auto.
  - intros [Hd Hm]. split; cbn; [|by rewrite length_insert].
    apply Forall_insert; [done|]. apply Hok. by eapply Forall_lookup_1.
  - rewrite <-(list_insert_id (dbs s) i db Hi) at 1. apply Forall2_insert; [|done].
    apply same_backend_Forall2_refl.
  - intros cl ->. by exists cl.
Qed.

Lemma frame_dirty c s n : frame c s (set_dirty n s).
Proof. split; cbn; auto using same_backend_Forall2_refl. - by intros []. - intros cl ->. by exists cl. Qed.

(** *** Keyspace operations keep a database well formed *)

Lemma db_ok_wf db : db_ok db → db_wf db.
Proof. by intros []. Qed.
Hint Resolve db_ok_wf : core.

Lemma db_ok_remove_key k db : db_ok db → db_ok (remove_key k db).
Proof.
  intros [Hwf Hs]. split; [by apply (db_wf_remove_key k)|].
  cbn. intros k' o [_ Ho]%lookup_delete_Some. eauto.
Qed.

Lemma db_ok_purge g k db : db_ok db → db_ok (purge g k db).
Proof. unfold purge. case_match; auto using db_ok_remove_key. Qed.

Lemma db_ok_write_key g k v b keepttl db :
  string_obj v b → db_ok db → db_ok (write_key g k v keepttl db).
Proof.
  intros Hv Hok. split; [by apply (db_wf_write_key g k v keepttl), db_ok_wf|].
  apply (db_ok_purge g k) in Hok as [_ Hs]. unfold write_key. cbn. intros k' o.
  rewrite lookup_insert_Some. intros [[<- <-]|[_ Ho]] Ht; [by eauto|eauto].
Qed.

Lemma db_ok_write_expire k w db :
  is_Some (dict db !! k) → db_ok db → db_ok (write_expire k w db).
Proof. intros Hk Hok. split; [apply (db_wf_write_expire k w db); auto|]. by destruct Hok. Qed.

(** *** Working inside a frame *)

(** [s] is reached from [s0] by work for client [c]. *)
Record inframe (c : clientId) (s0 s : server) : Prop := {
  if_wf : srv_wf s;
  if_frame : frame c s0 s;
  if_client : is_Some (clients s0 !! c) }.

Context (c : clientId) (s0 : server).
Implicit Types s : server.

Lemma inframe_step s s' : inframe c s0 s → frame c s s' → inframe c s0 s'.
Proof. intros [Hwf Hf Hc] Hf'. split; [by eapply fr_wf|by etrans|done]. Qed.

Lemma inframe_lookup s : inframe c s0 s →
  ∃ cl, clients s !! c = Some cl ∧ client_wf (length (dbs s0)) cl.
Proof.
  intros [Hwf Hf [cl0 Hc]]. destruct (fr_client _ _ _ Hf _ Hc) as (cl & Hcl & _).
  exists cl. split; [done|]. rewrite <-(frame_length _ _ _ Hf). by eapply (swf_clients s Hwf c).
Qed.

Lemma wp_getClient E (Q : client → server → Prop) s cl :
  clients s !! c = Some cl → Q cl s → wp E (getClient c) Q s.
Proof. unfold wp, getClient. cbv [mbind M_bind get]. by intros ->. Qed.

Lemma wp_updClient E f (Q : unit → server → Prop) s cl :
  clients s !! c = Some cl → Q tt (set_clients (<[c := f cl]> (clients s)) s) →
  wp E (updClient c f) Q s.
Proof. intros Hc HQ. unfold updClient. wp_step. by eapply wp_getClient. Qed.

Lemma wp_withDb {A} E i (m : M redisDb A) (Q : A → server → Prop) s db a db' :
  dbs s !! i = Some db → m db = Ok (a, db') → Q a (set_dbs (<[i := db']> (dbs s)) s) →
  wp E (withDb i m) Q s.
Proof. unfold wp, withDb. by intros -> ->. Qed.

Lemma if_getClient (Q : client → server → Prop) s : inframe c s0 s →
  (∀ cl, clients s !! c = Some cl → client_wf (length (dbs s0)) cl → Q cl s) →
  wp noFault (getClient c) Q s.
Proof. intros Hs HQ. destruct (inframe_lookup s Hs) as (cl & Hc & Hwf). by eapply wp_getClient; [|apply HQ]. Qed.

Lemma if_updClient f s : inframe c s0 s → (∀ cl, same_client cl (f cl)) →
  (∀ cl, client_wf (length (dbs s0)) cl → client_wf (length (dbs s0)) (f cl)) →
  wp noFault (updClient c f) (λ _, inframe c s0) s.
Proof.
  intros Hs Hsame Hwf. destruct (inframe_lookup s Hs) as (cl & Hc & Hcl).
  eapply wp_updClient; [done|]. eapply inframe_step; [done|]. apply frame_updClient; auto.
  rewrite (frame_length c s0 s) by apply Hs. auto.
Qed.

Lemma if_addReply r s : inframe c s0 s → wp noFault (addReply c r) (λ _, inframe c s0) s.
Proof. intros Hs. apply if_updClient; [done|done|]. by intros cl [??]. Qed.

Lemma if_withDb {A} i (m : M redisDb A) (P : A → Prop) s : inframe c s0 s →
  (i < length (dbs s0))%nat →
  (∀ db, db_ok db → ∃ a db', m db = Ok (a, db') ∧ same_backend db db' ∧ db_ok db' ∧ P a) →
  wp noFault (withDb i m) (λ a s', P a ∧ inframe c s0 s') s.
Proof.
  intros Hs Hi Hm. rewrite <-(frame_length c s0 s) in Hi by apply Hs.
  destruct (lookup_lt_is_Some_2 (dbs s) i Hi) as [db Hdb].
  assert (db_ok db) as Hok by (eapply Forall_lookup_1; [apply (swf_dbs s), Hs|done]).
  destruct (Hm db Hok) as (a & db' & Hrun & ? & ? & ?).
  eapply wp_withDb; [done..|]. split; [done|]. eapply inframe_step; [done|]. by eapply frame_withDb.
Qed.

Lemma if_incrDirty s : inframe c s0 s → wp noFault incrDirty (λ _, inframe c s0) s.
Proof. intros Hs. apply wp_modify. eapply inframe_step; [done|]. apply frame_dirty. Qed.

(** *** The commands stay in their frame *)

Lemma wp_argv cl i (Q : bytes → server → Prop) s :
  (i < length (c_argv cl))%nat → (∀ b, c_argv cl !! i = Some b → Q b s) →
  wp noFault (argv cl i) Q s.
Proof. intros [b Hb]%lookup_lt_is_Some_2 HQ. by eapply wp_deref; eauto. Qed.

Lemma wp_encode v (Q : robj → server → Prop) s :
  (∀ o, string_obj o v → Q o s) → wp noFault (tryObjectEncoding (createStringObject v)) Q s.
Proof.
  intros HQ. destruct (tryObjectEncoding_run _ _ s (createStringObject_string v)) as (o & Hr & Ho).
  eapply wp_run_ok; eauto.
Qed.

Lemma if_lookupKeyWrite i g key s : inframe c s0 s → (i < length (dbs s0))%nat →
  wp noFault (withDb i (lookupKeyWrite g key)) (λ _ s', True ∧ inframe c s0 s') s.
Proof.
  intros Hs Hi. apply if_withDb; [done..|]. intros db Hok. eexists _, _.
  rewrite lookupKeyWrite_run by auto. split_and!; [done|apply same_backend_purge|by apply db_ok_purge|done].
Qed.

Lemma if_parseExpire expire unit s :
  inframe c s0 s → wp noFault (parseExpire c expire unit) (λ _, inframe c s0) s.
Proof.
  intros Hs. destruct expire as [e|]; [|done]. cbn [parseExpire]. wp_step.
  eapply wp_run_ok; [by apply getLongLongFromObject_run, createStringObject_string|].
  destruct (string2ll e) as [ms|].
  - case_match; [|by wp_steps]. wp_step. apply if_getClient; [done|]. intros cl _ _.
    wp_step. eapply wp_mono; [|by apply if_addReply]. done.
  - wp_step. eapply wp_mono; [|by apply if_addReply]. done.
Qed.

(** The write of SET: the key, then its expire. *)
Lemma if_write i g key val b keepttl (expire : bool) w s :
  string_obj val b → inframe c s0 s → (i < length (dbs s0))%nat →
  wp noFault (withDb i (genericSetKey g key val keepttl) ;;
              incrDirty ;;
              if expire then withDb i (setExpire key w) else mret tt) (λ _, inframe c s0) s.
Proof.
  intros Hv Hs Hi. rewrite <-(frame_length c s0 s) in Hi by apply Hs.
  destruct (lookup_lt_is_Some_2 (dbs s) i Hi) as [db Hdb].
  assert (db_ok db) as Hok by (eapply Forall_lookup_1; [apply (swf_dbs s), Hs|done]).
  wp_step. eapply wp_withDb; [done|by apply genericSetKey_run; auto|]. wp_step. apply wp_modify.
  set (db' := write_key g key val keepttl db).
  assert (inframe c s0 (set_dbs (<[i := db']> (dbs s)) s)) as Hs'.
  { eapply inframe_step; [done|]. eapply frame_withDb; [done|apply same_backend_write_key|].
    by eapply db_ok_write_key. }
  destruct expire; [|wp_step; eapply inframe_step; [done|]; apply frame_dirty].
  assert (is_Some (dict db' !! key)) as Hk.
  { unfold db', write_key. cbn. rewrite lookup_insert_eq. by eexists. }
  eapply wp_withDb; [by apply list_lookup_insert_eq|by apply setExpire_run|].
  eapply inframe_step; [done|]. etrans; [apply (frame_dirty _ _ (dirty s + 1))|].
  eapply (frame_withDb _ _ i db'); [by apply list_lookup_insert_eq|done|].
  by apply db_ok_write_expire.
Qed.

Lemma if_setGenericCommand flags key val b expire unit ok_reply abort_reply s :
  string_obj val b → inframe c s0 s →
  wp noFault (setGenericCommand c flags key val expire unit ok_reply abort_reply)
    (λ _, inframe c s0) s.
Proof.
  intros Hv Hs. unfold setGenericCommand. wp_step.
  eapply wp_mono; [|by apply if_parseExpire]. clear s Hs. intros [ms|] s Hs; [|done].
  wp_step. apply if_getClient; [done|]. intros cl _ [Hi _]. case_match.
  { wp_step. eapply wp_mono; [|by apply if_addReply]. intros [] s' Hs'.
    apply if_updClient; [done|done|]. by intros ? []. }
  wp_step. wp_step. set (g := srv_env s). clearbody g. wp_step.
  apply (wp_mono _ _ (λ _, inframe c s0)).
  2:{ case_match; [|done]. wp_step. eapply wp_mono; [|by apply if_lookupKeyWrite]. by intros ?? []. }
  clear s Hs. intros nx s Hs. wp_step. apply (wp_mono _ _ (λ _, inframe c s0)).
  2:{ repeat case_match; [done| |done].
      wp_step. eapply wp_mono; [|by apply if_lookupKeyWrite]. by intros ?? []. }
  clear s Hs. intros xx s Hs. case_match; [by apply if_addReply|].
  pose proof (if_write (c_db cl) g key val b (hasFlag flags OBJ_SET_KEEPTTL)
    (bool_decide (is_Some expire)) (i64 (mstime g + ms)) s Hv Hs Hi) as Hw.
  apply wp_bind_inv in Hw. wp_step. eapply wp_mono; [|exact Hw]. clear s Hs Hw.
  intros [] s Hw. apply wp_bind_inv in Hw. wp_step. eapply wp_mono; [|exact Hw]. clear s Hw.
  intros [] s Hw. wp_step. eapply wp_mono; [|exact Hw]. intros [] s' Hs'. by apply if_addReply.
Qed.

(** The client's command has the arguments the table asks for. *)
Definition runnable (p : proc) (cl : client) : Prop :=
  c_cmd cl = Some p ∧ arityOk p (Z.of_nat (length (c_argv cl))) = true.

Lemma arityOk_args p n : arityOk p (Z.of_nat n) = true →
  match p with
  | getCommandProc | selectCommandProc | delCommandProc => 2 ≤ n
  | setCommandProc | setnxCommandProc => 3 ≤ n
  | setexCommandProc | psetexCommandProc => 4 ≤ n
  | _ => True
  end%nat.
Proof. unfold arityOk, arityFits. destruct p; cbn [cmdArity]; (done || lia). Qed.

(** Reads the client and its first arguments. *)
Ltac read_args Hc :=
  wp_step; eapply wp_getClient; [exact Hc|];
  repeat (wp_step; apply wp_argv; [lia|intros ? _]).

Lemma if_setFamily p cl s : inframe c s0 s → clients s !! c = Some cl → runnable p cl →
  match p with
  | setCommandProc => wp noFault (setCommand c) (λ _, inframe c s0) s
  | setnxCommandProc => wp noFault (setnxCommand c) (λ _, inframe c s0) s
  | setexCommandProc => wp noFault (setexCommand c) (λ _, inframe c s0) s
  | psetexCommandProc => wp noFault (psetexCommand c) (λ _, inframe c s0) s
  | _ => True
  end.
Proof.
  intros Hs Hc [_ Hn%arityOk_args]. destruct p; try done;
    unfold setCommand, setnxCommand, setexCommand, psetexCommand.
  - wp_step. eapply wp_getClient; [exact Hc|].
    destruct (setOptions _ _ _ _) as [[[flags unit] expire]|]; [|by apply if_addReply].
    repeat (wp_step; apply wp_argv; [lia|intros ? _]).
    wp_step. apply wp_encode. intros. by eapply if_setGenericCommand.
  - read_args Hc. wp_step. apply wp_encode. intros. by eapply if_setGenericCommand.
  - read_args Hc. wp_step. apply wp_encode. intros. by eapply if_setGenericCommand.
  - read_args Hc. wp_step. apply wp_encode. intros. by eapply if_setGenericCommand.
Qed.

Lemma if_getCommand cl s : inframe c s0 s → clients s !! c = Some cl → runnable getCommandProc cl →
  wp noFault (getCommand c) (λ _, inframe c s0) s.
Proof.
  intros Hs Hc [_ Hn%arityOk_args]. unfold getCommand, getGenericCommand. wp_step.
  apply if_getClient; [done|]. intros ? ? [Hi _]. simplify_eq. wp_step. wp_step.
  wp_step. apply wp_argv; [lia|]. intros key _. wp_step.
  eapply wp_mono; [|apply (if_withDb (c_db cl) _
    (λ o, ∀ r, o = Some r → o_type r = OBJ_STRING → ∃ b, string_obj r b)); [done..|]].
  - intros o s' [Ho Hs']. destruct o as [o|]; [|by apply if_addReply].
    case_bool_decide as Ht; cbn; [|by apply if_addReply].
    destruct (Ho o) as [b Hb]; [done..|]. wp_step.
    eapply wp_run_ok; [by apply replyBytes_run|]. by apply if_addReply.
  - intros db Hok. eexists _, _. rewrite lookupKeyRead_run by auto.
    split_and!; [done|apply same_backend_purge|by apply db_ok_purge|].
    intros r Hr Ht. repeat case_match; try done. by eapply Hok.
Qed.

Lemma if_delKeys i keys n s : inframe c s0 s → (i < length (dbs s0))%nat →
  wp noFault (delKeys i keys n) (λ _, inframe c s0) s.
Proof.
  revert n s. induction keys as [|k keys IH]; intros n s Hs Hi; [done|]. cbn [delKeys].
  wp_step. wp_step. wp_step. eapply wp_mono; [|apply (if_withDb i _ (λ _, True)); [done..|]].
  - clear s Hs. intros b s [_ Hs]. wp_step.
    eapply wp_mono; [|apply (if_withDb i _ (λ _, True)); [done..|]].
    + clear s Hs. intros d s [_ Hs]. case_match; [|by apply IH]. wp_step.
      eapply wp_mono; [|by apply if_incrDirty]. intros [] s' Hs'. by apply IH.
    + intros db Hok. eexists _, _. rewrite dbSyncDelete_run.
      split_and!; [done|apply same_backend_with|by apply db_ok_remove_key|done].
  - intros db Hok. eexists _, _. rewrite expireIfNeeded_run by auto.
    split_and!; [done|apply same_backend_purge|by apply db_ok_purge|done].
Qed.

Lemma if_delCommand s : inframe c s0 s → wp noFault (delCommand c) (λ _, inframe c s0) s.
Proof.
  intros Hs. unfold delCommand, delGenericCommand. wp_step. apply if_getClient; [done|].
  intros cl Hc [Hi _]. case_match; wp_step.
  - eapply wp_mono; [|by apply if_addReply]. intros [] s' Hs'.
    apply if_updClient; [done|done|]. by intros ? [].
  - eapply wp_mono; [|by apply if_delKeys]. intros n s' Hs'. by apply if_addReply.
Qed.

Lemma if_selectCommand cl s : inframe c s0 s → clients s !! c = Some cl →
  runnable selectCommandProc cl → wp noFault (selectCommand c) (λ _, inframe c s0) s.
Proof.
  intros Hs Hc [_ Hn%arityOk_args]. unfold selectCommand. wp_step. eapply wp_getClient; [done|].
  wp_step. apply wp_argv; [lia|]. intros a _. wp_step.
  eapply wp_run_ok; [by apply getLongLongFromObject_run, createStringObject_string|].
  destruct (string2ll a) as [id|]; [|by apply if_addReply]. case_match; [by apply if_addReply|].
  set (id' := if _ <? _ then _ else _). clearbody id'. unfold selectDb. wp_step. wp_step. wp_step.
  case_match eqn:Hid; [wp_step; cbn; by apply if_addReply|]. wp_step.
  eapply wp_mono; [|apply if_updClient; [done|done|]].
  - intros [] s' Hs'. wp_step. cbn. by apply if_addReply.
  - intros cl' []. split; cbn; [|done]. rewrite (frame_length c s0 s) in Hid by apply Hs. lia.
Qed.

Lemma if_set_multi m d q s : inframe c s0 s → Forall queued_ok q →
  wp noFault (updClient c (set_multi m d q)) (λ _, inframe c s0) s.
Proof. intros Hs Hq. apply if_updClient; [done|done|]. by intros cl []. Qed.

Lemma if_multiCommand s : inframe c s0 s → wp noFault (multiCommand c) (λ _, inframe c s0) s.
Proof.
  intros Hs. unfold multiCommand. wp_step. apply if_getClient; [done|]. intros cl _ [_ Hq].
  case_match; [by apply if_addReply|]. wp_step. eapply wp_mono; [|by apply if_set_multi].
  intros [] s' Hs'. by apply if_addReply.
Qed.

Lemma if_discardCommand s : inframe c s0 s → wp noFault (discardCommand c) (λ _, inframe c s0) s.
Proof.
  intros Hs. unfold discardCommand. wp_step. apply if_getClient; [done|]. intros cl _ _.
  case_match; [by apply if_addReply|]. wp_step. eapply wp_mono; [|by apply if_set_multi].
  intros [] s' Hs'. by apply if_addReply.
Qed.

Lemma wp_commandFault {A} (m : M server A) Q s : wp noFault m Q s → wp other_fault m Q s.
Proof. by apply wp_fault_mono. Qed.

Lemma if_otherCommand name cl s : inframe c s0 s → clients s !! c = Some cl →
  runnable (otherProc name) cl → wp other_fault (otherCommand name c) (λ _, inframe c s0) s.
Proof.
  intros Hs Hc [_ Ha]. unfold otherCommand. wp_step. apply wp_commandFault, if_getClient; [done|].
  intros ? ? [Hi _]. simplify_eq. wp_step. wp_step. wp_step.
  rewrite <-(frame_length c s0 s) in Hi by apply Hs.
  destruct (lookup_lt_is_Some_2 (dbs s) (c_db cl) Hi) as [db Hdb].
  assert (db_ok db) as Hok by (eapply Forall_lookup_1; [apply (swf_dbs s), Hs|done]).
  pose proof (other_wf name (srv_env s) (c_resp cl) (c_argv cl) db Ha Hok) as Hcall.
  unfold wp at 1, withDb. rewrite Hdb. destruct (other_call _ _ _ _ db) as [[r db']|f]; [|done].
  destruct Hcall as [Hb Hok']. apply wp_commandFault. wp_step.
  eapply wp_mono; [|apply (wp_forM_inv _ (inframe c s0))].
  - intros [] s'' Hs''. apply wp_modify. eapply inframe_step; [done|]. apply frame_dirty.
  - eapply inframe_step; [done|]. by eapply frame_withDb.
  - intros r' s'' _ Hs''. by apply if_addReply.
Qed.

Lemma if_callQueued p cl s : inframe c s0 s → clients s !! c = Some cl → runnable p cl →
  p ≠ execCommandProc → wp other_fault (callQueued c) (λ _, inframe c s0) s.
Proof.
  intros Hs Hc Hr Hp. pose proof Hr as [Hcmd _]. unfold callQueued. wp_step.
  eapply wp_getClient; [done|]. rewrite Hcmd. wp_step. apply wp_ret.
  pose proof (if_setFamily p cl s Hs Hc Hr).
  destruct p; try done; eauto using wp_commandFault, if_getCommand, if_delCommand, if_selectCommand,
    if_multiCommand, if_discardCommand, if_otherCommand.
Qed.

(** The end of EXEC. *)
Lemma if_execEnd cl (b : bool) s : inframe c s0 s →
  wp noFault (updClient c (set_cmd (c_cmd cl) (c_argv cl)) ;; discardTransaction c ;;
              if b then incrDirty else mret tt) (λ _, inframe c s0) s.
Proof.
  intros Hs. unfold discardTransaction. wp_step.
  eapply wp_mono; [|apply if_updClient; [done|done|by intros ? []]].
  intros [] s3 Hs3. wp_step. eapply wp_mono; [|by apply if_set_multi]. intros [] s4 Hs4.
  case_match; [by apply if_incrDirty|done].
Qed.

Lemma if_execCommand s : inframe c s0 s →
  wp other_fault (execCommand callQueued c) (λ _, inframe c s0) s.
Proof.
  intros Hs. unfold execCommand. wp_step. apply wp_commandFault, if_getClient; [done|].
  intros cl _ [_ Hq]. wp_step. wp_step. case_match; [by apply wp_commandFault, if_addReply|].
  case_match; [|case_match].
  1,2: apply wp_commandFault; wp_step; eapply wp_mono; [|by apply if_addReply]; intros [] s' Hs';
    by apply if_set_multi.
  wp_step. eapply wp_mono; [|by apply wp_commandFault, if_addReply]. intros [] s1 Hs1. wp_step.
  eapply wp_mono; [|apply (wp_forM_inv _ (inframe c s0)); [done|]].
  - intros [] s2 Hs2. by apply wp_commandFault, if_execEnd.
  - intros [p a] s2 Hin Hs2. destruct (inframe_lookup s2 Hs2) as (cl2 & Hc2 & Hwf2).
    rewrite Forall_forall in Hq. destruct (Hq _ Hin) as [Hp Ha].
    wp_step. eapply wp_updClient; [done|].
    eapply (if_callQueued p (set_cmd (Some p) a cl2)); [|by apply lookup_insert_eq|done|done].
    eapply inframe_step; [done|]. apply frame_updClient; [done|done|by intros []].
Qed.

(** On a client whose command has its arguments, [call] stays in the client's frame,
    and faults only where the other commands do. *)
Lemma if_call p cl s : inframe c s0 s → clients s !! c = Some cl → runnable p cl →
  wp other_fault (call c) (λ _, inframe c s0) s.
Proof.
  intros Hs Hc Hr. pose proof Hr as [Hcmd _]. unfold call. wp_step. eapply wp_getClient; [done|].
  rewrite Hcmd. wp_step. apply wp_ret.
  destruct p; try (by eapply if_callQueued); by apply if_execCommand.
Qed.

End Frame.
