(* ===== verification/StringProps.v ===== *)
(** * StringProps: SET, GET and DEL against the abstract keyspace

    The runs of the string commands on a client in the normal state, and their
    specification on [live], the keys a client can observe. *)

From Stdlib Require Import Ascii String ZifyBool.
From stdpp Require Import base tactics option list strings numbers gmap fin_maps.
From S2P Require Import Prelude Util Object Db Server TString.

Local Open Scope Z_scope.

Section Runs.
Context `{OtherCommands}.

(** ** Runs of the accessors *)

Lemma getClient_run c cl s : clients s !! c = Some cl → getClient c s = Ok (cl, s).
Proof. intros Hc. unfold getClient. cbv [mbind M_bind get]. by rewrite Hc. Qed.

Lemma updClient_run c cl f s : clients s !! c = Some cl →
  updClient c f s = Ok (tt, set_clients (<[c := f cl]> (clients s)) s).
Proof. intros Hc. unfold updClient. by erewrite bind_run by by apply getClient_run. Qed.

Lemma withDb_run {A} i (m : M redisDb A) db a db' s :
  dbs s !! i = Some db → m db = Ok (a, db') →
  withDb i m s = Ok (a, set_dbs (<[i := db']> (dbs s)) s).
Proof. unfold withDb. by intros -> ->. Qed.

Lemma set_dbs_id i db s : dbs s !! i = Some db → set_dbs (<[i := db]> (dbs s)) s = s.
Proof. intros Hi. rewrite list_insert_id by done. by destruct s. Qed.

Lemma withDb_read {A} i (m : M redisDb A) db a s :
  dbs s !! i = Some db → m db = Ok (a, db) → withDb i m s = Ok (a, s).
Proof. intros Hi Hm. erewrite withDb_run by done. by rewrite set_dbs_id. Qed.

Lemma argv_run cl i b s : c_argv cl !! i = Some b → argv cl i s = Ok (b, s).
Proof. unfold argv. by intros ->. Qed.

Lemma purge_purge g k db : purge g k (purge g k db) = purge g k db.
Proof.
  unfold purge at 1. destruct (masterhost g) eqn:Hm; [by rewrite andb_false_r|].
  by rewrite purge_not_expired.
Qed.

Lemma write_key_purge g k v keepttl db :
  write_key g k v keepttl (purge g k db) = write_key g k v keepttl db.
Proof. unfold write_key. by rewrite purge_purge. Qed.

Lemma call_run p c cl s :
  clients s !! c = Some cl → c_cmd cl = Some p → p ≠ execCommandProc → call c s = callQueued c s.
Proof.
  intros Hc Hp Hne. unfold call. erewrite bind_run by by apply getClient_run. rewrite Hp. by destruct p.
Qed.

Lemma callQueued_run p c cl s :
  clients s !! c = Some cl → c_cmd cl = Some p →
  callQueued c s =
  match p with
  | getCommandProc => getCommand c | setCommandProc => setCommand c
  | setnxCommandProc => setnxCommand c | setexCommandProc => setexCommand c
  | psetexCommandProc => psetexCommand c | delCommandProc => delCommand c
  | selectCommandProc => selectCommand c | multiCommandProc => multiCommand c
  | discardCommandProc => discardCommand c
  | execCommandProc => fail (AssertFailed "EXEC queued in a transaction")
  | otherProc name => otherCommand name c
  end s.
Proof.
  intros Hc Hp. unfold callQueued. erewrite bind_run by by apply getClient_run. by rewrite Hp.
Qed.

Lemma not_expired_id g k db : expired_at g db k = false → purge g k db = db.
Proof. unfold purge. by intros ->. Qed.

Lemma absent_not_expired g k db : db_wf db → dict db !! k = None → expired_at g db k = false.
Proof.
  intros Hwf Hk. unfold expired_at. destruct (expires db !! k) eqn:He; [|done].
  destruct (Hwf k) as [? ?]; [by rewrite He|congruence].
Qed.

Lemma read_live g k db :
  (if expired_at g db k then None else dict db !! k) = fst <$> live g db k.
Proof. unfold live. by destruct (expired_at _ _ _), (dict db !! k). Qed.

Lemma live_Some g db k o e : live g db k = Some (o, e) →
  expired_at g db k = false ∧ dict db !! k = Some o ∧ expires db !! k = e.
Proof.
  unfold live. destruct (expired_at g db k); [done|]. destruct (dict db !! k); [|done].
  by intros [= -> ->].
Qed.

(** ** SET *)

(** The expire argument, in milliseconds. *)
Definition expireMs (e : option bytes) (unit : Z) : option Z :=
  match e with
  | None => Some 0
  | Some e =>
      match string2ll e with
      | Some v => if 0 <? v then Some (if unit =? UNIT_SECONDS then i64 (v * 1000) else v) else None
      | None => None
      end
  end.

Lemma parseExpire_run c e unit ms s :
  expireMs e unit = Some ms → parseExpire c e unit s = Ok (Some ms, s).
Proof.
  unfold parseExpire, expireMs. destruct e as [e|]; [|by intros [= <-]].
  erewrite bind_run by by apply getLongLongFromObject_run, createStringObject_string.
  destruct (string2ll e) as [v|]; [|done]. destruct (0 <? v) eqn:Hv; [|done]. intros [= <-].
  by rewrite (proj2 (Z.leb_gt v 0)) by lia.
Qed.

(** NX on an existing key, or XX on a missing one. *)
Definition setAborts (flags : Z) (exists_ : bool) : bool :=
  hasFlag flags OBJ_SET_NX && exists_ || hasFlag flags OBJ_SET_XX && negb exists_.

(** The database SET leaves. *)
Definition setResult (g : genv) (flags : Z) (key : bytes) (val : robj) (e : option bytes) (ms : Z)
    (db : redisDb) : redisDb :=
  let db1 := write_key g key val (hasFlag flags OBJ_SET_KEEPTTL) db in
  if bool_decide (is_Some e) then write_expire key (i64 (mstime g + ms)) db1 else db1.

Definition keyExists (g : genv) (key : bytes) (db : redisDb) : bool :=
  bool_decide (is_Some (dict (purge g key db) !! key)).

Section SetRun.
Context (c : clientId) (cl : client) (s : server) (key : bytes) (db : redisDb).
Context (Hc : clients s !! c = Some cl) (Hdb : dbs s !! c_db cl = Some db) (Hok : db_ok db).
Let g := srv_env s.
Let i := c_db cl.

(** The test of NX and XX: the lookups expire the key. *)
Lemma setTest_run flags : ∃ db1, (db1 = db ∨ db1 = purge g key db) ∧
  (setAborts flags (keyExists g key db) = true → db1 = purge g key db) ∧
  ∀ (k : bool → M server unit),
  (nx ← (if hasFlag flags OBJ_SET_NX then
           o ← withDb i (lookupKeyWrite g key); mret (bool_decide (is_Some o)) else mret false);
   xx ← (if nx : bool then mret false else
         if hasFlag flags OBJ_SET_XX then
           o ← withDb i (lookupKeyWrite g key); mret (bool_decide (o = None)) else mret false);
   k (nx || xx)) s =
  k (setAborts flags (keyExists g key db)) (set_dbs (<[i := db1]> (dbs s)) s).
Proof using Hdb Hok.
  assert (∀ s' d, dbs s' !! i = Some d → db_ok d →
    withDb i (lookupKeyWrite g key) s' =
    Ok (dict (purge g key d) !! key, set_dbs (<[i := purge g key d]> (dbs s')) s')) as Hlook.
  { intros s' d Hd Hokd. eapply withDb_run; [done|]. by apply lookupKeyWrite_run, db_ok_wf. }
  unfold setAborts, keyExists. destruct (hasFlag flags OBJ_SET_NX).
  - exists (purge g key db). split_and!; [by right|done|]. intros k.
    cbv [mbind M_bind mret M_ret]. rewrite (Hlook s db) by done. cbn.
    destruct (dict (purge g key db) !! key) as [o|] eqn:Ho.
    { rewrite bool_decide_eq_true_2 by by eexists. done. }
    rewrite bool_decide_eq_false_2 by by intros []. cbn.
    destruct (hasFlag flags OBJ_SET_XX); [|done].
    rewrite (Hlook _ (purge g key db)); [|apply list_lookup_insert_eq; by eapply lookup_lt_Some|by apply db_ok_purge].
    cbn. rewrite purge_purge, Ho, list_insert_insert_eq. done.
  - destruct (hasFlag flags OBJ_SET_XX).
    + exists (purge g key db). split_and!; [by right|done|]. intros k.
      cbv [mbind M_bind mret M_ret]. rewrite (Hlook s db) by done. cbn. f_equal.
      by destruct (dict (purge g key db) !! key).
    + exists db. split_and!; [by left|done|]. intros k. by rewrite set_dbs_id.
Qed.

End SetRun.

(** The writes of SET, after its tests. *)
Definition setWrites (c : clientId) (i : nat) (g : genv) (flags : Z) (key : bytes) (val : robj)
    (e : option bytes) (ms : Z) (ok : reply) : M server unit :=
  withDb i (genericSetKey g key val (hasFlag flags OBJ_SET_KEEPTTL)) ;;
  incrDirty ;;
  (if bool_decide (is_Some e) then withDb i (setExpire key (i64 (mstime g + ms))) else mret tt) ;;
  addReply c ok.

(** The client, the dirty counter and one database after a command. *)
Definition afterCommand (c : clientId) (cl : client) (r : reply) (n : Z) (i : nat) (db : redisDb)
    (s : server) : server :=
  set_clients (<[c := push_reply r cl]> (clients s)) (set_dirty n (set_dbs (<[i := db]> (dbs s)) s)).

Lemma setWrites_run c cl i g flags key val e ms ok db s :
  clients s !! c = Some cl → dbs s !! i = Some db → db_ok db →
  setWrites c i g flags key val e ms ok s =
  Ok (tt, afterCommand c cl ok (dirty s + 1) i (setResult g flags key val e ms db) s).
Proof.
  intros Hc Hdb Hok. unfold setWrites, setResult, afterCommand, addReply.
  assert (i < length (dbs s))%nat as Hi by by eapply lookup_lt_Some.
  erewrite bind_run; [|eapply withDb_run; [done|by apply genericSetKey_run, db_ok_wf]].
  set (db1 := write_key g key val _ db).
  rewrite (bind_run incrDirty _ _ tt (set_dirty (dirty s + 1) (set_dbs (<[i := db1]> (dbs s)) s))) by done.
  destruct (bool_decide (is_Some e)); [|by erewrite (bind_run (mret tt)), (updClient_run c cl) by done].
  erewrite bind_run; [|eapply withDb_run; [by apply list_lookup_insert_eq|]].
  2:{ apply setExpire_run. unfold db1. cbn. by rewrite lookup_insert_eq. }
  cbn [dbs set_dbs set_dirty]. rewrite list_insert_insert_eq. by rewrite (updClient_run c cl).
Qed.

(** SET without a failed backend write. *)
Lemma setGeneric_run c cl flags key val e unit ms ok ab db s :
  clients s !! c = Some cl → dbs s !! c_db cl = Some db → db_ok db →
  backend_set_sync_reply cl = false → expireMs e unit = Some ms →
  setGenericCommand c flags key val e unit ok ab s =
  Ok (tt, if setAborts flags (keyExists (srv_env s) key db)
          then afterCommand c cl (default (RNull (c_resp cl)) ab) (dirty s) (c_db cl)
                 (purge (srv_env s) key db) s
          else afterCommand c cl (default ROk ok) (dirty s + 1) (c_db cl)
                 (setResult (srv_env s) flags key val e ms db) s).
Proof.
  intros Hc Hdb Hok Hflag Hms. set (g := srv_env s). set (i := c_db cl).
  destruct (setTest_run cl s key db Hdb Hok flags) as (db1 & Hdb1 & Hab & Hrun).
  specialize (Hrun (λ b : bool, if b then addReply c (default (RNull (c_resp cl)) ab)
                                else setWrites c i g flags key val e ms (default ROk ok))).
  unfold setGenericCommand. erewrite bind_run by by apply parseExpire_run. cbn beta iota.
  erewrite bind_run by by apply getClient_run. rewrite Hflag.
  rewrite (bind_run (gets srv_env) _ s g s) by done. etrans; [exact Hrun|]. clear Hrun. fold g i in Hab |- *.
  destruct (setAborts flags (keyExists g key db)).
  { rewrite Hab by done. unfold addReply. by rewrite (updClient_run c cl). }
  assert (db_ok db1) as Hok1 by (destruct Hdb1 as [->| ->]; [done|by apply db_ok_purge]).
  erewrite setWrites_run; [|done|by eapply list_lookup_insert_eq, lookup_lt_Some|done].
  unfold afterCommand. cbn [dbs clients set_dbs set_clients set_dirty]. rewrite list_insert_insert_eq.
  unfold setResult. destruct Hdb1 as [->| ->]; [done|]. by rewrite write_key_purge.
Qed.

(** A failed backend write, reported through the flag. *)
Lemma setGeneric_failed c cl flags key val e unit ms ok ab s :
  clients s !! c = Some cl → backend_set_sync_reply cl = true → expireMs e unit = Some ms →
  setGenericCommand c flags key val e unit ok ab s =
  Ok (tt, set_clients (<[c := set_set_sync_reply false (push_reply (RNull 2) cl)]> (clients s)) s).
Proof.
  intros Hc Hflag Hms. unfold setGenericCommand.
  erewrite bind_run by by apply parseExpire_run. cbn beta iota. erewrite bind_run by by apply getClient_run. rewrite Hflag.
  unfold addReply. erewrite bind_run by by apply updClient_run.
  erewrite updClient_run by apply lookup_insert_eq. cbn [clients set_clients].
  by rewrite insert_insert_eq.
Qed.

(** ** The four SET commands *)

Record setRequest : Type := mkSetReq {
  sr_flags : Z;
  sr_key : bytes;
  sr_val : bytes;
  sr_expire : option bytes;
  sr_unit : Z;
  sr_ok : option reply;
  sr_abort : option reply }.

(** What the arguments of the command ask for; [None]: a syntax error. *)
Definition setRequestOf (p : proc) (a : list bytes) : option setRequest :=
  match p, a with
  | setCommandProc, _ :: k :: v :: opts =>
      '(flags, unit, e) ← setOptions opts OBJ_SET_NO_FLAGS UNIT_SECONDS None;
      Some (mkSetReq flags k v e unit None None)
  | setnxCommandProc, [_; k; v] =>
      Some (mkSetReq OBJ_SET_NX k v None UNIT_SECONDS (Some (RInt 1)) (Some (RInt 0)))
  | setexCommandProc, [_; k; e; v] =>
      Some (mkSetReq OBJ_SET_NO_FLAGS k v (Some e) UNIT_SECONDS None None)
  | psetexCommandProc, [_; k; e; v] =>
      Some (mkSetReq OBJ_SET_NO_FLAGS k v (Some e) UNIT_MILLISECONDS None None)
  | _, _ => None
  end.

Lemma call_set_generic p c cl r s :
  clients s !! c = Some cl → c_cmd cl = Some p → setRequestOf p (c_argv cl) = Some r →
  ∃ o, string_obj o (sr_val r) ∧
    call c s = setGenericCommand c (sr_flags r) (sr_key r) o (sr_expire r) (sr_unit r)
                 (sr_ok r) (sr_abort r) s.
Proof.
  intros Hc Hcmd Hr. rewrite (call_run p c cl) by (done || by intros ->).
  erewrite callQueued_run by done.
  destruct (tryObjectEncoding_run (createStringObject (sr_val r)) (sr_val r) s) as (o & Ho & Hov);
    [apply createStringObject_string|]. exists o. split; [done|].
  destruct p; try done; cbn [setRequestOf] in Hr;
    unfold setCommand, setnxCommand, setexCommand, psetexCommand;
    erewrite bind_run by by apply getClient_run.
  - destruct (c_argv cl) as [|? [|k [|v opts]]] eqn:Ha; try done. rewrite !skipn_cons, skipn_O. cbn [mbind option_bind] in Hr.
    destruct (setOptions opts _ _ _) as [[[fl unit] e]|]; [|done]. injection Hr as <-. cbn beta iota.
    do 2 (erewrite bind_run by (apply argv_run; by rewrite Ha)). by erewrite bind_run by exact Ho.
  - destruct (c_argv cl) as [|? [|k [|v [|]]]] eqn:Ha; try done. injection Hr as <-.
    do 2 (erewrite bind_run by (apply argv_run; by rewrite Ha)). by erewrite bind_run by exact Ho.
  - destruct (c_argv cl) as [|? [|k [|e [|v [|]]]]] eqn:Ha; try done. injection Hr as <-.
    do 3 (erewrite bind_run by (apply argv_run; by rewrite Ha)). by erewrite bind_run by exact Ho.
  - destruct (c_argv cl) as [|? [|k [|e [|v [|]]]]] eqn:Ha; try done. injection Hr as <-.
    do 3 (erewrite bind_run by (apply argv_run; by rewrite Ha)). by erewrite bind_run by exact Ho.
Qed.

(** The reply of the validation the commands do first, when it fails: the options,
    then the expire time. *)
Definition expireError (p : proc) (e : option bytes) : reply :=
  match e ≫= string2ll with
  | Some _ => RError ("invalid expire time in " +:+ cmdName p)
  | None => RError "value is not an integer or out of range"
  end.

Definition setRefusal (p : proc) (a : list bytes) : option reply :=
  match setRequestOf p a with
  | None => Some (RError "syntax error")
  | Some r =>
      match expireMs (sr_expire r) (sr_unit r) with
      | Some _ => None | None => Some (expireError p (sr_expire r))
      end
  end.

Definition isSet (p : proc) : bool :=
  match p with
  | setCommandProc | setnxCommandProc | setexCommandProc | psetexCommandProc => true | _ => false
  end.

Lemma parseExpire_error p c cl e unit s :
  clients s !! c = Some cl → c_cmd cl = Some p → expireMs e unit = None →
  parseExpire c e unit s =
  Ok (None, set_clients (<[c := push_reply (expireError p e) cl]> (clients s)) s).
Proof.
  intros Hc Hcmd. unfold parseExpire, expireMs, expireError. destruct e as [e|]; [|done]. cbn [mbind option_bind].
  erewrite bind_run by by apply getLongLongFromObject_run, createStringObject_string.
  destruct (string2ll e) as [v|].
  - destruct (0 <? v) eqn:Hv; [done|]. intros _. rewrite (proj2 (Z.leb_le v 0)) by lia.
    erewrite bind_run by by apply getClient_run. rewrite Hcmd. unfold addReply.
    by erewrite bind_run by by apply updClient_run.
  - intros _. unfold addReply. by erewrite bind_run by by apply updClient_run.
Qed.

Lemma call_set_refused p c cl r s :
  clients s !! c = Some cl → runnable p cl → isSet p = true →
  setRefusal p (c_argv cl) = Some r →
  call c s = Ok (tt, set_clients (<[c := push_reply r cl]> (clients s)) s).
Proof.
  intros Hc [Hcmd Hargs] Hset. unfold setRefusal.
  destruct (setRequestOf p (c_argv cl)) as [q|] eqn:Hq.
  - destruct (expireMs _ _) eqn:Hms; [done|]. intros [= <-].
    destruct (call_set_generic p c cl q s) as (o & _ & ->); [done..|]. unfold setGenericCommand.
    by erewrite bind_run by by apply (parseExpire_error p c cl).
  - intros [= <-]. rewrite (call_run p c cl) by (done || by intros ->). erewrite callQueued_run by done.
    unfold arityOk, arityFits in Hargs.
    destruct p; try done; cbn [setRequestOf cmdArity] in Hq, Hargs;
      destruct (c_argv cl) as [|? [|k [|v opts]]] eqn:Ha; try (cbn [length] in Hargs; lia).
    + unfold setCommand. erewrite bind_run by by apply getClient_run. rewrite Ha, !skipn_cons, skipn_O.
      cbn [mbind option_bind] in Hq. destruct (setOptions opts _ _ _) as [[[]]|]; [done|].
      unfold addReply. by rewrite (updClient_run c cl).
    + destruct opts; [done|cbn [length] in Hargs; lia].
    + destruct opts as [|? [|]]; [cbn [length] in Hargs; lia|done|cbn [length] in Hargs; lia].
    + destruct opts as [|? [|]]; [cbn [length] in Hargs; lia|done|cbn [length] in Hargs; lia].
Qed.

Lemma setRefusal_None p a :
  setRefusal p a = None →
  ∃ r ms, setRequestOf p a = Some r ∧ expireMs (sr_expire r) (sr_unit r) = Some ms.
Proof.
  unfold setRefusal. destruct (setRequestOf p a) as [r|]; [|done].
  destruct (expireMs _ _) as [ms|] eqn:Hms; [|done]. intros _. by exists r, ms.
Qed.

Lemma call_set_failed p c cl s :
  clients s !! c = Some cl → c_cmd cl = Some p →
  setRefusal p (c_argv cl) = None → backend_set_sync_reply cl = true →
  call c s =
  Ok (tt, set_clients (<[c := set_set_sync_reply false (push_reply (RNull 2) cl)]> (clients s)) s).
Proof.
  intros Hc Hcmd (r & ms & Hr & Hms)%setRefusal_None Hflag.
  destruct (call_set_generic p c cl r s) as (o & _ & ->); [done..|]. by eapply setGeneric_failed.
Qed.

End Runs.

(** ** Specification on the observable keys *)

Definition store : Type := bytes → option (robj * option Z).

(** A key with the expire time [w] has timed out. *)
Definition timedOut (g : genv) (w : Z) : bool :=
  negb (w <? 0) && negb (loading g) && (w <? mstime g).

(** The store after a successful SET of [r]: an expire time that overflows can be in
    the past. *)
Definition abs_setRequest (r : setRequest) (o : robj) (g : genv) (ms : Z) (f : store) : store :=
  λ k, if decide (k = sr_key r) then
         if sr_expire r then
           let w := i64 (mstime g + ms) in if timedOut g w then None else Some (o, Some w)
         else Some (o, if hasFlag (sr_flags r) OBJ_SET_KEEPTTL then f k ≫= snd else None)
       else f k.

Lemma live_write_expire g k w db k' :
  is_Some (dict db !! k) →
  live g (write_expire k w db) k' =
  if decide (k' = k) then if timedOut g w then None else (λ o, (o, Some w)) <$> dict db !! k
  else live g db k'.
Proof.
  intros [o Ho]. unfold live, expired_at, write_expire. cbn. destruct (decide (k' = k)) as [->|Hne].
  - rewrite lookup_insert_eq, Ho. unfold timedOut. by case_match.
  - by rewrite lookup_insert_ne.
Qed.

Lemma live_setResult g r o ms db :
  masterhost g = false → db_wf db →
  ∀ k, live g (setResult g (sr_flags r) (sr_key r) o (sr_expire r) ms db) k =
       abs_setRequest r o g ms (live g db) k.
Proof.
  intros Hm Hwf k. unfold setResult, abs_setRequest.
  pose proof (live_write_key g Hm (sr_key r) o (hasFlag (sr_flags r) OBJ_SET_KEEPTTL) db Hwf k) as Hw.
  unfold abs_set in Hw. destruct (sr_expire r) as [e|].
  - rewrite bool_decide_eq_true_2 by by eexists.
    rewrite live_write_expire; unfold write_key at 1; cbn [dict with_keyspace];
      rewrite lookup_insert_eq; [|by eexists].
    rewrite Hw. by case_decide.
  - rewrite bool_decide_eq_false_2 by by intros []. rewrite Hw. by case_decide; [subst|].
Qed.

Section Spec.
Context `{OtherCommands}.

(** What the four commands do: an error reply, the report of a failed backend write,
    an abort, or a SET. *)
Inductive setOutcome :=
  | SetRefused (r : reply)
  | SetFailed
  | SetAborted (r : reply)
  | SetDone (q : setRequest) (ms : Z).

Definition setOutcomeOf (p : proc) (cl : client) (f : store) : setOutcome :=
  match setRequestOf p (c_argv cl) with
  | None => SetRefused (RError "syntax error")
  | Some q =>
      match expireMs (sr_expire q) (sr_unit q) with
      | None => SetRefused (expireError p (sr_expire q))
      | Some ms =>
          if backend_set_sync_reply cl then SetFailed
          else if setAborts (sr_flags q) (bool_decide (is_Some (f (sr_key q))))
          then SetAborted (default (RNull (c_resp cl)) (sr_abort q))
          else SetDone q ms
      end
  end.

(** C28. SET with any arguments the arity allows, SETNX, SETEX and PSETEX, run by call
    on a master with a well-formed database: a syntax error or an invalid expire
    time is replied and nothing changes; else, when the flag of a failed write is
    set, the reply is null, the flag is cleared and nothing else changes; else the
    command aborts exactly when NX finds the key or XX does not, and then changes
    nothing observable; else the key has the new value and the expire time that the
    options ask for (64-bit arithmetic wraps around), every other key is as before,
    the dirty counter grows by one and the reply is OK, or 1 for SETNX. *)
Theorem set_commands_refine_store (p : proc) (c : clientId) (cl : client) (db : redisDb) (s : server) :
  let g := srv_env s in
  clients s !! c = Some cl → runnable p cl → isSet p = true →
  dbs s !! c_db cl = Some db → db_ok db → masterhost g = false →
  match setOutcomeOf p cl (live g db) with
  | SetRefused r => call c s = Ok (tt, set_clients (<[c := push_reply r cl]> (clients s)) s)
  | SetFailed =>
      call c s =
      Ok (tt, set_clients (<[c := set_set_sync_reply false (push_reply (RNull 2) cl)]> (clients s)) s)
  | SetAborted r =>
      ∃ db', call c s = Ok (tt, afterCommand c cl r (dirty s) (c_db cl) db' s) ∧ obs_eq g db' db
  | SetDone q ms =>
      ∃ db' o, call c s = Ok (tt, afterCommand c cl (default ROk (sr_ok q)) (dirty s + 1) (c_db cl) db' s) ∧
        string_obj o (sr_val q) ∧ ∀ k, live g db' k = abs_setRequest q o g ms (live g db) k
  end.
Proof.
  intros g Hc Hrun Hset Hdb Hok Hm. pose proof (call_set_refused p c cl) as Hrefused.
  unfold setRefusal, setOutcomeOf in *. pose proof Hrun as [Hcmd _].
  destruct (setRequestOf p (c_argv cl)) as [q|] eqn:Hq; [|by apply Hrefused].
  destruct (expireMs (sr_expire q) (sr_unit q)) as [ms|] eqn:Hms; [|by apply Hrefused].
  destruct (call_set_generic p c cl q s) as (o & Ho & ->); [done..|].
  destruct (backend_set_sync_reply cl) eqn:Hflag; [by eapply setGeneric_failed|].
  erewrite setGeneric_run by done. fold g.
  assert (keyExists g (sr_key q) db = bool_decide (is_Some (live g db (sr_key q)))) as <-.
  { unfold keyExists. rewrite purge_dict by (done || by apply db_ok_wf). apply bool_decide_ext, fmap_is_Some. }
  destruct (setAborts _ _).
  - eexists. split; [done|]. by apply live_purge.
  - eexists _, o. split_and!; [done..|]. apply live_setResult; auto using db_ok_wf.
Qed.

(** The reply to a GET that finds [o]. *)
Definition getReply (resp : Z) (o : option robj) (r : reply) : Prop :=
  match o with
  | None => r = RNull resp
  | Some o =>
      if bool_decide (o_type o = OBJ_STRING) then ∃ v, string_obj o v ∧ r = RBulk v
      else r = RError "WRONGTYPE Operation against a key holding the wrong kind of value"
  end.

Lemma getCommand_run c cl k db s :
  clients s !! c = Some cl → c_cmd cl = Some getCommandProc → c_argv cl !! 1%nat = Some k →
  dbs s !! c_db cl = Some db → db_ok db → masterhost (srv_env s) = false →
  ∃ r, getReply (c_resp cl) (fst <$> live (srv_env s) db k) r ∧
    call c s = Ok (tt, afterCommand c cl r (dirty s) (c_db cl) (purge (srv_env s) k db) s).
Proof.
  intros Hc Hcmd Hk Hdb Hok Hm. rewrite (call_run getCommandProc c cl) by done.
  erewrite callQueued_run by done. unfold getCommand, getGenericCommand.
  erewrite bind_run by by apply getClient_run. rewrite (bind_run (gets srv_env) _ s (srv_env s) s) by done.
  erewrite bind_run by by apply argv_run.
  erewrite bind_run; [|eapply withDb_run; [done|by apply lookupKeyRead_run, db_ok_wf]].
  rewrite Hm. cbn [negb orb]. rewrite andb_true_r, read_live. unfold getReply, addReply.
  destruct (live (srv_env s) db k) as [[o e]|] eqn:Hl; cbn [fmap option_fmap option_map fst].
  - case_bool_decide as Ht; cbn [negb]; [|eexists; split; [done|]; by rewrite (updClient_run c cl)].
    apply live_Some in Hl as (_ & Hd & _). destruct (proj2 Hok k o Hd Ht) as [v Hv].
    exists (RBulk v). split; [by exists v|]. erewrite bind_run by by apply replyBytes_run.
    by rewrite (updClient_run c cl).
  - eexists. split; [done|]. by rewrite (updClient_run c cl).
Qed.

(** The keys of the list a client can observe. *)
Definition liveKeys (f : store) (keys : list bytes) : gset bytes :=
  filter (λ k, is_Some (f k)) (list_to_set keys).

Lemma liveKeys_cons f k keys :
  Z.of_nat (size (liveKeys f (k :: keys))) =
  (if bool_decide (is_Some (f k)) then 1 else 0) + Z.of_nat (size (liveKeys (abs_delete k f) keys)).
Proof.
  unfold liveKeys, abs_delete. cbn [list_to_set list_fmap]. case_bool_decide as Hk.
  - assert (filter (λ k', is_Some (f k')) ({[k]} ∪ list_to_set keys : gset bytes) =
      {[k]} ∪ filter (λ k', is_Some (if decide (k' = k) then None else f k')) (list_to_set keys)) as ->.
    { apply set_eq. intros k'. rewrite elem_of_union, !elem_of_filter, elem_of_union, elem_of_singleton.
      destruct (decide (k' = k)) as [->|]; naive_solver. }
    rewrite size_union, size_singleton by (intros k'; rewrite elem_of_singleton, elem_of_filter;
      intros -> [Hs _]; rewrite decide_True in Hs by done; by destruct Hs). lia.
  - rewrite Z.add_0_l. do 2 f_equal. apply set_eq. intros k'.
    rewrite !elem_of_filter, elem_of_union, elem_of_singleton.
    destruct (decide (k' = k)) as [->|]; [|naive_solver]. split; [naive_solver|by intros [[? [=]] _]].
Qed.

(** One key of DEL. *)
Lemma delKey_run {A} i k db (f : bool → M server A) s :
  masterhost (srv_env s) = false → dbs s !! i = Some db → db_ok db →
  (withDb i (expireIfNeeded (srv_env s) k) ;; deleted ← withDb i (dbSyncDelete k); f deleted) s =
  f (bool_decide (is_Some (live (srv_env s) db k)))
    (set_dbs (<[i := remove_key k (purge (srv_env s) k db)]> (dbs s)) s).
Proof.
  intros Hm Hdb Hok. erewrite bind_run; [|eapply withDb_run; [done|by apply expireIfNeeded_run, db_ok_wf]].
  erewrite bind_run; [|eapply withDb_run; [by eapply list_lookup_insert_eq, lookup_lt_Some|apply dbSyncDelete_run]].
  rewrite purge_dict by (done || by apply db_ok_wf). cbn [dbs set_dbs]. rewrite list_insert_insert_eq.
  f_equal. apply bool_decide_ext, fmap_is_Some.
Qed.

(** The loop of DEL. *)
Lemma delKeys_run i keys : ∀ n db s,
  masterhost (srv_env s) = false → dbs s !! i = Some db → db_ok db →
  ∃ db', let m := Z.of_nat (size (liveKeys (live (srv_env s) db) keys)) in
    delKeys i keys n s = Ok (n + m, set_dirty (dirty s + m) (set_dbs (<[i := db']> (dbs s)) s)) ∧
    ∀ k, live (srv_env s) db' k = if decide (k ∈ keys) then None else live (srv_env s) db k.
Proof.
  induction keys as [|k keys IH]; intros n db s Hm Hdb Hok.
  { exists db. split; [|by intros k; rewrite decide_False by apply not_elem_of_nil].
    rewrite set_dbs_id by done. cbn. rewrite !Z.add_0_r. by destruct s. }
  set (g := srv_env s). set (db1 := remove_key k (purge g k db)).
  assert (∀ k', live g db1 k' = abs_delete k (live g db) k') as Hlive.
  { intros k'. unfold db1. rewrite live_remove_key. unfold abs_delete. by rewrite live_purge. }
  assert (db_ok db1) as Hok1 by by apply db_ok_remove_key, db_ok_purge.
  set (b := bool_decide (is_Some (live g db k))).
  set (s1 := set_dirty (dirty s + if b then 1 else 0) (set_dbs (<[i := db1]> (dbs s)) s)).
  destruct (IH (n + if b then 1 else 0) db1 s1) as (db' & Hrun & Hlive'); [done| |done|].
  { by eapply list_lookup_insert_eq, lookup_lt_Some. }
  exists db'. split.
  - cbn [delKeys]. rewrite (bind_run (gets srv_env) _ s g s) by done.
    etrans; [by apply (delKey_run i k db (λ deleted : bool,
      if deleted then incrDirty ;; delKeys i keys (n + 1) else delKeys i keys n))|].
    fold g db1 b. rewrite liveKeys_cons. fold b.
    assert (liveKeys (abs_delete k (live g db)) keys = liveKeys (live g db1) keys) as ->.
    { apply set_eq. intros k'. unfold liveKeys. by rewrite !elem_of_filter, Hlive. }
    cbn [s1 dirty set_dirty set_dbs dbs] in Hrun. rewrite list_insert_insert_eq in Hrun.
    rewrite !Z.add_assoc. destruct b; [exact Hrun|].
    assert (s1 = set_dbs (<[i := db1]> (dbs s)) s) as Hs1.
    { unfold s1. rewrite Z.add_0_r. by destruct s. }
    rewrite <-Hs1. rewrite Z.add_0_r in Hrun at 1. exact Hrun.
  - intros k'. rewrite Hlive', Hlive. unfold abs_delete.
    destruct (decide (k' = k)), (decide (k' ∈ keys)), (decide (k' ∈ k :: keys)); set_solver.
Qed.

(** DEL replies the number of distinct observable keys among its arguments, removes
    exactly those, and adds that number to the dirty counter; repeated, missing and
    expired keys do not count. *)
Theorem del_run (c : clientId) (cl : client) (db : redisDb) (s : server) :
  clients s !! c = Some cl → c_cmd cl = Some delCommandProc → backend_del_sync_reply cl = false →
  dbs s !! c_db cl = Some db → db_ok db → masterhost (srv_env s) = false →
  ∃ db', let n := Z.of_nat (size (liveKeys (live (srv_env s) db) (drop 1 (c_argv cl)))) in
    call c s = Ok (tt, afterCommand c cl (RInt n) (dirty s + n) (c_db cl) db' s) ∧
    ∀ k, live (srv_env s) db' k =
         if decide (k ∈ drop 1 (c_argv cl)) then None else live (srv_env s) db k.
Proof.
  intros Hc Hcmd Hflag Hdb Hok Hm.
  destruct (delKeys_run (c_db cl) (drop 1 (c_argv cl)) 0 db s) as (db' & Hrun & Hlive); [done..|].
  exists db'. split; [|done]. rewrite (call_run delCommandProc c cl) by done.
  erewrite callQueued_run by done. unfold delCommand, delGenericCommand.
  erewrite bind_run by by apply getClient_run. rewrite Hflag. erewrite bind_run by exact Hrun.
  unfold addReply. by rewrite (updClient_run c cl).
Qed.

End Spec.

(** ** Witnesses *)

Lemma noOther_wf (db : redisDb) :
  ks_wf (dict db) (expires db) →
  match (mret ([], 0) : M redisDb (list reply * Z)) db with
  | Ok (_, db') => same_backend db db' ∧ ks_wf (dict db') (expires db')
  | Fault _ => False
  end.
Proof. done. Qed.

(** No other command than the modelled ones. *)
Definition noOther : OtherCommands :=
  {| other_lookup := λ _, None; other_arity := λ _, 0;
     other_flags := λ _, mkFlags false false false false false false false;
     other_call := λ _ _ _ _, mret ([], 0); other_fault := λ _, False;
     other_wf := λ _ _ _ _ db _, noOther_wf db |}.

(** A database with a key that expires at 5000. *)
Definition stringDb : redisDb :=
  mkDb {[ B "k" := createStringObject (B "old") ]} {[ B "k" := 5000 ]} ∅ ∅ ∅.

(** One client with a command, that database. *)
Definition stringServer (p : proc) (a : list bytes) : server :=
  mkServer (mkEnv false false 1000) openGuards
    (mkConfig 0 (mkPtr 0 []) None None None false false false 0)
    [stringDb]
    {[ 1%nat := set_cmd (Some p) a (createClient true) ]}
    (mkGetJob (-1) None None None) (mkSetJob (-1) None None None 0 0) (mkDelJob (-1) None None 0) 0 0.

Lemma stringDb_ok : db_ok stringDb.
Proof.
  unfold stringDb. split; cbn [dict expires].
  - intros k [w [<- _]%lookup_singleton_Some]. exists (createStringObject (B "old")).
    apply lookup_singleton_eq.
  - intros k o [_ <-]%lookup_singleton_Some _.
    eexists. apply createStringObject_string.
Qed.

Lemma set_commands_refine_store_witness :
  ∃ db' o, @call noOther 1%nat (stringServer setCommandProc [B "SET"; B "k"; B "12"; B "PX"; B "77"]) =
    Ok (tt, afterCommand 1 (set_cmd (Some setCommandProc) [B "SET"; B "k"; B "12"; B "PX"; B "77"] (createClient true))
              ROk 1 0 db' (stringServer setCommandProc [B "SET"; B "k"; B "12"; B "PX"; B "77"])) ∧
    string_obj o (B "12") ∧ live (mkEnv false false 1000) db' (B "k") = Some (o, Some 1077).
Proof.
  pose proof (@set_commands_refine_store noOther setCommandProc 1%nat
    (set_cmd (Some setCommandProc) [B "SET"; B "k"; B "12"; B "PX"; B "77"] (createClient true)) stringDb
    (stringServer setCommandProc [B "SET"; B "k"; B "12"; B "PX"; B "77"])) as Hset.
  destruct Hset as (db' & o & Hcall & Ho & Hlive).
  - reflexivity.
  - split; vm_compute; reflexivity.
  - reflexivity.
  - reflexivity.
  - exact stringDb_ok.
  - reflexivity.
  - exists db', o. split; [exact Hcall|]. split; [exact Ho|]. rewrite Hlive. vm_compute. reflexivity.
Defined.
