(* ===== verification/Command.v ===== *)
(** * Command: running a command on the database of its client

    The commands that the cache-through code does not intercept read and write
    the database their client has selected, reply, and count their changes for
    the dirty counter.  [cmdState] is what such a command can reach; the helpers
    of src/src/db.c and src/src/object.c they share ([checkType],
    [lookupKeyReadOrReply], [getLongLongFromObjectOrReply],
    [dbUnshareStringValue]) run on it.

    [seen] is the keyspace as commands see it on a master and on a replica: a
    master never sees a key that has timed out, a replica keeps it until its
    master deletes it.  [runs] says that a command has reached a database that
    stands for a given abstract store, and the rules below move through the
    database functions one at a time. *)

From Stdlib Require Import Ascii String ZifyBool.
From stdpp Require Import base tactics option list strings numbers gmap fin_maps.
From S2P Require Import Prelude Util Object Db Server TString StringProps.

Local Open Scope Z_scope.

(** ** The state of a command *)

Record cmdState := mkCmd {
  cs_db : redisDb;          (* *c->db *)
  cs_out : list reply;      (* the replies, oldest first *)
  cs_dirty : Z }.           (* what the command adds to server.dirty *)

Definition onDb {A} (m : M redisDb A) : M cmdState A := λ s,
  match m (cs_db s) with
  | Ok (a, db) => Ok (a, mkCmd db (cs_out s) (cs_dirty s))
  | Fault f => Fault f
  end.

(** [addReply] and its variants. *)
Definition emit (r : reply) : M cmdState unit :=
  modify (λ s, mkCmd (cs_db s) (cs_out s ++ [r]) (cs_dirty s)).

(** [server.dirty += n]. *)
Definition addDirty (n : Z) : M cmdState unit :=
  modify (λ s, mkCmd (cs_db s) (cs_out s) (cs_dirty s + n)).

(** [c->argv[i]->ptr]. *)
Definition arg (args : list bytes) (i : nat) : M cmdState bytes := deref (args !! i) "c->argv".

(** A command as the dispatch runs it. *)
Definition runCommand (m : M cmdState unit) : M redisDb (list reply * Z) := λ db,
  match m (mkCmd db [] 0) with
  | Ok (_, s) => Ok ((cs_out s, cs_dirty s), cs_db s)
  | Fault f => Fault f
  end.

(** ** Shared helpers *)

Definition wrongtypeerr : reply :=
  RError "WRONGTYPE Operation against a key holding the wrong kind of value".

Definition checkType (o : robj) (type : objType) : M cmdState bool :=
  if negb (bool_decide (o_type o = type)) then emit wrongtypeerr ;; mret true else mret false.

Definition getLongLongFromObjectOrReply (o : option robj) : M cmdState (option Z) :=
  v ← getLongLongFromObject o;
  match v with
  | None => emit (RError "value is not an integer or out of range") ;; mret None
  | Some v => mret (Some v)
  end.

(** [long] is as wide as [long long], so the range test never fails. *)
Definition getLongFromObjectOrReply (o : option robj) : M cmdState (option Z) :=
  v ← getLongLongFromObjectOrReply o;
  match v with
  | None => mret None
  | Some v =>
      if (v <? LLONG_MIN) || (LLONG_MAX <? v) then
        emit (RError "value is out of range") ;; mret None
      else mret (Some v)
  end.

(** The sds [getDecodedObject] gives. *)
Definition getDecodedObject {S} (o : robj) : M S bytes :=
  if sdsEncodedObject o then ptrSds o "getDecodedObject"
  else if bool_decide (o_type o = OBJ_STRING) && bool_decide (o_encoding o = OBJ_ENCODING_INT) then
    n ← ptrLong o "getDecodedObject"; mret (ll2buf 32 n)
  else fail (AssertFailed "getDecodedObject: unknown encoding type").

(** Assigning a field of the object the main dictionary holds at [key]. *)
Definition storeObj (key : bytes) (o : robj) : M redisDb unit :=
  modify (λ db, with_keyspace (<[key := o]> (dict db)) (expires db) db).

Section Helpers.
Context (g : genv) (ro : bool).

Definition lookupKeyReadOrReply (key : bytes) (r : reply) : M cmdState (option robj) :=
  o ← onDb (lookupKeyRead g ro key);
  match o with
  | None => emit r ;; mret None
  | Some o => mret (Some o)
  end.

Definition lookupKeyWriteOrReply (key : bytes) (r : reply) : M cmdState (option robj) :=
  o ← onDb (lookupKeyWrite g key);
  match o with
  | None => emit r ;; mret None
  | Some o => mret (Some o)
  end.

(** [refcount]: the reference count of [o], which the model of an object does not
    have. *)
Definition dbUnshareStringValue (refcount : Z) (key : bytes) (o : robj) : M redisDb robj :=
  serverAssert (bool_decide (o_type o = OBJ_STRING)) "dbUnshareStringValue" ;;
  if negb (refcount =? 1) || negb (bool_decide (o_encoding o = OBJ_ENCODING_RAW)) then
    decoded ← getDecodedObject o;
    let o := createRawStringObject decoded in
    dbOverwrite key o ;; mret o
  else mret o.

End Helpers.

(** ** The keyspace as commands see it *)

Inductive aval :=
  | AStr (b : bytes)     (* a string *)
  | AObj (o : robj).     (* an object of another type *)

Definition astore : Type := bytes → option (aval * option Z).

Definition objBytes (o : robj) : bytes :=
  match o_ptr o with PtrSds s => s | PtrLong n => decimal n | PtrData _ => [] end.

Definition viewObj (o : robj) : aval :=
  if bool_decide (o_type o = OBJ_STRING) then AStr (objBytes o) else AObj o.

(** The expire time [e] has passed. *)
Definition timedOut (g : genv) (e : option Z) : bool :=
  match e with
  | Some w => negb (w <? 0) && negb (loading g) && (w <? mstime g)
  | None => false
  end.

Definition seen (g : genv) (db : redisDb) : astore := λ k,
  if timedOut g (expires db !! k) && negb (masterhost g) then None
  else (λ o, (viewObj o, expires db !! k)) <$> dict db !! k.

(** What a lookup for reading finds: a read-only command does not see a key that has
    timed out, on a replica either. *)
Definition readable (g : genv) (ro : bool) (x : option (aval * option Z)) : option (aval * option Z) :=
  match x with
  | Some (v, e) => if timedOut g e && (negb (masterhost g) || ro) then None else Some (v, e)
  | None => None
  end.

Definition aset (k : bytes) (v : aval) (e : option Z) (f : astore) : astore :=
  λ k', if decide (k' = k) then Some (v, e) else f k'.

Definition adel (k : bytes) (f : astore) : astore :=
  λ k', if decide (k' = k) then None else f k'.

(** [s] is reached with a database that stands for [f], after the replies [out] and
    [n] changes. *)
Record runs (g : genv) (db0 : redisDb) (f : astore) (out : list reply) (n : Z) (s : cmdState) : Prop := {
  run_ok : db_ok (cs_db s);
  run_backend : same_backend db0 (cs_db s);
  run_seen : ∀ k, seen g (cs_db s) k = f k;
  run_out : cs_out s = out;
  run_dirty : cs_dirty s = n }.

(** The database of [s] has [o] at [k], and [k] has not timed out on a master. *)
Definition holds (g : genv) (k : bytes) (o : option robj) (s : cmdState) : Prop :=
  dict (cs_db s) !! k = o ∧ timedOut g (expires (cs_db s) !! k) && negb (masterhost g) = false.

(** The object is in one of the string encodings when it is a string. *)
Definition objOk (o : robj) : Prop := o_type o = OBJ_STRING → ∃ b, string_obj o b.

Lemma string_obj_objBytes o b : string_obj o b → objBytes o = b.
Proof. by destruct 1. Qed.

Lemma string_obj_view o b : string_obj o b → viewObj o = AStr b.
Proof. by destruct 1. Qed.

Lemma string_obj_ok o b : string_obj o b → objOk o.
Proof. by exists b. Qed.

Lemma viewObj_str o b : objOk o → viewObj o = AStr b → string_obj o b.
Proof.
  unfold viewObj. case_bool_decide as Ht; [|done]. intros Ho [= <-]. destruct (Ho Ht) as [b Hb].
  by rewrite (string_obj_objBytes o b).
Qed.

Lemma viewObj_obj o o' : viewObj o = AObj o' → o_type o ≠ OBJ_STRING ∧ o' = o.
Proof. unfold viewObj. case_bool_decide; [done|]. by intros [= <-]. Qed.

#[export] Hint Resolve string_obj_ok : core.

Section Rules.
Context (g : genv) (db0 : redisDb) (E : fault → Prop).
Implicit Types (f : astore) (s : cmdState).

Lemma wp_onDb {A} (m : M redisDb A) (Q : A → cmdState → Prop) s a db :
  m (cs_db s) = Ok (a, db) → Q a (mkCmd db (cs_out s) (cs_dirty s)) → wp E (onDb m) Q s.
Proof. unfold wp, onDb. by intros ->. Qed.

Lemma wp_onDb_read {A} (m : M redisDb A) (Q : A → cmdState → Prop) s a :
  m (cs_db s) = Ok (a, cs_db s) → Q a s → wp E (onDb m) Q s.
Proof. intros Hm HQ. eapply wp_onDb; [done|]. by destruct s. Qed.

Lemma wp_arg args i b (Q : bytes → cmdState → Prop) s :
  args !! i = Some b → Q b s → wp E (arg args i) Q s.
Proof. apply wp_deref. Qed.

Lemma wp_emit r f out n (Q : unit → cmdState → Prop) s :
  runs g db0 f out n s →
  (∀ s', cs_db s' = cs_db s → runs g db0 f (out ++ [r]) n s' → Q tt s') → wp E (emit r) Q s.
Proof. intros [? ? ? <- ?] HQ. apply wp_modify, HQ; done. Qed.

Lemma wp_addDirty d f out n (Q : unit → cmdState → Prop) s :
  runs g db0 f out n s →
  (∀ s', cs_db s' = cs_db s → runs g db0 f out (n + d) s' → Q tt s') → wp E (addDirty d) Q s.
Proof. intros [? ? ? ? <-] HQ. apply wp_modify, HQ; done. Qed.

Lemma runs_string f out n s k o :
  runs g db0 f out n s → dict (cs_db s) !! k = Some o → objOk o.
Proof. intros Hs Hk Ht. exact (proj2 (run_ok _ _ _ _ _ _ Hs) k o Hk Ht). Qed.

Lemma runs_holds f out n s k o :
  runs g db0 f out n s → holds g k o s →
  f k = (λ o, (viewObj o, expires (cs_db s) !! k)) <$> o.
Proof. intros [_ _ Hf _ _] [<- He]. rewrite <-Hf. unfold seen. by rewrite He. Qed.

Lemma seen_purge k db : db_ok db → ∀ k', seen g (purge g k db) k' = seen g db k'.
Proof.
  intros Hok k'. unfold purge. destruct (expired_at g db k && negb (masterhost g)) eqn:He; [|done].
  unfold seen, remove_key. cbn. destruct (decide (k' = k)) as [->|].
  - rewrite !lookup_delete_eq. cbn. unfold expired_at in He. unfold timedOut. by rewrite He.
  - by rewrite !lookup_delete_ne.
Qed.

Lemma purge_current k db : timedOut g (expires (purge g k db) !! k) && negb (masterhost g) = false.
Proof.
  unfold purge. destruct (expired_at g db k && negb (masterhost g)) eqn:He; [|done].
  unfold remove_key. cbn. by rewrite lookup_delete_eq.
Qed.

Lemma runs_purge k f out n s : runs g db0 f out n s →
  runs g db0 f out n (mkCmd (purge g k (cs_db s)) (cs_out s) (cs_dirty s)).
Proof.
  intros [Hok Hb Hf ? ?]. split; cbn; [by apply db_ok_purge| |intros; by rewrite seen_purge|done..].
  eapply same_backend_trans; [done|apply same_backend_purge].
Qed.

Lemma wp_lookupKeyWrite k f out n (Q : option robj → cmdState → Prop) s :
  runs g db0 f out n s →
  (∀ o s', runs g db0 f out n s' → holds g k o s' → Q o s') →
  wp E (onDb (lookupKeyWrite g k)) Q s.
Proof.
  intros Hs HQ. eapply wp_onDb; [by apply lookupKeyWrite_run, db_ok_wf, Hs|].
  apply HQ; [by apply runs_purge|]. split; [done|apply purge_current].
Qed.

(** The same, with what is known of another key. *)
Lemma wp_lookupKeyWrite_other k k1 o1 f out n (Q : option robj → cmdState → Prop) s :
  runs g db0 f out n s → k1 ≠ k → holds g k1 o1 s →
  (∀ o s', runs g db0 f out n s' → holds g k o s' → holds g k1 o1 s' →
           expires (cs_db s') !! k1 = expires (cs_db s) !! k1 → Q o s') →
  wp E (onDb (lookupKeyWrite g k)) Q s.
Proof.
  intros Hs Hne [Hd He] HQ. eapply wp_onDb; [by apply lookupKeyWrite_run, db_ok_wf, Hs|].
  assert (dict (purge g k (cs_db s)) !! k1 = dict (cs_db s) !! k1 ∧
          expires (purge g k (cs_db s)) !! k1 = expires (cs_db s) !! k1) as [Hd1 He1].
  { unfold purge, remove_key. case_match; [|done]. cbn. by rewrite !lookup_delete_ne. }
  apply HQ; [by apply runs_purge|split; [done|apply purge_current]|split; cbn|done].
  - by rewrite Hd1.
  - by rewrite He1.
Qed.

(** A lookup for reading; the database it leaves still has the object it found. *)
Lemma wp_lookupKeyRead ro k f out n (Q : option robj → cmdState → Prop) s :
  runs g db0 f out n s →
  (∀ o s', runs g db0 f out n s' →
     readable g ro (f k) = (λ o, (viewObj o, expires (cs_db s') !! k)) <$> o →
     (∀ o', o = Some o' → dict (cs_db s') !! k = Some o') → Q o s') →
  wp E (onDb (lookupKeyRead g ro k)) Q s.
Proof.
  intros Hs HQ. eapply wp_onDb; [by apply lookupKeyRead_run, db_ok_wf, Hs|].
  apply HQ; [by apply runs_purge|..]; cbn [cs_db].
  - rewrite <-(run_seen _ _ _ _ _ _ Hs k). unfold seen, readable, purge.
    change (expired_at g (cs_db s) k) with (timedOut g (expires (cs_db s) !! k)).
    destruct (timedOut g (expires (cs_db s) !! k)) eqn:He, (masterhost g), ro;
      cbn; rewrite ?He; cbn; destruct (dict (cs_db s) !! k) eqn:Hd; cbn; rewrite ?He; done.
  - unfold purge. intros o'. destruct (expired_at g (cs_db s) k), (masterhost g), ro; done.
Qed.

(** *** Writes *)

(** The store after putting [o] at [k] and leaving the expires alone. *)
Lemma seen_set_obj k o db :
  timedOut g (expires db !! k) && negb (masterhost g) = false →
  ∀ k', seen g (with_keyspace (<[k := o]> (dict db)) (expires db) db) k' =
        aset k (viewObj o) (expires db !! k) (seen g db) k'.
Proof.
  intros He k'. unfold seen, aset. cbn. case_decide as Hk; [subst|by rewrite lookup_insert_ne].
  by rewrite He, lookup_insert_eq.
Qed.

Lemma db_ok_set_obj k o db :
  objOk o → db_ok db → db_ok (with_keyspace (<[k := o]> (dict db)) (expires db) db).
Proof.
  intros Ho [Hwf Hs]. split; cbn.
  - intros k' Hk'. destruct (decide (k' = k)) as [->|]; [rewrite lookup_insert_eq; by eexists|].
    rewrite lookup_insert_ne by done. by apply Hwf.
  - intros k' o'. rewrite lookup_insert_Some. intros [[<- <-]|[_ ?]]; [done|by eapply Hs].
Qed.

Lemma runs_set_obj k o o0 f out n s :
  runs g db0 f out n s → holds g k o0 s → objOk o →
  runs g db0 (aset k (viewObj o) (expires (cs_db s) !! k) f) out n
    (mkCmd (with_keyspace (<[k := o]> (dict (cs_db s))) (expires (cs_db s)) (cs_db s))
           (cs_out s) (cs_dirty s)).
Proof.
  intros [Hok Hb Hf ? ?] [_ He] Ho. split; cbn; [by apply db_ok_set_obj|done| |done..].
  intros k'. rewrite seen_set_obj by done. unfold aset. by rewrite Hf.
Qed.

Lemma runs_fresh_expire k f out n s :
  runs g db0 f out n s → dict (cs_db s) !! k = None → expires (cs_db s) !! k = None.
Proof.
  intros Hs Hk. destruct (expires (cs_db s) !! k) eqn:He; [|done].
  destruct (proj1 (run_ok _ _ _ _ _ _ Hs) k) as [? ?]; [by rewrite He|congruence].
Qed.

Lemma wp_dbAdd k o f out n (Q : unit → cmdState → Prop) s :
  runs g db0 f out n s → holds g k None s → objOk o →
  (∀ s', runs g db0 (aset k (viewObj o) None f) out n s' → holds g k (Some o) s' →
         expires (cs_db s') = expires (cs_db s) → Q tt s') →
  wp E (onDb (dbAdd k o)) Q s.
Proof.
  intros Hs [Hk He] Ho HQ. eapply wp_onDb.
  { unfold dbAdd. cbv [mbind M_bind get]. by rewrite serverAssert_run by by apply bool_decide_eq_true. }
  pose proof (runs_fresh_expire k f out n s Hs Hk) as Hn. apply HQ; [|split|done].
  - rewrite <-Hn. by apply (runs_set_obj k o None).
  - cbn. by rewrite lookup_insert_eq.
  - done.
Qed.

Lemma wp_dbOverwrite k o o0 f out n (Q : unit → cmdState → Prop) s :
  runs g db0 f out n s → holds g k (Some o0) s → objOk o →
  (∀ s', runs g db0 (aset k (viewObj o) (expires (cs_db s) !! k) f) out n s' →
         holds g k (Some o) s' → expires (cs_db s') = expires (cs_db s) → Q tt s') →
  wp E (onDb (dbOverwrite k o)) Q s.
Proof.
  intros Hs [Hk He] Ho HQ. eapply wp_onDb.
  { unfold dbOverwrite. cbv [mbind M_bind get].
    by rewrite serverAssert_run by (apply bool_decide_eq_true; rewrite Hk; by eexists). }
  apply HQ; [by apply (runs_set_obj k o (Some o0))|split|done]; cbn; [by rewrite lookup_insert_eq|done].
Qed.

Lemma wp_storeObj k o o0 f out n (Q : unit → cmdState → Prop) s :
  runs g db0 f out n s → holds g k (Some o0) s → objOk o →
  (∀ s', runs g db0 (aset k (viewObj o) (expires (cs_db s) !! k) f) out n s' →
         holds g k (Some o) s' → expires (cs_db s') = expires (cs_db s) → Q tt s') →
  wp E (onDb (storeObj k o)) Q s.
Proof.
  intros Hs [Hk He] Ho HQ. eapply wp_onDb; [done|].
  apply HQ; [by apply (runs_set_obj k o (Some o0))|split|done]; cbn; [by rewrite lookup_insert_eq|done].
Qed.

(** [setKey]: the new value, without an expire. *)
Lemma wp_setKey k o f out n (Q : unit → cmdState → Prop) s :
  runs g db0 f out n s → objOk o →
  (∀ s', runs g db0 (aset k (viewObj o) None f) out n s' → Q tt s') →
  wp E (onDb (Db.setKey g k o)) Q s.
Proof.
  intros Hs Ho HQ. pose proof (run_ok _ _ _ _ _ _ Hs) as Hok.
  eapply wp_onDb; [by apply genericSetKey_run, db_ok_wf|]. apply HQ.
  apply (runs_purge k) in Hs as [Hokp Hb Hf ? ?]. cbn in *. split; cbn; [|done| |done..].
  - split; [by apply (db_wf_write_key g k o false), db_ok_wf|]. unfold write_key. cbn.
    intros k' o'. rewrite lookup_insert_Some. intros [[<- <-]|[_ ?]]; [done|by eapply Hokp].
  - intros k'. unfold write_key, seen, aset. cbn. case_decide as Hk.
    + subst. by rewrite lookup_delete_eq, lookup_insert_eq.
    + rewrite lookup_delete_ne, lookup_insert_ne by done. apply Hf.
Qed.

Lemma wp_setExpire k o w f out n (Q : unit → cmdState → Prop) s :
  runs g db0 f out n s → holds g k (Some o) s →
  (∀ s', runs g db0 (if timedOut g (Some w) && negb (masterhost g) then adel k f
                     else aset k (viewObj o) (Some w) f) out n s' → Q tt s') →
  wp E (onDb (setExpire k w)) Q s.
Proof.
  intros Hs [Hk He] HQ. assert (is_Some (dict (cs_db s) !! k)) as Hk' by by eexists.
  eapply wp_onDb; [by apply setExpire_run|]. apply HQ. destruct Hs as [Hok Hb Hf ? ?].
  split; cbn [cs_db cs_out cs_dirty]; [by apply db_ok_write_expire|done| |done..].
  intros k'. unfold write_expire, seen. cbn [dict expires with_keyspace]. destruct (decide (k' = k)) as [->|Hne].
  - rewrite lookup_insert_eq, Hk. destruct (timedOut g (Some w) && negb (masterhost g));
      unfold adel, aset; by destruct (decide (k = k)).
  - rewrite lookup_insert_ne by done. fold (seen g (cs_db s) k'). rewrite Hf.
    destruct (timedOut g (Some w) && negb (masterhost g)); unfold adel, aset; by rewrite decide_False.
Qed.

Lemma wp_removeExpire k o f out n (Q : bool → cmdState → Prop) s :
  runs g db0 f out n s → holds g k (Some o) s →
  (∀ s', runs g db0 (aset k (viewObj o) None f) out n s' →
         Q (bool_decide (is_Some (expires (cs_db s) !! k))) s') →
  wp E (onDb (removeExpire k)) Q s.
Proof.
  intros [Hok Hb Hf ? ?] [Hk He] HQ. eapply wp_onDb.
  { unfold removeExpire. cbv [mbind M_bind get].
    by rewrite serverAssert_run by (apply bool_decide_eq_true; rewrite Hk; by eexists). }
  apply HQ. split; cbn; [|done| |done..].
  - destruct Hok as [Hwf Hs]. split; cbn; [|done]. intros k' [w [_ Hw]%lookup_delete_Some]. apply Hwf. by exists w.
  - intros k'. unfold seen, aset. cbn. case_decide as Hne; [subst|].
    + by rewrite lookup_delete_eq, Hk.
    + rewrite lookup_delete_ne by done. apply Hf.
Qed.

Lemma wp_getExpire k f out n (Q : Z → cmdState → Prop) s :
  runs g db0 f out n s → Q (default (-1) (expires (cs_db s) !! k)) s → wp E (onDb (getExpire k)) Q s.
Proof.
  intros Hs HQ. eapply wp_onDb_read; [|exact HQ]. unfold getExpire. cbv [mbind M_bind get].
  case_bool_decide as Hsz; [by rewrite (size_zero_lookup _ _ Hsz)|].
  destruct (expires (cs_db s) !! k) as [w|] eqn:Hw; [|done].
  rewrite serverAssert_run; [done|]. apply bool_decide_eq_true, (proj1 (run_ok _ _ _ _ _ _ Hs)). by exists w.
Qed.

Lemma wp_dbSyncDelete k o f out n (Q : bool → cmdState → Prop) s :
  runs g db0 f out n s → holds g k o s →
  (∀ s', runs g db0 (adel k f) out n s' → holds g k None s' →
         (∀ k', k' ≠ k → dict (cs_db s') !! k' = dict (cs_db s) !! k' ∧
                         expires (cs_db s') !! k' = expires (cs_db s) !! k') →
         Q (bool_decide (is_Some o)) s') →
  wp E (onDb (dbSyncDelete k)) Q s.
Proof.
  intros [Hok Hb Hf ? ?] [Hk He] HQ. eapply wp_onDb; [apply dbSyncDelete_run|]. rewrite Hk. apply HQ.
  - split; cbn; [by apply db_ok_remove_key|done| |done..].
    intros k'. unfold remove_key, seen, adel. cbn. case_decide as Hne.
    + subst. by rewrite !lookup_delete_eq.
    + rewrite !lookup_delete_ne by done. apply Hf.
  - split; cbn; by rewrite lookup_delete_eq.
  - intros k' Hne. cbn. by rewrite !lookup_delete_ne by done.
Qed.

Lemma wp_dbSyncDelete_any k f out n (Q : bool → cmdState → Prop) s :
  runs g db0 f out n s →
  (∀ b s', runs g db0 (adel k f) out n s' → holds g k None s' → Q b s') →
  wp E (onDb (dbSyncDelete k)) Q s.
Proof.
  intros Hs HQ. destruct Hs as [Hok Hb Hf ? ?]. eapply wp_onDb; [apply dbSyncDelete_run|]. apply HQ.
  - split; cbn; [by apply db_ok_remove_key|done| |done..].
    intros k'. unfold remove_key, seen, adel. cbn. case_decide as Hne.
    + subst. by rewrite !lookup_delete_eq.
    + rewrite !lookup_delete_ne by done. apply Hf.
  - split; cbn; by rewrite lookup_delete_eq.
Qed.

(** *** Helpers *)

Lemma wp_checkType o t f out n (Q : bool → cmdState → Prop) s :
  runs g db0 f out n s →
  (o_type o = t → Q false s) →
  (∀ s', o_type o ≠ t → runs g db0 f (out ++ [wrongtypeerr]) n s' → Q true s') →
  wp E (checkType o t) Q s.
Proof.
  intros Hs HQ HQ'. unfold checkType. case_bool_decide as Ht; cbn [negb]; [by apply wp_ret, HQ|].
  wp_step. eapply wp_emit; [done|]. intros s' _ Hs'. apply wp_ret. by apply HQ'.
Qed.

(** The integer of an argument, or the error. *)
Lemma wp_getLongLong b o f out n (Q : option Z → cmdState → Prop) s :
  runs g db0 f out n s → string_obj o b →
  (∀ v, string2ll b = Some v → LLONG_MIN ≤ v ≤ LLONG_MAX → Q (Some v) s) →
  (∀ s', string2ll b = None →
         runs g db0 f (out ++ [RError "value is not an integer or out of range"]) n s' → Q None s') →
  wp E (getLongLongFromObjectOrReply (Some o)) Q s.
Proof.
  intros Hs Ho HQ HQ'. unfold getLongLongFromObjectOrReply. wp_step.
  eapply wp_run_ok; [by apply getLongLongFromObject_run|]. destruct (string2ll b) as [v|] eqn:Hb.
  - apply wp_ret, HQ; [done|]. by apply string2ll_decimal in Hb as [? _].
  - wp_step. eapply wp_emit; [done|]. intros s' _ Hs'. apply wp_ret. by apply HQ'.
Qed.

Lemma wp_getLong b o f out n (Q : option Z → cmdState → Prop) s :
  runs g db0 f out n s → string_obj o b →
  (∀ v, string2ll b = Some v → LLONG_MIN ≤ v ≤ LLONG_MAX → Q (Some v) s) →
  (∀ s', string2ll b = None →
         runs g db0 f (out ++ [RError "value is not an integer or out of range"]) n s' → Q None s') →
  wp E (getLongFromObjectOrReply (Some o)) Q s.
Proof.
  intros Hs Ho HQ HQ'. unfold getLongFromObjectOrReply. wp_step. eapply wp_getLongLong; [done..| |].
  - intros v Hv Hr. rewrite (proj2 (Z.ltb_ge v LLONG_MIN)), (proj2 (Z.ltb_ge LLONG_MAX v)) by lia.
    by apply wp_ret, HQ.
  - intros s' Hb Hs'. by apply wp_ret, HQ'.
Qed.

Lemma wp_lookupKeyReadOrReply ro k r f out n (Q : option robj → cmdState → Prop) s :
  runs g db0 f out n s →
  (∀ s', readable g ro (f k) = None → runs g db0 f (out ++ [r]) n s' → Q None s') →
  (∀ o e s', readable g ro (f k) = Some (viewObj o, e) → objOk o → runs g db0 f out n s' →
             Q (Some o) s') →
  wp E (lookupKeyReadOrReply g ro k r) Q s.
Proof.
  intros Hs HQ HQ'. unfold lookupKeyReadOrReply. wp_step. eapply wp_lookupKeyRead; [done|].
  intros [o|] s' Hs' Hr Hd.
  - apply wp_ret. eapply HQ'; [exact Hr| |done]. eapply (runs_string f out n s' k); [done|by apply Hd].
  - wp_step. eapply wp_emit; [done|]. intros s'' _ Hs''. apply wp_ret. by apply HQ.
Qed.

Lemma wp_lookupKeyWriteOrReply k r f out n (Q : option robj → cmdState → Prop) s :
  runs g db0 f out n s →
  (∀ s', f k = None → runs g db0 f (out ++ [r]) n s' → Q None s') →
  (∀ o s', objOk o → runs g db0 f out n s' → holds g k (Some o) s' → Q (Some o) s') →
  wp E (lookupKeyWriteOrReply g k r) Q s.
Proof.
  intros Hs HQ HQ'. unfold lookupKeyWriteOrReply. wp_step. eapply wp_lookupKeyWrite; [done|].
  intros [o|] s' Hs' Hd.
  - apply wp_ret, HQ'; [|done..]. eapply (runs_string f out n s' k); [done|apply Hd].
  - wp_step. eapply wp_emit; [done|]. intros s'' _ Hs''. apply wp_ret. apply HQ; [|done].
    by rewrite (runs_holds f out n s' k None).
Qed.

Lemma runs_ext f f' out n s : (∀ k, f k = f' k) → runs g db0 f out n s → runs g db0 f' out n s.
Proof. intros Hf [? ? Hs ? ?]. split; [done..| |done|done]. intros k. by rewrite Hs. Qed.

Lemma getDecodedObject_run {S} o b (σ : S) : string_obj o b → getDecodedObject o σ = Ok (b, σ).
Proof. destruct 1 as [b|b|v Hv]; [done..|]. by rewrite <-(ll2buf_decimal 32) by (done || lia). Qed.

(** The object is unshared: a raw string with the same bytes. *)
Lemma wp_dbUnshareStringValue rc k o b f out n (Q : robj → cmdState → Prop) s :
  runs g db0 f out n s → holds g k (Some o) s → string_obj o b →
  (∀ s', runs g db0 f out n s' → holds g k (Some (createRawStringObject b)) s' →
         expires (cs_db s') = expires (cs_db s) → Q (createRawStringObject b) s') →
  wp E (onDb (dbUnshareStringValue rc k o)) Q s.
Proof.
  intros Hs Hk Ho HQ. unfold dbUnshareStringValue.
  assert (o_type o = OBJ_STRING) as Ht by by eapply string_obj_type.
  destruct (negb (rc =? 1) || _) eqn:Htest.
  - eapply wp_onDb.
    { rewrite bool_decide_eq_true_2 by done. rewrite (bind_run _ _ _ tt (cs_db s)) by done.
      rewrite (bind_run _ _ _ b (cs_db s)) by by apply getDecodedObject_run.
      unfold dbOverwrite. cbv [mbind M_bind get].
      by rewrite serverAssert_run by (apply bool_decide_eq_true; rewrite (proj1 Hk); by eexists). }
    assert (f k = Some (viewObj (createRawStringObject b), expires (cs_db s) !! k)) as Hfk.
    { erewrite (runs_holds f out n s k (Some o)) by done. cbn. by rewrite (string_obj_view o b). }
    apply HQ; [|split|done].
    + eapply (runs_set_obj k (createRawStringObject b)) in Hs as [????]; [|done|eauto].
      split; [done..| |done|done]. intros k'. rewrite run_seen0. unfold aset.
      destruct (decide (k' = k)) as [->|]; [by rewrite Hfk|done].
    + cbn. by rewrite lookup_insert_eq.
    + apply Hk.
  - apply orb_false_iff in Htest as [_ Henc%negb_false_iff%bool_decide_eq_true].
    eapply wp_onDb_read; [by rewrite bool_decide_eq_true_2|].
    destruct Ho; [|done..]. by apply HQ.
Qed.

End Rules.

Lemma aset_aset k v e v' e' f : ∀ k', aset k v e (aset k v' e' f) k' = aset k v e f k'.
Proof. intros k'. unfold aset. by case_decide. Qed.

(** ** Outcomes *)

(** The store, the replies and the number of changes after a command. *)
Definition outcome : Type := astore * list reply * Z.

(** A command that only replies. *)
Definition answers (f : astore) (r : reply) : res outcome := Ok (f, [r], 0).

(** A command that sets [k]. *)
Definition writes (f : astore) (k : bytes) (v : aval) (e : option Z) (r : reply) : res outcome :=
  Ok (aset k v e f, [r], 1).

(** [m] started on a database that stands for [f] has the outcome [r]. *)
Definition meets (g : genv) (db0 : redisDb) (m : M cmdState unit) (f : astore) (r : res outcome) : Prop :=
  ∀ s, runs g db0 f [] 0 s →
  wp (λ x, r = Fault x) m
     (λ _ s', match r with Ok (f', out, n) => runs g db0 f' out n s' | Fault _ => False end) s.

(** [m] has the outcome [r] on the database [db]. *)
Definition meetsOn (g : genv) (db : redisDb) (m : M cmdState unit) (r : res outcome) : Prop :=
  wp (λ x, r = Fault x) m
     (λ _ s', match r with Ok (f', out, n) => runs g db f' out n s' | Fault _ => False end)
     (mkCmd db [] 0).

Lemma runs_start g db : db_ok db → runs g db (seen g db) [] 0 (mkCmd db [] 0).
Proof. by split. Qed.

Lemma meets_on g db m r : db_ok db → meets g db m (seen g db) r → meetsOn g db m r.
Proof. intros Hok Hm. by apply Hm, runs_start. Qed.

(** A command with its outcome, as the dispatch runs it. *)
Lemma runCommand_meets g m db r :
  meetsOn g db m r →
  match r with
  | Ok (f, out, n) =>
      ∃ db', runCommand m db = Ok ((out, n), db') ∧ same_backend db db' ∧ db_ok db' ∧
             ∀ k, seen g db' k = f k
  | Fault x => runCommand m db = Fault x
  end.
Proof.
  unfold meetsOn, wp, runCommand. intros Hs.
  destruct (m (mkCmd db [] 0)) as [[[] s']|x]; [|by rewrite Hs].
  destruct r as [[[f out] n]|x]; [|done]. destruct Hs as [? ? ? <- <-]. by exists (cs_db s').
Qed.

(** ** Commands of the table run by [call] *)

Definition pushReplies (out : list reply) (cl : client) : client :=
  foldl (λ cl r, push_reply r cl) cl out.

(** The server after a command of the interface. *)
Definition afterReplies (c : clientId) (cl : client) (out : list reply) (n : Z) (db : redisDb)
    (s : server) : server :=
  set_dirty (dirty s + n)
    (set_clients (<[c := pushReplies out cl]> (clients s)) (set_dbs (<[c_db cl := db]> (dbs s)) s)).

Lemma forM_addReply_run c out : ∀ cl s, clients s !! c = Some cl →
  forM_ out (addReply c) s = Ok (tt, set_clients (<[c := pushReplies out cl]> (clients s)) s).
Proof.
  induction out as [|r out IH]; intros cl s Hc; cbn [forM_].
  - cbn. rewrite insert_id by done. by destruct s.
  - unfold addReply at 1. erewrite bind_run by by apply updClient_run.
    rewrite (IH (push_reply r cl)) by apply lookup_insert_eq. cbn. by rewrite insert_insert_eq.
Qed.

Lemma call_other_run `{OtherCommands} c cl name db s :
  clients s !! c = Some cl → c_cmd cl = Some (otherProc name) → dbs s !! c_db cl = Some db →
  call c s =
  match other_call name (srv_env s) (c_resp cl) (c_argv cl) db with
  | Ok ((out, n), db') => Ok (tt, afterReplies c cl out n db' s)
  | Fault f => Fault f
  end.
Proof.
  intros Hc Hcmd Hdb. rewrite (call_run (otherProc name) c cl) by done.
  erewrite callQueued_run by done. unfold otherCommand. erewrite bind_run by by apply getClient_run.
  rewrite bind_gets. destruct (other_call name _ _ _ db) as [[[out n] db']|f] eqn:Ho.
  - erewrite bind_run by by eapply withDb_run. cbn [fst snd].
    by erewrite bind_run by by apply forM_addReply_run.
  - apply bind_fault. unfold withDb. by rewrite Hdb, Ho.
Qed.

(** ** Tactics *)

(** Reads the next argument. *)
Ltac next_arg := wp_step; eapply wp_arg; [reflexivity|].

(** Goes on through decided tests and returns. *)
Ltac go_on := cbv iota; cbn [negb]; cbv iota; wp_steps; cbv iota.

(** Replies. *)
Ltac reply Hs := eapply wp_emit; [exact Hs|]; intros ? _ ?; try done.
