(* ===== verification/StringCmds.v ===== *)
(** * StringCmds: the other string commands of src/src/t_string.c

    GETSET, SETRANGE, GETRANGE (and its old name SUBSTR), MGET, MSET, MSETNX,
    INCR, DECR, INCRBY, DECRBY, APPEND and STRLEN, each as a function of the
    arguments on the database of the client, and what each of them does to the
    abstract store: the values the keys stand for and their expire times.

    The commands with floating point (INCRBYFLOAT) are not modelled; STRALGO is
    in Lcs.v. *)

From Stdlib Require Import Ascii String ZifyBool.
From stdpp Require Import base tactics option list strings numbers gmap fin_maps.
From S2P Require Import Prelude Util Object Db Server TString StringProps Command.

Local Open Scope Z_scope.

(** ** Strings *)

Definition sdsgrowzero (s : bytes) (len : Z) : bytes :=
  let curlen := Z.of_nat (length s) in
  if len <=? curlen then s else s ++ replicate (Z.to_nat (len - curlen)) NUL.

(** [memcpy(s + offset, v, sdslen(v))], inside [s]. *)
Definition memcpyAt (s : bytes) (offset : Z) (v : bytes) : bytes :=
  take (Z.to_nat offset) s ++ v ++ drop (Z.to_nat offset + length v) s.

Definition OBJ_SHARED_INTEGERS : Z := 10000.

(** Allocating [n] bytes for a string: more than [PTRDIFF_MAX] can never be had, and the
    allocator aborts the server. *)
Definition sdsalloc {S} (n : Z) (site : string) : M S unit :=
  if LLONG_MAX <? n then fail (OutOfMemory site) else mret tt.

(** The bytes GETRANGE replies with, once it has the string. *)
Definition getrangeBytes (str : bytes) (start end_ : Z) : bytes :=
  let strlen := Z.of_nat (length str) in
  if (start <? 0) && (end_ <? 0) && (end_ <? start) then [] else
  let start := if start <? 0 then i64 (strlen + start) else start in
  let end_ := if end_ <? 0 then i64 (strlen + end_) else end_ in
  let start := if start <? 0 then 0 else start in
  let end_ := if end_ <? 0 then 0 else end_ in
  let end_ := if strlen <=? u64 end_ then i64 (u64 (strlen - 1)) else end_ in
  if (end_ <? start) || (strlen =? 0) then []
  else take (Z.to_nat (end_ - start + 1)) (drop (Z.to_nat start) str).

(** ** The commands *)

Section StringCommands.
Context (g : genv) (ro : bool) (resp : Z) (refcount : bytes → Z) (args : list bytes).

Let argc : Z := Z.of_nat (length args).

(** [true] is [C_OK]; the argument is converted to [long long]. *)
Definition checkStringLength (size : Z) : M cmdState bool :=
  if 512 * 1024 * 1024 <? i64 size then
    emit (RError "string exceeds maximum allowed size (512MB)") ;; mret false
  else mret true.

(** [getGenericCommand], for GETSET; [true] is [C_OK]. *)
Definition getGeneric : M cmdState bool :=
  key ← arg args 1;
  o ← lookupKeyReadOrReply g ro key (RNull resp);
  match o with
  | None => mret true
  | Some o =>
      if negb (bool_decide (o_type o = OBJ_STRING)) then emit wrongtypeerr ;; mret false
      else b ← replyBytes o; emit (RBulk b) ;; mret true
  end.

Definition getsetCommand : M cmdState unit :=
  ok ← getGeneric;
  if negb ok then mret tt else
  key ← arg args 1; v ← arg args 2;
  val ← tryObjectEncoding (createStringObject v);
  onDb (Db.setKey g key val) ;;
  addDirty 1.

Definition setrangeCommand : M cmdState unit :=
  value ← arg args 3;
  a ← arg args 2;
  offset ← getLongFromObjectOrReply (Some (createStringObject a));
  match offset with
  | None => mret tt
  | Some offset =>
      if offset <? 0 then emit (RError "offset is out of range") else
      key ← arg args 1;
      o ← onDb (lookupKeyWrite g key);
      let len := Z.of_nat (length value) in
      r ← match o with
          | None =>
              if len =? 0 then emit (RInt 0) ;; mret None else
              ok ← checkStringLength (offset + len);
              if negb ok then mret None else
              sdsalloc (offset + len) "sdsnewlen" ;;
              let o := createRawStringObject (replicate (Z.to_nat (offset + len)) NUL) in
              onDb (dbAdd key o) ;; mret (Some o)
          | Some o =>
              wrong ← checkType o OBJ_STRING;
              if wrong : bool then mret None else
              olen ← stringObjectLen o;
              if len =? 0 then emit (RInt olen) ;; mret None else
              ok ← checkStringLength (offset + len);
              if negb ok then mret None else
              o ← onDb (dbUnshareStringValue (refcount key) key o);
              mret (Some o)
          end;
      match r with
      | None => mret tt
      | Some o =>
          o ← (if 0 <? len then
                 p ← ptrSds o "setrangeCommand";
                 sdsalloc (offset + len) "sdsgrowzero" ;;
                 let o := mkObj (o_type o) (o_encoding o)
                            (PtrSds (memcpyAt (sdsgrowzero p (offset + len)) offset value)) in
                 onDb (storeObj key o) ;; addDirty 1 ;; mret o
               else mret o);
          p ← ptrSds o "setrangeCommand";
          emit (RInt (Z.of_nat (length p)))
      end
  end.

Definition getrangeCommand : M cmdState unit :=
  a2 ← arg args 2; a3 ← arg args 3; key ← arg args 1;
  start ← getLongLongFromObjectOrReply (Some (createStringObject a2));
  match start with
  | None => mret tt
  | Some start =>
  end_ ← getLongLongFromObjectOrReply (Some (createStringObject a3));
  match end_ with
  | None => mret tt
  | Some end_ =>
  o ← lookupKeyReadOrReply g ro key (RBulk []);
  match o with
  | None => mret tt
  | Some o =>
  wrong ← checkType o OBJ_STRING;
  if wrong : bool then mret tt else
  str ← (if bool_decide (o_encoding o = OBJ_ENCODING_INT)
         then n ← ptrLong o "getrangeCommand"; mret (ll2buf 32 n)
         else ptrSds o "getrangeCommand");
  emit (RBulk (getrangeBytes str start end_))
  end end end.

Fixpoint mgetLoop (keys : list bytes) : M cmdState unit :=
  match keys with
  | [] => mret tt
  | k :: keys =>
      o ← onDb (lookupKeyRead g ro k);
      (match o with
       | None => emit (RNull resp)
       | Some o =>
           if negb (bool_decide (o_type o = OBJ_STRING)) then emit (RNull resp)
           else b ← replyBytes o; emit (RBulk b)
       end) ;;
      mgetLoop keys
  end.

Definition mgetCommand : M cmdState unit :=
  emit (RArrayLen (argc - 1)) ;; mgetLoop (drop 1 args).

(** The test of MSETNX: [true] when one of the keys exists. *)
Fixpoint msetnxLoop (l : list bytes) : M cmdState bool :=
  match l with
  | [] => mret false
  | k :: l =>
      o ← onDb (lookupKeyWrite g k);
      match o with
      | Some _ => mret true
      | None => match l with [] => mret false | _ :: l => msetnxLoop l end
      end
  end.

Fixpoint msetLoop (l : list bytes) : M cmdState unit :=
  match l with
  | [] => mret tt
  | k :: v :: l =>
      val ← tryObjectEncoding (createStringObject v);
      onDb (Db.setKey g k val) ;;
      msetLoop l
  | [_] => fail (BadPointer "c->argv")
  end.

Definition msetGenericCommand (nx : bool) : M cmdState unit :=
  if argc `mod` 2 =? 0 then emit (RError "wrong number of arguments for MSET") else
  busy ← (if nx then msetnxLoop (drop 1 args) else mret false);
  if busy : bool then emit (RInt 0) else
  msetLoop (drop 1 args) ;;
  addDirty ((argc - 1) `div` 2) ;;
  emit (if nx then RInt 1 else ROk).

Definition msetCommand : M cmdState unit := msetGenericCommand false.
Definition msetnxCommand : M cmdState unit := msetGenericCommand true.

Definition incrDecrCommand (incr : Z) : M cmdState unit :=
  key ← arg args 1;
  o ← onDb (lookupKeyWrite g key);
  wrong ← match o with None => mret false | Some o => checkType o OBJ_STRING end;
  if wrong : bool then mret tt else
  value ← getLongLongFromObjectOrReply o;
  match value with
  | None => mret tt
  | Some oldvalue =>
      if (incr <? 0) && (oldvalue <? 0) && (incr <? LLONG_MIN - oldvalue) ||
         (0 <? incr) && (0 <? oldvalue) && (LLONG_MAX - oldvalue <? incr) then
        emit (RError "increment or decrement would overflow")
      else
        let value := i64 (oldvalue + incr) in
        (match o with
         | Some o =>
             if (refcount key =? 1) && bool_decide (o_encoding o = OBJ_ENCODING_INT) &&
                ((value <? 0) || (OBJ_SHARED_INTEGERS <=? value)) &&
                (LLONG_MIN <=? value) && (value <=? LLONG_MAX)
             then onDb (storeObj key (mkObj (o_type o) (o_encoding o) (PtrLong value)))
             else onDb (dbOverwrite key (createIntObject value))
         | None => onDb (dbAdd key (createIntObject value))
         end) ;;
        addDirty 1 ;;
        emit (RInt value)
  end.

Definition incrCommand : M cmdState unit := incrDecrCommand 1.
Definition decrCommand : M cmdState unit := incrDecrCommand (-1).

Definition incrbyCommand : M cmdState unit :=
  a ← arg args 2;
  incr ← getLongLongFromObjectOrReply (Some (createStringObject a));
  match incr with None => mret tt | Some incr => incrDecrCommand incr end.

(** The negation of [LLONG_MIN] is [LLONG_MIN]. *)
Definition decrbyCommand : M cmdState unit :=
  a ← arg args 2;
  incr ← getLongLongFromObjectOrReply (Some (createStringObject a));
  match incr with None => mret tt | Some incr => incrDecrCommand (i64 (- incr)) end.

Definition appendCommand : M cmdState unit :=
  key ← arg args 1;
  append ← arg args 2;
  o ← onDb (lookupKeyWrite g key);
  totlen ← match o with
           | None =>
               val ← tryObjectEncoding (createStringObject append);
               onDb (dbAdd key val) ;;
               n ← stringObjectLen val; mret (Some n)
           | Some o =>
               wrong ← checkType o OBJ_STRING;
               if wrong : bool then mret None else
               n ← stringObjectLen o;
               ok ← checkStringLength (n + Z.of_nat (length append));
               if negb ok then mret None else
               o ← onDb (dbUnshareStringValue (refcount key) key o);
               p ← ptrSds o "appendCommand";
               sdsalloc (Z.of_nat (length (p ++ append))) "sdscatlen" ;;
               onDb (storeObj key (mkObj (o_type o) (o_encoding o) (PtrSds (p ++ append)))) ;;
               mret (Some (Z.of_nat (length (p ++ append))))
           end;
  match totlen with
  | None => mret tt
  | Some totlen => addDirty 1 ;; emit (RInt totlen)
  end.

Definition strlenCommand : M cmdState unit :=
  key ← arg args 1;
  o ← lookupKeyReadOrReply g ro key (RInt 0);
  match o with
  | None => mret tt
  | Some o =>
      wrong ← checkType o OBJ_STRING;
      if wrong : bool then mret tt else
      n ← stringObjectLen o; emit (RInt n)
  end.

End StringCommands.

(** ** The command table *)

Inductive strProc :=
  | getsetProc | setrangeProc | getrangeProc | substrProc | mgetProc | msetProc | msetnxProc
  | incrProc | decrProc | incrbyProc | decrbyProc | appendProc | strlenProc.

#[global] Instance strProc_eq_dec : EqDecision strProc.
Proof. solve_decision. Defined.

Definition strProcs : list strProc :=
  [getsetProc; setrangeProc; getrangeProc; substrProc; mgetProc; msetProc; msetnxProc;
   incrProc; decrProc; incrbyProc; decrbyProc; appendProc; strlenProc].

Definition strName (p : strProc) : string :=
  match p with
  | getsetProc => "getset" | setrangeProc => "setrange" | getrangeProc => "getrange"
  | substrProc => "substr" | mgetProc => "mget" | msetProc => "mset" | msetnxProc => "msetnx"
  | incrProc => "incr" | decrProc => "decr" | incrbyProc => "incrby" | decrbyProc => "decrby"
  | appendProc => "append" | strlenProc => "strlen"
  end.

Definition strArity (p : strProc) : Z :=
  match p with
  | getsetProc | incrbyProc | decrbyProc | appendProc => 3
  | setrangeProc | getrangeProc | substrProc => 4
  | incrProc | decrProc | strlenProc => 2
  | mgetProc => -2
  | msetProc | msetnxProc => -3
  end.

Definition strFlags (p : strProc) : cmdFlags :=
  match p with
  | getrangeProc | substrProc | mgetProc | strlenProc => mkFlags false true false false false false false
  | _ => mkFlags true false false false false false true
  end.

Definition strCall (p : strProc) (refcount : bytes → Z) (g : genv) (resp : Z) (args : list bytes) :
    M cmdState unit :=
  let ro := CMD_READONLY (strFlags p) in
  match p with
  | getsetProc => getsetCommand g ro resp args
  | setrangeProc => setrangeCommand g refcount args
  | getrangeProc | substrProc => getrangeCommand g ro args
  | mgetProc => mgetCommand g ro resp args
  | msetProc => msetCommand g args
  | msetnxProc => msetnxCommand g args
  | incrProc => incrCommand g refcount args
  | decrProc => decrCommand g refcount args
  | incrbyProc => incrbyCommand g refcount args
  | decrbyProc => decrbyCommand g refcount args
  | appendProc => appendCommand g refcount args
  | strlenProc => strlenCommand g ro args
  end.

(** ** What the commands mean *)

(** The size test of the commands that make a string longer. *)
Definition tooLong (n : Z) : bool := 536870912 <? i64 n.

Definition tooLongErr : reply := RError "string exceeds maximum allowed size (512MB)".
Definition notIntegerErr : reply := RError "value is not an integer or out of range".
Definition overflowErr : reply := RError "increment or decrement would overflow".

(** [v] written over [b] from position [o], with zero bytes in a gap. *)
Definition splice (b : bytes) (o : nat) (v : bytes) : bytes :=
  take o (b ++ replicate (o - length b) NUL) ++ v ++ drop (o + length v) b.

(** The bytes of [b] between two positions, both included; a negative position counts
    from the end, and the positions are moved inside the string. *)
Definition rangeOf (b : bytes) (s e : Z) : bytes :=
  let n := Z.of_nat (length b) in
  if (s <? 0) && (e <? s) && (e <? 0) then [] else
  let s := Z.max 0 (if s <? 0 then n + s else s) in
  let e := Z.min (n - 1) (Z.max 0 (if e <? 0 then n + e else e)) in
  take (Z.to_nat (e - s + 1)) (drop (Z.to_nat s) b).

(** The keys of the arguments of MSET, and the store after it. *)
Fixpoint evens (l : list bytes) : list bytes :=
  match l with
  | [] => []
  | k :: l => k :: match l with [] => [] | _ :: l => evens l end
  end.

Fixpoint msetStore (l : list bytes) (f : astore) : astore :=
  match l with
  | k :: v :: l => msetStore l (aset k (AStr v) None f)
  | _ => f
  end.

Section Meaning.
Context (g : genv) (ro : bool) (resp : Z) (f : astore).

Definition getsetSpec (k v : bytes) : res outcome :=
  match readable g ro (f k) with
  | Some (AObj _, _) => answers f wrongtypeerr
  | Some (AStr b, _) => writes f k (AStr v) None (RBulk b)
  | None => writes f k (AStr v) None (RNull resp)
  end.

(** The string at a key and its expire time: a missing key is an empty string. *)
Definition stringAt (k : bytes) : option (bytes * option Z) :=
  match f k with
  | Some (AObj _, _) => None
  | Some (AStr b, e) => Some (b, e)
  | None => Some ([], None)
  end.

Definition present (k : bytes) : bool := bool_decide (is_Some (f k)).

Definition setrangeSpec (k a v : bytes) : res outcome :=
  match string2ll a with
  | None => answers f notIntegerErr
  | Some o =>
      let n := o + Z.of_nat (length v) in
      if o <? 0 then answers f (RError "offset is out of range") else
      match stringAt k with
      | None => answers f wrongtypeerr
      | Some (b, e) =>
          if bool_decide (v = []) then answers f (RInt (Z.of_nat (length b)))
          else if tooLong n then answers f tooLongErr
          else if LLONG_MAX <? n
          then Fault (OutOfMemory (if present k then "sdsgrowzero" else "sdsnewlen"))
          else writes f k (AStr (splice b (Z.to_nat o) v)) e
                 (RInt (Z.max n (Z.of_nat (length b))))
      end
  end.

Definition getrangeSpec (k a b : bytes) : res outcome :=
  match string2ll a, string2ll b with
  | Some s, Some e =>
      match readable g ro (f k) with
      | Some (AObj _, _) => answers f wrongtypeerr
      | Some (AStr str, _) => answers f (RBulk (rangeOf str s e))
      | None => answers f (RBulk [])
      end
  | _, _ => answers f notIntegerErr
  end.

Definition mgetSpec (keys : list bytes) : res outcome :=
  Ok (f, RArrayLen (Z.of_nat (length keys)) ::
         ((λ k, match readable g ro (f k) with Some (AStr b, _) => RBulk b | _ => RNull resp end) <$> keys),
      0).

Definition msetSpec (nx : bool) (l : list bytes) : res outcome :=
  if Nat.odd (length l) then answers f (RError "wrong number of arguments for MSET")
  else if nx && existsb (λ k, bool_decide (is_Some (f k))) (evens l) then answers f (RInt 0)
  else Ok (msetStore l f, [if nx then RInt 1 else ROk], Z.of_nat (length l / 2)).

Definition incrSpec (k : bytes) (incr : Z) : res outcome :=
  match stringAt k with
  | None => answers f wrongtypeerr
  | Some (b, e) =>
      match (if present k then string2ll b else Some 0) with
      | None => answers f notIntegerErr
      | Some v =>
          if bool_decide (LLONG_MIN ≤ v + incr ≤ LLONG_MAX)
          then writes f k (AStr (decimal (v + incr))) e (RInt (v + incr))
          else answers f overflowErr
      end
  end.

Definition incrbySpec (k a : bytes) (sign : Z → Z) : res outcome :=
  match string2ll a with
  | None => answers f notIntegerErr
  | Some v => incrSpec k (sign v)
  end.

Definition appendSpec (k v : bytes) : res outcome :=
  match stringAt k with
  | None => answers f wrongtypeerr
  | Some (b, e) =>
      let n := Z.of_nat (length (b ++ v)) in
      if present k then
        if tooLong n then answers f tooLongErr
        else if LLONG_MAX <? n then Fault (OutOfMemory "sdscatlen")
        else writes f k (AStr (b ++ v)) e (RInt n)
      else writes f k (AStr v) e (RInt n)
  end.

Definition strlenSpec (k : bytes) : res outcome :=
  match readable g ro (f k) with
  | Some (AObj _, _) => answers f wrongtypeerr
  | Some (AStr b, _) => answers f (RInt (Z.of_nat (length b)))
  | None => answers f (RInt 0)
  end.

End Meaning.

Definition strSpec (p : strProc) (g : genv) (resp : Z) (args : list bytes) (f : astore) : res outcome :=
  let ro := CMD_READONLY (strFlags p) in
  match p, args with
  | getsetProc, [_; k; v] => getsetSpec g ro resp f k v
  | setrangeProc, [_; k; a; v] => setrangeSpec f k a v
  | (getrangeProc | substrProc), [_; k; a; b] => getrangeSpec g ro f k a b
  | mgetProc, _ :: keys => mgetSpec g ro resp f keys
  | msetProc, _ :: l => msetSpec f false l
  | msetnxProc, _ :: l => msetSpec f true l
  | incrProc, [_; k] => incrSpec f k 1
  | decrProc, [_; k] => incrSpec f k (-1)
  | incrbyProc, [_; k; a] => incrbySpec f k a id
  | decrbyProc, [_; k; a] => incrbySpec f k a (λ v, i64 (- v))
  | appendProc, [_; k; v] => appendSpec f k v
  | strlenProc, [_; k] => strlenSpec g ro f k
  | _, _ => Ok (f, [], 0)
  end.

(** ** The commands do what they mean *)

Section Proofs.
Context (g : genv) (db0 : redisDb) (E : fault → Prop).
Implicit Types (f : astore) (s : cmdState).

Lemma wp_checkStringLength size f out n (Q : bool → cmdState → Prop) s :
  runs g db0 f out n s →
  (tooLong size = false → Q true s) →
  (∀ s', tooLong size = true → runs g db0 f (out ++ [tooLongErr]) n s' → Q false s') →
  wp E (checkStringLength size) Q s.
Proof.
  intros Hs HQ HQ'. unfold checkStringLength.
  change (512 * 1024 * 1024 <? i64 size) with (tooLong size). destruct (tooLong size).
  - wp_step. eapply wp_emit; [done|]. intros s' _ Hs'. apply wp_ret. by apply HQ'.
  - apply wp_ret. by apply HQ.
Qed.

Lemma wp_encode_arg v (Q : robj → cmdState → Prop) s :
  (∀ o, string_obj o v → Q o s) → wp E (tryObjectEncoding (createStringObject v)) Q s.
Proof.
  intros HQ. destruct (tryObjectEncoding_run _ _ s (createStringObject_string v)) as (o & Hr & Ho).
  eapply wp_run_ok; eauto.
Qed.

End Proofs.

Lemma wp_sdsalloc {S} (E : fault → Prop) size site (Q : unit → S → Prop) s :
  size ≤ LLONG_MAX → Q tt s → wp E (sdsalloc size site) Q s.
Proof. intros Hn HQ. unfold sdsalloc. by rewrite (proj2 (Z.ltb_ge LLONG_MAX size)). Qed.

Lemma wp_sdsalloc_fails {S} (E : fault → Prop) size site (Q : unit → S → Prop) s :
  LLONG_MAX < size → E (OutOfMemory site) → wp E (sdsalloc size site) Q s.
Proof. intros Hn HE. unfold sdsalloc. by rewrite (proj2 (Z.ltb_lt LLONG_MAX size)). Qed.

Lemma memcpyAt_splice b o v : 0 ≤ o →
  memcpyAt (sdsgrowzero b (o + Z.of_nat (length v))) o v = splice b (Z.to_nat o) v.
Proof.
  intros Ho. unfold memcpyAt, splice, sdsgrowzero. case_match eqn:Hle.
  - replace (Z.to_nat o - length b)%nat with 0%nat by lia. by rewrite app_nil_r.
  - rewrite !(drop_ge _ (Z.to_nat o + length v)) by (rewrite ?length_app, ?length_replicate; lia).
    f_equal. rewrite !take_app, !take_replicate. do 2 f_equal. lia.
Qed.

Lemma memcpyAt_fresh o v : 0 ≤ o →
  memcpyAt (sdsgrowzero (replicate (Z.to_nat (o + Z.of_nat (length v))) NUL) (o + Z.of_nat (length v))) o v =
  splice [] (Z.to_nat o) v.
Proof.
  intros Ho. unfold memcpyAt, splice, sdsgrowzero.
  rewrite (proj2 (Z.leb_le _ _)) by (rewrite length_replicate; lia).
  rewrite drop_ge by (rewrite length_replicate; lia). rewrite drop_nil, take_replicate. cbn [app length].
  rewrite take_replicate. do 2 f_equal. lia.
Qed.

Lemma length_splice b o v :
  Z.of_nat (length (splice b o v)) = Z.max (Z.of_nat o + Z.of_nat (length v)) (Z.of_nat (length b)).
Proof.
  unfold splice. rewrite !length_app, length_take, length_drop, length_app, length_replicate. lia.
Qed.

Lemma getrangeBytes_rangeOf b s e :
  LLONG_MIN ≤ s ≤ LLONG_MAX → LLONG_MIN ≤ e ≤ LLONG_MAX → Z.of_nat (length b) ≤ LLONG_MAX →
  getrangeBytes b s e = rangeOf b s e.
Proof.
  intros Hs He Hb. unfold getrangeBytes, rangeOf.
  rewrite <-andb_assoc, (andb_comm (e <? 0)), andb_assoc.
  destruct ((s <? 0) && (e <? s) && (e <? 0)) eqn:Hneg; [done|].
  set (n := Z.of_nat (length b)) in *.
  assert (∀ x, LLONG_MIN ≤ x ≤ LLONG_MAX →
    (if x <? 0 then i64 (n + x) else x) = if x <? 0 then n + x else x) as Hi.
  { intros x Hx. case_match; [|done]. apply i64_id. unfold n, LLONG_MIN, LLONG_MAX in *. lia. }
  rewrite !Hi by done. clear Hi.
  assert (∀ x, (if x <? 0 then 0 else x) = Z.max 0 x) as Hmax by (intros; case_match; lia).
  rewrite !Hmax. set (s' := Z.max 0 (if s <? 0 then _ else _)). set (e' := Z.max 0 (if e <? 0 then _ else _)).
  assert (0 ≤ e' ≤ LLONG_MAX) as He'.
  { unfold e', n, LLONG_MIN, LLONG_MAX in *. case_match; lia. }
  rewrite (u64_id e') by (unfold ULLONG_MAX, LLONG_MAX in *; lia).
  destruct (Z.eqb_spec n 0) as [Hn|Hn].
  { assert (b = []) as -> by (apply nil_length_inv; lia). rewrite orb_true_r, drop_nil. by destruct (Z.to_nat _). }
  rewrite orb_false_r, u64_id, i64_id by (unfold n, ULLONG_MAX, LLONG_MIN, LLONG_MAX in *; lia).
  replace (if n <=? e' then n - 1 else e') with (Z.min (n - 1) e') by (case_match; lia).
  case_match; [|done]. replace (Z.to_nat (Z.min (n - 1) e' - s' + 1)) with 0%nat by lia. by rewrite take_0.
Qed.

Section Meets.
Context (g : genv) (db0 : redisDb).
Implicit Types (f : astore) (s : cmdState).

Lemma getset_meets ro resp f n k v :
  meets g db0 (getsetCommand g ro resp [n; k; v]) f (getsetSpec g ro resp f k v).
Proof.
  intros s Hs. unfold getsetCommand, getGeneric, getsetSpec. wp_step. next_arg. wp_step.
  assert (∀ E s' r, runs g db0 f [r] 0 s' →
    wp E (key ← arg [n; k; v] 1; v ← arg [n; k; v] 2;
          val ← tryObjectEncoding (createStringObject v);
          onDb (Db.setKey g key val) ;; addDirty 1)
      (λ _, runs g db0 (aset k (AStr v) None f) [r] 1) s') as Hset.
  { intros E s' r Hs'. next_arg. next_arg. wp_step. apply wp_encode_arg. intros o Ho. wp_step.
    eapply wp_setKey; [done|by eauto|]. rewrite (string_obj_view o v Ho). intros s'' Hs''.
    eapply wp_addDirty; [done|]. done. }
  eapply wp_lookupKeyReadOrReply; [done|..].
  - intros s' -> Hs'. apply wp_ret. by apply Hset.
  - intros o e s' -> Ho Hs'. destruct (viewObj o) as [b|o'] eqn:Hv.
    + apply viewObj_str in Hv; [|done]. rewrite bool_decide_eq_true_2 by by eapply string_obj_type.
      cbn [negb]. wp_step. eapply wp_run_ok; [by apply replyBytes_run|]. wp_step. reply Hs'.
      apply wp_ret. by apply Hset.
    + apply viewObj_obj in Hv as [Ht _]. rewrite bool_decide_eq_false_2 by done. cbn [negb].
      wp_step. reply Hs'. 
Qed.

Lemma strlen_meets ro f n k : meets g db0 (strlenCommand g ro [n; k]) f (strlenSpec g ro f k).
Proof.
  intros s Hs. unfold strlenCommand, strlenSpec. next_arg. wp_step.
  eapply wp_lookupKeyReadOrReply; [done|..].
  - intros s' -> Hs'. by apply wp_ret.
  - intros o e s' -> Ho Hs'. wp_step. destruct (viewObj o) as [b|o'] eqn:Hv.
    + apply viewObj_str in Hv; [|done]. eapply wp_checkType; [done| |by apply string_obj_type in Hv].
      intros _. wp_step. eapply wp_run_ok; [by apply stringObjectLen_run|]. reply Hs'.
    + apply viewObj_obj in Hv as [Ht _]. eapply wp_checkType; [done..|]. by intros; apply wp_ret.
Qed.

(** The lookups of the commands that change a string: the string at the key. *)
Lemma stringAt_none f out n s k :
  runs g db0 f out n s → holds g k None s → stringAt f k = Some ([], None) ∧ present f k = false.
Proof.
  intros Hs Hk. unfold stringAt, present. rewrite (runs_holds g db0 f out n s k None) by done. done.
Qed.

Lemma stringAt_some f out n s k o :
  runs g db0 f out n s → holds g k (Some o) s →
  present f k = true ∧
  if bool_decide (o_type o = OBJ_STRING)
  then ∃ b, string_obj o b ∧ stringAt f k = Some (b, expires (cs_db s) !! k)
  else stringAt f k = None.
Proof.
  intros Hs Hk. unfold stringAt, present. rewrite (runs_holds g db0 f out n s k (Some o)) by done.
  split; [done|]. cbn. unfold viewObj. case_bool_decide as Ht; [|done].
  destruct (runs_string g db0 f out n s k o Hs (proj1 Hk) Ht) as [b Hb].
  exists b. by rewrite (string_obj_objBytes o b).
Qed.

(** The type test of those commands. *)
Lemma wp_checkString E k o f out n (Q : bool → cmdState → Prop) s :
  runs g db0 f out n s → holds g k (Some o) s →
  (∀ b, string_obj o b → stringAt f k = Some (b, expires (cs_db s) !! k) → Q false s) →
  (∀ s', stringAt f k = None → runs g db0 f (out ++ [wrongtypeerr]) n s' → Q true s') →
  wp E (checkType o OBJ_STRING) Q s.
Proof.
  intros Hs Hk HQ HQ'. destruct (stringAt_some f out n s k o Hs Hk) as [_ Hat].
  eapply wp_checkType; [done|..].
  - intros Ht. rewrite bool_decide_eq_true_2 in Hat by done. destruct Hat as (b & ? & ?). by eapply HQ.
  - intros s' Ht Hs'. rewrite bool_decide_eq_false_2 in Hat by done. by apply HQ'.
Qed.

(** The end of SETRANGE: the string is grown and written. *)
Lemma wp_setrangeWrite E k p o v f e s :
  let len := Z.of_nat (length v) in
  v ≠ [] → 0 ≤ o → o + len ≤ LLONG_MAX →
  runs g db0 f [] 0 s → holds g k (Some (createRawStringObject p)) s → expires (cs_db s) !! k = e →
  wp E (ob ← (if 0 <? len then
                q ← ptrSds (createRawStringObject p) "setrangeCommand";
                sdsalloc (o + len) "sdsgrowzero" ;;
                let ob := mkObj OBJ_STRING OBJ_ENCODING_RAW
                            (PtrSds (memcpyAt (sdsgrowzero q (o + len)) o v)) in
                onDb (storeObj k ob) ;; addDirty 1 ;; mret ob
              else mret (createRawStringObject p));
        q ← ptrSds ob "setrangeCommand";
        emit (RInt (Z.of_nat (length q))))
     (λ _, runs g db0 (aset k (AStr (memcpyAt (sdsgrowzero p (o + len)) o v)) e f)
              [RInt (Z.of_nat (length (memcpyAt (sdsgrowzero p (o + len)) o v)))] 1) s.
Proof.
  intros len Hv Ho Hmax Hs Hk He. assert ((0 <? len) = true) as ->.
  { destruct v; [done|]. unfold len. cbn [length]. lia. }
  set (b := memcpyAt _ _ _). wp_steps. apply wp_ret. wp_step. apply wp_sdsalloc; [done|].
  cbv zeta. wp_step. eapply (wp_storeObj g db0 _ k (createRawStringObject b)); [done|done|by eauto|].
  cbn [viewObj createRawStringObject]. intros s1 Hs1 _ _. rewrite He in Hs1. wp_step.
  eapply wp_addDirty; [done|]. intros s2 _ Hs2. wp_steps. apply wp_ret. reply Hs2.
Qed.

Lemma setrange_meets rc f n k a v :
  meets g db0 (setrangeCommand g rc [n; k; a; v]) f (setrangeSpec f k a v).
Proof.
  intros s Hs. unfold setrangeCommand, setrangeSpec. next_arg. next_arg. wp_step.
  eapply wp_getLong; [done|apply createStringObject_string|..]; [|intros s' -> Hs'; by apply wp_ret].
  intros o -> Ho. case_match eqn:Hneg; [reply Hs|]. next_arg. wp_step.
  assert ((Z.of_nat (length v) =? 0) = bool_decide (v = [])) as Hempty.
  { destruct v; [done|]. by rewrite bool_decide_eq_false_2. }
  eapply wp_lookupKeyWrite; [done|]. clear s Hs. intros [ob|] s Hs Hk; wp_step.
  - wp_step. eapply wp_checkString; [done..| |].
    2:{ intros s' -> Hs'. by go_on. }
    intros b Hb ->. cbv iota. wp_step. eapply wp_run_ok; [by apply stringObjectLen_run|].
    rewrite Hempty. case_bool_decide as Hv; [wp_step; reply Hs; by go_on|].
    wp_step. eapply wp_checkStringLength; [done| |intros s' -> Hs'; by go_on].
    intros ->. cbn [negb]. wp_step. eapply wp_dbUnshareStringValue; [done..|]. intros s1 Hs1 Hk1 He. wp_step.
    destruct (Z.ltb_spec LLONG_MAX (o + Z.of_nat (length v))) as [Hbig|Hsmall].
    + cbv zeta. rewrite (proj2 (Z.ltb_lt 0 (Z.of_nat (length v)))) by (destruct v; [done|cbn; lia]). do 2 wp_step.
      apply wp_ret. wp_step. apply wp_sdsalloc_fails; [done|].
      by rewrite (proj1 (stringAt_some f [] 0 s k ob Hs Hk)).
    + eapply wp_mono; [|apply (wp_setrangeWrite _ k b o v f (expires (cs_db s) !! k) s1);
        [done|lia|done|done|done|by rewrite He]].
      intros [] s2. rewrite memcpyAt_splice, length_splice by lia. by rewrite Z2Nat.id by lia.
  - destruct (stringAt_none f [] 0 s k Hs Hk) as [-> ->].
    rewrite Hempty. case_bool_decide as Hv; [wp_step; reply Hs; by go_on|].
    wp_step. eapply wp_checkStringLength; [done| |intros s' -> Hs'; by go_on].
    intros ->. cbn [negb]. wp_step.
    destruct (Z.ltb_spec LLONG_MAX (o + Z.of_nat (length v))) as [Hbig|Hsmall];
      [by apply wp_sdsalloc_fails|]. apply wp_sdsalloc; [done|]. wp_step.
    eapply wp_dbAdd; [done..|by eauto|]. intros s1 Hs1 Hk1 He. wp_step.
    eapply wp_mono; [|eapply (wp_setrangeWrite _ k (replicate (Z.to_nat (o + Z.of_nat (length v))) NUL)
      o v); [done|lia|done|exact Hs1|done|]].
    + intros [] s2. rewrite memcpyAt_fresh, length_splice by lia. rewrite Z2Nat.id by lia.
      apply runs_ext, aset_aset.
    + rewrite He. eapply runs_fresh_expire; [done|apply Hk].
Qed.

(** [getrangeSpec] with the bytes the code computes. *)
Definition getrangeRaw ro f k a b : res outcome :=
  match string2ll a, string2ll b with
  | Some s, Some e =>
      match readable g ro (f k) with
      | Some (AObj _, _) => answers f wrongtypeerr
      | Some (AStr str, _) => answers f (RBulk (getrangeBytes str s e))
      | None => answers f (RBulk [])
      end
  | _, _ => answers f notIntegerErr
  end.

Lemma getrange_meets ro f n k a b :
  meets g db0 (getrangeCommand g ro [n; k; a; b]) f (getrangeRaw ro f k a b).
Proof.
  intros s Hs. unfold getrangeCommand, getrangeRaw. do 3 next_arg. wp_step.
  eapply wp_getLongLong; [done|apply createStringObject_string|..]; [|intros s' -> Hs'; by apply wp_ret].
  intros st -> Hst. wp_step.
  eapply wp_getLongLong; [done|apply createStringObject_string|..]; [|intros s' -> Hs'; by apply wp_ret].
  intros e -> He. wp_step. eapply wp_lookupKeyReadOrReply; [done|intros s' -> Hs'; by apply wp_ret|].
  intros o ex s' -> Ho Hs'. wp_step. destruct (viewObj o) as [str|o'] eqn:Hv.
  - apply viewObj_str in Hv; [|done]. eapply wp_checkType; [done| |by apply string_obj_type in Hv].
    intros _. cbv iota. wp_step. eapply (wp_run_ok _ _ _ _ str); [|reply Hs'].
    destruct Hv as [str|str|v Hv]; [done..|]. by rewrite <-(ll2buf_decimal 32) by (done || lia).
  - apply viewObj_obj in Hv as [Ht _]. eapply wp_checkType; [done..|]. by intros; apply wp_ret.
Qed.

Lemma mgetLoop_runs E ro resp keys : ∀ f out n s, runs g db0 f out n s →
  wp E (mgetLoop g ro resp keys)
    (λ _, runs g db0 f (out ++ ((λ k, match readable g ro (f k) with
                                      | Some (AStr b, _) => RBulk b | _ => RNull resp end) <$> keys)) n) s.
Proof.
  induction keys as [|k keys IH]; intros f out n s Hs; [by rewrite app_nil_r|]. cbn [mgetLoop].
  wp_step. eapply wp_lookupKeyRead; [done|]. intros o s1 Hs1 Hr Hd. wp_step.
  eapply wp_mono; [|apply (wp_mono _ _ (λ _, runs g db0 f (out ++
    [match readable g ro (f k) with Some (AStr b, _) => RBulk b | _ => RNull resp end]) n));
    [intros ? ? H; exact H|]].
  - intros [] s2 Hs2. rewrite fmap_cons, cons_middle, (assoc_L (++)). by apply IH.
  - rewrite Hr. destruct o as [o|]; [|reply Hs1]. cbn [fmap option_fmap option_map].
    destruct (viewObj o) as [b|o'] eqn:Hv.
    + apply viewObj_str in Hv; [|by eapply (runs_string g db0 f out n s1 k), Hd].
      rewrite bool_decide_eq_true_2 by by eapply string_obj_type. cbn [negb]. wp_step.
      eapply wp_run_ok; [by apply replyBytes_run|]. reply Hs1.
    + apply viewObj_obj in Hv as [Ht _]. rewrite bool_decide_eq_false_2 by done. reply Hs1.
Qed.

Lemma mget_meets ro resp f n keys :
  meets g db0 (mgetCommand g ro resp (n :: keys)) f (mgetSpec g ro resp f keys).
Proof.
  intros s Hs. unfold mgetCommand, mgetSpec. wp_step. eapply wp_emit; [done|]. intros s1 _ Hs1. cbn [app drop length] in *.
  eapply wp_mono; [|by apply mgetLoop_runs]. intros [] s' Hs'. cbn [app] in Hs'.
  by replace (Z.of_nat (length keys)) with (Z.of_nat (S (length keys)) - 1) by lia.
Qed.

Lemma msetnxLoop_runs E l : ∀ f out n s, runs g db0 f out n s →
  wp E (msetnxLoop g l)
    (λ b s', b = existsb (λ k, bool_decide (is_Some (f k))) (evens l) ∧ runs g db0 f out n s') s.
Proof.
  induction l as [l IH] using (induction_ltof1 _ length). intros f out n s Hs.
  destruct l as [|k l]; [done|]. cbn [msetnxLoop evens existsb]. wp_step.
  eapply wp_lookupKeyWrite; [done|]. intros o s1 Hs1 Hk.
  rewrite (runs_holds g db0 f out n s1 k o) by done. destruct o as [o|]; [by apply wp_ret|].
  rewrite bool_decide_eq_false_2 by by intros []. destruct l as [|v l]; [by apply wp_ret|].
  cbn [orb]. apply IH; [unfold ltof; cbn; lia|done].
Qed.

Lemma msetLoop_runs E l : Nat.even (length l) = true → ∀ f out n s, runs g db0 f out n s →
  wp E (msetLoop g l) (λ _, runs g db0 (msetStore l f) out n) s.
Proof.
  induction l as [l IH] using (induction_ltof1 _ length). intros Hl f out n s Hs.
  destruct l as [|k [|v l]]; [done..|]. cbn [msetLoop msetStore]. wp_step. apply wp_encode_arg.
  intros o Ho. wp_step. eapply wp_setKey; [done|by eauto|]. rewrite (string_obj_view o v Ho).
  intros s1 Hs1. apply IH; [unfold ltof; cbn; lia|done..].
Qed.

Lemma mset_meets nx f n l : meets g db0 (msetGenericCommand g (n :: l) nx) f (msetSpec f nx l).
Proof.
  intros s Hs. unfold msetGenericCommand, msetSpec. cbn [length drop].
  assert ((Z.of_nat (S (length l)) `mod` 2 =? 0) = Nat.odd (length l)) as ->.
  { destruct (Nat.odd (length l)) eqn:Ho.
    - apply Nat.odd_spec in Ho as [m ->]. apply Z.eqb_eq.
      replace (Z.of_nat (S (2 * m + 1))) with (Z.of_nat (m + 1) * 2) by lia. by apply Z_mod_mult.
    - rewrite <-Nat.negb_even in Ho. apply negb_false_iff, Nat.even_spec in Ho as [m ->].
      apply Z.eqb_neq. replace (Z.of_nat (S (2 * m))) with (1 + Z.of_nat m * 2) by lia.
      by rewrite Z_mod_plus_full. }
  destruct (Nat.odd (length l)) eqn:Ho; [reply Hs|].
  rewrite <-Nat.negb_even in Ho. apply negb_false_iff in Ho. wp_step.
  apply (wp_mono _ _ (λ b s', b = nx && existsb (λ k, bool_decide (is_Some (f k))) (evens l) ∧
                              runs g db0 f [] 0 s')).
  2:{ destruct nx; [by apply msetnxLoop_runs|done]. }
  clear s Hs. intros b s [-> Hs]. destruct (nx && _); [reply Hs|]. wp_step.
  eapply wp_mono; [|by apply msetLoop_runs]. intros [] s1 Hs1. wp_step.
  eapply wp_addDirty; [done|]. intros s2 _ Hs2. reply Hs2.
  replace (Z.of_nat (length l / 2)) with (0 + (Z.of_nat (S (length l)) - 1) `div` 2); [done|].
  rewrite Nat2Z.inj_div, Z.add_0_l. f_equal. lia.
Qed.

(** The overflow test of INCR is exact. *)
Lemma incr_overflows v incr :
  LLONG_MIN ≤ v ≤ LLONG_MAX → LLONG_MIN ≤ incr ≤ LLONG_MAX →
  ((incr <? 0) && (v <? 0) && (incr <? LLONG_MIN - v) ||
   (0 <? incr) && (0 <? v) && (LLONG_MAX - v <? incr)) =
  negb (bool_decide (LLONG_MIN ≤ v + incr ≤ LLONG_MAX)).
Proof. unfold LLONG_MIN, LLONG_MAX. intros. case_bool_decide; lia. Qed.

(** The end of INCR: the new value is stored, in place or as a new object. *)
Lemma wp_incrStore E rc k o v f out s :
  LLONG_MIN ≤ v ≤ LLONG_MAX → runs g db0 f out 0 s → holds g k o s →
  (∀ ob, o = Some ob → o_type ob = OBJ_STRING) →
  wp E ((match o with
         | Some ob =>
             if (rc =? 1) && bool_decide (o_encoding ob = OBJ_ENCODING_INT) &&
                ((v <? 0) || (OBJ_SHARED_INTEGERS <=? v)) && (LLONG_MIN <=? v) && (v <=? LLONG_MAX)
             then onDb (storeObj k (mkObj (o_type ob) (o_encoding ob) (PtrLong v)))
             else onDb (dbOverwrite k (createIntObject v))
         | None => onDb (dbAdd k (createIntObject v))
         end) ;; addDirty 1 ;; emit (RInt v))
    (λ _, runs g db0 (aset k (AStr (decimal v)) (expires (cs_db s) !! k) f) (out ++ [RInt v]) 1) s.
Proof.
  intros Hv Hs Hk Ht. wp_step.
  apply (wp_mono _ _ (λ _, runs g db0 (aset k (AStr (decimal v)) (expires (cs_db s) !! k) f) out 0)).
  { intros [] s1 Hs1. wp_step. eapply wp_addDirty; [done|]. intros s2 _ Hs2. reply Hs2. }
  assert (objOk (createIntObject v)) as Hok by by eauto.
  destruct o as [ob|].
  - case_match eqn:Htest.
    + rewrite !andb_true_iff, bool_decide_eq_true in Htest. destruct Htest as ((((_ & ->) & _) & _) & _).
      rewrite (Ht ob) by done. eapply wp_storeObj; [done..|]. by intros s1 Hs1 _ _.
    + eapply wp_dbOverwrite; [done..|]. by intros s1 Hs1 _ _.
  - eapply wp_dbAdd; [done..|]. intros s1 Hs1 _ _.
    by rewrite (runs_fresh_expire g db0 k f out 0 s Hs (proj1 Hk)).
Qed.

(** INCR, once it has the old value. *)
Lemma wp_incrTail E rc k o v incr f s :
  LLONG_MIN ≤ v ≤ LLONG_MAX → LLONG_MIN ≤ incr ≤ LLONG_MAX →
  runs g db0 f [] 0 s → holds g k o s → (∀ ob, o = Some ob → o_type ob = OBJ_STRING) →
  wp E (if (incr <? 0) && (v <? 0) && (incr <? LLONG_MIN - v) ||
           (0 <? incr) && (0 <? v) && (LLONG_MAX - v <? incr) then
          emit overflowErr
        else
          let value := i64 (v + incr) in
          (match o with
           | Some o =>
               if (rc =? 1) && bool_decide (o_encoding o = OBJ_ENCODING_INT) &&
                  ((value <? 0) || (OBJ_SHARED_INTEGERS <=? value)) &&
                  (LLONG_MIN <=? value) && (value <=? LLONG_MAX)
               then onDb (storeObj k (mkObj (o_type o) (o_encoding o) (PtrLong value)))
               else onDb (dbOverwrite k (createIntObject value))
           | None => onDb (dbAdd k (createIntObject value))
           end) ;; addDirty 1 ;; emit (RInt value))
     (λ _ s', match (if bool_decide (LLONG_MIN ≤ v + incr ≤ LLONG_MAX)
                     then writes f k (AStr (decimal (v + incr))) (expires (cs_db s) !! k) (RInt (v + incr))
                     else answers f overflowErr) with
              | Ok (f', out, n) => runs g db0 f' out n s' | Fault _ => False end) s.
Proof.
  intros Hv Hi Hs Hk Ht. rewrite incr_overflows by done. case_bool_decide as Hr; cbn [negb].
  - cbv zeta. rewrite i64_id by done. by apply (wp_incrStore E rc k o (v + incr) f [] s).
  - reply Hs.
Qed.

Lemma incrDecr_meets rc f n k l incr : LLONG_MIN ≤ incr ≤ LLONG_MAX →
  meets g db0 (incrDecrCommand g rc (n :: k :: l) incr) f (incrSpec f k incr).
Proof.
  intros Hincr s Hs. unfold incrDecrCommand, incrSpec. next_arg. wp_step.
  eapply wp_lookupKeyWrite; [done|]. clear s Hs. intros [o|] s Hs Hk; wp_step.
  - destruct (stringAt_some f [] 0 s k o Hs Hk) as [-> _].
    eapply wp_checkString; [done..| |intros s' -> Hs'; by go_on].
    intros b Hb ->. cbv iota. wp_step. eapply wp_getLongLong; [done..| |intros s' -> Hs'; by go_on].
    intros v -> Hv. apply (wp_incrTail _ (rc k) k (Some o) v); [done..|]. intros ? [= <-]. by eapply string_obj_type.
  - destruct (stringAt_none f [] 0 s k Hs Hk) as [-> ->]. wp_step. cbv iota. wp_step.
    eapply (wp_run_ok _ _ _ _ (Some 0)); [done|].
    rewrite <-(runs_fresh_expire g db0 k f [] 0 s Hs (proj1 Hk)).
    apply (wp_incrTail _ (rc k) k None 0); done.
Qed.

Lemma incrby_meets rc f n k a :
  meets g db0 (incrbyCommand g rc [n; k; a]) f (incrbySpec f k a id).
Proof.
  intros s Hs. unfold incrbyCommand, incrbySpec. next_arg. wp_step.
  eapply wp_getLongLong; [done|apply createStringObject_string|..]; [|intros s' -> Hs'; by go_on].
  intros v -> Hv. by apply incrDecr_meets.
Qed.

Lemma decrby_meets rc f n k a :
  meets g db0 (decrbyCommand g rc [n; k; a]) f (incrbySpec f k a (λ v, i64 (- v))).
Proof.
  intros s Hs. unfold decrbyCommand, incrbySpec. next_arg. wp_step.
  eapply wp_getLongLong; [done|apply createStringObject_string|..]; [|intros s' -> Hs'; by go_on].
  intros v -> Hv. apply incrDecr_meets; [apply i64_range|done].
Qed.

Lemma append_meets rc f n k v :
  meets g db0 (appendCommand g rc [n; k; v]) f (appendSpec f k v).
Proof.
  intros s Hs. unfold appendCommand, appendSpec. next_arg. next_arg. wp_step.
  eapply wp_lookupKeyWrite; [done|]. clear s Hs. intros [o|] s Hs Hk; wp_step.
  - destruct (stringAt_some f [] 0 s k o Hs Hk) as [-> _]. wp_step.
    eapply wp_checkString; [done..| |intros s' -> Hs'; by go_on].
    intros b Hb ->. cbv iota zeta. wp_step. eapply wp_run_ok; [by apply stringObjectLen_run|].
    rewrite <-Nat2Z.inj_add, <-length_app. set (len := Z.of_nat (length (b ++ v))).
    wp_step. eapply wp_checkStringLength; [done| |intros s' -> Hs'; by go_on].
    intros ->. cbn [negb]. wp_step. eapply wp_dbUnshareStringValue; [done..|].
    intros s1 Hs1 Hk1 He. wp_step. apply wp_ret. wp_step.
    destruct (Z.ltb_spec LLONG_MAX len) as [Hbig|Hsmall]; [by apply wp_sdsalloc_fails|].
    apply wp_sdsalloc; [done|]. wp_step.
    eapply (wp_storeObj g db0 _ k (createRawStringObject (b ++ v))); [done|done|by eauto|].
    rewrite He. intros s2 Hs2 _ _. wp_steps. eapply wp_addDirty; [done|].
    intros s3 _ Hs3. reply Hs3.
  - destruct (stringAt_none f [] 0 s k Hs Hk) as [-> ->]. wp_step. apply wp_encode_arg.
    intros o Ho. wp_step. eapply wp_dbAdd; [done..|by eauto|]. rewrite (string_obj_view o v Ho).
    intros s1 Hs1 _ _. wp_step. eapply wp_run_ok; [by apply stringObjectLen_run|]. wp_steps.
    eapply wp_addDirty; [done|]. intros s2 _ Hs2. reply Hs2.
Qed.

End Meets.

(** The strings of the store fit in the address space. *)
Definition short (f : astore) : Prop :=
  ∀ k b e, f k = Some (AStr b, e) → Z.of_nat (length b) ≤ LLONG_MAX.

Lemma getrangeRaw_spec g ro f k a b :
  short f → getrangeRaw g ro f k a b = getrangeSpec g ro f k a b.
Proof.
  intros Hf. unfold getrangeRaw, getrangeSpec.
  destruct (string2ll a) as [s|] eqn:Ha; [|done]. destruct (string2ll b) as [e|] eqn:Hb; [|done].
  apply string2ll_decimal in Ha as [Ha _]. apply string2ll_decimal in Hb as [Hb _].
  unfold readable. destruct (f k) as [[v ex]|] eqn:Hk; [|done].
  destruct (timedOut g ex && _); [done|]. destruct v as [str|o]; [|done].
  by rewrite getrangeBytes_rangeOf by eauto.
Qed.

(** The arguments of a command with the right arity. *)
Lemma strArity_args p (args : list bytes) :
  arityFits (strArity p) (Z.of_nat (length args)) = true →
  match p with
  | getsetProc | incrbyProc | decrbyProc | appendProc => ∃ n k a, args = [n; k; a]
  | setrangeProc | getrangeProc | substrProc => ∃ n k a b, args = [n; k; a; b]
  | incrProc | decrProc | strlenProc => ∃ n k, args = [n; k]
  | mgetProc | msetProc | msetnxProc => ∃ n l, args = n :: l
  end.
Proof.
  unfold arityFits. destruct args as [|n [|k [|a [|b [|? ?]]]]]; destruct p;
    cbn [strArity length]; intros Hn; first [by eauto 6|lia].
Qed.

(** Only the allocations of SETRANGE and APPEND can fail. *)
Lemma strSpec_fault p g resp args f x :
  strSpec p g resp args f = Fault x → ∃ site, x = OutOfMemory site.
Proof.
  unfold strSpec, getsetSpec, setrangeSpec, getrangeSpec, mgetSpec, msetSpec, incrbySpec, incrSpec,
    appendSpec, strlenSpec, writes, answers.
  intros Hx. repeat case_match; simplify_eq; eauto.
Qed.

(** What the code does, on any store. *)
Lemma strCall_meets p rc g resp args db f :
  arityFits (strArity p) (Z.of_nat (length args)) = true →
  ∃ r, meets g db (strCall p rc g resp args) f r ∧
       (∀ x, r = Fault x → ∃ site, x = OutOfMemory site) ∧
       (short f → r = strSpec p g resp args f).
Proof.
  intros Hn%strArity_args.
  assert (∀ n k a b, ∃ r, meets g db (getrangeCommand g true [n; k; a; b]) f r ∧
    (∀ x, r = Fault x → ∃ site, x = OutOfMemory site) ∧
    (short f → r = getrangeSpec g true f k a b)) as Hrange.
  { intros n k a b. exists (getrangeRaw g true f k a b).
    split_and!; [apply getrange_meets| |apply getrangeRaw_spec].
    intros x. unfold getrangeRaw, answers. repeat case_match; by intros. }
  destruct p;
    first [destruct Hn as (?&?&?&?&->) | destruct Hn as (?&?&?&->) | destruct Hn as (?&?&->)];
    try (by apply Hrange); (eexists; split_and!; [|by apply strSpec_fault|done]); cbn [strCall strSpec];
    unfold msetCommand, msetnxCommand, incrCommand, decrCommand;
    first [apply incrDecr_meets; unfold LLONG_MIN, LLONG_MAX; lia
          |auto using getset_meets, setrange_meets, mget_meets, mset_meets, append_meets, strlen_meets,
             incrby_meets, decrby_meets].
Qed.

(** ** The commands behind the interface of the command table *)

Definition strProcOf (name : string) : option strProc :=
  head (filter (λ p, strName p = name) strProcs).

Section Table.
Context (rc : bytes → Z) (rest : OtherCommands).

(** A table with the string commands, and the commands of [rest]. *)
Definition string_call (name : string) (g : genv) (resp : Z) (args : list bytes) :
    M redisDb (list reply * Z) :=
  match strProcOf name with
  | Some p => runCommand (strCall p rc g resp args)
  | None => @other_call rest name g resp args
  end.

Lemma string_call_wf name g resp args db :
  arityFits (match strProcOf name with Some p => strArity p | None => @other_arity rest name end)
    (Z.of_nat (length args)) = true →
  ks_wf (dict db) (expires db) →
  match string_call name g resp args db with
  | Ok (_, db') => same_backend db db' ∧ ks_wf (dict db') (expires db')
  | Fault f => (∃ site, f = OutOfMemory site) ∨ @other_fault rest f
  end.
Proof.
  intros Hn Hok. unfold string_call. destruct (strProcOf name) as [p|].
  2:{ pose proof (@other_wf rest name g resp args db Hn Hok) as Hwf. by case_match; [|right]. }
  destruct (strCall_meets p rc g resp args db (seen g db) Hn) as (r & Hr & Hf & _).
  apply meets_on, runCommand_meets in Hr; [|done]. destruct r as [[[f out] n]|x].
  - by destruct Hr as (db' & -> & ? & ? & _).
  - rewrite Hr. left. by apply Hf.
Qed.

Definition stringCommands : OtherCommands := {|
  other_lookup n := match strProcOf (string_of_list_ascii n) with
                    | Some p => Some (strName p)
                    | None => @other_lookup rest n
                    end;
  other_arity name := match strProcOf name with Some p => strArity p | None => @other_arity rest name end;
  other_flags name := match strProcOf name with Some p => strFlags p | None => @other_flags rest name end;
  other_call := string_call;
  other_fault f := (∃ site, f = OutOfMemory site) ∨ @other_fault rest f;
  other_wf := string_call_wf |}.

Lemma strProcOf_name p : strProcOf (strName p) = Some p.
Proof. by destruct p. Qed.

End Table.

(** ** The commands run by [call] *)

(** C21. GETSET, SETRANGE, GETRANGE, SUBSTR, MGET, MSET, MSETNX, INCR, DECR, INCRBY,
    DECRBY, APPEND and STRLEN, run by call on a master or on a replica, do to the
    store what their specification says: the replies, the new values with the expire
    times they keep or lose, the other keys unchanged, the number of changes, and
    the errors (wrong type, not an integer, overflow, string too long); the server
    stops exactly when SETRANGE or APPEND passes the size test with a size no
    allocation can have. *)
Theorem string_commands_meet_spec (p : strProc) (rc : bytes → Z) (rest : OtherCommands) (c : clientId)
    (cl : client) (db : redisDb) (s : server) :
  let g := srv_env s in
  clients s !! c = Some cl → c_cmd cl = Some (otherProc (strName p)) →
  arityFits (strArity p) (Z.of_nat (length (c_argv cl))) = true →
  dbs s !! c_db cl = Some db → db_ok db → short (seen g db) →
  match strSpec p g (c_resp cl) (c_argv cl) (seen g db) with
  | Ok (f, out, n) =>
      ∃ db', @call (stringCommands rc rest) c s = Ok (tt, afterReplies c cl out n db' s) ∧
             same_backend db db' ∧ db_ok db' ∧ ∀ k, seen g db' k = f k
  | Fault x => @call (stringCommands rc rest) c s = Fault x
  end.
Proof.
  intros g Hc Hcmd Hn Hdb Hok Hshort. erewrite call_other_run by done.
  cbn [other_call stringCommands]. unfold string_call. rewrite strProcOf_name. fold g.
  destruct (strCall_meets p rc g (c_resp cl) (c_argv cl) db (seen g db) Hn) as (r & Hr & _ & <-); [|done].
  apply meets_on, runCommand_meets in Hr; [|done]. destruct r as [[[f out] n]|x]; [|by rewrite Hr].
  destruct Hr as (db' & -> & ? & ? & ?). by exists db'.
Qed.

Lemma stringDb_short : short (seen (mkEnv false false 1000) stringDb).
Proof.
  intros k b e. unfold seen. destruct (timedOut _ _ && _); [discriminate|].
  destruct (dict stringDb !! k) as [o|] eqn:Hk; [|discriminate].
  unfold stringDb in Hk. cbn [dict] in Hk. apply lookup_singleton_Some in Hk as [_ <-].
  cbn. intros [= <- _]. vm_compute. discriminate.
Qed.

Lemma string_commands_meet_spec_witness :
  ∃ db', @call (stringCommands (λ _, 1) noOther) 1%nat
           (stringServer (otherProc "append") [B "APPEND"; B "k"; B "er"]) =
    Ok (tt, afterReplies 1 (set_cmd (Some (otherProc "append")) [B "APPEND"; B "k"; B "er"] (createClient true))
              [RInt 5] 1 db' (stringServer (otherProc "append") [B "APPEND"; B "k"; B "er"])).
Proof.
  pose proof (string_commands_meet_spec appendProc (λ _, 1) noOther 1%nat
    (set_cmd (Some (otherProc "append")) [B "APPEND"; B "k"; B "er"] (createClient true)) stringDb
    (stringServer (otherProc "append") [B "APPEND"; B "k"; B "er"])) as H.
  destruct H as (db' & H & _).
  - reflexivity.
  - reflexivity.
  - reflexivity.
  - reflexivity.
  - exact stringDb_ok.
  - exact stringDb_short.
  - exists db'. exact H.
Defined.

(** ** The edges of the integers *)

(** The size test of SETRANGE is made on a wrapped sum: an offset and a value whose
    sizes add up to 2^63 or more pass the limit of 512MB, and the allocation stops
    the server. For every smaller sum the limit is enforced on a new key: no string
    longer than 512MB is stored. *)
Theorem setrange_limit_wraps (rc : bytes → Z) (g : genv) (db : redisDb) (k a v n : bytes) (o : Z) :
  db_ok db → seen g db k = None → string2ll a = Some o → 0 ≤ o → v ≠ [] →
  Z.of_nat (length v) ≤ LLONG_MAX →
  let size := o + Z.of_nat (length v) in
  let r := runCommand (setrangeCommand g rc [n; k; a; v]) db in
  if LLONG_MAX <? size then r = Fault (OutOfMemory "sdsnewlen")
  else if 536870912 <? size then ∃ db', r = Ok (([tooLongErr], 0), db') ∧ ∀ k, seen g db' k = seen g db k
  else ∃ db', r = Ok (([RInt size], 1), db') ∧
              seen g db' k = Some (AStr (replicate (Z.to_nat o) NUL ++ v), None).
Proof.
  intros Hok Hk Ha Ho Hv Hlen size r.
  pose proof (runCommand_meets g _ db _ (meets_on g db _ _ Hok (setrange_meets g db rc (seen g db) n k a v))) as Hr.
  fold r in Hr. unfold setrangeSpec, stringAt, present in Hr. rewrite Ha, Hk in Hr. cbv zeta in Hr.
  fold size in Hr. rewrite (proj2 (Z.ltb_ge o 0)), bool_decide_eq_false_2 in Hr by done.
  unfold tooLong, answers, writes in Hr. destruct (Z.ltb_spec LLONG_MAX size) as [Hbig|Hsmall].
  - assert (i64 size = size - 2 ^ 64) as Hi.
    { apply string2ll_decimal in Ha as [Ha _]. unfold i64, size, LLONG_MAX in *.
      rewrite <-(Z.mod_unique _ (2 ^ 64) 1 (o + Z.of_nat (length v) + 2 ^ 63 - 2 ^ 64)); lia. }
    rewrite (proj2 (Z.ltb_ge 536870912 (i64 size))) in Hr; [done|].
    apply string2ll_decimal in Ha as [Ha _]. unfold size, LLONG_MAX in *. lia.
  - rewrite i64_id in Hr by (unfold LLONG_MIN, size in *; lia).
    destruct (536870912 <? size).
    + destruct Hr as (db' & Hr & _ & _ & Hs). by exists db'.
    + destruct Hr as (db' & Hr & _ & _ & Hs). exists db'. rewrite Hs. unfold aset. rewrite decide_True by done.
      rewrite Hr, Z.max_l by (unfold size; cbn; lia). split; [done|].
      unfold splice. cbn [length app]. by rewrite take_replicate, drop_nil, app_nil_r, Nat.sub_0_r, Nat.min_id.
Qed.

Lemma setrange_limit_wraps_witness :
  runCommand (setrangeCommand (mkEnv false false 1000) (λ _, 1)
                [B "SETRANGE"; B "k"; B "9223372036854775807"; B "x"]) emptyDb =
  Fault (OutOfMemory "sdsnewlen").
Proof.
  pose proof (setrange_limit_wraps (λ _, 1) (mkEnv false false 1000) emptyDb (B "k")
    (B "9223372036854775807") (B "x") (B "SETRANGE") 9223372036854775807) as H.
  apply H.
  - split; cbn; [by intros k [? [=]]|by intros k o [=]].
  - reflexivity.
  - reflexivity.
  - discriminate.
  - discriminate.
  - discriminate.
Defined.

(** DECRBY with the smallest integer decrements by 2^63 where it should increment: the
    negation wraps to the same integer, and the overflow test does not see it. *)
Lemma decrby_smallest_integer rc g n k a v e f db :
  f k = Some (AStr (decimal v), e) → 0 ≤ v ≤ LLONG_MAX → string2ll a = Some LLONG_MIN →
  meets g db (decrbyCommand g rc [n; k; a]) f
    (writes f k (AStr (decimal (v - 2 ^ 63))) e (RInt (v - 2 ^ 63))).
Proof.
  intros Hk Hv Ha. pose proof (decrby_meets g db rc f n k a) as Hm. unfold incrbySpec in Hm.
  rewrite Ha in Hm. change (i64 (- LLONG_MIN)) with (- 2 ^ 63) in Hm.
  unfold incrSpec, stringAt, present in Hm. rewrite Hk, bool_decide_eq_true_2 in Hm by by eexists.
  rewrite (proj2 (string2ll_decimal (decimal v) v)) in Hm by (split; [unfold LLONG_MIN; lia|done]).
  rewrite bool_decide_eq_true_2 in Hm by (unfold LLONG_MIN, LLONG_MAX in *; lia). exact Hm.
Qed.
