(* ===== verification/KeyCmds.v ===== *)
(** * KeyCmds: the keyspace commands

    EXISTS, TYPE, RENAME, RENAMENX, DBSIZE, FLUSHDB, KEYS and RANDOMKEY
    (src/src/db.c), EXPIRE, PEXPIRE, EXPIREAT, PEXPIREAT, TTL, PTTL, PERSIST and
    TOUCH (src/src/expire.c) on the database of the client, and what each of them
    does to the abstract store.

    The order in which the main dictionary is iterated ([DictOrder]), the random key it
    gives ([pick]) and the names of the module types ([moduleName]) are
    parameters.  Commands on two databases (MOVE, SWAPDB, FLUSHALL) and the
    deletion of values in a background thread are not modelled. *)

From Stdlib Require Import Ascii String ZifyBool.
From stdpp Require Import base tactics option list strings numbers gmap fin_maps sorting.
From S2P Require Import Prelude Util Glob Object Db Server TString StringProps Command.

Local Open Scope Z_scope.

(** The order in which the main dictionary is iterated, which depends on its hash seed:
    each key once. *)
Class DictOrder := {
  dictOrder : gmap bytes robj → list bytes;
  dictOrder_perm : ∀ d, dictOrder d ≡ₚ (map_to_list d).*1 }.

(** ** The commands *)

Section KeyCommands.
Context `{DictOrder} (g : genv) (ro : bool) (moduleName : robj → string) (args : list bytes).

Let argc : Z := Z.of_nat (length args).

Fixpoint existsLoop (keys : list bytes) (count : Z) : M cmdState Z :=
  match keys with
  | [] => mret count
  | k :: keys =>
      o ← onDb (lookupKeyRead g ro k);
      existsLoop keys (if bool_decide (is_Some o) then count + 1 else count)
  end.

Definition existsCommand : M cmdState unit :=
  count ← existsLoop (drop 1 args) 0; emit (RInt count).

Definition touchCommand : M cmdState unit :=
  touched ← existsLoop (drop 1 args) 0; emit (RInt touched).

Definition getObjectTypeName (o : option robj) : string :=
  match o with
  | None => "none"
  | Some o =>
      match o_type o with
      | OBJ_STRING => "string" | OBJ_LIST => "list" | OBJ_SET => "set" | OBJ_ZSET => "zset"
      | OBJ_HASH => "hash" | OBJ_STREAM => "stream" | OBJ_MODULE => moduleName o
      end
  end.

Definition typeCommand : M cmdState unit :=
  key ← arg args 1;
  o ← onDb (lookupKeyReadWithFlags g ro key);
  emit (RStatus (getObjectTypeName o)).

Definition expireGenericCommand (basetime unit : Z) : M cmdState Datatypes.unit :=
  key ← arg args 1; param ← arg args 2;
  when ← getLongLongFromObjectOrReply (Some (createStringObject param));
  match when with
  | None => mret tt
  | Some when =>
      let when := if unit =? UNIT_SECONDS then i64 (when * 1000) else when in
      let when := i64 (when + basetime) in
      o ← onDb (lookupKeyWrite g key);
      match o with
      | None => emit (RInt 0)
      | Some _ =>
          if (when <=? mstime g) && negb (loading g) && negb (masterhost g) then
            deleted ← onDb (dbSyncDelete key);
            serverAssert deleted "expireGenericCommand" ;;
            addDirty 1 ;;
            emit (RInt 1)
          else
            onDb (setExpire key when) ;;
            emit (RInt 1) ;;
            addDirty 1
      end
  end.

Definition expireCommand : M cmdState unit := expireGenericCommand (mstime g) UNIT_SECONDS.
Definition expireatCommand : M cmdState unit := expireGenericCommand 0 UNIT_SECONDS.
Definition pexpireCommand : M cmdState unit := expireGenericCommand (mstime g) UNIT_MILLISECONDS.
Definition pexpireatCommand : M cmdState unit := expireGenericCommand 0 UNIT_MILLISECONDS.

Definition ttlGenericCommand (output_ms : bool) : M cmdState unit :=
  key ← arg args 1;
  o ← onDb (lookupKeyReadWithFlags g ro key);
  match o with
  | None => emit (RInt (-2))
  | Some _ =>
      expire ← onDb (getExpire key);
      let ttl := if negb (expire =? -1)
                 then let ttl := i64 (expire - mstime g) in if ttl <? 0 then 0 else ttl
                 else -1 in
      if ttl =? -1 then emit (RInt (-1))
      else emit (RInt (if output_ms then ttl else Z.quot (i64 (ttl + 500)) 1000))
  end.

Definition ttlCommand : M cmdState unit := ttlGenericCommand false.
Definition pttlCommand : M cmdState unit := ttlGenericCommand true.

Definition persistCommand : M cmdState unit :=
  key ← arg args 1;
  o ← onDb (lookupKeyWrite g key);
  match o with
  | Some _ =>
      removed ← onDb (removeExpire key);
      if removed : bool then emit (RInt 1) ;; addDirty 1 else emit (RInt 0)
  | None => emit (RInt 0)
  end.

Definition renameGenericCommand (nx : bool) : M cmdState unit :=
  from ← arg args 1; to ← arg args 2;
  let samekey := bool_decide (from = to) in
  o ← lookupKeyWriteOrReply g from (RError "no such key");
  match o with
  | None => mret tt
  | Some o =>
      if samekey then emit (if nx then RInt 0 else ROk) else
      expire ← onDb (getExpire from);
      d ← onDb (lookupKeyWrite g to);
      match d with
      | Some _ =>
          if nx then emit (RInt 0) ;; mret false
          else onDb (dbSyncDelete to) ;; mret true
      | None => mret true
      end ≫= λ go : bool,
      if negb go then mret tt else
      onDb (dbAdd to o) ;;
      (if negb (expire =? -1) then onDb (setExpire to expire) else mret tt) ;;
      onDb (dbSyncDelete from) ;;
      addDirty 1 ;;
      emit (if nx then RInt 1 else ROk)
  end.

Definition renameCommand : M cmdState unit := renameGenericCommand false.
Definition renamenxCommand : M cmdState unit := renameGenericCommand true.

Definition dbsizeCommand : M cmdState unit :=
  n ← onDb (gets (λ db, Z.of_nat (size (dict db)))); emit (RInt n).

(** [true] is [C_OK]; emptying in the background leaves the same database. *)
Definition getFlushCommandFlags : M cmdState bool :=
  if 1 <? argc then
    a ← arg args 1;
    if (2 <? argc) || negb (strcaseeq a (B "async")) then
      emit (RError "syntax error") ;; mret false
    else mret true
  else mret true.

(** [emptyDbGeneric] on one database of the server. *)
Definition emptyOneDb : M redisDb Z :=
  db ← get;
  put (with_keyspace ∅ ∅ db) ;;
  mret (Z.of_nat (size (dict db))).

Definition flushdbCommand : M cmdState unit :=
  ok ← getFlushCommandFlags;
  if negb ok then mret tt else
  removed ← onDb emptyOneDb;
  addDirty removed ;;
  emit ROk.

(** The length of a string as an [int]. *)
Definition intLength (b : bytes) : Z := i32 (Z.of_nat (length b)).

(** [pattern[0] == '*' && plen == 1] *)
Definition allKeys (pattern : bytes) : bool :=
  bool_decide (head pattern = Some "*"%char) && (intLength pattern =? 1).

(** Both lengths are the same as an [int]. *)
Definition lengthsFit (pattern k : bytes) : bool :=
  (intLength pattern =? Z.of_nat (length pattern)) && (intLength k =? Z.of_nat (length k)).

(** The call of the matcher, which takes the lengths as [int]: a string of 2 GB or more is
    matched with another length, which can be negative, and the reads are not bounded by the
    string any more. *)
Definition matchKey (pattern k : bytes) : res bool :=
  if lengthsFit pattern k then stringmatchlen pattern k false else Fault (BadPointer "stringmatchlen").

(** The loop of KEYS: the keys that match and have not timed out. *)
Fixpoint keysLoop (pattern : bytes) (allkeys : bool) (keys : list bytes) : M cmdState (list bytes) :=
  match keys with
  | [] => mret []
  | k :: keys =>
      m ← (if allkeys then mret true
           else λ s, match matchKey pattern k with Ok b => Ok (b, s) | Fault f => Fault f end);
      if m : bool then
        expired ← onDb (keyIsExpired g k);
        rest ← keysLoop pattern allkeys keys;
        mret (if expired : bool then rest else k :: rest)
      else keysLoop pattern allkeys keys
  end.

(** The length of the reply is filled in at the end. *)
Definition keysCommand : M cmdState unit :=
  pattern ← arg args 1;
  let allkeys := allKeys pattern in
  keys ← onDb (gets (λ db, dictOrder (dict db)));
  l ← keysLoop pattern allkeys keys;
  emit (RArrayLen (Z.of_nat (length l))) ;;
  forM_ l (λ k, emit (RBulk k)).

End KeyCommands.

(** *** RANDOMKEY *)

Section RandomKey.
Context (g : genv) (pick : nat → gmap bytes robj → option bytes).

(** The loop of [dbRandomKey], for at most [fuel] turns ([None]: it is still running);
    [pick i] is the key [dictGetFairRandomKey] gives in turn [i]. *)
Fixpoint randomKeyLoop (fuel i : nat) (allvolatile : bool) (maxtries : Z) :
    M redisDb (option (option bytes)) :=
  match fuel with
  | O => mret None
  | S fuel =>
      db ← get;
      match pick i (dict db) with
      | None => mret (Some None)
      | Some key =>
          if bool_decide (is_Some (expires db !! key)) then
            let last := allvolatile && masterhost g in
            let maxtries := if last then maxtries - 1 else maxtries in
            if last && (maxtries =? 0) then mret (Some (Some key)) else
            expired ← expireIfNeeded g key;
            if expired : bool then randomKeyLoop fuel (S i) allvolatile maxtries
            else mret (Some (Some key))
          else mret (Some (Some key))
      end
  end.

Definition dbRandomKey (fuel : nat) : M redisDb (option (option bytes)) :=
  db ← get;
  randomKeyLoop fuel 0 (bool_decide (size (dict db) = size (expires db))) 100.

End RandomKey.

(** ** The command table *)

Inductive keyProc :=
  | existsProc | touchProc | typeProc | expireProc | expireatProc | pexpireProc | pexpireatProc
  | ttlProc | pttlProc | persistProc | renameProc | renamenxProc | dbsizeProc | flushdbProc | keysProc.

#[global] Instance keyProc_eq_dec : EqDecision keyProc.
Proof. solve_decision. Defined.

Definition keyProcs : list keyProc :=
  [existsProc; touchProc; typeProc; expireProc; expireatProc; pexpireProc; pexpireatProc; ttlProc;
   pttlProc; persistProc; renameProc; renamenxProc; dbsizeProc; flushdbProc; keysProc].

Definition keyName (p : keyProc) : string :=
  match p with
  | existsProc => "exists" | touchProc => "touch" | typeProc => "type" | expireProc => "expire"
  | expireatProc => "expireat" | pexpireProc => "pexpire" | pexpireatProc => "pexpireat"
  | ttlProc => "ttl" | pttlProc => "pttl" | persistProc => "persist" | renameProc => "rename"
  | renamenxProc => "renamenx" | dbsizeProc => "dbsize" | flushdbProc => "flushdb" | keysProc => "keys"
  end.

Definition keyArity (p : keyProc) : Z :=
  match p with
  | existsProc | touchProc => -2
  | typeProc | ttlProc | pttlProc | persistProc | keysProc => 2
  | expireProc | expireatProc | pexpireProc | pexpireatProc | renameProc | renamenxProc => 3
  | dbsizeProc => 1
  | flushdbProc => -1
  end.

Definition keyFlags (p : keyProc) : cmdFlags :=
  match p with
  | existsProc | touchProc | typeProc | ttlProc | pttlProc | dbsizeProc | keysProc =>
      mkFlags false true false false false false false
  | _ => mkFlags true false false false false false false
  end.

Definition keyCall `{DictOrder} (p : keyProc) (moduleName : robj → string) (g : genv) (args : list bytes) : M cmdState unit :=
  let ro := CMD_READONLY (keyFlags p) in
  match p with
  | existsProc => existsCommand g ro args
  | touchProc => touchCommand g ro args
  | typeProc => typeCommand g ro moduleName args
  | expireProc => expireCommand g args
  | expireatProc => expireatCommand g args
  | pexpireProc => pexpireCommand g args
  | pexpireatProc => pexpireatCommand g args
  | ttlProc => ttlCommand g ro args
  | pttlProc => pttlCommand g ro args
  | persistProc => persistCommand g args
  | renameProc => renameCommand g args
  | renamenxProc => renamenxCommand g args
  | dbsizeProc => dbsizeCommand
  | flushdbProc => flushdbCommand args
  | keysProc => keysCommand g args
  end.

(** ** What the commands mean *)

Section Meaning.
Context (g : genv) (ro : bool) (moduleName : robj → string) (f : astore).

Definition countSpec (keys : list bytes) : res outcome :=
  answers f (RInt (Z.of_nat (length (filter (λ k, is_Some (readable g ro (f k))) keys)))).

Definition typeNameOf (v : aval) : string :=
  match v with
  | AStr _ => "string"
  | AObj o => getObjectTypeName moduleName (Some o)
  end.

Definition typeSpec (k : bytes) : res outcome :=
  answers f (RStatus (match readable g ro (f k) with Some (v, _) => typeNameOf v | None => "none" end)).

(** The time of EXPIRE and its variants: the product and the sum wrap around. *)
Definition whenOf (v basetime unit : Z) : Z :=
  i64 ((if unit =? UNIT_SECONDS then i64 (v * 1000) else v) + basetime).

(** A time in the past deletes the key on a master that is not loading. *)
Definition expireSpec (basetime unit : Z) (k a : bytes) : res outcome :=
  match string2ll a with
  | None => answers f (RError "value is not an integer or out of range")
  | Some v =>
      match f k with
      | None => answers f (RInt 0)
      | Some (o, _) =>
          let w := whenOf v basetime unit in
          if (w <=? mstime g) && negb (loading g) && negb (masterhost g)
          then Ok (adel k f, [RInt 1], 1)
          else writes f k o (Some w) (RInt 1)
      end
  end.

(** [-2]: no such key; [-1]: no expire; else what is left, in milliseconds or rounded to
    seconds. *)
Definition ttlSpec (ms : bool) (k : bytes) : res outcome :=
  answers f (RInt (
    match readable g ro (f k) with
    | None => -2
    | Some (_, e) =>
        let w := default (-1) e in
        if w =? -1 then -1
        else let t := Z.max 0 (i64 (w - mstime g)) in
             if ms then t else Z.quot (i64 (t + 500)) 1000
    end)).

Definition persistSpec (k : bytes) : res outcome :=
  match f k with
  | Some (v, Some _) => writes f k v None (RInt 1)
  | _ => answers f (RInt 0)
  end.

(** The value moves with its expire time. *)
Definition renameSpec (nx : bool) (k1 k2 : bytes) : res outcome :=
  match f k1 with
  | None => answers f (RError "no such key")
  | Some (v, e) =>
      if bool_decide (k1 = k2) then answers f (if nx then RInt 0 else ROk)
      else if nx && bool_decide (is_Some (f k2)) then answers f (RInt 0)
      else Ok (adel k1 (aset k2 v (if bool_decide (e = Some (-1)) then None else e) f),
               [if nx then RInt 1 else ROk], 1)
  end.

(** [n]: the keys of the dictionary, those that have timed out included. *)
Definition dbsizeSpec (n : nat) : res outcome := answers f (RInt (Z.of_nat n)).

Definition flushdbSpec (n : nat) (opts : list bytes) : res outcome :=
  match opts with
  | [] => Ok (λ _, None, [ROk], Z.of_nat n)
  | [a] => if strcaseeq a (B "async") then Ok (λ _, None, [ROk], Z.of_nat n)
           else answers f (RError "syntax error")
  | _ => answers f (RError "syntax error")
  end.

(** The pattern matches the key. *)
Definition keyMatches (pattern k : bytes) : bool :=
  allKeys pattern ||
  match stringmatchlen pattern k false with Ok b => b | Fault _ => false end.

(** The keys that match the pattern and have not timed out, when the lengths fit. *)
Definition keysSpec (pattern : bytes) (keys : list bytes) : res outcome :=
  let l := filter (λ k, is_Some (readable g true (f k)) ∧ keyMatches pattern k = true) keys in
  if allKeys pattern || forallb (lengthsFit pattern) keys
  then Ok (f, RArrayLen (Z.of_nat (length l)) :: (RBulk <$> l), 0)
  else Fault (BadPointer "stringmatchlen").

End Meaning.

Definition keySpec (p : keyProc) (moduleName : robj → string) (g : genv) (args : list bytes)
    (keys : list bytes) (f : astore) : res outcome :=
  let ro := CMD_READONLY (keyFlags p) in
  match p, args with
  | (existsProc | touchProc), _ :: ks => countSpec g ro f ks
  | typeProc, [_; k] => typeSpec g ro moduleName f k
  | expireProc, [_; k; a] => expireSpec g f (mstime g) UNIT_SECONDS k a
  | expireatProc, [_; k; a] => expireSpec g f 0 UNIT_SECONDS k a
  | pexpireProc, [_; k; a] => expireSpec g f (mstime g) UNIT_MILLISECONDS k a
  | pexpireatProc, [_; k; a] => expireSpec g f 0 UNIT_MILLISECONDS k a
  | ttlProc, [_; k] => ttlSpec g ro f false k
  | pttlProc, [_; k] => ttlSpec g ro f true k
  | persistProc, [_; k] => persistSpec f k
  | renameProc, [_; k1; k2] => renameSpec f false k1 k2
  | renamenxProc, [_; k1; k2] => renameSpec f true k1 k2
  | dbsizeProc, _ => dbsizeSpec f (length keys)
  | flushdbProc, _ :: opts => flushdbSpec f (length keys) opts
  | keysProc, [_; p] => keysSpec g f p keys
  | _, _ => Ok (f, [], 0)
  end.

(** ** The commands do what they mean *)

Section Meets.
Context `{DictOrder} (g : genv) (db0 : redisDb).
Implicit Types (f : astore) (s : cmdState).

Lemma existsLoop_runs E ro keys f out n : ∀ count s, runs g db0 f out n s →
  wp E (existsLoop g ro keys count)
    (λ c s', c = count + Z.of_nat (length (filter (λ k, is_Some (readable g ro (f k))) keys)) ∧
             runs g db0 f out n s') s.
Proof.
  induction keys as [|k keys IH]; intros count s Hs; cbn [existsLoop]; [by rewrite Z.add_0_r|].
  wp_step. eapply wp_lookupKeyRead; [done|]. intros o s1 Hs1 Hr _.
  eapply wp_mono; [|by apply IH]. intros c s2 [-> Hs2]. split; [|done].
  rewrite filter_cons, Hr. destruct o as [o|]; cbn [fmap option_fmap option_map].
  - rewrite decide_True, bool_decide_eq_true_2 by by eexists. cbn [length]. lia.
  - by rewrite decide_False, bool_decide_eq_false_2 by by intros [].
Qed.

Lemma exists_meets ro f n keys : meets g db0 (existsCommand g ro (n :: keys)) f (countSpec g ro f keys).
Proof.
  intros s Hs. unfold existsCommand, countSpec. wp_step. eapply wp_mono; [|by apply existsLoop_runs].
  intros c s1 [-> Hs1]. reply Hs1.
Qed.

Lemma touch_meets ro f n keys : meets g db0 (touchCommand g ro (n :: keys)) f (countSpec g ro f keys).
Proof. exact (exists_meets ro f n keys). Qed.

Lemma type_meets ro mn f n k : meets g db0 (typeCommand g ro mn [n; k]) f (typeSpec g ro mn f k).
Proof.
  intros s Hs. unfold typeCommand, typeSpec. next_arg. wp_step. eapply wp_lookupKeyRead; [done|].
  intros o s1 Hs1 -> _. eapply wp_emit; [done|]. intros s2 _ Hs2. destruct o as [o|]; [|done].
  cbn [fmap option_fmap option_map] in *. unfold viewObj, typeNameOf in *.
  case_bool_decide as Ht; [|done]. cbn [getObjectTypeName] in Hs2. by rewrite Ht in Hs2.
Qed.

Lemma expire_meets base unit f n k a :
  meets g db0 (expireGenericCommand g [n; k; a] base unit) f (expireSpec g f base unit k a).
Proof.
  intros s Hs. unfold expireGenericCommand, expireSpec. next_arg. next_arg. wp_step.
  eapply wp_getLongLong; [done|apply createStringObject_string|..]; [|intros s' -> Hs'; by go_on].
  intros v -> Hv. cbv zeta. fold (whenOf v base unit). set (w := whenOf v base unit). wp_step.
  eapply wp_lookupKeyWrite; [done|]. clear s Hs. intros o s Hs Hk.
  rewrite (runs_holds g db0 f [] 0 s k o) by done. destruct o as [o|]; cbn [fmap option_fmap option_map]; [|reply Hs].
  destruct ((w <=? mstime g) && negb (loading g) && negb (masterhost g)) eqn:Hpast.
  - wp_step. eapply wp_dbSyncDelete; [done..|]. intros s1 Hs1 _ _. rewrite bool_decide_eq_true_2 by by eexists.
    wp_step. apply wp_serverAssert; [done|]. wp_step. eapply wp_addDirty; [done|]. intros s2 _ Hs2.
    reply Hs2.
  - wp_step. eapply wp_setExpire; [done..|]. intros s1 Hs1. wp_step.
    assert (timedOut g (Some w) && negb (masterhost g) = false) as Ht.
    { unfold timedOut. destruct (loading g), (masterhost g); cbn in *; rewrite ?andb_false_r; try done. lia. }
    rewrite Ht in Hs1. eapply wp_emit; [done|]. intros s2 _ Hs2. eapply wp_addDirty; [done|]. done.
Qed.

Lemma ttl_meets ro ms f n k : meets g db0 (ttlGenericCommand g ro [n; k] ms) f (ttlSpec g ro f ms k).
Proof.
  intros s Hs. unfold ttlGenericCommand, ttlSpec. next_arg. wp_step. eapply wp_lookupKeyRead; [done|].
  intros o s1 Hs1 -> _. destruct o as [o|]; cbn [fmap option_fmap option_map]; [|reply Hs1].
  wp_step. eapply wp_getExpire; [done|]. set (w := default (-1) _). cbv zeta.
  destruct (Z.eqb_spec w (-1)) as [Hw|Hw]; cbn [negb]; [reply Hs1|].
  replace (if i64 (w - mstime g) <? 0 then 0 else i64 (w - mstime g))
    with (Z.max 0 (i64 (w - mstime g))) by (case_match; lia).
  rewrite (proj2 (Z.eqb_neq _ (-1))) by lia. reply Hs1.
Qed.

Lemma persist_meets f n k : meets g db0 (persistCommand g [n; k]) f (persistSpec f k).
Proof.
  intros s Hs. unfold persistCommand, persistSpec. next_arg. wp_step. eapply wp_lookupKeyWrite; [done|].
  clear s Hs. intros o s Hs Hk. rewrite (runs_holds g db0 f [] 0 s k o) by done.
  destruct o as [o|]; cbn [fmap option_fmap option_map]; [|reply Hs]. wp_step.
  eapply wp_removeExpire; [done..|]. intros s1 Hs1.
  assert (f k = Some (viewObj o, expires (cs_db s) !! k)) as Hfk by by rewrite (runs_holds g db0 f [] 0 s k (Some o)).
  destruct (expires (cs_db s) !! k) as [w|].
  - rewrite bool_decide_eq_true_2 by by eexists. wp_step. eapply wp_emit; [done|]. intros s2 _ Hs2.
    eapply wp_addDirty; [done|]. done.
  - rewrite bool_decide_eq_false_2 by by intros []. eapply wp_emit; [done|]. intros s2 _ Hs2.
    eapply runs_ext; [|exact Hs2]. intros k'. unfold aset. destruct (decide (k' = k)) as [->|]; [by rewrite Hfk|done].
Qed.

(** The end of RENAME: the value is at the new key, then the old one goes. *)
Lemma wp_renameMove E from to o e (r : reply) f s :
  from ≠ to → objOk o → runs g db0 f [] 0 s → holds g to None s → holds g from (Some o) s →
  e = expires (cs_db s) !! from →
  wp E (onDb (dbAdd to o) ;;
        (if negb (default (-1) e =? -1) then onDb (setExpire to (default (-1) e)) else mret tt) ;;
        onDb (dbSyncDelete from) ;; addDirty 1 ;; emit r)
    (λ _, runs g db0 (adel from (aset to (viewObj o) (if bool_decide (e = Some (-1)) then None else e) f)) [r] 1) s.
Proof.
  intros Hne Ho Hs Hto Hfrom He. pose proof (runs_holds g db0 f [] 0 s from (Some o) Hs Hfrom) as Hf.
  assert (∀ s', runs g db0 (aset to (viewObj o) (if bool_decide (e = Some (-1)) then None else e) f) [] 0 s' →
    wp E (onDb (dbSyncDelete from) ;; addDirty 1 ;; emit r)
      (λ _, runs g db0 (adel from (aset to (viewObj o) (if bool_decide (e = Some (-1)) then None else e) f)) [r] 1) s')
    as Hend.
  { intros s' Hs'. wp_step. eapply wp_dbSyncDelete_any; [done|]. intros b s1 Hs1 _. wp_step.
    eapply wp_addDirty; [done|]. intros s2 _ Hs2. reply Hs2. }
  wp_step. eapply wp_dbAdd; [done..|]. intros s1 Hs1 Hto1 Hex. wp_step.
  destruct e as [w|]; cbn [default from_option]; [|by apply wp_ret, Hend].
  unfold id. destruct (Z.eqb_spec w (-1)) as [->|Hw]; [by apply wp_ret, Hend|]. cbn [negb].
  rewrite (bool_decide_eq_false_2 (Some w = Some (-1))) in * by congruence.
  eapply wp_setExpire; [done..|].
  destruct Hfrom as [_ Hlive]. rewrite <-He in Hlive. rewrite Hlive.
  intros s2 Hs2. apply Hend. eapply runs_ext; [|exact Hs2]. apply aset_aset.
Qed.

Lemma rename_meets nx f n k1 k2 :
  meets g db0 (renameGenericCommand g [n; k1; k2] nx) f (renameSpec f nx k1 k2).
Proof.
  intros s Hs. unfold renameGenericCommand, renameSpec. next_arg. next_arg. wp_step.
  eapply wp_lookupKeyWriteOrReply; [done|intros s' -> Hs'; by go_on|]. clear s Hs. intros o s Ho Hs Hk1.
  rewrite (runs_holds g db0 f [] 0 s k1 (Some o)) by done. cbn [fmap option_fmap option_map].
  case_bool_decide as Hsame; [reply Hs|]. wp_step. eapply wp_getExpire; [done|]. wp_step.
  eapply wp_lookupKeyWrite_other; [done..|]. intros d s1 Hs1 Hk2 Hk1' He1. wp_step.
  rewrite (runs_holds g db0 f [] 0 s1 k2 d) by done. rewrite <-He1.
  assert (∀ s' f', runs g db0 f' [] 0 s' → holds g k2 None s' → holds g k1 (Some o) s' →
    expires (cs_db s1) !! k1 = expires (cs_db s') !! k1 → (∀ k, k ≠ k2 → f' k = f k) → ∀ E,
    wp E (onDb (dbAdd k2 o) ;;
          (if negb (default (-1) (expires (cs_db s1) !! k1) =? -1)
           then onDb (setExpire k2 (default (-1) (expires (cs_db s1) !! k1))) else mret tt) ;;
          onDb (dbSyncDelete k1) ;; addDirty 1 ;; emit (if nx then RInt 1 else ROk))
      (λ _, runs g db0 (adel k1 (aset k2 (viewObj o)
          (if bool_decide (expires (cs_db s1) !! k1 = Some (-1)) then None
           else expires (cs_db s1) !! k1) f)) [if nx then RInt 1 else ROk] 1) s') as Hmove.
  { intros s' f' Hs' Hk2' Hk1'' He' Hf' E. eapply wp_mono; [|by apply (wp_renameMove E k1 k2 o)].
    intros [] s2. apply runs_ext. intros k. unfold adel, aset. repeat case_decide; auto. }
  destruct d as [d|]; cbn [fmap option_fmap option_map].
  - rewrite bool_decide_eq_true_2, andb_true_r by by eexists. destruct nx; [wp_step; reply Hs1; by go_on|].
    wp_step. eapply wp_dbSyncDelete; [done..|]. intros s2 Hs2 Hk2' Hother. go_on. 
    destruct (Hother k1) as [Hd1 He2]; [done|].
    apply (Hmove s2 _ Hs2); [done| |done|].
    + split; [by rewrite Hd1; apply Hk1'|]. rewrite He2. apply Hk1'.
    + intros k Hk. unfold adel. by rewrite decide_False.
  - rewrite bool_decide_eq_false_2, andb_false_r by by intros []. go_on. by apply (Hmove s1 f).
Qed.

End Meets.

(** *** Commands on the whole database *)

Section WholeDb.
Context `{DictOrder} (g : genv) (db : redisDb) (Hok : db_ok db).

Lemma dictOrder_size : length (dictOrder (dict db)) = size (dict db).
Proof. rewrite (Permutation_length (dictOrder_perm (dict db))), length_fmap. apply length_map_to_list. Qed.

Lemma dictOrder_lookup k : k ∈ dictOrder (dict db) ↔ is_Some (dict db !! k).
Proof.
  rewrite dictOrder_perm, list_elem_of_fmap. split.
  - intros ([k' o] & -> & Hk%elem_of_map_to_list). by exists o.
  - intros [o Ho]. exists (k, o). split; [done|]. by apply elem_of_map_to_list.
Qed.

Lemma dbsize_meets :
  meetsOn g db dbsizeCommand (dbsizeSpec (seen g db) (length (dictOrder (dict db)))).
Proof using Hok.
  rewrite dictOrder_size. pose proof (runs_start g db Hok) as Hs. unfold meetsOn, dbsizeCommand. wp_step.
  eapply wp_onDb_read; [done|]. reply Hs.
Qed.

Lemma flushdb_meets n opts :
  meetsOn g db (flushdbCommand (n :: opts)) (flushdbSpec (seen g db) (length (dictOrder (dict db))) opts).
Proof using Hok.
  rewrite dictOrder_size. pose proof (runs_start g db Hok) as Hs.
  assert (∀ E, wp E (removed ← onDb emptyOneDb; addDirty removed ;; emit ROk)
    (λ _, runs g db (λ _, None) [ROk] (Z.of_nat (size (dict db)))) (mkCmd db [] 0)) as Hflush.
  { intros E. wp_step. eapply wp_onDb; [done|]. wp_step.
    eapply (wp_addDirty g db _ _ (λ _, None) [] 0).
    - split; cbn; [|done| |done..]; [split; cbn; [by intros k []%lookup_empty_is_Some|by intros k o ?%lookup_empty_Some]|].
      intros k. unfold seen. cbn. by rewrite !lookup_empty.
    - intros s' _ Hs'. reply Hs'. }
  unfold meetsOn, flushdbCommand, getFlushCommandFlags, flushdbSpec. wp_step. cbn [length].
  destruct opts as [|a [|b opts]]; cbn [length].
  - apply wp_ret. apply Hflush.
  - rewrite (proj2 (Z.ltb_lt 1 _)) by lia. next_arg. change (2 <? Z.of_nat 2) with false. cbn [orb].
    destruct (strcaseeq a (B "async")); cbn [negb]; [apply wp_ret, Hflush|].
    wp_step. eapply wp_emit; [done|]. intros s' _ Hs'. by apply wp_ret, wp_ret.
  - rewrite (proj2 (Z.ltb_lt 1 _)) by lia. next_arg. rewrite (proj2 (Z.ltb_lt 2 _)) by lia. cbn [orb].
    wp_step. eapply wp_emit; [done|]. intros s' _ Hs'. by apply wp_ret, wp_ret.
Qed.

Lemma keysLoop_run pattern keys s :
  cs_db s = db → (∀ k, k ∈ keys → is_Some (dict db !! k)) →
  keysLoop g pattern (allKeys pattern) keys s =
  if allKeys pattern || forallb (lengthsFit pattern) keys
  then Ok (filter (λ k, is_Some (readable g true (seen g db k)) ∧ keyMatches pattern k = true) keys, s)
  else Fault (BadPointer "stringmatchlen").
Proof using Hok.
  intros Hdb Hkeys. induction keys as [|k keys IH]; [cbn; by rewrite orb_true_r|]. cbn [keysLoop forallb].
  specialize (IH ltac:(intros k' ?; apply Hkeys; by constructor)).
  destruct (allKeys pattern || lengthsFit pattern k) eqn:Hfit.
  2:{ apply orb_false_iff in Hfit as [Hall Hfit]. rewrite Hall, Hfit. unfold mbind, M_bind, matchKey. by rewrite Hfit. }
  assert (allKeys pattern || lengthsFit pattern k && forallb (lengthsFit pattern) keys =
          allKeys pattern || forallb (lengthsFit pattern) keys) as ->.
  { by destruct (allKeys pattern), (lengthsFit pattern k). }
  rewrite (bind_run _ _ s (keyMatches pattern k) s).
  2:{ unfold keyMatches, matchKey. destruct (allKeys pattern); [done|]. cbn [orb] in *. rewrite Hfit.
      destruct (matchLoop_spec false (S (length pattern)) pattern) with k as (b & Hb & _); [lia|].
      unfold stringmatchlen. by rewrite Hb. }
  assert (is_Some (readable g true (seen g db k)) ↔ timedOut g (expires db !! k) = false) as Hread.
  { destruct (Hkeys k) as [o Ho]; [by constructor|]. unfold seen. rewrite Ho, is_Some_alt.
    destruct (timedOut g (expires db !! k)) eqn:Ht, (masterhost g); cbn; rewrite ?Ht;
      rewrite ?orb_true_r; cbn; done. }
  rewrite filter_cons. destruct (keyMatches pattern k) eqn:Hm.
  - erewrite bind_run by (unfold onDb; rewrite Hdb; by rewrite keyIsExpired_run by by apply db_ok_wf).
    rewrite <-Hdb. replace (mkCmd (cs_db s) (cs_out s) (cs_dirty s)) with s by by destruct s.
    rewrite Hdb. unfold mbind, M_bind. rewrite IH. destruct (_ || _); [|done].
    change (expired_at g db k) with (timedOut g (expires db !! k)).
    destruct (timedOut g (expires db !! k)) eqn:Ht.
    + rewrite decide_False; [done|]. intros [?%Hread _]. done.
    + rewrite decide_True; [done|]. by split; [apply Hread|].
  - rewrite decide_False by by intros [_ ?]. exact IH.
Qed.

Lemma emitAll_runs E l : ∀ f out n s, runs g db f out n s →
  wp E (forM_ l (λ k, emit (RBulk k))) (λ _, runs g db f (out ++ (RBulk <$> l)) n) s.
Proof.
  induction l as [|k l IH]; intros f out n s Hs; cbn [forM_]; [by rewrite app_nil_r|].
  wp_step. eapply wp_emit; [done|]. intros s1 _ Hs1. eapply wp_mono; [|by apply IH].
  intros [] s2. by rewrite <-(assoc_L (++)).
Qed.

Lemma keys_meets n p : meetsOn g db (keysCommand g [n; p]) (keysSpec g (seen g db) p (dictOrder (dict db))).
Proof using Hok.
  unfold meetsOn, keysCommand, keysSpec. next_arg. wp_step. eapply wp_onDb_read; [done|]. wp_step.
  unfold wp at 1. rewrite keysLoop_run; [|done|intros k; apply dictOrder_lookup]. destruct (_ || _); [|done]. wp_step.
  eapply wp_emit; [by apply runs_start|]. intros s1 _ Hs1. by apply (emitAll_runs _ _ _ [_]).
Qed.

End WholeDb.

(** ** The commands run by [call] *)

Lemma keyArity_args p (args : list bytes) :
  arityFits (keyArity p) (Z.of_nat (length args)) = true →
  match p with
  | existsProc | touchProc | flushdbProc => ∃ n l, args = n :: l
  | typeProc | ttlProc | pttlProc | persistProc | keysProc => ∃ n k, args = [n; k]
  | expireProc | expireatProc | pexpireProc | pexpireatProc | renameProc | renamenxProc =>
      ∃ n k a, args = [n; k; a]
  | dbsizeProc => True
  end.
Proof.
  unfold arityFits. destruct args as [|n [|k [|a [|? ?]]]]; destruct p;
    cbn [keyArity length]; intros Hn; first [by eauto 6|lia].
Qed.

Lemma keyCall_meets `{DictOrder} p mn g args db :
  arityFits (keyArity p) (Z.of_nat (length args)) = true → db_ok db →
  meetsOn g db (keyCall p mn g args) (keySpec p mn g args (dictOrder (dict db)) (seen g db)).
Proof.
  intros Hn%keyArity_args Hok. destruct p;
    first [destruct Hn as (?&?&?&->) | destruct Hn as (?&?&->) | clear Hn]; cbn [keyCall keySpec];
    auto using dbsize_meets, flushdb_meets, keys_meets;
    unfold expireCommand, expireatCommand, pexpireCommand, pexpireatCommand, ttlCommand, pttlCommand,
      renameCommand, renamenxCommand;
    (apply meets_on; [done|]);
    auto using exists_meets, touch_meets, type_meets, expire_meets, ttl_meets, persist_meets, rename_meets.
Qed.

(** KEYS with a pattern or a key of 2 GB or more. *)
Definition longKeys (p : keyProc) (args keys : list bytes) : Prop :=
  p = keysProc ∧ Exists (λ b, 2 ^ 31 ≤ Z.of_nat (length b)) (tail args ++ keys).

Lemma intLength_id b : Z.of_nat (length b) < 2 ^ 31 → intLength b = Z.of_nat (length b).
Proof. intros Hb. unfold intLength, i32. rewrite Z.mod_small; lia. Qed.

Lemma lengthsFit_short p k : Z.of_nat (length p) < 2 ^ 31 → Z.of_nat (length k) < 2 ^ 31 → lengthsFit p k = true.
Proof. intros Hp Hk. unfold lengthsFit. rewrite !intLength_id by done. by rewrite !Z.eqb_refl. Qed.

Lemma keysSpec_fault g f pattern keys x : keysSpec g f pattern keys = Fault x →
  x = BadPointer "stringmatchlen" ∧ Exists (λ b, 2 ^ 31 ≤ Z.of_nat (length b)) (pattern :: keys).
Proof.
  unfold keysSpec. intros Hx. destruct (_ || _) eqn:Hfit; simplify_eq. split; [done|]. apply orb_false_iff in Hfit as [_ Hfit].
  destruct (decide (Exists (λ b, 2 ^ 31 ≤ Z.of_nat (length b)) (pattern :: keys))) as [Hs|Hs]; [done|].
  apply not_Exists_Forall in Hs; [|intros ?; apply _]. apply Forall_cons in Hs as [Hp Hs].
  assert (forallb (lengthsFit pattern) keys = true) as Hall; [|congruence]. apply forallb_forall. intros k Hk. rewrite Forall_forall in Hs.
  apply lengthsFit_short; [cbn in Hp; lia|]. apply list_elem_of_In, Hs in Hk. cbn in Hk. lia.
Qed.

Lemma keySpec_fault p mn g args keys f x : keySpec p mn g args keys f = Fault x →
  x = BadPointer "stringmatchlen" ∧ longKeys p args keys.
Proof.
  unfold keySpec, countSpec, typeSpec, expireSpec, ttlSpec, persistSpec, renameSpec, dbsizeSpec,
    flushdbSpec, writes, answers, longKeys. intros Hx. repeat case_match; simplify_eq.
  apply keysSpec_fault in Hx as [-> Hx]. done.
Qed.

Definition keyProcOf (name : string) : option keyProc :=
  head (filter (λ p, keyName p = name) keyProcs).

Lemma keyProcOf_name p : keyProcOf (keyName p) = Some p.
Proof. by destruct p. Qed.

Section Table.
Context `{DictOrder} (mn : robj → string) (rest : OtherCommands).

(** A table with the keyspace commands, and the commands of [rest]. *)
Definition key_call (name : string) (g : genv) (resp : Z) (args : list bytes) :
    M redisDb (list reply * Z) :=
  match keyProcOf name with
  | Some p => runCommand (keyCall p mn g args)
  | None => @other_call rest name g resp args
  end.

Lemma key_call_wf name g resp args db :
  arityFits (match keyProcOf name with Some p => keyArity p | None => @other_arity rest name end)
    (Z.of_nat (length args)) = true →
  ks_wf (dict db) (expires db) →
  match key_call name g resp args db with
  | Ok (_, db') => same_backend db db' ∧ ks_wf (dict db') (expires db')
  | Fault f => f = BadPointer "stringmatchlen" ∨ @other_fault rest f
  end.
Proof.
  intros Hn Hok. unfold key_call. destruct (keyProcOf name) as [p|].
  2:{ pose proof (@other_wf rest name g resp args db Hn Hok) as Hr. case_match; [done|by right]. }
  pose proof (runCommand_meets _ _ _ _ (keyCall_meets p mn g args db Hn Hok)) as Hr.
  destruct (keySpec p mn g args _ _) as [[[f out] n]|x] eqn:Hx; [|apply keySpec_fault in Hx as [-> _]; rewrite Hr; by left].
  by destruct Hr as (db' & -> & ? & ? & _).
Qed.

Definition keyCommands : OtherCommands := {|
  other_lookup n := match keyProcOf (string_of_list_ascii n) with
                    | Some p => Some (keyName p)
                    | None => @other_lookup rest n
                    end;
  other_arity name := match keyProcOf name with Some p => keyArity p | None => @other_arity rest name end;
  other_flags name := match keyProcOf name with Some p => keyFlags p | None => @other_flags rest name end;
  other_call := key_call;
  other_fault f := f = BadPointer "stringmatchlen" ∨ @other_fault rest f;
  other_wf := key_call_wf |}.

End Table.

(** C22. EXISTS, TOUCH, TYPE, EXPIRE, EXPIREAT, PEXPIRE, PEXPIREAT, TTL, PTTL, PERSIST,
    RENAME, RENAMENX, DBSIZE, FLUSHDB and KEYS, run by call with a number of
    arguments their arity allows on a master or on a replica with a well-formed
    database, do to the store what their specification says: the replies, the values
    and expire times that change, move or disappear, the other keys unchanged, and
    the number of changes. The only fault is that of KEYS when the pattern or a key
    has 2^31 bytes or more, so that its length does not fit the int of the pattern
    matcher. *)
Theorem key_commands_meet_spec `{DictOrder} (p : keyProc) (mn : robj → string) (rest : OtherCommands)
    (c : clientId) (cl : client) (db : redisDb) (s : server) :
  let g := srv_env s in
  clients s !! c = Some cl → c_cmd cl = Some (otherProc (keyName p)) →
  arityFits (keyArity p) (Z.of_nat (length (c_argv cl))) = true →
  dbs s !! c_db cl = Some db → db_ok db →
  match keySpec p mn g (c_argv cl) (dictOrder (dict db)) (seen g db) with
  | Ok (f, out, n) =>
      ∃ db', @call (keyCommands mn rest) c s = Ok (tt, afterReplies c cl out n db' s) ∧
             same_backend db db' ∧ db_ok db' ∧ ∀ k, seen g db' k = f k
  | Fault x => @call (keyCommands mn rest) c s = Fault x ∧ x = BadPointer "stringmatchlen" ∧
               longKeys p (c_argv cl) (dictOrder (dict db))
  end.
Proof.
  intros g Hc Hcmd Hn Hdb Hok. erewrite call_other_run by done.
  cbn [other_call keyCommands]. unfold key_call. rewrite keyProcOf_name. fold g.
  pose proof (runCommand_meets _ _ _ _ (keyCall_meets p mn g (c_argv cl) db Hn Hok)) as Hr.
  destruct (keySpec p mn g _ _ _) as [[[f out] n]|x] eqn:Hx; [|rewrite Hr; split; [done|by eapply keySpec_fault]].
  destruct Hr as (db' & -> & ? & ? & ?). by exists db'.
Qed.

(** The order of the keys in the model of a map. *)
Definition mapOrder : DictOrder :=
  {| dictOrder d := (map_to_list d).*1; dictOrder_perm d := Permutation_refl _ |}.

Lemma key_commands_meet_spec_witness :
  ∃ db', @call (@keyCommands mapOrder (λ _, EmptyString) noOther) 1%nat
           (stringServer (otherProc "ttl") [B "TTL"; B "k"]) =
    Ok (tt, afterReplies 1 (set_cmd (Some (otherProc "ttl")) [B "TTL"; B "k"] (createClient true))
              [RInt 4] 0 db' (stringServer (otherProc "ttl") [B "TTL"; B "k"])).
Proof.
  pose proof (@key_commands_meet_spec mapOrder ttlProc (λ _, EmptyString) noOther 1%nat
    (set_cmd (Some (otherProc "ttl")) [B "TTL"; B "k"] (createClient true)) stringDb
    (stringServer (otherProc "ttl") [B "TTL"; B "k"])) as H.
  destruct H as (db' & H & _).
  - reflexivity.
  - reflexivity.
  - reflexivity.
  - reflexivity.
  - exact stringDb_ok.
  - exists db'. exact H.
Defined.

(** ** The edges of EXPIRE *)

(** EXPIRE adds the time of day to the seconds in milliseconds with no overflow test: a
    time to live that fits in 64 bits of milliseconds can give a sum that wraps to the
    past, and the key is deleted at once; otherwise it gets exactly that expire time. *)
Theorem expire_far_future_deletes `{DictOrder} (g : genv) (db : redisDb) (mn : robj → string)
    (n k a : bytes) (v : Z) :
  db_ok db → is_Some (seen g db k) → masterhost g = false → loading g = false →
  0 ≤ mstime g ≤ LLONG_MAX → string2ll a = Some v → 0 < v → v * 1000 ≤ LLONG_MAX →
  ∃ db', runCommand (keyCall expireProc mn g [n; k; a]) db = Ok (([RInt 1], 1), db') ∧
         (∀ k', k' ≠ k → seen g db' k' = seen g db k') ∧
         if LLONG_MAX <? v * 1000 + mstime g then seen g db' k = None
         else ∃ o, seen g db' k = Some (o, Some (v * 1000 + mstime g)) ∧
                   fst <$> seen g db k = Some o.
Proof.
  intros Hok [[o e] Hk] Hm Hl Ht Ha Hpos Hv. set (w := v * 1000 + mstime g).
  pose proof (runCommand_meets _ _ _ _ (keyCall_meets expireProc mn g [n; k; a] db eq_refl Hok)) as Hr.
  cbn [keySpec] in Hr. unfold expireSpec in Hr. rewrite Ha, Hk, Hm, Hl in Hr. cbv zeta in Hr.
  unfold whenOf in Hr. rewrite (i64_id (v * 1000)) in Hr by (unfold LLONG_MIN in *; lia).
  change (UNIT_SECONDS =? UNIT_SECONDS) with true in Hr. cbv iota in Hr. fold w in Hr.
  rewrite Hk. destruct (Z.ltb_spec LLONG_MAX w) as [Hbig|Hsmall].
  - assert (i64 w = w - 2 ^ 64) as Hw.
    { unfold i64, w, LLONG_MAX in *.
      rewrite <-(Z.mod_unique _ (2 ^ 64) 1 (v * 1000 + mstime g + 2 ^ 63 - 2 ^ 64)); lia. }
    rewrite (proj2 (Z.leb_le (i64 w) (mstime g))) in Hr by (rewrite Hw; unfold w, LLONG_MAX in *; lia).
    destruct Hr as (db' & Hr & _ & _ & Hs). exists db'. split; [exact Hr|].
    split; [|by rewrite Hs; unfold adel; rewrite decide_True].
    intros k' Hne. rewrite Hs. unfold adel. by rewrite decide_False.
  - rewrite i64_id in Hr by (unfold LLONG_MIN, w in *; lia).
    rewrite (proj2 (Z.leb_gt w (mstime g))) in Hr by (unfold w; lia). unfold writes in Hr.
    destruct Hr as (db' & Hr & _ & _ & Hs). exists db'. split; [exact Hr|]. unfold aset in Hs.
    split; [intros k' Hne; by rewrite Hs, decide_False|]. exists o. by rewrite Hs, decide_True.
Qed.

Lemma expire_far_future_deletes_witness :
  ∃ db', runCommand (@keyCall mapOrder expireProc (λ _, EmptyString) (mkEnv false false 1000)
                       [B "EXPIRE"; B "k"; B "9223372036854775"]) stringDb = Ok (([RInt 1], 1), db') ∧
         seen (mkEnv false false 1000) db' (B "k") = None.
Proof.
  destruct (@expire_far_future_deletes mapOrder (mkEnv false false 1000) stringDb (λ _, EmptyString)
    (B "EXPIRE") (B "k") (B "9223372036854775") 9223372036854775) as (db' & Hr & _ & Hk).
  - exact stringDb_ok.
  - eexists. vm_compute. reflexivity.
  - reflexivity.
  - reflexivity.
  - split; discriminate.
  - vm_compute. reflexivity.
  - reflexivity.
  - discriminate.
  - exists db'. split; [exact Hr|exact Hk].
Defined.

(** ** RANDOMKEY *)

Section RandomKeyProofs.
Context (g : genv) (pick : nat → gmap bytes robj → option bytes).
Context (Hpick : ∀ i d, match pick i d with None => d = ∅ | Some k => is_Some (d !! k) end).

Lemma size_remove_key k db : is_Some (dict db !! k) →
  (size (dict (remove_key k db)) < size (dict db))%nat.
Proof.
  intros [o Ho]. cbn. rewrite map_size_delete_Some by (by eexists).
  assert (size (dict db) ≠ 0%nat); [|lia]. intros Hs%map_size_empty_iff. by rewrite Hs, lookup_empty in Ho.
Qed.

(** On a master every turn that goes on deletes a key. *)
Lemma randomKeyLoop_master allvolatile maxtries fuel : masterhost g = false → ∀ i db,
  db_ok db → (size (dict db) < fuel)%nat →
  ∃ r db', randomKeyLoop g pick fuel i allvolatile maxtries db = Ok (Some r, db') ∧ db_ok db' ∧
    (∀ k, seen g db' k = seen g db k) ∧
    match r with Some k => is_Some (seen g db k) | None => ∀ k, seen g db k = None end.
Proof using Hpick.
  intros Hm. induction fuel as [|fuel IH]; intros i db Hok Hf; [lia|]. cbn [randomKeyLoop].
  rewrite bind_get. pose proof (Hpick i (dict db)) as Hp. destruct (pick i (dict db)) as [key|].
  2:{ exists None, db. split_and!; [done..|]. intros k. unfold seen. rewrite Hp, lookup_empty. by case_match. }
  rewrite Hm, andb_false_r. cbn [andb].
  assert (timedOut g (expires db !! key) = false → is_Some (seen g db key)) as Hlive.
  { intros Ht. unfold seen. rewrite Ht. cbn. by apply fmap_is_Some. }
  case_bool_decide as Hex.
  2:{ exists (Some key), db. split_and!; [done..|]. apply Hlive.
      destruct (expires db !! key) eqn:He; [|done]. by destruct Hex. }
  erewrite bind_run by by apply expireIfNeeded_run, db_ok_wf.
  change (expired_at g db key) with (timedOut g (expires db !! key)).
  destruct (timedOut g (expires db !! key)) eqn:Ht.
  - destruct (IH (S i) (purge g key db)) as (r & db' & Hr & Hok' & Hs & Hres); [by apply db_ok_purge|..].
    { assert (purge g key db = remove_key key db) as ->.
      { unfold purge. change (expired_at g db key) with (timedOut g (expires db !! key)). by rewrite Ht, Hm. }
      pose proof (size_remove_key key db Hp). lia. }
    exists r, db'. split_and!; [done..| |]; [intros k; by rewrite Hs, seen_purge|].
    destruct r as [k|]; [by rewrite <-(seen_purge g key)|]. intros k. by rewrite <-(seen_purge g key).
  - exists (Some key), (purge g key db). split_and!; [done|by apply db_ok_purge| |by apply Hlive].
    intros k. by apply seen_purge.
Qed.

(** On a replica with only volatile keys there are at most a hundred turns. *)
Lemma randomKeyLoop_replica fuel : masterhost g = true → ∀ i (m : nat) db,
  db_ok db → (0 < m ≤ fuel)%nat →
  ∃ r, randomKeyLoop g pick fuel i true (Z.of_nat m) db = Ok (Some r, db) ∧
    match r with Some k => is_Some (dict db !! k) | None => dict db = ∅ end.
Proof using Hpick.
  intros Hm. induction fuel as [|fuel IH]; intros i m db Hok Hf; [lia|]. cbn [randomKeyLoop].
  rewrite bind_get. pose proof (Hpick i (dict db)) as Hp. destruct (pick i (dict db)) as [key|]; [|by exists None].
  rewrite Hm. cbn [andb]. case_bool_decide; [|by exists (Some key)].
  destruct (Z.eqb_spec (Z.of_nat m - 1) 0); [by exists (Some key)|].
  erewrite bind_run by by apply expireIfNeeded_run, db_ok_wf.
  assert (purge g key db = db) as -> by (unfold purge; by rewrite Hm, andb_false_r).
  destruct (expired_at g db key); [|by exists (Some key)].
  replace (Z.of_nat m - 1) with (Z.of_nat (m - 1)) by lia. apply IH; [done|lia].
Qed.

End RandomKeyProofs.

(** C27. The loop of RANDOMKEY ends, whatever the keys drawn: on a master after at most
    one turn more than there are keys, with a key that has not timed out, or none
    exactly when every key has, and the observable store is unchanged; on a replica
    whose keys all have an expire time within a hundred turns. *)
Theorem randomkey_ends (g : genv) (pick : nat → gmap bytes robj → option bytes) (db : redisDb) (fuel : nat) :
  (∀ i d, match pick i d with None => d = ∅ | Some k => is_Some (d !! k) end) → db_ok db →
  (masterhost g = false → (size (dict db) < fuel)%nat →
   ∃ r db', dbRandomKey g pick fuel db = Ok (Some r, db') ∧ db_ok db' ∧
     (∀ k, seen g db' k = seen g db k) ∧
     match r with Some k => is_Some (seen g db k) | None => ∀ k, seen g db k = None end) ∧
  (masterhost g = true → size (dict db) = size (expires db) → (100 ≤ fuel)%nat →
   ∃ r, dbRandomKey g pick fuel db = Ok (Some r, db) ∧
     match r with Some k => is_Some (dict db !! k) | None => dict db = ∅ end).
Proof.
  intros Hpick Hok. unfold dbRandomKey. rewrite bind_get. split.
  - intros Hm Hf. by apply randomKeyLoop_master.
  - intros Hm Hs Hf. rewrite bool_decide_eq_true_2 by done.
    apply (randomKeyLoop_replica g pick Hpick fuel Hm 0 100); [done|lia].
Qed.

(** The first key of the map. *)
Definition firstKey (d : gmap bytes robj) : option bytes := fst <$> head (map_to_list d).

Lemma firstKey_picks (i : nat) (d : gmap bytes robj) :
  match firstKey d with None => d = ∅ | Some k => is_Some (d !! k) end.
Proof.
  unfold firstKey. destruct (map_to_list d) as [|[k o] l] eqn:Hl; cbn.
  - by apply map_to_list_empty_iff.
  - exists o. apply elem_of_map_to_list. rewrite Hl. by constructor.
Qed.

Lemma randomkey_ends_witness :
  ∃ r db', dbRandomKey (mkEnv false false 9000) (λ _, firstKey) 2 stringDb = Ok (Some r, db').
Proof.
  destruct (randomkey_ends (mkEnv false false 9000) (λ _, firstKey) stringDb 2 firstKey_picks stringDb_ok)
    as [H _].
  destruct H as (r & db' & H & _).
  - reflexivity.
  - change (size (dict stringDb)) with 1%nat. lia.
  - exists r, db'. exact H.
Defined.
