(* ===== verification/Lcs.v ===== *)
(** * Lcs: the longest common subsequence of src/src/t_string.c

    STRALGO LCS: the options, the table of [stralgoLCS] in its linear array of
    32-bit cells with 32-bit index arithmetic, the walk back through the table that
    builds the subsequence and the matching ranges, and the replies.

    The array is allocated with a 32-bit product of the two lengths plus one, so for
    long strings it is shorter than the table: a cell outside is a fault.
    [garbage] is what the fresh array holds. *)

From Stdlib Require Import Ascii String ZifyBool.
From stdpp Require Import base tactics option list strings numbers gmap fin_maps.
From S2P Require Import Prelude Util Object Db Server TString StringProps Command.

Local Open Scope Z_scope.


(** A pair of matching ranges, both ends included. *)
Record range := mkRange { r_as : nat; r_ae : nat; r_bs : nat; r_be : nat }.

(** The variables of the walk back. *)
Record lcsWalk := mkWalk {
  w_i : nat; w_j : nat; w_idx : nat;
  w_result : bytes;                 (* the buffer of the subsequence *)
  w_cur : range;                    (* arange_start, arange_end, brange_start, brange_end *)
  w_out : list range }.             (* the ranges emitted, oldest first *)

(** ** The table *)

Section Table.
Context (garbage : nat → Z) (a b : bytes).

Definition alen : Z := u32 (Z.of_nat (length a)).
Definition blen : Z := u32 (Z.of_nat (length b)).

(** The index of [LCS(A,B)]. *)
Definition lcsIndex (A B : nat) : nat :=
  Z.to_nat (u32 (Z.of_nat B + u32 (Z.of_nat A * u32 (blen + 1)))).

Definition lcsGet (A B : nat) : M (list Z) Z :=
  t ← get; deref (t !! lcsIndex A B) "stralgoLCS".

Definition lcsSet (A B : nat) (v : Z) : M (list Z) unit :=
  t ← get;
  if bool_decide (lcsIndex A B < length t)%nat then put (<[lcsIndex A B := v]> t)
  else fail (BadPointer "stralgoLCS").

Definition lcsCell (i j : nat) : M (list Z) unit :=
  if bool_decide (i = 0%nat) || bool_decide (j = 0%nat) then lcsSet i j 0
  else if bool_decide (a !! (i - 1)%nat = b !! (j - 1)%nat) then
    v ← lcsGet (i - 1) (j - 1);
    lcsSet i j (u32 (v + 1))
  else
    lcs1 ← lcsGet (i - 1) j;
    lcs2 ← lcsGet i (j - 1);
    lcsSet i j (if lcs2 <? lcs1 then lcs1 else lcs2).

Definition lcsFill : M (list Z) unit :=
  forM_ (seq 0 (Z.to_nat alen + 1)) (λ i,
    forM_ (seq 0 (Z.to_nat blen + 1)) (λ j, lcsCell i j)).

(** The number of cells of [zmalloc((alen+1)*(blen+1)*sizeof(uint32_t))]. *)
Definition lcsCells : nat := Z.to_nat (u32 (u32 (alen + 1) * u32 (blen + 1))).

Definition lcsArray : list Z := garbage <$> seq 0 lcsCells.

(** ** The walk back *)

Context (minmatchlen : Z).

(** [arange_start] is [alen] when there is no current range. *)
Definition noRange (r : range) : bool := Z.of_nat (r_as r) =? alen.

Definition clearRange (r : range) : range := mkRange (Z.to_nat alen) (r_ae r) (r_bs r) (r_be r).

Definition matchLen (r : range) : Z := u32 (Z.of_nat (r_ae r) - Z.of_nat (r_as r) + 1).

(** The range is emitted when it is long enough. *)
Definition emitRange (r : range) (out : list range) : list range :=
  if (minmatchlen =? 0) || (minmatchlen <=? matchLen r) then out ++ [r] else out.

Definition walkStep (w : lcsWalk) : M (list Z) lcsWalk :=
  let i := w_i w in
  let j := w_j w in
  let cur := w_cur w in
  ai ← deref (a !! (i - 1)%nat) "stralgoLCS";
  bj ← deref (b !! (j - 1)%nat) "stralgoLCS";
  if bool_decide (ai = bj) then
    (if bool_decide (w_idx w = 0%nat) || bool_decide (length (w_result w) < w_idx w)%nat
     then fail (BadPointer "stralgoLCS") else mret tt) ;;
    let result := <[(w_idx w - 1)%nat := ai]> (w_result w) in
    let '(cur, emit) :=
      if noRange cur then (mkRange (i - 1) (i - 1) (j - 1) (j - 1), false)
      else if bool_decide (r_as cur = i) && bool_decide (r_bs cur = j)
      then (mkRange (r_as cur - 1) (r_ae cur) (r_bs cur - 1) (r_be cur), false)
      else (cur, true) in
    let emit := emit || bool_decide (r_as cur = 0%nat) || bool_decide (r_bs cur = 0%nat) in
    mret (mkWalk (i - 1) (j - 1) (w_idx w - 1) result
            (if emit then clearRange cur else cur)
            (if emit then emitRange cur (w_out w) else w_out w))
  else
    lcs1 ← lcsGet (i - 1) j;
    lcs2 ← lcsGet i (j - 1);
    let '(i, j) := if lcs2 <? lcs1 then ((i - 1)%nat, j) else (i, (j - 1)%nat) in
    let emit := negb (noRange cur) in
    mret (mkWalk i j (w_idx w) (w_result w)
            (if emit then clearRange cur else cur)
            (if emit then emitRange cur (w_out w) else w_out w)).

Fixpoint walkLoop (fuel : nat) (w : lcsWalk) : M (list Z) lcsWalk :=
  match fuel with
  | O => mret w
  | S fuel =>
      if bool_decide (w_i w = 0%nat) || bool_decide (w_j w = 0%nat) then mret w
      else w ← walkStep w; walkLoop fuel w
  end.

(** The length, and with [computelcs] the subsequence and the ranges. *)
Definition lcsCompute (computelcs : bool) : M (list Z) (Z * bytes * list range) :=
  lcsFill ;;
  idx ← lcsGet (Z.to_nat alen) (Z.to_nat blen);
  if computelcs then
    let start := mkWalk (Z.to_nat alen) (Z.to_nat blen) (Z.to_nat idx) (replicate (Z.to_nat idx) NUL)
                   (mkRange (Z.to_nat alen) 0 0 0) [] in
    w ← walkLoop (Z.to_nat alen + Z.to_nat blen) start;
    mret (idx, w_result w, w_out w)
  else mret (idx, [], []).

Definition lcsRun (computelcs : bool) : res (Z * bytes * list range) :=
  match lcsCompute computelcs lcsArray with
  | Ok (r, _) => Ok r
  | Fault f => Fault f
  end.

End Table.

(** ** The command *)

Record lcsOpts := mkLcsOpts {
  lo_minmatchlen : Z;
  lo_strings : option (bytes * bytes);     (* a and b *)
  lo_getlen : bool;
  lo_getidx : bool;
  lo_withmatchlen : bool }.

Section Command.
Context (garbage : nat → Z) (g : genv) (ro : bool) (args : list bytes).


(** The loop over the options; [None]: the command has replied an error. *)
Fixpoint lcsOptions (l : list bytes) (o : lcsOpts) : M cmdState (option lcsOpts) :=
  match l with
  | [] => mret (Some o)
  | opt :: l =>
      if strcaseeq opt (B "IDX") then
        lcsOptions l (mkLcsOpts (lo_minmatchlen o) (lo_strings o) (lo_getlen o) true (lo_withmatchlen o))
      else if strcaseeq opt (B "LEN") then
        lcsOptions l (mkLcsOpts (lo_minmatchlen o) (lo_strings o) true (lo_getidx o) (lo_withmatchlen o))
      else if strcaseeq opt (B "WITHMATCHLEN") then
        lcsOptions l (mkLcsOpts (lo_minmatchlen o) (lo_strings o) (lo_getlen o) (lo_getidx o) true)
      else
        match l with
        | x :: l1 =>
            if strcaseeq opt (B "MINMATCHLEN") then
              v ← getLongLongFromObjectOrReply (Some (createStringObject x));
              match v with
              | None => mret None
              | Some v => lcsOptions l1 (mkLcsOpts (if v <? 0 then 0 else v) (lo_strings o) (lo_getlen o)
                                           (lo_getidx o) (lo_withmatchlen o))
              end
            else
              match l1 with
              | y :: l2 =>
                  if strcaseeq opt (B "STRINGS") then
                    if bool_decide (is_Some (lo_strings o)) then
                      emit (RError "Either use STRINGS or KEYS") ;; mret None
                    else lcsOptions l2 (mkLcsOpts (lo_minmatchlen o) (Some (x, y)) (lo_getlen o)
                                          (lo_getidx o) (lo_withmatchlen o))
                  else if strcaseeq opt (B "KEYS") then
                    if bool_decide (is_Some (lo_strings o)) then
                      emit (RError "Either use STRINGS or KEYS") ;; mret None
                    else
                      ka ← onDb (lookupKeyRead g ro x);
                      kb ← onDb (lookupKeyRead g ro y);
                      sa ← match ka with Some ob => getDecodedObject ob | None => mret [] end;
                      sb ← match kb with Some ob => getDecodedObject ob | None => mret [] end;
                      lcsOptions l2 (mkLcsOpts (lo_minmatchlen o) (Some (sa, sb)) (lo_getlen o)
                                       (lo_getidx o) (lo_withmatchlen o))
                  else emit (RError "syntax error") ;; mret None
              | [] => emit (RError "syntax error") ;; mret None
              end
        | [] => emit (RError "syntax error") ;; mret None
        end
  end.

(** The replies for one range. *)
Definition rangeReply (withmatchlen : bool) (r : range) : list reply :=
  [RArrayLen (2 + if withmatchlen then 1 else 0);
   RArrayLen 2; RInt (Z.of_nat (r_as r)); RInt (Z.of_nat (r_ae r));
   RArrayLen 2; RInt (Z.of_nat (r_bs r)); RInt (Z.of_nat (r_be r))] ++
  (if withmatchlen then [RInt (matchLen r)] else []).

Definition stralgoLCS : M cmdState unit :=
  o ← lcsOptions (drop 2 args) (mkLcsOpts 0 None false false false);
  match o with
  | None => mret tt
  | Some o =>
      match lo_strings o with
      | None => emit (RError "Please specify two strings: STRINGS or KEYS options are mandatory")
      | Some (a, b) =>
          if lo_getlen o && lo_getidx o then
            emit (RError "If you want both the length and indexes, please just use IDX.")
          else
            r ← (λ s, match lcsRun garbage a b (lo_minmatchlen o) (lo_getidx o || negb (lo_getlen o)) with
                      | Ok r => Ok (r, s) | Fault f => Fault f end);
            let '(idx, result, ranges) := r in
            if lo_getidx o then
              emit (RMapLen 2) ;;
              emit (RBulk (B "matches")) ;;
              emit (RArrayLen (Z.of_nat (length ranges))) ;;
              forM_ (ranges ≫= rangeReply (lo_withmatchlen o)) emit ;;
              emit (RBulk (B "len")) ;;
              emit (RInt idx)
            else if lo_getlen o then emit (RInt idx)
            else emit (RBulk result)
      end
  end.

Definition stralgoCommand : M cmdState unit :=
  alg ← arg args 1;
  if strcaseeq alg (B "lcs") then stralgoLCS else emit (RError "syntax error").

End Command.
