(* ===== verification/LcsProps.v ===== *)
(** * LcsProps: STRALGO LCS computes a longest common subsequence

    [lcsLen] is the textbook recurrence on prefixes, shown optimal for the
    subsequence relation of the library.  The table of the command holds it when the
    product of the lengths plus one fits in 32 bits; the walk back then builds a
    common subsequence of that length, and its ranges are the pieces of it.  When
    the product does not fit, the table is written outside its allocation. *)

From Stdlib Require Import Ascii String ZifyBool.
From stdpp Require Import base tactics option list strings numbers gmap fin_maps.
From S2P Require Import Prelude Util Object Db Server TString StringProps Command Lcs.

Local Open Scope Z_scope.

(** ** The recurrence *)

Section Reference.
Context (a b : bytes).

(** The longest common subsequence of the first [i] bytes of [a] and the first [j] of
    [b]. *)
Fixpoint lcsLen (i : nat) : nat → Z :=
  match i with
  | O => λ _, 0
  | S i' =>
      fix go (j : nat) : Z :=
        match j with
        | O => 0
        | S j' => if bool_decide (a !! i' = b !! j') then 1 + lcsLen i' j'
                  else Z.max (lcsLen i' j) (go j')
        end
  end.

Lemma lcsLen_S i j :
  lcsLen (S i) (S j) = if bool_decide (a !! i = b !! j) then 1 + lcsLen i j
                       else Z.max (lcsLen i (S j)) (lcsLen (S i) j).
Proof. done. Qed.

Lemma lcsLen_0_r i : lcsLen i 0 = 0.
Proof. by destruct i. Qed.

Lemma lcsLen_bound i j : 0 ≤ lcsLen i j ≤ Z.of_nat i.
Proof.
  revert j. induction i as [|i IH]; intros j; [done|]. induction j as [|j IHj]; [cbn; lia|].
  rewrite lcsLen_S. pose proof (IH j). pose proof (IH (S j)). case_match; lia.
Qed.

(** A prefix, last byte first. *)
Definition prefix_rev (l : bytes) (i : nat) : bytes := reverse (take i l).

Lemma prefix_rev_S l i c : l !! i = Some c → prefix_rev l (S i) = c :: prefix_rev l i.
Proof. intros Hc. unfold prefix_rev. by rewrite (take_S_r _ _ _ Hc), reverse_snoc. Qed.

Lemma sublist_tail {A} (x : A) (l k : list A) : sublist (x :: l) k → sublist l k.
Proof. intros Hs. etrans; [|exact Hs]. by apply sublist_cons. Qed.

Lemma sublist_cons_r_inv {A} (x y : A) (l k : list A) :
  sublist (x :: l) (y :: k) → (x = y ∧ sublist l k) ∨ sublist (x :: l) k.
Proof. inversion 1; subst; auto. Qed.

(** No common subsequence is longer. *)
Lemma lcsLen_optimal i j c : (i ≤ length a)%nat → (j ≤ length b)%nat →
  sublist c (prefix_rev a i) → sublist c (prefix_rev b j) → Z.of_nat (length c) ≤ lcsLen i j.
Proof.
  revert j c. induction i as [|i IH]; intros j c Hi Hj Ha Hb.
  { apply sublist_nil_r in Ha as ->. done. }
  revert c Ha Hb. induction j as [|j IHj]; intros c Ha Hb.
  { apply sublist_nil_r in Hb as ->. done. }
  destruct (lookup_lt_is_Some_2 a i) as [x Hx]; [lia|]. destruct (lookup_lt_is_Some_2 b j) as [y Hy]; [lia|].
  rewrite lcsLen_S, Hx, Hy. destruct c as [|z c].
  { pose proof (lcsLen_bound i j). pose proof (lcsLen_bound i (S j)). case_match; cbn; lia. }
  rewrite (prefix_rev_S _ _ _ Hx) in Ha. rewrite (prefix_rev_S _ _ _ Hy) in Hb.
  pose proof Ha as Ha0. pose proof Hb as Hb0.
  apply sublist_cons_r_inv in Ha. apply sublist_cons_r_inv in Hb. case_bool_decide as Hxy.
  - assert (Z.of_nat (length c) ≤ lcsLen i j); [|cbn [length]; lia].
    apply IH; [lia|lia|..].
    + destruct Ha as [[_ ?]|Ha]; [done|by apply sublist_tail in Ha].
    + destruct Hb as [[_ ?]|Hb]; [done|by apply sublist_tail in Hb].
  - destruct Ha as [[Hz Ha]|Ha].
    + destruct Hb as [[Hz' Hb]|Hb]; [congruence|]. etrans; [|apply Z.le_max_r].
      apply IHj; [lia| |done]. by rewrite (prefix_rev_S _ _ _ Hx).
    + etrans; [|apply Z.le_max_l]. apply IH; [lia|lia|done|]. by rewrite (prefix_rev_S _ _ _ Hy).
Qed.

End Reference.

(** ** The table *)

Section TableProps.
Context (a b : bytes).
Notation na := (length a).
Notation nb := (length b).

(** The place of a cell in row order. *)
Definition cellPos (i j : nat) : nat := (i * (nb + 1) + j)%nat.

Lemma cellPos_inj i j i' j' :
  (j ≤ nb)%nat → (j' ≤ nb)%nat → cellPos i j = cellPos i' j' → i = i' ∧ j = j'.
Proof.
  unfold cellPos. intros Hj Hj' Heq. assert (i = i') as ->; [|lia].
  destruct (lt_eq_lt_dec i i') as [[Hlt| ]|Hlt]; [|done|]; exfalso; nia.
Qed.

(** The index of the macro is that place while it fits in 32 bits. *)
Lemma lcsIndex_fits i j : Z.of_nat nb + 1 < 2 ^ 32 → Z.of_nat (cellPos i j) < 2 ^ 32 →
  lcsIndex b i j = cellPos i j.
Proof.
  unfold lcsIndex, blen, cellPos. intros Hb Hp. rewrite (u32_id (Z.of_nat nb)), (u32_id (_ + 1)) by lia.
  rewrite (u32_id (_ * _)), u32_id by lia. lia.
Qed.

Lemma wp_lcsGet E i j v (Q : Z → list Z → Prop) t :
  lcsIndex b i j = cellPos i j → t !! cellPos i j = Some v → Q v t → wp E (lcsGet b i j) Q t.
Proof. intros Hi Ht HQ. apply wp_bind, wp_get. rewrite Hi. by eapply wp_deref. Qed.

Lemma wp_lcsSet E i j v (Q : unit → list Z → Prop) t :
  lcsIndex b i j = cellPos i j → (cellPos i j < length t)%nat → Q tt (<[cellPos i j := v]> t) →
  wp E (lcsSet b i j v) Q t.
Proof. intros Hi Hl HQ. apply wp_bind, wp_get. rewrite Hi, bool_decide_true by done. by apply wp_put. Qed.

(** When the table fits. *)
Section Fits.
Hypothesis Hfit : (Z.of_nat na + 1) * (Z.of_nat nb + 1) < 2 ^ 32.

Lemma alen_fits : Z.to_nat (alen a) = na.
Proof. unfold alen. rewrite u32_id by nia. lia. Qed.

Lemma blen_fits : Z.to_nat (blen b) = nb.
Proof. unfold blen. rewrite u32_id by nia. lia. Qed.

Lemma lcsCells_fits : lcsCells a b = ((na + 1) * (nb + 1))%nat.
Proof.
  unfold lcsCells, alen, blen. rewrite (u32_id (Z.of_nat na)), (u32_id (Z.of_nat nb)) by nia.
  rewrite (u32_id (Z.of_nat na + 1)), (u32_id (Z.of_nat nb + 1)), u32_id by nia. lia.
Qed.

Lemma index_fits i j : (i ≤ na)%nat → (j ≤ nb)%nat →
  lcsIndex b i j = cellPos i j ∧ (cellPos i j < (na + 1) * (nb + 1))%nat.
Proof.
  intros Hi Hj. assert (cellPos i j < (na + 1) * (nb + 1))%nat by (unfold cellPos; nia).
  split; [|done]. apply lcsIndex_fits; nia.
Qed.

(** The cells before place [p] hold the recurrence. *)
Definition filled (p : nat) (t : list Z) : Prop :=
  length t = ((na + 1) * (nb + 1))%nat ∧
  ∀ i j, (i ≤ na)%nat → (j ≤ nb)%nat → (cellPos i j < p)%nat → t !! cellPos i j = Some (lcsLen a b i j).

Lemma wp_filled_get E p i j (Q : Z → list Z → Prop) t :
  filled p t → (i ≤ na)%nat → (j ≤ nb)%nat → (cellPos i j < p)%nat →
  Q (lcsLen a b i j) t → wp E (lcsGet b i j) Q t.
Proof.
  intros [_ Ht] Hi Hj Hp HQ. destruct (index_fits i j Hi Hj) as [Hx _].
  eapply wp_lcsGet; [done|by apply Ht|done].
Qed.

Lemma wp_filled_set E i j v t :
  filled (cellPos i j) t → (i ≤ na)%nat → (j ≤ nb)%nat → v = lcsLen a b i j →
  wp E (lcsSet b i j v) (λ _, filled (S (cellPos i j))) t.
Proof.
  intros [Hl Ht] Hi Hj ->. destruct (index_fits i j Hi Hj) as [Hx Hp].
  apply wp_lcsSet; [done|lia|]. split; [by rewrite length_insert|]. intros i' j' Hi' Hj' Hp'.
  destruct (decide (cellPos i j = cellPos i' j')) as [Heq|Hne].
  - destruct (cellPos_inj i j i' j') as [-> ->]; [done..|]. apply list_lookup_insert_eq. lia.
  - rewrite list_lookup_insert_ne by done. apply Ht; [done..|lia].
Qed.

Lemma wp_lcsCell E i j t : filled (cellPos i j) t → (i ≤ na)%nat → (j ≤ nb)%nat →
  wp E (lcsCell a b i j) (λ _, filled (S (cellPos i j))) t.
Proof.
  intros Ht Hi Hj. unfold lcsCell. destruct i as [|i]; [by apply wp_filled_set|].
  destruct j as [|j]; [by apply wp_filled_set|].
  rewrite !(bool_decide_false (S _ = 0%nat)) by lia. cbn [orb].
  replace (S i - 1)%nat with i by lia. replace (S j - 1)%nat with j by lia.
  pose proof (lcsLen_bound a b i j) as Hb. pose proof (lcsLen_S a b i j) as Hrec.
  assert (cellPos i j < cellPos (S i) (S j) ∧ cellPos i (S j) < cellPos (S i) (S j) ∧
          cellPos (S i) j < cellPos (S i) (S j))%nat as (?&?&?) by (unfold cellPos; nia).
  destruct (bool_decide (a !! i = b !! j)).
  - apply wp_bind. eapply wp_filled_get; [done|lia|lia|done|].
    apply wp_filled_set; [done..|]. rewrite u32_id by nia. lia.
  - apply wp_bind. eapply wp_filled_get; [done|lia|lia|done|].
    apply wp_bind. eapply wp_filled_get; [done|lia|lia|done|].
    apply wp_filled_set; [done..|]. rewrite Hrec. destruct (Z.ltb_spec (lcsLen a b (S i) j) (lcsLen a b i (S j))); lia.
Qed.

Lemma wp_lcsFill E t : length t = ((na + 1) * (nb + 1))%nat →
  wp E (lcsFill a b) (λ _, filled ((na + 1) * (nb + 1))) t.
Proof.
  intros Hl. unfold lcsFill. rewrite alen_fits, blen_fits.
  eapply wp_mono; [|apply (wp_forM_seq E (λ i, filled (cellPos i 0)))].
  - intros [] t' Ht. by replace ((na + 1) * (nb + 1))%nat with (cellPos (0 + (na + 1)) 0) by (unfold cellPos; lia).
  - split; [done|]. unfold cellPos. lia.
  - intros i t' Hi Ht'. eapply wp_mono; [|apply (wp_forM_seq E (λ j, filled (cellPos i j)))].
    + intros [] t'' Ht. by replace (cellPos (1 + i) 0)%nat with (cellPos i (0 + (nb + 1))) by (unfold cellPos; lia).
    + done.
    + intros j t'' Hj Ht''. replace (cellPos i (1 + j)) with (S (cellPos i j)) by (unfold cellPos; lia).
      apply wp_lcsCell; [done|lia..].
Qed.

End Fits.

(** In general a cell is written in place, or it is outside the array. *)
Lemma wp_lcsSet_any i j v t : Z.of_nat nb + 1 < 2 ^ 32 → Z.of_nat (cellPos i j) < 2 ^ 32 →
  wp (λ f, f = BadPointer "stralgoLCS") (lcsSet b i j v)
    (λ _ t', length t' = length t ∧ (cellPos i j < length t)%nat) t.
Proof.
  intros Hb Hp. apply wp_bind, wp_get. rewrite lcsIndex_fits by done. case_bool_decide; [|done].
  apply wp_put. by rewrite length_insert.
Qed.

Lemma wp_lcsGet_any i j (Q : Z → list Z → Prop) t : (∀ v, Q v t) →
  wp (λ f, f = BadPointer "stralgoLCS") (lcsGet b i j) Q t.
Proof. intros HQ. apply wp_bind, wp_get. by destruct (t !! lcsIndex b i j); [apply wp_ret|]. Qed.

Lemma wp_lcsCell_any i j t : Z.of_nat nb + 1 < 2 ^ 32 → Z.of_nat (cellPos i j) < 2 ^ 32 →
  wp (λ f, f = BadPointer "stralgoLCS") (lcsCell a b i j)
    (λ _ t', length t' = length t ∧ (cellPos i j < length t)%nat) t.
Proof.
  intros Hb Hp. unfold lcsCell. repeat case_match; [by apply wp_lcsSet_any|..].
  - apply wp_bind, wp_lcsGet_any. intros v. by apply wp_lcsSet_any.
  - apply wp_bind, wp_lcsGet_any. intros v. apply wp_bind, wp_lcsGet_any. intros v'.
    by apply wp_lcsSet_any.
Qed.

(** When the table does not fit, the filling leaves the array. *)
Lemma wp_lcsFill_overflow t :
  Z.of_nat na + 1 < 2 ^ 32 → Z.of_nat nb + 1 < 2 ^ 32 → 2 ^ 32 ≤ (Z.of_nat na + 1) * (Z.of_nat nb + 1) →
  length t = lcsCells a b →
  wp (λ f, f = BadPointer "stralgoLCS") (lcsFill a b) (λ _ _, False) t.
Proof.
  intros Ha Hb Hbig Hl. unfold lcsFill.
  assert (Z.to_nat (alen a) = na ∧ Z.to_nat (blen b) = nb) as [-> ->] by (unfold alen, blen; rewrite !u32_id by lia; lia).
  assert (Z.of_nat (length t) < 2 ^ 32) as Hlt.
  { rewrite Hl. unfold lcsCells, u32. pose proof (Z.mod_pos_bound (((alen a + 1) mod 2 ^ 32) * ((blen b + 1) mod 2 ^ 32)) (2 ^ 32)). lia. }
  set (inv := λ (i j : nat) (t' : list Z), length t' = length t ∧ (cellPos i j ≤ length t)%nat).
  eapply wp_mono; [|apply (wp_forM_seq _ (λ i, inv i 0%nat))].
  - intros [] t' [_ Ht']. unfold cellPos in Ht'. nia.
  - split; [done|]. unfold cellPos. lia.
  - intros i t' Hi Ht'. eapply wp_mono; [|apply (wp_forM_seq _ (λ j, inv i j))].
    + intros [] t'' [? Ht]. split; [done|]. unfold cellPos in *. lia.
    + done.
    + intros j t'' Hj [Hl' Hp]. eapply wp_mono; [|apply wp_lcsCell_any; [done|lia]].
      intros [] t3 [Hl3 Hp3]. split; [lia|]. unfold cellPos in *. lia.
Qed.

End TableProps.

(** ** The walk back *)

Definition slice (l : bytes) (s e : nat) : bytes := take (e + 1 - s) (drop s l).

Lemma slice_cons l s e x : l !! s = Some x → (s < e)%nat → slice l s e = x :: slice l (S s) e.
Proof.
  intros Hx Hs. unfold slice. rewrite (drop_S _ _ _ Hx).
  replace (e + 1 - s)%nat with (S (e + 1 - S s)) by lia. done.
Qed.

Lemma slice_one l s x : l !! s = Some x → slice l s s = [x].
Proof. intros Hx. unfold slice. rewrite (drop_S _ _ _ Hx). by replace (s + 1 - s)%nat with 1%nat by lia. Qed.

Lemma sublist_drop_cons (l t : bytes) i x :
  l !! i = Some x → sublist t (drop (S i) l) → sublist (x :: t) (drop i l).
Proof. intros Hx Ht. rewrite (drop_S _ _ _ Hx). by apply sublist_skip. Qed.

Lemma sublist_drop_le (l t : bytes) i : sublist t (drop (S i) l) → sublist t (drop i l).
Proof.
  intros Ht. etrans; [exact Ht|]. replace (S i) with (i + 1)%nat by lia. rewrite <-drop_drop.
  apply sublist_drop.
Qed.

Section Walk.
Context (a b : bytes) (minmatchlen : Z).
Notation na := (length a).
Notation nb := (length b).

(** The two ranges hold the same bytes. *)
Definition rangeOk (r : range) : Prop :=
  (r_as r ≤ r_ae r < na)%nat ∧ (r_bs r ≤ r_be r < nb)%nat ∧ (r_ae r + r_bs r = r_be r + r_as r)%nat ∧
  slice a (r_as r) (r_ae r) = slice b (r_bs r) (r_be r).

(** A list of matching ranges, from the ends of the strings to their starts: below
    [ha], [hb] and down to [la], [lb], disjoint and in order in both strings. *)
Fixpoint pieces (ha hb : nat) (l : list range) (la lb : nat) : Prop :=
  match l with
  | [] => (la ≤ ha)%nat ∧ (lb ≤ hb)%nat
  | r :: l => rangeOk r ∧ (r_ae r < ha)%nat ∧ (r_be r < hb)%nat ∧ pieces (r_as r) (r_bs r) l la lb
  end.

(** What they spell, read forward. *)
Fixpoint pieceText (l : list range) : bytes :=
  match l with
  | [] => []
  | r :: l => pieceText l ++ slice a (r_as r) (r_ae r)
  end.

(** The ranges that are replied. *)
Definition longEnough (r : range) : bool := (minmatchlen =? 0) || (minmatchlen <=? matchLen r).

Lemma emitRange_filter r l :
  emitRange minmatchlen r (filter longEnough l) = filter longEnough (l ++ [r]).
Proof.
  unfold emitRange. fold (longEnough r). rewrite filter_app, filter_cons, filter_nil.
  destruct (longEnough r) eqn:Hr; case_decide; simplify_eq/=; by rewrite ?app_nil_r.
Qed.

Lemma pieceText_snoc l r : pieceText (l ++ [r]) = slice a (r_as r) (r_ae r) ++ pieceText l.
Proof. induction l as [|x l IH]; cbn; [by rewrite app_nil_r|]. by rewrite IH, app_assoc. Qed.

Lemma pieces_snoc ha hb l r la lb :
  pieces ha hb l la lb → rangeOk r → (r_ae r < la)%nat → (r_be r < lb)%nat →
  pieces ha hb (l ++ [r]) (r_as r) (r_bs r).
Proof.
  revert ha hb. induction l as [|x l IH]; intros ha hb; cbn.
  - intros [??] Hr ??. repeat split; try lia; apply Hr.
  - intros (?&?&?&Hp) ???. eauto.
Qed.

Definition walkRanges (all : list range) (cur : range) (i j : nat) (t : bytes) : Prop :=
  ∃ la lb, pieces na nb all la lb ∧
  if noRange a cur then (i ≤ la)%nat ∧ (j ≤ lb)%nat ∧ t = pieceText all
  else r_as cur = i ∧ r_bs cur = j ∧ rangeOk cur ∧ (r_ae cur < la)%nat ∧ (r_be cur < lb)%nat ∧
       t = slice a (r_as cur) (r_ae cur) ++ pieceText all.

Hypothesis Hfit : (Z.of_nat na + 1) * (Z.of_nat nb + 1) < 2 ^ 32.

Lemma noRange_iff r : noRange a r = bool_decide (r_as r = na).
Proof. unfold noRange, alen. rewrite u32_id by nia. case_bool_decide; lia. Qed.

Lemma noRange_clear r : noRange a (clearRange a r) = true.
Proof. rewrite noRange_iff. cbn. rewrite (alen_fits a b) by done. by apply bool_decide_true. Qed.

Lemma ranges_close all cur i j t :
  walkRanges all cur i j t → noRange a cur = false → walkRanges (all ++ [cur]) (clearRange a cur) i j t.
Proof.
  intros (la&lb&Hp&Hc) Hn. rewrite Hn in Hc. destruct Hc as (<-&<-&Hok&?&?&->).
  exists (r_as cur), (r_bs cur). rewrite noRange_clear, pieceText_snoc.
  split; [by eapply pieces_snoc|done].
Qed.

Lemma ranges_weaken all cur i j i' j' t : (i' ≤ i)%nat → (j' ≤ j)%nat →
  noRange a cur = true → walkRanges all cur i j t → walkRanges all cur i' j' t.
Proof.
  intros Hi Hj Hn (la&lb&Hp&Hc). exists la, lb. rewrite Hn in *. destruct Hc as (?&?&?).
  repeat split; [done|lia|lia|done].
Qed.

(** The current range after a match at [i], [j]. *)
Definition matched (cur : range) (i j : nat) : range :=
  if noRange a cur then mkRange i i j j else mkRange (r_as cur - 1) (r_ae cur) (r_bs cur - 1) (r_be cur).

Lemma ranges_match all cur i j t x : a !! i = Some x → b !! j = Some x →
  walkRanges all cur (S i) (S j) t →
  walkRanges all (matched cur i j) i j (x :: t) ∧ noRange a (matched cur i j) = false.
Proof.
  intros Ha Hb (la&lb&Hp&Hc). pose proof (lookup_lt_Some _ _ _ Ha). pose proof (lookup_lt_Some _ _ _ Hb).
  assert (∀ r, r_as r = i → noRange a r = false) as Hno by (intros r Hr; rewrite noRange_iff, bool_decide_false; lia).
  unfold matched. destruct (noRange a cur) eqn:Hn.
  - destruct Hc as (?&?&->). split; [|by apply Hno]. exists la, lb. rewrite Hno by done. unfold rangeOk.
    cbn [r_as r_ae r_bs r_be]. split; [done|]. rewrite (slice_one _ _ _ Ha), (slice_one _ _ _ Hb).
    repeat split; lia.
  - destruct Hc as (Hai&Hbj&(?&?&?&Hs)&?&?&->). split; [|apply Hno; cbn; lia].
    exists la, lb. rewrite Hno by (cbn; lia). unfold rangeOk. cbn [r_as r_ae r_bs r_be]. rewrite Hai, Hbj.
    replace (S i - 1)%nat with i by lia. replace (S j - 1)%nat with j by lia.
    rewrite (slice_cons _ _ _ _ Ha), (slice_cons _ _ _ _ Hb), <-Hai, <-Hbj, Hs by lia.
    repeat split; try done; lia.
Qed.

(** What holds at the head of the loop: [t] is the part of the subsequence already
    stored, [all] the ranges closed so far. *)
Record walkInv (total : nat) (w : lcsWalk) (all : list range) (t : bytes) : Prop := {
  wi_i : (w_i w ≤ na)%nat;
  wi_j : (w_j w ≤ nb)%nat;
  wi_idx : Z.of_nat (w_idx w) = lcsLen a b (w_i w) (w_j w);
  wi_result : w_result w = replicate (w_idx w) NUL ++ t;
  wi_total : (w_idx w + length t)%nat = total;
  wi_a : sublist t (drop (w_i w) a);
  wi_b : sublist t (drop (w_j w) b);
  wi_ranges : walkRanges all (w_cur w) (w_i w) (w_j w) t;
  wi_end : w_i w = 0%nat ∨ w_j w = 0%nat → noRange a (w_cur w) = true;
  wi_out : w_out w = filter longEnough all }.

(** A step: the table is read only, and one of the indexes goes down. *)
Definition stepPost (total : nat) (w : lcsWalk) (tb : list Z) (w' : lcsWalk) (tb' : list Z) : Prop :=
  tb' = tb ∧ (w_i w' + w_j w' < w_i w + w_j w)%nat ∧ ∃ all t, walkInv total w' all t.

Lemma track_match all cur i j t : walkRanges all cur (S i) (S j) t →
  (if noRange a cur then (mkRange i i j j, false)
   else if bool_decide (r_as cur = S i) && bool_decide (r_bs cur = S j)
   then (mkRange (r_as cur - 1) (r_ae cur) (r_bs cur - 1) (r_be cur), false)
   else (cur, true)) = (matched cur i j, false).
Proof.
  intros (la&lb&_&Hc). unfold matched. destruct (noRange a cur); [done|].
  destruct Hc as (?&?&_). by rewrite !bool_decide_true.
Qed.

Lemma matched_at all cur i j t : walkRanges all cur i j t → noRange a cur = false →
  r_as cur = i ∧ r_bs cur = j.
Proof. intros (la&lb&_&Hc) Hn. rewrite Hn in Hc. naive_solver. Qed.

Lemma insert_last (idx : nat) (x : ascii) (t : bytes) :
  <[idx := x]> (replicate (S idx) NUL ++ t) = replicate idx NUL ++ x :: t.
Proof.
  replace (S idx) with (idx + 1)%nat by lia. rewrite replicate_add, <-app_assoc.
  rewrite insert_app_r_alt by (by rewrite length_replicate).
  by rewrite length_replicate, Nat.sub_diag.
Qed.

Lemma wp_walkStep_match E total w all t tb i j x :
  walkInv total w all t → w_i w = S i → w_j w = S j → a !! i = Some x → b !! j = Some x →
  wp E (walkStep a b minmatchlen w) (stepPost total w tb) tb.
Proof.
  intros Hw Hi Hj Ha Hb. destruct w as [wi wj idx res cur out]. destruct Hw as [H1 H2 Hidx Hres Htot Hsa Hsb Hr Hend Hout].
  cbn in *. subst wi wj res out. destruct (ranges_match _ _ _ _ _ _ Ha Hb Hr) as [Hm Hopen].
  rewrite lcsLen_S, Ha, Hb, bool_decide_true in Hidx by done. pose proof (lcsLen_bound a b i j).
  destruct idx as [|idx]; [lia|].
  unfold walkStep. cbn [w_i w_j w_cur w_idx w_result w_out]. replace (S i - 1)%nat with i by lia.
  replace (S j - 1)%nat with j by lia. replace (S idx - 1)%nat with idx by lia.
  apply wp_bind. eapply wp_deref; [done|]. apply wp_bind. eapply wp_deref; [done|].
  rewrite bool_decide_true by done. apply wp_bind.
  rewrite (bool_decide_false (S idx = 0%nat)), bool_decide_false by (rewrite ?length_app, ?length_replicate; lia).
  cbn [orb]. apply wp_ret. rewrite (track_match all cur i j t Hr). cbn [orb].
  rewrite (insert_last idx x t). apply wp_ret. split; [done|]. split; [cbn; lia|].
  assert (Hinv : ∀ all' cur' out', walkRanges all' cur' i j (x :: t) →
    (i = 0%nat ∨ j = 0%nat → noRange a cur' = true) → out' = filter longEnough all' →
    walkInv total (mkWalk i j idx (replicate idx NUL ++ x :: t) cur' out') all' (x :: t)).
  { intros all' cur' out' ???. split; cbn; try done; try lia; by apply sublist_drop_cons. }
  destruct (matched_at _ _ _ _ _ Hm Hopen) as [-> ->].
  destruct (decide (i = 0%nat ∨ j = 0%nat)) as [H0|H0].
  - assert (bool_decide (i = 0%nat) || bool_decide (j = 0%nat) = true) as -> by (destruct H0; repeat case_bool_decide; done).
    exists (all ++ [matched cur i j]), (x :: t). apply Hinv.
    + by apply ranges_close.
    + intros _. apply noRange_clear.
    + apply emitRange_filter.
  - rewrite !bool_decide_false by naive_solver. exists all, (x :: t). by apply Hinv.
Qed.

Lemma wp_walkStep_skip E total w all t tb i j x y :
  filled a b ((na + 1) * (nb + 1)) tb →
  walkInv total w all t → w_i w = S i → w_j w = S j → a !! i = Some x → b !! j = Some y → x ≠ y →
  wp E (walkStep a b minmatchlen w) (stepPost total w tb) tb.
Proof.
  intros Hf Hw Hi Hj Ha Hb Hne. destruct w as [wi wj idx res cur out].
  destruct Hw as [H1 H2 Hidx Hres Htot Hsa Hsb Hr Hend Hout]. cbn in *. subst wi wj res out.
  rewrite lcsLen_S, Ha, Hb, bool_decide_false in Hidx by congruence.
  unfold walkStep. cbn [w_i w_j w_cur w_idx w_result w_out]. replace (S i - 1)%nat with i by lia.
  replace (S j - 1)%nat with j by lia.
  apply wp_bind. eapply wp_deref; [done|]. apply wp_bind. eapply wp_deref; [done|].
  rewrite bool_decide_false by done.
  apply wp_bind. eapply wp_filled_get; [done|done|lia|lia|apply index_fits; [done|lia|lia]|].
  apply wp_bind. eapply wp_filled_get; [done|done|lia|lia|apply index_fits; [done|lia|lia]|].
  set (cur' := if negb (noRange a cur) then clearRange a cur else cur).
  set (all' := if negb (noRange a cur) then all ++ [cur] else all).
  assert (Hcl : noRange a cur' = true).
  { subst cur'. destruct (noRange a cur) eqn:Hn; cbn; [done|apply noRange_clear]. }
  assert (Hr' : ∀ i' j', (i' ≤ S i)%nat → (j' ≤ S j)%nat → walkRanges all' cur' i' j' t).
  { intros i' j' Hi' Hj'. eapply ranges_weaken; [exact Hi'|exact Hj'|done|].
    subst cur' all'. destruct (noRange a cur) eqn:Hn; cbn; [done|by apply ranges_close]. }
  assert (Ho : (if negb (noRange a cur) then emitRange minmatchlen cur (filter longEnough all)
                else filter longEnough all) = filter longEnough all').
  { subst all'. destruct (noRange a cur); cbn; [done|apply emitRange_filter]. }
  destruct (Z.ltb_spec (lcsLen a b (S i) j) (lcsLen a b i (S j))); apply wp_ret.
  - split; [done|]. split; [cbn; lia|]. exists all', t.
    split; cbn [w_i w_j w_idx w_result w_cur w_out]; try done; [lia|lia|by apply sublist_drop_le|apply Hr'; lia].
  - split; [done|]. split; [cbn; lia|]. exists all', t.
    split; cbn [w_i w_j w_idx w_result w_cur w_out]; try done; [lia|lia|by apply sublist_drop_le|apply Hr'; lia].
Qed.

Lemma wp_walkLoop E total w all t tb fuel :
  filled a b ((na + 1) * (nb + 1)) tb → walkInv total w all t → (w_i w + w_j w ≤ fuel)%nat →
  wp E (walkLoop a b minmatchlen fuel w)
    (λ w' tb', (w_i w' = 0%nat ∨ w_j w' = 0%nat) ∧ ∃ all t, walkInv total w' all t) tb.
Proof.
  intros Hf. revert w all t. induction fuel as [|fuel IH]; intros w all t Hw Hfuel; cbn [walkLoop].
  { apply wp_ret. split; [lia|by exists all, t]. }
  destruct (w_i w) as [|i] eqn:Hi; [apply wp_ret; rewrite Hi; eauto|].
  destruct (w_j w) as [|j] eqn:Hj; [apply wp_ret; rewrite Hj; eauto|].
  rewrite !bool_decide_false by done. cbn [orb].
  pose proof (wi_i _ _ _ _ Hw). pose proof (wi_j _ _ _ _ Hw).
  destruct (lookup_lt_is_Some_2 a i) as [x Hx]; [lia|]. destruct (lookup_lt_is_Some_2 b j) as [y Hy]; [lia|].
  apply wp_bind. eapply (wp_mono _ _ (stepPost total w tb)).
  { intros w' tb' (->&?&all'&t'&Hw'). eapply IH; [done|lia]. }
  destruct (decide (x = y)) as [<-|Hne]; [by eapply wp_walkStep_match|by eapply wp_walkStep_skip].
Qed.

(** At the end nothing is open and the whole subsequence is stored. *)
Lemma walkInv_done total w all t : walkInv total w all t → w_i w = 0%nat ∨ w_j w = 0%nat →
  w_result w = t ∧ length t = total ∧ sublist t a ∧ sublist t b ∧ t = pieceText all ∧
  (∃ la lb, pieces na nb all la lb) ∧ w_out w = filter longEnough all.
Proof.
  intros [] H0. assert (w_idx w = 0%nat) as Hz.
  { destruct H0 as [H0|H0]; rewrite H0 in *; cbn in *; rewrite ?lcsLen_0_r in *; lia. }
  rewrite Hz in *. destruct wi_ranges0 as (la&lb&Hp&Hc). rewrite wi_end0 in Hc by done.
  destruct Hc as (_&_&Ht). repeat split; try done; [| |by exists la, lb].
  - etrans; [exact wi_a0|apply sublist_drop].
  - etrans; [exact wi_b0|apply sublist_drop].
Qed.

End Walk.

(** ** The command *)

Lemma sublist_reverse_mono (c l : bytes) : sublist c l → sublist (reverse c) (reverse l).
Proof.
  induction 1 as [|x c l _ IH|x c l _ IH]; [done|..]; rewrite !reverse_cons.
  - by apply sublist_app.
  - by apply sublist_inserts_r.
Qed.

Lemma lcsLen_common a b c : sublist c a → sublist c b →
  Z.of_nat (length c) ≤ lcsLen a b (length a) (length b).
Proof.
  intros Ha Hb. rewrite <-length_reverse. apply lcsLen_optimal; [done..| |].
  all: unfold prefix_rev; rewrite take_ge by done; by apply sublist_reverse_mono.
Qed.

Section Run.
Context (garbage : nat → Z) (a b : bytes) (minmatchlen : Z).

Lemma length_lcsArray : length (lcsArray garbage a b) = lcsCells a b.
Proof. unfold lcsArray. by rewrite length_fmap, length_seq. Qed.

(** What a run answers: the length, and a common subsequence of that length with the
    matching ranges it is made of. *)
Definition lcsAnswer (computelcs : bool) (r : Z * bytes * list range) : Prop :=
  let '(idx, result, ranges) := r in
  idx = lcsLen a b (length a) (length b) ∧
  if computelcs then
    Z.of_nat (length result) = idx ∧ sublist result a ∧ sublist result b ∧
    ∃ all la lb, pieces a b (length a) (length b) all la lb ∧ result = pieceText a all ∧
      ranges = filter (longEnough minmatchlen) all
  else result = [] ∧ ranges = [].

Lemma wp_lcsCompute computelcs :
  (Z.of_nat (length a) + 1) * (Z.of_nat (length b) + 1) < 2 ^ 32 →
  wp noFault (lcsCompute a b minmatchlen computelcs) (λ r _, lcsAnswer computelcs r) (lcsArray garbage a b).
Proof.
  intros Hfit.
  unfold lcsCompute. rewrite (alen_fits a b Hfit), (blen_fits a b Hfit).
  apply wp_bind. eapply wp_mono; [|apply wp_lcsFill; [done|by rewrite length_lcsArray, lcsCells_fits]].
  intros [] tb Htb. apply wp_bind.
  eapply wp_filled_get; [done|done|lia|lia|apply index_fits; [done|lia|lia]|].
  destruct computelcs; [|by apply wp_ret].
  pose proof (lcsLen_bound a b (length a) (length b)) as Hb.
  apply wp_bind. eapply wp_mono; [|eapply (wp_walkLoop a b minmatchlen Hfit _ (Z.to_nat (lcsLen a b (length a) (length b))) _ [] []); [done| |done]].
  - intros w tb' (H0 & all & t & Hw). apply wp_ret.
    destruct (walkInv_done _ _ _ _ _ _ _ Hw H0) as (<-&Hl&?&?&?&(la&lb&?)&?).
    split; [done|]. split; [lia|]. eauto 10.
  - split; cbn [w_i w_j w_idx w_result w_cur w_out]; try done; try lia.
    + by rewrite app_nil_r.
    + apply sublist_nil_l.
    + apply sublist_nil_l.
    + exists (length a), (length b). rewrite (noRange_iff a b) by done. cbn. by rewrite bool_decide_true.
    + intros _. rewrite (noRange_iff a b) by done. by apply bool_decide_true.
Qed.

Lemma lcsRun_answer computelcs :
  (Z.of_nat (length a) + 1) * (Z.of_nat (length b) + 1) < 2 ^ 32 →
  ∃ r, lcsRun garbage a b minmatchlen computelcs = Ok r ∧ lcsAnswer computelcs r.
Proof.
  intros Hfit. pose proof (wp_lcsCompute computelcs Hfit) as Hwp.
  apply wp_run in Hwp as (r & t & Hr & ?). exists r. split; [|done]. unfold lcsRun. by rewrite Hr.
Qed.

End Run.

(** ** STRALGO among the other commands *)

(** How STRALGO can stop the server. *)
Definition stralgoFault (f : fault) : Prop :=
  f = BadPointer "stralgoLCS" ∨ f = BadPointer "getDecodedObject" ∨
  f = AssertFailed "getDecodedObject: unknown encoding type".

Lemma wp_getDecodedObject_any o (Q : bytes → cmdState → Prop) s :
  (∀ v, Q v s) → wp stralgoFault (getDecodedObject o) Q s.
Proof.
  intros HQ. unfold getDecodedObject, ptrSds, ptrLong.
  destruct (sdsEncodedObject o); [|destruct (_ && _)].
  - destruct (o_ptr o); try (apply wp_ret, HQ); right; by left.
  - apply wp_bind. destruct (o_ptr o); try (right; by left). apply wp_ret, wp_ret, HQ.
  - right. by right.
Qed.

Lemma lcsCell_fault a b i j t : wp (λ f, f = BadPointer "stralgoLCS") (lcsCell a b i j) (λ _ _, True) t.
Proof.
  assert (Hset : ∀ v t, wp (λ f, f = BadPointer "stralgoLCS") (lcsSet b i j v) (λ _ _, True) t).
  { intros v t'. apply wp_bind, wp_get. by case_bool_decide. }
  unfold lcsCell. repeat case_match; [done|..]; apply wp_bind, wp_lcsGet_any; intros v; [done|].
  by apply wp_bind, wp_lcsGet_any.
Qed.

Lemma walkStep_fault a b m w t : wp (λ f, f = BadPointer "stralgoLCS") (walkStep a b m w) (λ _ _, True) t.
Proof.
  unfold walkStep. apply wp_bind. destruct (a !! _); [|done]. apply wp_ret, wp_bind.
  destruct (b !! _); [|done]. apply wp_ret. case_bool_decide.
  - apply wp_bind. destruct (_ || _); [done|]. apply wp_ret. by destruct (if noRange a _ then _ else _).
  - apply wp_bind, wp_lcsGet_any. intros v. apply wp_bind, wp_lcsGet_any. intros v'. by destruct (v' <? v).
Qed.

Lemma lcsRun_fault garbage a b m computelcs f :
  lcsRun garbage a b m computelcs = Fault f → f = BadPointer "stralgoLCS".
Proof.
  assert (Hloop : ∀ fuel w t, wp (λ f, f = BadPointer "stralgoLCS") (walkLoop a b m fuel w) (λ _ _, True) t).
  { induction fuel as [|fuel IH]; intros w t; cbn [walkLoop]; [done|]. destruct (_ || _); [done|].
    apply wp_bind. eapply wp_mono; [|apply walkStep_fault]. intros w' t' _. apply IH. }
  assert (Hwp : wp (λ f, f = BadPointer "stralgoLCS") (lcsCompute a b m computelcs) (λ _ _, True)
                  (lcsArray garbage a b)).
  { unfold lcsCompute. apply wp_bind. eapply wp_mono; [|apply (wp_forM_inv _ (λ _, True)); [done|]].
    - intros [] t _. apply wp_bind, wp_lcsGet_any. intros v. destruct computelcs; [|done].
      apply wp_bind. eapply wp_mono; [|apply Hloop]. done.
    - intros i t _ _. apply wp_forM_inv; [done|]. intros j t' _ _. apply lcsCell_fault. }
  unfold lcsRun, wp in *. destruct (lcsCompute _ _ _ _ _) as [[]|]; [done|]. intros [= <-]. done.
Qed.

Section Stralgo.
Context (garbage : nat → Z) (g : genv) (ro : bool) (db0 : redisDb) (f : astore).

(** It replies and changes nothing. *)
Definition onlyReplies (n : Z) (s : cmdState) : Prop := ∃ out, runs g db0 f out n s.

Lemma wp_emit_only r n (Q : unit → cmdState → Prop) s :
  onlyReplies n s → (∀ s', onlyReplies n s' → Q tt s') → wp stralgoFault (emit r) Q s.
Proof. intros [out Hs] HQ. eapply wp_emit; [done|]. intros s' _ Hs'. apply HQ. by eexists. Qed.

Lemma wp_lookupKeyRead_only k n (Q : option robj → cmdState → Prop) s :
  onlyReplies n s → (∀ o s', onlyReplies n s' → Q o s') → wp stralgoFault (onDb (lookupKeyRead g ro k)) Q s.
Proof. intros [out Hs] HQ. eapply wp_lookupKeyRead; [done|]. intros o s' Hs' _ _. apply HQ. by eexists. Qed.

Lemma wp_decoded_only (o : option robj) (Q : bytes → cmdState → Prop) s :
  (∀ v, Q v s) → wp stralgoFault (match o with Some ob => getDecodedObject ob | None => mret [] end) Q s.
Proof. intros HQ. destruct o; [by apply wp_getDecodedObject_any|by apply wp_ret]. Qed.

Lemma wp_error_only r n s :
  onlyReplies n s → wp stralgoFault (emit r ;; mret (@None lcsOpts)) (λ _, onlyReplies n) s.
Proof. intros Hs. apply wp_bind. by eapply wp_emit_only; [done|]; intros s' Hs'; apply wp_ret. Qed.

Lemma wp_lcsOptions_bound m l o n s : (length l ≤ m)%nat → onlyReplies n s →
  wp stralgoFault (lcsOptions g ro l o) (λ _, onlyReplies n) s.
Proof.
  revert l o s. induction m as [|m IH]; intros [|opt l] o s Hl Hs; cbn [length] in Hl; [by apply wp_ret|lia|by apply wp_ret|].
  cbn [lcsOptions]. destruct (strcaseeq opt (B "IDX")); [apply IH; [lia|done]|].
  destruct (strcaseeq opt (B "LEN")); [apply IH; [lia|done]|].
  destruct (strcaseeq opt (B "WITHMATCHLEN")); [apply IH; [lia|done]|].
  destruct l as [|x l1]; [by apply wp_error_only|]. cbn [length] in Hl.
  destruct (strcaseeq opt (B "MINMATCHLEN")).
  { apply wp_bind. destruct Hs as [out Hs]. eapply wp_getLongLong; [done|apply createStringObject_string|..].
    - intros v _ _. apply IH; [lia|by eexists].
    - intros s' _ Hs'. apply wp_ret. by eexists. }
  destruct l1 as [|y l2]; [by apply wp_error_only|]. cbn [length] in Hl.
  destruct (strcaseeq opt (B "STRINGS")).
  { case_bool_decide; [by apply wp_error_only|apply IH; [lia|done]]. }
  destruct (strcaseeq opt (B "KEYS")); [|by apply wp_error_only].
  case_bool_decide; [by apply wp_error_only|].
  apply wp_bind. eapply wp_lookupKeyRead_only; [done|]. intros ka s1 Hs1.
  apply wp_bind. eapply wp_lookupKeyRead_only; [done|]. intros kb s2 Hs2.
  apply wp_bind, wp_decoded_only. intros sa. apply wp_bind, wp_decoded_only. intros sb. apply IH; [lia|done].
Qed.

Lemma wp_stralgoCommand args s : (2 ≤ length args)%nat → onlyReplies 0 s →
  wp stralgoFault (stralgoCommand garbage g ro args) (λ _, onlyReplies 0) s.
Proof.
  intros Hl Hs. unfold stralgoCommand. apply wp_bind.
  destruct (lookup_lt_is_Some_2 args 1) as [alg Halg]; [lia|]. eapply wp_deref; [exact Halg|].
  destruct (strcaseeq alg (B "lcs")); [|by eapply wp_emit_only].
  unfold stralgoLCS. apply wp_bind. eapply wp_mono; [|by apply (wp_lcsOptions_bound (length (drop 2 args)))].
  intros [o|] s1 Hs1; [|by apply wp_ret]. destruct (lo_strings o) as [[a b]|]; [|by eapply wp_emit_only].
  destruct (lo_getlen o && lo_getidx o); [by eapply wp_emit_only|]. apply wp_bind. unfold wp at 1.
  destruct (lcsRun _ _ _ _ _) as [[[idx result] ranges]|x] eqn:Hr; [|left; by eapply lcsRun_fault].
  destruct (lo_getidx o); [|destruct (lo_getlen o); by eapply wp_emit_only].
  do 3 (apply wp_bind; eapply wp_emit_only; [done|]; clear s1 Hs1; intros s1 Hs1).
  apply wp_bind. eapply wp_mono; [|apply (wp_forM_inv _ (onlyReplies 0)); [done|]].
  - intros [] s2 Hs2. apply wp_bind. eapply wp_emit_only; [done|]. intros s3 Hs3. by eapply wp_emit_only.
  - intros r s2 _ Hs2. by eapply wp_emit_only.
Qed.

End Stralgo.

Section LcsTable.
Context (garbage : nat → Z) (rest : OtherCommands).

Definition lcsFlags : cmdFlags := mkFlags false true false false false false false.

Definition isStralgo (name : string) : bool := bool_decide (name = "stralgo"%string).

Definition lcs_call (name : string) (g : genv) (resp : Z) (args : list bytes) : M redisDb (list reply * Z) :=
  if isStralgo name then runCommand (stralgoCommand garbage g (CMD_READONLY lcsFlags) args)
  else @other_call rest name g resp args.

Lemma lcs_call_wf name g resp args db :
  arityFits (if isStralgo name then -2 else @other_arity rest name) (Z.of_nat (length args)) = true →
  ks_wf (dict db) (expires db) →
  match lcs_call name g resp args db with
  | Ok (_, db') => same_backend db db' ∧ ks_wf (dict db') (expires db')
  | Fault f => stralgoFault f ∨ @other_fault rest f
  end.
Proof.
  intros Hn Hok. unfold lcs_call. destruct (isStralgo name).
  2:{ pose proof (@other_wf rest name g resp args db Hn Hok) as Hwf. by case_match; [|right]. }
  assert (2 ≤ length args)%nat as Hl by (unfold arityFits in Hn; lia).
  pose proof (wp_stralgoCommand garbage g (CMD_READONLY lcsFlags) db (seen g db) args (mkCmd db [] 0) Hl) as Hwp.
  specialize (Hwp (ex_intro _ [] (runs_start g db Hok))). unfold wp, runCommand in *.
  destruct (stralgoCommand _ _ _ _ _) as [[[] s]|x]; [|by left]. by destruct Hwp as (out & []).
Qed.

(** A command table with STRALGO in front of [rest]. *)
Definition lcsCommands : OtherCommands := {|
  other_lookup n := if isStralgo (string_of_list_ascii n) then Some "stralgo"%string
                    else @other_lookup rest n;
  other_arity name := if isStralgo name then -2 else @other_arity rest name;
  other_flags name := if isStralgo name then lcsFlags else @other_flags rest name;
  other_call := lcs_call;
  other_fault f := stralgoFault f ∨ @other_fault rest f;
  other_wf := lcs_call_wf |}.

End LcsTable.

(** ** What STRALGO LCS replies *)

(** A longest common subsequence. *)
Definition isLcs (a b l : bytes) : Prop :=
  sublist l a ∧ sublist l b ∧ ∀ c, sublist c a → sublist c b → (length c ≤ length l)%nat.

Lemma lcsAnswer_isLcs a b m idx result ranges : lcsAnswer a b m true (idx, result, ranges) →
  idx = Z.of_nat (length result) ∧ isLcs a b result.
Proof.
  intros (-> & Hl & Ha & Hb & _). split; [done|]. split; [done|]. split; [done|].
  intros c Hca Hcb. pose proof (lcsLen_common a b c Hca Hcb). lia.
Qed.

Lemma forM_emit_run l s : forM_ l emit s = Ok (tt, mkCmd (cs_db s) (cs_out s ++ l) (cs_dirty s)).
Proof.
  revert s. induction l as [|r l IH]; intros s; [by destruct s; cbn; rewrite app_nil_r|].
  cbn [forM_]. erewrite bind_run by done. rewrite IH. cbn. by rewrite <-app_assoc.
Qed.

(** *** The options *)

Definition noOpts : lcsOpts := mkLcsOpts 0 None false false false.

Section Request.
Context (g : genv) (ro : bool) (f : astore).

(** The text of a key of the store [f]: the empty string when there is no key, and for a
    value that is not a string what [getDecodedObject] does with it. *)
Definition keyText (k : bytes) : res bytes :=
  match readable g ro (f k) with
  | None => Ok []
  | Some (AStr b, _) => Ok b
  | Some (AObj o, _) => match getDecodedObject o tt with Ok (b, _) => Ok b | Fault x => Fault x end
  end.

(** What the arguments ask for: an error reply or the options with the two strings. *)
Fixpoint lcsRequest (l : list bytes) (o : lcsOpts) : res (reply + lcsOpts) :=
  match l with
  | [] => Ok (inr o)
  | opt :: l =>
      if strcaseeq opt (B "IDX") then
        lcsRequest l (mkLcsOpts (lo_minmatchlen o) (lo_strings o) (lo_getlen o) true (lo_withmatchlen o))
      else if strcaseeq opt (B "LEN") then
        lcsRequest l (mkLcsOpts (lo_minmatchlen o) (lo_strings o) true (lo_getidx o) (lo_withmatchlen o))
      else if strcaseeq opt (B "WITHMATCHLEN") then
        lcsRequest l (mkLcsOpts (lo_minmatchlen o) (lo_strings o) (lo_getlen o) (lo_getidx o) true)
      else
        match l with
        | x :: l1 =>
            if strcaseeq opt (B "MINMATCHLEN") then
              match string2ll x with
              | None => Ok (inl (RError "value is not an integer or out of range"))
              | Some v => lcsRequest l1 (mkLcsOpts (Z.max 0 v) (lo_strings o) (lo_getlen o) (lo_getidx o) (lo_withmatchlen o))
              end
            else
              match l1 with
              | y :: l2 =>
                  if strcaseeq opt (B "STRINGS") || strcaseeq opt (B "KEYS") then
                    if bool_decide (is_Some (lo_strings o)) then Ok (inl (RError "Either use STRINGS or KEYS"))
                    else
                      '(a, b) ← (if strcaseeq opt (B "STRINGS") then Ok (x, y)
                                 else a ← keyText x; b ← keyText y; Ok (a, b));
                      lcsRequest l2 (mkLcsOpts (lo_minmatchlen o) (Some (a, b)) (lo_getlen o) (lo_getidx o) (lo_withmatchlen o))
                  else Ok (inl (RError "syntax error"))
              | [] => Ok (inl (RError "syntax error"))
              end
        | [] => Ok (inl (RError "syntax error"))
        end
  end.

(** The whole command: the strings, the least length of a range, and the form of the reply. *)
Definition stralgoRequest (args : list bytes) : res (reply + bytes * bytes * lcsOpts) :=
  if negb (strcaseeq (default [] (args !! 1%nat)) (B "lcs")) then Ok (inl (RError "syntax error"))
  else
    r ← lcsRequest (drop 2 args) noOpts;
    match r with
    | inl e => Ok (inl e)
    | inr o =>
        match lo_strings o with
        | None => Ok (inl (RError "Please specify two strings: STRINGS or KEYS options are mandatory"))
        | Some (a, b) =>
            if lo_getlen o && lo_getidx o
            then Ok (inl (RError "If you want both the length and indexes, please just use IDX."))
            else Ok (inr (a, b, o))
        end
    end.

Context (db0 : redisDb).

(** The state [s] of the command after the options. *)
Definition asked (q : res (reply + lcsOpts)) (r : option lcsOpts) (s : cmdState) : Prop :=
  match r with
  | None => ∃ e, q = Ok (inl e) ∧ runs g db0 f [e] 0 s
  | Some o => q = Ok (inr o) ∧ runs g db0 f [] 0 s
  end.

Lemma wp_askError q e s : q = Ok (inl e) → runs g db0 f [] 0 s →
  wp (λ x, q = Fault x) (emit e ;; mret None) (asked q) s.
Proof. intros Hq Hs. apply wp_bind. eapply wp_emit; [done|]. intros s' _ Hs'. apply wp_ret. by exists e. Qed.

Lemma wp_keyText (E : fault → Prop) k (o : option robj) e (Q : bytes → cmdState → Prop) s :
  readable g ro (f k) = (λ o, (viewObj o, e)) <$> o → (∀ o', o = Some o' → objOk o') →
  (∀ b, keyText k = Ok b → Q b s) → (∀ x, keyText k = Fault x → E x) →
  wp E (match o with Some ob => getDecodedObject ob | None => mret [] end) Q s.
Proof.
  intros Hr Hok HQ HE. destruct o as [ob|]; cbn [fmap option_fmap option_map] in Hr; [|apply wp_ret, HQ; unfold keyText; by rewrite Hr].
  specialize (Hok ob eq_refl). destruct (viewObj ob) as [b|ob'] eqn:Hv.
  - eapply wp_run_ok; [by eapply getDecodedObject_run, viewObj_str|]. apply HQ. unfold keyText. by rewrite Hr.
  - assert (ob' = ob) as -> by (unfold viewObj in Hv; case_match; by simplify_eq).
    assert (keyText k = match getDecodedObject ob tt with Ok (b, _) => Ok b | Fault x => Fault x end) as Hk
      by (unfold keyText; by rewrite Hr).
    clear Hv Hr. rewrite Hk in *. clear Hk. unfold getDecodedObject, ptrSds, ptrLong in *.
    destruct (sdsEncodedObject ob); [|destruct (_ && _)]; [destruct (o_ptr ob)..|]; cbn in *;
      unfold wp; cbn; first [by apply HQ|by apply HE].
Qed.

Lemma wp_lcsOptions m l o s : (length l ≤ m)%nat → runs g db0 f [] 0 s →
  wp (λ x, lcsRequest l o = Fault x) (lcsOptions g ro l o) (asked (lcsRequest l o)) s.
Proof.
  revert l o s. induction m as [|m IH]; intros [|opt l] o s Hl Hs; cbn [length] in Hl; [by apply wp_ret|lia|by apply wp_ret|].
  cbn [lcsOptions lcsRequest]. destruct (strcaseeq opt (B "IDX")); [apply IH; [lia|done]|].
  destruct (strcaseeq opt (B "LEN")); [apply IH; [lia|done]|].
  destruct (strcaseeq opt (B "WITHMATCHLEN")); [apply IH; [lia|done]|].
  destruct l as [|x l1]; [by apply wp_askError|]. cbn [length] in Hl.
  destruct (strcaseeq opt (B "MINMATCHLEN")).
  { apply wp_bind. eapply wp_getLongLong; [done|apply createStringObject_string|..].
    - intros v -> _. replace (if v <? 0 then 0 else v) with (Z.max 0 v) by (destruct (Z.ltb_spec v 0); lia). apply IH; [lia|done].
    - intros s' -> Hs'. apply wp_ret. by eexists. }
  destruct l1 as [|y l2]; [by apply wp_askError|]. cbn [length] in Hl.
  destruct (strcaseeq opt (B "STRINGS")); cbn [orb].
  { case_bool_decide; [by apply wp_askError|apply IH; [lia|done]]. }
  destruct (strcaseeq opt (B "KEYS")); [|by apply wp_askError].
  case_bool_decide; [by apply wp_askError|].
  apply wp_bind. eapply wp_lookupKeyRead; [done|]. intros ka s1 Hs1 Hka Hda.
  apply wp_bind. eapply wp_lookupKeyRead; [done|]. intros kb s2 Hs2 Hkb Hdb. 
  apply wp_bind. eapply wp_keyText; [exact Hka|intros o' Ho; by eapply runs_string, Hda| |intros e He; by rewrite He]. intros a Ha. rewrite Ha.
  apply wp_bind. eapply wp_keyText; [exact Hkb|intros o' Ho; by eapply runs_string, Hdb| |intros e He; by rewrite He]. intros b Hb. rewrite Hb.
  apply IH; [lia|done].
Qed.

End Request.

(** *** The replies *)

(** The reply for the subsequence [l] and the ranges. *)
Definition lcsReply (o : lcsOpts) (l : bytes) (ranges : list range) : list reply :=
  if lo_getidx o then
    [RMapLen 2; RBulk (B "matches"); RArrayLen (Z.of_nat (length ranges))] ++
    (ranges ≫= rangeReply (lo_withmatchlen o)) ++ [RBulk (B "len"); RInt (Z.of_nat (length l))]
  else if lo_getlen o then [RInt (Z.of_nat (length l))] else [RBulk l].

Lemma runs_emitted g db0 f out n s l : runs g db0 f out n s →
  runs g db0 f (out ++ l) n (mkCmd (cs_db s) (cs_out s ++ l) (cs_dirty s)).
Proof. by intros [? ? ? <- ?]. Qed.

Section Replies.
Context (garbage : nat → Z) (g : genv) (ro : bool) (db : redisDb).

(** The replies [out], with a store that looks the same. *)
Definition repliesOnly (args : list bytes) (out : list reply) : Prop :=
  ∃ db', runCommand (stralgoCommand garbage g ro args) db = Ok ((out, 0), db') ∧
         same_backend db db' ∧ db_ok db' ∧ ∀ k, seen g db' k = seen g db k.

(** The replies are those for a longest common subsequence and its ranges. *)
Definition repliesLongest (args : list bytes) (a b : bytes) (o : lcsOpts) : Prop :=
  ∃ all la lb, isLcs a b (pieceText a all) ∧ pieces a b (length a) (length b) all la lb ∧
    repliesOnly args (lcsReply o (pieceText a all) (filter (longEnough (lo_minmatchlen o)) all)).

Lemma lcsRun_longest a b o : lo_getlen o && lo_getidx o = false →
  (Z.of_nat (length a) + 1) * (Z.of_nat (length b) + 1) < 2 ^ 32 →
  ∃ idx l ranges all la lb, isLcs a b (pieceText a all) ∧ pieces a b (length a) (length b) all la lb ∧
    lcsRun garbage a b (lo_minmatchlen o) (lo_getidx o || negb (lo_getlen o)) = Ok (idx, l, ranges) ∧
    (if lo_getidx o then
       [RMapLen 2; RBulk (B "matches"); RArrayLen (Z.of_nat (length ranges))] ++
       (ranges ≫= rangeReply (lo_withmatchlen o)) ++ [RBulk (B "len"); RInt idx]
     else if lo_getlen o then [RInt idx] else [RBulk l]) =
    lcsReply o (pieceText a all) (filter (longEnough (lo_minmatchlen o)) all).
Proof.
  intros Hgl Hfit. destruct (lcsRun_answer garbage a b (lo_minmatchlen o) true Hfit) as ([[idx l] ranges] & Hr & Hans).
  pose proof (lcsAnswer_isLcs _ _ _ _ _ _ Hans) as [Hidx Hl].
  destruct Hans as (Hlen & _ & _ & _ & all & la & lb & Hp & -> & ->). unfold lcsReply.
  destruct (lo_getidx o || negb (lo_getlen o)) eqn:Hc.
  - exists idx, (pieceText a all), (filter (longEnough (lo_minmatchlen o)) all), all, la, lb. rewrite <-Hidx. by split_and!.
  - apply orb_false_iff in Hc as [Hi Hg]. rewrite Hi. apply negb_false_iff in Hg. rewrite Hg.
    destruct (lcsRun_answer garbage a b (lo_minmatchlen o) false Hfit) as ([[idx' l'] ranges'] & Hr' & Hidx' & _).
    exists idx', l', ranges', all, la, lb. split_and!; [done..|]. by rewrite Hidx', <-Hlen, Hidx.
Qed.

Lemma wp_stralgo args : db_ok db → (2 ≤ length args)%nat →
  let q := stralgoRequest g ro (seen g db) args in
  wp (λ x, q = Fault x ∨
           ∃ a b o, q = Ok (inr (a, b, o)) ∧ lcsRun garbage a b (lo_minmatchlen o) (lo_getidx o || negb (lo_getlen o)) = Fault x)
     (stralgoCommand garbage g ro args)
     (λ _ s', ∃ out, runs g db (seen g db) out 0 s' ∧
        match q with
        | Ok (inl e) => out = [e]
        | Ok (inr (a, b, o)) => lo_getlen o && lo_getidx o = false ∧
            ∃ idx l ranges, lcsRun garbage a b (lo_minmatchlen o) (lo_getidx o || negb (lo_getlen o)) = Ok (idx, l, ranges) ∧
            out = if lo_getidx o then
                    [RMapLen 2; RBulk (B "matches"); RArrayLen (Z.of_nat (length ranges))] ++
                    (ranges ≫= rangeReply (lo_withmatchlen o)) ++ [RBulk (B "len"); RInt idx]
                  else if lo_getlen o then [RInt idx] else [RBulk l]
        | Fault _ => False
        end) (mkCmd db [] 0).
Proof.
  intros Hok Hl q. unfold stralgoCommand. apply wp_bind.
  destruct (lookup_lt_is_Some_2 args 1) as [alg Halg]; [lia|]. eapply wp_deref; [exact Halg|].
  unfold q, stralgoRequest. rewrite Halg. change (default [] (Some alg)) with alg. destruct (strcaseeq alg (B "lcs")); cbn [negb].
  2:{ eapply wp_emit; [by apply runs_start|]. intros s' _ Hs'. eexists. by split; [exact Hs'|]. }
  unfold stralgoLCS. fold noOpts. apply wp_bind.
  pose proof (wp_lcsOptions g ro (seen g db) db _ (drop 2 args) noOpts _ (le_n _) (runs_start g db Hok)) as Hopt.
  unfold wp at 1. unfold wp at 1 in Hopt. destruct (lcsOptions g ro (drop 2 args) noOpts _) as [[[o|] s1]|x]; [..|left; by rewrite Hopt].
  2:{ destruct Hopt as (e & -> & Hs1). apply wp_ret. by exists [e]. }
  destruct Hopt as [-> Hs1]. cbn [mbind res_bind]. destruct (lo_strings o) as [[a b]|].
  2:{ eapply wp_emit; [done|]. intros s' _ Hs'. eexists. by split; [exact Hs'|]. }
  destruct (lo_getlen o && lo_getidx o) eqn:Hgl.
  { eapply wp_emit; [done|]. intros s' _ Hs'. eexists. by split; [exact Hs'|]. }
  apply wp_bind. unfold wp at 1. destruct (lcsRun _ _ _ _ _) as [[[idx l] ranges]|x] eqn:Hr; [|right; by exists a, b, o].
  destruct (lo_getidx o) eqn:Hi.
  - do 3 (apply wp_bind; eapply wp_emit; [eassumption|]; intros ? _ ?).
    apply wp_bind. eapply wp_run_ok; [apply forM_emit_run|]. apply wp_bind.
    eapply wp_emit; [by apply runs_emitted|]. intros s2 _ Hs2. eapply wp_emit; [done|]. intros s3 _ Hs3.
    eexists. split; [exact Hs3|]. split; [done|]. exists idx, l, ranges. split; [done|]. cbn. by rewrite <-!app_assoc.
  - destruct (lo_getlen o); (eapply wp_emit; [done|]); intros s2 _ Hs2; eexists; (split; [exact Hs2|]); by eauto 6.
Qed.

End Replies.

(** When the product of the lengths plus one does not fit in 32 bits, the table is
    allocated with the product modulo 2^32 and written outside. *)
Lemma lcsRun_overflow garbage a b m computelcs :
  Z.of_nat (length a) + 1 < 2 ^ 32 → Z.of_nat (length b) + 1 < 2 ^ 32 →
  2 ^ 32 ≤ (Z.of_nat (length a) + 1) * (Z.of_nat (length b) + 1) →
  lcsRun garbage a b m computelcs = Fault (BadPointer "stralgoLCS").
Proof.
  intros Ha Hb Hbig. pose proof (wp_lcsFill_overflow a b (lcsArray garbage a b) Ha Hb Hbig) as Hwp.
  specialize (Hwp (length_lcsArray garbage a b)). unfold lcsRun, lcsCompute, wp in *.
  unfold mbind, M_bind. destruct (lcsFill a b _) as [[]|f]; [done|by subst].
Qed.

(** C26. STRALGO with any arguments, in a well-formed database: the errors of the
    options are replied and nothing is computed; KEYS takes the strings of its two
    keys (an absent or expired one is empty), and stops the server in
    getDecodedObject when a value is not a string; then LCS, for any contents of the
    fresh table, replies a longest common subsequence of the two strings, with LEN
    its length, and with IDX (with and without WITHMATCHLEN) its length and the
    matching ranges that have the MINMATCHLEN asked for, taken from a list of
    ranges, disjoint and in order in both strings, that spells that subsequence.
    This holds when the product of the two lengths plus one is below 2^32; when it
    is not (and the lengths plus one are), the 32-bit size of the table is too small
    and the filling writes past its end. The observable database is not changed. *)
Theorem stralgo_replies_longest (garbage : nat → Z) (g : genv) (ro : bool) (db : redisDb) (args : list bytes) :
  db_ok db → (2 ≤ length args)%nat →
  match stralgoRequest g ro (seen g db) args with
  | Ok (inl e) => repliesOnly garbage g ro db args [e]
  | Ok (inr (a, b, o)) =>
      let cells := (Z.of_nat (length a) + 1) * (Z.of_nat (length b) + 1) in
      (cells < 2 ^ 32 → repliesLongest garbage g ro db args a b o) ∧
      (Z.of_nat (length a) + 1 < 2 ^ 32 → Z.of_nat (length b) + 1 < 2 ^ 32 → 2 ^ 32 ≤ cells →
       runCommand (stralgoCommand garbage g ro args) db = Fault (BadPointer "stralgoLCS"))
  | Fault x => runCommand (stralgoCommand garbage g ro args) db = Fault x
  end.
Proof.
  intros Hok Hl. pose proof (wp_stralgo garbage g ro db args Hok Hl) as Hwp. cbv zeta in Hwp. unfold repliesLongest, repliesOnly, runCommand.
  unfold wp in Hwp. destruct (stralgoCommand garbage g ro args _) as [[[] s]|x].
  - destruct Hwp as (out & [Hdb Hb Hseen Hout Hn] & Hq). rewrite Hout, Hn.
    destruct (stralgoRequest _ _ _ _) as [[e|[[a b] o]]|x]; [rewrite Hq; by exists (cs_db s)| |done].
    destruct Hq as (Hgl & idx & l & ranges & Hr & ->). split.
    + intros Hfit. destruct (lcsRun_longest garbage a b o Hgl Hfit) as (idx' & l' & ranges' & all & la & lb & Hlcs & Hp & Hr' & Hreply).
      rewrite Hr in Hr'. simplify_eq. exists all, la, lb. split; [done|]. split; [done|]. rewrite Hreply. by exists (cs_db s).
    + intros Ha Hb' Hbig. by rewrite (lcsRun_overflow garbage a b) in Hr.
  - destruct Hwp as [->|(a & b & o & -> & Hr)]; [done|]. split.
    + intros Hfit. by destruct (lcsRun_answer garbage a b (lo_minmatchlen o) (lo_getidx o || negb (lo_getlen o)) Hfit) as (r & Hr' & _); rewrite Hr in Hr'.
    + intros Ha Hb Hbig. by rewrite (lcsRun_fault _ _ _ _ _ _ Hr).
Qed.

(** Two keys, one of them with an expire time. *)
Definition lcsDb : redisDb :=
  with_keyspace {[B "x" := createStringObject (B "ohmytext"); B "y" := createStringObject (B "mynewtext")]} {[B "y" := 5]} emptyDb.

Lemma lcsDb_ok : db_ok lcsDb.
Proof.
  split; cbn.
  - intros k [e He]. apply lookup_singleton_Some in He as [<- _]. by eexists.
  - intros k o Ho _. apply lookup_insert_Some in Ho as [[_ <-]|[_ Ho]]; [eexists; apply createStringObject_string|].
    apply lookup_singleton_Some in Ho as [_ <-]. eexists. apply createStringObject_string.
Qed.

Lemma stralgo_replies_longest_witness :
  repliesLongest (λ _, 7) (mkEnv false false 3) true lcsDb
    [B "STRALGO"; B "LCS"; B "IDX"; B "KEYS"; B "x"; B "y"] (B "ohmytext") (B "mynewtext")
    (mkLcsOpts 0 (Some (B "ohmytext", B "mynewtext")) false true false).
Proof.
  refine (proj1 (stralgo_replies_longest (λ _, 7) (mkEnv false false 3) true lcsDb
    [B "STRALGO"; B "LCS"; B "IDX"; B "KEYS"; B "x"; B "y"] _ _) _); [exact lcsDb_ok|cbn; lia|reflexivity].
Defined.

(** STRALGO LCS KEYS does not test the types: a key that holds a list stops the server. *)
Lemma stralgo_keys_panics garbage g ro n x y o db : db_ok db →
  dict db !! x = Some o → expires db !! x = None → expires db !! y = None →
  o_type o ≠ OBJ_STRING → sdsEncodedObject o = false →
  runCommand (stralgoCommand garbage g ro [n; B "LCS"; B "KEYS"; x; y]) db =
  Fault (AssertFailed "getDecodedObject: unknown encoding type").
Proof.
  intros Hok Hx Hex Hey Ht He. unfold runCommand, stralgoCommand, stralgoLCS.
  erewrite bind_run by done. change (strcaseeq (B "LCS") (B "lcs")) with true. cbv iota.
  assert (Hread : ∀ k, expires db !! k = None →
    onDb (lookupKeyRead g ro k) (mkCmd db [] 0) = Ok (dict db !! k, mkCmd db [] 0)).
  { intros k Hk. unfold onDb. cbn [cs_db]. rewrite lookupKeyRead_run by apply db_ok_wf, Hok.
    unfold purge, expired_at. by rewrite Hk. }
  assert (Hopt : lcsOptions g ro [B "KEYS"; x; y] noOpts (mkCmd db [] 0) =
    Fault (AssertFailed "getDecodedObject: unknown encoding type")).
  2:{ unfold mbind, M_bind. fold noOpts. cbn [drop]. by rewrite Hopt. }
  transitivity ((ka ← onDb (lookupKeyRead g ro x); kb ← onDb (lookupKeyRead g ro y);
    sa ← match ka with Some ob => getDecodedObject ob | None => mret [] end;
    sb ← match kb with Some ob => getDecodedObject ob | None => mret [] end;
    lcsOptions g ro [] (mkLcsOpts 0 (Some (sa, sb)) false false false)) (mkCmd db [] 0)); [done|].
  erewrite bind_run by by apply Hread. erewrite bind_run by by apply Hread. rewrite Hx.
  unfold getDecodedObject. rewrite He, bool_decide_false by done. done.
Qed.
