(* ===== verification/Bitops.v ===== *)
(** * Bitops: the bit functions of src/src/bitops.c

    Counting bits seven words at a time, searching a bit a word at a time, and the
    integers of any width inside a string (bitfields) with the detection of their
    overflows.

    The functions that look at the alignment of their argument take its address.
    [wide] is what the machine gives for [(uint64_t)-1 << 64], which the C language
    leaves undefined and the code computes for 64-bit integers.  The signed differences of
    the overflow tests wrap around. *)

From Stdlib Require Import Ascii String ZifyBool.
From stdpp Require Import base tactics option list list_numbers strings numbers.
From S2P Require Import Prelude Endian Util Db.

Local Open Scope Z_scope.

(** ** Bytes as integers *)

Definition uchar (c : ascii) : Z := Z.of_N (N_of_ascii c).
Definition ucharOf (z : Z) : ascii := ascii_of_N (Z.to_N (z mod 256)).

(** ** Counting *)

Definition bitsinbyte : list Z :=
  [0; 1; 1; 2; 1; 2; 2; 3; 1; 2; 2; 3; 2; 3; 3; 4; 1; 2; 2; 3; 2; 3; 3; 4; 2; 3; 3; 4; 3; 4; 4; 5;
   1; 2; 2; 3; 2; 3; 3; 4; 2; 3; 3; 4; 3; 4; 4; 5; 2; 3; 3; 4; 3; 4; 4; 5; 3; 4; 4; 5; 4; 5; 5; 6;
   1; 2; 2; 3; 2; 3; 3; 4; 2; 3; 3; 4; 3; 4; 4; 5; 2; 3; 3; 4; 3; 4; 4; 5; 3; 4; 4; 5; 4; 5; 5; 6;
   2; 3; 3; 4; 3; 4; 4; 5; 3; 4; 4; 5; 4; 5; 5; 6; 3; 4; 4; 5; 4; 5; 5; 6; 4; 5; 5; 6; 5; 6; 6; 7;
   1; 2; 2; 3; 2; 3; 3; 4; 2; 3; 3; 4; 3; 4; 4; 5; 2; 3; 3; 4; 3; 4; 4; 5; 3; 4; 4; 5; 4; 5; 5; 6;
   2; 3; 3; 4; 3; 4; 4; 5; 3; 4; 4; 5; 4; 5; 5; 6; 3; 4; 4; 5; 4; 5; 5; 6; 4; 5; 5; 6; 5; 6; 6; 7;
   2; 3; 3; 4; 3; 4; 4; 5; 3; 4; 4; 5; 4; 5; 5; 6; 3; 4; 4; 5; 4; 5; 5; 6; 4; 5; 5; 6; 5; 6; 6; 7;
   3; 4; 4; 5; 4; 5; 5; 6; 4; 5; 5; 6; 5; 6; 6; 7; 4; 5; 5; 6; 5; 6; 6; 7; 5; 6; 6; 7; 6; 7; 7; 8].

Definition bitsOfTable (c : ascii) : Z := bitsinbyte !!! Z.to_nat (uchar c).

Section Popcount.
Context `{Host}.

(** The bytes before the first address that is a multiple of 4. *)
Fixpoint popcountHead (addr : Z) (p : bytes) (bits : Z) : Z * bytes :=
  match p with
  | c :: p' =>
      if negb (Z.land addr 3 =? 0) then popcountHead (addr + 1) p' (u64 (bits + bitsOfTable c))
      else (bits, p)
  | [] => (bits, [])
  end.

(** [*p4] *)
Definition word32 (p : bytes) : Z := hostInt (uchar <$> take 4 p).

(** [aux = aux - ((aux >> 1) & 0x55555555);
     aux = (aux & 0x33333333) + ((aux >> 2) & 0x33333333);] *)
Definition pairSums (aux : Z) : Z :=
  let aux := u32 (aux - Z.land (Z.shiftr aux 1) 0x55555555) in
  u32 (Z.land aux 0x33333333 + Z.land (Z.shiftr aux 2) 0x33333333).

(** [(aux + (aux >> 4)) & 0x0F0F0F0F] *)
Definition byteSums (aux : Z) : Z := Z.land (u32 (aux + Z.shiftr aux 4)) 0x0F0F0F0F.

(** The bits of 28 bytes. *)
Definition popcountBlock (p : bytes) : Z :=
  let sums := (λ i, byteSums (pairSums (word32 (drop (4 * i) p)))) <$> seq 0 7 in
  Z.shiftr (u32 (foldl (λ a b, u32 (a + b)) 0 sums * 0x01010101)) 24.

Fixpoint popcountBlocks (fuel : nat) (p : bytes) (bits : Z) : Z * bytes :=
  match fuel with
  | O => (bits, p)
  | S fuel =>
      if bool_decide (28 ≤ length p)%nat
      then popcountBlocks fuel (drop 28 p) (u64 (bits + popcountBlock p))
      else (bits, p)
  end.

Definition popcountTail (p : bytes) (bits : Z) : Z :=
  foldl (λ bits c, u64 (bits + bitsOfTable c)) bits p.

(** [redisPopcount(s, count)], where [s] has [count] bytes at address [addr]. *)
Definition redisPopcount (addr : Z) (s : bytes) : Z :=
  let '(bits, p) := popcountHead addr s 0 in
  let '(bits, p) := popcountBlocks (length s) p bits in
  popcountTail p bits.

(** ** Searching *)

(** Skipping whole bytes up to an address that is a multiple of 8: whether another byte
    was found, what is left and the position reached. *)
Fixpoint bitposHead (addr skipval : Z) (c : bytes) (pos : Z) : bool * bytes * Z :=
  match c with
  | x :: c' =>
      if negb (Z.land addr 7 =? 0) then
        if negb (uchar x =? skipval) then (true, c, pos)
        else bitposHead (addr + 1) skipval c' (pos + 8)
      else (false, c, pos)
  | [] => (false, [], pos)
  end.

Definition word64 (p : bytes) : Z := hostInt (uchar <$> take 8 p).

Fixpoint bitposWords (fuel : nat) (skipval : Z) (l : bytes) (pos : Z) : bytes * Z :=
  match fuel with
  | O => (l, pos)
  | S fuel =>
      if bool_decide (8 ≤ length l)%nat then
        if negb (word64 l =? skipval) then (l, pos)
        else bitposWords fuel skipval (drop 8 l) (pos + 64)
      else (l, pos)
  end.

(** The next [n] bytes as a word, the first one most significant, padded with zeros. *)
Fixpoint loadWord (n : nat) (c : bytes) (word : Z) : Z :=
  match n with
  | O => word
  | S n =>
      let word := u64 (Z.shiftl word 8) in
      match c with
      | x :: c => loadWord n c (Z.lor word (uchar x))
      | [] => loadWord n [] word
      end
  end.

(** [while(one)], for the [n] bits of the mask below the present one. *)
Fixpoint bitposScan (n : nat) (one word bit pos : Z) : res Z :=
  match n with
  | O => Fault (AssertFailed "End of redisBitpos() reached.")
  | S n =>
      if (if negb (Z.land one word =? 0) then 1 else 0) =? bit then Ok pos
      else bitposScan n (Z.shiftr one 1) word bit (pos + 1)
  end.

Definition redisBitpos (addr : Z) (s : bytes) (bit : Z) : res Z :=
  let '(found, c, pos) := bitposHead addr (if bit =? 0 then 255 else 0) s 0 in
  let '(c, pos) :=
    if found : bool then (c, pos)
    else bitposWords (length s) (if bit =? 0 then ULLONG_MAX else 0) c pos in
  let word := loadWord 8 c 0 in
  if (bit =? 1) && (word =? 0) then Ok (-1)
  else bitposScan 64 (2 ^ 63) word bit pos.

End Popcount.

(** ** Bitfields *)

(** Setting one bit: the body of the loop of [setUnsignedBitfield]. *)
Definition setBitAt (offset bitval : Z) : M bytes unit :=
  p ← get;
  let byte := Z.to_nat (Z.shiftr offset 3) in
  let bit := 7 - Z.land offset 7 in
  c ← deref (p !! byte) "setUnsignedBitfield";
  let byteval := Z.land (uchar c) (Z.lnot (Z.shiftl 1 bit)) in
  let byteval := Z.lor byteval (Z.shiftl bitval bit) in
  put (<[byte := ucharOf (Z.land byteval 255)]> p).

Definition setUnsignedBitfield (offset bits value : Z) : M bytes unit :=
  forM_ (seq 0 (Z.to_nat bits)) (λ j,
    let bitval := if negb (Z.land value (Z.shiftl 1 (bits - 1 - Z.of_nat j)) =? 0) then 1 else 0 in
    setBitAt (offset + Z.of_nat j) bitval).

Definition setSignedBitfield (offset bits value : Z) : M bytes unit :=
  setUnsignedBitfield offset bits (u64 value).

Fixpoint getBitsLoop (n : nat) (offset value : Z) : M bytes Z :=
  match n with
  | O => mret value
  | S n =>
      p ← get;
      c ← deref (p !! Z.to_nat (Z.shiftr offset 3)) "getUnsignedBitfield";
      let bit := 7 - Z.land offset 7 in
      let bitval := Z.land (Z.shiftr (uchar c) bit) 1 in
      getBitsLoop n (offset + 1) (Z.lor (u64 (Z.shiftl value 1)) bitval)
  end.

Definition getUnsignedBitfield (offset bits : Z) : M bytes Z := getBitsLoop (Z.to_nat bits) offset 0.

Section Signed.
Context (wide : Z).

(** [((uint64_t)-1) << bits] *)
Definition highBits (bits : Z) : Z := if bits =? 64 then wide else u64 (Z.shiftl (-1) bits).

Definition getSignedBitfield (offset bits : Z) : M bytes Z :=
  value ← getUnsignedBitfield offset bits;
  mret (i64 (if negb (Z.land value (Z.shiftl 1 (bits - 1)) =? 0)
             then Z.lor value (highBits bits) else value)).

Inductive owtype := BFOVERFLOW_WRAP | BFOVERFLOW_SAT | BFOVERFLOW_FAIL.

(** What the functions return, and [*limit], which they leave alone in some cases. *)
Definition checkUnsignedBitfieldOverflow (value incr bits : Z) (ow : owtype) (limit : Z) : Z * Z :=
  let max := if bits =? 64 then ULLONG_MAX else u64 (Z.shiftl 1 bits - 1) in
  let maxincr := i64 (u64 (max - value)) in
  let minincr := i64 (u64 (- value)) in
  let wrap := (1, Z.ldiff (u64 (value + incr)) (highBits bits)) in
  if (max <? value) || (0 <? incr) && (maxincr <? incr) then
    match ow with
    | BFOVERFLOW_WRAP => wrap
    | BFOVERFLOW_SAT => (1, max)
    | BFOVERFLOW_FAIL => (1, limit)
    end
  else if (incr <? 0) && (incr <? minincr) then
    match ow with
    | BFOVERFLOW_WRAP => wrap
    | BFOVERFLOW_SAT => (-1, 0)
    | BFOVERFLOW_FAIL => (-1, limit)
    end
  else (0, limit).

Definition checkSignedBitfieldOverflow (value incr bits : Z) (ow : owtype) (limit : Z) : Z * Z :=
  let max := if bits =? 64 then LLONG_MAX else i64 (Z.shiftl 1 (bits - 1) - 1) in
  let min := - max - 1 in
  let maxincr := i64 (max - value) in
  let minincr := i64 (min - value) in
  let wrap :=
    let mask := highBits bits in
    let msb := Z.shiftl 1 (bits - 1) in
    let c := u64 (value + incr) in
    (1, i64 (if negb (Z.land c msb =? 0) then Z.lor c mask else Z.ldiff c mask)) in
  if (max <? value) || negb (bits =? 64) && (maxincr <? incr) ||
     (0 <=? value) && (0 <? incr) && (maxincr <? incr) then
    match ow with
    | BFOVERFLOW_WRAP => wrap
    | BFOVERFLOW_SAT => (1, max)
    | BFOVERFLOW_FAIL => (1, limit)
    end
  else if (value <? min) || negb (bits =? 64) && (incr <? minincr) ||
          (value <? 0) && (incr <? 0) && (incr <? minincr) then
    match ow with
    | BFOVERFLOW_WRAP => wrap
    | BFOVERFLOW_SAT => (-1, min)
    | BFOVERFLOW_FAIL => (-1, limit)
    end
  else (0, limit).

End Signed.

#[global] Instance owtype_eq_dec : EqDecision owtype.
Proof. solve_decision. Defined.
