(* ===== verification/BitopsProps.v ===== *)
(** * BitopsProps: the bit functions on lists of bits

    A string is a list of bits, the most significant one of each byte first.  The
    counting and the searching routines agree with the obvious functions on that list
    whatever the alignment and the byte order of the machine, bitfields are its
    segments, and the overflow tests compare the exact result with the range of the
    integer type. *)

From Stdlib Require Import Ascii String ZifyBool.
From stdpp Require Import base tactics option list list_numbers strings numbers.
From S2P Require Import Prelude Endian Util Db Bitops.

Local Open Scope Z_scope.

(** ** Bits *)

(** The [n] low bits of an integer, the most significant one first. *)
Definition intBits (n : nat) (v : Z) : list bool :=
  (λ i, Z.testbit v (Z.of_nat n - 1 - Z.of_nat i)) <$> seq 0 n.

Definition bitsOfByte (c : ascii) : list bool := intBits 8 (uchar c).

Definition bitsOf (s : bytes) : list bool := s ≫= bitsOfByte.

(** The number of ones. *)
Definition ones (l : list bool) : Z := foldr (λ b n, (if b : bool then 1 else 0) + n) 0 l.

Lemma uchar_bound c : 0 ≤ uchar c < 256.
Proof. unfold uchar. pose proof (N_ascii_bounded c). lia. Qed.

Lemma ucharOf_uchar c : ucharOf (uchar c) = c.
Proof.
  unfold ucharOf. rewrite Z.mod_small by apply uchar_bound. unfold uchar. rewrite N2Z.id.
  apply ascii_N_embedding.
Qed.

Lemma uchar_ucharOf z : uchar (ucharOf z) = z mod 256.
Proof.
  unfold uchar, ucharOf. pose proof (Z.mod_pos_bound z 256). rewrite N_ascii_embedding by lia. lia.
Qed.

Lemma length_bitsOf s : length (bitsOf s) = (8 * length s)%nat.
Proof. induction s as [|c s IH]; [done|]. cbn [bitsOf mbind list_bind]. rewrite length_app. unfold bitsOf in IH. cbn. lia. Qed.

Lemma bitsOf_cons c s : bitsOf (c :: s) = bitsOfByte c ++ bitsOf s.
Proof. done. Qed.

Lemma bitsOf_app s t : bitsOf (s ++ t) = bitsOf s ++ bitsOf t.
Proof. apply bind_app. Qed.

Lemma ones_app l k : ones (l ++ k) = ones l + ones k.
Proof. induction l as [|b l IH]; [done|]. cbn. unfold ones in *. lia. Qed.

Lemma ones_bound l : 0 ≤ ones l ≤ Z.of_nat (length l).
Proof. induction l as [|b l IH]; [done|]. unfold ones in *. cbn. destruct b; lia. Qed.

Lemma ones_bitsOf_bound s : 0 ≤ ones (bitsOf s) ≤ 8 * Z.of_nat (length s).
Proof. pose proof (ones_bound (bitsOf s)). rewrite length_bitsOf in *. lia. Qed.

(** ** Counting *)

(** The number of ones of a byte. *)
Definition byteOnes (b : Z) : Z := ones (intBits 8 b).

Lemma bitsOfTable_ones c : bitsOfTable c = ones (bitsOfByte c).
Proof. by destruct c as [[] [] [] [] [] [] [] []]. Qed.

Lemma byteOnes_uchar c : byteOnes (uchar c) = ones (bitsOfByte c).
Proof. done. Qed.

(** *** Operations that act on each byte of a word *)

Lemma testbit_digit b h i : 0 ≤ b < 256 → 0 ≤ i →
  Z.testbit (b + 256 * h) i = if i <? 8 then Z.testbit b i else Z.testbit h (i - 8).
Proof.
  intros Hb Hi. rewrite (Z.mul_comm 256). change 256 with (2 ^ 8). rewrite <-lor_high by lia.
  rewrite Z.lor_spec, Z.shiftl_spec by done. destruct (Z.ltb_spec i 8).
  - rewrite (Z.testbit_neg_r h) by lia. apply orb_false_r.
  - rewrite <-(Z.mod_small b (2 ^ 8)), Z.mod_pow2_bits_high by lia. done.
Qed.

Lemma testbit_small b k i : 0 ≤ b < 2 ^ k → 0 ≤ k ≤ i → Z.testbit b i = false.
Proof. intros Hb Hi. rewrite <-(Z.mod_small b (2 ^ k)) by lia. apply Z.mod_pow2_bits_high. lia. Qed.

Lemma land_range b m k : 0 ≤ m < 2 ^ k → 0 ≤ k → 0 ≤ Z.land b m < 2 ^ k.
Proof.
  intros Hm Hk. assert (0 ≤ Z.land b m) by (apply Z.land_nonneg; lia). split; [done|].
  assert (Z.land b m = Z.land b m mod 2 ^ k) as ->; [|apply Z.mod_pos_bound; lia].
  apply Z.bits_inj'. intros i Hi. destruct (Z.lt_ge_cases i k).
  - by rewrite Z.mod_pow2_bits_low.
  - rewrite Z.mod_pow2_bits_high, Z.land_spec, (testbit_small m k) by lia. apply andb_false_r.
Qed.

(** The bits that a shift moves over from the next byte are masked. *)
Lemma shiftr_land_digit b h m hm k : 0 ≤ b < 256 → 0 ≤ k < 8 → 0 ≤ m < 2 ^ (8 - k) →
  Z.land (Z.shiftr (b + 256 * h) k) (m + 256 * hm) =
  Z.land (Z.shiftr b k) m + 256 * Z.land (Z.shiftr h k) hm.
Proof.
  intros Hb Hk Hm. assert (2 ^ (8 - k) ≤ 2 ^ 8) as Hp by (apply Z.pow_le_mono_r; lia).
  change (2 ^ 8) with 256 in Hp. pose proof (land_range (Z.shiftr b k) m (8 - k)).
  apply Z.bits_inj'. intros i Hi.
  rewrite Z.land_spec, Z.shiftr_spec, !testbit_digit, !Z.land_spec, !Z.shiftr_spec by lia.
  destruct (Z.ltb_spec i 8).
  - destruct (Z.ltb_spec (i + k) 8); [done|]. rewrite (testbit_small m (8 - k)) by lia.
    by rewrite !andb_false_r.
  - rewrite (proj2 (Z.ltb_ge (i + k) 8)), ?Z.land_spec, ?Z.shiftr_spec by lia. do 2 f_equal. lia.
Qed.

Lemma land_digit b h m hm : 0 ≤ b < 256 → 0 ≤ m < 256 →
  Z.land (b + 256 * h) (m + 256 * hm) = Z.land b m + 256 * Z.land h hm.
Proof. intros. pose proof (shiftr_land_digit b h m hm 0) as He. rewrite !Z.shiftr_0_r in He. apply He; lia. Qed.

(** A word of four bytes, the least significant one first. *)
Definition digits (b0 b1 b2 b3 : Z) : Z := b0 + 256 * (b1 + 256 * (b2 + 256 * b3)).

Lemma shiftr_land_digits b0 b1 b2 b3 m k :
  0 ≤ b0 < 256 → 0 ≤ b1 < 256 → 0 ≤ b2 < 256 → 0 ≤ b3 < 256 → 0 ≤ k < 8 → 0 ≤ m < 2 ^ (8 - k) →
  let f b := Z.land (Z.shiftr b k) m in
  Z.land (Z.shiftr (digits b0 b1 b2 b3) k) (digits m m m m) = digits (f b0) (f b1) (f b2) (f b3).
Proof. intros. unfold digits. by rewrite !shiftr_land_digit by done. Qed.

Lemma land_digits b0 b1 b2 b3 m :
  0 ≤ b0 < 256 → 0 ≤ b1 < 256 → 0 ≤ b2 < 256 → 0 ≤ b3 < 256 → 0 ≤ m < 256 →
  Z.land (digits b0 b1 b2 b3) (digits m m m m) = digits (Z.land b0 m) (Z.land b1 m) (Z.land b2 m) (Z.land b3 m).
Proof. intros. unfold digits. by rewrite !land_digit by done. Qed.

Lemma u32_digits b0 b1 b2 b3 :
  0 ≤ b0 < 256 → 0 ≤ b1 < 256 → 0 ≤ b2 < 256 → 0 ≤ b3 < 256 → u32 (digits b0 b1 b2 b3) = digits b0 b1 b2 b3.
Proof. intros. apply u32_id. unfold digits. lia. Qed.

(** The steps on one byte; the sum of the two nibbles is the number of ones. *)
Definition step1 (b : Z) : Z := b - Z.land (Z.shiftr b 1) 0x55.
Definition step2 (b : Z) : Z := Z.land b 0x33 + Z.land (Z.shiftr b 2) 0x33.

Definition stepsOk (b : Z) : bool :=
  (0 <=? step1 b) && (step1 b <? 256) &&
  let x := step2 (step1 b) in
  (0 <=? x) && (x mod 16 <=? 4) && (x / 16 <=? 4) && (x mod 16 + x / 16 =? byteOnes b) && (byteOnes b <=? 8).

Lemma stepsOk_all b : 0 ≤ b < 256 → stepsOk b = true.
Proof.
  intros Hb. assert (forallb (λ n, stepsOk (Z.of_nat n)) (seq 0 256) = true) as Hall by (vm_compute; reflexivity).
  rewrite forallb_forall in Hall. specialize (Hall (Z.to_nat b)). rewrite Z2Nat.id in Hall by lia.
  apply Hall, in_seq. lia.
Qed.

Lemma steps_spec b : 0 ≤ b < 256 →
  0 ≤ step1 b < 256 ∧
  ∃ l h, step2 (step1 b) = l + 16 * h ∧ 0 ≤ l ≤ 4 ∧ 0 ≤ h ≤ 4 ∧ l + h = byteOnes b.
Proof.
  intros Hb. pose proof (stepsOk_all b Hb) as Hs. unfold stepsOk in Hs. cbv zeta in Hs.
  rewrite !andb_true_iff in Hs. split; [lia|]. set (x := step2 (step1 b)) in *.
  exists (x mod 16), (x / 16). pose proof (Z.div_mod x 16). pose proof (Z.mod_pos_bound x 16).
  repeat split; lia.
Qed.

Lemma nibble_sums l0 h0 l1 h1 l2 h2 l3 h3 :
  0 ≤ l0 ≤ 4 → 0 ≤ h0 ≤ 4 → 0 ≤ l1 ≤ 4 → 0 ≤ h1 ≤ 4 → 0 ≤ l2 ≤ 4 → 0 ≤ h2 ≤ 4 → 0 ≤ l3 ≤ 4 → 0 ≤ h3 ≤ 4 →
  let w := digits (l0 + 16 * h0) (l1 + 16 * h1) (l2 + 16 * h2) (l3 + 16 * h3) in
  Z.land (u32 (w + Z.shiftr w 4)) (digits 15 15 15 15) = digits (l0 + h0) (l1 + h1) (l2 + h2) (l3 + h3).
Proof.
  intros ???????? w. rewrite Z.shiftr_div_pow2 by lia.
  rewrite <-(Z.div_unique w (2 ^ 4) (digits (h0 + 16 * l1) (h1 + 16 * l2) (h2 + 16 * l3) h3) l0)
    by (unfold w, digits; lia).
  assert (w + digits (h0 + 16 * l1) (h1 + 16 * l2) (h2 + 16 * l3) h3 =
    digits (l0 + h0 + 16 * (h0 + l1)) (l1 + h1 + 16 * (h1 + l2)) (l2 + h2 + 16 * (h2 + l3)) (l3 + h3 + 16 * h3))
    as -> by (unfold w, digits; lia).
  rewrite u32_digits, land_digits by lia.
  assert (∀ x y, 0 ≤ x < 16 → Z.land (x + 16 * y) 15 = x) as Hlow.
  { intros x y Hx. change 15 with (Z.ones 4). rewrite Z.land_ones by lia. symmetry.
    apply (Z.mod_unique _ _ y); lia. }
  by rewrite !Hlow by lia.
Qed.

Lemma byteSums_pairSums b0 b1 b2 b3 :
  0 ≤ b0 < 256 → 0 ≤ b1 < 256 → 0 ≤ b2 < 256 → 0 ≤ b3 < 256 →
  byteSums (pairSums (digits b0 b1 b2 b3)) = digits (byteOnes b0) (byteOnes b1) (byteOnes b2) (byteOnes b3).
Proof.
  intros H0 H1 H2 H3.
  destruct (steps_spec b0 H0) as (Hs0 & l0 & h0 & E0 & ? & ? & <-).
  destruct (steps_spec b1 H1) as (Hs1 & l1 & h1 & E1 & ? & ? & <-).
  destruct (steps_spec b2 H2) as (Hs2 & l2 & h2 & E2 & ? & ? & <-).
  destruct (steps_spec b3 H3) as (Hs3 & l3 & h3 & E3 & ? & ? & <-).
  unfold pairSums, byteSums. change 0x55555555 with (digits 0x55 0x55 0x55 0x55).
  change 0x33333333 with (digits 0x33 0x33 0x33 0x33). change 0x0F0F0F0F with (digits 15 15 15 15).
  rewrite shiftr_land_digits by done.
  assert (∀ a0 a1 a2 a3 c0 c1 c2 c3,
    digits a0 a1 a2 a3 - digits c0 c1 c2 c3 = digits (a0 - c0) (a1 - c1) (a2 - c2) (a3 - c3)) as Hsub
    by (unfold digits; lia).
  assert (∀ a0 a1 a2 a3 c0 c1 c2 c3,
    digits a0 a1 a2 a3 + digits c0 c1 c2 c3 = digits (a0 + c0) (a1 + c1) (a2 + c2) (a3 + c3)) as Hadd
    by (unfold digits; lia).
  rewrite Hsub. fold (step1 b0) (step1 b1) (step1 b2) (step1 b3).
  rewrite u32_digits by done. cbv zeta. rewrite land_digits, shiftr_land_digits, Hadd by done.
  fold (step2 (step1 b0)) (step2 (step1 b1)) (step2 (step1 b2)) (step2 (step1 b3)).
  rewrite E0, E1, E2, E3, u32_digits by lia. by apply nibble_sums.
Qed.

(** The product with 0x01010101 has the sum of the bytes in its highest byte. *)
Lemma sum_of_digits c0 c1 c2 c3 : 0 ≤ c0 → 0 ≤ c1 → 0 ≤ c2 → 0 ≤ c3 → c0 + c1 + c2 + c3 < 256 →
  Z.shiftr (u32 (digits c0 c1 c2 c3 * 0x01010101)) 24 = c0 + c1 + c2 + c3.
Proof.
  intros. rewrite Z.shiftr_div_pow2 by lia. unfold u32.
  set (x := c0 + 256 * (c0 + c1) + 256 * 256 * (c0 + c1 + c2)).
  rewrite <-(Z.mod_unique _ _ (c3 * 0x010101 + c2 * 0x0101 + c1) (x + 2 ^ 24 * (c0 + c1 + c2 + c3))).
  - symmetry. apply (Z.div_unique _ _ _ x); unfold x; lia.
  - unfold x. lia.
  - unfold x, digits. lia.
Qed.

Section PopcountProps.
Context `{Host}.

Lemma unle_cons_digit b x : 0 ≤ b < 256 → unle (b :: x) = b + 256 * unle x.
Proof. intros Hb. unfold unle. cbn [little_endian_to_Z]. rewrite lor_high by lia. lia. Qed.

Lemma unle_digits b0 b1 b2 b3 : 0 ≤ b0 < 256 → 0 ≤ b1 < 256 → 0 ≤ b2 < 256 → 0 ≤ b3 < 256 →
  unle [b0; b1; b2; b3] = digits b0 b1 b2 b3.
Proof. intros. rewrite !unle_cons_digit by done. unfold unle, digits. cbn [little_endian_to_Z]. lia. Qed.

(** The bytes of a word summed up, in the order of the machine. *)
Lemma word_sums c0 c1 c2 c3 p : ∃ d0 d1 d2 d3,
  byteSums (pairSums (word32 (c0 :: c1 :: c2 :: c3 :: p))) = digits d0 d1 d2 d3 ∧
  0 ≤ d0 ≤ 8 ∧ 0 ≤ d1 ≤ 8 ∧ 0 ≤ d2 ≤ 8 ∧ 0 ≤ d3 ≤ 8 ∧ d0 + d1 + d2 + d3 = ones (bitsOf [c0; c1; c2; c3]).
Proof.
  pose proof (uchar_bound c0). pose proof (uchar_bound c1).
  pose proof (uchar_bound c2). pose proof (uchar_bound c3).
  assert (∀ c, 0 ≤ byteOnes (uchar c) ≤ 8) as Hb.
  { intros c. rewrite byteOnes_uchar. apply (ones_bound (bitsOfByte c)). }
  unfold word32, hostInt. change (uchar <$> take 4 (c0 :: c1 :: c2 :: c3 :: p)) with [uchar c0; uchar c1; uchar c2; uchar c3].
  destruct BYTE_ORDER.
  - exists (byteOnes (uchar c0)), (byteOnes (uchar c1)), (byteOnes (uchar c2)), (byteOnes (uchar c3)).
    rewrite unle_digits, byteSums_pairSums by done. repeat split; try apply Hb.
    unfold bitsOf. cbn [mbind list_bind]. rewrite !ones_app, !byteOnes_uchar. cbn. lia.
  - exists (byteOnes (uchar c3)), (byteOnes (uchar c2)), (byteOnes (uchar c1)), (byteOnes (uchar c0)).
    change (reverse [uchar c0; uchar c1; uchar c2; uchar c3]) with [uchar c3; uchar c2; uchar c1; uchar c0].
    rewrite unle_digits, byteSums_pairSums by done. repeat split; try apply Hb.
    unfold bitsOf. cbn [mbind list_bind]. rewrite !ones_app, !byteOnes_uchar. cbn. lia.
Qed.

Lemma take_four (p : bytes) : (4 ≤ length p)%nat → ∃ c0 c1 c2 c3, p = c0 :: c1 :: c2 :: c3 :: drop 4 p.
Proof. intros Hp. do 4 (destruct p as [|? p]; [cbn in Hp; lia|]). by eexists _, _, _, _. Qed.

Lemma block_sums k p : (k ≤ 7)%nat → (4 * k ≤ length p)%nat → ∃ d0 d1 d2 d3,
  foldl (λ a b, u32 (a + b)) 0 ((λ i, byteSums (pairSums (word32 (drop (4 * i) p)))) <$> seq 0 k) =
    digits d0 d1 d2 d3 ∧
  0 ≤ d0 ≤ 8 * Z.of_nat k ∧ 0 ≤ d1 ≤ 8 * Z.of_nat k ∧ 0 ≤ d2 ≤ 8 * Z.of_nat k ∧ 0 ≤ d3 ≤ 8 * Z.of_nat k ∧
  d0 + d1 + d2 + d3 = ones (bitsOf (take (4 * k) p)).
Proof.
  induction k as [|k IH]; intros Hk Hp; [by exists 0, 0, 0, 0|].
  destruct IH as (d0 & d1 & d2 & d3 & Hd & ? & ? & ? & ? & Hsum); [lia..|].
  rewrite seq_S, fmap_app, foldl_app, Hd. cbn [fmap list_fmap foldl Nat.add].
  destruct (take_four (drop (4 * k) p)) as (c0 & c1 & c2 & c3 & Hc); [rewrite length_drop; lia|].
  destruct (word_sums c0 c1 c2 c3 (drop 4 (drop (4 * k) p))) as (e0 & e1 & e2 & e3 & He & ? & ? & ? & ? & Hes).
  rewrite <-Hc in He. rewrite He. exists (d0 + e0), (d1 + e1), (d2 + e2), (d3 + e3).
  split; [|split; [lia|split; [lia|split; [lia|split; [lia|]]]]].
  - rewrite <-(u32_digits (d0 + e0)) by lia. f_equal. unfold digits. lia.
  - replace (4 * S k)%nat with (4 * k + 4)%nat by lia.
    assert (take 4 (drop (4 * k) p) = [c0; c1; c2; c3]) as Ht by (by rewrite Hc).
    rewrite <-take_take_drop, bitsOf_app, ones_app, <-Hsum, Ht, <-Hes. lia.
Qed.

Lemma popcountBlock_ones p : (28 ≤ length p)%nat → popcountBlock p = ones (bitsOf (take 28 p)).
Proof.
  intros Hp. destruct (block_sums 7 p) as (d0 & d1 & d2 & d3 & Hd & ? & ? & ? & ? & Hs); [lia|lia|].
  unfold popcountBlock. rewrite Hd, sum_of_digits by lia. exact Hs.
Qed.

(** The counts are kept modulo 2^64. *)
Lemma u64_add x y : u64 (u64 x + y) = u64 (x + y).
Proof. unfold u64. by rewrite Zplus_mod_idemp_l. Qed.

Lemma popcountHead_ones addr p bits bits' p' : u64 bits = bits → popcountHead addr p bits = (bits', p') →
  u64 bits' = bits' ∧ u64 (bits' + ones (bitsOf p')) = u64 (bits + ones (bitsOf p)).
Proof.
  revert addr bits. induction p as [|c p IH]; intros addr bits Hb; cbn [popcountHead]; [by intros [= <- <-]|].
  case_match; [|by intros [= <- <-]]. rewrite bitsOf_cons, ones_app, bitsOfTable_ones.
  intros [? ->]%IH; [|unfold u64; by rewrite Z.mod_mod]. by rewrite u64_add, Z.add_assoc.
Qed.

Lemma popcountBlocks_ones fuel p bits bits' p' : u64 bits = bits → popcountBlocks fuel p bits = (bits', p') →
  u64 bits' = bits' ∧ u64 (bits' + ones (bitsOf p')) = u64 (bits + ones (bitsOf p)).
Proof.
  revert p bits. induction fuel as [|fuel IH]; intros p bits Hb; cbn [popcountBlocks]; [by intros [= <- <-]|].
  case_bool_decide as Hl; [|by intros [= <- <-]].
  assert (ones (bitsOf p) = ones (bitsOf (take 28 p)) + ones (bitsOf (drop 28 p))) as ->.
  { by rewrite <-ones_app, <-bitsOf_app, take_drop. }
  rewrite popcountBlock_ones by done. intros [? ->]%IH; [|unfold u64; by rewrite Z.mod_mod].
  by rewrite u64_add, Z.add_assoc.
Qed.

Lemma popcountTail_ones p bits : u64 bits = bits → popcountTail p bits = u64 (bits + ones (bitsOf p)).
Proof.
  unfold popcountTail. revert bits. induction p as [|c p IH]; intros bits Hb; [cbn; by rewrite Z.add_0_r|].
  cbn [foldl]. rewrite IH by (unfold u64; by rewrite Z.mod_mod).
  by rewrite bitsOfTable_ones, u64_add, bitsOf_cons, ones_app, Z.add_assoc.
Qed.

Lemma redisPopcount_ones addr s : redisPopcount addr s = u64 (ones (bitsOf s)).
Proof.
  unfold redisPopcount. destruct (popcountHead addr s 0) as [bits p] eqn:Hh.
  apply popcountHead_ones in Hh as [? Hh]; [|done].
  destruct (popcountBlocks (length s) p bits) as [bits' p'] eqn:Hb.
  apply popcountBlocks_ones in Hb as [? Hb]; [|done]. by rewrite popcountTail_ones, Hb, Hh.
Qed.

End PopcountProps.

(** ** Integers as lists of bits *)

Lemma length_intBits n v : length (intBits n v) = n.
Proof. unfold intBits. by rewrite length_fmap, length_seq. Qed.

Lemma lookup_intBits n v i : (i < n)%nat → intBits n v !! i = Some (Z.testbit v (Z.of_nat n - 1 - Z.of_nat i)).
Proof. intros Hi. unfold intBits. by rewrite list_lookup_fmap, lookup_seq_lt. Qed.

Lemma intBits_S n v : intBits (S n) v = Z.testbit v (Z.of_nat n) :: intBits n v.
Proof.
  unfold intBits. cbn [seq fmap list_fmap]. f_equal; [f_equal; lia|].
  rewrite <-fmap_S_seq, <-list_fmap_compose. apply list_fmap_ext. intros i x _. cbn. f_equal. lia.
Qed.

Lemma intBits_app k m v b : 0 ≤ b < 2 ^ Z.of_nat m →
  intBits (k + m) (v * 2 ^ Z.of_nat m + b) = intBits k v ++ intBits m b.
Proof.
  intros Hb. rewrite Z.add_comm, <-lor_high by lia.
  assert (∀ i, 0 ≤ i → Z.testbit (Z.lor b (Z.shiftl v (Z.of_nat m))) i =
    if i <? Z.of_nat m then Z.testbit b i else Z.testbit v (i - Z.of_nat m)) as Ht.
  { intros i Hi. rewrite Z.lor_spec, Z.shiftl_spec by done. destruct (Z.ltb_spec i (Z.of_nat m)).
    - rewrite (Z.testbit_neg_r v) by lia. apply orb_false_r.
    - by rewrite (testbit_small b (Z.of_nat m)) by lia. }
  apply list_eq. intros i. destruct (decide (i < k + m)%nat) as [Hi|Hi].
  2:{ rewrite !lookup_ge_None_2; [done|rewrite length_app|]; rewrite ?length_intBits; lia. }
  rewrite lookup_intBits, Ht by lia. destruct (decide (i < k)%nat) as [Hk|Hk].
  - rewrite lookup_app_l, lookup_intBits by (rewrite ?length_intBits; lia).
    rewrite (proj2 (Z.ltb_ge _ _)) by lia. do 2 f_equal. lia.
  - rewrite lookup_app_r, length_intBits, lookup_intBits by (rewrite ?length_intBits; lia).
    rewrite (proj2 (Z.ltb_lt _ _)) by lia. do 2 f_equal. lia.
Qed.

Lemma intBits_0 n : intBits n 0 = replicate n false.
Proof. induction n as [|n IH]; [done|]. by rewrite intBits_S, IH, Z.testbit_0_l. Qed.

(** The integer of a list of bits. *)
Definition bitsInt (l : list bool) : Z := foldl (λ v b, 2 * v + Z.b2z b) 0 l.

Lemma bitsInt_snoc l b : bitsInt (l ++ [b]) = 2 * bitsInt l + Z.b2z b.
Proof. unfold bitsInt. by rewrite foldl_app. Qed.

Lemma bitsInt_intBits n v : 0 ≤ v < 2 ^ Z.of_nat n → bitsInt (intBits n v) = v.
Proof.
  revert v. induction n as [|n IH]; intros v Hv; [cbn in *; lia|].
  rewrite Nat2Z.inj_succ, Z.pow_succ_r in Hv by lia.
  pose proof (Z.div_mod v 2) as Hd. pose proof (Z.mod_pos_bound v 2) as Hm.
  replace (S n) with (n + 1)%nat by lia. rewrite Hd at 1 by lia. rewrite (Z.mul_comm 2).
  rewrite (intBits_app n 1) by (cbn; lia). change (intBits 1 (v mod 2)) with [Z.testbit (v mod 2) 0].
  rewrite bitsInt_snoc, IH by lia. rewrite <-Z.bit0_mod, Z.b2z_bit0. rewrite Z.bit0_mod. lia.
Qed.

Lemma bitsInt_false n : bitsInt (replicate n false) = 0.
Proof. induction n as [|n IH]; [done|]. rewrite replicate_S_end, bitsInt_snoc, IH. done. Qed.

(** ** Searching *)

Fixpoint firstBit (b : bool) (l : list bool) : option nat :=
  match l with
  | [] => None
  | x :: l => if Bool.eqb x b then Some 0%nat else S <$> firstBit b l
  end.

Lemma firstBit_app b l k : firstBit b (l ++ k) =
  match firstBit b l with Some i => Some i | None => Nat.add (length l) <$> firstBit b k end.
Proof.
  induction l as [|x l IH]; cbn; [by destruct (firstBit b k)|]. destruct (Bool.eqb x b); [done|].
  rewrite IH. destruct (firstBit b l); [done|]. by destruct (firstBit b k).
Qed.

Lemma firstBit_lt b l i : firstBit b l = Some i → (i < length l)%nat.
Proof.
  revert i. induction l as [|x l IH]; intros i; cbn; [done|]. destruct (Bool.eqb x b); [intros [= <-]; lia|].
  destruct (firstBit b l); [|done]. intros [= <-]. specialize (IH _ eq_refl). lia.
Qed.

Lemma firstBit_replicate b n : firstBit b (replicate n (negb b)) = None.
Proof. induction n as [|n IH]; [done|]. cbn. rewrite IH. by destruct b. Qed.

Lemma firstBit_padding b n : firstBit b (replicate n b) = if bool_decide (n = 0%nat) then None else Some 0%nat.
Proof. destruct n; [done|]. cbn. by rewrite Bool.eqb_reflx. Qed.

Lemma firstBit_true_none l : firstBit true l = None → l = replicate (length l) false.
Proof.
  induction l as [|[] l IH]; cbn; [done..|]. destruct (firstBit true l); [done|]. intros _. by rewrite <-IH.
Qed.

(** The byte that holds no [bit]. *)
Definition skipByte (bit : bool) : Z := if bit then 0 else 255.

Lemma skipByte_none bit c : firstBit bit (bitsOfByte c) = None ↔ uchar c = skipByte bit.
Proof. by destruct bit, c as [[] [] [] [] [] [] [] []]. Qed.

Section BitposProps.
Context `{Host} (bit : bool).

(** Where the skipping stops: the next eight bytes have the bit, or there are fewer. *)
Definition stopsAt (c : bytes) : Prop :=
  is_Some (firstBit bit (bitsOf (take 8 c))) ∨ (length c < 8)%nat.

Lemma stop_first x c : uchar x ≠ skipByte bit → stopsAt (x :: c).
Proof.
  intros Hx. left. cbn [take]. rewrite bitsOf_cons, firstBit_app.
  destruct (firstBit bit (bitsOfByte x)) eqn:Hf; [by eexists|]. by apply skipByte_none in Hf.
Qed.

Lemma bitposHead_spec addr s pos found c pos' : bitposHead addr (skipByte bit) s pos = (found, c, pos') →
  ∃ sk, s = sk ++ c ∧ pos' = pos + 8 * Z.of_nat (length sk) ∧ firstBit bit (bitsOf sk) = None ∧
        (found = true → stopsAt c).
Proof.
  revert addr pos. induction s as [|x s IH]; intros addr pos; cbn [bitposHead].
  { intros [= <- <- <-]. exists []. repeat split; [cbn; lia|done]. }
  destruct (negb (Z.land addr 7 =? 0)).
  2:{ intros [= <- <- <-]. exists []. repeat split; [cbn; lia|done]. }
  destruct (Z.eqb_spec (uchar x) (skipByte bit)) as [Hx|Hx]; cbn [negb].
  - intros (sk & -> & -> & Hf & Hs)%IH. exists (x :: sk). repeat split; [cbn [length]; lia| |done].
    rewrite bitsOf_cons, firstBit_app, Hf. by rewrite (proj2 (skipByte_none bit x)).
  - intros [= <- <- <-]. exists []. repeat split; [cbn; lia|]. intros _. by apply stop_first.
Qed.

Lemma hostInt_inj x y : length x = 8%nat → length y = 8%nat →
  Forall (λ b, 0 ≤ b < 256) x → Forall (λ b, 0 ≤ b < 256) y → hostInt x = hostInt y → x = y.
Proof.
  intros Hx Hy Fx Fy. unfold hostInt. destruct BYTE_ORDER; intros He.
  - by rewrite <-(le_unle x 8), <-(le_unle y 8), He by (done || lia).
  - apply (inj reverse). rewrite <-(le_unle (reverse x) 8), <-(le_unle (reverse y) 8), He; try done.
    all: rewrite ?length_reverse; try lia; by apply Forall_reverse.
Qed.

Lemma uchar_bytes c : Forall (λ b, 0 ≤ b < 256) (uchar <$> c).
Proof. apply Forall_fmap, Forall_forall. intros x _. apply uchar_bound. Qed.

Definition skipWord : Z := if bit then 0 else ULLONG_MAX.

Lemma skipWord_host : skipWord = hostInt (replicate 8 (skipByte bit)).
Proof. unfold hostInt, skipWord. destruct BYTE_ORDER, bit; vm_compute; reflexivity. Qed.

Lemma skipWord_none c : (8 ≤ length c)%nat →
  firstBit bit (bitsOf (take 8 c)) = None ↔ word64 c = skipWord.
Proof.
  intros Hc. unfold word64. rewrite skipWord_host.
  assert (firstBit bit (bitsOf (take 8 c)) = None ↔ uchar <$> take 8 c = replicate 8 (skipByte bit)) as ->.
  2:{ split; [by intros ->|]. apply hostInt_inj; [|done|apply uchar_bytes|].
      - rewrite length_fmap, length_take. lia.
      - apply Forall_replicate. by destruct bit. }
  assert (length (take 8 c) = 8%nat) as Hl by (rewrite length_take; lia). revert Hl.
  generalize (take 8 c). generalize 8%nat. clear. intros n l <-. induction l as [|x l IH]; [done|].
  rewrite bitsOf_cons, firstBit_app. cbn [length replicate fmap list_fmap].
  destruct (firstBit bit (bitsOfByte x)) eqn:Hf.
  - split; [done|]. intros [= Hx _]. apply skipByte_none in Hx. congruence.
  - apply skipByte_none in Hf as ->. destruct (firstBit bit (bitsOf l)) as [i|].
    + split; [done|]. intros [= Hl]. by apply IH in Hl.
    + split; [|done]. intros _. f_equal. by apply IH.
Qed.

Lemma bitposWords_spec fuel l pos c pos' : (length l ≤ fuel)%nat →
  bitposWords fuel skipWord l pos = (c, pos') →
  ∃ sk, l = sk ++ c ∧ pos' = pos + 8 * Z.of_nat (length sk) ∧ firstBit bit (bitsOf sk) = None ∧ stopsAt c.
Proof.
  revert l pos. induction fuel as [|fuel IH]; intros l pos Hl; cbn [bitposWords].
  { intros [= <- <-]. exists []. repeat split; [cbn; lia|right; lia]. }
  case_bool_decide as H8.
  2:{ intros [= <- <-]. exists []. repeat split; [cbn; lia|right; lia]. }
  destruct (Z.eqb_spec (word64 l) skipWord) as [Hw|Hw]; cbn [negb].
  - intros Hr. apply IH in Hr as (sk & Hd & -> & Hf & Hs); [|rewrite length_drop; lia].
    exists (take 8 l ++ sk). rewrite <-app_assoc, <-Hd, take_drop, length_app, length_take. repeat split; [lia| |done].
    rewrite bitsOf_app, firstBit_app, Hf. by rewrite (proj2 (skipWord_none l H8)).
  - intros [= <- <-]. exists []. repeat split; [cbn; lia|]. left.
    destruct (firstBit bit (bitsOf (take 8 l))) eqn:Hf; [by eexists|]. by apply skipWord_none in Hf.
Qed.

(** *** The last word *)

Lemma loadWord_step k word b : (k + 8 ≤ 64)%nat → 0 ≤ word < 2 ^ Z.of_nat k → 0 ≤ b < 256 →
  Z.lor (u64 (Z.shiftl word 8)) b = word * 2 ^ 8 + b ∧ 0 ≤ word * 2 ^ 8 + b < 2 ^ Z.of_nat (k + 8).
Proof.
  intros Hk Hw Hb. assert (2 ^ Z.of_nat (k + 8) = 2 ^ Z.of_nat k * 2 ^ 8) as Hp.
  { rewrite Nat2Z.inj_add, Z.pow_add_r by lia. done. }
  assert (2 ^ Z.of_nat (k + 8) ≤ 2 ^ 64) by (apply Z.pow_le_mono_r; lia). split; [|lia].
  rewrite u64_id by (rewrite Z.shiftl_mul_pow2 by lia; unfold ULLONG_MAX; lia).
  rewrite Z.lor_comm, lor_high by lia. lia.
Qed.

Lemma loadWord_bits n : ∀ c k word, (k + 8 * n ≤ 64)%nat → 0 ≤ word < 2 ^ Z.of_nat k →
  0 ≤ loadWord n c word < 2 ^ Z.of_nat (k + 8 * n) ∧
  intBits (k + 8 * n) (loadWord n c word) =
  intBits k word ++ bitsOf (take n c) ++ replicate (8 * (n - length c)) false.
Proof.
  induction n as [|n IH]; intros c k word Hk Hw.
  { cbn. by rewrite Nat.add_0_r, app_nil_r. }
  replace (k + 8 * S n)%nat with (k + 8 + 8 * n)%nat by lia.
  assert (∀ b, 0 ≤ b < 256 → intBits (k + 8) (word * 2 ^ 8 + b) = intBits k word ++ intBits 8 b) as Ha
    by (intros b Hb; by apply (intBits_app k 8)).
  cbn [loadWord]. destruct c as [|x c].
  - destruct (loadWord_step k word 0) as [He Hr]; [lia..|]. rewrite Z.lor_0_r in He. rewrite He.
    destruct (IH [] (k + 8)%nat (word * 2 ^ 8 + 0)) as [Hb ->]; [lia..|]. split; [done|].
    rewrite Ha, intBits_0 by lia. cbn [length]. rewrite !take_nil, <-app_assoc. f_equal.
    cbn [bitsOf mbind list_bind app]. rewrite <-replicate_add. f_equal. lia.
  - destruct (loadWord_step k word (uchar x)) as [He Hr]; [lia|lia|apply uchar_bound|]. rewrite He.
    destruct (IH c (k + 8)%nat (word * 2 ^ 8 + uchar x)) as [Hb ->]; [lia..|]. split; [done|].
    rewrite Ha by apply uchar_bound. cbn [take length]. by rewrite bitsOf_cons, <-!app_assoc.
Qed.

Lemma land_pow2_eqb v n : 0 ≤ n → negb (Z.land (2 ^ n) v =? 0) = Z.testbit v n.
Proof.
  intros Hn. destruct (Z.testbit v n) eqn:Ht.
  - destruct (Z.eqb_spec (Z.land (2 ^ n) v) 0) as [H0|]; [|done].
    assert (Z.testbit (Z.land (2 ^ n) v) n = true) as H1 by (by rewrite Z.land_spec, Ht, Z.pow2_bits_true).
    by rewrite H0, Z.testbit_0_l in H1.
  - assert (Z.land (2 ^ n) v = 0) as ->; [|done]. apply Z.bits_inj'. intros i Hi.
    rewrite Z.land_spec, Z.testbit_0_l. destruct (decide (n = i)) as [->|]; [by rewrite Ht, andb_false_r|].
    by rewrite Z.pow2_bits_false.
Qed.

Lemma bitposScan_spec n : ∀ one word pos, (0 < n)%nat → one = 2 ^ (Z.of_nat n - 1) →
  bitposScan n one word (if bit then 1 else 0) pos =
  match firstBit bit (intBits n word) with
  | Some i => Ok (pos + Z.of_nat i)
  | None => Fault (AssertFailed "End of redisBitpos() reached.")
  end.
Proof.
  induction n as [|n IH]; intros one word pos Hn ->; [lia|]. cbn [bitposScan].
  replace (Z.of_nat (S n) - 1) with (Z.of_nat n) by lia. rewrite land_pow2_eqb by lia.
  rewrite intBits_S. cbn [firstBit]. replace ((if Z.testbit word (Z.of_nat n) then 1 else 0) =? if bit then 1 else 0)
    with (Bool.eqb (Z.testbit word (Z.of_nat n)) bit) by (by destruct (Z.testbit _ _), bit).
  destruct (Bool.eqb _ bit); [by rewrite Z.add_0_r|]. destruct n as [|n]; [done|].
  rewrite IH; [|lia|].
  - destruct (firstBit bit (intBits (S n) word)); [|done]. cbn. f_equal. lia.
  - rewrite Z.shiftr_div_pow2 by lia. replace (Z.of_nat (S n)) with (Z.of_nat (S n) - 1 + 1) at 1 by lia.
    rewrite Z.pow_add_r by lia. by rewrite Z.div_mul.
Qed.

(** The answer for the whole string, with zeros after its end. *)
Definition bitposSpec (s : bytes) : Z :=
  match firstBit bit (bitsOf s) with
  | Some i => Z.of_nat i
  | None => if bit then -1 else 8 * Z.of_nat (length s)
  end.

(** The last word, once the skipping has stopped. *)
Lemma lastWord_spec c pos : stopsAt c →
  let word := loadWord 8 c 0 in
  (if ((if bit then 1 else 0) =? 1) && (word =? 0) then Ok (-1)
   else bitposScan 64 (2 ^ 63) word (if bit then 1 else 0) pos) =
  Ok (match firstBit bit (bitsOf c) with
      | Some i => pos + Z.of_nat i
      | None => if bit then -1 else pos + 8 * Z.of_nat (length c)
      end).
Proof.
  intros Hstop word. rewrite bitposScan_spec by (done || lia).
  assert (Hbits : intBits 64 word = bitsOf (take 8 c) ++ replicate (8 * (8 - length c)) false).
  { apply (loadWord_bits 8 c 0 0); cbn; lia. }
  assert (0 ≤ word < 2 ^ 64) as Hword by (apply (loadWord_bits 8 c 0 0); cbn; lia).
  assert (Hc : firstBit bit (bitsOf c) = match firstBit bit (bitsOf (take 8 c)) with
    | Some i => Some i | None => None end).
  { rewrite <-(take_drop 8 c) at 1. rewrite bitsOf_app, firstBit_app.
    destruct (firstBit bit (bitsOf (take 8 c))) eqn:Hf; [done|]. destruct Hstop as [[? ?]|Hl]; [congruence|].
    by rewrite drop_ge by lia. }
  rewrite Hbits, firstBit_app, Hc. destruct (firstBit bit (bitsOf (take 8 c))) as [i|] eqn:Hf.
  - destruct bit; cbn [Z.eqb Pos.eqb andb]; [|done]. destruct (Z.eqb_spec word 0) as [H0|]; [|done].
    rewrite H0, intBits_0 in Hbits. assert (firstBit true (replicate 64 false) = None) as Hn by done.
    rewrite Hbits, firstBit_app, Hf in Hn. done.
  - destruct Hstop as [[? ?]|Hl]; [congruence|]. destruct bit; cbn [Z.eqb Pos.eqb andb].
    + assert (word = 0) as ->; [|done]. rewrite <-(bitsInt_intBits 64 word), Hbits by done.
      by rewrite (firstBit_true_none _ Hf), <-replicate_add, bitsInt_false.
    + rewrite take_ge in Hbits |- * by lia. rewrite firstBit_padding, bool_decide_false by lia. cbn.
      f_equal. rewrite length_bitsOf. lia.
Qed.

Lemma redisBitpos_spec addr s : redisBitpos addr s (if bit then 1 else 0) = Ok (bitposSpec s).
Proof.
  unfold redisBitpos, bitposSpec.
  replace (if (if bit then 1 else 0) =? 0 then 255 else 0) with (skipByte bit) by (by destruct bit).
  replace (if (if bit then 1 else 0) =? 0 then ULLONG_MAX else 0) with skipWord by (unfold skipWord; by destruct bit).
  destruct (bitposHead addr (skipByte bit) s 0) as [[found c] pos] eqn:Hh.
  apply bitposHead_spec in Hh as (sk & -> & -> & Hsk & Hf).
  assert (∃ c' pos' sk', (if found then (c, 0 + 8 * Z.of_nat (length sk))
      else bitposWords (length (sk ++ c)) skipWord c (0 + 8 * Z.of_nat (length sk))) = (c', pos') ∧
    sk ++ c = sk' ++ c' ∧ pos' = 8 * Z.of_nat (length sk') ∧ firstBit bit (bitsOf sk') = None ∧ stopsAt c')
    as (c' & pos' & sk' & -> & -> & -> & Hsk' & Hstop).
  { destruct found; [exists c, (8 * Z.of_nat (length sk)), sk; repeat split; [done..|by apply Hf]|].
    destruct (bitposWords _ skipWord c _) as [c' pos'] eqn:Hw.
    apply bitposWords_spec in Hw as (sk' & -> & -> & Hsk' & Hs); [|rewrite length_app; lia].
    exists c', (8 * Z.of_nat (length (sk ++ sk'))), (sk ++ sk'). rewrite bitsOf_app, firstBit_app, Hsk, Hsk'.
    repeat split; [f_equal; rewrite length_app; lia|by rewrite app_assoc|done]. }
  rewrite lastWord_spec by done. f_equal. rewrite bitsOf_app, firstBit_app, Hsk', length_bitsOf, length_app.
  destruct (firstBit bit (bitsOf c')); cbn; [lia|]. destruct bit; lia.
Qed.

End BitposProps.

(** ** Bitfields *)

(** *** One bit *)

Lemma lookup_bitsOf p i : (i < 8 * length p)%nat →
  ∃ c, p !! (i / 8)%nat = Some c ∧ bitsOf p !! i = Some (Z.testbit (uchar c) (7 - Z.of_nat (i mod 8))).
Proof.
  revert i. induction p as [|c p IH]; intros i Hi; [cbn in Hi; lia|].
  rewrite bitsOf_cons. destruct (decide (i < 8)%nat) as [H8|H8].
  - exists c. rewrite Nat.div_small, Nat.mod_small by done. split; [done|].
    rewrite lookup_app_l by done. unfold bitsOfByte. rewrite lookup_intBits by done. done.
  - destruct (IH (i - 8)%nat) as (c' & Hc' & Hb); [cbn in Hi; lia|]. exists c'.
    replace i with (i - 8 + 1 * 8)%nat by lia. rewrite Nat.div_add, Nat.Div0.mod_add by done.
    rewrite Nat.add_1_r. split; [done|]. rewrite lookup_app_r by (cbn; lia). change (length (bitsOfByte c)) with 8%nat.
    by replace (i - 8 + 1 * 8 - 8)%nat with (i - 8)%nat by lia.
Qed.

(** The byte with one bit changed. *)
Definition withBit (c : ascii) (bit bitval : Z) : ascii :=
  ucharOf (Z.land (Z.lor (Z.land (uchar c) (Z.lnot (Z.shiftl 1 bit))) (Z.shiftl bitval bit)) 255).

Lemma testbit_withBit c bit (v : bool) i : 0 ≤ bit < 8 → 0 ≤ i < 8 →
  Z.testbit (uchar (withBit c bit (Z.b2z v))) i = if i =? bit then v else Z.testbit (uchar c) i.
Proof.
  intros Hbit Hi. unfold withBit. rewrite uchar_ucharOf. change 256 with (2 ^ 8). change 255 with (Z.ones 8).
  rewrite Z.mod_pow2_bits_low, Z.land_spec, Z.ones_spec_low, andb_true_r by lia.
  rewrite Z.lor_spec, Z.land_spec, Z.lnot_spec, !Z.shiftl_spec by lia.
  assert (Z.testbit 1 (i - bit) = (i =? bit)) as ->.
  { change 1 with (2 ^ 0). rewrite Z.pow2_bits_eqb by lia. lia. }
  destruct (Z.eqb_spec i bit) as [->|Hne]; cbn [negb].
  - rewrite Z.sub_diag, andb_false_r. by destruct v.
  - rewrite andb_true_r. destruct v; cbn [Z.b2z]; [|by rewrite Z.testbit_0_l, orb_false_r].
    change 1 with (2 ^ 0). rewrite Z.pow2_bits_false by lia. apply orb_false_r.
Qed.

Lemma bitsOf_insert p i c v : p !! (i / 8)%nat = Some c →
  bitsOf (<[(i / 8)%nat := withBit c (7 - Z.of_nat (i mod 8)) (Z.b2z v)]> p) = <[i := v]> (bitsOf p).
Proof.
  intros Hc. pose proof (lookup_lt_Some _ _ _ Hc) as Hlt. pose proof (Nat.div_mod_eq i 8) as Hd.
  pose proof (Nat.mod_upper_bound i 8).
  apply list_eq. intros k. destruct (decide (k < 8 * length p)%nat) as [Hk|Hk].
  2:{ rewrite !lookup_ge_None_2; [done|rewrite length_insert|]; rewrite length_bitsOf, ?length_insert; lia. }
  destruct (lookup_bitsOf p k Hk) as (ck & Hck & Hbk).
  destruct (lookup_bitsOf (<[(i / 8)%nat := withBit c (7 - Z.of_nat (i mod 8)) (Z.b2z v)]> p) k) as (c' & Hc' & ->);
    [by rewrite length_insert|].
  pose proof (Nat.div_mod_eq k 8). pose proof (Nat.mod_upper_bound k 8).
  destruct (decide (i = k)) as [<-|Hne].
  - rewrite list_lookup_insert_eq in Hc' by done. rewrite list_lookup_insert_eq by (rewrite length_bitsOf; lia).
    simplify_eq.
    rewrite testbit_withBit, Z.eqb_refl by lia. done.
  - rewrite list_lookup_insert_ne, Hbk by done. f_equal. destruct (decide (i / 8 = k / 8)%nat) as [He|He].
    + rewrite <-He, list_lookup_insert_eq in Hc' by done. rewrite He in Hc. simplify_eq.
      rewrite testbit_withBit by lia. rewrite (proj2 (Z.eqb_neq _ _)) by lia. done.
    + rewrite list_lookup_insert_ne in Hc' by done. by simplify_eq.
Qed.

(** *** Segments *)

(** The bits [v] written over [l] from position [o]. *)
Definition putAt (o : nat) (v l : list bool) : list bool := take o l ++ v ++ drop (o + length v) l.

Definition segment (o n : nat) (l : list bool) : list bool := take n (drop o l).

Lemma bit_position offset : 0 ≤ offset →
  Z.to_nat (Z.shiftr offset 3) = (Z.to_nat offset / 8)%nat ∧
  7 - Z.land offset 7 = 7 - Z.of_nat (Z.to_nat offset mod 8).
Proof.
  intros Ho. rewrite Z.shiftr_div_pow2 by lia. change 7 with (Z.ones 3) at 2. rewrite Z.land_ones by lia.
  change (2 ^ 3) with 8. rewrite Nat2Z.inj_mod, Z2Nat.id, Z2Nat.inj_div by lia. done.
Qed.

Lemma setBitAt_run offset v p : 0 ≤ offset < 8 * Z.of_nat (length p) →
  ∃ p', setBitAt offset (Z.b2z v) p = Ok (tt, p') ∧ length p' = length p ∧
        bitsOf p' = <[Z.to_nat offset := v]> (bitsOf p).
Proof.
  intros Ho. unfold setBitAt. rewrite bind_get. destruct (bit_position offset) as [-> ->]; [lia|].
  destruct (lookup_bitsOf p (Z.to_nat offset)) as (c & Hc & _); [lia|]. rewrite Hc. cbn [deref].
  erewrite bind_run by done. eexists. split; [done|]. split; [apply length_insert|].
  by apply (bitsOf_insert p (Z.to_nat offset) c v).
Qed.

Lemma putAt_step o j (V l : list bool) b : V !! j = Some b → (o + j < length l)%nat →
  <[(o + j)%nat := b]> (putAt o (take j V) l) = putAt o (take (S j) V) l.
Proof.
  intros Hb Hl. pose proof (lookup_lt_Some _ _ _ Hb). unfold putAt.
  rewrite (take_S_r _ _ _ Hb), length_app, !length_take, !Nat.min_l by lia. cbn [length].
  destruct (lookup_lt_is_Some_2 l (o + j)) as [x Hx]; [lia|].
  rewrite (drop_S _ _ _ Hx). rewrite !app_assoc.
  assert (length (take o l ++ take j V) = (o + j)%nat) as Hlen by (rewrite length_app, !length_take; lia).
  rewrite <-Hlen at 1. rewrite insert_app_r_alt, Nat.sub_diag by done. cbn.
  rewrite <-(app_assoc _ [b]). by replace (o + (j + 1))%nat with (S (o + j)) by lia.
Qed.

Lemma setUnsignedBitfield_run offset bits value p :
  0 ≤ offset → 0 ≤ bits → offset + bits ≤ 8 * Z.of_nat (length p) →
  ∃ p', setUnsignedBitfield offset bits value p = Ok (tt, p') ∧ length p' = length p ∧
        bitsOf p' = putAt (Z.to_nat offset) (intBits (Z.to_nat bits) value) (bitsOf p).
Proof.
  intros Ho Hb Hl. set (V := intBits (Z.to_nat bits) value). assert (length V = Z.to_nat bits) as HV by apply length_intBits.
  assert (wp noFault (setUnsignedBitfield offset bits value) (λ _ p', length p' = length p ∧
    bitsOf p' = putAt (Z.to_nat offset) (take (0 + Z.to_nat bits) V) (bitsOf p)) p) as Hwp.
  2:{ apply wp_run in Hwp as ([] & p' & Hr & ? & Hp'). exists p'. by rewrite take_ge in Hp' by lia. }
  apply (wp_forM_seq noFault (λ j p', length p' = length p ∧
    bitsOf p' = putAt (Z.to_nat offset) (take j V) (bitsOf p))).
  { split; [done|]. unfold putAt. rewrite take_0. cbn [app length]. by rewrite Nat.add_0_r, take_drop. }
  intros j p' Hj [Hl' Hp']. rewrite (Z.land_comm value), Z.shiftl_1_l, land_pow2_eqb by lia.
  fold (Z.b2z (Z.testbit value (bits - 1 - Z.of_nat j))).
  destruct (setBitAt_run (offset + Z.of_nat j) (Z.testbit value (bits - 1 - Z.of_nat j)) p') as (p2 & Hr & Hl2 & Hp2); [lia|].
  eapply wp_run_ok; [exact Hr|]. split; [lia|]. rewrite Hp2, Hp'.
  replace (Z.to_nat (offset + Z.of_nat j)) with (Z.to_nat offset + j)%nat by lia.
  apply putAt_step; [|rewrite length_bitsOf; lia]. unfold V. rewrite lookup_intBits by lia. do 2 f_equal. lia.
Qed.

Lemma bitsInt_from v l : foldl (λ v b, 2 * v + Z.b2z b) v l = v * 2 ^ Z.of_nat (length l) + bitsInt l.
Proof.
  unfold bitsInt. revert v. induction l as [|b l IH]; intros v; cbn [foldl length]; [cbn; lia|].
  rewrite IH, (IH (2 * 0 + Z.b2z b)), Nat2Z.inj_succ, Z.pow_succ_r by lia. lia.
Qed.

Lemma bitsInt_bound l : 0 ≤ bitsInt l < 2 ^ Z.of_nat (length l).
Proof.
  induction l as [|b l IH] using rev_ind; [done|]. rewrite bitsInt_snoc, length_app, Nat.add_1_r.
  rewrite Nat2Z.inj_succ, Z.pow_succ_r by lia. destruct b; cbn [Z.b2z]; lia.
Qed.

Lemma getBitsLoop_run n : ∀ offset value k p,
  0 ≤ offset → offset + Z.of_nat n ≤ 8 * Z.of_nat (length p) → 0 ≤ value < 2 ^ Z.of_nat k → (k + n ≤ 64)%nat →
  getBitsLoop n offset value p =
  Ok (foldl (λ v b, 2 * v + Z.b2z b) value (segment (Z.to_nat offset) n (bitsOf p)), p).
Proof.
  induction n as [|n IH]; intros offset value k p Ho Hl Hv Hk; [done|]. cbn [getBitsLoop]. rewrite bind_get.
  destruct (bit_position offset) as [-> ->]; [lia|].
  destruct (lookup_bitsOf p (Z.to_nat offset)) as (c & Hc & Hb); [lia|]. rewrite Hc. cbn [deref].
  erewrite bind_run by done. set (b := 7 - Z.of_nat (Z.to_nat offset mod 8)).
  assert (0 ≤ b) by (unfold b; pose proof (Nat.mod_upper_bound (Z.to_nat offset) 8); lia).
  assert (Z.land (Z.shiftr (uchar c) b) 1 = Z.b2z (Z.testbit (uchar c) b)) as ->.
  { change 1 with (Z.ones 1). rewrite Z.land_ones by lia. rewrite <-(Z.add_0_l b) at 2.
    rewrite <-Z.shiftr_spec by lia. symmetry. apply Z.bit0_mod. }
  assert (2 ^ Z.of_nat (S k) ≤ 2 ^ 64) as Hp by (apply Z.pow_le_mono_r; lia).
  rewrite Nat2Z.inj_succ, Z.pow_succ_r in Hp by lia.
  rewrite u64_id by (rewrite Z.shiftl_mul_pow2 by lia; unfold ULLONG_MAX; lia).
  rewrite Z.lor_comm, lor_high by (destruct (Z.testbit _ _); cbn; lia).
  rewrite (IH _ _ (S k)).
  - unfold segment. rewrite (drop_S _ _ _ Hb). fold b. cbn [take foldl]. do 3 f_equal.
    + lia.
    + do 2 f_equal. lia.
  - lia.
  - lia.
  - rewrite Nat2Z.inj_succ, Z.pow_succ_r by lia. destruct (Z.testbit _ _); cbn; lia.
  - lia.
Qed.

Lemma getUnsignedBitfield_run offset bits p :
  0 ≤ offset → 0 ≤ bits ≤ 64 → offset + bits ≤ 8 * Z.of_nat (length p) →
  getUnsignedBitfield offset bits p = Ok (bitsInt (segment (Z.to_nat offset) (Z.to_nat bits) (bitsOf p)), p).
Proof. intros. unfold getUnsignedBitfield. by rewrite (getBitsLoop_run _ _ _ 0) by (cbn; lia). Qed.

(** *** Signed integers and overflows *)

(** The signed integer of [bits] bits that [u] encodes. *)
Definition toSigned (bits u : Z) : Z := if 2 ^ (bits - 1) <=? u then u - 2 ^ bits else u.

(** A mask of high bits. *)
Definition highMask (bits : Z) : Z := Z.shiftl (Z.ones (64 - bits)) bits.

Lemma highBits_mask wide bits : 0 ≤ bits < 64 → highBits wide bits = highMask bits.
Proof.
  intros Hb. unfold highBits, highMask. rewrite (proj2 (Z.eqb_neq bits 64)) by lia. unfold u64.
  rewrite !Z.shiftl_mul_pow2, Z.ones_equiv by lia. symmetry. apply (Z.mod_unique _ _ (-1)).
  - assert (2 ^ 64 = 2 ^ (64 - bits) * 2 ^ bits) as H by (rewrite <-Z.pow_add_r by lia; f_equal; lia).
    pose proof (Z.pow_pos_nonneg 2 bits). pose proof (Z.pow_pos_nonneg 2 (64 - bits)). nia.
  - assert (2 ^ 64 = 2 ^ (64 - bits) * 2 ^ bits) as H by (rewrite <-Z.pow_add_r by lia; f_equal; lia). lia.
Qed.

Lemma testbit_highMask bits i : 0 ≤ bits ≤ 64 → 0 ≤ i < 64 → Z.testbit (highMask bits) i = (bits <=? i).
Proof.
  intros Hb Hi. unfold highMask. rewrite Z.shiftl_spec by lia.
  destruct (Z.leb_spec bits i); [apply Z.ones_spec_low; lia|by rewrite Z.testbit_neg_r by lia].
Qed.

Lemma testbit_u64 c i : 0 ≤ c < 2 ^ 64 → 64 ≤ i → Z.testbit c i = false.
Proof. intros. apply (testbit_small c 64); lia. Qed.

Lemma highMask_range bits : 0 ≤ bits ≤ 64 → highMask bits = 2 ^ 64 - 2 ^ bits.
Proof.
  intros Hb. unfold highMask. rewrite Z.shiftl_mul_pow2, Z.ones_equiv by lia.
  assert (2 ^ 64 = 2 ^ (64 - bits) * 2 ^ bits) as H by (rewrite <-Z.pow_add_r by lia; f_equal; lia). lia.
Qed.

Lemma lor_highMask c bits : 0 ≤ c < 2 ^ 64 → 0 ≤ bits ≤ 64 →
  Z.lor c (highMask bits) = c mod 2 ^ bits + (2 ^ 64 - 2 ^ bits).
Proof.
  intros Hc Hb. rewrite <-highMask_range by lia. unfold highMask.
  pose proof (Z.mod_pos_bound c (2 ^ bits)) as Hm. pose proof (Z.pow_pos_nonneg 2 bits).
  rewrite (Z.shiftl_mul_pow2 _ bits) at 2 by lia. rewrite <-lor_high by lia.
  apply Z.bits_inj'. intros i Hi. rewrite !Z.lor_spec. destruct (Z.lt_ge_cases i bits).
  - by rewrite Z.mod_pow2_bits_low by lia.
  - rewrite Z.mod_pow2_bits_high by lia. destruct (Z.lt_ge_cases i 64).
    + fold (highMask bits). rewrite testbit_highMask, (proj2 (Z.leb_le _ _)) by lia. apply orb_true_r.
    + by rewrite testbit_u64 by lia.
Qed.

Lemma ldiff_highMask c bits : 0 ≤ c < 2 ^ 64 → 0 ≤ bits ≤ 64 → Z.ldiff c (highMask bits) = c mod 2 ^ bits.
Proof.
  intros Hc Hb. apply Z.bits_inj'. intros i Hi. rewrite Z.ldiff_spec. destruct (Z.lt_ge_cases i bits).
  - rewrite Z.mod_pow2_bits_low, testbit_highMask, (proj2 (Z.leb_gt _ _)) by lia. apply andb_true_r.
  - rewrite Z.mod_pow2_bits_high by lia. destruct (Z.lt_ge_cases i 64).
    + rewrite testbit_highMask, (proj2 (Z.leb_le _ _)) by lia. apply andb_false_r.
    + by rewrite testbit_u64 by lia.
Qed.

Lemma testbit_top c bits : 0 < bits → Z.testbit c (bits - 1) = (2 ^ (bits - 1) <=? c mod 2 ^ bits).
Proof.
  intros Hb. rewrite <-(Z.mod_pow2_bits_low c bits) by lia. set (u := c mod 2 ^ bits).
  assert (0 ≤ u < 2 ^ bits) as Hu by (apply Z.mod_pos_bound; lia).
  assert (2 ^ bits = 2 * 2 ^ (bits - 1)) as Hp by (rewrite <-Z.pow_succ_r by lia; f_equal; lia).
  rewrite Z.testbit_eqb by lia. destruct (Z.leb_spec (2 ^ (bits - 1)) u).
  - rewrite <-(Z.div_unique u (2 ^ (bits - 1)) 1 (u - 2 ^ (bits - 1))) by lia. done.
  - by rewrite Z.div_small by lia.
Qed.

Lemma u64_mod c bits : 0 ≤ bits ≤ 64 → u64 c mod 2 ^ bits = c mod 2 ^ bits.
Proof.
  intros Hb. unfold u64. assert (2 ^ 64 = 2 ^ bits * 2 ^ (64 - bits)) as ->.
  { rewrite <-Z.pow_add_r by lia. f_equal. lia. }
  rewrite Z.rem_mul_r by lia. rewrite (Z.mul_comm (2 ^ bits)), Z.mod_add by lia. apply Z.mod_mod. lia.
Qed.

Section SignedProps.
Context (wide : Z).

(** Reading an encoded integer: for 64 bits and a negative value the code depends on
    [wide]. *)
Definition readSigned (bits u : Z) : Z :=
  if (bits =? 64) && (2 ^ 63 <=? u) then i64 (Z.lor u wide) else toSigned bits u.

(** An exact result wrapped into a signed integer. *)
Definition wrapSigned (bits s : Z) : Z :=
  if bits =? 64
  then i64 (if 2 ^ 63 <=? u64 s then Z.lor (u64 s) wide else Z.ldiff (u64 s) wide)
  else toSigned bits (s mod 2 ^ bits).

Lemma toSigned_range bits u : 0 < bits → 0 ≤ u < 2 ^ bits →
  - 2 ^ (bits - 1) ≤ toSigned bits u < 2 ^ (bits - 1).
Proof.
  intros Hb Hu. unfold toSigned.
  assert (2 ^ bits = 2 * 2 ^ (bits - 1)) by (rewrite <-Z.pow_succ_r by lia; f_equal; lia).
  case_match; lia.
Qed.

(** The sign extension of the code, on an unsigned word. *)
Lemma extend_sign c bits : 0 ≤ c < 2 ^ 64 → 0 < bits < 64 →
  i64 (if Z.testbit c (bits - 1) then Z.lor c (highMask bits) else Z.ldiff c (highMask bits)) =
  toSigned bits (c mod 2 ^ bits).
Proof.
  intros Hc Hb. rewrite testbit_top, lor_highMask, ldiff_highMask by lia. unfold toSigned.
  pose proof (Z.mod_pos_bound c (2 ^ bits)) as Hm. pose proof (Z.pow_pos_nonneg 2 bits).
  assert (2 ^ bits = 2 * 2 ^ (bits - 1)) by (rewrite <-Z.pow_succ_r by lia; f_equal; lia).
  assert (2 ^ bits ≤ 2 ^ 63) by (apply Z.pow_le_mono_r; lia).
  destruct (Z.leb_spec (2 ^ (bits - 1)) (c mod 2 ^ bits)).
  - unfold i64. rewrite <-(Z.mod_unique _ (2 ^ 64) 1 (c mod 2 ^ bits - 2 ^ bits + 2 ^ 63)); lia.
  - apply i64_id. unfold LLONG_MIN, LLONG_MAX. lia.
Qed.

Lemma getSignedBitfield_run offset bits p :
  0 ≤ offset → 0 < bits ≤ 64 → offset + bits ≤ 8 * Z.of_nat (length p) →
  getSignedBitfield wide offset bits p =
  Ok (readSigned bits (bitsInt (segment (Z.to_nat offset) (Z.to_nat bits) (bitsOf p))), p).
Proof.
  intros Ho Hb Hl. unfold getSignedBitfield. erewrite bind_run by (apply getUnsignedBitfield_run; lia).
  set (u := bitsInt _). assert (0 ≤ u < 2 ^ bits) as Hu.
  { pose proof (bitsInt_bound (segment (Z.to_nat offset) (Z.to_nat bits) (bitsOf p))) as Hbd.
    unfold segment in Hbd. rewrite length_take, length_drop, length_bitsOf, Nat.min_l, Z2Nat.id in Hbd by lia. done. }
  rewrite Z.land_comm, Z.shiftl_1_l, land_pow2_eqb by lia. unfold readSigned.
  destruct (Z.eqb_spec bits 64) as [->|Hne]; cbn [andb].
  - rewrite testbit_top, Z.mod_small by lia. change (64 - 1) with 63. destruct (Z.leb_spec (2 ^ 63) u); [done|].
    unfold toSigned. change (64 - 1) with 63. rewrite (proj2 (Z.leb_gt (2 ^ 63) u)) by done.
    rewrite i64_id by (unfold LLONG_MIN, LLONG_MAX; lia). done.
  - assert (2 ^ bits ≤ 2 ^ 64) by (apply Z.pow_le_mono_r; lia). rewrite highBits_mask by lia.
    rewrite <-(Z.mod_small u (2 ^ bits)) at 4 by lia. rewrite <-extend_sign by lia.
    by rewrite ldiff_highMask, Z.mod_small by lia.
Qed.

(** *** The overflow tests *)

(** What the overflow modes make of an exact result [s] that is too large or too small. *)
Definition overflowed (ow : owtype) (wrapped sat limit r : Z) : Z * Z :=
  match ow with
  | BFOVERFLOW_WRAP => (1, wrapped)
  | BFOVERFLOW_SAT => (r, sat)
  | BFOVERFLOW_FAIL => (r, limit)
  end.

Lemma checkUnsigned_spec value incr bits ow limit :
  0 < bits < 64 → 0 ≤ value ≤ ULLONG_MAX → LLONG_MIN ≤ incr ≤ LLONG_MAX →
  let s := value + incr in
  let max := 2 ^ bits - 1 in
  checkUnsignedBitfieldOverflow wide value incr bits ow limit =
  if (max <? value) || (max <? s) then overflowed ow (s mod 2 ^ bits) max limit 1
  else if s <? 0 then overflowed ow (s mod 2 ^ bits) 0 limit (-1)
  else (0, limit).
Proof.
  intros Hb Hv Hi s max. unfold checkUnsignedBitfieldOverflow. fold s.
  assert (2 ^ bits ≤ 2 ^ 63) by (apply Z.pow_le_mono_r; lia). pose proof (Z.pow_pos_nonneg 2 bits).
  rewrite (proj2 (Z.eqb_neq bits 64)) by lia. rewrite Z.shiftl_1_l, (u64_id (2 ^ bits - 1)) by (unfold ULLONG_MAX; lia).
  fold max. rewrite highBits_mask, ldiff_highMask, u64_mod by (unfold u64; try apply Z.mod_pos_bound; lia).
  destruct (Z.ltb_spec max value); cbn [orb]; [by destruct ow|].
  rewrite (u64_id (max - value)), i64_id by (unfold max, LLONG_MIN, LLONG_MAX, ULLONG_MAX in *; lia).
  assert ((0 <? incr) && (max - value <? incr) = (max <? s)) as -> by (unfold s, max; lia).
  destruct (Z.ltb_spec max s); [by destruct ow|].
  assert (i64 (u64 (- value)) = - value) as ->.
  { unfold u64, i64. unfold LLONG_MAX, max in *. destruct (decide (value = 0)) as [->|]; [done|].
    rewrite <-(Z.mod_unique (- value) (2 ^ 64) (-1) (2 ^ 64 - value)) by lia.
    rewrite <-(Z.mod_unique (2 ^ 64 - value + 2 ^ 63) (2 ^ 64) 1 (2 ^ 63 - value)) by lia. lia. }
  assert ((incr <? 0) && (incr <? - value) = (s <? 0)) as -> by (unfold s; lia).
  by destruct (s <? 0), ow.
Qed.

Lemma wrap_signed c bits s : c = u64 s → 0 < bits ≤ 64 →
  i64 (if negb (Z.land c (Z.shiftl 1 (bits - 1)) =? 0) then Z.lor c (highBits wide bits)
       else Z.ldiff c (highBits wide bits)) = wrapSigned bits s.
Proof.
  intros -> Hb. rewrite Z.land_comm, Z.shiftl_1_l, land_pow2_eqb by lia. unfold wrapSigned.
  assert (0 ≤ u64 s < 2 ^ 64) as Hc by (apply Z.mod_pos_bound; lia).
  destruct (Z.eqb_spec bits 64) as [->|Hne].
  - rewrite testbit_top, (Z.mod_small (u64 s)) by lia. done.
  - rewrite highBits_mask, extend_sign, u64_mod by lia. done.
Qed.

Lemma checkSigned_spec value incr bits ow limit :
  0 < bits ≤ 64 → LLONG_MIN ≤ incr ≤ LLONG_MAX →
  let s := value + incr in
  let max := 2 ^ (bits - 1) - 1 in
  let min := - 2 ^ (bits - 1) in
  min ≤ value ≤ max →
  checkSignedBitfieldOverflow wide value incr bits ow limit =
  if max <? s then overflowed ow (wrapSigned bits s) max limit 1
  else if s <? min then overflowed ow (wrapSigned bits s) min limit (-1)
  else (0, limit).
Proof.
  intros Hb Hi s max min Hv. unfold checkSignedBitfieldOverflow. fold s. rewrite (wrap_signed _ _ s) by done.
  assert (2 ^ (bits - 1) ≤ 2 ^ 63) by (apply Z.pow_le_mono_r; lia). pose proof (Z.pow_pos_nonneg 2 (bits - 1)).
  assert ((if bits =? 64 then LLONG_MAX else i64 (Z.shiftl 1 (bits - 1) - 1)) = max) as ->.
  { destruct (Z.eqb_spec bits 64) as [->|]; [done|]. rewrite Z.shiftl_1_l. apply i64_id.
    unfold LLONG_MIN, LLONG_MAX. lia. }
  replace (- max - 1) with min by (unfold max, min; lia).
  rewrite (proj2 (Z.ltb_ge max value)), (proj2 (Z.ltb_ge value min)) by lia. cbn [orb].
  assert ((negb (bits =? 64) && (i64 (max - value) <? incr) ||
          (0 <=? value) && (0 <? incr) && (i64 (max - value) <? incr)) = (max <? s) ∧
          (negb (bits =? 64) && (incr <? i64 (min - value)) ||
          (value <? 0) && (incr <? 0) && (incr <? i64 (min - value))) = (s <? min)) as [-> ->].
  2:{ destruct (max <? s); [by destruct ow|]. by destruct (s <? min), ow. }
  destruct (Z.eqb_spec bits 64) as [->|Hne]; cbn [negb andb orb].
  - change (2 ^ (64 - 1)) with (2 ^ 63) in *. unfold max, min, s, LLONG_MIN, LLONG_MAX in *.
    split; [destruct (Z.leb_spec 0 value)|destruct (Z.ltb_spec value 0)]; cbn [andb];
      rewrite ?i64_id by (unfold LLONG_MIN, LLONG_MAX; lia); lia.
  - assert (2 ^ (bits - 1) ≤ 2 ^ 62) by (apply Z.pow_le_mono_r; lia).
    rewrite !i64_id by (unfold LLONG_MIN, LLONG_MAX, max, min in *; lia). unfold s, max, min in *. lia.
Qed.

(** SET checks its value with an increment of 0.  The difference with the largest value
    wraps around for the values next to the smallest 64-bit integer, and these are
    taken for too large. *)
Definition setTooLarge (bits v : Z) : bool :=
  (2 ^ (bits - 1) - 1 <? v) || negb (bits =? 64) && (v <? 2 ^ (bits - 1) - 2 ^ 63).

Lemma checkSigned_set v bits ow limit :
  0 < bits ≤ 64 → LLONG_MIN ≤ v ≤ LLONG_MAX →
  let max := 2 ^ (bits - 1) - 1 in
  let min := - 2 ^ (bits - 1) in
  checkSignedBitfieldOverflow wide v 0 bits ow limit =
  if setTooLarge bits v then overflowed ow (wrapSigned bits v) max limit 1
  else if v <? min then overflowed ow (wrapSigned bits v) min limit (-1)
  else (0, limit).
Proof.
  intros Hb Hv max min. unfold checkSignedBitfieldOverflow, setTooLarge.
  rewrite Z.add_0_r, (wrap_signed _ _ v) by done.
  assert (2 ^ (bits - 1) ≤ 2 ^ 63) by (apply Z.pow_le_mono_r; lia). pose proof (Z.pow_pos_nonneg 2 (bits - 1)).
  assert ((if bits =? 64 then LLONG_MAX else i64 (Z.shiftl 1 (bits - 1) - 1)) = max) as ->.
  { destruct (Z.eqb_spec bits 64) as [->|]; [done|]. rewrite Z.shiftl_1_l. apply i64_id.
    unfold LLONG_MIN, LLONG_MAX. lia. }
  replace (- max - 1) with min by (unfold max, min; lia). rewrite andb_false_r, !andb_false_r, !orb_false_r.
  fold max. destruct (Z.ltb_spec max v) as [Hlt|Hge]; cbn [orb]; [by destruct ow|].
  assert (negb (bits =? 64) && (i64 (max - v) <? 0) = negb (bits =? 64) && (v <? 2 ^ (bits - 1) - 2 ^ 63)) as ->.
  { destruct (Z.eqb_spec bits 64); [done|]. cbn [negb andb].
    assert (2 ^ (bits - 1) ≤ 2 ^ 62) by (apply Z.pow_le_mono_r; lia). unfold LLONG_MIN, LLONG_MAX, max in *.
    destruct (Z.ltb_spec v (2 ^ (bits - 1) - 2 ^ 63)).
    - unfold i64. rewrite <-(Z.mod_unique _ (2 ^ 64) 1 (2 ^ (bits - 1) - 1 - v + 2 ^ 63 - 2 ^ 64)) by lia. lia.
    - rewrite i64_id by (unfold LLONG_MIN, LLONG_MAX; lia). lia. }
  destruct (negb (bits =? 64) && (v <? _)); [by destruct ow|].
  assert ((v <? min) || negb (bits =? 64) && (0 <? i64 (min - v)) = (v <? min)) as ->.
  { destruct (Z.ltb_spec v min); [done|]. destruct (Z.eqb_spec bits 64); [done|]. cbn [negb andb orb].
    assert (2 ^ (bits - 1) ≤ 2 ^ 62) by (apply Z.pow_le_mono_r; lia).
    rewrite i64_id by (unfold LLONG_MIN, LLONG_MAX, max, min in *; lia). lia. }
  by destruct (v <? min), ow.
Qed.

End SignedProps.

(** ** Bits back to bytes *)

Fixpoint bytesOfBits (n : nat) (l : list bool) : bytes :=
  match n with
  | O => []
  | S n => ucharOf (bitsInt (take 8 l)) :: bytesOfBits n (drop 8 l)
  end.

Definition bytesOf (l : list bool) : bytes := bytesOfBits (length l / 8) l.

Lemma bytesOf_bitsOf p : bytesOf (bitsOf p) = p.
Proof.
  unfold bytesOf. rewrite length_bitsOf, Nat.mul_comm, Nat.div_mul by done.
  induction p as [|c p IH]; [done|]. cbn [length bytesOfBits]. rewrite bitsOf_cons.
  rewrite take_app_length', drop_app_length', IH by done. f_equal. unfold bitsOfByte.
  rewrite bitsInt_intBits by apply uchar_bound. apply ucharOf_uchar.
Qed.
