(* ===== verification/BitCmds.v ===== *)
(** * BitCmds: the bit commands of src/src/bitops.c

    SETBIT, GETBIT, BITOP, BITCOUNT, BITPOS, BITFIELD and BITFIELD_RO on the database of
    the client, and what each of them does to the abstract store in terms of lists of bits.

    [addr] is the address of the string that BITCOUNT and BITPOS look at.  A string has
    fewer than 2^63 bytes, so positions in it are exact. *)

From Stdlib Require Import Ascii String ZifyBool.
From stdpp Require Import base tactics option list list_numbers strings numbers gmap fin_maps.
From S2P Require Import Prelude Endian Util Object Db Server TString StringProps Command StringCmds Bitops BitopsProps.

Local Open Scope Z_scope.

Definition LONG_STR_SIZE : nat := 21.

(** ** Arguments *)

Definition bitOffsetErr : reply := RError "bit offset is not an integer or out of range".
Definition bitErr : string := "bit is not an integer or out of range".
Definition bitfieldTypeErr : reply :=
  RError "Invalid bitfield type. Use something like i16 u8. Note that u64 is not supported but i64 is.".

(** [getLongFromObjectOrReply] with a message. *)
Definition getLongOrReplyMsg (o : option robj) (msg : string) : M cmdState (option Z) :=
  v ← getLongLongFromObject o;
  match v with
  | None => emit (RError msg) ;; mret None
  | Some v =>
      if (v <? LLONG_MIN) || (LLONG_MAX <? v) then emit (RError msg) ;; mret None
      else mret (Some v)
  end.

Definition getBitOffsetFromArgument (p : bytes) (hash : bool) (bits : Z) : M cmdState (option Z) :=
  let usehash := bool_decide (at_ p 0 = "#"%char) && hash && (0 <? bits) in
  match string2ll (if usehash then drop 1 p else p) with
  | None => emit bitOffsetErr ;; mret None
  | Some loffset =>
      let loffset := if usehash then i64 (loffset * bits) else loffset in
      if (loffset <? 0) || (512 * 1024 * 1024 <=? Z.shiftr (u64 loffset) 3) then
        emit bitOffsetErr ;; mret None
      else mret (Some loffset)
  end.

(** The sign and the number of bits. *)
Definition getBitfieldTypeFromArgument (p : bytes) : M cmdState (option (bool * Z)) :=
  match (if bool_decide (at_ p 0 = "i"%char) then Some true
         else if bool_decide (at_ p 0 = "u"%char) then Some false else None) with
  | None => emit bitfieldTypeErr ;; mret None
  | Some sign =>
      match string2ll (cstr (drop 1 p)) with
      | None => emit bitfieldTypeErr ;; mret None
      | Some llbits =>
          if (llbits <? 1) || (sign && (64 <? llbits)) || (negb sign && (63 <? llbits))
          then emit bitfieldTypeErr ;; mret None
          else mret (Some (sign, llbits))
      end
  end.

(** The bytes of a string object. *)
Definition getObjectReadOnlyString (o : robj) : M cmdState bytes :=
  serverAssert (bool_decide (o_type o = OBJ_STRING)) "getObjectReadOnlyString" ;;
  if bool_decide (o_encoding o = OBJ_ENCODING_INT) then
    n ← ptrLong o "getObjectReadOnlyString"; mret (ll2buf LONG_STR_SIZE n)
  else ptrSds o "getObjectReadOnlyString".

(** ** BITOP *)

Inductive bitop := BITOP_AND | BITOP_OR | BITOP_XOR | BITOP_NOT.

#[global] Instance bitop_eq_dec : EqDecision bitop.
Proof. solve_decision. Defined.

Definition bitopOf (opname : bytes) : option bitop :=
  let starts (x y : ascii) := bool_decide (at_ opname 0 = x) || bool_decide (at_ opname 0 = y) in
  if starts "a"%char "A"%char && strcaseeq opname (B "and") then Some BITOP_AND
  else if starts "o"%char "O"%char && strcaseeq opname (B "or") then Some BITOP_OR
  else if starts "x"%char "X"%char && strcaseeq opname (B "xor") then Some BITOP_XOR
  else if starts "n"%char "N"%char && strcaseeq opname (B "not") then Some BITOP_NOT
  else None.

(** The operator of the loops over the other strings; NOT has none. *)
Definition bitopFn (op : bitop) : Z → Z → Z :=
  match op with
  | BITOP_AND => Z.land
  | BITOP_OR => Z.lor
  | BITOP_XOR => Z.lxor
  | BITOP_NOT => λ x _, x
  end.

(** [~x] on an unsigned integer of [w] bits. *)
Definition notBits (w x : Z) : Z := Z.lxor x (Z.ones w).

Section Bitop.
Context `{Host} (op : bitop).

(** The word at byte [j] of the result, in the fast path. *)
Definition fastWord (src0 : bytes) (srcs : list bytes) (j : nat) : bytes :=
  let w := word64 (drop j src0) in
  let w := match op with
           | BITOP_NOT => notBits 64 w
           | _ => foldl (λ w s, bitopFn op w (word64 (drop j s))) w srcs
           end in
  ucharOf <$> hostBytes 8 w.

(** Four words at a time while all the strings have them: the bytes before [j]. *)
Fixpoint fastLoop (fuel : nat) (src0 : bytes) (srcs : list bytes) (minlen : Z) (j : nat) : bytes * nat :=
  match fuel with
  | O => ([], j)
  | S fuel =>
      if 32 <=? minlen then
        let block := fastWord src0 srcs j ++ fastWord src0 srcs (j + 8) ++
                     fastWord src0 srcs (j + 16) ++ fastWord src0 srcs (j + 24) in
        let '(rest, j) := fastLoop fuel src0 srcs (minlen - 32) (j + 32) in
        (block ++ rest, j)
      else ([], j)
  end.

(** The byte [j] of the result, in the loop that follows. *)
Definition slowByte (src0 : bytes) (srcs : list bytes) (j : nat) : ascii :=
  let byte (s : bytes) := if bool_decide (length s ≤ j)%nat then 0 else uchar (at_ s j) in
  let output := byte src0 in
  let output := match op with BITOP_NOT => notBits 8 output | _ => output end in
  ucharOf (foldl (λ output s, bitopFn op output (byte s)) output srcs).

(** [maxlen] and [minlen] after the loop over the keys; [None] is a key that does not
    exist. *)
Fixpoint minLen (first : bool) (l : list (option bytes)) (minlen : Z) : Z :=
  match l with
  | [] => minlen
  | None :: l => minLen false l 0
  | Some s :: l =>
      let len := Z.of_nat (length s) in
      minLen false l (if first || (len <? minlen) then len else minlen)
  end.

Definition maxLen (l : list bytes) : Z := foldl (λ m s, if m <? Z.of_nat (length s) then Z.of_nat (length s) else m) 0 l.

Definition bitopResult (l : list (option bytes)) : bytes :=
  let srcs := default [] <$> l in
  let minlen := minLen true l 0 in
  let maxlen := maxLen srcs in
  match srcs with
  | [] => []
  | src0 :: srcs =>
      let '(fast, j) :=
        if (32 <=? minlen) && (Z.of_nat (length l) <=? 16)
        then fastLoop (Z.to_nat minlen) src0 srcs minlen 0 else ([], 0%nat) in
      fast ++ (slowByte src0 srcs <$> seq j (Z.to_nat maxlen - j))
  end.

End Bitop.

(** ** BITFIELD *)

Inductive opcode := BITFIELDOP_GET | BITFIELDOP_SET | BITFIELDOP_INCRBY.

Record bitfieldOp := mkBitfieldOp {
  bf_offset : Z; bf_i64 : Z; bf_opcode : opcode; bf_owtype : owtype; bf_bits : Z; bf_sign : bool }.

(** The type and the offset of an operation: sign, bits, offset. *)
Definition typeAndOffset (ty off : bytes) : M cmdState (option (bool * Z * Z)) :=
  t ← getBitfieldTypeFromArgument ty;
  match t with
  | None => mret None
  | Some (sign, bits) =>
      o ← getBitOffsetFromArgument off true bits;
      match o with
      | None => mret None
      | Some bitoffset => mret (Some (sign, bits, bitoffset))
      end
  end.

Definition owtypeOf (name : bytes) : option owtype :=
  if strcaseeq name (B "wrap") then Some BFOVERFLOW_WRAP
  else if strcaseeq name (B "sat") then Some BFOVERFLOW_SAT
  else if strcaseeq name (B "fail") then Some BFOVERFLOW_FAIL
  else None.

(** What the loop over the arguments collects. *)
Record bitfieldPlan := mkPlan {
  pl_ops : list bitfieldOp;      (* in order *)
  pl_ow : owtype;                (* the overflow mode in force *)
  pl_readonly : bool;
  pl_highest : Z }.              (* highest_write_offset *)

Definition addOp (op : bitfieldOp) (pl : bitfieldPlan) : bitfieldPlan :=
  match bf_opcode op with
  | BITFIELDOP_GET => mkPlan (pl_ops pl ++ [op]) (pl_ow pl) (pl_readonly pl) (pl_highest pl)
  | _ => let last := bf_offset op + bf_bits op - 1 in
         mkPlan (pl_ops pl ++ [op]) (pl_ow pl) false (if pl_highest pl <? last then last else pl_highest pl)
  end.

(** [None]: the command has replied an error. *)
Fixpoint bitfieldParse (l : list bytes) (pl : bitfieldPlan) : M cmdState (option bitfieldPlan) :=
  match l with
  | [] => mret (Some pl)
  | subcmd :: l =>
      let remargs := Z.of_nat (length l) in
      if strcaseeq subcmd (B "get") && (2 <=? remargs) then
        match l with
        | ty :: off :: l =>
            t ← typeAndOffset ty off;
            match t with
            | None => mret None
            | Some (sign, bits, bitoffset) =>
                bitfieldParse l (addOp (mkBitfieldOp bitoffset 0 BITFIELDOP_GET (pl_ow pl) bits sign) pl)
            end
        | _ => mret None
        end
      else if (strcaseeq subcmd (B "set") || strcaseeq subcmd (B "incrby")) && (3 <=? remargs) then
        let code := if strcaseeq subcmd (B "set") then BITFIELDOP_SET else BITFIELDOP_INCRBY in
        match l with
        | ty :: off :: v :: l =>
            t ← typeAndOffset ty off;
            match t with
            | None => mret None
            | Some (sign, bits, bitoffset) =>
                i ← getLongLongFromObjectOrReply (Some (createStringObject v));
                match i with
                | None => mret None
                | Some i => bitfieldParse l (addOp (mkBitfieldOp bitoffset i code (pl_ow pl) bits sign) pl)
                end
            end
        | _ => mret None
        end
      else if strcaseeq subcmd (B "overflow") && (1 <=? remargs) then
        match l with
        | name :: l =>
            match owtypeOf name with
            | None => emit (RError "Invalid OVERFLOW type specified") ;; mret None
            | Some ow => bitfieldParse l (mkPlan (pl_ops pl) ow (pl_readonly pl) (pl_highest pl))
            end
        | _ => mret None
        end
      else emit (RError "syntax error") ;; mret None
  end.

(** A bitfield function on the bytes at [o->ptr]. *)
Definition onBytes {A} (m : M bytes A) (p : bytes) : M cmdState (A * bytes) := λ s,
  match m p with Ok r => Ok (r, s) | Fault f => Fault f end.

Section Bitfield.
Context (wide : Z) (resp : Z).

(** Storing the new value, unless it overflows in FAIL mode: the reply and the new
    bytes. *)
Definition bitfieldStore (op : bitfieldOp) (p : bytes) (overflow newval retval : Z) : M cmdState (reply * bytes) :=
  if negb (negb (overflow =? 0) && bool_decide (bf_owtype op = BFOVERFLOW_FAIL)) then
    '(_, p) ← onBytes (if bf_sign op then setSignedBitfield (bf_offset op) (bf_bits op) newval
                       else setUnsignedBitfield (bf_offset op) (bf_bits op) newval) p;
    mret (RInt (i64 retval), p)
  else mret (RNull resp, p).

(** SET and INCRBY on the bytes of the string.  [wrapped] is not initialised; it is used
    only after the test has set it. *)
Definition bitfieldWrite (op : bitfieldOp) (p : bytes) : M cmdState (reply * bytes) :=
  let wrapped := 0 in
  if bf_sign op then
    '(oldval, _) ← onBytes (getSignedBitfield wide (bf_offset op) (bf_bits op)) p;
    match bf_opcode op with
    | BITFIELDOP_INCRBY =>
        let newval := i64 (oldval + bf_i64 op) in
        let '(overflow, limit) :=
          checkSignedBitfieldOverflow wide oldval (bf_i64 op) (bf_bits op) (bf_owtype op) wrapped in
        let newval := if negb (overflow =? 0) then limit else newval in
        bitfieldStore op p overflow newval newval
    | _ =>
        let newval := bf_i64 op in
        let '(overflow, limit) :=
          checkSignedBitfieldOverflow wide newval 0 (bf_bits op) (bf_owtype op) wrapped in
        let newval := if negb (overflow =? 0) then limit else newval in
        bitfieldStore op p overflow newval oldval
    end
  else
    '(oldval, _) ← onBytes (getUnsignedBitfield (bf_offset op) (bf_bits op)) p;
    match bf_opcode op with
    | BITFIELDOP_INCRBY =>
        let newval := u64 (oldval + bf_i64 op) in
        let '(overflow, limit) :=
          checkUnsignedBitfieldOverflow wide oldval (bf_i64 op) (bf_bits op) (bf_owtype op) wrapped in
        let newval := if negb (overflow =? 0) then limit else newval in
        bitfieldStore op p overflow newval newval
    | _ =>
        let newval := u64 (bf_i64 op) in
        let '(overflow, limit) :=
          checkUnsignedBitfieldOverflow wide newval 0 (bf_bits op) (bf_owtype op) wrapped in
        let newval := if negb (overflow =? 0) then limit else newval in
        bitfieldStore op p overflow newval oldval
    end.

(** GET on a copy of nine bytes, padded with zeros. *)
Definition bitfieldGet (op : bitfieldOp) (src : bytes) : M cmdState reply :=
  let byte := Z.shiftr (bf_offset op) 3 in
  let bytes := take 9 (drop (Z.to_nat byte) src) in
  let buf := bytes ++ replicate (9 - length bytes) NUL in
  if bf_sign op then
    '(val, _) ← onBytes (getSignedBitfield wide (bf_offset op - byte * 8) (bf_bits op)) buf;
    mret (RInt (i64 val))
  else
    '(val, _) ← onBytes (getUnsignedBitfield (bf_offset op - byte * 8) (bf_bits op)) buf;
    mret (RInt (i64 val)).

(** The loop over the operations on the object [o], when the key is written: the changes. *)
Fixpoint bitfieldExec (key : bytes) (ops : list bitfieldOp) (o : option robj) (changes : Z) : M cmdState Z :=
  match ops with
  | [] => mret changes
  | op :: ops =>
      match bf_opcode op with
      | BITFIELDOP_GET =>
          src ← match o with Some o => getObjectReadOnlyString o | None => mret [] end;
          r ← bitfieldGet op src;
          emit r ;;
          bitfieldExec key ops o changes
      | _ =>
          o ← deref o "bitfieldGeneric";
          p ← ptrSds o "bitfieldGeneric";
          '(r, p) ← bitfieldWrite op p;
          let o := mkObj (o_type o) (o_encoding o) (PtrSds p) in
          onDb (storeObj key o) ;;
          emit r ;;
          bitfieldExec key ops (Some o) (changes + 1)
      end
  end.

End Bitfield.

(** ** The commands *)

Section BitCommands.
Context `{Host} (wide : Z) (addr : bytes → Z).
Context (g : genv) (ro : bool) (resp : Z) (refcount : bytes → Z) (args : list bytes).

Let argc : Z := Z.of_nat (length args).

Definition lookupStringForBitCommand (maxbit : Z) : M cmdState (option robj) :=
  key ← arg args 1;
  let size := Z.shiftr maxbit 3 + 1 in
  o ← onDb (lookupKeyWrite g key);
  match o with
  | None =>
      let o := createRawStringObject (replicate (Z.to_nat size) NUL) in
      onDb (dbAdd key o) ;; mret (Some o)
  | Some o =>
      wrong ← checkType o OBJ_STRING;
      if wrong : bool then mret None else
      o ← onDb (dbUnshareStringValue (refcount key) key o);
      p ← ptrSds o "lookupStringForBitCommand";
      let o := mkObj (o_type o) (o_encoding o) (PtrSds (sdsgrowzero p size)) in
      onDb (storeObj key o) ;; mret (Some o)
  end.

Definition setbitCommand : M cmdState unit :=
  a2 ← arg args 2;
  off ← getBitOffsetFromArgument a2 false 0;
  match off with
  | None => mret tt
  | Some bitoffset =>
      a3 ← arg args 3;
      on ← getLongOrReplyMsg (Some (createStringObject a3)) bitErr;
      match on with
      | None => mret tt
      | Some on =>
          if negb (Z.land on (Z.lnot 1) =? 0) then emit (RError bitErr) else
          o ← lookupStringForBitCommand bitoffset;
          match o with
          | None => mret tt
          | Some o =>
              key ← arg args 1;
              p ← ptrSds o "setbitCommand";
              let byte := Z.to_nat (Z.shiftr bitoffset 3) in
              c ← deref (p !! byte) "setbitCommand";
              let bit := 7 - Z.land bitoffset 7 in
              let bitval := Z.land (uchar c) (Z.shiftl 1 bit) in
              let byteval := Z.land (uchar c) (Z.lnot (Z.shiftl 1 bit)) in
              let byteval := Z.lor byteval (Z.shiftl (Z.land on 1) bit) in
              onDb (storeObj key (mkObj (o_type o) (o_encoding o) (PtrSds (<[byte := ucharOf byteval]> p)))) ;;
              addDirty 1 ;;
              emit (RInt (if bitval =? 0 then 0 else 1))
          end
      end
  end.

Definition getbitCommand : M cmdState unit :=
  a2 ← arg args 2;
  off ← getBitOffsetFromArgument a2 false 0;
  match off with
  | None => mret tt
  | Some bitoffset =>
      key ← arg args 1;
      o ← lookupKeyReadOrReply g ro key (RInt 0);
      match o with
      | None => mret tt
      | Some o =>
          wrong ← checkType o OBJ_STRING;
          if wrong : bool then mret tt else
          let byte := Z.to_nat (Z.shiftr bitoffset 3) in
          let bit := 7 - Z.land bitoffset 7 in
          str ← (if sdsEncodedObject o then ptrSds o "getbitCommand"
                 else n ← ptrLong o "getbitCommand"; mret (ll2buf 32 n));
          let bitval := if bool_decide (byte < length str)%nat
                        then Z.land (uchar (at_ str byte)) (Z.shiftl 1 bit) else 0 in
          emit (RInt (if bitval =? 0 then 0 else 1))
      end
  end.

(** The strings of the source keys; [None]: a key of another type has been replied. *)
Fixpoint bitopLoad (keys : list bytes) : M cmdState (option (list (option bytes))) :=
  match keys with
  | [] => mret (Some [])
  | key :: keys =>
      o ← onDb (lookupKeyRead g ro key);
      match o with
      | None => l ← bitopLoad keys; mret (cons None <$> l)
      | Some o =>
          wrong ← checkType o OBJ_STRING;
          if wrong : bool then mret None else
          s ← getDecodedObject o;
          l ← bitopLoad keys; mret (cons (Some s) <$> l)
      end
  end.

Definition bitopCommand : M cmdState unit :=
  opname ← arg args 1;
  targetkey ← arg args 2;
  match bitopOf opname with
  | None => emit (RError "syntax error")
  | Some op =>
      if bool_decide (op = BITOP_NOT) && negb (argc =? 4) then
        emit (RError "BITOP NOT must be called with a single source key.")
      else
        l ← bitopLoad (drop 3 args);
        match l with
        | None => mret tt
        | Some l =>
            let maxlen := maxLen (default [] <$> l) in
            (if negb (maxlen =? 0) then onDb (Db.setKey g targetkey (createRawStringObject (bitopResult op l)))
             else onDb (dbSyncDelete targetkey) ;; mret tt) ;;
            addDirty 1 ;;
            emit (RInt maxlen)
        end
  end.

(** The range of the arguments moved inside a string of [strlen] bytes. *)
Definition bitRange (strlen start end_ : Z) : Z * Z :=
  let start := if start <? 0 then strlen + start else start in
  let end_ := if end_ <? 0 then strlen + end_ else end_ in
  let start := if start <? 0 then 0 else start in
  let end_ := if end_ <? 0 then 0 else end_ in
  let end_ := if strlen <=? end_ then strlen - 1 else end_ in
  (start, end_).

Definition bitcountReply (p : bytes) (start end_ : Z) : M cmdState unit :=
  if end_ <? start then emit (RInt 0)
  else
    let bytes := end_ - start + 1 in
    let s := take (Z.to_nat bytes) (drop (Z.to_nat start) p) in
    emit (RInt (i64 (redisPopcount (addr p + start) s))).

Definition bitcountCommand : M cmdState unit :=
  key ← arg args 1;
  o ← lookupKeyReadOrReply g ro key (RInt 0);
  match o with
  | None => mret tt
  | Some o =>
      wrong ← checkType o OBJ_STRING;
      if wrong : bool then mret tt else
      p ← getObjectReadOnlyString o;
      let strlen := Z.of_nat (length p) in
      if argc =? 4 then
        a2 ← arg args 2;
        start ← getLongFromObjectOrReply (Some (createStringObject a2));
        match start with
        | None => mret tt
        | Some start =>
            a3 ← arg args 3;
            end_ ← getLongFromObjectOrReply (Some (createStringObject a3));
            match end_ with
            | None => mret tt
            | Some end_ =>
                if (start <? 0) && (end_ <? 0) && (end_ <? start) then emit (RInt 0)
                else let '(start, end_) := bitRange strlen start end_ in bitcountReply p start end_
            end
        end
      else if argc =? 2 then bitcountReply p 0 (strlen - 1)
      else emit (RError "syntax error")
  end.

Definition bitposReply (p : bytes) (bit start end_ : Z) (end_given : bool) : M cmdState unit :=
  if end_ <? start then emit (RInt (-1))
  else
    let bytes := end_ - start + 1 in
    let s := take (Z.to_nat bytes) (drop (Z.to_nat start) p) in
    pos ← (λ st, match redisBitpos (addr p + start) s bit with Ok pos => Ok (pos, st) | Fault f => Fault f end);
    if end_given && (bit =? 0) && (pos =? bytes * 8) then emit (RInt (-1))
    else emit (RInt (if negb (pos =? -1) then pos + start * 8 else pos)).

Definition bitposCommand : M cmdState unit :=
  a2 ← arg args 2;
  bit ← getLongFromObjectOrReply (Some (createStringObject a2));
  match bit with
  | None => mret tt
  | Some bit =>
      if negb (bit =? 0) && negb (bit =? 1) then emit (RError "The bit argument must be 1 or 0.") else
      key ← arg args 1;
      o ← onDb (lookupKeyRead g ro key);
      match o with
      | None => emit (RInt (if bit =? 0 then 0 else -1))
      | Some o =>
          wrong ← checkType o OBJ_STRING;
          if wrong : bool then mret tt else
          p ← getObjectReadOnlyString o;
          let strlen := Z.of_nat (length p) in
          if (argc =? 4) || (argc =? 5) then
            a3 ← arg args 3;
            start ← getLongFromObjectOrReply (Some (createStringObject a3));
            match start with
            | None => mret tt
            | Some start =>
                end_ ← (if argc =? 5 then
                          a4 ← arg args 4; getLongFromObjectOrReply (Some (createStringObject a4))
                        else mret (Some (strlen - 1)));
                match end_ with
                | None => mret tt
                | Some end_ =>
                    let '(start, end_) := bitRange strlen start end_ in
                    bitposReply p bit start end_ (argc =? 5)
                end
            end
          else if argc =? 3 then bitposReply p bit 0 (strlen - 1) false
          else emit (RError "syntax error")
      end
  end.

Definition bitfieldGeneric (flag_readonly : bool) : M cmdState unit :=
  pl ← bitfieldParse (drop 2 args) (mkPlan [] BFOVERFLOW_WRAP true 0);
  match pl with
  | None => mret tt
  | Some pl =>
      key ← arg args 1;
      o ← (if pl_readonly pl then
             o ← onDb (lookupKeyRead g ro key);
             match o with
             | None => mret (Some None)
             | Some o => wrong ← checkType o OBJ_STRING; mret (if wrong : bool then None else Some (Some o))
             end
           else if flag_readonly then
             emit (RError "BITFIELD_RO only supports the GET subcommand") ;; mret None
           else o ← lookupStringForBitCommand (pl_highest pl); mret (Some <$> o));
      match o with
      | None => mret tt
      | Some o =>
          emit (RArrayLen (Z.of_nat (length (pl_ops pl)))) ;;
          changes ← bitfieldExec wide resp key (pl_ops pl) o 0;
          if negb (changes =? 0) then addDirty changes else mret tt
      end
  end.

Definition bitfieldCommand : M cmdState unit := bitfieldGeneric false.
Definition bitfieldroCommand : M cmdState unit := bitfieldGeneric true.

End BitCommands.

(** ** The command table *)

Inductive bitProc :=
  | setbitProc | getbitProc | bitopProc | bitcountProc | bitposProc | bitfieldProc | bitfieldroProc.

#[global] Instance bitProc_eq_dec : EqDecision bitProc.
Proof. solve_decision. Defined.

Definition bitProcs : list bitProc :=
  [setbitProc; getbitProc; bitopProc; bitcountProc; bitposProc; bitfieldProc; bitfieldroProc].

Definition bitName (p : bitProc) : string :=
  match p with
  | setbitProc => "setbit" | getbitProc => "getbit" | bitopProc => "bitop" | bitcountProc => "bitcount"
  | bitposProc => "bitpos" | bitfieldProc => "bitfield" | bitfieldroProc => "bitfield_ro"
  end.

Definition bitArity (p : bitProc) : Z :=
  match p with
  | setbitProc => 4
  | getbitProc => 3
  | bitopProc => -4
  | bitposProc => -3
  | bitcountProc | bitfieldProc | bitfieldroProc => -2
  end.

Definition bitFlags (p : bitProc) : cmdFlags :=
  match p with
  | getbitProc | bitcountProc | bitposProc | bitfieldroProc => mkFlags false true false false false false false
  | _ => mkFlags true false false false false false true
  end.

Definition bitCall `{Host} (p : bitProc) (wide : Z) (addr refcount : bytes → Z) (g : genv) (resp : Z)
    (args : list bytes) : M cmdState unit :=
  let ro := CMD_READONLY (bitFlags p) in
  match p with
  | setbitProc => setbitCommand g refcount args
  | getbitProc => getbitCommand g ro args
  | bitopProc => bitopCommand g ro args
  | bitcountProc => bitcountCommand addr g ro args
  | bitposProc => bitposCommand addr g ro args
  | bitfieldProc => bitfieldCommand wide g ro resp refcount args
  | bitfieldroProc => bitfieldroCommand wide g ro resp refcount args
  end.

(** ** What the commands mean *)

Definition syntaxErr : reply := RError "syntax error".

(** A string with zero bytes after its end. *)
Definition padTo (n : nat) (b : bytes) : bytes := b ++ replicate (n - length b) NUL.

(** An offset is below 2^32; with [#] it counts integers of [bits] bits, and the
    product wraps around. *)
Definition bitOffset (p : bytes) (hash : bool) (bits : Z) : option Z :=
  v ← (if bool_decide (head p = Some "#"%char) && hash && (0 <? bits)
       then (λ v, i64 (v * bits)) <$> string2ll (tail p) else string2ll p);
  if bool_decide (0 ≤ v < 2 ^ 32) then Some v else None.

(** [i1] to [i64] and [u1] to [u63]. *)
Definition fieldType (p : bytes) : option (bool * Z) :=
  match p with
  | c :: p =>
      n ← string2ll (cstr p);
      if bool_decide (c = "i"%char ∧ 1 ≤ n ≤ 64) then Some (true, n)
      else if bool_decide (c = "u"%char ∧ 1 ≤ n ≤ 63) then Some (false, n)
      else None
  | [] => None
  end.

(** *** BITOP *)

Definition boolOp (op : bitop) : bool → bool → bool :=
  match op with
  | BITOP_AND => andb
  | BITOP_OR => orb
  | BITOP_XOR => xorb
  | BITOP_NOT => λ x _, x
  end.

Definition longest (l : list bytes) : nat := foldr (λ s n, Nat.max (length s) n) 0%nat l.

(** The bits of the result: all the strings padded to the length of the longest one. *)
Definition bitopBits (op : bitop) (l : list bytes) : list bool :=
  let n := longest l in
  match l with
  | [] => []
  | s :: l =>
      let first := bitsOf (padTo n s) in
      foldl (λ acc t, zip_with (boolOp op) acc (bitsOf (padTo n t)))
        (match op with BITOP_NOT => negb <$> first | _ => first end) l
  end.

(** *** BITPOS *)

(** The position of the first [bit] between the bytes [s] and [e] of [b]; a clear bit is
    found right after the string when no end is given. *)
Definition bitposIn (bit : bool) (b : bytes) (s e : Z) (end_given : bool) : Z :=
  let n := Z.of_nat (length b) in
  let s := Z.max 0 (if s <? 0 then n + s else s) in
  let e := Z.min (n - 1) (Z.max 0 (if e <? 0 then n + e else e)) in
  if e <? s then -1
  else match firstBit bit (bitsOf (take (Z.to_nat (e - s + 1)) (drop (Z.to_nat s) b))) with
       | Some i => 8 * s + Z.of_nat i
       | None => if bit || end_given then -1 else 8 * (e + 1)
       end.

(** *** BITFIELD *)

(** The unsigned integer at bit [o], with zeros after the end. *)
Definition fieldAt (b : bytes) (o bits : Z) : Z :=
  bitsInt (segment (Z.to_nat o) (Z.to_nat bits) (bitsOf b ++ replicate (Z.to_nat (o + bits)) false)).

Section FieldMeaning.
Context (wide : Z) (resp : Z).

(** The overflow mode applied to a result outside of the range. *)
Definition saturate (ow : owtype) (wrapped bound : Z) : option Z :=
  match ow with
  | BFOVERFLOW_WRAP => Some wrapped
  | BFOVERFLOW_SAT => Some bound
  | BFOVERFLOW_FAIL => None
  end.

(** What INCRBY stores for the exact sum [s]; [None]: nothing, on an overflow in FAIL
    mode. *)
Definition incrResult (op : bitfieldOp) (s : Z) : option Z :=
  let bits := bf_bits op in
  if bf_sign op then
    let max := 2 ^ (bits - 1) - 1 in
    let min := - 2 ^ (bits - 1) in
    if max <? s then saturate (bf_owtype op) (wrapSigned wide bits s) max
    else if s <? min then saturate (bf_owtype op) (wrapSigned wide bits s) min
    else Some s
  else
    let max := 2 ^ bits - 1 in
    if max <? s then saturate (bf_owtype op) (s mod 2 ^ bits) max
    else if s <? 0 then saturate (bf_owtype op) (s mod 2 ^ bits) 0
    else Some s.

(** What SET stores for the value [v]. *)
Definition setResult (op : bitfieldOp) (v : Z) : option Z :=
  let bits := bf_bits op in
  if bf_sign op then
    let max := 2 ^ (bits - 1) - 1 in
    let min := - 2 ^ (bits - 1) in
    if setTooLarge bits v then saturate (bf_owtype op) (wrapSigned wide bits v) max
    else if v <? min then saturate (bf_owtype op) (wrapSigned wide bits v) min
    else Some v
  else
    let max := 2 ^ bits - 1 in
    if max <? u64 v then saturate (bf_owtype op) (v mod 2 ^ bits) max else Some v.

Definition decodeField (op : bitfieldOp) (u : Z) : Z :=
  if bf_sign op then readSigned wide (bf_bits op) u else u.

(** An operation on the bytes of the string: the reply and the new bytes. *)
Definition fieldOp (op : bitfieldOp) (b : bytes) : reply * bytes :=
  let old := decodeField op (fieldAt b (bf_offset op) (bf_bits op)) in
  let put new := bytesOf (putAt (Z.to_nat (bf_offset op)) (intBits (Z.to_nat (bf_bits op)) new) (bitsOf b)) in
  match bf_opcode op with
  | BITFIELDOP_GET => (RInt old, b)
  | BITFIELDOP_SET => match setResult op (bf_i64 op) with
                      | Some new => (RInt old, put new)
                      | None => (RNull resp, b)
                      end
  | BITFIELDOP_INCRBY => match incrResult op (old + bf_i64 op) with
                         | Some new => (RInt new, put new)
                         | None => (RNull resp, b)
                         end
  end.

Fixpoint fieldOps (ops : list bitfieldOp) (b : bytes) : list reply * bytes :=
  match ops with
  | [] => ([], b)
  | op :: ops => let '(r, b) := fieldOp op b in let '(rs, b) := fieldOps ops b in (r :: rs, b)
  end.

End FieldMeaning.

(** An operation from its arguments, or the error. *)
Definition fieldArgs (code : opcode) (ow : owtype) (ty off : bytes) (v : option bytes) : bitfieldOp + reply :=
  match fieldType ty with
  | None => inr bitfieldTypeErr
  | Some (sign, bits) =>
      match bitOffset off true bits with
      | None => inr bitOffsetErr
      | Some o =>
          match v with
          | None => inl (mkBitfieldOp o 0 code ow bits sign)
          | Some v => match string2ll v with
                      | Some i => inl (mkBitfieldOp o i code ow bits sign)
                      | None => inr notIntegerErr
                      end
          end
      end
  end.

(** The operations of the arguments, or the first error. *)
Fixpoint fieldPlan (l : list bytes) (pl : bitfieldPlan) : bitfieldPlan + reply :=
  match l with
  | [] => inl pl
  | sub :: l =>
      let sub := tolower <$> cstr sub in
      match l with
      | name :: l1 =>
          if bool_decide (sub = B "overflow") then
            match owtypeOf name with
            | Some ow => fieldPlan l1 (mkPlan (pl_ops pl) ow (pl_readonly pl) (pl_highest pl))
            | None => inr (RError "Invalid OVERFLOW type specified")
            end
          else
            match l1 with
            | off :: l2 =>
                if bool_decide (sub = B "get") then
                  match fieldArgs BITFIELDOP_GET (pl_ow pl) name off None with
                  | inl op => fieldPlan l2 (addOp op pl)
                  | inr e => inr e
                  end
                else
                  match l2 with
                  | v :: l3 =>
                      if bool_decide (sub = B "set") then
                        match fieldArgs BITFIELDOP_SET (pl_ow pl) name off (Some v) with
                        | inl op => fieldPlan l3 (addOp op pl)
                        | inr e => inr e
                        end
                      else if bool_decide (sub = B "incrby") then
                        match fieldArgs BITFIELDOP_INCRBY (pl_ow pl) name off (Some v) with
                        | inl op => fieldPlan l3 (addOp op pl)
                        | inr e => inr e
                        end
                      else inr syntaxErr
                  | [] => inr syntaxErr
                  end
            | [] => inr syntaxErr
            end
      | [] => inr syntaxErr
      end
  end.

(** A bit as an integer. *)
Definition bitOf (v : Z) : option bool :=
  if v =? 0 then Some false else if v =? 1 then Some true else None.

Section Meaning.
Context (wide : Z) (g : genv) (ro : bool) (resp : Z) (f : astore).

Definition setbitSpec (k a v : bytes) : res outcome :=
  match bitOffset a false 0, string2ll v ≫= bitOf with
  | None, _ => answers f bitOffsetErr
  | Some o, Some on =>
      match stringAt f k with
      | None => answers f wrongtypeerr
      | Some (b, e) =>
          let l := bitsOf (padTo (Z.to_nat (o / 8 + 1)) b) in
          writes f k (AStr (bytesOf (<[Z.to_nat o := on]> l))) e (RInt (Z.b2z (default false (l !! Z.to_nat o))))
      end
  | Some _, None => answers f (RError bitErr)
  end.

Definition getbitSpec (k a : bytes) : res outcome :=
  match bitOffset a false 0 with
  | None => answers f bitOffsetErr
  | Some o =>
      match readable g ro (f k) with
      | Some (AObj _, _) => answers f wrongtypeerr
      | Some (AStr b, _) => answers f (RInt (Z.b2z (default false (bitsOf b !! Z.to_nat o))))
      | None => answers f (RInt 0)
      end
  end.

(** The strings of the keys, a missing one being empty; [None] when one is of another
    type. *)
Fixpoint sources (keys : list bytes) : option (list bytes) :=
  match keys with
  | [] => Some []
  | k :: keys =>
      match readable g ro (f k) with
      | Some (AObj _, _) => None
      | Some (AStr b, _) => cons b <$> sources keys
      | None => cons [] <$> sources keys
      end
  end.

Definition bitopSpec (opname target : bytes) (keys : list bytes) : res outcome :=
  match bitopOf opname with
  | None => answers f syntaxErr
  | Some op =>
      if bool_decide (op = BITOP_NOT) && negb (bool_decide (length keys = 1%nat)) then
        answers f (RError "BITOP NOT must be called with a single source key.")
      else
        match sources keys with
        | None => answers f wrongtypeerr
        | Some l =>
            if bool_decide (longest l = 0%nat) then Ok (adel target f, [RInt 0], 1)
            else writes f target (AStr (bytesOf (bitopBits op l))) None (RInt (Z.of_nat (longest l)))
        end
  end.

Definition bitcountSpec (k : bytes) (l : list bytes) : res outcome :=
  match readable g ro (f k) with
  | Some (AObj _, _) => answers f wrongtypeerr
  | Some (AStr b, _) =>
      match l with
      | [] => answers f (RInt (i64 (ones (bitsOf b))))
      | [s; e] =>
          match string2ll s, string2ll e with
          | Some s, Some e => answers f (RInt (i64 (ones (bitsOf (rangeOf b s e)))))
          | _, _ => answers f notIntegerErr
          end
      | _ => answers f syntaxErr
      end
  | None => answers f (RInt 0)
  end.

Definition bitposCmdSpec (k a : bytes) (l : list bytes) : res outcome :=
  match string2ll a with
  | None => answers f notIntegerErr
  | Some v =>
      match bitOf v with
      | None => answers f (RError "The bit argument must be 1 or 0.")
      | Some bit =>
          match readable g ro (f k) with
          | Some (AObj _, _) => answers f wrongtypeerr
          | Some (AStr b, _) =>
              match l with
              | [] => answers f (RInt (bitposIn bit b 0 (-1) false))
              | [s] => match string2ll s with
                       | Some s => answers f (RInt (bitposIn bit b s (-1) false))
                       | None => answers f notIntegerErr
                       end
              | [s; e] => match string2ll s, string2ll e with
                          | Some s, Some e => answers f (RInt (bitposIn bit b s e true))
                          | _, _ => answers f notIntegerErr
                          end
              | _ => answers f syntaxErr
              end
          | None => answers f (RInt (if bit then -1 else 0))
          end
      end
  end.

Definition isWrite (op : bitfieldOp) : bool :=
  match bf_opcode op with BITFIELDOP_GET => false | _ => true end.

Definition bitfieldSpec (flag_readonly : bool) (k : bytes) (l : list bytes) : res outcome :=
  match fieldPlan l (mkPlan [] BFOVERFLOW_WRAP true 0) with
  | inr e => answers f e
  | inl pl =>
      let replies b := RArrayLen (Z.of_nat (length (pl_ops pl))) :: (fieldOps wide resp (pl_ops pl) b).1 in
      if pl_readonly pl then
        match readable g ro (f k) with
        | Some (AObj _, _) => answers f wrongtypeerr
        | Some (AStr b, _) => Ok (f, replies b, 0)
        | None => Ok (f, replies [], 0)
        end
      else if flag_readonly then answers f (RError "BITFIELD_RO only supports the GET subcommand")
      else
        match stringAt f k with
        | None => answers f wrongtypeerr
        | Some (b, e) =>
            let b := padTo (Z.to_nat (pl_highest pl / 8 + 1)) b in
            Ok (aset k (AStr (fieldOps wide resp (pl_ops pl) b).2) e f, replies b,
                Z.of_nat (length (filter isWrite (pl_ops pl))))
        end
  end.

End Meaning.

Definition bitSpec (p : bitProc) (wide : Z) (g : genv) (resp : Z) (args : list bytes) (f : astore) : res outcome :=
  let ro := CMD_READONLY (bitFlags p) in
  match p, args with
  | setbitProc, [_; k; a; v] => setbitSpec f k a v
  | getbitProc, [_; k; a] => getbitSpec g ro f k a
  | bitopProc, _ :: opname :: target :: keys => bitopSpec g ro f opname target keys
  | bitcountProc, _ :: k :: l => bitcountSpec g ro f k l
  | bitposProc, _ :: k :: a :: l => bitposCmdSpec g ro f k a l
  | bitfieldProc, _ :: k :: l => bitfieldSpec wide g ro resp f false k l
  | bitfieldroProc, _ :: k :: l => bitfieldSpec wide g ro resp f true k l
  | _, _ => Ok (f, [], 0)
  end.
