(* ===== verification/BitCmdsProps.v ===== *)
(** * BitCmdsProps: the bit commands meet their specification

    The word-at-a-time path of BITOP gives the same bytes as the byte loop, and these are
    the bits of the operator; BITFIELD reads and writes segments of the list of bits with
    the overflow mode in force; and every command, as [call] runs it, has the replies,
    the effect on the store and the number of changes of its specification. *)

From Stdlib Require Import Ascii String ZifyBool.
From stdpp Require Import base tactics option list list_numbers strings numbers gmap fin_maps.
From S2P Require Import Prelude Endian Util Object Db Server TString StringProps Command StringCmds Bitops BitopsProps BitCmds.

Local Open Scope Z_scope.

(** ** BITOP *)

Lemma bitopFn_spec op x y i : Z.testbit (bitopFn op x y) i = boolOp op (Z.testbit x i) (Z.testbit y i).
Proof. destruct op; cbn; auto using Z.land_spec, Z.lor_spec, Z.lxor_spec. Qed.

Lemma bits_range x k : 0 ≤ k → (∀ i, k ≤ i → Z.testbit x i = false) → 0 ≤ x < 2 ^ k.
Proof.
  intros Hk Hx. assert (x = x mod 2 ^ k) as ->; [|apply Z.mod_pos_bound; lia].
  apply Z.bits_inj'. intros i Hi. destruct (Z.lt_ge_cases i k).
  - by rewrite Z.mod_pow2_bits_low.
  - by rewrite Z.mod_pow2_bits_high, Hx by lia.
Qed.

Lemma bitopFn_range op x y k : 0 ≤ k → 0 ≤ x < 2 ^ k → 0 ≤ y < 2 ^ k → 0 ≤ bitopFn op x y < 2 ^ k.
Proof.
  intros Hk Hx Hy. apply bits_range; [done|]. intros i Hi.
  rewrite bitopFn_spec, !(testbit_small _ k) by lia. by destruct op.
Qed.

Lemma bitopFn_digit op b h c k : 0 ≤ b < 256 → 0 ≤ c < 256 →
  bitopFn op (b + 256 * h) (c + 256 * k) = bitopFn op b c + 256 * bitopFn op h k.
Proof.
  intros Hb Hc. pose proof (bitopFn_range op b c 8) as Hr. apply Z.bits_inj'. intros i Hi.
  rewrite bitopFn_spec, !testbit_digit, !bitopFn_spec by (try done; apply Hr; lia). by destruct (i <? 8).
Qed.

Notation isByte := (λ b, 0 ≤ b < 256).

Lemma zip_bytes op x y : Forall isByte x → Forall isByte y → Forall isByte (zip_with (bitopFn op) x y).
Proof.
  intros Hx. revert y. induction Hx as [|b x Hb Hx IH]; intros y Hy; [by constructor|].
  destruct Hy as [|c y Hc Hy]; [by constructor|]. constructor; [|by apply IH].
  by apply (bitopFn_range op b c 8).
Qed.

Lemma unle_zip op x y : length x = length y → Forall isByte x → Forall isByte y →
  unle (zip_with (bitopFn op) x y) = bitopFn op (unle x) (unle y).
Proof.
  revert y. induction x as [|b x IH]; intros [|c y] Hl Hx Hy; try done; [by destruct op|].
  inversion_clear Hx. inversion_clear Hy. cbn [zip_with].
  rewrite !unle_cons_digit, IH, bitopFn_digit; try done; [by injection Hl|]. by apply (bitopFn_range op b c 8).
Qed.

Lemma zip_with_reverse {A} (h : A → A → A) x y : length x = length y →
  zip_with h (reverse x) (reverse y) = reverse (zip_with h x y).
Proof.
  revert y. induction x as [|b x IH]; intros [|c y] Hl; try done. cbn [zip_with].
  rewrite !reverse_cons, zip_with_app, IH; [done|by injection Hl|]. rewrite !length_reverse. by injection Hl.
Qed.

Section BitopProps.
Context `{Host}.

Lemma hostInt_zip op x y : length x = length y → Forall isByte x → Forall isByte y →
  hostInt (zip_with (bitopFn op) x y) = bitopFn op (hostInt x) (hostInt y).
Proof.
  intros Hl Hx Hy. unfold hostInt. destruct BYTE_ORDER; [by apply unle_zip|].
  rewrite <-zip_with_reverse by done. apply unle_zip; [by rewrite !length_reverse|by apply Forall_reverse..].
Qed.

Lemma hostBytes_hostInt x : length x = 8%nat → Forall isByte x → hostBytes 8 (hostInt x) = x.
Proof.
  intros Hl Hx. unfold hostBytes, hostInt. destruct BYTE_ORDER; [by rewrite le_unle by (done || lia)|].
  rewrite le_unle; [apply reverse_involutive|rewrite length_reverse; lia|by apply Forall_reverse].
Qed.

(** The bytes of a word, combined over all the strings. *)
Lemma fold_words op x ys : length x = 8%nat → Forall isByte x → Forall (λ y, length y = 8%nat ∧ Forall isByte y) ys →
  foldl (bitopFn op) (hostInt x) (hostInt <$> ys) = hostInt (foldl (zip_with (bitopFn op)) x ys) ∧
  length (foldl (zip_with (bitopFn op)) x ys) = 8%nat ∧ Forall isByte (foldl (zip_with (bitopFn op)) x ys).
Proof.
  intros Hl Hx Hys. revert x Hl Hx. induction Hys as [|y ys [Hy Fy] _ IH]; intros x Hl Hx; [done|].
  cbn [foldl fmap list_fmap]. rewrite <-hostInt_zip by (done || lia). apply IH.
  - rewrite length_zip_with. lia.
  - by apply zip_bytes.
Qed.

Lemma fold_zip_lookup op x ys i : (i < 8)%nat → length x = 8%nat → Forall (λ y, length y = 8%nat) ys →
  foldl (zip_with (bitopFn op)) x ys !!! i = foldl (bitopFn op) (x !!! i) ((.!!! i) <$> ys).
Proof.
  intros Hi Hl Hys. revert x Hl. induction Hys as [|y ys Hy _ IH]; intros x Hl; [done|].
  cbn [foldl fmap list_fmap]. rewrite IH by (rewrite length_zip_with; lia). f_equal.
  destruct (lookup_lt_is_Some_2 x i) as [b Hb]; [lia|]. destruct (lookup_lt_is_Some_2 y i) as [c Hc]; [lia|].
  rewrite !list_lookup_total_alt, lookup_zip_with, Hb, Hc. done.
Qed.

Lemma foldl_map {A C D} (h : A → D → A) (k : C → D) l a : foldl (λ a c, h a (k c)) a l = foldl h a (k <$> l).
Proof. revert a. induction l as [|c l IH]; intros a; cbn; [done|]. apply IH. Qed.

(** The eight bytes from [j] on. *)
Definition bytesAt (j : nat) (s : bytes) : list Z := uchar <$> take 8 (drop j s).

Lemma bytesAt_ok j s : (j + 8 ≤ length s)%nat → length (bytesAt j s) = 8%nat ∧ Forall isByte (bytesAt j s).
Proof.
  intros Hj. split; [|apply uchar_bytes]. unfold bytesAt. rewrite length_fmap, length_take, length_drop. lia.
Qed.

Lemma bytesAt_lookup j s i : (i < 8)%nat → (j + 8 ≤ length s)%nat → bytesAt j s !!! i = uchar (at_ s (j + i)).
Proof.
  intros Hi Hj. unfold bytesAt, at_. destruct (lookup_lt_is_Some_2 s (j + i)) as [c Hc]; [lia|].
  rewrite list_lookup_total_alt, list_lookup_fmap, lookup_take_lt, lookup_drop, Hc by lia. done.
Qed.

Lemma notBits_word x : length x = 8%nat → Forall isByte x →
  notBits 64 (hostInt x) = hostInt (zip_with Z.lxor x (replicate 8 255)).
Proof.
  intros Hl Hx. unfold notBits. change (Z.ones 64) with (skipWord false). rewrite (skipWord_host false).
  symmetry. apply (hostInt_zip BITOP_XOR); [by rewrite length_replicate|done|by apply Forall_replicate].
Qed.

Lemma fastWord_slow op src0 srcs j : (j + 8 ≤ length src0)%nat → Forall (λ s, (j + 8 ≤ length s)%nat) srcs →
  fastWord op src0 srcs j = slowByte op src0 srcs <$> seq j 8.
Proof.
  intros H0 Hs. destruct (bytesAt_ok j src0 H0) as [Hl0 Hb0].
  assert (Hbyte : ∀ s i, (i < 8)%nat → (j + 8 ≤ length s)%nat →
    (if bool_decide (length s ≤ j + i)%nat then 0 else uchar (at_ s (j + i))) = bytesAt j s !!! i).
  { intros s i Hi Hj. rewrite bool_decide_false by lia. by rewrite bytesAt_lookup. }
  assert (Hys : Forall (λ y, length y = 8%nat ∧ Forall isByte y) (bytesAt j <$> srcs)).
  { apply Forall_fmap. eapply Forall_impl; [exact Hs|]. intros s Hj. by apply bytesAt_ok. }
  set (first := match op with BITOP_NOT => zip_with Z.lxor (bytesAt j src0) (replicate 8 255) | _ => bytesAt j src0 end).
  assert (length first = 8%nat ∧ Forall isByte first) as [Hlf Hbf].
  { unfold first. destruct op; try done. split; [rewrite length_zip_with, length_replicate; lia|].
    apply (zip_bytes BITOP_XOR); [done|by apply Forall_replicate]. }
  destruct (fold_words op first (bytesAt j <$> srcs) Hlf Hbf Hys) as (Hw & Hly & Hby).
  assert (fastWord op src0 srcs j =
    ucharOf <$> hostBytes 8 (foldl (bitopFn op) (hostInt first) (hostInt <$> (bytesAt j <$> srcs)))) as ->.
  { unfold fastWord, first. change (word64 (drop j src0)) with (hostInt (bytesAt j src0)).
    destruct op; try (by rewrite <-!foldl_map). rewrite <-notBits_word by done. do 2 f_equal.
    generalize (notBits 64 (hostInt (bytesAt j src0))). clear. induction srcs as [|s srcs IH]; intros x; [done|]. apply IH. }
  rewrite Hw, hostBytes_hostInt by done. apply list_eq. intros i. destruct (decide (i < 8)%nat) as [Hi|Hi].
  2:{ rewrite !lookup_ge_None_2; [done|..]; rewrite length_fmap, ?length_seq; lia. }
  destruct (lookup_lt_is_Some_2 (foldl (zip_with (bitopFn op)) first (bytesAt j <$> srcs)) i) as [b Hb]; [lia|].
  rewrite !list_lookup_fmap, Hb, lookup_seq_lt by done. cbn. f_equal. apply list_lookup_total_correct in Hb as <-.
  rewrite fold_zip_lookup by (done || by eapply Forall_impl; [exact Hys|]; intros y []). unfold slowByte. f_equal.
  assert (first !!! i = match op with BITOP_NOT => notBits 8 (bytesAt j src0 !!! i) | _ => bytesAt j src0 !!! i end) as ->.
  { unfold first. destruct op; try done. destruct (lookup_lt_is_Some_2 (bytesAt j src0) i) as [c Hc]; [lia|].
    rewrite !list_lookup_total_alt, lookup_zip_with, Hc, lookup_replicate_2 by done. done. }
  rewrite Hbyte by done. rewrite <-list_fmap_compose, <-foldl_map.
  generalize (match op with BITOP_NOT => notBits 8 (bytesAt j src0 !!! i) | _ => bytesAt j src0 !!! i end).
  clear - Hs Hbyte Hi. induction Hs as [|s srcs Hj _ IH]; intros x; [done|]. cbn [foldl]. rewrite Hbyte by done. apply IH.
Qed.

Lemma fastLoop_slow op fuel src0 srcs minlen j fast j' :
  0 ≤ minlen → Forall (λ s, Z.of_nat j + minlen ≤ Z.of_nat (length s)) (src0 :: srcs) →
  fastLoop op fuel src0 srcs minlen j = (fast, j') →
  (j ≤ j')%nat ∧ Z.of_nat j' ≤ Z.of_nat j + minlen ∧ fast = slowByte op src0 srcs <$> seq j (j' - j).
Proof.
  revert minlen j fast j'. induction fuel as [|fuel IH]; intros minlen j fast j' Hm Hall; cbn [fastLoop].
  { intros [= <- <-]. rewrite Nat.sub_diag. repeat split; lia. }
  destruct (Z.leb_spec 32 minlen) as [H32|H32].
  2:{ intros [= <- <-]. rewrite Nat.sub_diag. repeat split; lia. }
  destruct (fastLoop op fuel src0 srcs (minlen - 32) (j + 32)) as [rest j2] eqn:Hrec. intros [= <- <-].
  apply IH in Hrec as (Hj & Hb & ->); [|lia|eapply Forall_impl; [exact Hall|]; intros s Hs; cbn in Hs |- *; lia].
  split; [lia|]. split; [lia|]. inversion_clear Hall as [|? ? H0 Hs]. cbn in H0.
  assert (Hw : ∀ k, (k ≤ 24)%nat → Forall (λ s, (j + k + 8 ≤ length s)%nat) srcs).
  { intros k Hk. eapply Forall_impl; [exact Hs|]. intros s ?. cbn in *. lia. }
  pose proof (Hw 0%nat) as Hw0. rewrite Nat.add_0_r in Hw0.
  rewrite !fastWord_slow by first [lia|apply Hw0; lia|apply Hw; lia].
  rewrite <-!fmap_app. f_equal. replace (j2 - j)%nat with (8 + (8 + (8 + (8 + (j2 - (j + 32))))))%nat by lia.
  rewrite !seq_app, <-!app_assoc. do 4 f_equal. all: try (f_equal; lia). by rewrite <-!Nat.add_assoc.
Qed.

Lemma minLen_bound first l m s : 0 ≤ m → (first = false → minLen first l m ≤ m) ∧ 0 ≤ minLen first l m ∧
  (s ∈ default [] <$> l → minLen first l m ≤ Z.of_nat (length s)).
Proof.
  revert first m. induction l as [|[x|] l IH]; intros first m Hm; cbn [minLen fmap list_fmap].
  - repeat split; [lia|lia|]. by intros ?%not_elem_of_nil.
  - set (m' := if first || _ then _ else _). assert (0 ≤ m') as Hm' by (unfold m'; case_match; lia).
    destruct (IH false m' Hm') as (H1 & H2 & H3). specialize (H1 eq_refl).
    assert (m' ≤ Z.of_nat (length x) ∧ (first = false → m' ≤ m)) as [H4 H5].
    { unfold m'. destruct first; cbn [orb]; [split; [lia|done]|]. destruct (Z.ltb_spec (Z.of_nat (length x)) m); lia. }
    repeat split; [intros Hf; specialize (H5 Hf); lia|lia|]. intros [->|Hin]%elem_of_cons; [cbn; lia|by apply H3].
  - destruct (IH false 0 ltac:(lia)) as (H1 & H2 & H3). specialize (H1 eq_refl).
    repeat split; [lia|lia|]. intros [->|Hin]%elem_of_cons; [cbn; lia|by apply H3].
Qed.

Lemma maxLen_longest l : maxLen l = Z.of_nat (longest l).
Proof.
  unfold maxLen, longest. assert (∀ m, 0 ≤ m →
    foldl (λ m s, if m <? Z.of_nat (length s) then Z.of_nat (length s) else m) m l =
    Z.max m (Z.of_nat (foldr (λ s n, Nat.max (length s) n) 0%nat l))) as Hm.
  { induction l as [|s l IH]; intros m Hm; cbn [foldl foldr]; [lia|]. rewrite IH by (case_match; lia).
    destruct (Z.ltb_spec m (Z.of_nat (length s))); lia. }
  rewrite Hm by lia. lia.
Qed.

Lemma longest_ge l s : s ∈ l → (length s ≤ longest l)%nat.
Proof.
  unfold longest. induction l as [|x l IH]; [by intros ?%not_elem_of_nil|]. cbn [foldr].
  intros [->|Hs]%elem_of_cons; [lia|]. apply IH in Hs. lia.
Qed.

(** The whole result is what the byte loop would give. *)
Lemma bitopResult_slow op l src0 srcs : default [] <$> l = src0 :: srcs →
  bitopResult op l = slowByte op src0 srcs <$> seq 0 (longest (src0 :: srcs)).
Proof.
  intros Hl. unfold bitopResult. rewrite Hl, maxLen_longest, Nat2Z.id.
  destruct (_ && _).
  2:{ cbn [app]. by rewrite Nat.sub_0_r. }
  set (m := minLen true l 0). assert (∀ s, s ∈ src0 :: srcs → m ≤ Z.of_nat (length s)) as Hmin.
  { intros s Hs. apply (minLen_bound true l 0 s); [lia|]. by rewrite Hl. }
  assert (0 ≤ m) as H0 by (apply (minLen_bound true l 0 []); lia).
  destruct (fastLoop op (Z.to_nat m) src0 srcs m 0) as [fast j] eqn:Hf.
  apply fastLoop_slow in Hf as (_ & Hj & ->); [|done|apply Forall_forall; intros s Hs; cbn; by apply Hmin].
  rewrite <-fmap_app. f_equal. assert (j ≤ longest (src0 :: srcs))%nat as Hle.
  { pose proof (longest_ge (src0 :: srcs) src0 ltac:(by left)). specialize (Hmin src0 ltac:(by left)). lia. }
  replace (longest (src0 :: srcs)) with (j + (longest (src0 :: srcs) - j))%nat at 2 by lia.
  by rewrite seq_app, Nat.sub_0_r.
Qed.

Lemma length_padTo n b : length (padTo n b) = Nat.max n (length b).
Proof. unfold padTo. rewrite length_app, length_replicate. lia. Qed.

Lemma lookup_padTo n b j : (j < n)%nat → padTo n b !! j = Some (at_ b j).
Proof.
  intros Hj. unfold padTo, at_. destruct (decide (j < length b)%nat) as [Hl|Hl].
  - rewrite lookup_app_l by done. by destruct (lookup_lt_is_Some_2 b j Hl) as [c ->].
  - rewrite lookup_app_r, lookup_replicate_2, (lookup_ge_None_2 b) by lia. done.
Qed.

(** Bit [i] of a padded string, from the byte that the loop reads. *)
Lemma padded_bit n b i : (i < 8 * n)%nat → (length b ≤ n)%nat →
  bitsOf (padTo n b) !! i =
  Some (Z.testbit (if bool_decide (length b ≤ i / 8)%nat then 0 else uchar (at_ b (i / 8))) (7 - Z.of_nat (i mod 8))).
Proof.
  intros Hi Hb. destruct (lookup_bitsOf (padTo n b) i) as (c & Hc & ->); [rewrite length_padTo; lia|].
  rewrite lookup_padTo in Hc by (apply Nat.Div0.div_lt_upper_bound; lia). injection Hc as <-. f_equal.
  case_bool_decide as Hl; [|done]. unfold at_. by rewrite lookup_ge_None_2.
Qed.

Lemma testbit_fold op (byte : bytes → Z) srcs o b :
  Z.testbit (foldl (λ o s, bitopFn op o (byte s)) o srcs) b =
  foldl (λ o s, boolOp op o (Z.testbit (byte s) b)) (Z.testbit o b) srcs.
Proof. revert o. induction srcs as [|s srcs IH]; intros o; [done|]. cbn [foldl]. by rewrite IH, bitopFn_spec. Qed.

Lemma fold_zip_bits op n srcs (first : list bool) i x : (i < n)%nat → first !! i = Some x →
  (∀ t, t ∈ srcs → length t = n) →
  foldl (zip_with (boolOp op)) first srcs !! i = Some (foldl (λ o t, boolOp op o (t !!! i)) x srcs).
Proof.
  intros Hi. revert first x. induction srcs as [|t srcs IH]; intros first x Hx Hs; [done|]. cbn [foldl].
  apply IH; [|intros t' Ht'; apply Hs; by right]. rewrite lookup_zip_with, Hx.
  destruct (lookup_lt_is_Some_2 t i) as [y Hy]; [rewrite Hs by (by left); done|]. cbn.
  by rewrite Hy, (list_lookup_total_correct _ _ _ Hy).
Qed.

Lemma length_fold_zip {A} (h : A → A → A) (first : list A) srcs :
  (∀ t, t ∈ srcs → length t = length first) → length (foldl (zip_with h) first srcs) = length first.
Proof.
  revert first. induction srcs as [|t srcs IH]; intros first Hs; [done|]. cbn [foldl].
  assert (length (zip_with h first t) = length first) as Hl by (rewrite length_zip_with, (Hs t) by (by left); lia).
  rewrite IH; [done|]. intros t' Ht'. rewrite Hl. apply Hs. by right.
Qed.

Lemma fold_bits_ext op srcs (h k : bytes → bool) o : (∀ s, s ∈ srcs → k s = h s) →
  foldl (λ o s, boolOp op o (h s)) o srcs = foldl (λ o s, boolOp op o (k s)) o srcs.
Proof.
  revert o. induction srcs as [|s srcs IH]; intros o Hk; [done|]. cbn [foldl]. rewrite (Hk s) by (by left).
  apply IH. intros t Ht. apply Hk. by right.
Qed.

Lemma bitsOf_slow op src0 srcs :
  bitsOf (slowByte op src0 srcs <$> seq 0 (longest (src0 :: srcs))) = bitopBits op (src0 :: srcs).
Proof.
  set (n := longest (src0 :: srcs)). assert (∀ s, s ∈ src0 :: srcs → (length s ≤ n)%nat) as Hn by (intros; by apply longest_ge).
  unfold bitopBits. fold n. clearbody n. rewrite (foldl_map (zip_with (boolOp op)) (λ t, bitsOf (padTo n t))).
  set (first := match op with BITOP_NOT => _ | _ => _ end).
  assert (Hl : ∀ t, t ∈ (λ t, bitsOf (padTo n t)) <$> srcs → length t = (8 * n)%nat).
  { intros t (s & -> & Hs)%list_elem_of_fmap. rewrite length_bitsOf, length_padTo. specialize (Hn s). set_solver by lia. }
  assert (Hfirst : length first = (8 * n)%nat).
  { assert (length (bitsOf (padTo n src0)) = (8 * n)%nat) as H0.
    { rewrite length_bitsOf, length_padTo. specialize (Hn src0 ltac:(by left)). lia. }
    unfold first. destruct op; by rewrite ?length_fmap. }
  apply list_eq. intros i. destruct (decide (i < 8 * n)%nat) as [Hi|Hi].
  2:{ rewrite !lookup_ge_None_2; [done| |rewrite length_bitsOf, length_fmap, length_seq; lia].
      rewrite length_fold_zip; [lia|]. rewrite Hfirst. exact Hl. }
  destruct (lookup_bitsOf (slowByte op src0 srcs <$> seq 0 n) i) as (c & Hc & ->); [by rewrite length_fmap, length_seq|].
  assert (i / 8 < n)%nat as Hdiv by (apply Nat.Div0.div_lt_upper_bound; lia).
  rewrite list_lookup_fmap, lookup_seq_lt in Hc by done.
  change (Some (slowByte op src0 srcs (i / 8)) = Some c) in Hc.
  set (b := 7 - Z.of_nat (i mod 8)). assert (0 ≤ b < 8) as Hb by (unfold b; pose proof (Nat.mod_upper_bound i 8); lia).
  set (byte := λ s : bytes, if bool_decide (length s ≤ i / 8)%nat then 0 else uchar (at_ s (i / 8))).
  assert (c = ucharOf (foldl (λ o s, bitopFn op o (byte s))
    (match op with BITOP_NOT => notBits 8 (byte src0) | _ => byte src0 end) srcs)) as -> by (by injection Hc as <-).
  rewrite uchar_ucharOf. change 256 with (2 ^ 8). rewrite Z.mod_pow2_bits_low, testbit_fold by lia.
  assert (Hbit : ∀ s, s ∈ src0 :: srcs → bitsOf (padTo n s) !! i = Some (Z.testbit (byte s) b)).
  { intros s Hs. apply padded_bit; [done|by apply Hn]. }
  rewrite (fold_zip_bits op (8 * n) _ _ i (Z.testbit (match op with BITOP_NOT => notBits 8 (byte src0) | _ => byte src0 end) b));
    [|done| |done].
  2:{ unfold first. destruct op; try (by apply Hbit, list_elem_of_here).
      rewrite list_lookup_fmap, (Hbit src0) by (by left). cbn. unfold notBits.
      by rewrite Z.lxor_spec, Z.ones_spec_low, xorb_true_r by lia. }
  f_equal. rewrite <-(foldl_map (λ o t, boolOp op o (t !!! i)) (λ t, bitsOf (padTo n t))).
  apply fold_bits_ext. intros s Hs. apply list_lookup_total_correct, Hbit. by right.
Qed.

End BitopProps.

Lemma bitopResult_bits `{Host} op l src0 srcs : default [] <$> l = src0 :: srcs →
  bitopResult op l = bytesOf (bitopBits op (src0 :: srcs)).
Proof.
  intros Hl. rewrite (bitopResult_slow op l src0 srcs Hl), <-bitsOf_slow. by rewrite bytesOf_bitsOf.
Qed.

(** ** BITFIELD *)

Lemma intBits_u64 n v : (n ≤ 64)%nat → intBits n (u64 v) = intBits n v.
Proof.
  intros Hn. apply list_eq. intros i. destruct (decide (i < n)%nat).
  - rewrite !lookup_intBits by done. unfold u64. by rewrite Z.mod_pow2_bits_low by lia.
  - by rewrite !lookup_ge_None_2 by (rewrite length_intBits; lia).
Qed.

Lemma fieldAt_inside b o bits : 0 ≤ o → 0 ≤ bits → o + bits ≤ 8 * Z.of_nat (length b) →
  fieldAt b o bits = bitsInt (segment (Z.to_nat o) (Z.to_nat bits) (bitsOf b)).
Proof.
  intros Ho Hb Hl. unfold fieldAt, segment. rewrite drop_app_le by (rewrite length_bitsOf; lia).
  rewrite take_app_le by (rewrite length_drop, length_bitsOf; lia). done.
Qed.

Lemma fieldAt_bound b o bits : 0 ≤ o → 0 ≤ bits → 0 ≤ fieldAt b o bits < 2 ^ bits.
Proof.
  intros Ho Hb. unfold fieldAt. pose proof (bitsInt_bound (segment (Z.to_nat o) (Z.to_nat bits)
    (bitsOf b ++ replicate (Z.to_nat (o + bits)) false))) as Hbd.
  assert (length (segment (Z.to_nat o) (Z.to_nat bits) (bitsOf b ++ replicate (Z.to_nat (o + bits)) false)) =
    Z.to_nat bits) as Hl.
  { unfold segment. rewrite length_take, length_drop, length_app, length_replicate. lia. }
  rewrite Hl, Z2Nat.id in Hbd by lia. done.
Qed.

(** A type and a value that the parser gives. *)
Record opOk (op : bitfieldOp) : Prop := {
  ok_offset : 0 ≤ bf_offset op;
  ok_bits : 1 ≤ bf_bits op ≤ if bf_sign op then 64 else 63;
  ok_i64 : LLONG_MIN ≤ bf_i64 op ≤ LLONG_MAX }.

Section FieldProps.
Context (wide resp : Z) (op : bitfieldOp) (Hop : opOk op).

Lemma toSigned_llong bits u : 0 < bits ≤ 64 → 0 ≤ u < 2 ^ bits → LLONG_MIN ≤ toSigned bits u ≤ LLONG_MAX.
Proof.
  intros Hb Hu. pose proof (toSigned_range bits u ltac:(lia) Hu).
  assert (2 ^ (bits - 1) ≤ 2 ^ 63) by (apply Z.pow_le_mono_r; lia). unfold LLONG_MIN, LLONG_MAX. lia.
Qed.

(** What a stored integer reads as is in the range of its type. *)
Lemma decodeField_range u : 0 ≤ u < 2 ^ bf_bits op →
  (if bf_sign op then - 2 ^ (bf_bits op - 1) ≤ decodeField wide op u < 2 ^ (bf_bits op - 1)
   else 0 ≤ decodeField wide op u < 2 ^ bf_bits op) ∧
  LLONG_MIN ≤ decodeField wide op u ≤ LLONG_MAX.
Proof.
  intros Hu. destruct Hop as [_ Hb _]. unfold decodeField, readSigned. destruct (bf_sign op).
  - destruct (Z.eqb_spec (bf_bits op) 64) as [He|]; cbn [andb].
    + destruct (2 ^ 63 <=? u).
      * pose proof (i64_range (Z.lor u wide)). rewrite He. change (2 ^ (64 - 1)) with (2 ^ 63).
        unfold LLONG_MIN, LLONG_MAX in *. lia.
      * split; [apply toSigned_range; lia|apply toSigned_llong; lia].
    + split; [apply toSigned_range; lia|apply toSigned_llong; lia].
  - split; [done|]. assert (2 ^ bf_bits op ≤ 2 ^ 63) by (apply Z.pow_le_mono_r; lia).
    unfold LLONG_MIN, LLONG_MAX. lia.
Qed.

(** The new value once the overflow test has been made; [None] leaves the field alone. *)
Definition afterCheck (r : Z * Z) (newval : Z) : option Z :=
  let '(overflow, limit) := r in
  if negb (overflow =? 0) && bool_decide (bf_owtype op = BFOVERFLOW_FAIL) then None
  else Some (if negb (overflow =? 0) then limit else newval).

Lemma afterCheck_overflowed w sat limit r newval : r ≠ 0 →
  afterCheck (overflowed (bf_owtype op) w sat limit r) newval = saturate (bf_owtype op) w sat.
Proof.
  intros Hr. unfold afterCheck, overflowed, saturate. destruct (bf_owtype op); cbn; try done.
  all: by rewrite (proj2 (Z.eqb_neq r 0)).
Qed.

Lemma afterCheck_fits limit newval : afterCheck (0, limit) newval = Some newval.
Proof. done. Qed.

Lemma check_incr old : let s := old + bf_i64 op in
  (if bf_sign op then - 2 ^ (bf_bits op - 1) ≤ old < 2 ^ (bf_bits op - 1) else 0 ≤ old < 2 ^ bf_bits op) →
  afterCheck (if bf_sign op
              then checkSignedBitfieldOverflow wide old (bf_i64 op) (bf_bits op) (bf_owtype op) 0
              else checkUnsignedBitfieldOverflow wide old (bf_i64 op) (bf_bits op) (bf_owtype op) 0)
    (if bf_sign op then i64 s else u64 s) = incrResult wide op s.
Proof.
  intros s Hold. destruct Hop as [_ Hb Hi]. unfold incrResult. destruct (bf_sign op).
  - rewrite checkSigned_spec by lia. fold s.
    assert (2 ^ (bf_bits op - 1) ≤ 2 ^ 63) by (apply Z.pow_le_mono_r; lia).
    destruct (Z.ltb_spec (2 ^ (bf_bits op - 1) - 1) s); [by apply afterCheck_overflowed|].
    destruct (Z.ltb_spec s (- 2 ^ (bf_bits op - 1))); [by apply afterCheck_overflowed|].
    rewrite afterCheck_fits, i64_id by (unfold LLONG_MIN, LLONG_MAX; lia). done.
  - assert (2 ^ bf_bits op ≤ 2 ^ 63) by (apply Z.pow_le_mono_r; lia).
    rewrite checkUnsigned_spec by (unfold ULLONG_MAX; lia). fold s.
    rewrite (proj2 (Z.ltb_ge (2 ^ bf_bits op - 1) old)) by lia. cbn [orb].
    destruct (Z.ltb_spec (2 ^ bf_bits op - 1) s); [by apply afterCheck_overflowed|].
    destruct (Z.ltb_spec s 0); [by apply afterCheck_overflowed|].
    rewrite afterCheck_fits, u64_id by (unfold ULLONG_MAX; lia). done.
Qed.

Lemma check_set :
  let v := bf_i64 op in
  (if bf_sign op
   then afterCheck (checkSignedBitfieldOverflow wide v 0 (bf_bits op) (bf_owtype op) 0) v
   else afterCheck (checkUnsignedBitfieldOverflow wide (u64 v) 0 (bf_bits op) (bf_owtype op) 0) (u64 v)) =
  setResult wide op v.
Proof.
  intros v. destruct Hop as [_ Hb Hi]. fold v in Hi. unfold setResult. destruct (bf_sign op).
  - rewrite checkSigned_set by (done || lia).
    destruct (setTooLarge (bf_bits op) v); [by apply afterCheck_overflowed|].
    by destruct (v <? _); [apply afterCheck_overflowed|].
  - assert (0 ≤ u64 v < 2 ^ 64) by (apply Z.mod_pos_bound; lia).
    rewrite checkUnsigned_spec by (unfold ULLONG_MAX, LLONG_MIN, LLONG_MAX; lia).
    rewrite Z.add_0_r, orb_diag, u64_mod by lia.
    destruct (Z.ltb_spec (2 ^ bf_bits op - 1) (u64 v)); [by apply afterCheck_overflowed|].
    rewrite (proj2 (Z.ltb_ge (u64 v) 0)), afterCheck_fits by lia. f_equal.
    assert (2 ^ bf_bits op ≤ 2 ^ 63) by (apply Z.pow_le_mono_r; lia).
    destruct (Z.lt_ge_cases v 0); [|apply u64_id; unfold ULLONG_MAX, LLONG_MAX in *; lia].
    assert (u64 v = v + 2 ^ 64) as Hv; [|unfold LLONG_MIN in *; lia].
    unfold u64. symmetry. apply (Z.mod_unique _ _ (-1)); unfold LLONG_MIN in *; lia.
Qed.

Lemma incrResult_range s new : incrResult wide op s = Some new → LLONG_MIN ≤ new ≤ LLONG_MAX.
Proof.
  destruct Hop as [_ Hb _]. unfold incrResult.
  assert (∀ w bd, LLONG_MIN ≤ w ≤ LLONG_MAX → LLONG_MIN ≤ bd ≤ LLONG_MAX →
    saturate (bf_owtype op) w bd = Some new → LLONG_MIN ≤ new ≤ LLONG_MAX) as Hsat.
  { unfold saturate. intros w bd ??. destruct (bf_owtype op); intros [= <-]; done. }
  destruct (bf_sign op).
  - assert (LLONG_MIN ≤ wrapSigned wide (bf_bits op) s ≤ LLONG_MAX) as Hw.
    { unfold wrapSigned. destruct (Z.eqb_spec (bf_bits op) 64); [apply i64_range|].
      apply toSigned_llong; [lia|]. apply Z.mod_pos_bound. lia. }
    assert (2 ^ (bf_bits op - 1) ≤ 2 ^ 63) by (apply Z.pow_le_mono_r; lia).
    pose proof (Z.pow_pos_nonneg 2 (bf_bits op - 1)).
    destruct (Z.ltb_spec (2 ^ (bf_bits op - 1) - 1) s); [apply Hsat; [done|]|].
    2: destruct (Z.ltb_spec s (- 2 ^ (bf_bits op - 1))); [apply Hsat; [done|]|intros [= <-]].
    all: unfold LLONG_MIN, LLONG_MAX; lia.
  - assert (2 ^ bf_bits op ≤ 2 ^ 63) by (apply Z.pow_le_mono_r; lia).
    pose proof (Z.mod_pos_bound s (2 ^ bf_bits op)). pose proof (Z.pow_pos_nonneg 2 (bf_bits op)).
    destruct (Z.ltb_spec (2 ^ bf_bits op - 1) s); [apply Hsat|].
    3: destruct (Z.ltb_spec s 0); [apply Hsat|intros [= <-]].
    all: unfold LLONG_MIN, LLONG_MAX; lia.
Qed.

Lemma onBytes_run {A} (m : M bytes A) p r (s : cmdState) : m p = Ok r → onBytes m p s = Ok (r, s).
Proof. unfold onBytes. by intros ->. Qed.

(** The write of a new value, on the bits. *)
Lemma putField_run b new s : bf_offset op + bf_bits op ≤ 8 * Z.of_nat (length b) →
  ∃ b', onBytes (if bf_sign op then setSignedBitfield (bf_offset op) (bf_bits op) new
                 else setUnsignedBitfield (bf_offset op) (bf_bits op) new) b s = Ok ((tt, b'), s) ∧
        length b' = length b ∧
        b' = bytesOf (putAt (Z.to_nat (bf_offset op)) (intBits (Z.to_nat (bf_bits op)) new) (bitsOf b)).
Proof.
  intros Hl. destruct Hop as [Ho Hb _].
  destruct (setUnsignedBitfield_run (bf_offset op) (bf_bits op) (if bf_sign op then u64 new else new) b)
    as (b' & Hr & Hlen & Hbits); [lia|destruct (bf_sign op); lia|lia|].
  exists b'. split; [|split; [done|]].
  - apply onBytes_run. by destruct (bf_sign op).
  - rewrite <-(bytesOf_bitsOf b'), Hbits. destruct (bf_sign op); [|done]. by rewrite intBits_u64 by lia.
Qed.

Lemma readField_run b s : bf_offset op + bf_bits op ≤ 8 * Z.of_nat (length b) →
  onBytes (if bf_sign op then getSignedBitfield wide (bf_offset op) (bf_bits op)
           else getUnsignedBitfield (bf_offset op) (bf_bits op)) b s =
  Ok ((decodeField wide op (fieldAt b (bf_offset op) (bf_bits op)), b), s).
Proof.
  intros Hl. destruct Hop as [Ho Hb _]. apply onBytes_run. rewrite fieldAt_inside by (try lia; destruct (bf_sign op); lia).
  unfold decodeField. destruct (bf_sign op).
  - by rewrite getSignedBitfield_run by lia.
  - by rewrite getUnsignedBitfield_run by lia.
Qed.

Definition putField (b : bytes) (new : Z) : bytes :=
  bytesOf (putAt (Z.to_nat (bf_offset op)) (intBits (Z.to_nat (bf_bits op)) new) (bitsOf b)).

(** The value that is stored and the one that is replied. *)
Lemma bitfieldStore_run b s overflow limit nv (ret : Z → Z) :
  bf_offset op + bf_bits op ≤ 8 * Z.of_nat (length b) →
  let newval := if negb (overflow =? 0) then limit else nv in
  (∀ new, afterCheck (overflow, limit) nv = Some new → LLONG_MIN ≤ ret new ≤ LLONG_MAX) →
  let r := match afterCheck (overflow, limit) nv with
           | Some new => (RInt (ret new), putField b new)
           | None => (RNull resp, b)
           end in
  bitfieldStore resp op b overflow newval (ret newval) s = Ok (r, s) ∧ length r.2 = length b.
Proof.
  intros Hl newval Hret r. unfold r, bitfieldStore, afterCheck in *.
  destruct (negb (overflow =? 0) && bool_decide (bf_owtype op = BFOVERFLOW_FAIL)); cbn [negb]; [done|].
  destruct (putField_run b newval s Hl) as (b' & Hr & Hlen & Hb'). erewrite bind_run by exact Hr.
  rewrite i64_id by by apply Hret. unfold putField. fold newval. rewrite <-Hb'. done.
Qed.

Lemma bitfieldWrite_run b s : isWrite op = true → bf_offset op + bf_bits op ≤ 8 * Z.of_nat (length b) →
  bitfieldWrite wide resp op b s = Ok (fieldOp wide resp op b, s) ∧
  length (fieldOp wide resp op b).2 = length b.
Proof.
  intros Hwr Hl. set (old := decodeField wide op (fieldAt b (bf_offset op) (bf_bits op))).
  destruct (decodeField_range (fieldAt b (bf_offset op) (bf_bits op))) as [Hold Hllong].
  { apply fieldAt_bound; [apply Hop|]. destruct Hop as [_ ? _]. destruct (bf_sign op); lia. }
  fold old in Hold, Hllong. pose proof (readField_run b s Hl) as Hread. fold old in Hread.
  pose proof (check_incr old Hold) as Hincr. pose proof check_set as Hset. cbv zeta in Hincr, Hset.
  pose proof (incrResult_range (old + bf_i64 op)) as Hrange.
  unfold bitfieldWrite, fieldOp. fold old. fold (putField b). unfold isWrite in Hwr.
  assert (Hstore : ∀ chk nv ret, (∀ new, afterCheck chk nv = Some new → LLONG_MIN ≤ ret new ≤ LLONG_MAX) →
    let r := match afterCheck chk nv with Some new => (RInt (ret new), putField b new) | None => (RNull resp, b) end in
    (let '(overflow, limit) := chk in
     bitfieldStore resp op b overflow (if negb (overflow =? 0) then limit else nv)
       (ret (if negb (overflow =? 0) then limit else nv))) s = Ok (r, s) ∧ length r.2 = length b).
  { intros [overflow limit] nv ret Hret. by apply bitfieldStore_run. }
  destruct (bf_sign op); (rewrite (bind_run _ _ _ _ _ Hread)); cbv beta iota.
  - destruct (bf_opcode op); [done|..].
    + rewrite <-Hset. by apply (Hstore _ _ (λ _, old)).
    + rewrite <-Hincr in Hrange |- *. by apply (Hstore _ _ (λ new, new)).
  - destruct (bf_opcode op); [done|..].
    + rewrite <-Hset. by apply (Hstore _ _ (λ _, old)).
    + rewrite <-Hincr in Hrange |- *. by apply (Hstore _ _ (λ new, new)).
Qed.

End FieldProps.

(** The nine bytes of GET hold the field. *)
Lemma nine_bytes b o bits : 0 ≤ o → 0 < bits ≤ 64 →
  bitsInt (segment (Z.to_nat (o - o / 8 * 8)) (Z.to_nat bits) (bitsOf (padTo 9 (take 9 (drop (Z.to_nat (o / 8)) b))))) =
  fieldAt b o bits.
Proof.
  intros Ho Hb. unfold fieldAt. f_equal. unfold segment. apply list_eq. intros i.
  pose proof (Z.div_mod o 8 ltac:(lia)) as Hd. pose proof (Z.mod_pos_bound o 8 ltac:(lia)) as Hm.
  set (t := take 9 (drop (Z.to_nat (o / 8)) b)).
  assert (length t ≤ 9)%nat as Ht by (unfold t; rewrite length_take; lia).
  destruct (decide (i < Z.to_nat bits)%nat) as [Hi|Hi].
  2:{ rewrite !lookup_ge_None_2; [done|..]; rewrite length_take; lia. }
  rewrite !lookup_take_lt, !lookup_drop by done.
  set (k := (Z.to_nat (o - o / 8 * 8) + i)%nat). assert (k < 72)%nat as Hk by (unfold k; lia).
  rewrite padded_bit by lia.
  pose proof (Nat.div_mod_eq k 8) as Hdk. pose proof (Nat.mod_upper_bound k 8 ltac:(lia)) as Hmk.
  assert (Z.to_nat o + i = Z.to_nat (o / 8) * 8 + k)%nat as Hoi by (unfold k; lia).
  assert ((Z.to_nat o + i) / 8 = Z.to_nat (o / 8) + k / 8 ∧ (Z.to_nat o + i) mod 8 = k mod 8)%nat as [Hq Hr].
  { split; rewrite Hoi; [by rewrite Nat.div_add_l by lia|by rewrite Nat.add_comm, Nat.Div0.mod_add]. }
  destruct (decide (Z.to_nat o + i < 8 * length b)%nat) as [Hin|Hout].
  - rewrite lookup_app_l by (by rewrite length_bitsOf). destruct (lookup_bitsOf b _ Hin) as (c & Hc & ->).
    rewrite Hq in Hc. rewrite Hr. f_equal. f_equal. pose proof (lookup_lt_Some _ _ _ Hc).
    rewrite bool_decide_false by (unfold t; rewrite length_take, length_drop; lia). f_equal. unfold at_, t.
    by rewrite lookup_take_lt, lookup_drop, Hc by lia.
  - rewrite lookup_app_r, length_bitsOf, lookup_replicate_2 by (rewrite ?length_bitsOf; lia).
    rewrite bool_decide_true; [by rewrite Z.testbit_0_l|]. unfold t. rewrite length_take, length_drop. lia.
Qed.

Lemma bitfieldGet_run wide op b s : opOk op →
  bitfieldGet wide op b s = Ok (RInt (decodeField wide op (fieldAt b (bf_offset op) (bf_bits op))), s).
Proof.
  intros Hop. pose proof Hop as [Ho Hb _]. unfold bitfieldGet. rewrite Z.shiftr_div_pow2 by lia. change (2 ^ 3) with 8.
  set (t := take 9 (drop (Z.to_nat (bf_offset op / 8)) b)). fold (padTo 9 t).
  pose proof (Z.div_mod (bf_offset op) 8 ltac:(lia)). pose proof (Z.mod_pos_bound (bf_offset op) 8 ltac:(lia)).
  assert (length (padTo 9 t) = 9%nat) as Hl by (rewrite length_padTo; unfold t; rewrite length_take; lia).
  destruct (decodeField_range wide op Hop (fieldAt b (bf_offset op) (bf_bits op))) as [_ Hr].
  { apply fieldAt_bound; [done|]. destruct (bf_sign op); lia. }
  unfold decodeField in *. destruct (bf_sign op).
  - erewrite bind_run by (apply onBytes_run, getSignedBitfield_run; lia). cbv beta iota. unfold t in *.
    rewrite nine_bytes, i64_id by (done || lia). done.
  - erewrite bind_run by (apply onBytes_run, getUnsignedBitfield_run; lia). cbv beta iota. unfold t in *.
    rewrite nine_bytes, i64_id by (done || lia). done.
Qed.

(** ** The arguments *)

Section Arguments.
Context (g : genv) (db0 : redisDb) (E : fault → Prop).
Implicit Types (f : astore) (s : cmdState).

Lemma string2ll_range p v : string2ll p = Some v → LLONG_MIN ≤ v ≤ LLONG_MAX.
Proof. intros Hp. by apply string2ll_decimal in Hp as [? _]. Qed.

Lemma head_at p c : c ≠ NUL → bool_decide (at_ p 0 = c) = bool_decide (head p = Some c).
Proof.
  intros Hc. unfold at_. destruct p as [|x p]; cbn; apply bool_decide_ext; [by split; [intros <-|]|].
  split; [by intros ->|by intros [= ->]].
Qed.

Lemma wp_fail_reply {A} (r : reply) f out n (Q : option A → cmdState → Prop) s :
  runs g db0 f out n s → (∀ s', runs g db0 f (out ++ [r]) n s' → Q None s') →
  wp E (emit r ;; mret None) Q s.
Proof. intros Hs HQ. apply wp_bind. eapply wp_emit; [done|]. intros s' _ Hs'. by apply wp_ret, HQ. Qed.

Lemma wp_getBitOffset p hash bits f out n (Q : option Z → cmdState → Prop) s :
  runs g db0 f out n s →
  (∀ o, bitOffset p hash bits = Some o → 0 ≤ o < 2 ^ 32 → Q (Some o) s) →
  (∀ s', bitOffset p hash bits = None → runs g db0 f (out ++ [bitOffsetErr]) n s' → Q None s') →
  wp E (getBitOffsetFromArgument p hash bits) Q s.
Proof.
  intros Hs HQ HQ'. unfold getBitOffsetFromArgument. rewrite head_at by done.
  replace (drop 1 p) with (tail p) by (by destruct p).
  set (usehash := bool_decide (head p = Some "#"%char) && hash && (0 <? bits)).
  assert (Hspec : bitOffset p hash bits = v ← string2ll (if usehash then tail p else p);
    let v := if usehash then i64 (v * bits) else v in if bool_decide (0 ≤ v < 2 ^ 32) then Some v else None).
  { unfold bitOffset. fold usehash. destruct usehash; [|done]. by destruct (string2ll (tail p)). }
  destruct (string2ll (if usehash then tail p else p)) as [v|] eqn:Hv; cbn in Hspec.
  2:{ eapply wp_fail_reply; [done|]. intros s' Hs'. by apply HQ'. }
  set (o := if usehash then i64 (v * bits) else v) in *. apply string2ll_range in Hv.
  assert (LLONG_MIN ≤ o ≤ LLONG_MAX) as Ho by (unfold o; destruct usehash; [apply i64_range|done]).
  assert ((o <? 0) || (512 * 1024 * 1024 <=? Z.shiftr (u64 o) 3) = negb (bool_decide (0 ≤ o < 2 ^ 32))) as ->.
  { destruct (Z.ltb_spec o 0); [cbn; by rewrite bool_decide_false by lia|]. cbn [orb].
    rewrite u64_id, Z.shiftr_div_pow2 by (unfold ULLONG_MAX, LLONG_MAX in *; lia). change (2 ^ 3) with 8.
    case_bool_decide; cbn [negb].
    - apply Z.leb_gt, Z.div_lt_upper_bound; lia.
    - apply Z.leb_le, Z.div_le_lower_bound; lia. }
  case_bool_decide; cbn [negb].
  - by apply wp_ret, HQ.
  - eapply wp_fail_reply; [done|]. intros s' Hs'. by apply HQ'.
Qed.

Lemma wp_getBitfieldType p f out n (Q : option (bool * Z) → cmdState → Prop) s :
  runs g db0 f out n s →
  (∀ sign bits, fieldType p = Some (sign, bits) → 1 ≤ bits ≤ (if sign : bool then 64 else 63) → Q (Some (sign, bits)) s) →
  (∀ s', fieldType p = None → runs g db0 f (out ++ [bitfieldTypeErr]) n s' → Q None s') →
  wp E (getBitfieldTypeFromArgument p) Q s.
Proof.
  intros Hs HQ HQ'. unfold getBitfieldTypeFromArgument. rewrite !head_at by done.
  assert (Herr : fieldType p = None → wp E (emit bitfieldTypeErr ;; mret None) Q s).
  { intros Hn. eapply wp_fail_reply; [done|]. intros s' Hs'. by apply HQ'. }
  destruct p as [|c p]; [by apply Herr|]. cbn [head]. change (drop 1 (c :: p)) with p. unfold fieldType in *.
  assert (∀ x, bool_decide (Some c = Some x) = bool_decide (c = x)) as Hx.
  { intros x. apply bool_decide_ext. split; [by intros [= ->]|by intros ->]. }
  rewrite !Hx. clear Hx. destruct (bool_decide (c = "i"%char)) eqn:Hi; [|destruct (bool_decide (c = "u"%char)) eqn:Hu].
  - apply bool_decide_eq_true in Hi as ->. destruct (string2ll (cstr p)) as [m|]; [|by apply Herr].
    cbn [mbind option_bind andb negb] in *. rewrite orb_false_r.
    destruct (Z.ltb_spec m 1), (Z.ltb_spec 64 m); cbn [orb].
    1-3: by apply Herr; rewrite !bool_decide_false by naive_solver lia.
    apply wp_ret, HQ; [|lia]. by rewrite bool_decide_true by (split; [done|lia]).
  - apply bool_decide_eq_true in Hu as ->. destruct (string2ll (cstr p)) as [m|]; [|by apply Herr].
    cbn [mbind option_bind andb negb] in *. rewrite orb_false_r.
    destruct (Z.ltb_spec m 1), (Z.ltb_spec 63 m); cbn [orb].
    1-3: by apply Herr; rewrite !bool_decide_false by naive_solver lia.
    apply wp_ret, HQ; [|lia]. rewrite bool_decide_false by naive_solver. by rewrite bool_decide_true by (split; [done|lia]).
  - apply Herr. apply bool_decide_eq_false in Hi, Hu. destruct (string2ll (cstr p)); [|done]. cbn.
    by rewrite !bool_decide_false by naive_solver.
Qed.

End Arguments.

(** ** The commands *)

Lemma sdsgrowzero_padTo b n : 0 ≤ n → sdsgrowzero b n = padTo (Z.to_nat n) b.
Proof.
  intros Hn. unfold sdsgrowzero, padTo. case_match eqn:Hl.
  - replace (Z.to_nat n - length b)%nat with 0%nat by lia. cbn. by rewrite app_nil_r.
  - do 2 f_equal. lia.
Qed.

Section Commands.
Context (g : genv) (db0 : redisDb) (E : fault → Prop).
Implicit Types (f : astore) (s : cmdState).

Lemma wp_lookupStringForBit rc args k maxbit f out n (Q : option robj → cmdState → Prop) s :
  runs g db0 f out n s → args !! 1%nat = Some k → 0 ≤ maxbit →
  (∀ s', stringAt f k = None → runs g db0 f (out ++ [wrongtypeerr]) n s' → Q None s') →
  (∀ b e s', stringAt f k = Some (b, e) →
     let b' := padTo (Z.to_nat (maxbit / 8 + 1)) b in
     runs g db0 (aset k (AStr b') e f) out n s' → holds g k (Some (createRawStringObject b')) s' →
     expires (cs_db s') !! k = e → Q (Some (createRawStringObject b')) s') →
  wp E (lookupStringForBitCommand g rc args maxbit) Q s.
Proof.
  intros Hs Hk Hm HQ' HQ. unfold lookupStringForBitCommand. apply wp_bind. eapply wp_arg; [exact Hk|].
  rewrite Z.shiftr_div_pow2 by lia. change (2 ^ 3) with 8.
  assert (0 ≤ maxbit / 8) as Hdiv by (apply Z.div_pos; lia).
  apply wp_bind. eapply wp_lookupKeyWrite; [done|]. intros [o|] s1 Hs1 Hh.
  - assert (objOk o) as Ho by (eapply (runs_string g db0 f out n s1 k); [done|apply Hh]).
    pose proof (runs_holds g db0 f out n s1 k (Some o) Hs1 Hh) as Hf. cbn in Hf.
    apply wp_bind. eapply wp_checkType; [done|..].
    + intros Ht. destruct (Ho Ht) as [b Hb]. rewrite (string_obj_view o b Hb) in Hf.
      apply wp_bind. eapply wp_dbUnshareStringValue; [done..|]. intros s2 Hs2 Hh2 He2.
      apply wp_bind. apply wp_ret. rewrite sdsgrowzero_padTo by lia.
      apply wp_bind. eapply wp_storeObj; [done|done|by exists (padTo (Z.to_nat (maxbit / 8 + 1)) b); constructor|].
      intros s3 Hs3 Hh3 He3. apply wp_ret. rewrite He2 in Hs3.
      apply (HQ b (expires (cs_db s1) !! k)); [unfold stringAt; by rewrite Hf|done|done|by rewrite He3, He2].
    + intros s2 Ht Hs2. apply wp_ret, HQ'; [|done]. unfold stringAt. rewrite Hf. unfold viewObj. by rewrite bool_decide_false.
  - pose proof (runs_holds g db0 f out n s1 k None Hs1 Hh) as Hf. cbn in Hf.
    apply wp_bind. eapply wp_dbAdd; [done|done|by eexists; constructor|]. intros s2 Hs2 Hh2 He2. apply wp_ret.
    assert (replicate (Z.to_nat (maxbit / 8 + 1)) NUL = padTo (Z.to_nat (maxbit / 8 + 1)) []) as Heq
      by (unfold padTo; cbn; by rewrite Nat.sub_0_r).
    rewrite Heq in *. apply (HQ [] None); [unfold stringAt; by rewrite Hf|done|done|].
    rewrite He2. by eapply runs_fresh_expire; [|apply Hh].
Qed.

Lemma wp_getLongMsg b o msg f out n (Q : option Z → cmdState → Prop) s :
  runs g db0 f out n s → string_obj o b →
  (∀ v, string2ll b = Some v → Q (Some v) s) →
  (∀ s', string2ll b = None → runs g db0 f (out ++ [RError msg]) n s' → Q None s') →
  wp E (getLongOrReplyMsg (Some o) msg) Q s.
Proof.
  intros Hs Ho HQ HQ'. unfold getLongOrReplyMsg. apply wp_bind.
  eapply wp_run_ok; [by apply getLongLongFromObject_run|]. destruct (string2ll b) as [v|] eqn:Hv.
  - pose proof (string2ll_range _ _ Hv). rewrite (proj2 (Z.ltb_ge v LLONG_MIN)), (proj2 (Z.ltb_ge LLONG_MAX v)) by lia.
    by apply wp_ret, HQ.
  - eapply wp_fail_reply; [done|]. intros s' Hs'. by apply HQ'.
Qed.

(** The test of SETBIT on its value. *)
Lemma bitOf_test v : negb (Z.land v (Z.lnot 1) =? 0) = bool_decide (bitOf v = None).
Proof.
  assert (Z.land v (Z.lnot 1) = 0 ↔ v = 0 ∨ v = 1) as Hv.
  { rewrite <-Z.ldiff_land. change 1 with (Z.ones 1) at 1. split.
    - intros H0. assert (v = v mod 2) as ->; [|pose proof (Z.mod_pos_bound v 2); lia].
      change 2 with (2 ^ 1). rewrite <-Z.land_ones by lia. apply Z.bits_inj'. intros i Hi.
      assert (Z.testbit (Z.ldiff v (Z.ones 1)) i = false) as Hb by (rewrite H0; apply Z.testbit_0_l).
      rewrite Z.ldiff_spec in Hb. rewrite Z.land_spec. destruct (Z.testbit v i), (Z.testbit (Z.ones 1) i); done.
    - intros [-> | ->]; done. }
  unfold bitOf. destruct (Z.eqb_spec v 0) as [->|]; [done|]. destruct (Z.eqb_spec v 1) as [->|]; [done|].
  rewrite bool_decide_true by done. destruct (Z.eqb_spec (Z.land v (Z.lnot 1)) 0) as [H0|]; [|done].
  apply Hv in H0. lia.
Qed.

Lemma bitOf_b2z v on : bitOf v = Some on → v = Z.b2z on.
Proof. unfold bitOf. destruct (Z.eqb_spec v 0); [intros [= <-]; done|]. destruct (Z.eqb_spec v 1); [intros [= <-]; done|done]. Qed.

Lemma ucharOf_land z : ucharOf (Z.land z 255) = ucharOf z.
Proof. unfold ucharOf. rewrite land_255, Z.mod_mod by lia. done. Qed.

End Commands.

Section Meets.
Context (g : genv) (db0 : redisDb).
Implicit Types (f : astore) (s : cmdState).

(** The bit of a byte, as the code tests it. *)
Lemma bit_test c b : 0 ≤ b → (if Z.land (uchar c) (Z.shiftl 1 b) =? 0 then 0 else 1) = Z.b2z (Z.testbit (uchar c) b).
Proof.
  intros Hb. pose proof (land_pow2_eqb (uchar c) b Hb) as He. rewrite Z.land_comm, Z.shiftl_1_l.
  destruct (Z.testbit (uchar c) b); apply (f_equal negb) in He; rewrite negb_involutive in He; by rewrite He.
Qed.

Lemma setbit_meets rc f n k a v : meets g db0 (setbitCommand g rc [n; k; a; v]) f (setbitSpec f k a v).
Proof.
  intros s Hs. unfold setbitCommand, setbitSpec. next_arg. apply wp_bind. eapply wp_getBitOffset; [done|..].
  2:{ intros s1 -> Hs1. by apply wp_ret. }
  intros o -> Ho. next_arg. apply wp_bind. eapply wp_getLongMsg; [done|apply createStringObject_string|..].
  2:{ intros s1 -> Hs1. by apply wp_ret. }
  intros on ->. rewrite bitOf_test. cbn [mbind option_bind]. destruct (bitOf on) as [bit|] eqn:Hbit.
  2:{ rewrite bool_decide_true by done. reply Hs. }
  rewrite bool_decide_false by done. apply bitOf_b2z in Hbit as ->. apply wp_bind.
  eapply wp_lookupStringForBit; [done|done|lia|..].
  { intros s1 -> Hs1. by apply wp_ret. }
  intros b e s1 -> b' Hs1 Hh He. next_arg. apply wp_bind, wp_ret.
  pose proof (bit_position o ltac:(lia)) as [Hbyte Hpos]. rewrite Hbyte, Hpos.
  pose proof (Z.div_mod o 8 ltac:(lia)) as Hd. pose proof (Z.mod_pos_bound o 8 ltac:(lia)).
  destruct (lookup_bitsOf b' (Z.to_nat o)) as (c & Hc & Hbit).
  { unfold b'. rewrite length_padTo. lia. }
  apply wp_bind. eapply wp_deref; [exact Hc|]. cbv zeta.
  replace (Z.land (Z.b2z bit) 1) with (Z.b2z bit) by (by destruct bit).
  rewrite <-ucharOf_land. fold (withBit c (7 - Z.of_nat (Z.to_nat o mod 8)) (Z.b2z bit)).
  rewrite bit_test by (pose proof (Nat.mod_upper_bound (Z.to_nat o) 8); lia).
  fold b'. rewrite Hbit. cbn [default].
  set (b2 := <[(Z.to_nat o / 8)%nat := _]> b').
  assert (bytesOf (<[Z.to_nat o := bit]> (bitsOf b')) = b2) as ->.
  { unfold b2. by rewrite <-(bitsOf_insert b' (Z.to_nat o) c bit Hc), bytesOf_bitsOf. }
  apply wp_bind. eapply wp_storeObj; [done|done|by exists b2; constructor|]. intros s2 Hs2 Hh2 He2.
  apply wp_bind. eapply wp_addDirty; [done|]. intros s3 _ Hs3. rewrite He in Hs3.
  eapply wp_emit; [exact Hs3|]. intros s4 _ Hs4. eapply runs_ext; [|exact Hs4]. apply aset_aset.
Qed.

(** The bytes of a string that a command has found. *)
Lemma wp_readOnly E o b (Q : bytes → cmdState → Prop) s :
  string_obj o b → Q b s → wp E (getObjectReadOnlyString o) Q s.
Proof.
  intros Ho HQ. unfold getObjectReadOnlyString. apply wp_bind, wp_serverAssert.
  { apply bool_decide_eq_true. by eapply string_obj_type. }
  destruct Ho as [b|b|v Hv]; [done..|]. rewrite bool_decide_true by done. apply wp_bind, wp_ret, wp_ret.
  by rewrite ll2buf_decimal by (done || (unfold LONG_STR_SIZE; lia)).
Qed.

Lemma getbit_meets ro f n k a : meets g db0 (getbitCommand g ro [n; k; a]) f (getbitSpec g ro f k a).
Proof.
  intros s Hs. unfold getbitCommand, getbitSpec. next_arg. apply wp_bind. eapply wp_getBitOffset; [done|..].
  2:{ intros s1 -> Hs1. by apply wp_ret. }
  intros o -> Ho. next_arg. apply wp_bind. eapply wp_lookupKeyReadOrReply; [done|..].
  { intros s1 -> Hs1. by apply wp_ret. }
  intros ob e s1 Hr Hok Hs1. rewrite Hr. apply wp_bind. eapply wp_checkType; [done|..].
  2:{ intros s2 Ht Hs2. unfold viewObj. rewrite bool_decide_false by done. by apply wp_ret. }
  intros Ht. destruct (Hok Ht) as [b Hb]. rewrite (string_obj_view ob b Hb). cbv zeta. apply wp_bind.
  assert (Hstr : ∀ Q : bytes → cmdState → Prop, Q b s1 → wp (λ x, answers f (RInt (Z.b2z (default false (bitsOf b !! Z.to_nat o)))) = Fault x)
    (if sdsEncodedObject ob then ptrSds ob "getbitCommand"
     else m ← ptrLong ob "getbitCommand"; mret (ll2buf 32 m)) Q s1).
  { intros Q HQ. destruct Hb as [b|b|v Hv]; [done..|]. rewrite <-(ll2buf_decimal 32) in HQ by (done || lia).
    by apply wp_bind, wp_ret, wp_ret. }
  apply Hstr. pose proof (bit_position o ltac:(lia)) as [Hbyte Hpos]. rewrite Hbyte, Hpos. clear Hstr.
  pose proof (Nat.mod_upper_bound (Z.to_nat o) 8 ltac:(lia)). pose proof (Nat.div_mod_eq (Z.to_nat o) 8).
  assert ((if (if bool_decide (Z.to_nat o / 8 < length b)%nat
               then Z.land (uchar (at_ b (Z.to_nat o / 8))) (Z.shiftl 1 (7 - Z.of_nat (Z.to_nat o mod 8))) else 0) =? 0
           then 0 else 1) = Z.b2z (default false (bitsOf b !! Z.to_nat o))) as ->; [|reply Hs1].
  case_bool_decide as Hl.
  - destruct (lookup_bitsOf b (Z.to_nat o)) as (c & Hc & Hbit); [lia|]. rewrite Hbit. cbn [default].
    unfold at_. rewrite Hc. apply bit_test. lia.
  - by rewrite lookup_ge_None_2 by (rewrite length_bitsOf; lia).
Qed.

(** *** BITCOUNT *)

Lemma wp_bitcountReply `{Host} E addr b start end_ f out n (Q : unit → cmdState → Prop) s :
  runs g db0 f out n s →
  (∀ s', runs g db0 f (out ++ [RInt (i64 (ones (bitsOf (take (Z.to_nat (end_ - start + 1)) (drop (Z.to_nat start) b)))))]) n s' →
         Q tt s') →
  wp E (bitcountReply addr b start end_) Q s.
Proof.
  intros Hs HQ. unfold bitcountReply. destruct (Z.ltb_spec end_ start).
  - eapply wp_emit; [done|]. intros s' _ Hs'. apply HQ. by replace (Z.to_nat (end_ - start + 1)) with 0%nat by lia.
  - eapply wp_emit; [done|]. intros s' _ Hs'. apply HQ. rewrite redisPopcount_ones in Hs'.
    assert (∀ z, i64 (u64 z) = i64 z) as Hi64; [|by rewrite Hi64 in Hs'].
    intros z. unfold i64, u64. by rewrite Zplus_mod_idemp_l.
Qed.

Lemma bitRange_clamp n (s e : Z) : bitRange n s e =
  (Z.max 0 (if s <? 0 then n + s else s), Z.min (n - 1) (Z.max 0 (if e <? 0 then n + e else e))).
Proof.
  unfold bitRange. cbv zeta. set (s1 := if s <? 0 then n + s else s). set (e1 := if e <? 0 then n + e else e).
  f_equal; repeat case_match; lia.
Qed.

Lemma bitRange_last n (s : Z) : 0 ≤ n → bitRange n s (n - 1) = bitRange n s (-1).
Proof. intros Hn. rewrite !bitRange_clamp. f_equal. repeat case_match; lia. Qed.

Lemma bitRange_whole n : 0 ≤ n → bitRange n 0 (-1) = (0, n - 1).
Proof. intros Hn. rewrite bitRange_clamp. cbn. f_equal; lia. Qed.

Lemma bitRange_rangeOf (b : bytes) (s e : Z) :
  (if (s <? 0) && (e <? 0) && (e <? s) then [] else
   let '(s, e) := bitRange (Z.of_nat (length b)) s e in take (Z.to_nat (e - s + 1)) (drop (Z.to_nat s) b)) = rangeOf b s e.
Proof.
  rewrite bitRange_clamp. unfold rangeOf. rewrite <-!andb_assoc, (andb_comm (e <? 0)).
  by destruct ((s <? 0) && ((e <? s) && (e <? 0))).
Qed.

Lemma bitcount_meets `{Host} addr ro f n k l :
  meets g db0 (bitcountCommand addr g ro (n :: k :: l)) f (bitcountSpec g ro f k l).
Proof.
  intros s Hs. unfold bitcountCommand, bitcountSpec. next_arg. apply wp_bind.
  eapply wp_lookupKeyReadOrReply; [done|..].
  { intros s1 -> Hs1. by apply wp_ret. }
  intros ob e s1 Hr Hok Hs1. rewrite Hr. apply wp_bind. eapply wp_checkType; [done|..].
  2:{ intros s2 Ht Hs2. unfold viewObj. rewrite bool_decide_false by done. by apply wp_ret. }
  intros Ht. destruct (Hok Ht) as [b Hb]. rewrite (string_obj_view ob b Hb). apply wp_bind.
  eapply wp_readOnly; [done|]. destruct l as [|a1 [|a2 [|a3 l]]]; cbn [length].
  - change (Z.of_nat 2 =? 4) with false. change (Z.of_nat 2 =? 2) with true. cbv iota.
    eapply wp_bitcountReply; [done|]. intros s2 Hs2. cbn [Z.to_nat] in Hs2. rewrite drop_0, take_ge in Hs2 by lia. done.
  - change (Z.of_nat 3 =? 4) with false. change (Z.of_nat 3 =? 2) with false. cbv iota. reply Hs1.
  - change (Z.of_nat 4 =? 4) with true. cbv iota. next_arg. apply wp_bind.
    eapply wp_getLong; [done|apply createStringObject_string| |].
    2:{ intros s2 -> Hs2. by apply wp_ret. }
    intros v1 -> _. next_arg. apply wp_bind. eapply wp_getLong; [done|apply createStringObject_string| |].
    2:{ intros s2 -> Hs2. by apply wp_ret. }
    intros v2 -> _. rewrite <-bitRange_rangeOf. destruct ((v1 <? 0) && (v2 <? 0) && (v2 <? v1)); [reply Hs1|].
    destruct (bitRange (Z.of_nat (length b)) v1 v2) as [st en]. eapply wp_bitcountReply; [done|]. done.
  - rewrite (proj2 (Z.eqb_neq _ 4)), (proj2 (Z.eqb_neq _ 2)) by lia. reply Hs1.
Qed.

(** *** BITPOS *)

Lemma wp_bitposReply `{Host} E addr (b : bytes) bit start end_ given f out n (Q : unit → cmdState → Prop) s :
  runs g db0 f out n s → 0 ≤ start → end_ < Z.of_nat (length b) →
  let pos := if end_ <? start then -1
    else match firstBit bit (bitsOf (take (Z.to_nat (end_ - start + 1)) (drop (Z.to_nat start) b))) with
         | Some i => 8 * start + Z.of_nat i
         | None => if bit || given then -1 else 8 * (end_ + 1)
         end in
  (∀ s', runs g db0 f (out ++ [RInt pos]) n s' → Q tt s') →
  wp E (bitposReply addr b (Z.b2z bit) start end_ given) Q s.
Proof.
  intros Hs Hst Hen pos HQ. unfold bitposReply. unfold pos in HQ. destruct (Z.ltb_spec end_ start).
  { eapply wp_emit; [done|]. intros s' _. apply HQ. }
  set (sub := take (Z.to_nat (end_ - start + 1)) (drop (Z.to_nat start) b)) in *.
  assert (Z.of_nat (length sub) = end_ - start + 1) as Hlen by (unfold sub; rewrite length_take, length_drop; lia).
  apply wp_bind. eapply wp_run_ok.
  { cbv beta. replace (Z.b2z bit) with (if bit then 1 else 0) by done. by rewrite redisBitpos_spec. }
  unfold bitposSpec. destruct (firstBit bit (bitsOf sub)) as [i|] eqn:Hf.
  - apply firstBit_lt in Hf. rewrite length_bitsOf in Hf.
    rewrite (proj2 (Z.eqb_neq (Z.of_nat i) ((end_ - start + 1) * 8))), andb_false_r by lia.
    rewrite (proj2 (Z.eqb_neq (Z.of_nat i) (-1))) by lia. cbn [negb].
    eapply wp_emit; [done|]. intros s' _ Hs'. apply HQ. by replace (8 * start + Z.of_nat i) with (Z.of_nat i + start * 8) by lia.
  - destruct bit; cbn [orb Z.b2z] in *.
    + rewrite andb_false_r. cbn [andb negb]. change (-1 =? -1) with true. eapply wp_emit; [done|]. intros s' _. apply HQ.
    + rewrite Hlen, (Z.mul_comm 8), (Z.eqb_refl ((end_ - start + 1) * 8)), !andb_true_r.
      change (0 =? 0) with true. destruct given.
      * eapply wp_emit; [done|]. intros s' _. apply HQ.
      * rewrite (proj2 (Z.eqb_neq ((end_ - start + 1) * 8) (-1))) by lia. cbn [negb].
        eapply wp_emit; [done|]. intros s' _ Hs'. apply HQ.
        by replace (8 * (end_ + 1)) with ((end_ - start + 1) * 8 + start * 8) by lia.
Qed.

Lemma wp_bitposRange `{Host} E addr (b : bytes) bit (v1 v2 : Z) given f (Q : unit → cmdState → Prop) s :
  runs g db0 f [] 0 s →
  (∀ s', runs g db0 f [RInt (bitposIn bit b v1 v2 given)] 0 s' → Q tt s') →
  wp E (let '(start, end_) := bitRange (Z.of_nat (length b)) v1 v2 in
        bitposReply addr b (Z.b2z bit) start end_ given) Q s.
Proof.
  intros Hs HQ. rewrite bitRange_clamp. eapply wp_bitposReply; [done|lia|lia|exact HQ].
Qed.

Lemma bitpos_meets `{Host} addr ro f n k a l :
  meets g db0 (bitposCommand addr g ro (n :: k :: a :: l)) f (bitposCmdSpec g ro f k a l).
Proof.
  intros s Hs. unfold bitposCommand, bitposCmdSpec. next_arg. apply wp_bind.
  eapply wp_getLong; [done|apply createStringObject_string| |].
  2:{ intros s1 -> Hs1. by apply wp_ret. }
  intros v -> _. destruct (bitOf v) as [bit|] eqn:Hbit.
  2:{ unfold bitOf in Hbit. destruct (v =? 0), (v =? 1); try done. reply Hs. }
  apply bitOf_b2z in Hbit as ->. replace (negb (Z.b2z bit =? 0) && negb (Z.b2z bit =? 1)) with false by (by destruct bit).
  next_arg. apply wp_bind. eapply wp_lookupKeyRead; [done|]. intros [ob|] s1 Hs1 Hr Hd; rewrite Hr; cbn [fmap option_fmap option_map].
  2:{ replace (if Z.b2z bit =? 0 then 0 else -1) with (if bit then -1 else 0) by (by destruct bit). reply Hs1. }
  assert (objOk ob) as Hok by (eapply (runs_string g db0 f _ _ s1 k); [done|by apply Hd]).
  apply wp_bind. eapply wp_checkType; [done|..].
  2:{ intros s2 Ht Hs2. unfold viewObj. rewrite bool_decide_false by done. by apply wp_ret. }
  intros Ht. destruct (Hok Ht) as [b Hb]. rewrite (string_obj_view ob b Hb). apply wp_bind.
  eapply wp_readOnly; [done|]. destruct l as [|a1 [|a2 [|a3 l]]]; cbn [length].
  - change ((Z.of_nat 3 =? 4) || (Z.of_nat 3 =? 5)) with false. change (Z.of_nat 3 =? 3) with true. cbv iota.
    replace (bitposReply addr b (Z.b2z bit) 0 (Z.of_nat (length b) - 1) false) with
      (let '(start, end_) := bitRange (Z.of_nat (length b)) 0 (-1) in bitposReply addr b (Z.b2z bit) start end_ false)
      by (by rewrite bitRange_whole by lia).
    eapply wp_bitposRange; [done|]. by intros s2 Hs2.
  - change ((Z.of_nat 4 =? 4) || (Z.of_nat 4 =? 5)) with true. change (Z.of_nat 4 =? 5) with false. cbv iota.
    next_arg. apply wp_bind. eapply wp_getLong; [done|apply createStringObject_string| |].
    2:{ intros s2 -> Hs2. by apply wp_ret. }
    intros v1 -> _. apply wp_bind, wp_ret. rewrite bitRange_last by lia.
    eapply wp_bitposRange; [done|]. by intros s2 Hs2.
  - change ((Z.of_nat 5 =? 4) || (Z.of_nat 5 =? 5)) with true. change (Z.of_nat 5 =? 5) with true. cbv iota.
    next_arg. apply wp_bind. eapply wp_getLong; [done|apply createStringObject_string| |].
    2:{ intros s2 -> Hs2. by apply wp_ret. }
    intros v1 -> _. apply wp_bind. next_arg. eapply wp_getLong; [done|apply createStringObject_string| |].
    2:{ intros s2 -> Hs2. by apply wp_ret. }
    intros v2 -> _. eapply wp_bitposRange; [done|]. by intros s2 Hs2.
  - rewrite (proj2 (Z.eqb_neq _ 4)), (proj2 (Z.eqb_neq _ 5)), (proj2 (Z.eqb_neq _ 3)) by lia. reply Hs1.
Qed.


(** *** BITOP *)

Lemma wp_bitopLoad ro E keys f out n (Q : option (list (option bytes)) → cmdState → Prop) s :
  runs g db0 f out n s →
  (∀ l s', sources g ro f keys = Some (default [] <$> l) → runs g db0 f out n s' → Q (Some l) s') →
  (∀ s', sources g ro f keys = None → runs g db0 f (out ++ [wrongtypeerr]) n s' → Q None s') →
  wp E (bitopLoad g ro keys) Q s.
Proof.
  revert Q s. induction keys as [|k keys IH]; intros Q s Hs HQ HQ'; cbn [bitopLoad sources] in *.
  { apply wp_ret. by apply (HQ []). }
  apply wp_bind. eapply wp_lookupKeyRead; [done|]. intros [o|] s1 Hs1 Hr Hd; rewrite Hr in *; cbn [fmap option_fmap option_map] in *.
  - assert (objOk o) as Hok by (eapply (runs_string g db0 f _ _ s1 k); [done|by apply Hd]).
    apply wp_bind. eapply wp_checkType; [done|..].
    + intros Ht. destruct (Hok Ht) as [b Hb]. rewrite (string_obj_view o b Hb) in *.
      apply wp_bind. eapply wp_run_ok; [by apply getDecodedObject_run|]. apply wp_bind. apply IH; [done|..].
      * intros l s2 Hl Hs2. apply wp_ret. apply (HQ (Some b :: l)); [by rewrite Hl|done].
      * intros s2 Hl Hs2. apply wp_ret, HQ'; [by rewrite Hl|done].
    + intros s2 Ht Hs2. apply wp_ret, HQ'; [|done]. unfold viewObj. by rewrite bool_decide_false.
  - apply wp_bind. apply IH; [done|..].
    + intros l s2 Hl Hs2. apply wp_ret. apply (HQ (None :: l)); [by rewrite Hl|done].
    + intros s2 Hl Hs2. apply wp_ret, HQ'; [by rewrite Hl|done].
Qed.

Lemma bitop_meets `{Host} ro f n opname target keys :
  meets g db0 (bitopCommand g ro (n :: opname :: target :: keys)) f (bitopSpec g ro f opname target keys).
Proof.
  intros s Hs. unfold bitopCommand, bitopSpec. next_arg. next_arg. destruct (bitopOf opname) as [op|]; [|reply Hs].
  replace (Z.of_nat (length (n :: opname :: target :: keys)) =? 4) with (bool_decide (length keys = 1%nat)).
  2:{ cbn [length]. case_bool_decide; symmetry; [apply Z.eqb_eq|apply Z.eqb_neq]; lia. }
  destruct (bool_decide (op = BITOP_NOT) && negb (bool_decide (length keys = 1%nat))); [reply Hs|].
  change (drop 3 (n :: opname :: target :: keys)) with keys. apply wp_bind. eapply wp_bitopLoad; [done|..].
  2:{ intros s1 -> Hs1. by apply wp_ret. }
  intros l s1 -> Hs1. cbv zeta. rewrite maxLen_longest. case_bool_decide as Hz.
  - rewrite Hz. change (negb (Z.of_nat 0 =? 0)) with false. cbv iota. apply wp_bind, wp_bind.
    eapply wp_dbSyncDelete_any; [done|]. intros b s2 Hs2 _. apply wp_ret. apply wp_bind.
    eapply wp_addDirty; [done|]. intros s3 _ Hs3. reply Hs3.
  - rewrite (proj2 (Z.eqb_neq (Z.of_nat (longest (default [] <$> l))) 0)) by lia. cbn [negb].
    destruct (default [] <$> l) as [|src0 srcs] eqn:Hl; [done|]. rewrite (bitopResult_bits op l src0 srcs Hl).
    apply wp_bind. eapply wp_setKey; [done|by eexists; constructor|]. intros s2 Hs2.
    apply wp_bind. eapply wp_addDirty; [done|]. intros s3 _ Hs3. reply Hs3.
Qed.

(** *** BITFIELD *)

(** What holds of the operations that the loop over the arguments collects. *)
Record planOk (pl : bitfieldPlan) : Prop := {
  plan_ops : Forall opOk (pl_ops pl);
  plan_readonly : pl_readonly pl = forallb (λ op, negb (isWrite op)) (pl_ops pl);
  plan_highest : 0 ≤ pl_highest pl;
  plan_inside : ∀ op, op ∈ pl_ops pl → isWrite op = true → bf_offset op + bf_bits op - 1 ≤ pl_highest pl }.

Lemma planOk_start ow : planOk (mkPlan [] ow true 0).
Proof. split; cbn; [constructor|done|lia|]. by intros op ?%not_elem_of_nil. Qed.

Lemma planOk_add op pl : opOk op → planOk pl → planOk (addOp op pl).
Proof.
  intros Hop [Hops Hro Hh Hin].
  assert (Hops' : Forall opOk (pl_ops pl ++ [op])) by (apply Forall_app; auto).
  assert (Hro' : ∀ b, isWrite op = negb b →
    pl_readonly pl && b = forallb (λ op, negb (isWrite op)) (pl_ops pl ++ [op])).
  { intros b Hb. rewrite forallb_app, Hro. cbn. by rewrite Hb, negb_involutive, andb_true_r. }
  unfold addOp. destruct (bf_opcode op) eqn:Hc; split; cbn [pl_ops pl_readonly pl_highest pl_ow]; try done.
  1: by rewrite <-(Hro' true), andb_true_r by (unfold isWrite; by rewrite Hc).
  1: { intros op' [Hin'| ->%list_elem_of_singleton]%elem_of_app Hw; [by apply Hin|]. unfold isWrite in Hw. by rewrite Hc in Hw. }
  all: try (by rewrite <-(Hro' false), andb_false_r by (unfold isWrite; by rewrite Hc)).
  all: try (case_match; lia).
  all: intros op' [Hin'| ->%list_elem_of_singleton]%elem_of_app Hw; [specialize (Hin op' Hin' Hw)|]; case_match; lia.
Qed.

Lemma wp_typeAndOffset E ty off f out n (Q : option (bool * Z * Z) → cmdState → Prop) s :
  runs g db0 f out n s →
  (∀ sign bits o, fieldType ty = Some (sign, bits) → bitOffset off true bits = Some o →
     (∀ i code ow, LLONG_MIN ≤ i ≤ LLONG_MAX → opOk (mkBitfieldOp o i code ow bits sign)) →
     Q (Some (sign, bits, o)) s) →
  (∀ e s', (∀ code ow v, fieldArgs code ow ty off v = inr e) → runs g db0 f (out ++ [e]) n s' → Q None s') →
  wp E (typeAndOffset ty off) Q s.
Proof.
  intros Hs HQ HQ'. unfold typeAndOffset. apply wp_bind. eapply wp_getBitfieldType; [done|..].
  2:{ intros s1 Ht Hs1. apply wp_ret. eapply HQ'; [|done]. intros. unfold fieldArgs. by rewrite Ht. }
  intros sign bits Ht Hb. apply wp_bind. eapply wp_getBitOffset; [done|..].
  2:{ intros s1 Ho Hs1. apply wp_ret. eapply HQ'; [|done]. intros. unfold fieldArgs. by rewrite Ht, Ho. }
  intros o Ho Hr. apply wp_ret, HQ; [done..|]. intros i code ow Hi. split; cbn; [lia|done|done].
Qed.

Definition subcmd (x : bytes) : bytes := tolower <$> cstr x.

Lemma fieldPlan_overflow sub name l pl : subcmd sub = B "overflow" →
  fieldPlan (sub :: name :: l) pl =
  match owtypeOf name with
  | Some ow => fieldPlan l (mkPlan (pl_ops pl) ow (pl_readonly pl) (pl_highest pl))
  | None => inr (RError "Invalid OVERFLOW type specified")
  end.
Proof. unfold subcmd. intros Hs. cbn [fieldPlan]. by rewrite Hs, bool_decide_true. Qed.

Lemma fieldPlan_get sub ty off l pl : subcmd sub = B "get" →
  fieldPlan (sub :: ty :: off :: l) pl =
  match fieldArgs BITFIELDOP_GET (pl_ow pl) ty off None with
  | inl op => fieldPlan l (addOp op pl)
  | inr e => inr e
  end.
Proof. unfold subcmd. intros Hs. cbn [fieldPlan]. by rewrite Hs, bool_decide_false, bool_decide_true. Qed.

Definition writeCode (x : bytes) : option opcode :=
  if bool_decide (subcmd x = B "set") then Some BITFIELDOP_SET
  else if bool_decide (subcmd x = B "incrby") then Some BITFIELDOP_INCRBY else None.

Lemma fieldPlan_write sub code ty off v l pl : writeCode sub = Some code →
  fieldPlan (sub :: ty :: off :: v :: l) pl =
  match fieldArgs code (pl_ow pl) ty off (Some v) with
  | inl op => fieldPlan l (addOp op pl)
  | inr e => inr e
  end.
Proof.
  unfold writeCode, subcmd. set (t := tolower <$> cstr sub). intros Hs.
  assert (t = B "set" ∧ code = BITFIELDOP_SET ∨ t = B "incrby" ∧ code = BITFIELDOP_INCRBY) as Ht.
  { case_bool_decide; [naive_solver|]. case_bool_decide; naive_solver. }
  cbn [fieldPlan]. fold t. clear Hs. clearbody t.
  destruct Ht as [[-> ->]|[-> ->]].
  - by rewrite (bool_decide_false (B "set" = B "overflow")), (bool_decide_false (B "set" = B "get")), (bool_decide_true (B "set" = B "set")) by done.
  - by rewrite (bool_decide_false (B "incrby" = B "overflow")), (bool_decide_false (B "incrby" = B "get")),
      (bool_decide_false (B "incrby" = B "set")), (bool_decide_true (B "incrby" = B "incrby")) by done.
Qed.

Lemma fieldPlan_syntax sub l pl :
  (subcmd sub = B "get" → (length l < 2)%nat) → (writeCode sub ≠ None → (length l < 3)%nat) →
  (subcmd sub = B "overflow" → (length l < 1)%nat) → fieldPlan (sub :: l) pl = inr syntaxErr.
Proof.
  unfold writeCode, subcmd. intros Hg Hw Ho. destruct l as [|a [|b [|c l]]]; cbn [fieldPlan length] in *; try done.
  - rewrite bool_decide_false; [done|]. intros H%Ho. lia.
  - rewrite !bool_decide_false; [done|intros H%Hg; lia|intros H%Ho; lia].
  - rewrite (bool_decide_false (_ = B "overflow")), (bool_decide_false (_ = B "get")) by (intros H%Hg || intros H%Ho; lia).
    case_bool_decide; [specialize (Hw ltac:(done)); lia|]. case_bool_decide; [specialize (Hw ltac:(done)); lia|done].
Qed.

(** The loop collects the operations of [l], or replies the first error. *)
Definition parses (l : list bytes) : Prop := ∀ E pl f out n (Q : option bitfieldPlan → cmdState → Prop) s,
  runs g db0 f out n s → planOk pl →
  (∀ pl', fieldPlan l pl = inl pl' → planOk pl' → Q (Some pl') s) →
  (∀ e s', fieldPlan l pl = inr e → runs g db0 f (out ++ [e]) n s' → Q None s') →
  wp E (bitfieldParse l pl) Q s.

Lemma wp_parseGet E sub ty off l pl f out n (Q : option bitfieldPlan → cmdState → Prop) s :
  subcmd sub = B "get" → parses l → runs g db0 f out n s → planOk pl →
  (∀ pl', fieldPlan (sub :: ty :: off :: l) pl = inl pl' → planOk pl' → Q (Some pl') s) →
  (∀ e s', fieldPlan (sub :: ty :: off :: l) pl = inr e → runs g db0 f (out ++ [e]) n s' → Q None s') →
  wp E (t ← typeAndOffset ty off;
        match t with
        | None => mret None
        | Some (sign, bits, bitoffset) =>
            bitfieldParse l (addOp (mkBitfieldOp bitoffset 0 BITFIELDOP_GET (pl_ow pl) bits sign) pl)
        end) Q s.
Proof.
  intros Hsub IH Hs Hpl. rewrite fieldPlan_get by done. intros HQ HQ'. apply wp_bind. eapply wp_typeAndOffset; [done|..].
  - intros sign bits o Ht Ho Hop. unfold fieldArgs in HQ, HQ'. rewrite Ht, Ho in HQ, HQ'.
    eapply IH; [done| |done|done]. apply planOk_add; [|done]. apply Hop. unfold LLONG_MIN, LLONG_MAX. lia.
  - intros e s1 He Hs1. rewrite He in HQ'. by eapply wp_ret, HQ'.
Qed.

Lemma wp_parseWrite E sub code ty off v l pl f out n (Q : option bitfieldPlan → cmdState → Prop) s :
  writeCode sub = Some code → parses l → runs g db0 f out n s → planOk pl →
  (∀ pl', fieldPlan (sub :: ty :: off :: v :: l) pl = inl pl' → planOk pl' → Q (Some pl') s) →
  (∀ e s', fieldPlan (sub :: ty :: off :: v :: l) pl = inr e → runs g db0 f (out ++ [e]) n s' → Q None s') →
  wp E (t ← typeAndOffset ty off;
        match t with
        | None => mret None
        | Some (sign, bits, bitoffset) =>
            i ← getLongLongFromObjectOrReply (Some (createStringObject v));
            match i with
            | None => mret None
            | Some i => bitfieldParse l (addOp (mkBitfieldOp bitoffset i code (pl_ow pl) bits sign) pl)
            end
        end) Q s.
Proof.
  intros Hsub IH Hs Hpl. rewrite (fieldPlan_write sub code) by done. intros HQ HQ'. apply wp_bind.
  eapply wp_typeAndOffset; [done|..].
  2:{ intros e s1 He Hs1. rewrite He in HQ'. by eapply wp_ret, HQ'. }
  intros sign bits o Ht Ho Hop. unfold fieldArgs in HQ, HQ'. rewrite Ht, Ho in HQ, HQ'.
  apply wp_bind. eapply wp_getLongLong; [done|apply createStringObject_string|..].
  - intros i Hi Hr. rewrite Hi in HQ, HQ'. eapply IH; [done| |done|done]. by apply planOk_add; [apply Hop|].
  - intros s1 Hi Hs1. rewrite Hi in HQ'. by eapply wp_ret, HQ'.
Qed.

Lemma wp_bitfieldParse l : parses l.
Proof.
  induction l as [l IH] using (well_founded_induction (well_founded_ltof _ length)).
  unfold ltof in IH. intros E pl f out n Q s Hs Hpl HQ HQ'. destruct l as [|sub l]; [by apply wp_ret, HQ|]. cbn [bitfieldParse].
  change (strcaseeq sub (B "get")) with (bool_decide (subcmd sub = B "get")).
  change (strcaseeq sub (B "set")) with (bool_decide (subcmd sub = B "set")).
  change (strcaseeq sub (B "incrby")) with (bool_decide (subcmd sub = B "incrby")).
  change (strcaseeq sub (B "overflow")) with (bool_decide (subcmd sub = B "overflow")).
  destruct (bool_decide (subcmd sub = B "get") && (2 <=? Z.of_nat (length l))) eqn:Hget.
  { apply andb_true_iff in Hget as [Hg%bool_decide_eq_true Hl%Z.leb_le].
    destruct l as [|ty [|off l]]; cbn [length] in Hl; [lia..|].
    eapply wp_parseGet; [done|apply IH; cbn; lia|done..]. }
  assert (Hcode : bool_decide (subcmd sub = B "set") || bool_decide (subcmd sub = B "incrby") = bool_decide (writeCode sub ≠ None)).
  { unfold writeCode. by repeat case_bool_decide. }
  rewrite Hcode. destruct (bool_decide (writeCode sub ≠ None) && (3 <=? Z.of_nat (length l))) eqn:Hset.
  { apply andb_true_iff in Hset as [Hw%bool_decide_eq_true Hl%Z.leb_le].
    destruct l as [|ty [|off [|v l]]]; cbn [length] in Hl; [lia..|]. destruct (writeCode sub) as [code|] eqn:Hc; [|done].
    replace (if bool_decide (subcmd sub = B "set") then BITFIELDOP_SET else BITFIELDOP_INCRBY) with code.
    2:{ unfold writeCode in Hc. repeat case_bool_decide; naive_solver. }
    eapply wp_parseWrite; [done|apply IH; cbn; lia|done..]. }
  destruct (bool_decide (subcmd sub = B "overflow") && (1 <=? Z.of_nat (length l))) eqn:How.
  { apply andb_true_iff in How as [Hw%bool_decide_eq_true Hl%Z.leb_le].
    destruct l as [|name l]; cbn [length] in Hl; [lia|]. rewrite (fieldPlan_overflow sub name l pl Hw) in HQ, HQ'.
    destruct (owtypeOf name) as [ow|].
    - eapply IH; [cbn; lia|done| |done|done]. by destruct Hpl.
    - eapply wp_fail_reply; [done|]. intros s1 Hs1. by eapply HQ'. }
  eapply wp_fail_reply; [done|]. intros s1 Hs1. eapply HQ'; [|done]. apply fieldPlan_syntax; intros Hg.
  - rewrite bool_decide_true in Hget by done. cbn in Hget. lia.
  - rewrite bool_decide_true in Hset by done. cbn in Hset. lia.
  - rewrite bool_decide_true in How by done. cbn in How. lia.
Qed.

(** The operations on a string object that the command has made writable. *)
Lemma wp_bitfieldExec_write E wide resp k ops b e c f out n (Q : Z → cmdState → Prop) s :
  Forall opOk ops →
  (∀ op, op ∈ ops → isWrite op = true → bf_offset op + bf_bits op ≤ 8 * Z.of_nat (length b)) →
  runs g db0 (aset k (AStr b) e f) out n s → holds g k (Some (createRawStringObject b)) s → expires (cs_db s) !! k = e →
  (∀ s', let '(rs, b') := fieldOps wide resp ops b in
         runs g db0 (aset k (AStr b') e f) (out ++ rs) n s' → Q (c + Z.of_nat (length (filter isWrite ops))) s') →
  wp E (bitfieldExec wide resp k ops (Some (createRawStringObject b)) c) Q s.
Proof.
  intros Hops. revert b c out s. induction Hops as [|op ops Hop Hops IH]; intros b c out s Hin Hs Hh He HQ.
  { apply wp_ret. replace c with (c + Z.of_nat (length (filter isWrite []))) by (cbn; lia). apply HQ. by rewrite app_nil_r. }
  cbn [bitfieldExec]. cbn [fieldOps] in HQ.
  assert (Hrest : ∀ op', op' ∈ ops → isWrite op' = true → bf_offset op' + bf_bits op' ≤ 8 * Z.of_nat (length b))
    by (intros; apply Hin; [by apply list_elem_of_further|done]).
  destruct (bf_opcode op) eqn:Hc.
  1: { apply wp_bind. eapply wp_readOnly; [constructor|]. apply wp_bind.
    eapply wp_run_ok; [by apply bitfieldGet_run|]. apply wp_bind. eapply wp_emit; [done|]. intros s1 Hd Hs1.
    eapply IH; [done|exact Hs1|by unfold holds; rewrite Hd|by rewrite Hd|]. intros s2.
    specialize (HQ s2). unfold fieldOp in HQ. rewrite Hc in HQ. destruct (fieldOps wide resp ops b) as [rs b'].
    rewrite <-(app_assoc out). rewrite filter_cons_False in HQ by (unfold isWrite; rewrite Hc; by intros []). exact HQ. }
  all: assert (isWrite op = true) as Hw by (unfold isWrite; by rewrite Hc).
  all: destruct (bitfieldWrite_run wide resp op Hop b s Hw) as [Hrun Hlen]; [by apply Hin; [left|]|].
  all: apply wp_bind, wp_ret, wp_bind, wp_ret, wp_bind; eapply wp_run_ok; [exact Hrun|].
  all: destruct (fieldOp wide resp op b) as [r b1]; cbn [snd] in Hlen.
  all: apply wp_bind; eapply wp_storeObj; [done|done|by exists b1; constructor|]; intros s1 Hs1 Hh1 He1.
  all: apply wp_bind; eapply wp_emit; [done|]; intros s2 Hd Hs2.
  all: eapply (IH b1); [by rewrite Hlen| |by unfold holds; rewrite Hd|by rewrite Hd, He1|].
  all: try (eapply runs_ext; [|exact Hs2]; rewrite He; apply aset_aset).
  all: intros s3; specialize (HQ s3); destruct (fieldOps wide resp ops b1) as [rs b'].
  all: rewrite <-(app_assoc out); rewrite filter_cons_True in HQ by (by rewrite Hw).
  all: cbn [length] in HQ; rewrite Nat2Z.inj_succ, <-Z.add_1_l, Z.add_assoc in HQ; exact HQ.
Qed.

(** The operations when all of them read; without the key the string is empty. *)
Lemma wp_bitfieldExec_read E wide resp k ops o b c f out n (Q : Z → cmdState → Prop) s :
  Forall opOk ops → forallb (λ op, negb (isWrite op)) ops = true →
  match o with Some o => string_obj o b | None => b = [] end → runs g db0 f out n s →
  (∀ s', runs g db0 f (out ++ (fieldOps wide resp ops b).1) n s' → Q c s') →
  wp E (bitfieldExec wide resp k ops o c) Q s.
Proof.
  intros Hops. revert out s. induction Hops as [|op ops Hop Hops IH]; intros out s Hro Ho Hs HQ.
  { apply wp_ret, HQ. by rewrite app_nil_r. }
  cbn [bitfieldExec]. cbn [fieldOps] in HQ. cbn [forallb] in Hro. apply andb_true_iff in Hro as [Hg Hro].
  unfold isWrite in Hg. destruct (bf_opcode op) eqn:Hc; try done. apply wp_bind.
  assert (Hsrc : ∀ Q' : bytes → cmdState → Prop, Q' b s →
    wp E (match o with Some o => getObjectReadOnlyString o | None => mret [] end) Q' s).
  { intros Q' HQ''. destruct o as [o|]; [by eapply wp_readOnly|]. subst b. by apply wp_ret. }
  apply Hsrc. apply wp_bind. eapply wp_run_ok; [by apply bitfieldGet_run|]. apply wp_bind.
  eapply wp_emit; [done|]. intros s1 Hd Hs1. eapply IH; [done..|]. intros s2 Hs2. apply HQ.
  unfold fieldOp. rewrite Hc. destruct (fieldOps wide resp ops b) as [rs b']. by rewrite <-app_assoc in Hs2.
Qed.

Lemma isWrite_none ops : forallb (λ op, negb (isWrite op)) ops = false → (0 < length (filter isWrite ops))%nat.
Proof.
  induction ops as [|op ops IH]; cbn [forallb]; [done|]. destruct (isWrite op) eqn:Hw.
  - rewrite filter_cons_True by (by rewrite Hw). cbn. lia.
  - rewrite filter_cons_False by (rewrite Hw; by intros []). done.
Qed.

Lemma bitfield_meets wide resp rc ro flag f n k l :
  meets g db0 (bitfieldGeneric wide g ro resp rc (n :: k :: l) flag) f (bitfieldSpec wide g ro resp f flag k l).
Proof.
  intros s Hs. unfold bitfieldGeneric, bitfieldSpec. change (drop 2 (n :: k :: l)) with l. apply wp_bind.
  eapply wp_bitfieldParse; [done|apply planOk_start| |].
  2:{ intros e s1 -> Hs1. by apply wp_ret. }
  intros pl -> [Hops Hro Hh Hin]. next_arg. apply wp_bind. cbv zeta. destruct (pl_readonly pl) eqn:Hr.
  - symmetry in Hro. apply wp_bind. eapply wp_lookupKeyRead; [done|].
    intros [ob|] s1 Hs1 Hrd Hd; rewrite Hrd; cbn [fmap option_fmap option_map].
    + assert (objOk ob) as Hok by (eapply (runs_string g db0 f _ _ s1 k); [done|by apply Hd]).
      apply wp_bind. eapply wp_checkType; [done|..].
      2:{ intros s2 Ht Hs2. unfold viewObj. rewrite bool_decide_false by done. by apply wp_ret, wp_ret. }
      intros Ht. destruct (Hok Ht) as [b Hb]. rewrite (string_obj_view ob b Hb). apply wp_ret, wp_bind.
      eapply wp_emit; [done|]. intros s2 _ Hs2. apply wp_bind. by eapply wp_bitfieldExec_read.
    + apply wp_ret, wp_bind. eapply wp_emit; [done|]. intros s2 _ Hs2. apply wp_bind.
      by eapply wp_bitfieldExec_read.
  - destruct flag; [eapply wp_fail_reply; [done|]; intros s1 Hs1; by apply wp_ret|].
    apply wp_bind. eapply wp_lookupStringForBit; [done|done|done|..].
    { intros s1 -> Hs1. by apply wp_ret, wp_ret. }
    intros b e s1 -> b' Hs1 Hh1 He1. fold b'. apply wp_ret. apply wp_bind. eapply wp_emit; [done|]. intros s2 Hd Hs2.
    apply wp_bind. eapply (wp_bitfieldExec_write _ wide resp k (pl_ops pl) b' e); [done| |done|by unfold holds; rewrite Hd|by rewrite Hd|].
    { intros op Hop Hw. specialize (Hin op Hop Hw). unfold b'. rewrite length_padTo.
      pose proof (Z.div_mod (pl_highest pl) 8 ltac:(lia)). pose proof (Z.mod_pos_bound (pl_highest pl) 8 ltac:(lia)). lia. }
    intros s3. destruct (fieldOps wide resp (pl_ops pl) b') as [rs b2] eqn:Hfo. intros Hs3. cbn [fst snd].
    symmetry in Hro. apply isWrite_none in Hro. rewrite (proj2 (Z.eqb_neq _ 0)) by lia. cbn [negb].
    eapply wp_addDirty; [done|]. intros s4 _ Hs4. exact Hs4.
Qed.

End Meets.

(** ** The command table *)

Definition bitProcOf (name : string) : option bitProc :=
  head (filter (λ p, bitName p = name) bitProcs).

Lemma bitProcOf_name p : bitProcOf (bitName p) = Some p.
Proof. by destruct p. Qed.

Lemma bitArity_args p (args : list bytes) : arityFits (bitArity p) (Z.of_nat (length args)) = true →
  match p with
  | setbitProc => ∃ n k a v, args = [n; k; a; v]
  | getbitProc => ∃ n k a, args = [n; k; a]
  | bitopProc => ∃ n o t l, args = n :: o :: t :: l
  | bitposProc => ∃ n k a l, args = n :: k :: a :: l
  | bitcountProc | bitfieldProc | bitfieldroProc => ∃ n k l, args = n :: k :: l
  end.
Proof.
  unfold arityFits. intros Hn. destruct p; cbn [bitArity] in Hn;
    destruct args as [|? [|? [|? [|? [|? ?]]]]]; cbn [length] in Hn; try lia; eauto.
Qed.

Lemma bitCall_meets `{Host} p wide addr rc g resp args db :
  arityFits (bitArity p) (Z.of_nat (length args)) = true → db_ok db →
  meetsOn g db (bitCall p wide addr rc g resp args) (bitSpec p wide g resp args (seen g db)).
Proof.
  intros Hn%bitArity_args Hok. apply meets_on; [done|].
  destruct p; first [destruct Hn as (?&?&?&?&->) | destruct Hn as (?&?&?&->)]; cbn [bitCall bitSpec];
    unfold bitfieldCommand, bitfieldroCommand;
    auto using setbit_meets, getbit_meets, bitop_meets, bitcount_meets, bitpos_meets, bitfield_meets.
Qed.

Lemma bitSpec_no_fault p wide g resp args f x : bitSpec p wide g resp args f ≠ Fault x.
Proof.
  unfold bitSpec, setbitSpec, getbitSpec, bitopSpec, bitcountSpec, bitposCmdSpec, bitfieldSpec, writes, answers.
  intros Hx. repeat case_match; discriminate.
Qed.

Section BitTable.
Context `{Host} (wide : Z) (addr rc : bytes → Z) (rest : OtherCommands).

(** A table with the bit commands, and the commands of [rest]. *)
Definition bit_call (name : string) (g : genv) (resp : Z) (args : list bytes) : M redisDb (list reply * Z) :=
  match bitProcOf name with
  | Some p => runCommand (bitCall p wide addr rc g resp args)
  | None => @other_call rest name g resp args
  end.

Lemma bit_call_wf name g resp args db :
  arityFits (match bitProcOf name with Some p => bitArity p | None => @other_arity rest name end)
    (Z.of_nat (length args)) = true →
  ks_wf (dict db) (expires db) →
  match bit_call name g resp args db with
  | Ok (_, db') => same_backend db db' ∧ ks_wf (dict db') (expires db')
  | Fault f => @other_fault rest f
  end.
Proof.
  intros Hn Hok. unfold bit_call. destruct (bitProcOf name) as [p|]; [|by apply other_wf].
  pose proof (runCommand_meets _ _ _ _ (bitCall_meets p wide addr rc g resp args db Hn Hok)) as Hr.
  destruct (bitSpec p wide g resp args _) as [[[f out] n]|x] eqn:Hx; [|by apply bitSpec_no_fault in Hx].
  by destruct Hr as (db' & -> & ? & ? & _).
Qed.

Definition bitCommands : OtherCommands := {|
  other_lookup n := match bitProcOf (string_of_list_ascii n) with
                    | Some p => Some (bitName p)
                    | None => @other_lookup rest n
                    end;
  other_arity name := match bitProcOf name with Some p => bitArity p | None => @other_arity rest name end;
  other_flags name := match bitProcOf name with Some p => bitFlags p | None => @other_flags rest name end;
  other_call := bit_call;
  other_fault := @other_fault rest;
  other_wf := bit_call_wf |}.

End BitTable.

(** C23. SETBIT, GETBIT, BITOP, BITCOUNT, BITPOS, BITFIELD and BITFIELD_RO, run by call
    on a master or on a replica, never stop the server and do to the store what
    their specification says in terms of the bits of the strings: the replies, the
    bits that change, the zero bytes that a write adds, the overflow modes of
    BITFIELD, the other keys unchanged, the number of changes and the errors. *)
Theorem bit_commands_meet_spec `{Host} (p : bitProc) (wide : Z) (addr rc : bytes → Z) (rest : OtherCommands)
    (c : clientId) (cl : client) (db : redisDb) (s : server) :
  let g := srv_env s in
  clients s !! c = Some cl → c_cmd cl = Some (otherProc (bitName p)) →
  arityFits (bitArity p) (Z.of_nat (length (c_argv cl))) = true →
  dbs s !! c_db cl = Some db → db_ok db →
  match bitSpec p wide g (c_resp cl) (c_argv cl) (seen g db) with
  | Ok (f, out, n) =>
      ∃ db', @call (bitCommands wide addr rc rest) c s = Ok (tt, afterReplies c cl out n db' s) ∧
             same_backend db db' ∧ db_ok db' ∧ ∀ k, seen g db' k = f k
  | Fault _ => False
  end.
Proof.
  intros g Hc Hcmd Hn Hdb Hok. erewrite call_other_run by done.
  cbn [other_call bitCommands]. unfold bit_call. rewrite bitProcOf_name. fold g.
  pose proof (runCommand_meets _ _ _ _ (bitCall_meets p wide addr rc g (c_resp cl) (c_argv cl) db Hn Hok)) as Hr.
  destruct (bitSpec p wide g _ _ _) as [[[f out] n]|x] eqn:Hx; [|by apply bitSpec_no_fault in Hx].
  destruct Hr as (db' & -> & ? & ? & ?). by exists db'.
Qed.

Lemma bit_commands_meet_spec_witness :
  let args := [B "BITFIELD"; B "k"; B "SET"; B "u8"; B "#0"; B "98"; B "GET"; B "i4"; B "1"] in
  ∃ db', @call (@bitCommands littleHost (2 ^ 64 - 1) (λ _, 0) (λ _, 1) noOther) 1%nat
           (stringServer (otherProc "bitfield") args) =
    Ok (tt, afterReplies 1 (set_cmd (Some (otherProc "bitfield")) args (createClient true))
              [RArrayLen 2; RInt 111; RInt (-4)] 1 db' (stringServer (otherProc "bitfield") args)).
Proof.
  intros args. pose proof (@bit_commands_meet_spec littleHost bitfieldProc (2 ^ 64 - 1) (λ _, 0) (λ _, 1) noOther 1%nat
    (set_cmd (Some (otherProc "bitfield")) args (createClient true)) stringDb
    (stringServer (otherProc "bitfield") args)) as H.
  destruct H as (db' & H & _).
  - reflexivity.
  - reflexivity.
  - reflexivity.
  - reflexivity.
  - exact stringDb_ok.
  - exists db'. exact H.
Defined.

(** ** Counting and searching a word at a time *)

(** C25. At any address and on hosts of both byte orders redisPopcount, which counts 28
    bytes at a time, is the number of one bits of the string (modulo 2^64), and
    redisBitpos, which skips a word at a time, gives the position of the first bit,
    -1 when there is no one bit, and the end of the string when there is no zero
    bit; it never reaches its panic. *)
Theorem bit_scans_agree `{Host} (addr : Z) (s : bytes) (bit : bool) :
  redisPopcount addr s = u64 (ones (bitsOf s)) ∧
  redisBitpos addr s (Z.b2z bit) =
    Ok (match firstBit bit (bitsOf s) with
        | Some i => Z.of_nat i
        | None => if bit then -1 else 8 * Z.of_nat (length s)
        end).
Proof. split; [apply redisPopcount_ones|]. exact (redisBitpos_spec bit addr s). Qed.

(** ** Reading back a field *)

Lemma intBits_mod n v : intBits n (v mod 2 ^ Z.of_nat n) = intBits n v.
Proof.
  apply list_eq. intros i. destruct (decide (i < n)%nat).
  - rewrite !lookup_intBits by done. by rewrite Z.mod_pow2_bits_low by lia.
  - by rewrite !lookup_ge_None_2 by (rewrite length_intBits; lia).
Qed.

Lemma segment_putAt o v l : (o + length v ≤ length l)%nat → segment o (length v) (putAt o v l) = v.
Proof.
  intros Hl. unfold segment, putAt. rewrite drop_app_length' by (rewrite length_take; lia).
  by rewrite take_app_length.
Qed.

Lemma lookup_putAt o v l i : (o + length v ≤ length l)%nat → (i < o ∨ o + length v ≤ i)%nat →
  putAt o v l !! i = l !! i.
Proof.
  intros Hl Hi. unfold putAt. destruct (decide (i < o)%nat).
  - by rewrite lookup_app_l, lookup_take_lt by (rewrite ?length_take; lia).
  - rewrite !lookup_app_r, lookup_drop, length_take by (rewrite ?length_take; lia). f_equal. lia.
Qed.

Section ReadBack.
Context (op : bitfieldOp) (Hop : opOk op) (b : bytes).
Context (Hl : bf_offset op + bf_bits op ≤ 8 * Z.of_nat (length b)).

Lemma putField_bits new : length (putField op b new) = length b ∧
  bitsOf (putField op b new) = putAt (Z.to_nat (bf_offset op)) (intBits (Z.to_nat (bf_bits op)) new) (bitsOf b).
Proof using Hop Hl.
  destruct Hop as [Ho Hb _].
  destruct (setUnsignedBitfield_run (bf_offset op) (bf_bits op) new b) as (b' & _ & Hlen & Hbits); [lia..|].
  unfold putField. by rewrite <-Hbits, bytesOf_bitsOf.
Qed.

Lemma fieldAt_putField new : fieldAt (putField op b new) (bf_offset op) (bf_bits op) = new mod 2 ^ bf_bits op.
Proof using Hop Hl.
  destruct (putField_bits new) as [Hlen Hbits]. destruct Hop as [Ho Hb _].
  rewrite fieldAt_inside, Hbits by lia. set (V := intBits (Z.to_nat (bf_bits op)) new).
  assert (length V = Z.to_nat (bf_bits op)) as HV by apply length_intBits. rewrite <-HV, segment_putAt.
  - unfold V. rewrite <-intBits_mod, bitsInt_intBits; rewrite !Z2Nat.id by lia; [done|]. apply Z.mod_pos_bound. lia.
  - rewrite HV, length_bitsOf. lia.
Qed.

End ReadBack.

(** The values of a field. *)
Definition inField (op : bitfieldOp) (v : Z) : Prop :=
  if bf_sign op then - 2 ^ (bf_bits op - 1) ≤ v < 2 ^ (bf_bits op - 1) else 0 ≤ v < 2 ^ bf_bits op.

Lemma decodeField_mod wide op v : opOk op → inField op v → (bf_bits op = 64 → 0 ≤ v ∨ wide = 0) →
  decodeField wide op (v mod 2 ^ bf_bits op) = v.
Proof.
  intros [_ Hb _] Hv Hw. unfold decodeField, inField in *. destruct (bf_sign op).
  2:{ by rewrite Z.mod_small. }
  set (bits := bf_bits op) in *. assert (2 ^ bits = 2 * 2 ^ (bits - 1)) as Hp by (rewrite <-Z.pow_succ_r by lia; f_equal; lia).
  assert (Hm : v mod 2 ^ bits = if v <? 0 then v + 2 ^ bits else v).
  { destruct (Z.ltb_spec v 0); symmetry; [apply (Z.mod_unique _ _ (-1)); lia|]. apply (Z.mod_unique _ _ 0); lia. }
  unfold readSigned, toSigned. rewrite Hm. destruct (Z.ltb_spec v 0).
  - rewrite (proj2 (Z.leb_le (2 ^ (bits - 1)) (v + 2 ^ bits))) by lia. destruct (Z.eqb_spec bits 64) as [Heq|]; cbn [andb]; [|lia].
    destruct (Hw Heq) as [|Hz]; [lia|]. rewrite Hz, Z.lor_0_r. rewrite Heq in *.
    case_match; [|lia]. unfold i64. symmetry. rewrite <-(Z.mod_unique (v + 2 ^ 64 + 2 ^ 63) (2 ^ 64) 1 (v + 2 ^ 63)); lia.
  - rewrite (proj2 (Z.leb_gt (2 ^ (bits - 1)) v)) by lia. destruct (Z.eqb_spec bits 64) as [Heq|]; cbn [andb]; [|done].
    rewrite Heq in *. by rewrite (proj2 (Z.leb_gt (2 ^ 63) v)) by lia.
Qed.

Lemma setResult_fits wide op v : opOk op → inField op v → setResult wide op v = Some v.
Proof.
  intros [_ Hb _] Hv. unfold setResult, inField, setTooLarge in *. destruct (bf_sign op).
  - set (bits := bf_bits op) in *. destruct (Z.ltb_spec (2 ^ (bits - 1) - 1) v); [lia|]. cbn [orb].
    assert (negb (bits =? 64) && (v <? 2 ^ (bits - 1) - 2 ^ 63) = false) as ->.
    { destruct (Z.eqb_spec bits 64); cbn; [done|]. apply Z.ltb_ge.
      assert (2 ^ (bits - 1) ≤ 2 ^ 62) by (apply Z.pow_le_mono_r; lia). lia. }
    by rewrite (proj2 (Z.ltb_ge v (- 2 ^ (bits - 1)))) by lia.
  - assert (2 ^ bf_bits op ≤ 2 ^ 63) by (apply Z.pow_le_mono_r; lia).
    by rewrite u64_id, (proj2 (Z.ltb_ge (2 ^ bf_bits op - 1) v)) by (unfold ULLONG_MAX; lia).
Qed.

(** The same field, read. *)
Definition getOf (op : bitfieldOp) : bitfieldOp :=
  mkBitfieldOp (bf_offset op) 0 BITFIELDOP_GET (bf_owtype op) (bf_bits op) (bf_sign op).

(** C24. The SET of BITFIELD with a value in the range of its field replies what GET
    replied before and stores the value: GET then replies it, the length of the
    string is the same and so is every bit outside of the field. For a negative
    64-bit value this needs the shift by 64 of the sign extension to give zero. *)
Theorem bitfield_get_after_set (wide resp : Z) (op : bitfieldOp) (b : bytes) (s : cmdState) :
  opOk op → bf_opcode op = BITFIELDOP_SET → inField op (bf_i64 op) →
  bf_offset op + bf_bits op ≤ 8 * Z.of_nat (length b) →
  (bf_bits op = 64 → 0 ≤ bf_i64 op ∨ wide = 0) →
  ∃ old b', bitfieldGet wide (getOf op) b s = Ok (RInt old, s) ∧
    bitfieldWrite wide resp op b s = Ok ((RInt old, b'), s) ∧
    bitfieldGet wide (getOf op) b' s = Ok (RInt (bf_i64 op), s) ∧
    length b' = length b ∧
    ∀ i, Z.of_nat i < bf_offset op ∨ bf_offset op + bf_bits op ≤ Z.of_nat i → bitsOf b' !! i = bitsOf b !! i.
Proof.
  intros Hop Hset Hv Hl Hw. assert (opOk (getOf op)) as Hget.
  { destruct Hop. split; cbn; [done..|]. unfold LLONG_MIN, LLONG_MAX. lia. }
  eexists _, (putField op b (bf_i64 op)). split; [by apply bitfieldGet_run|].
  destruct (bitfieldWrite_run wide resp op Hop b s) as [Hrun _]; [unfold isWrite; by rewrite Hset|done|].
  unfold fieldOp in Hrun. rewrite Hset, setResult_fits in Hrun by done. split; [exact Hrun|].
  destruct (putField_bits op Hop b Hl (bf_i64 op)) as [Hlen Hbits]. split_and!; [|done|].
  - rewrite bitfieldGet_run by done. cbn [bf_offset bf_bits getOf]. rewrite fieldAt_putField by done.
    do 3 f_equal. by apply (decodeField_mod wide op).
  - intros i Hi. destruct Hop as [Ho Hb _]. rewrite Hbits. apply lookup_putAt; rewrite ?length_intBits, ?length_bitsOf; lia.
Qed.

(** SET i12 of -2047 at bit 5 of three bytes, then GET. *)
Lemma bitfield_get_after_set_witness :
  let op := mkBitfieldOp 5 (-2047) BITFIELDOP_SET BFOVERFLOW_FAIL 12 true in
  ∃ b', bitfieldGet (2 ^ 64 - 1) (getOf op) b' (mkCmd stringDb [] 0) = Ok (RInt (-2047), mkCmd stringDb [] 0) ∧
        length b' = 3%nat.
Proof.
  intros op. destruct (bitfield_get_after_set (2 ^ 64 - 1) 2 op (B "old") (mkCmd stringDb [] 0))
    as (old & b' & _ & _ & Hg & Hl & _).
  - split; cbn; [lia|lia|unfold LLONG_MIN, LLONG_MAX; lia].
  - reflexivity.
  - cbn. lia.
  - cbn. lia.
  - cbn. lia.
  - exists b'. split; [exact Hg|exact Hl].
Defined.

(** ** The edges of BITFIELD *)

(** With the all-ones mask that the shift by 64 gives on x86, every negative 64-bit
    integer reads as -1. *)
Lemma bitfield_i64_reads_minus_one op b s : opOk op → bf_sign op = true → bf_bits op = 64 →
  2 ^ 63 ≤ fieldAt b (bf_offset op) 64 →
  bitfieldGet (2 ^ 64 - 1) op b s = Ok (RInt (-1), s).
Proof.
  intros Hop Hs Hb Hu. rewrite bitfieldGet_run by done. unfold decodeField, readSigned. rewrite Hs, Hb.
  pose proof (fieldAt_bound b (bf_offset op) 64 (ok_offset _ Hop) ltac:(lia)) as Hr.
  rewrite (proj2 (Z.leb_le (2 ^ 63) (fieldAt b (bf_offset op) 64))) by done. cbn [andb Z.eqb Pos.eqb].
  change (2 ^ 64 - 1) with (Z.ones 64). rewrite Z.lor_ones_low; [done|lia|].
  destruct (Z.eq_dec (fieldAt b (bf_offset op) 64) 0) as [->|]; [done|]. apply Z.log2_lt_pow2; lia.
Qed.

(** The difference [max - value] of the signed test overflows for values close to the
    smallest one: SET in SAT mode stores the largest value of the field. *)
Lemma bitfield_sat_of_smallest wide o :
  setResult wide (mkBitfieldOp o LLONG_MIN BITFIELDOP_SET BFOVERFLOW_SAT 8 true) LLONG_MIN = Some 127.
Proof. reflexivity. Qed.

(** An offset in integers is multiplied by their size without an overflow test. *)
Lemma bitfield_offset_wraps : bitOffset (B "#2305843009213693952") true 8 = Some 0.
Proof. reflexivity. Qed.
