(* ===== verification/RdbFile.v ===== *)
(** * RdbFile: saving and loading all databases, src/src/rdb.c

    [rdbSaveRio] writes the magic, the auxiliary fields, every key of every database
    with its expire, the scripts and the checksum; [rdbLoadRio] reads them back.

    Parameters: the order in which a dictionary is iterated ([order]), the idle time
    and frequency of a key, the digest of a script and what the interpreter of scripts
    accepts, the module types and their [aux_load], the time, the memory in use, and the
    objects that are not strings.  The saving server has no module; [rdbCheckMode] is 0, as
    it is in a server.  The transfer of the log of a rewrite and the delays for tests are
    left out. *)

From Stdlib Require Import Ascii String.
From stdpp Require Import base tactics option strings numbers gmap fin_maps list.
From S2P Require Import Prelude Util Endian Object SdsArgs Db Server TString Rio Rdb.

Local Open Scope Z_scope.

Definition RDB_OPCODE_MODULE_AUX : Z := 247.
Definition RDB_OPCODE_IDLE : Z := 248.
Definition RDB_OPCODE_FREQ : Z := 249.
Definition RDB_OPCODE_AUX : Z := 250.
Definition RDB_OPCODE_RESIZEDB : Z := 251.
Definition RDB_OPCODE_EXPIRETIME_MS : Z := 252.
Definition RDB_OPCODE_EXPIRETIME : Z := 253.
Definition RDB_OPCODE_SELECTDB : Z := 254.
Definition RDB_OPCODE_EOF : Z := 255.
Definition RDB_MODULE_OPCODE_EOF : Z := 0.
Definition RDB_MODULE_OPCODE_UINT : Z := 2.
Definition CONFIG_RUN_ID_SIZE : Z := 40.

(** The fields of [rdbSaveInfo]. *)
Record rdbSaveInfo := mkRsi {
  repl_stream_db : Z;
  repl_id_is_set : bool;
  repl_id : bytes;
  repl_offset : Z }.

(** What the saving server is besides its databases. *)
Record saver := mkSaver {
  s_rdb_compression : bool;
  s_rdb_checksum : bool;
  s_savelru : bool;             (* maxmemory_policy & MAXMEMORY_FLAG_LRU *)
  s_savelfu : bool;             (* maxmemory_policy & MAXMEMORY_FLAG_LFU *)
  s_idletime : bytes → Z;       (* estimateObjectIdleTime of the value of a key *)
  s_lfu : bytes → Z;            (* LFUDecrAndReturn of the value of a key *)
  s_time : Z;                   (* time(NULL) *)
  s_used_memory : Z;            (* zmalloc_used_memory() *)
  s_replid : bytes;             (* server.replid *)
  s_master_repl_offset : Z;
  s_lua_scripts : list bytes }. (* the bodies of server.lua_scripts *)

Section Save.
Context `{Host} (bufAddr htab : Z → Z) (fresh : nat → Z) (sv : saver).
Context (saveOther : robj → rioM Z) (typeOther : robj → Z).
Context (order : gmap bytes robj → list (bytes * robj)).
#[local] Abbreviation saveType := (rdbSaveType bufAddr).
#[local] Abbreviation saveLen := (rdbSaveLen bufAddr).
#[local] Abbreviation saveRawString := (rdbSaveRawString bufAddr htab fresh (s_rdb_compression sv)).

(** A call whose result is tested against -1: [false] is the error. *)
Definition saved (m : rioM Z) : rioM bool := n ← m; mret (negb (n =? -1)).

(** One call after the other, up to the first error. *)
Definition andThen (m k : rioM bool) : rioM bool := ok ← m; if (ok : bool) then k else mret false.

Definition rdbSaveKeyValuePair (key : bytes) (val : robj) (expiretime : Z) : rioM bool :=
  andThen (if negb (expiretime =? -1) then
      andThen (saved (saveType RDB_OPCODE_EXPIRETIME_MS)) (saved (rdbSaveMillisecondTime bufAddr expiretime))
    else mret true) (
  andThen (if s_savelru sv then
      andThen (saved (saveType RDB_OPCODE_IDLE)) (saved (saveLen (u64 (s_idletime sv key) / 1000)))
    else mret true) (
  andThen (if s_savelfu sv then
      andThen (saved (saveType RDB_OPCODE_FREQ)) (saved (rdbWriteRaw bufAddr [Lzf.u8 (s_lfu sv key)]))
    else mret true) (
  andThen (saved (rdbSaveObjectType bufAddr typeOther val)) (
  andThen (saved (rdbSaveStringObject bufAddr htab fresh (s_rdb_compression sv) (createRawStringObject key)))
          (saved (rdbSaveObject bufAddr htab fresh (s_rdb_compression sv) saveOther val)))))).

Definition rdbSaveAuxField (key val : bytes) : rioM Z :=
  r1 ← saveType RDB_OPCODE_AUX;
  if r1 =? -1 then mret (-1) else
  r2 ← saveRawString key;
  if r2 =? -1 then mret (-1) else
  r3 ← saveRawString val;
  if r3 =? -1 then mret (-1) else
  mret (r1 + r2 + r3).

Definition rdbSaveAuxFieldStrStr (key val : string) : rioM Z := rdbSaveAuxField (B key) (B val).
Definition rdbSaveAuxFieldStrInt (key : string) (val : Z) : rioM Z := rdbSaveAuxField (B key) (ll2buf LONG_STR_SIZE val).

Definition REDIS_VERSION : string := "999.999.999".

Definition rdbSaveInfoAuxFields (aof_preamble : bool) (rsi : option rdbSaveInfo) : rioM bool :=
  andThen (saved (rdbSaveAuxFieldStrStr "redis-ver" REDIS_VERSION)) (
  andThen (saved (rdbSaveAuxFieldStrInt "redis-bits" 64)) (
  andThen (saved (rdbSaveAuxFieldStrInt "ctime" (s_time sv))) (
  andThen (saved (rdbSaveAuxFieldStrInt "used-mem" (s_used_memory sv))) (
  andThen (match rsi with
    | Some rsi =>
        andThen (saved (rdbSaveAuxFieldStrInt "repl-stream-db" (repl_stream_db rsi))) (
        andThen (saved (rdbSaveAuxField (B "repl-id") (s_replid sv)))
                (saved (rdbSaveAuxFieldStrInt "repl-offset" (s_master_repl_offset sv))))
    | None => mret true
    end)
  (saved (rdbSaveAuxFieldStrInt "aof-preamble" (if aof_preamble then 1 else 0))))))).

(** [getExpire(db,&key)] *)
Definition expireOf (db : redisDb) (key : bytes) : rioM Z := λ r,
  match getExpire key db with
  | Ok (w, _) => Ok (w, r)
  | Fault f => Fault f
  end.

Fixpoint saveEntries (db : redisDb) (l : list (bytes * robj)) : rioM bool :=
  match l with
  | [] => mret true
  | (key, o) :: l =>
      expire ← expireOf db key;
      andThen (rdbSaveKeyValuePair key o expire) (saveEntries db l)
  end.

Fixpoint saveDbs (j : Z) (dbs : list redisDb) : rioM bool :=
  match dbs with
  | [] => mret true
  | db :: dbs =>
      if Z.of_nat (size (dict db)) =? 0 then saveDbs (j + 1) dbs else
      andThen (saved (saveType RDB_OPCODE_SELECTDB)) (
      andThen (saved (saveLen j)) (
      andThen (saved (saveType RDB_OPCODE_RESIZEDB)) (
      andThen (saved (saveLen (Z.of_nat (size (dict db))))) (
      andThen (saved (saveLen (Z.of_nat (size (expires db))))) (
      andThen (saveEntries db (order (dict db)))
              (saveDbs (j + 1) dbs))))))
  end.

Fixpoint saveScripts (l : list bytes) : rioM bool :=
  match l with
  | [] => mret true
  | body :: l => andThen (saved (rdbSaveAuxField (B "lua") body)) (saveScripts l)
  end.

(** [true] for [C_OK] *)
Definition rdbSaveRio (aof_preamble : bool) (rsi : option rdbSaveInfo) (dbs : list redisDb) : rioM bool :=
  (if s_rdb_checksum sv then modify (set_update_cksum true) else mret tt) ;;
  andThen (saved (rdbWriteRaw bufAddr (raw (B "REDIS0009")))) (
  andThen (rdbSaveInfoAuxFields aof_preamble rsi) (
  andThen (saveDbs 0 dbs) (
  andThen (match rsi with Some _ => saveScripts (s_lua_scripts sv) | None => mret true end) (
  andThen (saved (saveType RDB_OPCODE_EOF)) (
  cksum ← gets cksum;
  rioWrite bufAddr (memrev64ifbe (hostBytes 8 cksum))))))).

End Save.

(** ** Loading *)

Record loadState := mkLoad {
  io : rio;
  l_dbs : list redisDb;
  l_scripts : gmap bytes bytes; (* server.lua_scripts: the bodies by their digest *)
  l_rsi : option rdbSaveInfo }.

Definition set_io (v : rio) (L : loadState) : loadState := mkLoad v (l_dbs L) (l_scripts L) (l_rsi L).
Definition set_l_dbs (v : list redisDb) (L : loadState) : loadState := mkLoad (io L) v (l_scripts L) (l_rsi L).
Definition set_l_scripts (v : gmap bytes bytes) (L : loadState) : loadState := mkLoad (io L) (l_dbs L) v (l_rsi L).
Definition set_l_rsi (v : option rdbSaveInfo) (L : loadState) : loadState := mkLoad (io L) (l_dbs L) (l_scripts L) v.

Definition liftIo {A} (m : rioM A) : M loadState A := λ L,
  match m (io L) with
  | Ok (a, r) => Ok (a, set_io r L)
  | Fault f => Fault f
  end.

Definition onDb {A} (i : nat) (m : M redisDb A) : M loadState A := λ L,
  match l_dbs L !! i with
  | None => Fault (BadPointer "server.db")
  | Some db =>
      match m db with
      | Ok (a, db') => Ok (a, set_l_dbs (<[i := db']> (l_dbs L)) L)
      | Fault f => Fault f
      end
  end.

(** A module type: its [aux_load], if it has one, reads its data for the encoding version
    and the time of the data, and says whether it succeeded. *)
Record moduleType := mkModuleType { aux_load : option (Z → Z → rioM bool) }.

(** What the loading server is, and how [rdbLoadRio] is called. *)
Record loader := mkLoader {
  ld_rdb_checksum : bool;
  ld_chunk : Z;                  (* loading_process_events_interval_bytes *)
  ld_iAmMaster : bool;
  ld_now : Z;                    (* mstime() *)
  ld_aof_preamble : bool;        (* rdbflags & RDBFLAGS_AOF_PREAMBLE *)
  ld_allow_dup : bool;           (* rdbflags & RDBFLAGS_ALLOW_DUP *)
  ld_from_file : bool;           (* rdbFileBeingLoaded != NULL *)
  ld_sha1hex : bytes → bytes;    (* sha1hex of a script *)
  ld_luaCompiles : bytes → bool; (* luaL_loadbuffer and lua_pcall on its definition *)
  ld_module : Z → option moduleType }. (* moduleTypeLookupModuleByID *)

(** The variables of the loop. *)
Record attrs := mkAttrs { a_db : nat; lru_idle : Z; lfu_freq : Z; expiretime : Z }.

Inductive turnEnd := Continue (a : attrs) | Break | Eoferr.

Definition isNamed (s : bytes) (lit : string) : bool := strcaseeq s (B lit).

Definition atoi (s : bytes) : Z := int32 (fst (strtoll s)).

(** [dbAddRDBLoad]: 0 when the key is there already. *)
Definition dbAddRDBLoad (key : bytes) (val : robj) : M redisDb bool :=
  db ← get;
  match dict db !! key with
  | Some _ => mret false
  | None => put (with_keyspace (<[key := val]> (dict db)) (expires db) db) ;; mret true
  end.

Section Load.
Context `{Host} (bufAddr : Z → Z) (fresh : nat → Z) (ld : loader).
Context (loadOther : Z → rioM (option robj)).
Abbreviation loadM := (M loadState).
#[local] Abbreviation loadLen := (liftIo (rdbLoadLen bufAddr)).

Definition updRsi (f : rdbSaveInfo → rdbSaveInfo) : loadM unit := modify (λ L, set_l_rsi (f <$> l_rsi L) L).

(** [false] for NULL. *)
Definition luaCreateFunction (body : bytes) : loadM bool :=
  let sha := ld_sha1hex ld body in
  L ← get;
  if bool_decide (is_Some (l_scripts L !! sha)) then mret true
  else if negb (ld_luaCompiles ld body) then mret false
  else put (set_l_scripts (<[sha := body]> (l_scripts L)) L) ;; mret true.

(** An auxiliary field. *)
Definition loadAux (auxkey auxval : bytes) : loadM unit :=
  if bool_decide (hd NUL auxkey = "%"%char) then mret tt
  else if isNamed auxkey "repl-stream-db" then
    updRsi (λ r, mkRsi (atoi auxval) (repl_id_is_set r) (repl_id r) (repl_offset r))
  else if isNamed auxkey "repl-id" then
    if Z.of_nat (length auxval) =? CONFIG_RUN_ID_SIZE
    then updRsi (λ r, mkRsi (repl_stream_db r) true auxval (repl_offset r))
    else mret tt
  else if isNamed auxkey "repl-offset" then
    updRsi (λ r, mkRsi (repl_stream_db r) (repl_id_is_set r) (repl_id r) (fst (strtoll auxval)))
  else if isNamed auxkey "lua" then
    ok ← luaCreateFunction auxval;
    if ok : bool then mret tt else fail (AssertFailed "Can't load Lua script from RDB file!")
  else mret tt.

(** A key with its value: expired keys are dropped by a master. *)
Definition loadKey (a : attrs) (key : bytes) (val : robj) : loadM unit :=
  if ld_iAmMaster ld && negb (ld_aof_preamble ld) && negb (expiretime a =? -1) && (expiretime a <? ld_now ld) then mret tt
  else
    added ← onDb (a_db a) (dbAddRDBLoad key val);
    (if (added : bool) then mret tt
     else if ld_allow_dup ld then
       onDb (a_db a) (dbSyncDelete key) ;; onDb (a_db a) (dbAddRDBLoad key val) ;; mret tt
     else fail (AssertFailed "Duplicated key found in RDB file")) ;;
    (if negb (expiretime a =? -1) then onDb (a_db a) (setExpire key (expiretime a)) else mret tt).

(** The data of a module. *)
Definition loadModuleAux (a : attrs) : loadM turnEnd :=
  moduleid ← loadLen;
  when_opcode ← loadLen;
  when ← loadLen;
  e ← liftIo rioGetReadError;
  if (e : bool) then mret Eoferr else
  (* rdbReportReadError returns when the data does not come from a file *)
  (if negb (i32 (snd when_opcode) =? RDB_MODULE_OPCODE_UINT) && ld_from_file ld
   then fail (AssertFailed "bad when_opcode") else mret tt) ;;
  match ld_module ld (snd moduleid) with
  | None => fail (AssertFailed "The RDB file contains AUX module data I can't load: no matching module")
  | Some mt =>
      match aux_load mt with
      | None => fail (AssertFailed "The RDB file contains module AUX data, but the module doesn't seem to support it")
      | Some load =>
          ok ← liftIo (load (Z.land (snd moduleid) 1023) (i32 (snd when)));
          if negb ok then fail (AssertFailed "The module is not able to load its AUX data") else
          eof ← loadLen;
          if snd eof =? RDB_MODULE_OPCODE_EOF then mret (Continue a)
          else fail (AssertFailed "The RDB file contains module AUX data that is not terminated by the EOF marker")
      end
  end.

(** One turn of [while(1)]. *)
Definition loadTurn (rdbver : Z) (a : attrs) : loadM turnEnd :=
  type ← liftIo (rdbLoadType bufAddr);
  if type =? -1 then mret Eoferr
  else if type =? RDB_OPCODE_EXPIRETIME then
    t ← liftIo (rdbLoadTime bufAddr);
    e ← liftIo rioGetReadError;
    if (e : bool) then mret Eoferr
    else mret (Continue (mkAttrs (a_db a) (lru_idle a) (lfu_freq a) (t * 1000)))
  else if type =? RDB_OPCODE_EXPIRETIME_MS then
    t ← liftIo (rdbLoadMillisecondTime bufAddr rdbver);
    e ← liftIo rioGetReadError;
    if (e : bool) then mret Eoferr
    else mret (Continue (mkAttrs (a_db a) (lru_idle a) (lfu_freq a) t))
  else if type =? RDB_OPCODE_FREQ then
    x ← liftIo (rioRead bufAddr 1);
    match x with
    | None => mret Eoferr
    | Some x => mret (Continue (mkAttrs (a_db a) (lru_idle a) (x !!! 0%nat) (expiretime a)))
    end
  else if type =? RDB_OPCODE_IDLE then
    q ← loadLen;
    if snd q =? RDB_LENERR then mret Eoferr
    else mret (Continue (mkAttrs (a_db a) (i64 (snd q)) (lfu_freq a) (expiretime a)))
  else if type =? RDB_OPCODE_EOF then mret Break
  else if type =? RDB_OPCODE_SELECTDB then
    d ← loadLen;
    if snd d =? RDB_LENERR then mret Eoferr
    else
      L ← get;
      if Z.of_nat (length (l_dbs L)) <=? snd d
      then fail (AssertFailed "FATAL: Data file was created with a Redis server configured to handle more databases")
      else mret (Continue (mkAttrs (Z.to_nat (snd d)) (lru_idle a) (lfu_freq a) (expiretime a)))
  else if type =? RDB_OPCODE_RESIZEDB then
    d ← loadLen;
    if snd d =? RDB_LENERR then mret Eoferr else
    e ← loadLen;
    if snd e =? RDB_LENERR then mret Eoferr else mret (Continue a)
  else if type =? RDB_OPCODE_AUX then
    k ← liftIo (rdbLoadStringObject bufAddr fresh);
    match k with
    | Some (Object auxkey) =>
        v ← liftIo (rdbLoadStringObject bufAddr fresh);
        match v with
        | Some (Object auxval) =>
            auxkey ← ptrSds auxkey "rdbLoadRio";
            auxval ← ptrSds auxval "rdbLoadRio";
            loadAux auxkey auxval ;; mret (Continue a)
        | _ => mret Eoferr
        end
    | _ => mret Eoferr
    end
  else if type =? RDB_OPCODE_MODULE_AUX then
    loadModuleAux a
  else
    k ← liftIo (rdbGenericLoadStringObject bufAddr fresh LOAD_SDS);
    match k with
    | Some (SdsString key) =>
        v ← liftIo (rdbLoadObject bufAddr fresh loadOther type);
        match v with
        | Some val => loadKey a key val ;; mret (Continue (mkAttrs (a_db a) (-1) (-1) (-1)))
        | None => mret Eoferr
        end
    | _ => mret Eoferr
    end.

(** [false] for [goto eoferr]; every turn reads a byte of the stream. *)
Fixpoint loadLoop (fuel : nat) (rdbver : Z) (a : attrs) : loadM bool :=
  match fuel with
  | O => fail (AssertFailed "rdbLoadRio: fuel")
  | S fuel =>
      t ← loadTurn rdbver a;
      match t with
      | Continue a => loadLoop fuel rdbver a
      | Break => mret true
      | Eoferr => mret false
      end
  end.

Definition eoferr : loadM bool :=
  if ld_from_file ld then fail (AssertFailed "Unexpected EOF reading RDB file") else mret false.

Definition verifyChecksum : loadM bool :=
  expected ← gets (λ L, cksum (io L));
  x ← liftIo (rioRead bufAddr 8);
  match x with
  | None => eoferr
  | Some x =>
      if ld_rdb_checksum ld then
        let cksum := hostInt (memrev64ifbe x) in
        if cksum =? 0 then mret true
        else if negb (cksum =? expected) then fail (AssertFailed "RDB CRC error")
        else mret true
      else mret true
  end.

(** [true] for [C_OK] *)
Definition rdbLoadRio : loadM bool :=
  liftIo (modify (λ r, set_chunk (ld_chunk ld) (set_update_cksum (ld_rdb_checksum ld) r))) ;;
  x ← liftIo (rioRead bufAddr 9);
  match x with
  | None => eoferr
  | Some x =>
      let buf := unraw x in
      if negb (bool_decide (take 5 buf = B "REDIS")) then mret false else
      let rdbver := atoi (drop 5 buf) in
      if (rdbver <? 1) || (RDB_VERSION <? rdbver) then mret false else
      L ← get;
      ok ← loadLoop (S (length (ptr (io L)))) rdbver (mkAttrs 0 (-1) (-1) (-1));
      if negb ok then eoferr else
      if 5 <=? rdbver then verifyChecksum else mret true
  end.

End Load.
