(* ===== verification/RdbFileProps.v ===== *)
(** * RdbFileProps: a saved set of databases is loaded back

    A file is a sequence of segments ([seg]): [segBytes] are the bytes of one, [execSeg]
    is what loading one does.  [rdbSaveRio] writes the segments of the databases, and
    [rdbLoadRio] executes the segments it reads. *)

From Stdlib Require Import Ascii String ZifyBool.
From stdpp Require Import base tactics option strings numbers gmap fin_maps list.
From S2P Require Import Prelude Util Endian Object SdsArgs Db Server TString StringProps Lzf Crc64 Rio Rdb RdbProps RdbFile.

Local Open Scope Z_scope.

(** ** Segments *)

Inductive seg :=
  | SExpire (t : Z)
  | SIdle (q : Z)
  | SFreq (f : Z)
  | SSelect (j : Z)
  | SResize (n e : Z)
  | SAux (k v : bytes)
  | SKey (k s : bytes).

Definition lenOk (n : Z) : Prop := 0 ≤ n < 2 ^ 64 - 1.

Inductive segBytes : seg → list Z → Prop :=
  | sb_expire t : LLONG_MIN ≤ t ≤ LLONG_MAX → segBytes (SExpire t) ([RDB_OPCODE_EXPIRETIME_MS] ++ le 8 t)
  | sb_idle q : lenOk q → segBytes (SIdle q) ([RDB_OPCODE_IDLE] ++ lenBytes q)
  | sb_freq f : byte f → segBytes (SFreq f) ([RDB_OPCODE_FREQ] ++ [f])
  | sb_select j : lenOk j → segBytes (SSelect j) ([RDB_OPCODE_SELECTDB] ++ lenBytes j)
  | sb_resize n e : lenOk n → lenOk e → segBytes (SResize n e) ([RDB_OPCODE_RESIZEDB] ++ lenBytes n ++ lenBytes e)
  | sb_aux k v x y : stored k x → stored v y → segBytes (SAux k v) ([RDB_OPCODE_AUX] ++ x ++ y)
  | sb_key k s x y : stored k x → stored s y → segBytes (SKey k s) ([RDB_TYPE_STRING] ++ x ++ y).

Inductive segsBytes : list seg → list Z → Prop :=
  | sbs_nil : segsBytes [] []
  | sbs_cons sg segs x y : segBytes sg x → segsBytes segs y → segsBytes (sg :: segs) (x ++ y).

Lemma segsBytes_app segs1 segs2 x y : segsBytes segs1 x → segsBytes segs2 y → segsBytes (segs1 ++ segs2) (x ++ y).
Proof. induction 1 as [|sg segs x x' Hsg _ IH]; intros Hy; [done|]. rewrite <-app_assoc. constructor; auto. Qed.

Lemma segsBytes_one sg x : segBytes sg x → segsBytes [sg] x.
Proof. intros Hx. rewrite <-(app_nil_r x). by repeat constructor. Qed.

Lemma segsBytes_length segs x : segsBytes segs x → (length segs ≤ length x)%nat.
Proof.
  induction 1 as [|sg segs x y Hx _ IH]; [done|]. rewrite length_app. cbn [length].
  assert (1 ≤ length x)%nat by (destruct Hx; cbn [app length]; lia). lia.
Qed.

(** ** Loading segments *)

Section Exec.
Context `{Host} (bufAddr : Z → Z) (fresh : nat → Z) (ld : loader) (loadOther : Z → rioM (option robj)).

Definition execSeg (sg : seg) (a : attrs) : M loadState attrs :=
  match sg with
  | SExpire t => mret (mkAttrs (a_db a) (lru_idle a) (lfu_freq a) t)
  | SIdle q => mret (mkAttrs (a_db a) (i64 q) (lfu_freq a) (expiretime a))
  | SFreq f => mret (mkAttrs (a_db a) (lru_idle a) f (expiretime a))
  | SSelect j =>
      L ← get;
      if Z.of_nat (length (l_dbs L)) <=? j
      then fail (AssertFailed "FATAL: Data file was created with a Redis server configured to handle more databases")
      else mret (mkAttrs (Z.to_nat j) (lru_idle a) (lfu_freq a) (expiretime a))
  | SResize _ _ => mret a
  | SAux k v => loadAux ld k v ;; mret a
  | SKey k s => loadKey ld a k (canon s) ;; mret (mkAttrs (a_db a) (-1) (-1) (-1))
  end.

Fixpoint execSegs (segs : list seg) (a : attrs) : M loadState attrs :=
  match segs with
  | [] => mret a
  | sg :: segs => a ← execSeg sg a; execSegs segs a
  end.

Lemma execSegs_app segs1 segs2 a L a1 L1 : execSegs segs1 a L = Ok (a1, L1) → execSegs (segs1 ++ segs2) a L = execSegs segs2 a1 L1.
Proof.
  revert a L. induction segs1 as [|sg segs IH]; intros a L; [by intros [= -> ->]|]. cbn [execSegs app].
  cbv [mbind M_bind]. destruct (execSeg sg a L) as [[a' L']|]; [|done]. apply IH.
Qed.

(** Reading from the stream of the loader. *)
Lemma liftIo_loads {A B} (m : rioM A) (k : A → M loadState B) x y v L : Loads m x v → input (io L) (x ++ y) →
  (liftIo m ≫= k) L = k v (set_io (took x (io L)) L).
Proof. intros Hm Hi. apply bind_run. unfold liftIo. by rewrite (Hm _ _ Hi). Qed.

Lemma input_io r x y L : input (io L) (x ++ y) → r = took x (io L) → input (io (set_io r L)) y.
Proof. intros Hi ->. cbn. by apply input_took. Qed.

(** Nothing a segment does depends on the stream. *)
Definition ioFree {A} (m : M loadState A) : Prop := ∀ r L,
  m (set_io r L) = match m L with Ok (a, L') => Ok (a, set_io r L') | Fault f => Fault f end.

Lemma ioFree_ret {A} (a : A) : ioFree (mret a).
Proof. done. Qed.

Lemma ioFree_fail {A} f : ioFree (fail (A := A) f).
Proof. done. Qed.

Lemma ioFree_bind {A B} (m : M loadState A) (k : A → M loadState B) : ioFree m → (∀ a, ioFree (k a)) → ioFree (m ≫= k).
Proof. intros Hm Hk r L. cbv [mbind M_bind]. rewrite (Hm r L). destruct (m L) as [[a L']|]; [|done]. apply Hk. Qed.

Lemma ioFree_onDb {A} i (m : M redisDb A) : ioFree (onDb i m).
Proof. intros r L. unfold onDb. cbn. destruct (l_dbs L !! i); [|done]. by destruct (m _) as [[]|]. Qed.

Lemma ioFree_modify (f : loadState → loadState) : (∀ r L, f (set_io r L) = set_io r (f L)) → ioFree (modify f).
Proof. intros Hf r L. unfold modify. by rewrite Hf. Qed.

Lemma ioFree_luaCreateFunction b : ioFree (luaCreateFunction ld b).
Proof.
  intros r L. unfold luaCreateFunction. rewrite !bind_get. cbn [l_scripts set_io]. case_bool_decide; [done|].
  by destruct (ld_luaCompiles ld b).
Qed.

Lemma ioFree_loadAux k v : ioFree (loadAux ld k v).
Proof.
  unfold loadAux, updRsi. repeat case_match; try first [apply ioFree_ret|by apply ioFree_modify].
  apply ioFree_bind; [apply ioFree_luaCreateFunction|]. intros []; [apply ioFree_ret|apply ioFree_fail].
Qed.

Lemma ioFree_loadKey a k o : ioFree (loadKey ld a k o).
Proof.
  unfold loadKey. case_match; [apply ioFree_ret|]. apply ioFree_bind; [apply ioFree_onDb|intros added]. apply ioFree_bind.
  - destruct added; [apply ioFree_ret|]. case_match; [|apply ioFree_fail]. apply ioFree_bind; [apply ioFree_onDb|intros _].
    apply ioFree_bind; [apply ioFree_onDb|intros _; apply ioFree_ret].
  - intros _. case_match; [apply ioFree_onDb|apply ioFree_ret].
Qed.

Lemma ioFree_execSeg sg a : ioFree (execSeg sg a).
Proof.
  destruct sg; cbn [execSeg]; try apply ioFree_ret.
  - intros r L. rewrite !bind_get. cbn [l_dbs set_io]. by case_match.
  - apply ioFree_bind; [apply ioFree_loadAux|intros _; apply ioFree_ret].
  - apply ioFree_bind; [apply ioFree_loadKey|intros _; apply ioFree_ret].
Qed.

Lemma ioFree_execSegs segs a : ioFree (execSegs segs a).
Proof.
  revert a. induction segs as [|sg segs IH]; intros a; [apply ioFree_ret|]. apply ioFree_bind; [apply ioFree_execSeg|done].
Qed.

(** ** One turn *)

Lemma lenOk_eqb n : lenOk n → (n =? RDB_LENERR) = false.
Proof. unfold lenOk, RDB_LENERR. lia. Qed.

Lemma lenOk_loads n : lenOk n → Loads (rdbLoadLen bufAddr) (lenBytes n) (false, n).
Proof. unfold lenOk. intros. apply rdbLoadLen_reads. lia. Qed.

Lemma loadTurn_seg sg x y a L : segBytes sg x → input (io L) (x ++ y) →
  loadTurn bufAddr fresh ld loadOther 9 a L = (a' ← execSeg sg a; mret (Continue a')) (set_io (took x (io L)) L).
Proof.
  intros Hsg Hi. unfold loadTurn.
  assert (∃ t z, x = [t] ++ z ∧ byte t) as (t & z & -> & Ht) by (destruct Hsg; (eexists _, _; split; [done|by split])).
  rewrite <-app_assoc in Hi. erewrite liftIo_loads; [|by apply rdbLoadType_reads|done].
  rewrite <-took_app. apply input_took in Hi. set (r := took [t] (io L)) in *. set (L1 := set_io r L).
  replace (set_io (took z r) L) with (set_io (took z (io L1)) L1) by done. change r with (io L1) in Hi. clearbody L1 r.
  inversion Hsg as [t' Hr|q Hq|f Hf|j Hj|n e Hn He|k v kx vx Hk Hv|k s kx vx Hk Hv]; subst; clear Hsg Ht; cbn [execSeg];
    cbn [Z.eqb Pos.eqb RDB_OPCODE_EXPIRETIME_MS RDB_OPCODE_EXPIRETIME RDB_OPCODE_FREQ RDB_OPCODE_IDLE RDB_OPCODE_EOF
      RDB_OPCODE_SELECTDB RDB_OPCODE_RESIZEDB RDB_OPCODE_AUX RDB_OPCODE_MODULE_AUX RDB_TYPE_STRING].
  - erewrite liftIo_loads; [|by apply rdbLoadMillisecondTime_reads|done].
    rewrite (bind_run _ _ _ _ _ (eq_refl : liftIo rioGetReadError _ = Ok (_, _))). cbn [io set_io read_error].
    by rewrite (i_noerror _ _ (input_took _ _ _ Hi)).
  - erewrite liftIo_loads; [|exact (lenOk_loads _ Hq)|done]. cbn [snd]. by rewrite lenOk_eqb.
  - erewrite liftIo_loads; [|by apply (Loads_read _ [f])|done]. done.
  - erewrite liftIo_loads; [|exact (lenOk_loads _ Hj)|done]. cbn [snd]. rewrite lenOk_eqb by done.
    rewrite bind_get. cbv [mbind M_bind get]. by destruct (_ <=? j).
  - rewrite <-app_assoc in Hi. erewrite liftIo_loads; [|exact (lenOk_loads _ Hn)|done]. cbn [snd]. rewrite lenOk_eqb by done.
    erewrite liftIo_loads; [|exact (lenOk_loads _ He)|by eapply input_io]. cbn [snd io set_io].
    by rewrite lenOk_eqb, took_app by done.
  - rewrite <-app_assoc in Hi. destruct (rdbGenericLoadStringObject_reads bufAddr fresh LOAD_NONE k kx Hk) as (ko & -> & Hkl & _).
    destruct (rdbGenericLoadStringObject_reads bufAddr fresh LOAD_NONE v vx Hv) as (vo & -> & Hvl & _).
    erewrite liftIo_loads; [|exact Hkl|done]. cbn beta iota. erewrite liftIo_loads; [|exact Hvl|by eapply input_io].
    cbn beta iota. cbn [io set_io]. rewrite took_app. cbv [mbind M_bind ptrSds mret M_ret]. cbn [createRawStringObject o_ptr].
    change (set_io (took (kx ++ vx) (io L1)) (set_io (took kx (io L1)) L1)) with (set_io (took (kx ++ vx) (io L1)) L1).
    by destruct (loadAux ld k v _) as [[]|].
  - rewrite <-app_assoc in Hi. destruct (rdbGenericLoadStringObject_reads bufAddr fresh LOAD_SDS k kx Hk) as (ko & -> & Hkl & _).
    erewrite liftIo_loads; [|exact Hkl|done]. cbn beta iota.
    erewrite liftIo_loads; [|by apply rdbLoadObject_reads|by eapply input_io]. cbn beta iota. cbn [io set_io]. rewrite took_app.
    change (set_io (took (kx ++ vx) (io L1)) (set_io (took kx (io L1)) L1)) with (set_io (took (kx ++ vx) (io L1)) L1).
    cbv [mbind M_bind mret M_ret]. by destruct (loadKey ld a k _ _) as [[]|].
Qed.

(** All turns but the last. *)
Lemma loadLoop_segs segs x : segsBytes segs x → ∀ y fuel a L a' L', input (io L) (x ++ y) → execSegs segs a L = Ok (a', L') →
  loadLoop bufAddr fresh ld loadOther (length segs + fuel) 9 a L =
  loadLoop bufAddr fresh ld loadOther fuel 9 a' (set_io (took x (io L)) L').
Proof.
  induction 1 as [|sg segs x1 x2 Hsg _ IH]; intros y fuel a L a' L' Hi Hex.
  { injection Hex as <- <-. rewrite took_nil. by destruct L. }
  cbn [length Nat.add loadLoop]. rewrite <-app_assoc in Hi. cbn [execSegs] in Hex.
  destruct (execSeg sg a L) as [[a1 L1]|] eqn:E; [|cbv [mbind M_bind] in Hex; by rewrite E in Hex].
  rewrite (bind_run _ _ _ _ _ E) in Hex.
  rewrite (bind_run _ _ _ (Continue a1) (set_io (took x1 (io L)) L1)).
  2: { rewrite (loadTurn_seg _ _ _ _ _ Hsg Hi). cbv [mbind M_bind]. by rewrite (ioFree_execSeg sg a), E. }
  erewrite (IH y); [|cbn; by eapply input_took|by rewrite (ioFree_execSegs segs a1), Hex]. cbn [io set_io]. by rewrite took_app.
Qed.

End Exec.

(** ** Saving segments *)

(** The bytes a string object stands for. *)
Definition text (o : robj) : bytes := match o_ptr o with PtrSds s => s | PtrLong n => decimal n | PtrData _ => [] end.

Lemma text_string o s : string_obj o s → text o = s.
Proof. by destruct 1. Qed.

Lemma text_canon s : text (canon s) = s.
Proof. apply text_string, canon_string. Qed.

(** A string value that can be saved. *)
Definition saveable (o : robj) : Prop := string_obj o (text o) ∧ size (text o) < 2 ^ 31.

Definition entrySegs (sv : saver) (db : redisDb) (e : bytes * robj) : list seg :=
  (match expires db !! e.1 with Some w => if w =? -1 then [] else [SExpire w] | None => [] end) ++
  (if s_savelru sv then [SIdle (u64 (s_idletime sv e.1) / 1000)] else []) ++
  (if s_savelfu sv then [SFreq (Lzf.u8 (s_lfu sv e.1))] else []) ++
  [SKey e.1 (text e.2)].

Definition entriesSegs (sv : saver) (db : redisDb) (l : list (bytes * robj)) : list seg := concat (entrySegs sv db <$> l).

Definition dbSegs (sv : saver) (order : gmap bytes robj → list (bytes * robj)) (j : Z) (db : redisDb) : list seg :=
  if Z.of_nat (base.size (dict db)) =? 0 then []
  else SSelect j :: SResize (Z.of_nat (base.size (dict db))) (Z.of_nat (base.size (expires db))) :: entriesSegs sv db (order (dict db)).

Fixpoint dbsSegs (sv : saver) (order : gmap bytes robj → list (bytes * robj)) (j : Z) (dbs : list redisDb) : list seg :=
  match dbs with
  | [] => []
  | db :: dbs => dbSegs sv order j db ++ dbsSegs sv order (j + 1) dbs
  end.

Definition infoSegs (sv : saver) (aof_preamble : bool) (rsi : option rdbSaveInfo) : list seg :=
  [SAux (B "redis-ver") (B REDIS_VERSION); SAux (B "redis-bits") (decimal 64); SAux (B "ctime") (decimal (s_time sv));
   SAux (B "used-mem") (decimal (s_used_memory sv))] ++
  match rsi with
  | Some rsi => [SAux (B "repl-stream-db") (decimal (repl_stream_db rsi)); SAux (B "repl-id") (s_replid sv);
                 SAux (B "repl-offset") (decimal (s_master_repl_offset sv))]
  | None => []
  end ++
  [SAux (B "aof-preamble") (decimal (if aof_preamble then 1 else 0))].

Definition scriptSegs (sv : saver) (rsi : option rdbSaveInfo) : list seg :=
  match rsi with Some _ => SAux (B "lua") <$> s_lua_scripts sv | None => [] end.

(** What can be saved: strings, of a size that fits an [int], expires of 64 bits. *)
Record dbSaveable (db : redisDb) : Prop := {
  sd_wf : db_wf db;
  sd_values : map_Forall (λ k o, size k < 2 ^ 31 ∧ saveable o) (dict db);
  sd_expires : map_Forall (λ _ w, w ≠ -1 ∧ LLONG_MIN ≤ w ≤ LLONG_MAX) (expires db);
  sd_size : Z.of_nat (base.size (dict db)) < 2 ^ 63 ∧ Z.of_nat (base.size (expires db)) < 2 ^ 63 }.

Definition llong (z : Z) : Prop := LLONG_MIN ≤ z ≤ LLONG_MAX.

Record saverOk (sv : saver) (rsi : option rdbSaveInfo) : Prop := {
  so_time : llong (s_time sv);
  so_memory : llong (s_used_memory sv);
  so_offset : llong (s_master_repl_offset sv);
  so_replid : size (s_replid sv) < 2 ^ 31;
  so_scripts : Forall (λ b, size b < 2 ^ 31) (s_lua_scripts sv);
  so_rsi : ∀ r, rsi = Some r → llong (repl_stream_db r) }.

(** [m] writes the segments. *)
Definition Writes `{Host} (m : rioM bool) (segs : list seg) : Prop := ∃ x, segsBytes segs x ∧ Saves m x true.

Section Write.
Context `{Host} (bufAddr htab : Z → Z) (fresh : nat → Z) (sv : saver) (saveOther : robj → rioM Z) (typeOther : robj → Z).
Context (htab_u32 : ∀ j, 0 ≤ htab j < 2 ^ 32).

Lemma saved_saves m x n : Saves m x n → n ≠ -1 → Saves (saved m) x true.
Proof. intros Hm Hn. eapply Saves_last; [done|]. cbn beta. by destruct (Z.eqb_spec n (-1)). Qed.

Lemma andThen_saves m k x y b : Saves m x true → Saves k y b → Saves (andThen m k) (x ++ y) b.
Proof. intros Hm Hk. by eapply Saves_bind. Qed.

Lemma Writes_nil : Writes (mret true) [].
Proof. exists []. split; [constructor|apply Saves_ret]. Qed.

Lemma Writes_andThen m k segs1 segs2 : Writes m segs1 → Writes k segs2 → Writes (andThen m k) (segs1 ++ segs2).
Proof. intros (x & Hx & Hm) (y & Hy & Hk). exists (x ++ y). split; [by apply segsBytes_app|by apply andThen_saves]. Qed.

Lemma Writes_one m sg x : segBytes sg x → Saves m x true → Writes m [sg].
Proof. intros Hx Hm. exists x. split; [by apply segsBytes_one|done]. Qed.

Lemma saveType_saves t : byte t → Saves (saved (rdbSaveType bufAddr t)) [t] true.
Proof. intros Ht. eapply saved_saves; [by apply rdbSaveType_saves|done]. Qed.

Lemma saveLen_saves n : lenOk n → Saves (saved (rdbSaveLen bufAddr n)) (lenBytes n) true.
Proof. unfold lenOk. intros Hn. eapply saved_saves; [apply rdbSaveLen_saves; lia|lia]. Qed.

Lemma rdbSaveAuxField_writes k v : size k < 2 ^ 31 → size v < 2 ^ 31 →
  Writes (saved (rdbSaveAuxField bufAddr htab fresh sv k v)) [SAux k v].
Proof.
  intros Hk Hv. destruct (rdbSaveRawString_saves bufAddr htab fresh (s_rdb_compression sv) htab_u32 k Hk) as (x & Hx & Hsx).
  destruct (rdbSaveRawString_saves bufAddr htab fresh (s_rdb_compression sv) htab_u32 v Hv) as (y & Hy & Hsy).
  eapply Writes_one; [by apply sb_aux|]. eapply (saved_saves _ _ (1 + size x + size y)); [|lia].
  unfold rdbSaveAuxField. eapply Saves_bind; [by apply rdbSaveType_saves|]. cbn [Z.eqb]. eapply Saves_bind; [done|]. cbn beta. rewrite size_neq.
  eapply Saves_last; [done|]. cbn beta. by rewrite size_neq.
Qed.

Lemma auxInt_writes k v : size (B k) < 2 ^ 31 → llong v → Writes (saved (rdbSaveAuxFieldStrInt bufAddr htab fresh sv k v)) [SAux (B k) (decimal v)].
Proof.
  intros Hk Hv. unfold rdbSaveAuxFieldStrInt. rewrite ll2buf_decimal by (done || unfold LONG_STR_SIZE; lia).
  apply rdbSaveAuxField_writes; [done|]. pose proof (length_decimal v Hv). lia.
Qed.

Lemma saveKey_writes (k : bytes) o : size k < 2 ^ 31 → saveable o →
  Writes (andThen (saved (rdbSaveObjectType bufAddr typeOther o)) (
    andThen (saved (rdbSaveStringObject bufAddr htab fresh (s_rdb_compression sv) (createRawStringObject k)))
            (saved (rdbSaveObject bufAddr htab fresh (s_rdb_compression sv) saveOther o)))) [SKey k (text o)].
Proof.
  intros Hk [Ho Hs].
  destruct (rdbSaveStringObject_saves bufAddr htab fresh (s_rdb_compression sv) htab_u32 (createRawStringObject k) k) as (x & Hx & Hsx); [constructor|done|].
  destruct (rdbSaveObject_saves bufAddr htab fresh (s_rdb_compression sv) htab_u32 saveOther o (text o) Ho Hs) as (y & Hy & Hsy).
  eapply Writes_one; [by apply sb_key|]. apply andThen_saves; [eapply saved_saves; [by eapply rdbSaveObjectType_saves|done]|].
  apply andThen_saves; (eapply saved_saves; [done|lia]).
Qed.

Lemma lru_len k : lenOk (u64 (s_idletime sv k) / 1000).
Proof. pose proof (u64_range (s_idletime sv k)) as Hr. unfold ULLONG_MAX in Hr. unfold lenOk. pose proof (div_range (u64 (s_idletime sv k)) 1000 (2 ^ 63)). lia. Qed.

Lemma rdbSaveKeyValuePair_writes db k o : size k < 2 ^ 31 → saveable o → (∀ w, expires db !! k = Some w → llong w) →
  Writes (rdbSaveKeyValuePair bufAddr htab fresh sv saveOther typeOther k o (default (-1) (expires db !! k))) (entrySegs sv db (k, o)).
Proof.
  intros Hk Ho He. unfold rdbSaveKeyValuePair, entrySegs. cbn [fst snd].
  apply Writes_andThen; [|apply Writes_andThen; [|apply Writes_andThen; [|by apply saveKey_writes]]].
  - destruct (expires db !! k) as [w|]; [|apply Writes_nil]. change (default (-1) (Some w)) with w. destruct (Z.eqb_spec w (-1)); cbn [negb]; [apply Writes_nil|].
    eapply Writes_one; [by apply sb_expire, He|]. apply andThen_saves; [by apply saveType_saves|].
    eapply saved_saves; [apply rdbSaveMillisecondTime_saves|done].
  - destruct (s_savelru sv); [|apply Writes_nil]. eapply Writes_one; [apply sb_idle, lru_len|].
    apply andThen_saves; [by apply saveType_saves|apply saveLen_saves, lru_len].
  - destruct (s_savelfu sv); [|apply Writes_nil]. assert (byte (Lzf.u8 (s_lfu sv k))) as Hb by (apply Z.mod_pos_bound; lia).
    eapply Writes_one; [by apply sb_freq|]. apply andThen_saves; [by apply saveType_saves|].
    eapply saved_saves; [apply rdbWriteRaw_saves; [by apply Forall_singleton|cbn; lia]|done].
Qed.

Lemma expireOf_run db k r : dbSaveable db → is_Some (dict db !! k) → expireOf db k r = Ok (default (-1) (expires db !! k), r).
Proof.
  intros Hdb Hk. unfold expireOf, getExpire. rewrite bind_get. case_bool_decide as Hz.
  { by rewrite (size_zero_lookup _ _ Hz). }
  destruct (expires db !! k); [|done]. by rewrite (bind_run _ _ _ _ _ (serverAssert_run _ _ _ (bool_decide_eq_true_2 _ Hk))).
Qed.

Lemma saveEntries_writes db l : dbSaveable db → Forall (λ e, dict db !! e.1 = Some e.2) l →
  Writes (saveEntries bufAddr htab fresh sv saveOther typeOther db l) (entriesSegs sv db l).
Proof.
  intros Hdb. induction 1 as [|[k o] l Hko _ IH]; [apply Writes_nil|]. cbn [fst snd] in Hko. cbn [saveEntries].
  destruct (sd_values _ Hdb k o Hko) as [Hk Ho].
  assert (Writes (andThen (rdbSaveKeyValuePair bufAddr htab fresh sv saveOther typeOther k o (default (-1) (expires db !! k)))
    (saveEntries bufAddr htab fresh sv saveOther typeOther db l)) (entrySegs sv db (k, o) ++ entriesSegs sv db l)) as (x & Hx & Hb & Hs).
  { apply Writes_andThen; [|done]. apply rdbSaveKeyValuePair_writes; [done|done|]. intros w Hw. by apply (sd_expires _ Hdb k w Hw). }
  exists x. split; [done|]. split; [done|]. intros r Hr. rewrite (bind_run _ _ _ _ _ (expireOf_run db k r Hdb (mk_is_Some _ _ Hko))). by apply Hs.
Qed.

Context (order : gmap bytes robj → list (bytes * robj)) (order_perm : ∀ d, order d ≡ₚ map_to_list d).

Lemma order_entries d : Forall (λ e, d !! e.1 = Some e.2) (order d).
Proof. rewrite (order_perm d). apply Forall_forall. intros [k o] Hin. by apply elem_of_map_to_list in Hin. Qed.

Lemma saveDbs_writes dbs : ∀ j, 0 ≤ j → j + Z.of_nat (length dbs) < 2 ^ 63 → Forall dbSaveable dbs →
  Writes (saveDbs bufAddr htab fresh sv saveOther typeOther order j dbs) (dbsSegs sv order j dbs).
Proof.
  induction dbs as [|db dbs IH]; intros j Hj Hlen Hdbs; [apply Writes_nil|]. apply Forall_cons in Hdbs as [Hdb Hdbs].
  cbn [saveDbs dbsSegs length] in *. unfold dbSegs. destruct (Z.eqb_spec (Z.of_nat (base.size (dict db))) 0).
  { apply IH; [lia|lia|done]. }
  destruct (sd_size _ Hdb) as [Hn He]. assert (lenOk j) by (unfold lenOk; lia). assert (∀ n : nat, Z.of_nat n < 2 ^ 63 → lenOk (Z.of_nat n)) as Hl by (unfold lenOk; lia).
  destruct (Writes_andThen _ _ _ _ (saveEntries_writes db (order (dict db)) Hdb (order_entries _)) (IH (j + 1) ltac:(lia) ltac:(lia) Hdbs)) as (x & Hx & Hs).
  eexists. split; [apply sbs_cons; [by apply sb_select|apply sbs_cons; [by apply sb_resize; apply Hl|exact Hx]]|].
  rewrite <-!app_assoc. apply andThen_saves; [by apply saveType_saves|]. apply andThen_saves; [by apply saveLen_saves|].
  apply andThen_saves; [by apply saveType_saves|]. apply andThen_saves; [by apply saveLen_saves, Hl|]. apply andThen_saves; [by apply saveLen_saves, Hl|done].
Qed.

Lemma rdbSaveInfoAuxFields_writes aof rsi : saverOk sv rsi →
  Writes (rdbSaveInfoAuxFields bufAddr htab fresh sv aof rsi) (infoSegs sv aof rsi).
Proof.
  intros [Ht Hm Ho Hid _ Hrsi]. unfold rdbSaveInfoAuxFields, infoSegs.
  assert (∀ z, 0 ≤ z ≤ 64 → llong z) as Hsmall by (intros z Hz; unfold llong, LLONG_MIN, LLONG_MAX; lia).
  apply (Writes_andThen _ _ [_]); [by apply rdbSaveAuxField_writes|].
  apply (Writes_andThen _ _ [_]); [apply auxInt_writes; [done|by apply Hsmall]|].
  apply (Writes_andThen _ _ [_]); [by apply auxInt_writes|].
  apply (Writes_andThen _ _ [_]); [by apply auxInt_writes|].
  apply Writes_andThen; [|apply auxInt_writes; [done|apply Hsmall; by case_match]].
  destruct rsi as [r|]; [|apply Writes_nil].
  apply (Writes_andThen _ _ [_]); [apply auxInt_writes; [done|by apply Hrsi]|].
  apply (Writes_andThen _ _ [_] [_]); [by apply rdbSaveAuxField_writes|by apply auxInt_writes].
Qed.

Lemma saveScripts_writes l : Forall (λ b, size b < 2 ^ 31) l → Writes (saveScripts bufAddr htab fresh sv l) (SAux (B "lua") <$> l).
Proof.
  induction 1 as [|b l Hb _ IH]; [apply Writes_nil|]. apply (Writes_andThen _ _ [_]); [by apply rdbSaveAuxField_writes|done].
Qed.

(** The file up to its checksum, and all of it. *)
Definition fileBody (z : list Z) : list Z := raw (B "REDIS0009") ++ z ++ [RDB_OPCODE_EOF].
Definition fileCrc (checksum : bool) (z : list Z) : Z := if checksum then crcUpd 0 (fileBody z) else 0.
Definition fileOf (checksum : bool) (z : list Z) : list Z := fileBody z ++ le 8 (fileCrc checksum z).
Definition fileSegs (aof : bool) (rsi : option rdbSaveInfo) (dbs : list redisDb) : list seg :=
  infoSegs sv aof rsi ++ dbsSegs sv order 0 dbs ++ scriptSegs sv rsi.

Lemma andThen_run m k x r : Saves m x true → output r → andThen m k r = k (wrote x r).
Proof. intros [_ Hm] Ho. unfold andThen. by rewrite (bind_run _ _ _ _ _ (Hm r Ho)). Qed.

Lemma rdbSaveRio_run aof rsi dbs : saverOk sv rsi → Forall dbSaveable dbs → Z.of_nat (length dbs) < 2 ^ 31 →
  ∃ z r, segsBytes (fileSegs aof rsi dbs) z ∧ Forall byte z ∧ ptr r = fileOf (s_rdb_checksum sv) z ∧
    rdbSaveRio bufAddr htab fresh sv saveOther typeOther order aof rsi dbs (rioInitWithBuffer []) = Ok (true, r).
Proof.
  intros Hsv Hdbs Hlen. destruct (rdbSaveInfoAuxFields_writes aof rsi Hsv) as (x1 & Hx1 & Hs1).
  destruct (saveDbs_writes dbs 0) as (x2 & Hx2 & Hs2); [lia|lia|done|].
  assert (Writes (match rsi with Some _ => saveScripts bufAddr htab fresh sv (s_lua_scripts sv) | None => mret true end) (scriptSegs sv rsi))
    as (x3 & Hx3 & Hs3).
  { destruct rsi; [by apply saveScripts_writes, Hsv|apply Writes_nil]. }
  exists (x1 ++ x2 ++ x3). set (r0 := if s_rdb_checksum sv then set_update_cksum true (rioInitWithBuffer []) else rioInitWithBuffer []).
  assert (output r0) as Ho.
  { subst r0. destruct (s_rdb_checksum sv); (split; [done|cbn; lia|apply crcOk_0]). }
  assert (Saves (saved (rdbWriteRaw bufAddr (raw (B "REDIS0009")))) (raw (B "REDIS0009")) true) as Hs0.
  { eapply saved_saves; [apply rdbWriteRaw_saves; [apply raw_bytes|done]|done]. }
  pose proof (saveType_saves RDB_OPCODE_EOF ltac:(done)) as Hs4.
  eexists. split; [by apply segsBytes_app, segsBytes_app|]. split; [apply Forall_app; split; [apply Hs1|apply Forall_app; split; [apply Hs2|apply Hs3]]|].
  unfold rdbSaveRio. rewrite (bind_run _ _ _ tt r0) by (subst r0; by destruct (s_rdb_checksum sv)).
  rewrite (andThen_run _ _ _ _ Hs0 Ho). pose proof (output_wrote _ _ Ho (proj1 Hs0)) as Ho0.
  rewrite (andThen_run _ _ _ _ Hs1 Ho0). pose proof (output_wrote _ _ Ho0 (proj1 Hs1)) as Ho1.
  rewrite (andThen_run _ _ _ _ Hs2 Ho1). pose proof (output_wrote _ _ Ho1 (proj1 Hs2)) as Ho2.
  rewrite (andThen_run _ _ _ _ Hs3 Ho2). pose proof (output_wrote _ _ Ho2 (proj1 Hs3)) as Ho3.
  rewrite (andThen_run _ _ _ _ Hs4 Ho3). pose proof (output_wrote _ _ Ho3 (proj1 Hs4)) as Ho4.
  rewrite !wrote_app in *. set (r4 := wrote (raw (B "REDIS0009") ++ x1 ++ x2 ++ x3 ++ [RDB_OPCODE_EOF]) r0) in *.
  assert (cksum r4 = fileCrc (s_rdb_checksum sv) (x1 ++ x2 ++ x3)) as Hck.
  { subst r4. unfold fileCrc, fileBody. rewrite <-!app_assoc. subst r0. by destruct (s_rdb_checksum sv). }
  rewrite bind_gets, Hck. unfold memrev64ifbe. rewrite (memrev_stored 8) by (done || apply memrev64_reverse).
  rewrite rioWrite_run by (done || by apply le_byte). split; [|reflexivity].
  subst r4. cbn [wrote set_buffer ptr]. unfold fileOf, fileBody. rewrite <-!app_assoc. subst r0. by destruct (s_rdb_checksum sv).
Qed.

End Write.

(** ** What the segments of a file do *)

Lemma spanDigits_all p : Forall (λ c, is_digit c = true) p → spanDigits p = (p, []).
Proof. induction 1 as [|c p Hc _ IH]; [done|]. cbn. by rewrite Hc, IH. Qed.

Lemma dec_all_digits k n : spanDigits (dec k n) = (dec k n, []).
Proof. apply spanDigits_all, dec_digits. Qed.

Lemma skipBlanks_id c p : isspace c = false → skipBlanks (c :: p) = c :: p.
Proof. intros Hc. cbn. by rewrite Hc, andb_false_r. Qed.

(** [strtoll] of the text of an integer is that integer. *)
Lemma strtoll_decimal v : llong v → strtoll (decimal v) = (v, []).
Proof.
  intros Hv. unfold llong, LLONG_MIN, LLONG_MAX in Hv.
  assert (∀ n, 0 ≤ n ≤ ULLONG_MAX → ∃ c p, dec (Z.to_nat (digits10 n)) n = c :: p ∧ is_digit c = true ∧
    dval 0 (dec (Z.to_nat (digits10 n)) n) = n) as Hdec.
  { intros n Hn. destruct (digits10_ndigits n Hn) as (Hk & Hr & _). pose proof (dec_digits (Z.to_nat (digits10 n)) n) as Hd.
    pose proof (length_dec (Z.to_nat (digits10 n)) n) as Hl. rewrite dval_dec by done.
    destruct (dec _ n) as [|c p]; [cbn in Hl; lia|]. exists c, p. apply Forall_cons in Hd as [Hc _]. split_and!; [done|done|lia]. }
  assert (∀ c, is_digit c = true → isspace c = false ∧ c ≠ MINUS ∧ c ≠ "+"%char) as Hchar.
  { intros c Hc%is_digit_spec. unfold isspace. split_and!; [lia|intros ->; change (code MINUS) with 45 in Hc; lia|intros ->; change (code "+") with 43 in Hc; lia]. }
  unfold strtoll. destruct (Z.lt_ge_cases v 0).
  - rewrite decimal_neg_cases by done. rewrite skipBlanks_id by done. rewrite bool_decide_eq_true_2 by done.
    destruct (Hdec (- v)) as (c & p & Heq & Hc & Hval); [unfold ULLONG_MAX; lia|]. pose proof (dec_all_digits (Z.to_nat (digits10 (- v))) (- v)) as Hs.
    rewrite Heq in *. rewrite Hc, Hs, Hval. f_equal. unfold LLONG_MIN. lia.
  - rewrite decimal_nonneg by done. destruct (Hdec v) as (c & p & Heq & Hc & Hval); [unfold ULLONG_MAX; lia|].
    pose proof (dec_all_digits (Z.to_nat (digits10 v)) v) as Hs. destruct (Hchar c Hc) as (Hsp & Hm & Hp). rewrite Heq in *.
    rewrite skipBlanks_id by done. rewrite !bool_decide_eq_false_2 by done. rewrite Hc, Hs, Hval. f_equal. unfold LLONG_MAX. lia.
Qed.

Lemma union_singleton_known (m : gmap bytes bytes) k v : is_Some (m !! k) → m ∪ {[k := v]} = m.
Proof.
  intros [w Hw]. apply map_eq. intros j. rewrite lookup_union. destruct (decide (j = k)) as [->|Hne].
  - by rewrite Hw, lookup_singleton_eq.
  - rewrite lookup_singleton_ne by done. by destruct (m !! j).
Qed.

Lemma union_singleton_new (m : gmap bytes bytes) k v : m !! k = None → m ∪ {[k := v]} = <[k := v]> m.
Proof. intros Hk. rewrite insert_union_singleton_l. apply map_union_comm. by apply map_disjoint_singleton_r. Qed.

Section Effect.
Context (ld : loader) (sv : saver) (order : gmap bytes robj → list (bytes * robj)) (order_perm : ∀ d, order d ≡ₚ map_to_list d).
Context (scripts_ok : Forall (λ b, ld_luaCompiles ld b = true) (s_lua_scripts sv)).

(** A master drops the keys that have expired. *)
Definition dropped (db : redisDb) (k : bytes) : bool :=
  ld_iAmMaster ld && negb (ld_aof_preamble ld) && match expires db !! k with Some w => w <? ld_now ld | None => false end.

(** The effect of one key. *)
Definition loadEntry (db d : redisDb) (e : bytes * robj) : redisDb :=
  if dropped db e.1 then d else
  with_keyspace (<[e.1 := canon (text e.2)]> (dict d))
    (match expires db !! e.1 with Some w => <[e.1 := w]> (expires d) | None => expires d end) d.

Abbreviation noAttrs j := (mkAttrs j (-1) (-1) (-1)).

Lemma loadKey_run a db d k o L : l_dbs L !! a_db a = Some d → dict d !! k = None → dbSaveable db →
  expiretime a = default (-1) (expires db !! k) →
  loadKey ld a k (canon (text o)) L = Ok (tt, set_l_dbs (<[a_db a := loadEntry db d (k, o)]> (l_dbs L)) L).
Proof.
  intros Hd Hk Hdb He. unfold loadKey, loadEntry, dropped. cbn [fst snd]. rewrite He.
  assert (∀ w, expires db !! k = Some w → (w =? -1) = false) as Hw.
  { intros w Hw. destruct (sd_expires _ Hdb k w Hw) as [Hne _]. lia. }
  assert (set_l_dbs (<[a_db a:=d]> (l_dbs L)) L = L) as Hid by (rewrite list_insert_id by done; by destruct L).
  set (d1 := with_keyspace (<[k := canon (text o)]> (dict d)) (expires d) d). set (L1 := set_l_dbs (<[a_db a := d1]> (l_dbs L)) L).
  assert (onDb (a_db a) (dbAddRDBLoad k (canon (text o))) L = Ok (true, L1)) as Hadd.
  { unfold onDb. rewrite Hd. unfold dbAddRDBLoad. by rewrite bind_get, Hk. }
  destruct (expires db !! k) as [w|] eqn:E.
  - change (default (-1) (Some w)) with w. rewrite (Hw w eq_refl). cbn [negb]. rewrite andb_true_r.
    destruct (_ && _ && _); [by rewrite Hid|]. rewrite (bind_run _ _ _ _ _ Hadd). cbn beta iota. rewrite bind_ret.
    unfold onDb. cbn [l_dbs L1 set_l_dbs]. rewrite list_lookup_insert_eq by (by eapply lookup_lt_Some).
    rewrite setExpire_run by (cbn; rewrite lookup_insert_eq; by eexists). unfold L1. cbn. by rewrite list_insert_insert_eq.
  - cbn [default]. rewrite !andb_false_r. cbn [andb]. by rewrite (bind_run _ _ _ _ _ Hadd).
Qed.

Lemma execSegs_entry db d k o j L : l_dbs L !! j = Some d → dict d !! k = None → dbSaveable db →
  execSegs ld (entrySegs sv db (k, o)) (noAttrs j) L =
  Ok (noAttrs j, set_l_dbs (<[j := loadEntry db d (k, o)]> (l_dbs L)) L).
Proof.
  intros Hd Hk Hdb. unfold entrySegs. cbn [fst snd].
  assert (∀ a, a_db a = j → expiretime a = default (-1) (expires db !! k) →
    execSegs ld [SKey k (text o)] a L = Ok (noAttrs j, set_l_dbs (<[j := loadEntry db d (k, o)]> (l_dbs L)) L)) as Hkey.
  { intros a <- He. cbn [execSegs execSeg]. cbv [mbind M_bind]. by rewrite (loadKey_run a db d) by done. }
  assert (∀ a, a_db a = j → expiretime a = default (-1) (expires db !! k) →
    execSegs ld ((if s_savelru sv then [SIdle (u64 (s_idletime sv k) / 1000)] else []) ++
      (if s_savelfu sv then [SFreq (Lzf.u8 (s_lfu sv k))] else []) ++ [SKey k (text o)]) a L =
    Ok (noAttrs j, set_l_dbs (<[j := loadEntry db d (k, o)]> (l_dbs L)) L)) as Hrest.
  { intros a Hj He. destruct (s_savelru sv), (s_savelfu sv); cbn [app execSegs execSeg]; rewrite ?bind_ret; by apply Hkey. }
  destruct (expires db !! k) as [w|] eqn:E; [|by apply Hrest].
  destruct (sd_expires _ Hdb k w E) as [Hne _]. destruct (Z.eqb_spec w (-1)); [done|]. cbn [app execSegs execSeg]. rewrite bind_ret.
  by apply Hrest.
Qed.

Lemma loadEntry_dict db d e k : k ≠ e.1 → dict (loadEntry db d e) !! k = dict d !! k ∧ expires (loadEntry db d e) !! k = expires d !! k.
Proof.
  intros Hne. unfold loadEntry. case_match; [done|]. cbn. rewrite lookup_insert_ne by done. split; [done|].
  case_match; [by rewrite lookup_insert_ne|done].
Qed.

Lemma execSegs_entries db l : dbSaveable db → NoDup l.*1 → ∀ d j L, l_dbs L !! j = Some d → (∀ k, k ∈ l.*1 → dict d !! k = None) →
  execSegs ld (entriesSegs sv db l) (noAttrs j) L = Ok (noAttrs j, set_l_dbs (<[j := foldl (loadEntry db) d l]> (l_dbs L)) L).
Proof.
  intros Hdb. induction l as [|[k o] l IH]; intros Hnd d j L Hd Hk.
  { cbn. rewrite list_insert_id by done. by destruct L. }
  apply NoDup_cons in Hnd as [Hnin Hnd]. cbn [fst] in *. unfold entriesSegs. cbn [fmap list_fmap concat foldl].
  erewrite execSegs_app; [|apply execSegs_entry; [done|apply Hk; by left|done]].
  fold (entriesSegs sv db l). assert (j < length (l_dbs L))%nat as Hlt by by eapply lookup_lt_Some.
  erewrite IH; [|done|cbn; by apply list_lookup_insert_eq|].
  - cbn. by rewrite list_insert_insert_eq.
  - intros k' Hin. rewrite (proj1 (loadEntry_dict db d (k, o) k' ltac:(cbn; intros ->; done))). apply Hk. by right.
Qed.

(** What a database becomes. *)
Definition loadedDb (db d : redisDb) : redisDb := foldl (loadEntry db) d (order (dict db)).

Lemma order_keys d : NoDup (order d).*1.
Proof. rewrite (order_perm d). apply NoDup_fst_map_to_list. Qed.

Lemma foldl_loadEntry db l : NoDup l.*1 → ∀ d k,
  dict (foldl (loadEntry db) d l) !! k =
    match (list_to_map l : gmap bytes robj) !! k with
    | Some o => if dropped db k then dict d !! k else Some (canon (text o)) | None => dict d !! k end ∧
  expires (foldl (loadEntry db) d l) !! k =
    match (list_to_map l : gmap bytes robj) !! k with
    | Some o => if dropped db k then expires d !! k else match expires db !! k with Some w => Some w | None => expires d !! k end
    | None => expires d !! k end.
Proof.
  induction l as [|[k o] l IH]; intros Hnd d k'; [done|]. apply NoDup_cons in Hnd as [Hnin Hnd]. cbn [fst] in Hnin. cbn [foldl].
  destruct (IH Hnd (loadEntry db d (k, o)) k') as [-> ->]. cbn [list_to_map fold_right uncurry foldr]. destruct (decide (k = k')) as [<-|Hne].
  - rewrite lookup_insert_eq, (proj1 (not_elem_of_list_to_map _ _) Hnin). unfold loadEntry. cbn [fst snd].
    destruct (dropped db k); [done|]. cbn. rewrite lookup_insert_eq. split; [done|]. case_match; [by rewrite lookup_insert_eq|done].
  - rewrite lookup_insert_ne by done. destruct (loadEntry_dict db d (k, o) k' ltac:(cbn; congruence)) as [-> ->]. done.
Qed.

Lemma loadedDb_spec db d k : dict d = ∅ → expires d = ∅ → dbSaveable db →
  dict (loadedDb db d) !! k = (o ← dict db !! k; if dropped db k then None else Some (canon (text o))) ∧
  expires (loadedDb db d) !! k = (if dropped db k then None else expires db !! k).
Proof.
  intros Hd He Hdb. unfold loadedDb. destruct (foldl_loadEntry db (order (dict db)) (order_keys _) d k) as [-> ->].
  assert ((list_to_map (order (dict db)) : gmap bytes robj) = dict db) as ->.
  { rewrite <-(list_to_map_to_list (dict db)) at 2. apply list_to_map_proper; [apply order_keys|done]. }
  rewrite Hd, He, !lookup_empty. destruct (dict db !! k) as [o|] eqn:Ek; [by destruct (expires db !! k), (dropped db k)|].
  split; [done|]. destruct (expires db !! k) as [w|] eqn:Ew; [|by destruct (dropped db k)].
  destruct (sd_wf _ Hdb k) as [o Ho]; [by rewrite Ew|congruence].
Qed.

Lemma execSegs_dbs dbs : ∀ pre ds a L, Forall dbSaveable dbs → (length dbs ≤ length ds)%nat →
  Forall (λ d, dict d = ∅) ds → l_dbs L = pre ++ ds → a = noAttrs (a_db a) →
  ∃ i, execSegs ld (dbsSegs sv order (Z.of_nat (length pre)) dbs) a L =
    Ok (noAttrs i, set_l_dbs (pre ++ zip_with loadedDb dbs ds ++ drop (length dbs) ds) L).
Proof.
  induction dbs as [|db dbs IH]; intros pre ds a L Hdbs Hlen Hds HL Ha.
  { exists (a_db a). cbn. rewrite Ha at 1. rewrite drop_0, <-HL. by destruct L. }
  destruct ds as [|d ds]; [cbn in Hlen; lia|]. apply Forall_cons in Hdbs as [Hdb Hdbs]. apply Forall_cons in Hds as [Hd Hds].
  assert (∃ i, execSegs ld (dbSegs sv order (Z.of_nat (length pre)) db) a L = Ok (noAttrs i, set_l_dbs (pre ++ loadedDb db d :: ds) L)) as [i Hone].
  { unfold dbSegs. destruct (Z.eqb_spec (Z.of_nat (base.size (dict db))) 0) as [Hz|].
    { exists (a_db a). unfold loadedDb. assert (dict db = ∅) as -> by (apply map_size_empty_iff; lia).
      assert (order ∅ = []) as -> by (apply Permutation_nil_r; by rewrite order_perm, map_to_list_empty).
      cbn. rewrite Ha at 1. rewrite <-HL. by destruct L. }
    exists (length pre). cbn [execSegs execSeg]. rewrite (bind_run _ _ L (noAttrs (length pre)) L).
    2: { rewrite bind_get, HL, length_app, Nat2Z.id. cbn [length]. destruct (Z.leb_spec (Z.of_nat (length pre + S (length ds))) (Z.of_nat (length pre))); [lia|].
         by rewrite Ha. }
    rewrite bind_ret. erewrite execSegs_entries; [|done|apply order_keys|rewrite HL; by apply list_lookup_middle|by rewrite Hd].
    rewrite HL. rewrite insert_app_r_alt, Nat.sub_diag by lia. done. }
  destruct (IH (pre ++ [loadedDb db d]) ds (noAttrs i) (set_l_dbs (pre ++ loadedDb db d :: ds) L)) as [i' Hrest];
    [done|cbn in Hlen; lia|done|cbn; by rewrite <-app_assoc|done|].
  exists i'. cbn [dbsSegs]. rewrite (execSegs_app _ _ _ _ _ _ _ Hone).
  replace (Z.of_nat (length pre) + 1) with (Z.of_nat (length (pre ++ [loadedDb db d]))) by (rewrite length_app; cbn; lia).
  rewrite Hrest. cbn. by rewrite <-app_assoc.
Qed.

(** What the fields of the file make of the information for replication. *)
Definition loadedRsi (rsi old : option rdbSaveInfo) : option rdbSaveInfo :=
  match rsi with
  | None => old
  | Some r =>
      (λ o, let known := size (s_replid sv) =? CONFIG_RUN_ID_SIZE in
            mkRsi (int32 (repl_stream_db r)) (known || repl_id_is_set o) (if known then s_replid sv else repl_id o)
              (s_master_repl_offset sv)) <$> old
  end.

Lemma execSegs_aux k v segs a L L' : loadAux ld k v L = Ok (tt, L') → execSegs ld (SAux k v :: segs) a L = execSegs ld segs a L'.
Proof. intros Hk. cbn [execSegs execSeg]. cbv [mbind M_bind]. by rewrite Hk. Qed.

Lemma loadAux_replid v L : loadAux ld (B "repl-id") v L =
  Ok (tt, if size v =? CONFIG_RUN_ID_SIZE
          then set_l_rsi ((λ r, mkRsi (repl_stream_db r) true v (repl_offset r)) <$> l_rsi L) L else L).
Proof.
  transitivity ((if size v =? CONFIG_RUN_ID_SIZE
    then updRsi (λ r, mkRsi (repl_stream_db r) true v (repl_offset r)) else mret tt) L); [reflexivity|by case_match].
Qed.

Lemma execSegs_info aof rsi a L : saverOk sv rsi → execSegs ld (infoSegs sv aof rsi) a L = Ok (a, set_l_rsi (loadedRsi rsi (l_rsi L)) L).
Proof.
  intros [_ _ Ho _ _ Hr]. unfold infoSegs. cbn [app]. do 4 (erewrite execSegs_aux by reflexivity).
  destruct rsi as [r|]; cbn [app].
  - erewrite execSegs_aux by reflexivity. erewrite execSegs_aux by apply loadAux_replid. do 2 (erewrite execSegs_aux by reflexivity).
    unfold atoi, loadedRsi. rewrite (strtoll_decimal (repl_stream_db r)) by by apply Hr. rewrite (strtoll_decimal (s_master_repl_offset sv)) by done.
    cbn [execSegs fst]. destruct L as [x ds sc [o|]]; cbn [l_rsi set_l_rsi fmap option_fmap option_map]; by destruct (_ =? _).
  - erewrite execSegs_aux by reflexivity. cbn. by destruct L.
Qed.

(** The scripts by their digest; of two with the same one the first counts. *)
Definition byDigest (l : list bytes) : gmap bytes bytes := list_to_map ((λ b, (ld_sha1hex ld b, b)) <$> l).

Definition loadedScripts (rsi : option rdbSaveInfo) (old : gmap bytes bytes) : gmap bytes bytes :=
  old ∪ match rsi with Some _ => byDigest (s_lua_scripts sv) | None => ∅ end.

Lemma loadAux_lua b L : ld_luaCompiles ld b = true →
  loadAux ld (B "lua") b L = Ok (tt, set_l_scripts (l_scripts L ∪ {[ld_sha1hex ld b := b]}) L).
Proof.
  intros Hb. transitivity ((ok ← luaCreateFunction ld b;
    if ok : bool then mret tt else fail (AssertFailed "Can't load Lua script from RDB file!")) L); [reflexivity|].
  unfold luaCreateFunction. cbv [mbind M_bind]. cbn [get]. case_bool_decide as Hs.
  - rewrite union_singleton_known by done. by destruct L.
  - rewrite Hb. cbn. rewrite union_singleton_new by by apply eq_None_not_Some. done.
Qed.

Lemma execSegs_scripts rsi a L : execSegs ld (scriptSegs sv rsi) a L = Ok (a, set_l_scripts (loadedScripts rsi (l_scripts L)) L).
Proof.
  assert (∀ l, Forall (λ b, ld_luaCompiles ld b = true) l → ∀ L, execSegs ld (SAux (B "lua") <$> l) a L = Ok (a, set_l_scripts (l_scripts L ∪ byDigest l) L)) as Hl.
  { induction 1 as [|b l Hb _ IH]; intros L1; [cbn; rewrite (right_id_L ∅ (∪)); by destruct L1|]. cbn [fmap list_fmap].
    rewrite (execSegs_aux _ _ _ _ _ _ (loadAux_lua b L1 Hb)), IH. cbn. rewrite <-(assoc_L (∪)). change (byDigest (b :: l)) with (<[ld_sha1hex ld b := b]> (byDigest l)). by rewrite (insert_union_singleton_l (byDigest l)). }
  unfold scriptSegs, loadedScripts. destruct rsi; [by apply Hl|]. rewrite (right_id_L ∅ (∪)). by destruct L.
Qed.

End Effect.

(** ** Loading a file *)

Section LoadFile.
Context `{Host} (bufAddr : Z → Z) (fresh : nat → Z) (ld : loader) (loadOther : Z → rioM (option robj)).
Context (chunk_ok : 0 ≤ ld_chunk ld).

(** The stream of the loader, when [x] is in its buffer. *)
Definition loadRio (x : list Z) : rio := set_chunk (ld_chunk ld) (set_update_cksum (ld_rdb_checksum ld) (rioInitWithBuffer x)).

Lemma loadRio_input x : Forall byte x → input (loadRio x) x.
Proof. intros Hx. split; cbn; try done; try lia; apply crcOk_0. Qed.

Lemma rdbLoadRio_magic y L : io L = rioInitWithBuffer (raw (B "REDIS0009") ++ y) → Forall byte y →
  let x := raw (B "REDIS0009") in
  rdbLoadRio bufAddr fresh ld loadOther L =
  (ok ← loadLoop bufAddr fresh ld loadOther (S (length (x ++ y))) 9 (mkAttrs 0 (-1) (-1) (-1));
   if negb ok then eoferr ld else verifyChecksum bufAddr ld) (set_io (took x (loadRio (x ++ y))) L).
Proof.
  intros Hio Hy x. assert (Forall byte (x ++ y)) as Hb by (apply Forall_app; split; [apply raw_bytes|done]).
  unfold rdbLoadRio. rewrite (bind_run _ _ _ tt (set_io (loadRio (x ++ y)) L)) by (unfold liftIo; by rewrite Hio).
  erewrite liftIo_loads; [|by apply (Loads_read _ x)|by apply loadRio_input]. cbn beta iota zeta.
  replace (negb _) with false by (vm_compute; reflexivity). replace (atoi _) with 9 by (vm_compute; reflexivity).
  cbn [Z.ltb Z.leb Z.compare Pos.compare Pos.compare_cont orb RDB_VERSION]. rewrite bind_get. done.
Qed.

Lemma loadTurn_eof y a L : input (io L) ([RDB_OPCODE_EOF] ++ y) →
  loadTurn bufAddr fresh ld loadOther 9 a L = Ok (Break, set_io (took [RDB_OPCODE_EOF] (io L)) L).
Proof. intros Hi. unfold loadTurn. erewrite liftIo_loads; [|by apply (rdbLoadType_reads bufAddr RDB_OPCODE_EOF)|exact Hi]. done. Qed.

Lemma verifyChecksum_run ck r L : io L = r → input r (le 8 ck) → 0 ≤ ck < 2 ^ 64 →
  ld_rdb_checksum ld = false ∨ ck = 0 ∨ ck = cksum r → verifyChecksum bufAddr ld L = Ok (true, set_io (took (le 8 ck) r) L).
Proof.
  intros Hio Hi Hck Hok. unfold verifyChecksum. rewrite bind_gets, Hio.
  erewrite liftIo_loads; [|apply (Loads_read _ (le 8 ck)); by rewrite length_le|rewrite Hio, app_nil_r; done].
  cbn beta iota. rewrite Hio. destruct (ld_rdb_checksum ld); [|done]. unfold memrev64ifbe.
  rewrite (memrev_loaded 8), unle_le, Z.mod_small by (rewrite ?length_le; done || apply memrev64_reverse).
  destruct (Z.eqb_spec ck 0); [done|]. destruct (Z.eqb_spec ck (cksum r)); [done|]. destruct Hok as [|[|]]; congruence.
Qed.

Lemma rdbLoadRio_run segs z ck a' L L' :
  let x := fileBody z ++ le 8 ck in
  segsBytes segs z → Forall byte z → 0 ≤ ck < 2 ^ 64 → io L = rioInitWithBuffer x →
  ld_rdb_checksum ld = false ∨ ck = 0 ∨ ck = crcUpd 0 (fileBody z) →
  execSegs ld segs (mkAttrs 0 (-1) (-1) (-1)) L = Ok (a', L') →
  rdbLoadRio bufAddr fresh ld loadOther L = Ok (true, set_io (took x (loadRio x)) L').
Proof.
  intros x Hsegs Hz Hck Hio Hok Hex. subst x. set (m := raw (B "REDIS0009")). set (t := [RDB_OPCODE_EOF]).
  replace (fileBody z ++ le 8 ck) with (m ++ z ++ t ++ le 8 ck) in * by (unfold fileBody; by rewrite <-!app_assoc).
  assert (Forall byte (z ++ t ++ le 8 ck)) as Hb.
  { apply Forall_app. split; [done|]. apply Forall_app. split; [by apply Forall_singleton|by apply le_byte]. }
  rewrite (rdbLoadRio_magic _ L Hio Hb). fold m. set (r := loadRio _). set (L1 := set_io (took m r) L).
  assert (input (took m r) (z ++ t ++ le 8 ck)) as Hi.
  { apply input_took, loadRio_input. apply Forall_app. split; [apply raw_bytes|done]. }
  pose proof (segsBytes_length _ _ Hsegs) as Hl.
  replace (S (length (m ++ z ++ t ++ le 8 ck))) with (length segs + S (length (m ++ z ++ t ++ le 8 ck) - length segs))%nat
    by (rewrite !length_app in *; lia).
  assert (execSegs ld segs (mkAttrs 0 (-1) (-1) (-1)) L1 = Ok (a', set_io (took m r) L')) as Hex1 by (subst L1; by rewrite (ioFree_execSegs ld segs), Hex).
  rewrite (bind_run _ _ _ true (set_io (took (m ++ z ++ t) r) L')).
  2: { rewrite (loadLoop_segs bufAddr fresh ld loadOther segs z Hsegs (t ++ le 8 ck) _ _ L1 _ _ Hi Hex1). cbn [io L1 set_io].
    rewrite took_app. cbn [loadLoop]. erewrite bind_run; [|apply (loadTurn_eof (le 8 ck)); cbn [io set_io]; rewrite <-took_app; by apply input_took].
    cbn [io set_io]. by rewrite took_app, <-app_assoc. }
  cbn [negb]. rewrite (verifyChecksum_run ck (took (m ++ z ++ t) r)); [|done| |done|].
  - by rewrite took_app, <-!app_assoc.
  - rewrite <-!took_app. by apply input_took, input_took.
  - destruct Hok as [|[|Hck']]; [by left|by right; left|]. destruct (ld_rdb_checksum ld) eqn:E; [right; right|by left].
    subst r. unfold loadRio. rewrite E. by rewrite Hck'.
Qed.

End LoadFile.

(** ** Truncated files *)

Section Short.
Context `{Host} (bufAddr : Z → Z) (fresh : nat → Z) (ld : loader) (loadOther : Z → rioM (option robj)).

Definition shorter (p x : list Z) : Prop := p `prefix_of` x ∧ p ≠ x.

Lemma liftIo_short {A} (m : rioM A) x e p L : Truncated m x e → input (io L) p → shorter p x →
  ∃ r, read_error r = true ∧ ∀ B (k : A → M loadState B), (liftIo m ≫= k) L = k e (set_io r L).
Proof.
  intros Hm Hi [Hp Hne]. destruct (Hm _ _ Hi Hp Hne) as (r & Hr & He). exists r. split; [done|].
  intros B k. apply bind_run. unfold liftIo. by rewrite Hr.
Qed.

Lemma lenOk_truncated n : lenOk n → Truncated (rdbLoadLen bufAddr) (lenBytes n) (false, RDB_LENERR).
Proof. unfold lenOk. intros. apply rdbLoadLen_reads. lia. Qed.

Lemma shorter_app p x y : shorter p (x ++ y) → shorter p x ∨ ∃ v, p = x ++ v ∧ shorter v y.
Proof.
  intros [Hp Hne]. apply prefix_app_split in Hp as [?|(v & -> & Hv)]; [by left|right]. exists v. split; [done|]. split; [done|congruence].
Qed.

(** A turn on a part of a segment. *)
Lemma loadTurn_short sg x p a L : segBytes sg x → input (io L) p → shorter p x →
  ∃ L', loadTurn bufAddr fresh ld loadOther 9 a L = Ok (Eoferr, L').
Proof.
  intros Hsg Hi Hp. unfold loadTurn.
  assert (∃ t z, x = [t] ++ z ∧ byte t) as (t & z & -> & Ht) by (destruct Hsg; (eexists _, _; split; [done|by split])).
  apply shorter_app in Hp as [Hp|(v & -> & Hp)].
  { destruct (liftIo_short _ _ _ _ _ (proj2 (rdbLoadType_reads bufAddr t Ht)) Hi Hp) as (r & _ & ->). by eexists. }
  erewrite liftIo_loads; [|by apply rdbLoadType_reads|done]. apply input_took in Hi.
  set (L1 := set_io (took [t] (io L)) L). change (took [t] (io L)) with (io L1) in Hi. clearbody L1. clear L.
  inversion Hsg as [t' Hr|q Hq|f Hf|j Hj|n e Hn He|k s kx vx Hk Hv|k s kx vx Hk Hv]; subst; clear Hsg Ht;
    cbn [Z.eqb Pos.eqb RDB_OPCODE_EXPIRETIME_MS RDB_OPCODE_EXPIRETIME RDB_OPCODE_FREQ RDB_OPCODE_IDLE RDB_OPCODE_EOF
      RDB_OPCODE_SELECTDB RDB_OPCODE_RESIZEDB RDB_OPCODE_AUX RDB_OPCODE_MODULE_AUX RDB_TYPE_STRING].
  - destruct (liftIo_short _ _ _ _ _ (proj2 (rdbLoadMillisecondTime_reads bufAddr t' Hr)) Hi Hp) as (r & He & ->).
    rewrite (bind_run _ _ _ _ _ (eq_refl : liftIo rioGetReadError _ = Ok (_, _))). cbn [io set_io]. rewrite He. by eexists.
  - destruct (liftIo_short _ _ _ _ _ (lenOk_truncated q Hq) Hi Hp) as (r & _ & ->). by eexists.
  - destruct (liftIo_short _ _ _ _ _ (Truncated_read bufAddr [f] 1 eq_refl) Hi Hp) as (r & _ & ->). by eexists.
  - destruct (liftIo_short _ _ _ _ _ (lenOk_truncated j Hj) Hi Hp) as (r & _ & ->). by eexists.
  - apply shorter_app in Hp as [Hp|(w & -> & Hp)].
    + destruct (liftIo_short _ _ _ _ _ (lenOk_truncated n Hn) Hi Hp) as (r & _ & ->). by eexists.
    + rewrite (liftIo_loads _ _ _ _ _ _ (lenOk_loads bufAddr n Hn) Hi). cbn [snd]. rewrite lenOk_eqb by done.
      destruct (liftIo_short _ _ _ _ _ (lenOk_truncated e He) (input_io _ _ _ _ Hi eq_refl) Hp) as (r & _ & ->). by eexists.
  - destruct (rdbGenericLoadStringObject_reads bufAddr fresh LOAD_NONE k kx Hk) as (ko & -> & Hkl & Hks).
    destruct (rdbGenericLoadStringObject_reads bufAddr fresh LOAD_NONE s vx Hv) as (vo & _ & _ & Hvs).
    apply shorter_app in Hp as [Hp|(w & -> & Hp)].
    + destruct (liftIo_short _ _ _ _ _ Hks Hi Hp) as (r & _ & Hrun). unfold rdbLoadStringObject. rewrite Hrun. by eexists.
    + unfold rdbLoadStringObject. rewrite (liftIo_loads _ _ _ _ _ _ Hkl Hi). cbn beta iota.
      destruct (liftIo_short _ _ _ _ _ Hvs (input_io _ _ _ _ Hi eq_refl) Hp) as (r & _ & ->). by eexists.
  - destruct (rdbGenericLoadStringObject_reads bufAddr fresh LOAD_SDS k kx Hk) as (ko & -> & Hkl & Hks).
    apply shorter_app in Hp as [Hp|(w & -> & Hp)].
    + destruct (liftIo_short _ _ _ _ _ Hks Hi Hp) as (r & _ & ->). by eexists.
    + rewrite (liftIo_loads _ _ _ _ _ _ Hkl Hi). cbn beta iota.
      destruct (liftIo_short _ _ _ _ _ (proj2 (rdbLoadObject_reads bufAddr fresh loadOther s vx Hv)) (input_io _ _ _ _ Hi eq_refl) Hp) as (r & _ & ->).
      by eexists.
Qed.

(** The loop does not succeed on a part of the segments. *)
Lemma loadLoop_short segs x : segsBytes segs x → ∀ p fuel a L, input (io L) p → p `prefix_of` x →
  ∀ L', loadLoop bufAddr fresh ld loadOther fuel 9 a L ≠ Ok (true, L').
Proof.
  induction 1 as [|sg segs x1 x2 Hsg Hsegs IH]; intros p fuel a L Hi Hp L'; (destruct fuel as [|fuel]; [done|]); cbn [loadLoop].
  - apply prefix_nil_inv in Hp as ->.
    destruct (loadTurn_short (SFreq 0) ([RDB_OPCODE_FREQ] ++ [0]) [] a L) as (L1 & Hrun); [by constructor|done|split; [apply prefix_nil|done]|].
    by rewrite (bind_run _ _ _ _ _ Hrun).
  - apply prefix_app_split in Hp as [Hp|(v & -> & Hv)].
    { destruct (loadTurn_short sg x1 p a L Hsg Hi Hp) as (L1 & Hrun). by rewrite (bind_run _ _ _ _ _ Hrun). }
    pose proof (loadTurn_seg bufAddr fresh ld loadOther sg x1 v a L Hsg Hi) as Hturn. cbv [mbind M_bind] in Hturn.
    rewrite (ioFree_execSeg ld sg a) in Hturn. destruct (execSeg ld sg a L) as [[a1 L1]|f].
    + rewrite (bind_run _ _ _ _ _ Hturn). apply (IH v); [|done]. cbn. by apply input_took.
    + cbv [mbind M_bind]. by rewrite Hturn.
Qed.

(** When the loop succeeds, it has read all segments. *)
Lemma loadLoop_full segs x : segsBytes segs x → ∀ w fuel a L L', input (io L) (x ++ [RDB_OPCODE_EOF] ++ w) →
  loadLoop bufAddr fresh ld loadOther fuel 9 a L = Ok (true, L') → input (io L') w.
Proof.
  induction 1 as [|sg segs x1 x2 Hsg Hsegs IH]; intros w fuel a L L' Hi; (destruct fuel as [|fuel]; [done|]); cbn [loadLoop].
  - rewrite (bind_run _ _ _ _ _ (loadTurn_eof bufAddr fresh ld loadOther w a L Hi)). intros [= <-]. cbn. by apply input_took.
  - rewrite <-app_assoc in Hi. pose proof (loadTurn_seg bufAddr fresh ld loadOther sg x1 _ a L Hsg Hi) as Hturn. cbv [mbind M_bind] in Hturn.
    rewrite (ioFree_execSeg ld sg a) in Hturn. destruct (execSeg ld sg a L) as [[a1 L1]|f].
    + rewrite (bind_run _ _ _ _ _ Hturn). apply IH. cbn. by apply input_took.
    + cbv [mbind M_bind]. by rewrite Hturn.
Qed.

(** A proper prefix of a file is not loaded. *)
Lemma rdbLoadRio_short segs z ck p L : segsBytes segs z → Forall byte z → io L = rioInitWithBuffer p → 0 ≤ ld_chunk ld →
  shorter p (fileBody z ++ le 8 ck) → ∀ L', rdbLoadRio bufAddr fresh ld loadOther L ≠ Ok (true, L').
Proof.
  intros Hsegs Hz Hio Hc Hp L'. set (m := raw (B "REDIS0009")).
  assert (Forall byte p) as Hb.
  { destruct Hp as [[w Hw] _]. assert (Forall byte (p ++ w)) as [? _]%Forall_app; [|done]. rewrite <-Hw. unfold fileBody.
    repeat (apply Forall_app; split); [apply raw_bytes|done|by apply Forall_singleton|by apply le_byte]. }
  assert (∀ L1 L2, eoferr ld L1 ≠ Ok (true, L2)) as Heof by (intros L1 L2; unfold eoferr; by case_match).
  replace (fileBody z ++ le 8 ck) with (m ++ z ++ [RDB_OPCODE_EOF] ++ le 8 ck) in Hp by (unfold fileBody; by rewrite <-!app_assoc).
  apply shorter_app in Hp as [Hp|(v & -> & Hp)].
  { unfold rdbLoadRio. rewrite (bind_run _ _ _ tt (set_io (loadRio ld p) L)) by (unfold liftIo; by rewrite Hio).
    destruct (liftIo_short _ _ _ _ (set_io (loadRio ld p) L) (Truncated_read bufAddr m 9 eq_refl) (loadRio_input ld Hc p Hb) Hp) as (r & _ & ->). apply Heof. }
  apply Forall_app in Hb as [Hm Hv]. rewrite (rdbLoadRio_magic bufAddr fresh ld loadOther Hc v L Hio Hv). fold m.
  assert (input (took m (loadRio ld (m ++ v))) v) as Hi by (apply input_took, loadRio_input; [done|by apply Forall_app]).
  set (L1 := set_io _ L). change (took m (loadRio ld (m ++ v))) with (io L1) in Hi. clearbody L1. clear L Hio.
  cbv [mbind M_bind]. destruct (loadLoop _ _ _ _ _ _ _ L1) as [[[] L2]|] eqn:Hloop; cbn [negb]; [|apply Heof|done].
  assert (¬ v `prefix_of` z) as Hnz by (intros Hv'; by eapply (loadLoop_short segs z)).
  apply shorter_app in Hp as [[Hp _]|(u & -> & Hp)]; [done|].
  apply shorter_app in Hp as [Hp|(w & -> & Hp)].
  { destruct Hnz. destruct Hp as [Hp Hne]. destruct u as [|b u]; [by rewrite app_nil_r|].
    apply prefix_cons_inv_1 in Hp as Hb'. apply prefix_cons_inv_2, prefix_nil_inv in Hp. congruence. }
  apply (loadLoop_full segs z Hsegs w) in Hloop; [|done]. unfold verifyChecksum. rewrite bind_gets.
  destruct (liftIo_short _ _ _ _ L2 (Truncated_read bufAddr (le 8 ck) 8 ltac:(by rewrite length_le)) Hloop Hp) as (r & _ & ->). apply Heof.
Qed.

End Short.

(** ** Claims *)

Lemma fileCrc_range `{Host} checksum z : Forall byte z → 0 ≤ fileCrc checksum z < 2 ^ 64.
Proof.
  intros Hz. unfold fileCrc. destruct checksum; [|lia]. apply (crcUpd_ok 0); [apply crcOk_0|]. unfold fileBody.
  repeat (apply Forall_app; split); [apply raw_bytes|done|by apply Forall_singleton].
Qed.

(** The databases of the loading server, after the databases [dbs] were saved. *)
Definition reloaded (ld : loader) (dbs before after : list redisDb) : Prop :=
  length after = length before ∧
  (∀ j db, dbs !! j = Some db → ∃ db', after !! j = Some db' ∧ ∀ k,
     dict db' !! k = (o ← dict db !! k; if dropped ld db k then None else Some (canon (text o))) ∧
     expires db' !! k = (if dropped ld db k then None else expires db !! k)) ∧
  (∀ j, (length dbs ≤ j)%nat → after !! j = before !! j).

Lemma reloaded_zip ld order dbs ds : (∀ d, order d ≡ₚ map_to_list d) → Forall dbSaveable dbs → (length dbs ≤ length ds)%nat →
  Forall (λ d, dict d = ∅ ∧ expires d = ∅) ds →
  reloaded ld dbs ds (zip_with (loadedDb ld order) dbs ds ++ drop (length dbs) ds).
Proof.
  intros Hperm Hdbs Hlen Hds. assert (length (zip_with (loadedDb ld order) dbs ds) = length dbs) as Hz by (rewrite length_zip_with; lia).
  split_and!.
  - rewrite length_app, length_drop. lia.
  - intros j db Hj. destruct (lookup_lt_is_Some_2 ds j) as [d Hd]; [apply lookup_lt_Some in Hj; lia|].
    exists (loadedDb ld order db d). split.
    + rewrite lookup_app_l by (rewrite Hz; by eapply lookup_lt_Some). rewrite lookup_zip_with, Hj. cbn. by rewrite Hd.
    + intros k. destruct (proj1 (Forall_lookup _ _) Hds j d Hd) as [He1 He2].
      apply loadedDb_spec; [done|done|done|]. by apply (proj1 (Forall_lookup _ _) Hdbs j).
  - intros j Hj. rewrite lookup_app_r by lia. rewrite lookup_drop. f_equal. lia.
Qed.

(** C32. Saving databases that hold only strings and loading the file into as many or
    more empty databases gives back every key with its value and expire time and,
    when a rdbSaveInfo is given, the scripts that are not known yet under their
    digests, the replication offset and database, and a replication identifier of 40
    bytes; also on a machine of the other byte order and whatever the compression,
    checksum and chunk settings are, except a checksum of a little endian machine
    checked on a big endian one. Keys that have expired meanwhile are dropped by a
    master, and no proper prefix of the file is accepted. Keys, values, scripts and
    the identifier have fewer than 2^31 bytes, expire times are 64-bit and not -1,
    there are fewer than 2^31 databases, the numbers of the auxiliary fields fit 64
    bits, the scripts compile on the loading side, and the chunk size is not
    negative. *)
Theorem rdb_file_round_trip (hostA hostB : Host) (addrA addrB htab : Z → Z) (freshA freshB : nat → Z) (sv : saver) (ld : loader)
    (saveOther : robj → rioM Z) (typeOther : robj → Z) (loadOther : Z → rioM (option robj))
    (order : gmap bytes robj → list (bytes * robj)) (aof : bool) (rsi : option rdbSaveInfo) (dbs : list redisDb) :
  (∀ j, 0 ≤ htab j < 2 ^ 32) → (∀ d, order d ≡ₚ map_to_list d) → saverOk sv rsi → Forall dbSaveable dbs → Z.of_nat (length dbs) < 2 ^ 31 →
  0 ≤ ld_chunk ld → Forall (λ b, ld_luaCompiles ld b = true) (s_lua_scripts sv) →
  hostA = hostB ∨ hostA = bigHost ∨ s_rdb_checksum sv = false ∨ ld_rdb_checksum ld = false →
  ∃ r, rdbSaveRio (H := hostA) addrA htab freshA sv saveOther typeOther order aof rsi dbs (rioInitWithBuffer []) = Ok (true, r) ∧
    (∀ L, io L = rioInitWithBuffer (ptr r) → (length dbs ≤ length (l_dbs L))%nat →
       Forall (λ d, dict d = ∅ ∧ expires d = ∅) (l_dbs L) →
       ∃ L', rdbLoadRio (H := hostB) addrB freshB ld loadOther L = Ok (true, L') ∧
         reloaded ld dbs (l_dbs L) (l_dbs L') ∧ l_rsi L' = loadedRsi sv rsi (l_rsi L) ∧
         l_scripts L' = loadedScripts ld sv rsi (l_scripts L)) ∧
    (∀ L p, io L = rioInitWithBuffer p → shorter p (ptr r) →
       ∀ L', rdbLoadRio (H := hostB) addrB freshB ld loadOther L ≠ Ok (true, L')).
Proof.
  intros Hh Hperm Hsv Hdbs Hlen Hc Hscr Hcrc.
  destruct (rdbSaveRio_run (H := hostA) addrA htab freshA sv saveOther typeOther Hh order Hperm aof rsi dbs) as (z & r & Hsegs & Hz & Hr & Hrun); [done..|].
  exists r. split; [done|]. rewrite Hr. pose proof (fileCrc_range (H := hostA) (s_rdb_checksum sv) z Hz) as Hrange. split.
  - intros L Hio Hl Hds.
    destruct (execSegs_dbs ld sv order Hperm dbs [] (l_dbs L) (mkAttrs 0 (-1) (-1) (-1)) (set_l_rsi (loadedRsi sv rsi (l_rsi L)) L)) as [i Hex];
      [done|done|apply (Forall_impl _ _ _ Hds); by intros ? [? _]|done|done|].
    eexists. split; [eapply (rdbLoadRio_run (H := hostB)); [done|exact Hsegs|done|exact Hrange|exact Hio| |]|].
    + unfold fileCrc. destruct (s_rdb_checksum sv) eqn:E; [|by right; left].
      destruct Hcrc as [->|[->|[?|?]]]; [by right; right|by right; left|done|by left].
    + unfold fileSegs. erewrite execSegs_app by by apply execSegs_info. erewrite execSegs_app by exact Hex. by apply execSegs_scripts.
    + cbn. split_and!; [|done|done]. apply reloaded_zip; done.
  - intros L p Hio Hp L'. by eapply (rdbLoadRio_short (H := hostB)).
Qed.

(** ** Witnesses *)

Definition sampleSaver : saver := mkSaver true true true false (λ _, 5000) (λ _, 0) 1700000000 1000000 (B "id") 77 [B "return 1"].
Definition sampleLoader : loader := mkLoader true 1024 true 1000 false false true id (λ _, true) (λ _, None).
Definition emptyLoad (r : rio) : loadState := mkLoad (rioInitWithBuffer (ptr r)) [emptyDb; emptyDb] ∅ (Some (mkRsi (-1) false [] (-1))).

Lemma stringDb_saveable : dbSaveable stringDb.
Proof.
  split.
  - apply db_ok_wf, stringDb_ok.
  - apply map_Forall_singleton. split; [by vm_compute|]. split; [apply createStringObject_string|by vm_compute].
  - apply map_Forall_singleton. split; [done|by vm_compute].
  - by vm_compute.
Qed.

Lemma rdb_file_round_trip_witness : ∃ r L' db',
  rdbSaveRio (H := littleHost) id (λ _, 3) (λ _, 9) sampleSaver (λ _, mret 1) (λ _, 1) map_to_list false (Some (mkRsi 0 false [] 0))
    [emptyDb; stringDb] (rioInitWithBuffer []) = Ok (true, r) ∧
  rdbLoadRio (H := littleHost) id (λ _, 9) sampleLoader (λ _, mret None) (emptyLoad r) = Ok (true, L') ∧
  l_dbs L' !! 1%nat = Some db' ∧ dict db' !! B "k" = Some (createEmbeddedStringObject (B "old")) ∧ expires db' !! B "k" = Some 5000.
Proof.
  destruct (rdb_file_round_trip littleHost littleHost id id (λ _, 3) (λ _, 9) (λ _, 9) sampleSaver sampleLoader (λ _, mret 1) (λ _, 1)
    (λ _, mret None) map_to_list false (Some (mkRsi 0 false [] 0)) [emptyDb; stringDb]) as (r & Hsave & Hload & _).
  - lia.
  - reflexivity.
  - split; [split; discriminate..|reflexivity| |].
    + constructor; [reflexivity|constructor].
    + intros ? [= <-]. split; discriminate.
  - constructor; [|constructor; [apply stringDb_saveable|constructor]].
    split; [intros k [? [=]]|apply map_Forall_empty|apply map_Forall_empty|split; reflexivity].
  - reflexivity.
  - discriminate.
  - constructor; [reflexivity|constructor].
  - left. reflexivity.
  - destruct (Hload (emptyLoad r)) as (L' & Hrun & (_ & Hdbs & _) & _ & _).
    + reflexivity.
    + vm_compute. lia.
    + constructor; [split; reflexivity|constructor; [split; reflexivity|constructor]].
    + destruct (Hdbs 1%nat stringDb) as (db' & Hdb' & Hk); [reflexivity|]. destruct (Hk (B "k")) as [Hd He].
      exists r, L', db'. split_and!; [exact Hsave|exact Hrun|exact Hdb'| |].
      * rewrite Hd. vm_compute. reflexivity.
      * rewrite He. vm_compute. reflexivity.
Defined.
