(* ===== verification/Dump.v ===== *)
(** * Dump: DUMP and RESTORE, src/src/cluster.c

    The payload of DUMP is a saved object, the version of the format and a checksum;
    RESTORE verifies and loads it.  The idle time and the frequency RESTORE can set
    are parsed, and not kept: the model has no eviction. *)

From Stdlib Require Import Ascii String ZifyBool.
From stdpp Require Import base tactics option strings numbers gmap fin_maps list.
From S2P Require Import Prelude Util Endian Object SdsArgs Db Server TString Lzf Crc64 Rio Rdb RdbProps.

Local Open Scope Z_scope.

Section Dump.
Context `{Host} `{OtherCommands} (bufAddr htab : Z → Z) (fresh : nat → Z) (rdb_compression : bool).
Context (saveOther : robj → rioM Z) (typeOther : robj → Z) (loadOther : Z → rioM (option robj)).

(** The buffer of the payload; [addr] is where it is in memory. *)
Definition createDumpPayload (addr : Z) (o : robj) : res (list Z) :=
  r ← (n ← rdbSaveObjectType bufAddr typeOther o;
       serverAssert (negb (n =? 0)) "createDumpPayload" ;;
       n ← rdbSaveObject bufAddr htab fresh rdb_compression saveOther o;
       serverAssert (negb (n =? 0)) "createDumpPayload") (rioInitWithBuffer []);
  let p := ptr (snd r) ++ [Z.land RDB_VERSION 0xff; Z.land (Z.shiftr RDB_VERSION 8) 0xff] in
  let crc := memrev64ifbe (hostBytes 8 (crc64 0 addr p)) in
  mret (p ++ crc).

(** [true] for [C_OK] *)
Definition verifyDumpPayload (addr : Z) (p : list Z) : bool :=
  let len := Z.of_nat (length p) in
  if len <? 10 then false else
  let footer := drop (Z.to_nat (len - 10)) p in
  let rdbver := Z.lor (Z.shiftl (footer !!! 1%nat) 8) (footer !!! 0%nat) in
  if RDB_VERSION <? rdbver then false else
  let crc := memrev64ifbe (hostBytes 8 (crc64 0 addr (take (Z.to_nat (len - 8)) p))) in
  bool_decide (crc = take 8 (drop 2 footer)).

(** A computation that has no effect on the server. *)
Definition liftRes {A} (m : res A) : M server A := λ s,
  match m with Ok a => Ok (a, s) | Fault f => Fault f end.

Definition dumpCommand (addr : Z) (c : clientId) : M server unit :=
  cl ← getClient c;
  g ← gets srv_env;
  key ← argv cl 1;
  o ← withDb (c_db cl) (lookupKeyRead g (readonlyCmd cl) key);
  match o with
  | None => addReply c (RNull (c_resp cl))
  | Some o =>
      payload ← liftRes (createDumpPayload addr o);
      addReply c (RBulk (unraw payload))
  end.

Definition NOT_AN_INTEGER : reply := RError "value is not an integer or out of range".

(** The options of RESTORE: the error, or [replace] and [absttl]. *)
Fixpoint restoreOptions (args : list bytes) (replace absttl : bool) (lfu_freq lru_idle : Z) : reply + bool * bool :=
  match args with
  | [] => inr (replace, absttl)
  | a :: rest =>
      if strcaseeq a (B "replace") then restoreOptions rest true absttl lfu_freq lru_idle
      else if strcaseeq a (B "absttl") then restoreOptions rest replace true lfu_freq lru_idle
      else
        match rest with
        | next :: rest' =>
            if strcaseeq a (B "idletime") && (lfu_freq =? -1) then
              match string2ll next with
              | None => inl NOT_AN_INTEGER
              | Some v =>
                  if v <? 0 then inl (RError "Invalid IDLETIME value, must be >= 0")
                  else restoreOptions rest' replace absttl lfu_freq v
              end
            else if strcaseeq a (B "freq") && (lru_idle =? -1) then
              match string2ll next with
              | None => inl NOT_AN_INTEGER
              | Some v =>
                  if (v <? 0) || (255 <? v) then inl (RError "Invalid FREQ value, must be >= 0 and <= 255")
                  else restoreOptions rest' replace absttl v lru_idle
              end
            else inl (RError "syntax error")
        | [] => inl (RError "syntax error")
        end
  end.

(** [rdbLoadObjectType] and [rdbLoadObject] on the payload. *)
Definition loadPayload (payload : list Z) : res (option robj) :=
  r ← (type ← rdbLoadObjectType bufAddr;
       if type =? -1 then mret None else rdbLoadObject bufAddr fresh loadOther type) (rioInitWithBuffer payload);
  mret (fst r).

Definition restoreCommand (addr : Z) (c : clientId) : M server unit :=
  cl ← getClient c;
  g ← gets srv_env;
  match restoreOptions (drop 4 (c_argv cl)) false false (-1) (-1) with
  | inl err => addReply c err
  | inr (replace, absttl) =>
      key ← argv cl 1;
      busy ← (if negb replace then o ← withDb (c_db cl) (lookupKeyWrite g key); mret (bool_decide (is_Some o))
              else mret false);
      if (busy : bool) then addReply c (RError "BUSYKEY Target key name already exists.") else
      e ← argv cl 2;
      ttl ← getLongLongFromObject (Some (createStringObject e));
      match ttl with
      | None => addReply c NOT_AN_INTEGER
      | Some ttl =>
          if ttl <? 0 then addReply c (RError "Invalid TTL value, must be >= 0") else
          p ← argv cl 3;
          if negb (verifyDumpPayload addr (raw p)) then
            addReply c (RError "DUMP payload version or checksum are wrong")
          else
            obj ← liftRes (loadPayload (raw p));
            match obj with
            | None => addReply c (RError "Bad data format")
            | Some obj =>
                (if replace then withDb (c_db cl) (dbSyncDelete key) ;; mret tt else mret tt) ;;
                withDb (c_db cl) (dbAdd key obj) ;;
                (if negb (ttl =? 0)
                 then withDb (c_db cl) (setExpire key (if absttl then ttl else i64 (ttl + mstime g))) else mret tt) ;;
                addReply c ROk ;;
                incrDirty
            end
      end
  end.

End Dump.
