(* ===== verification/DumpProps.v ===== *)
(** * DumpProps: RESTORE gives back what DUMP saved, and refuses a damaged payload *)

From Stdlib Require Import Ascii String ZifyBool.
From stdpp Require Import base tactics option strings numbers gmap fin_maps list.
From S2P Require Import Prelude Util Endian Object SdsArgs Db Server TString StringProps Lzf Crc64 Rio Rdb RdbProps Dump.

Local Open Scope Z_scope.

Section Payload.
Context `{Host} (bufAddr htab : Z → Z) (fresh : nat → Z) (rdb_compression : bool).
Context (htab_u32 : ∀ j, 0 ≤ htab j < 2 ^ 32).
Context (saveOther : robj → rioM Z) (typeOther : robj → Z) (loadOther : Z → rioM (option robj)).

Definition crcOf (x : list Z) : list Z := le 8 (crcUpd 0 x).

Lemma stored_crc addr x : Forall byte x → memrev64ifbe (hostBytes 8 (crc64 0 addr x)) = crcOf x.
Proof.
  intros Hx. unfold memrev64ifbe. rewrite (memrev_stored 8) by (done || apply memrev64_reverse).
  unfold crcOf. by rewrite crcUpd_run by (done || apply crcOk_0).
Qed.

(** The version and the checksum at the end. *)
Definition versionOk (body : list Z) : bool :=
  negb (RDB_VERSION <? Z.lor (Z.shiftl (body !!! (length body - 1)%nat) 8) (body !!! (length body - 2)%nat)).

Lemma verifyDumpPayload_split addr body f : Forall byte body → (2 ≤ length body)%nat → length f = 8%nat →
  verifyDumpPayload addr (body ++ f) = versionOk body && bool_decide (crcOf body = f).
Proof.
  intros Hb Hl Hf. unfold verifyDumpPayload, versionOk. rewrite length_app, Hf.
  replace (_ <? 10) with false by lia.
  replace (Z.to_nat (Z.of_nat (length body + 8) - 10)) with (length body - 2)%nat by lia.
  replace (Z.to_nat (Z.of_nat (length body + 8) - 8)) with (length body) by lia.
  rewrite take_app_length, stored_crc by done. rewrite !lookup_total_drop, drop_drop.
  replace (length body - 2 + 2)%nat with (length body) by lia. rewrite drop_app_length, (take_ge f) by lia.
  rewrite !lookup_total_app_l by lia. replace (length body - 2 + 1)%nat with (length body - 1)%nat by lia.
  rewrite Nat.add_0_r. destruct (RDB_VERSION <? _); done.
Qed.

(** The payload of a string. *)
Definition payloadOf (x : list Z) : list Z := ([RDB_TYPE_STRING] ++ x ++ [9; 0]) ++ crcOf ([RDB_TYPE_STRING] ++ x ++ [9; 0]).

Lemma body_bytes x : Forall byte x → Forall byte ([RDB_TYPE_STRING] ++ x ++ [9; 0]).
Proof. intros Hx. repeat (apply Forall_app; split); [by repeat constructor|done|by repeat constructor]. Qed.

Lemma createDumpPayload_run addr o s : string_obj o s → size s < 2 ^ 31 →
  ∃ x, stored s x ∧ Forall byte x ∧ createDumpPayload bufAddr htab fresh rdb_compression saveOther typeOther addr o = Ok (payloadOf x).
Proof.
  intros Ho Hs. destruct (rdbSaveObject_saves bufAddr htab fresh rdb_compression htab_u32 saveOther o s Ho Hs) as (x & Hx & Hb & Hsave).
  exists x. split; [done|]. split; [done|]. unfold createDumpPayload. pose proof (stored_pos _ _ Hx).
  destruct (rdbSaveObjectType_saves bufAddr typeOther o s Ho) as [Hb1 Hsave1].
  rewrite (bind_run _ _ _ _ _ (Hsave1 _ output_start)). rewrite (bind_run (serverAssert _ _) _ _ _ _ (serverAssert_run _ _ _ eq_refl)).
  rewrite (bind_run _ _ _ _ _ (Hsave _ (output_wrote _ _ output_start Hb1))). replace (size x =? 0) with false by lia.
  cbv [mbind res_bind serverAssert negb mret M_ret res_ret]. rewrite wrote_app. cbn [snd ptr wrote set_buffer rioInitWithBuffer].
  change (Z.land RDB_VERSION 255) with 9. change (Z.land (Z.shiftr RDB_VERSION 8) 255) with 0.
  rewrite stored_crc; [done|by apply (body_bytes x)].
Qed.

Lemma verify_payloadOf addr x : Forall byte x → verifyDumpPayload addr (payloadOf x) = true.
Proof.
  intros Hx. unfold payloadOf. rewrite verifyDumpPayload_split.
  - rewrite bool_decide_eq_true_2, andb_true_r by done. unfold versionOk. rewrite !length_app. cbn [length].
    rewrite !app_assoc, !lookup_total_app_r by (rewrite length_app; cbn; lia). rewrite !length_app. cbn [length].
    replace (1 + (length x + 2) - 1 - (1 + length x))%nat with 1%nat by lia.
    replace (1 + (length x + 2) - 2 - (1 + length x))%nat with 0%nat by lia. done.
  - by apply body_bytes.
  - rewrite !length_app. cbn. lia.
  - unfold crcOf. by rewrite length_le.
Qed.

Lemma loadPayload_run s x : stored s x → Forall byte x → loadPayload bufAddr fresh loadOther (payloadOf x) = Ok (Some (canon s)).
Proof.
  intros Hx Hb. unfold loadPayload. set (m := rdbLoadObjectType _ ≫= _).
  assert (Loads m ([RDB_TYPE_STRING] ++ x) (Some (canon s))) as Hm.
  { subst m. eapply (Loads_bind _ _ _ _ RDB_TYPE_STRING).
    - eapply (Reads_last _ _ _ RDB_TYPE_STRING _ (-1)); [by apply rdbLoadType_reads|done|done].
    - by apply rdbLoadObject_reads. }
  assert (Forall byte (payloadOf x)) as Hp.
  { apply Forall_app. split; [by apply body_bytes|by apply le_byte]. }
  unfold payloadOf in *. rewrite <-!app_assoc in *. rewrite app_assoc in *.
  by rewrite (Hm _ _ (input_start _ Hp)).
Qed.

End Payload.

Lemma raw_unraw x : Forall byte x → raw (unraw x) = x.
Proof.
  induction 1 as [|b x Hb _ IH]; [done|]. cbn. f_equal; [|done]. unfold code, chr.
  unfold byte in Hb. rewrite nat_ascii_embedding; lia.
Qed.

Lemma payloadOf_bytes `{Host} x : Forall byte x → Forall byte (payloadOf x).
Proof. intros Hx. apply Forall_app. split; [by apply body_bytes|by apply le_byte]. Qed.

Section Commands.
Context `{Host} `{OtherCommands} (bufAddr htab : Z → Z) (fresh : nat → Z) (rdb_compression : bool).
Context (htab_u32 : ∀ j, 0 ≤ htab j < 2 ^ 32).
Context (saveOther : robj → rioM Z) (typeOther : robj → Z) (loadOther : Z → rioM (option robj)).

Lemma dumpCommand_run addr c cl key db o e v s :
  clients s !! c = Some cl → c_argv cl !! 1%nat = Some key → dbs s !! c_db cl = Some db → db_ok db →
  masterhost (srv_env s) = false → live (srv_env s) db key = Some (o, e) → string_obj o v → size v < 2 ^ 31 →
  ∃ x, stored v x ∧ Forall byte x ∧ dumpCommand bufAddr htab fresh rdb_compression saveOther typeOther addr c s =
    Ok (tt, afterCommand c cl (RBulk (unraw (payloadOf x))) (dirty s) (c_db cl) (purge (srv_env s) key db) s).
Proof.
  intros Hc Hk Hdb Hok Hm Hl Ho Hv.
  destruct (createDumpPayload_run bufAddr htab fresh rdb_compression htab_u32 saveOther typeOther addr o v Ho Hv) as (x & Hx & Hb & Hrun).
  exists x. split; [done|]. split; [done|]. unfold dumpCommand.
  erewrite bind_run by by apply getClient_run. rewrite bind_gets. erewrite bind_run by by apply argv_run.
  erewrite bind_run; [|eapply withDb_run; [done|by apply lookupKeyRead_run, db_ok_wf]].
  rewrite Hm. cbn [negb orb]. rewrite andb_true_r, read_live, Hl. cbn [fmap option_fmap option_map fst].
  rewrite (bind_run (liftRes _) _ _ (payloadOf x) _) by (unfold liftRes; by rewrite Hrun).
  unfold addReply. by rewrite (updClient_run c cl).
Qed.

(** The database RESTORE finds the key free in, and the one it leaves. *)
Definition freed (g : genv) (replace : bool) (key : bytes) (db : redisDb) : redisDb :=
  if replace then remove_key key db else purge g key db.

Definition restored (g : genv) (replace absttl : bool) (key : bytes) (ttl : Z) (o : robj) (db : redisDb) : redisDb :=
  let db := freed g replace key db in
  let db := with_keyspace (<[key := o]> (dict db)) (expires db) db in
  if ttl =? 0 then db else write_expire key (if absttl then ttl else i64 (ttl + mstime g)) db.

Lemma freed_free g replace key db : db_ok db → masterhost g = false → replace = true ∨ live g db key = None →
  dict (freed g replace key db) !! key = None ∧ expires (freed g replace key db) !! key = None ∧
  ∀ k, k ≠ key → live g (freed g replace key db) k = live g db k.
Proof.
  intros Hok Hm Hfree. unfold freed. destruct replace.
  - cbn. rewrite !lookup_delete_eq. split_and!; [done|done|]. intros k Hne. rewrite live_remove_key. unfold abs_delete.
    by rewrite decide_False.
  - destruct Hfree as [|Hl]; [done|]. rewrite purge_dict, purge_expires, Hl by (done || by apply db_ok_wf).
    split_and!; [done|done|]. intros k _. by apply live_purge.
Qed.

(** A client whose RESTORE is accepted, up to the payload [p]. *)
Record restores (s : server) (c : clientId) (cl : client) (db : redisDb) (key p : bytes) (replace absttl : bool) (ttl : Z) : Prop := {
  rs_client : clients s !! c = Some cl;
  rs_db : dbs s !! c_db cl = Some db;
  rs_ok : db_ok db;
  rs_master : masterhost (srv_env s) = false;
  rs_key : c_argv cl !! 1%nat = Some key;
  rs_ttl : ∃ ttlarg, c_argv cl !! 2%nat = Some ttlarg ∧ string2ll ttlarg = Some ttl ∧ 0 ≤ ttl;
  rs_payload : c_argv cl !! 3%nat = Some p;
  rs_options : restoreOptions (drop 4 (c_argv cl)) false false (-1) (-1) = inr (replace, absttl);
  rs_free : replace = true ∨ live (srv_env s) db key = None }.

(** What the commands up to the verification of the payload do. *)
Lemma restore_prefix addr c cl key p replace absttl ttl db s : restores s c cl db key p replace absttl ttl →
  let s1 := if replace then s else set_dbs (<[c_db cl := purge (srv_env s) key db]> (dbs s)) s in
  restoreCommand bufAddr fresh loadOther addr c s =
  (if negb (verifyDumpPayload addr (raw p)) then addReply c (RError "DUMP payload version or checksum are wrong")
   else
     obj ← liftRes (loadPayload bufAddr fresh loadOther (raw p));
     match obj with
     | None => addReply c (RError "Bad data format")
     | Some obj =>
         (if replace then withDb (c_db cl) (dbSyncDelete key) ;; mret tt else mret tt) ;;
         withDb (c_db cl) (dbAdd key obj) ;;
         (if negb (ttl =? 0)
          then withDb (c_db cl) (setExpire key (if absttl then ttl else i64 (ttl + mstime (srv_env s)))) else mret tt) ;;
         addReply c ROk ;;
         incrDirty
     end) s1.
Proof.
  intros [Hc Hdb Hok Hm Hk (ttlarg & Ht & Httl & Hpos) Hp Hopt Hfree] s1. unfold restoreCommand.
  erewrite bind_run by by apply getClient_run. rewrite bind_gets, Hopt. erewrite bind_run by by apply argv_run.
  rewrite (bind_run _ _ s false s1).
  2: { subst s1. destruct replace; [done|]. cbn [negb]. destruct Hfree as [|Hl]; [done|].
    erewrite bind_run; [|eapply withDb_run; [done|by apply lookupKeyWrite_run, db_ok_wf]].
    rewrite purge_dict, Hl by (done || by apply db_ok_wf). done. }
  cbn beta iota. erewrite bind_run by by apply argv_run.
  erewrite bind_run by by apply getLongLongFromObject_run, createStringObject_string.
  rewrite Httl. replace (ttl <? 0) with false by lia. by erewrite bind_run by by apply argv_run.
Qed.

Lemma restoreCommand_run addr c cl key x replace absttl ttl v db s :
  restores s c cl db key (unraw (payloadOf x)) replace absttl ttl →
  stored v x → Forall byte x →
  restoreCommand bufAddr fresh loadOther addr c s =
  Ok (tt, afterCommand c cl ROk (dirty s + 1) (c_db cl) (restored (srv_env s) replace absttl key ttl (canon v) db) s).
Proof.
  intros Hr Hx Hb. pose proof Hr as [Hc Hdb Hok Hm _ _ _ _ Hfree]. set (g := srv_env s). set (i := c_db cl).
  assert (i < length (dbs s))%nat as Hi by by eapply lookup_lt_Some.
  rewrite (restore_prefix addr _ _ _ _ _ _ _ _ _ Hr). rewrite raw_unraw, verify_payloadOf by (done || by apply payloadOf_bytes). cbn [negb].
  rewrite (bind_run (liftRes _) _ _ (Some (canon v)) _) by (unfold liftRes; by erewrite loadPayload_run).
  destruct (freed_free g replace key db Hok Hm Hfree) as (Hfd & Hfe & _).
  set (s1 := if replace then s else _). set (s2 := set_dbs (<[i := freed g replace key db]> (dbs s)) s).
  rewrite (bind_run _ _ s1 tt s2).
  2: { subst s1 s2. unfold freed. destruct replace; [|done]. erewrite bind_run; [done|]. eapply withDb_run; [done|]. apply dbSyncDelete_run. }
  set (db1 := with_keyspace (<[key := canon v]> (dict (freed g replace key db))) (expires (freed g replace key db)) (freed g replace key db)).
  rewrite (bind_run _ _ s2 tt (set_dbs (<[i := db1]> (dbs s)) s)).
  2: { subst s2. erewrite withDb_run; [|by apply list_lookup_insert_eq|unfold dbAdd; rewrite bind_get;
         rewrite (bind_run _ _ _ _ _ (serverAssert_run _ _ _ (bool_decide_eq_true_2 _ Hfd))); done].
       cbn. by rewrite list_insert_insert_eq. }
  rewrite (bind_run _ _ _ tt (set_dbs (<[i := restored g replace absttl key ttl (canon v) db]> (dbs s)) s)).
  2: { unfold restored. fold db1. destruct (Z.eqb_spec ttl 0); [done|]. cbn [negb].
       erewrite withDb_run; [|by apply list_lookup_insert_eq|apply setExpire_run; cbn; rewrite lookup_insert_eq; by eexists].
       cbn. by rewrite list_insert_insert_eq. }
  unfold addReply. by erewrite bind_run by by apply (updClient_run c cl).
Qed.

End Commands.

(** ** Damaged payloads *)

Lemma le_inj w a b : 0 ≤ w → 0 ≤ a < 2 ^ (8 * w) → 0 ≤ b < 2 ^ (8 * w) → le w a = le w b → a = b.
Proof. intros Hw Ha Hb Heq. apply (f_equal unle) in Heq. rewrite !unle_le, !Z.mod_small in Heq by done. done. Qed.

Section Damaged.
#[local] Existing Instance littleHost.

Lemma crcOf_changed a b x y : Forall byte a → Forall byte b → byte x → byte y → x ≠ y →
  crcOf (a ++ x :: b) ≠ crcOf (a ++ y :: b).
Proof.
  intros Ha Hb Hx Hy Hne Heq. assert (∀ z, byte z → word (foldl rbyte 0 (a ++ z :: b))) as Hw.
  { intros z Hz. apply rbytes_keep; [|unfold word; lia]. apply Forall_app. split; [done|by constructor]. }
  apply (le_inj 8) in Heq; [|lia|by apply Hw..]. revert Heq. apply rbytes_changed; [unfold word; lia|done..].
Qed.

Lemma verify_true addr p : Forall byte p → verifyDumpPayload addr p = true →
  crcOf (take (length p - 8) p) = drop (length p - 8) p ∧ (10 ≤ length p)%nat.
Proof.
  intros Hb Hv. destruct (decide (length p < 10)%nat).
  { unfold verifyDumpPayload in Hv. replace (_ <? 10) with true in Hv by lia. done. }
  split; [|lia]. rewrite <-(take_drop (length p - 8) p) in Hv at 1. rewrite verifyDumpPayload_split in Hv.
  - by apply andb_true_iff in Hv as [_ Hv%bool_decide_eq_true].
  - by apply Forall_take.
  - rewrite length_take. lia.
  - rewrite length_drop. lia.
Qed.

Lemma verify_damaged addr addr' a b x y : Forall byte (a ++ x :: b) → byte y → x ≠ y →
  verifyDumpPayload addr (a ++ x :: b) = true → verifyDumpPayload addr' (a ++ y :: b) = false.
Proof.
  intros Hb Hy Hne Hv. apply not_true_iff_false. intros Hv'. pose proof Hb as [Ha [Hx Hbb]%Forall_cons]%Forall_app.
  apply verify_true in Hv as [Hv Hl]; [|done]. apply verify_true in Hv' as [Hv' _]; [|apply Forall_app; by split; [|constructor]].
  rewrite !length_app in *. cbn [length] in *. set (n := (length a + S (length b) - 8)%nat) in *.
  destruct (decide (length a < n)%nat).
  - rewrite !take_app_ge, !drop_app_ge in Hv, Hv' by lia.
    replace (n - length a)%nat with (S (n - length a - 1)) in Hv, Hv' by lia. cbn [take drop] in Hv, Hv'.
    rewrite <-Hv' in Hv. revert Hv. apply crcOf_changed; [done|by apply Forall_take|done..].
  - rewrite !take_app_le, !drop_app_le in Hv, Hv' by lia. rewrite Hv' in Hv. apply app_inv_head in Hv. congruence.
Qed.

End Damaged.

(** ** Claims *)

(** C33. On masters, RESTORE of the payload that DUMP replied for a string of fewer than
    2^31 bytes, with any valid options and a time to live that is not negative,
    stores the same string under the new key, when the key is free or REPLACE is
    given, with no expire time for 0, the given one for ABSTTL, and else the given
    one added to the clock, which wraps around at 64 bits; the reply is OK, and no
    other key changes. DUMP changes nothing that can be observed. *)
Theorem restore_gives_back_dump `{Host} `{OtherCommands} (bufAddr htab : Z → Z) (fresh : nat → Z) (compression : bool)
    (saveOther : robj → rioM Z) (typeOther : robj → Z) (loadOther : Z → rioM (option robj)) (addr addr' : Z)
    (c : clientId) (cl : client) (key : bytes) (db : redisDb) (o : robj) (e : option Z) (v : bytes) (s : server) :
  (∀ j, 0 ≤ htab j < 2 ^ 32) → clients s !! c = Some cl → c_argv cl !! 1%nat = Some key → dbs s !! c_db cl = Some db → db_ok db →
  masterhost (srv_env s) = false → live (srv_env s) db key = Some (o, e) → string_obj o v → size v < 2 ^ 31 →
  ∃ p, dumpCommand bufAddr htab fresh compression saveOther typeOther addr c s =
      Ok (tt, afterCommand c cl (RBulk p) (dirty s) (c_db cl) (purge (srv_env s) key db) s) ∧
    ∀ s2 c2 cl2 db2 key2 replace absttl ttl, restores s2 c2 cl2 db2 key2 p replace absttl ttl →
    ∃ db2', restoreCommand bufAddr fresh loadOther addr' c2 s2 = Ok (tt, afterCommand c2 cl2 ROk (dirty s2 + 1) (c_db cl2) db2' s2) ∧
      dict db2' !! key2 = Some (canon v) ∧
      expires db2' !! key2 = (if ttl =? 0 then None else Some (if absttl then ttl else i64 (ttl + mstime (srv_env s2)))) ∧
      ∀ k, k ≠ key2 → live (srv_env s2) db2' k = live (srv_env s2) db2 k.
Proof.
  intros Hh Hc Hk Hdb Hok Hm Hl Ho Hv.
  destruct (dumpCommand_run bufAddr htab fresh compression Hh saveOther typeOther addr c cl key db o e v s) as (x & Hx & Hb & Hrun); [done..|].
  exists (unraw (payloadOf x)). split; [done|]. intros s2 c2 cl2 db2 key2 replace absttl ttl Hr.
  exists (restored (srv_env s2) replace absttl key2 ttl (canon v) db2).
  split; [by apply (restoreCommand_run _ _ _ _ _ _ _ x)|]. destruct (freed_free (srv_env s2) replace key2 db2) as (Hfd & Hfe & Hlive); [apply Hr..|].
  unfold restored. split_and!.
  - destruct (ttl =? 0); cbn; by rewrite lookup_insert_eq.
  - destruct (ttl =? 0); cbn; [done|by rewrite lookup_insert_eq].
  - intros k Hne. rewrite <-(Hlive k Hne). unfold live, expired_at. destruct (ttl =? 0); cbn; by rewrite !lookup_insert_ne.
Qed.

(** RESTORE of a payload that differs in one byte from a valid one is refused with
    an error and changes nothing observable, on a little endian machine. *)
Theorem restore_refuses_damage (bufAddr : Z → Z) (fresh : nat → Z) (loadOther : Z → rioM (option robj)) (addr addr' : Z)
    (a b : list Z) (x y : Z) (s : server) (c : clientId) (cl : client) (db : redisDb) (key : bytes) (replace absttl : bool) (ttl : Z) :
  Forall byte (a ++ x :: b) → byte y → x ≠ y → verifyDumpPayload (H := littleHost) addr (a ++ x :: b) = true →
  restores s c cl db key (unraw (a ++ y :: b)) replace absttl ttl →
  ∃ db', restoreCommand (H := littleHost) bufAddr fresh loadOther addr' c s =
      Ok (tt, afterCommand c cl (RError "DUMP payload version or checksum are wrong") (dirty s) (c_db cl) db' s) ∧
    obs_eq (srv_env s) db' db.
Proof.
  intros Hb Hy Hne Hv Hr. rewrite (restore_prefix (H := littleHost) _ _ _ _ _ _ _ _ _ _ _ _ _ Hr). pose proof Hr as [Hc Hdb Hok Hm _ _ _ _ _].
  pose proof Hb as [Ha [Hx Hbb]%Forall_cons]%Forall_app.
  rewrite raw_unraw, (verify_damaged addr addr' a b x y) by (done || apply Forall_app; by split; [|constructor]).
  exists (if replace then db else purge (srv_env s) key db). cbn [negb]. unfold addReply. destruct replace.
  - split; [|done]. rewrite (updClient_run c cl) by done. unfold afterCommand. by rewrite set_dbs_id.
  - split; [|by apply live_purge]. by rewrite (updClient_run c cl).
Qed.

(** ** Witnesses *)

Definition dumpClient (a : list bytes) : client := set_cmd (Some (otherProc "dump")) a (createClient true).

Lemma restores_sample (p : bytes) : @restores (stringServer (otherProc "dump") [B "RESTORE"; B "z"; B "77"; p]) 1%nat
  (dumpClient [B "RESTORE"; B "z"; B "77"; p]) stringDb (B "z") p false false 77.
Proof.
  split; try reflexivity.
  - exact stringDb_ok.
  - exists (B "77"). split_and!; [reflexivity|vm_compute; reflexivity|lia].
  - right. vm_compute. reflexivity.
Qed.

Lemma restore_gives_back_dump_witness : ∃ p db',
  @dumpCommand littleHost noOther id (λ _, 3) (λ _, 9) true (λ _, mret 1) (λ _, 1) 5 1%nat
    (stringServer (otherProc "dump") [B "DUMP"; B "k"]) =
  Ok (tt, afterCommand 1 (dumpClient [B "DUMP"; B "k"]) (RBulk p) 0 0 stringDb (stringServer (otherProc "dump") [B "DUMP"; B "k"])) ∧
  @restoreCommand littleHost id (λ _, 9) (λ _, mret None) 6 1%nat
    (stringServer (otherProc "dump") [B "RESTORE"; B "z"; B "77"; p]) =
  Ok (tt, afterCommand 1 (dumpClient [B "RESTORE"; B "z"; B "77"; p]) ROk 1 0 db'
            (stringServer (otherProc "dump") [B "RESTORE"; B "z"; B "77"; p])) ∧
  dict db' !! B "z" = Some (createEmbeddedStringObject (B "old")) ∧ expires db' !! B "z" = Some 1077.
Proof.
  destruct (@restore_gives_back_dump littleHost noOther id (λ _, 3) (λ _, 9) true (λ _, mret 1) (λ _, 1) (λ _, mret None) 5 6 1%nat
    (dumpClient [B "DUMP"; B "k"]) (B "k") stringDb (createStringObject (B "old")) (Some 5000) (B "old")
    (stringServer (otherProc "dump") [B "DUMP"; B "k"])) as (p & Hd & Hr).
  - lia.
  - reflexivity.
  - reflexivity.
  - reflexivity.
  - exact stringDb_ok.
  - reflexivity.
  - vm_compute. reflexivity.
  - apply createStringObject_string.
  - vm_compute. reflexivity.
  - destruct (Hr _ _ _ _ _ _ _ _ (restores_sample p)) as (db' & Hrun & Hdict & Hexp & _).
    exists p, db'. split_and!; [exact Hd|exact Hrun|exact Hdict|exact Hexp].
Defined.

(** The payload of the string "old", and with one of its letters changed. *)
Definition oldPayload (c : Z) : list Z := [0; 3; 111] ++ c :: [100; 9; 0; 15; 204; 195; 54; 181; 153; 171; 105].

Lemma restore_refuses_damage_witness : ∃ db',
  @restoreCommand littleHost id (λ _, 9) (λ _, mret None) 6 1%nat
    (stringServer (otherProc "dump") [B "RESTORE"; B "z"; B "77"; unraw (oldPayload 109)]) =
  Ok (tt, afterCommand 1 (dumpClient [B "RESTORE"; B "z"; B "77"; unraw (oldPayload 109)])
            (RError "DUMP payload version or checksum are wrong") 0 0 db'
            (stringServer (otherProc "dump") [B "RESTORE"; B "z"; B "77"; unraw (oldPayload 109)])).
Proof.
  destruct (@restore_refuses_damage id (λ _, 9) (λ _, mret None) 5 6 [0; 3; 111] [100; 9; 0; 15; 204; 195; 54; 181; 153; 171; 105]
    108 109 (stringServer (otherProc "dump") [B "RESTORE"; B "z"; B "77"; unraw (oldPayload 109)]) 1%nat
    (dumpClient [B "RESTORE"; B "z"; B "77"; unraw (oldPayload 109)]) stringDb (B "z") false false 77) as (db' & Hrun & _).
  - unfold byte. cbn [app]. repeat (constructor; [lia|]). constructor.
  - unfold byte. lia.
  - lia.
  - vm_compute. reflexivity.
  - apply restores_sample.
  - exists db'. exact Hrun.
Defined.
