(* ===== verification/Backend.v ===== *)
(** * Backend: the cache-through code of src/src/backend.c

    Main-thread code: which commands park their client and queue a key for the
    backend ([checkNeedToBackendState]), the job slots, the completion of a job
    ([_clearFinishKey] and the three pipe handlers) and the cleanup of a freed
    client.  The working threads and the database are in BackendWorker.v, the
    concurrent system in BackendSystem.v.

    [rocklock]/[rockunlock] delimit atomic sections; each function here runs
    its sections in sequence.  BackendSystem.v says which interleavings with the
    working threads that covers. *)

From Stdlib Require Import Ascii String.
From stdpp Require Import base tactics option list strings numbers gmap fin_maps.
From S2P Require Import Prelude Util Object Db Server TString.

Local Open Scope Z_scope.

Inductive mode := GET_MODE | SET_MODE | DEL_MODE.

#[global] Instance mode_eq_dec : EqDecision mode.
Proof. solve_decision. Defined.

(** [enum DatabaseType] of redisoo.h; 0 means no database. *)
Definition GRPC : Z := 100.

(** The order in which [dictNext] visits a dictionary depends on the hash seed
    and on the state of the table: any function that gives the key of an entry,
    and gives one whenever there is an entry. *)
Class CandidateOrder := {
  dictFirst : ∀ {V : Type}, gmap bytes V → option bytes;
  dictFirst_elem : ∀ (V : Type) (m : gmap bytes V) k, dictFirst m = Some k → is_Some (m !! k);
  dictFirst_none : ∀ (V : Type) (m : gmap bytes V), dictFirst m = None → m = ∅ }.

(** ** The pending keys of a mode *)

(** The clients that wait for a key; [None] when the key is not pending. *)
Definition pendingClients (m : mode) (db : redisDb) (k : bytes) : option (list clientId) :=
  match m with
  | GET_MODE => backendGetKeys db !! k
  | SET_MODE => infoClients <$> backendSetKeys db !! k
  | DEL_MODE => backendDelKeys db !! k
  end.

Definition with_get_keys (g : gmap bytes (list clientId)) (db : redisDb) : redisDb :=
  mkDb (dict db) (expires db) g (backendSetKeys db) (backendDelKeys db).
Definition with_set_keys (g : gmap bytes backendSetInfo) (db : redisDb) : redisDb :=
  mkDb (dict db) (expires db) (backendGetKeys db) g (backendDelKeys db).
Definition with_del_keys (g : gmap bytes (list clientId)) (db : redisDb) : redisDb :=
  mkDb (dict db) (expires db) (backendGetKeys db) (backendSetKeys db) g.

(** ** The job slots by mode *)

Definition jobKey (m : mode) (s : server) : option sdsptr :=
  match m with
  | GET_MODE => getKey (getJob s) | SET_MODE => setKey (setJob s) | DEL_MODE => delKey (delJob s)
  end.

Definition jobReturnKey (m : mode) (s : server) : option sdsptr :=
  match m with
  | GET_MODE => returnGetKey (getJob s) | SET_MODE => returnSetKey (setJob s)
  | DEL_MODE => returnDelKey (delJob s)
  end.

Definition jobDbid (m : mode) (s : server) : Z :=
  match m with
  | GET_MODE => getDbid (getJob s) | SET_MODE => setDbid (setJob s) | DEL_MODE => delDbid (delJob s)
  end.

Definition isNull {A} (o : option A) : bool := match o with None => true | Some _ => false end.

(** The jobs when the server starts. *)
Definition zeroGetJob : BackendGetJob := mkGetJob (-1) None None None.
Definition zeroSetJob : BackendSetJob := mkSetJob (-1) None None None 0 0.
Definition zeroDelJob : BackendDelJob := mkDelJob (-1) None None 0.

Definition initBackendZeroJobs : M server unit :=
  modify (λ s, set_delJob zeroDelJob (set_setJob zeroSetJob (set_getJob zeroGetJob s))).

Section Backend.
Context `{OtherCommands, CandidateOrder}.

(** ** Candidates and new jobs *)

(** The loop of [_hasAvailableCandidate] over the databases from index [i] on. *)
Fixpoint firstCandidate {V} (keys : redisDb → gmap bytes V) (i : nat) (l : list redisDb) :
    M server (option (nat * bytes)) :=
  match l with
  | [] => mret None
  | db :: l =>
      if bool_decide (size (keys db) ≠ 0%nat) then
        key ← deref (dictFirst (keys db)) "_hasAvailableCandidate";
        mret (Some (i, key))
      else firstCandidate keys (S i) l
  end.

Definition _hasAvailableCandidate (m : mode) : M server (option (nat * bytes)) :=
  l ← gets dbs;
  match m with
  | GET_MODE => firstCandidate backendGetKeys 0 l
  | SET_MODE => firstCandidate backendSetKeys 0 l
  | DEL_MODE => firstCandidate backendDelKeys 0 l
  end.

(** The key of the dictionary entry of [server.db[dbid].backendSetKeys]. *)
Definition findSetInfo (dbid : nat) (key : bytes) (site : string) : M server backendSetInfo :=
  s ← get;
  deref (dbs s !! dbid ≫= λ db, backendSetKeys db !! key) site.

Definition _createNewJobIfHasMoreCandidates (m : mode) (need_check_key_first : bool) :
    M server unit :=
  s ← get;
  if need_check_key_first && negb (isNull (jobKey m s) && isNull (jobReturnKey m s))
  then mret tt else
  cand ← _hasAvailableCandidate m;
  match cand with
  | None => mret tt
  | Some (dbid, key) =>
      match m with
      | GET_MODE =>
          j ← gets getJob;
          serverAssert (isNull (getKey j) && isNull (returnGetKey j)) "_createNewJobIfHasMoreCandidates" ;;
          copyKey ← sdsdup key;
          modify (set_getJob (mkGetJob (Z.of_nat dbid) (Some copyKey) (returnGetKey j) (valFromBackend j)))
      | SET_MODE =>
          j ← gets setJob;
          serverAssert (isNull (setKey j) && isNull (returnSetKey j) && isNull (valToBackend j))
            "_createNewJobIfHasMoreCandidates" ;;
          copyKey ← sdsdup key;
          setInfo ← findSetInfo dbid (p_str copyKey) "_createNewJobIfHasMoreCandidates";
          copyValue ← sdsdup (setValue setInfo);
          modify (set_setJob (mkSetJob (Z.of_nat dbid) (Some copyKey) (returnSetKey j)
                                (Some (p_str copyValue)) 0 (infoTtl setInfo)))
      | DEL_MODE =>
          j ← gets delJob;
          serverAssert (isNull (delKey j) && isNull (returnDelKey j)) "_createNewJobIfHasMoreCandidates" ;;
          copyKey ← sdsdup key;
          modify (set_delJob (mkDelJob (Z.of_nat dbid) (Some copyKey) (returnDelKey j) 0))
      end
  end.

(** ** Which commands go to the backend *)

(** A statement that is NULL or the empty C string. *)
Definition emptyStatement (stmt : option sdsptr) : bool :=
  match stmt with None => true | Some p => bool_decide (cstr (p_str p) = []) end.

Definition _checkGetCommandForBackendState (c : clientId) : M server bool :=
  cl ← getClient c;
  p ← deref (c_cmd cl) "c->cmd";
  if negb (bool_decide (p = getCommandProc)) then mret false else
  s ← get;
  if negb (redisoo_db_type (cfg s) =? GRPC) && emptyStatement (redisoo_get (cfg s)) then mret false else
  key ← argv cl 1;
  o ← withDb (c_db cl) (lookupKeyRead (srv_env s) (readonlyCmd cl) key);
  if bool_decide (is_Some o) then mret false else
  j ← gets getJob;
  let reentry := isNull (valFromBackend j) &&
    match returnGetKey j with
    | Some r => bool_decide (p_str r = key)
    | None => false
    end in
  mret (negb reentry).

Definition _isSetCommnd (p : proc) : bool :=
  bool_decide (p = setCommandProc) || bool_decide (p = setexCommandProc) ||
  bool_decide (p = setnxCommandProc) || bool_decide (p = psetexCommandProc).

(** [c->db->backendSetKeys], looked up for a key. *)
Definition clientSetInfo (cl : client) (key : bytes) : M server (option backendSetInfo) :=
  db ← withDb (c_db cl) get;
  mret (backendSetKeys db !! key).

Definition _isSameKeyWithDifferentValForSet (c : clientId) : M server bool :=
  cl ← getClient c;
  key ← argv cl 1;
  val ← argv cl 2;
  de ← clientSetInfo cl key;
  match de with
  | None => mret false
  | Some setInfo => mret (negb (bool_decide (setValue setInfo = val)))
  end.

Definition _isSameValueInDbForSet (c : clientId) : M server bool :=
  cl ← getClient c;
  key ← argv cl 1;
  val ← argv cl 2;
  g ← gets srv_env;
  o ← withDb (c_db cl) (lookupKeyRead g (readonlyCmd cl) key);
  match o with
  | None => mret false
  | Some o =>
      if bool_decide (o_type o = OBJ_STRING) then
        p ← ptrSds o "_isSameValueInDbForSet";
        mret (bool_decide (val = p))
      else mret false
  end.

Definition _isNoKeyInDbDictForDel (c : clientId) : M server bool :=
  cl ← getClient c;
  key ← argv cl 1;
  db ← withDb (c_db cl) get;
  mret (bool_decide (dict db !! key = None)).

Definition _checkSetCommandForBackendState (c : clientId) : M server bool :=
  cl ← getClient c;
  p ← deref (c_cmd cl) "c->cmd";
  if negb (_isSetCommnd p) then mret false else
  s ← get;
  if emptyStatement (redisoo_set (cfg s)) then mret false else
  exists_ ← (if bool_decide (p = setnxCommandProc) then
               key ← argv cl 1;
               o ← withDb (c_db cl) (lookupKeyRead (srv_env s) (readonlyCmd cl) key);
               mret (bool_decide (is_Some o))
             else mret false);
  if exists_ : bool then mret false else
  differ ← _isSameKeyWithDifferentValForSet c;
  if differ : bool then mret false else
  same ← _isSameValueInDbForSet c;
  mret (negb same).

Definition _checkDelCommandForBackendState (c : clientId) : M server bool :=
  cl ← getClient c;
  p ← deref (c_cmd cl) "c->cmd";
  if negb (bool_decide (p = delCommandProc)) then mret false else
  s ← get;
  if emptyStatement (redisoo_del (cfg s)) then mret false else
  if (2 <? Z.of_nat (length (c_argv cl))) then mret false else
  nokey ← _isNoKeyInDbDictForDel c;
  mret (negb nokey).

(** ** Queueing a key *)

(** In milliseconds; 0 means no TTL. *)
Definition _getTtlForSetCommand (c : clientId) : M server Z :=
  cl ← getClient c;
  p ← deref (c_cmd cl) "c->cmd";
  match p with
  | setCommandProc =>
      match setOptions (drop 3 (c_argv cl)) OBJ_SET_NO_FLAGS UNIT_SECONDS None with
      | None => mret 0
      | Some (_, unit, expire) =>
          v ← getLongLongFromObject (createStringObject <$> expire);
          match v with
          | None => mret 0
          | Some val => mret (if unit =? UNIT_SECONDS then i64 (1000 * val) else val)
          end
      end
  | setexCommandProc =>
      e ← argv cl 2;
      v ← getLongLongFromObject (Some (createStringObject e));
      mret (match v with None => 0 | Some val => i64 (val * 1000) end)
  | psetexCommandProc =>
      e ← argv cl 2;
      v ← getLongLongFromObject (Some (createStringObject e));
      mret (default 0 v)
  | _ => mret 0
  end.

Definition _getValueFromSetCommand (c : clientId) : M server bytes :=
  cl ← getClient c;
  p ← deref (c_cmd cl) "c->cmd";
  if bool_decide (p = setexCommandProc) || bool_decide (p = psetexCommandProc)
  then argv cl 3 else argv cl 2.

Definition _addKeyToBackendKeys (m : mode) (c : clientId) (sync : bool) : M server unit :=
  cl ← getClient c;
  key ← argv cl 1;
  let waiter := if sync then [c] else [] in
  match m with
  | GET_MODE =>
      withDb (c_db cl) (modify (λ db, with_get_keys
        (<[key := default [] (backendGetKeys db !! key) ++ waiter]> (backendGetKeys db)) db))
  | SET_MODE =>
      de ← clientSetInfo cl key;
      ttl ← _getTtlForSetCommand c;
      v ← _getValueFromSetCommand c;
      match de with
      | None =>
          withDb (c_db cl) (modify (λ db, with_set_keys
            (<[key := mkSetInfo v ttl waiter]> (backendSetKeys db)) db))
      | Some setInfo =>
          serverAssert (bool_decide (setValue setInfo = v)) "_addKeyToBackendKeys" ;;
          withDb (c_db cl) (modify (λ db, with_set_keys
            (<[key := mkSetInfo (setValue setInfo) ttl (infoClients setInfo ++ waiter)]>
               (backendSetKeys db)) db))
      end
  | DEL_MODE =>
      withDb (c_db cl) (modify (λ db, with_del_keys
        (<[key := default [] (backendDelKeys db !! key) ++ waiter]> (backendDelKeys db)) db))
  end.

(** The common part of the three branches of [checkNeedToBackendState]. *)
Definition toBackend (m : mode) (c : clientId) (sync : bool) (st : backendState) : M server unit :=
  (if sync then updClient c (set_backend_state st) else mret tt) ;;
  _addKeyToBackendKeys m c sync ;;
  _createNewJobIfHasMoreCandidates m true.

Definition checkNeedToBackendState (c : clientId) : M server unit :=
  cl ← getClient c;
  serverAssert (bool_decide (backend_state cl = CLIENT_BACKEND_NORMAL)) "checkNeedToBackendState" ;;
  s ← get;
  if redisoo_db_type (cfg s) =? 0 then mret tt
  else if c_multi cl then mret tt
  else
    toGet ← _checkGetCommandForBackendState c;
    if toGet : bool then toBackend GET_MODE c (redisoo_get_sync (cfg s)) CLIENT_BACKEND_GET else
    toSet ← _checkSetCommandForBackendState c;
    if toSet : bool then toBackend SET_MODE c (redisoo_set_sync (cfg s)) CLIENT_BACKEND_SET else
    toDel ← _checkDelCommandForBackendState c;
    if toDel : bool then toBackend DEL_MODE c (redisoo_del_sync (cfg s)) CLIENT_BACKEND_DEL else
    mret tt.

(** ** Executing client input *)

Definition resetClient (c : clientId) : M server unit := updClient c (set_cmd None []).

(** What a refusal does to the transaction of the client. *)
Inductive refusal := KeepTransaction | FlagTransaction | DiscardTransaction.

Definition refuse (c : clientId) (e : refusal) : M server unit :=
  match e with
  | KeepTransaction => mret tt
  | FlagTransaction => flagTransaction c
  | DiscardTransaction => discardTransaction c
  end.

(** The commands a client can run while a script is timed out. *)
Definition allowedInSlowScript (p : proc) (a : list bytes) : bool :=
  match p with
  | multiCommandProc | execCommandProc | discardCommandProc => true
  | otherProc name =>
      let arg1 c := (Z.of_nat (length a) =? 2) && bool_decide (tolower (at_ (default [] (a !! 1%nat)) 0) = c) in
      String.eqb name "auth" || String.eqb name "hello" || String.eqb name "replconf" ||
      String.eqb name "shutdown" && arg1 "n"%char || String.eqb name "script" && arg1 "k"%char
  | _ => false
  end.

(** The tests of [processCommand] between the command lookup and the execution:
    the reply of the first one that refuses the command, and what it does to the
    transaction. *)
Definition admission (s : server) (cl : client) (p : proc) : option (reply * refusal) :=
  let f := cmdFlagsOf p in
  let g := srv_guards s in
  let replica := masterhost (srv_env s) in
  if negb (default_user_nopass g) && negb (c_authenticated cl) && negb (CMD_NO_AUTH f) then
    Some (RError "NOAUTH Authentication required.", FlagTransaction)
  else match acl_refuses g cl p with Some r => Some (r, FlagTransaction) | None =>
  match cluster_redirect g cl p with
  | Some r =>
      Some (r, if bool_decide (p = execCommandProc) then DiscardTransaction else FlagTransaction)
  | None =>
  if out_of_memory g &&
     (CMD_DENYOOM f || c_multi cl && negb (bool_decide (p = execCommandProc)) &&
                       negb (bool_decide (p = discardCommandProc))) then
    Some (RError "OOM command not allowed when used memory > 'maxmemory'.", FlagTransaction)
  else if deny_write g && negb replica &&
          (CMD_WRITE f || bool_decide (p = otherProc "ping")) then
    Some (RError "MISCONF", FlagTransaction)
  else if negb replica && few_good_slaves g && CMD_WRITE f then
    Some (RError "NOREPLICAS Not enough good replicas to write.", FlagTransaction)
  else if replica && repl_slave_ro g && CMD_WRITE f then
    Some (RError "READONLY You can't write against a read only replica.", FlagTransaction)
  else if replica && stale_link g && negb (CMD_STALE f) then
    Some (RError "MASTERDOWN Link with MASTER is down and replica-serve-stale-data is set to 'no'.", FlagTransaction)
  else if loading (srv_env s) && negb (CMD_LOADING f) then
    Some (RError "LOADING Redis is loading the dataset in memory", KeepTransaction)
  else if lua_timedout g && negb (allowedInSlowScript p (c_argv cl)) then
    Some (RError "BUSY Redis is busy running a script. You can only call SCRIPT KILL or SHUTDOWN NOSAVE.", FlagTransaction)
  else None
  end end.

(** [true] is [C_OK].  The reply to an unknown command also echoes its name and
    its arguments. *)
Definition processCommand (c : clientId) : M server bool :=
  cl ← getClient c;
  name ← argv cl 0;
  if strcaseeq name (B "quit") then
    addReply c ROk ;; updClient c (set_close true) ;; mret false
  else
  updClient c (set_cmd (lookupCommand name) (c_argv cl)) ;;
  match lookupCommand name with
  | None => flagTransaction c ;; addReply c (RError "unknown command") ;; mret true
  | Some p =>
      if negb (arityOk p (Z.of_nat (length (c_argv cl)))) then
        flagTransaction c ;;
        addReply c (RError ("wrong number of arguments for '" +:+ cmdName p +:+ "' command")) ;; mret true
      else
      s ← get;
      match admission s cl p with
      | Some (r, e) => refuse c e ;; addReply c r ;; mret true
      | None =>
          if c_multi cl && negb (bool_decide (p = execCommandProc)) &&
             negb (bool_decide (p = discardCommandProc)) &&
             negb (bool_decide (p = multiCommandProc)) &&
             negb (bool_decide (p = otherProc "watch")) then
            queueMultiCommand c ;; addReply c RQueued ;; mret true
          else
            checkNeedToBackendState c ;;
            cl ← getClient c;
            (if bool_decide (backend_state cl = CLIENT_BACKEND_NORMAL) then call c else mret tt) ;;
            mret true
      end
  end.

Definition commandProcessed (c : clientId) : M server unit := resetClient c.

Definition processCommandAndResetClient (c : clientId) : M server unit :=
  ok ← processCommand c;
  cl ← getClient c;
  if (ok : bool) && bool_decide (backend_state cl = CLIENT_BACKEND_NORMAL)
  then commandProcessed c else mret tt.

(** One turn of the loop of [processInputBuffer]; [false] when the loop ends.
    Parsing a request moves it from the query buffer to [argv]. *)
Definition processInputStep (c : clientId) : M server bool :=
  cl ← getClient c;
  match c_querybuf cl with
  | [] => mret false
  | a :: q =>
      if negb (bool_decide (backend_state cl = CLIENT_BACKEND_NORMAL)) then mret false
      else if c_close cl then mret false
      else
        updClient c (λ cl, set_querybuf q (set_cmd (c_cmd cl) a cl)) ;;
        (if bool_decide (a = []) then resetClient c else processCommandAndResetClient c) ;;
        mret true
  end.

(** The whole loop: it runs at most once for every request of the buffer. *)
Fixpoint processInputLoop (fuel : nat) (c : clientId) : M server unit :=
  match fuel with
  | O => mret tt
  | S fuel =>
      more ← processInputStep c;
      if more : bool then processInputLoop fuel c else mret tt
  end.

Definition processInputBuffer (c : clientId) : M server unit :=
  cl ← getClient c;
  processInputLoop (S (length (c_querybuf cl))) c.

(** ** Completing a job *)

(** [_resumeBackendClient] up to the processing of the input buffer. *)
Definition resumeCall (c : clientId) : M server unit :=
  cl ← getClient c;
  serverAssert (negb (bool_decide (backend_state cl = CLIENT_BACKEND_NORMAL))) "_resumeBackendClient" ;;
  updClient c (set_backend_state CLIENT_BACKEND_NORMAL) ;;
  call c ;;
  resetClient c.

Definition _resumeBackendClient (c : clientId) : M server unit :=
  resumeCall c ;;
  processInputBuffer c.

Definition _createStringObject (s : option bytes) : M server robj :=
  match s with
  | None => fail (AssertFailed "_createStringObject")
  | Some s =>
      mret (if Z.of_nat (length s) <=? OBJ_ENCODING_EMBSTR_SIZE_LIMIT
            then createEmbeddedStringObject s else createRawStringObject s)
  end.

(** Storing the value of a finished GET or SET job in its database. *)
Definition storeFinished (dbid : nat) (key val : bytes) (ttl : Z) : M server unit :=
  _createStringObject (Some key) ;;
  valObj ← _createStringObject (Some val);
  g ← gets srv_env;
  withDb dbid (genericSetKey g key valObj true) ;;
  incrDirty ;;
  (if 0 <? ttl then withDb dbid (setExpire key (i64 (mstime g + ttl))) else mret tt).

(** The first part of [_clearFinishKey]: store the value, take the waiting
    clients and drop the pending entry. *)
Definition clearFinishBegin (m : mode) (dbid : nat) (key : bytes) (val : option bytes)
    (setOrDelResult setTtl : Z) : M server (list clientId) :=
  cf ← gets cfg;
  match m with
  | GET_MODE =>
      match val with
      | Some v => storeFinished dbid key v (redisoo_get_ttl cf)
      | None => mret tt
      end
  | SET_MODE =>
      if negb (setOrDelResult =? 0) then
        match val with
        | Some v => storeFinished dbid key v setTtl
        | None => fail (AssertFailed "_clearFinishKey: val")
        end
      else mret tt
  | DEL_MODE => mret tt
  end ;;
  db ← withDb dbid get;
  match pendingClients m db key with
  | None => fail (AssertFailed "_clearFinishKey: clients")
  | Some copyClients =>
      withDb dbid (modify (λ db,
        match m with
        | GET_MODE => with_get_keys (delete key (backendGetKeys db)) db
        | SET_MODE => with_set_keys (delete key (backendSetKeys db)) db
        | DEL_MODE => with_del_keys (delete key (backendDelKeys db)) db
        end)) ;;
      mret copyClients
  end.

(** What the loop over [copyClients] does before it resumes a client. *)
Definition markFailure (m : mode) (setOrDelResult : Z) (c : clientId) : M server unit :=
  match m with
  | SET_MODE =>
      if setOrDelResult =? 0 then updClient c (set_set_sync_reply true) else mret tt
  | DEL_MODE =>
      if setOrDelResult =? 0 then updClient c (set_del_sync_reply true) else mret tt
  | GET_MODE => mret tt
  end.

(** The last part: make room for a new job and create it. *)
Definition clearFinishEnd (m : mode) : M server unit :=
  match m with
  | GET_MODE =>
      j ← gets getJob;
      serverAssert (negb (isNull (returnGetKey j)) && bool_decide (getKey j = returnGetKey j)) "_clearFinishKey" ;;
      modify (set_getJob zeroGetJob)
  | SET_MODE =>
      j ← gets setJob;
      serverAssert (negb (isNull (returnSetKey j)) && bool_decide (setKey j = returnSetKey j)) "_clearFinishKey" ;;
      modify (set_setJob zeroSetJob)
  | DEL_MODE =>
      j ← gets delJob;
      serverAssert (negb (isNull (returnDelKey j)) && bool_decide (delKey j = returnDelKey j)) "_clearFinishKey" ;;
      modify (set_delJob zeroDelJob)
  end ;;
  _createNewJobIfHasMoreCandidates m false.

Definition _clearFinishKey (m : mode) (dbid : nat) (key : bytes) (val : option bytes)
    (setOrDelResult setTtl : Z) : M server unit :=
  copyClients ← clearFinishBegin m dbid key val setOrDelResult setTtl;
  forM_ copyClients (λ c, markFailure m setOrDelResult c ;; _resumeBackendClient c) ;;
  clearFinishEnd m.

(** ** The pipe handlers of the main thread, up to the final read of the pipe *)

(** The finished job: database, key, value, result and TTL. *)
Record finished := mkFinished {
  finishDbid : nat; finishKey : bytes; finishVal : option bytes;
  finishResult : Z; finishTtl : Z }.

Definition getFinished : M server finished :=
  j ← gets getJob;
  serverAssert (negb (getDbid j =? -1)) "_getPipeMainThreadHandler" ;;
  serverAssert (negb (isNull (getKey j))) "_getPipeMainThreadHandler" ;;
  serverAssert (negb (isNull (returnGetKey j))) "_getPipeMainThreadHandler" ;;
  serverAssert (bool_decide (getKey j = returnGetKey j)) "_getPipeMainThreadHandler" ;;
  k ← deref (returnGetKey j) "_getPipeMainThreadHandler";
  mret (mkFinished (Z.to_nat (getDbid j)) (p_str k) (valFromBackend j) 0 0).

Definition setFinished : M server finished :=
  j ← gets setJob;
  serverAssert (negb (setDbid j =? -1)) "_setPipeMainThreadHandler" ;;
  serverAssert (negb (isNull (setKey j))) "_setPipeMainThreadHandler" ;;
  serverAssert (negb (isNull (returnSetKey j))) "_setPipeMainThreadHandler" ;;
  serverAssert (bool_decide (setKey j = returnSetKey j)) "_setPipeMainThreadHandler" ;;
  k ← deref (returnSetKey j) "_setPipeMainThreadHandler";
  mret (mkFinished (Z.to_nat (setDbid j)) (p_str k) (valToBackend j) (setSyncResult j) (setTtl j)).

Definition delFinished : M server finished :=
  j ← gets delJob;
  serverAssert (negb (delDbid j =? -1)) "_delPipeMainThreadHandler" ;;
  serverAssert (negb (isNull (delKey j))) "_delPipeMainThreadHandler" ;;
  serverAssert (negb (isNull (returnDelKey j))) "_delPipeMainThreadHandler" ;;
  serverAssert (bool_decide (delKey j = returnDelKey j)) "_delPipeMainThreadHandler" ;;
  k ← deref (returnDelKey j) "_delPipeMainThreadHandler";
  mret (mkFinished (Z.to_nat (delDbid j)) (p_str k) None (delSyncResult j) 0).

Definition jobFinished (m : mode) : M server finished :=
  match m with GET_MODE => getFinished | SET_MODE => setFinished | DEL_MODE => delFinished end.

Definition clearFinished (m : mode) (f : finished) : M server unit :=
  _clearFinishKey m (finishDbid f) (finishKey f) (finishVal f) (finishResult f) (finishTtl f).

Definition _getPipeMainThreadHandler : M server unit := f ← getFinished; clearFinished GET_MODE f.
Definition _setPipeMainThreadHandler : M server unit := f ← setFinished; clearFinished SET_MODE f.
Definition _delPipeMainThreadHandler : M server unit := f ← delFinished; clearFinished DEL_MODE f.

(** ** Freeing a client *)

Definition dropClient (c : clientId) (l : list clientId) : list clientId :=
  filter (λ c', c' ≠ c) l.

Definition releaseWhenFreeClient (c : clientId) : M server unit :=
  modify (λ s, set_dbs ((λ db, mkDb (dict db) (expires db)
    (dropClient c <$> backendGetKeys db)
    ((λ i, mkSetInfo (setValue i) (infoTtl i) (dropClient c (infoClients i))) <$> backendSetKeys db)
    (dropClient c <$> backendDelKeys db)) <$> dbs s) s).

Definition freeClient (c : clientId) : M server unit :=
  releaseWhenFreeClient c ;;
  modify (λ s, set_clients (delete c (clients s)) s).

(** CLIENT KILL, and the other commands of [c] that free clients at once: [victims]
    are the clients that match.  The client itself is closed after its reply. *)
Definition clientKill (c : clientId) (victims : list clientId) : M server unit :=
  forM_ victims (λ v, if bool_decide (v = c) then updClient c (set_close true) else freeClient v).

End Backend.
