(* ===== verification/BackendWorker.v ===== *)
(** * BackendWorker: the working threads and the database access

    The functions of src/src/redisoo.cc that talk to the database, the settings of
    the database in src/src/config.c, and the body of the working threads
    of src/src/backend.c.  The connection and the statements are heap strings that CONFIG
    SET frees: a call that uses one after that is a fault.

    SOCI, gRPC and the databases behind them are parameters ([Database]): a
    state, and what opening a session and executing a statement give.  Nothing
    is assumed about them. *)

From Stdlib Require Import Ascii String.
From stdpp Require Import base tactics option list strings numbers gmap fin_maps.
From S2P Require Import Prelude Util Object Db Server TString Backend.

Local Open Scope Z_scope.

(** ** The database type *)

Definition Mysql : Z := 1.
Definition PostegreSql : Z := 2.
Definition Oracle : Z := 3.
Definition Odbc : Z := 4.
Definition Db2 : Z := 5.
Definition SqlLite : Z := 6.
Definition Firebird : Z := 7.
Definition Empty : Z := 8.

(** [parseDbType]: at most 15 characters of the option are compared. *)
Definition parseDbType (val : bytes) : Z :=
  let db_type := tolower <$> take 15 (cstr val) in
  if bool_decide (db_type = B "grpc") then GRPC
  else if bool_decide (db_type = B "mysql") then Mysql
  else if bool_decide (db_type = B "postegresql") || bool_decide (db_type = B "postegre") then PostegreSql
  else if bool_decide (db_type = B "odbc") then Odbc
  else if bool_decide (db_type = B "oracle") then Oracle
  else if bool_decide (db_type = B "db2") then Db2
  else if bool_decide (db_type = B "sqllite") then SqlLite
  else if bool_decide (db_type = B "firebird") then Firebird
  else if bool_decide (db_type = []) then Empty
  else 0.

Definition isValidRedisooDb (val : bytes) : bool := negb (parseDbType val =? 0).

(** [CONFIG SET redisoo_db]: [false] when the value is refused. *)
Definition updateDbType (val : bytes) : M config bool :=
  if negb (isValidRedisooDb val) then mret false else
  serverAssert (negb (parseDbType val =? 0)) "updateDbType" ;;
  modify (λ c, mkConfig (parseDbType val) (redisoo_connection c) (redisoo_get c) (redisoo_set c)
    (redisoo_del c) (redisoo_get_sync c) (redisoo_set_sync c) (redisoo_del_sync c)
    (redisoo_get_ttl c)) ;;
  mret true.

(** [CONFIG SET] of the options of type string. *)
Inductive stringOption := OptConnection | OptGet | OptSet | OptDel.

Definition set_string (o : stringOption) (p : sdsptr) (c : config) : config :=
  mkConfig (redisoo_db_type c)
    (match o with OptConnection => p | _ => redisoo_connection c end)
    (match o with OptGet => Some p | _ => redisoo_get c end)
    (match o with OptSet => Some p | _ => redisoo_set c end)
    (match o with OptDel => Some p | _ => redisoo_del c end)
    (redisoo_get_sync c) (redisoo_set_sync c) (redisoo_del_sync c) (redisoo_get_ttl c).

(** [stringConfigSet]: a copy of the C string replaces the old string, which is
    freed: no address of it is in the configuration any more. *)
Definition stringConfigSet (o : stringOption) (value : bytes) : M server unit :=
  p ← sdsdup (cstr value);
  modify (λ s, set_cfg (set_string o p (cfg s)) s).

(** ** The database *)

(** What executing a query with one output variable gives. *)
Inductive fetch :=
  | Throws                     (* a std::exception *)
  | NoRow                      (* got_data() is false *)
  | RowOk (v : bytes)          (* indicator i_ok *)
  | RowNull                    (* indicator i_null *)
  | RowOther.                  (* indicator i_truncated *)

Class Database := {
  dbState : Type;
  soci_open : string → bytes → dbState → bool;   (* false: an exception *)
  soci_query : string → bytes → bytes → bytes → dbState → fetch * dbState;
  soci_update : string → bytes → bytes → bytes → bytes → dbState → bool * dbState;
  soci_delete : string → bytes → bytes → bytes → dbState → bool * dbState;
  grpc_GetString : bytes → bytes → dbState → option (bytes * Z) * dbState }.

Section Redisoo.
Context `{Database}.

(** The SOCI backend a database type opens; [None] for an unsupported type. *)
Definition sociBackend (db_type : Z) : option string :=
  if db_type =? Mysql then Some "mysql"%string
  else if db_type =? PostegreSql then Some "postegresql"%string
  else if db_type =? SqlLite then Some "sqllit3"%string
  else if db_type =? Oracle then Some "oracle"%string
  else None.

(** The name of the opened SOCI backend, [None] when [_open_connection] fails. *)
Definition _open_connection (db_type : Z) (connection : bytes) (σ : dbState) : option string :=
  name ← sociBackend db_type;
  if soci_open name (cstr connection) σ then Some name else None.

(** A NULL statement makes the [std::string] constructor throw. *)
Definition db_del (db_type : Z) (connection : bytes) (statement : option bytes) (key : bytes)
    (σ : dbState) : Z * dbState :=
  match _open_connection db_type connection σ, statement with
  | Some name, Some st =>
      let '(ok, σ) := soci_delete name (cstr connection) (cstr st) key σ in (if ok then 1 else 0, σ)
  | _, _ => (0, σ)
  end.

Definition db_set (db_type : Z) (connection : bytes) (statement : option bytes) (key val : bytes)
    (σ : dbState) : Z * dbState :=
  match _open_connection db_type connection σ, statement with
  | Some name, Some st =>
      let '(ok, σ) := soci_update name (cstr connection) (cstr st) key val σ in
      (if ok then 1 else 0, σ)
  | _, _ => (0, σ)
  end.

(** The return code and the value pointer ([None] is NULL, or not written). *)
Definition db_get (db_type : Z) (connection : bytes) (statement : option bytes) (key : bytes)
    (σ : dbState) : Z * option bytes * dbState :=
  match _open_connection db_type connection σ, statement with
  | Some name, Some st =>
      let '(r, σ) := soci_query name (cstr connection) (cstr st) key σ in
      match r with
      | NoRow => (0, None, σ)
      | RowOk v => (1, Some v, σ)
      | RowNull => (1, None, σ)
      | RowOther | Throws => (0, None, σ)
      end
  | _, _ => (0, None, σ)
  end.

(** [RedisooGrpcClient::GetString]: code, value and TTL. *)
Definition GetString (connection key : bytes) (σ : dbState) : bool * option bytes * Z * dbState :=
  match grpc_GetString connection key σ with
  | (None, σ) => (false, None, 0, σ)
  | (Some (v, ttl_ms), σ) => (true, Some v, if 0 <? ttl_ms then ttl_ms else 0, σ)
  end.

Definition grpc_get (connection key : bytes) (σ : dbState) : Z * option bytes * Z * dbState :=
  let '(ok, v, ttl, σ) := GetString (cstr connection) key σ in
  (if ok then 1 else 0, v, ttl, σ).

(** ** The jobs in the working threads *)

(** The arguments of a call that come from the configuration.  A working thread
    loads them without a lock, and the strings are read in the course of the call. *)
Record dbArgs := mkArgs { a_type : Z; a_connection : sdsptr; a_statement : option sdsptr }.

Definition statementOf (m : mode) (cf : config) : option sdsptr :=
  match m with GET_MODE => redisoo_get cf | SET_MODE => redisoo_set cf | DEL_MODE => redisoo_del cf end.

Definition loadArgs (m : mode) (cf : config) : dbArgs :=
  mkArgs (redisoo_db_type cf) (redisoo_connection cf) (statementOf m cf).

(** The strings the call reads have not been freed since they were loaded: they are
    still those of the configuration.  A gRPC call reads the connection only; the
    other calls read the connection of a supported database, and the statement once
    the connection is open. *)
Definition argsLive (m : mode) (a : dbArgs) (cf : config) (σ : dbState) : bool :=
  let connection := bool_decide (a_connection a = redisoo_connection cf) in
  let statement := bool_decide (a_statement a = statementOf m cf) in
  if bool_decide (m = GET_MODE) && (a_type a =? GRPC) then connection else
  match sociBackend (a_type a) with
  | None => true
  | Some name =>
      connection && (negb (soci_open name (cstr (p_str (a_connection a))) σ) || statement)
  end.

(** The value to return: [None] is NULL.  [cf] is the configuration when the strings
    are read. *)
Definition _implementGetJobByBackendInWorkingThread (a : dbArgs) (cf : config) (key : bytes)
    (σ : dbState) : res (option bytes * dbState) :=
  if negb (argsLive GET_MODE a cf σ) then Fault (UseAfterFree "redisoo_get") else
  let '(ret, val, σ) :=
    if a_type a =? GRPC then
      let '(ret, val, _, σ) := grpc_get (p_str (a_connection a)) key σ in (ret, val, σ)
    else db_get (a_type a) (p_str (a_connection a)) (p_str <$> a_statement a) key σ in
  if ret =? 0 then Ok (None, σ) else
  match val with
  | None => Ok (None, σ)
  | Some v =>
      if bool_decide (length v ≠ 0%nat) then Ok (Some v, σ)
      else Fault (AssertFailed "_implementGetJobByBackendInWorkingThread")
  end.

Definition _implementSetJobByBackendInWorkingThread (a : dbArgs) (cf : config) (key val : bytes)
    (σ : dbState) : res (Z * dbState) :=
  if negb (argsLive SET_MODE a cf σ) then Fault (UseAfterFree "redisoo_set") else
  Ok (db_set (a_type a) (p_str (a_connection a)) (p_str <$> a_statement a) key val σ).

Definition _implementDelJobByBackendInWorkingThread (a : dbArgs) (cf : config) (key : bytes)
    (σ : dbState) : res (Z * dbState) :=
  if negb (argsLive DEL_MODE a cf σ) then Fault (UseAfterFree "redisoo_del") else
  Ok (db_del (a_type a) (p_str (a_connection a)) (p_str <$> a_statement a) key σ).

End Redisoo.

(** ** The locked sections of a working thread *)

Definition _getJobInWorkingThread (m : mode) : M server (option (Z * sdsptr)) :=
  s ← get;
  match jobReturnKey m s, jobKey m s with
  | None, Some key =>
      serverAssert (isNull (jobReturnKey m s)) "_getJobInWorkingThread" ;;
      mret (Some (jobDbid m s, key))
  | _, _ => mret None
  end.

(** A SET job also takes the value. *)
Definition takeValToBackend : M server bytes :=
  j ← gets setJob;
  match valToBackend j with
  | Some v => mret v
  | None => fail (AssertFailed "_haveJobThenDoJobInWorkingThread: valToBackend")
  end.

(** The result of a backend call. *)
Inductive outcome :=
  | GotValue (val : option bytes)
  | Code (ret : Z).

Definition returnJob (m : mode) (key : sdsptr) (r : outcome) : M server unit :=
  s ← get;
  serverAssert (bool_decide (jobKey m s = Some key) && isNull (jobReturnKey m s))
    "_haveJobThenDoJobInWorkingThread" ;;
  match m, r with
  | GET_MODE, GotValue v =>
      modify (λ s, set_getJob (mkGetJob (getDbid (getJob s)) (getKey (getJob s)) (Some key) v) s)
  | SET_MODE, Code ret =>
      modify (λ s, set_setJob (mkSetJob (setDbid (setJob s)) (setKey (setJob s)) (Some key)
                                 (valToBackend (setJob s)) ret (setTtl (setJob s))) s)
  | DEL_MODE, Code ret =>
      modify (λ s, set_delJob (mkDelJob (delDbid (delJob s)) (delKey (delJob s)) (Some key) ret) s)
  | _, _ => fail (BadPointer "result")
  end.

(** ** A working thread, as a sequence of steps

    [_haveJobThenDoJobInWorkingThread]: each step is one locked section, the
    backend call or the write to the pipe.  The configuration is loaded in the step
    before the call, and its strings are read in the call: CONFIG SET can come
    in between. *)

Inductive wstate :=
  | Polling                                  (* no job taken *)
  | Taken (dbid : Z) (key : sdsptr)          (* the job is taken *)
  | Calling (key : sdsptr) (val : option bytes) (a : dbArgs)
                                             (* the value of a SET and the arguments are loaded *)
  | Answered (key : sdsptr) (r : outcome)    (* the backend has answered *)
  | Signalling.                              (* the result is returned, the pipe not written *)

Section Worker.
Context `{Database}.

Definition liftRes {A} (r : res A) : M server A := λ s,
  match r with Ok a => Ok (a, s) | Fault f => Fault f end.

(** The backend call. *)
Definition backendCall (m : mode) (key : sdsptr) (val : option bytes) (a : dbArgs) (cf : config)
    (σ : dbState) : res (outcome * dbState) :=
  match m with
  | GET_MODE =>
      match _implementGetJobByBackendInWorkingThread a cf (p_str key) σ with
      | Ok (v, σ) => Ok (GotValue v, σ) | Fault f => Fault f
      end
  | SET_MODE =>
      match val with
      | None => Fault (BadPointer "valToBackend")
      | Some v =>
          match _implementSetJobByBackendInWorkingThread a cf (p_str key) v σ with
          | Ok (ret, σ) => Ok (Code ret, σ) | Fault f => Fault f
          end
      end
  | DEL_MODE =>
      match _implementDelJobByBackendInWorkingThread a cf (p_str key) σ with
      | Ok (ret, σ) => Ok (Code ret, σ) | Fault f => Fault f
      end
  end.

(** One step: the new thread state and whether it writes to the pipe. *)
Definition workerStep (m : mode) (w : wstate) (σ : dbState) : M server (wstate * bool * dbState) :=
  s ← get;
  match w with
  | Polling =>
      job ← _getJobInWorkingThread m;
      match job with
      | None => mret (Polling, false, σ)
      | Some (dbid, key) =>
          serverAssert ((0 <=? dbid) && (dbid <? Z.of_nat (length (dbs s))))
            "_haveJobThenDoJobInWorkingThread: dbid" ;;
          mret (Taken dbid key, false, σ)
      end
  | Taken dbid key =>
      val ← (if bool_decide (m = SET_MODE) then v ← takeValToBackend; mret (Some v) else mret None);
      mret (Calling key val (loadArgs m (cfg s)), false, σ)
  | Calling key val a =>
      r ← liftRes (backendCall m key val a (cfg s) σ);
      mret (Answered key (fst r), false, snd r)
  | Answered key r => returnJob m key r ;; mret (Signalling, false, σ)
  | Signalling => mret (Polling, true, σ)
  end.

End Worker.
