(* ===== verification/BackendInv.v ===== *)
(** * BackendInv: the invariant of the cache-through code

    What holds between two steps of the main thread: every pending key has the
    clients that are parked on it, and only them; a job slot is empty only when
    there is no pending key of its mode; a job is about a pending key, except
    while its completion is being handled.  Each main-thread operation keeps the
    invariant, and can fault only at the sites of [knownFault]. *)

From Stdlib Require Import Ascii String ZifyBool.
From stdpp Require Import base tactics option list strings numbers gmap fin_maps.
From S2P Require Import Prelude Util Object Db Server TString Backend BackendWorker.

Local Open Scope Z_scope.

(** Three sites where a reachable state can fault, and the faults of the other
    commands.  The two others, a freed client and a freed string of the
    configuration, are in BackendSystem.v.  BackendRuns.v shows that each of the five
    is reached by a short execution. *)
Definition knownFault `{OtherCommands} (f : fault) : Prop :=
  f = AssertFailed "_addKeyToBackendKeys" ∨
  f = BadPointer "_isSameValueInDbForSet" ∨
  f = AssertFailed "_implementGetJobByBackendInWorkingThread" ∨
  other_fault f.

(** ** Pending keys *)

Definition addPending (m : mode) (k : bytes) (v : bytes) (ttl : Z) (waiter : list clientId)
    (db : redisDb) : redisDb :=
  match m with
  | GET_MODE => with_get_keys
      (<[k := default [] (backendGetKeys db !! k) ++ waiter]> (backendGetKeys db)) db
  | SET_MODE => with_set_keys
      (<[k := mkSetInfo (default v (setValue <$> backendSetKeys db !! k)) ttl
                (default [] (infoClients <$> backendSetKeys db !! k) ++ waiter)]>
         (backendSetKeys db)) db
  | DEL_MODE => with_del_keys
      (<[k := default [] (backendDelKeys db !! k) ++ waiter]> (backendDelKeys db)) db
  end.

Definition delPending (m : mode) (k : bytes) (db : redisDb) : redisDb :=
  match m with
  | GET_MODE => with_get_keys (delete k (backendGetKeys db)) db
  | SET_MODE => with_set_keys (delete k (backendSetKeys db)) db
  | DEL_MODE => with_del_keys (delete k (backendDelKeys db)) db
  end.

Definition pendingValue (db : redisDb) (k : bytes) : option bytes := setValue <$> backendSetKeys db !! k.

Lemma pendingClients_add m m' k k' v ttl w db :
  pendingClients m' (addPending m k v ttl w db) k' =
  if decide (m' = m ∧ k' = k) then Some (default [] (pendingClients m db k) ++ w)
  else pendingClients m' db k'.
Proof.
  destruct m, m'; cbn; case_decide as Hd; try (by destruct Hd); try done;
    destruct (decide (k' = k)) as [->|Hk];
    rewrite ?lookup_insert_eq, ?(lookup_insert_ne _ k k') by done;
    try done; naive_solver.
Qed.

Lemma pendingClients_del m m' k k' db :
  pendingClients m' (delPending m k db) k' =
  if decide (m' = m ∧ k' = k) then None else pendingClients m' db k'.
Proof.
  destruct m, m'; cbn; case_decide as Hd; try (by destruct Hd); try done;
    destruct (decide (k' = k)) as [->|Hk];
    rewrite ?lookup_delete_eq, ?(lookup_delete_ne _ k k') by done;
    try done; naive_solver.
Qed.

Lemma pendingValue_add m k k' v ttl w db u :
  pendingValue db k' = Some u → pendingValue (addPending m k v ttl w db) k' = Some u.
Proof.
  unfold pendingValue. destruct m; cbn; [done| |done]. destruct (decide (k' = k)) as [->|Hk].
  - rewrite lookup_insert_eq. by intros ->.
  - by rewrite lookup_insert_ne.
Qed.

Lemma pendingValue_del m k k' db :
  k' ≠ k → pendingValue (delPending m k db) k' = pendingValue db k'.
Proof. unfold pendingValue. intros. destruct m; cbn; by rewrite ?lookup_delete_ne. Qed.

Lemma pendingValue_del_other m k k' db :
  m ≠ SET_MODE → pendingValue (delPending m k db) k' = pendingValue db k'.
Proof. by destruct m. Qed.

Lemma pendingClients_same db db' m k :
  same_backend db db' → pendingClients m db' k = pendingClients m db k.
Proof. intros (?&?&?). destruct m; cbn; congruence. Qed.

Lemma pendingValue_same db db' k : same_backend db db' → pendingValue db' k = pendingValue db k.
Proof. intros (?&?&?). unfold pendingValue. congruence. Qed.

(** ** Parked clients *)

Definition stateOf (m : mode) : backendState :=
  match m with
  | GET_MODE => CLIENT_BACKEND_GET | SET_MODE => CLIENT_BACKEND_SET | DEL_MODE => CLIENT_BACKEND_DEL
  end.

Definition procMode (p : proc) : option mode :=
  match p with
  | getCommandProc => Some GET_MODE
  | setCommandProc | setnxCommandProc | setexCommandProc | psetexCommandProc => Some SET_MODE
  | delCommandProc => Some DEL_MODE
  | _ => None
  end.

(** A job being handled: its mode, its result and the clients still to resume. *)
Abbreviation handling := (option (mode * finished * list clientId)).

Definition restOf (h : handling) : list clientId :=
  match h with Some (_, _, rest) => rest | None => [] end.

Definition handled (h : handling) (m : mode) : option finished :=
  match h with Some (m', f, _) => if decide (m' = m) then Some f else None | None => None end.

Section Inv.
Context `{OtherCommands}.

Record parkedOn (m : mode) (i : nat) (k : bytes) (cl : client) : Prop := {
  pk_state : backend_state cl = stateOf m;
  pk_db : c_db cl = i;
  pk_key : c_argv cl !! 1%nat = Some k;
  pk_multi : c_multi cl = false;
  pk_proc : ∃ p, procMode p = Some m ∧ runnable p cl }.

Definition parkedAt (s : server) (m : mode) (i : nat) (k : bytes) (c : clientId) : Prop :=
  ∃ cl, clients s !! c = Some cl ∧ parkedOn m i k cl.

Definition noCandidates (m : mode) (s : server) : Prop :=
  ∀ i db k, dbs s !! i = Some db → pendingClients m db k = None.

(** The values an empty slot holds, and those of a job that is not yet answered. *)
Definition slotValue (m : mode) (s : server) (k : option sdsptr) : Prop :=
  match m with
  | GET_MODE => valFromBackend (getJob s) = None
  | SET_MODE => isNull (valToBackend (setJob s)) = isNull k
  | DEL_MODE => True
  end.

Record outstanding (h : handling) (m : mode) (s : server) (p : sdsptr) : Prop := {
  ou_db : ∃ i db, jobDbid m s = Z.of_nat i ∧ dbs s !! i = Some db ∧
    (handled h m = None → is_Some (pendingClients m db (p_str p)) ∧
       (m = SET_MODE → valToBackend (setJob s) = pendingValue db (p_str p)));
  ou_return : jobReturnKey m s = None ∨ jobReturnKey m s = Some p;
  ou_value : jobReturnKey m s = None → slotValue m s (Some p);
  ou_setval : m = SET_MODE → is_Some (valToBackend (setJob s));
  ou_handled : ∀ f, handled h m = Some f →
    jobReturnKey m s = Some p ∧ jobDbid m s = Z.of_nat (finishDbid f) ∧ finishKey f = p_str p }.

(** [lazy]: the mode whose slot may be empty although it has pending keys. *)
Definition jobInv (lazy : option mode) (h : handling) (m : mode) (s : server) : Prop :=
  match jobKey m s with
  | None => jobReturnKey m s = None ∧ jobDbid m s = -1 ∧ slotValue m s None ∧
            handled h m = None ∧ (lazy ≠ Some m → noCandidates m s)
  | Some p => outstanding h m s p
  end.

(** What a working thread knows, and whether its job is returned.  The main
    thread never changes it before the end of a completion. *)
Record workerView := mkView { wv_state : mode → wstate; wv_returned : mode → bool }.

Definition outcomeOf (m : mode) (r : outcome) : Prop :=
  match m, r with
  | GET_MODE, GotValue _ | SET_MODE, Code _ | DEL_MODE, Code _ => True
  | _, _ => False
  end.

Definition workerOk (W : workerView) (m : mode) (s : server) : Prop :=
  isNull (jobReturnKey m s) = negb (wv_returned W m) ∧
  match wv_state W m with
  | Polling => True
  | Taken dbid k => wv_returned W m = false ∧ jobKey m s = Some k ∧ jobDbid m s = dbid
  | Calling k v _ => wv_returned W m = false ∧ jobKey m s = Some k ∧
                     if decide (m = SET_MODE) then is_Some v ∧ valToBackend (setJob s) = v else v = None
  | Answered k r => wv_returned W m = false ∧ jobKey m s = Some k ∧ outcomeOf m r
  | Signalling => wv_returned W m = true
  end.

Record SrvInv (W : workerView) (lazy : option mode) (h : handling) (s : server) : Prop := {
  si_wf : srv_wf s;
  si_nodup : ∀ i db m k l, dbs s !! i = Some db → pendingClients m db k = Some l → NoDup l;
  si_pend : ∀ i db m k l c, dbs s !! i = Some db → pendingClients m db k = Some l → c ∈ l →
    parkedAt s m i k c ∧ c ∉ restOf h;
  si_rest_nodup : NoDup (restOf h);
  si_rest : ∀ m f rest c cl, h = Some (m, f, rest) → c ∈ rest → clients s !! c = Some cl →
    parkedOn m (finishDbid f) (finishKey f) cl;
  si_wait : ∀ c cl, clients s !! c = Some cl → backend_state cl ≠ CLIENT_BACKEND_NORMAL →
    c ∈ restOf h ∨ ∃ i db m k l, dbs s !! i = Some db ∧ pendingClients m db k = Some l ∧ c ∈ l;
  si_job : ∀ m, jobInv lazy h m s;
  si_worker : ∀ m, workerOk W m s }.

Context {W : workerView}.

(** ** Commands of a client that is not parked keep the invariant *)

Lemma stateOf_normal m : stateOf m ≠ CLIENT_BACKEND_NORMAL.
Proof. by destruct m. Qed.

Lemma parkedOn_normal m i k cl : backend_state cl = CLIENT_BACKEND_NORMAL → ¬ parkedOn m i k cl.
Proof. intros Hn [Hst _ _ _ _]. apply (stateOf_normal m). congruence. Qed.

Lemma frame_db c s s' i db' : frame c s s' → dbs s' !! i = Some db' →
  ∃ db, dbs s !! i = Some db ∧ same_backend db db'.
Proof.
  intros Hf Hi. destruct (Forall2_lookup_r _ _ _ _ _ (fr_dbs _ _ _ Hf) Hi) as (db & ? & ?). eauto.
Qed.

Lemma frame_db' c s s' i db : frame c s s' → dbs s !! i = Some db →
  ∃ db', dbs s' !! i = Some db' ∧ same_backend db db'.
Proof.
  intros Hf Hi. destruct (Forall2_lookup_l _ _ _ _ _ (fr_dbs _ _ _ Hf) Hi) as (db' & ? & ?). eauto.
Qed.

Lemma parkedAt_frame c s s' m i k c' cl :
  frame c s s' → clients s !! c = Some cl → backend_state cl = CLIENT_BACKEND_NORMAL →
  parkedAt s m i k c' → parkedAt s' m i k c'.
Proof.
  intros Hf Hc Hn (cl' & Hc' & Hp). exists cl'. split; [|done].
  rewrite (fr_others _ _ _ Hf); [done|]. intros ->. simplify_eq.
  apply (stateOf_normal m). by rewrite <-(pk_state _ _ _ _ Hp).
Qed.

(** The slots and the pending keys are the same. *)
Definition same_slots (s s' : server) : Prop :=
  getJob s' = getJob s ∧ setJob s' = setJob s ∧ delJob s' = delJob s.

Lemma same_slots_eq m s s' : same_slots s s' →
  jobKey m s' = jobKey m s ∧ jobReturnKey m s' = jobReturnKey m s ∧ jobDbid m s' = jobDbid m s ∧
  ∀ q, slotValue m s q → slotValue m s' q.
Proof.
  intros (Hg & Hs & Hd). unfold jobKey, jobReturnKey, jobDbid, slotValue.
  destruct m; rewrite ?Hg, ?Hs, ?Hd; auto.
Qed.

Lemma jobInv_same lazy h m s s' :
  same_slots s s' → Forall2 same_backend (dbs s) (dbs s') → jobInv lazy h m s → jobInv lazy h m s'.
Proof.
  intros Hslots Hdbs. pose proof Hslots as (_ & Hs & _). unfold jobInv.
  destruct (same_slots_eq m s s' Hslots) as (-> & Hr & Hi & Hv).
  destruct (jobKey m s) as [p|].
  - intros [(i & db & ? & Hdb & ?) ????].
    destruct (Forall2_lookup_l _ _ _ _ _ Hdbs Hdb) as (db' & ? & Hsame).
    split; rewrite ?Hr, ?Hi, ?Hs; auto. exists i, db'.
    by rewrite (pendingClients_same db db'), (pendingValue_same db db').
  - intros (? & ? & ? & ? & Hn). rewrite Hr, Hi. split_and!; auto.
    intros Hl i db' k Hdb'. destruct (Forall2_lookup_r _ _ _ _ _ Hdbs Hdb') as (db & ? & Hsame).
    rewrite (pendingClients_same db db') by done. by eapply Hn.
Qed.

Lemma workerOk_same m s s' : same_slots s s' → workerOk W m s → workerOk W m s'.
Proof.
  intros Hslots. pose proof Hslots as (_ & Hs & _). unfold workerOk.
  destruct (same_slots_eq m s s' Hslots) as (-> & -> & -> & _). by rewrite Hs.
Qed.

Lemma SrvInv_frame lazy h c s s' cl :
  frame c s s' → clients s !! c = Some cl → backend_state cl = CLIENT_BACKEND_NORMAL →
  SrvInv W lazy h s → SrvInv W lazy h s'.
Proof.
  intros Hf Hc Hn [Hwf Hnd Hp Hrn Hr Hw Hj Hwk].
  assert (same_slots s s') by by destruct Hf.
  split; [by eapply fr_wf| | |done| | | |].
  - intros i db' m k l Hi Hl. destruct (frame_db _ _ _ _ _ Hf Hi) as (db & Hdb & Hsame).
    rewrite (pendingClients_same db db') in Hl by done. by eapply Hnd.
  - intros i db' m k l c' Hi Hl Hin. destruct (frame_db _ _ _ _ _ Hf Hi) as (db & Hdb & Hsame).
    rewrite (pendingClients_same db db') in Hl by done.
    destruct (Hp i db m k l c') as [Hpa ?]; [done..|]. split; [|done]. by eapply parkedAt_frame.
  - intros m f rest c' cl' Hh Hin Hc'. destruct (decide (c' = c)) as [->|Hne].
    + by destruct (parkedOn_normal m (finishDbid f) (finishKey f) cl Hn); eauto.
    + rewrite (fr_others _ _ _ Hf) in Hc' by done. eauto.
  - intros c' cl' Hc' Hst. destruct (decide (c' = c)) as [->|Hne].
    + destruct (fr_client _ _ _ Hf cl Hc) as (cl2 & ? & (_&_&_&Hb)). simplify_eq. congruence.
    + rewrite (fr_others _ _ _ Hf) in Hc' by done.
      destruct (Hw _ _ Hc' Hst) as [?|(i & db & m & k & l & Hi & Hl & ?)]; [by left|right].
      destruct (frame_db' _ _ _ _ _ Hf Hi) as (db' & ? & ?).
      exists i, db', m, k, l. by rewrite (pendingClients_same db db').
  - intros m. eapply jobInv_same; [done| |by apply Hj]. apply Hf.
  - intros m. by eapply workerOk_same.
Qed.

(** ** Job creation *)

Context `{CandidateOrder}.

Lemma firstCandidate_run {V} (keys : redisDb → gmap bytes V) i l s :
  ∃ r, firstCandidate keys i l s = Ok (r, s) ∧
  match r with
  | None => ∀ j db, l !! j = Some db → keys db = ∅
  | Some (n, k) => ∃ j db, n = (i + j)%nat ∧ l !! j = Some db ∧ is_Some (keys db !! k)
  end.
Proof.
  revert i. induction l as [|db l IH]; intros i; cbn [firstCandidate].
  { exists None. by split; [|intros ??; rewrite lookup_nil]. }
  case_bool_decide as Hsz.
  - destruct (dictFirst (keys db)) as [k|] eqn:Hk.
    + exists (Some (i, k)). split; [done|]. exists 0%nat, db. split_and!; [lia|done|].
      by apply dictFirst_elem in Hk.
    + apply dictFirst_none in Hk. by rewrite Hk, map_size_empty in Hsz.
  - apply map_size_empty_inv in Hsz.
    destruct (IH (S i)) as ([[n k]|] & Hrun & Hr); (eexists; split; [exact Hrun|]).
    + destruct Hr as (j & db' & -> & ? & ?). exists (S j), db'. by split; [lia|].
    + intros [|j] db'; cbn; [by intros [= <-]|]. by apply Hr.
Qed.

Lemma hasAvailableCandidate_run m s :
  ∃ r, _hasAvailableCandidate m s = Ok (r, s) ∧
  match r with
  | None => noCandidates m s
  | Some (i, k) => ∃ db, dbs s !! i = Some db ∧ is_Some (pendingClients m db k)
  end.
Proof.
  assert (∀ V (keys : redisDb → gmap bytes V),
    (∀ db k, is_Some (pendingClients m db k) ↔ is_Some (keys db !! k)) →
    ∃ r, firstCandidate keys 0 (dbs s) s = Ok (r, s) ∧
      match r with
      | None => noCandidates m s
      | Some (i, k) => ∃ db, dbs s !! i = Some db ∧ is_Some (pendingClients m db k)
      end) as Hk.
  { intros V keys Heq. destruct (firstCandidate_run keys 0 (dbs s) s) as (r & Hr & Hr').
    exists r. split; [done|]. destruct r as [[i k]|].
    - destruct Hr' as (j & db & -> & ? & ?). exists db. cbn. by rewrite Heq.
    - intros i db k Hi. apply eq_None_not_Some. rewrite Heq, (Hr' i db Hi), lookup_empty.
      by intros []. }
  unfold _hasAvailableCandidate. destruct m; cbv [mbind M_bind gets]; cbn; apply Hk; intros db k; cbn;
    by rewrite ?fmap_is_Some.
Qed.

(** Replacing the slot of one mode. *)
Definition same_but_slot (m : mode) (s s' : server) : Prop :=
  srv_wf s' ∧ dbs s' = dbs s ∧ clients s' = clients s ∧
  (m = GET_MODE ∨ getJob s' = getJob s) ∧ (m = SET_MODE ∨ setJob s' = setJob s) ∧
  (m = DEL_MODE ∨ delJob s' = delJob s).

Lemma same_but_slot_eq m m' s s' : m' ≠ m → same_but_slot m s s' →
  jobKey m' s' = jobKey m' s ∧ jobReturnKey m' s' = jobReturnKey m' s ∧
  jobDbid m' s' = jobDbid m' s ∧ (∀ q, slotValue m' s' q = slotValue m' s q) ∧
  (m' = SET_MODE → setJob s' = setJob s).
Proof.
  intros Hne (_ & _ & _ & Hg & Hs & Hd). unfold slotValue.
  destruct m'; cbn; (split_and!; intros; intuition congruence).
Qed.

Lemma workerOk_slot W' m m' s s' : m' ≠ m → same_but_slot m s s' →
  wv_state W' m' = wv_state W m' → wv_returned W' m' = wv_returned W m' →
  workerOk W m' s → workerOk W' m' s'.
Proof.
  intros Hne Hslot Hws Hwr. unfold workerOk. rewrite Hws, Hwr.
  destruct (same_but_slot_eq m m' s s' Hne Hslot) as (-> & -> & -> & _ & Hset).
  destruct (wv_state W m'); try done. intros (?&?&?&Hv). split_and!; [done..|].
  destruct (decide (m' = SET_MODE)) as [Hm|]; [|done]. by rewrite (Hset Hm).
Qed.

Lemma SrvInv_slot W' lazy lazy' h h' m s s' :
  same_but_slot m s s' → restOf h' = restOf h →
  (∀ m' f rest, h' = Some (m', f, rest) → h = Some (m', f, rest) ∨ rest = []) →
  (∀ m', m' ≠ m → handled h' m' = handled h m') →
  (∀ m', m' ≠ m → wv_state W' m' = wv_state W m' ∧ wv_returned W' m' = wv_returned W m') →
  (lazy = None ∨ lazy = Some m) → jobInv lazy' h' m s' → workerOk W' m s' →
  SrvInv W lazy h s → SrvInv W' lazy' h' s'.
Proof.
  intros Hslot Hrest Hh Hho HW Hlazy Hjob Hwork [_ Hnd Hp Hrn Hr Hw Hj Hwk].
  pose proof Hslot as (Hwf & Hdbs & Hcl & _).
  assert (∀ m i k c, parkedAt s m i k c → parkedAt s' m i k c) as Hpk.
  { intros ????. unfold parkedAt. by rewrite Hcl. }
  split; rewrite ?Hdbs, ?Hcl, ?Hrest; auto.
  - intros i db m' k l c Hi Hl Hin. destruct (Hp i db m' k l c) as [??]; auto.
  - intros m' f rest c cl ? Hin Hc. destruct (Hh m' f rest) as [?| ->]; [done| |by apply not_elem_of_nil in Hin].
    eauto.
  - intros m'. destruct (decide (m' = m)) as [->|Hne]; [done|]. specialize (Hj m'). revert Hj.
    unfold jobInv. destruct (same_but_slot_eq m m' s s' Hne Hslot) as (-> & Hret & Hi & Hv & Hset).
    destruct (jobKey m' s) as [p|].
    + intros [(i & db & ? & ? & Hpd) ????].
      split; rewrite ?Hret, ?Hi, ?Hv, ?Hdbs, ?(Hho m' Hne); auto.
      * exists i, db. split_and!; [done..|]. intros [? Hval]%Hpd. split; [done|]. intros Hm.
        rewrite (Hset Hm). auto.
      * intros Hm. rewrite (Hset Hm). auto.
    + intros (?&?&?&?&Hn). rewrite Hret, Hi, Hv, (Hho m' Hne). split_and!; auto.
      intros _ i db k. rewrite Hdbs. apply Hn. destruct Hlazy; congruence.
  - intros m'. destruct (decide (m' = m)) as [->|Hne]; [done|].
    destruct (HW m' Hne). by eapply workerOk_slot.
Qed.

Lemma srv_wf_eq s s' : dbs s' = dbs s → clients s' = clients s → srv_wf s → srv_wf s'.
Proof. intros Hd Hc []. split; by rewrite ?Hd, ?Hc. Qed.

Lemma SrvInv_unlazy m h s :
  SrvInv W (Some m) h s → is_Some (jobKey m s) ∨ noCandidates m s → SrvInv W None h s.
Proof.
  intros [???? ?? Hj ?] Hm. split; auto. intros m'. specialize (Hj m'). revert Hj. unfold jobInv.
  destruct (jobKey m' s) eqn:Hk; [done|]. intros (?&?&?&?&Hn). split_and!; auto. intros _.
  destruct (decide (m' = m)) as [->|Hne]; [|apply Hn; congruence].
  destruct Hm as [Hm|]; [rewrite Hk in Hm; by destruct Hm|done].
Qed.

Lemma SrvInv_lazy m h s : SrvInv W None h s → SrvInv W (Some m) h s.
Proof.
  intros [???? ?? Hj ?]. split; auto. intros m'. specialize (Hj m'). revert Hj. unfold jobInv.
  destruct (jobKey m' s); [done|]. intros (?&?&?&?&Hn). split_and!; auto.
Qed.

Lemma wp_findSetInfo E i k site db v (Q : backendSetInfo → server → Prop) s :
  dbs s !! i = Some db → pendingValue db k = Some v →
  (∀ info, backendSetKeys db !! k = Some info → setValue info = v → Q info s) →
  wp E (findSetInfo i k site) Q s.
Proof.
  unfold pendingValue. intros Hi (info & Hk & Hv)%fmap_Some HQ. unfold findSetInfo. wp_step. wp_step.
  apply (wp_deref _ _ info); [|by apply HQ]. by rewrite Hi.
Qed.

(** The thread of an empty slot is polling, and may find a job there later. *)
Lemma workerOk_idle m s s' :
  workerOk W m s → jobKey m s = None → jobReturnKey m s = None → jobReturnKey m s' = None →
  workerOk W m s'.
Proof.
  intros [Hr Hw] Hk Hr0 Hr'. rewrite Hr0 in Hr. split; [by rewrite Hr'|].
  destruct (wv_state W m); try done; naive_solver.
Qed.

Lemma wp_createNewJob E m chk h s :
  SrvInv W (Some m) h s → (chk = false → jobKey m s = None) →
  wp E (_createNewJobIfHasMoreCandidates m chk)
    (λ _ s', SrvInv W None h s' ∧ dbs s' = dbs s ∧ clients s' = clients s) s.
Proof.
  intros Hs Hchk. unfold _createNewJobIfHasMoreCandidates. wp_step. wp_step.
  pose proof (si_job _ _ _ _ Hs m) as Hj. unfold jobInv in Hj.
  destruct (jobKey m s) as [p|] eqn:Hk.
  { destruct chk; [|by discriminate Hchk]. cbn.
    split; [|done]. eapply SrvInv_unlazy; [done|]. left. by rewrite Hk. }
  destruct Hj as (Hret & Hdbid & Hval & Hhand & _). rewrite Hret, andb_false_r. wp_step.
  destruct (hasAvailableCandidate_run m s) as ([[i k]|] & Hrun & Hr); (eapply wp_run_ok; [done|]).
  2:{ split; [|done]. eapply SrvInv_unlazy; eauto. }
  destruct Hr as (db & Hi & Hpend).
  assert (∀ s' q, same_but_slot m s s' → jobKey m s' = Some q → jobReturnKey m s' = None →
    outstanding h m s' q → SrvInv W None h s') as Hfin.
  { intros s' q Hslot Hk' Hr' Hout.
    apply (SrvInv_slot W (Some m) None h h m s); [done|done|by left|done|done|by right|..|done].
    - unfold jobInv. by rewrite Hk'.
    - eapply workerOk_idle; [apply Hs|done..]. }
  assert (∀ s', dbs s' = dbs s → clients s' = clients s → srv_wf s') as Hwf.
  { intros. by eapply srv_wf_eq, Hs. }
  destruct m; cbn in Hk, Hret, Hval, Hpend; wp_step; wp_step; wp_step;
    (apply wp_serverAssert; [by rewrite Hk, Hret; destruct (valToBackend (setJob s))|]);
    unfold sdsdup; wp_steps.
  2:{ apply fmap_is_Some in Hpend as [info Hinfo].
      eapply (wp_findSetInfo _ i _ _ db (setValue info)); [done|by unfold pendingValue; cbn; rewrite Hinfo|].
      intros info' Hinfo' _. cbn in Hinfo'. simplify_eq. wp_steps. split; [|done].
      eapply Hfin; [|done|done|]; [split_and!; auto|].
      split; cbn; [|by auto|done|by eauto|congruence]. exists i, db. split_and!; [done..|].
      cbn. rewrite Hinfo. unfold pendingValue. rewrite Hinfo. by eauto. }
  all: split; [|done]; eapply Hfin; [|done|done|]; [split_and!; auto|];
    split; cbn; [|by auto|by auto|done|congruence];
    exists i, db; split_and!; [done..|]; cbn; by auto.
Qed.

(** ** Parking a client on a key *)

Definition setArg (p : proc) (cl : client) : option bytes :=
  if bool_decide (p = setexCommandProc) || bool_decide (p = psetexCommandProc)
  then c_argv cl !! 3%nat else c_argv cl !! 2%nat.

Lemma wp_argv_lt E cl i (Q : bytes → server → Prop) s :
  (i < length (c_argv cl))%nat → (∀ b, c_argv cl !! i = Some b → Q b s) → wp E (argv cl i) Q s.
Proof. intros [b Hb]%lookup_lt_is_Some_2 HQ. eapply wp_deref; eauto. Qed.

Lemma wp_getTtl E c cl p (Q : Z → server → Prop) s :
  clients s !! c = Some cl → runnable p cl → (∀ ttl, Q ttl s) → wp E (_getTtlForSetCommand c) Q s.
Proof.
  intros Hc [Hcmd Hn%arityOk_args] HQ. unfold _getTtlForSetCommand. wp_step.
  eapply wp_getClient; [done|]. rewrite Hcmd. wp_step. apply wp_ret.
  assert (∀ e (k : option Z → M server Z), (∀ v, wp E (k v) Q s) →
    wp E (getLongLongFromObject (Some (createStringObject e)) ≫= k) Q s) as Hll.
  { intros e k Hk. wp_step.
    eapply wp_run_ok; [by apply getLongLongFromObject_run, createStringObject_string|]. auto. }
  destruct p; try (by apply wp_ret).
  - destruct (setOptions _ _ _ _) as [[[flags unit] [e|]]|]; cbn; [|by apply wp_ret..].
    apply Hll. intros []; by apply wp_ret.
  - wp_step. apply wp_argv_lt; [lia|]. intros e _. apply Hll. intros []; by apply wp_ret.
  - wp_step. apply wp_argv_lt; [lia|]. intros e _. apply Hll. intros []; by apply wp_ret.
Qed.

Lemma wp_getValue E c cl p (Q : bytes → server → Prop) s :
  clients s !! c = Some cl → runnable p cl → procMode p = Some SET_MODE →
  (∀ v, setArg p cl = Some v → Q v s) → wp E (_getValueFromSetCommand c) Q s.
Proof.
  intros Hc [Hcmd Hn%arityOk_args] Hm HQ. unfold _getValueFromSetCommand, setArg in *. wp_step.
  eapply wp_getClient; [done|]. rewrite Hcmd. wp_step. apply wp_ret.
  destruct p; try done; simpl_decide; cbn; apply wp_argv_lt; (lia || (intros; apply HQ; by simpl_decide)).
Qed.

Lemma wp_addKey m c cl p k db (sync : bool) (Q : unit → server → Prop) s :
  clients s !! c = Some cl → runnable p cl → procMode p = Some m → c_argv cl !! 1%nat = Some k →
  dbs s !! c_db cl = Some db →
  (∀ v ttl, (m = SET_MODE → setArg p cl = Some v) →
     Q tt (set_dbs (<[c_db cl := addPending m k v ttl (if sync then [c] else []) db]> (dbs s)) s)) →
  wp knownFault (_addKeyToBackendKeys m c sync) Q s.
Proof.
  intros Hc Hr Hm Hk Hdb HQ. unfold _addKeyToBackendKeys. wp_step. eapply wp_getClient; [done|].
  wp_step. eapply wp_deref; [done|]. destruct m.
  - eapply wp_withDb; [done..|]. by apply (HQ [] 0).
  - wp_step. unfold clientSetInfo. wp_step. eapply wp_withDb; [done..|]. wp_step.
    rewrite list_insert_id by done. replace (set_dbs (dbs s) s) with s by by destruct s.
    wp_step. eapply wp_getTtl; [done..|]. intros ttl. wp_step. eapply wp_getValue; [done..|].
    intros v Hv. destruct (backendSetKeys db !! k) as [info|] eqn:Hinfo.
    + wp_step. case_bool_decide as Hval; [|by left]. apply wp_ret.
      eapply wp_withDb; [done..|]. specialize (HQ v ttl (λ _, Hv)).
      cbn in HQ. by rewrite Hinfo in HQ.
    + eapply wp_withDb; [done..|]. specialize (HQ v ttl (λ _, Hv)).
      cbn in HQ. by rewrite Hinfo in HQ.
  - eapply wp_withDb; [done..|]. by apply (HQ [] 0).
Qed.

(** The client after the first part of [toBackend]. *)
Definition parkClient (m : mode) (sync : bool) (c : clientId) (cl : client) (s : server) : server :=
  if sync then set_clients (<[c := set_backend_state (stateOf m) cl]> (clients s)) s else s.

Lemma parkClient_dbs m sync c cl s : dbs (parkClient m sync c cl s) = dbs s.
Proof. by destruct sync. Qed.

Lemma parkedAt_normal s m i k c cl :
  clients s !! c = Some cl → backend_state cl = CLIENT_BACKEND_NORMAL → ¬ parkedAt s m i k c.
Proof.
  intros Hc Hn (cl' & Hc' & Hp). simplify_eq. apply (stateOf_normal m).
  by rewrite <-(pk_state _ _ _ _ Hp).
Qed.

Lemma parkedAt_clients s s' m i k c :
  clients s' !! c = clients s !! c → parkedAt s m i k c → parkedAt s' m i k c.
Proof. unfold parkedAt. by intros ->. Qed.

Section Park.
Context (m : mode) (c : clientId) (cl : client) (p : proc) (k v : bytes) (ttl : Z) (db : redisDb)
  (sync : bool) (h : handling) (s : server).
Context (Hs : SrvInv W None h s) (Hc : clients s !! c = Some cl)
  (Hn : backend_state cl = CLIENT_BACKEND_NORMAL) (Hrun : runnable p cl) (Hpm : procMode p = Some m)
  (Hk : c_argv cl !! 1%nat = Some k) (Hmulti : c_multi cl = false) (Hdb : dbs s !! c_db cl = Some db).

Let w : list clientId := if sync then [c] else [].
Let s1 : server := parkClient m sync c cl s.
Let s2 : server := set_dbs (<[c_db cl := addPending m k v ttl w db]> (dbs s1)) s1.

Lemma park_lookup i db' : dbs s2 !! i = Some db' →
  ∃ db0, dbs s !! i = Some db0 ∧
  (∀ m' k', pendingClients m' db' k' =
     if decide (i = c_db cl ∧ m' = m ∧ k' = k) then Some (default [] (pendingClients m db k) ++ w)
     else pendingClients m' db0 k') ∧
  (∀ k' u, pendingValue db0 k' = Some u → pendingValue db' k' = Some u).
Proof using All.
  cbn. unfold s1. rewrite parkClient_dbs, list_lookup_insert_Some. intros [(<- & <- & ?)|[Hne Hi]].
  - exists db. split_and!; [done| |intros; by apply pendingValue_add].
    intros m' k'. rewrite pendingClients_add. by repeat case_decide; naive_solver.
  - exists db'. split_and!; [done| |done]. intros m' k'. case_decide; naive_solver.
Qed.

Lemma park_lookup' i db0 : dbs s !! i = Some db0 → ∃ db', dbs s2 !! i = Some db'.
Proof using All.
  intros Hi. cbn. unfold s1. rewrite parkClient_dbs. apply lookup_lt_is_Some_2.
  rewrite length_insert. by eapply lookup_lt_Some.
Qed.

Lemma park_others c' : c' ≠ c → clients s2 !! c' = clients s !! c'.
Proof using All. intros. cbn. unfold s1, parkClient. destruct sync; [|done]. cbn. by rewrite lookup_insert_ne. Qed.

Lemma park_parkedAt m' i k' c' : parkedAt s m' i k' c' → parkedAt s2 m' i k' c'.
Proof using All.
  intros Hp. eapply parkedAt_clients; [|done]. apply park_others. intros ->.
  by eapply parkedAt_normal.
Qed.

Lemma park_self : sync = true → parkedAt s2 m (c_db cl) k c.
Proof using All.
  intros Hsync. exists (set_backend_state (stateOf m) cl). cbn. unfold s1, parkClient.
  rewrite Hsync. cbn. rewrite lookup_insert_eq. split; [done|]. split; cbn; try done. by exists p.
Qed.

Lemma park_waiter c' : c' ∈ w ↔ c' = c ∧ sync = true.
Proof using All.
  unfold w. destruct sync; rewrite ?list_elem_of_singleton, ?elem_of_nil; [tauto|intuition discriminate].
Qed.

Lemma park_nodup : NoDup w.
Proof using All. unfold w. destruct sync; [apply NoDup_singleton|apply NoDup_nil_2]. Qed.

Lemma park_state cl' :
  clients s2 !! c = Some cl' → backend_state cl' ≠ CLIENT_BACKEND_NORMAL → sync = true.
Proof using All. cbn. unfold s1, parkClient. destruct sync; [done|]. intros. simplify_eq. Qed.

Lemma park_wf : srv_wf s2.
Proof using All.
  destruct (si_wf _ _ _ _ Hs) as [Hd Hcw]. split; cbn; unfold s1; rewrite parkClient_dbs.
  - apply Forall_insert; [done|].
    assert (db_ok db) as Hok by by eapply Forall_lookup_1. by destruct m.
  - rewrite length_insert. unfold parkClient. destruct sync; [|done]. cbn.
    apply map_Forall_insert_2; [|done]. by destruct (Hcw c cl Hc).
Qed.

Lemma park_slots : same_slots s s2.
Proof using All. unfold same_slots, s2, s1, parkClient. by destruct sync. Qed.

Lemma park_jobInv m' : jobInv (Some m) h m' s2.
Proof using All.
  pose proof (si_job _ _ _ _ Hs m') as Hj. revert Hj. unfold jobInv.
  pose proof park_slots as Hslots. pose proof Hslots as (_ & Hst & _).
  destruct (same_slots_eq m' s s2 Hslots) as (-> & Hr & Hi & Hv).
  destruct (jobKey m' s) as [q|].
  - intros [(i & db0 & ? & Hdb0 & Hpd) ? ? Hsv ?]. split; rewrite ?Hr, ?Hi, ?Hst; auto.
    destruct (park_lookup' i db0 Hdb0) as [db' Hdb']. exists i, db'.
    destruct (park_lookup i db' Hdb') as (? & ? & Hp & Hval). simplify_eq.
    split_and!; [done..|]. intros [Hpend Hu]%Hpd. split.
    + rewrite Hp. destruct (decide _); [eexists; reflexivity|done].
    + intros Hm'. specialize (Hu Hm'). destruct (Hsv Hm') as [u Hu']. rewrite Hu' in *. symmetry.
      by apply Hval.
  - intros (? & ? & ? & ? & Hno). rewrite Hr, Hi. split_and!; auto.
    intros Hne i db' k' Hdb'. destruct (park_lookup i db' Hdb') as (db0 & Hdb0 & Hp & _).
    rewrite Hp. destruct (decide _) as [(_&->&_)|]; [congruence|].
    by eapply (Hno (λ Hx, ltac:(discriminate Hx))).
Qed.

Lemma SrvInv_park : SrvInv W (Some m) h s2.
Proof using All.
  assert (∀ i db0 m' k' l, dbs s !! i = Some db0 → pendingClients m' db0 k' = Some l → c ∉ l) as Hnew.
  { intros i db0 m' k' l Hi Hl Hin. destruct (si_pend _ _ _ _ Hs i db0 m' k' l c) as [Hp _]; [done..|].
    by eapply parkedAt_normal. }
  assert (c ∉ restOf h) as Hnr.
  { destruct h as [[[m' f] rest]|]; cbn; [|apply not_elem_of_nil]. intros Hin.
    eapply parkedOn_normal; [exact Hn|]. by eapply si_rest. }
  split; [apply park_wf| | |apply Hs| | |apply park_jobInv|].
  - intros i db' m' k' l Hi Hl. destruct (park_lookup i db' Hi) as (db0 & Hi0 & Hp & _).
    rewrite Hp in Hl. case_decide as Hd; [|by eapply si_nodup].
    destruct Hd as (-> & -> & ->). simplify_eq.
    destruct (pendingClients m db k) as [l0|] eqn:Hl0; cbn; [|apply park_nodup].
    apply NoDup_app. split_and!; [by eapply si_nodup| |apply park_nodup].
    intros c' Hin [-> _]%park_waiter. by eapply Hnew.
  - intros i db' m' k' l c' Hi Hl Hin. destruct (park_lookup i db' Hi) as (db0 & Hi0 & Hp & _).
    rewrite Hp in Hl. case_decide as Hd.
    + destruct Hd as (-> & -> & ->). simplify_eq. apply elem_of_app in Hin as [Hin|Hin].
      * destruct (pendingClients m db k) as [l0|] eqn:Hl0; [|by apply not_elem_of_nil in Hin].
        destruct (si_pend _ _ _ _ Hs (c_db cl) db m k l0 c') as [??]; [done..|].
        split; [by apply park_parkedAt|done].
      * apply park_waiter in Hin as [-> ?]. split; [by apply park_self|done].
    + destruct (si_pend _ _ _ _ Hs i db0 m' k' l c') as [??]; [done..|].
      split; [by apply park_parkedAt|done].
  - intros m' f rest c' cl' Hh Hin Hc'. rewrite park_others in Hc'; [by eapply si_rest|].
    intros ->. by rewrite Hh in Hnr.
  - intros c' cl' Hc' Hst. destruct (decide (c' = c)) as [->|Hne].
    + right. destruct (park_lookup' _ _ Hdb) as [db' Hdb']. exists (c_db cl), db', m, k.
      destruct (park_lookup _ _ Hdb') as (? & _ & Hp & _). eexists. rewrite Hp, decide_True by done.
      split_and!; [done..|]. apply elem_of_app. right. apply park_waiter. eauto using park_state.
    + rewrite park_others in Hc' by done.
      destruct (si_wait _ _ _ _ Hs _ _ Hc' Hst) as [?|(i & db0 & m' & k' & l & Hi & Hl & Hin)]; [by left|].
      right. destruct (park_lookup' _ _ Hi) as [db' Hdb']. exists i, db', m', k'.
      destruct (park_lookup _ _ Hdb') as (? & ? & Hp & _). simplify_eq. rewrite Hp.
      destruct (decide _) as [(-> & -> & ->)|]; [|by eauto]. simplify_eq.
      eexists. split_and!; [done..|]. rewrite Hl. cbn. set_solver.
  - intros m'. eapply workerOk_same; [apply park_slots|apply Hs].
Qed.

End Park.

(** ** The checks: they read the client, and at most expire its key *)

Section Check.
Context (c : clientId) (cl : client) (p : proc) (s0 : server) (Hrun : runnable p cl).

Definition kept (s : server) : Prop := inframe c s0 s ∧ clients s !! c = Some cl.

Lemma kept_db s : kept s → ∃ db, dbs s !! c_db cl = Some db ∧ db_ok db.
Proof.
  intros [Hs Hc]. destruct (swf_clients s (if_wf _ _ _ Hs) c cl Hc) as [Hi _].
  destruct (lookup_lt_is_Some_2 _ _ Hi) as [db Hdb]. exists db. split; [done|].
  eapply Forall_lookup_1; [apply (swf_dbs s), Hs|done].
Qed.

Lemma kept_getClient E (Q : client → server → Prop) s : kept s → Q cl s → wp E (getClient c) Q s.
Proof. intros [_ Hc] HQ. by eapply wp_getClient. Qed.

Lemma kept_lookupKeyRead E g ro key s : kept s →
  wp E (withDb (c_db cl) (lookupKeyRead g ro key)) (λ _, kept) s.
Proof.
  intros Hs. destruct (kept_db s Hs) as (db & Hdb & Hok). destruct Hs as [Hs Hc].
  eapply wp_withDb; [done|by apply lookupKeyRead_run, db_ok_wf|]. split; [|done].
  eapply inframe_step; [done|]. eapply frame_withDb; eauto using db_ok_purge.
Qed.

Lemma kept_readDb E (Q : redisDb → server → Prop) s : kept s →
  (∀ db, dbs s !! c_db cl = Some db → Q db s) → wp E (withDb (c_db cl) get) Q s.
Proof.
  intros Hs HQ. destruct (kept_db s Hs) as (db & Hdb & _). eapply wp_withDb; [done..|].
  rewrite list_insert_id by done. replace (set_dbs (dbs s) s) with s by by destruct s. by apply HQ.
Qed.

Lemma kept_cmd {A} E (f : proc → M server A) site Q s :
  wp E (f p) Q s → wp E (deref (c_cmd cl) site ≫= f) Q s.
Proof using Hrun. intros HQ. destruct Hrun as [-> _]. wp_step. by apply wp_ret. Qed.

Ltac read_client := wp_step; apply kept_getClient; [done|].

Lemma wp_checkGet s : kept s →
  wp knownFault (_checkGetCommandForBackendState c)
    (λ b s', kept s' ∧ (b = true → procMode p = Some GET_MODE)) s.
Proof using Hrun.
  intros Hs. unfold _checkGetCommandForBackendState. read_client. apply kept_cmd.
  case_bool_decide as Hp; cbn; [subst p|done]. wp_step. wp_step. case_match; [done|].
  destruct Hrun as [_ Hn%arityOk_args]. wp_step. apply wp_argv_lt; [lia|]. intros key _. wp_step.
  eapply wp_mono; [|by apply kept_lookupKeyRead]. clear dependent s. intros o s Hs.
  case_match; [done|]. wp_step. wp_step. by wp_step.
Qed.

Lemma wp_isSameKey s : kept s → procMode p = Some SET_MODE →
  wp knownFault (_isSameKeyWithDifferentValForSet c) (λ _, kept) s.
Proof using Hrun.
  intros Hs Hp. assert (3 ≤ length (c_argv cl))%nat.
  { destruct Hrun as [_ Hn%arityOk_args]. destruct p; try done; lia. }
  unfold _isSameKeyWithDifferentValForSet, clientSetInfo. read_client.
  wp_step. apply wp_argv_lt; [lia|]. intros key _. wp_step. apply wp_argv_lt; [lia|]. intros val _.
  wp_step. wp_step. apply kept_readDb; [done|]. intros db Hdb. wp_step. by case_match.
Qed.

Lemma wp_isSameValue s : kept s → procMode p = Some SET_MODE →
  wp knownFault (_isSameValueInDbForSet c) (λ _, kept) s.
Proof using Hrun.
  intros Hs Hp. assert (3 ≤ length (c_argv cl))%nat.
  { destruct Hrun as [_ Hn%arityOk_args]. destruct p; try done; lia. }
  unfold _isSameValueInDbForSet. read_client.
  wp_step. apply wp_argv_lt; [lia|]. intros key _. wp_step. apply wp_argv_lt; [lia|]. intros val _.
  wp_step. wp_step. wp_step. eapply wp_mono; [|by apply kept_lookupKeyRead].
  clear dependent s. intros [o|] s Hs; [|done]. case_match; [|done]. wp_step. unfold ptrSds.
  case_match; [done|by right; left..].
Qed.

Lemma wp_checkSet s : kept s →
  wp knownFault (_checkSetCommandForBackendState c)
    (λ b s', kept s' ∧ (b = true → procMode p = Some SET_MODE)) s.
Proof using Hrun.
  intros Hs. unfold _checkSetCommandForBackendState. read_client. apply kept_cmd.
  destruct (_isSetCommnd p) eqn:Hset; cbn; [|done].
  assert (procMode p = Some SET_MODE) as Hp by by destruct p.
  wp_step. wp_step. case_match; [done|]. wp_step. apply (wp_mono _ _ (λ _, kept)).
  2:{ case_bool_decide as Hpx; [subst p|done].
      destruct Hrun as [_ Hn%arityOk_args]. wp_step. apply wp_argv_lt; [lia|]. intros key _. wp_step.
      eapply wp_mono; [|by apply kept_lookupKeyRead]. done. }
  clear dependent s. intros b s Hs. case_match; [done|]. wp_step.
  eapply wp_mono; [|by apply wp_isSameKey]. clear dependent s. intros differ s Hs. case_match; [done|].
  wp_step. eapply wp_mono; [|by apply wp_isSameValue]. done.
Qed.

Lemma wp_checkDel s : kept s →
  wp knownFault (_checkDelCommandForBackendState c)
    (λ b s', kept s' ∧ (b = true → procMode p = Some DEL_MODE)) s.
Proof using Hrun.
  intros Hs. unfold _checkDelCommandForBackendState. read_client. apply kept_cmd.
  case_bool_decide as Hp; cbn; [subst p|done]. wp_step. wp_step. case_match; [done|].
  case_match; [done|]. wp_step. unfold _isNoKeyInDbDictForDel. read_client.
  destruct Hrun as [_ Hn%arityOk_args]. wp_step. apply wp_argv_lt; [lia|]. intros key _. wp_step.
  apply kept_readDb; [done|]. intros db _. wp_step. by wp_step.
Qed.

End Check.

(** ** [checkNeedToBackendState] *)

(** Only client [c] has changed. *)
Definition others (c : clientId) (s s' : server) : Prop :=
  ∀ c', c' ≠ c → clients s' !! c' = clients s !! c'.

#[global] Instance others_trans c : Transitive (others c).
Proof. intros s1 s2 s3 H1 H2 c' Hne. by rewrite H2, H1. Qed.

(** The client is as before, or parked. *)
Definition maybeParked (p : proc) (c : clientId) (cl : client) (s0 s : server) : Prop :=
  others c s0 s ∧ ∃ cl', clients s !! c = Some cl' ∧
    (cl' = cl ∨ ∃ m, procMode p = Some m ∧ cl' = set_backend_state (stateOf m) cl).

Lemma procMode_key p m cl : procMode p = Some m → runnable p cl → ∃ k, c_argv cl !! 1%nat = Some k.
Proof.
  intros Hm [_ Hn%arityOk_args]. apply lookup_lt_is_Some_2. destruct p; try done; lia.
Qed.

Lemma wp_toBackend m c cl p (sync : bool) h s :
  SrvInv W None h s → clients s !! c = Some cl → backend_state cl = CLIENT_BACKEND_NORMAL →
  runnable p cl → procMode p = Some m → c_multi cl = false →
  wp knownFault (toBackend m c sync (stateOf m)) (λ _ s', SrvInv W None h s' ∧ maybeParked p c cl s s') s.
Proof.
  intros Hs Hc Hn Hr Hm Hmulti. destruct (procMode_key p m cl Hm Hr) as [k Hk].
  destruct (swf_clients s (si_wf _ _ _ _ Hs) c cl Hc) as [Hi _].
  destruct (lookup_lt_is_Some_2 _ _ Hi) as [db Hdb].
  unfold toBackend. wp_step. apply (wp_mono _ _ (λ _ s', s' = parkClient m sync c cl s)).
  2:{ unfold parkClient. destruct sync; [|done]. by eapply wp_updClient. }
  intros [] s1 ->. wp_step.
  assert (∃ cl1, clients (parkClient m sync c cl s) !! c = Some cl1 ∧ c_db cl1 = c_db cl ∧
    runnable p cl1 ∧ c_argv cl1 !! 1%nat = Some k ∧
    (cl1 = cl ∨ cl1 = set_backend_state (stateOf m) cl)) as (cl1 & Hc1 & Hi1 & Hr1 & Hk1 & Hcl1).
  { unfold parkClient. destruct sync.
    - exists (set_backend_state (stateOf m) cl). split_and!; auto. apply lookup_insert_eq.
    - exists cl. split_and!; auto. }
  eapply (wp_addKey m c cl1 p k db sync); [done..|by rewrite parkClient_dbs, Hi1|].
  intros v ttl _. rewrite Hi1.
  eapply wp_mono; [|apply (wp_createNewJob _ m true h); [by eapply SrvInv_park|done]].
  intros [] s2 (HS2 & _ & Hc2). split; [done|]. split.
  { intros c' Hne. rewrite Hc2. cbn. unfold parkClient. destruct sync; [|done]. cbn.
    by rewrite lookup_insert_ne. }
  exists cl1. rewrite Hc2. split; [done|].
  destruct Hcl1; [by left|right; by exists m].
Qed.

Lemma wp_checkNeed c cl p h s :
  SrvInv W None h s → clients s !! c = Some cl → backend_state cl = CLIENT_BACKEND_NORMAL →
  runnable p cl →
  wp knownFault (checkNeedToBackendState c) (λ _ s', SrvInv W None h s' ∧ maybeParked p c cl s s') s.
Proof.
  intros Hs Hc Hn Hr. unfold checkNeedToBackendState. wp_step. eapply wp_getClient; [done|].
  wp_step. apply wp_serverAssert; [by apply bool_decide_eq_true|]. wp_step. wp_step.
  set (cf := cfg s). clearbody cf.
  assert (∀ s', kept c cl s s' → SrvInv W None h s' ∧ maybeParked p c cl s s') as Hkeep.
  { intros s' [Hf Hc']. split; [by eapply SrvInv_frame; [apply Hf|done..]|].
    split; [exact (fr_others c s s' (if_frame _ _ _ Hf))|]. exists cl. by auto. }
  assert (∀ s1 m sync, kept c cl s s1 → procMode p = Some m → c_multi cl = false →
    wp knownFault (toBackend m c sync (stateOf m))
      (λ _ s', SrvInv W None h s' ∧ maybeParked p c cl s s') s1) as Hgo.
  { intros s1 m sync Hk1 Hm Hmulti. destruct (Hkeep s1 Hk1) as [Hs1 [Ho1 _]].
    eapply wp_mono; [|apply (wp_toBackend m c cl p sync h s1 Hs1); [apply Hk1|done..]].
    intros [] s' [Hs' [Ho' ?]]. split; [done|]. split; [by etrans|done]. }
  assert (kept c cl s s) as Hk.
  { split; [|done]. split; [apply Hs|done|by eexists]. }
  case_match; [by apply Hkeep|]. destruct (c_multi cl) eqn:Hmulti; [by apply Hkeep|].
  wp_step. eapply wp_mono; [|by eapply wp_checkGet]. intros toGet s1 [Hk1 Hm1].
  destruct toGet; [by apply (Hgo s1 GET_MODE); auto|].
  wp_step. eapply wp_mono; [|by eapply wp_checkSet]. intros toSet s2 [Hk2 Hm2].
  destruct toSet; [by apply (Hgo s2 SET_MODE); auto|].
  wp_step. eapply wp_mono; [|by eapply wp_checkDel]. intros toDel s3 [Hk3 Hm3].
  destruct toDel; [by apply (Hgo s3 DEL_MODE); auto|].
  by apply Hkeep.
Qed.

(** ** Replacing a client by one that is not parked *)

Lemma SrvInv_setClient lazy h h' c cl' s :
  SrvInv W lazy h s → backend_state cl' = CLIENT_BACKEND_NORMAL →
  client_wf (length (dbs s)) cl' →
  (∀ i db m k l, dbs s !! i = Some db → pendingClients m db k = Some l → c ∉ l) →
  c ∉ restOf h' → NoDup (restOf h') →
  (∀ c', c' ∈ restOf h → c' = c ∨ c' ∈ restOf h') →
  (∀ m f rest', h' = Some (m, f, rest') → ∃ rest, h = Some (m, f, rest) ∧ rest' ⊆ rest) →
  (∀ m, handled h' m = handled h m) →
  SrvInv W lazy h' (set_clients (<[c := cl']> (clients s)) s).
Proof.
  intros [[Hd Hcw] Hnd Hp Hrn Hr Hw Hj Hwk] Hn Hwf Hfree Hnr Hnd' Hsub Hh Hhand.
  assert (∀ m i k c', c' ≠ c → parkedAt s m i k c' →
    parkedAt (set_clients (<[c := cl']> (clients s)) s) m i k c') as Hpk.
  { intros m i k c' Hne. apply parkedAt_clients. cbn. by rewrite lookup_insert_ne. }
  split; cbn; auto.
  - split; [done|]. by apply map_Forall_insert_2.
  - intros i db m k l c' Hi Hl Hin. destruct (Hp i db m k l c') as [Hpa Hni]; [done..|].
    split; [apply Hpk; [|done]; intros ->; by eapply Hfree|].
    destruct h' as [[[m' f] rest']|]; cbn; [|apply not_elem_of_nil].
    destruct (Hh m' f rest') as (rest & -> & Hrest); [done|]. cbn in Hni. set_solver.
  - intros m f rest' c' cl2 -> Hin Hc'. destruct (Hh m f rest') as (rest & -> & Hrest); [done|].
    rewrite lookup_insert_ne in Hc' by (by intros ->). by eapply Hr; [|apply Hrest|].
  - intros c' cl2. destruct (decide (c' = c)) as [->|Hne].
    + rewrite lookup_insert_eq. by intros [= <-].
    + rewrite lookup_insert_ne by done. intros Hc' Hst.
      destruct (Hw _ _ Hc' Hst) as [[->|?]%Hsub|?]; [done|by left|by right].
  - intros m. specialize (Hj m). revert Hj. unfold jobInv.
    change (jobKey m (set_clients (<[c := cl']> (clients s)) s)) with (jobKey m s).
    destruct (jobKey m s) as [q|].
    + intros []. by split; rewrite ?Hhand.
    + by rewrite Hhand.
Qed.

Lemma SrvInv_notPending lazy h c s :
  SrvInv W lazy h s →
  c ∈ restOf h ∨ (∃ cl, clients s !! c = Some cl ∧ backend_state cl = CLIENT_BACKEND_NORMAL) →
  ∀ i db m k l, dbs s !! i = Some db → pendingClients m db k = Some l → c ∉ l.
Proof.
  intros Hs Hc i db m k l Hi Hl Hin. destruct (si_pend _ _ _ _ Hs i db m k l c) as [Hp ?]; [done..|].
  destruct Hc as [?|(cl & Hc & Hn)]; [done|]. by eapply parkedAt_normal.
Qed.

Lemma SrvInv_notRest lazy h c cl s :
  SrvInv W lazy h s → clients s !! c = Some cl → backend_state cl = CLIENT_BACKEND_NORMAL →
  c ∉ restOf h.
Proof.
  intros Hs Hc Hn. destruct h as [[[m f] rest]|]; cbn; [|apply not_elem_of_nil]. intros Hin.
  eapply parkedOn_normal; [exact Hn|]. by eapply si_rest.
Qed.

Lemma SrvInv_updNormal lazy h c cl cl' s :
  SrvInv W lazy h s → clients s !! c = Some cl → backend_state cl = CLIENT_BACKEND_NORMAL →
  backend_state cl' = CLIENT_BACKEND_NORMAL → client_wf (length (dbs s)) cl' →
  SrvInv W lazy h (set_clients (<[c := cl']> (clients s)) s).
Proof.
  intros Hs Hc Hn Hn' Hwf. eapply SrvInv_setClient; eauto using SrvInv_notRest.
  - eapply SrvInv_notPending; eauto.
  - apply Hs.
Qed.

Lemma SrvInv_unpark lazy m f c rest cl' s :
  SrvInv W lazy (Some (m, f, c :: rest)) s → backend_state cl' = CLIENT_BACKEND_NORMAL →
  client_wf (length (dbs s)) cl' →
  SrvInv W lazy (Some (m, f, rest)) (set_clients (<[c := cl']> (clients s)) s).
Proof.
  intros Hs Hn Hwf. pose proof (si_rest_nodup _ _ _ _ Hs) as [Hnin Hnd]%NoDup_cons.
  eapply SrvInv_setClient; eauto; cbn.
  - eapply SrvInv_notPending; [done|]. left. cbn. set_solver.
  - set_solver.
  - intros m' f' rest' [= <- <- <-]. eexists. split; [done|]. set_solver.
Qed.

End Inv.
