(* ===== verification/BackendExec.v ===== *)
(** * BackendExec: client input and job completion keep the invariant

    The operations of the main thread that BackendSystem.v uses as steps: one
    request of a client, the start and the end of a completion, the resumption of
    one client, and freeing a client. *)

From Stdlib Require Import Ascii String ZifyBool.
From stdpp Require Import base tactics option list strings numbers gmap fin_maps.
From S2P Require Import Prelude Util Object Db Server TString Backend BackendWorker BackendInv.

Local Open Scope Z_scope.

Section Exec.
Context `{OtherCommands, CandidateOrder} {W : workerView}.

(** ** One request *)

(** [c] is a client with the given requests left, and the only one that changed. *)
Definition hasInput (c : clientId) (q : list (list bytes)) (s0 s : server) : Prop :=
  others c s0 s ∧ ∃ cl, clients s !! c = Some cl ∧ c_querybuf cl = q.

Lemma hasInput_trans c q s0 s1 s : others c s0 s1 → hasInput c q s1 s → hasInput c q s0 s.
Proof. intros Ho [Ho' ?]. split; [by etrans|done]. Qed.

Lemma others_upd c cl s : others c s (set_clients (<[c := cl]> (clients s)) s).
Proof. intros c' Hne. cbn. by rewrite lookup_insert_ne. Qed.

Lemma if_flagTransaction c s0 s : inframe c s0 s →
  wp noFault (flagTransaction c) (λ _, inframe c s0) s.
Proof.
  intros Hs. unfold flagTransaction. wp_step. apply if_getClient with s0; [done|].
  intros cl _ [_ Hq]. case_match; [by apply if_set_multi|done].
Qed.

Lemma if_resetClient c s0 s : inframe c s0 s → wp noFault (resetClient c) (λ _, inframe c s0) s.
Proof. intros Hs. apply if_updClient; [done|done|]. by intros cl []. Qed.

Lemma inframe_refl lazy h c cl s :
  SrvInv W lazy h s → clients s !! c = Some cl → inframe c s s.
Proof. intros Hs Hc. split; [apply Hs|done|by eexists]. Qed.

Lemma inframe_post lazy h c cl s s' :
  SrvInv W lazy h s → clients s !! c = Some cl → backend_state cl = CLIENT_BACKEND_NORMAL →
  inframe c s s' → SrvInv W lazy h s' ∧ hasInput c (c_querybuf cl) s s'.
Proof.
  intros Hs Hc Hn Hf. split; [by eapply SrvInv_frame; [apply Hf|..]|].
  split; [exact (fr_others c s s' (if_frame _ _ _ Hf))|].
  destruct (fr_client _ _ _ (if_frame _ _ _ Hf) _ Hc) as (cl' & ? & (_&_&?&_)). by exists cl'.
Qed.

Lemma wp_known {A} (m : M server A) Q s : wp noFault m Q s → wp knownFault m Q s.
Proof. by apply wp_fault_mono. Qed.

Lemma wp_known_command {A} (m : M server A) Q s : wp other_fault m Q s → wp knownFault m Q s.
Proof. apply wp_fault_mono. unfold knownFault. tauto. Qed.

(** An error reply: the transaction is flagged or discarded, the client answered. *)
Lemma if_reject c e r s0 s : inframe c s0 s →
  wp noFault (refuse c e ;; addReply c r ;; mret true) (λ _, inframe c s0) s.
Proof.
  intros Hs. wp_step. apply (wp_mono _ _ (λ _, inframe c s0)).
  2:{ destruct e; [done|by apply if_flagTransaction|by apply if_set_multi]. }
  clear s Hs. intros [] s Hs. wp_step. eapply wp_mono; [|by apply if_addReply]. done.
Qed.

(** The end of [processCommand]: park or run. *)
Lemma wp_parkOrCall c cl p h s :
  SrvInv W None h s → clients s !! c = Some cl → backend_state cl = CLIENT_BACKEND_NORMAL →
  runnable p cl →
  wp knownFault (checkNeedToBackendState c ;;
                 cl ← getClient c;
                 (if bool_decide (backend_state cl = CLIENT_BACKEND_NORMAL) then call c else mret tt) ;;
                 mret true)
    (λ _ s', SrvInv W None h s' ∧ hasInput c (c_querybuf cl) s s') s.
Proof.
  intros Hs Hc Hn Hr. wp_step. eapply wp_mono; [|by apply (wp_checkNeed (W:=W) c cl p h)].
  intros [] s1 (Hs1 & Ho1 & cl' & Hc1 & Hcl'). wp_step. eapply wp_getClient; [done|].
  wp_step. case_bool_decide as Hst.
  - assert (cl' = cl) as ->.
    { destruct Hcl' as [?|(m & _ & ->)]; [done|]. by destruct (stateOf_normal m). }
    eapply wp_mono; [|apply wp_known_command, (if_call c s1 p cl); [by eapply inframe_refl|done..]].
    intros [] s' Hf. wp_step. destruct (inframe_post None h c cl s1 s') as [??]; auto.
    eauto using hasInput_trans.
  - wp_steps. split; [done|]. split; [done|]. exists cl'. split; [done|].
    by destruct Hcl' as [->|(m & _ & ->)].
Qed.

Lemma wp_processCommand c cl h s :
  SrvInv W None h s → clients s !! c = Some cl → backend_state cl = CLIENT_BACKEND_NORMAL →
  c_argv cl ≠ [] →
  wp knownFault (processCommand c) (λ _ s', SrvInv W None h s' ∧ hasInput c (c_querybuf cl) s s') s.
Proof.
  intros Hs Hc Hn Hargv. unfold processCommand. wp_step. eapply wp_getClient; [done|].
  wp_step. apply wp_argv_lt; [destruct (c_argv cl); [done|cbn; lia]|]. intros name _.
  assert (inframe c s s) as Hf by by eapply inframe_refl.
  case_match.
  { apply wp_known. wp_step. eapply wp_mono; [|by apply if_addReply]. intros [] s1 Hf1. wp_step.
    eapply wp_mono; [|apply if_updClient; [done|done|by intros ? []]]. intros [] s2 Hf2. wp_step.
    by eapply inframe_post. }
  wp_step. eapply wp_updClient; [done|]. set (cl1 := set_cmd (lookupCommand name) (c_argv cl) cl).
  set (s1 := set_clients _ _).
  assert (SrvInv W None h s1) as Hs1.
  { eapply SrvInv_updNormal; [done..|]. by destruct (swf_clients s (si_wf _ _ _ _ Hs) c cl Hc). }
  assert (clients s1 !! c = Some cl1) as Hc1 by apply lookup_insert_eq.
  assert (others c s s1) as Ho1 by apply others_upd. clearbody s1.
  assert (inframe c s1 s1) as Hf1 by by eapply inframe_refl.
  assert (∀ s', inframe c s1 s' → SrvInv W None h s' ∧ hasInput c (c_querybuf cl) s s') as Hpost.
  { intros s' Hf'. destruct (inframe_post None h c cl1 s1 s') as [??]; eauto using hasInput_trans. }
  destruct (lookupCommand name) as [p|] eqn:Hlk.
  2:{ apply wp_known. eapply wp_mono; [|by apply (if_reject c FlagTransaction)]. auto. }
  destruct (arityOk p _) eqn:Har; cbn.
  2:{ apply wp_known. eapply wp_mono; [|by apply (if_reject c FlagTransaction)]. auto. }
  wp_step. wp_step. destruct (admission s1 cl p) as [[r e]|].
  { apply wp_known. eapply wp_mono; [|by apply (if_reject c e)]. auto. }
  case_match eqn:Hqueue.
  2:{ eapply wp_mono; [|by apply (wp_parkOrCall c cl1 p h)].
      intros ? s' [? ?]. eauto using hasInput_trans. }
  unfold queueMultiCommand. apply wp_known. wp_step. wp_step. eapply wp_getClient; [done|]. wp_step.
  apply (wp_deref _ _ p); [done|].
  eapply wp_mono; [|apply if_set_multi; [done|]].
  - intros [] s2 Hf2. wp_step. eapply wp_mono; [|by apply if_addReply]. intros [] s3 Hf3. wp_step.
    by apply Hpost.
  - apply Forall_app. destruct (swf_clients s (si_wf _ _ _ _ Hs) c cl Hc) as [_ Hq].
    split; [done|]. apply Forall_singleton. split; [|done]. cbn. intros ->.
    by rewrite bool_decide_eq_true_2, andb_false_r in Hqueue.
Qed.

Lemma wp_processInputStep c cl h s :
  SrvInv W None h s → clients s !! c = Some cl →
  wp knownFault (processInputStep c)
    (λ more s', SrvInv W None h s' ∧
       if more then ∃ a q, c_querybuf cl = a :: q ∧ hasInput c q s s'
       else s' = s ∧ (c_querybuf cl = [] ∨ backend_state cl ≠ CLIENT_BACKEND_NORMAL ∨ c_close cl = true)) s.
Proof.
  intros Hs Hc. unfold processInputStep. wp_step. eapply wp_getClient; [done|].
  destruct (c_querybuf cl) as [|a q]; [wp_step; naive_solver|].
  case_bool_decide as Hn; cbn [negb]; [|wp_step; naive_solver].
  case_match eqn:Hclose; [wp_step; naive_solver|].
  wp_step. eapply wp_updClient; [done|]. cbn beta.
  set (cl1 := set_querybuf q _). set (s1 := set_clients _ _).
  assert (SrvInv W None h s1) as Hs1.
  { eapply SrvInv_updNormal; [done..|]. by destruct (swf_clients s (si_wf _ _ _ _ Hs) c cl Hc). }
  assert (clients s1 !! c = Some cl1) as Hc1 by apply lookup_insert_eq.
  assert (others c s s1) as Ho1 by apply others_upd. clearbody s1.
  assert (∀ s', SrvInv W None h s' → hasInput c q s s' →
    SrvInv W None h s' ∧ ∃ a' q', a :: q = a' :: q' ∧ hasInput c q' s s') as Hfin by eauto.
  wp_step. case_bool_decide as Ha.
  - eapply wp_mono; [|by apply wp_known, if_resetClient; eapply inframe_refl]. intros [] s2 Hf.
    wp_step. destruct (inframe_post None h c cl1 s1 s2) as [??]; eauto using hasInput_trans.
  - unfold processCommandAndResetClient. wp_step. eapply wp_mono; [|by apply (wp_processCommand c cl1)].
    intros ok s2 (Hs2 & HI2). pose proof (hasInput_trans _ _ _ _ _ Ho1 HI2) as HI.
    destruct HI2 as (_ & cl2 & Hc2 & Hq2). wp_step. eapply wp_getClient; [done|].
    destruct ok; cbn [andb]; [|wp_step; by apply Hfin].
    case_bool_decide as Hn2; [|wp_step; by apply Hfin].
    unfold commandProcessed.
    eapply wp_mono; [|by apply wp_known, if_resetClient; eapply inframe_refl]. intros [] s3 Hf.
    wp_step. destruct (inframe_post None h c cl2 s2 s3) as [? HI3]; auto. apply Hfin; [done|].
    rewrite Hq2 in HI3. destruct HI. eauto using hasInput_trans.
Qed.

(** ** Resuming one client *)

(** The client once [markFailure] has run. *)
Definition failMark (m : mode) (r : Z) (cl : client) : client :=
  match m with
  | SET_MODE => if r =? 0 then set_set_sync_reply true cl else cl
  | DEL_MODE => if r =? 0 then set_del_sync_reply true cl else cl
  | GET_MODE => cl
  end.

Lemma markFailure_run m r c cl s : clients s !! c = Some cl →
  markFailure m r c s = Ok (tt, set_clients (<[c := failMark m r cl]> (clients s)) s).
Proof.
  intros Hc. assert (set_clients (<[c := cl]> (clients s)) s = s) as Hid.
  { rewrite insert_id by done. by destruct s. }
  assert (∀ f, updClient c f s = Ok (tt, set_clients (<[c := f cl]> (clients s)) s)) as Hupd.
  { intros f. unfold updClient, getClient. cbv [mbind M_bind get modify]. by rewrite Hc. }
  unfold markFailure, failMark. destruct m; [by rewrite Hid|..]; case_match; rewrite ?Hid; auto.
Qed.

Lemma failMark_props m r cl :
  c_db (failMark m r cl) = c_db cl ∧ c_mstate (failMark m r cl) = c_mstate cl ∧
  c_cmd (failMark m r cl) = c_cmd cl ∧ c_argv (failMark m r cl) = c_argv cl ∧
  c_querybuf (failMark m r cl) = c_querybuf cl ∧ c_multi (failMark m r cl) = c_multi cl ∧
  backend_state (failMark m r cl) = backend_state cl.
Proof. unfold failMark. destruct m; repeat case_match; done. Qed.

Lemma wp_resume m f c cl rest r s :
  SrvInv W None (Some (m, f, c :: rest)) s → clients s !! c = Some cl →
  wp knownFault (markFailure m r c ;; resumeCall c)
    (λ _ s', SrvInv W None (Some (m, f, rest)) s' ∧
       ∃ cl', clients s' !! c = Some cl' ∧
         backend_state cl' = CLIENT_BACKEND_NORMAL ∧ c_querybuf cl' = c_querybuf cl ∧ others c s s') s.
Proof.
  intros Hs Hc.
  assert (parkedOn m (finishDbid f) (finishKey f) cl) as Hpk 
    by (eapply (si_rest _ _ _ _ Hs m f (c :: rest) c); [done|by left|done]).
  destruct (pk_proc _ _ _ _ Hpk) as (p & Hpm & Hr).
  destruct (failMark_props m r cl) as (Hdb & Hmq & Hcmd & Hargv & Hq & _ & Hst).
  destruct (swf_clients s (si_wf _ _ _ _ Hs) c cl Hc) as [Hi Hms].
  wp_step. eapply wp_run_ok; [by apply markFailure_run|].
  set (cl1 := failMark m r cl) in *. unfold resumeCall. wp_step.
  eapply (wp_getClient _ _ _ _ cl1); [apply lookup_insert_eq|]. wp_step. apply wp_serverAssert.
  { rewrite Hst, (pk_state _ _ _ _ Hpk). destruct m; by simpl_decide. }
  wp_step. eapply (wp_updClient _ _ _ _ _ cl1); [apply lookup_insert_eq|].
  set (cl2 := set_backend_state CLIENT_BACKEND_NORMAL cl1).
  set (s2 := set_clients _ _).
  assert (s2 = set_clients (<[c := cl2]> (clients s)) s) as Hs2.
  { unfold s2. cbn. by rewrite insert_insert_eq. }
  assert (SrvInv W None (Some (m, f, rest)) s2) as HS2.
  { rewrite Hs2. eapply SrvInv_unpark; [done..|]. split; cbn; by rewrite ?Hdb, ?Hmq. }
  assert (clients s2 !! c = Some cl2) as Hc2 by (rewrite Hs2; apply lookup_insert_eq).
  assert (others c s s2) as Ho2 by (rewrite Hs2; apply others_upd).
  clearbody s2. wp_step.
  eapply wp_mono; [|apply wp_known_command, (if_call c s2 p cl2); [by eapply inframe_refl|done|]].
  2:{ destruct Hr as [Hr1 Hr2]. split; cbn; by rewrite ?Hcmd, ?Hargv. }
  intros [] s3 Hf3. eapply wp_mono; [|by apply wp_known, if_resetClient].
  intros [] s4 Hf4. destruct (inframe_post None _ c cl2 s2 s4 HS2) as [? _]; [done..|].
  split; [done|]. destruct (fr_client _ _ _ (if_frame _ _ _ Hf4) _ Hc2) as (cl4 & ? & (_&_&Hq4&Hst4)).
  exists cl4. split_and!; [done|by rewrite Hst4|by rewrite Hq4|].
  etrans; [done|]. exact (fr_others c s2 s4 (if_frame _ _ _ Hf4)).
Qed.

(** ** Storing the value of a finished job *)

Definition storeValue (g : genv) (k v : bytes) (ttl : Z) (db : redisDb) : redisDb :=
  let db := write_key g k (createStringObject v) true db in
  if 0 <? ttl then write_expire k (i64 (mstime g + ttl)) db else db.

Lemma write_key_is_Some g k v keepttl db : is_Some (dict (write_key g k v keepttl db) !! k).
Proof. unfold write_key. cbn. rewrite lookup_insert_eq. by eexists. Qed.

Lemma storeValue_ok g k v ttl db : db_ok db → db_ok (storeValue g k v ttl db).
Proof.
  intros Hok. assert (db_ok (write_key g k (createStringObject v) true db)).
  { by eapply db_ok_write_key; [apply createStringObject_string|]. }
  unfold storeValue. case_match; [|done]. apply db_ok_write_expire; [apply write_key_is_Some|done].
Qed.

Lemma storeValue_backend g k v ttl db : same_backend db (storeValue g k v ttl db).
Proof.
  unfold storeValue. etrans; [apply (same_backend_write_key g k (createStringObject v) true)|].
  by case_match.
Qed.

Lemma storeFinished_run i k v ttl db s : dbs s !! i = Some db → db_ok db →
  storeFinished i k v ttl s =
  Ok (tt, set_dirty (dirty s + 1) (set_dbs (<[i := storeValue (srv_env s) k v ttl db]> (dbs s)) s)).
Proof.
  intros Hi Hok. unfold storeFinished, storeValue.
  set (g := srv_env s). set (db1 := write_key g k (createStringObject v) true db).
  assert (withDb i (genericSetKey g k (createStringObject v) true) s =
    Ok (tt, set_dbs (<[i := db1]> (dbs s)) s)) as Hset.
  { unfold withDb. by rewrite Hi, genericSetKey_run by by apply db_ok_wf. }
  cbv [mbind M_bind _createStringObject mret M_ret gets].
  change (if _ <=? _ then createEmbeddedStringObject v else createRawStringObject v)
    with (createStringObject v).
  fold g. rewrite Hset. cbv [incrDirty modify]. case_match; [|done].
  unfold withDb. cbn. rewrite list_lookup_insert_eq by by eapply lookup_lt_Some.
  rewrite setExpire_run by apply write_key_is_Some. cbn. by rewrite list_insert_insert_eq.
Qed.

(** ** The start of a completion *)

(** A parked client waits for one key only. *)
Lemma parkedOn_inj m m' i i' k k' cl :
  parkedOn m i k cl → parkedOn m' i' k' cl → m = m' ∧ i = i' ∧ k = k'.
Proof.
  intros [Hst Hdb Hk _ _] [Hst' Hdb' Hk' _ _]. split_and!; [|congruence..].
  rewrite Hst in Hst'. by destruct m, m'.
Qed.

(** The database a finished job leaves, before its pending entry is dropped. *)
Definition finishedDb (m : mode) (g : genv) (getTtl : Z) (f : finished) (db : redisDb) : redisDb :=
  match m, finishVal f with
  | GET_MODE, Some v => storeValue g (finishKey f) v getTtl db
  | SET_MODE, Some v =>
      if finishResult f =? 0 then db else storeValue g (finishKey f) v (finishTtl f) db
  | _, _ => db
  end.

Lemma finishedDb_ok m g t f db : db_ok db → db_ok (finishedDb m g t f db).
Proof. intros. unfold finishedDb. repeat case_match; auto using storeValue_ok. Qed.

Lemma finishedDb_backend m g t f db : same_backend db (finishedDb m g t f db).
Proof. unfold finishedDb. repeat case_match; auto using storeValue_backend. Qed.

Definition clearBegin (m : mode) (f : finished) : M server (list clientId) :=
  clearFinishBegin m (finishDbid f) (finishKey f) (finishVal f) (finishResult f) (finishTtl f).

Lemma clearBegin_run m f db l s :
  dbs s !! finishDbid f = Some db → db_ok db →
  pendingClients m db (finishKey f) = Some l → (m = SET_MODE → is_Some (finishVal f)) →
  ∃ n, clearBegin m f s =
  Ok (l, set_dirty n (set_dbs (<[finishDbid f :=
         delPending m (finishKey f)
           (finishedDb m (srv_env s) (redisoo_get_ttl (cfg s)) f db)]> (dbs s)) s)).
Proof.
  intros Hi Hok Hl Hset. set (db1 := finishedDb m (srv_env s) (redisoo_get_ttl (cfg s)) f db).
  set (s1 := λ n, set_dirty n (set_dbs (<[finishDbid f := db1]> (dbs s)) s)).
  assert (db1 = db → s1 (dirty s) = s) as Hid.
  { intros Hdb1. unfold s1. rewrite Hdb1, list_insert_id by done. by destruct s. }
  assert (∀ n, dbs (s1 n) !! finishDbid f = Some db1) as Hi1.
  { intros. cbn. apply list_lookup_insert_eq. by eapply lookup_lt_Some. }
  assert (∃ n, (match m with
    | GET_MODE => match finishVal f with
        | Some v => storeFinished (finishDbid f) (finishKey f) v (redisoo_get_ttl (cfg s))
        | None => mret tt end
    | SET_MODE => if negb (finishResult f =? 0) then
        match finishVal f with
        | Some v => storeFinished (finishDbid f) (finishKey f) v (finishTtl f)
        | None => fail (AssertFailed "_clearFinishKey: val") end else mret tt
    | DEL_MODE => mret tt end : M server unit) s = Ok (tt, s1 n)) as [n Hn].
  { unfold s1, db1, finishedDb in *. destruct m; destruct (finishVal f) eqn:Hv;
      try (destruct (finishResult f =? 0) eqn:Hres; cbn);
      try (by eexists; apply storeFinished_run);
      try (eexists (dirty s); by rewrite Hid by done).
    by destruct (Hset eq_refl). }
  exists n. unfold clearBegin, clearFinishBegin. cbv [mbind M_bind gets]. rewrite Hn.
  unfold withDb at 1. rewrite Hi1. cbv [get]. rewrite list_insert_id by apply Hi1.
  replace (set_dbs (dbs (s1 n)) (s1 n)) with (s1 n) by done.
  rewrite (pendingClients_same db db1), Hl by apply finishedDb_backend.
  unfold withDb. rewrite Hi1. cbv [modify mret M_ret]. unfold s1. cbn.
  rewrite list_insert_insert_eq. by destruct m.
Qed.

(** Changes of the keyspaces only. *)
Lemma SrvInv_keyspace lazy h s s' :
  SrvInv W lazy h s → srv_wf s' → clients s' = clients s → same_slots s s' →
  Forall2 same_backend (dbs s) (dbs s') → SrvInv W lazy h s'.
Proof.
  intros [_ Hnd Hp Hrn Hr Hw Hj Hwk] Hwf Hcl Hsl Hdbs.
  assert (∀ i db', dbs s' !! i = Some db' →
    ∃ db, dbs s !! i = Some db ∧ ∀ m k, pendingClients m db' k = pendingClients m db k) as Hback.
  { intros i db' Hi. destruct (Forall2_lookup_r _ _ _ _ _ Hdbs Hi) as (db & ? & Hsame).
    exists db. split; [done|]. intros. by apply pendingClients_same. }
  split; auto.
  - intros i db' m k l Hi Hl. destruct (Hback i db' Hi) as (db & ? & Heq). rewrite Heq in Hl. eauto.
  - intros i db' m k l c Hi Hl Hin. destruct (Hback i db' Hi) as (db & ? & Heq). rewrite Heq in Hl.
    destruct (Hp i db m k l c) as [??]; [done..|]. split; [|done].
    eapply parkedAt_clients; [|done]. by rewrite Hcl.
  - rewrite Hcl. done.
  - intros c cl. rewrite Hcl. intros Hc Hst.
    destruct (Hw c cl Hc Hst) as [?|(i & db & m & k & l & Hi & ? & ?)]; [by left|right].
    destruct (Forall2_lookup_l _ _ _ _ _ Hdbs Hi) as (db' & ? & Hsame).
    exists i, db', m, k, l. by rewrite (pendingClients_same db db').
  - intros m. by eapply jobInv_same.
  - intros m. by eapply workerOk_same.
Qed.

(** Dropping the entry of the job being handled: its clients are the ones to
    resume. *)
Lemma SrvInv_begin m f db l s p :
  SrvInv W None None s → jobKey m s = Some p → jobReturnKey m s = Some p →
  jobDbid m s = Z.of_nat (finishDbid f) → finishKey f = p_str p →
  dbs s !! finishDbid f = Some db → pendingClients m db (finishKey f) = Some l →
  SrvInv W None (Some (m, f, l))
    (set_dbs (<[finishDbid f := delPending m (finishKey f) db]> (dbs s)) s).
Proof.
  intros Hs Hk Hret Hdbid Hkey Hdb Hl. pose proof Hs as [[Hd Hcw] Hnd Hp _ _ Hw Hj Hwk].
  set (s' := set_dbs _ s).
  assert (∀ i db', dbs s' !! i = Some db' → ∃ db0, dbs s !! i = Some db0 ∧
    (∀ m' k, pendingClients m' db' k =
       if decide (i = finishDbid f ∧ m' = m ∧ k = finishKey f) then None
       else pendingClients m' db0 k) ∧
    (∀ k, ¬ (i = finishDbid f ∧ m = SET_MODE ∧ k = finishKey f) →
       pendingValue db' k = pendingValue db0 k)) as Hback.
  { intros i db'. cbn. rewrite list_lookup_insert_Some. intros [(<- & <- & _)|[Hne Hi]].
    - exists db. split_and!; [done|intros; rewrite pendingClients_del; by repeat case_decide; naive_solver|].
      intros k Hnot. destruct (decide (k = finishKey f)) as [->|]; [|by apply pendingValue_del].
      apply pendingValue_del_other. naive_solver.
    - exists db'. split_and!; [done|intros; case_decide; naive_solver|done]. }
  assert (∀ i db0, dbs s !! i = Some db0 → ∃ db', dbs s' !! i = Some db') as Hfwd.
  { intros i db0 Hi. apply lookup_lt_is_Some_2. cbn. rewrite length_insert. by eapply lookup_lt_Some. }
  split; cbn [restOf].
  - split; cbn; [|by rewrite length_insert]. apply Forall_insert; [done|].
    assert (db_ok db) by by eapply Forall_lookup_1. by destruct m.
  - intros i db' m' k l' Hi Hl'. destruct (Hback i db' Hi) as (db0 & ? & Heq & _).
    rewrite Heq in Hl'. case_decide; [done|]. eauto.
  - intros i db' m' k l' c Hi Hl' Hin. destruct (Hback i db' Hi) as (db0 & Hi0 & Heq & _).
    rewrite Heq in Hl'. destruct (decide _) as [|Hne]; [done|].
    destruct (Hp i db0 m' k l' c) as [Hpa _]; [done..|]. split; [done|]. intros Hin2. apply Hne.
    destruct (Hp _ _ _ _ _ _ Hdb Hl Hin2) as [(cl & Hc & Hpk) _].
    destruct Hpa as (cl' & Hc' & Hpk'). simplify_eq. destruct (parkedOn_inj m m' _ _ _ _ _ Hpk Hpk') as (?&?&?). by subst.
  - eauto.
  - intros m' f' rest c cl [= <- <- <-] Hin Hc. destruct (Hp _ _ _ _ _ _ Hdb Hl Hin) as [(cl' & Hc' & ?) _].
    cbn in Hc. by simplify_eq.
  - intros c cl Hc Hst. destruct (Hw c cl Hc Hst) as [Hr|(i & db0 & m' & k & l' & Hi & Hl' & Hin)].
    { by apply not_elem_of_nil in Hr. }
    destruct (Hfwd i db0 Hi) as [db' Hi']. destruct (Hback i db' Hi') as (? & ? & Heq & _). simplify_eq.
    destruct (decide (i = finishDbid f ∧ m' = m ∧ k = finishKey f)) as [(-> & -> & ->)|Hne].
    + left. by simplify_eq.
    + right. exists i, db', m', k, l'. by rewrite Heq, decide_False.
  - intros m'. specialize (Hj m'). revert Hj. unfold jobInv.
    change (jobKey m' s') with (jobKey m' s). destruct (jobKey m' s) as [q|] eqn:Hq.
    + intros [(i & db0 & ? & Hi & Hpd) ????]. split; auto.
      * destruct (Hfwd i db0 Hi) as [db' Hi']. destruct (Hback i db' Hi') as (? & ? & Heq & Hval).
        simplify_eq. exists i, db'. split_and!; [done..|]. cbn. destruct (decide (m = m')) as [->|Hne]; [done|].
        intros _. destruct (Hpd eq_refl) as [Hsome Hu].
        rewrite Heq, decide_False by (intros (_ & -> & _); done). split; [done|]. intros ->.
        rewrite Hval by (intros (_ & -> & _); done). by apply Hu.
      * cbn. intros f'. destruct (decide (m = m')) as [->|]; [|done]. intros [= <-].
        by simplify_eq.
    + intros (? & ? & ? & _ & Hn). split_and!; auto.
      * cbn. case_decide; [congruence|done].
      * intros _ i db' k Hi'. destruct (Hback i db' Hi') as (db0 & ? & Heq & _). rewrite Heq.
        destruct (decide _); [done|]. by eapply (Hn (λ Hx, ltac:(discriminate Hx))).
  - done.
Qed.

(** The finished job a handler reads from its slot. *)
Definition finishedOf (m : mode) (p : sdsptr) (s : server) : finished :=
  mkFinished (Z.to_nat (jobDbid m s)) (p_str p)
    match m with
    | GET_MODE => valFromBackend (getJob s) | SET_MODE => valToBackend (setJob s) | DEL_MODE => None
    end
    match m with
    | GET_MODE => 0 | SET_MODE => setSyncResult (setJob s) | DEL_MODE => delSyncResult (delJob s)
    end
    match m with SET_MODE => setTtl (setJob s) | _ => 0 end.

Lemma jobFinished_run m p i s :
  jobKey m s = Some p → jobReturnKey m s = Some p → jobDbid m s = Z.of_nat i →
  jobFinished m s = Ok (finishedOf m p s, s).
Proof.
  intros Hk Hr Hi. unfold jobFinished, getFinished, setFinished, delFinished, finishedOf.
  destruct m; cbn in Hk, Hr, Hi |- *; cbv [mbind M_bind gets]; rewrite Hk, Hr, Hi;
    (rewrite serverAssert_run; [|by apply negb_true_iff; lia]); cbn; rewrite bool_decide_eq_true_2 by done;
    done.
Qed.

(** What a handler does before it resumes the first client. *)
Definition handlerBegin (m : mode) : M server (finished * list clientId) :=
  f ← jobFinished m;
  l ← clearBegin m f;
  mret (f, l).

Lemma handlerBegin_run m p s :
  SrvInv W None None s → jobKey m s = Some p → jobReturnKey m s = Some p →
  ∃ db l n, let f := finishedOf m p s in
    dbs s !! finishDbid f = Some db ∧ pendingClients m db (finishKey f) = Some l ∧
    handlerBegin m s = Ok ((f, l), set_dirty n (set_dbs (<[finishDbid f :=
      delPending m (finishKey f)
        (finishedDb m (srv_env s) (redisoo_get_ttl (cfg s)) f db)]> (dbs s)) s)).
Proof.
  intros Hs Hk Hr. pose proof (si_job _ _ _ _ Hs m) as Hj. unfold jobInv in Hj. rewrite Hk in Hj.
  destruct Hj as [(i & db & Hi & Hdb & Hpend) _ _ Hsv _]. destruct (Hpend eq_refl) as [[l Hl] _].
  assert (finishDbid (finishedOf m p s) = i) as Hfi by (cbn; rewrite Hi; lia).
  destruct (clearBegin_run m (finishedOf m p s) db l s) as [n Hn].
  - by rewrite Hfi.
  - eapply Forall_lookup_1; [apply (swf_dbs s), Hs|done].
  - done.
  - intros ->. by apply Hsv.
  - exists db, l, n. cbn zeta. split_and!; [by rewrite Hfi|done|]. unfold handlerBegin.
    cbv [mbind M_bind]. rewrite (jobFinished_run m p i) by done. by rewrite Hn.
Qed.

Lemma wp_handlerBegin E m p s :
  SrvInv W None None s → jobKey m s = Some p → jobReturnKey m s = Some p →
  wp E (handlerBegin m)
    (λ r s', SrvInv W None (Some (m, fst r, snd r)) s' ∧ same_slots s s') s.
Proof.
  intros Hs Hk Hr. destruct (handlerBegin_run m p s Hs Hk Hr) as (db & l & n & Hdb & Hl & Hrun).
  eapply wp_run_ok; [exact Hrun|]. split; [|done]. cbn [fst snd].
  set (f := finishedOf m p s) in *. set (db1 := finishedDb m _ _ f db).
  assert (db_ok db) as Hok by (eapply Forall_lookup_1; [apply (swf_dbs s), Hs|done]).
  assert (same_backend db db1) as Hsame by apply finishedDb_backend.
  set (s1 := set_dirty n (set_dbs (<[finishDbid f := db1]> (dbs s)) s)).
  assert (SrvInv W None None s1) as Hs1.
  { eapply (SrvInv_keyspace _ _ s); [done| |done|done|].
    - destruct (si_wf _ _ _ _ Hs) as [Hd Hcw]. split; cbn; [|by rewrite length_insert].
      apply Forall_insert; [done|by apply finishedDb_ok].
    - cbn. rewrite <-(list_insert_id (dbs s) (finishDbid f) db Hdb) at 1.
      apply Forall2_insert; [apply same_backend_Forall2_refl|done]. }
  pose proof (si_job _ _ _ _ Hs m) as Hj. unfold jobInv in Hj. rewrite Hk in Hj.
  destruct Hj as [(i & db0 & Hi & _ & _) _ _ _ _].
  assert (dbs s1 !! finishDbid f = Some db1) as Hdb1.
  { cbn. apply list_lookup_insert_eq. by eapply lookup_lt_Some. }
  eapply (SrvInv_begin m f db1 l s1 p) in Hs1; [|done|done| |done|done|].
  - cbn in Hs1. by rewrite list_insert_insert_eq in Hs1.
  - change (jobDbid m s1) with (jobDbid m s). cbn. rewrite Hi. lia.
  - by rewrite (pendingClients_same db db1).
Qed.

(** ** The end of a completion *)

(** The view once the slot of [m] is empty again. *)
Definition unreturn (m : mode) (V : workerView) : workerView :=
  mkView (wv_state V) (λ m', if decide (m' = m) then false else wv_returned V m').

Lemma wp_clearFinishEnd E m f s :
  SrvInv W None (Some (m, f, [])) s → wv_state W m = Polling →
  wp E (clearFinishEnd m)
    (λ _ s', SrvInv (unreturn m W) None None s' ∧ dbs s' = dbs s ∧ clients s' = clients s) s.
Proof.
  intros Hs Hpoll. pose proof (si_job _ _ _ _ Hs m) as Hj. unfold jobInv in Hj. cbn in Hj.
  rewrite decide_True in Hj by done. destruct (jobKey m s) as [p|] eqn:Hk; [|naive_solver].
  destruct Hj as [_ _ _ _ Hh]. destruct (Hh f) as (Hr & _ & _); [cbn; by rewrite decide_True|].
  assert (∀ s', same_but_slot m s s' → jobKey m s' = None → jobReturnKey m s' = None →
    jobDbid m s' = -1 → slotValue m s' None →
    wp E (_createNewJobIfHasMoreCandidates m false)
      (λ _ s', SrvInv (unreturn m W) None None s' ∧ dbs s' = dbs s ∧ clients s' = clients s) s') as Hnew.
  { intros s' Hslot Hk' Hr' Hi' Hv'. pose proof Hslot as (_ & Hd & Hc & _).
    eapply wp_mono; [|apply (wp_createNewJob (W:=unreturn m W) _ m false None); [|done]].
    - by rewrite Hd, Hc.
    - apply (SrvInv_slot (W:=W) (unreturn m W) None (Some m) (Some (m, f, [])) None m s);
        [done|done|done| | |by left| | |done].
      + intros m' Hne. cbn. by destruct (decide (m = m')).
      + intros m' Hne. cbn. by rewrite decide_False.
      + unfold jobInv. rewrite Hk'. by split_and!.
      + split; cbn; [by rewrite Hr', decide_True|by rewrite Hpoll]. }
  assert (∀ s', dbs s' = dbs s → clients s' = clients s → srv_wf s') as Hwf.
  { intros. by eapply srv_wf_eq, Hs. }
  unfold clearFinishEnd. destruct m; cbn in Hk, Hr; wp_step; wp_step; wp_step; wp_step;
    (apply wp_serverAssert; [by rewrite Hk, Hr, bool_decide_eq_true_2|]); wp_step;
    (apply Hnew; [|done..]); unfold same_but_slot; cbn; auto 10.
Qed.

(** ** Freeing a client *)

Definition releaseDb (c : clientId) (db : redisDb) : redisDb :=
  mkDb (dict db) (expires db) (dropClient c <$> backendGetKeys db)
    ((λ i, mkSetInfo (setValue i) (infoTtl i) (dropClient c (infoClients i))) <$> backendSetKeys db)
    (dropClient c <$> backendDelKeys db).

Definition freed (c : clientId) (s : server) : server :=
  set_clients (delete c (clients s)) (set_dbs (releaseDb c <$> dbs s) s).

Lemma freeClient_run c s : freeClient c s = Ok (tt, freed c s).
Proof. done. Qed.

Lemma pendingClients_release c m db k :
  pendingClients m (releaseDb c db) k = dropClient c <$> pendingClients m db k.
Proof. destruct m; cbn; rewrite ?lookup_fmap; [done| |done]. by destruct (backendSetKeys db !! k). Qed.

Lemma pendingValue_release c db k : pendingValue (releaseDb c db) k = pendingValue db k.
Proof. unfold pendingValue. cbn. rewrite lookup_fmap. by destruct (backendSetKeys db !! k). Qed.

Lemma SrvInv_free h c s : SrvInv W None h s → SrvInv W None h (freed c s).
Proof.
  intros [[Hd Hcw] Hnd Hp Hrn Hr Hw Hj Hwk].
  assert (∀ i db', dbs (freed c s) !! i = Some db' →
    ∃ db, dbs s !! i = Some db ∧ db' = releaseDb c db) as Hback.
  { intros i db'. cbn. rewrite list_lookup_fmap. intros (db & -> & ->)%fmap_Some. eauto. }
  assert (∀ i db, dbs s !! i = Some db → dbs (freed c s) !! i = Some (releaseDb c db)) as Hfwd.
  { intros i db Hi. cbn. by rewrite list_lookup_fmap, Hi. }
  split; cbn [restOf].
  - split; cbn.
    + by apply Forall_fmap.
    + rewrite length_fmap. by apply map_Forall_delete.
  - intros i db' m k l Hi Hl. destruct (Hback i db' Hi) as (db & ? & ->).
    rewrite pendingClients_release in Hl. apply fmap_Some in Hl as (l0 & ? & ->).
    apply NoDup_filter. eauto.
  - intros i db' m k l c' Hi Hl Hin. destruct (Hback i db' Hi) as (db & ? & ->).
    rewrite pendingClients_release in Hl. apply fmap_Some in Hl as (l0 & ? & ->).
    apply list_elem_of_filter in Hin as [Hne Hin].
    destruct (Hp i db m k l0 c') as [Hpa ?]; [done..|]. split; [|done].
    eapply parkedAt_clients; [|done]. cbn. by rewrite lookup_delete_ne.
  - done.
  - intros m f rest c' cl Hh Hin. cbn. intros [_ Hc']%lookup_delete_Some. eauto.
  - intros c' cl. cbn. intros [Hne Hc']%lookup_delete_Some Hst.
    destruct (Hw c' cl Hc' Hst) as [?|(i & db & m & k & l & Hi & Hl & Hin)]; [by left|right].
    exists i, (releaseDb c db), m, k, (dropClient c l).
    split_and!; [by apply Hfwd|by rewrite pendingClients_release, Hl|].
    apply list_elem_of_filter. auto.
  - intros m. specialize (Hj m). revert Hj. unfold jobInv.
    change (jobKey m (freed c s)) with (jobKey m s). destruct (jobKey m s) as [q|].
    + intros [(i & db & ? & Hi & Hpd) ????]. split; auto.
      exists i, (releaseDb c db). split_and!; [done|by apply Hfwd|]. intros [? ?]%Hpd.
      rewrite pendingClients_release, pendingValue_release. split; [by apply fmap_is_Some|done].
    + intros (?&?&?&?&Hn). split_and!; auto. intros Hl i db' k Hi.
      destruct (Hback i db' Hi) as (db & ? & ->). rewrite pendingClients_release.
      by rewrite (Hn Hl i db k).
  - done.
Qed.

End Exec.
