(* ===== verification/BackendSystem.v ===== *)
(** * BackendSystem: the server as a concurrent system

    The main thread, the three working threads, their pipes and the database, as
    a step relation.  A step of the main thread is one request of a client, one
    part of a completion, or one event of the environment (new input, a new or a
    closed connection, a change of the configuration, of the clock or of the
    keyspaces by code that is not modelled).  A step of a working thread is one
    locked section, one backend call or one write to its pipe.

    Two effects of the commands behind [OtherCommands] reach beyond the database of
    their client, and are steps of their own, between two requests of the client that
    is being served: CLIENT KILL frees other clients at once, also while a completion
    walks its copy of the waiting clients, and CONFIG SET frees the strings of the
    configuration, also while a working thread has loaded them for a call.

    A request is one step although it enters the lock twice, in
    [_checkGetCommandForBackendState] and in [_createNewJobIfHasMoreCandidates]:
    what a working thread can do between the two sections is to return its job,
    and the second section only tests that the slot is not empty, which it then
    is not before and after. *)

From Stdlib Require Import Ascii String ZifyBool.
From stdpp Require Import base tactics option list strings numbers gmap fin_maps functions relations.
From S2P Require Import Prelude Util Object Db Server TString Backend BackendWorker BackendInv BackendExec.

Local Open Scope Z_scope.

(** ** States *)

(** Where the main thread is. *)
Inductive mainpc :=
  | MIdle                                                       (* in the event loop *)
  | MInput (c : clientId) (h : handling)                        (* in processInputBuffer *)
  | MHandle (m : mode) (f : finished) (rest : list clientId)    (* in _clearFinishKey *)
  | MRead (m : mode).                                           (* at the read of a handler *)

Definition handlingOf (pc : mainpc) : handling :=
  match pc with
  | MInput _ h => h
  | MHandle m f rest => Some (m, f, rest)
  | MIdle | MRead _ => None
  end.

Definition afterInput (h : handling) : mainpc :=
  match h with Some (m, f, rest) => MHandle m f rest | None => MIdle end.

Section System.
Context `{OtherCommands, Database}.

Record system := mkSystem {
  sys_srv : server;
  sys_db : dbState;
  sys_worker : mode → wstate;
  sys_pipe : mode → nat;          (* bytes in the pipe of a mode *)
  sys_pc : mainpc }.

Definition set_main (s : server) (pc : mainpc) (σ : system) : system :=
  mkSystem s (sys_db σ) (sys_worker σ) (sys_pipe σ) pc.

(** One step of the main thread outside the event loop. *)
Definition mainStep `{CandidateOrder} (pc : mainpc) : M server mainpc :=
  match pc with
  | MInput c h =>
      more ← processInputStep c;
      mret (if more : bool then MInput c h else afterInput h)
  | MHandle m f (c :: rest) =>
      markFailure m (finishResult f) c ;;
      resumeCall c ;;
      mret (MInput c (Some (m, f, rest)))
  | MHandle m f [] => clearFinishEnd m ;; mret (MRead m)
  | MIdle | MRead _ => mret pc
  end.

Definition busy (pc : mainpc) : bool :=
  match pc with MInput _ _ | MHandle _ _ _ => true | MIdle | MRead _ => false end.

Definition onMain (σ : system) (r : res (mainpc * server)) : res system :=
  match r with Ok (pc, s) => Ok (set_main s pc σ) | Fault f => Fault f end.

Definition startHandler (m : mode) : M server mainpc :=
  r ← handlerBegin m;
  mret (MHandle m (fst r) (snd r)).

Definition onWorker (m : mode) (σ : system) (r : res (wstate * bool * dbState * server)) : res system :=
  match r with
  | Ok (w, signal, d, s) =>
      Ok (mkSystem s d (<[m := w]> (sys_worker σ))
            (if signal : bool then <[m := S (sys_pipe σ m)]> (sys_pipe σ) else sys_pipe σ) (sys_pc σ))
  | Fault f => Fault f
  end.

(** [readQueryFromClient]: the requests are appended to the query buffer. *)
Definition newInput (c : clientId) (q : list (list bytes)) : M server unit :=
  updClient c (λ cl, set_querybuf (c_querybuf cl ++ q) cl).

(** The main thread is in the event loop, or between two requests of a client. *)
Definition betweenRequests (pc : mainpc) : bool :=
  match pc with MIdle | MInput _ _ => true | MHandle _ _ _ | MRead _ => false end.

(** The strings of the configuration are the same blocks. *)
Definition sameStrings (cf cf' : config) : Prop :=
  redisoo_connection cf' = redisoo_connection cf ∧ redisoo_get cf' = redisoo_get cf ∧
  redisoo_set cf' = redisoo_set cf ∧ redisoo_del cf' = redisoo_del cf.

Inductive step (σ : system) : res system → Prop :=
  | step_main (O : CandidateOrder) :
      busy (sys_pc σ) = true →
      step σ (onMain σ (mainStep (sys_pc σ) (sys_srv σ)))
  | step_input c q :
      sys_pc σ = MIdle → is_Some (clients (sys_srv σ) !! c) →
      step σ (onMain σ ((newInput c q ;; mret (MInput c None)) (sys_srv σ)))
  | step_handler m :
      sys_pc σ = MIdle → (0 < sys_pipe σ m)%nat →
      step σ (onMain σ (startHandler m (sys_srv σ)))
  | step_read m :
      sys_pc σ = MRead m → (0 < sys_pipe σ m)%nat →
      step σ (Ok (mkSystem (sys_srv σ) (sys_db σ) (sys_worker σ)
                    (<[m := pred (sys_pipe σ m)]> (sys_pipe σ)) MIdle))
  | step_connect c auth :
      sys_pc σ = MIdle → clients (sys_srv σ) !! c = None → dbs (sys_srv σ) ≠ [] →
      step σ (Ok (set_main (set_clients (<[c := createClient auth]> (clients (sys_srv σ))) (sys_srv σ))
                    MIdle σ))
  | step_free c :
      sys_pc σ = MIdle →
      step σ (onMain σ ((freeClient c ;; mret MIdle) (sys_srv σ)))
  | step_kill c h cl l :
      sys_pc σ = MInput c h → clients (sys_srv σ) !! c = Some cl →
      backend_state cl = CLIENT_BACKEND_NORMAL →
      Forall (λ v, is_Some (clients (sys_srv σ) !! v)) l →
      step σ (onMain σ ((clientKill c l ;; mret (MInput c h)) (sys_srv σ)))
  | step_env g gd :
      step σ (Ok (set_main (set_guards gd (set_env g (sys_srv σ))) (sys_pc σ) σ))
  | step_config cf :
      betweenRequests (sys_pc σ) = true → sameStrings (cfg (sys_srv σ)) cf →
      step σ (Ok (set_main (set_cfg cf (sys_srv σ)) (sys_pc σ) σ))
  | step_config_string o v :
      betweenRequests (sys_pc σ) = true →
      step σ (onMain σ ((stringConfigSet o v ;; mret (sys_pc σ)) (sys_srv σ)))
  | step_keyspace l :
      betweenRequests (sys_pc σ) = true → Forall db_ok l →
      Forall2 same_backend (dbs (sys_srv σ)) l →
      step σ (Ok (set_main (set_dbs l (sys_srv σ)) (sys_pc σ) σ))
  | step_worker m :
      step σ (onWorker m σ (workerStep m (sys_worker σ m) (sys_db σ) (sys_srv σ))).

(** The system when the server starts: the strings of the configuration are the first
    blocks, and there are [n] databases with no pending key. *)
Record settings := mkSettings {
  st_type : Z; st_connection : bytes; st_get : bytes; st_set : bytes; st_del : bytes;
  st_get_sync : bool; st_set_sync : bool; st_del_sync : bool; st_get_ttl : Z }.

Definition initConfig (st : settings) : config :=
  mkConfig (st_type st) (mkPtr 0 (st_connection st)) (Some (mkPtr 1 (st_get st)))
    (Some (mkPtr 2 (st_set st))) (Some (mkPtr 3 (st_del st)))
    (st_get_sync st) (st_set_sync st) (st_del_sync st) (st_get_ttl st).

Definition initServer (g : genv) (gd : guards) (st : settings) (n : nat) : server :=
  mkServer g gd (initConfig st) (replicate n emptyDb) ∅ zeroGetJob zeroSetJob zeroDelJob 0 4.

Definition initial (σ : system) : Prop :=
  ∃ g gd st n d, σ = mkSystem (initServer g gd st n) d (λ _, Polling) (λ _, 0%nat) MIdle.

Definition reachable (σ : system) : Prop :=
  ∃ σ0, initial σ0 ∧ rtc (λ σ σ', step σ (Ok σ')) σ0 σ.

(** ** The invariant of the system *)

Definition viewOf (σ : system) : workerView :=
  mkView (sys_worker σ) (λ m, negb (isNull (jobReturnKey m (sys_srv σ)))).

Definition b2n (b : bool) : nat := if b then 1 else 0.

Definition isSignalling (w : wstate) : bool := match w with Signalling => true | _ => false end.

Definition atRead (m : mode) (pc : mainpc) : bool :=
  match pc with MRead m' => bool_decide (m' = m) | _ => false end.

(** A byte is in the pipe, or about to be written, for every returned job and for
    a handler that has not yet read its byte. *)
Definition pipeInv (σ : system) (m : mode) : Prop :=
  (sys_pipe σ m + b2n (isSignalling (sys_worker σ m)) =
   b2n (negb (isNull (jobReturnKey m (sys_srv σ)))) + b2n (atRead m (sys_pc σ)))%nat.

Record SysInv (σ : system) : Prop := {
  inv_srv : SrvInv (viewOf σ) None (handlingOf (sys_pc σ)) (sys_srv σ);
  inv_pipe : ∀ m, pipeInv σ m;
  inv_poll : ∀ m f, handled (handlingOf (sys_pc σ)) m = Some f → sys_worker σ m = Polling;
  inv_client : ∀ c h, sys_pc σ = MInput c h → is_Some (clients (sys_srv σ) !! c) }.

(** ** The faults of a step *)

(** The next client to resume has been freed. *)
Definition freedWaiter (σ : system) : Prop :=
  ∃ m f c rest, sys_pc σ = MHandle m f (c :: rest) ∧ clients (sys_srv σ) !! c = None.

(** A string that the thread of [m] has loaded for its call has been freed. *)
Definition staleCall (m : mode) (σ : system) : Prop :=
  ∃ k v a, sys_worker σ m = Calling k v a ∧ argsLive m a (cfg (sys_srv σ)) (sys_db σ) = false.

Definition argsSite (m : mode) : string :=
  match m with GET_MODE => "redisoo_get" | SET_MODE => "redisoo_set" | DEL_MODE => "redisoo_del" end.

(** The faults of the thread of [m], and of a step. *)
Definition workerFault (m : mode) (σ : system) (f : fault) : Prop :=
  knownFault f ∨ staleCall m σ ∧ f = UseAfterFree (argsSite m).

Definition stepFault (σ : system) (f : fault) : Prop :=
  (freedWaiter σ ∧ f = UseAfterFree "client") ∨ ∃ m, workerFault m σ f.

(** What every step guarantees. *)
Definition keepsInv (σ : system) (r : res system) (E : fault → Prop) : Prop :=
  match r with Ok σ' => SysInv σ' | Fault f => E f end.

Lemma keepsInv_mono σ r (E E' : fault → Prop) :
  (∀ f, E f → E' f) → keepsInv σ r E → keepsInv σ r E'.
Proof. destruct r; cbn; auto. Qed.

(** ** Steps of the main thread *)

Lemma SrvInv_view W W' lazy h s :
  (∀ m, wv_state W' m = wv_state W m) → (∀ m, wv_returned W' m = wv_returned W m) →
  SrvInv W lazy h s → SrvInv W' lazy h s.
Proof.
  intros Hs Hr [? ? ? ? ? ? ? Hwk]. split; auto. intros m. specialize (Hwk m). revert Hwk.
  unfold workerOk. by rewrite Hs, Hr.
Qed.

(** The main thread does not change which jobs are returned. *)
Lemma SrvInv_returned σ lazy h s :
  SrvInv (viewOf σ) lazy h s →
  ∀ m, isNull (jobReturnKey m s) = isNull (jobReturnKey m (sys_srv σ)).
Proof. intros Hs m. destruct (si_worker _ _ _ _ Hs m) as [-> _]. cbn. by rewrite negb_involutive. Qed.

Lemma SysInv_main σ s pc :
  SysInv σ → SrvInv (viewOf σ) None (handlingOf pc) s →
  (∀ m, atRead m pc = atRead m (sys_pc σ)) →
  (∀ m f, handled (handlingOf pc) m = Some f → sys_worker σ m = Polling) →
  (∀ c h, pc = MInput c h → is_Some (clients s !! c)) →
  SysInv (set_main s pc σ).
Proof.
  intros [_ Hpipe _ _] Hs Hrd Hpoll Hc. pose proof (SrvInv_returned _ _ _ _ Hs) as Hret.
  split; cbn; [| |done|done].
  - eapply SrvInv_view; [| |exact Hs]; cbn; [done|]. intros m. by rewrite Hret.
  - intros m. specialize (Hpipe m). unfold pipeInv in *. cbn. by rewrite Hret, Hrd.
Qed.

Lemma onMain_inv σ (m : M server mainpc) (Q : mainpc → server → Prop) :
  wp knownFault m Q (sys_srv σ) →
  (∀ pc s, Q pc s → SysInv (set_main s pc σ)) →
  keepsInv σ (onMain σ (m (sys_srv σ))) knownFault.
Proof. unfold wp, keepsInv, onMain. destruct (m (sys_srv σ)) as [[pc s]|f]; auto. Qed.

Lemma afterInput_handling h : handlingOf (afterInput h) = h.
Proof. by destruct h as [[[m f] rest]|]. Qed.

(** One request, or the end of the input. *)
Lemma mainStep_input (O : CandidateOrder) σ c h :
  SysInv σ → sys_pc σ = MInput c h →
  keepsInv σ (onMain σ (mainStep (MInput c h) (sys_srv σ))) knownFault.
Proof.
  intros Hinv Hpc. pose proof Hinv as [Hs _ Hpoll Hcl]. rewrite Hpc in Hs, Hpoll.
  destruct (Hcl c h Hpc) as [cl Hc].
  apply (onMain_inv σ _ (λ pc s, SrvInv (viewOf σ) None h s ∧
    (pc = MInput c h ∧ is_Some (clients s !! c) ∨ pc = afterInput h))).
  - cbn [mainStep]. wp_step.
    eapply wp_mono; [|by apply (wp_processInputStep (W:=viewOf σ) c cl h)].
    intros more s [Hs' Hmore]. wp_step. split; [done|]. destruct more; [|by right].
    destruct Hmore as (a & q & _ & _ & cl' & Hc' & _). left. by rewrite Hc'.
  - intros pc s [Hs' [[-> Hc']| ->]]; apply SysInv_main; rewrite ?afterInput_handling, ?Hpc; auto.
    + intros ?? [= <- <-]. done.
    + by destruct h as [[[]]|].
    + by destruct h as [[[]]|].
Qed.

(** Resuming the next client of a completion, when it has been freed and when not. *)
Lemma mainStep_freed (O : CandidateOrder) m f c rest s :
  clients s !! c = None → mainStep (MHandle m f (c :: rest)) s = Fault (UseAfterFree "client").
Proof.
  intros Hc. assert (getClient c s = Fault (UseAfterFree "client")) as Hg.
  { unfold getClient. cbv [mbind M_bind get fail]. by rewrite Hc. }
  assert (∀ g, updClient c g s = Fault (UseAfterFree "client")) as Hu.
  { intros g. unfold updClient. cbv [mbind M_bind]. by rewrite Hg. }
  cbn [mainStep]. unfold markFailure, resumeCall. cbv [mbind M_bind mret M_ret].
  destruct m; try destruct (finishResult f =? 0); by rewrite ?Hu, ?Hg.
Qed.

Lemma mainStep_resume (O : CandidateOrder) σ m f c cl rest :
  SysInv σ → sys_pc σ = MHandle m f (c :: rest) → clients (sys_srv σ) !! c = Some cl →
  keepsInv σ (onMain σ (mainStep (MHandle m f (c :: rest)) (sys_srv σ))) knownFault.
Proof.
  intros Hinv Hpc Hcl. pose proof Hinv as [Hs _ Hpoll _]. rewrite Hpc in Hs, Hpoll.
  apply (onMain_inv σ _ (λ pc s, SrvInv (viewOf σ) None (Some (m, f, rest)) s ∧
    is_Some (clients s !! c) ∧ pc = MInput c (Some (m, f, rest)))).
  - cbn [mainStep].
    pose proof (wp_resume (W:=viewOf σ) m f c cl rest (finishResult f) (sys_srv σ) Hs Hcl) as Hw.
    apply wp_bind_inv in Hw. wp_step. eapply wp_mono; [|exact Hw]. clear Hw. intros [] s1 Hw.
    wp_step. eapply wp_mono; [|exact Hw]. intros [] s2 (Hs2 & cl' & Hc' & _).
    wp_step. by rewrite Hc'.
  - intros pc s (Hs' & Hc' & ->). apply SysInv_main; rewrite ?Hpc; auto.
    by intros ?? [= <- <-].
Qed.

(** The end of a completion: the slot is empty, or has a new job. *)
Lemma mainStep_end (O : CandidateOrder) σ m f :
  SysInv σ → sys_pc σ = MHandle m f [] →
  keepsInv σ (onMain σ (mainStep (MHandle m f []) (sys_srv σ))) knownFault.
Proof.
  intros Hinv Hpc. pose proof Hinv as [Hs Hpipe Hpoll _]. rewrite Hpc in Hs, Hpoll.
  assert (sys_worker σ m = Polling) as Hw by (apply (Hpoll m f); cbn; by rewrite decide_True).
  apply (onMain_inv σ _ (λ pc s, SrvInv (unreturn m (viewOf σ)) None None s ∧ pc = MRead m)).
  - cbn [mainStep]. wp_step.
    eapply wp_mono; [|by apply (wp_clearFinishEnd (W:=viewOf σ) _ m f)].
    intros [] s (Hs' & _). by wp_step.
  - intros pc s [Hs' ->].
    assert (∀ m', isNull (jobReturnKey m' s) =
      if decide (m' = m) then true else isNull (jobReturnKey m' (sys_srv σ))) as Hret.
    { intros m'. destruct (si_worker _ _ _ _ Hs' m') as [-> _]. cbn.
      by destruct (decide (m' = m)); rewrite ?negb_involutive. }
    assert (isNull (jobReturnKey m (sys_srv σ)) = false) as Hm.
    { pose proof (si_job _ _ _ _ Hs m) as Hj. unfold jobInv in Hj. cbn in Hj.
      rewrite decide_True in Hj by done. destruct (jobKey m (sys_srv σ)); [|naive_solver].
      destruct Hj as [_ _ _ _ Hh]. destruct (Hh f) as [-> _]; [cbn; by rewrite decide_True|done]. }
    split; cbn; [| |done|done].
    + eapply SrvInv_view; [| |exact Hs']; [done|]. intros m'. cbn. rewrite Hret.
      by destruct (decide (m' = m)).
    + intros m'. specialize (Hpipe m'). unfold pipeInv in *. cbn. rewrite Hret, Hpc in *. cbn in Hpipe.
      destruct (decide (m' = m)) as [->|Hne].
      * rewrite Hm, Hw in Hpipe. rewrite Hw, bool_decide_eq_true_2 by done. done.
      * by rewrite bool_decide_eq_false_2 by done.
Qed.

(** ** Events *)

(** New input for a client, parked or not. *)
Lemma SrvInv_input W lazy h c cl q s :
  SrvInv W lazy h s → clients s !! c = Some cl →
  SrvInv W lazy h (set_clients (<[c := set_querybuf q cl]> (clients s)) s).
Proof.
  intros [[Hd Hcw] Hnd Hp Hrn Hr Hw Hj Hwk] Hc. set (s' := set_clients _ _).
  assert (∀ m i k c', parkedAt s m i k c' → parkedAt s' m i k c') as Hpk.
  { intros m i k c' (cl' & Hc' & Hpk). unfold parkedAt. cbn.
    destruct (decide (c' = c)) as [->|Hne]; [|rewrite lookup_insert_ne by done; by exists cl'].
    rewrite lookup_insert_eq. simplify_eq. eexists. split; [done|]. by destruct Hpk. }
  split; auto.
  - split; [done|]. apply map_Forall_insert_2; [|done]. by destruct (Hcw c cl Hc).
  - intros i db m k l c' Hi Hl Hin. destruct (Hp i db m k l c') as [??]; auto.
  - intros m f rest c' cl' Hh Hin. cbn. destruct (decide (c' = c)) as [->|Hne].
    + rewrite lookup_insert_eq. intros [= <-]. by destruct (Hr m f rest c cl).
    + rewrite lookup_insert_ne by done. eauto.
  - intros c' cl' Hc' Hst. destruct (decide (c' = c)) as [->|Hne]; cbn in Hc'.
    + rewrite lookup_insert_eq in Hc'. simplify_eq. by eapply Hw.
    + rewrite lookup_insert_ne in Hc' by done. by eapply Hw.
  - intros m. eapply jobInv_same; [| |by apply Hj]; [done|apply same_backend_Forall2_refl].
Qed.

Lemma step_input_inv σ c q :
  SysInv σ → sys_pc σ = MIdle → is_Some (clients (sys_srv σ) !! c) →
  keepsInv σ (onMain σ ((newInput c q ;; mret (MInput c None)) (sys_srv σ))) knownFault.
Proof.
  intros Hinv Hpc [cl Hc]. pose proof Hinv as [Hs _ _ _]. rewrite Hpc in Hs. cbn in Hs.
  apply (onMain_inv σ _ (λ pc s, SrvInv (viewOf σ) None None s ∧ is_Some (clients s !! c) ∧
    pc = MInput c None)).
  - wp_step. eapply wp_updClient; [done|]. wp_step.
    split_and!; [by apply SrvInv_input|by cbn; rewrite lookup_insert_eq|done].
  - intros pc s (Hs' & Hc' & ->). apply SysInv_main; rewrite ?Hpc; auto; [done|].
    by intros ?? [= <- <-].
Qed.

Lemma step_handler_inv σ m :
  SysInv σ → sys_pc σ = MIdle → (0 < sys_pipe σ m)%nat →
  keepsInv σ (onMain σ (startHandler m (sys_srv σ))) knownFault.
Proof.
  intros Hinv Hpc Hp. pose proof Hinv as [Hs Hpipe _ _]. specialize (Hpipe m). unfold pipeInv in Hpipe.
  rewrite Hpc in Hs, Hpipe. cbn in Hs, Hpipe.
  destruct (jobReturnKey m (sys_srv σ)) as [p|] eqn:Hret; [|cbn in Hpipe; lia].
  assert (jobKey m (sys_srv σ) = Some p) as Hk.
  { pose proof (si_job _ _ _ _ Hs m) as Hj. unfold jobInv in Hj.
    destruct (jobKey m (sys_srv σ)) as [p'|]; [|naive_solver].
    destruct Hj as [_ [?|?] _ _ _]; congruence. }
  assert (sys_worker σ m = Polling) as Hw.
  { destruct (si_worker _ _ _ _ Hs m) as [_ Hw]. cbn in Hw. rewrite Hret in Hw.
    destruct (sys_worker σ m); cbn in Hpipe, Hw; try done; [naive_solver..|lia]. }
  apply (onMain_inv σ _ (λ pc s, ∃ f l, SrvInv (viewOf σ) None (Some (m, f, l)) s ∧ pc = MHandle m f l)).
  - unfold startHandler. wp_step.
    eapply wp_mono; [|by apply (wp_handlerBegin (W:=viewOf σ) _ m p)].
    intros [f l] s [Hs' _]. wp_step. by exists f, l.
  - intros pc s (f & l & Hs' & ->). apply SysInv_main; rewrite ?Hpc; auto; [|done].
    intros m' f'. cbn. destruct (decide (m = m')) as [<-|]; [done|done].
Qed.

Lemma step_read_inv σ m :
  SysInv σ → sys_pc σ = MRead m → (0 < sys_pipe σ m)%nat →
  SysInv (mkSystem (sys_srv σ) (sys_db σ) (sys_worker σ)
            (<[m := pred (sys_pipe σ m)]> (sys_pipe σ)) MIdle).
Proof.
  intros [Hs Hpipe _ _] Hpc Hp. rewrite Hpc in Hs. split; cbn; [done| |done|done].
  intros m'. specialize (Hpipe m'). unfold pipeInv in *. rewrite Hpc in Hpipe. cbn in *.
  destruct (decide (m = m')) as [<-|Hne].
  - rewrite fn_lookup_insert. rewrite bool_decide_eq_true_2 in Hpipe by done. cbn in Hpipe. lia.
  - rewrite fn_lookup_insert_ne by done. by rewrite bool_decide_eq_false_2 in Hpipe.
Qed.

(** Changes of the environment, the configuration and the keyspaces. *)
Lemma step_quiet_inv σ s pc :
  SysInv σ → pc = sys_pc σ → srv_wf s → clients s = clients (sys_srv σ) → same_slots (sys_srv σ) s →
  Forall2 same_backend (dbs (sys_srv σ)) (dbs s) → SysInv (set_main s pc σ).
Proof.
  intros Hinv -> Hwf Hc Hsl Hd. pose proof Hinv as [Hs _ Hpoll Hcl].
  apply SysInv_main; auto; [by eapply SrvInv_keyspace|]. rewrite Hc. done.
Qed.

Lemma step_free_inv σ c :
  SysInv σ → sys_pc σ = MIdle → SysInv (set_main (freed c (sys_srv σ)) MIdle σ).
Proof.
  intros Hinv Hpc. pose proof Hinv as [Hs _ _ _]. rewrite Hpc in Hs.
  apply SysInv_main; rewrite ?Hpc; auto; [|done..]. by apply SrvInv_free.
Qed.

(** Freeing other clients while a client is served. *)
Lemma step_kill_inv σ c h cl l :
  SysInv σ → sys_pc σ = MInput c h → clients (sys_srv σ) !! c = Some cl →
  backend_state cl = CLIENT_BACKEND_NORMAL →
  keepsInv σ (onMain σ ((clientKill c l ;; mret (MInput c h)) (sys_srv σ))) knownFault.
Proof.
  intros Hinv Hpc Hc Hn. pose proof Hinv as [Hs _ Hpoll _]. rewrite Hpc in Hs, Hpoll. cbn in Hs.
  set (I := λ s, SrvInv (viewOf σ) None h s ∧
    ∃ cl, clients s !! c = Some cl ∧ backend_state cl = CLIENT_BACKEND_NORMAL).
  apply (onMain_inv σ _ (λ pc s, I s ∧ pc = MInput c h)).
  - wp_step. apply (wp_mono _ _ (λ _, I)); [intros [] s HI; by wp_step|]. unfold clientKill.
    apply wp_forM_inv; [split; eauto|]. intros v s _ [Hs' (cl' & Hc' & Hn')]. case_bool_decide as Hv.
    + eapply wp_updClient; [done|]. split.
      * eapply SrvInv_updNormal; [done..|]. by destruct (swf_clients s (si_wf _ _ _ _ Hs') c cl' Hc').
      * cbn. rewrite lookup_insert_eq. by eexists.
    + eapply wp_run_ok; [apply freeClient_run|]. split; [by apply SrvInv_free|].
      exists cl'. cbn. by rewrite lookup_delete_ne.
  - intros pc s [[Hs' (cl' & Hc' & _)] ->]. apply SysInv_main; rewrite ?Hpc; auto.
    intros ?? [= <- <-]. by eexists.
Qed.

Lemma step_connect_inv σ c auth :
  SysInv σ → sys_pc σ = MIdle → clients (sys_srv σ) !! c = None → dbs (sys_srv σ) ≠ [] →
  SysInv (set_main (set_clients (<[c := createClient auth]> (clients (sys_srv σ))) (sys_srv σ)) MIdle σ).
Proof.
  intros Hinv Hpc Hc Hd. pose proof Hinv as [Hs _ _ _]. rewrite Hpc in Hs. cbn in Hs.
  apply SysInv_main; rewrite ?Hpc; auto; [|done..]. cbn.
  eapply SrvInv_setClient; [done|done| | | | | |done|done]; cbn.
  - split; cbn; [|done]. destruct (dbs (sys_srv σ)); [done|cbn; lia].
  - intros i db m k l Hi Hl Hin.
    destruct (si_pend _ _ _ _ Hs i db m k l c) as [(cl & ? & _) _]; [done..|congruence].
  - apply not_elem_of_nil.
  - apply NoDup_nil_2.
  - intros c' Hin. by apply not_elem_of_nil in Hin.
Qed.

(** ** Steps of the working threads *)

(** A step that does not touch the server. *)
Lemma step_worker_local σ m w d signal :
  SysInv σ →
  workerOk (mkView (<[m := w]> (sys_worker σ)) (wv_returned (viewOf σ))) m (sys_srv σ) →
  (∀ f, handled (handlingOf (sys_pc σ)) m = Some f → w = Polling) →
  b2n (isSignalling (sys_worker σ m)) = (b2n (isSignalling w) + b2n signal)%nat →
  SysInv (mkSystem (sys_srv σ) d (<[m := w]> (sys_worker σ))
            (if signal then <[m := S (sys_pipe σ m)]> (sys_pipe σ) else sys_pipe σ) (sys_pc σ)).
Proof.
  intros [Hs Hpipe Hpoll Hcl] Hw Hh Hsig. split; cbn; [| | |done].
  - destruct Hs as [? ? ? ? ? ? ? Hwk]. split; auto. intros m'.
    destruct (decide (m = m')) as [<-|Hne]; [done|]. specialize (Hwk m'). unfold workerOk in *. cbn in *.
    by rewrite fn_lookup_insert_ne.
  - intros m'. specialize (Hpipe m'). unfold pipeInv in *. cbn.
    destruct (decide (m = m')) as [<-|Hne].
    + rewrite fn_lookup_insert. destruct signal; rewrite ?fn_lookup_insert; cbn in Hsig |- *; lia.
    + rewrite fn_lookup_insert_ne by done. by destruct signal; rewrite ?fn_lookup_insert_ne.
  - intros m' f Hf. destruct (decide (m = m')) as [<-|Hne].
    + rewrite fn_lookup_insert. by eapply Hh.
    + rewrite fn_lookup_insert_ne by done. by eapply Hpoll.
Qed.

(** The thread is not working for a job that is being handled. *)
Lemma handled_polling σ m w :
  SysInv σ → sys_worker σ m = w → w ≠ Polling → ∀ f, handled (handlingOf (sys_pc σ)) m ≠ Some f.
Proof. intros Hinv Hw Hne f Hf. apply Hne. rewrite <-Hw. by eapply inv_poll. Qed.

Lemma step_worker_poll σ m :
  SysInv σ → sys_worker σ m = Polling →
  keepsInv σ (onWorker m σ (workerStep m Polling (sys_db σ) (sys_srv σ))) knownFault.
Proof.
  intros Hinv Hw. pose proof Hinv as [Hs _ _ _].
  assert (SysInv (mkSystem (sys_srv σ) (sys_db σ) (<[m := Polling]> (sys_worker σ))
    (sys_pipe σ) (sys_pc σ))) as Hsame.
  { apply (step_worker_local σ m Polling (sys_db σ) false); [done| |done|by rewrite Hw].
    destruct (si_worker _ _ _ _ Hs m) as [Hr _]. split; [done|]. cbn. by rewrite fn_lookup_insert. }
  unfold workerStep, _getJobInWorkingThread. cbv [mbind M_bind get].
  destruct (jobReturnKey m (sys_srv σ)) as [p|] eqn:Hr; [done|].
  destruct (jobKey m (sys_srv σ)) as [k|] eqn:Hk; [|done]. cbn [serverAssert isNull].
  cbv [mret M_ret]. pose proof (si_job _ _ _ _ Hs m) as Hj. unfold jobInv in Hj. rewrite Hk in Hj.
  destruct Hj as [(i & db & Hi & Hdb & _) _ _ _ Hh].
  rewrite serverAssert_run by (apply lookup_lt_Some in Hdb; lia). cbn.
  apply (step_worker_local σ m (Taken (jobDbid m (sys_srv σ)) k) (sys_db σ) false); [done| | |by rewrite Hw].
  - split; cbn; [by rewrite negb_involutive|]. rewrite fn_lookup_insert. by rewrite Hr.
  - intros f Hf. destruct (Hh f Hf). congruence.
Qed.

(** The next state of a thread that has a job. *)
Lemma step_worker_next σ m w w' d :
  SysInv σ → sys_worker σ m = w →
  match w with Taken _ _ | Calling _ _ _ => True | _ => False end →
  match w' with
  | Calling k v _ => jobKey m (sys_srv σ) = Some k ∧
                     if decide (m = SET_MODE) then is_Some v ∧ valToBackend (setJob (sys_srv σ)) = v
                     else v = None
  | Answered k r => jobKey m (sys_srv σ) = Some k ∧ outcomeOf m r
  | _ => False
  end →
  SysInv (mkSystem (sys_srv σ) d (<[m := w']> (sys_worker σ)) (sys_pipe σ) (sys_pc σ)).
Proof.
  intros Hinv Hw Hcase Hw'. pose proof (si_worker _ _ _ _ (inv_srv _ Hinv) m) as [Hr Hwk].
  cbn in Hr, Hwk. rewrite Hw in Hwk. assert (w ≠ Polling) as Hne by by destruct w.
  apply (step_worker_local σ m w' d false); [done| | |].
  - split; cbn; [by rewrite negb_involutive|]. rewrite fn_lookup_insert. by destruct w, w'; naive_solver.
  - intros f Hf. by destruct (handled_polling σ m w Hinv Hw Hne f).
  - rewrite Hw. by destruct w, w'.
Qed.

(** Loading the value and the configuration. *)
Lemma step_worker_load σ m dbid k :
  SysInv σ → sys_worker σ m = Taken dbid k →
  keepsInv σ (onWorker m σ (workerStep m (Taken dbid k) (sys_db σ) (sys_srv σ))) knownFault.
Proof.
  intros Hinv Hw. pose proof (si_worker _ _ _ _ (inv_srv _ Hinv) m) as [_ Hwk]. cbn in Hwk.
  rewrite Hw in Hwk. destruct Hwk as (_ & Hk & _).
  unfold workerStep, takeValToBackend. cbv [mbind M_bind get gets].
  case_bool_decide as Hm; cbn.
  2:{ apply (step_worker_next σ m (Taken dbid k)); [done..|]. by rewrite decide_False. }
  subst m.
  pose proof (si_job _ _ _ _ (inv_srv _ Hinv) SET_MODE) as Hj. unfold jobInv in Hj.
  rewrite Hk in Hj. destruct (ou_setval _ _ _ _ Hj eq_refl) as [v Hv]. rewrite Hv. cbn.
  apply (step_worker_next σ SET_MODE (Taken dbid k)); [done..|]. rewrite decide_True by done. eauto.
Qed.

(** The backend call. *)
Lemma backendCall_outcome m k v a cf d :
  (if decide (m = SET_MODE) then is_Some v else v = None) →
  match backendCall m k v a cf d with
  | Ok (r, _) => outcomeOf m r
  | Fault f => f = AssertFailed "_implementGetJobByBackendInWorkingThread" ∨
               argsLive m a cf d = false ∧ f = UseAfterFree (argsSite m)
  end.
Proof.
  intros Hv. unfold backendCall, _implementGetJobByBackendInWorkingThread,
    _implementSetJobByBackendInWorkingThread, _implementDelJobByBackendInWorkingThread.
  destruct m; [rewrite decide_False in Hv by done|rewrite decide_True in Hv by done; destruct Hv as [u ->]
    |rewrite decide_False in Hv by done];
    (destruct (argsLive _ a cf d); cbn [negb]; [|by right]); repeat case_match; simplify_eq; cbn; auto.
Qed.

Lemma step_worker_call σ m k v a :
  SysInv σ → sys_worker σ m = Calling k v a →
  keepsInv σ (onWorker m σ (workerStep m (Calling k v a) (sys_db σ) (sys_srv σ))) (workerFault m σ).
Proof.
  intros Hinv Hw. pose proof (si_worker _ _ _ _ (inv_srv _ Hinv) m) as [_ Hwk]. cbn in Hwk.
  rewrite Hw in Hwk. destruct Hwk as (_ & Hk & Hv).
  pose proof (backendCall_outcome m k v a (cfg (sys_srv σ)) (sys_db σ)) as Hout.
  unfold workerStep, liftRes. cbv [mbind M_bind get].
  destruct (backendCall m k v a (cfg (sys_srv σ)) (sys_db σ)) as [[r d]|f]; cbn.
  - apply (step_worker_next σ m (Calling k v a)); [done..|]. split; [done|]. apply Hout.
    case_decide; [by destruct Hv|done].
  - destruct Hout as [->|[Hlive ->]]; [case_decide; [by destruct Hv|done]|by left; right; right; left|].
    right. split; [|done]. by exists k, v, a.
Qed.

(** Returning the result. *)
Lemma returnJob_run m k r s :
  srv_wf s → jobKey m s = Some k → jobReturnKey m s = None → outcomeOf m r →
  ∃ s', returnJob m k r s = Ok (tt, s') ∧ same_but_slot m s s' ∧ jobKey m s' = Some k ∧
    jobReturnKey m s' = Some k ∧ jobDbid m s' = jobDbid m s ∧
    valToBackend (setJob s') = valToBackend (setJob s).
Proof.
  intros Hwf Hk Hr Ho. unfold returnJob. cbv [mbind M_bind get]. rewrite Hk, Hr.
  rewrite serverAssert_run by by rewrite bool_decide_eq_true_2.
  assert (∀ s', dbs s' = dbs s → clients s' = clients s → srv_wf s') as Hwf'.
  { intros. by eapply srv_wf_eq. }
  destruct m, r; try done; cbv [modify]; (eexists; split; [reflexivity|]);
    unfold same_but_slot; cbn in Hk |- *; (split_and!; auto).
Qed.

Lemma step_worker_return σ m k r :
  SysInv σ → sys_worker σ m = Answered k r →
  keepsInv σ (onWorker m σ (workerStep m (Answered k r) (sys_db σ) (sys_srv σ))) knownFault.
Proof.
  intros Hinv Hw. pose proof Hinv as [Hs Hpipe Hpoll Hcl].
  destruct (si_worker _ _ _ _ Hs m) as [Hr Hwk]. cbn in Hr, Hwk. rewrite Hw in Hwk.
  destruct Hwk as (Hret & Hk & Ho). set (s := sys_srv σ) in *.
  destruct (jobReturnKey m s) as [?|] eqn:Hnone; [done|]. clear Hret.
  assert (∀ f, handled (handlingOf (sys_pc σ)) m ≠ Some f) as Hnh.
  { by apply (handled_polling σ m (Answered k r)). }
  destruct (returnJob_run m k r s) as (s' & Hrun & Hslot & Hk' & Hr' & Hi' & Hv'); [apply Hs|done..|].
  unfold workerStep. cbv [mbind M_bind get]. rewrite Hrun. cbn.
  pose proof (si_job _ _ _ _ Hs m) as Hj. unfold jobInv in Hj. rewrite Hk in Hj.
  assert (∀ m', m' ≠ m → jobReturnKey m' s' = jobReturnKey m' s) as Hother.
  { intros m' Hne. by destruct (same_but_slot_eq m m' s s' Hne Hslot) as (_ & -> & _). }
  pose proof Hslot as (_ & Hdbs & Hclients & _).
  split; cbn.
  - eapply (SrvInv_slot _ None None); [done|done|by left|done| |by left| | |exact Hs]; cbn.
    + intros m' Hne. by rewrite fn_lookup_insert_ne, Hother.
    + unfold jobInv. rewrite Hk'. destruct Hj as [(i & db & Hi & Hdb & Hpd) _ _ Hsv _].
      split; rewrite ?Hr', ?Hi', ?Hv', ?Hdbs; [by exists i, db|by right|done|done|].
      intros f Hf. by destruct (Hnh f).
    + split; cbn; [by rewrite Hr'|]. by rewrite fn_lookup_insert, Hr'.
  - intros m'. specialize (Hpipe m'). unfold pipeInv in *. cbn. fold s in Hpipe.
    destruct (decide (m = m')) as [<-|Hne].
    + rewrite fn_lookup_insert, Hr'. rewrite Hw, Hnone in Hpipe. cbn in Hpipe |- *. lia.
    + by rewrite fn_lookup_insert_ne, Hother by done.
  - intros m' f Hf. destruct (decide (m = m')) as [<-|Hne]; [by destruct (Hnh f)|].
    rewrite fn_lookup_insert_ne by done. by eapply Hpoll.
  - rewrite Hclients. done.
Qed.

Lemma step_worker_signal σ m :
  SysInv σ → sys_worker σ m = Signalling →
  keepsInv σ (onWorker m σ (workerStep m Signalling (sys_db σ) (sys_srv σ))) knownFault.
Proof.
  intros Hinv Hw. apply (step_worker_local σ m Polling (sys_db σ) true); [done| |done|by rewrite Hw].
  destruct (si_worker _ _ _ _ (inv_srv _ Hinv) m) as [Hr _]. split; [done|]. cbn.
  by rewrite fn_lookup_insert.
Qed.

Lemma step_worker_inv σ m :
  SysInv σ →
  keepsInv σ (onWorker m σ (workerStep m (sys_worker σ m) (sys_db σ) (sys_srv σ))) (workerFault m σ).
Proof.
  intros Hinv. assert (∀ f, knownFault f → workerFault m σ f) as Hf by by left.
  destruct (sys_worker σ m) as [|dbid k|k v a|k r|] eqn:Hw; [..|].
  - by eapply keepsInv_mono, step_worker_poll.
  - by eapply keepsInv_mono, step_worker_load.
  - by apply step_worker_call.
  - by eapply keepsInv_mono, step_worker_return.
  - by eapply keepsInv_mono, step_worker_signal.
Qed.

(** ** Every step keeps the invariant *)

Lemma step_busy_inv (O : CandidateOrder) σ :
  SysInv σ → busy (sys_pc σ) = true →
  keepsInv σ (onMain σ (mainStep (sys_pc σ) (sys_srv σ))) (stepFault σ).
Proof.
  intros Hinv Hb. assert (∀ f, knownFault f → stepFault σ f) as Hf by (right; exists GET_MODE; by left).
  destruct (sys_pc σ) as [|c h|m f [|c rest]|m] eqn:Hpc; try done.
  - by eapply keepsInv_mono, mainStep_input.
  - by eapply keepsInv_mono, mainStep_end.
  - destruct (clients (sys_srv σ) !! c) as [cl|] eqn:Hc; [by eapply keepsInv_mono, mainStep_resume|].
    rewrite mainStep_freed by done. left. split; [|done]. by exists m, f, c, rest.
Qed.

Lemma step_inv σ r : SysInv σ → step σ r → keepsInv σ r (stepFault σ).
Proof.
  intros Hinv Hstep. pose proof (si_wf _ _ _ _ (inv_srv _ Hinv)) as Hwf.
  assert (∀ f, knownFault f → stepFault σ f) as Hf by (right; exists GET_MODE; by left).
  destruct Hstep as [O Hb|c q Hpc Hc|m Hpc Hp|m Hpc Hp|c auth Hpc Hc Hd|c Hpc|c h cl l Hpc Hc Hn Hl
    |g gd|cf Hpc Hcf|o v Hpc|l Hpc Hl Hd|m].
  - by apply step_busy_inv.
  - by eapply keepsInv_mono, step_input_inv.
  - by eapply keepsInv_mono, step_handler_inv.
  - by apply step_read_inv.
  - by apply step_connect_inv.
  - by apply step_free_inv.
  - by eapply keepsInv_mono, step_kill_inv.
  - apply step_quiet_inv; [done|done|by destruct Hwf|done|done|apply same_backend_Forall2_refl].
  - apply step_quiet_inv; [done|done|by destruct Hwf|done|done|apply same_backend_Forall2_refl].
  - apply step_quiet_inv; [done|done|by destruct Hwf|done|done|apply same_backend_Forall2_refl].
  - apply step_quiet_inv; [done|done| |done|done|done]. destruct Hwf as [_ Hcw]. split; [done|]. cbn.
    by rewrite <-(Forall2_length _ _ _ Hd).
  - eapply keepsInv_mono, step_worker_inv; [|done]. intros f ?. right. by exists m.
Qed.

Lemma pending_emptyDb m k : pendingClients m emptyDb k = None.
Proof. destruct m; cbn; by rewrite lookup_empty. Qed.

Lemma emptyDb_ok : db_ok emptyDb.
Proof.
  split; [intros k [x Hx]|intros k o Hx _]; unfold emptyDb in Hx; cbn [dict expires] in Hx;
    by rewrite lookup_empty in Hx.
Qed.

Lemma initial_inv σ : initial σ → SysInv σ.
Proof.
  intros (g & gd & cf & n & d & ->).
  assert (∀ i db m k, replicate n emptyDb !! i = Some db → pendingClients m db k = None) as Hnone.
  { intros i db m k [-> _]%lookup_replicate. apply pending_emptyDb. }
  split; cbn; [|by intros []|done|done]. split; cbn; try done.
  - split; cbn; [|by apply map_Forall_empty]. apply Forall_replicate, emptyDb_ok.
  - intros i db m k l Hi. by rewrite (Hnone i db).
  - intros i db m k l c Hi. by rewrite (Hnone i db).
  - apply NoDup_nil_2.
  - intros m. unfold jobInv. destruct m; cbn; (split_and!; [done..|]); intros _ i db k; by apply Hnone.
  - intros m. by destruct m.
Qed.

Lemma reachable_inv σ : reachable σ → SysInv σ.
Proof.
  intros (σ0 & Hinit & Hsteps). apply initial_inv in Hinit. induction Hsteps as [|σ1 σ2 σ3 Hstep _ IH]; [done|].
  apply IH. by apply (step_inv _ _ Hinit) in Hstep.
Qed.

End System.
