(* ===== verification/BackendRuns.v ===== *)
(** * BackendRuns: executing the system

    A concrete database (a key-value table behind SOCI), a concrete visiting
    order of the pending keys, and an executable schedule of steps.  The
    theorems here are about short complete executions; BackendProps.v uses the
    same instances as witnesses. *)

From Stdlib Require Import Ascii String.
From stdpp Require Import base tactics option list strings numbers gmap fin_maps functions relations.
From S2P Require Import Prelude Util Object Db Server TString StringProps Backend BackendWorker BackendInv BackendExec BackendSystem.

Local Open Scope Z_scope.

(** ** Instances *)

(** A table behind SOCI's MySQL backend; the statements are not interpreted. *)
Definition tableDatabase : Database :=
  {| dbState := gmap bytes bytes;
     soci_open := λ name _ _, String.eqb name "mysql";
     soci_query := λ _ _ _ key d, (match d !! key with Some v => RowOk v | None => NoRow end, d);
     soci_update := λ _ _ _ key val d, (true, <[key := val]> d);
     soci_delete := λ _ _ _ key d, (true, delete key d);
     grpc_GetString := λ _ key d, ((λ v, (v, 0)) <$> d !! key, d) |}.

(** The same database when every statement fails. *)
Definition brokenDatabase : Database :=
  {| dbState := gmap bytes bytes;
     soci_open := λ _ _ _, true;
     soci_query := λ _ _ _ _ d, (Throws, d);
     soci_update := λ _ _ _ _ _ d, (false, d);
     soci_delete := λ _ _ _ _ d, (false, d);
     grpc_GetString := λ _ _ d, (None, d) |}.

Definition firstKey {V} (m : gmap bytes V) : option bytes := fst <$> head (map_to_list m).

Lemma firstKey_elem V (m : gmap bytes V) k : firstKey m = Some k → is_Some (m !! k).
Proof.
  unfold firstKey. intros ([k' v] & Hh & ->)%fmap_Some. exists v. apply elem_of_map_to_list.
  apply head_Some in Hh as [l ->]. by left.
Qed.

Lemma firstKey_none V (m : gmap bytes V) : firstKey m = None → m = ∅.
Proof. unfold firstKey. intros Hh%fmap_None%head_None. by apply map_to_list_empty_iff. Qed.

Definition firstOrder : CandidateOrder :=
  {| dictFirst := @firstKey; dictFirst_elem := firstKey_elem; dictFirst_none := firstKey_none |}.

(** ** Executable steps *)

Inductive action :=
  | AConnect (c : clientId)
  | AInput (c : clientId) (q : list (list bytes))
  | AMain                       (* the main thread goes on, outside the event loop *)
  | AHandler (m : mode)
  | ARead
  | AWorker (m : mode)
  | AKill (c v : clientId)                    (* CLIENT KILL of v, by c *)
  | AConfigSet (o : stringOption) (v : bytes).

Section Exec.
Context `{OtherCommands, Database, CandidateOrder}.

Definition idle (pc : mainpc) : bool := match pc with MIdle => true | _ => false end.

(** [None]: the action is not enabled. *)
Definition execAction (a : action) (σ : system) : option (res system) :=
  match a with
  | AConnect c =>
      if idle (sys_pc σ) && isNull (clients (sys_srv σ) !! c) &&
         negb (bool_decide (length (dbs (sys_srv σ)) = 0%nat))
      then Some (Ok (set_main (set_clients (<[c := createClient true]> (clients (sys_srv σ))) (sys_srv σ))
                       MIdle σ)) else None
  | AInput c q =>
      if idle (sys_pc σ) && negb (isNull (clients (sys_srv σ) !! c))
      then Some (onMain σ ((newInput c q ;; mret (MInput c None)) (sys_srv σ))) else None
  | AMain =>
      if busy (sys_pc σ) then Some (onMain σ (mainStep (sys_pc σ) (sys_srv σ))) else None
  | AHandler m =>
      if idle (sys_pc σ) && bool_decide (0 < sys_pipe σ m)%nat
      then Some (onMain σ (startHandler m (sys_srv σ))) else None
  | ARead =>
      match sys_pc σ with
      | MRead m =>
          if bool_decide (0 < sys_pipe σ m)%nat
          then Some (Ok (mkSystem (sys_srv σ) (sys_db σ) (sys_worker σ)
                           (<[m := pred (sys_pipe σ m)]> (sys_pipe σ)) MIdle))
          else None
      | _ => None
      end
  | AWorker m => Some (onWorker m σ (workerStep m (sys_worker σ m) (sys_db σ) (sys_srv σ)))
  | AKill c v =>
      match sys_pc σ, clients (sys_srv σ) !! c, clients (sys_srv σ) !! v with
      | MInput c' h, Some cl, Some _ =>
          if bool_decide (c' = c) && bool_decide (backend_state cl = CLIENT_BACKEND_NORMAL)
          then Some (onMain σ ((clientKill c [v] ;; mret (MInput c h)) (sys_srv σ))) else None
      | _, _, _ => None
      end
  | AConfigSet o v =>
      if betweenRequests (sys_pc σ)
      then Some (onMain σ ((stringConfigSet o v ;; mret (sys_pc σ)) (sys_srv σ))) else None
  end.

Lemma idle_eq pc : idle pc = true → pc = MIdle.
Proof. by destruct pc. Qed.

Lemma execAction_step a σ r : execAction a σ = Some r → step σ r.
Proof.
  destruct a as [c|c q| |m| |m|c v|o v]; cbn [execAction].
  - case_match eqn:Hg; [|done]. intros [= <-]. apply andb_true_iff in Hg as [[Hi Hc]%andb_true_iff Hd].
    apply step_connect; [by apply idle_eq|by destruct (clients _ !! c)|].
    intros Hnil. by rewrite Hnil in Hd.
  - case_match eqn:Hg; [|done]. intros [= <-]. apply andb_true_iff in Hg as [Hi Hc].
    apply step_input; [by apply idle_eq|by destruct (clients _ !! c)].
  - case_match eqn:Hb; [|done]. intros [= <-]. by apply step_main.
  - case_match eqn:Hg; [|done]. intros [= <-]. apply andb_true_iff in Hg as [Hi Hp].
    apply step_handler; [by apply idle_eq|by apply bool_decide_eq_true in Hp].
  - destruct (sys_pc σ) eqn:Hpc; try done. case_bool_decide; [|done]. intros [= <-]. by apply step_read.
  - intros [= <-]. apply step_worker.
  - destruct (sys_pc σ) as [|c' h| |] eqn:Hpc; try done.
    destruct (clients _ !! c) as [cl|] eqn:Hc; [|done]. destruct (clients _ !! v) eqn:Hv; [|done].
    case_match eqn:Hg; [|done]. intros [= <-]. apply andb_true_iff in Hg as [Hcc Hn].
    apply bool_decide_eq_true in Hcc as ->. apply bool_decide_eq_true in Hn.
    eapply step_kill; [done..|]. apply Forall_singleton. by rewrite Hv.
  - case_match eqn:Hb; [|done]. intros [= <-]. by apply step_config_string.
Qed.

(** Running a schedule; it stops at the first fault. *)
Fixpoint execAll (l : list action) (σ : system) : option (res system) :=
  match l with
  | [] => Some (Ok σ)
  | a :: l =>
      match execAction a σ with
      | Some (Ok σ') => execAll l σ'
      | Some (Fault f) => Some (Fault f)
      | None => None
      end
  end.

Lemma execAll_ok l σ σ' : execAll l σ = Some (Ok σ') → rtc (λ σ σ', step σ (Ok σ')) σ σ'.
Proof.
  revert σ. induction l as [|a l IH]; intros σ; cbn; [by intros [= <-]|].
  destruct (execAction a σ) as [[σ1|f]|] eqn:Ha; [|done..].
  intros Hl. eapply rtc_l; [by apply (execAction_step a)|by apply IH].
Qed.

Lemma execAll_fault l σ f : execAll l σ = Some (Fault f) →
  ∃ σ', rtc (λ σ σ', step σ (Ok σ')) σ σ' ∧ step σ' (Fault f).
Proof.
  revert σ. induction l as [|a l IH]; intros σ; cbn; [done|].
  destruct (execAction a σ) as [[σ1|f']|] eqn:Ha; [| |done].
  - intros (σ' & ? & ?)%IH. exists σ'. split; [|done]. eapply rtc_l; [by apply (execAction_step a)|done].
  - intros [= ->]. exists σ. split; [done|]. by apply execAction_step in Ha.
Qed.

End Exec.

(** ** Starting states *)

#[local] Existing Instance noOther.
#[local] Existing Instance firstOrder.

(** A server in front of a MySQL table, all three modes synchronous. *)
Definition syncConfig : settings :=
  mkSettings Mysql (B "host=db") (B "select") (B "replace") (B "delete") true true true 0.

Definition startServer (cf : settings) : server :=
  initServer (mkEnv false false 1000) openGuards cf 2.

Definition startSystem `{Database} (cf : settings) (d : dbState) : system :=
  mkSystem (startServer cf) d (λ _, Polling) (λ _, 0%nat) MIdle.

Lemma startSystem_initial `{Database} cf d : initial (startSystem cf d).
Proof. repeat eexists. Qed.

(** The steps of a working thread for one job, and those of the handler for a job
    with [n] steps of resumed clients. *)
Definition workerJob (m : mode) : list action :=
  replicate 5 (AWorker m).

Definition handleJob (m : mode) (n : nat) : list action :=
  AHandler m :: replicate n AMain ++ [AMain; ARead].

(** What a client has been answered, what a database of the server holds, and
    what the table holds. *)
Definition answers `{Database} (c : clientId) (σ : system) : list reply :=
  match clients (sys_srv σ) !! c with Some cl => c_reply cl | None => [] end.

Definition cached `{Database} (i : nat) (k : bytes) (σ : system) : option robj :=
  dbs (sys_srv σ) !! i ≫= λ db, dict db !! k.

Lemma run_reachable `{Database} cf d l (P : system → bool) :
  match execAll l (startSystem cf d) with Some (Ok σ) => P σ | _ => false end = true →
  ∃ σ, reachable σ ∧ P σ = true.
Proof.
  destruct (execAll l (startSystem cf d)) as [[σ|f]|] eqn:Hl; [|done..]. intros HP. exists σ.
  split; [|done]. exists (startSystem cf d). split; [apply startSystem_initial|].
  by apply execAll_ok in Hl.
Qed.

Lemma run_fault `{Database} cf d l f :
  match execAll l (startSystem cf d) with Some (Fault f') => bool_decide (f' = f) | _ => false end = true →
  ∃ σ, reachable σ ∧ step σ (Fault f).
Proof.
  destruct (execAll l (startSystem cf d)) as [[σ|f']|] eqn:Hl; [done| |done].
  intros ->%bool_decide_eq_true. apply execAll_fault in Hl as (σ & ? & ?). exists σ.
  split; [|done]. exists (startSystem cf d). split; [apply startSystem_initial|done].
Qed.

(** A request and its processing until the client is parked or answered. *)
Definition request (c : clientId) (args : list bytes) : list action := [AInput c [args]; AMain; AMain].

(** A SET through the backend, until the client is answered. *)
Definition setThrough (c : clientId) (args : list bytes) : list action :=
  request c args ++ workerJob SET_MODE ++ handleJob SET_MODE 2.

#[global] Instance reply_eq_dec : EqDecision reply.
Proof. solve_decision. Defined.

Section Table.
#[local] Existing Instance tableDatabase.

(** A reachable state of the server where a SETEX whose TTL equals the value of a
    pending SET of the same key stops the server at the assertion of
    _addKeyToBackendKeys: the test that should prevent it compares the pending value
    with argv[2], which is the TTL. *)
Theorem setex_on_pending_set_crashes :
  ∃ σ : system, reachable σ ∧ step σ (Fault (AssertFailed "_addKeyToBackendKeys")).
Proof.
  apply (run_fault syncConfig ∅
    ([AConnect 1; AConnect 2] ++ request 1 [B "SET"; B "k"; B "10"] ++
     [AInput 2 [[B "SETEX"; B "k"; B "10"; B "v"]]; AMain])).
  vm_compute. reflexivity.
Qed.

(** A reachable state where a SET of a key that holds an integer reads through the
    integer as a string pointer in _isSameValueInDbForSet. *)
Theorem set_over_integer_crashes :
  ∃ σ : system, reachable σ ∧ step σ (Fault (BadPointer "_isSameValueInDbForSet")).
Proof.
  apply (run_fault syncConfig ∅
    ([AConnect 1] ++ setThrough 1 [B "SET"; B "k"; B "1"] ++ [AInput 1 [[B "SET"; B "k"; B "2"]]; AMain])).
  vm_compute. reflexivity.
Qed.

(** A reachable state where the working thread stops the server because the
    database holds the empty string for the requested key. *)
Theorem empty_value_crashes :
  ∃ σ : system, reachable σ ∧
    step σ (Fault (AssertFailed "_implementGetJobByBackendInWorkingThread")).
Proof.
  apply (run_fault syncConfig {[ B "k" := [] ]}
    ([AConnect 1] ++ request 1 [B "GET"; B "k"] ++ replicate 3 (AWorker GET_MODE))).
  vm_compute. reflexivity.
Qed.

(** A reachable state where a completion resumes a client that has been freed: two
    clients wait for a key, and the first one, resumed, kills the second one. *)
Theorem killed_waiter_crashes : ∃ σ : system, reachable σ ∧ step σ (Fault (UseAfterFree "client")).
Proof.
  apply (run_fault syncConfig ∅
    ([AConnect 1; AConnect 2] ++ request 1 [B "GET"; B "k"] ++ request 2 [B "GET"; B "k"] ++
     workerJob GET_MODE ++ [AHandler GET_MODE; AMain; AKill 1 2; AMain; AMain])).
  vm_compute. reflexivity.
Qed.

(** A reachable state where a working thread reads a string of the configuration that
    CONFIG SET has freed. *)
Theorem config_set_frees_under_worker :
  ∃ σ : system, reachable σ ∧ step σ (Fault (UseAfterFree "redisoo_get")).
Proof.
  apply (run_fault syncConfig ∅
    ([AConnect 1] ++ request 1 [B "GET"; B "k"] ++ replicate 2 (AWorker GET_MODE) ++
     [AConfigSet OptGet (B "select v"); AWorker GET_MODE])).
  vm_compute. reflexivity.
Qed.

(** A run of the server in which a successful synchronous SETNX of a new key is
    answered 0: the completion stores the key before the command runs again and
    finds it. *)
Theorem setnx_success_answers_zero :
  ∃ σ : system, reachable σ ∧ answers 1 σ = [RInt 0] ∧ sys_db σ !! B "k" = Some (B "x") ∧
    cached 0 (B "k") σ = Some (createStringObject (B "x")).
Proof.
  destruct (run_reachable syncConfig ∅ ([AConnect 1] ++ setThrough 1 [B "SETNX"; B "k"; B "x"])
    (λ σ, bool_decide (answers 1 σ = [RInt 0] ∧ sys_db σ !! B "k" = Some (B "x") ∧
            cached 0 (B "k") σ = Some (createStringObject (B "x"))))) as (σ & ? & HP).
  { vm_compute. reflexivity. }
  exists σ. by apply bool_decide_eq_true in HP.
Qed.

(** A run in which SET with NX on an existing key is answered with the null reply
    and yet replaces the value in the database and in the cache. *)
Theorem set_nx_on_existing_key_overwrites :
  ∃ σ : system, reachable σ ∧ answers 1 σ = [ROk; RNull 2] ∧
    sys_db σ !! B "k" = Some (B "new") ∧
    cached 0 (B "k") σ = Some (createStringObject (B "new")).
Proof.
  destruct (run_reachable syncConfig ∅
    ([AConnect 1] ++ setThrough 1 [B "SET"; B "k"; B "old"] ++
     setThrough 1 [B "SET"; B "k"; B "new"; B "NX"])
    (λ σ, bool_decide (answers 1 σ = [ROk; RNull 2] ∧ sys_db σ !! B "k" = Some (B "new") ∧
            cached 0 (B "k") σ = Some (createStringObject (B "new"))))) as (σ & ? & HP).
  { vm_compute. reflexivity. }
  exists σ. by apply bool_decide_eq_true in HP.
Qed.

(** A run in which a SET that was answered OK is in neither the database nor the
    cache: it came with another value while a SET of the same key was pending,
    skipped the backend, and was overwritten in the cache by the completion. *)
Theorem acknowledged_set_is_lost :
  ∃ σ : system, reachable σ ∧ answers 1 σ = [ROk] ∧ answers 2 σ = [ROk] ∧
    sys_db σ !! B "k" = Some (B "first") ∧
    cached 0 (B "k") σ = Some (createStringObject (B "first")).
Proof.
  destruct (run_reachable syncConfig ∅
    ([AConnect 1; AConnect 2] ++ request 1 [B "SET"; B "k"; B "first"] ++
     request 2 [B "SET"; B "k"; B "second"] ++ workerJob SET_MODE ++ handleJob SET_MODE 2)
    (λ σ, bool_decide (answers 1 σ = [ROk] ∧ answers 2 σ = [ROk] ∧
            sys_db σ !! B "k" = Some (B "first") ∧
            cached 0 (B "k") σ = Some (createStringObject (B "first"))))) as (σ & ? & HP).
  { vm_compute. reflexivity. }
  exists σ. by apply bool_decide_eq_true in HP.
Qed.

End Table.

(** A table that refuses one key. *)
Definition flakyDatabase : Database :=
  {| dbState := gmap bytes bytes;
     soci_open := λ _ _ _, true;
     soci_query := λ _ _ _ key d, (match d !! key with Some v => RowOk v | None => NoRow end, d);
     soci_update := λ _ _ _ key val d,
       if bool_decide (key = B "bad") then (false, d) else (true, <[key := val]> d);
     soci_delete := λ _ _ _ key d, (true, delete key d);
     grpc_GetString := λ _ _ d, (None, d) |}.

Section Flaky.
#[local] Existing Instance flakyDatabase.

(** A run in which a SET that the database accepted is answered with the null
    reply: the failure flag of an earlier SET with an invalid expire time was never
    cleared. *)
Theorem failure_flag_survives_an_invalid_expire :
  ∃ σ : system, reachable σ ∧
    answers 1 σ = [RError "value is not an integer or out of range"; RNull 2] ∧
    sys_db σ !! B "good" = Some (B "v") ∧
    cached 0 (B "good") σ = Some (createStringObject (B "v")).
Proof.
  destruct (run_reachable syncConfig ∅
    ([AConnect 1] ++ setThrough 1 [B "SET"; B "bad"; B "v"; B "EX"; B "abc"] ++
     setThrough 1 [B "SET"; B "good"; B "v"])
    (λ σ, bool_decide (answers 1 σ = [RError "value is not an integer or out of range"; RNull 2] ∧
            sys_db σ !! B "good" = Some (B "v") ∧
            cached 0 (B "good") σ = Some (createStringObject (B "v"))))) as (σ & ? & HP).
  { vm_compute. reflexivity. }
  exists σ. by apply bool_decide_eq_true in HP.
Qed.

End Flaky.

(** ** Some reachable states, for the witnesses *)

Definition parkedRun : list action := [AConnect 1] ++ request 1 [B "GET"; B "k"].

Definition theSystem (r : option (res (@system tableDatabase))) : @system tableDatabase :=
  match r with
  | Some (Ok σ) => σ
  | _ => @startSystem tableDatabase syncConfig ∅
  end.

(** Client 1 waits for key k, which the table has. *)
Definition parkedSystem : @system tableDatabase :=
  theSystem (@execAll noOther tableDatabase firstOrder parkedRun
               (@startSystem tableDatabase syncConfig {[ B "k" := B "v" ]})).

Lemma theSystem_reachable l cf d :
  match @execAll noOther tableDatabase firstOrder l (@startSystem tableDatabase cf d) with
  | Some (Ok _) => true | _ => false
  end = true →
  @reachable noOther tableDatabase
    (theSystem (@execAll noOther tableDatabase firstOrder l (@startSystem tableDatabase cf d))).
Proof.
  destruct (execAll _ _) as [[σ|f]|] eqn:Hl; [|done..]. intros _.
  exists (@startSystem tableDatabase cf d). split; [apply startSystem_initial|].
  by apply execAll_ok in Hl.
Qed.

Lemma parkedSystem_reachable : @reachable noOther tableDatabase parkedSystem.
Proof. apply theSystem_reachable. vm_compute. reflexivity. Qed.

(** The thread has returned the value of k and written to the pipe. *)
Definition returnedSystem : @system tableDatabase :=
  theSystem (@execAll noOther tableDatabase firstOrder (parkedRun ++ workerJob GET_MODE)
               (@startSystem tableDatabase syncConfig {[ B "k" := B "v" ]})).

Lemma returnedSystem_reachable : @reachable noOther tableDatabase returnedSystem.
Proof. apply theSystem_reachable. vm_compute. reflexivity. Qed.

(** The same when the table does not have the key. *)
Definition missedSystem : @system tableDatabase :=
  theSystem (@execAll noOther tableDatabase firstOrder (parkedRun ++ workerJob GET_MODE)
               (@startSystem tableDatabase syncConfig ∅)).

Lemma missedSystem_reachable : @reachable noOther tableDatabase missedSystem.
Proof. apply theSystem_reachable. vm_compute. reflexivity. Qed.

(** A SET whose backend call fails: the Oracle backend does not open. *)
Definition failedSystem : @system tableDatabase :=
  theSystem (@execAll noOther tableDatabase firstOrder
    ([AConnect 1] ++ request 1 [B "SET"; B "k"; B "v"] ++ workerJob SET_MODE)
    (@startSystem tableDatabase
       (mkSettings Oracle (B "host=db") (B "select") (B "replace") [] true true true 0) ∅)).

Lemma failedSystem_reachable : @reachable noOther tableDatabase failedSystem.
Proof. apply theSystem_reachable. vm_compute. reflexivity. Qed.

(** Client 1 has sent GET k, which is not executed yet. *)
Definition askedSystem : @system tableDatabase :=
  theSystem (@execAll noOther tableDatabase firstOrder [AConnect 1; AInput 1 [[B "GET"; B "k"]]]
               (@startSystem tableDatabase syncConfig {[ B "k" := B "v" ]})).

Lemma askedSystem_reachable : @reachable noOther tableDatabase askedSystem.
Proof. apply theSystem_reachable. vm_compute. reflexivity. Qed.

(** A SET that the table has accepted. *)
Definition writtenSystem : @system tableDatabase :=
  theSystem (@execAll noOther tableDatabase firstOrder
    ([AConnect 1] ++ request 1 [B "SET"; B "k"; B "v"] ++ workerJob SET_MODE)
    (@startSystem tableDatabase syncConfig ∅)).

Lemma writtenSystem_reachable : @reachable noOther tableDatabase writtenSystem.
Proof. apply theSystem_reachable. vm_compute. reflexivity. Qed.

(** Clients 1 and 2 wait for key k; client 1 is resumed, kills client 2, and has no
    more requests. *)
Definition killedSystem : @system tableDatabase :=
  theSystem (@execAll noOther tableDatabase firstOrder
    ([AConnect 1; AConnect 2] ++ request 1 [B "GET"; B "k"] ++ request 2 [B "GET"; B "k"] ++
     workerJob GET_MODE ++ [AHandler GET_MODE; AMain; AKill 1 2; AMain])
    (@startSystem tableDatabase syncConfig ∅)).

Lemma killedSystem_reachable : @reachable noOther tableDatabase killedSystem.
Proof. apply theSystem_reachable. vm_compute. reflexivity. Qed.

(** The completion of a GET has stored the value, and the client is not yet resumed. *)
Definition resumingSystem : @system tableDatabase :=
  theSystem (@execAll noOther tableDatabase firstOrder
    (parkedRun ++ workerJob GET_MODE ++ [AHandler GET_MODE])
    (@startSystem tableDatabase syncConfig {[ B "k" := B "v" ]})).

Lemma resumingSystem_reachable : @reachable noOther tableDatabase resumingSystem.
Proof. apply theSystem_reachable. vm_compute. reflexivity. Qed.

(** A SET of k is pending, and client 2 has sent another one, not executed yet. *)
Definition conflictSystem : @system tableDatabase :=
  theSystem (@execAll noOther tableDatabase firstOrder
    ([AConnect 1; AConnect 2] ++ request 1 [B "SET"; B "k"; B "first"] ++
     [AInput 2 [[B "SET"; B "k"; B "second"]]])
    (@startSystem tableDatabase syncConfig ∅)).

Lemma conflictSystem_reachable : @reachable noOther tableDatabase conflictSystem.
Proof. apply theSystem_reachable. vm_compute. reflexivity. Qed.
