(* ===== verification/BackendProps.v ===== *)
(** * BackendProps: what the cache-through server guarantees

    Theorems on every reachable state of BackendSystem.v: which assertions can
    fail, where the parked clients wait, that no pending key is forgotten, that a
    handler never blocks on its pipe, and that the main thread always comes back
    to its event loop.  What single requests and completions do is in BackendPark.v and
    BackendFunc.v. *)

From Stdlib Require Import Ascii String ZifyBool.
From stdpp Require Import base tactics option list strings numbers gmap fin_maps functions relations.
From S2P Require Import Prelude Util Object Db Server TString StringProps Backend BackendWorker BackendInv BackendExec BackendSystem BackendRuns.

Local Open Scope Z_scope.

(** ** Safety *)

(** C1. In every interleaving of the main thread, the three working threads,
    connections, disconnections, CLIENT KILL of any client, requests and changes of
    the configuration (CONFIG SET of the statements and the database settings frees
    the old strings), a step of the server faults only at the assertion on the
    pending value in _addKeyToBackendKeys, at the comparison of an integer-encoded
    value in _isSameValueInDbForSet, at the assertion on an empty value in
    _implementGetJobByBackendInWorkingThread, when the next client to resume has
    been freed (by CLIENT KILL from a client resumed before it), or when a string of
    the configuration that a working thread has loaded for its call has been freed;
    besides the faults of the commands that are a parameter. Every other assertion
    and pointer access of the backend, of the commands and of the keyspace code
    holds. *)
Theorem reachable_faults_known `{OtherCommands, Database} (σ : system) (r : res system) :
  reachable σ → step σ r →
  match r with
  | Ok _ => True
  | Fault f =>
      (* the three assertions and pointers of the cache-through code *)
      f = AssertFailed "_addKeyToBackendKeys" ∨
      f = BadPointer "_isSameValueInDbForSet" ∨
      f = AssertFailed "_implementGetJobByBackendInWorkingThread" ∨
      (* the next client to resume has been freed *)
      (f = UseAfterFree "client" ∧
       ∃ m fin c rest, sys_pc σ = MHandle m fin (c :: rest) ∧ clients (sys_srv σ) !! c = None) ∨
      (* a string of the configuration that a thread has loaded has been freed *)
      (∃ m k v a, f = UseAfterFree (argsSite m) ∧ sys_worker σ m = Calling k v a ∧
         argsLive m a (cfg (sys_srv σ)) (sys_db σ) = false) ∨
      other_fault f
  end.
Proof.
  intros Hreach%reachable_inv Hstep. apply step_inv in Hstep; [|done]. destruct r as [|f]; [done|].
  destruct Hstep as [[(m & fin & c & rest & ? & ?) ->]|(m & [[?|[?|[?|?]]]|[(k & v & a & ? & ?) ->]])]; eauto 10.
  - right; right; right; left. split; [done|]. by exists m, fin, c, rest.
  - right; right; right; right; left. by exists m, k, v, a.
Qed.

Lemma reachable_faults_known_witness :
  ∃ m fin c rest, sys_pc killedSystem = MHandle m fin (c :: rest) ∧
    clients (sys_srv killedSystem) !! c = None.
Proof.
  assert (@step noOther tableDatabase killedSystem (Fault (UseAfterFree "client"))) as Hstep.
  { apply (@execAction_step noOther tableDatabase firstOrder AMain). vm_compute. reflexivity. }
  pose proof (@reachable_faults_known noOther tableDatabase killedSystem _ killedSystem_reachable Hstep) as H.
  destruct H as [H|[H|[H|[[_ H]|[(m & k & v & a & H & _)|H]]]]].
  - discriminate.
  - discriminate.
  - discriminate.
  - exact H.
  - destruct m; discriminate.
  - destruct H.
Defined.

(** C2. In every reachable state, a client that is not in the normal backend state is in
    a waiting list or among the clients being resumed; a client in a waiting list is
    alive, is parked in the state of that list on the key of its own command, and is
    in no other list and in that one only once. *)
Theorem parked_clients_wait_once `{OtherCommands, Database} (σ : system) :
  reachable σ →
  (* a client that is not in the normal state waits somewhere *)
  (∀ c cl, clients (sys_srv σ) !! c = Some cl → backend_state cl ≠ CLIENT_BACKEND_NORMAL →
     c ∈ restOf (handlingOf (sys_pc σ)) ∨
     ∃ i db m k l, dbs (sys_srv σ) !! i = Some db ∧ pendingClients m db k = Some l ∧ c ∈ l) ∧
  (* a client in a waiting list is alive, and parked on that key by a command for it *)
  (∀ i db m k l c, dbs (sys_srv σ) !! i = Some db → pendingClients m db k = Some l → c ∈ l →
     NoDup l ∧ c ∉ restOf (handlingOf (sys_pc σ)) ∧
     ∃ cl p, clients (sys_srv σ) !! c = Some cl ∧ backend_state cl = stateOf m ∧ c_db cl = i ∧
       c_argv cl !! 1%nat = Some k ∧ c_cmd cl = Some p ∧ procMode p = Some m) ∧
  (* and in no other list *)
  (∀ c i db m k l i' db' m' k' l',
     dbs (sys_srv σ) !! i = Some db → pendingClients m db k = Some l → c ∈ l →
     dbs (sys_srv σ) !! i' = Some db' → pendingClients m' db' k' = Some l' → c ∈ l' →
     i = i' ∧ m = m' ∧ k = k').
Proof.
  intros [Hs _ _ _]%reachable_inv. split_and!.
  - apply Hs.
  - intros i db m k l c Hi Hl Hin. destruct (si_pend _ _ _ _ Hs i db m k l c) as [(cl & Hc & Hp) Hr]; [done..|].
    destruct (pk_proc _ _ _ _ Hp) as (p & Hpm & [Hcmd _]).
    split_and!; [by eapply si_nodup|done|]. exists cl, p. by destruct Hp.
  - intros c i db m k l i' db' m' k' l' Hi Hl Hin Hi' Hl' Hin'.
    destruct (si_pend _ _ _ _ Hs i db m k l c) as [(cl & Hc & Hp) _]; [done..|].
    destruct (si_pend _ _ _ _ Hs i' db' m' k' l' c) as [(cl' & Hc' & Hp') _]; [done..|].
    simplify_eq. by destruct (parkedOn_inj _ _ _ _ _ _ _ Hp Hp') as (?&?&?).
Qed.

Lemma parked_clients_wait_once_witness :
  ∃ i db m k l, dbs (sys_srv parkedSystem) !! i = Some db ∧ pendingClients m db k = Some l ∧ 1%nat ∈ l.
Proof.
  destruct (@parked_clients_wait_once noOther tableDatabase parkedSystem parkedSystem_reachable)
    as [Hw _].
  assert (∃ cl, clients (sys_srv parkedSystem) !! 1%nat = Some cl ∧
    backend_state cl = CLIENT_BACKEND_GET) as (cl & Hc & Hst).
  { eexists. split; vm_compute; reflexivity. }
  destruct (Hw 1%nat cl Hc) as [Hr|Hp]; [by rewrite Hst|vm_compute in Hr; inversion Hr|exact Hp].
Defined.

(** C3. Every reachable state is well typed: the encoding and the pointer of every
    string object in every database agree, only existing keys have an expire time,
    every client selects an existing database and has only complete commands in its
    queue, a job slot with a key has an existing database (and a value for a SET)
    and one without has none, and what a working thread holds is a result of its own
    kind of job. *)
Theorem reachable_states_well_typed `{OtherCommands, Database} (σ : system) :
  reachable σ →
  (* the encoding and the pointer of a string object agree, and only keys have an expire *)
  (∀ i db k o, dbs (sys_srv σ) !! i = Some db → dict db !! k = Some o → o_type o = OBJ_STRING → ∃ s, string_obj o s) ∧
  (∀ i db k, dbs (sys_srv σ) !! i = Some db → is_Some (expires db !! k) → is_Some (dict db !! k)) ∧
  (* a client has a database, and its queued commands are complete and not EXEC *)
  (∀ c cl, clients (sys_srv σ) !! c = Some cl → (c_db cl < length (dbs (sys_srv σ)))%nat ∧ Forall queued_ok (c_mstate cl)) ∧
  (* a job has a database and, for a SET, a value; an empty slot has neither *)
  (∀ m, match jobKey m (sys_srv σ) with
        | Some _ => (∃ i, jobDbid m (sys_srv σ) = Z.of_nat i ∧ (i < length (dbs (sys_srv σ)))%nat) ∧
            (m = SET_MODE → is_Some (valToBackend (setJob (sys_srv σ))))
        | None => jobReturnKey m (sys_srv σ) = None ∧ jobDbid m (sys_srv σ) = -1
        end) ∧
  (* what a thread holds is of its kind *)
  (∀ m, match sys_worker σ m with
        | Calling _ v _ => is_Some v ↔ m = SET_MODE
        | Answered _ r => outcomeOf m r
        | _ => True
        end).
Proof.
  intros [Hs _ _ _]%reachable_inv. destruct (si_wf _ _ _ _ Hs) as [Hdbs Hcl]. rewrite Forall_lookup in Hdbs. split_and!.
  - intros i db k o Hi. apply (Hdbs i db Hi).
  - intros i db k Hi. apply (Hdbs i db Hi).
  - intros c cl Hc. destruct (Hcl c cl Hc). done.
  - intros m. pose proof (si_job _ _ _ _ Hs m) as Hj. unfold jobInv in Hj. destruct (jobKey m (sys_srv σ)); [|by destruct Hj as (? & ? & _)].
    destruct Hj as [(i & db & Hi & Hdb & _) _ _ Hset _]. split; [|done]. exists i. split; [done|]. by eapply lookup_lt_Some.
  - intros m. destruct (si_worker _ _ _ _ Hs m) as [_ Hw]. cbn in Hw. destruct (sys_worker σ m); try done; destruct Hw as (_ & _ & Hw); [|done].
    case_decide; [naive_solver|]. subst. split; [by intros []|done].
Qed.

Lemma reachable_states_well_typed_witness :
  (∃ i, jobDbid GET_MODE (sys_srv parkedSystem) = Z.of_nat i ∧ (i < length (dbs (sys_srv parkedSystem)))%nat).
Proof.
  destruct (@reachable_states_well_typed noOther tableDatabase parkedSystem parkedSystem_reachable) as (_ & _ & _ & Hjob & _).
  specialize (Hjob GET_MODE). destruct (jobKey GET_MODE (sys_srv parkedSystem)) eqn:E; [apply Hjob|]. vm_compute in E. discriminate.
Defined.

(** C4. Whenever a mode is not in the middle of a completion, its job slot is taken
    exactly when some database has a pending key of that mode: no pending key is
    forgotten, and no job is made for nothing. *)
Theorem pending_key_has_a_job `{OtherCommands, Database} (σ : system) (m : mode) :
  reachable σ → handled (handlingOf (sys_pc σ)) m = None →
  is_Some (jobKey m (sys_srv σ)) ↔
  ∃ i db k, dbs (sys_srv σ) !! i = Some db ∧ is_Some (pendingClients m db k).
Proof.
  intros [Hs _ _ _]%reachable_inv Hh. pose proof (si_job _ _ _ _ Hs m) as Hj. unfold jobInv in Hj.
  destruct (jobKey m (sys_srv σ)) as [p|].
  - destruct Hj as [(i & db & _ & Hi & Hp) _ _ _ _]. destruct (Hp Hh) as [? _].
    split; [|by eexists]. intros _. by exists i, db, (p_str p).
  - destruct Hj as (_ & _ & _ & _ & Hn). split; [by intros []|]. intros (i & db & k & Hi & [l Hl]).
    by rewrite (Hn (λ Hx, ltac:(discriminate Hx)) i db k Hi) in Hl.
Qed.

Lemma pending_key_has_a_job_witness : is_Some (jobKey GET_MODE (sys_srv parkedSystem)).
Proof.
  apply (@pending_key_has_a_job noOther tableDatabase parkedSystem GET_MODE).
  - exact parkedSystem_reachable.
  - vm_compute. reflexivity.
  - exists 0%nat. eexists. exists (B "k"). split; [vm_compute; reflexivity|].
    vm_compute. eexists. reflexivity.
Defined.

(** C5. The pipes between the working threads and the main thread: the read at the end
    of a handler never blocks, a handler is only called when its job has been
    returned with the key it was given, every returned job is announced or about to
    be, and a pipe never holds more than two bytes. *)
Theorem pipe_protocol `{OtherCommands, Database} (σ : system) (m : mode) :
  reachable σ →
  (* the final read of a handler does not block *)
  (sys_pc σ = MRead m → (0 < sys_pipe σ m)%nat) ∧
  (* a handler is called for a job that is returned, with the key it was given *)
  (sys_pc σ = MIdle → (0 < sys_pipe σ m)%nat →
     ∃ p, jobKey m (sys_srv σ) = Some p ∧ jobReturnKey m (sys_srv σ) = Some p) ∧
  (* every returned job is announced: a byte is in the pipe, or its thread is
     about to write it *)
  (is_Some (jobReturnKey m (sys_srv σ)) →
     (0 < sys_pipe σ m)%nat ∨ sys_worker σ m = Signalling) ∧
  (sys_pipe σ m ≤ 2)%nat.
Proof.
  intros [Hs Hpipe _ _]%reachable_inv. specialize (Hpipe m). unfold pipeInv in Hpipe.
  pose proof (si_job _ _ _ _ Hs m) as Hj. unfold jobInv in Hj.
  destruct (si_worker _ _ _ _ Hs m) as [_ Hw]. cbn in Hw. split_and!.
  - intros Hpc. rewrite Hpc in Hpipe. cbn in Hpipe. rewrite bool_decide_eq_true_2 in Hpipe by done.
    destruct (sys_worker σ m); cbn in Hpipe; try lia. rewrite Hw in Hpipe. cbn in Hpipe. lia.
  - intros Hpc Hp. rewrite Hpc in Hpipe. cbn in Hpipe.
    destruct (jobReturnKey m (sys_srv σ)) as [p|] eqn:Hr; [|cbn in Hpipe; lia].
    destruct (jobKey m (sys_srv σ)) as [p'|]; [|naive_solver].
    destruct Hj as [_ [?|?] _ _ _]; simplify_eq. by eexists.
  - intros [p Hr]. rewrite Hr in Hpipe. cbn in Hpipe.
    destruct (sys_worker σ m); cbn in Hpipe; [left; lia..|by right].
  - destruct (isNull (jobReturnKey m (sys_srv σ))), (atRead m (sys_pc σ)); cbn in Hpipe; lia.
Qed.

Lemma pipe_protocol_witness : (sys_pipe parkedSystem GET_MODE ≤ 2)%nat.
Proof.
  apply (@pipe_protocol noOther tableDatabase parkedSystem GET_MODE parkedSystem_reachable).
Defined.

(** ** Termination: the main thread comes back to its event loop *)

Definition requests (s : server) (c : clientId) : nat :=
  match clients s !! c with Some cl => length (c_querybuf cl) | None => 0 end.

Definition restWork (s : server) (h : handling) : nat :=
  match h with
  | Some (_, _, rest) => S (sum_list ((λ c, 2 + requests s c)%nat <$> rest))
  | None => 0
  end.

(** A bound on the steps the main thread has left. *)
Definition mainWork (s : server) (pc : mainpc) : nat :=
  match pc with
  | MInput c h => S (requests s c) + restWork s h
  | MHandle m f rest => restWork s (Some (m, f, rest))
  | MIdle | MRead _ => 0
  end.

Section Termination.
Context `{OtherCommands, Database, CandidateOrder}.

(** Running the main thread until it is in the event loop or at a pipe. *)
Fixpoint mainLoop (fuel : nat) (σ : system) : res system :=
  if busy (sys_pc σ) then
    match fuel with
    | O => Ok σ
    | S fuel =>
        match onMain σ (mainStep (sys_pc σ) (sys_srv σ)) with
        | Ok σ' => mainLoop fuel σ'
        | Fault f => Fault f
        end
    end
  else Ok σ.

Lemma restWork_others c q s s' h :
  hasInput c q s s' → (length q ≤ requests s c)%nat → (restWork s' h ≤ restWork s h)%nat.
Proof.
  intros (Ho & cl & Hc & Hq) Hle. destruct h as [[[m f] rest]|]; cbn; [|done].
  induction rest as [|c' rest IH]; cbn; [done|].
  assert (requests s' c' ≤ requests s c')%nat; [|lia].
  destruct (decide (c' = c)) as [->|Hne].
  - unfold requests at 1. by rewrite Hc, Hq.
  - unfold requests. by rewrite Ho.
Qed.

(** The clients still to resume that have been freed. *)
Definition freedRest (s : server) (pc : mainpc) (c : clientId) : Prop :=
  c ∈ restOf (handlingOf pc) ∧ clients s !! c = None.

Definition mainFault (σ : system) (f : fault) : Prop :=
  knownFault f ∨ f = UseAfterFree "client" ∧ ∃ c, freedRest (sys_srv σ) (sys_pc σ) c.

(** A step of the main thread leaves less work, and frees nobody. *)
Definition lessWork (σ : system) (pc : mainpc) (s : server) : Prop :=
  (mainWork s pc < mainWork (sys_srv σ) (sys_pc σ))%nat ∧
  ∀ c, freedRest s pc c → freedRest (sys_srv σ) (sys_pc σ) c.

Lemma hasInput_freed c q s s' c' : hasInput c q s s' → clients s' !! c' = None → clients s !! c' = None.
Proof.
  intros (Ho & cl & Hc & _) Hc'. destruct (decide (c' = c)) as [->|Hne]; [congruence|].
  by rewrite <-Ho.
Qed.

(** One request, or the end of the input. *)
Lemma lessWork_input σ c h :
  SysInv σ → sys_pc σ = MInput c h →
  wp knownFault (mainStep (MInput c h)) (lessWork σ) (sys_srv σ).
Proof.
  intros [Hs _ _ Hcl] Hpc. destruct (Hcl c h Hpc) as [cl Hc]. rewrite Hpc in Hs. cbn [mainStep]. wp_step.
  eapply wp_mono; [|by apply (wp_processInputStep (W:=viewOf σ) c cl h)].
  unfold lessWork. rewrite Hpc. intros [] s [_ Hmore]; wp_step.
  - destruct Hmore as (a & q & Hq & HI). cbn [mainWork]. split.
    + assert (requests (sys_srv σ) c = S (length q)) as Hreq by (unfold requests; by rewrite Hc, Hq).
      pose proof (restWork_others c q (sys_srv σ) s h HI). destruct HI as (_ & cl' & Hc' & Hq').
      assert (requests s c = length q) by (unfold requests; by rewrite Hc', Hq'). lia.
    + intros c' [Hin Hc']. split; [done|]. by eapply hasInput_freed.
  - destruct Hmore as [-> _]. split; [destruct h as [[[m f] rest]|]; cbn [mainWork afterInput]; lia|].
    intros c' [Hin Hc']. split; [by rewrite afterInput_handling in Hin|done].
Qed.

(** Resuming a client that is alive. *)
Lemma lessWork_resume σ m f c cl rest :
  SysInv σ → sys_pc σ = MHandle m f (c :: rest) → clients (sys_srv σ) !! c = Some cl →
  wp knownFault (mainStep (MHandle m f (c :: rest))) (lessWork σ) (sys_srv σ).
Proof.
  intros [Hs _ _ _] Hpc Hc. rewrite Hpc in Hs. cbn [mainStep].
  pose proof (wp_resume (W:=viewOf σ) m f c cl rest (finishResult f) (sys_srv σ) Hs Hc) as Hw.
  apply wp_bind_inv in Hw. wp_step. eapply wp_mono; [|exact Hw]. clear Hw. intros [] s1 Hw.
  wp_step. eapply wp_mono; [|exact Hw]. intros [] s2 (_ & cl' & Hc' & _ & Hq & Ho).
  wp_step. unfold lessWork. rewrite Hpc. cbn [mainWork].
  assert (requests s2 c = requests (sys_srv σ) c) as Hreq by (unfold requests; by rewrite Hc, Hc', Hq).
  assert (hasInput c (c_querybuf cl) (sys_srv σ) s2) as HI by (split; [done|by exists cl']).
  pose proof (restWork_others c (c_querybuf cl) (sys_srv σ) s2 (Some (m, f, rest)) HI) as Hrest.
  cbn in Hrest |- *. rewrite Hreq. unfold requests at 1 in Hrest. rewrite Hc in Hrest.
  split; [lia|]. intros c' [Hin Hfree]. split; [by right|by eapply hasInput_freed].
Qed.

Lemma mainWork_decreases σ :
  SysInv σ → busy (sys_pc σ) = true →
  wp (mainFault σ) (mainStep (sys_pc σ)) (lessWork σ) (sys_srv σ).
Proof.
  intros Hinv Hb. pose proof Hinv as [Hs _ Hpoll _].
  assert (∀ f, knownFault f → mainFault σ f) as Hf by by left.
  destruct (sys_pc σ) as [|c h|m f [|c rest]|m] eqn:Hpc; try done.
  - by eapply wp_fault_mono, lessWork_input.
  - assert (sys_worker σ m = Polling) as Hw by (apply (Hpoll m f); cbn; by rewrite decide_True).
    cbn [mainStep]. wp_step. eapply wp_mono; [|by apply (wp_clearFinishEnd (W:=viewOf σ) _ m f)].
    intros [] s _. wp_step. unfold lessWork. rewrite Hpc. cbn.
    split; [lia|]. by intros c [?%not_elem_of_nil _].
  - destruct (clients (sys_srv σ) !! c) as [cl|] eqn:Hc; [by eapply wp_fault_mono, lessWork_resume|].
    unfold wp. rewrite mainStep_freed by done. right. split; [done|]. exists c. rewrite Hpc.
    split; [by left|done].
Qed.

Lemma mainLoop_done fuel σ :
  SysInv σ → (mainWork (sys_srv σ) (sys_pc σ) ≤ fuel)%nat →
  match mainLoop fuel σ with
  | Ok σ' => SysInv σ' ∧ busy (sys_pc σ') = false
  | Fault f => mainFault σ f
  end.
Proof.
  revert σ. induction fuel as [|fuel IH]; intros σ Hinv Hle; cbn [mainLoop].
  - destruct (busy (sys_pc σ)) eqn:Hb; [|done].
    by destruct (sys_pc σ) as [|c h|m f rest|m]; cbn in Hle, Hb; try done; lia.
  - destruct (busy (sys_pc σ)) eqn:Hb; [|done].
    pose proof (mainWork_decreases σ Hinv Hb) as Hdec. unfold wp in Hdec.
    pose proof (step_inv σ _ Hinv (step_main σ _ Hb)) as Hinv'.
    destruct (mainStep (sys_pc σ) (sys_srv σ)) as [[pc s]|f]; [|done]. cbn in Hinv' |- *.
    destruct Hdec as [Hlt Hfree]. specialize (IH (set_main s pc σ) Hinv'). cbn in IH.
    specialize (IH ltac:(lia)). destruct (mainLoop fuel _) as [σ'|f]; [done|].
    destruct IH as [?|[-> (c & Hc)]]; [by left|]. right. split; [done|]. exists c. by apply Hfree.
Qed.

End Termination.

(** C7. From every reachable state the main thread is back in the event loop, or at the
    final read of a pipe handler, after a number of steps bounded by the requests in
    the query buffers and the clients still to resume, unless it stops at one of the
    crash sites of C1 (for a freed client: one that was freed before among the
    clients still to resume). *)
Theorem main_thread_returns `{OtherCommands, Database, CandidateOrder} (σ : system) :
  reachable σ →
  match mainLoop (mainWork (sys_srv σ) (sys_pc σ)) σ with
  | Ok σ' => sys_pc σ' = MIdle ∨ ∃ m, sys_pc σ' = MRead m
  | Fault f =>
      knownFault f ∨
      (* a waiting client had been freed before *)
      f = UseAfterFree "client" ∧
      ∃ c, c ∈ restOf (handlingOf (sys_pc σ)) ∧ clients (sys_srv σ) !! c = None
  end.
Proof.
  intros Hinv%reachable_inv.
  pose proof (mainLoop_done (mainWork (sys_srv σ) (sys_pc σ)) σ Hinv (le_n _)) as Hloop.
  destruct (mainLoop _ σ) as [σ'|f]; [|done]. destruct Hloop as [_ Hb].
  destruct (sys_pc σ'); try done; eauto.
Qed.

(** Client 1 has three requests; the main thread has read them. *)
Definition busySystem : @system tableDatabase :=
  theSystem (@execAll noOther tableDatabase firstOrder
    [AConnect 1; AInput 1 [[B "GET"; B "k"]; [B "DEL"; B "k"]; [B "GET"; B "k"]]]
    (@startSystem tableDatabase syncConfig ∅)).

Lemma main_thread_returns_witness :
  match @mainLoop noOther tableDatabase firstOrder 4 busySystem with
  | Ok σ' => sys_pc σ' = MIdle ∨ ∃ m, sys_pc σ' = MRead m
  | Fault f => @knownFault noOther f
  end.
Proof.
  assert (∀ f, @knownFault noOther f ∨ f = UseAfterFree "client" ∧
    (∃ c, c ∈ restOf (handlingOf (sys_pc busySystem)) ∧ clients (sys_srv busySystem) !! c = None) →
    @knownFault noOther f) as Hnone.
  { intros f [Hf|(_ & c & Hc & _)]; [exact Hf|]. vm_compute in Hc. inversion Hc. }
  assert (mainWork (sys_srv busySystem) (sys_pc busySystem) = 4%nat) as <- by (vm_compute; reflexivity).
  pose proof (@main_thread_returns noOther tableDatabase firstOrder busySystem
    ltac:(apply theSystem_reachable; vm_compute; reflexivity)) as H.
  destruct (mainLoop _ _) as [σ'|f]; [exact H|]. apply Hnone. exact H.
Defined.

(** ** Progress: a job is answered and announced *)

Section Progress.
Context `{OtherCommands, Database}.

Fixpoint workerRun (n : nat) (m : mode) (σ : system) : res system :=
  match n with
  | O => Ok σ
  | S n =>
      match onWorker m σ (workerStep m (sys_worker σ m) (sys_db σ) (sys_srv σ)) with
      | Ok σ' => workerRun n m σ'
      | Fault f => Fault f
      end
  end.

(** How far a thread is from having announced its job. *)
Definition workerRank (m : mode) (σ : system) : nat :=
  match sys_worker σ m with
  | Polling => if isNull (jobReturnKey m (sys_srv σ)) then 5 else 0
  | Taken _ _ => 4
  | Calling _ _ _ => 3
  | Answered _ _ => 2
  | Signalling => 1
  end.

(** The part of the system a working thread does not touch. *)
Definition sameMain (σ σ' : system) : Prop :=
  sys_pc σ' = sys_pc σ ∧ dbs (sys_srv σ') = dbs (sys_srv σ) ∧ clients (sys_srv σ') = clients (sys_srv σ).

Ltac advanced :=
  cbn; rewrite fn_lookup_insert; split_and!; [done|cbn in *; lia|done..|];
  intros (? & ? & ? & Hcall & Hlive); cbn in Hcall; rewrite fn_lookup_insert in Hcall.

Lemma loadArgs_live m cf d : argsLive m (loadArgs m cf) cf d = true.
Proof.
  unfold argsLive. cbn. rewrite (bool_decide_eq_true_2 (redisoo_connection cf = _)) by done.
  rewrite (bool_decide_eq_true_2 (statementOf m cf = _)) by done. case_match; [done|].
  case_match; [|done]. by rewrite orb_true_r.
Qed.

Lemma worker_advances m p σ :
  SysInv σ → jobKey m (sys_srv σ) = Some p → (0 < workerRank m σ)%nat →
  match onWorker m σ (workerStep m (sys_worker σ m) (sys_db σ) (sys_srv σ)) with
  | Ok σ' => jobKey m (sys_srv σ') = Some p ∧ (workerRank m σ' < workerRank m σ)%nat ∧ sameMain σ σ' ∧
             ¬ staleCall m σ'
  | Fault f => True
  end.
Proof.
  intros Hinv Hk Hrank. pose proof Hinv as [Hs _ _ _].
  destruct (si_worker _ _ _ _ Hs m) as [_ Hwk]. cbn in Hwk. unfold workerRank in *.
  destruct (sys_worker σ m) as [|dbid k|k v a|k r|]; unfold workerStep; cbv [mbind M_bind get].
  - destruct (jobReturnKey m (sys_srv σ)) as [q|] eqn:Hr; [cbn in Hrank; lia|].
    unfold _getJobInWorkingThread. cbv [mbind M_bind get]. rewrite Hr, Hk. cbn.
    destruct (serverAssert _ _ _) as [[[] s']|f] eqn:Ha; [|done].
    assert (s' = sys_srv σ) as ->.
    { revert Ha. unfold serverAssert. cbv [mret M_ret fail]. destruct (_ && _); intros Heq; [congruence|done]. }
    by advanced.
  - unfold takeValToBackend. cbv [mbind M_bind gets].
    case_bool_decide; [destruct (valToBackend (setJob (sys_srv σ))); cbn; [|exact I]|];
      advanced; cbn in Hlive; simplify_eq; by rewrite loadArgs_live in Hlive.
  - unfold liftRes. destruct (backendCall _ _ _ _ _ _) as [[r d]|f]; [|done]. by advanced.
  - destruct Hwk as (Hret & Hk' & Ho). apply negb_false_iff in Hret.
    destruct (returnJob_run m k r (sys_srv σ)) as (s' & -> & (_ & Hd & Hc & _) & Hk2 & _);
      [apply Hs|done|by destruct (jobReturnKey m (sys_srv σ))|done|].
    assert (p = k) as -> by congruence. by advanced.
  - apply negb_true_iff in Hwk. cbn. rewrite fn_lookup_insert, Hwk. split_and!; [done|lia|done..|].
    intros (? & ? & ? & Hcall & _). cbn in Hcall. by rewrite fn_lookup_insert in Hcall.
Qed.

Lemma workerRun_done n m p σ :
  SysInv σ → jobKey m (sys_srv σ) = Some p → (workerRank m σ ≤ n)%nat →
  ∃ n', (n' ≤ n)%nat ∧
  match workerRun n' m σ with
  | Ok σ' => SysInv σ' ∧ jobKey m (sys_srv σ') = Some p ∧ workerRank m σ' = 0%nat ∧ sameMain σ σ'
  | Fault f => workerFault m σ f
  end.
Proof.
  revert σ. induction n as [|n IH]; intros σ Hinv Hk Hle.
  { exists 0%nat. cbn. by rewrite (proj1 (Nat.le_0_r _) Hle). }
  destruct (workerRank m σ) as [|r] eqn:Hr; [exists 0%nat; cbn; by split; [lia|]|].
  pose proof (worker_advances m p σ Hinv Hk) as Hadv. pose proof (step_worker_inv σ m Hinv) as Hinv'.
  destruct (onWorker m σ _) as [σ'|f] eqn:Hw.
  - destruct Hadv as (Hk' & Hlt & (Hpc & Hd & Hc) & Hstale); [lia|].
    destruct (IH σ') as (n' & Hle' & Hrun); [done|done|lia|]. exists (S n'). split; [lia|].
    cbn [workerRun]. rewrite Hw. destruct (workerRun n' m σ') as [σ2|f].
    + destruct Hrun as (? & ? & ? & Hpc2 & Hd2 & Hc2). unfold sameMain. split_and!; congruence.
    + left. by destruct Hrun as [|[]].
  - exists 1%nat. split; [lia|]. cbn [workerRun]. by rewrite Hw.
Qed.

End Progress.

(** C6. From every reachable state with a job, at most five steps of its working thread
    return the job with its key and put a byte in the pipe, without touching the
    databases or the clients, unless the thread stops at one of the crash sites of
    C1 (for the strings of the configuration: the thread is in its call with a
    string that has already been freed). *)
Theorem job_is_answered `{OtherCommands, Database} (σ : system) (m : mode) (p : sdsptr) :
  reachable σ → jobKey m (sys_srv σ) = Some p →
  ∃ n, (n ≤ 5)%nat ∧
  match workerRun n m σ with
  | Ok σ' => jobReturnKey m (sys_srv σ') = Some p ∧ (0 < sys_pipe σ' m)%nat ∧
             sys_pc σ' = sys_pc σ ∧ dbs (sys_srv σ') = dbs (sys_srv σ) ∧
             clients (sys_srv σ') = clients (sys_srv σ)
  | Fault f =>
      knownFault f ∨
      (* the thread is in a call, with a string that has been freed before *)
      f = UseAfterFree (argsSite m) ∧
      ∃ k v a, sys_worker σ m = Calling k v a ∧ argsLive m a (cfg (sys_srv σ)) (sys_db σ) = false
  end.
Proof.
  intros Hinv%reachable_inv Hk.
  destruct (workerRun_done 5 m p σ Hinv Hk) as (n & Hn & Hrun).
  { unfold workerRank. repeat case_match; lia. }
  exists n. split; [done|]. destruct (workerRun n m σ) as [σ'|f]; [|by destruct Hrun as [|[]]; auto].
  destruct Hrun as ([Hs Hpipe _ _] & Hk' & Hr & Hsame).
  specialize (Hpipe m). unfold pipeInv in Hpipe. unfold workerRank in Hr.
  destruct (sys_worker σ' m); try done. cbn in Hpipe.
  destruct (jobReturnKey m (sys_srv σ')) as [q|] eqn:Hq; [|done]. cbn in Hpipe.
  pose proof (si_job _ _ _ _ Hs m) as Hj. unfold jobInv in Hj. rewrite Hk' in Hj.
  destruct Hj as [_ [?|?] _ _ _]; [congruence|]. split_and!; [congruence|lia|apply Hsame..].
Qed.

Lemma job_is_answered_witness :
  ∃ n, (n ≤ 5)%nat ∧
  match @workerRun tableDatabase n GET_MODE parkedSystem with
  | Ok σ' => jobReturnKey GET_MODE (sys_srv σ') = Some (mkPtr 4 (B "k")) ∧
             (0 < sys_pipe σ' GET_MODE)%nat ∧ sys_pc σ' = sys_pc parkedSystem ∧
             dbs (sys_srv σ') = dbs (sys_srv parkedSystem) ∧
             clients (sys_srv σ') = clients (sys_srv parkedSystem)
  | Fault f => @knownFault noOther f
  end.
Proof.
  destruct (@job_is_answered noOther tableDatabase parkedSystem GET_MODE (mkPtr 4 (B "k")))
    as (n & Hn & Hrun).
  - exact parkedSystem_reachable.
  - vm_compute. reflexivity.
  - exists n. split; [exact Hn|]. destruct (workerRun n GET_MODE parkedSystem); [exact Hrun|].
    destruct Hrun as [Hf|(_ & k & v & a & Hc & _)]; [exact Hf|]. vm_compute in Hc. discriminate.
Defined.
