(* ===== verification/BackendFunc.v ===== *)
(** * BackendFunc: what a completion does for the waiting clients

    The steps of a completion: what its start stores in the cache, and the answer of
    each client when it is resumed, whatever it has pipelined.  Then the pipe
    handlers of the main thread run to their end, for clients that have sent nothing
    more: the answers of all the clients that wait for the key, and the cache
    afterwards. *)

From Stdlib Require Import Ascii String ZifyBool.
From stdpp Require Import base tactics option list strings numbers gmap fin_maps functions relations.
From S2P Require Import Prelude Util Object Db Server TString StringProps Backend BackendWorker BackendInv BackendExec BackendSystem BackendRuns.

Local Open Scope Z_scope.

Section Func.
Context `{OtherCommands, CandidateOrder}.

Lemma set_clients_twice cs cs' s : set_clients cs (set_clients cs' s) = set_clients cs s.
Proof. done. Qed.

(** ** Resuming one client *)

(** A parked client that has sent nothing more, answered. *)
Definition answered (r : reply) (cl : client) : client :=
  set_cmd None [] (push_reply r (set_backend_state CLIENT_BACKEND_NORMAL cl)).

Lemma processInputBuffer_empty c cl s :
  clients s !! c = Some cl → c_querybuf cl = [] → processInputBuffer c s = Ok (tt, s).
Proof.
  intros Hc Hq. unfold processInputBuffer. erewrite bind_run by by apply getClient_run.
  rewrite Hq. cbn [length processInputLoop]. rewrite (bind_run _ _ s false s); [done|].
  unfold processInputStep. erewrite bind_run by by apply getClient_run. by rewrite Hq.
Qed.

(** The rest of the server a resumed client must not change. *)
Definition sameContext (s s' : server) : Prop := srv_env s' = srv_env s ∧ same_slots s s'.

Lemma sameContext_refl s : sameContext s s.
Proof. done. Qed.

Lemma sameContext_trans s1 s2 s3 : sameContext s1 s2 → sameContext s2 s3 → sameContext s1 s3.
Proof. unfold sameContext, same_slots. intuition congruence. Qed.

Lemma resumeCall_run c cl cl2 s s2 :
  clients s !! c = Some cl → backend_state cl ≠ CLIENT_BACKEND_NORMAL →
  call c (set_clients (<[c := set_backend_state CLIENT_BACKEND_NORMAL cl]> (clients s)) s) =
    Ok (tt, set_clients (<[c := cl2]> (clients s)) s2) →
  resumeCall c s = Ok (tt, set_clients (<[c := set_cmd None [] cl2]> (clients s)) s2).
Proof.
  intros Hc Hst Hcall. unfold resumeCall. erewrite bind_run by by apply getClient_run.
  erewrite bind_run by (apply serverAssert_run; by rewrite bool_decide_eq_false_2).
  erewrite bind_run by by apply updClient_run. erewrite bind_run by exact Hcall.
  unfold resetClient. erewrite updClient_run by apply lookup_insert_eq.
  cbn [clients set_clients]. by rewrite insert_insert_eq, set_clients_twice.
Qed.

Lemma resume_run c cl cl2 s s2 :
  clients s !! c = Some cl → backend_state cl ≠ CLIENT_BACKEND_NORMAL →
  call c (set_clients (<[c := set_backend_state CLIENT_BACKEND_NORMAL cl]> (clients s)) s) =
    Ok (tt, set_clients (<[c := cl2]> (clients s)) s2) →
  c_querybuf cl2 = [] →
  _resumeBackendClient c s = Ok (tt, set_clients (<[c := set_cmd None [] cl2]> (clients s)) s2).
Proof.
  intros Hc Hst Hcall Hq. unfold _resumeBackendClient. erewrite bind_run by by eapply resumeCall_run.
  by eapply processInputBuffer_empty; [apply lookup_insert_eq|].
Qed.

(** Resuming all the waiting clients; [I] holds of the databases all along. *)
Lemma resumeAll_run (I : list redisDb → Prop) (f : clientId → M server unit) (fin : client → client) l s :
  NoDup l → I (dbs s) →
  (∀ c, c ∈ l → ∃ cl, clients s !! c = Some cl ∧
     ∀ s', sameContext s s' → I (dbs s') → clients s' !! c = Some cl →
       ∃ s'', f c s' = Ok (tt, s'') ∧ sameContext s' s'' ∧ I (dbs s'') ∧
         clients s'' = <[c := fin cl]> (clients s')) →
  ∃ s', forM_ l f s = Ok (tt, s') ∧ sameContext s s' ∧ I (dbs s') ∧
    ∀ c, clients s' !! c = if decide (c ∈ l) then fin <$> clients s !! c else clients s !! c.
Proof.
  revert s. induction l as [|c l IH]; intros s Hnd HI Hf.
  { exists s. split_and!; [done|apply sameContext_refl|done|]. intros c.
    by rewrite decide_False by apply not_elem_of_nil. }
  apply NoDup_cons in Hnd as [Hc Hnd]. destruct (Hf c) as (cl & Hcl & Hrun); [set_solver|].
  destruct (Hrun s) as (s1 & Hs1 & Hctx & HI1 & Hcl1); [apply sameContext_refl|done..|].
  destruct (IH s1 Hnd HI1) as (s' & Hrest & Hctx' & HI' & Hcs).
  - intros c' Hc'. destruct (Hf c') as (cl' & Hcl' & Hrun'); [set_solver|]. exists cl'. split.
    + rewrite Hcl1, lookup_insert_ne; [done|]. by intros ->.
    + intros s' Hs'. apply Hrun'. by eapply sameContext_trans.
  - exists s'. split_and!; [|by eapply sameContext_trans|done|].
    + cbn [forM_]. by erewrite bind_run by exact Hs1.
    + intros c'. rewrite Hcs, Hcl1. destruct (decide (c' = c)) as [->|Hne].
      * rewrite decide_False, decide_True by set_solver. by rewrite lookup_insert_eq, Hcl.
      * rewrite lookup_insert_ne by done.
        destruct (decide (c' ∈ l)); [rewrite decide_True by set_solver|rewrite decide_False by set_solver]; done.
Qed.

(** ** The commands of resumed clients *)

(** GET of a key that is there, or not there. *)
Lemma call_get c cl k db o s :
  clients s !! c = Some cl → c_cmd cl = Some getCommandProc → c_argv cl !! 1%nat = Some k →
  dbs s !! c_db cl = Some db → db_ok db → expired_at (srv_env s) db k = false → dict db !! k = o →
  match o with Some o => o_type o = OBJ_STRING | None => True end →
  ∃ r, call c s = Ok (tt, set_clients (<[c := push_reply r cl]> (clients s)) s) ∧
    match o with Some o => ∃ v, string_obj o v ∧ r = RBulk v | None => r = RNull (c_resp cl) end.
Proof.
  intros Hc Hcmd Hk Hdb Hok Hexp Hd Ht. rewrite (call_run getCommandProc c cl) by done.
  erewrite callQueued_run by done. unfold getCommand, getGenericCommand.
  erewrite bind_run by by apply getClient_run. rewrite (bind_run (gets srv_env) _ s (srv_env s) s) by done.
  erewrite bind_run by by apply argv_run.
  erewrite bind_run; [|eapply (withDb_read _ _ db o); [done|]].
  2:{ rewrite lookupKeyRead_run, Hexp, not_expired_id, Hd by (done || by apply db_ok_wf). done. }
  destruct o as [o|].
  - rewrite bool_decide_eq_true_2 by done. cbn [negb].
    destruct (proj2 Hok k o Hd Ht) as [v Hv]. exists (RBulk v).
    erewrite bind_run by by apply replyBytes_run. unfold addReply. by rewrite (updClient_run c cl); eauto.
  - exists (RNull (c_resp cl)). unfold addReply. by rewrite (updClient_run c cl).
Qed.


(** A client parked on a GET, resumed. *)
Lemma resume_get c cl i k db o n s :
  clients s !! c = Some cl → parkedOn GET_MODE i k cl → c_querybuf cl = [] →
  dbs s !! i = Some db → db_ok db → expired_at (srv_env s) db k = false → dict db !! k = o →
  match o with Some o => o_type o = OBJ_STRING | None => True end →
  ∃ r, (markFailure GET_MODE n c ;; _resumeBackendClient c) s =
      Ok (tt, set_clients (<[c := answered r cl]> (clients s)) s) ∧
    match o with Some o => ∃ v, string_obj o v ∧ r = RBulk v | None => r = RNull (c_resp cl) end.
Proof.
  intros Hc [Hst Hi Hk _ (pr & Hpm & [Hcmd _])] Hq Hdb Hok Hexp Hd Ht.
  assert (pr = getCommandProc) as -> by (by destruct pr).
  set (cl1 := set_backend_state CLIENT_BACKEND_NORMAL cl).
  destruct (call_get c cl1 k db o (set_clients (<[c := cl1]> (clients s)) s)) as (r & Hcall & Hr); auto.
  - apply lookup_insert_eq.
  - cbn. by rewrite Hi.
  - exists r. split; [|done]. cbn in Hcall. rewrite insert_insert_eq in Hcall.
    cbn [markFailure]. rewrite (bind_run _ _ s tt s) by done.
    eapply resume_run; [done|by rewrite Hst|exact Hcall|done].
Qed.

(** ** A whole handler *)

Definition sameData (s s' : server) : Prop := dbs s' = dbs s ∧ clients s' = clients s.

Lemma createNewJob_data m s :
  jobKey m s = None → jobReturnKey m s = None → slotValue m s None →
  wp noFault (_createNewJobIfHasMoreCandidates m false) (λ _, sameData s) s.
Proof.
  intros Hk Hr Hv. unfold _createNewJobIfHasMoreCandidates. wp_step. wp_step. cbn [andb]. wp_step.
  destruct (hasAvailableCandidate_run m s) as ([[i k]|] & Hrun & Hcand); (eapply wp_run_ok; [done|]).
  2:{ done. }
  destruct Hcand as (db & Hi & Hpend).
  destruct m; cbn in Hk, Hr, Hv, Hpend; wp_step; wp_step; wp_step;
    (apply wp_serverAssert; [by rewrite Hk, Hr; destruct (valToBackend (setJob s))|]);
    unfold sdsdup; wp_steps; [done| |done].
  apply fmap_is_Some in Hpend as [info Hinfo].
  eapply (wp_findSetInfo _ i _ _ db (setValue info)); [done|by unfold pendingValue; cbn; rewrite Hinfo|].
  intros info' _ _. by wp_steps.
Qed.

Lemma clearFinishEnd_data m p s :
  jobKey m s = Some p → jobReturnKey m s = Some p →
  wp noFault (clearFinishEnd m) (λ _, sameData s) s.
Proof.
  intros Hk Hr. unfold clearFinishEnd. destruct m; cbn in Hk, Hr; wp_step; wp_step; wp_step; wp_step;
    (apply wp_serverAssert; [by rewrite Hk, Hr, bool_decide_eq_true_2|]); wp_step;
    (eapply wp_mono; [|by apply createNewJob_data]); done.
Qed.

Definition handlerOf (m : mode) : M server unit :=
  match m with
  | GET_MODE => _getPipeMainThreadHandler
  | SET_MODE => _setPipeMainThreadHandler
  | DEL_MODE => _delPipeMainThreadHandler
  end.

Lemma handlerOf_finished m : handlerOf m = (f ← jobFinished m; clearFinished m f).
Proof. by destruct m. Qed.

(** The database after the job: the value stored, the pending entry dropped. *)
Definition completedDb (m : mode) (s : server) (f : finished) (db : redisDb) : redisDb :=
  delPending m (finishKey f) (finishedDb m (srv_env s) (redisoo_get_ttl (cfg s)) f db).

Context {W : workerView}.

Lemma handler_run m p db l (I : list redisDb → Prop) fin s :
  SrvInv W None None s → jobKey m s = Some p → jobReturnKey m s = Some p →
  let f := finishedOf m p s in
  dbs s !! finishDbid f = Some db → pendingClients m db (finishKey f) = Some l →
  I (<[finishDbid f := completedDb m s f db]> (dbs s)) →
  (∀ c, c ∈ l → ∃ cl, clients s !! c = Some cl ∧
     ∀ s', srv_env s' = srv_env s → I (dbs s') → clients s' !! c = Some cl →
       ∃ s'', (markFailure m (finishResult f) c ;; _resumeBackendClient c) s' = Ok (tt, s'') ∧
         sameContext s' s'' ∧ I (dbs s'') ∧ clients s'' = <[c := fin cl]> (clients s')) →
  ∃ s', handlerOf m s = Ok (tt, s') ∧ I (dbs s') ∧
    ∀ c, clients s' !! c = if decide (c ∈ l) then fin <$> clients s !! c else clients s !! c.
Proof.
  intros Hs Hk Hr f Hdb Hl HI Hres.
  pose proof (si_job _ _ _ _ Hs m) as Hj. unfold jobInv in Hj. rewrite Hk in Hj.
  destruct Hj as [(i & _ & Hi & _ & _) _ _ Hsv _].
  destruct (clearBegin_run m f db l s) as [n Hn]; [done| |done|intros ->; by apply Hsv|].
  { eapply Forall_lookup_1; [apply (swf_dbs s), Hs|done]. }
  fold (completedDb m s f db) in Hn.
  set (s1 := set_dirty n (set_dbs (<[finishDbid f := completedDb m s f db]> (dbs s)) s)) in Hn.
  rewrite handlerOf_finished. erewrite bind_run by by eapply jobFinished_run.
  unfold clearFinished, _clearFinishKey. fold f. erewrite bind_run by exact Hn.
  destruct (resumeAll_run I (λ c, markFailure m (finishResult f) c ;; _resumeBackendClient c) fin l s1)
    as (s2 & Hrun & [Henv Hslots] & HI2 & Hcs); [by eapply si_nodup|done| |].
  { intros c Hin. destruct (Hres c Hin) as (cl & Hc & Hrun). exists cl. split; [done|].
    intros s' [Henv _] HI' Hc'. by apply Hrun. }
  erewrite bind_run by exact Hrun. destruct (same_slots_eq m s1 s2 Hslots) as (Hk2 & Hr2 & _).
  assert (wp noFault (clearFinishEnd m) (λ _, sameData s2) s2) as Hend.
  { apply (clearFinishEnd_data m p); [by rewrite Hk2|by rewrite Hr2]. }
  apply wp_run in Hend as ([] & s' & -> & Hd & Hc). exists s'. rewrite Hd, Hc. by split_and!.
Qed.

(** ** The cache after a completion *)

(** What storing a value from the backend does to the observable keys. *)
Definition storedView (g : genv) (k v : bytes) (ttl : Z) (f : bytes → option (robj * option Z)) :
    bytes → option (robj * option Z) :=
  λ k', if decide (k' = k)
        then Some (createStringObject v, if 0 <? ttl then Some (i64 (mstime g + ttl)) else f k ≫= snd)
        else f k'.

(** A time to live never puts the expire time in the past: one that overflows is
    negative, and a negative expire time is none. *)
Lemma future_not_timedOut g ttl :
  0 ≤ mstime g ≤ LLONG_MAX → 0 < ttl ≤ LLONG_MAX → timedOut g (i64 (mstime g + ttl)) = false.
Proof.
  unfold timedOut, i64, LLONG_MAX. intros Ht Httl.
  destruct (Z.leb_spec (mstime g + ttl) (2 ^ 63 - 1)).
  - rewrite Z.mod_small by lia. destruct (loading g); lia.
  - assert ((mstime g + ttl + 2 ^ 63) mod 2 ^ 64 = mstime g + ttl + 2 ^ 63 - 2 ^ 64) as Hmod.
    { rewrite <-(Z.mod_small (mstime g + ttl + 2 ^ 63 - 2 ^ 64) (2 ^ 64)) by lia.
      by rewrite <-(Z.mod_add (mstime g + ttl + 2 ^ 63 - 2 ^ 64) 1 (2 ^ 64)), Z.mul_1_l, Z.sub_add by lia. }
    rewrite Hmod. destruct (loading g); lia.
Qed.

Lemma live_storeValue g k v ttl db :
  masterhost g = false → db_wf db → 0 ≤ mstime g ≤ LLONG_MAX → ttl ≤ LLONG_MAX →
  ∀ k', live g (storeValue g k v ttl db) k' = storedView g k v ttl (live g db) k'.
Proof.
  intros Hm Hwf Ht Httl k'. unfold storeValue, storedView.
  pose proof (live_write_key g Hm k (createStringObject v) true db Hwf k') as Hw.
  unfold abs_set in Hw. destruct (0 <? ttl) eqn:Hpos; [|exact Hw].
  rewrite live_write_expire by apply write_key_is_Some.
  rewrite future_not_timedOut by lia. rewrite Hw. unfold write_key. cbn. rewrite lookup_insert_eq.
  by case_decide.
Qed.

Lemma live_delPending g m k db k' : live g (delPending m k db) k' = live g db k'.
Proof. by destruct m. Qed.

Lemma delPending_ok m k db : db_ok db → db_ok (delPending m k db).
Proof. by destruct m. Qed.

End Func.

(** The client has nothing more in its query buffer. *)
Definition quiet (s : server) (l : list clientId) : Prop :=
  ∀ c cl, c ∈ l → clients s !! c = Some cl → c_querybuf cl = [].

(** ** The answer of a resumed client *)

Section Resume.
Context `{OtherCommands}.






End Resume.



(** ** Whole completions *)

(** C9. When on a master the pipe handler starts with a GET job that came back with a
    value: it removes the pending entry and stores the value in the cache, with the
    configured time to live when this is positive and the expire time the key had
    before otherwise, before it resumes the waiting clients in order; all other keys
    keep their value and expire time. When the waiting clients have sent no further
    requests, the whole handler answers every one of them with that value, returns
    it to the normal state, changes no other client and stores nothing else. The
    clock is not negative, and the clock and the configured time to live are at most
    the largest 64-bit integer. *)
Theorem get_completion_hit `{OtherCommands, CandidateOrder, Database} (σ : system) (p : sdsptr)
    (v : bytes) (db : redisDb) (l : list clientId) :
  reachable σ → sys_pc σ = MIdle →
  let s := sys_srv σ in
  let g := srv_env s in
  let i := Z.to_nat (getDbid (getJob s)) in
  getKey (getJob s) = Some p → returnGetKey (getJob s) = Some p →
  valFromBackend (getJob s) = Some v →
  dbs s !! i = Some db → backendGetKeys db !! p_str p = Some l →
  masterhost g = false → 0 ≤ mstime g ≤ LLONG_MAX → redisoo_get_ttl (cfg s) ≤ LLONG_MAX →
  ∃ s1 db', startHandler GET_MODE s = Ok (MHandle GET_MODE (finishedOf GET_MODE p s) l, s1) ∧
    clients s1 = clients s ∧ dbs s1 = <[i := db']> (dbs s) ∧ backendGetKeys db' !! p_str p = None ∧
    (∀ k, live g db' k = storedView g (p_str p) v (redisoo_get_ttl (cfg s)) (live g db) k) ∧
    (* when the clients have sent nothing more *)
    (quiet s l →
     ∃ s', _getPipeMainThreadHandler s = Ok (tt, s') ∧ dbs s' = dbs s1 ∧
       ∀ c, clients s' !! c =
         if decide (c ∈ l) then answered (RBulk v) <$> clients s !! c else clients s !! c).
Proof.
  intros Hreach Hpc s g i Hk Hr Hv Hdb Hl Hm Ht Httl.
  apply reachable_inv in Hreach as [Hs _ _ _]. rewrite Hpc in Hs. cbn in Hs. fold s in Hs.
  assert (db_ok db) as Hok by (eapply Forall_lookup_1; [apply (swf_dbs s), Hs|done]).
  set (f := finishedOf GET_MODE p s). set (db' := completedDb GET_MODE s f db).
  assert (db' = delPending GET_MODE (p_str p) (storeValue g (p_str p) v (redisoo_get_ttl (cfg s)) db)) as Hdb'.
  { unfold db', completedDb, finishedDb. cbn. by rewrite Hv. }
  assert (∀ k, live g db' k = storedView g (p_str p) v (redisoo_get_ttl (cfg s)) (live g db) k) as Hlive.
  { intros k. rewrite Hdb', live_delPending. apply live_storeValue; auto using db_ok_wf. }
  assert (db_ok db') as Hok' by (rewrite Hdb'; by apply delPending_ok, storeValue_ok).
  destruct (handlerBegin_run (W:=viewOf σ) GET_MODE p s Hs Hk Hr) as (db2 & l2 & n & Hdb2 & Hl2 & Hbegin).
  change (finishDbid _) with i in Hdb2, Hbegin. change (finishKey _) with (p_str p) in Hl2, Hbegin.
  cbn [pendingClients] in Hl2. assert (db2 = db) as -> by congruence.
  assert (l2 = l) as -> by congruence. fold f in Hbegin.
  eexists _, db'. split_and!; [unfold startHandler; by erewrite bind_run by exact Hbegin|done|done| |done|].
  { rewrite Hdb'. cbn. apply lookup_delete_eq. }
  intros Hq.
  destruct (handler_run (W:=viewOf σ) GET_MODE p db l (λ D, D = <[i := db']> (dbs s)) (answered (RBulk v)) s)
    as (s' & Hrun & Hd & Hc); [done..| |by exists s'].
  intros c Hin. destruct (si_pend _ _ _ _ Hs i db GET_MODE (p_str p) l c) as [(cl & Hcl & Hp) _]; [done..|].
  exists cl. split; [done|]. intros s' Henv Hd Hcl'.
  destruct (live_Some g db' (p_str p) (createStringObject v)
    (if 0 <? redisoo_get_ttl (cfg s) then Some (i64 (mstime g + redisoo_get_ttl (cfg s)))
     else live g db (p_str p) ≫= snd)) as (Hexp & Hdict & _).
  { rewrite Hlive. unfold storedView. by rewrite decide_True. }
  destruct (resume_get c cl i (p_str p) db' (Some (createStringObject v)) (finishResult f) s')
    as (r & Hrun & v' & Hv' & ->); [done|done|by apply (Hq c)| |done|by rewrite Henv|done| |].
  { rewrite Hd. apply list_lookup_insert_eq. by eapply lookup_lt_Some. }
  { unfold createStringObject. by case_match. }
  rewrite (string_obj_fun _ _ _ Hv' (createStringObject_string v)) in Hrun.
  eexists. by split_and!; [exact Hrun|..].
Qed.

(** The database and the waiting clients of key k in a state. *)
Definition db0 {D : Database} (σ : @system D) : redisDb :=
  match dbs (sys_srv σ) with db :: _ => db | [] => emptyDb end.

Lemma quiet_one (s : server) (c : clientId) :
  match clients s !! c with Some cl => bool_decide (c_querybuf cl = []) | None => true end = true →
  quiet s [c].
Proof.
  intros Hb c' cl ->%list_elem_of_singleton Hc. rewrite Hc in Hb. by apply bool_decide_eq_true in Hb.
Qed.

Lemma get_completion_hit_witness :
  ∃ s', @_getPipeMainThreadHandler noOther firstOrder (sys_srv returnedSystem) = Ok (tt, s') ∧
    clients s' !! 1%nat = answered (RBulk (B "v")) <$> clients (sys_srv returnedSystem) !! 1%nat.
Proof.
  destruct (@get_completion_hit noOther firstOrder tableDatabase returnedSystem (mkPtr 4 (B "k"))
    (B "v") (db0 returnedSystem) [1%nat]) as (s1 & db' & _ & _ & _ & _ & _ & Hquiet).
  - exact returnedSystem_reachable.
  - vm_compute. reflexivity.
  - vm_compute. reflexivity.
  - vm_compute. reflexivity.
  - vm_compute. reflexivity.
  - vm_compute. reflexivity.
  - vm_compute. reflexivity.
  - vm_compute. reflexivity.
  - vm_compute. split; discriminate.
  - vm_compute. discriminate.
  - destruct Hquiet as (s' & Hrun & _ & Hc).
    + apply quiet_one. vm_compute. reflexivity.
    + exists s'. split; [exact Hrun|]. rewrite Hc. reflexivity.
Defined.

(** When a GET job comes back without a value, every waiting client gets the null
    reply of its protocol version and returns to the normal state, and the databases
    change only by the removed pending entry. *)
Theorem get_completion_miss `{OtherCommands, CandidateOrder, Database} (σ : system) (p : sdsptr)
    (db : redisDb) (l : list clientId) :
  reachable σ → sys_pc σ = MIdle →
  let s := sys_srv σ in
  let i := Z.to_nat (getDbid (getJob s)) in
  getKey (getJob s) = Some p → returnGetKey (getJob s) = Some p →
  valFromBackend (getJob s) = None →
  dbs s !! i = Some db → backendGetKeys db !! p_str p = Some l → quiet s l →
  dict db !! p_str p = None →
  ∃ s', _getPipeMainThreadHandler s = Ok (tt, s') ∧
    (∀ c, clients s' !! c =
       if decide (c ∈ l) then (λ cl, answered (RNull (c_resp cl)) cl) <$> clients s !! c
       else clients s !! c) ∧
    dbs s' = <[i := with_get_keys (delete (p_str p) (backendGetKeys db)) db]> (dbs s).
Proof.
  intros Hreach Hpc s i Hk Hr Hv Hdb Hl Hq Hd.
  apply reachable_inv in Hreach as [Hs _ _ _]. rewrite Hpc in Hs. cbn in Hs. fold s in Hs.
  assert (db_ok db) as Hok by (eapply Forall_lookup_1; [apply (swf_dbs s), Hs|done]).
  set (f := finishedOf GET_MODE p s).
  assert (completedDb GET_MODE s f db = delPending GET_MODE (p_str p) db) as Hdb'.
  { unfold completedDb, finishedDb. cbn. by rewrite Hv. }
  destruct (handler_run (W:=viewOf σ) GET_MODE p db l (λ D, D = <[i := delPending GET_MODE (p_str p) db]> (dbs s))
    (λ cl, answered (RNull (c_resp cl)) cl) s) as (s' & Hrun & Hdbs & Hc); [done..| | |].
  - by fold f; rewrite Hdb'.
  - intros c Hin. destruct (si_pend _ _ _ _ Hs i db GET_MODE (p_str p) l c) as [(cl & Hcl & Hp) _]; [done..|].
    exists cl. split; [done|]. intros s' Henv Hdbs Hcl'.
    destruct (resume_get c cl i (p_str p) (delPending GET_MODE (p_str p) db) None (finishResult f) s')
      as (r & Hrun & ->); [done|done|by apply (Hq c)| |done| |done|done|].
    { rewrite Hdbs. apply list_lookup_insert_eq. by eapply lookup_lt_Some. }
    { apply absent_not_expired; [|done]. by apply db_ok_wf. }
    eexists. by split_and!; [exact Hrun|..].
  - exists s'. by split_and!; [exact Hrun|exact Hc|].
Qed.

Lemma get_completion_miss_witness :
  ∃ s', @_getPipeMainThreadHandler noOther firstOrder (sys_srv missedSystem) = Ok (tt, s') ∧
    clients s' !! 1%nat = (λ cl, answered (RNull (c_resp cl)) cl) <$> clients (sys_srv missedSystem) !! 1%nat.
Proof.
  destruct (@get_completion_miss noOther firstOrder tableDatabase missedSystem (mkPtr 4 (B "k"))
    (db0 missedSystem) [1%nat]) as (s' & Hrun & Hc & _).
  - exact missedSystem_reachable.
  - vm_compute. reflexivity.
  - vm_compute. reflexivity.
  - vm_compute. reflexivity.
  - vm_compute. reflexivity.
  - vm_compute. reflexivity.
  - vm_compute. reflexivity.
  - apply quiet_one. vm_compute. reflexivity.
  - vm_compute. reflexivity.
  - exists s'. split; [exact Hrun|]. rewrite Hc. reflexivity.
Defined.

Section Writes.
Context `{OtherCommands, CandidateOrder}.






(** A client waiting for SET k v without options. *)
Definition plainSet (k v : bytes) (cl : client) : Prop :=
  c_cmd cl = Some setCommandProc ∧ ∃ n, c_argv cl = [n; k; v].

(** Its answer: the flag of an earlier failure is still taken for a failure. *)
Definition accepted (cl : client) : client :=
  if backend_set_sync_reply cl then set_set_sync_reply false (answered (RNull 2) cl) else answered ROk cl.

Lemma resume_set c cl i k v db n s :
  n ≠ 0 → clients s !! c = Some cl → parkedOn SET_MODE i k cl → c_querybuf cl = [] → plainSet k v cl →
  dbs s !! i = Some db → db_ok db →
  ∃ s', (markFailure SET_MODE n c ;; _resumeBackendClient c) s = Ok (tt, s') ∧ sameContext s s' ∧
    clients s' = <[c := accepted cl]> (clients s) ∧
    (dbs s' = dbs s ∨ ∃ o, string_obj o v ∧ dbs s' = <[i := write_key (srv_env s) k o false db]> (dbs s)).
Proof.
  intros Hn Hc [Hst <- Hk _ _] Hq (Hcmd & n0 & Ha) Hdb Hok. unfold accepted.
  rewrite (bind_run _ _ s tt s) by (cbn [markFailure]; by rewrite (proj2 (Z.eqb_neq n 0))).
  set (cl1 := set_backend_state CLIENT_BACKEND_NORMAL cl).
  set (s1 := set_clients (<[c := cl1]> (clients s)) s).
  assert (clients s1 !! c = Some cl1) as Hc1 by apply lookup_insert_eq.
  destruct (backend_set_sync_reply cl) eqn:Hflag.
  - pose proof (call_set_failed setCommandProc c cl1 s1 Hc1 Hcmd) as Hcall. cbn [s1 clients set_clients] in Hcall.
    rewrite insert_insert_eq in Hcall. eexists.
    split; [erewrite resume_run; [reflexivity|done|by rewrite Hst|apply Hcall; [|done]|done]; cbn; by rewrite Ha|].
    split_and!; [done|done|by left].
  - destruct (call_set_generic setCommandProc c cl1 (mkSetReq 0 k v None UNIT_SECONDS None None) s1)
      as (o & Ho & Hcall); [done|done|cbn; by rewrite Ha|].
    cbn [sr_flags sr_key sr_expire sr_unit sr_ok sr_abort] in Hcall.
    erewrite setGeneric_run in Hcall; [|done|done|done|done|done].
    change (setAborts 0 _) with false in Hcall. unfold afterCommand in Hcall. cbn in Hcall.
    rewrite insert_insert_eq in Hcall. eexists.
    split_and!; [by erewrite resume_run; [|done|by rewrite Hst|exact Hcall|done]|done|done|].
    right. by exists o.
Qed.

End Writes.

(** *)
Theorem set_completion_succeeded `{OtherCommands, CandidateOrder, Database} (σ : system) (p : sdsptr)
    (v : bytes) (db : redisDb) (l : list clientId) :
  reachable σ → sys_pc σ = MIdle →
  let s := sys_srv σ in
  let g := srv_env s in
  let i := Z.to_nat (setDbid (setJob s)) in
  setKey (setJob s) = Some p → returnSetKey (setJob s) = Some p →
  valToBackend (setJob s) = Some v → setSyncResult (setJob s) ≠ 0 →
  dbs s !! i = Some db → pendingClients SET_MODE db (p_str p) = Some l → quiet s l →
  (∀ c cl, c ∈ l → clients s !! c = Some cl → plainSet (p_str p) v cl) →
  masterhost g = false → 0 ≤ mstime g ≤ LLONG_MAX → setTtl (setJob s) ≤ LLONG_MAX →
  ∃ s', _setPipeMainThreadHandler s = Ok (tt, s') ∧
    (∀ c, clients s' !! c = if decide (c ∈ l) then accepted <$> clients s !! c else clients s !! c) ∧
    ∃ db', dbs s' = <[i := db']> (dbs s) ∧ pendingClients SET_MODE db' (p_str p) = None ∧
      (∃ o t, string_obj o v ∧ live g db' (p_str p) = Some (o, t)) ∧
      ∀ k, k ≠ p_str p → live g db' k = live g db k.
Proof.
  intros Hreach Hpc s g i Hk Hr Hv Hres Hdb Hl Hq Hplain Hm Ht Httl.
  apply reachable_inv in Hreach as [Hs _ _ _]. rewrite Hpc in Hs. cbn in Hs. fold s in Hs.
  assert (db_ok db) as Hok by (eapply Forall_lookup_1; [apply (swf_dbs s), Hs|done]).
  set (f := finishedOf SET_MODE p s).
  set (I := λ D, ∃ db', D = <[i := db']> (dbs s) ∧ db_ok db' ∧
    pendingClients SET_MODE db' (p_str p) = None ∧
    (∃ o t, string_obj o v ∧ live g db' (p_str p) = Some (o, t)) ∧
    ∀ k, k ≠ p_str p → live g db' k = live g db k).
  assert (I (<[i := completedDb SET_MODE s f db]> (dbs s))) as HI.
  { assert (completedDb SET_MODE s f db =
      delPending SET_MODE (p_str p) (storeValue g (p_str p) v (setTtl (setJob s)) db)) as ->.
    { unfold completedDb, finishedDb. cbn. by rewrite Hv, (proj2 (Z.eqb_neq _ 0)). }
    eexists. split_and!; [done|by apply delPending_ok, storeValue_ok|by rewrite pendingClients_del, decide_True|..].
    - eexists (createStringObject v), _. split; [apply createStringObject_string|].
      rewrite live_delPending, live_storeValue by auto using db_ok_wf. unfold storedView. by rewrite decide_True.
    - intros k Hne. rewrite live_delPending, live_storeValue by auto using db_ok_wf. unfold storedView.
      by rewrite decide_False. }
  destruct (handler_run (W:=viewOf σ) SET_MODE p db l I accepted s)
    as (s' & Hrun & (db' & ? & _ & ? & ? & ?) & Hc); [done..| |exists s'; split_and!; eauto].
  intros c Hin. destruct (si_pend _ _ _ _ Hs i db SET_MODE (p_str p) l c) as [(cl & Hcl & Hp) _]; [done..|].
  exists cl. split; [done|]. intros s' Henv (db' & Hd & Hok' & Hpend & Hkey & Hoth) Hcl'.
  destruct (resume_set c cl i (p_str p) v db' (finishResult f) s') as (s2 & Hrun & Hctx & Hc2 & Hd2);
    [done|done|done|by apply (Hq c)|by apply (Hplain c)| |done|].
  { rewrite Hd. by eapply list_lookup_insert_eq, lookup_lt_Some. }
  exists s2. split_and!; [exact Hrun|done| |done].
  destruct Hd2 as [->|(o & Ho & ->)]; [by exists db'|]. rewrite Henv, Hd, list_insert_insert_eq.
  exists (write_key g (p_str p) o false db'). split_and!; [done|by eapply db_ok_write_key| | |].
  - by rewrite (pendingClients_same db') by apply same_backend_write_key.
  - exists o, None. split; [done|]. rewrite live_write_key by auto using db_ok_wf. unfold abs_set.
    by rewrite decide_True.
  - intros k Hne. rewrite live_write_key by auto using db_ok_wf. unfold abs_set.
    rewrite decide_False by done. by apply Hoth.
Qed.

Lemma set_completion_succeeded_witness :
  ∃ s', @_setPipeMainThreadHandler noOther firstOrder (sys_srv writtenSystem) = Ok (tt, s') ∧
    clients s' !! 1%nat = answered ROk <$> clients (sys_srv writtenSystem) !! 1%nat.
Proof.
  destruct (@set_completion_succeeded noOther firstOrder tableDatabase writtenSystem
    (mkPtr 4 (B "k")) (B "v") (db0 writtenSystem) [1%nat]) as (s' & Hrun & Hc & _).
  - exact writtenSystem_reachable.
  - vm_compute. reflexivity.
  - vm_compute. reflexivity.
  - vm_compute. reflexivity.
  - vm_compute. reflexivity.
  - vm_compute. discriminate.
  - vm_compute. reflexivity.
  - vm_compute. reflexivity.
  - apply quiet_one. vm_compute. reflexivity.
  - intros c cl ->%list_elem_of_singleton Hcl. vm_compute in Hcl. injection Hcl as <-.
    split; [reflexivity|]. eexists. vm_compute. reflexivity.
  - vm_compute. reflexivity.
  - vm_compute. split; discriminate.
  - vm_compute. discriminate.
  - exists s'. split; [exact Hrun|]. rewrite Hc. vm_compute. reflexivity.
Defined.


