(* ===== verification/BackendPark.v ===== *)
(** * BackendPark: what a request does when the backend is on

    A GET that finds its key is answered from the cache; one that does not
    parks its client on the key and makes sure that a job for a pending key is
    under way.  A SET with another value than the pending SET of its key is executed in
    the cache and does not reach the database. *)

From Stdlib Require Import Ascii String ZifyBool.
From stdpp Require Import base tactics option list strings numbers gmap fin_maps functions relations.
From S2P Require Import Prelude Util Object Db Server TString StringProps Backend BackendWorker BackendInv BackendExec BackendSystem BackendRuns BackendFunc.

Local Open Scope Z_scope.

Section Park.
Context `{OtherCommands, CandidateOrder}.

(** The backend answers GETs. *)
Definition getEnabled (cf : config) : bool :=
  negb (redisoo_db_type cf =? 0) &&
  ((redisoo_db_type cf =? GRPC) || negb (emptyStatement (redisoo_get cf))).

(** The new waiter of a key. *)
Definition waiterOf (sync : bool) (c : clientId) : list clientId := if sync then [c] else [].

(** ** Looking for a job *)

(** With one pending key, the new job is for that key. *)
Lemma createNewJob_only i k s :
  getKey (getJob s) = None → returnGetKey (getJob s) = None →
  (∀ j db k', dbs s !! j = Some db → is_Some (backendGetKeys db !! k') → j = i ∧ k' = k) →
  (∃ db, dbs s !! i = Some db ∧ is_Some (backendGetKeys db !! k)) →
  ∃ p s', _createNewJobIfHasMoreCandidates GET_MODE true s = Ok (tt, s') ∧
    sameData s s' ∧ srv_env s' = srv_env s ∧
    getKey (getJob s') = Some p ∧ p_str p = k ∧ getDbid (getJob s') = Z.of_nat i.
Proof.
  intros Hk Hr Honly (db & Hdb & Hpend). unfold _createNewJobIfHasMoreCandidates.
  rewrite (bind_run get _ s s s) by done. cbn [jobKey jobReturnKey]. rewrite Hk, Hr. cbn [isNull negb andb].
  destruct (hasAvailableCandidate_run GET_MODE s) as ([[j k']|] & Hrun & Hcand).
  2:{ specialize (Hcand i db k Hdb). cbn in Hcand. rewrite Hcand in Hpend. by destruct Hpend. }
  destruct Hcand as (db' & Hj & Hk'). destruct (Honly j db' k' Hj Hk') as [-> ->].
  erewrite bind_run by exact Hrun. cbn beta iota. rewrite (bind_run (gets getJob) _ s (getJob s) s) by done.
  erewrite bind_run by (apply serverAssert_run; by rewrite Hk, Hr).
  unfold sdsdup. cbv [mbind M_bind get put mret M_ret modify]. eexists _, _. split_and!; done.
Qed.

(** A slot in use stays as it is. *)
Lemma createNewJob_busy m s :
  is_Some (jobKey m s) → _createNewJobIfHasMoreCandidates m true s = Ok (tt, s).
Proof.
  intros [p Hp]. unfold _createNewJobIfHasMoreCandidates. rewrite (bind_run get _ s s s) by done.
  by rewrite Hp.
Qed.

(** ** The test *)

(** The backend has just answered that it does not have the key, and the completion
    of that job is under way. *)
Definition answeredMissing (s : server) (k : bytes) : bool :=
  isNull (valFromBackend (getJob s)) &&
  match returnGetKey (getJob s) with Some r => bool_decide (p_str r = k) | None => false end.

(** The key goes to the backend. *)
Definition goesToBackend (s : server) (db : redisDb) (k : bytes) : bool :=
  bool_decide (live (srv_env s) db k = None) && negb (answeredMissing s k).

Lemma checkGet_run c cl k db s :
  clients s !! c = Some cl → c_cmd cl = Some getCommandProc → c_argv cl !! 1%nat = Some k →
  dbs s !! c_db cl = Some db → db_ok db → masterhost (srv_env s) = false →
  getEnabled (cfg s) = true →
  _checkGetCommandForBackendState c s =
  Ok (goesToBackend s db k,
      set_dbs (<[c_db cl := purge (srv_env s) k db]> (dbs s)) s).
Proof.
  intros Hc Hcmd Hk Hdb Hok Hm Hen. unfold _checkGetCommandForBackendState, goesToBackend.
  erewrite bind_run by by apply getClient_run.
  erewrite (bind_run _ _ _ getCommandProc) by by rewrite Hcmd.
  rewrite bool_decide_eq_true_2 by done. cbn [negb]. rewrite (bind_run get _ s s s) by done.
  assert (negb (redisoo_db_type (cfg s) =? GRPC) && emptyStatement (redisoo_get (cfg s)) = false) as ->.
  { unfold getEnabled in Hen. apply andb_true_iff in Hen as [_ Hen]. by destruct (_ =? GRPC), (emptyStatement _). }
  erewrite bind_run by by apply argv_run.
  erewrite bind_run; [|eapply withDb_run; [done|by apply lookupKeyRead_run, db_ok_wf]].
  rewrite Hm. cbn [negb orb]. rewrite andb_true_r.
  rewrite read_live.
  destruct (live (srv_env s) db k) as [[o e]|] eqn:Hl; cbn [fmap option_fmap option_map].
  - by rewrite bool_decide_eq_true_2 by by eexists.
  - rewrite bool_decide_eq_false_2 by by intros [].
    rewrite bool_decide_eq_true_2 by done. cbv [mbind M_bind gets mret M_ret]. by cbn [getJob set_dbs].
Qed.

Lemma addKey_get_run c cl k db sync s :
  clients s !! c = Some cl → c_argv cl !! 1%nat = Some k → dbs s !! c_db cl = Some db →
  _addKeyToBackendKeys GET_MODE c sync s =
  Ok (tt, set_dbs (<[c_db cl := with_get_keys
    (<[k := default [] (backendGetKeys db !! k) ++ waiterOf sync c]> (backendGetKeys db)) db]> (dbs s)) s).
Proof.
  intros Hc Hk Hdb. unfold _addKeyToBackendKeys. erewrite bind_run by by apply getClient_run.
  erewrite bind_run by by apply argv_run. by erewrite withDb_run.
Qed.

(** ** A request *)

(** The client whose next request is parsed, and then being executed. *)
Definition received (a : list bytes) (q : list (list bytes)) (cl : client) : client :=
  set_querybuf q (set_cmd (c_cmd cl) a cl).
Definition requesting (p : proc) (a : list bytes) (q : list (list bytes)) (cl : client) : client :=
  set_cmd (Some p) a (set_querybuf q cl).

Lemma short_not_quit name w : tolower <$> name = B w → (length (B w) < 4)%nat → strcaseeq name (B "quit") = false.
Proof.
  intros Hn Hw. unfold strcaseeq. apply bool_decide_eq_false. intros Hq.
  apply (f_equal length) in Hq, Hn. rewrite !length_fmap in Hq. rewrite length_fmap in Hn.
  assert (∀ b : bytes, length (cstr b) ≤ length b)%nat as Hle.
  { induction b as [|d b IH]; cbn; [done|]. case_bool_decide; cbn; lia. }
  specialize (Hle name). change (length (cstr (B "quit"))) with 4%nat in Hq. lia.
Qed.

(** [processCommand] up to the backend test, outside of a transaction. *)
Lemma processCommand_plain p name a c cl s :
  clients s !! c = Some cl → c_argv cl = name :: a → strcaseeq name (B "quit") = false →
  lookupCommand name = Some p → arityOk p (Z.of_nat (length (name :: a))) = true →
  c_multi cl = false → admission s cl p = None →
  processCommand c s =
  (checkNeedToBackendState c ;;
   cl ← getClient c;
   (if bool_decide (backend_state cl = CLIENT_BACKEND_NORMAL) then call c else mret tt) ;;
   mret true) (set_clients (<[c := set_cmd (Some p) (name :: a) cl]> (clients s)) s).
Proof.
  intros Hc Ha Hquit Hlk Har Hm Had. unfold processCommand. erewrite bind_run by by apply getClient_run.
  erewrite bind_run by (apply argv_run; by rewrite Ha). rewrite Hquit.
  erewrite bind_run by by apply updClient_run. rewrite Hlk, Ha, Har. cbn [negb].
  set (s1 := set_clients _ s). rewrite (bind_run get _ s1 s1 s1) by done.
  replace (admission s1 cl p) with (admission s cl p) by done.
  by rewrite Had, Hm.
Qed.

(** [checkNeedToBackendState] of a GET. *)
Lemma checkNeed_get c cl k db s :
  clients s !! c = Some cl → c_cmd cl = Some getCommandProc → c_argv cl !! 1%nat = Some k →
  backend_state cl = CLIENT_BACKEND_NORMAL → c_multi cl = false →
  dbs s !! c_db cl = Some db → db_ok db → masterhost (srv_env s) = false →
  getEnabled (cfg s) = true →
  checkNeedToBackendState c s =
  (if goesToBackend s db k
   then toBackend GET_MODE c (redisoo_get_sync (cfg s)) CLIENT_BACKEND_GET else mret tt)
  (set_dbs (<[c_db cl := purge (srv_env s) k db]> (dbs s)) s).
Proof.
  intros Hc Hcmd Hk Hst Hmu Hdb Hok Hm Hen. unfold checkNeedToBackendState.
  erewrite bind_run by by apply getClient_run.
  erewrite bind_run by (apply serverAssert_run; by rewrite bool_decide_eq_true_2).
  rewrite (bind_run get _ s s s) by done. rewrite Hmu.
  assert (redisoo_db_type (cfg s) =? 0 = false) as -> by (unfold getEnabled in Hen; by destruct (_ =? 0)).
  erewrite bind_run by by eapply checkGet_run. destruct (goesToBackend _ _ _); [done|].
  set (s1 := set_dbs _ s).
  rewrite (bind_run (_checkSetCommandForBackendState c) _ s1 false s1).
  2:{ unfold _checkSetCommandForBackendState. erewrite bind_run by by apply getClient_run.
      by erewrite (bind_run _ _ _ getCommandProc) by by rewrite Hcmd. }
  rewrite (bind_run (_checkDelCommandForBackendState c) _ s1 false s1); [done|].
  unfold _checkDelCommandForBackendState. erewrite bind_run by by apply getClient_run.
  by erewrite (bind_run _ _ _ getCommandProc) by by rewrite Hcmd.
Qed.

(** A pending key and its job after [toBackend]. *)
Definition jobFor (s s' : server) (i : nat) (k : bytes) : Prop :=
  match getKey (getJob s) with
  | Some _ => getJob s' = getJob s
  | None => getDbid (getJob s') = Z.of_nat i ∧ p_str <$> getKey (getJob s') = Some k
  end.

Lemma toBackend_get c cl k db (sync : bool) s :
  clients s !! c = Some cl → c_argv cl !! 1%nat = Some k → dbs s !! c_db cl = Some db →
  (getKey (getJob s) = None → returnGetKey (getJob s) = None ∧ noCandidates GET_MODE s) →
  let db' := with_get_keys
    (<[k := default [] (backendGetKeys db !! k) ++ waiterOf sync c]> (backendGetKeys db)) db in
  ∃ s', toBackend GET_MODE c sync CLIENT_BACKEND_GET s = Ok (tt, s') ∧
    clients s' = (if sync then <[c := set_backend_state CLIENT_BACKEND_GET cl]> (clients s)
                  else clients s) ∧
    dbs s' = <[c_db cl := db']> (dbs s) ∧ srv_env s' = srv_env s ∧ jobFor s s' (c_db cl) k.
Proof.
  intros Hc Hk Hdb Hno db'. unfold toBackend, jobFor.
  set (s1 := if sync then set_clients (<[c := set_backend_state CLIENT_BACKEND_GET cl]> (clients s)) s else s).
  rewrite (bind_run _ _ s tt s1) by (destruct sync; [by apply updClient_run|done]).
  assert (∃ cl1, clients s1 !! c = Some cl1 ∧ c_argv cl1 = c_argv cl ∧ c_db cl1 = c_db cl)
    as (cl1 & Hc1 & Ha1 & Hd1) by (destruct sync; eexists; (split; [apply lookup_insert_eq || exact Hc|done])).
  assert (dbs s1 = dbs s ∧ getJob s1 = getJob s) as [Hs1 Hj1] by by destruct sync.
  erewrite bind_run; [|apply (addKey_get_run c cl1 k db); [done|by rewrite Ha1|by rewrite Hd1, Hs1]].
  rewrite Hd1, Hs1. fold db'. set (s2 := set_dbs (<[c_db cl := db']> (dbs s)) s1).
  assert (c_db cl < length (dbs s))%nat as Hlt by by eapply lookup_lt_Some.
  assert (clients s2 = clients s1 ∧ getJob s2 = getJob s ∧ srv_env s2 = srv_env s)
    as (Hcs2 & Hj2 & He2) by (by destruct sync).
  assert (clients s1 = if sync then <[c := set_backend_state CLIENT_BACKEND_GET cl]> (clients s)
                       else clients s) as Hcs1 by by destruct sync.
  destruct (getKey (getJob s)) as [p|] eqn:Hgk.
  { exists s2. by rewrite createNewJob_busy by (cbn; rewrite Hj1, Hgk; by eexists). }
  destruct (Hno eq_refl) as [Hr Hnone].
  destruct (createNewJob_only (c_db cl) k s2) as (p & s' & -> & [Hd' Hc'] & He' & Hp & Hpk & Hdi);
    [by rewrite Hj2|by rewrite Hj2| | |].
  - intros j db1 k' Hj Hpend. cbn in Hj. apply list_lookup_insert_Some in Hj as [(<- & <- & _)|[_ Hj]].
    + cbn in Hpend. destruct (decide (k' = k)) as [->|Hne]; [done|].
      rewrite lookup_insert_ne in Hpend by done.
      specialize (Hnone (c_db cl) db k' Hdb). cbn in Hnone. rewrite Hnone in Hpend. by destruct Hpend.
    + specialize (Hnone j db1 k' Hj). cbn in Hnone. rewrite Hnone in Hpend. by destruct Hpend.
  - exists db'. split; [by apply list_lookup_insert_eq|]. cbn. rewrite lookup_insert_eq. by eexists.
  - exists s'. rewrite Hd', Hc', Hp, He', <-Hpk. by rewrite Hcs2, Hcs1.
Qed.

(** One turn of the input loop, from the run of its parts. *)
Lemma processInputStep_plain p name a q c cl cl1 cl' s s1 s' :
  clients s !! c = Some cl → c_querybuf cl = (name :: a) :: q → strcaseeq name (B "quit") = false →
  lookupCommand name = Some p → arityOk p (Z.of_nat (length (name :: a))) = true →
  backend_state cl = CLIENT_BACKEND_NORMAL → c_multi cl = false → c_close cl = false →
  admission s (received (name :: a) q cl) p = None →
  checkNeedToBackendState c
    (set_clients (<[c := requesting p (name :: a) q cl]> (clients s)) s) = Ok (tt, s1) →
  clients s1 !! c = Some cl1 → clients s' !! c = Some cl' → backend_state cl' = backend_state cl1 →
  (if bool_decide (backend_state cl1 = CLIENT_BACKEND_NORMAL) then call c s1 else Ok (tt, s1)) = Ok (tt, s') →
  processInputStep c s =
  Ok (true, if bool_decide (backend_state cl1 = CLIENT_BACKEND_NORMAL)
            then set_clients (<[c := set_cmd None [] cl']> (clients s')) s' else s').
Proof.
  intros Hc Hq Hquit Hlk Har Hst Hmu Hcl Had Hcheck Hc1 Hc' Hst' Hcall. unfold processInputStep.
  erewrite bind_run by by apply getClient_run. rewrite Hq, bool_decide_eq_true_2, Hcl by done. cbn [negb].
  erewrite bind_run by by apply updClient_run. rewrite bool_decide_eq_false_2 by done.
  set (s0 := set_clients _ s). unfold processCommandAndResetClient.
  assert (processCommand c s0 = Ok (true, s')) as Hrun.
  { rewrite (processCommand_plain p name a c (received (name :: a) q cl));
      [|apply lookup_insert_eq|done..].
    cbn [s0 clients set_clients]. rewrite insert_insert_eq.
    erewrite bind_run by exact Hcheck. erewrite bind_run by by apply getClient_run.
    erewrite bind_run; [done|]. rewrite <-Hcall. by case_bool_decide. }
  rewrite (bind_run _ _ s0 tt (if bool_decide (backend_state cl1 = CLIENT_BACKEND_NORMAL)
            then set_clients (<[c := set_cmd None [] cl']> (clients s')) s' else s')); [done|].
  erewrite bind_run by exact Hrun. erewrite bind_run by by apply getClient_run. rewrite Hst'.
  case_bool_decide; [|done]. by apply updClient_run.
Qed.

Lemma processInputStep_get name k q c cl cl1 cl' s s1 s' :
  clients s !! c = Some cl → c_querybuf cl = [name; k] :: q → tolower <$> name = B "get" →
  backend_state cl = CLIENT_BACKEND_NORMAL → c_multi cl = false → c_close cl = false →
  admission s (received [name; k] q cl) getCommandProc = None →
  checkNeedToBackendState c
    (set_clients (<[c := requesting getCommandProc [name; k] q cl]> (clients s)) s) = Ok (tt, s1) →
  clients s1 !! c = Some cl1 → clients s' !! c = Some cl' → backend_state cl' = backend_state cl1 →
  (if bool_decide (backend_state cl1 = CLIENT_BACKEND_NORMAL) then call c s1 else Ok (tt, s1)) = Ok (tt, s') →
  processInputStep c s =
  Ok (true, if bool_decide (backend_state cl1 = CLIENT_BACKEND_NORMAL)
            then set_clients (<[c := set_cmd None [] cl']> (clients s')) s' else s').
Proof.
  intros ? ? Hn. apply processInputStep_plain; try done.
  - apply (short_not_quit name "get"); [done|cbn; lia].
  - unfold lookupCommand. by rewrite bool_decide_eq_true_2.
Qed.

End Park.

Section Request.
Context `{OtherCommands, CandidateOrder}.
Context (c : clientId) (cl : client) (name k : bytes) (q : list (list bytes)) (db : redisDb) (s : server).
Context (Hc : clients s !! c = Some cl) (Hq : c_querybuf cl = [name; k] :: q).
Context (Hn : tolower <$> name = B "get") (Hst : backend_state cl = CLIENT_BACKEND_NORMAL).
Context (Hmu : c_multi cl = false) (Hcl : c_close cl = false) 
  (Had : admission s (received [name; k] q cl) getCommandProc = None).
Context (Hdb : dbs s !! c_db cl = Some db) (Hok : db_ok db) (Hm : masterhost (srv_env s) = false).
Context (Hen : getEnabled (cfg s) = true).
Let g := srv_env s.
Let i := c_db cl.
Let sync := redisoo_get_sync (cfg s).
Let cl1 := requesting getCommandProc [name; k] q cl.
Let s2 := set_clients (<[c := cl1]> (clients s)) s.
Let s3 := set_dbs (<[i := purge g k db]> (dbs s)) s2.

Lemma request_check :
  checkNeedToBackendState c s2 =
  (if goesToBackend s db k then toBackend GET_MODE c sync CLIENT_BACKEND_GET else mret tt) s3.
Proof using All. apply (checkNeed_get c cl1 k db s2); try done; apply lookup_insert_eq. Qed.

Lemma request_db : dbs s3 !! i = Some (purge g k db).
Proof using Hdb. by eapply list_lookup_insert_eq, lookup_lt_Some. Qed.

(** Answered from the cache, with the value or with the null reply. *)
Lemma request_hit : goesToBackend s db k = false →
  ∃ s' db' r, processInputStep c s = Ok (true, s') ∧ dbs s' = <[i := db']> (dbs s) ∧ obs_eq g db' db ∧
    backendGetKeys db' = backendGetKeys db ∧ getJob s' = getJob s ∧
    getReply (c_resp cl) (fst <$> live g db k) r ∧
    clients s' = <[c := set_cmd None [] (push_reply r cl1)]> (clients s).
Proof using All.
  intros Hl. pose proof request_check as Hcheck. rewrite Hl in Hcheck.
  destruct (getCommand_run c cl1 k (purge g k db) s3) as (r & Hr & Hcall);
    [apply lookup_insert_eq|done|done|apply request_db|by apply db_ok_purge|done|].
  rewrite (live_purge g Hm) in Hr. set (s4 := afterCommand c cl1 r _ _ _ s3) in Hcall.
  pose proof (processInputStep_get name k q c cl cl1 (push_reply r cl1) s s3 s4 Hc Hq Hn Hst Hmu Hcl Had Hcheck
    (lookup_insert_eq _ _ _)) as Hstep.
  rewrite bool_decide_eq_true_2 in Hstep by done. rewrite Hcall in Hstep.
  exists (set_clients (<[c := set_cmd None [] (push_reply r cl1)]> (clients s4)) s4),
    (purge g k (purge g k db)), r. split; [apply Hstep; [apply lookup_insert_eq|done..]|]. split_and!.
  - cbn. by rewrite list_insert_insert_eq.
  - rewrite purge_purge. by apply live_purge.
  - rewrite purge_purge. apply same_backend_purge.
  - done.
  - done.
  - cbn. by rewrite !insert_insert_eq.
Qed.

Context (Hno : getKey (getJob s) = None → returnGetKey (getJob s) = None ∧ noCandidates GET_MODE s).

Lemma request_noCandidates :
  getKey (getJob s3) = None → returnGetKey (getJob s3) = None ∧ noCandidates GET_MODE s3.
Proof using Hno Hdb.
  intros [Hr Hnone]%Hno. split; [done|]. intros j db' k' Hj. cbn [s3 s2 dbs set_dbs set_clients] in Hj.
  apply list_lookup_insert_Some in Hj as [(<- & <- & _)|[_ Hj]]; [|by eapply Hnone].
  rewrite (pendingClients_same db) by apply same_backend_purge. by eapply Hnone.
Qed.

Lemma request_miss : goesToBackend s db k = true →
  ∃ s' db', processInputStep c s = Ok (true, s') ∧ dbs s' = <[i := db']> (dbs s) ∧ obs_eq g db' db ∧
    backendGetKeys db' = <[k := default [] (backendGetKeys db !! k) ++ waiterOf sync c]> (backendGetKeys db) ∧
    jobFor s s' i k ∧
    clients s' = <[c := if sync then set_backend_state CLIENT_BACKEND_GET cl1
                        else set_cmd None [] (push_reply (RNull (c_resp cl)) cl1)]> (clients s).
Proof using All.
  intros Hgo. pose proof request_check as Hcheck. rewrite Hgo in Hcheck.
  unfold goesToBackend in Hgo. apply andb_true_iff in Hgo as [Hl%bool_decide_eq_true _]. fold g in Hl.
  destruct (toBackend_get c cl1 k (purge g k db) sync s3) as (s' & Hrun & Hcs & Hds & Henv & Hj);
    [apply lookup_insert_eq|done|apply request_db|apply request_noCandidates|].
  rewrite Hrun in Hcheck. cbn [s3 s2 dbs clients set_dbs set_clients] in Hcs, Hds.
  rewrite list_insert_insert_eq in Hds. set (db' := with_get_keys _ _) in Hds.
  assert (obs_eq g db' db) as Hobs by by apply live_purge.
  assert (backendGetKeys db' =
    <[k := default [] (backendGetKeys db !! k) ++ waiterOf sync c]> (backendGetKeys db)) as Hkeys.
  { unfold db'. cbn. destruct (same_backend_purge g k db) as (-> & _). done. }
  assert (db_ok db') as Hok' by by apply (db_ok_purge g k).
  change (srv_env s3) with g in Henv.
  destruct sync.
  - rewrite insert_insert_eq in Hcs. exists s', db'. split_and!; try done.
    eapply (processInputStep_get name k q c cl (set_backend_state CLIENT_BACKEND_GET cl1)
      (set_backend_state CLIENT_BACKEND_GET cl1) s s' s'); try done; rewrite Hcs; apply lookup_insert_eq.
  - destruct (getCommand_run c cl1 k db' s') as (r & Hr & Hcall); rewrite ?Henv in *; try done.
    { rewrite Hcs. apply lookup_insert_eq. }
    { rewrite Hds. by eapply list_lookup_insert_eq, lookup_lt_Some. }
    rewrite Hobs, Hl in Hr. cbn in Hr. subst r. set (s4 := afterCommand c cl1 _ _ _ _ s') in Hcall.
    exists (set_clients (<[c := set_cmd None [] (push_reply (RNull (c_resp cl)) cl1)]> (clients s4)) s4),
      (purge g k db'). split_and!.
    + rewrite (processInputStep_get name k q c cl cl1 (push_reply (RNull (c_resp cl)) cl1) s s' s4); try done;
        rewrite ?bool_decide_eq_true_2 by done; try done; [rewrite Hcs|]; apply lookup_insert_eq.
    + cbn. by rewrite Hds, list_insert_insert_eq.
    + intros k'. by rewrite (live_purge g Hm).
    + rewrite <-Hkeys. apply same_backend_purge.
    + done.
    + cbn. by rewrite Hcs, !insert_insert_eq.
Qed.

End Request.

(** C8. In any reachable state of a master with the backend on for GET, a GET of a
    client that is in the normal backend state, not in MULTI, not being closed, and
    passes the admission tests of processCommand (access control, memory and so on):
    when the key is in the cache, or the handled GET job has just found that this
    key (of any database) is not in the database, the client gets the reply of GET
    at once and nothing is queued; otherwise the key becomes pending, a synchronous
    client is parked at the end of its waiting list without a reply and an
    asynchronous one gets the null reply, and if the job slot was free the new job
    is for exactly this key. The values and expire times that can be observed, the
    other databases and the other clients stay as they are. *)
Theorem get_request `{OtherCommands, CandidateOrder, Database} (σ : system) (c : clientId) (h : handling)
    (cl : client) (name k : bytes) (q : list (list bytes)) (db : redisDb) :
  let s := sys_srv σ in
  let g := srv_env s in
  let cl1 := requesting getCommandProc [name; k] q cl in
  let sync := redisoo_get_sync (cfg s) in
  reachable σ → sys_pc σ = MInput c h →
  clients s !! c = Some cl → c_querybuf cl = [name; k] :: q → tolower <$> name = B "get" →
  backend_state cl = CLIENT_BACKEND_NORMAL → c_multi cl = false → c_close cl = false →
  admission s (received [name; k] q cl) getCommandProc = None → dbs s !! c_db cl = Some db →
  masterhost g = false → getEnabled (cfg s) = true →
  ∃ s' db', processInputStep c s = Ok (true, s') ∧ dbs s' = <[c_db cl := db']> (dbs s) ∧ obs_eq g db' db ∧
    if bool_decide (live g db k = None) && negb (answeredMissing s k) then
      backendGetKeys db' = <[k := default [] (backendGetKeys db !! k) ++ waiterOf sync c]> (backendGetKeys db) ∧
      jobFor s s' (c_db cl) k ∧
      clients s' = <[c := if sync then set_backend_state CLIENT_BACKEND_GET cl1
                          else set_cmd None [] (push_reply (RNull (c_resp cl)) cl1)]> (clients s)
    else
      backendGetKeys db' = backendGetKeys db ∧ getJob s' = getJob s ∧
      ∃ r, getReply (c_resp cl) (fst <$> live g db k) r ∧
        clients s' = <[c := set_cmd None [] (push_reply r cl1)]> (clients s).
Proof.
  intros s g cl1 sync Hreach Hpc Hc Hq Hn Hst Hmu Hcl Had Hdb Hm Hen.
  apply reachable_inv in Hreach as [Hs _ _ _]. rewrite Hpc in Hs. cbn in Hs. fold s in Hs.
  assert (db_ok db) as Hok by (eapply Forall_lookup_1; [apply (swf_dbs s), Hs|done]).
  change (bool_decide (live g db k = None) && negb (answeredMissing s k)) with (goesToBackend s db k).
  destruct (goesToBackend s db k) eqn:Hgo.
  - apply request_miss; try done. intros Hk. pose proof (si_job _ _ _ _ Hs GET_MODE) as Hj.
    unfold jobInv in Hj. cbn in Hj. rewrite Hk in Hj. destruct Hj as (? & _ & _ & _ & Hnone).
    split; [done|by apply Hnone].
  - destruct (request_hit c cl name k q db s) as (s' & db' & r & ? & ? & ? & ? & ? & ? & ?); [done..|].
    exists s', db'. split_and!; [done..|]. by exists r.
Qed.

Lemma get_request_witness :
  ∃ s', @processInputStep noOther firstOrder 1%nat (sys_srv askedSystem) = Ok (true, s') ∧
    @jobFor (sys_srv askedSystem) s' 0 (B "k").
Proof.
  destruct (@get_request noOther firstOrder tableDatabase askedSystem 1%nat None
    (default (createClient true) (clients (sys_srv askedSystem) !! 1%nat)) (B "GET") (B "k") []
    (db0 askedSystem)) as (s' & db' & Hrun & _ & _ & Hmiss).
  - exact askedSystem_reachable.
  - vm_compute. reflexivity.
  - vm_compute. reflexivity.
  - vm_compute. reflexivity.
  - vm_compute. reflexivity.
  - vm_compute. reflexivity.
  - vm_compute. reflexivity.
  - vm_compute. reflexivity.
  - vm_compute. reflexivity.
  - vm_compute. reflexivity.
  - vm_compute. reflexivity.
  - vm_compute. reflexivity.
  - exists s'. split; [exact Hrun|]. apply Hmiss.
Defined.

(** ** A SET of a key that another SET is being written for *)

(** The backend writes SETs. *)
Definition setEnabled (cf : config) : bool :=
  negb (redisoo_db_type cf =? 0) && negb (emptyStatement (redisoo_set cf)).

Section Conflict.
Context `{OtherCommands, CandidateOrder}.

Lemma lookup_set name : tolower <$> name = B "set" → lookupCommand name = Some setCommandProc.
Proof. intros Hn. unfold lookupCommand. by rewrite Hn. Qed.

(** A pending SET of another value keeps the command out of the backend. *)
Lemma checkNeed_conflict c cl k w v db s :
  clients s !! c = Some cl → c_cmd cl = Some setCommandProc → c_argv cl !! 1%nat = Some k →
  c_argv cl !! 2%nat = Some w → backend_state cl = CLIENT_BACKEND_NORMAL → c_multi cl = false →
  dbs s !! c_db cl = Some db → setEnabled (cfg s) = true → pendingValue db k = Some v → v ≠ w →
  checkNeedToBackendState c s = Ok (tt, s).
Proof.
  intros Hc Hcmd Hk Hw Hst Hmu Hdb Hen Hv Hne. unfold setEnabled in Hen.
  apply andb_true_iff in Hen as [Htype%negb_true_iff Hstmt%negb_true_iff].
  unfold checkNeedToBackendState. erewrite bind_run by by apply getClient_run.
  erewrite bind_run by (apply serverAssert_run; by rewrite bool_decide_eq_true_2).
  rewrite (bind_run get _ s s s) by done. rewrite Hmu, Htype.
  rewrite (bind_run (_checkGetCommandForBackendState c) _ s false s).
  2:{ unfold _checkGetCommandForBackendState. erewrite bind_run by by apply getClient_run.
      by erewrite (bind_run _ _ _ setCommandProc) by by rewrite Hcmd. }
  rewrite (bind_run (_checkSetCommandForBackendState c) _ s false s).
  2:{ unfold _checkSetCommandForBackendState. erewrite bind_run by by apply getClient_run.
      erewrite (bind_run _ _ _ setCommandProc) by by rewrite Hcmd. cbn [_isSetCommnd].
      change (_isSetCommnd setCommandProc) with true. cbn [negb].
      rewrite (bind_run get _ s s s) by done. rewrite Hstmt.
      rewrite (bind_run _ _ s false s) by done. cbn beta iota.
      rewrite (bind_run (_isSameKeyWithDifferentValForSet c) _ s true s); [done|].
      unfold _isSameKeyWithDifferentValForSet. erewrite bind_run by by apply getClient_run.
      erewrite bind_run by by apply argv_run. erewrite bind_run by by apply argv_run.
      unfold pendingValue in Hv. apply fmap_Some in Hv as (info & Hinfo & ->).
      erewrite bind_run.
      2:{ unfold clientSetInfo. by erewrite bind_run by by eapply withDb_read. }
      rewrite Hinfo, bool_decide_eq_false_2 by done. done. }
  rewrite (bind_run (_checkDelCommandForBackendState c) _ s false s); [done|].
  unfold _checkDelCommandForBackendState. erewrite bind_run by by apply getClient_run.
  by erewrite (bind_run _ _ _ setCommandProc) by by rewrite Hcmd.
Qed.

End Conflict.

(** C40. In any reachable state of a master with the backend on for SET, a SET without
    options, with another value than the SET of the same key that is pending, of a
    client that is in the normal backend state, not in MULTI, not being closed, not
    flagged with a failed write and admitted by processCommand, skips the backend:
    it is answered OK, the value is in the cache only, without an expire time, and
    the pending keys and the jobs are unchanged, so that the database keeps the
    other value. *)
Theorem conflicting_set_skips_backend `{OtherCommands, CandidateOrder, Database} (σ : system)
    (c : clientId) (h : handling) (cl : client) (name k v w : bytes) (q : list (list bytes)) (db : redisDb) :
  let s := sys_srv σ in
  let g := srv_env s in
  reachable σ → sys_pc σ = MInput c h →
  clients s !! c = Some cl → c_querybuf cl = [name; k; w] :: q → tolower <$> name = B "set" →
  backend_state cl = CLIENT_BACKEND_NORMAL → c_multi cl = false → c_close cl = false →
  backend_set_sync_reply cl = false →
  admission s (received [name; k; w] q cl) setCommandProc = None → dbs s !! c_db cl = Some db →
  masterhost g = false → setEnabled (cfg s) = true →
  pendingValue db k = Some v → v ≠ w →
  ∃ s' db' o, processInputStep c s = Ok (true, s') ∧ dbs s' = <[c_db cl := db']> (dbs s) ∧
    clients s' = <[c := set_cmd None [] (push_reply ROk (requesting setCommandProc [name; k; w] q cl))]>
                   (clients s) ∧
    same_slots s s' ∧ same_backend db db' ∧
    string_obj o w ∧ ∀ k', live g db' k' = if decide (k' = k) then Some (o, None) else live g db k'.
Proof.
  intros s g Hreach Hpc Hc Hq Hn Hst Hmu Hcl Hflag Had Hdb Hm Hen Hv Hne.
  apply reachable_inv in Hreach as [Hs _ _ _]. rewrite Hpc in Hs. cbn in Hs. fold s in Hs.
  assert (db_ok db) as Hok by (eapply Forall_lookup_1; [apply (swf_dbs s), Hs|done]).
  set (cl1 := requesting setCommandProc [name; k; w] q cl).
  set (s2 := set_clients (<[c := cl1]> (clients s)) s).
  assert (clients s2 !! c = Some cl1) as Hc2 by apply lookup_insert_eq.
  pose proof (checkNeed_conflict c cl1 k w v db s2 Hc2 eq_refl eq_refl eq_refl Hst Hmu Hdb Hen Hv Hne) as Hcheck.
  destruct (call_set_generic setCommandProc c cl1 (mkSetReq 0 k w None UNIT_SECONDS None None) s2)
    as (o & Ho & Hcall); [done..|].
  erewrite setGeneric_run in Hcall; [|done|done|done|done|done].
  change (setAborts _ _) with false in Hcall. cbn [sr_flags sr_key sr_expire sr_ok] in Hcall.
  set (db' := setResult _ _ _ _ _ _ db) in Hcall. set (s4 := afterCommand _ _ _ _ _ _ s2) in Hcall.
  exists (set_clients (<[c := set_cmd None [] (push_reply ROk cl1)]> (clients s4)) s4), db', o. split_and!.
  - rewrite (processInputStep_plain setCommandProc name [k; w] q c cl cl1 (push_reply ROk cl1) s s2 s4);
      try done; try by rewrite bool_decide_eq_true_2.
    + apply (short_not_quit name "set"); [done|cbn; lia].
    + by apply lookup_set.
    + apply lookup_insert_eq.
  - done.
  - cbn. by rewrite !insert_insert_eq.
  - done.
  - unfold db', setResult. cbn. apply same_backend_write_key.
  - done.
  - intros k'. unfold db'.
    rewrite (live_setResult g (mkSetReq 0 k w None UNIT_SECONDS None None) o 0 db Hm (db_ok_wf _ Hok)).
    unfold abs_setRequest. cbn. by case_decide.
Qed.

Lemma conflicting_set_skips_backend_witness :
  ∃ s' db' o, @processInputStep noOther firstOrder 2%nat (sys_srv conflictSystem) = Ok (true, s') ∧
    dbs s' = <[0%nat := db']> (dbs (sys_srv conflictSystem)) ∧ string_obj o (B "second") ∧
    live (srv_env (sys_srv conflictSystem)) db' (B "k") = Some (o, None).
Proof.
  destruct (@conflicting_set_skips_backend noOther firstOrder tableDatabase conflictSystem 2%nat None
    (default (createClient true) (clients (sys_srv conflictSystem) !! 2%nat))
    (B "SET") (B "k") (B "first") (B "second") [] (db0 conflictSystem))
    as (s' & db' & o & Hrun & Hd & _ & _ & _ & Ho & Hlive).
  - exact conflictSystem_reachable.
  - vm_compute. reflexivity.
  - vm_compute. reflexivity.
  - vm_compute. reflexivity.
  - vm_compute. reflexivity.
  - vm_compute. reflexivity.
  - vm_compute. reflexivity.
  - vm_compute. reflexivity.
  - vm_compute. reflexivity.
  - vm_compute. reflexivity.
  - vm_compute. reflexivity.
  - vm_compute. reflexivity.
  - vm_compute. reflexivity.
  - vm_compute. reflexivity.
  - discriminate.
  - exists s', db', o. split; [exact Hrun|]. split; [exact Hd|]. split; [exact Ho|].
    rewrite Hlive. reflexivity.
Defined.
